(* ===== verification/_CoqProject ===== *)
-Q . S2P
Prelude.v
PyDict.v
Doubles.v
PlanSolver.v
GreedySolver.v
FitSolver.v
PermLayout.v
Cooling.v
Annealing.v
ExhaustiveSearch.v
HbmPool.v
SlidingWindow.v
Fusion.v
Deadcode.v
Liveness.v
WorkDivision.v
SpanReduction.v
CoreMapping.v
SubrangeTransfer.v
Tilings.v
TilingGroups.v
SliceOwnership.v
TileIndex.v
SplitSpace.v
WorkPasses.v
Restickify.v
RestickifyBeam.v
InsertRestickify.v
CoreViews.v
ResidencyEdge.v
CoDivisions.v
CoOptimizer.v
TilingRuns.v
CoOptimizerInv.v
CoOptimizerMoves.v
CoOptimizerSearch.v
CoOptimizerPlan.v
CoOptimizerSeed.v
CoOptimizerResult.v
CoOptimizerExamples.v
BufferFacts.v
ResidencyRules.v
Allocator.v
AllocatorBuffers.v
AllocatorRelayout.v
AllocatorPlan.v
AllocatorCommit.v
AllocatorExamples.v
ContextSwitch.v
ContextSwitchSafe.v
ContextSwitchRules.v
GraphEdit.v
GraphEditValues.v
ConstantKey.v
DedupConstants.v
GraphEditPlaces.v
ScratchpadRun.v
ScratchpadPlaced.v
ScratchpadExamples.v
SdscSymbols.v
SdscIdents.v
Bundle.v
BundleRun.v
BundleBody.v
BundleNames.v
BundleCompile.v
BundleSafe.v
BundleTotal.v
BundleExamples.v
