(* ===== verification/Prelude.v ===== *)
(** * Verification of the torch-spyre compiler core

    torch-spyre is a PyTorch backend for the IBM Spyre accelerator.  Its own logic
    is in [src/torch_spyre/_inductor/]: passes that run inside PyTorch Inductor and
    decide, for every operation of a compiled graph, how the work is split over the
    cores and where each buffer lives.  This library models the decision
    procedures among them and proves what the rest of the compiler relies on.

    ** The program's parts and how they interact

    - Before scheduling, [dedup_constants.py] merges equal constants and
      [deadcode_elimination.py] removes the operations whose results nobody observes.
    - [optimize_restickify.py] chooses a device layout for every buffer, by a beam
      search for the least cost of the restickify copies between readers that need
      another one; [insert_restickify.py] commits the layouts, plans the copies and
      inserts them before their readers.
    - [work_division.py] divides each remaining operation.  [span_reduction_pass]
      commits the splits the per-core memory-span limit forces;
      [work_distribution_pass] then follows the user's hint or hands out the
      remaining cores by priority.  The verdicts of [work_division_constraints.py]
      block axes and restrict their factors.  The result is stored on the
      operation as a [TensorWorkDivision] ([op_spec.py]), which [core_mapping.py]
      turns into a slice for each core.
    - Scratchpad planning ([scratchpad/]) reads lifetimes off the divided graph
      ([utils.py]) and gives buffers addresses in each core's scratchpad.  The
      layout solvers share the contract of [plan_solver.py]; the annealing solver
      starts from a plan of another one and searches over the orders of a native
      packer ([csrc/perm_layout_native.cpp]); the exhaustive search wraps a solver and
      chooses core divisions and addresses together, and so does the co-optimizer
      ([sa_cooptimizer.py]), which anneals divisions, tilings and the packer's order as
      one state.  What a division means for a buffer is its per-core view
      ([core_mapping.py], [pass_utils.py]); a residency edge ([work_division.py]) compares
      the views of a producer and a consumer and carries a division from one to the
      other.
    - The allocator ([scratchpad/allocator.py]) drives a solver: it judges which buffers
      have one owner per slice ([work_division.py], [pass_utils.py]), asks the table of
      [residency_rules.py] which may be resident, builds the solver's buffers with their
      in-place edges, adds a destination for every planned relayout, and commits what the
      solver placed.  [lx_context_switching.py] then brackets the kernels that may
      overwrite the scratchpad with copies of what is live across them.
    - Coarse tiling ([wsr/], [scratchpad/coarse_tiling.py]) cuts large operations into
      loops over tiles: it enumerates the tilings of an operation, groups operations
      with one loop nest and restates strides and indices on the tile.
    - After scheduling, [fusion.py] groups nodes into kernels; then
      [hbm_pool_planning.py] gives the buffers that stay in HBM and never leave their
      bundle an offset in a shared pool.
    - Code generation ([codegen/]) describes every operation to the device compiler
      ([compute_ops.py], [superdsc.py]), with symbols for the addresses of its tensors, and
      writes for every kernel a function that binds the symbols and runs the descriptions
      in loops ([bundle.py]).
    - [sliding_window_plan.py] places the reads of sliding-window attention.

    ** Files

    - [Prelude]: Python results ([res], with the exceptions as values), loops over
      lists that may raise, stable sorting, address ranges, the tactics and the
      hint database [spyre].
    - [PyDict]: dictionaries in insertion order.
    - [Doubles]: Python floats that hold whole numbers, with their rounding.
    - [PlanSolver] ([scratchpad/plan_solver.py]): buffers, tilings and core
      divisions; the in-place precondition; [excluded] and [partition]; the
      specification [valid_plan] and the class [LayoutSolver] a solver meets.
    - [GreedySolver] ([greedy_solver.py]): the time-stepping solver, with the
      buffers as a heap of mutable objects.
    - [FitSolver] ([firstfit_bestfit_solver.py]): Kahn's topological order, the free
      gaps of a lifetime, and the two gap policies as instances of [GapPolicy].
    - [PermLayout] ([csrc/perm_layout_native.cpp], the packer
      [NativePermutationLayoutSolver], and [tests/inductor/reference_perm_layout.py], the
      reference the tests compare it with): both packers, operation by operation.
    - [Cooling] ([cooling_schedules.py]): the schedules as instances of
      [CoolingSchedule]; [peak_memory_load].
    - [Annealing] ([simulated_annealing.py]): the whole solver, on the packer of
      [PermLayout], the schedules of [Cooling] and the solvers above.
    - [ExhaustiveSearch] ([exhaustive_search.py]): the search, for any inner solver
      that meets [LayoutSolver].
    - [HbmPool] ([hbm_pool_planning.py]): [Allocator], live ranges, candidates, the
      loop over a bundle and over the bundles.
    - [SlidingWindow] ([sliding_window_plan.py]): the whole module.
    - [Fusion] ([fusion.py]): grouping, the fusion pass and the early estimate.
    - [Deadcode] ([deadcode_elimination.py]): the liveness iteration and the removal.
    - [Liveness] ([scratchpad/utils.py]): [calculate_liveness],
      [counted_loop_lifetime_overrides], [ops_in_offset_mutation_component].
    - [WorkDivision] ([work_division.py], [pass_utils.py]): sizes with bucket
      metadata, legal factors, [multi_dim_iteration_space_split].
    - [SpanReduction] ([work_division.py], [work_division_constraints.py]): spans, the
      forced-split search, stick adjustment, constraint merging, priorities.
    - [CoreMapping] ([core_mapping.py], [op_spec.py], [pass_utils.py]): mixed-radix,
      grouped and partitioned mappings, ownership, aligned splits.
    - [SubrangeTransfer] ([core_mapping.py]): the certificate of a transfer of a part of a
      tensor between two divisions, and the offset of a local read.
    - [Tilings] ([wsr/enumerate_tilings.py], [wsr/span_overflow_hint_analysis.py],
      [wsr/loop_tiling_common.py], [scratchpad/coarse_tiling.py]): split counts, the
      tilings of one operation, the moves between them and the option list.
    - [TilingGroups] ([scratchpad/coarse_tiling.py], [wsr/coarse_tile.py]): groups of
      operations with one nest, their hint ids and what is handed to the loop rewrite.
    - [SliceOwnership] ([slice_ownership.py]): the affine and floor projections of a
      slice onto a loop, and the factoring of an axis.
    - [TileIndex] ([wsr/tile.py]): strides, offsets and indices on a tile.
    - [SplitSpace] ([work_division.py]): [WorkDivisionContext], the enumerated menu and
      [OpSplitSpace] with its moves.
    - [WorkPasses] ([work_division.py]): the two passes and the user hints on one
      operation, composed from the files above.
    - [Restickify] ([optimize_restickify.py]): edge and node costs over the class
      [StickRules] of stick rules, the reordering, the backward estimate and the beam.
    - [RestickifyBeam]: what the search of [Restickify] guarantees.
    - [InsertRestickify] ([insert_restickify.py]): [finalize_layouts], the plan of copies,
      the redirection of loads, the edit of the operation list and the loop metadata
      a copy inherits.
    - [CoreViews] ([core_mapping.py], [pass_utils.py]): per-core views, their comparison,
      expansion and inversion, and the copies between two ownerships.
    - [ResidencyEdge] ([work_division.py]): the class of that name.
    - [CoDivisions] ([scratchpad/sa_cooptimizer.py]): configurations, the two kinds of
      division source and the two kinds of edge relation.
    - [CoOptimizer] ([scratchpad/sa_cooptimizer.py]): the engine
      [SaCoOptimizingSolver], on the sources above and the packer of [PermLayout].
    - [TilingRuns]: the runs the engine scores and the groups of [TilingGroups].
    - [CoOptimizerInv], [CoOptimizerMoves], [CoOptimizerSearch]: the invariant of the
      engine's state, what a move and a step keep of it.  [CoOptimizerPlan],
      [CoOptimizerSeed], [CoOptimizerResult]: the topology, the seed and the plan of
      a well-formed problem.  [CoOptimizerExamples]: a problem with its numbers.
    - [BufferFacts] ([scratchpad/utils.py], [pass_utils.py], [work_division.py]): the graph as
      the allocator sees it, the users of a buffer, and the judge that accepts one view
      for all of them.
    - [ResidencyRules] ([residency_rules.py], [allocator.py]): the ordered table of rules
      with its exceptions and the answers the allocator gives to its questions.
    - [Allocator] ([allocator.py]): [ScratchpadAllocator.plan_allocation] with the stages it
      is made of.  [AllocatorBuffers], [AllocatorRelayout], [AllocatorPlan],
      [AllocatorCommit]: what the built buffers, the relayout destinations, the solved
      plan and the committed relayouts satisfy.  [AllocatorExamples]: a graph on which
      the theorems are applied.
    - [ContextSwitch] ([lx_context_switching.py]): the pass, and a semantics of operation
      lists in which kernels may overwrite the scratchpad.  [ContextSwitchSafe]: the
      simulation.  [ContextSwitchRules]: the residency rules discharge its hypotheses.
    - [GraphEdit] ([graph_editor.py], [allocator.py], [lx_relayout.py]): the commit of a solved
      plan to the graph, [_push_allocation], with its clones and redirected readers.
      [GraphEditValues], [GraphEditPlaces]: what it keeps and where buffers end up.
    - [ConstantKey] ([dedup_constants.py]): [_constant_key], Python's [==] on scalars, and
      grouping by a key.  [DedupConstants] ([dedup_constants.py]): the whole pass.
    - [ScratchpadRun]: a machine with HBM and a scratchpad whose slots overwrite each other;
      [ScratchpadPlaced]: allocated graphs run on it as without a scratchpad.
      [ScratchpadExamples]: graphs on which the theorems are applied, and three they exclude.
    - [SdscSymbols] ([codegen/compute_ops.py], [codegen/superdsc.py]): the symbols of one
      operation and the fields of its description that hold them.  [SdscIdents]: what the
      identifiers of a description depend on, and when two are equal.
    - [Bundle] ([codegen/bundle.py]): the whole module.  [BundleRun]: an interpreter of the
      emitted functions, and what their declarations bind.  [BundleBody]: loops and
      executions.  [BundleNames]: the printed names.  [BundleCompile]: the compiled
      descriptions and the cache.  [BundleSafe], [BundleTotal]: bundles compute the addresses
      and are generated.  [BundleExamples]: bundles with their numbers.

    ** How the code is represented

    A Python function is a Rocq function under its own name; a nested loop body has
    a definition of its own.  A function that can raise returns [res], and a raised
    exception is [Raise e].  A [dict] whose order is observed is an association list
    ([PyDict]), another one a [gmap]; a [set] is a [gset].  Python integers are
    unbounded, hence [Z].  Objects mutated through several references are cells of a
    heap (the greedy solver) or carry their identity (allocations in [HbmPool]).
    Inductor nodes and sympy expressions belong to other packages: an operation is
    the record of the attributes the modelled code reads, and an expression the
    record of the questions it asks.  Functions of other packages are arguments.
    Where the code computes at a fixed width, so does the model: the native packer's sums
    wrap at 64 bits ([PermLayout.wrap64]) and the costs of the layout search are floats
    rounded at 53 bits ([Doubles]); the theorems bound the sizes (2^61 bytes) or the costs
    (2^53) and concrete inputs beyond the bounds show what is lost there.
    The temperatures of the schedules are a class of operations ([Cooling]) whose few laws are
    hypotheses where they are used; the seeded generator is a state with its draws
    ([Annealing], [CoDivisions]); the compiled cost expression is its symbols and a price.

    ** What the theorems show

    - Layout solvers: each solver returns a plan in which placed buffers are aligned,
      within the limit and, when their lifetimes overlap, disjoint unless one reuses
      the other in place ([greedy_plan_valid], [fit_solvers_refine]); the gap solvers
      leave out only what does not fit ([fit_plan_maximal]) and place parents first
      ([placement_order_topological]); paired groups are all placed or all left out
      ([greedy_paired_atomic]); the greedy solver always returns ([greedy_plan_total]).
    - Permutation packer: the native packer and the reference agree after every
      sequence of operations, exceptions included, while sizes, capacity and alignment are at
      most 2^61 bytes ([packers_agree]), and its plans are valid and reported truthfully
      ([packer_plan_valid]).  [overlong_size_wraps] is a size for which a sum of the native
      packer wraps and it places what the reference leaves out.
    - Annealing: what the solver returns is a valid plan ([annealing_plan_safe]), it
      returns ([annealing_returns]) and never loses against its initial order, nor,
      without in-place pairs, against the plan that order came from
      ([annealing_never_worse], [solver_order_settles]); a step takes the best improving
      reinsertion ([rotation_step]), tidying moves no buffer ([tidying_step]), and the
      schedule spends exactly its budget ([reheating_run]).  [child_first_loses],
      [probe_bound_misses] and [tidying_leaves_dirty] are the concrete inputs on which
      three comments of the solver do not hold.
    - Exhaustive search: no assignment of divisions has a lower HBM cost
      ([exhaustive_optimal]), the committed plan is safe for the chosen footprints
      ([exhaustive_plan_safe]), and a resident buffer's division matches its readers
      ([exhaustive_resident_matches]).
    - HBM pool: the allocator keeps its blocks disjoint ([allocator_sound]), the
      buffers of a bundle that are live together do not share bytes
      ([pool_offsets_disjoint]), a value survives until its last read when its buffer
      is written once ([pool_values_safe]) and need not otherwise
      ([pool_rewrite_clobbers]); only buffers local to a bundle take part
      ([candidate_scoped]); the pass returns ([hbm_pool_planning_total]).
    - Sliding window: an accepted plan covers every row's window and reads inside the
      cache ([plan_windows_covered], [plan_reads_in_bounds]); [fully_attended_iff] and
      [query_blocking_largest] characterise the helpers.
    - Fusion: kernels are the maximal runs ([fusion_runs]), every node is in one, only
      no-ops are moved ([fusion_keeps_order]), and the early estimate is the real
      grouping ([estimate_matches_fusion]).
    - Dead code: the iteration reaches the least fixpoint within its bound
      ([live_operations_lfp]); exactly the other operations are removed
      ([deadcode_elimination_spec]) and every read keeps its producer
      ([deadcode_keeps_producers]).
    - Constants: merging keeps the graph's values ([dedup_keeps_values]) and leaves one
      constant of each key, before its readers ([dedup_one_per_key]), when no duplicate is an
      output: the code drops such a one too ([output_constant_dropped]), and it merges a zero
      with a negative zero.
    - Liveness: uses are exactly the accesses ([liveness_exact]), they pass the buffer
      constructor's assertions ([liveness_builds_buffers]), values that cross into a
      loop outlive it ([crossing_values_outlive_loop]), and the offset component is
      reachability ([offset_component_exact]).
    - Work division: what the passes commit is legal ([divide_op_legal]), a blocked axis and
      all but one reduction axis being whole where their domains admit 1; so are the
      distribution and the forced splits on their own ([split_is_legal],
      [must_split_legal]), which are maximal and minimal respectively
      ([split_saturates_outputs], [span_search_minimal]); the distribution fails
      exactly when the mandatory splits do not fit ([split_total]); the menu is the
      set of legal splits ([menu_exact]) and the moves stay legal and can be undone
      ([neighbours_legal_reversible]); constraint verdicts merge by union and
      intersection ([constraints_merge]).  [default_split_two_reductions] exhibits the
      one case in which the default split divides two reduction axes.
    - Core mapping: slices and cores correspond one to one and grouped owners are
      contiguous ([core_mapping_bijective], [partition_groups_contiguous],
      [ownership_covers], [aligned_split_exact]).  A certified transfer brings every element
      of a destination tile from the core that owns it, to its place ([transfer_complete]),
      and a local read finds it at the common offset ([local_read_exact]).
    - Tiling: the enumeration is the set of admitted tilings and its moves reach and
      undo each other ([tilings_enumerated], [tiling_moves]); the options are legal nests
      the lowering resolves ([tile_options_sound]) except for one kind of reduction
      ([reduction_option_not_lowered]); groups are maximal ([tiling_groups_spec]) and what
      they hand over is consistent ([apply_tilings_spec]).
    - Slices and tiles: a projected axis belongs to the loop the proof names
      ([affine_projection_owns], [floor_projection_owns]), factored axes recombine
      ([factored_axis_owns]), and strides and indices restated on a tile address the same
      elements ([tile_stride_correct], [tile_index_correct]).
    - Layout search: the search commits a feasible assignment or says that there is
      none in the beam ([beam_commits_feasible]).  While the live candidates fit the beam
      it is no dearer than any feasible assignment whose estimates the floats hold exactly
      ([beam_optimal]).  Above 2^53 rounded bounds tie and the first state is kept
      ([merge_ties]).  The estimate, computed exactly, is a lower bound on graphs
      without shared readers ([estimate_admissible]) and not in general
      ([estimate_counts_paths]).
    - Restickify insertion: finalizing plans copies of exactly the committed cost, counted in
      whole bytes ([finalize_realizes_cost]), the copies go directly before their readers
      ([insert_restickify_order]), loads reach the copy planned for them
      ([loads_follow_plan]) with one exception ([trailing_edge_redirected]), and the
      advance of a tiled read is taken by the copy or by the reader, never by both
      ([restickify_advance_split]).
    - Views and edges: views that compare equal make every read local
      ([equal_views_read_locally]); a division carried across an edge is legal and accepted
      ([propagated_divisions_sound]), and the table of pairs is the pairwise test
      ([match_pairs_are_compatible]).
    - Co-optimizer: its plans are valid for the chosen per-core sizes, name offered or
      legal divisions and keep a buffer only if its readers accept its division
      ([joint_plan_safe]); they are no worse than the seed ([joint_plan_improves]) and the
      search returns them ([joint_plan_returns]).  Every move keeps the engine's
      invariant ([moves_keep_invariant]), the flood of a recolor ends and is consistent
      ([flood_colours_consistently]), and the stopping test is exact
      ([resident_test_exact]).  The tiled runs it scores are the groups that are formed
      when the plan is applied ([runs_are_groups]).
    - Allocator: the buffers it builds meet the preconditions of every layout solver
      ([generated_buffers_typed]); whatever solver runs, the committed addresses are a valid
      plan, residents passed the rules and slots change hands only where a pointwise
      operation reads what it overwrites ([placement_is_safe]); without relayouts it
      returns whenever the buffers can be built ([placement_returns]), and with a solver that
      places pairs together no assertion on relayouts fires and accepted plans carry
      disjoint addresses ([relayouts_commit]).  A view the judge accepts agrees with every
      user ([accepted_users_agree]).  [unsized_input_raises] is an input on which the
      builder raises.
    - End to end: an allocated graph computes on the machine with a scratchpad what it
      computes without one ([scratchpad_transparent]), for one pass over its operations;
      committing the plan keeps the graph's values ([push_keeps_values]) and leaves inputs
      and outputs in HBM ([pushed_places]).  [pinned_input_misses_mutation] and
      [returned_twice_stays_resident] show why inputs must not be mutated and outputs be
      distinct: the code does not ask.
    - Context switching: on protected residents the bracketed list computes what the
      original computes without interference ([context_switching_transparent]); the rules
      protect the buffers of operations ([rules_protect_residents]) but not those of graph
      inputs ([input_live_across_multi_output]).
    - Code generation: the identifier a description holds for a tensor and a core stands for
      the address of that core's slice ([start_addresses_resolve]).  A generated function, run
      by the interpreter, executes every operation in loop order with a description of it
      and binds its identifiers to the right addresses ([bundle_computes_addresses]) when there
      are no dynamic sizes and tensors of an operation that start at one address advance
      alike; [shared_symbol_advances] shows what happens otherwise.  [generate_bundle]
      returns ([bundle_generated]), and different values have different names
      ([names_distinct]).

    ** Fuel

    Five loops carry fuel.  Kahn's loop ([FitSolver.kahn_loop]) gets the number of
    buffers, since every round orders a new one; the worklist of
    [Liveness.close] gets the number of seeds plus the number of edges, since each
    edge is pushed at most once.  The annealing loop gets one step more than the
    schedule has [remaining]; the tidying loop of [Annealing] gets [n * n + n], since a
    swap removes one of at most [n * (n - 1) / 2] inversions and steps back once.
    The flood of the co-optimizer gets the number of buffers, since each is pushed at
    most once.  [kahn_result], [close_spec], [anneal_loop_spec], [clean_loop_spec] and
    [flood_colours_consistently] show that none runs out.  The iteration of
    [Deadcode] has the code's own bound, one more than the number of operations.  Every other loop is over a list.

    ** What is not modelled

    The sixteen constraint functions, layout propagation, the FX rewrites and the lowerings
    work on sympy expressions and Inductor nodes throughout.  Of code generation, the parsing
    of an operation ([parse_op_spec]) is an argument, the fields of a description that
    only the device compiler reads are opaque, and the KTIR emitter is left out.  Of the allocator, the joint path
    (menus and edges over sympy) with its drain plans and staged collectives is left out,
    and the relayout planner ([lx_relayout.py]) is an argument.  The CP-SAT solver delegates its search to OR-Tools.
    The analytic models of run time
    compute with floats throughout.  The runtime, streams and the rest of the native
    extension are input and output.  Log lines, timings and memo tables are left out of
    the modelled parts. *)

From stdpp Require Export base tactics numbers list gmap strings sorting pretty relations.
From Stdlib Require Export ZArith Lia.


Global Open Scope Z_scope.

(** ** Python results: a value or a raised exception *)

(** [OutOfFuel] is no Python exception: it is the result of a loop whose fuel ran
    out, which the totality theorems rule out. *)

Inductive exn : Set :=
  | ValueError
  | AssertionError
  | KeyError
  | IndexError
  | TypeError
  | ZeroDivisionError
  | Unsupported
  | StopIteration
  | RuntimeError
  | AttributeError
  | NotImplementedError
  | OutOfFuel.

#[export] Instance exn_eq_dec : EqDecision exn.
Proof. solve_decision. Defined.

Inductive res (A : Type) : Type :=
  | Ok (a : A)
  | Raise (e : exn).
Arguments Ok {_} _.
Arguments Raise {_} _.

#[export] Instance res_ret : MRet res := fun A a => Ok a.
#[export] Instance res_bind : MBind res := fun A B f m =>
  match m with Ok a => f a | Raise e => Raise e end.
#[export] Instance res_fmap : FMap res := fun A B f m =>
  match m with Ok a => Ok (f a) | Raise e => Raise e end.

(** Python's [assert c]. *)
Definition py_assert (c : bool) : res unit :=
  if c then Ok tt else Raise AssertionError.

(** Python's [if c: raise e]. *)
Definition raise_if (c : bool) (e : exn) : res unit :=
  if c then Raise e else Ok tt.

(** A [for] loop whose body may raise. *)
Fixpoint for_each {A S : Type} (body : A -> S -> res S) (l : list A) (s : S) : res S :=
  match l with
  | [] => Ok s
  | x :: l' => s' ← body x s; for_each body l' s'
  end.

Lemma bind_Ok {A B} (m : res A) (f : A -> res B) b :
  m ≫= f = Ok b -> exists a, m = Ok a /\ f a = Ok b.
Proof. destruct m; simpl; [eauto | discriminate]. Qed.

Lemma bind_Ok_l {A B} (a : A) (f : A -> res B) : (Ok a : res A) ≫= f = f a.
Proof. reflexivity. Qed.

Lemma py_assert_Ok c u : py_assert c = Ok u -> c = true.
Proof. destruct c; [done | discriminate]. Qed.

Lemma raise_if_Ok c e u : raise_if c e = Ok u -> c = false.
Proof. destruct c; [discriminate | done]. Qed.

(** The invariant rule of a [for] loop: [I done s] after the elements [done]. *)
Lemma for_each_ind {A S} (body : A -> S -> res S) (I : list A -> S -> Prop) l s s' :
  (forall done x rest s1 s2, l = done ++ x :: rest -> I done s1 ->
     body x s1 = Ok s2 -> I (done ++ [x]) s2) ->
  I [] s -> for_each body l s = Ok s' -> I l s'.
Proof.
  intros Hstep H0 Hrun.
  assert (forall rest done s1, l = done ++ rest -> I done s1 ->
            for_each body rest s1 = Ok s' -> I l s') as Hgen.
  { induction rest as [|x rest IH]; intros done s1 Hl HI Hr; simpl in Hr.
    - injection Hr as ->. by rewrite Hl, app_nil_r.
    - apply bind_Ok in Hr as (s2 & Hx & Hr). eapply (IH (done ++ [x])); [|by eauto|done].
      by rewrite Hl, <- app_assoc. }
  by apply (Hgen l [] s).
Qed.

(** A loop whose body never raises under the invariant returns. *)
Lemma for_each_total {A S} (body : A -> S -> res S) (I : list A -> S -> Prop) l s :
  (forall done x rest s1, l = done ++ x :: rest -> I done s1 ->
     exists s2, body x s1 = Ok s2 /\ I (done ++ [x]) s2) ->
  I [] s -> exists s', for_each body l s = Ok s' /\ I l s'.
Proof.
  intros Hstep H0.
  assert (forall rest done s1, l = done ++ rest -> I done s1 ->
            exists s', for_each body rest s1 = Ok s' /\ I l s') as Hgen.
  { induction rest as [|x rest IH]; intros done s1 Hl HI; simpl.
    - exists s1. by rewrite Hl, app_nil_r.
    - destruct (Hstep done x rest s1 Hl HI) as (s2 & -> & HI2). simpl.
      apply (IH (done ++ [x])); [|done]. by rewrite Hl, <- app_assoc. }
  by apply (Hgen l [] s).
Qed.

Lemma for_each_app {A S} (body : A -> S -> res S) l k s :
  for_each body (l ++ k) s = (s' ← for_each body l s; for_each body k s').
Proof. revert s. induction l as [|x l IH]; intros s; [done|]. cbn [app for_each]. destruct (body x s); [apply IH | done]. Qed.

(** [l[i]] *)
Definition py_at {A} (l : list A) (i : nat) : res A :=
  match l !! i with Some x => Ok x | None => Raise IndexError end.

(** [any(p(x) for x in l)] with a test that may raise *)
Fixpoint py_any {A} (p : A -> res bool) (l : list A) : res bool :=
  match l with
  | [] => Ok false
  | x :: l' => b ← p x; if (b : bool) then Ok true else py_any p l'
  end.

(** A list comprehension whose element expression may raise. *)
Fixpoint py_map {A B : Type} (f : A -> res B) (l : list A) : res (list B) :=
  match l with
  | [] => Ok []
  | x :: l' => y ← f x; k ← py_map f l'; Ok (y :: k)
  end.

Lemma py_map_Ok {A B} (f : A -> res B) l k :
  py_map f l = Ok k <-> Forall2 (fun x y => f x = Ok y) l k.
Proof.
  split.
  - revert k. induction l as [|x l IH]; intros k H; simpl in H.
    + injection H as <-. constructor.
    + apply bind_Ok in H as (y & Hy & H). apply bind_Ok in H as (k' & Hk & H).
      injection H as <-. constructor; auto.
  - induction 1 as [|x y l k Hx _ IH]; simpl; [done|]. rewrite Hx. simpl. by rewrite IH.
Qed.

Lemma py_map_total {A B} (f : A -> res B) l :
  (forall x, x ∈ l -> exists y, f x = Ok y) -> exists k, py_map f l = Ok k.
Proof.
  induction l as [|x l IH]; intros H; simpl; [eauto|].
  destruct (H x) as [y ->]; [apply list_elem_of_here|]. simpl.
  destruct IH as [k ->]; [|simpl; eauto]. intros z Hz. apply H. by apply list_elem_of_further.
Qed.

(** ** Running with an exceptional postcondition *)

(** [m] returns a value of [P] or raises an exception of [E]: with everything allowed
    for [E] this is partial correctness, with nothing allowed total correctness. *)
Definition wp {A} (E : exn -> Prop) (m : res A) (P : A -> Prop) : Prop :=
  match m with Ok a => P a | Raise e => E e end.

Lemma wp_bind {A B} E (m : res A) (f : A -> res B) P : wp E m (fun a => wp E (f a) P) -> wp E (m ≫= f) P.
Proof. by destruct m. Qed.

Lemma wp_mono {A} E (m : res A) (P Q : A -> Prop) : wp E m P -> (forall a, P a -> Q a) -> wp E m Q.
Proof. destruct m; cbn; auto. Qed.

Lemma wp_Ok {A} E (m : res A) (P : A -> Prop) a : m = Ok a -> P a -> wp E m P.
Proof. by intros ->. Qed.

Lemma wp_use {A} E (m : res A) P a : wp E m P -> m = Ok a -> P a.
Proof. by intros H ->. Qed.

Lemma wp_total {A} (m : res A) P : wp (fun _ => False) m P -> exists a, m = Ok a /\ P a.
Proof. destruct m as [a|e]; [eauto | done]. Qed.

Lemma wp_for_each {A S} E (body : A -> S -> res S) (I : list A -> S -> Prop) l s :
  (forall pre x rest s1, l = pre ++ x :: rest -> I pre s1 -> wp E (body x s1) (I (pre ++ [x]))) ->
  I [] s -> wp E (for_each body l s) (I l).
Proof.
  intros Hstep H0.
  assert (forall rest pre s1, l = pre ++ rest -> I pre s1 -> wp E (for_each body rest s1) (I l)) as Hgen.
  { induction rest as [|x rest IH]; intros pre s1 Hl HI; cbn [for_each]; [rewrite app_nil_r in Hl; by subst|].
    apply wp_bind. eapply wp_mono; [by eapply Hstep|]. intros s2 H2. eapply IH; [|exact H2]. by rewrite <- app_assoc. }
  by apply (Hgen l []).
Qed.

Lemma wp_py_map {A B} E (f : A -> res B) (Q : A -> B -> Prop) l :
  (forall x, x ∈ l -> wp E (f x) (Q x)) -> wp E (py_map f l) (Forall2 Q l).
Proof.
  induction l as [|x l IH]; intros H; cbn [py_map]; [constructor|].
  apply wp_bind. eapply wp_mono; [apply H; left|]. intros y Hy. apply wp_bind.
  eapply wp_mono; [apply IH; intros z Hz; apply H; by right|]. intros k Hk. by constructor.
Qed.

Lemma wp_raise_if E c e (P : unit -> Prop) : (c = true -> E e) -> (c = false -> P tt) -> wp E (raise_if c e) P.
Proof. unfold raise_if. destruct c; cbn; auto. Qed.

(** [l[i]] on a list, with Python's negative positions. *)
Definition py_nth {A} (l : list A) (i : Z) : res A :=
  let j := if i <? 0 then i + Z.of_nat (length l) else i in
  if j <? 0 then Raise IndexError
  else match l !! Z.to_nat j with Some x => Ok x | None => Raise IndexError end.

Lemma py_nth_nonneg {A} (l : list A) (i : Z) x :
  0 <= i -> py_nth l i = Ok x <-> l !! Z.to_nat i = Some x.
Proof.
  intros Hi. unfold py_nth. destruct (Z.ltb_spec i 0); [lia|]. destruct (Z.ltb_spec i 0); [lia|].
  destruct (l !! Z.to_nat i); split; congruence.
Qed.

(** ** Tactics *)

(** Open every monadic bind in the hypotheses that is known to return [Ok]. *)
Ltac inv_res :=
  repeat match goal with
  | H : _ ≫= _ = Ok _ |- _ =>
      apply bind_Ok in H; destruct H as (? & ? & ?)
  | H : py_assert _ = Ok _ |- _ => apply py_assert_Ok in H
  | H : raise_if _ _ = Ok _ |- _ => apply raise_if_Ok in H
  | H : Ok _ = Ok _ |- _ => injection H as H; subst
  | H : Raise _ = Ok _ |- _ => discriminate H
  | H : mret _ = Ok _ |- _ => injection H as H; subst
  | u : unit |- _ => destruct u
  end.

(** Split the boolean connectives of the hypotheses. *)
Ltac split_bools :=
  repeat match goal with
  | H : _ && _ = true |- _ => apply andb_true_iff in H; destruct H
  | H : _ || _ = false |- _ => apply orb_false_iff in H; destruct H
  | H : negb _ = true |- _ => apply negb_true_iff in H
  | H : negb _ = false |- _ => apply negb_false_iff in H
  | H : bool_decide _ = true |- _ => apply bool_decide_eq_true in H
  | H : bool_decide _ = false |- _ => apply bool_decide_eq_false in H
  end.

(** Case analysis on every conditional in sight, closing the arithmetic. *)
Ltac cases_lia :=
  repeat (case_match; split_bools; simplify_eq); try lia.

(** Case analysis on the integer comparisons of the goal. *)
Ltac zcases :=
  repeat match goal with
  | |- context [?a <? ?b] => destruct (Z.ltb_spec a b); try lia
  | |- context [?a <=? ?b] => destruct (Z.leb_spec a b); try lia
  | |- context [?a =? ?b] => destruct (Z.eqb_spec a b); try lia
  end.

(** Two lookups of the same key: keep the variables of the first. *)
Ltac same_lookup H1 H2 :=
  rewrite H1 in H2; injection H2 as H2; match type of H2 with _ = ?y => try subst y end.

(** Membership in an explicit list. *)
Ltac list_mem :=
  solve [ assumption | apply list_elem_of_here | apply list_elem_of_further; list_mem
        | apply elem_of_app; left; list_mem | apply elem_of_app; right; list_mem ].

Create HintDb spyre.

(** ** Integers *)

(** Python's integer ceiling division, written [-(-a // b)]. *)
Lemma neg_div_neg_spec a b :
  0 < b -> a <= - (- a / b) * b < a + b.
Proof. intros Hb. pose proof (Z.div_mod (-a) b). pose proof (Z.mod_pos_bound (-a) b). nia. Qed.

Lemma add_div_up_spec a b :
  0 < b -> a <= (a + b - 1) / b * b < a + b.
Proof.
  intros Hb. pose proof (Z.div_mod (a + b - 1) b). pose proof (Z.mod_pos_bound (a + b - 1) b).
  nia.
Qed.

(** The two spellings of ceiling division in the code base agree. *)
Lemma ceil_spellings a b : 0 < b -> (a + b - 1) / b = - (- a / b).
Proof.
  intros Hb. pose proof (add_div_up_spec a b Hb). pose proof (neg_div_neg_spec a b Hb). nia.
Qed.

(** The least multiple of [b] not below [a]: what every aligner computes. *)
Lemma round_up_least a b c :
  0 < b -> (b | c) -> a <= c -> (a + b - 1) / b * b <= c.
Proof.
  intros Hb [k ->] Hle. pose proof (add_div_up_spec a b Hb) as [_ Hlt].
  apply Z.mul_le_mono_nonneg_r; [lia|].
  assert ((a + b - 1) / b * b < (k + 1) * b) as Hlt' by lia.
  apply Z.mul_lt_mono_pos_r in Hlt'; lia.
Qed.

(** ** Half-open intervals *)

Definition ranges_disjoint (lo1 hi1 lo2 hi2 : Z) : Prop := hi1 <= lo2 \/ hi2 <= lo1.

#[export] Instance ranges_disjoint_dec lo1 hi1 lo2 hi2 :
  Decision (ranges_disjoint lo1 hi1 lo2 hi2).
Proof. unfold ranges_disjoint. apply _. Defined.

Lemma ranges_disjoint_sym lo1 hi1 lo2 hi2 :
  ranges_disjoint lo1 hi1 lo2 hi2 -> ranges_disjoint lo2 hi2 lo1 hi1.
Proof. unfold ranges_disjoint. lia. Qed.

Lemma ranges_disjoint_sub lo1 hi1 lo2 hi2 lo1' hi1' :
  lo1 <= lo1' -> hi1' <= hi1 ->
  ranges_disjoint lo1 hi1 lo2 hi2 -> ranges_disjoint lo1' hi1' lo2 hi2.
Proof. unfold ranges_disjoint. lia. Qed.

#[export] Hint Resolve ranges_disjoint_sym : spyre.

(** ** Python's stable [sorted] *)

Section py_sorted.
Context {A : Type} (leb : A -> A -> bool).

Fixpoint insert_sorted (x : A) (l : list A) : list A :=
  match l with
  | [] => [x]
  | y :: l' => if leb x y then x :: y :: l' else y :: insert_sorted x l'
  end.

(** Elements that compare equal keep their order: [x] goes before the later
    elements it is [leb] to. *)
Definition py_sorted (l : list A) : list A := foldr insert_sorted [] l.

Lemma insert_sorted_perm x l : insert_sorted x l ≡ₚ x :: l.
Proof.
  induction l as [|y l IH]; simpl; [done|].
  case_match; [done|]. rewrite IH. apply Permutation_swap.
Qed.

Lemma py_sorted_perm l : py_sorted l ≡ₚ l.
Proof.
  induction l as [|x l IH]; simpl; [done|]. by rewrite insert_sorted_perm, IH.
Qed.

Lemma elem_of_py_sorted x l : x ∈ py_sorted l <-> x ∈ l.
Proof. by rewrite py_sorted_perm. Qed.

Lemma length_py_sorted l : length (py_sorted l) = length l.
Proof. by rewrite py_sorted_perm. Qed.

Context (leb_total : forall x y, leb x y = true \/ leb y x = true).
Context (leb_trans : forall x y z, leb x y = true -> leb y z = true -> leb x z = true).

Lemma insert_sorted_sorted x l :
  StronglySorted (fun a b => leb a b = true) l ->
  StronglySorted (fun a b => leb a b = true) (insert_sorted x l).
Proof.
  induction 1 as [|y l Hs IH Hy]; simpl; [repeat constructor|].
  destruct (leb x y) eqn:E.
  - constructor; [by constructor|]. constructor; [done|].
    eapply Forall_impl; [exact Hy|]. simpl. eauto.
  - constructor; [done|]. rewrite insert_sorted_perm. constructor; [|done].
    destruct (leb_total x y); congruence.
Qed.

Lemma py_sorted_sorted l : StronglySorted (fun a b => leb a b = true) (py_sorted l).
Proof.
  induction l as [|x l IH]; simpl; [constructor | by apply insert_sorted_sorted].
Qed.

End py_sorted.

(** Sortedness for a relation coarser than the key the sort compares. *)
Lemma py_sorted_coarse {A} (leb : A -> A -> bool) (R : A -> A -> Prop) l :
  (forall x y, leb x y = true -> R x y) -> (forall x y, leb x y = false -> R y x) ->
  (forall x y z, R x y -> R y z -> R x z) -> StronglySorted R (py_sorted leb l).
Proof.
  intros Ht Hf Htr. induction l as [|x l IH]; simpl; [constructor|].
  induction IH as [|y k Hs IHk Hy]; simpl; [repeat constructor|].
  destruct (leb x y) eqn:E.
  - constructor; [by constructor|]. constructor; [auto|].
    eapply Forall_impl; [exact Hy|]. simpl. eauto.
  - constructor; [done|]. rewrite insert_sorted_perm. constructor; [auto | done].
Qed.

Lemma StronglySorted_sublist {A} (R : A -> A -> Prop) l k :
  l `sublist_of` k -> StronglySorted R k -> StronglySorted R l.
Proof.
  induction 1 as [|x l k Hs IH|x l k Hs IH]; intros Hk; [done | |];
    apply StronglySorted_cons in Hk as [Hx Hk]; [|auto].
  constructor; [auto|]. rewrite Forall_forall in Hx |- *.
  intros y Hy. apply Hx. by eapply elem_of_sublist.
Qed.

Lemma StronglySorted_lookup_lt {A} (R : A -> A -> Prop) (l : list A) i j x y :
  StronglySorted R l -> (i < j)%nat -> l !! i = Some x -> l !! j = Some y -> R x y.
Proof.
  intros Hs. revert i j. induction Hs as [|a l Hs IH Ha]; intros i j Hij Hi Hj; [by rewrite lookup_nil in Hi|].
  destruct j as [|j]; [lia|]. destruct i as [|i]; cbn in *.
  - injection Hi as ->. rewrite Forall_forall in Ha. apply Ha. by eapply list_elem_of_lookup_2.
  - eapply (IH i j); [lia | done | done].
Qed.

(** ** Lists *)

(** Python's [min(..., default=d)] and [max(..., default=d)] over integers. *)
Definition list_min (d : Z) (l : list Z) : Z :=
  match l with [] => d | x :: l' => foldl Z.min x l' end.
Definition list_max (d : Z) (l : list Z) : Z :=
  match l with [] => d | x :: l' => foldl Z.max x l' end.

Lemma foldl_min_le l : forall a, foldl Z.min a l <= a /\ (forall x, x ∈ l -> foldl Z.min a l <= x).
Proof.
  induction l as [|y l IH]; intros a; simpl; [split; [lia | set_solver]|].
  destruct (IH (Z.min a y)) as [H1 H2]. split; [lia|].
  intros x [-> | Hx]%elem_of_cons; [lia | by apply H2].
Qed.

Lemma foldl_max_ge l : forall a, a <= foldl Z.max a l /\ (forall x, x ∈ l -> x <= foldl Z.max a l).
Proof.
  induction l as [|y l IH]; intros a; simpl; [split; [lia | set_solver]|].
  destruct (IH (Z.max a y)) as [H1 H2]. split; [lia|].
  intros x [-> | Hx]%elem_of_cons; [lia | by apply H2].
Qed.

Lemma foldl_max_elem l : forall a, foldl Z.max a l = a \/ foldl Z.max a l ∈ l.
Proof.
  induction l as [|y l IH]; intros a; simpl; [by left|].
  destruct (IH (Z.max a y)) as [-> | H]; [|right; set_solver].
  destruct (Z.max_spec a y) as [[_ ->] | [_ ->]]; [right; set_solver | by left].
Qed.

Lemma list_min_le d l x : x ∈ l -> list_min d l <= x.
Proof.
  destruct l as [|y l]; simpl; [set_solver|]. destruct (foldl_min_le l y) as [H1 H2].
  intros [-> | Hx]%elem_of_cons; [done | by apply H2].
Qed.

Lemma list_max_ge d l x : x ∈ l -> x <= list_max d l.
Proof.
  destruct l as [|y l]; simpl; [set_solver|]. destruct (foldl_max_ge l y) as [H1 H2].
  intros [-> | Hx]%elem_of_cons; [done | by apply H2].
Qed.

Lemma list_max_elem d l : l <> [] -> list_max d l ∈ l.
Proof.
  destruct l as [|y l]; simpl; [done|]. intros _.
  destruct (foldl_max_elem l y) as [-> | H]; set_solver.
Qed.

(** The sum of a list of integers. *)
Definition zsum (l : list Z) : Z := foldr Z.add 0 l.

Lemma zsum_app l k : zsum (l ++ k) = zsum l + zsum k.
Proof. unfold zsum. induction l as [|x l IH]; simpl; [done|]. lia. Qed.

Lemma zsum_cons x l : zsum (x :: l) = x + zsum l.
Proof. done. Qed.

#[export] Instance zsum_proper : Proper (Permutation ==> eq) zsum.
Proof. intros l k H. unfold zsum. induction H; simpl; lia. Qed.

(** The product of a list of integers (Python's [math.prod]). *)
Definition zprod (l : list Z) : Z := foldr Z.mul 1 l.

Lemma zprod_app l k : zprod (l ++ k) = zprod l * zprod k.
Proof. unfold zprod. induction l as [|x l IH]; simpl; [lia|]. rewrite IH. lia. Qed.

#[export] Instance zprod_proper : Proper (Permutation ==> eq) zprod.
Proof. intros l k H. unfold zprod. induction H; simpl; lia. Qed.

Lemma zprod_pos l : Forall (fun x => 0 < x) l -> 0 < zprod l.
Proof. unfold zprod. induction 1; simpl; lia. Qed.

(** A property of every ordered pair of positions of a list. *)
Definition pairwise {A} (R : A -> A -> Prop) (l : list A) : Prop :=
  forall i j x y, (i < j)%nat -> l !! i = Some x -> l !! j = Some y -> R x y.

Lemma pairwise_nil {A} (R : A -> A -> Prop) : pairwise R [].
Proof. intros i j x y _ H. by rewrite lookup_nil in H. Qed.

Lemma pairwise_cons {A} (R : A -> A -> Prop) x l :
  pairwise R (x :: l) <-> (forall y, y ∈ l -> R x y) /\ pairwise R l.
Proof.
  split.
  - intros H. split.
    + intros y [j Hj]%list_elem_of_lookup. apply (H 0%nat (S j)); [lia | done | done].
    + intros i j a b Hij Hi Hj. apply (H (S i) (S j)); [lia | done | done].
  - intros [H1 H2] [|i] [|j] a b Hij Hi Hj; simplify_eq/=; try lia.
    + apply H1. by eapply list_elem_of_lookup_2.
    + eapply (H2 i j); [lia | done | done].
Qed.

Lemma pairwise_snoc {A} (R : A -> A -> Prop) l y :
  pairwise R (l ++ [y]) <-> pairwise R l /\ (forall x, x ∈ l -> R x y).
Proof.
  induction l as [|x l IH]; simpl.
  - rewrite pairwise_cons. split; [intros [_ H] | intros [H _]]; (split; [|set_solver || done]).
    + apply pairwise_nil.
    + set_solver.
  - rewrite !pairwise_cons, IH. set_solver.
Qed.

Lemma pairwise_app {A} (R : A -> A -> Prop) l k :
  pairwise R (l ++ k) <->
  pairwise R l /\ pairwise R k /\ (forall x y, x ∈ l -> y ∈ k -> R x y).
Proof.
  induction l as [|a l IH]; simpl.
  - split; [intros H; repeat split; [apply pairwise_nil | done | set_solver] | tauto].
  - rewrite !pairwise_cons, IH. set_solver.
Qed.

Lemma pairwise_rev {A} (R : A -> A -> Prop) l : pairwise R (reverse l) <-> pairwise (flip R) l.
Proof.
  induction l as [|a l IH]; simpl; [split; intros; apply pairwise_nil|].
  rewrite reverse_cons, pairwise_app, (pairwise_cons (flip R)), IH. setoid_rewrite elem_of_reverse.
  split; [intros (H1 & _ & H2) | intros [H1 H2]].
  - split; [|done]. intros y Hy. apply H2; set_solver.
  - repeat split; [done | apply pairwise_cons; split; [set_solver | apply pairwise_nil]|].
    intros x y Hx ->%list_elem_of_singleton. by apply H1.
Qed.

Lemma pairwise_elem {A} (R : A -> A -> Prop) l x y :
  pairwise R l -> x ∈ l -> y ∈ l -> x = y \/ R x y \/ R y x.
Proof.
  intros H [i Hi]%list_elem_of_lookup [j Hj]%list_elem_of_lookup.
  destruct (lt_eq_lt_dec i j) as [[Hij | ->] | Hji]; [right; left | left | right; right].
  - eapply (H i j); eauto.
  - congruence.
  - eapply (H j i); eauto.
Qed.

Lemma length_omap_le {A B} (f : A -> option B) (l : list A) :
  (length (omap f l) <= length l)%nat.
Proof. induction l as [|x l IH]; csimpl; [done|]. destruct (f x); simpl; lia. Qed.

(** Distinct positions below [n]: at most [n] of them, and all of them when every
    position occurs. *)
Lemma NoDup_below (l : list nat) n :
  NoDup l -> (forall j, j ∈ l -> (j < n)%nat) -> (length l <= n)%nat.
Proof.
  intros Hnd Hlt. rewrite <- (length_seq n 0). apply submseteq_length, NoDup_submseteq; [done|].
  intros j Hj. apply elem_of_seq. specialize (Hlt j Hj). lia.
Qed.

Lemma NoDup_seq_perm (l : list nat) n :
  NoDup l -> (forall j, j ∈ l <-> (j < n)%nat) -> l ≡ₚ seq 0 n.
Proof.
  intros Hnd Hiff. apply NoDup_Permutation; [done | apply NoDup_seq |].
  intros j. rewrite Hiff, elem_of_seq. lia.
Qed.

#[export] Instance omap_proper {A B} (f : A -> option B) :
  Proper (Permutation ==> Permutation) (omap f : list A -> list B).
Proof.
  intros l k H. induction H as [|x l k _ IH|x y l|l k m _ IH1 _ IH2]; csimpl; [done | | |].
  - destruct (f x); csimpl; by rewrite IH.
  - destruct (f x), (f y); csimpl; try done. apply Permutation_swap.
  - by rewrite IH1.
Qed.

Lemma omap_lookup_seq {A} (l : list A) : omap (fun i => l !! i) (seq 0 (length l)) = l.
Proof.
  induction l as [|x l IH] using rev_ind; [done|].
  rewrite length_app, seq_app, omap_app. csimpl.
  rewrite lookup_app_r, Nat.sub_diag by lia. csimpl. f_equal. rewrite <- IH at 2.
  apply list_omap_ext, Forall2_same_length_lookup_2; [done|].
  intros i a b Ha Hb. rewrite Ha in Hb. injection Hb as <-.
  apply list_elem_of_lookup_2, elem_of_seq in Ha. by rewrite lookup_app_l by lia.
Qed.

(** Dereferencing references that are all in range. *)
Lemma omap_lookup_lookup {A} (h : list A) (l : list nat) i :
  (forall r, r ∈ l -> (r < length h)%nat) ->
  omap (fun r => h !! r) l !! i = l !! i ≫= fun r => h !! r.
Proof.
  revert i. induction l as [|r l IH]; intros i Hl; [done|]. csimpl.
  destruct (lookup_lt_is_Some_2 h r) as [x Hx]; [apply Hl; list_mem|]. rewrite Hx.
  destruct i as [|i]; csimpl; [done|]. apply IH. intros q Hq. apply Hl. list_mem.
Qed.

Lemma length_omap_lookup {A} (h : list A) (l : list nat) :
  (forall r, r ∈ l -> (r < length h)%nat) -> length (omap (fun r => h !! r) l) = length l.
Proof.
  induction l as [|r l IH]; intros Hl; [done|]. csimpl.
  destruct (lookup_lt_is_Some_2 h r) as [x Hx]; [apply Hl; list_mem|]. rewrite Hx.
  csimpl. f_equal. apply IH. intros q Hq. apply Hl. list_mem.
Qed.

Lemma omap_split {A B} (f : A -> option B) l y k xs :
  omap f xs = l ++ y :: k ->
  exists xs1 x xs2, xs = xs1 ++ x :: xs2 /\ f x = Some y /\ omap f xs1 = l.
Proof.
  revert l. induction xs as [|x xs IH]; intros l; csimpl; [by destruct l|].
  destruct (f x) as [z|] eqn:Hx.
  - destruct l as [|z' l]; simpl; intros [= -> H]; [by exists [], x, xs|].
    destruct (IH l H) as (xs1 & x' & xs2 & -> & ? & ?). exists (x :: xs1), x', xs2.
    split_and!; [done | done |]. csimpl. rewrite Hx. congruence.
  - intros H. destruct (IH l H) as (xs1 & x' & xs2 & -> & ? & ?). exists (x :: xs1), x', xs2.
    split_and!; [done | done |]. csimpl. by rewrite Hx.
Qed.

Lemma pairwise_perm {A} (R : A -> A -> Prop) l k :
  (forall x y, R x y -> R y x) -> l ≡ₚ k -> pairwise R l -> pairwise R k.
Proof.
  intros Hsym Hp. induction Hp as [|x l k Hp IH|x y l|l k m _ IH1 _ IH2]; auto.
  - rewrite !pairwise_cons. intros [H1 H2]. split; [|auto]. intros y. rewrite <- Hp. auto.
  - rewrite !pairwise_cons. intros [H1 [H2 H3]]. split_and!; auto.
    + intros z [-> | Hz]%elem_of_cons; [|auto]. apply Hsym, H1. list_mem.
    + intros z Hz. apply H1. list_mem.
Qed.

Lemma filter_all {A} (P : A -> Prop) `{HP : !forall x, Decision (P x)} (l : list A) :
  (forall x, x ∈ l -> P x) -> filter P l = l.
Proof.
  induction l as [|x l IH]; intros H; [done|]. rewrite filter_cons_True by (apply H; list_mem).
  f_equal. apply IH. intros y Hy. apply H. list_mem.
Qed.

Lemma filter_iff_in {A} (P Q : A -> Prop) `{HP : !forall x, Decision (P x)}
    `{HQ : !forall x, Decision (Q x)} (l : list A) :
  (forall x, x ∈ l -> (P x <-> Q x)) -> filter P l = filter Q l.
Proof.
  induction l as [|x l IH]; intros H; [done|]. rewrite !filter_cons.
  assert (P x <-> Q x) by (apply H; list_mem). rewrite (IH (fun y Hy => H y ltac:(list_mem))).
  repeat case_decide; tauto.
Qed.

Lemma filter_none {A} (P : A -> Prop) `{!forall x, Decision (P x)} (l : list A) :
  (forall y, y ∈ l -> ~ P y) -> filter P l = [].
Proof.
  induction l as [|y l IH]; intros Hl; [done|]. rewrite filter_cons_False by (apply Hl; list_mem).
  apply IH. intros z Hz. apply Hl. list_mem.
Qed.

Lemma filter_fmap {A B} (f : A -> B) (P : B -> Prop) `{!forall x, Decision (P x)} (l : list A) :
  filter P (f <$> l) = f <$> filter (fun x => P (f x)) l.
Proof.
  induction l as [|x l IH]; [done|]. cbn [fmap list_fmap]. rewrite !filter_cons. case_decide; [|done].
  cbn [fmap list_fmap]. by rewrite <- IH.
Qed.

(** ** Python's [itertools] and [dict.fromkeys] *)

(** [itertools.product] *)
Fixpoint cartesian {A} (ls : list (list A)) : list (list A) :=
  match ls with
  | [] => [[]]
  | l :: ls' => x ← l; c ← cartesian ls'; [x :: c]
  end.

Lemma elem_of_cartesian {A} (ls : list (list A)) c :
  c ∈ cartesian ls <-> Forall2 (fun x l => x ∈ l) c ls.
Proof.
  revert c. induction ls as [|l ls IH]; intros c; cbn [cartesian].
  - rewrite list_elem_of_singleton. split; [intros ->; constructor | by inversion 1].
  - rewrite list_elem_of_bind. setoid_rewrite list_elem_of_bind. setoid_rewrite list_elem_of_singleton.
    setoid_rewrite IH. split.
    + intros (x & (c' & -> & Hc) & Hx). by constructor.
    + inversion 1; subst. eauto 10.
Qed.

(** Blocks without common elements concatenate without duplicates. *)
Lemma NoDup_bind_disjoint {A B} (f : A -> list B) (l : list A) :
  NoDup l -> (forall x, x ∈ l -> NoDup (f x)) ->
  (forall x y z, x ∈ l -> y ∈ l -> z ∈ f x -> z ∈ f y -> x = y) -> NoDup (l ≫= f).
Proof.
  induction 1 as [|x l Hx Hl IH]; intros Hf Hd; csimpl; [constructor|].
  apply NoDup_app. split_and!; [apply Hf; list_mem | |].
  - intros z Hz (y & Hzy & Hy)%list_elem_of_bind. apply Hx.
    rewrite (Hd x y z); [done | list_mem | list_mem | done | done].
  - apply IH; [intros y Hy; apply Hf; list_mem|]. intros a b z Ha Hb. apply Hd; list_mem.
Qed.

Lemma NoDup_cartesian {A} (ls : list (list A)) : Forall NoDup ls -> NoDup (cartesian ls).
Proof.
  induction 1 as [|l ls Hl _ IH]; cbn [cartesian]; [apply NoDup_singleton|].
  apply NoDup_bind_disjoint; [done | |].
  - intros x _. apply NoDup_bind_disjoint; [done | intros; apply NoDup_singleton |].
    intros c c' z _ _ ->%list_elem_of_singleton [=]%list_elem_of_singleton. done.
  - intros x y z _ _ (c & ->%list_elem_of_singleton & _)%list_elem_of_bind
      (c' & Hz%list_elem_of_singleton & _)%list_elem_of_bind. by injection Hz.
Qed.

(** [itertools.combinations] *)
Fixpoint combinations {A} (k : nat) (l : list A) : list (list A) :=
  match k, l with
  | O, _ => [[]]
  | S _, [] => []
  | S k', x :: l' => (cons x <$> combinations k' l') ++ combinations k l'
  end.

Lemma elem_of_combinations {A} (l : list A) : forall k c,
  c ∈ combinations k l <-> c `sublist_of` l /\ length c = k.
Proof.
  induction l as [|x l IH]; intros [|k] c; cbn [combinations].
  - rewrite list_elem_of_singleton. split; [intros ->; split; [constructor | done]|].
    intros [_ ?]. by apply nil_length_inv.
  - split; [intros H; by apply elem_of_nil in H|]. intros [->%sublist_nil_r ?]. done.
  - rewrite list_elem_of_singleton. split; [intros ->; split; [apply sublist_nil_l | done]|].
    intros [_ ?]. by apply nil_length_inv.
  - rewrite elem_of_app, list_elem_of_fmap. split.
    + intros [(c' & -> & [Hs Hl]%IH) | [Hs Hl]%IH].
      * split; [by constructor | simpl; lia].
      * split; [by constructor | done].
    + intros [[? | (c' & -> & Hs)]%sublist_cons_r Hl].
      * right. by apply IH.
      * left. exists c'. split; [done|]. apply IH. split; [done | simpl in Hl; lia].
Qed.

Lemma NoDup_combinations {A} (l : list A) k : NoDup l -> NoDup (combinations k l).
Proof.
  intros Hl. revert k. induction Hl as [|x l Hx Hl IH]; intros [|k]; cbn [combinations];
    try (apply NoDup_singleton || constructor).
  apply NoDup_app. split_and!; [apply NoDup_fmap_2; [intros ? ? [=]; done | apply IH] | | apply IH].
  intros c (c' & -> & _)%list_elem_of_fmap [Hs _]%elem_of_combinations.
  apply Hx. eapply elem_of_sublist; [|exact Hs]. list_mem.
Qed.

(** [list(dict.fromkeys(l))]: the first occurrences, in order. *)
Definition fromkeys {A} `{EqDecision A} (l : list A) : list A :=
  foldl (fun acc x => if decide (x ∈ acc) then acc else acc ++ [x]) [] l.

Lemma fromkeys_loop {A} `{EqDecision A} (l : list A) : forall acc,
  NoDup acc -> let r := foldl (fun acc x => if decide (x ∈ acc) then acc else acc ++ [x]) acc l in
  NoDup r /\ forall x, x ∈ r <-> x ∈ acc \/ x ∈ l.
Proof.
  induction l as [|y l IH]; intros acc Hacc; cbn [foldl].
  - split; [done|]. intros x. split; [auto | intros [? | H%elem_of_nil]; done].
  - case_decide as Hy.
    + destruct (IH acc Hacc) as [H1 H2]. split; [done|]. intros x. rewrite H2, elem_of_cons. naive_solver.
    + destruct (IH (acc ++ [y])) as [H1 H2].
      { apply NoDup_app. split_and!; [done | | apply NoDup_singleton]. intros x Hx ->%list_elem_of_singleton. done. }
      split; [done|]. intros x. rewrite H2, elem_of_app, list_elem_of_singleton, elem_of_cons. tauto.
Qed.

Lemma fromkeys_spec {A} `{EqDecision A} (l : list A) :
  NoDup (fromkeys l) /\ forall x, x ∈ fromkeys l <-> x ∈ l.
Proof.
  destruct (fromkeys_loop l []) as [H1 H2]; [constructor|]. split; [done|]. intros x. unfold fromkeys.
  rewrite H2. split; [intros [H%elem_of_nil | ?]; done | auto].
Qed.

(** Two strictly sorted lists with the same elements are equal. *)
Lemma StronglySorted_lt_unique {A} (R : A -> A -> Prop) (l k : list A) :
  (forall x, ~ R x x) -> (forall x y, R x y -> R y x -> False) ->
  StronglySorted R l -> StronglySorted R k -> l ≡ₚ k -> l = k.
Proof.
  intros Hirr Hasym Hl. revert k. induction Hl as [|x l Hl IH Hx]; intros k Hk Hp.
  - by apply Permutation_nil_l.
  - destruct Hk as [|y k Hk Hy]; [by apply Permutation_nil_r in Hp|].
    assert (x = y) as ->.
    { assert (x ∈ y :: k) as H1 by (rewrite <- Hp; list_mem).
      assert (y ∈ x :: l) as H2 by (rewrite Hp; list_mem).
      rewrite Forall_forall in Hx, Hy. apply elem_of_cons in H1 as [? | H1]; [done|].
      apply elem_of_cons in H2 as [? | H2]; [done|]. destruct (Hasym x y); auto. }
    f_equal. apply IH; [done|]. by apply (Permutation_cons_inv (a := y)).
Qed.
