(* ===== verification/PyDict.v ===== *)
(** * Python dictionaries in insertion order

    The work-division code passes dictionaries keyed by iteration symbols and
    iterates over them, so their insertion order is kept: a dictionary is an
    association list, [dget] finds the first entry of a key and [dset] replaces
    it in place or appends. *)

From S2P Require Import Prelude.

Notation dict V := (list (string * V)).

Section dict.
Context {V : Type}.

Fixpoint dget (d : dict V) (k : string) : option V :=
  match d with
  | [] => None
  | (k', v) :: d' => if decide (k = k') then Some v else dget d' k
  end.

(** [d[k]] *)
Definition dgetitem (d : dict V) (k : string) : res V :=
  match dget d k with Some v => Ok v | None => Raise KeyError end.

(** [d.get(k, v)] *)
Definition dget_or (v : V) (d : dict V) (k : string) : V := default v (dget d k).

(** [k in d] *)
Definition dmem (d : dict V) (k : string) : bool := bool_decide (is_Some (dget d k)).

(** [d[k] = v] *)
Fixpoint dset (k : string) (v : V) (d : dict V) : dict V :=
  match d with
  | [] => [(k, v)]
  | (k', v') :: d' => if decide (k = k') then (k', v) :: d' else (k', v') :: dset k v d'
  end.

(** [d.update(e)] *)
Definition dupdate (d e : dict V) : dict V := foldl (fun d kv => dset kv.1 kv.2 d) d e.

Definition dkeys (d : dict V) : list string := fst <$> d.
Definition dvalues (d : dict V) : list V := snd <$> d.

Lemma dget_dset k v d k' : dget (dset k v d) k' = if decide (k' = k) then Some v else dget d k'.
Proof.
  induction d as [|[a w] d IH]; simpl; [done|].
  destruct (decide (k = a)) as [-> | Hka]; simpl.
  - by repeat case_decide.
  - rewrite IH. repeat case_decide; congruence.
Qed.

Lemma dget_Some_elem d k v : dget d k = Some v -> (k, v) ∈ d.
Proof.
  induction d as [|[a w] d IH]; simpl; [done|].
  case_decide; [intros [= ->]; subst; list_mem | intros; apply list_elem_of_further; auto].
Qed.

Lemma dget_is_Some d k : is_Some (dget d k) <-> k ∈ dkeys d.
Proof.
  unfold dkeys. induction d as [|[a w] d IH]; simpl.
  - split; [intros [? ?]; done | intros H; by apply elem_of_nil in H].
  - rewrite elem_of_cons, <- IH. case_decide; naive_solver.
Qed.

Lemma dget_None d k : dget d k = None <-> k ∉ dkeys d.
Proof. rewrite <- dget_is_Some, <- eq_None_not_Some. done. Qed.

Lemma dget_NoDup d k v : NoDup (dkeys d) -> (k, v) ∈ d -> dget d k = Some v.
Proof.
  unfold dkeys. induction d as [|[a w] d IH]; simpl; [intros _ H; by apply elem_of_nil in H|].
  intros [Ha Hnd]%NoDup_cons [[= -> ->] | Hin]%elem_of_cons; [by rewrite decide_True|].
  rewrite decide_False; [auto|]. intros ->. apply Ha, list_elem_of_fmap. by exists (a, v).
Qed.

Lemma dkeys_dset_mem k v d : k ∈ dkeys d -> dkeys (dset k v d) = dkeys d.
Proof.
  unfold dkeys. induction d as [|[a w] d IH]; csimpl; [intros H; by apply elem_of_nil in H|].
  rewrite elem_of_cons. intros Hin. case_decide as Hk; csimpl; [done|]. f_equal. apply IH.
  by destruct Hin.
Qed.

Lemma dkeys_dset_new k v d : k ∉ dkeys d -> dkeys (dset k v d) = dkeys d ++ [k].
Proof.
  unfold dkeys. induction d as [|[a w] d IH]; csimpl; [done|].
  intros [Hk Hin]%not_elem_of_cons. rewrite decide_False by done. csimpl. f_equal. auto.
Qed.

Lemma elem_of_dkeys_dset k v d k' : k' ∈ dkeys (dset k v d) <-> k' = k \/ k' ∈ dkeys d.
Proof.
  destruct (decide (k ∈ dkeys d)) as [H | H].
  - rewrite dkeys_dset_mem by done. split; [auto | by intros [-> | ?]].
  - rewrite dkeys_dset_new, elem_of_app, list_elem_of_singleton by done. tauto.
Qed.

Lemma dkeys_dset_NoDup k v d : NoDup (dkeys d) -> NoDup (dkeys (dset k v d)).
Proof.
  intros Hnd. destruct (decide (k ∈ dkeys d)) as [H | H]; [by rewrite dkeys_dset_mem|].
  rewrite dkeys_dset_new by done. apply NoDup_app. split_and!; [done | | apply NoDup_singleton].
  intros x Hx ->%list_elem_of_singleton. done.
Qed.

Lemma dvalues_dset_new k v d : k ∉ dkeys d -> dvalues (dset k v d) = dvalues d ++ [v].
Proof.
  unfold dkeys, dvalues. induction d as [|[a w] d IH]; csimpl; [done|].
  intros [Hk Hin]%not_elem_of_cons. rewrite decide_False by done. csimpl. f_equal. auto.
Qed.

End dict.

(** Replacing one factor of a dictionary's product: the new product times the old
    factor is the old product times the new factor. *)
Lemma zprod_dset k v w (d : dict Z) :
  dget d k = Some w -> zprod (dvalues (dset k v d)) * w = zprod (dvalues d) * v.
Proof.
  unfold dvalues. induction d as [|[a u] d IH]; csimpl; [done|].
  case_decide; csimpl.
  - intros [= ->]. unfold zprod. simpl. lia.
  - intros Hw. specialize (IH Hw). unfold zprod in *. simpl. rewrite <- !Z.mul_assoc. by f_equal.
Qed.

Lemma zprod_dset_new k v (d : dict Z) :
  dget d k = None -> zprod (dvalues (dset k v d)) = zprod (dvalues d) * v.
Proof.
  intros H%dget_None. rewrite dvalues_dset_new, zprod_app by done. unfold zprod at 2. simpl. lia.
Qed.

Lemma dvalues_positive (d : dict Z) :
  (forall k v, (k, v) ∈ d -> 0 < v) -> 0 < zprod (dvalues d).
Proof.
  intros H. apply zprod_pos, Forall_forall. intros v ([k w] & -> & Hin)%list_elem_of_fmap.
  by apply (H k).
Qed.

(** A positive factor divides the product. *)
Lemma dget_divides (d : dict Z) k v : dget d k = Some v -> (v | zprod (dvalues d)).
Proof.
  unfold dvalues. induction d as [|[a w] d IH]; csimpl; [done|].
  case_decide; [intros [= ->] | intros Hv].
  - exists (zprod (snd <$> d)). unfold zprod. simpl. lia.
  - apply IH in Hv. unfold zprod in *. simpl. by apply Z.divide_mul_r.
Qed.

Lemma zprod_dvalues_snoc (d : dict Z) k v :
  zprod (dvalues (d ++ [(k, v)])) = zprod (dvalues d) * v.
Proof. unfold dvalues. rewrite fmap_app, zprod_app. unfold zprod at 2. simpl. lia. Qed.

Lemma elem_of_dset {V} k (v : V) d kv : kv ∈ dset k v d -> kv = (k, v) \/ kv ∈ d.
Proof.
  induction d as [|[a w] d IH]; simpl; [rewrite list_elem_of_singleton; auto|].
  case_decide as Hk; rewrite !elem_of_cons; [subst; tauto|]. intros [-> | H%IH]; tauto.
Qed.

Lemma dupdate_spec {V} (e d : dict V) k :
  NoDup (dkeys e) ->
  dget (dupdate d e) k = match dget e k with Some v => Some v | None => dget d k end.
Proof.
  unfold dupdate. revert d. induction e as [|[a w] e IH]; intros d; [done|].
  intros [Ha Hnd]%NoDup_cons. cbn [foldl dget fst snd]. rewrite IH by done.
  case_decide as Hk; [subst k|]; destruct (dget e _) eqn:He; try done.
  - exfalso. apply Ha, dget_is_Some. eauto.
  - by rewrite dget_dset, decide_True.
  - by rewrite dget_dset, decide_False.
Qed.

Lemma dupdate_NoDup {V} (e d : dict V) : NoDup (dkeys d) -> NoDup (dkeys (dupdate d e)).
Proof.
  unfold dupdate. revert d. induction e as [|[a w] e IH]; intros d Hd; [done|].
  cbn [foldl]. by apply IH, dkeys_dset_NoDup.
Qed.

Lemma dset_new {V} k (v : V) d : k ∉ dkeys d -> dset k v d = d ++ [(k, v)].
Proof.
  unfold dkeys. induction d as [|[a w] d IH]; csimpl; [done|].
  intros [Hk Hd]%not_elem_of_cons. rewrite decide_False by done. by rewrite IH.
Qed.

(** [dict(e)] of distinct keys is [e]. *)
Lemma dupdate_nil {V} (e : dict V) : NoDup (dkeys e) -> dupdate [] e = e.
Proof.
  intros He. unfold dupdate. change e with ([] ++ e) in He.
  change (foldl (fun d kv => dset kv.1 kv.2 d) [] e = [] ++ e). revert He.
  generalize (@nil (string * V)). induction e as [|[k v] e IH]; intros d He; cbn [foldl fst snd].
  - by rewrite app_nil_r.
  - assert (dset k v d = d ++ [(k, v)]) as ->.
    { apply dset_new. unfold dkeys in He. rewrite fmap_app in He. apply NoDup_app in He as (_ & He & _).
      intros Hk. eapply He; [exact Hk | csimpl; list_mem]. }
    rewrite IH by (by rewrite <- app_assoc). by rewrite <- app_assoc.
Qed.

Lemma elem_of_dupdate {V} (e d : dict V) kv : kv ∈ dupdate d e -> kv ∈ d \/ kv ∈ e.
Proof.
  unfold dupdate. revert d. induction e as [|[k v] e IH]; intros d; cbn [foldl]; [auto|].
  intros [[-> | H]%elem_of_dset | H]%IH; [right; list_mem | auto | right; list_mem].
Qed.

Lemma dict_zip (s : dict Z) : s = zip (dkeys s) (dvalues s).
Proof. unfold dkeys, dvalues. induction s as [|[k v] s IH]; csimpl; [done|]. by f_equal. Qed.

Lemma zip_keys (ks : list string) (vs : list Z) : length ks = length vs -> dkeys (zip ks vs) = ks.
Proof. intros H. unfold dkeys. apply fst_zip. lia. Qed.

Lemma elem_of_zip {A B} (l : list A) (k : list B) x y :
  (x, y) ∈ zip l k <-> exists i, l !! i = Some x /\ k !! i = Some y.
Proof.
  rewrite list_elem_of_lookup. setoid_rewrite lookup_zip_with_Some. naive_solver.
Qed.

(** ** Dictionaries with other keys *)

Section keyed.
Context {K V : Type} `{EqDecision K}.

(** [d.get(k)] *)
Fixpoint aget (d : list (K * V)) (k : K) : option V :=
  match d with
  | [] => None
  | (k', v) :: d' => if decide (k = k') then Some v else aget d' k
  end.

(** [d[k] = v] *)
Fixpoint aset (k : K) (v : V) (d : list (K * V)) : list (K * V) :=
  match d with
  | [] => [(k, v)]
  | (k', v') :: d' => if decide (k = k') then (k', v) :: d' else (k', v') :: aset k v d'
  end.

Lemma aget_aset k v d k' : aget (aset k v d) k' = if decide (k' = k) then Some v else aget d k'.
Proof.
  induction d as [|[k1 v1] d IH]; cbn [aset aget]; [done|].
  destruct (decide (k = k1)) as [->|Hne]; cbn [aget]; [by repeat case_decide|].
  rewrite IH. repeat case_decide; congruence.
Qed.

Lemma aget_Some_elem d k v : aget d k = Some v -> (k, v) ∈ d.
Proof.
  induction d as [|[k1 v1] d IH]; cbn [aget]; [done|].
  case_decide as Hk; [intros [= ->]; subst; apply list_elem_of_here|].
  intros H. by apply list_elem_of_further, IH.
Qed.

Lemma aget_is_Some d k : is_Some (aget d k) <-> k ∈ d.*1.
Proof.
  induction d as [|[k1 v1] d IH]; cbn [aget fmap list_fmap fst]; [rewrite elem_of_nil; split; [by intros [? ?] | done]|].
  rewrite elem_of_cons, <- IH. case_decide; [split; eauto | tauto].
Qed.

Lemma aget_NoDup d k v : NoDup (d.*1) -> (k, v) ∈ d -> aget d k = Some v.
Proof.
  induction d as [|[k1 v1] d IH]; cbn [aget fmap list_fmap fst]; [by intros _ ?%elem_of_nil|].
  intros [Hk1 Hd]%NoDup_cons [[= -> ->]|H]%elem_of_cons; [by rewrite decide_True|].
  rewrite decide_False; [by apply IH|]. intros ->. apply Hk1, list_elem_of_fmap. by exists (k1, v).
Qed.

Lemma keys_aset_mem k v d : k ∈ d.*1 -> (aset k v d).*1 = d.*1.
Proof.
  induction d as [|[k1 v1] d IH]; cbn [aset fmap list_fmap fst]; [by intros ?%elem_of_nil|].
  case_decide as Hk; [done|]. intros [?|H]%elem_of_cons; [done|].
  cbn [fmap list_fmap fst]. f_equal. by apply IH.
Qed.

Lemma keys_aset_new k v d : k ∉ d.*1 -> (aset k v d).*1 = d.*1 ++ [k].
Proof.
  induction d as [|[k1 v1] d IH]; cbn [aset fmap list_fmap fst]; [done|].
  rewrite not_elem_of_cons. intros [Hk H]. rewrite decide_False by done.
  cbn [fmap list_fmap fst app]. f_equal. by apply IH.
Qed.

Lemma keys_aset_NoDup k v d : NoDup (d.*1) -> NoDup ((aset k v d).*1).
Proof.
  intros Hd. destruct (decide (k ∈ d.*1)) as [H|H]; [by rewrite keys_aset_mem|].
  rewrite keys_aset_new by done. apply NoDup_app. split_and!; [done | | apply NoDup_singleton].
  intros x Hx ->%list_elem_of_singleton. done.
Qed.

Lemma elem_of_aset k v d kv : kv ∈ aset k v d -> kv = (k, v) \/ kv ∈ d.
Proof.
  induction d as [|[k1 v1] d IH]; cbn [aset]; [intros ->%list_elem_of_singleton; by left|].
  case_decide as Hk; intros [->|H]%elem_of_cons; rewrite elem_of_cons; [by left; subst | tauto | tauto|].
  destruct (IH H); tauto.
Qed.

End keyed.
