(* ===== verification/Doubles.v ===== *)
(** * Python's floats on whole numbers

    The cost models of the compiler count bytes, whole numbers that are not
    negative, in Python floats.  A float is [None] for infinity or the whole number it
    holds; an operation rounds its exact value to the nearest multiple of the unit in
    the last place, ties to even ([dbl_round]), and overflows to infinity ([dbl]).
    Rounding changes nothing up to 2^53 and stays above it beyond ([saturated]), which
    is what the theorems on the searches use. *)

From S2P Require Import Prelude.

Notation ecost := (option Z).

(** Round half to even at 53 significant bits. *)
Definition dbl_round (z : Z) : Z :=
  let u := 2 ^ Z.max 0 (Z.log2 z - 52) in
  let q := z / u in
  let r := z mod u in
  (if (u <? 2 * r) || ((u =? 2 * r) && Z.odd q) then q + 1 else q) * u.

(** The float of a whole number that is not negative. *)
Definition dbl (z : Z) : ecost := let r := dbl_round z in if r <? 2 ^ 1024 then Some r else None.

(** [a < b] and [min(a, b)] *)
Definition clt (a b : ecost) : bool :=
  match a, b with Some x, Some y => x <? y | Some _, None => true | None, _ => false end.

Definition cmin (a b : ecost) : ecost := if clt b a then b else a.

(** Below [EXACT] every whole number is a float. *)
Definition EXACT : Z := 2 ^ 53.

(** What is known of a float by what it is below [EXACT]. *)
Definition saturated (a : ecost) : Z := match a with Some x => Z.min x EXACT | None => EXACT end.

Lemma dbl_round_exact z : 0 <= z <= EXACT -> dbl_round z = z.
Proof.
  intros [Hz Hle]. unfold dbl_round, EXACT in *. destruct (decide (z = 2 ^ 53)) as [->|Hne]; [by vm_compute|].
  assert (Z.log2 z <= 52) as Hlog.
  { destruct (decide (z = 0)) as [->|]; [done|]. apply Z.lt_succ_r. change (Z.succ 52) with 53. apply Z.log2_lt_pow2; lia. }
  rewrite Z.max_l by lia. change (2 ^ 0) with 1. rewrite Z.div_1_r, Z.mod_1_r. change ((1 <? 2 * 0) || ((1 =? 2 * 0) && Z.odd z)) with false. cbv iota. lia.
Qed.

Lemma dbl_round_large z : EXACT <= z -> EXACT <= dbl_round z.
Proof.
  unfold dbl_round, EXACT. intros Hz. assert (53 <= Z.log2 z) as Hlog by (apply Z.log2_le_pow2; lia).
  rewrite Z.max_r by lia. set (u := 2 ^ (Z.log2 z - 52)). assert (0 < u) as Hu by (apply Z.pow_pos_nonneg; lia).
  assert (2 ^ 52 <= z / u) as Hq.
  { apply Z.div_le_lower_bound; [done|]. pose proof (Z.log2_spec z ltac:(lia)) as [Hl _]. etrans; [|exact Hl].
    unfold u. rewrite <- Z.pow_add_r by lia. by replace (Z.log2 z - 52 + 52) with (Z.log2 z) by lia. }
  assert (2 ^ 53 <= 2 ^ 52 * u) as Hbig.
  { unfold u. rewrite <- Z.pow_add_r by lia. apply Z.pow_le_mono_r; lia. }
  etrans; [exact Hbig|]. apply Z.mul_le_mono_nonneg_r; [lia|]. case_match; lia.
Qed.

Lemma saturated_dbl z : 0 <= z -> saturated (dbl z) = Z.min z EXACT /\ (forall v, dbl z = Some v -> 0 <= v).
Proof.
  intros Hz. unfold dbl, saturated. cbv zeta. destruct (Z.le_gt_cases z EXACT) as [Hle|Hgt].
  - rewrite dbl_round_exact by lia. assert (z < 2 ^ 1024) as Hlt.
    { eapply Z.le_lt_trans; [exact Hle|]. unfold EXACT. apply Z.pow_lt_mono_r; lia. }
    rewrite (proj2 (Z.ltb_lt _ _) Hlt). split; [done|]. by intros v [= <-].
  - pose proof (dbl_round_large z ltac:(lia)) as Hl. rewrite (Z.min_r z) by lia. assert (0 <= EXACT) by done.
    destruct (dbl_round z <? 2 ^ 1024); (split; [lia|]); intros v; [|done]. intros [= <-]. lia.
Qed.

Lemma clt_saturated a b : clt a b = false -> saturated b <= saturated a.
Proof. unfold clt, saturated. destruct a as [x|], b as [y|]; intros H; try done; lia. Qed.

Lemma clt_saturated_lt a b : clt a b = true -> saturated a <= saturated b.
Proof. unfold clt, saturated. destruct a as [x|], b as [y|]; intros H; try done; lia. Qed.

Lemma clt_irrefl a : clt a a = false.
Proof. destruct a; cbn; lia. Qed.

(** Where floats and whole numbers part. *)
Example doubles_round :
  dbl (2 ^ 53 + 1) = Some (2 ^ 53) /\ dbl (2 ^ 53 + 3) = Some (2 ^ 53 + 4) /\ dbl (2 ^ 54 + 3) = Some (2 ^ 54 + 4) /\
  dbl (2 ^ 1024) = None.
Proof. vm_compute. done. Qed.
