(* ===== verification/PlanSolver.v ===== *)
(** * The memory-plan solver contract ([scratchpad/plan_solver.py])

    The data every layout solver works on -- [LifetimeBoundBuffer] with its
    lifetime properties, [TileSpec] and [CoreDivision] with their derived
    counts -- the in-place precondition every solver checks first, the
    exclusion and partition step of [MemoryPlanSolver], and the specification
    [valid_plan] that the placement solvers of the other files are proved to
    meet through the class [LayoutSolver].

    A Python [dataclass] is a [Record]; [CoreDivisionBuffer] only adds fields to
    [LifetimeBoundBuffer], and every shared function reads them through
    [getattr(b, 'core_divisions', None)], so one record carries both: a plain
    buffer is one with no core divisions.  [start_time] and [end_time] index
    [uses] and raise on an empty list in Python; here they default, and
    [wf_buffer] states the non-emptiness the callers rely on. *)

From S2P Require Import Prelude.

(** [BufferType] *)
Inductive BufferType : Set := Intermediate | Input | Output.

#[export] Instance BufferType_eq_dec : EqDecision BufferType.
Proof. solve_decision. Defined.

(** [ceil_div] *)
Definition ceil_div (a b : Z) : Z := - (- a / b).

(** [round_up_to_alignment] of [scratchpad/utils.py] *)
Definition round_up_to_alignment (arg alignment : Z) : Z :=
  (arg + alignment - 1) / alignment * alignment.

(** ** Coarse tilings *)

Record TileAxis := mkAxis {
  host_dim : Z;
  count : Z;
  is_reduction : bool
}.

#[export] Instance TileAxis_eq_dec : EqDecision TileAxis.
Proof. solve_decision. Defined.

(** [TileSpec]: its [axes] tuple, outermost first. *)
Record TileSpec := mkSpec { axes : list TileAxis }.

#[export] Instance TileSpec_eq_dec : EqDecision TileSpec.
Proof. solve_decision. Defined.

Definition is_untiled (t : TileSpec) : bool := bool_decide (axes t = []).
Definition depth (t : TileSpec) : nat := length (axes t).
Definition tile_count (t : TileSpec) : Z := zprod (count <$> axes t).
Definition level_counts (t : TileSpec) : list Z := count <$> axes t.
Definition output_tile_count (t : TileSpec) : Z :=
  zprod (count <$> filter (fun a => is_reduction a = false) (axes t)).
Definition count_for (t : TileSpec) (key : Z * bool) : Z :=
  zprod (count <$> filter (fun a => (host_dim a, is_reduction a) = key) (axes t)).
Definition is_clean (t : TileSpec) : bool := negb (existsb is_reduction (axes t)).

(** ** Core divisions *)

(** [splits] is a Python dict keyed by iteration symbols, in insertion order. *)
Record CoreDivision := mkDivision {
  splits : list (string * Z);
  reduction_syms : list string;
  tiling : TileSpec;
  tile_splits : list (string * Z)
}.

#[export] Instance CoreDivision_eq_dec : EqDecision CoreDivision.
Proof. solve_decision. Defined.

Definition cores_used (d : CoreDivision) : Z := zprod (snd <$> splits d).
Definition output_splits (d : CoreDivision) : list (string * Z) :=
  filter (fun s => s.1 ∉ reduction_syms d) (splits d).
Definition reduction_splits (d : CoreDivision) : list (string * Z) :=
  filter (fun s => s.1 ∈ reduction_syms d) (splits d).
Definition output_partition (d : CoreDivision) : Z := zprod (snd <$> output_splits d).

(** ** Buffers *)

(** [LifetimeBoundBuffer] and the [CoreDivisionBuffer] fields the solvers of this
    development read.  [paired_with] holds Python references to other buffers
    of the same solve: positions in the solver's [buffers] list.  The fields
    [lx_relayout_plans], [lx_view] and the relayout tables are never read by a
    placement solver and are left out. *)
Record LifetimeBoundBuffer := mkBuffer {
  buf_name : string;
  buf_size : Z;
  uses : list Z;
  first_use_is_read : bool;
  address : option Z;
  in_place_parents : list string;
  residency_reason : option string;
  untiled_bar : option string;
  lifetime_start_override : option Z;
  lifetime_end_override : option Z;
  paired_with : list nat;
  spill_reason : option string;
  core_divisions : list CoreDivision;
  parents : list string;
  cd_parent_matches : gmap string (list (nat * nat));
  chosen_division : option nat
}.

(** Assignment to [buffer.address]. *)
Definition set_address (a : option Z) (b : LifetimeBoundBuffer) : LifetimeBoundBuffer :=
  mkBuffer (buf_name b) (buf_size b) (uses b) (first_use_is_read b) a
    (in_place_parents b) (residency_reason b) (untiled_bar b)
    (lifetime_start_override b) (lifetime_end_override b) (paired_with b)
    (spill_reason b) (core_divisions b) (parents b) (cd_parent_matches b)
    (chosen_division b).

(** Assignment to [buffer.spill_reason]. *)
Definition set_spill_reason (r : option string) (b : LifetimeBoundBuffer)
    : LifetimeBoundBuffer :=
  mkBuffer (buf_name b) (buf_size b) (uses b) (first_use_is_read b) (address b)
    (in_place_parents b) (residency_reason b) (untiled_bar b)
    (lifetime_start_override b) (lifetime_end_override b) (paired_with b)
    r (core_divisions b) (parents b) (cd_parent_matches b) (chosen_division b).

(** Assignment to [buffer.chosen_division]. *)
Definition set_chosen_division (c : option nat) (b : LifetimeBoundBuffer)
    : LifetimeBoundBuffer :=
  mkBuffer (buf_name b) (buf_size b) (uses b) (first_use_is_read b) (address b)
    (in_place_parents b) (residency_reason b) (untiled_bar b)
    (lifetime_start_override b) (lifetime_end_override b) (paired_with b)
    (spill_reason b) (core_divisions b) (parents b) (cd_parent_matches b) c.

(** [all(a < b for a, b in zip(uses, uses[1:]))] *)
Fixpoint strictly_increasing (l : list Z) : bool :=
  match l with
  | a :: ((b :: _) as l') => (a <? b) && strictly_increasing l'
  | _ => true
  end.

(** The assertions of [LifetimeBoundBuffer.__post_init__]. *)
Definition post_init (b : LifetimeBoundBuffer) : res unit :=
  py_assert (strictly_increasing (uses b));;
  match lifetime_start_override b, head (uses b) with
  | Some o, Some first => py_assert (o <=? first)
  | _, _ => Ok tt
  end;;
  match lifetime_end_override b, last (uses b) with
  | Some o, Some lst => py_assert (lst + 1 <=? o)
  | _, _ => Ok tt
  end.

Definition read_count (b : LifetimeBoundBuffer) : Z :=
  Z.max 0 (Z.of_nat (length (uses b)) - (if first_use_is_read b then 0 else 1)).

Definition start_time (b : LifetimeBoundBuffer) : Z :=
  let nominal := default 0 (head (uses b)) in
  Z.min nominal (default nominal (lifetime_start_override b)).

(** [max(nominal, self.lifetime_end_override or nominal)]: an override of 0 is
    falsy and read as absent. *)
Definition end_time (b : LifetimeBoundBuffer) : Z :=
  let nominal := default 0 (last (uses b)) + 1 in
  let override :=
    match lifetime_end_override b with
    | Some o => if o =? 0 then nominal else o
    | None => nominal
    end in
  Z.max nominal override.

Definition overlaps_in_time (b other : LifetimeBoundBuffer) : bool :=
  (start_time b <? end_time other) && (start_time other <? end_time b).

(** [CoreDivisionBuffer.per_core_size]; [self.core_divisions[division]] raises
    out of range. *)
Definition per_core_size (b : LifetimeBoundBuffer) (division : nat) : res Z :=
  match core_divisions b !! division with
  | Some cd =>
      Ok (ceil_div (buf_size b) (output_partition cd * output_tile_count (tiling cd)))
  | None => Raise IndexError
  end.

(** A buffer as one core holds it under its chosen division. *)
Definition at_core (b : LifetimeBoundBuffer) : LifetimeBoundBuffer :=
  match chosen_division b with
  | Some i =>
      match per_core_size b i with
      | Ok s => mkBuffer (buf_name b) s (uses b) (first_use_is_read b) (address b)
                  (in_place_parents b) (residency_reason b) (untiled_bar b)
                  (lifetime_start_override b) (lifetime_end_override b) (paired_with b)
                  (spill_reason b) (core_divisions b) (parents b) (cd_parent_matches b)
                  (chosen_division b)
      | Raise _ => b
      end
  | None => b
  end.

(** The footprint under one division, as [min_footprint] ranges over it. *)
Definition division_footprint (b : LifetimeBoundBuffer) (cd : CoreDivision) : Z :=
  ceil_div (buf_size b) (output_partition cd * output_tile_count (tiling cd)).

(** [min_footprint]: the override in [CoreDivisionBuffer], which falls back to the
    base class's [size] when there are no divisions. *)
Definition min_footprint (b : LifetimeBoundBuffer) : Z :=
  match core_divisions b with
  | [] => buf_size b
  | cds => list_min (buf_size b) (division_footprint b <$> cds)
  end.

(** ** The in-place precondition *)

(** [check_in_place_parent_is_read]: its test. *)
Definition parent_is_read (parent : LifetimeBoundBuffer) : bool :=
  let has_read_after_write :=
    match head (uses parent), last (uses parent) with
    | Some f, Some l => (1 <? Z.of_nat (length (uses parent))) && (f <? l)
    | _, _ => false
    end in
  first_use_is_read parent || has_read_after_write.

Definition check_in_place_parent_is_read (parent : LifetimeBoundBuffer) : res unit :=
  raise_if (negb (parent_is_read parent)) ValueError.

(** [{b.name: b for b in buffers}]: a later buffer of the same name wins. *)
Definition buf_by_name (bufs : list LifetimeBoundBuffer)
    : gmap string LifetimeBoundBuffer :=
  foldl (fun m b => <[buf_name b := b]> m) ∅ bufs.

(** The checks of one declared pair in [_check_in_place_relationships]. *)
Definition check_in_place_pair (child parent : LifetimeBoundBuffer) : res unit :=
  raise_if (negb (end_time parent =? start_time child + 1)) ValueError;;
  check_in_place_parent_is_read parent;;
  if bool_decide (core_divisions parent = []) && bool_decide (core_divisions child = [])
  then raise_if (buf_size parent <? buf_size child) ValueError
  else Ok tt.

Definition _check_in_place_relationships (bufs : list LifetimeBoundBuffer) : res unit :=
  for_each (fun child _ =>
    for_each (fun p _ =>
      match buf_by_name bufs !! p with
      | Some parent => check_in_place_pair child parent
      | None => Ok tt
      end) (in_place_parents child) tt) bufs tt.

(** ** [MemoryPlanSolver]: exclusions and partition *)

(** The solver attributes [limit] and [alignment], with the capability
    [tilings_from_menu()] that [excluded] consults. *)
Record solver := mkSolver {
  limit : Z;
  alignment : Z;
  tilings_from_menu : bool
}.

(** [excluded]: why a buffer may not reside in LX, if it may not. *)
Definition excluded (s : solver) (b : LifetimeBoundBuffer) : option string :=
  match residency_reason b with
  | Some r => Some r
  | None =>
      match untiled_bar b, tilings_from_menu s with
      | Some r, false => Some r
      | _, _ =>
          if limit s <? min_footprint b
          then Some ("min footprint " +:+ pretty (min_footprint b) +:+ " B > LX capacity "
                       +:+ pretty (limit s) +:+ " B")%string
          else None
      end
  end.

(** [record_exclusions]: the [name -> reason] map, and the buffers with the reason
    written to each one's [spill_reason]. *)
Definition record_exclusions (s : solver) (bufs : list LifetimeBoundBuffer)
    : gmap string string * list LifetimeBoundBuffer :=
  (foldl (fun m b => match excluded s b with
                     | Some r => <[buf_name b := r]> m
                     | None => m
                     end) ∅ bufs,
   (fun b => set_spill_reason (excluded s b) b) <$> bufs).

(** [partition], as positions in [buffers]: [(placeable, excluded)]. *)
Definition partition (s : solver) (bufs : list LifetimeBoundBuffer)
    : list LifetimeBoundBuffer * (list nat * list nat) :=
  let '(reasons, bufs') := record_exclusions s bufs in
  let idx := seq 0 (length bufs') in
  let named i := buf_name <$> bufs' !! i in
  (bufs',
   (filter (fun i => (named i ≫= fun n => reasons !! n) = None) idx,
    filter (fun i => (named i ≫= fun n => reasons !! n) <> None) idx)).

(** ** Well-formed inputs *)

(** What the allocator's buffers satisfy: [__post_init__] passed, the buffer is
    used, its size is not negative, and only a computed buffer is an in-place
    child (graph inputs are built with [in_place_parents=[]]). *)
Record wf_buffer (b : LifetimeBoundBuffer) : Prop := {
  wf_used : uses b <> [];
  wf_post_init : post_init b = Ok tt;
  wf_size : 0 <= buf_size b;
  wf_child_computed : in_place_parents b <> [] -> first_use_is_read b = false
}.

Record wf_input (bufs : list LifetimeBoundBuffer) : Prop := {
  wf_buffers : forall b, b ∈ bufs -> wf_buffer b;
  wf_names : NoDup (buf_name <$> bufs);
  wf_unplanned : forall b, b ∈ bufs -> address b = None
}.

(** A buffer whose division was fixed upstream. *)
Definition plain (b : LifetimeBoundBuffer) : Prop := core_divisions b = [].

(** ** The specification of a layout plan *)

(** [c] takes over the storage of its declared in-place parent [p]: same address,
    no larger, on the single tick both are live. *)
Definition hands_over (p c : LifetimeBoundBuffer) : Prop :=
  buf_name p ∈ in_place_parents c /\ end_time p = start_time c + 1 /\
  address p = address c /\ buf_size c <= buf_size p.

(** Two buffers live at the same time do not share a byte, unless one hands its
    slot to the other. *)
Definition compatible (b c : LifetimeBoundBuffer) : Prop :=
  forall x y, address b = Some x -> address c = Some y ->
  overlaps_in_time b c = true ->
  ranges_disjoint x (x + buf_size b) y (y + buf_size c)
  \/ hands_over b c \/ hands_over c b.

Record valid_plan (lim al : Z) (bufs : list LifetimeBoundBuffer) : Prop := {
  plan_in_range : forall b x, b ∈ bufs -> address b = Some x ->
                    0 <= x /\ x + buf_size b <= lim;
  plan_aligned : forall b x, b ∈ bufs -> address b = Some x -> (al | x);
  plan_compatible : pairwise compatible bufs
}.

(** A solver writes [address] and [spill_reason] and nothing else. *)
Definition same_buffer (b b' : LifetimeBoundBuffer) : Prop :=
  exists a r, b' = set_spill_reason r (set_address a b).

(** What a placement solver promises its callers (the allocator, the exhaustive
    search, the annealer's initial layout).  [plan lim al bufs] is
    [Solver(bufs, lim, al).plan_layout()]. *)
Class LayoutSolver (plan : Z -> Z -> list LifetimeBoundBuffer -> res (list LifetimeBoundBuffer))
    : Prop := {
  solver_frame : forall lim al bufs out,
    0 < al -> wf_input bufs -> Forall plain bufs ->
    plan lim al bufs = Ok out -> Forall2 same_buffer bufs out;
  solver_valid : forall lim al bufs out,
    0 < al -> wf_input bufs -> Forall plain bufs ->
    plan lim al bufs = Ok out -> valid_plan lim al out;
  solver_barred : forall lim al bufs out i b b',
    0 < al -> wf_input bufs -> Forall plain bufs -> plan lim al bufs = Ok out ->
    bufs !! i = Some b -> out !! i = Some b' ->
    excluded (mkSolver lim al false) b <> None -> address b' = None;
  solver_total : forall lim al bufs,
    0 < al -> wf_input bufs -> Forall plain bufs -> (forall b, b ∈ bufs -> paired_with b = []) ->
    _check_in_place_relationships bufs = Ok tt ->
    exists out, plan lim al bufs = Ok out
}.

(** ** Lifetimes *)

Lemma strictly_increasing_cons a l :
  strictly_increasing (a :: l) = true <->
  (forall b, b ∈ l -> a < b) /\ strictly_increasing l = true.
Proof.
  revert a. induction l as [|b l IH]; intros a.
  - simpl. split; [intros _; split; [set_solver | done] | done].
  - change (strictly_increasing (a :: b :: l)) with ((a <? b) && strictly_increasing (b :: l)).
    rewrite andb_true_iff, Z.ltb_lt. split.
    + intros [Hab Hs]. split; [|done]. apply IH in Hs as [Hb _].
      intros c [-> | Hc]%elem_of_cons; [done|]. specialize (Hb c Hc). lia.
    + intros [H Hs]. split; [|done]. apply H. set_solver.
Qed.

Lemma head_le_last l f z :
  strictly_increasing l = true -> head l = Some f -> last l = Some z -> f <= z.
Proof.
  destruct l as [|a l]; [done|]. simpl. intros Hs [= ->] Hz.
  apply strictly_increasing_cons in Hs as [Hs _].
  destruct l as [|b l]; [simplify_eq/=; lia|].
  apply Z.lt_le_incl, Hs. apply last_Some in Hz as [k Hk].
  destruct k as [|c k]; [done|]. injection Hk as -> Hk. rewrite Hk. set_solver.
Qed.

Lemma wf_uses b : wf_buffer b ->
  exists f z, head (uses b) = Some f /\ last (uses b) = Some z /\ f <= z /\
    strictly_increasing (uses b) = true /\ start_time b <= f /\ z + 1 <= end_time b.
Proof.
  intros [Hu Hp _ _]. unfold post_init in Hp. inv_res.
  destruct (head (uses b)) as [f|] eqn:Hf; [|by destruct (uses b)].
  destruct (last (uses b)) as [z|] eqn:Hz; [|by apply last_None in Hz].
  exists f, z. unfold start_time, end_time. rewrite Hf, Hz. simpl.
  repeat split; eauto using head_le_last; lia.
Qed.

Lemma start_lt_end b : wf_buffer b -> start_time b < end_time b.
Proof. intros H. destruct (wf_uses b H) as (f & z & _ & _ & ? & _ & ? & ?). lia. Qed.

(** A computed buffer that some op reads is live for at least two ticks. *)
Lemma read_parent_spans b :
  wf_buffer b -> first_use_is_read b = false -> parent_is_read b = true ->
  start_time b + 2 <= end_time b.
Proof.
  intros H Hc Hr. destruct (wf_uses b H) as (f & z & Hf & Hz & _ & _ & ? & ?).
  unfold parent_is_read in Hr. rewrite Hc, Hf, Hz in Hr. simpl in Hr. lia.
Qed.

#[export] Hint Resolve start_lt_end : spyre.

Lemma overlaps_in_time_sym b c : overlaps_in_time b c = overlaps_in_time c b.
Proof. unfold overlaps_in_time. apply andb_comm. Qed.

Lemma compatible_sym b c : compatible b c -> compatible c b.
Proof.
  intros H x y Hx Hy Ho. rewrite overlaps_in_time_sym in Ho.
  destruct (H y x Hy Hx Ho) as [|[|]]; eauto with spyre.
Qed.

(** ** Lookup by name *)

Lemma buf_by_name_app bufs b n :
  buf_by_name (bufs ++ [b]) !! n = if decide (buf_name b = n) then Some b else buf_by_name bufs !! n.
Proof. unfold buf_by_name. rewrite foldl_app. simpl. apply lookup_insert. Qed.

Lemma buf_by_name_Some bufs n b : buf_by_name bufs !! n = Some b -> b ∈ bufs /\ buf_name b = n.
Proof.
  induction bufs as [|c bufs IH] using rev_ind; [done|].
  rewrite buf_by_name_app. case_decide; intros; simplify_eq; set_solver.
Qed.

Lemma buf_by_name_lookup bufs b :
  NoDup (buf_name <$> bufs) -> b ∈ bufs -> buf_by_name bufs !! buf_name b = Some b.
Proof.
  induction bufs as [|c bufs IH] using rev_ind; [set_solver|].
  rewrite fmap_app, NoDup_app. intros (Hn & Hd & _) Hb. rewrite buf_by_name_app.
  apply elem_of_app in Hb as [Hb | ->%list_elem_of_singleton]; [|by rewrite decide_True].
  rewrite decide_False; [by apply IH|]. intros He. apply (Hd (buf_name b)).
  - by apply list_elem_of_fmap_2.
  - simpl. rewrite He. set_solver.
Qed.

Lemma name_inj bufs b c :
  NoDup (buf_name <$> bufs) -> b ∈ bufs -> c ∈ bufs -> buf_name b = buf_name c -> b = c.
Proof.
  intros Hn Hb Hc He. pose proof (buf_by_name_lookup bufs b Hn Hb) as H1.
  pose proof (buf_by_name_lookup bufs c Hn Hc) as H2. rewrite He in H1. congruence.
Qed.

(** ** What the in-place precondition buys *)

Lemma for_each_unit_Ok {A} (body : A -> unit -> res unit) l :
  for_each body l tt = Ok tt <-> forall x, x ∈ l -> body x tt = Ok tt.
Proof.
  induction l as [|x l IH]; simpl; [set_solver|]. split.
  - intros H. inv_res. destruct IH as [IH _]. intros y [-> | Hy]%elem_of_cons; eauto.
  - intros H. rewrite (H x) by set_solver. simpl. apply IH. set_solver.
Qed.

Lemma check_in_place_spec bufs :
  _check_in_place_relationships bufs = Ok tt <->
  forall child p parent, child ∈ bufs -> p ∈ in_place_parents child ->
    buf_by_name bufs !! p = Some parent -> check_in_place_pair child parent = Ok tt.
Proof.
  unfold _check_in_place_relationships. rewrite for_each_unit_Ok. split.
  - intros H child p parent Hc Hp Hl. specialize (H child Hc).
    rewrite for_each_unit_Ok in H. specialize (H p Hp). by rewrite Hl in H.
  - intros H child Hc. apply for_each_unit_Ok. intros p Hp.
    destruct (buf_by_name bufs !! p) as [parent|] eqn:E; [|done]. by eapply H.
Qed.

Lemma check_in_place_pair_spec child parent :
  check_in_place_pair child parent = Ok tt <->
  end_time parent = start_time child + 1 /\ parent_is_read parent = true /\
  (plain parent -> plain child -> buf_size child <= buf_size parent).
Proof.
  unfold check_in_place_pair, check_in_place_parent_is_read, raise_if, plain.
  destruct (Z.eqb_spec (end_time parent) (start_time child + 1)); simpl;
    [|split; [done | tauto]].
  destruct (parent_is_read parent); simpl; [|split; [done | intros (_ & ? & _); done]].
  destruct (decide (core_divisions parent = [])) as [Hp|Hp];
    [rewrite (bool_decide_eq_true_2 _ Hp) | rewrite (bool_decide_eq_false_2 _ Hp)]; simpl;
    [|split; [intros _; by repeat split | done]].
  destruct (decide (core_divisions child = [])) as [Hc|Hc];
    [rewrite (bool_decide_eq_true_2 _ Hc) | rewrite (bool_decide_eq_false_2 _ Hc)]; simpl;
    [|split; [intros _; by repeat split | done]].
  destruct (Z.ltb_spec (buf_size parent) (buf_size child)); split; try done.
  intros (_ & _ & Hle). specialize (Hle Hp Hc). lia.
Qed.

(** ** Exclusions and partition *)

Lemma reasons_lookup s bufs n :
  (record_exclusions s bufs).1 !! n <> None <->
  exists b, b ∈ bufs /\ buf_name b = n /\ excluded s b <> None.
Proof.
  unfold record_exclusions. simpl. induction bufs as [|c bufs IH] using rev_ind; simpl.
  { rewrite lookup_empty. set_solver. }
  rewrite foldl_app. simpl.
  assert (forall P : LifetimeBoundBuffer -> Prop,
            (exists b, b ∈ bufs ++ [c] /\ P b) <-> (exists b, b ∈ bufs /\ P b) \/ P c) as Happ
    by set_solver.
  rewrite (Happ (fun b => buf_name b = n /\ excluded s b <> None)), <- IH. clear IH Happ.
  destruct (excluded s c) as [r|] eqn:E; [|naive_solver].
  rewrite lookup_insert. case_decide; naive_solver.
Qed.

Lemma partition_bufs s bufs :
  (partition s bufs).1 = (fun b => set_spill_reason (excluded s b) b) <$> bufs.
Proof. done. Qed.

Lemma placeable_lookup s bufs i :
  i ∈ (partition s bufs).2.1 <->
  exists b, bufs !! i = Some b /\ (record_exclusions s bufs).1 !! buf_name b = None.
Proof.
  unfold partition. destruct (record_exclusions s bufs) as [reasons bufs'] eqn:E.
  assert (bufs' = (fun b => set_spill_reason (excluded s b) b) <$> bufs) as ->
    by (unfold record_exclusions in E; congruence).
  simpl. rewrite list_elem_of_filter, elem_of_seq, length_fmap, list_lookup_fmap.
  split.
  - intros [H Hi]. destruct (bufs !! i) as [b|] eqn:Hb.
    + exists b. by split.
    + apply lookup_ge_None in Hb. lia.
  - intros (b & Hb & Hr). rewrite Hb. simpl. split; [done|].
    apply lookup_lt_Some in Hb. lia.
Qed.

(** A placeable buffer is not excluded; with distinct names the converse holds. *)
Lemma placeable_not_excluded s bufs i b :
  i ∈ (partition s bufs).2.1 -> bufs !! i = Some b -> excluded s b = None.
Proof.
  intros Hi Hb. apply placeable_lookup in Hi as (b' & Hb' & Hr).
  rewrite Hb in Hb'. injection Hb' as <-.
  destruct (excluded s b) eqn:E; [|done]. exfalso.
  apply (proj2 (reasons_lookup s bufs (buf_name b))); [|done].
  exists b. rewrite E. split; [by eapply list_elem_of_lookup_2 | done].
Qed.

Lemma not_excluded_placeable s bufs i b :
  NoDup (buf_name <$> bufs) -> bufs !! i = Some b -> excluded s b = None ->
  i ∈ (partition s bufs).2.1.
Proof.
  intros Hn Hb Hx. apply placeable_lookup. exists b. split; [done|].
  destruct ((record_exclusions s bufs).1 !! buf_name b) eqn:E; [|done]. exfalso.
  assert ((record_exclusions s bufs).1 !! buf_name b <> None) as H by by rewrite E.
  apply reasons_lookup in H as (c & Hc & Hnc & Hxc).
  assert (c = b) by (eapply name_inj; eauto using list_elem_of_lookup_2). congruence.
Qed.

Lemma placeable_lt s bufs i : i ∈ (partition s bufs).2.1 -> (i < length bufs)%nat.
Proof. intros Hi. apply placeable_lookup in Hi as (b & Hb & _). by eapply lookup_lt_Some. Qed.

Lemma placeable_NoDup s bufs : NoDup (partition s bufs).2.1.
Proof.
  unfold partition. destruct (record_exclusions s bufs) as [reasons bufs']. simpl.
  apply NoDup_filter, NoDup_seq.
Qed.

(** ** Recording the exclusions changes [spill_reason] only *)

Section recorded.
Context (s : solver) (bufs : list LifetimeBoundBuffer).
Let B := (partition s bufs).1.

Lemma recorded_elem b :
  b ∈ B <-> exists b0, b = set_spill_reason (excluded s b0) b0 /\ b0 ∈ bufs.
Proof. unfold B. rewrite partition_bufs. apply list_elem_of_fmap. Qed.

Lemma recorded_lookup i :
  B !! i = (fun b => set_spill_reason (excluded s b) b) <$> bufs !! i.
Proof. unfold B. rewrite partition_bufs. apply list_lookup_fmap. Qed.

Lemma recorded_names : buf_name <$> B = buf_name <$> bufs.
Proof. unfold B. rewrite partition_bufs, <- list_fmap_compose. by apply list_fmap_ext. Qed.

Lemma recorded_wf_input : wf_input bufs -> wf_input B.
Proof.
  intros [Hw Hn Hu]. split.
  - intros b (b0 & -> & Hb)%recorded_elem. by destruct (Hw b0 Hb); constructor.
  - by rewrite recorded_names.
  - intros b (b0 & -> & Hb)%recorded_elem. exact (Hu b0 Hb).
Qed.

Lemma recorded_plain : Forall plain bufs -> Forall plain B.
Proof.
  rewrite !Forall_forall. intros Hp b (b0 & -> & Hb)%recorded_elem. exact (Hp b0 Hb).
Qed.

Lemma recorded_check :
  NoDup (buf_name <$> bufs) ->
  _check_in_place_relationships bufs = Ok tt -> _check_in_place_relationships B = Ok tt.
Proof.
  intros Hn Hc. rewrite check_in_place_spec in Hc |- *.
  intros child p parent (c0 & -> & Hc0)%recorded_elem Hp Hl.
  apply buf_by_name_Some in Hl as [(p0 & -> & Hp0)%recorded_elem <-].
  apply (Hc c0 (buf_name p0) p0 Hc0 Hp). by apply buf_by_name_lookup.
Qed.
End recorded.

(** ** Deciding well-formedness, for concrete inputs *)

#[export] Instance res_eq_dec {A} `{EqDecision A} : EqDecision (res A).
Proof. solve_decision. Defined.

#[export] Instance wf_buffer_dec b : Decision (wf_buffer b).
Proof.
  refine (cast_if (decide ((uses b <> [] /\ post_init b = Ok tt) /\ 0 <= buf_size b /\
    (in_place_parents b <> [] -> first_use_is_read b = false)))).
  - abstract (by destruct a as [[? ?] [? ?]]; constructor).
  - abstract (by intros [? ? ? ?]; apply n).
Defined.

#[export] Instance wf_input_dec bufs : Decision (wf_input bufs).
Proof.
  refine (cast_if (decide (Forall wf_buffer bufs /\ NoDup (buf_name <$> bufs) /\
    Forall (fun b => address b = None) bufs))).
  - abstract (rewrite !Forall_forall in a; by constructor; apply a).
  - abstract (intros [? ? ?]; apply n; by rewrite !Forall_forall).
Defined.

(** A buffer computed at the first of [us] and read at the others. *)
Definition simple_buffer (name : string) (size : Z) (us : list Z) (in_place : list string)
    (pairs : list nat) : LifetimeBoundBuffer :=
  mkBuffer name size us false None in_place None None None None pairs None [] [] ∅ None.

(** The addresses of a plan, by name. *)
Definition addresses (bufs : list LifetimeBoundBuffer) : list (string * option Z) :=
  (fun b => (buf_name b, address b)) <$> bufs.

(** ** Buffers whose addresses were assigned *)

Definition readdressed (b b' : LifetimeBoundBuffer) : Prop := exists a, b' = set_address a b.

Lemma readdressed_refl b : readdressed b b.
Proof. exists (address b). by destruct b. Qed.

Lemma wf_set_address a b : wf_buffer b -> wf_buffer (set_address a b).
Proof. intros [? ? ? ?]. by constructor. Qed.

Section frame.
Context (B : list LifetimeBoundBuffer).
Context (Hwf : forall b, b ∈ B -> wf_buffer b).
Context (Hnames : NoDup (buf_name <$> B)).
Context (Hcheck : _check_in_place_relationships B = Ok tt).

Lemma frame_lookup h r b :
  Forall2 readdressed B h -> h !! r = Some b ->
  exists b0 a, B !! r = Some b0 /\ b = set_address a b0 /\ wf_buffer b.
Proof.
  intros HF Hr. destruct (Forall2_lookup_r _ _ _ _ _ HF Hr) as (b0 & Hb0 & a & ->).
  exists b0, a. repeat split_and!; auto.
  apply wf_set_address, Hwf. by eapply list_elem_of_lookup_2.
Qed.

Lemma frame_name_inj h r q b c :
  Forall2 readdressed B h -> h !! r = Some b -> h !! q = Some c ->
  buf_name b = buf_name c -> r = q.
Proof.
  intros HF Hr Hq He.
  destruct (frame_lookup h r b HF Hr) as (b0 & a & Hb0 & -> & _).
  destruct (frame_lookup h q c HF Hq) as (c0 & a' & Hc0 & -> & _).
  eapply (NoDup_lookup (buf_name <$> B)); [done | |].
  - by rewrite list_lookup_fmap, Hb0.
  - rewrite list_lookup_fmap, Hc0. simpl in *. by rewrite He.
Qed.

Lemma frame_alter h r a : Forall2 readdressed B h ->
  Forall2 readdressed B (alter (set_address a) r h).
Proof.
  intros HF. apply Forall2_same_length_lookup_2.
  { rewrite length_alter. by eapply Forall2_length. }
  intros i b b' Hb Hb'. destruct (decide (r = i)) as [->|Hne].
  - rewrite list_lookup_alter_eq in Hb'. destruct (h !! i) as [c|] eqn:Hc; [|done].
    injection Hb' as <-. destruct (Forall2_lookup_lr _ _ _ _ _ _ HF Hb Hc) as [a' ->].
    by exists a.
  - rewrite list_lookup_alter_ne in Hb' by done.
    by apply (Forall2_lookup_lr _ _ _ _ _ _ HF Hb).
Qed.

(** A declared parent satisfies the in-place precondition. *)
Lemma in_place_pair_facts h r q b m :
  Forall2 readdressed B h -> h !! r = Some b -> h !! q = Some m ->
  buf_name m ∈ in_place_parents b ->
  end_time m = start_time b + 1 /\ parent_is_read m = true /\
  (plain m -> plain b -> buf_size b <= buf_size m).
Proof.
  intros HF Hr Hq Hp.
  destruct (frame_lookup h r b HF Hr) as (b0 & a & Hb0 & -> & _).
  destruct (frame_lookup h q m HF Hq) as (m0 & a' & Hm0 & -> & _).
  apply (check_in_place_pair_spec b0 m0).
  eapply (proj1 (check_in_place_spec B) Hcheck b0 (buf_name m0));
    [by eapply list_elem_of_lookup_2 | done |].
  apply buf_by_name_lookup; [done | by eapply list_elem_of_lookup_2].
Qed.
End frame.
