(* ===== verification/GreedySolver.v ===== *)
(** * The greedy time-stepping solver ([scratchpad/greedy_solver.py])

    [GreedyLayoutSolver] walks the ticks at which a placeable buffer starts or
    ends, drops the expired placements from [usage] and places the buffers that
    start.  Its state is the record [gstate]; buffers are Python objects mutated
    in place, so [heap] holds them and every other field refers to them by
    position.  The file ends with the instance [greedy_layout_solver] of the
    contract [LayoutSolver] and with the atomicity of paired groups.

    [math.ceil(x / alignment)] is a float division in Python: it is the exact
    ceiling for operands below 2^53, far above any scratchpad capacity. *)

From S2P Require Import Prelude PlanSolver.

(** ** State *)

Record gstate := mkG {
  heap : list LifetimeBoundBuffer;
  usage : list nat;
  reused_parents : gset string;
  paired_group_by_name : gmap string (list nat);
  rejected_paired_buffers : gset string
}.

Definition set_heap (h : list LifetimeBoundBuffer) (s : gstate) : gstate :=
  mkG h (usage s) (reused_parents s) (paired_group_by_name s) (rejected_paired_buffers s).
Definition set_usage (u : list nat) (s : gstate) : gstate :=
  mkG (heap s) u (reused_parents s) (paired_group_by_name s) (rejected_paired_buffers s).

(** The buffers in [usage], in order. *)
Definition in_use (s : gstate) : list LifetimeBoundBuffer :=
  omap (fun r => heap s !! r) (usage s).

(** [buffer.address = a] through a reference. *)
Definition write_address (r : nat) (a : option Z) (s : gstate) : gstate :=
  set_heap (alter (set_address a) r (heap s)) s.

(** The [[lo, hi)] interval of a placed buffer. *)
Definition interval_of (b : LifetimeBoundBuffer) : option (Z * Z) :=
  (fun a => (a, a + buf_size b)) <$> address b.

Definition _get_lowest_addr_in_use (s : gstate) : Z :=
  list_min 0 (omap address (in_use s)).
Definition _get_highest_addr_in_use (s : gstate) : Z :=
  list_max 0 (omap (fun b => snd <$> interval_of b) (in_use s)).

(** Tuple comparison of two spans. *)
Definition span_leb (x y : Z * Z) : bool :=
  (x.1 <? y.1) || ((x.1 =? y.1) && (x.2 <=? y.2)).

(** One iteration of the merge loop; [merged] is kept last-first. *)
Definition merge_span (merged : list (Z * Z)) (x : Z * Z) : list (Z * Z) :=
  match merged with
  | (mlo, mhi) :: rest =>
      if x.1 <=? mhi then (mlo, Z.max mhi x.2) :: rest else x :: merged
  | [] => [x]
  end.

Definition _occupied_spans (s : gstate) : list (Z * Z) :=
  reverse (foldl merge_span [] (py_sorted span_leb (omap interval_of (in_use s)))).

(** [math.ceil(x / alignment) * alignment] *)
Definition ceil_to (al x : Z) : Z := - (- x / al) * al.

(** The scan over consecutive spans. *)
Fixpoint scan_gaps (al size_needed : Z) (occupied : list (Z * Z)) : option Z :=
  match occupied with
  | (_, span_end) :: (((next_start, _) :: _) as rest) =>
      let frag_st := ceil_to al span_end in
      if size_needed <=? next_start - frag_st then Some frag_st
      else scan_gaps al size_needed rest
  | _ => None
  end.

Definition _find_free_block (cfg : solver) (s : gstate) (size_needed : Z)
    : res (option Z) :=
  py_assert (forallb (fun b => bool_decide (is_Some (address b))) (in_use s));;
  let curr_lo := _get_lowest_addr_in_use s in
  let curr_hi := _get_highest_addr_in_use s in
  if limit cfg <? size_needed then Ok None
  else if bool_decide (usage s = []) || (size_needed <=? curr_lo) then Ok (Some 0)
  else
    let address := ceil_to (alignment cfg) curr_hi in
    if address + size_needed <=? limit cfg then Ok (Some address)
    else Ok (scan_gaps (alignment cfg) size_needed (_occupied_spans s)).

(** [next((u for u in self.usage if u.name == n), None)] *)
Definition find_in_usage (s : gstate) (n : string) : option LifetimeBoundBuffer :=
  snd <$> list_find (fun b => buf_name b = n) (in_use s).

(** The in-place loop of [_try_allocate_one]: the first declared parent that is
    in use, not yet reused, and large enough. *)
Fixpoint find_in_place (s : gstate) (size : Z) (ps : list string)
    : option (string * LifetimeBoundBuffer) :=
  match ps with
  | [] => None
  | p :: ps' =>
      if bool_decide (p ∈ reused_parents s) then find_in_place s size ps'
      else match find_in_usage s p with
           | Some m => if size <=? buf_size m then Some (p, m)
                       else find_in_place s size ps'
           | None => find_in_place s size ps'
           end
  end.

Definition _try_allocate_one (cfg : solver) (r : nat) (s : gstate) : res gstate :=
  match heap s !! r with
  | None => Raise KeyError
  | Some buffer =>
      match find_in_place s (buf_size buffer) (in_place_parents buffer) with
      | Some (p, m) =>
          let s' := write_address r (address m) s in
          Ok (mkG (heap s') (usage s ++ [r]) ({[p]} ∪ reused_parents s)
                (paired_group_by_name s) (rejected_paired_buffers s))
      | None =>
          addr ← _find_free_block cfg s (buf_size buffer);
          match addr with
          | Some a => Ok (set_usage (usage s ++ [r]) (write_address r (Some a) s))
          | None => Ok (write_address r None s)
          end
      end
  end.

(** The loop over a paired group: [true] when every member was placed. *)
Fixpoint try_group (cfg : solver) (group : list nat) (s : gstate) : res (bool * gstate) :=
  match group with
  | [] => Ok (true, s)
  | m :: group' =>
      s' ← _try_allocate_one cfg m s;
      if bool_decide ((heap s' !! m ≫= address) = None) then Ok (false, s')
      else try_group cfg group' s'
  end.

(** The names of a group, as added to [rejected_paired_buffers]. *)
Definition names_of (h : list LifetimeBoundBuffer) (group : list nat) : list string :=
  omap (fun m => buf_name <$> h !! m) group.

Definition clear_group (group : list nat) (h : list LifetimeBoundBuffer)
    : list LifetimeBoundBuffer :=
  foldl (fun h m => alter (set_address None) m h) h group.

Definition _try_allocate (cfg : solver) (r : nat) (s : gstate) : res gstate :=
  match heap s !! r with
  | None => Raise KeyError
  | Some buffer =>
      if bool_decide (is_Some (address buffer))
         || bool_decide (buf_name buffer ∈ rejected_paired_buffers s) then Ok s
      else match paired_group_by_name s !! buf_name buffer with
      | None => _try_allocate_one cfg r s
      | Some group =>
          '(placed, s') ← try_group cfg group s;
          if placed : bool then Ok s'
          else Ok (mkG (clear_group group (heap s')) (usage s) (reused_parents s)
                     (paired_group_by_name s')
                     (list_to_set (names_of (heap s') group) ∪ rejected_paired_buffers s'))
      end
  end.

(** Dataclass equality over the modelled fields with [compare=True].  The fields
    left out of the record could only make two buffers of the same name unequal,
    and names are distinct in a solve. *)
Definition py_eq (b c : LifetimeBoundBuffer) : bool :=
  bool_decide (buf_name b = buf_name c) && bool_decide (buf_size b = buf_size c)
  && bool_decide (uses b = uses c) && bool_decide (first_use_is_read b = first_use_is_read c)
  && bool_decide (address b = address c)
  && bool_decide (in_place_parents b = in_place_parents c)
  && bool_decide (residency_reason b = residency_reason c)
  && bool_decide (untiled_bar b = untiled_bar c)
  && bool_decide (lifetime_start_override b = lifetime_start_override c)
  && bool_decide (lifetime_end_override b = lifetime_end_override c)
  && bool_decide (core_divisions b = core_divisions c)
  && bool_decide (parents b = parents c)
  && bool_decide (cd_parent_matches b = cd_parent_matches c)
  && bool_decide (chosen_division b = chosen_division c).

(** [if buf in self.usage: self.usage.remove(buf)]: drop the first equal entry. *)
Fixpoint remove_equal (h : list LifetimeBoundBuffer) (buf : LifetimeBoundBuffer)
    (us : list nat) : list nat :=
  match us with
  | [] => []
  | u :: us' =>
      match h !! u with
      | Some b => if py_eq b buf then us' else u :: remove_equal h buf us'
      | None => u :: remove_equal h buf us'
      end
  end.

Definition _try_deallocate (r : nat) (s : gstate) : gstate :=
  match heap s !! r with
  | Some buf => set_usage (remove_equal (heap s) buf (usage s)) s
  | None => s
  end.

(** ** [plan_layout] *)

(** [buffer_by_name]: the position of the last buffer of each name. *)
Definition ref_by_name (h : list LifetimeBoundBuffer) : gmap string nat :=
  foldl (fun m ib => <[buf_name ib.2 := ib.1]> m) ∅ (imap pair h).

(** One root of the paired-group expansion. *)
Definition expand_root (placeable_names : gset string) (by_name : gmap string nat)
    (i : nat) (s : gstate) : res gstate :=
  match heap s !! i with
  | None => Ok s
  | Some root =>
      if bool_decide (paired_with root = []) then Ok s
      else
        let group := i :: paired_with root in
        let members := names_of (heap s) group in
        py_assert (bool_decide (length members = length group) && bool_decide (NoDup members));;
        s' ← for_each (fun m s1 =>
               match heap s1 !! m with
               | None => Raise AssertionError
               | Some member =>
                   py_assert (bool_decide (by_name !! buf_name member = Some m));;
                   py_assert (bool_decide
                     (paired_group_by_name s1 !! buf_name member = None));;
                   Ok (mkG (heap s1) (usage s1) (reused_parents s1)
                         (<[buf_name member := group]> (paired_group_by_name s1))
                         (rejected_paired_buffers s1))
               end) group s;
        if existsb (fun n => bool_decide (n ∉ placeable_names)) members
        then Ok (mkG (heap s') (usage s') (reused_parents s') (paired_group_by_name s')
                   (list_to_set members ∪ rejected_paired_buffers s'))
        else Ok s'
  end.

(** The start or end tick of a referenced buffer. *)
Definition start_of (h : list LifetimeBoundBuffer) (r : nat) : option Z :=
  start_time <$> h !! r.
Definition end_of (h : list LifetimeBoundBuffer) (r : nat) : option Z :=
  end_time <$> h !! r.

(** One tick: deallocate what ends, then allocate what starts. *)
Definition tick (cfg : solver) (placeable : list nat) (idx : Z) (s : gstate) : res gstate :=
  let s1 := foldl (fun st r => if bool_decide (end_of (heap st) r = Some idx)
                               then _try_deallocate r st else st) s placeable in
  for_each (fun r st => if bool_decide (start_of (heap st) r = Some idx)
                        then _try_allocate cfg r st else Ok st) placeable s1.

(** [sorted(times)] over the start and end ticks of the placeable buffers. *)
Definition sorted_times (h : list LifetimeBoundBuffer) (placeable : list nat) : list Z :=
  py_sorted Z.leb (remove_dups (omap (start_of h) placeable ++ omap (end_of h) placeable)).

Definition plan_layout (lim al : Z) (bufs : list LifetimeBoundBuffer)
    : res (list LifetimeBoundBuffer) :=
  let cfg := mkSolver lim al false in
  if bool_decide (length bufs = 0%nat) then Ok []
  else
    py_assert (forallb (fun b => bool_decide (address b = None)) bufs);;
    _check_in_place_relationships bufs;;
    let '(h, (placeable, _)) := partition cfg bufs in
    if bool_decide (placeable = []) then Ok h
    else
      let placeable_names := list_to_set (names_of h placeable) in
      s0 ← for_each (expand_root placeable_names (ref_by_name h)) (seq 0 (length h))
             (mkG h [] ∅ ∅ ∅);
      s ← for_each (tick cfg placeable) (sorted_times h placeable) s0;
      Ok (heap s).

(** ** Free-block search *)

(** [m] (last-first) merges the intervals [l]: every interval lies in a span,
    spans are separated, and each starts where some interval starts. *)
Record merges (l m : list (Z * Z)) : Prop := {
  merges_cover : forall x, x ∈ l -> exists sp, sp ∈ m /\ sp.1 <= x.1 /\ x.2 <= sp.2;
  merges_apart : pairwise (fun later earlier => earlier.2 < later.1) m;
  merges_start : forall sp, sp ∈ m -> sp.1 <= sp.2 /\ exists x, x ∈ l /\ x.1 = sp.1
}.

Lemma merge_span_merges l m x :
  merges l m -> x.1 <= x.2 -> (forall y, y ∈ l -> y.1 <= x.1) ->
  merges (l ++ [x]) (merge_span m x).
Proof.
  intros [Hc Ha Hs] Hx Hle. unfold merge_span.
  destruct m as [|[mlo mhi] rest].
  { split.
    - intros y [Hy | ->%list_elem_of_singleton]%elem_of_app.
      + destruct (Hc y Hy) as (sp & Hsp & _). by apply elem_of_nil in Hsp.
      + exists x. split; [list_mem | lia].
    - apply pairwise_cons. split; [by intros y ?%elem_of_nil | apply pairwise_nil].
    - intros sp ->%list_elem_of_singleton. split; [done|]. exists x. split; [list_mem | done]. }
  apply pairwise_cons in Ha as [Hhead Hrest].
  destruct (Hs (mlo, mhi)) as (Hm & z & Hz & Hzm); [list_mem|]. simpl in *.
  assert (mlo <= x.1) by (rewrite <- Hzm; by apply Hle).
  assert (forall sp, sp ∈ rest -> sp.1 <= sp.2 /\ exists x0, x0 ∈ l ++ [x] /\ x0.1 = sp.1) as Hold.
  { intros sp Hsp. destruct (Hs sp) as (? & w & Hw & ?); [list_mem|].
    split; [done|]. exists w. split; [list_mem | done]. }
  destruct (Z.leb_spec x.1 mhi).
  - split.
    + intros y [Hy | ->%list_elem_of_singleton]%elem_of_app.
      * destruct (Hc y Hy) as (sp & [-> | Hsp]%elem_of_cons & H1 & H2); simpl in *.
        -- exists (mlo, Z.max mhi x.2). split; [list_mem | simpl; lia].
        -- exists sp. split; [list_mem | lia].
      * exists (mlo, Z.max mhi x.2). split; [list_mem | simpl; lia].
    + apply pairwise_cons. split; done.
    + intros sp [-> | Hsp]%elem_of_cons; simpl; [|by apply Hold].
      split; [lia|]. exists z. split; [list_mem | done].
  - split.
    + intros y [Hy | ->%list_elem_of_singleton]%elem_of_app.
      * destruct (Hc y Hy) as (sp & Hsp & ?). exists sp. split; [list_mem | done].
      * exists x. split; [list_mem | lia].
    + apply pairwise_cons. split; [|by apply pairwise_cons].
      intros sp [-> | Hsp]%elem_of_cons; simpl; [lia|]. specialize (Hhead sp Hsp). lia.
    + intros sp [-> | [-> | Hsp]%elem_of_cons]%elem_of_cons; [| |by apply Hold].
      * split; [done|]. exists x. split; [list_mem | done].
      * split; [done|]. exists z. split; [list_mem | done].
Qed.

Lemma span_leb_total x y : span_leb x y = true \/ span_leb y x = true.
Proof. unfold span_leb. lia. Qed.

Lemma span_leb_trans x y z :
  span_leb x y = true -> span_leb y z = true -> span_leb x z = true.
Proof. unfold span_leb. lia. Qed.

Lemma foldl_merge_merges l :
  StronglySorted (fun a b => span_leb a b = true) l -> (forall x, x ∈ l -> x.1 <= x.2) ->
  merges l (foldl merge_span [] l).
Proof.
  induction l as [|x l IH] using rev_ind; intros Hs Hx.
  { split; [by intros y ?%elem_of_nil | apply pairwise_nil | by intros y ?%elem_of_nil]. }
  apply StronglySorted_app in Hs as (Hlt & Hs & _). rewrite foldl_app. simpl.
  apply merge_span_merges.
  - apply IH; [done|]. intros y Hy. apply Hx. list_mem.
  - apply Hx. list_mem.
  - intros y Hy. specialize (Hlt y x Hy ltac:(list_mem)). unfold span_leb in Hlt. lia.
Qed.

Lemma ceil_to_spec al x : 0 < al -> x <= ceil_to al x /\ (al | ceil_to al x).
Proof.
  intros H. unfold ceil_to. pose proof (neg_div_neg_spec x al H).
  split; [lia | apply Z.divide_factor_r].
Qed.

Lemma scan_gaps_sound al sz occ a :
  0 < al -> pairwise (fun earlier later => earlier.2 < later.1) occ ->
  (forall sp, sp ∈ occ -> sp.1 <= sp.2) ->
  scan_gaps al sz occ = Some a ->
  (al | a) /\ (exists sp, sp ∈ occ /\ a + sz <= sp.1) /\ (exists sp, sp ∈ occ /\ sp.2 <= a) /\
  (forall sp, sp ∈ occ -> sp.2 <= a \/ a + sz <= sp.1).
Proof.
  intros Hal. induction occ as [|[lo1 hi1] occ IH]; intros Hp Hsp Ha; [done|].
  destruct occ as [|[lo2 hi2] occ]; [done|].
  change (scan_gaps al sz ((lo1, hi1) :: (lo2, hi2) :: occ)) with
    (let frag_st := ceil_to al hi1 in
     if sz <=? lo2 - frag_st then Some frag_st
     else scan_gaps al sz ((lo2, hi2) :: occ)) in Ha.
  apply pairwise_cons in Hp as [H1 Hp]. simpl in Ha.
  destruct (Z.leb_spec sz (lo2 - ceil_to al hi1)).
  - injection Ha as <-. pose proof (ceil_to_spec al hi1 Hal) as [? ?].
    split; [done|]. split; [exists (lo2, hi2); split; [list_mem | simpl; lia]|].
    split; [exists (lo1, hi1); split; [list_mem | simpl; lia]|].
    intros sp [-> | [-> | Hin]%elem_of_cons]%elem_of_cons; simpl; [lia | lia |].
    apply pairwise_cons in Hp as [Hn _]. specialize (Hn sp Hin). simpl in Hn.
    assert (lo2 <= hi2) by (apply (Hsp (lo2, hi2)); list_mem). lia.
  - destruct IH as (Hd & (sp1 & Hin1 & Hle1) & (sp2 & Hin2 & Hle2) & Hall); [done | | done |].
    { intros sp Hin. apply Hsp. list_mem. }
    split; [done|]. split; [exists sp1; split; [list_mem | done]|].
    split; [exists sp2; split; [list_mem | done]|].
    intros sp [-> | Hin]%elem_of_cons; [|by apply Hall]. left. simpl.
    specialize (H1 sp2 Hin2). specialize (Hsp sp2 ltac:(list_mem)). simpl in H1. lia.
Qed.

(** What holds of the buffers in use: placed, in range, not negative. *)
Definition usage_ok (cfg : solver) (s : gstate) : Prop :=
  forall b, b ∈ in_use s -> exists x, address b = Some x /\ 0 <= x /\ 0 <= buf_size b /\
    x + buf_size b <= limit cfg.

Lemma occupied_spans_merges cfg s :
  usage_ok cfg s ->
  exists m, _occupied_spans s = reverse m /\ merges (omap interval_of (in_use s)) m.
Proof.
  intros Hu. eexists. split; [reflexivity|].
  assert (forall x, x ∈ omap interval_of (in_use s) -> x.1 <= x.2) as Hx.
  { intros x (b & Hb & Hi)%list_elem_of_omap. destruct (Hu b Hb) as (y & Hy & ? & ? & ?).
    unfold interval_of in Hi. rewrite Hy in Hi. simplify_eq/=. lia. }
  pose proof (py_sorted_perm span_leb (omap interval_of (in_use s))) as Hp.
  destruct (foldl_merge_merges (py_sorted span_leb (omap interval_of (in_use s)))) as [H1 H2 H3].
  - apply py_sorted_sorted; eauto using span_leb_total, span_leb_trans.
  - intros x. rewrite Hp. apply Hx.
  - split; [|done|].
    + intros x. rewrite <- Hp. apply H1.
    + intros sp Hsp. destruct (H3 sp Hsp) as (? & x & Hxin & ?). rewrite Hp in Hxin. eauto.
Qed.

Lemma interval_elem s b x :
  b ∈ in_use s -> address b = Some x -> (x, x + buf_size b) ∈ omap interval_of (in_use s).
Proof.
  intros Hb Hx. apply list_elem_of_omap. exists b. split; [done|].
  unfold interval_of. by rewrite Hx.
Qed.

(** A block returned by [_find_free_block] is aligned, inside the scratchpad and
    disjoint from every buffer in use. *)
Lemma find_free_block_sound cfg s sz a :
  0 < alignment cfg -> 0 <= sz -> usage_ok cfg s ->
  _find_free_block cfg s sz = Ok (Some a) ->
  0 <= a /\ a + sz <= limit cfg /\ (alignment cfg | a) /\
  forall b x, b ∈ in_use s -> address b = Some x ->
    ranges_disjoint a (a + sz) x (x + buf_size b).
Proof.
  intros Hal Hsz Hu H. unfold _find_free_block in H. inv_res.
  destruct (Z.ltb_spec (limit cfg) sz); [done|].
  destruct (bool_decide (usage s = []) || (sz <=? _get_lowest_addr_in_use s)) eqn:E.
  { injection H0 as <-. repeat split; [lia | lia | apply Z.divide_0_r |].
    intros b x Hb Hx. apply orb_true_iff in E as [E | E].
    - apply bool_decide_eq_true in E. unfold in_use in Hb. rewrite E in Hb. by apply elem_of_nil in Hb.
    - left. assert (_get_lowest_addr_in_use s <= x); [|lia].
      apply list_min_le. apply list_elem_of_omap. eauto. }
  pose proof (ceil_to_spec (alignment cfg) (_get_highest_addr_in_use s) Hal) as [Hge Hdiv].
  assert (forall b x, b ∈ in_use s -> address b = Some x ->
            x + buf_size b <= _get_highest_addr_in_use s) as Hhi.
  { intros b x Hb Hx. apply list_max_ge, list_elem_of_omap. exists b. split; [done|].
    unfold interval_of. by rewrite Hx. }
  destruct (Z.leb_spec (ceil_to (alignment cfg) (_get_highest_addr_in_use s) + sz) (limit cfg)).
  { injection H0 as <-. repeat split; [|lia | done |].
    - apply orb_false_iff in E as [E _]. apply bool_decide_eq_false in E.
      destruct (in_use s) as [|b l] eqn:El.
      + unfold _get_highest_addr_in_use in Hge |- *. rewrite El in Hge |- *. simpl in *. lia.
      + destruct (Hu b) as (x & Hx & ? & ? & ?); [rewrite El; list_mem|].
        specialize (Hhi b x ltac:(list_mem) Hx). lia.
    - intros b x Hb Hx. right. specialize (Hhi b x Hb Hx). lia. }
  destruct (occupied_spans_merges cfg s Hu) as (m & Hm & [Hc Ha Hs]).
  injection H0 as H0. rewrite Hm in H0.
  apply scan_gaps_sound in H0 as (Hd & (sp1 & Hsp1 & Hlt1) & (sp2 & Hsp2 & Hlt2) & Hall);
    [|done | apply pairwise_rev; exact Ha | intros sp Hsp; rewrite elem_of_reverse in Hsp; by destruct (Hs sp Hsp)].
  rewrite elem_of_reverse in Hsp1, Hsp2.
  assert (forall sp, sp ∈ m -> 0 <= sp.1 /\ sp.1 <= limit cfg) as Hin.
  { intros sp Hsp. destruct (Hs sp Hsp) as (_ & y & (b & Hb & Hi)%list_elem_of_omap & Hy).
    destruct (Hu b Hb) as (x & Hx & ? & ? & ?). unfold interval_of in Hi.
    rewrite Hx in Hi. simplify_eq/=. lia. }
  repeat split; [| |done|].
  - destruct (Hin sp2 Hsp2). destruct (Hs sp2 Hsp2) as [? _]. lia.
  - destruct (Hin sp1 Hsp1). lia.
  - intros b x Hb Hx. destruct (Hc _ (interval_elem s b x Hb Hx)) as (sp & Hsp & ? & ?).
    simpl in *. destruct (Hall sp ltac:(by apply elem_of_reverse)); unfold ranges_disjoint; lia.
Qed.

Lemma find_free_block_total cfg s sz :
  usage_ok cfg s -> exists o, _find_free_block cfg s sz = Ok o.
Proof.
  intros Hu. unfold _find_free_block.
  assert (forallb (fun b => bool_decide (is_Some (address b))) (in_use s) = true) as ->.
  { apply forallb_forall. intros b Hb%list_elem_of_In. apply bool_decide_eq_true.
    destruct (Hu b Hb) as (x & -> & _). eauto. }
  simpl. repeat case_match; eauto.
Qed.

(** ** The placement invariant *)

(** [b]'s slot was handed on, and [c] comes after it in the chain. *)
Definition handed (R : gset string) (b c : LifetimeBoundBuffer) : Prop :=
  buf_name b ∈ R /\ (end_time b <= start_time c \/ hands_over b c).

Definition slot_ok (R : gset string) (b c : LifetimeBoundBuffer) : Prop :=
  (forall x y, address b = Some x -> address c = Some y ->
     ranges_disjoint x (x + buf_size b) y (y + buf_size c))
  \/ handed R b c \/ handed R c b.

Lemma slot_ok_compatible R b c : slot_ok R b c -> compatible b c.
Proof.
  intros [H | [[_ [H|H]] | [_ [H|H]]]] x y Hx Hy Ho; eauto;
    unfold overlaps_in_time in Ho; lia.
Qed.

Lemma slot_ok_sym R b c : slot_ok R b c -> slot_ok R c b.
Proof. intros [H | [|]]; [left; eauto with spyre | right; auto..]. Qed.

Lemma slot_ok_mono R R' b c : R ⊆ R' -> slot_ok R b c -> slot_ok R' b c.
Proof. intros HR [H | [[? ?]|[? ?]]]; [by left | right; left | right; right]; split; auto. Qed.

(** [cfg] is the solver's configuration, [B] the buffers as [plan_layout] received
    them (after the exclusions were recorded). *)
Record inv (cfg : solver) (B : list LifetimeBoundBuffer) (t : Z) (s : gstate) : Prop := {
  inv_frame : Forall2 readdressed B (heap s);
  inv_nodup : NoDup (usage s);
  inv_used : forall r, r ∈ usage s ->
    exists b x, heap s !! r = Some b /\ address b = Some x;
  inv_live : forall r b x, heap s !! r = Some b -> address b = Some x ->
    r ∈ usage s \/ end_time b <= t;
  inv_range : forall r b x, heap s !! r = Some b -> address b = Some x ->
    0 <= x /\ x + buf_size b <= limit cfg /\ (alignment cfg | x);
  inv_slots : forall r q b c, r ∈ usage s -> q ∈ usage s -> r <> q ->
    heap s !! r = Some b -> heap s !! q = Some c -> slot_ok (reused_parents s) b c;
  inv_compat : forall r q b c, r <> q ->
    heap s !! r = Some b -> heap s !! q = Some c -> compatible b c
}.

Lemma inv_weaken cfg B t t' s : t <= t' -> inv cfg B t s -> inv cfg B t' s.
Proof.
  intros Ht []. split; auto. intros r b x Hr Hx.
  destruct (inv_live0 r b x Hr Hx); [by left | right; lia].
Qed.

Section invariant.
Context (cfg : solver) (B : list LifetimeBoundBuffer).
Context (Hal : 0 < alignment cfg).
Context (Hwf : forall b, b ∈ B -> wf_buffer b).
Context (Hnames : NoDup (buf_name <$> B)).
Context (Hcheck : _check_in_place_relationships B = Ok tt).

(** Placing the unplaced buffer at [r] keeps the invariant, once its slot is
    compatible with everything in use. *)
Lemma place_inv t s r b x R' :
  inv cfg B t s -> heap s !! r = Some b -> address b = None -> t <= start_time b ->
  reused_parents s ⊆ R' ->
  0 <= x /\ x + buf_size b <= limit cfg /\ (alignment cfg | x) ->
  (forall q c, q ∈ usage s -> heap s !! q = Some c ->
     slot_ok R' (set_address (Some x) b) c) ->
  inv cfg B t (mkG (alter (set_address (Some x)) r (heap s)) (usage s ++ [r]) R'
                 (paired_group_by_name s) (rejected_paired_buffers s)).
Proof.
  intros [HF Hnd Hus Hlv Hrg Hsl Hco] Hr Hnone Ht HR Hx Hslot.
  assert (r ∉ usage s) as Hfresh.
  { intros Hin. destruct (Hus r Hin) as (b' & y & Hb' & Hy). congruence. }
  assert (Hlk : forall q c, alter (set_address (Some x)) r (heap s) !! q = Some c ->
            (q = r /\ c = set_address (Some x) b) \/ (q <> r /\ heap s !! q = Some c)).
  { intros q c Hq. destruct (decide (r = q)) as [<-|Hne].
    - rewrite list_lookup_alter_eq, Hr in Hq. injection Hq as <-. by left.
    - rewrite list_lookup_alter_ne in Hq by done. right. by split. }
  split; simpl.
  - by apply frame_alter.
  - apply NoDup_app. split; [done|]. split; [|apply NoDup_singleton].
    intros q Hq ->%list_elem_of_singleton. done.
  - intros q [Hq | ->%list_elem_of_singleton]%elem_of_app.
    + destruct (Hus q Hq) as (c & y & Hc & Hy). exists c, y.
      rewrite list_lookup_alter_ne by congruence. done.
    + exists (set_address (Some x) b), x. by rewrite list_lookup_alter_eq, Hr.
  - intros q c y Hq Hy. destruct (Hlk q c Hq) as [[-> ->] | [Hne Hq']].
    + left. list_mem.
    + destruct (Hlv q c y Hq' Hy); [left; list_mem | by right].
  - intros q c y Hq Hy. destruct (Hlk q c Hq) as [[-> ->] | [Hne Hq']]; [|by eapply Hrg].
    simpl in Hy. by injection Hy as <-.
  - intros q1 q2 c1 c2 H1 H2 Hne Hc1 Hc2. apply elem_of_app in H1, H2.
    destruct (Hlk q1 c1 Hc1) as [[-> ->] | [Hne1 Hq1]],
             (Hlk q2 c2 Hc2) as [[-> ->] | [Hne2 Hq2]]; [done | | |].
    + destruct H2 as [H2 | ->%list_elem_of_singleton]; [|done]. by eapply Hslot.
    + destruct H1 as [H1 | ->%list_elem_of_singleton]; [|done].
      apply slot_ok_sym. by eapply Hslot.
    + destruct H1 as [H1 | ->%list_elem_of_singleton]; [|done].
      destruct H2 as [H2 | ->%list_elem_of_singleton]; [|done].
      eapply slot_ok_mono; [done|]. by eapply (Hsl q1 q2).
  - assert (forall q c, q <> r -> heap s !! q = Some c ->
              compatible (set_address (Some x) b) c) as Hnew.
    { intros q c Hne Hq z y Hz Hy Ho. destruct (Hlv q c y Hq Hy) as [Hin | Hend].
      - by eapply slot_ok_compatible; [by eapply Hslot|..].
      - unfold overlaps_in_time in Ho. simpl in Ho.
        change (start_time (set_address (Some x) b)) with (start_time b) in Ho. lia. }
    intros q1 q2 c1 c2 Hne Hc1 Hc2.
    destruct (Hlk q1 c1 Hc1) as [[-> ->] | [Hne1 Hq1]],
             (Hlk q2 c2 Hc2) as [[-> ->] | [Hne2 Hq2]]; [done | | |].
    + by eapply Hnew.
    + apply compatible_sym. by eapply Hnew.
    + by eapply (Hco q1 q2).
Qed.

Lemma in_use_elem s b : b ∈ in_use s <-> exists q, q ∈ usage s /\ heap s !! q = Some b.
Proof. unfold in_use. by rewrite list_elem_of_omap. Qed.

Lemma inv_usage_ok t s : inv cfg B t s -> usage_ok cfg s.
Proof.
  intros Hi b (q & Hq & Hb)%in_use_elem.
  destruct (inv_used _ _ _ _ Hi q Hq) as (b' & x & Hb' & Hx). same_lookup Hb Hb'.
  exists x. destruct (inv_range _ _ _ _ Hi q b x Hb Hx) as (? & ? & _).
  destruct (frame_lookup B Hwf _ _ _ (inv_frame _ _ _ _ Hi) Hb) as (_ & _ & _ & _ & [_ _ ? _]).
  done.
Qed.

Lemma find_in_place_Some s sz ps p m :
  find_in_place s sz ps = Some (p, m) ->
  p ∈ ps /\ p ∉ reused_parents s /\ m ∈ in_use s /\ buf_name m = p /\ sz <= buf_size m.
Proof.
  induction ps as [|p' ps IH]; simpl; [done|].
  case_bool_decide as Hre.
  { intros H. destruct (IH H) as (? & ?). split; [list_mem | done]. }
  unfold find_in_usage.
  destruct (list_find (fun b => buf_name b = p') (in_use s)) as [[i m']|] eqn:E; simpl.
  - destruct (Z.leb_spec sz (buf_size m')).
    + intros [= <- <-]. apply list_find_Some in E as (Hi & Hn & _).
      repeat split_and!; [list_mem | done | by eapply list_elem_of_lookup_2 | done | done].
    + intros Hr. destruct (IH Hr) as (? & ?). split; [list_mem | done].
  - intros H. destruct (IH H) as (? & ?). split; [list_mem | done].
Qed.

(** Taking over a parent's slot: the new slot is compatible with all in use. *)
Lemma in_place_slot_ok t s r q b m x :
  inv cfg B t s -> heap s !! r = Some b -> q ∈ usage s -> heap s !! q = Some m ->
  address m = Some x -> buf_name m ∈ in_place_parents b ->
  buf_name m ∉ reused_parents s -> buf_size b <= buf_size m ->
  forall q' c, q' ∈ usage s -> heap s !! q' = Some c ->
    slot_ok ({[buf_name m]} ∪ reused_parents s) (set_address (Some x) b) c.
Proof.
  intros Hi Hr Hq Hm Hx Hp Hre Hle q' c Hq' Hc.
  pose proof (inv_frame _ _ _ _ Hi) as HF.
  destruct (in_place_pair_facts B Hwf Hnames Hcheck _ r q b m HF Hr Hm Hp) as (Hend & Hread & _).
  destruct (frame_lookup B Hwf _ _ _ HF Hm) as (_ & _ & _ & _ & Hwm).
  destruct (decide (q = q')) as [<-|Hne].
  { replace c with m by congruence. right. right. split; [set_solver|]. right.
    by repeat split_and!. }
  pose proof (inv_slots _ _ _ _ Hi q q' m c Hq Hq' Hne Hm Hc) as [Hd | [[Hin _] | [Hin Hb]]].
  - left. simpl. intros y z [= <-] Hz. specialize (Hd x z Hx Hz).
    unfold ranges_disjoint in *. lia.
  - done.
  - right. right. split; [set_solver|]. left.
    change (start_time (set_address (Some x) b)) with (start_time b).
    pose proof (start_lt_end m Hwm). destruct Hb as [Hb | (Hpc & Hec & _)]; [lia|].
    assert (first_use_is_read m = false) as Hcomp.
    { apply (wf_child_computed m Hwm). by destruct (in_place_parents m); set_solver. }
    pose proof (read_parent_spans m Hwm Hcomp Hread). lia.
Qed.

Definition placed (s : gstate) (r : nat) : Prop :=
  exists b x, heap s !! r = Some b /\ address b = Some x.
Definition unplaced (s : gstate) (r : nat) : Prop :=
  exists b, heap s !! r = Some b /\ address b = None.

(** What one call leaves unchanged: the other buffers, the groups, the rejected set. *)
Definition only_at (r : nat) (s s' : gstate) : Prop :=
  (forall q, q <> r -> heap s' !! q = heap s !! q) /\
  paired_group_by_name s' = paired_group_by_name s /\
  rejected_paired_buffers s' = rejected_paired_buffers s.

Lemma try_allocate_one_inv t s s' r b :
  inv cfg B t s -> heap s !! r = Some b -> address b = None -> t <= start_time b ->
  _try_allocate_one cfg r s = Ok s' ->
  inv cfg B t s' /\ only_at r s s'.
Proof.
  intros Hi Hr Hnone Ht H. unfold _try_allocate_one in H. rewrite Hr in H.
  assert (forall a q, q <> r -> alter (set_address a) r (heap s) !! q = heap s !! q) as Hoth.
  { intros a q Hne. by apply list_lookup_alter_ne. }
  destruct (find_in_place s (buf_size b) (in_place_parents b)) as [[p m]|] eqn:E.
  - injection H as <-. split; [|by repeat split; simpl; auto].
    apply find_in_place_Some in E as (Hp & Hre & (q & Hq & Hm)%in_use_elem & <- & Hle).
    destruct (inv_used _ _ _ _ Hi q Hq) as (m' & x & Hm' & Hx). same_lookup Hm Hm'.
    simpl. rewrite Hx. apply (place_inv t s r b x); auto; [set_solver | |].
    + destruct (inv_range _ _ _ _ Hi q m x Hm Hx) as (? & ? & ?). repeat split; [done | lia | done].
    + by apply (in_place_slot_ok t s r q b m x).
  - apply bind_Ok in H as (addr & Ha & H). destruct addr as [x|]; injection H as <-.
    + split; [|by repeat split; simpl; auto].
      destruct (find_free_block_sound cfg s (buf_size b) x) as (? & ? & ? & Hd); auto.
      { by destruct (frame_lookup B Hwf _ _ _ (inv_frame _ _ _ _ Hi) Hr) as (_ & _ & _ & _ & [_ _ ? _]). }
      { by eapply inv_usage_ok. }
      apply (place_inv t s r b x); auto.
      intros q c Hq Hc. left. simpl. intros y z [= <-] Hz.
      apply (Hd c z); [|done]. apply in_use_elem. eauto.
    + assert (write_address r None s = s) as ->; [|by split; [|repeat split]].
      unfold write_address, set_heap. destruct s as [h u R G X]. simpl in *. f_equal.
      apply list_eq. intros q. destruct (decide (q = r)) as [->|Hne]; [|by apply Hoth].
      rewrite list_lookup_alter_eq, Hr. simpl. f_equal. destruct b; simpl in *. by subst.
Qed.

Lemma try_allocate_one_total t s r b :
  inv cfg B t s -> heap s !! r = Some b -> exists s', _try_allocate_one cfg r s = Ok s'.
Proof.
  intros Hi Hr. unfold _try_allocate_one. rewrite Hr.
  destruct (find_in_place _ _ _) as [[p m]|]; [eauto|].
  destruct (find_free_block_total cfg s (buf_size b)) as [o ->]; [by eapply inv_usage_ok|].
  simpl. destruct o; eauto.
Qed.
End invariant.

(** ** Paired groups *)

(** The expansion of [paired_with]: every member of a group maps to that group. *)
Definition groups_wf (B : list LifetimeBoundBuffer) (G : gmap string (list nat)) : Prop :=
  forall n g, G !! n = Some g ->
    NoDup g /\ (exists m b, m ∈ g /\ B !! m = Some b /\ buf_name b = n) /\
    forall m, m ∈ g -> exists b, B !! m = Some b /\ G !! buf_name b = Some g.

Record ginv (B : list LifetimeBoundBuffer) (placeable : list nat) (s : gstate) : Prop := {
  g_wf : groups_wf B (paired_group_by_name s);
  g_placeable : forall n g, paired_group_by_name s !! n = Some g ->
    n ∉ rejected_paired_buffers s -> forall m, m ∈ g -> m ∈ placeable;
  g_rejected : forall n g, paired_group_by_name s !! n = Some g ->
    n ∈ rejected_paired_buffers s -> forall m b, m ∈ g -> B !! m = Some b ->
    buf_name b ∈ rejected_paired_buffers s;
  g_atomic : forall n g, paired_group_by_name s !! n = Some g ->
    (forall m, m ∈ g -> placed s m) \/ (forall m, m ∈ g -> unplaced s m);
  g_only : forall r, placed s r -> r ∈ placeable
}.

(** The fate of [r]'s group is decided. *)
Definition resolved (B : list LifetimeBoundBuffer) (s : gstate) (r : nat) : Prop :=
  forall b g, B !! r = Some b -> paired_group_by_name s !! buf_name b = Some g ->
    (forall m, m ∈ g -> placed s m) \/ buf_name b ∈ rejected_paired_buffers s.

Lemma placed_unplaced s r : placed s r -> unplaced s r -> False.
Proof. intros (b & x & Hb & Hx) (c & Hc & Hn). congruence. Qed.

Lemma placed_same s s' r : heap s' !! r = heap s !! r -> placed s r -> placed s' r.
Proof. unfold placed. by intros ->. Qed.

Lemma unplaced_same s s' r : heap s' !! r = heap s !! r -> unplaced s r -> unplaced s' r.
Proof. unfold unplaced. by intros ->. Qed.

Lemma clear_group_lookup g h q :
  clear_group g h !! q =
  if bool_decide (q ∈ g) then set_address None <$> h !! q else h !! q.
Proof.
  unfold clear_group. revert h. induction g as [|m g IH]; intros h; [done|].
  change (foldl _ h (m :: g)) with (clear_group g (alter (set_address None) m h)).
  unfold clear_group. rewrite IH. destruct (decide (q = m)) as [->|Hne].
  - rewrite (bool_decide_eq_true_2 (m ∈ m :: g)) by list_mem.
    rewrite list_lookup_alter_eq. case_bool_decide; [|done].
    by destruct (h !! m).
  - rewrite list_lookup_alter_ne by done.
    pose proof (elem_of_cons g q m). repeat case_bool_decide; tauto.
Qed.

Section groups.
Context (cfg : solver) (B : list LifetimeBoundBuffer) (placeable : list nat).
Context (Hal : 0 < alignment cfg).
Context (Hwf : forall b, b ∈ B -> wf_buffer b).
Context (Hnames : NoDup (buf_name <$> B)).
Context (Hcheck : _check_in_place_relationships B = Ok tt).

Lemma try_group_inv t g s ok s' :
  NoDup g -> inv cfg B t s ->
  (forall m, m ∈ g -> exists b, heap s !! m = Some b /\ address b = None /\ t <= start_time b) ->
  try_group cfg g s = Ok (ok, s') ->
  inv cfg B t s' /\ paired_group_by_name s' = paired_group_by_name s /\
  rejected_paired_buffers s' = rejected_paired_buffers s /\
  (forall q, q ∉ g -> heap s' !! q = heap s !! q) /\
  (ok = true -> forall m, m ∈ g -> placed s' m).
Proof.
  intros Hnd. revert s. induction Hnd as [|m g Hm Hnd IH]; intros s Hi Hg H; simpl in H.
  { injection H as <- <-. split_and!; try done. by intros _ m ?%elem_of_nil. }
  apply bind_Ok in H as (s1 & H1 & H).
  destruct (Hg m) as (b & Hb & Hn & Ht); [list_mem|].
  destruct (try_allocate_one_inv cfg B Hal Hwf Hnames Hcheck t s s1 m b) as [Hi1 (Ho & HG & HX)];
    auto.
  case_bool_decide as Hfail.
  - injection H as <- <-. split_and!; try done.
    intros q Hq. apply Ho. intros ->. apply Hq. list_mem.
  - destruct (IH s1 Hi1) as (Hi' & HG' & HX' & Ho' & Hpl); [|done|].
    { intros m' Hm'. destruct (Hg m') as (b' & Hb' & ?); [list_mem|].
      exists b'. rewrite Ho; [done|]. by intros ->. }
    split_and!; [done | congruence | congruence | |].
    + intros q Hq. rewrite Ho', Ho; [done | |]; intros Hc; apply Hq; [subst|]; list_mem.
    + intros Hok q [-> | Hq]%elem_of_cons; [|by apply Hpl].
      unfold placed. rewrite Ho' by done.
      destruct (heap s1 !! m) as [c|]; [|done]. simpl in Hfail.
      destruct (address c) as [x|] eqn:Hx; [eauto | done].
Qed.

(** A failed group leaves the heap as it found it. *)
Lemma rollback_heap g s s' :
  (forall m, m ∈ g -> unplaced s m) -> Forall2 readdressed B (heap s) ->
  Forall2 readdressed B (heap s') -> (forall q, q ∉ g -> heap s' !! q = heap s !! q) ->
  clear_group g (heap s') = heap s.
Proof.
  intros Hun HF HF' Ho. apply list_eq. intros q. rewrite clear_group_lookup.
  case_bool_decide as Hq; [|by apply Ho].
  destruct (Hun q Hq) as (b & Hb & Hn).
  destruct (frame_lookup B Hwf (heap s) q b HF Hb) as (b0 & a & Hb0 & -> & _).
  destruct (Forall2_lookup_l _ _ _ _ _ HF' Hb0) as (b' & -> & a' & ->).
  simpl in *. rewrite Hb. by rewrite Hn.
Qed.

Lemma group_same s r b g :
  groups_wf B (paired_group_by_name s) -> B !! r = Some b ->
  paired_group_by_name s !! buf_name b = Some g -> r ∈ g.
Proof.
  intros HG Hr Hg. destruct (HG _ _ Hg) as (_ & (m & c & Hm & Hc & He) & _).
  assert (m = r) as <-; [|done].
  eapply (NoDup_lookup (buf_name <$> B)); [done | |].
  - by rewrite list_lookup_fmap, Hc.
  - rewrite list_lookup_fmap, Hr. simpl. by rewrite He.
Qed.

Lemma group_disjoint s n g n' g' m :
  groups_wf B (paired_group_by_name s) ->
  paired_group_by_name s !! n = Some g -> paired_group_by_name s !! n' = Some g' ->
  m ∈ g -> m ∈ g' -> g = g'.
Proof.
  intros HG Hg Hg' Hm Hm'.
  destruct (HG _ _ Hg) as (_ & _ & H1). destruct (HG _ _ Hg') as (_ & _ & H2).
  destruct (H1 m Hm) as (b & Hb & He). destruct (H2 m Hm') as (b' & Hb' & He'). congruence.
Qed.

(** What a call to [_try_allocate] guarantees. *)
Definition step_ok (t : Z) (r : nat) (s s' : gstate) : Prop :=
  inv cfg B t s' /\ ginv B placeable s' /\ resolved B s' r /\
  (forall q, resolved B s q -> resolved B s' q) /\
  paired_group_by_name s' = paired_group_by_name s.

Lemma try_allocate_ungrouped t s s' r b :
  inv cfg B t s -> ginv B placeable s -> r ∈ placeable ->
  heap s !! r = Some b -> start_time b = t -> address b = None -> paired_group_by_name s !! buf_name b = None ->
  _try_allocate_one cfg r s = Ok s' -> step_ok t r s s'.
Proof.
  intros Hi Hg Hpr Hr Hst Hnone Hno H.
  destruct (try_allocate_one_inv cfg B Hal Hwf Hnames Hcheck t s s' r b) as [Hi' (Ho & HG & HX)];
    auto; [lia|].
  destruct (frame_lookup B Hwf _ r b (inv_frame _ _ _ _ Hi) Hr) as (b0 & a & Hb0 & -> & _).
  assert (forall n g m, paired_group_by_name s !! n = Some g -> m ∈ g -> m <> r) as Hnot.
  { intros n g m Hn Hm ->. destruct (g_wf _ _ _ Hg _ _ Hn) as (_ & _ & Hall).
    destruct (Hall r Hm) as (b' & Hb' & He). same_lookup Hb0 Hb'. simpl in Hno. congruence. }
  unfold step_ok. rewrite HG. split; [done|]. split_and!.
  - destruct Hg as [Gw Gp Gr Ga Go]. split; rewrite ?HG, ?HX; [done..| |].
    + intros n g Hn. destruct (Ga n g Hn) as [Hp | Hu]; [left | right]; intros m Hm;
        eauto using placed_same, unplaced_same.
    + intros q Hq. destruct (decide (q = r)) as [->|Hne]; [done|].
      apply Go, (placed_same s'); [|done]. by rewrite Ho.
  - intros c g Hc Hg'. same_lookup Hb0 Hc. rewrite HG in Hg'. simpl in Hno. congruence.
  - intros q Hq c g Hc Hg'. rewrite HG in Hg'. rewrite HX.
    destruct (Hq c g Hc Hg') as [Hp|]; [left|by right].
    intros m Hm. apply (placed_same s); eauto.
  - done.
Qed.

(** Every member of a group was placed. *)
Lemma group_placed_ok t s s1 r b g :
  ginv B placeable s -> inv cfg B t s1 -> B !! r = Some b ->
  paired_group_by_name s !! buf_name b = Some g ->
  paired_group_by_name s1 = paired_group_by_name s ->
  rejected_paired_buffers s1 = rejected_paired_buffers s ->
  (forall q, q ∉ g -> heap s1 !! q = heap s !! q) ->
  (forall m, m ∈ g -> m ∈ placeable) ->
  (forall m, m ∈ g -> placed s1 m) -> step_ok t r s s1.
Proof.
  intros [Gw Gp Gr Ga Go] Hi1 Hr Hg HG HX Ho Hin Hpl. unfold step_ok. rewrite HG. split_and!.
  - done.
  - split; rewrite ?HG, ?HX; [done..| |].
    + intros n g' Hn. destruct (decide (g' = g)) as [->|Hne]; [left; by apply Hpl|].
      assert (forall m, m ∈ g' -> m ∉ g) as Hdis.
      { intros m Hm Hm'. apply Hne. by eapply (group_disjoint s n g' (buf_name b) g m). }
      destruct (Ga n g' Hn) as [Hp|Hu]; [left | right]; intros m Hm;
        eauto using placed_same, unplaced_same.
    + intros q Hq. destruct (decide (q ∈ g)) as [|Hne]; [by apply Hin|].
      apply Go, (placed_same s1); [|done]. by rewrite Ho.
  - intros c g' Hc Hg'. rewrite HG in Hg'. same_lookup Hr Hc. left.
    replace g' with g by congruence. done.
  - intros q Hq c g' Hc Hg'. rewrite HG in Hg'. rewrite HX.
    destruct (Hq c g' Hc Hg') as [Hp|]; [left|by right]. intros m Hm.
    destruct (decide (m ∈ g)); eauto using placed_same.
  - done.
Qed.

(** The group was rolled back and rejected as a whole. *)
Lemma group_rejected_ok t s r b g :
  inv cfg B t s -> ginv B placeable s -> B !! r = Some b ->
  paired_group_by_name s !! buf_name b = Some g ->
  step_ok t r s (mkG (heap s) (usage s) (reused_parents s) (paired_group_by_name s)
                   (list_to_set (names_of B g) ∪ rejected_paired_buffers s)).
Proof.
  intros Hi [Gw Gp Gr Ga Go] Hr Hg. destruct (Gw _ _ Hg) as (_ & _ & Hmem).
  assert (forall m c, m ∈ g -> B !! m = Some c -> buf_name c ∈ names_of B g) as Hname.
  { intros m c Hm Hc. apply list_elem_of_omap. exists m. by rewrite Hc. }
  unfold step_ok; simpl. split_and!.
  - destruct Hi. by split.
  - split; simpl; [done | | |done|done].
    + intros n g' Hn Hnr. apply (Gp n g' Hn). set_solver.
    + intros n g' Hn [Hnr | Hnr]%elem_of_union m c Hm Hc;
        [apply elem_of_union_l | apply elem_of_union_r; by eapply (Gr n g' Hn Hnr m)].
      apply elem_of_list_to_set, list_elem_of_omap in Hnr as (m1 & Hm1 & Hn1).
      destruct (Hmem m1 Hm1) as (c1 & Hc1 & Hgc). rewrite Hc1 in Hn1. injection Hn1 as <-.
      replace g' with g in * by congruence. apply elem_of_list_to_set. by eapply Hname.
  - intros c g' Hc Hg'. same_lookup Hr Hc. right. simpl.
    apply elem_of_union_l, elem_of_list_to_set. eapply (Hname r); [|done].
    by eapply group_same.
  - intros q Hq c g' Hc Hg'. destruct (Hq c g' Hc Hg') as [Hp|Hrj]; [by left | right].
    by apply elem_of_union_r.
  - done.
Qed.

Lemma names_of_frame h g : Forall2 readdressed B h -> names_of h g = names_of B g.
Proof.
  intros HF. unfold names_of. induction g as [|m g IH]; [done|]. csimpl.
  destruct (B !! m) as [b|] eqn:Hb; csimpl.
  - destruct (Forall2_lookup_l _ _ _ _ _ HF Hb) as (c & -> & a & ->). csimpl. by rewrite IH.
  - assert (h !! m = None) as ->; [|done].
    apply lookup_ge_None. rewrite <- (Forall2_length _ _ _ HF). by apply lookup_ge_None.
Qed.

Lemma try_allocate_grouped t s s' r b g :
  inv cfg B t s -> ginv B placeable s -> heap s !! r = Some b -> address b = None ->
  buf_name b ∉ rejected_paired_buffers s -> paired_group_by_name s !! buf_name b = Some g ->
  (forall m c, m ∈ placeable -> B !! m = Some c -> start_time c < t -> resolved B s m) ->
  _try_allocate cfg r s = Ok s' -> step_ok t r s s'.
Proof.
  intros Hi Hgi Hr Hnone Hnrej Hg Hvis H.
  destruct (frame_lookup B Hwf _ r b (inv_frame _ _ _ _ Hi) Hr) as (b0 & a & Hb0 & Hb & _).
  assert (buf_name b = buf_name b0) as Hnm by by subst.
  assert (r ∈ g) as Hrg by (eapply group_same; [apply Hgi | done | congruence]).
  destruct (g_wf _ _ _ Hgi _ _ Hg) as (Hnd & _ & Hmem).
  assert (forall m, m ∈ g -> unplaced s m) as Hun.
  { destruct (g_atomic _ _ _ Hgi _ _ Hg) as [Hp|]; [|done].
    exfalso. apply (placed_unplaced s r); [by apply Hp|]. exists b. done. }
  assert (forall m, m ∈ g -> exists c, heap s !! m = Some c /\ address c = None /\ t <= start_time c)
    as Hready.
  { intros m Hm. destruct (Hun m Hm) as (c & Hc & Hcn). exists c. split; [done|]. split; [done|].
    destruct (Z.le_gt_cases t (start_time c)) as [|Hlt]; [done|]. exfalso.
    destruct (frame_lookup B Hwf _ m c (inv_frame _ _ _ _ Hi) Hc) as (c0 & a' & Hc0 & -> & _).
    destruct (Hmem m Hm) as (c1 & Hc1 & Hgc). same_lookup Hc0 Hc1.
    destruct (Hvis m c0 (g_placeable _ _ _ Hgi _ _ Hg Hnrej m Hm) Hc0 Hlt c0 g Hc0 Hgc)
      as [Hp | Hrej].
    - apply (placed_unplaced s r); [by apply Hp|]. exists b. done.
    - apply Hnrej. rewrite Hnm. by eapply (g_rejected _ _ _ Hgi _ _ Hgc Hrej r b0). }
  unfold _try_allocate in H. rewrite Hr, Hnone in H.
  rewrite (bool_decide_eq_false_2 _ Hnrej), Hg in H.
  rewrite (bool_decide_eq_false_2 (is_Some None)) in H by (by intros [? ?]). simpl in H.
  apply bind_Ok in H as ([ok s1] & H1 & H).
  destruct (try_group_inv t g s ok s1 Hnd Hi Hready H1) as (Hi1 & HG & HX & Ho & Hpl).
  rewrite Hnm in Hg. destruct ok; injection H as <-.
  - eapply (group_placed_ok t s s1 r b0 g); auto.
    rewrite <- Hnm in Hg. by apply (g_placeable _ _ _ Hgi _ _ Hg Hnrej).
  - rewrite (rollback_heap g s s1 Hun) by (try apply Hi; try apply Hi1; done).
    rewrite HG, HX, (names_of_frame (heap s1)) by apply Hi1.
    by apply (group_rejected_ok t s r b0 g).
Qed.

(** [_try_allocate] on a buffer that starts at the current tick. *)
Lemma try_allocate_ok t s s' r b :
  inv cfg B t s -> ginv B placeable s -> r ∈ placeable ->
  heap s !! r = Some b -> start_time b = t ->
  (forall m c, m ∈ placeable -> B !! m = Some c -> start_time c < t -> resolved B s m) ->
  _try_allocate cfg r s = Ok s' -> step_ok t r s s'.
Proof.
  intros Hi Hgi Hpr Hr Hst Hvis H. pose proof H as Hrun.
  destruct (frame_lookup B Hwf _ r b (inv_frame _ _ _ _ Hi) Hr) as (b0 & a & Hb0 & Hb & _).
  assert (buf_name b = buf_name b0) as Hnm by by subst.
  unfold _try_allocate in H. rewrite Hr in H.
  destruct (bool_decide (is_Some (address b)) || bool_decide (buf_name b ∈ rejected_paired_buffers s)) eqn:E.
  - injection H as <-. split_and!; try done.
    intros c g Hc Hg. same_lookup Hb0 Hc. apply orb_true_iff in E as [E|E]; [left | right].
    + apply bool_decide_eq_true in E as [x Hx].
      destruct (g_atomic _ _ _ Hgi _ _ Hg) as [Hp|Hu]; [done|].
      exfalso. apply (placed_unplaced s r); [by exists b, x|]. apply Hu.
      by eapply group_same; [apply Hgi|..].
    + apply bool_decide_eq_true in E. congruence.
  - apply orb_false_iff in E as [E1%bool_decide_eq_false E2%bool_decide_eq_false].
    assert (address b = None) as Hnone by (by destruct (address b); [destruct E1|]).
    destruct (paired_group_by_name s !! buf_name b) as [g|] eqn:Hg.
    + by eapply try_allocate_grouped.
    + by eapply try_allocate_ungrouped.
Qed.
End groups.

(** ** Ticks *)

Lemma py_eq_end_time b c : py_eq b c = true -> end_time b = end_time c.
Proof.
  unfold py_eq. intros H. split_bools. unfold end_time.
  repeat match goal with E : _ = _ :> _ |- _ => rewrite E; clear E end. done.
Qed.

Lemma remove_equal_sublist h buf us : remove_equal h buf us `sublist_of` us.
Proof.
  induction us as [|u us IH]; simpl; [done|].
  destruct (h !! u) as [b|]; [|by constructor].
  destruct (py_eq b buf); [by apply sublist_cons | by constructor].
Qed.

Lemma remove_equal_elem h buf us u :
  u ∈ us -> u ∈ remove_equal h buf us \/ exists b, h !! u = Some b /\ py_eq b buf = true.
Proof.
  induction us as [|v us IH]; simpl; [by intros ?%elem_of_nil|].
  intros [-> | Hu]%elem_of_cons.
  - destruct (h !! v) as [b|] eqn:Hb; [|left; list_mem].
    destruct (py_eq b buf) eqn:E; [right; eauto | left; list_mem].
  - destruct (IH Hu) as [H|H]; [left | by right].
    destruct (h !! v) as [b|]; [|list_mem]. destruct (py_eq b buf); [done | list_mem].
Qed.

Section ticks.
Context (cfg : solver) (B : list LifetimeBoundBuffer) (placeable : list nat).
Context (Hal : 0 < alignment cfg).
Context (Hwf : forall b, b ∈ B -> wf_buffer b).
Context (Hnames : NoDup (buf_name <$> B)).
Context (Hcheck : _check_in_place_relationships B = Ok tt).

(** Deallocation changes [usage] only. *)
Definition same_but_usage (s s' : gstate) : Prop :=
  heap s' = heap s /\ paired_group_by_name s' = paired_group_by_name s /\
  rejected_paired_buffers s' = rejected_paired_buffers s.

Lemma same_but_usage_ginv s s' :
  same_but_usage s s' -> ginv B placeable s -> ginv B placeable s'.
Proof.
  intros (Hh & HG & HX) [Gw Gp Gr Ga Go].
  split; unfold placed, unplaced; rewrite ?Hh, ?HG, ?HX; auto.
Qed.

Lemma same_but_usage_resolved s s' q :
  same_but_usage s s' -> resolved B s q -> resolved B s' q.
Proof. intros (Hh & HG & HX). unfold resolved, placed. by rewrite Hh, HG, HX. Qed.

Lemma try_deallocate_ok t s r b :
  inv cfg B t s -> heap s !! r = Some b -> end_time b <= t ->
  inv cfg B t (_try_deallocate r s) /\ same_but_usage s (_try_deallocate r s).
Proof.
  intros [HF Hnd Hus Hlv Hrg Hsl Hco] Hr Ht. unfold _try_deallocate. rewrite Hr.
  pose proof (remove_equal_sublist (heap s) b (usage s)) as Hsub.
  assert (forall q, q ∈ remove_equal (heap s) b (usage s) -> q ∈ usage s) as Hin.
  { intros q Hq. by eapply elem_of_sublist. }
  split; [|by repeat split]. split; simpl; [done | | eauto | | done | | done].
  - by eapply sublist_NoDup.
  - intros q c x Hq Hx. destruct (Hlv q c x Hq Hx) as [Hu|]; [|by right].
    destruct (remove_equal_elem (heap s) b (usage s) q Hu) as [|(c' & Hc' & He)]; [by left|].
    right. same_lookup Hq Hc'. rewrite (py_eq_end_time _ _ He). done.
  - intros q1 q2 c1 c2 H1 H2. apply Hsl; auto.
Qed.

Lemma deallocate_all_ok t l s :
  inv cfg B t s ->
  let s1 := foldl (fun st r => if bool_decide (end_of (heap st) r = Some t)
                               then _try_deallocate r st else st) s l in
  inv cfg B t s1 /\ same_but_usage s s1.
Proof.
  revert s. induction l as [|r l IH]; intros s Hi; simpl; [by split; [|repeat split]|].
  case_bool_decide as He; [|by apply IH].
  destruct (heap s !! r) as [b|] eqn:Hr; unfold end_of in He; rewrite Hr in He; [|done].
  injection He as He.
  destruct (try_deallocate_ok t s r b Hi Hr) as [Hi1 (H1 & H2 & H3)]; [lia|].
  destruct (IH _ Hi1) as [Hi2 (H4 & H5 & H6)]. split; [done|].
  unfold same_but_usage. by rewrite H4, H5, H6.
Qed.

Lemma start_of_frame h r : Forall2 readdressed B h -> start_of h r = start_of B r.
Proof.
  intros HF. unfold start_of. destruct (B !! r) as [b|] eqn:Hb.
  - by destruct (Forall2_lookup_l _ _ _ _ _ HF Hb) as (c & -> & a & ->).
  - assert (h !! r = None) as ->; [|done].
    apply lookup_ge_None. rewrite <- (Forall2_length _ _ _ HF). by apply lookup_ge_None.
Qed.

(** The allocation pass of one tick, after the references [dn]. *)
Definition alloc_I (t : Z) (s1 : gstate) (dn : list nat) (st : gstate) : Prop :=
  inv cfg B t st /\ ginv B placeable st /\
  (forall q, resolved B s1 q -> resolved B st q) /\
  (forall r, r ∈ dn -> start_of B r = Some t -> resolved B st r) /\
  paired_group_by_name st = paired_group_by_name s1.

Definition allocate_at (t : Z) (r : nat) (st : gstate) : res gstate :=
  if bool_decide (start_of (heap st) r = Some t) then _try_allocate cfg r st else Ok st.

Lemma start_of_heap t st r :
  inv cfg B t st -> start_of B r = Some t ->
  exists b, heap st !! r = Some b /\ start_time b = t.
Proof.
  unfold start_of. intros Hi Hst. destruct (B !! r) as [b0|] eqn:Hb0; [|done].
  injection Hst as Hst.
  destruct (Forall2_lookup_l _ _ _ _ _ (inv_frame _ _ _ _ Hi) Hb0) as (b & Hb & a & ->).
  eauto.
Qed.

Lemma alloc_I_step t s1 dn r st st' :
  (forall m c, m ∈ placeable -> B !! m = Some c -> start_time c < t -> resolved B s1 m) ->
  r ∈ placeable -> alloc_I t s1 dn st -> allocate_at t r st = Ok st' ->
  alloc_I t s1 (dn ++ [r]) st'.
Proof.
  intros Hvis Hr (Hi2 & Hg2 & Hres & Hdone & HG) Hrun. unfold allocate_at in Hrun.
  rewrite (start_of_frame (heap st)) in Hrun by apply Hi2.
  case_bool_decide as Hst.
  - destruct (start_of_heap t st r Hi2 Hst) as (b & Hb & Hbt).
    destruct (try_allocate_ok cfg B placeable Hal Hwf Hnames Hcheck t st st' r b)
      as (Hi3 & Hg3 & Hr3 & Hk3 & HG3); eauto.
    split_and!; auto; [|congruence].
    intros q [Hq | Hq%list_elem_of_singleton]%elem_of_app Hqs; [auto | by subst q].
  - injection Hrun as <-. split_and!; auto.
    intros q [Hq | Hq%list_elem_of_singleton]%elem_of_app Hqs; [auto | congruence].
Qed.

Lemma alloc_I_init t s1 :
  inv cfg B t s1 -> ginv B placeable s1 -> alloc_I t s1 [] s1.
Proof. intros Hi Hg. split_and!; auto. by intros r ?%elem_of_nil. Qed.

(** With no paired groups an allocation never raises. *)
Lemma allocate_at_total t s1 dn r st :
  paired_group_by_name s1 = ∅ -> alloc_I t s1 dn st ->
  exists st', allocate_at t r st = Ok st'.
Proof.
  intros He (Hi & _ & _ & _ & HG). unfold allocate_at.
  rewrite (start_of_frame (heap st)) by apply Hi.
  case_bool_decide as Hst; [|eauto].
  destruct (start_of_heap t st r Hi Hst) as (b & Hb & Hbt).
  unfold _try_allocate. rewrite Hb. destruct (_ || _); [eauto|].
  rewrite HG, He, lookup_empty. by eapply try_allocate_one_total.
Qed.

(** The solve between ticks, after the ticks [dn]. *)
Definition tick_I (s0 : gstate) (dn : list Z) (st : gstate) : Prop :=
  (forall t, (forall x, x ∈ dn -> x <= t) -> inv cfg B t st) /\ ginv B placeable st /\
  (forall r b, r ∈ placeable -> B !! r = Some b -> start_time b ∈ dn -> resolved B st r) /\
  paired_group_by_name st = paired_group_by_name s0.

Lemma sorted_times_elem r b :
  r ∈ placeable -> B !! r = Some b -> start_time b ∈ sorted_times B placeable.
Proof.
  intros Hr Hb. apply elem_of_py_sorted, elem_of_remove_dups, elem_of_app. left.
  apply list_elem_of_omap. exists r. split; [done|]. unfold start_of. by rewrite Hb.
Qed.

Lemma tick_I_before s0 dn x rest st :
  sorted_times B placeable = dn ++ x :: rest -> tick_I s0 dn st ->
  inv cfg B x st /\
  forall m c, m ∈ placeable -> B !! m = Some c -> start_time c < x -> resolved B st m.
Proof.
  intros Hl (Hi2 & Hg2 & Hres & HG).
  assert (StronglySorted (fun a b => (a <=? b) = true) (sorted_times B placeable)) as Hs
    by (apply py_sorted_sorted; lia).
  rewrite Hl in Hs. apply StronglySorted_app in Hs as (Hlt & _ & Hs).
  apply StronglySorted_cons in Hs as [Hrest _]. split.
  - apply Hi2. intros y Hy. specialize (Hlt y x Hy ltac:(list_mem)). lia.
  - intros m c Hm Hc Hcx. eapply Hres; eauto.
    pose proof (sorted_times_elem m c Hm Hc) as Hin. rewrite Hl in Hin.
    apply elem_of_app in Hin as [|[Heq|Hin]%elem_of_cons]; [done | lia |].
    rewrite Forall_forall in Hrest. specialize (Hrest _ Hin). cbv beta in Hrest. lia.
Qed.

Lemma tick_I_step s0 dn x rest st st' :
  sorted_times B placeable = dn ++ x :: rest -> tick_I s0 dn st ->
  tick cfg placeable x st = Ok st' -> tick_I s0 (dn ++ [x]) st'.
Proof.
  intros Hl HI Hrun. destruct (tick_I_before s0 dn x rest st Hl HI) as [Hix Hvis].
  destruct HI as (Hi2 & Hg2 & Hres & HG).
  destruct (deallocate_all_ok x placeable st Hix) as [Hi1 Hsame].
  unfold tick in Hrun. set (s1 := foldl _ st placeable) in *.
  assert (alloc_I x s1 placeable st') as (Hi3 & Hg3 & Hr3 & Hk3 & HG3).
  { refine (for_each_ind _ (alloc_I x s1) placeable s1 st' _ _ Hrun).
    - intros d r rest' t1 t2 Hd. apply alloc_I_step; [|rewrite Hd; list_mem].
      intros m c Hm Hc Hlt. by eapply (same_but_usage_resolved st), Hvis.
    - apply alloc_I_init; [done | by eapply same_but_usage_ginv]. }
  split_and!; auto.
  - intros t Ht. apply (inv_weaken cfg B x); [|done]. apply Ht. list_mem.
  - intros r b Hr Hb [Hd | Hd%list_elem_of_singleton]%elem_of_app.
    + apply Hr3, (same_but_usage_resolved st); eauto.
    + apply Hk3; [done|]. unfold start_of. rewrite Hb. simpl. by rewrite Hd.
  - rewrite HG3, <- HG. apply Hsame.
Qed.

Lemma tick_total s0 dn x rest st :
  paired_group_by_name s0 = ∅ -> sorted_times B placeable = dn ++ x :: rest ->
  tick_I s0 dn st -> exists st', tick cfg placeable x st = Ok st'.
Proof.
  intros He Hl HI. destruct (tick_I_before s0 dn x rest st Hl HI) as [Hix Hvis].
  destruct HI as (Hi2 & Hg2 & Hres & HG).
  destruct (deallocate_all_ok x placeable st Hix) as [Hi1 Hsame].
  unfold tick. set (s1 := foldl _ st placeable) in *.
  destruct (for_each_total (allocate_at x) (alloc_I x s1) placeable s1) as (st' & Hr & _).
  - intros d r rest' t1 Hd HA.
    destruct (allocate_at_total x s1 d r t1) as [t2 Ht2]; [|done|].
    { rewrite <- He, <- HG. apply Hsame. }
    exists t2. split; [done|]. eapply alloc_I_step; eauto; [|rewrite Hd; list_mem].
    intros m c Hm Hc Hlt. by eapply (same_but_usage_resolved st), Hvis.
  - apply alloc_I_init; [done | by eapply same_but_usage_ginv].
  - eauto.
Qed.

Lemma tick_I_init s0 :
  (forall t, inv cfg B t s0) -> ginv B placeable s0 -> tick_I s0 [] s0.
Proof. intros Hi Hg. split_and!; auto. by intros r b _ _ ?%elem_of_nil. Qed.

Lemma ticks_ok s0 s :
  (forall t, inv cfg B t s0) -> ginv B placeable s0 ->
  for_each (tick cfg placeable) (sorted_times B placeable) s0 = Ok s ->
  (exists t, inv cfg B t s) /\ ginv B placeable s /\
  paired_group_by_name s = paired_group_by_name s0.
Proof.
  intros Hi Hg H.
  assert (tick_I s0 (sorted_times B placeable) s) as (Hi' & Hg' & _ & HG).
  { refine (for_each_ind _ (tick_I s0) _ s0 s _ (tick_I_init s0 Hi Hg) H).
    intros dn x rest st st'. apply tick_I_step. }
  split_and!; auto. exists (list_max 0 (sorted_times B placeable)).
  apply Hi'. intros x. apply list_max_ge.
Qed.

Lemma ticks_total s0 :
  paired_group_by_name s0 = ∅ -> (forall t, inv cfg B t s0) -> ginv B placeable s0 ->
  exists s, for_each (tick cfg placeable) (sorted_times B placeable) s0 = Ok s.
Proof.
  intros He Hi Hg.
  destruct (for_each_total (tick cfg placeable) (tick_I s0) (sorted_times B placeable) s0)
    as (s & Hs & _); [|by apply tick_I_init | eauto].
  intros dn x rest st Hl HI. destruct (tick_total s0 dn x rest st) as [st' Hst']; auto.
  exists st'. split; [done|]. by eapply tick_I_step.
Qed.
End ticks.

(** ** Expanding the paired groups *)

(** The state while the roots [done] have been expanded. *)
Record setup (B : list LifetimeBoundBuffer) (placeable : list nat) (done : list nat)
    (s : gstate) : Prop := {
  su_heap : heap s = B;
  su_usage : usage s = [] /\ reused_parents s = ∅;
  su_wf : groups_wf B (paired_group_by_name s);
  su_placeable : forall n g, paired_group_by_name s !! n = Some g ->
    n ∉ rejected_paired_buffers s -> forall m, m ∈ g -> m ∈ placeable;
  su_rejected : forall n g, paired_group_by_name s !! n = Some g ->
    n ∈ rejected_paired_buffers s -> forall m b, m ∈ g -> B !! m = Some b ->
    buf_name b ∈ rejected_paired_buffers s;
  su_dom : forall n, n ∈ rejected_paired_buffers s -> is_Some (paired_group_by_name s !! n);
  su_roots : forall i b, i ∈ done -> B !! i = Some b -> paired_with b <> [] ->
    paired_group_by_name s !! buf_name b = Some (i :: paired_with b)
}.

(** [G'] is [G] with the members of [group] added, all previously absent. *)
Record adds_group (B : list LifetimeBoundBuffer) (group dn : list nat)
    (G G' : gmap string (list nat)) : Prop := {
  ag_old : forall n g, G !! n = Some g -> G' !! n = Some g;
  ag_new : forall n g, G' !! n = Some g -> G !! n = Some g \/
    (g = group /\ exists m b, m ∈ dn /\ B !! m = Some b /\ buf_name b = n);
  ag_members : forall m, m ∈ dn -> exists b, B !! m = Some b /\
    G' !! buf_name b = Some group /\ G !! buf_name b = None
}.

Lemma adds_group_step B group dn G G' m b :
  adds_group B group dn G G' -> B !! m = Some b -> G' !! buf_name b = None ->
  adds_group B group (dn ++ [m]) G (<[buf_name b := group]> G').
Proof.
  intros [Ho Hn Hm] Hb Hfresh. split.
  - intros n g Hg. rewrite lookup_insert_ne; [by apply Ho|].
    intros <-. apply Ho in Hg. congruence.
  - intros n g. rewrite lookup_insert. case_decide as He.
    + intros [= <-]. right. split; [done|]. exists m, b. split; [list_mem | done].
    + intros Hg. destruct (Hn n g Hg) as [|(? & m' & b' & ? & ?)]; [by left|].
      right. split; [done|]. exists m', b'. split; [list_mem | done].
  - intros m' [Hm' | ->%list_elem_of_singleton]%elem_of_app.
    + destruct (Hm m' Hm') as (b' & ? & ? & ?). exists b'. split_and!; auto.
      rewrite lookup_insert_ne; congruence.
    + exists b. split; [done|]. rewrite lookup_insert_eq. split; [done|].
      destruct (G !! buf_name b) as [g|] eqn:E; [|done]. apply Ho in E. congruence.
Qed.

Lemma adds_group_wf B group G G' :
  NoDup group -> groups_wf B G -> adds_group B group group G G' -> groups_wf B G'.
Proof.
  intros Hnd HG [Ho Hn Hm] n g Hg. destruct (Hn n g Hg) as [Hold | (-> & Hex)].
  - destruct (HG n g Hold) as (? & ? & Hall). split_and!; auto.
    intros m Hin. destruct (Hall m Hin) as (b & ? & ?). eauto.
  - split_and!; auto. intros m Hin. destruct (Hm m Hin) as (b & ? & ? & _). eauto.
Qed.

Lemma names_of_elem h g n :
  n ∈ names_of h g <-> exists m b, m ∈ g /\ h !! m = Some b /\ buf_name b = n.
Proof.
  unfold names_of. rewrite list_elem_of_omap. split.
  - intros (m & Hm & He). destruct (h !! m) as [b|] eqn:Hb; [|done]. injection He as <-. eauto.
  - intros (m & b & Hm & Hb & <-). exists m. by rewrite Hb.
Qed.

(** A list of references with as many distinct names as elements has no repeats. *)
Lemma names_of_NoDup h g :
  length (names_of h g) = length g -> NoDup (names_of h g) -> NoDup g.
Proof.
  unfold names_of. induction g as [|m g IH]; [by constructor|]. csimpl.
  pose proof (length_omap_le (fun m => buf_name <$> h !! m) g) as Hle.
  destruct (h !! m) as [b|] eqn:Hb; csimpl; [|lia].
  intros Hlen [Hn Hnd]%NoDup_cons. constructor; [|apply IH; [lia | done]].
  intros Hm. apply Hn. apply names_of_elem. eauto.
Qed.

Section setup_proofs.
Context (B : list LifetimeBoundBuffer) (placeable : list nat).
Context (Hnames : NoDup (buf_name <$> B)).

Lemma named_placeable m b :
  B !! m = Some b -> buf_name b ∈ (list_to_set (names_of B placeable) : gset string) ->
  m ∈ placeable.
Proof.
  intros Hb Hin. apply elem_of_list_to_set, names_of_elem in Hin as (q & c & Hq & Hc & He).
  assert (q = m) as <-; [|done].
  eapply (NoDup_lookup (buf_name <$> B)); [done | |].
  - by rewrite list_lookup_fmap, Hc.
  - rewrite list_lookup_fmap, Hb. simpl. by rewrite He.
Qed.

Lemma expand_members group s s' :
  heap s = B ->
  for_each (fun m s1 =>
    match heap s1 !! m with
    | None => Raise AssertionError
    | Some member =>
        py_assert (bool_decide (ref_by_name B !! buf_name member = Some m));;
        py_assert (bool_decide (paired_group_by_name s1 !! buf_name member = None));;
        Ok (mkG (heap s1) (usage s1) (reused_parents s1)
              (<[buf_name member := group]> (paired_group_by_name s1))
              (rejected_paired_buffers s1))
    end) group s = Ok s' ->
  heap s' = B /\ usage s' = usage s /\ reused_parents s' = reused_parents s /\
  rejected_paired_buffers s' = rejected_paired_buffers s /\
  adds_group B group group (paired_group_by_name s) (paired_group_by_name s').
Proof.
  intros HB H.
  refine (for_each_ind _ (fun dn st => heap st = B /\ usage st = usage s /\
    reused_parents st = reused_parents s /\
    rejected_paired_buffers st = rejected_paired_buffers s /\
    adds_group B group dn (paired_group_by_name s) (paired_group_by_name st))
    group s s' _ _ H).
  - intros dn m rest s1 s2 _ (Hh & Hu & Hr & HX & Ha) Hrun.
    rewrite Hh in Hrun. destruct (B !! m) as [b|] eqn:Hb; [|done].
    inv_res. simpl. split_and!; auto. split_bools. by apply adds_group_step.
  - split_and!; auto. split; [done | by left | by intros m ?%elem_of_nil].
Qed.

(** The two outcomes of a root: its group is added, and rejected as a whole when
    some member may not be placed. *)
Lemma setup_add dn i root s s1 rej :
  setup B placeable dn s -> B !! i = Some root -> paired_with root <> [] ->
  let group := i :: paired_with root in
  NoDup group -> adds_group B group group (paired_group_by_name s) (paired_group_by_name s1) ->
  heap s1 = B -> usage s1 = usage s -> reused_parents s1 = reused_parents s ->
  rejected_paired_buffers s1 = rej ∪ rejected_paired_buffers s ->
  (rej = ∅ /\ (forall m, m ∈ group -> m ∈ placeable)) \/ rej = list_to_set (names_of B group) ->
  setup B placeable (dn ++ [i]) s1.
Proof.
  intros [_ [Hsu Hsr] Hsw Hsp Hsj Hsd Hsroots] Hi Hpw group Hnd Ha Hh Hu Hr HX Hrej.
  pose proof (ag_members _ _ _ _ _ Ha) as Hmem.
  assert (forall n, n ∈ rej -> exists m b, m ∈ group /\ B !! m = Some b /\ buf_name b = n) as Hnew.
  { intros n Hn. destruct Hrej as [[-> _] | ->]; [set_solver|].
    by apply elem_of_list_to_set, names_of_elem in Hn. }
  split; rewrite ?Hu, ?Hr, ?HX; auto.
  - by eapply adds_group_wf.
  - intros n g Hg Hn m Hm.
    destruct (ag_new _ _ _ _ _ Ha n g Hg) as [Hg0 | (-> & m' & b & Hm' & Hb & <-)];
      [eapply Hsp; [done | set_solver | done]|].
    destruct Hrej as [[_ Hall] | ->]; [by apply Hall|].
    exfalso. apply Hn, elem_of_union_l, elem_of_list_to_set, names_of_elem. eauto.
  - intros n g Hg [Hn | Hn]%elem_of_union m b Hm Hb.
    + destruct (Hnew n Hn) as (m' & b' & Hm' & Hb' & <-).
      destruct (Hmem m' Hm') as (c & Hc & Hgc & _). same_lookup Hb' Hc.
      replace g with group in * by congruence.
      destruct Hrej as [[-> _] | ->]; [set_solver|].
      apply elem_of_union_l, elem_of_list_to_set, names_of_elem. eauto.
    + apply elem_of_union_r.
      destruct (ag_new _ _ _ _ _ Ha n g Hg) as [Hold|(-> & m' & b' & Hm' & Hb' & <-)];
        [by eapply Hsj|].
      destruct (Hsd _ Hn) as [g' Hg'].
      destruct (Hmem m' Hm') as (c & Hc & _ & Hno). same_lookup Hb' Hc. congruence.
  - intros n [Hn | Hn]%elem_of_union.
    + destruct (Hnew n Hn) as (m' & b' & Hm' & Hb' & <-).
      destruct (Hmem m' Hm') as (c & Hc & Hgc & _). same_lookup Hb' Hc. eauto.
    + destruct (Hsd n Hn) as [g Hg]. exists g. by apply (ag_old _ _ _ _ _ Ha).
  - intros j b [Hj | Hj%list_elem_of_singleton]%elem_of_app Hb Hp.
    + apply (ag_old _ _ _ _ _ Ha). by apply Hsroots.
    + subst j. same_lookup Hi Hb. destruct (Hmem i) as (c & Hc & Hg & _); [list_mem|].
      by same_lookup Hi Hc.
Qed.

Lemma setup_skip dn i s :
  setup B placeable dn s -> (forall b, B !! i = Some b -> paired_with b = []) ->
  setup B placeable (dn ++ [i]) s.
Proof.
  intros [] Hno. split; auto.
  intros j b [Hj | Hj%list_elem_of_singleton]%elem_of_app Hb Hp; [eauto|].
  subst j. by apply Hno in Hb.
Qed.

Lemma expand_root_ok dn i s s' :
  setup B placeable dn s ->
  expand_root (list_to_set (names_of B placeable)) (ref_by_name B) i s = Ok s' ->
  setup B placeable (dn ++ [i]) s'.
Proof.
  intros Hs H. unfold expand_root in H. pose proof (su_heap _ _ _ _ Hs) as HB.
  rewrite HB in H. destruct (B !! i) as [root|] eqn:Hi.
  2:{ injection H as <-. apply setup_skip; [done|]. intros b Hb. congruence. }
  case_bool_decide as Hpw.
  { injection H as <-. apply setup_skip; [done|]. intros b Hb. congruence. }
  set (group := i :: paired_with root) in *.
  apply bind_Ok in H as ([] & Hd & H). apply py_assert_Ok in Hd. split_bools.
  apply bind_Ok in H as (s1 & Hrun & H).
  destruct (expand_members group s s1 HB Hrun) as (Hh & Hu & Hr & HX & Ha).
  assert (NoDup group) as Hnd by (by eapply names_of_NoDup).
  destruct (existsb _ _) eqn:Hex in H; injection H as <-.
  - eapply (setup_add dn i root s _ (list_to_set (names_of B group))); eauto.
    cbn [rejected_paired_buffers]. by rewrite HX.
  - eapply (setup_add dn i root s _ ∅); eauto; [rewrite HX; set_solver|].
    left. split; [done|]. intros m Hm.
    destruct (ag_members _ _ _ _ _ Ha m Hm) as (b & Hb & _). apply (named_placeable m b Hb).
    destruct (decide (buf_name b ∈ (list_to_set (names_of B placeable) : gset string)))
      as [|Hno]; [done|]. exfalso. apply not_true_iff_false in Hex. apply Hex.
    apply existsb_exists. exists (buf_name b). split; [|by apply bool_decide_eq_true].
    apply list_elem_of_In, names_of_elem. eauto.
Qed.
End setup_proofs.

(** ** The whole solve *)

Section solve.
Context (lim al : Z) (bufs : list LifetimeBoundBuffer).
Context (Hal : 0 < al) (Hin : wf_input bufs).
Let cfg := mkSolver lim al false.
Let B := (partition cfg bufs).1.
Let placeable := (partition cfg bufs).2.1.

(** What a finished solve satisfies. *)
Definition solved (s : gstate) : Prop :=
  (exists t, inv cfg B t s) /\ ginv B placeable s /\
  (placeable <> [] -> forall i b, B !! i = Some b -> paired_with b <> [] ->
     paired_group_by_name s !! buf_name b = Some (i :: paired_with b)).

Lemma B_unplanned r b : B !! r = Some b -> address b = None.
Proof.
  intros Hb. apply (wf_unplanned B); [by apply recorded_wf_input|].
  by eapply list_elem_of_lookup_2.
Qed.

Lemma fresh_inv s t : heap s = B -> usage s = [] -> inv cfg B t s.
Proof.
  intros Hh Hu. split; rewrite ?Hh, ?Hu.
  - apply Forall_Forall2_diag, Forall_forall. intros b _. apply readdressed_refl.
  - constructor.
  - by intros r ?%elem_of_nil.
  - intros r b x Hr Hx. apply B_unplanned in Hr. congruence.
  - intros r b x Hr Hx. apply B_unplanned in Hr. congruence.
  - by intros r q b c ?%elem_of_nil.
  - intros r q b c _ Hr _ x y Hx. apply B_unplanned in Hr. congruence.
Qed.

Lemma setup_ginv dn s : setup B placeable dn s -> ginv B placeable s.
Proof.
  intros [Hh _ Hw Hp Hj _ _]. split; auto.
  - intros n g Hg. right. intros m Hm. destruct (Hw n g Hg) as (_ & _ & Hall).
    destruct (Hall m Hm) as (b & Hb & _). exists b. rewrite Hh.
    split; [done | by eapply B_unplanned].
  - intros r (b & x & Hb & Hx). rewrite Hh in Hb. apply B_unplanned in Hb. congruence.
Qed.

Lemma setup_init : setup B placeable [] (mkG B [] ∅ ∅ ∅).
Proof.
  split; simpl; try done; try (by intros i b ?%elem_of_nil); set_solver.
Qed.

Lemma setup_all s0 :
  for_each (expand_root (list_to_set (names_of B placeable)) (ref_by_name B))
    (seq 0 (length B)) (mkG B [] ∅ ∅ ∅) = Ok s0 ->
  setup B placeable (seq 0 (length B)) s0.
Proof.
  intros H. refine (for_each_ind _ (setup B placeable) _ _ _ _ setup_init H).
  intros dn i rest s1 s2 _. apply expand_root_ok. unfold B. rewrite recorded_names. apply Hin.
Qed.

Lemma partition_eta : exists ex, partition cfg bufs = (B, (placeable, ex)).
Proof. unfold B, placeable. destruct (partition cfg bufs) as [? [? ?]]. by eexists. Qed.

Lemma greedy_layout_solved out :
  plan_layout lim al bufs = Ok out -> exists s, heap s = out /\ solved s.
Proof.
  intros H. unfold plan_layout in H. fold cfg in H.
  case_bool_decide as Hlen.
  { injection H as <-. apply nil_length_inv in Hlen as Hnil.
    assert (B = []) as HB by (unfold B; by rewrite partition_bufs, Hnil).
    exists (mkG B [] ∅ ∅ ∅). split; [done|]. split_and!.
    - exists 0. by apply fresh_inv.
    - apply (setup_ginv []), setup_init.
    - intros _ i b Hb. by rewrite HB in Hb. }
  apply bind_Ok in H as (_ & _ & H). apply bind_Ok in H as ([] & Hc & H).
  destruct partition_eta as [ex Hp]. rewrite Hp in H.
  case_bool_decide as Hpl.
  { injection H as <-. exists (mkG B [] ∅ ∅ ∅). split; [done|]. split_and!.
    - exists 0. by apply fresh_inv.
    - apply (setup_ginv []), setup_init.
    - done. }
  apply bind_Ok in H as (s0 & H0 & H). apply bind_Ok in H as (s & Hs & H).
  injection H as <-. exists s. split; [done|].
  pose proof (setup_all s0 H0) as Hsu.
  destruct (ticks_ok cfg B placeable Hal) with (s0 := s0) (s := s) as (Hi & Hg & HG); auto.
  - apply (wf_buffers B), recorded_wf_input, Hin.
  - unfold B. rewrite recorded_names. apply Hin.
  - apply recorded_check; [apply Hin | done].
  - intros t. apply fresh_inv; apply Hsu.
  - by eapply setup_ginv.
  - split_and!; auto. intros _ i b Hb Hpw. rewrite HG.
    apply (su_roots _ _ _ _ Hsu); [|done..]. apply elem_of_seq.
    apply lookup_lt_Some in Hb. lia.
Qed.

Lemma greedy_layout_total :
  (forall b, b ∈ bufs -> paired_with b = []) -> _check_in_place_relationships bufs = Ok tt ->
  exists out, plan_layout lim al bufs = Ok out.
Proof.
  intros Hpw Hc. unfold plan_layout. fold cfg. case_bool_decide; [eauto|].
  assert (forallb (fun b => bool_decide (address b = None)) bufs = true) as ->.
  { apply forallb_forall. intros b Hb%list_elem_of_In.
    by apply bool_decide_eq_true, (wf_unplanned bufs). }
  rewrite Hc. destruct partition_eta as [ex ->]. simpl. case_bool_decide; [eauto|].
  set (s0 := mkG B [] ∅ ∅ ∅).
  assert (for_each (expand_root (list_to_set (names_of B placeable)) (ref_by_name B))
            (seq 0 (length B)) s0 = Ok s0) as ->.
  { destruct (for_each_total (expand_root (list_to_set (names_of B placeable)) (ref_by_name B))
                (fun _ st => st = s0) (seq 0 (length B)) s0) as (st & -> & ->); [|done..].
    intros dn i rest st _ ->. exists s0. split; [|done]. unfold expand_root. simpl.
    destruct (B !! i) as [b|] eqn:Hb; [|done]. rewrite bool_decide_eq_true_2; [done|].
    apply list_elem_of_lookup_2, recorded_elem in Hb as (b0 & -> & Hb0). exact (Hpw b0 Hb0). }
  simpl. destruct (ticks_total cfg B placeable Hal) with (s0 := s0) as [s ->]; eauto.
  - apply (wf_buffers B), recorded_wf_input, Hin.
  - unfold B. rewrite recorded_names. apply Hin.
  - apply recorded_check; [apply Hin | done].
  - intros t. by apply fresh_inv.
  - apply (setup_ginv []), setup_init.
Qed.

(** The position of a buffer in the plan, and its group. *)
Lemma solved_frame s : solved s -> Forall2 same_buffer bufs (heap s).
Proof.
  intros ((t & Hi) & _). pose proof (inv_frame _ _ _ _ Hi) as HF.
  unfold B in HF. rewrite partition_bufs, Forall2_fmap_l in HF.
  eapply Forall2_impl; [exact HF|]. intros b b' [a ->].
  exists a, (excluded cfg b). done.
Qed.

Lemma solved_valid s : solved s -> valid_plan lim al (heap s).
Proof.
  intros ((t & [HF Hnd Hus Hlv Hrg Hsl Hco]) & _). split.
  - intros b x (r & Hr)%list_elem_of_lookup Hx. by destruct (Hrg r b x Hr Hx) as (? & ? & _).
  - intros b x (r & Hr)%list_elem_of_lookup Hx. by destruct (Hrg r b x Hr Hx) as (_ & _ & ?).
  - intros i j b c Hij Hb Hc. apply (Hco i j); [lia | done | done].
Qed.

Lemma solved_barred s i b b' :
  solved s -> bufs !! i = Some b -> heap s !! i = Some b' -> excluded cfg b <> None ->
  address b' = None.
Proof.
  intros (_ & Hg & _) Hb Hb' Hx. destruct (address b') as [x|] eqn:Ha; [|done].
  exfalso. apply Hx. apply (placeable_not_excluded cfg bufs i); [|done].
  apply (g_only _ _ _ Hg). by exists b', x.
Qed.

Lemma solved_atomic s i b j b' c :
  solved s -> bufs !! i = Some b -> j ∈ paired_with b ->
  heap s !! i = Some b' -> heap s !! j = Some c ->
  (is_Some (address b') <-> is_Some (address c)).
Proof.
  intros (_ & Hg & Hroots) Hb Hj Hb' Hc.
  assert (forall r d, heap s !! r = Some d -> is_Some (address d) -> placed s r) as Hpl.
  { intros r d Hr [x Hx]. by exists d, x. }
  destruct (decide (placeable = [])) as [He|Hne].
  { split; intros H; exfalso.
    - specialize (g_only _ _ _ Hg i (Hpl _ _ Hb' H)). rewrite He. apply not_elem_of_nil.
    - specialize (g_only _ _ _ Hg j (Hpl _ _ Hc H)). rewrite He. apply not_elem_of_nil. }
  assert (B !! i = Some (set_spill_reason (excluded cfg b) b)) as HB
    by (unfold B; by rewrite recorded_lookup, Hb).
  assert (paired_with b <> []) as Hpw by (destruct (paired_with b); set_solver).
  pose proof (Hroots Hne i _ HB Hpw) as Hgr.
  destruct (g_atomic _ _ _ Hg _ _ Hgr) as [Hall | Hall];
    pose proof (Hall i ltac:(list_mem)) as Hi';
    pose proof (Hall j ltac:(simpl; list_mem)) as Hj'.
  - destruct Hi' as (d & x & Hd & Hx), Hj' as (e & y & He & Hy).
    same_lookup Hb' Hd. same_lookup Hc He. rewrite Hx, Hy. split; eauto.
  - destruct Hi' as (d & Hd & Hx), Hj' as (e & He & Hy).
    same_lookup Hb' Hd. same_lookup Hc He. by rewrite Hx, Hy.
Qed.
End solve.

#[export] Instance greedy_layout_solver : LayoutSolver plan_layout.
Proof.
  split.
  - intros lim al bufs out Hal Hin _ H.
    destruct (greedy_layout_solved lim al bufs Hal Hin out H) as (s & <- & Hs).
    by eapply solved_frame.
  - intros lim al bufs out Hal Hin _ H.
    destruct (greedy_layout_solved lim al bufs Hal Hin out H) as (s & <- & Hs).
    by eapply solved_valid.
  - intros lim al bufs out i b b' Hal Hin _ H Hb Hb' Hx.
    destruct (greedy_layout_solved lim al bufs Hal Hin out H) as (s & <- & Hs).
    by eapply solved_barred.
  - intros lim al bufs Hal Hin _ Hpw Hc. by apply greedy_layout_total.
Qed.

(** ** Claims *)

(** A solve of three buffers of 256 bytes in 512: [c] takes over [a]'s slot, and
    [d] and [e], paired, do not both fit. *)
Definition greedy_sample : list LifetimeBoundBuffer :=
  [ simple_buffer "a" 256 [0; 2] [] [];
    simple_buffer "b" 200 [1; 3] [] [];
    simple_buffer "c" 256 [2; 4] ["a"] [];
    simple_buffer "d" 256 [3; 5] [] [4%nat];
    simple_buffer "e" 256 [3; 6] [] [] ].

Definition greedy_sample_plan : list LifetimeBoundBuffer :=
  match plan_layout 512 128 greedy_sample with Ok out => out | Raise _ => [] end.

Example greedy_sample_addresses :
  addresses greedy_sample_plan =
  [("a", Some 0); ("b", Some 256); ("c", Some 0); ("d", None); ("e", None)].
Proof. vm_compute. reflexivity. Qed.

(** C1. Memory safety of the greedy plan: whatever buffers the solver is given, a
    plan it returns keeps every placed buffer inside the scratchpad and aligned,
    and two buffers that are live at the same time never share a byte unless one
    is the declared in-place child of the other, at the same address and no
    larger; nothing but addresses and spill reasons is changed, and a buffer
    barred from LX is never placed. *)
Theorem greedy_plan_valid lim al bufs out :
  0 < al -> wf_input bufs -> plan_layout lim al bufs = Ok out ->
  valid_plan lim al out /\ Forall2 same_buffer bufs out /\
  forall i b b', bufs !! i = Some b -> out !! i = Some b' ->
    excluded (mkSolver lim al false) b <> None -> address b' = None.
Proof.
  intros Hal Hin H.
  destruct (greedy_layout_solved lim al bufs Hal Hin out H) as (s & <- & Hs).
  split_and!; [by eapply solved_valid | by eapply solved_frame |].
  intros i b b'. by apply solved_barred.
Qed.

Lemma greedy_plan_valid_witness :
  valid_plan 512 128 greedy_sample_plan /\ Forall2 same_buffer greedy_sample greedy_sample_plan /\
  forall i b b', greedy_sample !! i = Some b -> greedy_sample_plan !! i = Some b' ->
    excluded (mkSolver 512 128 false) b <> None -> address b' = None.
Proof.
  apply (greedy_plan_valid 512 128 greedy_sample greedy_sample_plan); [lia | |].
  - apply (bool_decide_unpack _). vm_compute. exact I.
  - vm_compute. reflexivity.
Defined.

(** Paired buffers are placed together or not at all: in a returned plan a
    buffer has an address exactly when every buffer it is paired with has one. *)
Theorem greedy_paired_atomic lim al bufs out i b j b' c :
  0 < al -> wf_input bufs -> plan_layout lim al bufs = Ok out ->
  bufs !! i = Some b -> j ∈ paired_with b -> out !! i = Some b' -> out !! j = Some c ->
  (is_Some (address b') <-> is_Some (address c)).
Proof.
  intros Hal Hin H Hb Hj Hb' Hc.
  destruct (greedy_layout_solved lim al bufs Hal Hin out H) as (s & <- & Hs).
  by eapply solved_atomic.
Qed.

(** In [greedy_sample] the pair [d], [e] fits only if [b] is gone: both are left out. *)
Lemma greedy_paired_atomic_witness :
  exists d e, greedy_sample_plan !! 3%nat = Some d /\ greedy_sample_plan !! 4%nat = Some e /\
    (is_Some (address d) <-> is_Some (address e)).
Proof.
  eexists _, _. split; [vm_compute; reflexivity|]. split; [vm_compute; reflexivity|].
  eapply (greedy_paired_atomic 512 128 greedy_sample greedy_sample_plan 3 _ 4);
    [lia | | vm_compute; reflexivity | vm_compute; reflexivity
    | vm_compute; constructor | vm_compute; reflexivity | vm_compute; reflexivity].
  apply (bool_decide_unpack _). vm_compute. exact I.
Defined.

(** The greedy solver never fails on a well-formed input: when the in-place
    declarations pass the solver's own precondition and no buffers are paired,
    none of its assertions fires and a plan is returned. *)
Theorem greedy_plan_total lim al bufs :
  0 < al -> wf_input bufs -> (forall b, b ∈ bufs -> paired_with b = []) ->
  _check_in_place_relationships bufs = Ok tt ->
  exists out, plan_layout lim al bufs = Ok out.
Proof. intros Hal Hin. by apply greedy_layout_total. Qed.

Lemma greedy_plan_total_witness :
  exists out, plan_layout 512 128 (take 3 greedy_sample) = Ok out.
Proof.
  apply (greedy_plan_total 512 128 (take 3 greedy_sample)); [lia | | |].
  - apply (bool_decide_unpack _). vm_compute. exact I.
  - apply Forall_forall. repeat constructor.
  - vm_compute. reflexivity.
Defined.
