(* ===== verification/FitSolver.v ===== *)
(** * The gap-based solvers ([scratchpad/firstfit_bestfit_solver.py])

    [FirstFitLayoutSolver] orders the placeable buffers by score, sorts them
    topologically along the in-place declarations (Kahn's algorithm) and places
    each one in a gap of the addresses free during its lifetime;
    [BestFitLayoutSolver] only overrides the choice of the gap.  The override is
    the class [GapPolicy]: [plan_layout] takes the policy, its theorems are proved
    against the laws of the class, and [first_fit_pick] and [best_fit_pick] are
    its instances.

    The score is a quotient of floats that are exact multiples of 1/4; it is
    compared here as an exact rational, by cross-multiplication. *)

From S2P Require Import Prelude PlanSolver.

(** ** Gaps *)

Record Gap := mkGap {
  gap_start : Z;
  gap_end : Z;
  gap_parents : list string
}.

(** What [_all_minus] keeps of one gap. *)
Definition minus_one (lo hi minimum_size : Z) (g : Gap) : list Gap :=
  let a := gap_start g in
  let b := gap_end g in
  (if a <? lo then
     if b <? lo then (if minimum_size <=? b - a then [mkGap a b []] else [])
     else (if minimum_size <=? lo - a then [mkGap a lo []] else [])
   else []) ++
  (if hi <? b then
     if hi <? a then (if minimum_size <=? b - a then [mkGap a b []] else [])
     else (if minimum_size <=? b - hi then [mkGap hi b []] else [])
   else []).

Definition _all_minus (gaps : list Gap) (interval : Z * Z) (minimum_size : Z) : list Gap :=
  mjoin (minus_one interval.1 interval.2 minimum_size <$> gaps).

(** Pass 1 of [_build_gaps]: one already placed buffer. *)
Definition subtract_other (buffer : LifetimeBoundBuffer) (parent_names : list string)
    (gaps : list Gap) (other : LifetimeBoundBuffer) : list Gap :=
  match address other with
  | None => gaps
  | Some a =>
      if bool_decide (buf_name other ∈ parent_names) then gaps
      else if negb ((start_time other <? end_time buffer)
                    && (start_time buffer <? end_time other)) then gaps
      else _all_minus gaps (a, a + buf_size other) (buf_size buffer)
  end.

(** Pass 2: the declared parents whose slot lies in the gap. *)
Definition slot_in_gap (placed_by_name : gmap string LifetimeBoundBuffer) (g : Gap)
    (parent_name : string) : bool :=
  match placed_by_name !! parent_name with
  | Some parent =>
      match address parent with
      | Some addr_p => (gap_start g <=? addr_p) && (addr_p + buf_size parent <=? gap_end g)
      | None => false
      end
  | None => false
  end.

Definition annotate (buffer : LifetimeBoundBuffer)
    (placed_by_name : gmap string LifetimeBoundBuffer) (g : Gap) : Gap :=
  mkGap (gap_start g) (gap_end g)
    (gap_parents g ++
     filter (fun p => slot_in_gap placed_by_name g p = true) (in_place_parents buffer)).

Definition _build_gaps (lim : Z) (buffer : LifetimeBoundBuffer)
    (placed : list LifetimeBoundBuffer) (reuse_in_place_parents : bool) : list Gap :=
  let parent_names := if reuse_in_place_parents then in_place_parents buffer else [] in
  let gaps := foldl (subtract_other buffer parent_names) [mkGap 0 lim []] placed in
  annotate buffer (buf_by_name placed) <$> gaps.

(** ** Gap selection *)

Definition gap_fits (al size : Z) (g : Gap) : bool :=
  round_up_to_alignment (gap_start g) al + size <=? gap_end g.

(** [FirstFitLayoutSolver._pick_gap] *)
Fixpoint first_fit_pick (al : Z) (gaps : list Gap) (size : Z) : option Gap :=
  match gaps with
  | [] => None
  | g :: gaps' => if gap_fits al size g then Some g else first_fit_pick al gaps' size
  end.

Definition gap_waste (al size : Z) (g : Gap) : Z :=
  gap_end g - round_up_to_alignment (gap_start g) al - size.

(** [BestFitLayoutSolver._pick_gap]: its state is [(best_gap, best_waste)]. *)
Definition best_fit_step (al size : Z) (best : option Gap * Z) (g : Gap) : option Gap * Z :=
  if gap_fits al size g then
    let waste := gap_waste al size g in
    if bool_decide (best.1 = None) || (waste <? best.2) then (Some g, waste) else best
  else best.

Definition best_fit_pick (al : Z) (gaps : list Gap) (size : Z) : option Gap :=
  (foldl (best_fit_step al size) (None, 0) gaps).1.

(** What [plan_layout] relies on when it calls [self._pick_gap]. *)
Class GapPolicy (pick : Z -> list Gap -> Z -> option Gap) : Prop := {
  policy_sound : forall al gaps size g,
    pick al gaps size = Some g -> g ∈ gaps /\ gap_fits al size g = true;
  policy_complete : forall al gaps size,
    pick al gaps size = None -> forall g, g ∈ gaps -> gap_fits al size g = false
}.

(** ** [_topological_sort] *)

(** [name_to_idx] *)
Definition name_to_idx (bufs : list LifetimeBoundBuffer) : gmap string nat :=
  foldl (fun m ib => <[buf_name ib.2 := ib.1]> m) ∅ (imap pair bufs).

Record kahn := mkKahn {
  in_degree : list nat;
  ready : list (Z * nat);
  order : list nat
}.

(** The two tables built before the loop: [children[p].append(i)] and
    [in_degree[i] += 1] for every declared parent that is present. *)
Definition present_parents (bufs : list LifetimeBoundBuffer) (b : LifetimeBoundBuffer)
    : list nat :=
  omap (fun p => name_to_idx bufs !! p) (in_place_parents b).

Definition build_edge (i : nat) (st : list nat * list (list nat)) (p : nat)
    : list nat * list (list nat) :=
  (alter S i st.1, alter (fun c => c ++ [i]) p st.2).

Definition build_tables (bufs : list LifetimeBoundBuffer) : list nat * list (list nat) :=
  foldl (fun st ib => foldl (build_edge ib.1) st (present_parents bufs ib.2))
    (replicate (length bufs) 0%nat, replicate (length bufs) []) (imap pair bufs).

(** [heapq.heappop] returns the least tuple; ties are impossible, the second
    component being an index that is pushed once. *)
Definition heap_leb (x y : Z * nat) : bool :=
  (x.1 <? y.1) || ((x.1 =? y.1) && (x.2 <=? y.2)%nat).

Fixpoint heappop (h : list (Z * nat)) : option ((Z * nat) * list (Z * nat)) :=
  match h with
  | [] => None
  | x :: h' =>
      match heappop h' with
      | None => Some (x, [])
      | Some (y, r) => if heap_leb x y then Some (x, h') else Some (y, x :: r)
      end
  end.

(** One child of the popped buffer. *)
Definition relax (f : nat -> Z) (st : list nat * list (Z * nat)) (j : nat)
    : list nat * list (Z * nat) :=
  let d := alter pred j st.1 in
  if bool_decide (d !! j = Some 0%nat) then (d, st.2 ++ [(f j, j)]) else (d, st.2).

Fixpoint kahn_loop (fuel : nat) (f : nat -> Z) (children : list (list nat)) (st : kahn)
    : res (list nat) :=
  match heappop (ready st) with
  | None => Ok (order st)
  | Some ((_, i), rest) =>
      match fuel with
      | O => Raise OutOfFuel
      | S fuel' =>
          let '(d, r) := foldl (relax f) (in_degree st, rest) (default [] (children !! i)) in
          kahn_loop fuel' f children (mkKahn d r (order st ++ [i]))
      end
  end.

(** The sort returns positions in [bufs]; [f i] is the key of the buffer at [i]. *)
Definition _topological_sort (bufs : list LifetimeBoundBuffer) (f : nat -> Z)
    : res (list nat) :=
  let '(deg, children) := build_tables bufs in
  let roots := filter (fun i => deg !! i = Some 0%nat) (seq 0 (length bufs)) in
  result ← kahn_loop (length bufs) f children
             (mkKahn deg ((fun i => (f i, i)) <$> roots) []);
  py_assert (bool_decide (length result = length bufs));;
  Ok result.

(** ** [plan_layout] *)

(** [_sort_key], both fields: the score as [(numerator, denominator)], in quarters
    over halves, and the span. *)
Definition score_num (parent_names : list string) (b : LifetimeBoundBuffer) : Z :=
  4 * (end_time b - start_time b)
  - (if bool_decide (in_place_parents b = []) then 0 else 1)
  - (if bool_decide (buf_name b ∈ parent_names) then 1 else 0).
Definition score_den (b : LifetimeBoundBuffer) : Z :=
  2 * Z.of_nat (length (uses b)) + (if first_use_is_read b then 0 else 1).
Definition span_of (b : LifetimeBoundBuffer) : Z := end_time b - start_time b.

Definition _sort_key_leb (parent_names : list string) (b c : LifetimeBoundBuffer) : bool :=
  let x := score_num parent_names b * score_den c in
  let y := score_num parent_names c * score_den b in
  (x <? y) || ((x =? y) && (span_of b <=? span_of c)).

(** The buffers mutated in place, with [names_to_addresses]. *)
Record fstate := mkF {
  fheap : list LifetimeBoundBuffer;
  names_to_addresses : gmap string Z
}.

Definition assign (r : nat) (n : string) (a : Z) (s : fstate) : fstate :=
  mkF (alter (set_address (Some a)) r (fheap s)) (<[n := a]> (names_to_addresses s)).

(** The references of [l], dereferenced. *)
Definition deref (h : list LifetimeBoundBuffer) (l : list nat) : list LifetimeBoundBuffer :=
  omap (fun r => h !! r) l.

Definition has_parents (g : Gap) : Prop := gap_parents g <> [].

(** One iteration of the placement loop, on the buffer [r] after [placed]. *)
Definition place_one (pick : Z -> list Gap -> Z -> option Gap) (lim al : Z)
    (placed : list nat) (r : nat) (s : fstate) : res fstate :=
  match fheap s !! r with
  | None => Raise KeyError
  | Some buffer =>
      let before := deref (fheap s) placed in
      let gaps := _build_gaps lim buffer before true in
      match pick al (filter has_parents gaps) (buf_size buffer) with
      | Some gap =>
          match head (gap_parents gap) ≫= fun p => names_to_addresses s !! p with
          | Some a => Ok (assign r (buf_name buffer) a s)
          | None => Raise KeyError
          end
      | None =>
          match pick al (_build_gaps lim buffer before false) (buf_size buffer) with
          | Some gap =>
              Ok (assign r (buf_name buffer) (round_up_to_alignment (gap_start gap) al) s)
          | None => Ok s
          end
      end
  end.

(** [buffer.end_time >= buffer.start_time + 1] *)
Definition lives (h : list LifetimeBoundBuffer) (r : nat) : bool :=
  match h !! r with
  | Some b => start_time b + 1 <=? end_time b
  | None => false
  end.

(** [buffers_filtered.sort(key=_sort_key)] on references. *)
Definition ref_leb (h : list LifetimeBoundBuffer) (parent_names : list string) (r q : nat)
    : bool :=
  match h !! r, h !! q with
  | Some b, Some c => _sort_key_leb parent_names b c
  | _, _ => true
  end.

Definition sorted_refs (h : list LifetimeBoundBuffer) (placeable : list nat) : list nat :=
  let filtered := filter (fun r => lives h r = true) placeable in
  let parent_names := mjoin (in_place_parents <$> deref h filtered) in
  py_sorted (ref_leb h parent_names) filtered.

(** [buffers_sorted]: the topological sort of the sorted buffers, as references. *)
Definition placement_order (h : list LifetimeBoundBuffer) (placeable : list nat)
    : res (list nat) :=
  let refs := sorted_refs h placeable in
  positions ← _topological_sort (deref h refs) (fun _ => 0);
  Ok (omap (fun i => refs !! i) (positions : list nat)).

(** The constructor's assertion, then [plan_layout]. *)
Definition plan_layout (pick : Z -> list Gap -> Z -> option Gap) (lim al : Z)
    (bufs : list LifetimeBoundBuffer) : res (list LifetimeBoundBuffer) :=
  py_assert (forallb (fun b => bool_decide (paired_with b = [])) bufs);;
  if bool_decide (length bufs = 0%nat) then Ok []
  else
    py_assert (forallb (fun b => bool_decide (address b = None)) bufs);;
    _check_in_place_relationships bufs;;
    let '(h, (placeable, _)) := partition (mkSolver lim al false) bufs in
    buffers_sorted ← placement_order h placeable;
    s ← for_each (fun ir => place_one pick lim al (take ir.1 buffers_sorted) ir.2)
          (imap pair buffers_sorted) (mkF h ∅);
    Ok (fheap s).

Example fit_sample_small :
  addresses <$> plan_layout first_fit_pick 512 128
    [ simple_buffer "a" 256 [0; 2] [] []; simple_buffer "b" 200 [1; 3] [] [];
      simple_buffer "c" 256 [2; 4] ["a"] [] ] =
  Ok [("a", Some 0); ("b", Some 256); ("c", Some 0)].
Proof. vm_compute. reflexivity. Qed.

(** ** The gaps are exactly the free addresses *)

Lemma minus_one_sound lo hi m g g' :
  g' ∈ minus_one lo hi m g ->
  gap_start g <= gap_start g' /\ gap_end g' <= gap_end g /\ gap_parents g' = [] /\
  (gap_end g' <= lo \/ hi <= gap_start g').
Proof.
  unfold minus_one. intros [H | H]%elem_of_app;
    repeat (case_match; try (by apply elem_of_nil in H));
    apply list_elem_of_singleton in H as ->; simpl; (split_and!; [lia | lia | done | lia]).
Qed.

(** A block of positive size that avoids [[lo, hi)] stays in some remainder. *)
Lemma minus_one_complete lo hi s g x :
  0 < s -> gap_start g <= x -> x + s <= gap_end g -> ranges_disjoint x (x + s) lo hi ->
  exists g', g' ∈ minus_one lo hi s g /\ gap_start g' <= x /\ x + s <= gap_end g'.
Proof.
  intros Hs H1 H2 [Hd | Hd]; unfold minus_one.
  - destruct (Z.ltb_spec (gap_start g) lo); [|lia].
    destruct (Z.ltb_spec (gap_end g) lo).
    + destruct (Z.leb_spec s (gap_end g - gap_start g)); [|lia].
      eexists. split; [list_mem | simpl; lia].
    + destruct (Z.leb_spec s (lo - gap_start g)); [|lia].
      eexists. split; [list_mem | simpl; lia].
  - destruct (Z.ltb_spec hi (gap_end g)); [|lia].
    destruct (Z.ltb_spec hi (gap_start g)).
    + destruct (Z.leb_spec s (gap_end g - gap_start g)); [|lia].
      eexists. split; [list_mem | simpl; lia].
    + destruct (Z.leb_spec s (gap_end g - hi)); [|lia].
      eexists. split; [list_mem | simpl; lia].
Qed.

(** A placed buffer the gaps of [buffer] must avoid. *)
Definition obstacle (buffer : LifetimeBoundBuffer) (parent_names : list string)
    (other : LifetimeBoundBuffer) (a : Z) : Prop :=
  address other = Some a /\ buf_name other ∉ parent_names /\
  overlaps_in_time buffer other = true.

Lemma subtract_other_cases buffer ps gaps other :
  subtract_other buffer ps gaps other = gaps /\ (forall a, ~ obstacle buffer ps other a) \/
  exists a, obstacle buffer ps other a /\
    subtract_other buffer ps gaps other =
    _all_minus gaps (a, a + buf_size other) (buf_size buffer).
Proof.
  unfold subtract_other, obstacle. destruct (address other) as [a|].
  2:{ left. split; [done|]. by intros a [? _]. }
  case_bool_decide as Hp; [left; split; [done|]; by intros b (_ & ? & _)|].
  rewrite andb_comm. fold (overlaps_in_time buffer other).
  destruct (overlaps_in_time buffer other) eqn:E; simpl.
  - right. exists a. done.
  - left. split; [done|]. by intros b (_ & _ & ?).
Qed.

Lemma all_minus_elem gaps iv m g' :
  g' ∈ _all_minus gaps iv m <-> exists g, g ∈ gaps /\ g' ∈ minus_one iv.1 iv.2 m g.
Proof.
  unfold _all_minus. rewrite list_elem_of_join. split.
  - intros (l & Hg & Hl). apply list_elem_of_fmap in Hl as (g & -> & Hin). eauto.
  - intros (g & Hin & Hg). eexists. split; [exact Hg|]. by apply list_elem_of_fmap_2.
Qed.

Section gaps.
Context (lim : Z) (buffer : LifetimeBoundBuffer) (ps : list string).
Let free (placed : list LifetimeBoundBuffer) : list Gap :=
  foldl (subtract_other buffer ps) [mkGap 0 lim []] placed.

Lemma free_sound placed g :
  g ∈ free placed ->
  0 <= gap_start g /\ gap_end g <= lim /\ gap_parents g = [] /\
  forall other a, other ∈ placed -> obstacle buffer ps other a ->
    gap_end g <= a \/ a + buf_size other <= gap_start g.
Proof.
  unfold free. revert g. induction placed as [|o placed IH] using rev_ind; intros g.
  - intros ->%list_elem_of_singleton. simpl. split_and!; [lia | lia | done |].
    by intros other a ?%elem_of_nil.
  - rewrite foldl_app. simpl.
    destruct (subtract_other_cases buffer ps (free placed) o) as [[He Hno] | (a & Ho & He)];
      unfold free in He; rewrite He; intros Hg.
    + destruct (IH g Hg) as (? & ? & ? & Hall). split_and!; auto.
      intros other a [Hin | ->%list_elem_of_singleton]%elem_of_app Hob; [eauto|].
      by destruct (Hno a).
    + apply all_minus_elem in Hg as (g0 & Hg0 & Hg).
      apply minus_one_sound in Hg as (? & ? & ? & Hd). simpl in Hd.
      destruct (IH g0 Hg0) as (? & ? & ? & Hall). split_and!; [lia | lia | done |].
      intros other x [Hin | ->%list_elem_of_singleton]%elem_of_app Hob.
      * destruct (Hall other x Hin Hob); lia.
      * destruct Ho as (Ha & _), Hob as (Hx & _). rewrite Ha in Hx. injection Hx as <-. done.
Qed.

Lemma free_complete placed x :
  0 < buf_size buffer -> 0 <= x -> x + buf_size buffer <= lim ->
  (forall other a, other ∈ placed -> obstacle buffer ps other a ->
     ranges_disjoint x (x + buf_size buffer) a (a + buf_size other)) ->
  exists g, g ∈ free placed /\ gap_start g <= x /\ x + buf_size buffer <= gap_end g.
Proof.
  intros Hs Hx Hl. unfold free. induction placed as [|o placed IH] using rev_ind; intros Hd.
  - exists (mkGap 0 lim []). simpl. split; [list_mem | lia].
  - rewrite foldl_app. simpl. destruct IH as (g & Hg & H1 & H2).
    { intros other a Hin. apply Hd. list_mem. }
    destruct (subtract_other_cases buffer ps (free placed) o) as [[He Hno] | (a & Ho & He)];
      unfold free in He; rewrite He; [by exists g|].
    destruct (minus_one_complete a (a + buf_size o) (buf_size buffer) g x Hs H1 H2)
      as (g' & Hg' & ? & ?).
    { apply (Hd o a); [list_mem | done]. }
    exists g'. split; [|done]. apply all_minus_elem. eauto.
Qed.
End gaps.

(** ** The gap policies *)

#[export] Instance first_fit_policy : GapPolicy first_fit_pick.
Proof.
  split; intros al gaps size; induction gaps as [|g gaps IH]; simpl; try done.
  - intros g'. destruct (gap_fits al size g) eqn:E.
    + intros [= <-]. split; [list_mem | done].
    + intros H. destruct (IH g' H). split; [list_mem | done].
  - by intros _ g ?%elem_of_nil.
  - destruct (gap_fits al size g) eqn:E; [done|]. intros H g' [-> | Hg]%elem_of_cons; eauto.
Qed.

(** What the best-fit scan keeps: no gap so far fits, or the first of the
    tightest ones. *)
Definition best_so_far (al size : Z) (seen : list Gap) (best : option Gap * Z) : Prop :=
  match best.1 with
  | None => forall g, g ∈ seen -> gap_fits al size g = false
  | Some g => best.2 = gap_waste al size g /\ gap_fits al size g = true /\
      exists l k, seen = l ++ g :: k /\
      (forall g', g' ∈ l -> gap_fits al size g' = true ->
         gap_waste al size g < gap_waste al size g') /\
      (forall g', g' ∈ k -> gap_fits al size g' = true ->
         gap_waste al size g <= gap_waste al size g')
  end.

Lemma best_fit_scan al size gaps :
  best_so_far al size gaps (foldl (best_fit_step al size) (None, 0) gaps).
Proof.
  induction gaps as [|g gaps IH] using rev_ind; [by intros g ?%elem_of_nil|].
  rewrite foldl_app. simpl. destruct (foldl _ _ gaps) as [best w]. unfold best_fit_step.
  destruct (gap_fits al size g) eqn:E.
  - case_bool_decide as Hb; simpl in Hb.
    + subst best. simpl in *. split_and!; auto. exists gaps, []. split_and!; auto.
      * intros g' Hg' Hf. rewrite (IH g' Hg') in Hf. done.
      * by intros g' ?%elem_of_nil.
    + destruct best as [b|]; [|done]. unfold best_so_far in IH. simpl in *.
      destruct IH as (-> & Hb1 & l & k & -> & Hl & Hk).
      destruct (Z.ltb_spec (gap_waste al size g) (gap_waste al size b)).
      * split_and!; auto. exists (l ++ b :: k), []. split_and!; auto.
        -- intros g' [Hg | [-> | Hg]%elem_of_cons]%elem_of_app Hf; [| lia |].
           ++ specialize (Hl g' Hg Hf). lia.
           ++ specialize (Hk g' Hg Hf). lia.
        -- by intros g' ?%elem_of_nil.
      * split_and!; auto. exists l, (k ++ [g]). rewrite <- app_assoc. split_and!; auto.
        intros g' [Hg | ->%list_elem_of_singleton]%elem_of_app Hf; auto.
  - unfold best_so_far in *. simpl in *. destruct best as [b|].
    + destruct IH as (-> & Hb1 & l & k & -> & Hl & Hk). split_and!; auto.
      exists l, (k ++ [g]). rewrite <- app_assoc. split_and!; auto.
      intros g' [Hg | ->%list_elem_of_singleton]%elem_of_app Hf; [auto | congruence].
    + intros g' [Hg | ->%list_elem_of_singleton]%elem_of_app; auto.
Qed.

#[export] Instance best_fit_policy : GapPolicy best_fit_pick.
Proof.
  split; intros al gaps size; unfold best_fit_pick;
    pose proof (best_fit_scan al size gaps) as H;
    destruct (foldl _ _ gaps) as [best w]; unfold best_so_far in H; simpl in *.
  - intros g ->. destruct H as (_ & ? & l & k & -> & _). split; [list_mem | done].
  - by intros ->.
Qed.

(** ** Kahn's algorithm *)

(** How often [x] occurs in [l]. *)
Definition occ (x : nat) (l : list nat) : nat := length (filter (fun y => y = x) l).

Lemma occ_app x l k : occ x (l ++ k) = (occ x l + occ x k)%nat.
Proof. unfold occ. by rewrite filter_app, length_app. Qed.

Lemma occ_singleton x y : occ x [y] = if decide (y = x) then 1%nat else 0%nat.
Proof. unfold occ. rewrite filter_cons, filter_nil. by case_decide. Qed.

Lemma occ_elem x l : x ∈ l <-> occ x l <> 0%nat.
Proof.
  unfold occ. split.
  - intros Hx. destruct (filter (fun y => y = x) l) as [|z k] eqn:E; [|done].
    exfalso. apply (not_elem_of_nil x). rewrite <- E. by apply list_elem_of_filter.
  - intros H. destruct (filter (fun y => y = x) l) as [|z k] eqn:E; [done|].
    assert (z ∈ filter (fun y => y = x) l) as Hz by (rewrite E; list_mem).
    apply list_elem_of_filter in Hz as [-> ?]. done.
Qed.

(** One pass over the children of a popped buffer: degrees drop by the number of
    edges, and exactly the buffers that reach zero are pushed, once each. *)
Lemma relax_all f C d r :
  (forall j, j ∈ C -> exists k, d !! j = Some k /\ (occ j C <= k)%nat) ->
  exists d' pushed, foldl (relax f) (d, r) C = (d', r ++ ((fun j => (f j, j)) <$> pushed)) /\
    (forall j, d' !! j = (fun k => k - occ j C)%nat <$> d !! j) /\
    NoDup pushed /\ (forall j, j ∈ pushed <-> j ∈ C /\ d' !! j = Some 0%nat).
Proof.
  induction C as [|j C IH] using rev_ind; intros Hk.
  { exists d, []. simpl. rewrite app_nil_r. split_and!; auto.
    - intros j. unfold occ. destruct (d !! j); simpl; [f_equal; lia | done].
    - constructor.
    - intros j. split; [by intros ?%elem_of_nil | by intros [?%elem_of_nil _]]. }
  destruct IH as (d1 & pushed & Hrun & Hd & Hnd & Hpush).
  { intros i Hi. destruct (Hk i) as (k & Hlk & Hle); [list_mem|]. rewrite occ_app in Hle.
    exists k. split; [done | lia]. }
  destruct (Hk j) as (k & Hlk & Hle); [list_mem|].
  rewrite occ_app, occ_singleton, decide_True in Hle by done.
  rewrite foldl_app, Hrun. simpl. unfold relax. simpl.
  assert (forall i, alter pred j d1 !! i = (fun k => k - occ i (C ++ [j]))%nat <$> d !! i) as Hd'.
  { intros i. rewrite occ_app, occ_singleton. destruct (decide (j = i)) as [<-|Hne].
    - rewrite list_lookup_alter_eq, Hd, Hlk. simpl. f_equal. lia.
    - rewrite list_lookup_alter_ne, Hd by done. destruct (d !! i); simpl; [f_equal; lia | done]. }
  assert (j ∉ pushed) as Hfresh.
  { intros [_ H]%Hpush. rewrite Hd, Hlk in H. injection H. lia. }
  assert (forall i, i <> j -> (i ∈ pushed <-> i ∈ C ++ [j] /\ alter pred j d1 !! i = Some 0%nat))
    as Hother.
  { intros i Hne. rewrite Hpush, list_lookup_alter_ne, elem_of_app, list_elem_of_singleton by done.
    naive_solver. }
  exists (alter pred j d1). case_bool_decide as Hz.
  - exists (pushed ++ [j]). rewrite fmap_app, app_assoc. split_and!; auto.
    + apply NoDup_app. split; [done|]. split; [|apply NoDup_singleton].
      by intros x Hx ->%list_elem_of_singleton.
    + intros i. destruct (decide (i = j)) as [->|Hne].
      * split; [intros _; split; [list_mem | done] | intros _; list_mem].
      * rewrite elem_of_app, list_elem_of_singleton. specialize (Hother i Hne). naive_solver.
  - exists pushed. split_and!; auto. intros i. destruct (decide (i = j)) as [->|Hne]; [|auto].
    split; [done|]. by intros [_ ?].
Qed.

Lemma heappop_perm h x r : heappop h = Some (x, r) -> h ≡ₚ x :: r.
Proof.
  revert x r. induction h as [|y h IH]; intros x r; simpl; [done|].
  destruct (heappop h) as [[z r']|] eqn:E.
  - specialize (IH z r' eq_refl). destruct (heap_leb y z); intros [= <- <-]; [done|].
    rewrite IH. apply Permutation_swap.
  - intros [= <- <-]. destruct h as [|w h]; [done|]. simpl in E.
    destruct (heappop h) as [[? ?]|]; [|done]. by destruct (heap_leb _ _).
Qed.

Lemma heappop_None h : heappop h = None -> h = [].
Proof.
  destruct h as [|w h]; [done|]. simpl. destruct (heappop h) as [[? ?]|]; [|done].
  by destruct (heap_leb _ _).
Qed.

Section kahn.
Context (n : nat) (f : nat -> Z) (E : list (nat * nat)) (children : list (list nat)).
(** [E] lists the edges [(child, parent)]; [children] is its index by parent. *)
Context (HE : forall i p, (i, p) ∈ E -> (i < n)%nat /\ (p < n)%nat).
Context (Hch : forall p, (p < n)%nat ->
  children !! p = Some (fst <$> filter (fun e => e.2 = p) E)).

(** The edges of [j] whose parent is not yet in the result [R]. *)
Definition pending (R : list nat) (j : nat) : nat :=
  length (filter (fun e => e.1 = j /\ e.2 ∉ R) E).

Lemma pending_zero R j : pending R j = 0%nat <-> forall p, (j, p) ∈ E -> p ∈ R.
Proof.
  unfold pending. split.
  - intros H%nil_length_inv p Hp. destruct (decide (p ∈ R)) as [|Hn]; [done|].
    exfalso. apply (not_elem_of_nil (j, p)). rewrite <- H. by apply list_elem_of_filter.
  - intros H. destruct (filter _ E) as [|[i p] k] eqn:Ef; [done|].
    assert ((i, p) ∈ filter (fun e => e.1 = j /\ e.2 ∉ R) E) as Hin by (rewrite Ef; list_mem).
    apply list_elem_of_filter in Hin as [[Hi Hp] Hin]. simpl in *. subst. by destruct Hp; apply H.
Qed.

Lemma pending_snoc R i j :
  i ∉ R -> pending R j =
    (pending (R ++ [i]) j + occ j (fst <$> filter (fun e => e.2 = i) E))%nat.
Proof.
  intros Hi. unfold pending, occ. clear HE Hch. induction E as [|[c p] E' IH]; [done|].
  rewrite !filter_cons. simpl.
  assert (p ∉ R ++ [i] <-> p ∉ R /\ p <> i) as Hiff
    by (rewrite elem_of_app, list_elem_of_singleton; tauto).
  destruct (decide (p = i)) as [->|Hpi].
  - rewrite (decide_False (P := c = j /\ i ∉ R ++ [i])) by tauto.
    csimpl. rewrite filter_cons.
    destruct (decide (c = j)) as [->|Hc].
    + rewrite (decide_True (P := j = j /\ i ∉ R)) by done. simpl. rewrite IH. lia.
    + rewrite (decide_False (P := c = j /\ i ∉ R)) by tauto. apply IH.
  - destruct (decide (c = j /\ p ∉ R)) as [[? ?]|Hno].
    + rewrite (decide_True (P := c = j /\ p ∉ R ++ [i])) by tauto. simpl. rewrite IH. lia.
    + rewrite (decide_False (P := c = j /\ p ∉ R ++ [i])) by tauto. apply IH.
Qed.

Record kahn_inv (st : kahn) : Prop := {
  k_deg : forall j, (j < n)%nat -> in_degree st !! j = Some (pending (order st) j);
  k_ready : forall j, (j < n)%nat ->
    (j ∈ order st ++ (snd <$> ready st) <-> pending (order st) j = 0%nat);
  k_nodup : NoDup (order st ++ (snd <$> ready st));
  k_range : forall j, j ∈ order st ++ (snd <$> ready st) -> (j < n)%nat;
  k_order : forall l i k, order st = l ++ i :: k -> forall p, (i, p) ∈ E -> p ∈ l
}.

Lemma child_lt j i : j ∈ fst <$> filter (fun e => e.2 = i) E -> (j < n)%nat.
Proof.
  intros Hj. apply list_elem_of_fmap in Hj as ([c p] & -> & [_ Hj]%list_elem_of_filter).
  by destruct (HE c p Hj).
Qed.

Lemma kahn_step st v i rest :
  kahn_inv st -> heappop (ready st) = Some ((v, i), rest) ->
  let '(d, r) := foldl (relax f) (in_degree st, rest) (default [] (children !! i)) in
  kahn_inv (mkKahn d r (order st ++ [i])).
Proof.
  intros [Hdeg Hrd Hnd Hrg Hord] Hpop%heappop_perm.
  set (C := fst <$> filter (fun e => e.2 = i) E).
  assert (snd <$> ready st ≡ₚ i :: (snd <$> rest)) as Hp by (by rewrite Hpop).
  rewrite Hp in Hnd. setoid_rewrite Hp in Hrd. setoid_rewrite Hp in Hrg.
  assert (i < n)%nat as Hin by (apply Hrg; list_mem).
  assert (i ∉ order st) as Hni by (apply NoDup_app in Hnd as (_ & Hd & _); set_solver).
  rewrite (Hch i Hin). simpl. fold C.
  assert (forall j, pending (order st) j = (pending (order st ++ [i]) j + occ j C)%nat) as Hpend
    by (intros j; by apply pending_snoc).
  destruct (relax_all f C (in_degree st) rest) as (d & pushed & -> & Hd & Hndp & Hpush).
  { intros j Hj. exists (pending (order st) j). rewrite (Hpend j).
    split; [|lia]. rewrite <- Hpend. by apply Hdeg, (child_lt j i). }
  assert (forall j, (j < n)%nat -> d !! j = Some (pending (order st ++ [i]) j)) as Hdeg'.
  { intros j Hj. rewrite Hd, Hdeg by done. simpl. f_equal. specialize (Hpend j). lia. }
  assert (snd <$> ((fun j => (f j, j)) <$> pushed) = pushed) as Hsnd.
  { rewrite <- list_fmap_compose. apply list_fmap_id. }
  assert (forall j, j ∈ pushed <-> (j < n)%nat /\ j ∈ C /\ pending (order st ++ [i]) j = 0%nat)
    as Hpush'.
  { intros j. rewrite Hpush. split.
    - intros [HC H0]. assert (j < n)%nat as Hj by (by eapply child_lt).
      rewrite (Hdeg' j Hj) in H0. by injection H0.
    - intros (Hj & HC & H0). by rewrite (Hdeg' j Hj), H0. }
  split; simpl; rewrite ?fmap_app, ?Hsnd; [done | | | |].
  - intros j Hj. specialize (Hrd j Hj). specialize (Hpush' j). specialize (Hpend j).
    pose proof (occ_elem j C) as Ho.
    rewrite elem_of_app, elem_of_cons in Hrd.
    rewrite !elem_of_app, list_elem_of_singleton, Hpush'.
    destruct (decide (j ∈ C)) as [Hc|Hc].
    + assert (occ j C <> 0%nat) by tauto.
      assert (~ (j ∈ order st \/ j = i \/ j ∈ snd <$> rest)) by (rewrite Hrd; lia). tauto.
    + assert (occ j C = 0%nat) as H0 by (destruct (occ j C); [done | exfalso; apply Hc; by apply Ho]).
      rewrite H0, Nat.add_0_r in Hpend. rewrite <- Hpend, <- Hrd. tauto.
  - rewrite <- app_assoc. simpl. rewrite app_comm_cons, app_assoc. apply NoDup_app.
    split; [done|]. split; [|done]. intros j Hj Hjp. apply Hpush' in Hjp as (Hjn & HC & _).
    assert (pending (order st) j = 0%nat) as Hz by (by apply Hrd).
    rewrite Hpend in Hz. apply occ_elem in HC. lia.
  - intros j. rewrite !elem_of_app, list_elem_of_singleton, Hpush'.
    specialize (Hrg j). rewrite elem_of_app, elem_of_cons in Hrg. tauto.
  - intros l c k Hl p Hcp. destruct k as [|k0 k _] using rev_ind.
    + apply app_inj_tail in Hl as [<- <-]. revert p Hcp. apply pending_zero, Hrd; [done | list_mem].
    + rewrite app_comm_cons, app_assoc in Hl. apply app_inj_tail in Hl as [Hl _].
      by eapply Hord.
Qed.

(** The loop ends within the fuel, and with an empty heap the buffers left out
    are exactly those with a pending parent. *)
Lemma kahn_result fuel st :
  kahn_inv st -> (n <= fuel + length (order st))%nat ->
  exists R, kahn_loop fuel f children st = Ok R /\ NoDup R /\
    (forall j, (j < n)%nat -> (j ∈ R <-> forall p, (j, p) ∈ E -> p ∈ R)) /\
    (forall j, j ∈ R -> (j < n)%nat) /\
    (forall l i k, R = l ++ i :: k -> forall p, (i, p) ∈ E -> p ∈ l).
Proof.
  assert (forall st, kahn_inv st -> heappop (ready st) = None ->
    NoDup (order st) /\
    (forall j, (j < n)%nat -> (j ∈ order st <-> forall p, (j, p) ∈ E -> p ∈ order st)) /\
    (forall j, j ∈ order st -> (j < n)%nat) /\
    (forall l i k, order st = l ++ i :: k -> forall p, (i, p) ∈ E -> p ∈ l)) as Hstop.
  { intros s [_ Hrd Hnd Hrg Hord] He%heappop_None. rewrite He, app_nil_r in *.
    split_and!; auto. intros j Hj. by rewrite <- pending_zero, <- Hrd. }
  revert st. induction fuel as [|fuel IH]; intros st HI Hf; simpl;
    destruct (heappop (ready st)) as [[[v i] rest]|] eqn:Hpop; eauto.
  - exfalso. destruct HI as [_ _ Hnd Hrg _]. apply heappop_perm in Hpop.
    rewrite Hpop in Hnd. setoid_rewrite Hpop in Hrg.
    pose proof (NoDup_below _ n Hnd Hrg) as H. rewrite length_app in H. simpl in *. lia.
  - pose proof (kahn_step st v i rest HI Hpop) as Hs.
    destruct (foldl _ _ _) as [d r]. apply (IH _ Hs). simpl. rewrite length_app. simpl. lia.
Qed.
End kahn.

Lemma name_to_idx_snoc bufs b n :
  name_to_idx (bufs ++ [b]) !! n =
  if decide (buf_name b = n) then Some (length bufs) else name_to_idx bufs !! n.
Proof.
  unfold name_to_idx. rewrite imap_app, foldl_app. simpl. rewrite Nat.add_0_r.
  apply lookup_insert.
Qed.

Lemma name_to_idx_Some bufs n i :
  name_to_idx bufs !! n = Some i -> exists b, bufs !! i = Some b /\ buf_name b = n.
Proof.
  induction bufs as [|b bufs IH] using rev_ind; [done|]. rewrite name_to_idx_snoc.
  case_decide as He.
  - intros [= <-]. exists b. by rewrite lookup_app_r, Nat.sub_diag by lia.
  - intros H. destruct (IH H) as (c & Hc & ?). exists c. split; [|done].
    by apply lookup_app_l_Some.
Qed.

Lemma name_to_idx_lookup bufs i b :
  NoDup (buf_name <$> bufs) -> bufs !! i = Some b -> name_to_idx bufs !! buf_name b = Some i.
Proof.
  intros Hn Hb. assert (is_Some (name_to_idx bufs !! buf_name b)) as [j Hj].
  { clear Hn. apply list_elem_of_lookup_2 in Hb.
    induction bufs as [|c bufs IH] using rev_ind; [by apply elem_of_nil in Hb|].
    rewrite name_to_idx_snoc. case_decide; [eauto|].
    apply elem_of_app in Hb as [Hb | ->%list_elem_of_singleton]; [auto | done]. }
  rewrite Hj. f_equal. destruct (name_to_idx_Some _ _ _ Hj) as (c & Hc & He).
  eapply (NoDup_lookup (buf_name <$> bufs)); [done | |]; rewrite list_lookup_fmap.
  - by rewrite Hc.
  - rewrite Hb. simpl. by rewrite He.
Qed.

(** The edges [(child, parent)] between positions of [bufs]. *)
Definition edges (bufs : list LifetimeBoundBuffer) : list (nat * nat) :=
  mjoin ((fun ib => pair ib.1 <$> present_parents bufs ib.2) <$> imap pair bufs).

Lemma edges_elem bufs i p :
  (i, p) ∈ edges bufs <->
  exists b n, bufs !! i = Some b /\ n ∈ in_place_parents b /\ name_to_idx bufs !! n = Some p.
Proof.
  unfold edges, present_parents. rewrite list_elem_of_join. split.
  - intros (l & Hp & (ib & -> & (j & b & -> & Hb)%elem_of_lookup_imap)%list_elem_of_fmap).
    apply list_elem_of_fmap in Hp as (q & [= -> ->] & Hq).
    apply list_elem_of_omap in Hq as (n & Hn & Hl). eauto.
  - intros (b & n & Hb & Hn & Hl). eexists. split; cycle 1.
    + apply list_elem_of_fmap_2, elem_of_lookup_imap_2, Hb.
    + simpl. apply list_elem_of_fmap_2, list_elem_of_omap. eauto.
Qed.

Lemma edges_range bufs i p :
  (i, p) ∈ edges bufs -> (i < length bufs)%nat /\ (p < length bufs)%nat.
Proof.
  intros (b & n & Hb & _ & Hl)%edges_elem.
  apply name_to_idx_Some in Hl as (c & Hc & _).
  split; by eapply lookup_lt_Some.
Qed.

Lemma build_fold (g : LifetimeBoundBuffer -> list nat) L st :
  foldl (fun st ib => foldl (build_edge ib.1) st (g ib.2)) st L =
  foldl (fun st e => build_edge e.1 st e.2) st (mjoin ((fun ib => pair ib.1 <$> g ib.2) <$> L)).
Proof.
  revert st. induction L as [|[i b] L IH]; intros st; [done|]. csimpl.
  rewrite foldl_app, IH. f_equal. generalize (g b). clear IH. intros l. revert st.
  induction l as [|p l IH]; intros st; [done|]. csimpl. apply IH.
Qed.

Lemma build_tables_spec bufs deg ch :
  build_tables bufs = (deg, ch) ->
  (forall j, (j < length bufs)%nat -> deg !! j = Some (pending (edges bufs) [] j)) /\
  (forall p, (p < length bufs)%nat ->
     ch !! p = Some (fst <$> filter (fun e => e.2 = p) (edges bufs))).
Proof.
  unfold build_tables. rewrite build_fold. fold (edges bufs). intros Hrun.
  change deg with (deg, ch).1. change ch with (deg, ch).2 at 2. rewrite <- Hrun.
  pose proof (edges_range bufs) as Hrange. clear Hrun deg ch.
  induction (edges bufs) as [|[i p] E IH] using rev_ind.
  - simpl. split; intros j Hj; by rewrite lookup_replicate_2.
  - destruct IH as [IH1 IH2]; [intros; apply Hrange; list_mem|].
    destruct (Hrange i p) as [Hi Hp]; [list_mem|]. rewrite foldl_app. simpl.
    destruct (foldl _ _ E) as [deg ch]. unfold build_edge. simpl in *. split.
    + intros j Hj. unfold pending in *. rewrite filter_app, length_app, filter_cons, filter_nil. simpl.
      destruct (decide (i = j)) as [->|Hne].
      * rewrite list_lookup_alter_eq, IH1 by done. rewrite decide_True by (split; [done | set_solver]).
        simpl. f_equal. lia.
      * rewrite list_lookup_alter_ne, IH1 by done. rewrite decide_False by tauto.
        simpl. f_equal. lia.
    + intros q Hq. rewrite filter_app, fmap_app, filter_cons, filter_nil. simpl.
      destruct (decide (p = q)) as [->|Hne].
      * by rewrite list_lookup_alter_eq, IH2.
      * rewrite list_lookup_alter_ne, IH2 by done. simpl. by rewrite app_nil_r.
Qed.

Lemma kahn_start bufs f deg ch :
  build_tables bufs = (deg, ch) ->
  kahn_inv (length bufs) (edges bufs)
    (mkKahn deg ((fun i => (f i, i)) <$>
       filter (fun i => deg !! i = Some 0%nat) (seq 0 (length bufs))) []).
Proof.
  intros Hb. destruct (build_tables_spec _ _ _ Hb) as [Hdeg _].
  set (roots := filter _ _).
  assert (snd <$> ((fun i => (f i, i)) <$> roots) = roots) as Hsnd
    by (rewrite <- list_fmap_compose; apply list_fmap_id).
  split; simpl; rewrite ?Hsnd; [done | | | |].
  - intros j Hj. unfold roots. rewrite list_elem_of_filter, elem_of_seq, (Hdeg j Hj).
    split; [by intros [[= H] _] | intros H; rewrite H; split; [done | lia]].
  - apply NoDup_filter, NoDup_seq.
  - intros j [_ Hj%elem_of_seq]%list_elem_of_filter. lia.
  - intros l i k Hl. by destruct l.
Qed.

(** Every parent of a buffer of measure [k] has a smaller measure. *)
Definition ranked (bufs : list LifetimeBoundBuffer) (m : nat -> Z) : Prop :=
  forall i p, (i, p) ∈ edges bufs -> m p < m i.

(** [_topological_sort] never runs out of fuel, its only failure being the cycle
    assertion; when the declarations are ranked it returns every position once,
    each after all its parents. *)
Lemma topological_sort_spec bufs f m :
  (forall i, 0 <= m i) -> ranked bufs m ->
  exists R, _topological_sort bufs f = Ok R /\ R ≡ₚ seq 0 (length bufs) /\
    forall l i k, R = l ++ i :: k -> forall p, (i, p) ∈ edges bufs -> p ∈ l.
Proof.
  intros Hm0 Hm. unfold _topological_sort. destruct (build_tables bufs) as [deg ch] eqn:Hb.
  destruct (build_tables_spec _ _ _ Hb) as [_ Hch].
  destruct (kahn_result (length bufs) f (edges bufs) ch (edges_range bufs) Hch (length bufs) _
              (kahn_start bufs f deg ch Hb)) as (R & -> & Hnd & Hclosed & Hlt & Hord); [simpl; lia|].
  assert (forall w j, 0 <= w -> m j < w -> (j < length bufs)%nat -> j ∈ R) as Hall.
  { intros w j Hw. revert j. pattern w. apply natlike_ind; [ | | done]; clear w Hw.
    - intros j Hj. specialize (Hm0 j). lia.
    - intros w Hw IH j Hj Hjn. apply Hclosed; [done|]. intros p Hp.
      apply IH; [specialize (Hm j p Hp); lia | by destruct (edges_range _ _ _ Hp)]. }
  assert (R ≡ₚ seq 0 (length bufs)) as Hperm.
  { apply NoDup_seq_perm; [done|]. intros j. split; [apply Hlt|]. intros Hj.
    apply (Hall (m j + 1)); [specialize (Hm0 j); lia | lia | done]. }
  exists R. simpl. rewrite bool_decide_eq_true_2; [by simpl|].
  by rewrite Hperm, length_seq.
Qed.

(** ** The placement loop *)

Lemma build_gaps_elem lim buffer placed reuse g :
  g ∈ _build_gaps lim buffer placed reuse ->
  0 <= gap_start g /\ gap_end g <= lim /\
  (forall other a, other ∈ placed ->
     obstacle buffer (if reuse then in_place_parents buffer else []) other a ->
     gap_end g <= a \/ a + buf_size other <= gap_start g) /\
  (forall p, p ∈ gap_parents g -> p ∈ in_place_parents buffer /\
     exists parent a, buf_by_name placed !! p = Some parent /\ address parent = Some a /\
       gap_start g <= a /\ a + buf_size parent <= gap_end g).
Proof.
  unfold _build_gaps. intros (g0 & -> & Hg0)%list_elem_of_fmap.
  apply free_sound in Hg0 as (? & ? & Hnil & Hall). simpl. split_and!; auto.
  intros p Hp. rewrite Hnil in Hp. simpl in Hp.
  apply list_elem_of_filter in Hp as [Hs Hp]. split; [done|]. unfold slot_in_gap in Hs.
  destruct (buf_by_name placed !! p) as [parent|]; [|done].
  destruct (address parent) as [a|] eqn:Ha; [|done]. exists parent, a.
  apply andb_true_iff in Hs as [? ?]. split_and!; [done | done | lia | lia].
Qed.

Lemma build_gaps_complete lim buffer placed x :
  0 < buf_size buffer -> 0 <= x -> x + buf_size buffer <= lim ->
  (forall other a, other ∈ placed -> address other = Some a ->
     overlaps_in_time buffer other = true ->
     ranges_disjoint x (x + buf_size buffer) a (a + buf_size other)) ->
  exists g, g ∈ _build_gaps lim buffer placed false /\
    gap_start g <= x /\ x + buf_size buffer <= gap_end g.
Proof.
  intros Hs H0 Hl Hd.
  destruct (free_complete lim buffer [] placed x Hs H0 Hl) as (g & Hg & ? & ?).
  { intros other a Hin (Ha & _ & Ho). eauto. }
  eexists. split; [by apply list_elem_of_fmap_2 | done].
Qed.

Lemma round_up_spec x al : 0 < al ->
  x <= round_up_to_alignment x al /\ (al | round_up_to_alignment x al) /\
  forall y, (al | y) -> x <= y -> round_up_to_alignment x al <= y.
Proof.
  intros Hal. unfold round_up_to_alignment. pose proof (add_div_up_spec x al Hal).
  split_and!; [lia | apply Z.divide_factor_r |]. intros y. by apply round_up_least.
Qed.

(** [b] has no conflict-free aligned address left among the buffers of [h]. *)
Definition crowded_out (lim al : Z) (h : list LifetimeBoundBuffer) (b : LifetimeBoundBuffer)
    : Prop :=
  forall x, (al | x) -> 0 <= x -> x + buf_size b <= lim ->
  exists c a, c ∈ h /\ address c = Some a /\ overlaps_in_time b c = true /\
    ~ ranges_disjoint x (x + buf_size b) a (a + buf_size c).

Record finv (lim al : Z) (B : list LifetimeBoundBuffer) (dn : list nat) (s : fstate)
    : Prop := {
  f_frame : Forall2 readdressed B (fheap s);
  f_only : forall r b x, fheap s !! r = Some b -> address b = Some x -> r ∈ dn;
  f_addrs : forall r b x, fheap s !! r = Some b -> address b = Some x ->
    names_to_addresses s !! buf_name b = Some x;
  f_range : forall r b x, fheap s !! r = Some b -> address b = Some x ->
    0 <= x /\ x + buf_size b <= lim /\ (al | x);
  f_compat : forall r q b c, r <> q ->
    fheap s !! r = Some b -> fheap s !! q = Some c -> compatible b c;
  f_crowded : forall r b, r ∈ dn -> fheap s !! r = Some b -> address b = None ->
    0 < buf_size b -> crowded_out lim al (fheap s) b
}.

Section placement.
Context (pick : Z -> list Gap -> Z -> option Gap) `{!GapPolicy pick}.
Context (lim al : Z) (B : list LifetimeBoundBuffer).
Context (Hal : 0 < al).
Context (Hwf : forall b, b ∈ B -> wf_buffer b).
Context (Hnames : NoDup (buf_name <$> B)).
Context (Hcheck : _check_in_place_relationships B = Ok tt).

Lemma assign_lookup s r b x q c :
  fheap s !! r = Some b -> fheap (assign r (buf_name b) x s) !! q = Some c ->
  (q = r /\ c = set_address (Some x) b) \/ (q <> r /\ fheap s !! q = Some c).
Proof.
  intros Hr Hq. simpl in Hq. destruct (decide (r = q)) as [<-|Hne].
  - rewrite list_lookup_alter_eq, Hr in Hq. injection Hq as <-. by left.
  - rewrite list_lookup_alter_ne in Hq by done. right. by split.
Qed.

(** Placing more buffers keeps the others crowded out. *)
Lemma crowded_out_assign s r b x d :
  fheap s !! r = Some b -> address b = None ->
  crowded_out lim al (fheap s) d ->
  crowded_out lim al (fheap (assign r (buf_name b) x s)) d.
Proof.
  intros Hr Hn Hc y Hy H0 Hl. destruct (Hc y Hy H0 Hl) as (c & a & Hin & Ha & Ho & Hd).
  exists c, a. split_and!; auto. apply list_elem_of_lookup in Hin as [q Hq].
  apply list_elem_of_lookup. exists q. simpl. rewrite list_lookup_alter_ne; congruence.
Qed.

Lemma assign_inv dn s r b x :
  finv lim al B dn s -> fheap s !! r = Some b -> address b = None ->
  0 <= x /\ x + buf_size b <= lim /\ (al | x) ->
  (forall q c, q <> r -> fheap s !! q = Some c -> compatible (set_address (Some x) b) c) ->
  finv lim al B (dn ++ [r]) (assign r (buf_name b) x s).
Proof.
  intros [HF Ho Ha Hr Hc Hw] Hb Hn Hx Hnew. split.
  - by apply frame_alter.
  - intros q c y Hq Hy. destruct (assign_lookup s r b x q c Hb Hq) as [[-> ->]|[Hne Hq']];
      [list_mem|]. apply elem_of_app. left. by eapply Ho.
  - intros q c y Hq Hy. simpl.
    destruct (assign_lookup s r b x q c Hb Hq) as [[-> ->]|[Hne Hq']].
    + simpl in *. by rewrite lookup_insert_eq.
    + rewrite lookup_insert_ne; [by eapply Ha|]. intros He. apply Hne.
      by eapply (frame_name_inj B Hwf Hnames (fheap s)).
  - intros q c y Hq Hy. destruct (assign_lookup s r b x q c Hb Hq) as [[-> ->]|[Hne Hq']];
      [|by eapply Hr]. simpl in Hy. by injection Hy as <-.
  - intros q1 q2 c1 c2 Hne H1 H2.
    destruct (assign_lookup s r b x q1 c1 Hb H1) as [[-> ->]|[Hne1 H1']],
             (assign_lookup s r b x q2 c2 Hb H2) as [[-> ->]|[Hne2 H2']]; [done | | |].
    + by eapply Hnew.
    + apply compatible_sym. by eapply Hnew.
    + by eapply (Hc q1 q2).
  - intros q c Hq Hqc Hqn Hs.
    destruct (assign_lookup s r b x q c Hb Hqc) as [[-> ->]|[Hne Hq']]; [done|].
    apply crowded_out_assign; [done..|]. eapply Hw; eauto.
    apply elem_of_app in Hq as [|Hq%list_elem_of_singleton]; [done | congruence].
Qed.

Lemma deref_elem h l b : b ∈ deref h l <-> exists q, q ∈ l /\ h !! q = Some b.
Proof. unfold deref. by rewrite list_elem_of_omap. Qed.

Lemma placed_in_order dn s q c y :
  finv lim al B dn s -> fheap s !! q = Some c -> address c = Some y ->
  c ∈ deref (fheap s) dn.
Proof. intros HI Hq Hy. apply deref_elem. exists q. split; [|done]. by eapply f_only. Qed.

(** Two parents of one child do not hand over to each other: neither starts late
    enough. *)
Lemma no_sibling_handover s dn r q1 q2 b m c :
  finv lim al B dn s -> fheap s !! r = Some b ->
  fheap s !! q1 = Some m -> fheap s !! q2 = Some c ->
  buf_name m ∈ in_place_parents b -> buf_name c ∈ in_place_parents b -> ~ hands_over m c.
Proof.
  intros HI Hr Hm Hc Hpm Hpc (Hp & He & _). pose proof (f_frame _ _ _ _ _ HI) as HF.
  destruct (in_place_pair_facts B Hwf Hnames Hcheck _ r q1 b m HF Hr Hm Hpm) as (He1 & _).
  destruct (in_place_pair_facts B Hwf Hnames Hcheck _ r q2 b c HF Hr Hc Hpc) as (He2 & Hr2 & _).
  destruct (frame_lookup B Hwf _ _ _ HF Hc) as (_ & _ & _ & _ & Hwc).
  assert (first_use_is_read c = false) as Hcomp.
  { apply (wf_child_computed c Hwc). by destruct (in_place_parents c); set_solver. }
  pose proof (read_parent_spans c Hwc Hcomp Hr2). lia.
Qed.

(** The slot of a declared parent inside a gap that avoids all the others. *)
Lemma in_place_compatible dn s r b g q m a :
  finv lim al B dn s -> Forall plain B -> fheap s !! r = Some b ->
  g ∈ _build_gaps lim b (deref (fheap s) dn) true ->
  fheap s !! q = Some m -> buf_name m ∈ in_place_parents b -> address m = Some a ->
  gap_start g <= a -> a + buf_size m <= gap_end g ->
  buf_size b <= buf_size m /\
  forall q' c, q' <> r -> fheap s !! q' = Some c -> compatible (set_address (Some a) b) c.
Proof.
  intros HI Hpl Hr Hg Hm Hp Ha H1 H2. pose proof (f_frame _ _ _ _ _ HI) as HF.
  destruct (in_place_pair_facts B Hwf Hnames Hcheck _ r q b m HF Hr Hm Hp) as (He & Hrd & Hsz).
  assert (buf_size b <= buf_size m) as Hle.
  { destruct (frame_lookup B Hwf _ _ _ HF Hm) as (m0 & a1 & Hm0 & -> & _).
    destruct (frame_lookup B Hwf _ _ _ HF Hr) as (b0 & a2 & Hb0 & -> & _).
    rewrite Forall_lookup in Hpl. apply Hsz; [by apply (Hpl q m0) | by apply (Hpl r b0)]. }
  split; [done|]. intros q' c Hne Hc x y [= <-] Hy Hov.
  change (overlaps_in_time (set_address (Some a) b) c) with (overlaps_in_time b c) in Hov.
  change (buf_size (set_address (Some a) b)) with (buf_size b).
  destruct (decide (q' = q)) as [->|Hq].
  { replace c with m by congruence. right. right. split_and!; auto. }
  left. destruct (decide (buf_name c ∈ in_place_parents b)) as [Hpc|Hpc].
  - destruct (in_place_pair_facts B Hwf Hnames Hcheck _ r q' b c HF Hr Hc Hpc) as (He' & _).
    destruct (frame_lookup B Hwf _ _ _ HF Hm) as (_ & _ & _ & _ & Hwm).
    destruct (frame_lookup B Hwf _ _ _ HF Hc) as (_ & _ & _ & _ & Hwc).
    pose proof (start_lt_end m Hwm). pose proof (start_lt_end c Hwc).
    destruct (f_compat _ _ _ _ _ HI q q' m c) with a y as [Hd | [Hh | Hh]]; auto.
    + unfold overlaps_in_time. lia.
    + unfold ranges_disjoint in *. lia.
    + by destruct (no_sibling_handover s dn r q q' b m c HI Hr Hm Hc Hp Hpc).
    + by destruct (no_sibling_handover s dn r q' q b c m HI Hr Hc Hm Hpc Hp).
  - destruct (build_gaps_elem _ _ _ _ _ Hg) as (_ & _ & Hob & _).
    destruct (Hob c y) as [Hd|Hd]; [by eapply placed_in_order | done | |];
      unfold ranges_disjoint; lia.
Qed.

(** An unplaced buffer at its turn has no conflict-free aligned address. *)
Lemma unplaced_crowded_out dn s b :
  finv lim al B dn s -> 0 < buf_size b ->
  pick al (_build_gaps lim b (deref (fheap s) dn) false) (buf_size b) = None ->
  crowded_out lim al (fheap s) b.
Proof.
  intros HI Hs Hnone x Hx H0 Hl.
  set (clash c := match address c with
                  | Some a => overlaps_in_time b c &&
                      negb (bool_decide (ranges_disjoint x (x + buf_size b) a (a + buf_size c)))
                  | None => false
                  end).
  destruct (existsb clash (deref (fheap s) dn)) eqn:E.
  - apply existsb_exists in E as (c & Hc%list_elem_of_In & Hcl). unfold clash in Hcl.
    destruct (address c) as [a|] eqn:Ha; [|done]. split_bools.
    apply deref_elem in Hc as (q & _ & Hq). exists c, a. split_and!; auto.
    by eapply list_elem_of_lookup_2.
  - exfalso. destruct (build_gaps_complete lim b (deref (fheap s) dn) x Hs H0 Hl)
      as (g & Hg & Hg1 & Hg2).
    { intros c a Hc Ha Ho. destruct (decide (ranges_disjoint x (x + buf_size b) a (a + buf_size c)))
        as [|Hn]; [done|]. exfalso. apply not_true_iff_false in E. apply E.
      apply existsb_exists. exists c. split; [by apply list_elem_of_In|]. unfold clash.
      rewrite Ha, Ho. simpl. apply negb_true_iff, bool_decide_eq_false, Hn. }
    pose proof (policy_complete _ _ _ Hnone g Hg) as Hfit.
    destruct (round_up_spec (gap_start g) al Hal) as (_ & _ & Hleast).
    specialize (Hleast x Hx Hg1). unfold gap_fits in Hfit. lia.
Qed.

Lemma skip_inv dn s r b :
  finv lim al B dn s -> fheap s !! r = Some b ->
  (0 < buf_size b -> crowded_out lim al (fheap s) b) -> finv lim al B (dn ++ [r]) s.
Proof.
  intros [HF Ho Ha Hr Hc Hw] Hb Hcr. split; auto.
  - intros q c x Hq Hx. apply elem_of_app. left. by eapply Ho.
  - intros q c [Hq | Hq%list_elem_of_singleton]%elem_of_app Hqc Hn Hs; [by eapply Hw|].
    subst q. same_lookup Hb Hqc. auto.
Qed.

Lemma place_one_inv dn s r b :
  finv lim al B dn s -> Forall plain B -> r ∉ dn -> fheap s !! r = Some b ->
  exists s', place_one pick lim al dn r s = Ok s' /\ finv lim al B (dn ++ [r]) s'.
Proof.
  intros HI Hpl Hr Hb. unfold place_one. rewrite Hb.
  assert (address b = None) as Hnone.
  { destruct (address b) as [x|] eqn:Hx; [|done]. by destruct Hr; eapply f_only. }
  destruct (pick al (filter has_parents _) _) as [g|] eqn:Hpick.
  - apply policy_sound in Hpick as [[Hhp Hg]%list_elem_of_filter _].
    destruct (gap_parents g) as [|p ps] eqn:Hps; [done|]. simpl.
    destruct (build_gaps_elem _ _ _ _ _ Hg) as (Hg1 & Hg2 & _ & Hpar).
    destruct (Hpar p) as (Hp & m & a & Hm & Ha & Hs1 & Hs2); [rewrite Hps; list_mem|].
    apply buf_by_name_Some in Hm as [(q & Hq & Hm)%deref_elem <-].
    rewrite (f_addrs _ _ _ _ _ HI q m a Hm Ha).
    destruct (in_place_compatible dn s r b g q m a) as [Hle Hc]; auto.
    eexists. split; [done|]. apply assign_inv; auto.
    destruct (f_range _ _ _ _ _ HI q m a Hm Ha) as (? & ? & ?). split_and!; [lia | lia | done].
  - clear Hpick.
    destruct (pick al (_build_gaps _ _ _ false) _) as [g|] eqn:Hpick; eexists; (split; [done|]).
    + apply policy_sound in Hpick as [Hg Hfit].
      destruct (build_gaps_elem _ _ _ _ _ Hg) as (Hg1 & Hg2 & Hob & _).
      destruct (round_up_spec (gap_start g) al Hal) as (Hge & Hdiv & _).
      unfold gap_fits in Hfit. apply assign_inv; auto; [split_and!; [lia | lia | done]|].
      intros q c Hne Hc x y [= <-] Hy Hov. left.
      change (buf_size (set_address _ b)) with (buf_size b).
      destruct (Hob c y) as [Hd|Hd]; [by eapply placed_in_order | | |];
        [|unfold ranges_disjoint; lia..].
      split_and!; [done | apply not_elem_of_nil | done].
    + eapply skip_inv; [done | done |]. intros Hs. by eapply unplaced_crowded_out.
Qed.
End placement.

(** ** The order of placement *)

Section order.
Context (B : list LifetimeBoundBuffer).
Context (Hwf : forall b, b ∈ B -> wf_buffer b).
Context (Hnames : NoDup (buf_name <$> B)).
Context (Hcheck : _check_in_place_relationships B = Ok tt).

(** An in-place parent starts before its child, or is an input starting with it. *)
Definition rank (lo : Z) (b : LifetimeBoundBuffer) : Z :=
  2 * (start_time b - lo) + (if first_use_is_read b then 0 else 1).

Lemma parent_rank lo b m :
  b ∈ B -> m ∈ B -> buf_name m ∈ in_place_parents b -> rank lo m < rank lo b.
Proof.
  intros (r & Hr)%list_elem_of_lookup (q & Hq)%list_elem_of_lookup Hp.
  assert (Forall2 readdressed B B) as HF
    by (apply Forall_Forall2_diag, Forall_forall; intros; apply readdressed_refl).
  destruct (in_place_pair_facts B Hwf Hnames Hcheck B r q b m HF Hr Hq Hp) as (He & Hrd & _).
  assert (wf_buffer b) as Hwb by (by eapply Hwf, list_elem_of_lookup_2).
  assert (wf_buffer m) as Hwm by (by eapply Hwf, list_elem_of_lookup_2).
  unfold rank. rewrite (wf_child_computed b Hwb) by (destruct (in_place_parents b); set_solver).
  pose proof (start_lt_end m Hwm). destruct (first_use_is_read m) eqn:Ef; [lia|].
  pose proof (read_parent_spans m Hwm Ef Hrd). lia.
Qed.

Lemma deref_ranked refs :
  exists m, (forall i, 0 <= m i) /\ ranked (deref B refs) m.
Proof.
  set (lo := list_min 0 (start_time <$> deref B refs)).
  exists (fun i => match deref B refs !! i with Some b => rank lo b | None => 0 end). split.
  - intros i. destruct (deref B refs !! i) as [b|] eqn:Hb; [|done]. unfold rank.
    assert (lo <= start_time b); [|destruct (first_use_is_read b); lia].
    apply list_min_le, list_elem_of_fmap_2. by eapply list_elem_of_lookup_2.
  - intros i p (b & n & Hb & Hn & Hl)%edges_elem. rewrite Hb.
    apply name_to_idx_Some in Hl as (c & Hc & <-). rewrite Hc.
    assert (forall d j, deref B refs !! j = Some d -> d ∈ B) as Hin.
    { intros d j Hd%list_elem_of_lookup_2. apply deref_elem in Hd as (q & _ & Hq).
      by eapply list_elem_of_lookup_2. }
    by apply parent_rank; eauto.
Qed.

Lemma sorted_refs_perm placeable :
  (forall r, r ∈ placeable -> (r < length B)%nat) -> sorted_refs B placeable ≡ₚ placeable.
Proof.
  intros Hlt. unfold sorted_refs. rewrite py_sorted_perm.
  assert (filter (fun r => lives B r = true) placeable = placeable) as ->; [|done].
  induction placeable as [|r l IH]; [done|]. rewrite filter_cons.
  destruct (lookup_lt_is_Some_2 B r) as [b Hb]; [apply Hlt; list_mem|].
  rewrite decide_True; [f_equal; apply IH; intros q Hq; apply Hlt; list_mem|].
  unfold lives. rewrite Hb. assert (wf_buffer b) as Hw by (by eapply Hwf, list_elem_of_lookup_2).
  pose proof (start_lt_end b Hw). lia.
Qed.

Lemma deref_names refs : NoDup refs -> NoDup (buf_name <$> deref B refs).
Proof.
  unfold deref. induction 1 as [|r l Hr Hnd IH]; csimpl; [constructor|].
  destruct (B !! r) as [b|] eqn:Hb; [|done]. csimpl. constructor; [|done].
  intros (c & He & (q & Hq & Hc)%list_elem_of_omap)%list_elem_of_fmap.
  assert (q = r) as ->; [|done].
  eapply (NoDup_lookup (buf_name <$> B)); [done | |]; rewrite list_lookup_fmap.
  - by rewrite Hc.
  - rewrite Hb. simpl. by rewrite He.
Qed.

(** The order exists, is a permutation of the placeable buffers, and puts every
    placeable in-place parent before its child. *)
Lemma placement_order_ok placeable :
  NoDup placeable -> (forall r, r ∈ placeable -> (r < length B)%nat) ->
  exists L, placement_order B placeable = Ok L /\ L ≡ₚ placeable /\
    forall l r k b q m, L = l ++ r :: k -> B !! r = Some b -> q ∈ placeable ->
      B !! q = Some m -> buf_name m ∈ in_place_parents b -> q ∈ l.
Proof.
  intros Hnd Hlt. unfold placement_order. set (refs := sorted_refs B placeable).
  pose proof (sorted_refs_perm placeable Hlt) as Hperm. fold refs in Hperm.
  assert (forall r, r ∈ refs -> (r < length B)%nat) as Hlt' by (intros r; rewrite Hperm; apply Hlt).
  assert (forall i, deref B refs !! i = refs !! i ≫= fun r => B !! r) as Hderef
    by (intros i; by apply omap_lookup_lookup).
  destruct (deref_ranked refs) as (m & Hm0 & Hm).
  destruct (topological_sort_spec (deref B refs) (fun _ => 0) m Hm0 Hm) as (R & -> & HR & Hord).
  simpl. eexists. split; [done|]. split.
  { unfold deref in HR. by rewrite HR, length_omap_lookup, omap_lookup_seq. }
  intros l r k b q c Hl Hb Hq Hc Hp.
  apply omap_split in Hl as (R1 & i & R2 & -> & Hi & <-).
  rewrite <- Hperm in Hq. apply list_elem_of_lookup in Hq as [p Hpq].
  apply list_elem_of_omap. exists p. split; [|done].
  apply (Hord R1 i R2 eq_refl), edges_elem. exists b, (buf_name c). split_and!; [|done|].
  - by rewrite Hderef, Hi.
  - apply name_to_idx_lookup; [apply deref_names; by rewrite Hperm|]. by rewrite Hderef, Hpq.
Qed.
End order.

(** ** The whole solve *)

Section solve.
Context (pick : Z -> list Gap -> Z -> option Gap) `{!GapPolicy pick}.
Context (lim al : Z) (bufs : list LifetimeBoundBuffer).
Context (Hal : 0 < al) (Hin : wf_input bufs) (Hpl : Forall plain bufs).
Let cfg := mkSolver lim al false.
Let B := (partition cfg bufs).1.
Let placeable := (partition cfg bufs).2.1.

Lemma place_all_ok L :
  _check_in_place_relationships bufs = Ok tt -> NoDup L ->
  (forall r, r ∈ L -> (r < length B)%nat) ->
  exists s, for_each (fun ir => place_one pick lim al (take ir.1 L) ir.2) (imap pair L)
              (mkF B ∅) = Ok s /\ finv lim al B L s.
Proof.
  intros Hc Hnd Hlt.
  assert (forall (k : list nat), snd <$> imap pair k = k) as Hsnd.
  { intros k. apply list_eq. intros i. rewrite list_lookup_fmap, list_lookup_imap.
    by destruct (k !! i). }
  destruct (for_each_total (fun ir => place_one pick lim al (take ir.1 L) ir.2)
    (fun dn s => finv lim al B (snd <$> dn) s) (imap pair L) (mkF B ∅)) as (s & Hs & HI).
  - intros dn [i r] rest s Hl HI.
    assert (imap pair L !! length dn = Some (i, r)) as Hlk
      by (by rewrite Hl, lookup_app_r, Nat.sub_diag by lia).
    rewrite list_lookup_imap in Hlk. destruct (L !! length dn) as [r'|] eqn:Hr; [|done].
    injection Hlk as <- ->.
    assert (L = (snd <$> dn) ++ r :: (snd <$> rest)) as HL
      by (by rewrite <- (Hsnd L), Hl, fmap_app).
    assert (take (length dn) L = snd <$> dn) as Htake
      by (by rewrite HL, take_app_length' by by rewrite length_fmap).
    simpl. rewrite Htake, fmap_app. simpl.
    assert (r < length (fheap s))%nat as Hrl.
    { rewrite <- (Forall2_length _ _ _ (f_frame _ _ _ _ _ HI)). apply Hlt. rewrite HL. list_mem. }
    apply lookup_lt_is_Some_2 in Hrl as [b Hb].
    apply (place_one_inv pick lim al B Hal) with b; auto.
    + apply (wf_buffers B), recorded_wf_input, Hin.
    + unfold B. rewrite recorded_names. apply Hin.
    + apply recorded_check; [apply Hin | done].
    + by apply recorded_plain.
    + rewrite HL in Hnd. apply NoDup_app in Hnd as (_ & Hd & _).
      intros Hx. apply (Hd r Hx). list_mem.
  - assert (forall r b, B !! r = Some b -> address b = None) as Hun.
    { intros r b Hb. apply (wf_unplanned B); [by apply recorded_wf_input|].
      by eapply list_elem_of_lookup_2. }
    split; simpl.
    + apply Forall_Forall2_diag, Forall_forall. intros b _. apply readdressed_refl.
    + intros r b x Hb Hx. rewrite (Hun r b Hb) in Hx. done.
    + intros r b x Hb Hx. rewrite (Hun r b Hb) in Hx. done.
    + intros r b x Hb Hx. rewrite (Hun r b Hb) in Hx. done.
    + intros r q b c _ Hb _ x y Hx. rewrite (Hun r b Hb) in Hx. done.
    + by intros r b ?%elem_of_nil.
  - exists s. split; [done|]. by rewrite Hsnd in HI.
Qed.

Lemma placeable_in_range r : r ∈ placeable -> (r < length B)%nat.
Proof.
  intros Hr. unfold B. rewrite partition_bufs, length_fmap. by eapply placeable_lt.
Qed.

(** The solve succeeds exactly as its preconditions say, and meets the invariant. *)
Lemma solve_ok :
  _check_in_place_relationships bufs = Ok tt ->
  exists L s, placement_order B placeable = Ok L /\ L ≡ₚ placeable /\
    for_each (fun ir => place_one pick lim al (take ir.1 L) ir.2) (imap pair L)
      (mkF B ∅) = Ok s /\ finv lim al B L s.
Proof.
  intros Hc.
  destruct (placement_order_ok B) with (placeable := placeable) as (L & HL & Hp & _).
  - apply (wf_buffers B), recorded_wf_input, Hin.
  - unfold B. rewrite recorded_names. apply Hin.
  - apply recorded_check; [apply Hin | done].
  - apply placeable_NoDup.
  - apply placeable_in_range.
  - destruct (place_all_ok L) as (s & Hs & HI); [done | | |].
    + rewrite Hp. apply placeable_NoDup.
    + intros r. rewrite Hp. apply placeable_in_range.
    + exists L, s. done.
Qed.

Lemma partition_pair : exists ex, partition cfg bufs = (B, (placeable, ex)).
Proof. unfold B, placeable. destruct (partition cfg bufs) as [? [? ?]]. by eexists. Qed.

Lemma fit_layout_solved out :
  plan_layout pick lim al bufs = Ok out -> bufs <> [] ->
  exists s L, fheap s = out /\ L ≡ₚ placeable /\ finv lim al B L s.
Proof.
  intros H Hne. unfold plan_layout in H. fold cfg in H.
  apply bind_Ok in H as ([] & _ & H). rewrite bool_decide_eq_false_2 in H
    by (intros Hl; by apply nil_length_inv in Hl).
  apply bind_Ok in H as ([] & _ & H). apply bind_Ok in H as ([] & Hc & H).
  destruct partition_pair as [ex Hp]. rewrite Hp in H.
  destruct (solve_ok Hc) as (L & s & HL & Hperm & Hs & HI). rewrite HL in H. simpl in H.
  rewrite Hs in H. simpl in H. injection H as <-. eauto.
Qed.

Lemma fit_layout_total :
  (forall b, b ∈ bufs -> paired_with b = []) -> _check_in_place_relationships bufs = Ok tt ->
  exists out, plan_layout pick lim al bufs = Ok out.
Proof.
  intros Hpw Hc. unfold plan_layout. fold cfg.
  assert (forall P : LifetimeBoundBuffer -> Prop, forall HP : (forall b, Decision (P b)),
    (forall b, b ∈ bufs -> P b) -> forallb (fun b => bool_decide (P b)) bufs = true) as Hall.
  { intros P HP H. apply forallb_forall. intros b Hb%list_elem_of_In.
    by apply bool_decide_eq_true, H. }
  rewrite (Hall (fun b => paired_with b = []) _ Hpw). cbn [py_assert mbind res_bind]. case_bool_decide; [eauto|].
  rewrite (Hall (fun b => address b = None) _ (wf_unplanned bufs Hin)), Hc. cbn [py_assert mbind res_bind].
  destruct partition_pair as [ex ->].
  destruct (solve_ok Hc) as (L & s & HL & _ & Hs & _). rewrite HL. simpl. rewrite Hs. simpl. eauto.
Qed.

Lemma finv_valid L s : finv lim al B L s -> valid_plan lim al (fheap s).
Proof.
  intros [_ _ _ Hr Hc _]. split.
  - intros b x (r & Hb)%list_elem_of_lookup Hx. by destruct (Hr r b x Hb Hx) as (? & ? & _).
  - intros b x (r & Hb)%list_elem_of_lookup Hx. by destruct (Hr r b x Hb Hx) as (_ & _ & ?).
  - intros i j b c Hij Hb Hc'. apply (Hc i j); [lia | done | done].
Qed.

Lemma finv_frame L s : finv lim al B L s -> Forall2 same_buffer bufs (fheap s).
Proof.
  intros HI. pose proof (f_frame _ _ _ _ _ HI) as HF.
  unfold B in HF. rewrite partition_bufs, Forall2_fmap_l in HF.
  eapply Forall2_impl; [exact HF|]. intros b b' [a ->]. by exists a, (excluded cfg b).
Qed.

Lemma finv_barred L s i b b' :
  L ≡ₚ placeable -> finv lim al B L s -> bufs !! i = Some b -> fheap s !! i = Some b' ->
  excluded cfg b <> None -> address b' = None.
Proof.
  intros Hp HI Hb Hb' Hx. destruct (address b') as [x|] eqn:Ha; [|done].
  exfalso. apply Hx, (placeable_not_excluded cfg bufs i); [|done].
  fold placeable. rewrite <- Hp. by eapply f_only.
Qed.

(** A placeable buffer left out had no room. *)
Lemma finv_crowded L s i b b' :
  L ≡ₚ placeable -> finv lim al B L s -> bufs !! i = Some b -> fheap s !! i = Some b' ->
  excluded cfg b = None -> address b' = None -> 0 < buf_size b' ->
  crowded_out lim al (fheap s) b'.
Proof.
  intros Hp HI Hb Hb' Hx Ha Hs. apply (f_crowded _ _ _ _ _ HI i); auto.
  rewrite Hp. apply (not_excluded_placeable cfg bufs i b); [apply Hin | done | done].
Qed.
End solve.

#[export] Instance fit_layout_solver pick `{!GapPolicy pick} :
  LayoutSolver (plan_layout pick).
Proof.
  split.
  - intros lim al bufs out Hal Hin Hpl H. destruct (decide (bufs = [])) as [->|Hne].
    { vm_compute in H. injection H as <-. constructor. }
    destruct (fit_layout_solved pick lim al bufs Hal Hin Hpl out H Hne) as (s & L & <- & _ & HI).
    by eapply finv_frame.
  - intros lim al bufs out Hal Hin Hpl H. destruct (decide (bufs = [])) as [->|Hne].
    { vm_compute in H. injection H as <-.
      split; [by intros ? ? ?%elem_of_nil | by intros ? ? ?%elem_of_nil | apply pairwise_nil]. }
    destruct (fit_layout_solved pick lim al bufs Hal Hin Hpl out H Hne) as (s & L & <- & _ & HI).
    by eapply finv_valid.
  - intros lim al bufs out i b b' Hal Hin Hpl H Hb Hb' Hx. destruct (decide (bufs = [])) as [->|Hne];
      [done|].
    destruct (fit_layout_solved pick lim al bufs Hal Hin Hpl out H Hne) as (s & L & <- & Hp & HI).
    by eapply finv_barred.
  - intros lim al bufs Hal Hin Hpl Hpw Hc. by apply fit_layout_total.
Qed.

(** ** Claims *)

(** Three buffers in 512 bytes: [c] takes over [a]'s slot, [d] does not fit. *)
Definition fit_sample : list LifetimeBoundBuffer :=
  [ simple_buffer "a" 256 [0; 2] [] [];
    simple_buffer "b" 200 [1; 3] [] [];
    simple_buffer "c" 256 [2; 4] ["a"] [];
    simple_buffer "d" 300 [1; 5] [] [] ].

Definition fit_sample_plan (pick : Z -> list Gap -> Z -> option Gap) : list LifetimeBoundBuffer :=
  match plan_layout pick 512 128 fit_sample with Ok out => out | Raise _ => [] end.

Example fit_sample_addresses :
  addresses (fit_sample_plan first_fit_pick) =
  [("a", Some 0); ("b", Some 256); ("c", Some 0); ("d", None)].
Proof. vm_compute. reflexivity. Qed.

Lemma fit_sample_ok : wf_input fit_sample /\ Forall plain fit_sample.
Proof. split; [apply (bool_decide_unpack _); vm_compute; exact I | by repeat constructor]. Qed.

(** C2. Both gap-based solvers implement the layout-solver contract: with the
    first-fit or the best-fit policy (any policy that returns a fitting gap when
    there is one), plans are memory safe, change only addresses and spill reasons,
    never place a barred buffer, and exist whenever the in-place declarations
    pass the precondition; in particular the topological sort never reports a
    cycle on such input. *)
Theorem fit_solvers_refine :
  LayoutSolver (plan_layout first_fit_pick) /\ LayoutSolver (plan_layout best_fit_pick).
Proof. split; apply _. Qed.

(** A plan of a gap-based solver cannot be extended: a buffer that may reside
    in LX and is nevertheless left out has no conflict-free aligned address, every
    aligned position inside the scratchpad overlapping some placed buffer that is
    live at the same time. *)
Theorem fit_plan_maximal pick `{!GapPolicy pick} lim al bufs out i b b' :
  0 < al -> wf_input bufs -> Forall plain bufs -> plan_layout pick lim al bufs = Ok out ->
  bufs !! i = Some b -> out !! i = Some b' -> excluded (mkSolver lim al false) b = None ->
  address b' = None -> 0 < buf_size b' -> crowded_out lim al out b'.
Proof.
  intros Hal Hin Hpl H Hb Hb' Hx Ha Hs. destruct (decide (bufs = [])) as [->|Hne]; [done|].
  destruct (fit_layout_solved pick lim al bufs Hal Hin Hpl out H Hne) as (s & L & <- & Hp & HI).
  by eapply finv_crowded.
Qed.

Lemma fit_plan_maximal_witness :
  exists d, fit_sample_plan best_fit_pick !! 3%nat = Some d /\
    crowded_out 512 128 (fit_sample_plan best_fit_pick) d.
Proof.
  eexists. split; [vm_compute; reflexivity|].
  eapply (fit_plan_maximal best_fit_pick 512 128 fit_sample _ 3);
    [lia | apply fit_sample_ok | apply fit_sample_ok | vm_compute; reflexivity | vm_compute; reflexivity
    | vm_compute; reflexivity | vm_compute; reflexivity | vm_compute; reflexivity
    | vm_compute; reflexivity].
Defined.

(** The order of placement of the gap-based solvers exists, lists each
    placeable buffer once, and puts every placeable in-place parent before its
    child: Kahn's algorithm ends within its bound and never hits the cycle
    assertion when the in-place declarations pass the precondition. *)
Theorem placement_order_topological B placeable :
  wf_input B -> _check_in_place_relationships B = Ok tt ->
  NoDup placeable -> (forall r, r ∈ placeable -> (r < length B)%nat) ->
  exists L, placement_order B placeable = Ok L /\ L ≡ₚ placeable /\
    forall l r k b q m, L = l ++ r :: k -> B !! r = Some b -> q ∈ placeable ->
      B !! q = Some m -> buf_name m ∈ in_place_parents b -> q ∈ l.
Proof. intros Hin Hc. apply placement_order_ok; [apply Hin | apply Hin | done]. Qed.

Lemma placement_order_topological_witness :
  exists L, placement_order fit_sample [2; 0; 1]%nat = Ok L /\ L ≡ₚ [2; 0; 1]%nat /\
    forall l r k b q m, L = l ++ r :: k -> fit_sample !! r = Some b -> q ∈ [2; 0; 1]%nat ->
      fit_sample !! q = Some m -> buf_name m ∈ in_place_parents b -> q ∈ l.
Proof.
  apply (placement_order_topological fit_sample [2; 0; 1]%nat); [apply fit_sample_ok | | |].
  - vm_compute. reflexivity.
  - apply (bool_decide_unpack _). vm_compute. exact I.
  - apply Forall_forall. repeat constructor.
Defined.

(** The best-fit policy picks the first of the tightest gaps: among the gaps
    that can hold the buffer at an aligned address, none leaves less space, and
    the ones before the chosen gap leave strictly more; it picks none only when
    none fits. *)
Theorem best_fit_tightest al gaps size :
  match best_fit_pick al gaps size with
  | None => forall g, g ∈ gaps -> gap_fits al size g = false
  | Some g => gap_fits al size g = true /\ exists l k, gaps = l ++ g :: k /\
      (forall g', g' ∈ l -> gap_fits al size g' = true ->
         gap_waste al size g < gap_waste al size g') /\
      (forall g', g' ∈ k -> gap_fits al size g' = true ->
         gap_waste al size g <= gap_waste al size g')
  end.
Proof.
  pose proof (best_fit_scan al size gaps) as H. unfold best_fit_pick.
  destruct (foldl _ _ gaps) as [[g|] w]; unfold best_so_far in H; simpl in *; [|done].
  by destruct H as (_ & Hf & Hex).
Qed.
