(* ===== verification/PermLayout.v ===== *)
(** * The permutation packer ([csrc/perm_layout_native.cpp])

    The annealing solvers search over allocation orders: a permutation of the
    buffers fixes a layout, in which every buffer sits on top of the earlier
    buffers it overlaps in time, or in the slot of an in-place partner.  The packer
    shipped is native code that cuts the timeline into elementary intervals, keeps
    per-interval aggregates, stops as soon as every interval is saturated and skips
    moves that cannot change an address.  [tests/inductor/reference_perm_layout.py]
    holds the from-scratch packer it is meant to agree with.  Both are modelled
    here, each from its own source, with the equivalence of the two over every
    sequence of operations and the validity of the layouts.

    The native packer computes in [int64_t]: every sum of its placement is wrapped
    ([wrap64]) at the width the code has.  The theorems bound sizes, capacity and
    alignment by [ROOM], 2^61 bytes, and show that no sum wraps then; without the
    bound the packers differ ([overlong_size_wraps]).  Two's complement stands for
    the overflow that C++ leaves undefined.

    Qualities are sums of half-integers, [double]s in both packers; they are counted in
    halves, as integers.  A [double] represents every such sum exactly while the largest
    quality the sizes allow, [most_quality], is below 2^53 halves.  The iteration order of the
    partner sets is unspecified in both sources: here it is ascending, and
    [partner_order_irrelevant] shows that no order changes a decision.  The four
    per-interval vectors of the native packer are one list of [cell]s, and [addr_],
    [allocated_] are lists that keep their stale entries between runs. *)

From S2P Require Import Prelude PlanSolver.

Definition zat (l : list Z) (i : nat) : Z := default 0 (l !! i).
Definition flag (l : list bool) (i : nat) : bool := default false (l !! i).

Definition INT64_MAX : Z := 2 ^ 63 - 1.
Definition int64 (z : Z) : bool := (- 2 ^ 63 <=? z) && (z <=? INT64_MAX).

(** The result of an [int64_t] operation whose mathematical value is [z]. *)
Definition wrap64 (z : Z) : Z := (z + 2 ^ 63) mod 2 ^ 64 - 2 ^ 63.

(** What keeps every sum of the native packer within an [int64_t]: sizes, capacity
    and alignment of at most [ROOM] bytes. *)
Definition ROOM : Z := 2 ^ 61.
Definition small (z : Z) : bool := int64 z && (z <=? ROOM).

(** Twice [len(uses) + (0 if first_use_is_read else 0.5)]. *)
Definition weight2 (b : LifetimeBoundBuffer) : Z :=
  2 * Z.of_nat (length (uses b)) + (if first_use_is_read b then 0 else 1).

(** ** The native packer *)

Record StaticData := mkStatic {
  st_n : nat;
  st_capacity : Z;
  st_alignment : Z;
  st_start : list Z;
  st_end : list Z;
  st_weight : list Z;
  st_overlap : list (list nat);
  st_partners : list (list nat);
  st_parents : list (list nat);      (* declared_parents *)
  st_intervals : nat;                (* num_intervals *)
  st_total_at : list Z;
  st_buf_intervals : list (nat * nat)
}.

Record native := mkNative {
  n_static : StaticData;
  n_permutation : list nat;
  n_position : list nat;
  n_sizes : list Z;
  n_eligible : list bool;
  n_addr : list Z;
  n_allocated : list bool;
  n_quality : Z;
  n_count : Z
}.

(** *** [BuildIntervalData] *)

(** [std::unique] on a sorted range. *)
Fixpoint unique (l : list Z) : list Z :=
  match l with
  | a :: ((b :: _) as l') => if a =? b then unique l' else a :: unique l'
  | _ => l
  end.

(** [std::lower_bound]: the first entry not below [v]. *)
Fixpoint lower_bound (pts : list Z) (v : Z) : nat :=
  match pts with
  | [] => 0
  | p :: pts' => if p <? v then S (lower_bound pts' v) else 0
  end.

Definition endpoints (starts ends : list Z) : list Z := unique (py_sorted Z.leb (starts ++ ends)).

Definition bump (d : Z) (i : nat) (l : list Z) : list Z := alter (Z.add d) i l.

Definition sweep (k : nat) (ivs : list (nat * nat)) : list Z :=
  foldl (fun deltas iv => bump (-1) iv.2 (bump 1 iv.1 deltas)) (replicate (k + 1) 0) ivs.

Fixpoint running (r : Z) (deltas : list Z) : list Z :=
  match deltas with
  | [] => []
  | d :: deltas' => r + d :: running (r + d) deltas'
  end.

(** [(num_intervals, total_at, buf_intervals)] *)
Definition BuildIntervalData (starts ends : list Z) : nat * list Z * list (nat * nat) :=
  let pts := endpoints starts ends in
  let k := (length pts - 1)%nat in
  if (k =? 0)%nat then (0%nat, [], replicate (length starts) (0, 0)%nat)
  else
    let ivs := zip_with (fun s e => (lower_bound pts s, lower_bound pts e)) starts ends in
    (k, take k (running 0 (sweep k ivs)), ivs).

(** *** The constructor *)

Definition name_to_idx (bufs : list LifetimeBoundBuffer) (n : string) : option nat :=
  fst <$> list_find (fun b => buf_name b = n) bufs.

Definition declared_parents (bufs : list LifetimeBoundBuffer) (b : LifetimeBoundBuffer) : list nat :=
  omap (name_to_idx bufs) (in_place_parents b).

(** The checks of one buffer's fields; a field that does not fit an [int64_t] fails
    its cast, which the constructor restates as the same exception. *)
Definition read_fields (b : LifetimeBoundBuffer) : res unit :=
  raise_if (negb (int64 (buf_size b) && forallb int64 (uses b) && int64 (start_time b) && int64 (end_time b))) ValueError;;
  raise_if (buf_size b <? 0) ValueError;;
  raise_if (bool_decide (uses b = [])) ValueError;;
  raise_if (default 0 (last (uses b)) =? INT64_MAX) ValueError.

Definition check_pairs (bufs : list LifetimeBoundBuffer) : res unit :=
  for_each (fun child _ =>
    for_each (fun parent _ =>
      match bufs !! parent with
      | Some p =>
          raise_if (negb (parent_is_read p)) ValueError;;
          raise_if (negb (end_time p =? start_time child + 1)) ValueError
      | None => Ok tt
      end) (declared_parents bufs child) tt) bufs tt.

Definition build_static (bufs : list LifetimeBoundBuffer) (capacity alignment : Z) : StaticData :=
  let n := length bufs in
  let starts := start_time <$> bufs in
  let ends := end_time <$> bufs in
  let parents := declared_parents bufs <$> bufs in
  let par i := default [] (parents !! i) in
  let '(k, total, ivs) := BuildIntervalData starts ends in
  mkStatic n capacity alignment starts ends (weight2 <$> bufs)
    ((fun a => filter (fun c => c <> a /\ zat starts a < zat ends c /\ zat starts c < zat ends a) (seq 0 n)) <$> seq 0 n)
    ((fun i => filter (fun j => j ∈ par i \/ i ∈ par j) (seq 0 n)) <$> seq 0 n)
    parents k total ivs.

(** *** [RecomputeAll] *)

(** The aggregates of one interval. *)
Record cell := mkCell { placed_at : Z; has_none_at : bool; done_at : bool; max_top_at : Z }.

Record scan := mkScan {
  s_addr : list Z;
  s_allocated : list bool;
  s_quality : Z;
  s_count : Z;
  s_cells : list cell;
  s_not_done : Z
}.

Definition InitIntervals (total_at : list Z) : list cell * Z :=
  ((fun t => mkCell 0 false (t =? 0) 0) <$> total_at,
   Z.of_nat (length (filter (fun t => t <> 0) total_at))).

Definition commit_at (total_at : list Z) (set_none : bool) (top : Z) (s : list cell * Z) (t : nat) : list cell * Z :=
  match s.1 !! t with
  | None => s
  | Some c =>
      let placed := placed_at c + 1 in
      let none := if set_none then true else has_none_at c in
      let max_top := if set_none then max_top_at c else if max_top_at c <? top then top else max_top_at c in
      if negb (done_at c) && (none || (placed =? zat total_at t))
      then (<[t := mkCell placed none true max_top]> s.1, s.2 - 1)
      else (<[t := mkCell placed none (done_at c) max_top]> s.1, s.2)
  end.

Definition CommitIntervals (total_at : list Z) (iv : nat * nat) (set_none : bool) (top : Z) (s : list cell * Z)
    : list cell * Z :=
  foldl (commit_at total_at set_none top) s (seq iv.1 (iv.2 - iv.1)).

(** [((addr + a - 1) / a) * a] over [int64_t]; the division of C++ truncates. *)
Definition AlignUp (alignment addr : Z) : Z :=
  wrap64 (wrap64 (wrap64 (addr + alignment) - 1) ÷ alignment * alignment).

Definition GatherCandidates (st : StaticData) (position : list nat) (eligible : list bool) (idx pos : nat) : list nat :=
  filter (fun w => (default 0%nat (position !! w) < pos)%nat /\ flag eligible w = true) (default [] (st_overlap st !! idx)).

(** [InPlacePair]: (parent, child). *)
Definition InPlacePair (st : StaticData) (i j : nat) : nat * nat :=
  if bool_decide (j ∈ default [] (st_parents st !! i)) then (j, i) else (i, j).

(** The loop over the partners: [Some r] when it returns. *)
Fixpoint try_partners (st : StaticData) (sizes addr : list Z) (idx : nat) (cand partners : list nat)
    : option (option Z) :=
  match partners with
  | [] => None
  | partner :: partners' =>
      let next := try_partners st sizes addr idx cand partners' in
      if negb (bool_decide (partner ∈ cand)) then next
      else
        let '(parent, child) := InPlacePair st idx partner in
        if zat sizes parent <? zat sizes child then next
        else
          let partner_addr := zat addr partner in
          let others_top :=
            foldl (fun m q => if (q =? partner)%nat then m else Z.max m (wrap64 (zat addr q + zat sizes q))) 0 cand in
          if others_top <=? partner_addr
          then Some (if st_capacity st <? wrap64 (partner_addr + zat sizes idx) then None else Some partner_addr)
          else next
  end.

(** [PlaceDecision]: the address, or [None] when evicted. *)
Definition PlaceDecision (st : StaticData) (sizes addr : list Z) (allocated : list bool) (idx : nat) (cand : list nat)
    : option Z :=
  match cand with
  | [] => if st_capacity st <? zat sizes idx then None else Some 0
  | _ =>
      if existsb (fun p => negb (flag allocated p)) cand then None
      else
        let max_top := foldl (fun m p => Z.max m (wrap64 (zat addr p + zat sizes p))) (- 2 ^ 63) cand in
        match try_partners st sizes addr idx cand (default [] (st_partners st !! idx)) with
        | Some r => r
        | None =>
            let aligned := AlignUp (st_alignment st) max_top in
            if st_capacity st <? wrap64 (aligned + zat sizes idx) then None else Some aligned
        end
  end.

(** The fast path's scan of the buffer's intervals: the highest top, or [None] when
    one of them holds an evicted buffer. *)
Fixpoint floor_of (cells : list cell) (max_top : Z) : option Z :=
  match cells with
  | [] => Some max_top
  | c :: cells' => if has_none_at c then None else floor_of cells' (Z.max max_top (max_top_at c))
  end.

Definition fast_decision (st : StaticData) (sizes : list Z) (cells : list cell) (idx : nat) : option Z :=
  let iv := default (0, 0)%nat (st_buf_intervals st !! idx) in
  match floor_of (take (iv.2 - iv.1) (drop iv.1 cells)) 0 with
  | None => None
  | Some max_top =>
      let aligned := AlignUp (st_alignment st) max_top in
      if st_capacity st <? wrap64 (aligned + zat sizes idx) then None else Some aligned
  end.

(** One position of the loop. *)
Definition scan_step (st : StaticData) (position : list nat) (sizes : list Z) (eligible : list bool)
    (idx pos : nat) (s : scan) : scan :=
  let iv := default (0, 0)%nat (st_buf_intervals st !! idx) in
  let commit := CommitIntervals (st_total_at st) iv in
  if negb (flag eligible idx) then
    let '(cells, not_done) := commit false (-1) (s_cells s, s_not_done s) in
    mkScan (s_addr s) (<[idx := false]> (s_allocated s)) (s_quality s) (s_count s) cells not_done
  else
    let decision :=
      match default [] (st_partners st !! idx) with
      | [] => fast_decision st sizes (s_cells s) idx
      | _ => PlaceDecision st sizes (s_addr s) (s_allocated s) idx (GatherCandidates st position eligible idx pos)
      end in
    match decision with
    | Some a =>
        let '(cells, not_done) := commit false (wrap64 (a + zat sizes idx)) (s_cells s, s_not_done s) in
        mkScan (<[idx := a]> (s_addr s)) (<[idx := true]> (s_allocated s))
          (s_quality s + zat (st_weight st) idx * zat sizes idx) (s_count s + 1) cells not_done
    | None =>
        let '(cells, not_done) := commit true (-1) (s_cells s, s_not_done s) in
        mkScan (<[idx := 0]> (s_addr s)) (<[idx := false]> (s_allocated s)) (s_quality s) (s_count s) cells not_done
    end.

(** The loop over the positions, with the saturation stop. *)
Fixpoint scan_loop (st : StaticData) (position : list nat) (sizes : list Z) (eligible : list bool)
    (rest : list nat) (pos : nat) (s : scan) : scan :=
  match rest with
  | [] => s
  | idx :: rest' =>
      if s_not_done s =? 0
      then mkScan (s_addr s) (foldl (fun al i => <[i := false]> al) (s_allocated s) rest)
             (s_quality s) (s_count s) (s_cells s) (s_not_done s)
      else scan_loop st position sizes eligible rest' (S pos) (scan_step st position sizes eligible idx pos s)
  end.

Definition RecomputeAll (p : native) : native :=
  let '(cells, not_done) := InitIntervals (st_total_at (n_static p)) in
  let s := scan_loop (n_static p) (n_position p) (n_sizes p) (n_eligible p) (n_permutation p) 0
             (mkScan (n_addr p) (n_allocated p) 0 0 cells not_done) in
  mkNative (n_static p) (n_permutation p) (n_position p) (n_sizes p) (n_eligible p)
    (s_addr s) (s_allocated s) (s_quality s) (s_count s).

(** [position_[permutation_[pos]] = pos] for all positions. *)
Definition positions (perm : list nat) : list nat :=
  foldl (fun l ix => <[ix.2 := ix.1]> l) (replicate (length perm) 0%nat) (zip (seq 0 (length perm)) perm).

Definition native_init (bufs : list LifetimeBoundBuffer) (permutation : list nat) (capacity alignment : Z)
    (eligible : option (list bool)) : res native :=
  let n := length bufs in
  raise_if (negb (int64 capacity && int64 alignment)) TypeError;;
  raise_if (alignment <=? 0) ValueError;;
  raise_if (negb (bool_decide (py_sorted Nat.leb permutation = seq 0 n))) ValueError;;
  for_each (fun b _ => read_fields b) bufs tt;;
  raise_if (negb (bool_decide (NoDup (buf_name <$> bufs)))) ValueError;;
  check_pairs bufs;;
  let flags := default (replicate n true) eligible in
  raise_if (negb (length flags =? n)%nat) ValueError;;
  Ok (RecomputeAll (mkNative (build_static bufs capacity alignment) permutation (positions permutation)
        (buf_size <$> bufs) flags (replicate n 0) (replicate n false) 0 0)).

(** *** The operations: each returns the change of the quality *)

Definition n_swap (i : nat) (p : native) : res (native * Z) :=
  match n_permutation p !! i, n_permutation p !! S i with
  | Some x, Some y =>
      let p' := mkNative (n_static p) (<[S i := x]> (<[i := y]> (n_permutation p)))
                  (<[y := i]> (<[x := S i]> (n_position p))) (n_sizes p) (n_eligible p)
                  (n_addr p) (n_allocated p) (n_quality p) (n_count p) in
      let st := n_static p in
      if negb (flag (n_eligible p) x && flag (n_eligible p) y) then Ok (p', 0)
      else if negb ((zat (st_start st) x <? zat (st_end st) y) && (zat (st_start st) y <? zat (st_end st) x))
      then Ok (p', 0)
      else let p'' := RecomputeAll p' in Ok (p'', n_quality p'' - n_quality p)
  | _, _ => Raise ValueError
  end.

(** [MoveInPermutation]: the entry at [i] moved to [j], the others keeping their order. *)
Definition move (i j : nat) (l : list nat) : list nat :=
  match l !! i with
  | None => l
  | Some x =>
      if (i <? j)%nat
      then take i l ++ take (j - i) (drop (S i) l) ++ [x] ++ drop (S j) l
      else take j l ++ [x] ++ take (i - j) (drop j l) ++ drop (S i) l
  end.

Definition reposition (perm : list nat) (lo hi : nat) (position : list nat) : list nat :=
  foldl (fun l p => match perm !! p with Some x => <[x := p]> l | None => l end) position (seq lo (S hi - lo)).

Definition n_rotate (i j : nat) (p : native) : res (native * Z) :=
  match n_permutation p !! i, n_permutation p !! j with
  | Some x, Some _ =>
      if (i =? j)%nat then Ok (p, 0)
      else
        let perm := move i j (n_permutation p) in
        let p' := mkNative (n_static p) perm (reposition perm (i `min` j) (i `max` j) (n_position p))
                    (n_sizes p) (n_eligible p) (n_addr p) (n_allocated p) (n_quality p) (n_count p) in
        if negb (flag (n_eligible p) x) then Ok (p', 0)
        else let p'' := RecomputeAll p' in Ok (p'', n_quality p'' - n_quality p)
  | _, _ => Raise ValueError
  end.

Definition n_resize (idx : nat) (new_size : Z) (p : native) : res (native * Z) :=
  raise_if (negb (int64 new_size)) TypeError;;
  raise_if (negb (idx <? st_n (n_static p))%nat) ValueError;;
  raise_if (new_size <? 0) ValueError;;
  if zat (n_sizes p) idx =? new_size then Ok (p, 0)
  else
    let p' := mkNative (n_static p) (n_permutation p) (n_position p) (<[idx := new_size]> (n_sizes p)) (n_eligible p)
                (n_addr p) (n_allocated p) (n_quality p) (n_count p) in
    if negb (flag (n_eligible p) idx) then Ok (p', 0)
    else let p'' := RecomputeAll p' in Ok (p'', n_quality p'' - n_quality p).

Definition n_set_eligible (idx : nat) (f : bool) (p : native) : res (native * Z) :=
  raise_if (negb (idx <? st_n (n_static p))%nat) ValueError;;
  if Bool.eqb (flag (n_eligible p) idx) f then Ok (p, 0)
  else
    let p' := RecomputeAll (mkNative (n_static p) (n_permutation p) (n_position p) (n_sizes p)
                (<[idx := f]> (n_eligible p)) (n_addr p) (n_allocated p) (n_quality p) (n_count p)) in
    Ok (p', n_quality p' - n_quality p).

(** [addresses]: [None] for an evicted buffer. *)
Definition n_addresses (p : native) : list (option Z) :=
  (fun i => if flag (n_allocated p) i then Some (zat (n_addr p) i) else None) <$> seq 0 (st_n (n_static p)).

(** ** The reference packer ([tests/inductor/reference_perm_layout.py]) *)

Record reference := mkRef {
  r_buffers : list LifetimeBoundBuffer;
  r_capacity : Z;
  r_alignment : Z;
  r_permutation : list nat;
  r_sizes : list Z;
  r_eligible : list bool;
  r_addresses : list (option Z);
  r_quality : Z;
  r_count : Z
}.

(** [_overlaps], [_in_place_pair] and the partner sets, by index. *)
Definition r_overlaps (bufs : list LifetimeBoundBuffer) (i j : nat) : bool :=
  match bufs !! i, bufs !! j with Some b, Some c => overlaps_in_time b c | _, _ => false end.

Definition declares (bufs : list LifetimeBoundBuffer) (child parent : nat) : bool :=
  match bufs !! child, bufs !! parent with
  | Some c, Some p => bool_decide (buf_name p ∈ in_place_parents c)
  | _, _ => false
  end.

Definition _in_place_pair (bufs : list LifetimeBoundBuffer) (i j : nat) : nat * nat :=
  if declares bufs i j then (j, i) else (i, j).

Definition _inplace_partners (bufs : list LifetimeBoundBuffer) (i : nat) : list nat :=
  filter (fun j => declares bufs i j = true \/ declares bufs j i = true) (seq 0 (length bufs)).

(** [-(-addr // alignment) * alignment] *)
Definition _align_up (alignment addr : Z) : Z := - (- addr / alignment) * alignment.

Section decision.
Context (bufs : list LifetimeBoundBuffer) (capacity alignment : Z) (sizes : list Z) (A : nat -> option Z).

(** [addr[p] + sizes[p]] of a placed buffer. *)
Definition top (p : nat) : Z := default 0 (A p) + zat sizes p.

Fixpoint drop_into (idx : nat) (candidates partners : list nat) : option (option Z) :=
  match partners with
  | [] => None
  | partner :: partners' =>
      let '(parent, child) := _in_place_pair bufs idx partner in
      if negb (zat sizes child <=? zat sizes parent) then drop_into idx candidates partners'
      else
        let partner_addr := default 0 (A partner) in
        let others_top := list_max 0 (top <$> filter (fun q => q <> partner) candidates) in
        if others_top <=? partner_addr
        then Some (if capacity <? partner_addr + zat sizes idx then None else Some partner_addr)
        else drop_into idx candidates partners'
  end.

(** The decision once every candidate is placed. *)
Definition stack_decision (idx : nat) (candidates partners : list nat) : option Z :=
  match drop_into idx candidates (filter (fun p => p ∈ candidates) partners) with
  | Some r => r
  | None =>
      let aligned := _align_up alignment (list_max 0 (top <$> candidates)) in
      if capacity <? aligned + zat sizes idx then None else Some aligned
  end.

Definition _placement_decision (idx : nat) (candidates : list nat) : option Z :=
  match candidates with
  | [] => if capacity <? zat sizes idx then None else Some 0
  | _ =>
      if existsb (fun p => bool_decide (A p = None)) candidates then None
      else stack_decision idx candidates (_inplace_partners bufs idx)
  end.
End decision.

Definition addr_of (l : list (option Z)) (i : nat) : option Z := default None (l !! i).

(** What a placement leaves: addresses, quality, count. *)
Definition layout : Type := list (option Z) * Z * Z.

Definition candidates_of (bufs : list LifetimeBoundBuffer) (eligible : list bool) (prior : list nat) (idx : nat) : list nat :=
  filter (fun p => r_overlaps bufs idx p = true /\ flag eligible p = true) prior.

Section build.
Context (bufs : list LifetimeBoundBuffer) (capacity alignment : Z) (sizes : list Z) (eligible : list bool).

(** One position of [_build]: [prior] are the buffers before it. *)
Definition build_step (prior : list nat) (idx : nat) (s : layout) : layout :=
  let '(addresses, quality, count) := s in
  if negb (flag eligible idx) then (<[idx := None]> addresses, quality, count)
  else
    match _placement_decision bufs capacity alignment sizes (addr_of addresses) idx (candidates_of bufs eligible prior idx) with
    | Some a => (<[idx := Some a]> addresses, quality + default 0 (weight2 <$> bufs !! idx) * zat sizes idx, count + 1)
    | None => (<[idx := None]> addresses, quality, count)
    end.

Fixpoint build_from (prior rest : list nat) (s : layout) : layout :=
  match rest with
  | [] => s
  | idx :: rest' => build_from (prior ++ [idx]) rest' (build_step prior idx s)
  end.
End build.

Definition ref_layout (bufs : list LifetimeBoundBuffer) (capacity alignment : Z) (sizes : list Z) (eligible : list bool)
    (perm : list nat) : layout :=
  build_from bufs capacity alignment sizes eligible [] perm (replicate (length bufs) (Some 0), 0, 0).

#[local] Arguments ref_layout : simpl never.

Definition _build (p : reference) : reference :=
  let '(addresses, quality, count) :=
    ref_layout (r_buffers p) (r_capacity p) (r_alignment p) (r_sizes p) (r_eligible p) (r_permutation p) in
  mkRef (r_buffers p) (r_capacity p) (r_alignment p) (r_permutation p) (r_sizes p) (r_eligible p) addresses quality count.

(** [_compute_inplace_partners] raises for a pair that cannot hand over. *)
Definition ref_check_pairs (bufs : list LifetimeBoundBuffer) : res unit :=
  for_each (fun child _ =>
    for_each (fun pname _ =>
      match buf_by_name bufs !! pname with
      | Some parent =>
          check_in_place_parent_is_read parent;;
          raise_if (negb (end_time parent =? start_time child + 1)) ValueError
      | None => Ok tt
      end) (in_place_parents child) tt) bufs tt.

(** The checks of one buffer. *)
Definition ref_fields (b : LifetimeBoundBuffer) : res unit :=
  raise_if (buf_size b <? 0) ValueError;;
  raise_if (bool_decide (uses b = [])) ValueError;;
  raise_if (INT64_MAX <=? default 0 (last (uses b))) ValueError.

Definition ref_init (bufs : list LifetimeBoundBuffer) (permutation : list nat) (capacity alignment : Z)
    (eligible : option (list bool)) : res reference :=
  let n := length bufs in
  raise_if (alignment <=? 0) ValueError;;
  raise_if (negb (bool_decide (py_sorted Nat.leb permutation = seq 0 n))) ValueError;;
  for_each (fun b _ => ref_fields b) bufs tt;;
  raise_if (negb (bool_decide (NoDup (buf_name <$> bufs)))) ValueError;;
  let flags := default (replicate n true) eligible in
  raise_if (negb (length flags =? n)%nat) ValueError;;
  ref_check_pairs bufs;;
  Ok (_build (mkRef bufs capacity alignment permutation (buf_size <$> bufs) flags (replicate n (Some 0)) 0 0)).

Definition r_swap (i : nat) (p : reference) : res (reference * Z) :=
  match r_permutation p !! i, r_permutation p !! S i with
  | Some x, Some y =>
      let p' := _build (mkRef (r_buffers p) (r_capacity p) (r_alignment p) (<[S i := x]> (<[i := y]> (r_permutation p)))
                  (r_sizes p) (r_eligible p) (r_addresses p) (r_quality p) (r_count p)) in
      Ok (p', r_quality p' - r_quality p)
  | _, _ => Raise ValueError
  end.

(** The swaps of a [rotate], with the deltas summed. *)
Definition swap_all (ks : list nat) (p : reference) : res (reference * Z) :=
  for_each (fun k pd => pd' ← r_swap k pd.1; Ok (pd'.1, pd.2 + pd'.2)) ks (p, 0).

Definition r_rotate (i j : nat) (p : reference) : res (reference * Z) :=
  let n := length (r_buffers p) in
  raise_if (negb ((i <? n)%nat && (j <? n)%nat)) ValueError;;
  if (i <? j)%nat then swap_all (seq i (j - i)) p else swap_all (reverse (seq j (i - j))) p.

Definition r_resize (idx : nat) (new_size : Z) (p : reference) : res (reference * Z) :=
  raise_if (negb (idx <? length (r_buffers p))%nat) ValueError;;
  raise_if (new_size <? 0) ValueError;;
  let p' := _build (mkRef (r_buffers p) (r_capacity p) (r_alignment p) (r_permutation p) (<[idx := new_size]> (r_sizes p))
              (r_eligible p) (r_addresses p) (r_quality p) (r_count p)) in
  Ok (p', r_quality p' - r_quality p).

Definition r_set_eligible (idx : nat) (f : bool) (p : reference) : res (reference * Z) :=
  raise_if (negb (idx <? length (r_buffers p))%nat) ValueError;;
  if Bool.eqb (flag (r_eligible p) idx) f then Ok (p, 0)
  else
    let p' := _build (mkRef (r_buffers p) (r_capacity p) (r_alignment p) (r_permutation p) (r_sizes p)
                (<[idx := f]> (r_eligible p)) (r_addresses p) (r_quality p) (r_count p)) in
    Ok (p', r_quality p' - r_quality p).

(** ** Maxima *)

Definition zmax (d : Z) (l : list Z) : Z := foldr Z.max d l.

#[export] Instance zmax_proper d : Proper (Permutation ==> eq) (zmax d).
Proof. intros l k H. unfold zmax. induction H; cbn [foldr]; lia. Qed.

Lemma foldl_zmax l : forall d, foldl Z.max d l = zmax d l.
Proof.
  unfold zmax. induction l as [|x l IH]; intros d; [done|]. cbn [foldl foldr]. rewrite IH.
  clear IH. induction l as [|y l IH]; cbn [foldr]; lia.
Qed.

Lemma zmax_ge d l : d <= zmax d l.
Proof. unfold zmax. induction l; cbn [foldr]; lia. Qed.

Lemma zmax_le d l b : zmax d l <= b <-> d <= b /\ Forall (fun x => x <= b) l.
Proof.
  unfold zmax. induction l as [|x l IH]; cbn [foldr]; [split; [intros; split; [done | constructor] | tauto]|].
  rewrite Forall_cons, Z.max_lub_iff, IH. tauto.
Qed.

(** From a start below all entries. *)
Lemma zmax_start d e l : l <> [] -> Forall (fun x => d <= x) l -> e <= d -> zmax e l = zmax d l.
Proof.
  unfold zmax. destruct l as [|x l]; [done|]. intros _ Hl He. apply Forall_cons in Hl as [Hx Hl]. cbn [foldr].
  induction l as [|y l IH]; cbn [foldr]; [lia|]. apply Forall_cons in Hl as [Hy Hl]. specialize (IH Hl). lia.
Qed.

Lemma list_max_zmax d l : Forall (fun x => d <= x) l -> list_max d l = zmax d l.
Proof.
  destruct l as [|x l]; [done|]. intros Hl. unfold list_max. apply Forall_cons in Hl as [Hx Hl].
  rewrite foldl_zmax. unfold zmax. cbn [foldr]. clear Hl. induction l as [|y l IH]; cbn [foldr]; lia.
Qed.

Lemma foldl_max_fmap {B} (f : B -> Z) (l : list B) : forall d, foldl (fun m p => Z.max m (f p)) d l = zmax d (f <$> l).
Proof. induction l as [|x l IH]; intros d; [done|]. cbn [foldl]. rewrite IH, <- !foldl_zmax. done. Qed.

Lemma foldl_max_skip (f : nat -> Z) (q : nat) (l : list nat) : forall d,
  foldl (fun m p => if (p =? q)%nat then m else Z.max m (f p)) d l = zmax d (f <$> filter (fun p => p <> q) l).
Proof.
  induction l as [|x l IH]; intros d; [done|]. cbn [foldl]. rewrite IH, filter_cons.
  destruct (Nat.eqb_spec x q); [by rewrite decide_False by tauto|]. rewrite decide_True by done.
  rewrite fmap_cons, <- !foldl_zmax. done.
Qed.

Lemma wrap64_exact z : - 2 ^ 63 <= z < 2 ^ 63 -> wrap64 z = z.
Proof. intros H. unfold wrap64. rewrite Z.mod_small; lia. Qed.

Lemma small_int64 z : small z = true -> int64 z = true.
Proof. unfold small. intros H. by apply andb_true_iff in H as [? _]. Qed.

Lemma small_room z : small z = true -> z <= ROOM.
Proof. unfold small. intros H. apply andb_true_iff in H as [_ H]. lia. Qed.

Lemma int64_small z : int64 z = true -> z <= ROOM -> small z = true.
Proof. intros Hz Hr. unfold small. rewrite Hz. lia. Qed.

Lemma AlignUp_align_up al a : 0 < al <= ROOM -> 0 <= a <= ROOM -> AlignUp al a = _align_up al a.
Proof.
  intros Hal Ha. unfold AlignUp, _align_up, ROOM in *. rewrite <- ceil_spellings by lia.
  rewrite (wrap64_exact (a + al)), (wrap64_exact (a + al - 1)) by lia. rewrite Z.quot_div_nonneg by lia.
  pose proof (Z.div_mod (a + al - 1) al ltac:(lia)). pose proof (Z.mod_pos_bound (a + al - 1) al ltac:(lia)).
  apply wrap64_exact. lia.
Qed.

Lemma aligned_up_spec al a : 0 < al -> a <= _align_up al a < a + al /\ (al | _align_up al a).
Proof.
  intros Hal. unfold _align_up. pose proof (Z.div_mod (- a) al ltac:(lia)). pose proof (Z.mod_pos_bound (- a) al Hal).
  split; [lia|]. apply Z.divide_factor_r.
Qed.

(** ** Elementary intervals *)

Definition cnt {A} (P : A -> Prop) `{!forall x, Decision (P x)} (l : list A) : Z := Z.of_nat (length (filter P l)).

Lemma cnt_cons {A} (P : A -> Prop) `{!forall x, Decision (P x)} x l : cnt P (x :: l) = (if decide (P x) then 1 else 0) + cnt P l.
Proof. unfold cnt. rewrite filter_cons. case_decide; cbn [length]; lia. Qed.

Lemma unique_spec l :
  StronglySorted Z.le l -> StronglySorted Z.lt (unique l) /\ forall x, x ∈ unique l <-> x ∈ l.
Proof.
  induction l as [|a [|b l] IH]; intros Hs; [by split; [constructor|] | split; [repeat constructor | done] |].
  apply StronglySorted_inv in Hs as [Hs Ha]. destruct (IH Hs) as [IHs IHe].
  change (unique (a :: b :: l)) with (if a =? b then unique (b :: l) else a :: unique (b :: l)).
  destruct (Z.eqb_spec a b) as [<-|Hne].
  - split; [done|]. intros x. rewrite IHe. set_solver.
  - split.
    + constructor; [done|]. apply Forall_forall. intros x Hx%IHe. rewrite Forall_forall in Ha.
      apply StronglySorted_inv in Hs as [_ Hb]. rewrite Forall_forall in Hb.
      pose proof (Ha b ltac:(left)) as Hab. apply elem_of_cons in Hx as [->|Hx]; [lia|]. specialize (Hb x Hx). lia.
    + intros x. rewrite !elem_of_cons, IHe, elem_of_cons. done.
Qed.

Lemma endpoints_spec starts ends :
  StronglySorted Z.lt (endpoints starts ends) /\ forall x, x ∈ endpoints starts ends <-> x ∈ starts \/ x ∈ ends.
Proof.
  destruct (unique_spec (py_sorted Z.leb (starts ++ ends))) as [Hs He].
  { apply py_sorted_coarse; intros; lia. }
  split; [done|]. intros x. unfold endpoints. by rewrite He, elem_of_py_sorted, elem_of_app.
Qed.

Lemma lower_bound_lookup pts v : StronglySorted Z.lt pts -> v ∈ pts -> pts !! lower_bound pts v = Some v.
Proof.
  induction pts as [|p pts IH]; intros Hs Hv; [by apply elem_of_nil in Hv|].
  apply StronglySorted_inv in Hs as [Hs Hp]. cbn [lower_bound]. rewrite Forall_forall in Hp.
  destruct (Z.ltb_spec p v) as [Hlt|Hge].
  - cbn. apply IH; [done|]. apply elem_of_cons in Hv as [->|Hv]; [lia | done].
  - cbn. apply elem_of_cons in Hv as [->|Hv]; [done|]. specialize (Hp v Hv). lia.
Qed.

Lemma lower_bound_lt pts v w :
  StronglySorted Z.lt pts -> v ∈ pts -> w ∈ pts -> (lower_bound pts v < lower_bound pts w)%nat <-> v < w.
Proof.
  intros Hs Hv Hw. pose proof (lower_bound_lookup pts v Hs Hv) as Lv. pose proof (lower_bound_lookup pts w Hs Hw) as Lw.
  split; intros H.
  - exact (StronglySorted_lookup_lt Z.lt pts _ _ v w Hs H Lv Lw).
  - destruct (decide (lower_bound pts v < lower_bound pts w)%nat) as [|Hn]; [done|]. exfalso.
    destruct (decide (lower_bound pts v = lower_bound pts w)) as [He|He]; [rewrite He in Lv; simplify_eq; lia|].
    assert (lower_bound pts w < lower_bound pts v)%nat as Hlt by lia.
    pose proof (StronglySorted_lookup_lt Z.lt pts _ _ w v Hs Hlt Lw Lv). lia.
Qed.

Lemma length_running ds : forall r, length (running r ds) = length ds.
Proof. induction ds as [|d ds IH]; intros r; [done|]. cbn. by rewrite IH. Qed.

Lemma running_bump d ds : forall r i t,
  (i < length ds)%nat -> (t < length ds)%nat ->
  zat (running r (bump d i ds)) t = zat (running r ds) t + (if decide (i <= t)%nat then d else 0).
Proof.
  assert (forall ds r e t, (t < length ds)%nat -> zat (running (r + e) ds) t = zat (running r ds) t + e) as Hshift.
  { induction ds0 as [|x ds0 IH]; intros r e t Ht; [simpl in Ht; lia|]. cbn [running]. destruct t as [|t].
    - unfold zat. simpl. lia.
    - unfold zat in *. cbn [lookup list_lookup]. replace (r + e + x) with (r + x + e) by lia. apply IH. simpl in Ht. lia. }
  induction ds as [|x ds IH]; intros r i t Hi Ht; [simpl in Hi; lia|]. unfold bump in *. destruct i as [|i].
  - change (alter (Z.add d) 0%nat (x :: ds)) with (d + x :: ds). cbn [running]. rewrite decide_True by lia. destruct t as [|t].
    + unfold zat. simpl. lia.
    + unfold zat in *. cbn [lookup list_lookup]. replace (r + (d + x)) with (r + x + d) by lia. apply Hshift. simpl in Ht. lia.
  - change (alter (Z.add d) (S i) (x :: ds)) with (x :: alter (Z.add d) i ds). cbn [running]. destruct t as [|t].
    + rewrite decide_False by lia. unfold zat. simpl. lia.
    + etrans; [apply (IH (r + x) i t); simpl in *; lia|]. f_equal.
      destruct (decide (i <= t)%nat), (decide (S i <= S t)%nat); lia.
Qed.

(** The delta sweep counts the intervals that cover a point. *)
Lemma sweep_counts k ivs t :
  (t < k)%nat -> Forall (fun iv => (iv.1 < iv.2 <= k)%nat) ivs ->
  zat (running 0 (sweep k ivs)) t = cnt (fun iv => (iv.1 <= t < iv.2)%nat) ivs.
Proof.
  intros Ht Hivs. unfold sweep.
  assert (forall ds, length ds = (k + 1)%nat -> zat (running 0 (foldl (fun deltas iv => bump (-1) iv.2 (bump 1 iv.1 deltas)) ds ivs)) t =
    zat (running 0 ds) t + cnt (fun iv => (iv.1 <= t < iv.2)%nat) ivs) as Hgen.
  { induction Hivs as [|[lo hi] ivs Hiv Hivs IH]; intros ds Hl; [unfold cnt; simpl; lia|]. cbn [foldl fst snd] in *.
    rewrite IH by (unfold bump; by rewrite !length_alter). rewrite !running_bump by (unfold bump; rewrite ?length_alter; lia).
    rewrite cnt_cons. cbn [fst snd]. repeat case_decide; lia. }
  rewrite Hgen by apply length_replicate. clear. enough (forall m r, zat (running r (replicate m 0)) t = 0 \/ zat (running r (replicate m 0)) t = r) as H.
  { destruct (H (k + 1)%nat 0); lia. }
  induction t as [|t IH]; intros [|m] r; cbn [replicate running]; unfold zat in *; cbn [lookup list_lookup]; [by left | right; simpl; lia | by left |].
  destruct (IH m (r + 0)) as [H|H]; [by left|]. right. etrans; [exact H | lia].
Qed.

Lemma interval_data starts ends k total ivs :
  BuildIntervalData starts ends = (k, total, ivs) -> Forall2 Z.lt starts ends ->
  length total = k /\ length ivs = length starts /\
  (forall i s e, starts !! i = Some s -> ends !! i = Some e ->
     let pts := endpoints starts ends in
     ivs !! i = Some (lower_bound pts s, lower_bound pts e) /\ (lower_bound pts s < lower_bound pts e <= k)%nat) /\
  (forall t, (t < k)%nat -> zat total t = cnt (fun iv => (iv.1 <= t < iv.2)%nat) ivs).
Proof.
  intros Hb Hlt. destruct (endpoints_spec starts ends) as [Hs He]. unfold BuildIntervalData in Hb.
  assert (forall i s e, starts !! i = Some s -> ends !! i = Some e ->
    (lower_bound (endpoints starts ends) s < lower_bound (endpoints starts ends) e <= length (endpoints starts ends) - 1)%nat) as Hiv.
  { intros i s e Hsi Hei. pose proof (Forall2_lookup_lr _ _ _ _ _ _ Hlt Hsi Hei) as Hse. cbn in Hse.
    assert (s ∈ endpoints starts ends) as Hs' by (apply He; left; by eapply list_elem_of_lookup_2).
    assert (e ∈ endpoints starts ends) as He' by (apply He; right; by eapply list_elem_of_lookup_2).
    pose proof (lookup_lt_Some _ _ _ (lower_bound_lookup _ _ Hs He')). split; [|lia]. by apply lower_bound_lt. }
  destruct (Nat.eqb_spec (length (endpoints starts ends) - 1) 0) as [Hk|Hk].
  - injection Hb as <- <- <-. split_and!; [done | by rewrite length_replicate | | intros; lia].
    intros i s e Hsi Hei. cbn zeta. specialize (Hiv i s e Hsi Hei). lia.
  - injection Hb as <- <- <-. apply Forall2_length in Hlt as Hlen.
    set (pts := endpoints starts ends) in *. set (ivs := zip_with _ starts ends).
    assert (Forall (fun iv => (iv.1 < iv.2 <= length pts - 1)%nat) ivs) as Hall.
    { apply Forall_lookup. intros i [lo hi] Hi. apply lookup_zip_with_Some in Hi as (s & e & [= -> ->] & Hsi & Hei). eauto. }
    split_and!.
    + rewrite length_take, length_running. assert (length (sweep (length pts - 1) ivs) = (length pts - 1 + 1)%nat) as ->; [|lia].
      unfold sweep. rewrite <- (length_replicate (length pts - 1 + 1) 0) at 2. generalize (replicate (length pts - 1 + 1) 0).
      clear. induction ivs as [|iv ivs IH]; intros ds; [done|]. cbn [foldl]. rewrite IH. unfold bump. by rewrite !length_alter.
    + unfold ivs. rewrite length_zip_with. lia.
    + intros i s e Hsi Hei. cbn zeta. split; [|eauto]. unfold ivs. rewrite lookup_zip_with, Hsi, Hei. done.
    + intros t Ht. rewrite <- sweep_counts with (k := (length pts - 1)%nat) by done. unfold zat. by rewrite lookup_take_lt.
Qed.

(** ** What the static data says *)

Section static.
Context (bufs : list LifetimeBoundBuffer) (capacity al : Z).
Context (Hlive : Forall (fun b => start_time b < end_time b) bufs) (Hnames : NoDup (buf_name <$> bufs)).

#[local] Notation st := (build_static bufs capacity al).
#[local] Notation n := (length bufs).

Definition interval (i : nat) : nat * nat := default (0, 0)%nat (st_buf_intervals st !! i).
Definition alive (i t : nat) : Prop := ((interval i).1 <= t < (interval i).2)%nat.

#[export] Instance alive_dec i t : Decision (alive i t).
Proof. unfold alive. apply _. Defined.

Lemma static_fields :
  exists k total ivs, BuildIntervalData (start_time <$> bufs) (end_time <$> bufs) = (k, total, ivs) /\
    st_intervals st = k /\ st_total_at st = total /\ st_buf_intervals st = ivs /\
    st_capacity st = capacity /\ st_alignment st = al /\ st_n st = n /\
    st_start st = start_time <$> bufs /\ st_end st = end_time <$> bufs /\ st_weight st = weight2 <$> bufs /\
    st_parents st = declared_parents bufs <$> bufs.
Proof.
  unfold build_static. destruct (BuildIntervalData _ _) as [[k total] ivs] eqn:E. exists k, total, ivs. done.
Qed.

Lemma lives : Forall2 Z.lt (start_time <$> bufs) (end_time <$> bufs).
Proof. apply Forall2_fmap, Forall_Forall2_diag. done. Qed.

Lemma interval_spec i b : bufs !! i = Some b ->
  let pts := endpoints (start_time <$> bufs) (end_time <$> bufs) in
  interval i = (lower_bound pts (start_time b), lower_bound pts (end_time b)) /\
  ((interval i).1 < (interval i).2 <= length (st_total_at st))%nat.
Proof.
  intros Hb. destruct static_fields as (k & total & ivs & HB & _ & Ht & Hiv & _).
  destruct (interval_data _ _ _ _ _ HB lives) as (Hl & _ & Hi & _).
  destruct (Hi i (start_time b) (end_time b)) as [H1 H2]; [by rewrite list_lookup_fmap, Hb | by rewrite list_lookup_fmap, Hb |].
  cbn zeta in *. unfold interval. rewrite Hiv, H1, Ht, Hl. done.
Qed.

Lemma endpoint_elem i b : bufs !! i = Some b ->
  start_time b ∈ endpoints (start_time <$> bufs) (end_time <$> bufs) /\
  end_time b ∈ endpoints (start_time <$> bufs) (end_time <$> bufs).
Proof.
  intros Hb%list_elem_of_lookup_2. rewrite !(proj2 (endpoints_spec _ _)).
  split; [left | right]; by apply list_elem_of_fmap_2.
Qed.

(** Two buffers overlap in time exactly when they share an elementary interval. *)
Lemma overlap_shares i j b c :
  bufs !! i = Some b -> bufs !! j = Some c ->
  overlaps_in_time b c = true <-> exists t, alive i t /\ alive j t.
Proof.
  intros Hb Hc. destruct (interval_spec i b Hb) as [Ei Hi]. destruct (interval_spec j c Hc) as [Ej Hj].
  destruct (endpoint_elem i b Hb) as [Sb Eb]. destruct (endpoint_elem j c Hc) as [Sc Ec]. cbn zeta in *.
  pose proof (proj1 (endpoints_spec (start_time <$> bufs) (end_time <$> bufs))) as Hs.
  unfold alive. unfold overlaps_in_time. rewrite andb_true_iff, !Z.ltb_lt.
  rewrite <- (lower_bound_lt _ _ _ Hs Sb Ec), <- (lower_bound_lt _ _ _ Hs Sc Eb). rewrite Ei, Ej in *. cbn [fst snd] in *.
  set (pts := endpoints _ _) in *. split.
  - intros [H1 H2]. exists (Nat.max (lower_bound pts (start_time b)) (lower_bound pts (start_time c))). lia.
  - intros (t & H1 & H2). lia.
Qed.

Lemma total_counts t : (t < length (st_total_at st))%nat -> zat (st_total_at st) t = cnt (fun i => alive i t) (seq 0 n).
Proof.
  intros Ht. destruct static_fields as (k & total & ivs & HB & _ & Et & Hiv & _).
  destruct (interval_data _ _ _ _ _ HB lives) as (Hl & Hli & _ & Hc). rewrite Et in *. rewrite Hc by lia.
  rewrite length_fmap in Hli. unfold cnt. f_equal. rewrite <- Hli.
  assert (forall i, interval i = default (0, 0)%nat (ivs !! i)) as Hint by (intros i; unfold interval; by rewrite Hiv).
  assert (forall l o, (forall i, interval (o + i) = default (0, 0)%nat (l !! i)) ->
    length (filter (fun iv => (iv.1 <= t < iv.2)%nat) l) = length (filter (fun i => alive i t) (seq o (length l)))) as Hgen.
  { clear. induction l as [|iv l IH]; intros o H; [done|]. cbn [length seq]. rewrite !filter_cons.
    assert (alive o t <-> (iv.1 <= t < iv.2)%nat) as Ha.
    { unfold alive. specialize (H 0%nat). rewrite Nat.add_0_r in H. rewrite H. done. }
    assert (length (filter (fun iv => (iv.1 <= t < iv.2)%nat) l) = length (filter (fun i => alive i t) (seq (S o) (length l)))) as He.
    { apply IH. intros i. specialize (H (S i)). rewrite <- Nat.add_succ_comm in H. exact H. }
    destruct (decide (alive o t)), (decide (iv.1 <= t < iv.2)%nat); cbn [length]; first [by rewrite He | tauto]. }
  by apply (Hgen ivs 0%nat).
Qed.

(** Partners and pairs by index are those by name. *)
Lemma name_to_idx_spec m j : name_to_idx bufs m = Some j <-> exists c, bufs !! j = Some c /\ buf_name c = m.
Proof.
  unfold name_to_idx. split.
  - destruct (list_find (fun b => buf_name b = m) bufs) as [[i c]|] eqn:E; [|done]. cbn. intros [= <-].
    apply list_find_Some in E as (H1 & H2 & _). eauto.
  - intros (c & Hc & Hm). destruct (list_find (fun b => buf_name b = m) bufs) as [[i d]|] eqn:E.
    + apply list_find_Some in E as (H1 & H2 & _). cbn. f_equal.
      eapply (NoDup_lookup (buf_name <$> bufs)); [done | by rewrite list_lookup_fmap, H1 |]. rewrite list_lookup_fmap, Hc. cbn. congruence.
    + apply list_find_None in E. rewrite Forall_forall in E. by destruct (E c (list_elem_of_lookup_2 _ _ _ Hc)).
Qed.

Lemma declared_spec i j : (i < n)%nat -> j ∈ default [] (st_parents st !! i) <-> declares bufs i j = true.
Proof.
  intros Hi. destruct static_fields as (k & total & ivs & _ & _ & _ & _ & _ & _ & _ & _ & _ & _ & Hp). rewrite Hp.
  destruct (lookup_lt_is_Some_2 bufs i Hi) as [b Hb]. rewrite list_lookup_fmap, Hb. cbn. unfold declares. rewrite Hb.
  unfold declared_parents. rewrite list_elem_of_omap. split.
  - intros (m & Hm & (c & Hc & <-)%name_to_idx_spec). rewrite Hc. by apply bool_decide_eq_true.
  - destruct (bufs !! j) as [c|] eqn:Hc; [|done]. intros H%bool_decide_eq_true. exists (buf_name c). split; [done|].
    apply name_to_idx_spec. eauto.
Qed.

Lemma in_place_pair_eq i j : (i < n)%nat -> InPlacePair st i j = _in_place_pair bufs i j.
Proof.
  intros Hi. unfold InPlacePair, _in_place_pair. destruct (declares bufs i j) eqn:E.
  - rewrite bool_decide_eq_true_2; [done|]. by apply declared_spec.
  - rewrite bool_decide_eq_false_2; [done|]. intros H%declared_spec; [congruence | done].
Qed.

Lemma partners_eq i : (i < n)%nat -> default [] (st_partners st !! i) = _inplace_partners bufs i.
Proof.
  intros Hi. pose proof declared_spec as Hd. revert Hd. unfold build_static at 2. unfold build_static.
  destruct (BuildIntervalData _ _) as [[k total] ivs] eqn:E. cbn [st_partners st_parents]. intros Hd.
  rewrite list_lookup_fmap, lookup_seq_lt by done. cbn. unfold _inplace_partners.
  apply filter_iff_in. intros j Hj%elem_of_seq. rewrite <- !Hd by lia. done.
Qed.

Lemma overlap_list_eq i : (i < n)%nat ->
  default [] (st_overlap st !! i) = filter (fun c => c <> i /\ r_overlaps bufs i c = true) (seq 0 n).
Proof.
  intros Hi. unfold build_static. destruct (BuildIntervalData _ _) as [[k total] ivs]. cbn [st_overlap].
  rewrite list_lookup_fmap, lookup_seq_lt by done. cbn. apply filter_iff_in. intros j Hj%elem_of_seq.
  destruct (lookup_lt_is_Some_2 bufs i Hi) as [b Hb]. destruct (lookup_lt_is_Some_2 bufs j) as [c Hc]; [lia|].
  unfold r_overlaps, zat, overlaps_in_time. rewrite !list_lookup_fmap, Hb, Hc. cbn. rewrite andb_true_iff, !Z.ltb_lt. tauto.
Qed.
End static.

(** ** Decisions *)

Lemma zat_nonneg l i : Forall (fun x => 0 <= x) l -> 0 <= zat l i.
Proof. intros H. unfold zat. destruct (l !! i) eqn:E; [|done]. exact (Forall_lookup_1 _ _ _ _ H E). Qed.

Lemma list_find_same {A} (P Q : A -> Prop) `{HP : !forall x, Decision (P x)} `{HQ : !forall x, Decision (Q x)} (l : list A) :
  (forall x, x ∈ l -> P x <-> Q x) -> list_find P l = list_find Q l.
Proof.
  induction l as [|x l IH]; intros H; [done|]. cbn [list_find]. rewrite IH by (intros y Hy; apply H; by right).
  specialize (H x ltac:(left)). destruct (decide (P x)), (decide (Q x)); tauto || done.
Qed.

Section decisions.
Context (bufs : list LifetimeBoundBuffer) (capacity al : Z) (sizes : list Z).
Context (Hsizes : Forall (fun x => 0 <= x) sizes).

(** The addresses a decision reads are not negative. *)
Definition grounded (A : nat -> option Z) (cands : list nat) : Prop := forall p, p ∈ cands -> 0 <= default 0 (A p).

Lemma tops_nonneg A cands : grounded A cands -> Forall (fun x => 0 <= x) (top sizes A <$> cands).
Proof.
  intros Hg. apply Forall_fmap, Forall_forall. intros p Hp. unfold top. pose proof (zat_nonneg sizes p Hsizes). specialize (Hg p Hp). cbn. lia.
Qed.

Lemma grounded_filter A cands q : grounded A cands -> grounded A (filter (fun p => p <> q) cands).
Proof. intros H p [_ Hp]%list_elem_of_filter. by apply H. Qed.

(** The tops a decision reads are within the room. *)
Definition topped (A : nat -> option Z) (cands : list nat) : Prop := forall p, p ∈ cands -> top sizes A p <= ROOM.

(** A partner whose slot the buffer may take. *)
Definition qualifies (A : nat -> option Z) (idx : nat) (cands : list nat) (p : nat) : Prop :=
  (let '(parent, child) := _in_place_pair bufs idx p in zat sizes child <= zat sizes parent) /\
  zmax 0 (top sizes A <$> filter (fun q => q <> p) cands) <= default 0 (A p).

#[export] Instance qualifies_dec A idx cands p : Decision (qualifies A idx cands p).
Proof. unfold qualifies. destruct (_in_place_pair bufs idx p). apply _. Defined.

Definition in_slot (A : nat -> option Z) (idx p : nat) : option Z :=
  if capacity <? default 0 (A p) + zat sizes idx then None else Some (default 0 (A p)).

Lemma drop_into_find A idx cands l :
  grounded A cands ->
  drop_into bufs capacity sizes A idx cands l = in_slot A idx <$> (snd <$> list_find (qualifies A idx cands) l).
Proof.
  intros Hg. induction l as [|p l IH]; [done|]. cbn [drop_into list_find]. rewrite IH. clear IH. unfold in_slot.
  rewrite list_max_zmax by (by apply tops_nonneg, grounded_filter).
  destruct (decide (qualifies A idx cands p)) as [[Hs Ht]|Hn].
  - destruct (_in_place_pair bufs idx p) as [parent child]. rewrite (proj2 (Z.leb_le _ _) Hs), (proj2 (Z.leb_le _ _) Ht). done.
  - unfold qualifies in Hn. destruct (_in_place_pair bufs idx p) as [parent child].
    assert ((snd <$> (prod_map S id <$> list_find (qualifies A idx cands) l)) = (snd <$> list_find (qualifies A idx cands) l)) as ->.
    { by destruct (list_find _ l) as [[]|]. }
    destruct (Z.leb_spec (zat sizes child) (zat sizes parent)); [|done].
    destruct (Z.leb_spec (zmax 0 (top sizes A <$> filter (fun q => q <> p) cands)) (default 0 (A p))); [|done]. cbn. tauto.
Qed.

(** Two partners that both qualify sit at the same address. *)
Lemma qualifies_same A idx cands p q :
  p ∈ cands -> q ∈ cands -> qualifies A idx cands p -> qualifies A idx cands q -> default 0 (A p) = default 0 (A q).
Proof.
  intros Hp Hq [_ H1] [_ H2]. destruct (decide (p = q)) as [->|Hne]; [done|].
  apply zmax_le in H1 as [_ H1]. apply zmax_le in H2 as [_ H2]. rewrite Forall_fmap, Forall_forall in H1, H2.
  specialize (H1 q). specialize (H2 p). cbn in H1, H2. unfold top in H1, H2.
  assert (default 0 (A q) + zat sizes q <= default 0 (A p)) by (apply H1, list_elem_of_filter; by split).
  assert (default 0 (A p) + zat sizes p <= default 0 (A q)) by (apply H2, list_elem_of_filter; by split).
  pose proof (zat_nonneg sizes p Hsizes). pose proof (zat_nonneg sizes q Hsizes). lia.
Qed.

(** No iteration order of the partner set changes the decision. *)
Lemma partner_order_irrelevant A idx cands partners partners' :
  grounded A cands -> partners ≡ₚ partners' ->
  stack_decision bufs capacity al sizes A idx cands partners = stack_decision bufs capacity al sizes A idx cands partners'.
Proof.
  intros Hg Hp. unfold stack_decision. rewrite !drop_into_find by done.
  assert (filter (fun p => p ∈ cands) partners ≡ₚ filter (fun p => p ∈ cands) partners') as Hf by (by rewrite Hp).
  destruct (list_find (qualifies A idx cands) (filter (fun p => p ∈ cands) partners)) as [[i p]|] eqn:E1;
  destruct (list_find (qualifies A idx cands) (filter (fun p => p ∈ cands) partners')) as [[j q]|] eqn:E2; [| | |done].
  - cbn. apply list_find_Some in E1 as (H1%list_elem_of_lookup_2%list_elem_of_filter & Q1 & _).
    apply list_find_Some in E2 as (H2%list_elem_of_lookup_2%list_elem_of_filter & Q2 & _). unfold in_slot.
    by rewrite (qualifies_same A idx cands p q) by (tauto || done).
  - exfalso. apply list_find_Some in E1 as (H1%list_elem_of_lookup_2 & Q1 & _). apply list_find_None in E2.
    rewrite Forall_forall in E2. apply (E2 p); [by rewrite <- Hf | done].
  - exfalso. apply list_find_Some in E2 as (H2%list_elem_of_lookup_2 & Q2 & _). apply list_find_None in E1.
    rewrite Forall_forall in E1. apply (E1 q); [by rewrite Hf | done].
Qed.

(** A decision depends on the candidates as a set and on their addresses. *)
Lemma placement_decision_ext A A' idx cands cands' :
  cands ≡ₚ cands' -> (forall p, p ∈ cands -> A p = A' p) -> grounded A cands ->
  _placement_decision bufs capacity al sizes A idx cands = _placement_decision bufs capacity al sizes A' idx cands'.
Proof.
  intros Hp HA Hg. unfold _placement_decision. destruct cands as [|c cands0].
  { apply Permutation_nil in Hp as ->. done. }
  destruct cands' as [|c' cands0']; [by apply Permutation_sym, Permutation_nil in Hp|].
  set (cands := c :: cands0) in *. set (cands' := c' :: cands0') in *.
  assert (existsb (fun p => bool_decide (A p = None)) cands = existsb (fun p => bool_decide (A' p = None)) cands') as ->.
  { apply eq_true_iff_eq. rewrite !existsb_exists. split; intros (p & Hin & H); exists p; apply list_elem_of_In in Hin.
    - rewrite <- HA by done. split; [|done]. apply list_elem_of_In. by rewrite <- Hp.
    - rewrite <- Hp in Hin. rewrite HA by done. split; [by apply list_elem_of_In | done]. }
  assert (grounded A' cands') as Hg'.
  { intros p Hin. rewrite <- Hp in Hin. rewrite <- HA by done. by apply Hg. }
  assert (forall l : list nat, (forall p, p ∈ l -> p ∈ cands) -> top sizes A <$> l = top sizes A' <$> l) as Htop.
  { intros l Hl. apply list_fmap_ext. intros i p Hi%list_elem_of_lookup_2. unfold top. by rewrite HA by auto. }
  case_match; [done|]. unfold stack_decision. rewrite !drop_into_find by done.
  rewrite !list_max_zmax by (by apply tops_nonneg). rewrite (Htop cands) by done.
  assert (zmax 0 (top sizes A' <$> cands) = zmax 0 (top sizes A' <$> cands')) as -> by (by rewrite Hp).
  assert (filter (fun p => p ∈ cands) (_inplace_partners bufs idx) = filter (fun p => p ∈ cands') (_inplace_partners bufs idx)) as He.
  { apply filter_iff_in. intros p _. by rewrite Hp. }
  rewrite <- He.
  assert (list_find (qualifies A idx cands) (filter (fun p => p ∈ cands) (_inplace_partners bufs idx)) =
          list_find (qualifies A' idx cands') (filter (fun p => p ∈ cands) (_inplace_partners bufs idx))) as Hf.
  { apply list_find_same. intros p Hin%list_elem_of_filter. unfold qualifies. rewrite <- (HA p) by tauto.
    rewrite <- (Hp : cands ≡ₚ cands'). rewrite Htop; [done|]. intros q [_ Hq]%list_elem_of_filter. done. }
  rewrite Hf. destruct (list_find (qualifies A' idx cands') _) as [[i p]|] eqn:E; [|done]. cbn.
  apply list_find_Some in E as (H1%list_elem_of_lookup_2%list_elem_of_filter & _). unfold in_slot. by rewrite HA by tauto.
Qed.
End decisions.

(** ** Committing intervals *)

Lemma cnt_insert {A} (P : A -> Prop) `{!forall x, Decision (P x)} (l : list A) i x y :
  l !! i = Some x ->
  cnt P (<[i := y]> l) = cnt P l - (if decide (P x) then 1 else 0) + (if decide (P y) then 1 else 0).
Proof.
  revert i. induction l as [|z l IH]; intros [|i] Hi; cbn in Hi; [done | done | |].
  - injection Hi as ->. change (<[0%nat := y]> (x :: l)) with (y :: l). rewrite !cnt_cons. lia.
  - change (<[S i := y]> (z :: l)) with (z :: <[i := y]> l). rewrite !cnt_cons, (IH i) by done. lia.
Qed.

Section commit.
Context (total_at : list Z) (set_none : bool) (top : Z).

Definition commit_cell (t : nat) (c : cell) : cell :=
  let placed := placed_at c + 1 in
  let none := if set_none then true else has_none_at c in
  let max_top := if set_none then max_top_at c else Z.max (max_top_at c) top in
  mkCell placed none (done_at c || (none || (placed =? zat total_at t))) max_top.

Definition undone (cells : list cell) : Z := cnt (fun c => done_at c = false) cells.

Lemma commit_at_spec s t :
  s.2 = undone s.1 ->
  (commit_at total_at set_none top s t).1 = alter (commit_cell t) t s.1 /\
  (commit_at total_at set_none top s t).2 = undone (commit_at total_at set_none top s t).1.
Proof.
  intros Hs. unfold commit_at. destruct (s.1 !! t) as [c|] eqn:Hc.
  - assert (alter (commit_cell t) t s.1 = <[t := commit_cell t c]> s.1) as ->.
    { apply list_eq. intros u. destruct (decide (u = t)) as [->|Hne].
      - rewrite list_lookup_alter_eq, Hc. cbn. by rewrite list_lookup_insert_eq by (by eapply lookup_lt_Some).
      - by rewrite list_lookup_alter_ne, list_lookup_insert_ne by done. }
    unfold commit_cell. assert ((if max_top_at c <? top then top else max_top_at c) = Z.max (max_top_at c) top) as ->
      by (destruct (Z.ltb_spec (max_top_at c) top); lia).
    set (none := if set_none then true else has_none_at c). set (mx := if set_none then _ else _).
    destruct (done_at c) eqn:Hd; cbn [negb andb orb].
    + cbn [fst snd]. split; [done|]. unfold undone. rewrite (cnt_insert _ _ _ c) by done. rewrite Hd. cbn [done_at].
      unfold undone in Hs. repeat case_decide; try done; lia.
    + destruct (none || (placed_at c + 1 =? zat total_at t)); cbn [fst snd]; (split; [done|]); unfold undone;
        rewrite (cnt_insert _ _ _ c) by done; rewrite Hd; cbn [done_at]; unfold undone in Hs; repeat case_decide; try done; lia.
  - split; [|done]. apply list_eq. intros u. destruct (decide (u = t)) as [->|Hne].
    + by rewrite list_lookup_alter_eq, Hc.
    + by rewrite list_lookup_alter_ne by done.
Qed.

Lemma commit_intervals_spec iv s :
  s.2 = undone s.1 ->
  let s' := CommitIntervals total_at iv set_none top s in
  s'.2 = undone s'.1 /\ length s'.1 = length s.1 /\
  forall t, s'.1 !! t = (if decide (iv.1 <= t < iv.2)%nat then commit_cell t else id) <$> s.1 !! t.
Proof.
  intros Hs. unfold CommitIntervals.
  assert (forall m lo s, s.2 = undone s.1 ->
    let s' := foldl (commit_at total_at set_none top) s (seq lo m) in
    s'.2 = undone s'.1 /\ length s'.1 = length s.1 /\
    forall t, s'.1 !! t = (if decide (lo <= t < lo + m)%nat then commit_cell t else id) <$> s.1 !! t) as Hgen.
  { clear. induction m as [|m IH]; intros lo s Hs; cbn [seq foldl].
    - cbn zeta. split_and!; [done | done |]. intros t. rewrite decide_False by lia. by destruct (s.1 !! t).
    - destruct (commit_at_spec s lo Hs) as [H1 H2]. destruct (IH (S lo) _ H2) as (I1 & I2 & I3). cbn zeta. split_and!; [done | |].
      + rewrite I2, H1. apply length_alter.
      + intros t. rewrite I3, H1. destruct (decide (t = lo)) as [->|Hne].
        * rewrite list_lookup_alter_eq. rewrite decide_False by lia. rewrite decide_True by lia. by destruct (s.1 !! lo).
        * rewrite list_lookup_alter_ne by done. do 2 case_decide; try lia; done. }
  destruct (Hgen (iv.2 - iv.1)%nat iv.1 s Hs) as (I1 & I2 & I3). cbn zeta. split_and!; [done | done |].
  intros t. rewrite I3. do 2 case_decide; try lia; done.
Qed.
End commit.

(** ** The native run follows the reference run *)

Lemma floor_of_spec l : forall m,
  floor_of l m = if existsb has_none_at l then None else Some (zmax m (max_top_at <$> l)).
Proof.
  induction l as [|c l IH]; intros m; [done|]. cbn [floor_of existsb]. destruct (has_none_at c); [done|]. cbn [orb].
  rewrite IH. case_match; [done|]. f_equal. rewrite fmap_cons, <- !foldl_zmax. done.
Qed.

Section simulation.
Context (bufs : list LifetimeBoundBuffer) (capacity al : Z) (sizes : list Z) (eligible : list bool).
Context (perm position : list nat).
Context (Hlive : Forall (fun b => start_time b < end_time b) bufs) (Hnames : NoDup (buf_name <$> bufs)).
Context (Hal : 0 < al) (Hsizes : Forall (fun x => 0 <= x) sizes).
Context (Hcap : capacity <= ROOM) (Halign : al <= ROOM) (Hfit : Forall (fun x => x <= ROOM) sizes).
Context (Hperm : perm ≡ₚ seq 0 (length bufs)).
Context (Hpos : forall i x, perm !! i = Some x -> position !! x = Some i).

#[local] Notation n := (length bufs).
#[local] Notation st := (build_static bufs capacity al).
#[local] Notation live := (alive bufs capacity al).
#[local] Notation elig p := (flag eligible p = true).
#[local] Notation decision A := (_placement_decision bufs capacity al sizes A).
#[local] Notation cands := (candidates_of bufs eligible).

Definition view (s : scan) (p : nat) : option Z := if flag (s_allocated s) p then Some (zat (s_addr s) p) else None.

Record cell_ok (prior : list nat) (A : nat -> option Z) (t : nat) (c : cell) : Prop := {
  ok_placed : placed_at c = cnt (fun p => live p t) prior;
  ok_none : has_none_at c = true <-> exists p, p ∈ prior /\ elig p /\ live p t /\ A p = None;
  ok_top : max_top_at c = zmax 0 (top sizes A <$> filter (fun p => elig p /\ live p t /\ A p <> None) prior);
  ok_done : done_at c = true -> has_none_at c = true \/ placed_at c = zat (st_total_at st) t
}.

Record cells_ok (prior : list nat) (A : nat -> option Z) (cells : list cell) (not_done : Z) : Prop := {
  cells_length : length cells = length (st_total_at st);
  cells_each : forall t c, cells !! t = Some c -> cell_ok prior A t c;
  cells_undone : not_done = undone cells
}.

(** Sums of an address below the room and a size stay in an [int64_t]. *)
Lemma sum_exact a i : 0 <= a <= 2 ^ 62 -> wrap64 (a + zat sizes i) = a + zat sizes i.
Proof.
  intros Ha. apply wrap64_exact. pose proof (zat_nonneg sizes i Hsizes).
  assert (zat sizes i <= ROOM); [|unfold ROOM in *; lia].
  unfold zat. destruct (sizes !! i) as [x|] eqn:E; [exact (Forall_lookup_1 _ _ _ _ Hfit E) | done].
Qed.

Lemma align_room a : 0 <= a <= ROOM -> AlignUp al a = _align_up al a /\ 0 <= _align_up al a <= 2 ^ 62.
Proof.
  intros Ha. split; [by apply AlignUp_align_up|]. destruct (aligned_up_spec al a Hal) as [? _]. unfold ROOM in *. lia.
Qed.

(** The checks at the end of a decision. *)
Lemma placed_exact a idx : 0 <= a <= 2 ^ 62 ->
  (if capacity <? wrap64 (a + zat sizes idx) then None else Some a) = (if capacity <? a + zat sizes idx then None else Some a).
Proof. intros Ha. by rewrite sum_exact. Qed.

Lemma stacked_exact m idx : 0 <= m <= ROOM ->
  (if capacity <? wrap64 (AlignUp al m + zat sizes idx) then None else Some (AlignUp al m)) =
  (if capacity <? _align_up al m + zat sizes idx then None else Some (_align_up al m)).
Proof. intros Hm. destruct (align_room m Hm) as [-> Ha]. by apply placed_exact. Qed.

Lemma tops_room A cand : grounded A cand -> topped sizes A cand -> 0 <= zmax 0 (top sizes A <$> cand) <= ROOM.
Proof.
  intros Hg Ht. split; [apply zmax_ge|]. apply zmax_le. split; [done|]. apply Forall_fmap, Forall_forall. intros p Hp. by apply Ht.
Qed.

Lemma slot_room A cand p : p ∈ cand -> grounded A cand -> topped sizes A cand -> 0 <= default 0 (A p) <= 2 ^ 62.
Proof.
  intros Hp Hg Ht. specialize (Hg p Hp). specialize (Ht p Hp). unfold top in Ht. pose proof (zat_nonneg sizes p Hsizes). unfold ROOM in *. lia.
Qed.

Lemma native_decision s idx cand :
  (idx < n)%nat -> grounded (view s) cand -> topped sizes (view s) cand ->
  PlaceDecision st sizes (s_addr s) (s_allocated s) idx cand = decision (view s) idx cand.
Proof.
  intros Hi Hg Htp. unfold PlaceDecision, _placement_decision.
  destruct (static_fields bufs capacity al) as (k & total & ivs & _ & _ & _ & _ & -> & -> & _). destruct cand as [|c cand0]; [done|].
  set (cand := c :: cand0) in *.
  assert (existsb (fun p => negb (flag (s_allocated s) p)) cand = existsb (fun p => bool_decide (view s p = None)) cand) as ->.
  { clear. induction cand as [|p l IH]; [done|]. cbn [existsb]. rewrite IH. f_equal. unfold view.
    by destruct (flag (s_allocated s) p). }
  destruct (existsb _ cand) eqn:E; [done|].
  assert (forall p, p ∈ cand -> default 0 (view s p) = zat (s_addr s) p) as Hv.
  { intros p Hp. unfold view. destruct (flag (s_allocated s) p) eqn:Ep; [done|]. exfalso.
    rewrite <- not_true_iff_false in E. apply E. apply existsb_exists. exists p. split; [by apply list_elem_of_In|].
    apply bool_decide_eq_true. unfold view. by rewrite Ep. }
  assert (forall l : list nat, (forall p, p ∈ l -> p ∈ cand) ->
    (fun p => wrap64 (zat (s_addr s) p + zat sizes p)) <$> l = top sizes (view s) <$> l) as Htop.
  { intros l Hl. apply list_fmap_ext. intros i p Hp%list_elem_of_lookup_2%Hl. unfold top. rewrite Hv by done.
    rewrite sum_exact; [done|]. rewrite <- Hv by done. by eapply slot_room. }
  unfold stack_decision. rewrite (partners_eq bufs capacity al Hnames idx Hi).
  assert (try_partners st sizes (s_addr s) idx cand (_inplace_partners bufs idx) =
    drop_into bufs capacity sizes (view s) idx cand (filter (fun p => p ∈ cand) (_inplace_partners bufs idx))) as ->.
  { induction (_inplace_partners bufs idx) as [|p l IH]; [done|]. cbn [try_partners]. rewrite filter_cons.
    rewrite IH. clear IH. destruct (decide (p ∈ cand)) as [Hp|Hp].
    - rewrite bool_decide_eq_true_2 by done. cbn [negb drop_into]. rewrite (in_place_pair_eq bufs capacity al Hnames) by done.
      destruct (_in_place_pair bufs idx p) as [parent child].
      destruct (Z.ltb_spec (zat sizes parent) (zat sizes child)), (Z.leb_spec (zat sizes child) (zat sizes parent)); try lia; [done|].
      cbn [negb].
      rewrite foldl_max_skip, Htop by (intros q [_ Hq]%list_elem_of_filter; done).
      rewrite list_max_zmax by (by apply tops_nonneg, grounded_filter). rewrite sum_exact by (rewrite <- Hv by done; by eapply slot_room).
      rewrite Hv by done. by destruct (static_fields bufs capacity al) as (k' & total' & ivs' & _ & _ & _ & _ & -> & _).
    - by rewrite bool_decide_eq_false_2 by done. }
  destruct (drop_into _ _ _ _ _ _ _); [done|]. rewrite foldl_max_fmap, Htop by done.
  rewrite list_max_zmax by (by apply tops_nonneg).
  rewrite (zmax_start 0 (- 2 ^ 63)); [|done | by apply tops_nonneg | lia].
  by apply stacked_exact, tops_room.
Qed.

Lemma r_overlaps_shares i j : (i < n)%nat -> (j < n)%nat -> r_overlaps bufs i j = true <-> exists t, live i t /\ live j t.
Proof.
  intros Hi Hj. destruct (lookup_lt_is_Some_2 bufs i Hi) as [b Hb]. destruct (lookup_lt_is_Some_2 bufs j Hj) as [c Hc].
  unfold r_overlaps. rewrite Hb, Hc. by apply overlap_shares.
Qed.

Lemma live_bound i t : (i < n)%nat -> live i t -> (t < length (st_total_at st))%nat.
Proof.
  intros Hi [_ Ht]. destruct (lookup_lt_is_Some_2 bufs i Hi) as [b Hb].
  destruct (interval_spec bufs capacity al Hlive i b Hb) as [_ H]. lia.
Qed.

Lemma live_somewhere i : (i < n)%nat -> exists t, live i t.
Proof.
  intros Hi. destruct (lookup_lt_is_Some_2 bufs i Hi) as [b Hb].
  destruct (interval_spec bufs capacity al Hlive i b Hb) as [_ H]. exists (interval bufs capacity al i).1. unfold alive. lia.
Qed.

Lemma elem_of_cands prior idx p : p ∈ cands prior idx <-> p ∈ prior /\ r_overlaps bufs idx p = true /\ elig p.
Proof. unfold candidates_of. rewrite list_elem_of_filter. tauto. Qed.

(** The fast path reads the decision off the intervals. *)
Lemma fast_decision_eq prior A cells nd idx :
  (idx < n)%nat -> (forall p, p ∈ prior -> (p < n)%nat) -> cells_ok prior A cells nd -> grounded A prior -> topped sizes A prior ->
  _inplace_partners bufs idx = [] ->
  fast_decision st sizes cells idx = decision A idx (cands prior idx).
Proof.
  intros Hi Hprior Hok Hg Htp Hpart. unfold fast_decision. destruct (static_fields bufs capacity al) as (k & total & ivs & _ & _ & _ & _ & -> & -> & _).
  fold (interval bufs capacity al idx). set (iv := interval bufs capacity al idx). rewrite floor_of_spec.
  set (sub := take (iv.2 - iv.1) (drop iv.1 cells)).
  assert (forall c, c ∈ sub <-> exists t, live idx t /\ cells !! t = Some c) as Hsub.
  { intros c. unfold sub. rewrite list_elem_of_lookup. split.
    - intros [i H]. apply lookup_take_Some in H as [H Hlt]. rewrite lookup_drop in H. exists (iv.1 + i)%nat. split; [|done].
      unfold alive. fold iv. lia.
    - intros (t & Ht & Hc). unfold alive in Ht. fold iv in Ht. exists (t - iv.1)%nat. rewrite lookup_take_lt by lia. rewrite lookup_drop.
      by replace (iv.1 + (t - iv.1))%nat with t by lia. }
  assert (forall t, live idx t -> exists c, cells !! t = Some c /\ c ∈ sub /\ cell_ok prior A t c) as Hcell.
  { intros t Ht. destruct (lookup_lt_is_Some_2 cells t) as [c Hc].
    - rewrite (cells_length _ _ _ _ Hok). by apply (live_bound idx).
    - exists c. split_and!; [done | apply Hsub; eauto | by eapply cells_each]. }
  assert (existsb has_none_at sub = existsb (fun p => bool_decide (A p = None)) (cands prior idx)) as Hnone.
  { apply eq_true_iff_eq. rewrite !existsb_exists. split.
    - intros (c & Hc%list_elem_of_In & Hn). apply Hsub in Hc as (t & Ht & Hc). pose proof (cells_each _ _ _ _ Hok t c Hc) as Hco.
      apply (ok_none _ _ _ _ Hco) in Hn as (p & Hp & He & Hl & Ha). exists p. split; [|by apply bool_decide_eq_true].
      apply list_elem_of_In, elem_of_cands. split_and!; [done | | done]. apply r_overlaps_shares; eauto.
    - intros (p & (Hp & Ho & He)%list_elem_of_In%elem_of_cands & Ha%bool_decide_eq_true).
      apply r_overlaps_shares in Ho as (t & H1 & H2); [|done | by apply Hprior]. destruct (Hcell t H1) as (c & Hc & Hin & Hco).
      exists c. split; [by apply list_elem_of_In|]. apply (ok_none _ _ _ _ Hco). eauto. }
  rewrite Hnone. unfold _placement_decision.
  assert (grounded A (cands prior idx)) as Hgc by (intros p Hp%elem_of_cands; apply Hg; tauto).
  assert (existsb (fun p => bool_decide (A p = None)) (cands prior idx) = false ->
    zmax 0 (max_top_at <$> sub) = zmax 0 (top sizes A <$> cands prior idx)) as Hmax.
  { intros Hno. apply Z.le_antisymm; apply zmax_le; (split; [apply zmax_ge|]); apply Forall_fmap, Forall_forall.
    - intros c Hc. apply Hsub in Hc as (t & Ht & Hc). pose proof (cells_each _ _ _ _ Hok t c Hc) as Hco. cbn.
      rewrite (ok_top _ _ _ _ Hco). apply zmax_le. split; [apply zmax_ge|]. apply Forall_fmap, Forall_forall.
      intros p [(He & Hl & Ha) Hp]%list_elem_of_filter. cbn.
      pose proof (proj1 (zmax_le 0 (top sizes A <$> cands prior idx) _) (Z.le_refl _)) as [_ Hall]. rewrite Forall_fmap, Forall_forall in Hall.
      apply Hall, elem_of_cands. split_and!; [done | | done]. apply r_overlaps_shares; eauto.
    - intros p Hp. cbn. pose proof Hp as Hp'. apply elem_of_cands in Hp as (Hp & Ho & He).
      apply r_overlaps_shares in Ho as (t & H1 & H2); [|done | by apply Hprior]. destruct (Hcell t H1) as (c & Hc & Hin & Hco).
      pose proof (proj1 (zmax_le 0 (max_top_at <$> sub) _) (Z.le_refl _)) as [_ Hall]. rewrite Forall_fmap, Forall_forall in Hall.
      specialize (Hall c Hin). cbn in Hall. rewrite (ok_top _ _ _ _ Hco) in Hall. apply zmax_le in Hall as [_ Hall].
      rewrite Forall_fmap, Forall_forall in Hall. apply Hall, list_elem_of_filter. split_and!; [done | done | | done].
      intros Ha. rewrite <- not_true_iff_false in Hno. apply Hno, existsb_exists. exists p. split; [by apply list_elem_of_In|].
      by apply bool_decide_eq_true. }
  destruct (cands prior idx) as [|c0 l0] eqn:Ec.
  - rewrite Hmax by done. cbn [existsb]. rewrite stacked_exact by (cbn; unfold ROOM; lia). by change (zmax 0 _) with 0.
  - destruct (existsb _ (c0 :: l0)) eqn:Ee; [done|]. rewrite Hmax by done. unfold stack_decision. rewrite Hpart. cbn [filter drop_into].
    rewrite list_max_zmax by (by apply tops_nonneg). apply stacked_exact, tops_room; [done|]. intros p Hp. apply Htp.
    rewrite <- Ec in Hp. apply elem_of_cands in Hp. tauto.
Qed.

Lemma filter_single {B} (P : B -> Prop) `{HP : !forall x, Decision (P x)} (x : B) :
  filter P [x] = if decide (P x) then [x] else [].
Proof. by rewrite filter_cons, filter_nil. Qed.

Lemma cnt_app {B} (P : B -> Prop) `{HP : !forall x, Decision (P x)} (l k : list B) : cnt P (l ++ k) = cnt P l + cnt P k.
Proof. unfold cnt. rewrite filter_app, length_app. lia. Qed.

(** A live buffer that is not placed yet leaves room in its intervals. *)
Lemma placed_lt_total prior idx t :
  NoDup prior -> (forall p, p ∈ prior -> (p < n)%nat) -> idx ∉ prior -> (idx < n)%nat -> live idx t ->
  cnt (fun p => live p t) prior < zat (st_total_at st) t.
Proof.
  intros Hnd Hlt Hni Hi Ht. rewrite (total_counts bufs capacity al Hlive) by (by apply (live_bound idx)).
  unfold cnt. assert (S (length (filter (fun p => live p t) prior)) <= length (filter (fun i => live i t) (seq 0 n)))%nat; [|lia].
  change (S (length (filter (fun p => live p t) prior))) with (length (idx :: filter (fun p => live p t) prior)).
  apply submseteq_length, NoDup_submseteq.
  - apply NoDup_cons. split; [intros [_ H]%list_elem_of_filter; done | by apply NoDup_filter].
  - intros p [->|[Hl Hp]%list_elem_of_filter]%elem_of_cons; apply list_elem_of_filter, conj; try done; apply elem_of_seq; [lia|].
    specialize (Hlt p Hp). lia.
Qed.

Lemma zmax_snoc d l x : zmax d (l ++ [x]) = Z.max (zmax d l) x.
Proof. rewrite <- !foldl_zmax, foldl_app. done. Qed.

(** Committing a decision keeps the aggregates right. *)
Lemma commit_ok prior A A' cells nd idx set_none tp :
  cells_ok prior A cells nd -> NoDup prior -> (forall p, p ∈ prior -> (p < n)%nat) -> idx ∉ prior -> (idx < n)%nat ->
  (forall p, p ∈ prior -> A' p = A p) ->
  set_none = flag eligible idx && bool_decide (A' idx = None) ->
  (elig idx -> A' idx <> None -> tp = top sizes A' idx) ->
  (elig idx -> A' idx = None -> tp = -1) -> (~ elig idx -> tp = -1) ->
  let s' := CommitIntervals (st_total_at st) (interval bufs capacity al idx) set_none tp (cells, nd) in
  cells_ok (prior ++ [idx]) A' s'.1 s'.2.
Proof.
  intros [Hl He Hu] Hnd Hlt Hni Hi HA Hsn Htp1 Htp2 Htp3. cbn zeta.
  destruct (commit_intervals_spec (st_total_at st) set_none tp (interval bufs capacity al idx) (cells, nd) Hu) as (H1 & H2 & H3).
  cbn [fst snd] in *. split; [congruence | | done]. intros t c' Hc'. rewrite H3 in Hc'.
  destruct (cells !! t) as [c|] eqn:Hc; [|by case_decide]. destruct (He t c Hc) as [P1 P2 P3 P4].
  assert (top sizes A <$> filter (fun p => elig p /\ live p t /\ A p <> None) prior =
          top sizes A' <$> filter (fun p => elig p /\ live p t /\ A' p <> None) prior) as Hfilter.
  { rewrite (filter_iff_in (fun p => elig p /\ live p t /\ A p <> None) (fun p => elig p /\ live p t /\ A' p <> None))
      by (intros p Hp; by rewrite HA). apply list_fmap_ext. intros j p [_ Hp]%list_elem_of_lookup_2%list_elem_of_filter.
    unfold top. by rewrite HA. }
  assert ((exists p, p ∈ prior ++ [idx] /\ elig p /\ live p t /\ A' p = None) <->
    (exists p, p ∈ prior /\ elig p /\ live p t /\ A p = None) \/ (elig idx /\ live idx t /\ A' idx = None)) as Hex.
  { split.
    - intros (p & [Hp | ->%list_elem_of_singleton]%elem_of_app & Hp1 & Hp2 & Hp3); [|by right]. left. exists p. by rewrite <- HA.
    - intros [(p & Hp & Hp1 & Hp2 & Hp3)|Hx]; [exists p | exists idx]; rewrite elem_of_app, list_elem_of_singleton; [|tauto].
      rewrite HA by done. tauto. }
  change ((interval bufs capacity al idx).1 <= t < (interval bufs capacity al idx).2)%nat with (live idx t) in Hc'.
  case_decide as Hlive'; cbn in Hc'; injection Hc' as <-.
  - assert (cnt (fun p => live p t) (prior ++ [idx]) = cnt (fun p => live p t) prior + 1) as Hcnt.
    { rewrite cnt_app, cnt_cons, decide_True by done. unfold cnt at 2. simpl. lia. }
    split; unfold commit_cell; cbn [placed_at has_none_at max_top_at done_at].
    + lia.
    + rewrite Hex, <- P2. subst set_none. destruct (flag eligible idx) eqn:Ee; cbn [andb].
      * destruct (A' idx) eqn:Ea; [|rewrite bool_decide_eq_true_2 by done; tauto]. rewrite bool_decide_eq_false_2 by done. naive_solver.
      * naive_solver.
    + rewrite filter_app, fmap_app, <- Hfilter. rewrite P3. subst set_none.
      destruct (flag eligible idx) eqn:Ee; cbn [andb].
      * destruct (A' idx) as [a|] eqn:Ea.
        -- rewrite bool_decide_eq_false_2 by done. rewrite (Htp1 eq_refl) by done. rewrite filter_single, decide_True by (rewrite ?Ee, ?Ea; done).
           change (top sizes A' <$> [idx]) with [top sizes A' idx]. by rewrite zmax_snoc.
        -- rewrite bool_decide_eq_true_2 by done. rewrite filter_single, decide_False by (rewrite ?Ea; tauto). by rewrite app_nil_r.
      * rewrite filter_single, decide_False by (rewrite Ee; naive_solver). rewrite app_nil_r.
        rewrite (Htp3 ltac:(done)). pose proof (zmax_ge 0 (top sizes A <$> filter (fun p => elig p /\ live p t /\ A p <> None) prior)). lia.
    + pose proof (placed_lt_total prior idx t Hnd Hlt Hni Hi Hlive') as Hroom. rewrite !orb_true_iff, Z.eqb_eq.
      intros [Hd|[Hd|Hd]]; [|by left | by right]. destruct (P4 Hd) as [Hn|Hn]; [|lia]. left. destruct set_none; done.
  - assert (cnt (fun p => live p t) (prior ++ [idx]) = cnt (fun p => live p t) prior) as Hcnt.
    { rewrite cnt_app, cnt_cons, decide_False by done. unfold cnt at 2. simpl. lia. }
    split; cbn [id].
    + congruence.
    + rewrite Hex, <- P2. tauto.
    + rewrite filter_app, fmap_app, <- Hfilter, filter_single, decide_False by tauto. by rewrite app_nil_r.
    + done.
Qed.

Lemma decision_nonneg A idx cand a :
  grounded A cand -> decision A idx cand = Some a -> 0 <= a.
Proof.
  intros Hg. unfold _placement_decision. destruct cand as [|c l]; [case_match; [done | intros [= <-]; lia]|].
  case_match; [done|]. unfold stack_decision. rewrite drop_into_find by done.
  rewrite list_max_zmax by (by apply tops_nonneg).
  destruct (list_find _ _) as [[i p]|] eqn:E.
  - apply list_find_Some in E as (H1%list_elem_of_lookup_2%list_elem_of_filter & _). cbn. unfold in_slot.
    case_match; [done|]. intros [= <-]. apply Hg; tauto.
  - change (in_slot capacity sizes A idx <$> (snd <$> None)) with (@None (option Z)). cbv iota. case_match; [done|]. intros [= <-].
    destruct (aligned_up_spec al (zmax 0 (top sizes A <$> (c :: l))) Hal) as [[Hup _] _].
    exact (Z.le_trans _ _ _ (zmax_ge 0 _) Hup).
Qed.

(** What is placed ends within the capacity, so every top is within the room. *)
Lemma decision_within A idx cand a : decision A idx cand = Some a -> a + zat sizes idx <= capacity.
Proof.
  assert (forall x : Z, (if capacity <? x + zat sizes idx then None else Some x) = Some a -> a + zat sizes idx <= capacity) as Hcheck.
  { intros x. case_match; [done|]. intros [= <-]. lia. }
  unfold _placement_decision. destruct cand as [|c l]; [exact (Hcheck 0)|]. case_match; [done|]. unfold stack_decision.
  destruct (drop_into bufs capacity sizes A idx (c :: l) _) as [r|] eqn:E; [|apply Hcheck]. intros ->.
  induction (filter _ _) as [|p ps IH]; cbn [drop_into] in E; [done|]. destruct (_in_place_pair bufs idx p) as [parent child].
  case_match; [by apply IH|]. case_match; [|by apply IH]. injection E as E. by apply Hcheck in E.
Qed.

Lemma top_room A idx : (forall a, A idx = Some a -> a + zat sizes idx <= capacity) -> top sizes A idx <= ROOM.
Proof.
  intros H. unfold top. destruct (A idx) as [a|]; cbn; [specialize (H a eq_refl); lia|].
  unfold zat. destruct (sizes !! idx) as [x|] eqn:E; [exact (Forall_lookup_1 _ _ _ _ Hfit E) | done].
Qed.

Lemma gather_candidates prior idx rest :
  perm = prior ++ idx :: rest ->
  GatherCandidates st position eligible idx (length prior) ≡ₚ cands prior idx.
Proof.
  intros Hsplit. assert (NoDup perm) as Hnd by (rewrite Hperm; apply NoDup_seq).
  assert (forall x, x ∈ perm <-> (x < n)%nat) as Hin by (intros x; rewrite Hperm, elem_of_seq; lia).
  assert (idx < n)%nat as Hi by (apply Hin; rewrite Hsplit; set_solver).
  assert (forall w, (w < n)%nat -> (default 0%nat (position !! w) < length prior)%nat <-> w ∈ prior) as Hposw.
  { intros w Hw. apply Hin in Hw as [i Hw']%list_elem_of_lookup. pose proof (Hpos i w Hw') as Hp. rewrite Hp. cbn. split.
    - intros Hlt. rewrite Hsplit, lookup_app_l in Hw' by done. by eapply list_elem_of_lookup_2.
    - intros [j Hj]%list_elem_of_lookup. pose proof (lookup_lt_Some _ _ _ Hj) as Hjl.
      assert (i = j) as ->; [|done]. eapply (NoDup_lookup perm); [done | exact Hw' |]. rewrite Hsplit. by apply lookup_app_l_Some. }
  unfold GatherCandidates. rewrite (overlap_list_eq bufs capacity al idx Hi). apply NoDup_Permutation.
  - by apply NoDup_filter, NoDup_filter, NoDup_seq.
  - apply NoDup_filter. rewrite Hsplit in Hnd. by apply NoDup_app in Hnd as [H _].
  - intros w. rewrite elem_of_cands, !list_elem_of_filter, elem_of_seq. split.
    + intros ((H1 & H2) & (H3 & H4) & H5). rewrite Hposw in H1 by lia. done.
    + intros (H1 & H2 & H3). assert (w < n)%nat as Hw by (apply Hin; rewrite Hsplit; set_solver). split_and!; try done; try lia; [by apply Hposw|].
      intros ->. rewrite Hsplit in Hnd. apply NoDup_app in Hnd as (_ & Hd & _). apply (Hd idx H1). set_solver.
Qed.

Record inv (prior : list nat) (s : scan) (lay : layout) : Prop := {
  inv_addr : length (s_addr s) = n;
  inv_allocated : length (s_allocated s) = n;
  inv_addresses : length lay.1.1 = n;
  inv_agree : forall p, p ∈ prior -> view s p = addr_of lay.1.1 p;
  inv_quality : s_quality s = lay.1.2;
  inv_count : s_count s = lay.2;
  inv_grounded : grounded (addr_of lay.1.1) prior;
  inv_topped : topped sizes (addr_of lay.1.1) prior;
  inv_cells : cells_ok prior (addr_of lay.1.1) (s_cells s) (s_not_done s)
}.

Lemma addr_of_insert (l : list (option Z)) i v p : (i < length l)%nat ->
  addr_of (<[i := v]> l) p = if decide (p = i) then v else addr_of l p.
Proof.
  intros Hi. unfold addr_of. case_decide as H; [subst; by rewrite list_lookup_insert_eq | by rewrite list_lookup_insert_ne].
Qed.

(** The part of a step both packers share: the outcome [w] is recorded and committed. *)
Lemma record_outcome prior idx s lay w a b q c set_none tp :
  inv prior s lay -> NoDup prior -> (forall p, p ∈ prior -> (p < n)%nat) -> idx ∉ prior -> (idx < n)%nat ->
  length a = n -> (forall p, p <> idx -> zat a p = zat (s_addr s) p) -> (forall x, w = Some x -> 0 <= x /\ zat a idx = x) ->
  (forall x, w = Some x -> x + zat sizes idx <= capacity) ->
  b = <[idx := bool_decide (is_Some w)]> (s_allocated s) ->
  (flag eligible idx = false -> w = None) ->
  set_none = flag eligible idx && bool_decide (w = None) ->
  tp = match w with Some x => x + zat sizes idx | None => -1 end ->
  let commit := CommitIntervals (st_total_at st) (interval bufs capacity al idx) set_none tp (s_cells s, s_not_done s) in
  inv (prior ++ [idx]) (mkScan a b q c commit.1 commit.2) (<[idx := w]> lay.1.1, q, c).
Proof.
  intros [L1 L2 L3 Hag Hq Hc Hg Htops Hcells] Hnd Hlt Hni Hi La Ha Hw Hwithin -> Hel Hsn Htp. cbn zeta.
  assert (forall p, p ∈ prior -> p <> idx) as Hne by (intros p Hp ->; done).
  split; cbn [s_addr s_allocated s_quality s_count s_cells s_not_done fst snd]; [done | by rewrite length_insert | by rewrite length_insert | | done | done | | |].
  - intros p [Hp | ->%list_elem_of_singleton]%elem_of_app; unfold view; cbn [s_allocated s_addr]; rewrite addr_of_insert by congruence.
    + rewrite decide_False by auto. unfold flag. rewrite list_lookup_insert_ne by (intros ->; done). rewrite Ha by auto. by apply Hag.
    + rewrite decide_True by done. unfold flag. rewrite list_lookup_insert_eq by lia. cbn. destruct w as [x|]; [|done]. cbn.
      by destruct (Hw x eq_refl) as [_ ->].
  - intros p [Hp | ->%list_elem_of_singleton]%elem_of_app; rewrite addr_of_insert by congruence.
    + rewrite decide_False by auto. by apply Hg.
    + rewrite decide_True by done. destruct w as [x|]; cbn; [by apply Hw | lia].
  - intros p [Hp | ->%list_elem_of_singleton]%elem_of_app.
    + unfold top. rewrite addr_of_insert, decide_False by (congruence || auto). by apply Htops.
    + apply top_room. intros x. rewrite addr_of_insert, decide_True by congruence. apply Hwithin.
  - eapply commit_ok; [exact Hcells | done | done | done | done | | | | |].
    + intros p Hp. by rewrite addr_of_insert, decide_False by (congruence || auto).
    + by rewrite addr_of_insert, decide_True by congruence.
    + unfold top. rewrite addr_of_insert, decide_True by congruence. destruct w; [done|]. intros _ H. by destruct H.
    + rewrite addr_of_insert, decide_True by congruence. intros _ ->. done.
    + intros H. apply not_true_is_false in H. by rewrite Htp, (Hel H).
Qed.

Lemma step_facts prior idx rest :
  perm = prior ++ idx :: rest ->
  NoDup prior /\ (forall p, p ∈ prior -> (p < n)%nat) /\ idx ∉ prior /\ (idx < n)%nat.
Proof.
  intros Hsplit. assert (NoDup perm) as Hnd by (rewrite Hperm; apply NoDup_seq).
  assert (forall x, x ∈ perm <-> (x < n)%nat) as Hin by (intros x; rewrite Hperm, elem_of_seq; lia).
  rewrite Hsplit in Hnd. apply NoDup_app in Hnd as (Hnd & Hd & _). split_and!; [done | | | ].
  - intros p Hp. apply Hin. rewrite Hsplit. set_solver.
  - intros Hp. apply (Hd idx Hp). set_solver.
  - apply Hin. rewrite Hsplit. set_solver.
Qed.

(** Either way of deciding gives the reference's decision. *)
Lemma step_decision prior idx rest s lay :
  perm = prior ++ idx :: rest -> inv prior s lay ->
  match default [] (st_partners st !! idx) with
  | [] => fast_decision st sizes (s_cells s) idx
  | _ => PlaceDecision st sizes (s_addr s) (s_allocated s) idx (GatherCandidates st position eligible idx (length prior))
  end = decision (addr_of lay.1.1) idx (cands prior idx).
Proof.
  intros Hsplit [L1 L2 L3 Hag Hq Hc Hg Htops Hcells]. destruct (step_facts prior idx rest Hsplit) as (Hnd & Hlt & Hni & Hi).
  assert (grounded (addr_of lay.1.1) (cands prior idx)) as Hgc by (intros p Hp%elem_of_cands; apply Hg; tauto).
  rewrite (partners_eq bufs capacity al Hnames idx Hi). destruct (_inplace_partners bufs idx) eqn:Ep.
  - by eapply fast_decision_eq.
  - pose proof (gather_candidates prior idx rest Hsplit) as Hgather.
    assert (forall p, p ∈ GatherCandidates st position eligible idx (length prior) -> view s p = addr_of lay.1.1 p) as Hview.
    { intros p Hp. rewrite Hgather, elem_of_cands in Hp. apply Hag. tauto. }
    assert (grounded (view s) (GatherCandidates st position eligible idx (length prior))) as Hgv.
    { intros p Hp. rewrite Hview by done. rewrite Hgather in Hp. by apply Hgc. }
    assert (topped sizes (view s) (GatherCandidates st position eligible idx (length prior))) as Htv.
    { intros p Hp. unfold top. rewrite Hview by done. rewrite Hgather, elem_of_cands in Hp. apply Htops. tauto. }
    rewrite native_decision by done. by apply placement_decision_ext.
Qed.

Lemma scan_step_inv prior idx rest s lay :
  perm = prior ++ idx :: rest -> inv prior s lay ->
  inv (prior ++ [idx]) (scan_step st position sizes eligible idx (length prior) s)
    (build_step bufs capacity al sizes eligible prior idx lay).
Proof.
  intros Hsplit Hinv. pose proof (step_facts prior idx rest Hsplit) as (Hnd & Hlt & Hni & Hi).
  unfold scan_step, build_step. rewrite (step_decision prior idx rest s lay) by done.
  fold (interval bufs capacity al idx). destruct lay as [[addresses q] c] eqn:El. rewrite <- El in Hinv.
  assert (length (s_addr s) = n) as L1 by (by destruct Hinv). assert (grounded (addr_of addresses) (cands prior idx)) as Hgc.
  { intros p Hp%elem_of_cands. pose proof (inv_grounded _ _ _ Hinv) as Hg. rewrite El in Hg. apply Hg. tauto. }
  pose proof (inv_quality _ _ _ Hinv) as Hq. pose proof (inv_count _ _ _ Hinv) as Hc. rewrite El in Hq, Hc. cbn [fst snd] in *.
  assert (zat (st_weight st) idx = default 0 (weight2 <$> bufs !! idx)) as Hwt.
  { destruct (static_fields bufs capacity al) as (k & total & ivs & _ & _ & _ & _ & _ & _ & _ & _ & _ & -> & _).
    unfold zat. by rewrite list_lookup_fmap. }
  assert (forall w a b q' c' set_none tp, length a = n -> (forall p, p <> idx -> zat a p = zat (s_addr s) p) ->
    (forall x, w = Some x -> 0 <= x /\ zat a idx = x) ->
    (forall x, w = Some x -> x + zat sizes idx <= capacity) -> b = <[idx := bool_decide (is_Some w)]> (s_allocated s) ->
    (flag eligible idx = false -> w = None) -> set_none = flag eligible idx && bool_decide (w = None) ->
    tp = match w with Some x => x + zat sizes idx | None => -1 end ->
    inv (prior ++ [idx]) (let '(cells, not_done) := CommitIntervals (st_total_at st) (interval bufs capacity al idx) set_none tp (s_cells s, s_not_done s)
      in mkScan a b q' c' cells not_done) (<[idx := w]> addresses, q', c')) as Hrec.
  { intros w a b q' c' sn tp H1 H2 H3 H4 H5 H6 H7 H8.
    pose proof (record_outcome prior idx s lay w a b q' c' sn tp Hinv Hnd Hlt Hni Hi H1 H2 H3 H4 H5 H6 H7 H8) as H. cbn zeta in H.
    destruct (CommitIntervals _ _ _ _ _) as [cells nd]. rewrite El in H. exact H. }
  assert (forall x p, p <> idx -> zat (<[idx := x]> (s_addr s)) p = zat (s_addr s) p) as Hother
    by (intros x p Hp; unfold zat; by rewrite list_lookup_insert_ne).
  destruct (flag eligible idx) eqn:Ee; cbn [negb].
  - destruct (decision (addr_of addresses) idx (cands prior idx)) as [x|] eqn:Ev.
    + assert (0 <= x) as Hx by (by eapply decision_nonneg). pose proof (decision_within _ _ _ _ Ev) as Hin.
      rewrite sum_exact by (pose proof (zat_nonneg sizes idx Hsizes); unfold ROOM in *; lia).
      rewrite Hwt, Hq, Hc. apply (Hrec (Some x)); try done; [by rewrite length_insert | by apply Hother | | by intros y [= <-]].
      intros y [= <-]. split; [done|]. unfold zat. by rewrite list_lookup_insert_eq by lia.
    + rewrite Hq, Hc. apply (Hrec None); try done; [by rewrite length_insert | by apply Hother].
  - rewrite Hq, Hc. apply (Hrec None); done.
Qed.

(** Every buffer still to come rests on an evicted one. *)
Definition saturated (prior : list nat) (A : nat -> option Z) : Prop :=
  forall idx, (idx < n)%nat -> idx ∉ prior -> exists p, p ∈ prior /\ elig p /\ r_overlaps bufs idx p = true /\ A p = None.

Lemma all_done_saturated prior A cells :
  cells_ok prior A cells 0 -> NoDup prior -> (forall p, p ∈ prior -> (p < n)%nat) -> saturated prior A.
Proof.
  intros [Hl He Hu] Hnd Hlt idx Hi Hni. destruct (live_somewhere idx Hi) as [t Ht].
  destruct (lookup_lt_is_Some_2 cells t) as [c Hc]; [rewrite Hl; by apply (live_bound idx)|].
  assert (done_at c = true) as Hd.
  { destruct (done_at c) eqn:Ed; [done|]. exfalso. unfold undone, cnt in Hu.
    assert (c ∈ filter (fun c => done_at c = false) cells) as Hin by (apply list_elem_of_filter; split; [done | by eapply list_elem_of_lookup_2]).
    destruct (filter _ cells); [by apply elem_of_nil in Hin | cbn in Hu; lia]. }
  destruct (He t c Hc) as [P1 P2 _ P4]. pose proof (placed_lt_total prior idx t Hnd Hlt Hni Hi Ht).
  destruct (P4 Hd) as [Hn|Hn]; [|lia]. apply P2 in Hn as (p & Hp & Hep & Hpt & Ha). exists p. split_and!; [done | done | | done].
  apply r_overlaps_shares; eauto.
Qed.

Lemma saturated_step prior idx rest lay :
  perm = prior ++ idx :: rest -> length lay.1.1 = n -> saturated prior (addr_of lay.1.1) ->
  build_step bufs capacity al sizes eligible prior idx lay = (<[idx := None]> lay.1.1, lay.1.2, lay.2) /\
  saturated (prior ++ [idx]) (addr_of (<[idx := None]> lay.1.1)).
Proof.
  intros Hsplit Hl Hs. destruct (step_facts prior idx rest Hsplit) as (Hnd & Hlt & Hni & Hi). split.
  - destruct lay as [[addresses q] c]. unfold build_step. cbn [fst snd] in *. destruct (flag eligible idx); [|done]. cbn [negb].
    destruct (Hs idx Hi Hni) as (p & Hp & He & Ho & Ha). unfold _placement_decision.
    assert (p ∈ cands prior idx) as Hpc by (apply elem_of_cands; done).
    destruct (cands prior idx) as [|c0 l0]; [by apply elem_of_nil in Hpc|].
    assert (existsb (fun p => bool_decide (addr_of addresses p = None)) (c0 :: l0) = true) as ->; [|done].
    apply existsb_exists. exists p. split; [by apply list_elem_of_In | by apply bool_decide_eq_true].
  - intros j Hj Hnj. rewrite elem_of_app in Hnj. destruct (Hs j Hj ltac:(tauto)) as (p & Hp & He & Ho & Ha). exists p.
    split_and!; [set_solver | done | done |]. rewrite addr_of_insert by lia. by case_decide.
Qed.

Lemma saturated_rest rest : forall prior lay,
  perm = prior ++ rest -> length lay.1.1 = n -> saturated prior (addr_of lay.1.1) ->
  let lay' := build_from bufs capacity al sizes eligible prior rest lay in
  lay'.1.2 = lay.1.2 /\ lay'.2 = lay.2 /\ length lay'.1.1 = n /\
  (forall p, p ∈ rest -> addr_of lay'.1.1 p = None) /\ (forall p, p ∉ rest -> addr_of lay'.1.1 p = addr_of lay.1.1 p).
Proof.
  induction rest as [|idx rest IH]; intros prior lay Hsplit Hl Hs; cbn [build_from].
  { cbn zeta. split_and!; [done | done | done | intros p Hp; by apply elem_of_nil in Hp | done]. }
  destruct (saturated_step prior idx rest lay Hsplit Hl Hs) as [Hstep Hs'].
  destruct (IH (prior ++ [idx]) (<[idx := None]> lay.1.1, lay.1.2, lay.2)) as (H1 & H2 & H3 & H4 & H5);
    [by rewrite <- app_assoc | cbn; by rewrite length_insert | done |].
  cbn zeta in *. rewrite Hstep. cbn [fst snd] in *. destruct (step_facts prior idx rest Hsplit) as (_ & _ & _ & Hi).
  split_and!; [done | done | done | |].
  - intros p [->|Hp]%elem_of_cons; [|by apply H4]. destruct (decide (idx ∈ rest)) as [Hin|Hin]; [by apply H4|].
    rewrite H5, addr_of_insert, decide_True by (done || lia). done.
  - intros p [Hne Hp]%not_elem_of_cons. rewrite H5, addr_of_insert, decide_False by (done || lia). done.
Qed.

Lemma flag_foldl_false l : forall (b : list bool) p,
  (forall x, x ∈ l -> (x < length b)%nat) ->
  flag (foldl (fun al i => <[i := false]> al) b l) p = if decide (p ∈ l) then false else flag b p.
Proof.
  induction l as [|x l IH]; intros b p Hl; cbn [foldl]; [by rewrite decide_False by apply not_elem_of_nil|].
  rewrite IH by (intros y Hy; rewrite length_insert; apply Hl; by right). unfold flag.
  destruct (decide (p ∈ l)), (decide (p ∈ x :: l)) as [H|H]; [done | set_solver | |].
  - apply elem_of_cons in H as [->|]; [|done]. by rewrite list_lookup_insert_eq by (apply Hl; by left).
  - rewrite list_lookup_insert_ne; [done|]. intros ->. apply H. by left.
Qed.

(** The two runs end alike. *)
Record final (s : scan) (lay : layout) : Prop := {
  fin_addr : length (s_addr s) = n;
  fin_allocated : length (s_allocated s) = n;
  fin_addresses : length lay.1.1 = n;
  fin_agree : forall p, (p < n)%nat -> view s p = addr_of lay.1.1 p;
  fin_quality : s_quality s = lay.1.2;
  fin_count : s_count s = lay.2
}.

Lemma scan_loop_final rest : forall prior s lay,
  perm = prior ++ rest -> inv prior s lay ->
  final (scan_loop st position sizes eligible rest (length prior) s) (build_from bufs capacity al sizes eligible prior rest lay).
Proof.
  assert (forall p, (p < n)%nat -> p ∈ perm) as Hin by (intros p Hp; rewrite Hperm, elem_of_seq; lia).
  induction rest as [|idx rest IH]; intros prior s lay Hsplit Hinv; cbn [scan_loop build_from].
  - rewrite app_nil_r in Hsplit. destruct Hinv. split; try done. intros p Hp. apply inv_agree0. rewrite <- Hsplit. auto.
  - pose proof (step_facts prior idx rest Hsplit) as (Hnd & Hlt & Hni & Hi). destruct (Z.eqb_spec (s_not_done s) 0) as [Hz|Hz].
    + pose proof (inv_cells _ _ _ Hinv) as Hcells. rewrite Hz in Hcells.
      pose proof (all_done_saturated _ _ _ Hcells Hnd Hlt) as Hsat.
      destruct (saturated_rest (idx :: rest) prior lay Hsplit (inv_addresses _ _ _ Hinv) Hsat) as (H1 & H2 & H3 & H4 & H5).
      cbn zeta in *. cbn [build_from] in *. destruct Hinv as [L1 L2 L3 Hag Hq Hc Hg _ _].
      assert (forall x, x ∈ idx :: rest -> (x < length (s_allocated s))%nat) as Hrest.
      { intros x Hx. rewrite L2. assert (x ∈ perm) as Hxp by (rewrite Hsplit; set_solver). rewrite Hperm, elem_of_seq in Hxp. lia. }
      split; cbn [s_addr s_allocated s_quality s_count]; [done | | done | | by rewrite H1 | by rewrite H2].
      * clear -L2. revert L2. generalize (s_allocated s). induction (idx :: rest) as [|x l IH]; intros b Hb; [done|]. cbn [foldl].
        apply IH. by rewrite length_insert.
      * intros p Hp. unfold view. cbn [s_allocated s_addr]. rewrite flag_foldl_false by done. case_decide as Hpr; [by rewrite H4|].
        rewrite H5 by done. rewrite <- Hag; [done|]. specialize (Hin p Hp). rewrite Hsplit in Hin. set_solver.
    + replace (S (length prior)) with (length (prior ++ [idx])) by (rewrite length_app; simpl; lia).
      apply IH; [by rewrite <- app_assoc | by apply (scan_step_inv prior idx rest)].
Qed.

Lemma initial_inv (addr : list Z) (allocated : list bool) :
  length addr = n -> length allocated = n ->
  let i := InitIntervals (st_total_at st) in
  inv [] (mkScan addr allocated 0 0 i.1 i.2) (replicate n (Some 0), 0, 0).
Proof.
  intros H1 H2. cbn zeta. split; cbn [s_addr s_allocated s_quality s_count s_cells s_not_done fst snd]; try done.
  - apply length_replicate.
  - intros p Hp. by apply elem_of_nil in Hp.
  - intros p Hp. by apply elem_of_nil in Hp.
  - intros p Hp. by apply elem_of_nil in Hp.
  - unfold InitIntervals. cbn [fst snd]. split.
    + by rewrite length_fmap.
    + intros t c Hc. rewrite list_lookup_fmap in Hc. destruct (st_total_at st !! t) as [x|] eqn:Et; [|done]. injection Hc as <-.
      split; cbn [placed_at has_none_at max_top_at done_at]; [done | | done |].
      * split; [done|]. intros (p & Hp & _). by apply elem_of_nil in Hp.
      * intros Hx%Z.eqb_eq. right. unfold zat. by rewrite Et, Hx.
    + unfold undone, cnt. f_equal. generalize (st_total_at st). clear. induction l as [|x l IH]; [done|].
      rewrite fmap_cons, !filter_cons. cbn [done_at]. destruct (Z.eqb_spec x 0); repeat case_decide; cbn [length]; done || congruence.
Qed.

(** A recomputation is a rebuild. *)
Lemma recompute_is_build (addr : list Z) (allocated : list bool) (q c : Z) :
  length addr = n -> length allocated = n -> length eligible = n ->
  let p := RecomputeAll (mkNative st perm position sizes eligible addr allocated q c) in
  let lay := ref_layout bufs capacity al sizes eligible perm in
  n_addresses p = lay.1.1 /\ n_quality p = lay.1.2 /\ n_count p = lay.2 /\
  length (n_addr p) = n /\ length (n_allocated p) = n.
Proof.
  intros H1 H2 H3. cbn zeta. unfold RecomputeAll. cbn [n_static n_permutation n_position n_sizes n_eligible n_addr n_allocated].
  pose proof (initial_inv addr allocated H1 H2) as Hinv. cbn zeta in Hinv.
  destruct (InitIntervals (st_total_at st)) as [cells nd]. cbn [fst snd] in Hinv.
  pose proof (scan_loop_final perm [] _ _ eq_refl Hinv) as [F1 F2 F3 F4 F5 F6]. fold (ref_layout bufs capacity al sizes eligible perm) in *.
  cbn [length] in *. set (s := scan_loop _ _ _ _ _ _ _) in *. split_and!; [|done|done|done|done].
  unfold n_addresses. cbn [n_static n_allocated n_addr].
  destruct (static_fields bufs capacity al) as (k & total & ivs & _ & _ & _ & _ & _ & _ & -> & _).
  apply list_eq. intros i. rewrite list_lookup_fmap. destruct (decide (i < n)%nat) as [Hi|Hi].
  - rewrite lookup_seq_lt by done. cbn. specialize (F4 i Hi). unfold view, addr_of in F4. rewrite F4.
    destruct (lookup_lt_is_Some_2 (ref_layout bufs capacity al sizes eligible perm).1.1 i) as [x Hx]; [lia|]. by rewrite Hx.
  - rewrite lookup_seq_ge by lia. by rewrite lookup_ge_None_2 by lia.
Qed.
End simulation.

(** ** Moves that change no address *)

Section rebuild.
Context (bufs : list LifetimeBoundBuffer) (capacity al : Z).
Context (Hal : 0 < al).

#[local] Notation n := (length bufs).

(** What a position decides. *)
Definition outcome (sizes : list Z) (eligible : list bool) (prior : list nat) (idx : nat) (addresses : list (option Z)) : option Z :=
  if flag eligible idx
  then _placement_decision bufs capacity al sizes (addr_of addresses) idx (candidates_of bufs eligible prior idx)
  else None.

Definition gain (sizes : list Z) (idx : nat) (o : option Z) : Z :=
  match o with Some _ => default 0 (weight2 <$> bufs !! idx) * zat sizes idx | None => 0 end.

Lemma build_step_outcome sizes eligible prior idx lay :
  build_step bufs capacity al sizes eligible prior idx lay =
  let o := outcome sizes eligible prior idx lay.1.1 in
  (<[idx := o]> lay.1.1, lay.1.2 + gain sizes idx o, lay.2 + (if o is Some _ then 1 else 0)).
Proof.
  destruct lay as [[a q] c]. unfold build_step, outcome, gain. cbn [fst snd].
  destruct (flag eligible idx); cbn [negb]; [|by rewrite !Z.add_0_r]. case_match; [done | by rewrite !Z.add_0_r].
Qed.

Context (sizes : list Z) (Hsizes : Forall (fun x => 0 <= x) sizes).

Lemma outcome_nonneg eligible prior idx a x :
  grounded (addr_of a) prior -> outcome sizes eligible prior idx a = Some x -> 0 <= x.
Proof.
  intros Hg. unfold outcome. case_match; [|done]. apply decision_nonneg; [done | done |].
  intros p Hp%elem_of_cands. apply Hg. tauto.
Qed.

Lemma build_step_grounded eligible prior idx lay :
  length lay.1.1 = n -> (idx < n)%nat -> grounded (addr_of lay.1.1) prior ->
  let lay' := build_step bufs capacity al sizes eligible prior idx lay in
  length lay'.1.1 = n /\ grounded (addr_of lay'.1.1) (prior ++ [idx]).
Proof.
  intros Hl Hi Hg. cbn zeta. rewrite build_step_outcome. cbn [fst snd]. cbn zeta. split; [by rewrite length_insert|].
  intros p Hp. rewrite addr_of_insert by lia. case_decide as He.
  - destruct (outcome _ _ _ _ _) eqn:Eo; cbn; [by eapply outcome_nonneg | lia].
  - apply Hg. apply elem_of_app in Hp as [Hp | ->%list_elem_of_singleton]; done.
Qed.

(** A decision sees the buffers before it as a set. *)
Lemma outcome_ext eligible prior prior' idx a a' :
  prior ≡ₚ prior' -> grounded (addr_of a) prior ->
  (forall p, p ∈ candidates_of bufs eligible prior idx -> addr_of a p = addr_of a' p) ->
  outcome sizes eligible prior idx a = outcome sizes eligible prior' idx a'.
Proof.
  intros Hp Hg Ha. unfold outcome. case_match; [|done]. apply placement_decision_ext; [done | | done |].
  - unfold candidates_of. by rewrite Hp.
  - intros p Hpc. apply Hg. apply elem_of_cands in Hpc. tauto.
Qed.

Lemma build_from_prior eligible rest : forall prior prior' lay,
  prior ≡ₚ prior' -> length lay.1.1 = n -> (forall i, i ∈ rest -> (i < n)%nat) -> grounded (addr_of lay.1.1) prior ->
  build_from bufs capacity al sizes eligible prior rest lay = build_from bufs capacity al sizes eligible prior' rest lay.
Proof.
  induction rest as [|i rest IH]; intros prior prior' lay Hp Hl Hr Hg; [done|]. cbn [build_from].
  assert (build_step bufs capacity al sizes eligible prior i lay = build_step bufs capacity al sizes eligible prior' i lay) as ->.
  { rewrite !build_step_outcome. by rewrite (outcome_ext eligible prior prior' i lay.1.1 lay.1.1). }
  assert (grounded (addr_of lay.1.1) prior') as Hg' by (intros p Hpp; apply Hg; by rewrite Hp).
  destruct (build_step_grounded eligible prior' i lay Hl (Hr i ltac:(left)) Hg') as [Hl' Hg''].
  apply IH; [by rewrite Hp | done | intros j Hj; apply Hr; by right |]. intros p Hpp. apply Hg''. by rewrite <- Hp.
Qed.

Lemma r_overlaps_sym i j : r_overlaps bufs i j = r_overlaps bufs j i.
Proof. unfold r_overlaps. destruct (bufs !! i), (bufs !! j); try done. apply overlaps_in_time_sym. Qed.

(** [y] is decided alike before and after a neighbour it does not see. *)
Lemma outcome_unseen eligible prior x y a v :
  grounded (addr_of a) prior -> x ∉ prior -> (x < length a)%nat ->
  ~ (flag eligible x = true /\ flag eligible y = true /\ r_overlaps bufs y x = true) ->
  outcome sizes eligible (prior ++ [x]) y (<[x := v]> a) = outcome sizes eligible prior y a.
Proof.
  intros Hg Hx Hl Hind. unfold outcome. destruct (flag eligible y) eqn:Ey; [|done].
  assert (candidates_of bufs eligible (prior ++ [x]) y = candidates_of bufs eligible prior y) as Hc.
  { unfold candidates_of. rewrite filter_app, filter_single, decide_False by tauto. apply app_nil_r. }
  rewrite Hc. apply Logic.eq_sym, placement_decision_ext; [done | done | |].
  - intros p Hp%elem_of_cands. rewrite addr_of_insert, decide_False by (done || (intros ->; tauto)). done.
  - intros p Hp%elem_of_cands. apply Hg. tauto.
Qed.

Lemma build_steps_commute eligible prior x y lay :
  x <> y -> x ∉ prior -> y ∉ prior -> (x < n)%nat -> (y < n)%nat -> length lay.1.1 = n -> grounded (addr_of lay.1.1) prior ->
  ~ (flag eligible x = true /\ flag eligible y = true /\ r_overlaps bufs x y = true) ->
  let step := build_step bufs capacity al sizes eligible in
  step (prior ++ [x]) y (step prior x lay) = step (prior ++ [y]) x (step prior y lay).
Proof.
  intros Hne Hx Hy Hxn Hyn Hl Hg Hind. cbn zeta. rewrite !build_step_outcome. cbn [fst snd]. cbn zeta.
  rewrite !outcome_unseen; try done; try lia; [| tauto | rewrite r_overlaps_sym; tauto].
  f_equal; [f_equal|]; [by rewrite list_insert_insert_ne | lia | lia].
Qed.

(** Swapping neighbours that do not see each other leaves the layout alone. *)
Lemma ref_layout_swap eligible l1 x y l2 :
  NoDup (l1 ++ x :: y :: l2) -> (forall i, i ∈ l1 ++ x :: y :: l2 -> (i < n)%nat) ->
  ~ (flag eligible x = true /\ flag eligible y = true /\ r_overlaps bufs x y = true) ->
  ref_layout bufs capacity al sizes eligible (l1 ++ y :: x :: l2) = ref_layout bufs capacity al sizes eligible (l1 ++ x :: y :: l2).
Proof.
  intros Hnd Hlt Hind. unfold ref_layout.
  assert (forall l prior lay, length lay.1.1 = n -> grounded (addr_of lay.1.1) prior -> NoDup (prior ++ l ++ x :: y :: l2) ->
    (forall i, i ∈ l ++ x :: y :: l2 -> (i < n)%nat) ->
    build_from bufs capacity al sizes eligible prior (l ++ y :: x :: l2) lay =
    build_from bufs capacity al sizes eligible prior (l ++ x :: y :: l2) lay) as Hgen.
  { clear Hnd Hlt. induction l as [|i l IH]; intros prior lay Hl Hg Hnd Hlt; cbn [app build_from].
    - apply NoDup_app in Hnd as (Hp & Hd & Hnd). cbn [app] in Hd, Hnd. apply NoDup_cons in Hnd as [Hxy Hnd].
      assert (x ∉ prior /\ y ∉ prior) as [Hxp Hyp].
      { split; intros Hin; apply (Hd _ Hin); [left | right; left]. }
      assert (x < n /\ y < n)%nat as [Hxn Hyn] by (split; apply Hlt; [left | right; left]).
      assert (x <> y) as Hne by (intros ->; apply Hxy; left).
      pose proof (build_steps_commute eligible prior x y lay Hne Hxp Hyp Hxn Hyn Hl Hg Hind) as Hcom. cbn zeta in Hcom. rewrite <- Hcom.
      destruct (build_step_grounded eligible prior x lay Hl Hxn Hg) as [L1 G1].
      destruct (build_step_grounded eligible (prior ++ [x]) y _ L1 Hyn G1) as [L2 G2].
      assert ((prior ++ [y]) ++ [x] ≡ₚ (prior ++ [x]) ++ [y]) as Hpp.
      { rewrite <- !app_assoc. apply Permutation_app_head, perm_swap. }
      apply build_from_prior; [done | done | intros j Hj; apply Hlt; by do 2 right |].
      intros p Hin. apply G2. by rewrite <- Hpp.
    - destruct (build_step_grounded eligible prior i lay Hl (Hlt i ltac:(left)) Hg) as [L1 G1].
      apply IH; [done | done | by rewrite <- app_assoc | intros j Hj; apply Hlt; by right]. }
  apply Hgen; [apply length_replicate | intros p Hp; by apply elem_of_nil in Hp | done | done].
Qed.

(** The size of a buffer kept out of LX is never read. *)
Lemma decision_sizes sizes' A idx cand :
  (forall p, p = idx \/ p ∈ cand -> zat sizes p = zat sizes' p) ->
  _placement_decision bufs capacity al sizes A idx cand = _placement_decision bufs capacity al sizes' A idx cand.
Proof.
  intros Hs. unfold _placement_decision. rewrite (Hs idx) by auto. destruct cand as [|c l]; [done|]. set (cand := c :: l) in *.
  case_match; [done|]. unfold stack_decision. rewrite (Hs idx) by auto.
  assert (forall k : list nat, (forall p, p ∈ k -> p ∈ cand) -> top sizes A <$> k = top sizes' A <$> k) as Ht.
  { intros k Hk. apply list_fmap_ext. intros i p Hp%list_elem_of_lookup_2. unfold top. by rewrite (Hs p) by auto. }
  rewrite (Ht cand) by done.
  assert (forall k, (forall p, p ∈ k -> p ∈ cand) -> drop_into bufs capacity sizes A idx cand k = drop_into bufs capacity sizes' A idx cand k) as Hd.
  { induction k as [|p k IH]; intros Hk; [done|]. cbn [drop_into]. rewrite IH by (intros q Hq; apply Hk; by right).
    rewrite (Ht (filter (fun q => q <> p) cand)) by (intros q [_ Hq]%list_elem_of_filter; done). rewrite (Hs idx) by auto.
    assert (zat sizes p = zat sizes' p) as Hp by (apply Hs; right; apply Hk; left).
    unfold _in_place_pair. destruct (declares bufs idx p); rewrite Hp, (Hs idx) by auto; done. }
  rewrite Hd; [done|]. intros p [Hp _]%list_elem_of_filter. done.
Qed.

Lemma ref_layout_sizes sizes' eligible perm :
  (forall p, flag eligible p = true -> zat sizes p = zat sizes' p) ->
  ref_layout bufs capacity al sizes eligible perm = ref_layout bufs capacity al sizes' eligible perm.
Proof.
  intros Hs. unfold ref_layout. generalize (@nil nat) as prior. generalize (replicate n (Some 0), 0, 0) as lay.
  induction perm as [|i perm IH]; intros lay prior; [done|]. cbn [build_from]. rewrite IH. f_equal.
  rewrite !build_step_outcome. cbn zeta.
  assert (outcome sizes eligible prior i lay.1.1 = outcome sizes' eligible prior i lay.1.1) as Ho.
  { unfold outcome. destruct (flag eligible i) eqn:Ei; [|done]. apply decision_sizes.
    intros p [->|Hp%elem_of_cands]; apply Hs; [done | tauto]. }
  rewrite <- Ho. assert (gain sizes i (outcome sizes eligible prior i lay.1.1) = gain sizes' i (outcome sizes eligible prior i lay.1.1)) as ->; [|done].
  unfold gain, outcome. destruct (flag eligible i) eqn:Ei; [|done]. by rewrite (Hs i).
Qed.
End rebuild.

(** ** Rotations *)

Definition swapl (i : nat) (l : list nat) : list nat :=
  match l !! i, l !! S i with Some x, Some y => <[S i := x]> (<[i := y]> l) | _, _ => l end.

Lemma swapl_app l1 x y l2 : swapl (length l1) (l1 ++ x :: y :: l2) = l1 ++ y :: x :: l2.
Proof.
  unfold swapl. rewrite list_lookup_middle by done.
  assert ((l1 ++ x :: y :: l2) !! S (length l1) = Some y) as ->.
  { replace (l1 ++ x :: y :: l2) with ((l1 ++ [x]) ++ y :: l2) by (by rewrite <- app_assoc).
    apply list_lookup_middle. rewrite length_app. simpl. lia. }
  rewrite insert_app_r_alt by lia. rewrite Nat.sub_diag. cbn [insert list_insert].
  rewrite insert_app_r_alt by lia. replace (S (length l1) - length l1)%nat with 1%nat by lia. done.
Qed.

Lemma swapl_split i (l : list nat) x y :
  l !! i = Some x -> l !! S i = Some y -> exists l1 l2, l = l1 ++ x :: y :: l2 /\ length l1 = i.
Proof.
  intros Hx Hy. exists (take i l), (drop (S (S i)) l). split.
  - rewrite <- (take_drop_middle l i x Hx) at 1. f_equal. f_equal. rewrite <- (drop_S l y (S i)) by done. done.
  - rewrite length_take. apply lookup_lt_Some in Hx. lia.
Qed.

(** The split at the moved entry. *)
Lemma move_forward l1 x m l2 :
  move (length l1) (length l1 + length m) (l1 ++ x :: m ++ l2) = l1 ++ m ++ x :: l2 /\
  foldl (fun l k => swapl k l) (l1 ++ x :: m ++ l2) (seq (length l1) (length m)) = l1 ++ m ++ x :: l2.
Proof.
  split.
  - unfold move. rewrite list_lookup_middle by done. destruct m as [|y m].
    + rewrite Nat.add_0_r, Nat.ltb_irrefl, Nat.sub_diag. cbn [app]. rewrite take_app_length.
      replace (S (length l1)) with (length (l1 ++ [x])) by (rewrite length_app; simpl; lia).
      replace (l1 ++ x :: l2) with ((l1 ++ [x]) ++ l2) by (by rewrite <- app_assoc). by rewrite drop_app_length, take_0, <- app_assoc.
    + rewrite (proj2 (Nat.ltb_lt _ _)) by (simpl; lia). rewrite take_app_length. f_equal.
      replace (S (length l1)) with (length (l1 ++ [x])) by (rewrite length_app; simpl; lia).
      replace (l1 ++ x :: (y :: m) ++ l2) with ((l1 ++ [x]) ++ (y :: m) ++ l2) by (by rewrite <- app_assoc).
      rewrite drop_app_length. replace (length l1 + length (y :: m) - length l1)%nat with (length (y :: m)) by lia.
      rewrite take_app_length. f_equal. cbn [app]. f_equal.
      replace (S (length l1 + length (y :: m))) with (length ((l1 ++ [x]) ++ (y :: m))) by (rewrite !length_app; simpl; lia).
      change (y :: m ++ l2) with ((y :: m) ++ l2). rewrite app_assoc. apply drop_app_length.
  - revert l1. induction m as [|y m IH]; intros l1; [done|]. cbn [length seq foldl app]. rewrite swapl_app.
    replace (l1 ++ y :: x :: m ++ l2) with ((l1 ++ [y]) ++ x :: m ++ l2) by (by rewrite <- app_assoc).
    replace (S (length l1)) with (length (l1 ++ [y])) by (rewrite length_app; simpl; lia). rewrite IH. by rewrite <- app_assoc.
Qed.

Lemma move_back l1 x m l2 :
  move (length l1 + length m) (length l1) (l1 ++ m ++ x :: l2) = l1 ++ x :: m ++ l2 /\
  foldl (fun l k => swapl k l) (l1 ++ m ++ x :: l2) (reverse (seq (length l1) (length m))) = l1 ++ x :: m ++ l2.
Proof.
  split.
  - unfold move. rewrite app_assoc, list_lookup_middle by (rewrite length_app; lia). rewrite (proj2 (Nat.ltb_ge _ _)) by lia.
    rewrite <- app_assoc, take_app_length. f_equal. cbn [app]. f_equal. rewrite drop_app_length.
    replace (length l1 + length m - length l1)%nat with (length m) by lia. rewrite take_app_length. f_equal.
    replace (S (length l1 + length m)) with (length (l1 ++ m ++ [x])) by (rewrite !length_app; simpl; lia).
    replace (l1 ++ m ++ x :: l2) with ((l1 ++ m ++ [x]) ++ l2) by (by rewrite <- !app_assoc). apply drop_app_length.
  - revert l2. induction m as [|y m IH] using rev_ind; intros l2; [done|].
    rewrite length_app. cbn [length]. rewrite Nat.add_1_r, seq_S, reverse_app. cbn [reverse rev_append app foldl].
    replace (l1 ++ (m ++ [y]) ++ x :: l2) with ((l1 ++ m) ++ y :: x :: l2) by (by rewrite <- !app_assoc).
    replace (length l1 + length m)%nat with (length (l1 ++ m)) by apply length_app. rewrite swapl_app, <- app_assoc, IH. by rewrite <- app_assoc.
Qed.

(** A rotation, as a split of the order; [mid] and [mid'] are the part that changes. *)
Record rotation (i j : nat) (l : list nat) (x : nat) (l1 mid mid' l2 m : list nat) : Prop := {
  rot_before : l = l1 ++ mid ++ l2;
  rot_after : move i j l = l1 ++ mid' ++ l2;
  rot_start : length l1 = (i `min` j)%nat;
  rot_mid : length mid = S (i `max` j - i `min` j)%nat;
  rot_shape : (mid = x :: m /\ mid' = m ++ [x]) \/ (mid = m ++ [x] /\ mid' = x :: m);
  rot_swaps : foldl (fun l k => swapl k l) l (if (i <? j)%nat then seq i (j - i) else reverse (seq j (i - j))) = move i j l
}.

Lemma move_rotation i j (l : list nat) x :
  l !! i = Some x -> (j < length l)%nat -> exists l1 mid mid' l2 m, rotation i j l x l1 mid mid' l2 m.
Proof.
  intros Hx Hj. pose proof (lookup_lt_Some _ _ _ Hx) as Hi. destruct (decide (i < j)%nat) as [Hij|Hij].
  - set (l1 := take i l). set (m := take (j - i) (drop (S i) l)). set (l2 := drop (S j) l).
    assert (l = l1 ++ x :: m ++ l2) as Hl.
    { unfold l1, m, l2. rewrite <- (take_drop_middle l i x Hx) at 1. do 2 f_equal. rewrite <- (take_drop (j - i) (drop (S i) l)) at 1.
      f_equal. rewrite drop_drop. f_equal. lia. }
    assert (length l1 = i) as H1 by (unfold l1; rewrite length_take; lia).
    assert (length m = (j - i)%nat) as Hm by (unfold m; rewrite length_take, length_drop; lia).
    destruct (move_forward l1 x m l2) as [M1 M2]. rewrite <- Hl, H1, Hm in M1, M2. replace (i + (j - i))%nat with j in M1 by lia.
    exists l1, (x :: m), (m ++ [x]), l2, m. split.
    + done.
    + rewrite M1, <- app_assoc. done.
    + lia.
    + cbn [length]. lia.
    + by left.
    + rewrite (proj2 (Nat.ltb_lt _ _)) by done. by rewrite M2, M1.
  - set (l1 := take j l). set (m := take (i - j) (drop j l)). set (l2 := drop (S i) l).
    assert (l = l1 ++ m ++ x :: l2) as Hl.
    { unfold l1, m, l2. rewrite <- (take_drop j l) at 1. f_equal. rewrite <- (take_drop (i - j) (drop j l)) at 1. f_equal.
      rewrite drop_drop. replace (j + (i - j))%nat with i by lia. by apply drop_S. }
    assert (length l1 = j) as H1 by (unfold l1; rewrite length_take; lia).
    assert (length m = (i - j)%nat) as Hm by (unfold m; rewrite length_take, length_drop; lia).
    destruct (move_back l1 x m l2) as [M1 M2]. rewrite <- Hl, H1, Hm in M1, M2. replace (j + (i - j))%nat with i in M1 by lia.
    exists l1, (m ++ [x]), (x :: m), l2, m. split.
    + by rewrite <- app_assoc.
    + done.
    + lia.
    + rewrite length_app. cbn [length]. lia.
    + by right.
    + rewrite (proj2 (Nat.ltb_ge _ _)) by lia. by rewrite M2, M1.
Qed.

Lemma rotation_perm i j l x l1 mid mid' l2 m : rotation i j l x l1 mid mid' l2 m -> mid' ≡ₚ mid /\ move i j l ≡ₚ l.
Proof.
  intros [H1 H2 _ _ Hs _]. assert (mid' ≡ₚ mid) as Hm.
  { destruct Hs as [[-> ->]|[-> ->]]; [|symmetry]; apply Permutation_sym, Permutation_cons_append. }
  split; [done|]. rewrite H2, H1. by rewrite Hm.
Qed.

(** [position_] is the inverse of [permutation_]. *)
Definition inverse (perm position : list nat) : Prop := forall i x, perm !! i = Some x -> position !! x = Some i.

Lemma foldl_positions (f : nat -> option nat) ps : forall (l : list nat) x,
  (forall p y, p ∈ ps -> f p = Some y -> (y < length l)%nat) ->
  (forall p q y, p ∈ ps -> q ∈ ps -> f p = Some y -> f q = Some y -> p = q) ->
  let l' := foldl (fun l p => match f p with Some y => <[y := p]> l | None => l end) l ps in
  (forall p, p ∈ ps -> f p = Some x -> l' !! x = Some p) /\ ((forall p, p ∈ ps -> f p <> Some x) -> l' !! x = l !! x).
Proof.
  induction ps as [|p ps IH]; intros l x Hlt Hinj; cbn [foldl]; cbn zeta.
  { split; [intros p Hp; by apply elem_of_nil in Hp | done]. }
  set (l0 := match f p with Some y => <[y := p]> l | None => l end).
  assert (length l0 = length l) as Hl0 by (unfold l0; case_match; by rewrite ?length_insert).
  destruct (IH l0 x) as [I1 I2].
  { intros q y Hq. rewrite Hl0. apply Hlt. by right. }
  { intros q r y Hq Hr. apply Hinj; by right. }
  cbn zeta in *. split.
  - intros q Hq Hf. destruct (decide (q ∈ ps)) as [Hin|Hin]; [by apply I1|].
    apply elem_of_cons in Hq as [->|]; [|done]. rewrite I2.
    + unfold l0. rewrite Hf. apply list_lookup_insert_eq. apply (Hlt p); [by left | done].
    + intros r Hr Hfr. apply Hin. rewrite (Hinj p r x) by (done || by constructor). done.
  - intros Hno. rewrite I2 by (intros q Hq; apply Hno; by right). unfold l0.
    destruct (f p) as [y|] eqn:Ef; [|done]. rewrite list_lookup_insert_ne; [done|]. intros ->. by apply (Hno p); [left|].
Qed.

Lemma positions_inverse perm n : perm ≡ₚ seq 0 n -> inverse perm (positions perm) /\ length (positions perm) = n.
Proof.
  intros Hp. assert (length perm = n) as Hl by (rewrite Hp; apply length_seq). assert (NoDup perm) as Hnd by (rewrite Hp; apply NoDup_seq).
  assert (positions perm = foldl (fun l p => match perm !! p with Some y => <[y := p]> l | None => l end) (replicate (length perm) 0%nat) (seq 0 (length perm))) as ->.
  { unfold positions. generalize (replicate (length perm) 0%nat). assert (forall o (l rest : list nat), (forall i, perm !! (o + i)%nat = rest !! i) ->
      foldl (fun l ix => <[ix.2 := ix.1]> l) l (zip (seq o (length rest)) rest) =
      foldl (fun l p => match perm !! p with Some y => <[y := p]> l | None => l end) l (seq o (length rest))) as Hgen.
    { intros o l rest. revert o l. induction rest as [|y rest IH]; intros o l H; [done|]. cbn [length seq zip zip_with foldl fst snd].
      pose proof (H 0%nat) as H0. rewrite Nat.add_0_r in H0. cbn in H0. rewrite H0. apply IH. intros i. specialize (H (S i)).
      rewrite <- Nat.add_succ_comm in H. exact H. }
    intros l. apply Hgen. done. }
  split.
  - intros i x Hi. apply (foldl_positions (fun p => perm !! p) (seq 0 (length perm)) (replicate (length perm) 0%nat) x); [| | |done].
    + intros p y _ Hy. rewrite length_replicate, Hl. apply list_elem_of_lookup_2 in Hy. rewrite Hp, elem_of_seq in Hy. lia.
    + intros p q y _ _ H1 H2. by eapply NoDup_lookup.
    + apply elem_of_seq. apply lookup_lt_Some in Hi. lia.
  - transitivity (length (replicate (length perm) 0%nat)); [|rewrite length_replicate; done].
    generalize (replicate (length perm) 0%nat). induction (seq 0 (length perm)) as [|p ps IH]; intros l; [done|]. cbn [foldl].
    rewrite IH. case_match; by rewrite ?length_insert.
Qed.

Lemma swap_inverse perm position i x y :
  NoDup perm -> inverse perm position -> perm !! i = Some x -> perm !! S i = Some y ->
  inverse (<[S i := x]> (<[i := y]> perm)) (<[y := i]> (<[x := S i]> position)).
Proof.
  intros Hnd Hinv Hx Hy k z Hz. pose proof (lookup_lt_Some _ _ _ Hx). pose proof (lookup_lt_Some _ _ _ Hy).
  pose proof (lookup_lt_Some _ _ _ (Hinv _ _ Hx)). pose proof (lookup_lt_Some _ _ _ (Hinv _ _ Hy)).
  assert (x <> y) as Hne by (intros ->; pose proof (NoDup_lookup _ _ _ _ Hnd Hx Hy); lia).
  destruct (decide (k = S i)) as [->|Hk1].
  - rewrite list_lookup_insert_eq in Hz by (rewrite length_insert; lia). injection Hz as <-.
    rewrite list_lookup_insert_ne by done. by rewrite list_lookup_insert_eq.
  - rewrite list_lookup_insert_ne in Hz by done. destruct (decide (k = i)) as [->|Hk2].
    + rewrite list_lookup_insert_eq in Hz by lia. injection Hz as <-. rewrite list_lookup_insert_eq; [done|]. by rewrite length_insert.
    + rewrite list_lookup_insert_ne in Hz by done.
      assert (z <> x /\ z <> y) as [Hzx Hzy]
        by (split; intros ->; [apply Hk2 | apply Hk1]; by eapply NoDup_lookup).
      rewrite !list_lookup_insert_ne by done. by apply Hinv.
Qed.

Lemma rotation_outside i j l x l1 mid mid' l2 m p :
  rotation i j l x l1 mid mid' l2 m -> (p < i `min` j \/ i `max` j < p)%nat -> move i j l !! p = l !! p.
Proof.
  intros Hrot Hp. pose proof (rotation_perm _ _ _ _ _ _ _ _ _ Hrot) as [Hm%Permutation_length _].
  destruct Hrot as [H1 H2 H3 H4 _ _]. rewrite H2, H1. destruct Hp as [Hp|Hp].
  - rewrite !lookup_app_l by lia. done.
  - rewrite !(lookup_app_r l1) by lia. rewrite !lookup_app_r by lia. by rewrite Hm.
Qed.

Lemma reposition_inverse i j perm position x l1 mid mid' l2 m :
  rotation i j perm x l1 mid mid' l2 m -> NoDup perm -> inverse perm position ->
  inverse (move i j perm) (reposition (move i j perm) (i `min` j) (i `max` j) position) /\
  length (reposition (move i j perm) (i `min` j) (i `max` j) position) = length position.
Proof.
  intros Hrot Hnd Hinv. pose proof (rotation_perm _ _ _ _ _ _ _ _ _ Hrot) as [_ Hp].
  assert (NoDup (move i j perm)) as Hnd' by (by rewrite Hp). unfold reposition.
  assert (forall p y, move i j perm !! p = Some y -> (y < length position)%nat) as Hlt.
  { intros p y Hy%list_elem_of_lookup_2. rewrite Hp in Hy. apply list_elem_of_lookup in Hy as [q Hq]. apply Hinv in Hq. by eapply lookup_lt_Some. }
  split.
  - intros k z Hz. set (ps := seq (i `min` j) (S (i `max` j) - i `min` j)).
    destruct (foldl_positions (fun p => move i j perm !! p) ps position z) as [F1 F2].
    { intros p y _. apply Hlt. }
    { intros p q y _ _ A B. by eapply NoDup_lookup. }
    cbn zeta in *. destruct (decide (k ∈ ps)) as [Hk|Hk]; [by apply F1|].
    rewrite F2; [apply Hinv; rewrite <- Hz; symmetry; eapply rotation_outside; [done|] |].
    + unfold ps in Hk. rewrite elem_of_seq in Hk. lia.
    + intros p Hps Hpz. apply Hk. replace k with p; [done|]. by eapply NoDup_lookup.
  - generalize (seq (i `min` j) (S (i `max` j) - i `min` j)). intros ps. revert position Hinv Hlt.
    induction ps as [|p ps IH]; intros position Hinv Hlt; [done|]. cbn [foldl]. clear -ps.
    transitivity (length (match move i j perm !! p with Some y => <[y := p]> position | None => position end)).
    + generalize (match move i j perm !! p with Some y => <[y := p]> position | None => position end). induction ps as [|q ps IH]; intros l; [done|].
      cbn [foldl]. rewrite IH. case_match; by rewrite ?length_insert.
    + case_match; by rewrite ?length_insert.
Qed.

(** ** The two packers agree *)

Section agreement.
Context (bufs : list LifetimeBoundBuffer) (capacity al : Z).
Context (Hlive : Forall (fun b => start_time b < end_time b) bufs) (Hnames : NoDup (buf_name <$> bufs)) (Hal : 0 < al).
Context (Hcap : capacity <= ROOM) (Hroom : al <= ROOM).

#[local] Notation n := (length bufs).
#[local] Notation st := (build_static bufs capacity al).

(** The native packer [p] and the reference [r] hold the same plan. *)
Record related (p : native) (r : reference) : Prop := {
  rel_static : n_static p = st;
  rel_buffers : r_buffers r = bufs;
  rel_capacity : r_capacity r = capacity;
  rel_alignment : r_alignment r = al;
  rel_permutation : n_permutation p = r_permutation r;
  rel_sizes : n_sizes p = r_sizes r;
  rel_eligible : n_eligible p = r_eligible r;
  rel_addresses : n_addresses p = r_addresses r;
  rel_quality : n_quality p = r_quality r;
  rel_count : n_count p = r_count r;
  rel_perm : r_permutation r ≡ₚ seq 0 n;
  rel_inverse : inverse (n_permutation p) (n_position p);
  rel_positions : length (n_position p) = n;
  rel_nonneg : Forall (fun x => 0 <= x) (r_sizes r);
  rel_len_sizes : length (r_sizes r) = n;
  rel_len_eligible : length (r_eligible r) = n;
  rel_len_addr : length (n_addr p) = n /\ length (n_allocated p) = n;
  rel_layout : (r_addresses r, r_quality r, r_count r) = ref_layout bufs capacity al (r_sizes r) (r_eligible r) (r_permutation r);
  rel_room : Forall (fun x => x <= ROOM) (r_sizes r)
}.

Lemma build_permutation r : r_permutation (_build r) = r_permutation r.
Proof. unfold _build. by destruct (ref_layout _ _ _ _ _ _) as [[a q] c]. Qed.

Lemma related_recompute perm position sizes eligible addr allocated q c addresses q' c' :
  perm ≡ₚ seq 0 n -> inverse perm position -> length position = n -> Forall (fun x => 0 <= x) sizes -> Forall (fun x => x <= ROOM) sizes -> length sizes = n ->
  length eligible = n -> length addr = n -> length allocated = n ->
  related (RecomputeAll (mkNative st perm position sizes eligible addr allocated q c))
    (_build (mkRef bufs capacity al perm sizes eligible addresses q' c')).
Proof.
  intros Hp Hinv Hlp Hs Hss Hls Hle Hla Hlb.
  destruct (recompute_is_build bufs capacity al sizes eligible perm position Hlive Hnames Hal Hs Hcap Hroom Hss Hp Hinv addr allocated q c Hla Hlb Hle)
    as (R1 & R2 & R3 & R4 & R5). cbn zeta in *. set (p := RecomputeAll _) in *.
  unfold _build. cbn [r_buffers r_capacity r_alignment r_permutation r_sizes r_eligible].
  destruct (ref_layout bufs capacity al sizes eligible perm) as [[a1 q1] c1] eqn:El. cbn [fst snd] in *.
  assert (n_static p = st /\ n_permutation p = perm /\ n_position p = position /\ n_sizes p = sizes /\ n_eligible p = eligible) as (P1 & P2 & P3 & P4 & P5).
  { unfold p, RecomputeAll. cbn [n_static st_total_at]. by destruct (InitIntervals _). }
  split; cbn [r_buffers r_capacity r_alignment r_permutation r_sizes r_eligible r_addresses r_quality r_count]; try done; congruence.
Qed.

(** A change that leaves addresses alone. *)
Lemma related_same p r perm position sizes eligible :
  related p r -> perm ≡ₚ seq 0 n -> inverse perm position -> length position = n -> Forall (fun x => 0 <= x) sizes -> Forall (fun x => x <= ROOM) sizes -> length sizes = n ->
  length eligible = n ->
  ref_layout bufs capacity al sizes eligible perm = ref_layout bufs capacity al (r_sizes r) (r_eligible r) (r_permutation r) ->
  let r' := _build (mkRef bufs capacity al perm sizes eligible (r_addresses r) (r_quality r) (r_count r)) in
  related (mkNative st perm position sizes eligible (n_addr p) (n_allocated p) (n_quality p) (n_count p)) r' /\ r_quality r' = r_quality r.
Proof.
  intros Hrel Hp Hinv Hlp Hs Hss Hls Hle Hlay. cbn zeta. pose proof (rel_layout _ _ Hrel) as HL. unfold _build.
  cbn [r_buffers r_capacity r_alignment r_permutation r_sizes r_eligible]. rewrite Hlay, <- HL. split; [|done].
  destruct Hrel. split; cbn [n_static n_permutation n_position n_sizes n_eligible n_addr n_allocated n_quality n_count
    r_buffers r_capacity r_alignment r_permutation r_sizes r_eligible r_addresses r_quality r_count]; try done.
  - rewrite <- rel_addresses0. unfold n_addresses. cbn [n_static n_allocated n_addr]. by rewrite rel_static0.
  - by rewrite Hlay.
Qed.

Lemma swap_agrees i p r :
  related p r ->
  match n_swap i p, r_swap i r with
  | Ok (p', d), Ok (r', d') => related p' r' /\ d = d' /\ r_permutation r' = swapl i (r_permutation r)
  | Raise e, Raise e' => e = e'
  | _, _ => False
  end.
Proof.
  intros Hrel. pose proof Hrel as [S1 S2 S3 S4 S5 S6 S7 S8 S9 S10 S11 S12 S13 S14 S15 S16 [S17 S17'] S18 S19].
  unfold n_swap, r_swap. rewrite S5 in *. unfold swapl.
  destruct (r_permutation r !! i) as [x|] eqn:Ex; [|done]. destruct (r_permutation r !! S i) as [y|] eqn:Ey; [|done].
  set (perm' := <[S i := x]> (<[i := y]> (r_permutation r))).
  destruct (swapl_split i (r_permutation r) x y Ex Ey) as (l1 & l2 & Hl & Hl1).
  assert (perm' = l1 ++ y :: x :: l2) as Hperm'.
  { pose proof (swapl_app l1 x y l2) as H. rewrite <- Hl, Hl1 in H. unfold swapl in H. by rewrite Ex, Ey in H. }
  assert (perm' ≡ₚ seq 0 n) as Hp' by (rewrite Hperm', <- S11, Hl; apply Permutation_app_head, perm_swap).
  assert (NoDup (r_permutation r)) as Hnd by (rewrite S11; apply NoDup_seq).
  assert (inverse perm' (<[y := i]> (<[x := S i]> (n_position p)))) as Hinv' by (by apply swap_inverse).
  assert (length (<[y := i]> (<[x := S i]> (n_position p))) = n) as Hlp by (by rewrite !length_insert).
  assert (x < n /\ y < n)%nat as [Hxn Hyn].
  { split; [apply list_elem_of_lookup_2 in Ex; rewrite S11, elem_of_seq in Ex | apply list_elem_of_lookup_2 in Ey; rewrite S11, elem_of_seq in Ey]; lia. }
  assert ((zat (st_start st) x <? zat (st_end st) y) && (zat (st_start st) y <? zat (st_end st) x) = r_overlaps bufs x y) as Hov.
  { destruct (static_fields bufs capacity al) as (k & total & ivs & _ & _ & _ & _ & _ & _ & _ & -> & -> & _).
    unfold zat, r_overlaps. rewrite !list_lookup_fmap. destruct (lookup_lt_is_Some_2 bufs x Hxn) as [b ->].
    destruct (lookup_lt_is_Some_2 bufs y Hyn) as [c ->]. done. }
  rewrite S1, Hov, S2, S3, S4. set (e := _ && _).
  destruct (e && r_overlaps bufs x y) eqn:Eboth.
  - apply andb_true_iff in Eboth as [-> ->]. cbn [negb].
    assert (forall a b, related a b -> related a b /\ n_quality a - n_quality p = r_quality b - r_quality r /\ r_permutation b = r_permutation b) as Hfin.
    { intros a b Hab. split_and!; [done | | done]. rewrite (rel_quality _ _ Hab), S9. done. }
    pose proof (related_recompute perm' (<[y := i]> (<[x := S i]> (n_position p))) (n_sizes p) (n_eligible p) (n_addr p) (n_allocated p)
      (n_quality p) (n_count p) (r_addresses r) (r_quality r) (r_count r) Hp' Hinv' Hlp ltac:(by rewrite S6) ltac:(by rewrite S6) ltac:(by rewrite S6)
      ltac:(by rewrite S7) S17 S17') as Hrc.
    rewrite <- S6, <- S7. apply Hfin in Hrc as (H1 & H2 & _). split_and!; [exact H1 | exact H2 |].
    apply build_permutation.
  - destruct (related_same p r perm' (<[y := i]> (<[x := S i]> (n_position p))) (r_sizes r) (r_eligible r) Hrel Hp' Hinv' Hlp S14 S19 S15 S16) as [H1 H2].
    { rewrite Hperm', Hl. apply ref_layout_swap; [done | done | by rewrite <- Hl | |].
      - intros j Hj. rewrite <- Hl, S11, elem_of_seq in Hj. lia.
      - unfold e in Eboth. rewrite S7 in Eboth. intros (Hex & Hey & Ho). by rewrite Hex, Hey, Ho in Eboth. }
    cbn zeta in H1, H2. rewrite <- S6, <- S7 in H1, H2.
    assert (forall q : native * Z, q = (mkNative st perm' (<[y := i]> (<[x := S i]> (n_position p))) (n_sizes p) (n_eligible p) (n_addr p) (n_allocated p) (n_quality p) (n_count p), 0) ->
      match (Ok q : res (native * Z)) with Ok (p', d) => related p' (_build (mkRef bufs capacity al perm' (n_sizes p) (n_eligible p) (r_addresses r) (r_quality r) (r_count r))) /\
        d = r_quality (_build (mkRef bufs capacity al perm' (n_sizes p) (n_eligible p) (r_addresses r) (r_quality r) (r_count r))) - r_quality r /\
        r_permutation (_build (mkRef bufs capacity al perm' (n_sizes p) (n_eligible p) (r_addresses r) (r_quality r) (r_count r))) = perm' | Raise _ => False end) as Hq.
    { intros q ->. split_and!; [exact H1 | rewrite H2; lia |]. apply build_permutation. }
    rewrite <- S6, <- S7. destruct e eqn:Ee; cbn [negb andb] in *; [rewrite Eboth; cbn [negb]|]; exact (Hq _ eq_refl).
Qed.

(** The plan of a reference is that of its order. *)
Definition consistent (r : reference) : Prop :=
  (r_addresses r, r_quality r, r_count r) =
  ref_layout (r_buffers r) (r_capacity r) (r_alignment r) (r_sizes r) (r_eligible r) (r_permutation r).

Definition with_perm (perm : list nat) (r : reference) : reference :=
  _build (mkRef (r_buffers r) (r_capacity r) (r_alignment r) perm (r_sizes r) (r_eligible r) (r_addresses r) (r_quality r) (r_count r)).

Lemma with_perm_spec perm r :
  let r' := with_perm perm r in
  consistent r' /\ r_buffers r' = r_buffers r /\ r_capacity r' = r_capacity r /\ r_alignment r' = r_alignment r /\
  r_permutation r' = perm /\ r_sizes r' = r_sizes r /\ r_eligible r' = r_eligible r.
Proof.
  unfold with_perm, _build, consistent. cbn [r_buffers r_capacity r_alignment r_permutation r_sizes r_eligible].
  destruct (ref_layout (r_buffers r) (r_capacity r) (r_alignment r) (r_sizes r) (r_eligible r) perm) as [[a q] c] eqn:E. cbn. by rewrite E.
Qed.

Lemma with_perm_twice perm perm' r : with_perm perm' (with_perm perm r) = with_perm perm' r.
Proof.
  destruct (with_perm_spec perm r) as (_ & H2 & H3 & H4 & _ & H6 & H7). cbn zeta in *. unfold with_perm at 1 3, _build.
  cbn [r_buffers r_capacity r_alignment r_permutation r_sizes r_eligible]. by rewrite H2, H3, H4, H6, H7.
Qed.

Lemma with_perm_same r : consistent r -> with_perm (r_permutation r) r = r.
Proof.
  unfold consistent, with_perm, _build. cbn [r_buffers r_capacity r_alignment r_permutation r_sizes r_eligible]. intros <-. by destruct r.
Qed.

Lemma length_swapl k l : length (swapl k l) = length l.
Proof. unfold swapl. repeat case_match; by rewrite ?length_insert. Qed.

(** The swaps of a rotation amount to one rebuild, and their deltas telescope. *)
Lemma swap_all_spec ks : forall r,
  consistent r -> Forall (fun k => (S k < length (r_permutation r))%nat) ks ->
  let r' := with_perm (foldl (fun l k => swapl k l) (r_permutation r) ks) r in
  swap_all ks r = Ok (r', r_quality r' - r_quality r).
Proof.
  intros r Hc Hks. cbn zeta. unfold swap_all.
  enough (forall d, for_each (fun k pd => pd' ← r_swap k pd.1; Ok (pd'.1, pd.2 + pd'.2)) ks (r, d) =
    Ok (with_perm (foldl (fun l k => swapl k l) (r_permutation r) ks) r,
        d + (r_quality (with_perm (foldl (fun l k => swapl k l) (r_permutation r) ks) r) - r_quality r))) as H by (by rewrite H).
  revert r Hc Hks. induction ks as [|k ks IH]; intros r Hc Hks d; cbn [foldl for_each].
  - rewrite with_perm_same by done. do 2 f_equal. lia.
  - apply Forall_cons in Hks as [Hk Hks]. assert (r_swap k r = Ok (with_perm (swapl k (r_permutation r)) r,
      r_quality (with_perm (swapl k (r_permutation r)) r) - r_quality r)) as Hsw.
    { unfold r_swap, swapl, with_perm. destruct (lookup_lt_is_Some_2 (r_permutation r) k) as [x ->]; [lia|].
      destruct (lookup_lt_is_Some_2 (r_permutation r) (S k) Hk) as [y ->]. done. }
    cbn [fst snd]. rewrite Hsw. cbn [mbind res_bind fst snd]. destruct (with_perm_spec (swapl k (r_permutation r)) r) as (C1 & _ & _ & _ & C5 & _).
    cbn zeta in *. rewrite IH; [|done|].
    + rewrite C5, with_perm_twice. do 2 f_equal. lia.
    + rewrite C5. by setoid_rewrite length_swapl.
Qed.

Lemma ref_layout_move sizes eligible l1 x m l2 :
  Forall (fun s => 0 <= s) sizes -> flag eligible x = false -> NoDup (l1 ++ x :: m ++ l2) -> (forall i, i ∈ l1 ++ x :: m ++ l2 -> (i < n)%nat) ->
  ref_layout bufs capacity al sizes eligible (l1 ++ m ++ x :: l2) = ref_layout bufs capacity al sizes eligible (l1 ++ x :: m ++ l2).
Proof.
  intros Hs Hx. revert l1. induction m as [|y m IH]; intros l1 Hnd Hlt; [done|]. cbn [app] in *.
  assert (l1 ++ y :: x :: m ++ l2 ≡ₚ l1 ++ x :: y :: m ++ l2) as Hp by apply Permutation_app_head, perm_swap.
  specialize (IH (l1 ++ [y])). rewrite <- !app_assoc in IH. cbn [app] in IH. rewrite IH.
  - apply ref_layout_swap; [done | done | done | done |]. rewrite Hx. naive_solver.
  - by rewrite Hp.
  - intros i Hi. apply Hlt. by rewrite <- Hp.
Qed.

Lemma related_consistent p r : related p r -> consistent r.
Proof. intros []. unfold consistent. congruence. Qed.

Lemma rotate_agrees i j p r :
  related p r ->
  match n_rotate i j p, r_rotate i j r with
  | Ok (p', d), Ok (r', d') => related p' r' /\ d = d' /\ r_permutation r' = move i j (r_permutation r)
  | Raise e, Raise e' => e = e'
  | _, _ => False
  end.
Proof.
  intros Hrel. pose proof (related_consistent _ _ Hrel) as Hcons.
  pose proof Hrel as [S1 S2 S3 S4 S5 S6 S7 S8 S9 S10 S11 S12 S13 S14 S15 S16 [S17 S17'] S18 S19].
  assert (length (r_permutation r) = n) as Hlen by (rewrite S11; apply length_seq).
  unfold n_rotate, r_rotate. rewrite S2, S5 in *. destruct (r_permutation r !! i) as [x|] eqn:Ex.
  2: { apply lookup_ge_None in Ex. rewrite (proj2 (Nat.ltb_ge i n)) by lia. done. }
  pose proof (lookup_lt_Some _ _ _ Ex) as Hi. rewrite (proj2 (Nat.ltb_lt i n)) by lia.
  destruct (r_permutation r !! j) as [y|] eqn:Ey.
  2: { apply lookup_ge_None in Ey. rewrite (proj2 (Nat.ltb_ge j n)) by lia. done. }
  pose proof (lookup_lt_Some _ _ _ Ey) as Hj. rewrite (proj2 (Nat.ltb_lt j n)) by lia. cbn [andb negb raise_if mbind res_bind].
  destruct (move_rotation i j (r_permutation r) x Ex Hj) as (l1 & mid & mid' & l2 & m & Hrot).
  pose proof (rotation_perm _ _ _ _ _ _ _ _ _ Hrot) as [_ Hpm].
  set (ks := if (i <? j)%nat then seq i (j - i) else reverse (seq j (i - j))).
  assert ((if (i <? j)%nat then swap_all (seq i (j - i)) r else swap_all (reverse (seq j (i - j))) r) =
    Ok (with_perm (move i j (r_permutation r)) r, r_quality (with_perm (move i j (r_permutation r)) r) - r_quality r)) as ->.
  { rewrite <- (rot_swaps _ _ _ _ _ _ _ _ _ Hrot). fold ks. rewrite <- swap_all_spec; [unfold ks; by case_match | done |].
    apply Forall_forall. intros k Hk. unfold ks in Hk. destruct (Nat.ltb_spec i j); [|rewrite elem_of_reverse in Hk]; apply elem_of_seq in Hk; lia. }
  set (r' := with_perm (move i j (r_permutation r)) r). assert (r_permutation r' = move i j (r_permutation r)) as Hr' by apply build_permutation.
  destruct (Nat.eqb_spec i j) as [<-|Hne].
  { assert (move i i (r_permutation r) = r_permutation r) as Hid.
    { destruct Hrot as [H1 H2 _ H4 H5 _]. assert (m = []) as ->.
      { destruct H5 as [[-> _]|[-> _]]; rewrite ?length_app in H4; cbn [length] in H4; apply nil_length_inv; lia. }
      destruct H5 as [[-> ->]|[-> ->]]; rewrite H2; symmetry; exact H1. }
    unfold r'. rewrite Hid, with_perm_same by done. split_and!; [done | lia | done]. }
  assert (NoDup (r_permutation r)) as Hnd by (rewrite S11; apply NoDup_seq).
  destruct (reposition_inverse _ _ _ _ _ _ _ _ _ _ Hrot Hnd S12) as [Hinv' Hlp].
  assert (move i j (r_permutation r) ≡ₚ seq 0 n) as Hp' by (by rewrite Hpm).
  destruct (flag (n_eligible p) x) eqn:Eel; cbn [negb].
  - pose proof (related_recompute (move i j (r_permutation r)) _ (n_sizes p) (n_eligible p) (n_addr p) (n_allocated p)
      (n_quality p) (n_count p) (r_addresses r) (r_quality r) (r_count r) Hp' Hinv' ltac:(congruence) ltac:(by rewrite S6) ltac:(by rewrite S6) ltac:(by rewrite S6)
      ltac:(by rewrite S7) S17 S17') as Hrc.
    assert (_build (mkRef bufs capacity al (move i j (r_permutation r)) (n_sizes p) (n_eligible p) (r_addresses r) (r_quality r) (r_count r)) = r') as He.
    { unfold r', with_perm. by rewrite S2, S3, S4, S6, S7. }
    rewrite He in Hrc. rewrite S1. split_and!; [exact Hrc | by rewrite (rel_quality _ _ Hrc), S9 | done].
  - destruct (related_same p r (move i j (r_permutation r)) (reposition (move i j (r_permutation r)) (i `min` j) (i `max` j) (n_position p))
      (r_sizes r) (r_eligible r) Hrel Hp' Hinv' ltac:(congruence) S14 S19 S15 S16) as [H1 H2].
    { pose proof (rot_before _ _ _ _ _ _ _ _ _ Hrot) as Hb. pose proof (rot_after _ _ _ _ _ _ _ _ _ Hrot) as Ha. rewrite Ha, Hb.
      assert (forall k, k ∈ r_permutation r -> (k < n)%nat) as Hlt by (intros k Hk; rewrite S11, elem_of_seq in Hk; lia). rewrite Hb in Hlt, Hnd.
      rewrite S7 in Eel. destruct (rot_shape _ _ _ _ _ _ _ _ _ Hrot) as [[-> ->]|[-> ->]]; rewrite <- !app_assoc in *; cbn [app] in *.
      - by apply ref_layout_move.
      - assert (l1 ++ m ++ x :: l2 ≡ₚ l1 ++ x :: m ++ l2) as Hperm2
          by (apply Permutation_app_head, Permutation_sym, Permutation_middle).
        symmetry. apply ref_layout_move; [done | done | by rewrite <- Hperm2 |]. intros k Hk. apply Hlt. by rewrite Hperm2. }
    cbn zeta in H1, H2.
    assert (_build (mkRef bufs capacity al (move i j (r_permutation r)) (r_sizes r) (r_eligible r) (r_addresses r) (r_quality r) (r_count r)) = r') as He
      by (unfold r', with_perm; by rewrite S2, S3, S4).
    rewrite He in H1, H2. rewrite S1, S6, S7. split_and!; [exact H1 | lia | done].
Qed.

Lemma resize_agrees idx s p r :
  related p r -> small s = true ->
  match n_resize idx s p, r_resize idx s r with
  | Ok (p', d), Ok (r', d') => related p' r' /\ d = d' /\ r_permutation r' = r_permutation r
  | Raise e, Raise e' => e = e'
  | _, _ => False
  end.
Proof.
  intros Hrel Hsmall. pose proof (small_int64 s Hsmall) as Hint. pose proof (related_consistent _ _ Hrel) as Hcons.
  pose proof Hrel as [S1 S2 S3 S4 S5 S6 S7 S8 S9 S10 S11 S12 S13 S14 S15 S16 [S17 S17'] S18 S19].
  assert (st_n st = n) as Hn by (by destruct (static_fields bufs capacity al) as (k & total & ivs & _ & _ & _ & _ & _ & _ & -> & _)).
  unfold n_resize, r_resize. rewrite Hint, S1, S2, Hn. cbn [negb raise_if mbind res_bind].
  destruct (Nat.ltb_spec idx n) as [Hi|Hi]; cbn [negb raise_if mbind res_bind]; [|done].
  destruct (Z.ltb_spec s 0) as [Hs|Hs]; cbn [raise_if mbind res_bind]; [done|].
  set (r' := _build _). assert (r_permutation r' = r_permutation r) as Hr' by exact (build_permutation _).
  assert (Forall (fun x => 0 <= x) (<[idx := s]> (r_sizes r))) as Hs' by (by apply Forall_insert).
  assert (Forall (fun x => x <= ROOM) (<[idx := s]> (r_sizes r))) as Hs'' by (by apply Forall_insert, small_room).
  destruct (Z.eqb_spec (zat (n_sizes p) idx) s) as [He|He].
  - assert (r' = r) as ->; [|split_and!; [done | lia | done]].
    assert (<[idx := s]> (r_sizes r) = r_sizes r) as Hsame.
    { apply list_insert_id. rewrite S6 in He. unfold zat in He. destruct (lookup_lt_is_Some_2 (r_sizes r) idx) as [z Hz]; [lia|].
      rewrite Hz in *. cbn in He. congruence. }
    unfold r'. rewrite Hsame, <- S2. exact (with_perm_same r Hcons).
  - rewrite S6. destruct (flag (n_eligible p) idx) eqn:Eel; cbn [negb].
    + pose proof (related_recompute (n_permutation p) (n_position p) (<[idx := s]> (r_sizes r)) (n_eligible p) (n_addr p) (n_allocated p)
        (n_quality p) (n_count p) (r_addresses r) (r_quality r) (r_count r) ltac:(by rewrite S5) S12 S13 Hs' Hs'' ltac:(by rewrite length_insert)
        ltac:(by rewrite S7) S17 S17') as Hrc.
      assert (_build (mkRef bufs capacity al (n_permutation p) (<[idx := s]> (r_sizes r)) (n_eligible p) (r_addresses r) (r_quality r) (r_count r)) = r') as He'
        by (unfold r'; by rewrite S3, S4, S5, S7).
      rewrite He' in Hrc. split_and!; [exact Hrc | by rewrite (rel_quality _ _ Hrc), S9 | done].
    + destruct (related_same p r (r_permutation r) (n_position p) (<[idx := s]> (r_sizes r)) (r_eligible r) Hrel S11 ltac:(by rewrite <- S5) S13 Hs' Hs''
        ltac:(by rewrite length_insert) S16) as [H1 H2].
      { apply ref_layout_sizes; [done..|]. intros q Hq. unfold zat. rewrite list_lookup_insert_ne; [done|]. intros ->. congruence. }
      cbn zeta in H1, H2.
      assert (_build (mkRef bufs capacity al (r_permutation r) (<[idx := s]> (r_sizes r)) (r_eligible r) (r_addresses r) (r_quality r) (r_count r)) = r') as He'
        by (unfold r'; by rewrite S3, S4).
      rewrite He' in H1, H2. rewrite S5, S7. split_and!; [exact H1 | lia | done].
Qed.

Lemma set_eligible_agrees idx f p r :
  related p r ->
  match n_set_eligible idx f p, r_set_eligible idx f r with
  | Ok (p', d), Ok (r', d') => related p' r' /\ d = d' /\ r_permutation r' = r_permutation r
  | Raise e, Raise e' => e = e'
  | _, _ => False
  end.
Proof.
  intros Hrel. pose proof Hrel as [S1 S2 S3 S4 S5 S6 S7 S8 S9 S10 S11 S12 S13 S14 S15 S16 [S17 S17'] S18 S19].
  assert (st_n st = n) as Hn by (by destruct (static_fields bufs capacity al) as (k & total & ivs & _ & _ & _ & _ & _ & _ & -> & _)).
  unfold n_set_eligible, r_set_eligible. rewrite S1, S2, Hn, S7.
  destruct (Nat.ltb_spec idx n) as [Hi|Hi]; cbn [negb raise_if mbind res_bind]; [|done].
  destruct (Bool.eqb _ _); [split_and!; [done | lia | done]|].
  pose proof (related_recompute (n_permutation p) (n_position p) (n_sizes p) (<[idx := f]> (r_eligible r)) (n_addr p) (n_allocated p)
    (n_quality p) (n_count p) (r_addresses r) (r_quality r) (r_count r) ltac:(by rewrite S5) S12 S13 ltac:(by rewrite S6) ltac:(by rewrite S6) ltac:(by rewrite S6)
    ltac:(by rewrite length_insert) S17 S17') as Hrc.
  rewrite S3, S4, <- S5, <- S6. split_and!; [exact Hrc | by rewrite (rel_quality _ _ Hrc), S9 | apply build_permutation].
Qed.
End agreement.

(** ** Construction *)

(** The fields fit the native integers, and the size leaves room for the sums. *)
Definition fits (b : LifetimeBoundBuffer) : Prop :=
  small (buf_size b) = true /\ forallb int64 (uses b) = true /\ int64 (start_time b) = true /\ int64 (end_time b) = true.

(** The bound under which a plan of the packer cannot overflow. *)
Definition roomy (capacity al : Z) (bufs : list LifetimeBoundBuffer) : Prop :=
  capacity <= ROOM /\ al <= ROOM /\ Forall (fun b => buf_size b <= ROOM) bufs.

#[export] Instance roomy_dec capacity al bufs : Decision (roomy capacity al bufs).
Proof. unfold roomy. apply _. Defined.

Lemma for_each_ext {A S} (f g : A -> S -> res S) (l : list A) :
  (forall x s, x ∈ l -> f x s = g x s) -> forall s, for_each f l s = for_each g l s.
Proof.
  induction l as [|x l IH]; intros H s; [done|]. cbn [for_each]. rewrite (H x s) by left.
  destruct (g x s); [|done]. apply IH. intros y s' Hy. apply H. by right.
Qed.

Lemma read_fields_agree b : fits b -> read_fields b = ref_fields b.
Proof.
  intros (H1%small_int64 & H2 & H3 & H4). unfold read_fields, ref_fields. rewrite H1, H2, H3, H4. cbn [andb negb raise_if mbind res_bind].
  destruct (buf_size b <? 0); [done|]. cbn [raise_if mbind res_bind]. destruct (decide (uses b = [])) as [He|He]; [by rewrite bool_decide_eq_true_2|].
  rewrite bool_decide_eq_false_2 by done. cbn [raise_if mbind res_bind]. f_equal.
  destruct (last (uses b)) as [z|] eqn:Hz; [|by apply last_None in Hz]. cbn [default from_option].
  assert (int64 z = true) as Hz64.
  { rewrite forallb_forall in H2. apply H2. apply list_elem_of_In. apply last_Some in Hz as [l ->]. set_solver. }
  unfold int64 in Hz64. split_bools. unfold id. destruct (Z.eqb_spec z INT64_MAX), (Z.leb_spec INT64_MAX z); lia || done.
Qed.

Lemma check_pairs_agree bufs : NoDup (buf_name <$> bufs) -> check_pairs bufs = ref_check_pairs bufs.
Proof.
  intros Hnd. unfold check_pairs, ref_check_pairs. apply for_each_ext. intros child [] _. unfold declared_parents.
  induction (in_place_parents child) as [|m l IH]; [done|]. cbn [omap list_omap for_each].
  destruct (name_to_idx bufs m) as [j|] eqn:Ej.
  - apply name_to_idx_spec in Ej as (c & Hc & Hm); [|done]. cbn [for_each]. rewrite Hc.
    rewrite <- Hm, (buf_by_name_lookup bufs c) by (done || by eapply list_elem_of_lookup_2).
    unfold check_in_place_parent_is_read. destruct (raise_if _ _;; raise_if _ _) as [[]|]; [|done]. exact IH.
  - assert (buf_by_name bufs !! m = None) as ->; [|exact IH]. destruct (buf_by_name bufs !! m) as [c|] eqn:Ec; [|done]. exfalso.
    apply buf_by_name_Some in Ec as [Hin Hm]. apply list_elem_of_lookup in Hin as [j Hj].
    assert (name_to_idx bufs m = Some j) by (apply name_to_idx_spec; eauto). congruence.
Qed.

Lemma sorted_is_perm perm n : py_sorted Nat.leb perm = seq 0 n -> perm ≡ₚ seq 0 n.
Proof. intros <-. symmetry. apply py_sorted_perm. Qed.

Lemma for_each_units {A} (f : A -> res unit) (l : list A) : for_each (fun x _ => f x) l tt = Ok tt -> forall x, x ∈ l -> f x = Ok tt.
Proof.
  induction l as [|y l IH]; intros H x Hx; [by apply elem_of_nil in Hx|]. cbn [for_each] in H. apply bind_Ok in H as ([] & H1 & H2).
  apply elem_of_cons in Hx as [->|Hx]; [done | by apply IH].
Qed.

Lemma units_value_error {A} (f : A -> res unit) (l : list A) :
  (forall x e, x ∈ l -> f x = Raise e -> e = ValueError) -> forall e, for_each (fun x _ => f x) l tt = Raise e -> e = ValueError.
Proof.
  induction l as [|y l IH]; intros H e; [done|]. cbn [for_each]. destruct (f y) as [[]|e'] eqn:E.
  - apply IH. intros x e'' Hx. apply H. by right.
  - intros [= <-]. eapply H; [left | done].
Qed.

Lemma init_agrees bufs perm capacity al eligible :
  Forall (fun b => start_time b < end_time b) bufs -> Forall fits bufs -> small capacity = true -> small al = true ->
  match native_init bufs perm capacity al eligible, ref_init bufs perm capacity al eligible with
  | Ok p, Ok r => related bufs capacity al p r /\ r_permutation r = perm /\ r_sizes r = buf_size <$> bufs /\ 0 < al /\ NoDup (buf_name <$> bufs) /\
      ref_check_pairs bufs = Ok tt
  | Raise e, Raise e' => e = e'
  | _, _ => False
  end.
Proof.
  intros Hlive Hfits Hc Ha. unfold native_init, ref_init. rewrite (small_int64 _ Hc), (small_int64 _ Ha). cbn [andb negb raise_if mbind res_bind].
  destruct (Z.leb_spec al 0) as [|Hal]; cbn [raise_if mbind res_bind]; [done|].
  destruct (bool_decide (py_sorted Nat.leb perm = seq 0 (length bufs))) eqn:Hp; cbn [negb raise_if mbind res_bind]; [|done].
  apply bool_decide_eq_true, sorted_is_perm in Hp.
  rewrite (for_each_ext (fun b _ => read_fields b) (fun b _ => ref_fields b)).
  2: { intros b s Hb. apply read_fields_agree. rewrite Forall_forall in Hfits. auto. }
  destruct (for_each (fun b _ => ref_fields b) bufs tt) as [[]|e] eqn:Echk; cbn [mbind res_bind]; [|done].
  destruct (bool_decide (NoDup (buf_name <$> bufs))) eqn:Hnd; cbn [negb raise_if mbind res_bind]; [|done]. apply bool_decide_eq_true in Hnd.
  rewrite check_pairs_agree by done. set (flags := default _ eligible).
  assert (forall e, ref_check_pairs bufs = Raise e -> e = ValueError) as Hve.
  { apply units_value_error. intros child e _. apply units_value_error. intros m e'. clear. intros _.
    unfold check_in_place_parent_is_read. destruct (buf_by_name bufs !! m) as [q|]; [|done].
    destruct (negb (parent_is_read q)); cbn [raise_if mbind res_bind]; [congruence|]. unfold raise_if; case_match; congruence. }
  destruct (ref_check_pairs bufs) as [[]|e] eqn:Epairs; destruct (Nat.eqb_spec (length flags) (length bufs)) as [Hf|Hf];
    cbn [negb raise_if mbind res_bind]; [| done | done | by apply Hve].
  destruct (positions_inverse perm (length bufs) Hp) as [Hinv Hlp].
  split_and!; try done.
  - apply related_recompute; try done; try (by apply small_room); rewrite ?length_fmap, ?length_replicate; try done.
    2: { apply Forall_fmap. eapply Forall_impl; [exact Hfits|]. intros b [Hb _]. by apply small_room. }
    apply Forall_fmap, Forall_forall. intros b Hb. pose proof (for_each_units ref_fields bufs Echk b Hb) as Hcb. unfold ref_fields in Hcb.
    apply bind_Ok in Hcb as ([] & Hneg%raise_if_Ok & _). cbn. lia.
  - exact (build_permutation _).
  - unfold _build. by destruct (ref_layout _ _ _ _ _ _) as [[? ?] ?].
Qed.

(** ** Sequences of operations *)

Inductive packer_op : Set :=
  | Swap (i : nat) | Rotate (i j : nat) | Resize (idx : nat) (new_size : Z) | SetEligible (idx : nat) (flag : bool).

Definition n_apply (o : packer_op) : native -> res (native * Z) :=
  match o with
  | Swap i => n_swap i | Rotate i j => n_rotate i j
  | Resize idx s => n_resize idx s | SetEligible idx f => n_set_eligible idx f
  end.

Definition r_apply (o : packer_op) : reference -> res (reference * Z) :=
  match o with
  | Swap i => r_swap i | Rotate i j => r_rotate i j
  | Resize idx s => r_resize idx s | SetEligible idx f => r_set_eligible idx f
  end.

Definition run {P} (apply : packer_op -> P -> res (P * Z)) (ops : list packer_op) (p : P) : res (P * list Z) :=
  for_each (fun o pd => pd' ← apply o pd.1; Ok (pd'.1, pd.2 ++ [pd'.2])) ops (p, []).

Definition op_fits (o : packer_op) : Prop := match o with Resize _ s => small s = true | _ => True end.

Lemma apply_agrees bufs capacity al o p r :
  Forall (fun b => start_time b < end_time b) bufs -> NoDup (buf_name <$> bufs) -> 0 < al -> capacity <= ROOM -> al <= ROOM -> op_fits o ->
  related bufs capacity al p r ->
  match n_apply o p, r_apply o r with
  | Ok (p', d), Ok (r', d') => related bufs capacity al p' r' /\ d = d'
  | Raise e, Raise e' => e = e'
  | _, _ => False
  end.
Proof.
  intros Hlive Hnd Hal Hcap Hroom Hfit Hrel. destruct o as [i|i j|idx s|idx f]; cbn [n_apply r_apply].
  - pose proof (swap_agrees bufs capacity al Hlive Hnd Hal Hcap Hroom i p r Hrel) as H. do 2 case_match; try done; case_match; [case_match|]; tauto.
  - pose proof (rotate_agrees bufs capacity al Hlive Hnd Hal Hcap Hroom i j p r Hrel) as H. do 2 case_match; try done; case_match; [case_match|]; tauto.
  - pose proof (resize_agrees bufs capacity al Hlive Hnd Hal Hcap Hroom idx s p r Hrel Hfit) as H. do 2 case_match; try done; case_match; [case_match|]; tauto.
  - pose proof (set_eligible_agrees bufs capacity al Hlive Hnd Hal Hcap Hroom idx f p r Hrel) as H. do 2 case_match; try done; case_match; [case_match|]; tauto.
Qed.

Lemma run_agrees bufs capacity al ops : forall p r ds,
  Forall (fun b => start_time b < end_time b) bufs -> NoDup (buf_name <$> bufs) -> 0 < al -> capacity <= ROOM -> al <= ROOM -> Forall op_fits ops ->
  related bufs capacity al p r ->
  match for_each (fun o pd => pd' ← n_apply o pd.1; Ok (pd'.1, pd.2 ++ [pd'.2])) ops (p, ds),
        for_each (fun o pd => pd' ← r_apply o pd.1; Ok (pd'.1, pd.2 ++ [pd'.2])) ops (r, ds) with
  | Ok (p', ds1), Ok (r', ds2) => related bufs capacity al p' r' /\ ds1 = ds2
  | Raise e, Raise e' => e = e'
  | _, _ => False
  end.
Proof.
  induction ops as [|o ops IH]; intros p r ds Hlive Hnd Hal Hcap Hroom Hfit Hrel; cbn [for_each]; [done|].
  apply Forall_cons in Hfit as [Ho Hfit]. pose proof (apply_agrees bufs capacity al o p r Hlive Hnd Hal Hcap Hroom Ho Hrel) as H.
  cbn [fst snd]. destruct (n_apply o p) as [[p' d]|e], (r_apply o r) as [[r' d']|e']; cbn [mbind res_bind fst snd]; try done.
  destruct H as [Hrel' <-]. by apply IH.
Qed.

(** ** Layouts are valid *)

(** [finalize]: the addresses written to the buffers. *)
Definition finalize (p : native) (bufs : list LifetimeBoundBuffer) : list LifetimeBoundBuffer :=
  zip_with (fun b a => set_address a b) bufs (n_addresses p).

Section validity.
Context (bufs : list LifetimeBoundBuffer) (capacity al : Z) (sizes : list Z) (eligible : list bool).
Context (Hal : 0 < al) (Hsizes : Forall (fun x => 0 <= x) sizes).

#[local] Notation n := (length bufs).

(** One of the two takes over the other's slot. *)
Definition shares (p q : nat) : Prop :=
  (declares bufs q p = true /\ zat sizes q <= zat sizes p) \/ (declares bufs p q = true /\ zat sizes p <= zat sizes q).

Record placed_ok (prior : list nat) (A : nat -> option Z) : Prop := {
  po_range : forall p a, p ∈ prior -> A p = Some a -> 0 <= a /\ a + zat sizes p <= capacity /\ (al | a);
  po_apart : forall p q a b, p ∈ prior -> q ∈ prior -> p <> q -> A p = Some a -> A q = Some b -> r_overlaps bufs p q = true ->
    ranges_disjoint a (a + zat sizes p) b (b + zat sizes q) \/ (a = b /\ shares p q)
}.

Lemma partner_shares idx p : p ∈ _inplace_partners bufs idx ->
  (let '(parent, child) := _in_place_pair bufs idx p in zat sizes child <= zat sizes parent) -> shares idx p.
Proof.
  unfold _inplace_partners, _in_place_pair. rewrite list_elem_of_filter. intros [Hd _] Hs. unfold shares.
  destruct (declares bufs idx p) eqn:E; [right | left]; split; try done. by destruct Hd.
Qed.

(** A decision lands on top of every candidate, or in a partner's slot. *)
Lemma decision_spec A idx cand a :
  grounded A cand -> (forall p b, p ∈ cand -> A p = Some b -> (al | b)) ->
  _placement_decision bufs capacity al sizes A idx cand = Some a ->
  0 <= a /\ a + zat sizes idx <= capacity /\ (al | a) /\
  forall p b, p ∈ cand -> A p = Some b -> b + zat sizes p <= a \/ (a = b /\ shares idx p).
Proof.
  intros Hg Hdiv H. pose proof (decision_nonneg bufs capacity al sizes Hal Hsizes A idx cand a Hg H) as H0. split; [done|].
  unfold _placement_decision in H. destruct cand as [|c l].
  { destruct (Z.ltb_spec capacity (zat sizes idx)); [done|]. injection H as <-. split_and!; [lia | apply Z.divide_0_r |].
    intros p b Hp. by apply elem_of_nil in Hp. }
  set (cand := c :: l) in *. destruct (existsb _ cand) eqn:Ee; [done|].
  assert (forall p, p ∈ cand -> is_Some (A p)) as Hsome.
  { intros p Hp. destruct (A p) eqn:Ea; [done|]. exfalso. rewrite <- not_true_iff_false in Ee. apply Ee, existsb_exists.
    exists p. split; [by apply list_elem_of_In | by apply bool_decide_eq_true]. }
  unfold stack_decision in H. rewrite drop_into_find in H by done. rewrite list_max_zmax in H by (by apply tops_nonneg).
  destruct (list_find _ _) as [[i q]|] eqn:E.
  - apply list_find_Some in E as (Hq%list_elem_of_lookup_2%list_elem_of_filter & [Hsz Htop] & _). cbn in H. unfold in_slot in H.
    destruct (Z.ltb_spec capacity (default 0 (A q) + zat sizes idx)); [done|]. injection H as <-.
    destruct (Hsome q ltac:(tauto)) as [aq Haq]. rewrite Haq in *. cbn [default from_option id] in *.
    split_and!; [done | by apply (Hdiv q); [tauto|] |]. intros p b Hp Hb. destruct (decide (p = q)) as [->|Hne].
    + right. split; [congruence|]. apply partner_shares; [tauto | done].
    + left. apply zmax_le in Htop as [_ Htop]. rewrite Forall_fmap, Forall_forall in Htop.
      specialize (Htop p ltac:(apply list_elem_of_filter; done)). cbn in Htop. unfold top in Htop. rewrite Hb in Htop. exact Htop.
  - change (in_slot capacity sizes A idx <$> (snd <$> None)) with (@None (option Z)) in H. cbv iota in H.
    destruct (aligned_up_spec al (zmax 0 (top sizes A <$> cand)) Hal) as [Hup Hd]. set (x := _align_up al _) in *.
    destruct (Z.ltb_spec capacity (x + zat sizes idx)); [done|]. injection H as <-. split_and!; [done | done |].
    intros p b Hp Hb. left. pose proof (proj1 (zmax_le 0 (top sizes A <$> cand) _) (Z.le_refl _)) as [_ Hall].
    rewrite Forall_fmap, Forall_forall in Hall. 
    assert (top sizes A p = b + zat sizes p) as <- by (unfold top; by rewrite Hb). exact (Z.le_trans _ _ _ (Hall p Hp) (proj1 Hup)).
Qed.

Lemma shares_sym p q : shares p q -> shares q p.
Proof. unfold shares. tauto. Qed.

Lemma build_step_placed prior idx lay :
  length lay.1.1 = n -> (idx < n)%nat -> idx ∉ prior -> placed_ok prior (addr_of lay.1.1) ->
  (forall p a, p ∈ prior -> flag eligible p = false -> addr_of lay.1.1 p = Some a -> False) ->
  let lay' := build_step bufs capacity al sizes eligible prior idx lay in
  length lay'.1.1 = n /\ placed_ok (prior ++ [idx]) (addr_of lay'.1.1) /\
  (forall p a, p ∈ prior ++ [idx] -> flag eligible p = false -> addr_of lay'.1.1 p = Some a -> False).
Proof.
  intros Hl Hi Hni [Hr Hap] Hel. cbn zeta. rewrite build_step_outcome. cbn zeta. cbn [fst snd].
  set (o := outcome bufs capacity al sizes eligible prior idx lay.1.1). split; [by rewrite length_insert|].
  assert (forall p, p ∈ prior -> addr_of (<[idx := o]> lay.1.1) p = addr_of lay.1.1 p) as Hold
    by (intros p Hp; rewrite addr_of_insert, decide_False by (lia || (intros ->; done)); done).
  assert (addr_of (<[idx := o]> lay.1.1) idx = o) as Hnew by (by rewrite addr_of_insert, decide_True by lia).
  assert (forall a, o = Some a -> 0 <= a /\ a + zat sizes idx <= capacity /\ (al | a) /\
    forall p b, p ∈ prior -> addr_of lay.1.1 p = Some b -> r_overlaps bufs idx p = true ->
      b + zat sizes p <= a \/ (a = b /\ shares idx p)) as Ho.
  { intros a Ha. unfold o, outcome in Ha. destruct (flag eligible idx); [|done]. apply decision_spec in Ha as (H1 & H2 & H3 & H4).
    - split_and!; try done. intros p b Hp Hb Hov. apply H4; [|done]. apply elem_of_cands. split_and!; [done | done |].
      destruct (flag eligible p) eqn:Ep; [done|]. by destruct (Hel p b Hp Ep Hb).
    - intros p Hp%elem_of_cands. destruct (addr_of lay.1.1 p) as [b|] eqn:Eb; cbn; [|lia]. destruct (Hr p b ltac:(tauto) Eb). done.
    - intros p b Hp%elem_of_cands Hb. destruct (Hr p b ltac:(tauto) Hb) as (_ & _ & H). done. }
  split; [split|].
  - intros p a [Hp | ->%list_elem_of_singleton]%elem_of_app.
    + rewrite Hold by done. by apply Hr.
    + rewrite Hnew. intros Ha. destruct (Ho a Ha) as (H1 & H2 & H3 & _). done.
  - intros p q a b [Hp | ->%list_elem_of_singleton]%elem_of_app [Hq | ->%list_elem_of_singleton]%elem_of_app Hne.
    + rewrite !Hold by done. by apply Hap.
    + rewrite Hold, Hnew by done. intros Ha Hb Hov. rewrite r_overlaps_sym in Hov. destruct (Ho b Hb) as (_ & _ & _ & H).
      destruct (H p a Hp Ha Hov) as [|[-> Hs]]; [left; unfold ranges_disjoint; lia | right; split; [done | by apply shares_sym]].
    + rewrite Hnew, (Hold q Hq). intros Ha Hb Hov. destruct (Ho a Ha) as (_ & _ & _ & H).
      destruct (H q b Hq Hb Hov) as [|[-> Hs]]; [left; unfold ranges_disjoint; lia | by right].
    + done.
  - intros p a [Hp | ->%list_elem_of_singleton]%elem_of_app He.
    + rewrite Hold by done. by apply Hel.
    + rewrite Hnew. unfold o, outcome. by rewrite He.
Qed.

(** Only eligible buffers are placed. *)
Definition only_eligible (prior : list nat) (A : nat -> option Z) : Prop :=
  forall p a, p ∈ prior -> flag eligible p = false -> A p = Some a -> False.

Lemma ref_layout_placed_eligible perm :
  perm ≡ₚ seq 0 n -> let lay := ref_layout bufs capacity al sizes eligible perm in
  length lay.1.1 = n /\ placed_ok (seq 0 n) (addr_of lay.1.1) /\ only_eligible (seq 0 n) (addr_of lay.1.1).
Proof.
  intros Hp. cbn zeta. unfold ref_layout.
  assert (forall rest prior lay, prior ++ rest = perm -> length lay.1.1 = n -> placed_ok prior (addr_of lay.1.1) ->
    only_eligible prior (addr_of lay.1.1) ->
    let lay' := build_from bufs capacity al sizes eligible prior rest lay in
    length lay'.1.1 = n /\ placed_ok perm (addr_of lay'.1.1) /\ only_eligible perm (addr_of lay'.1.1)) as Hgen.
  { induction rest as [|i rest IH]; intros prior lay Hs Hl Hok Hel; cbn [build_from]; cbn zeta; [rewrite app_nil_r in Hs; by subst|].
    assert (NoDup perm) as Hnd by (rewrite Hp; apply NoDup_seq).
    assert (i ∈ perm) as Hi by (rewrite <- Hs; set_solver). rewrite Hp, elem_of_seq in Hi.
    assert (i ∉ prior) as Hni by (rewrite <- Hs in Hnd; apply NoDup_app in Hnd as (_ & Hd & _); intros H; apply (Hd i H); set_solver).
    destruct (build_step_placed prior i lay Hl ltac:(lia) Hni Hok Hel) as (H1 & H2 & H3). apply IH; try done. by rewrite <- app_assoc. }
  destruct (Hgen perm [] (replicate n (Some 0), 0, 0)) as (H1 & [H2 H3] & H4); [done | apply length_replicate | | |].
  - split; intros p; intros; by match goal with H : _ ∈ [] |- _ => apply elem_of_nil in H end.
  - intros p a H. by apply elem_of_nil in H.
  - split_and!; [done | split; [intros p a Hin | intros p q a b Hin1 Hin2]; rewrite <- Hp in *; eauto |].
    intros p a Hin. rewrite <- Hp in Hin. by apply H4.
Qed.

Lemma ref_layout_placed perm :
  perm ≡ₚ seq 0 n -> let lay := ref_layout bufs capacity al sizes eligible perm in
  length lay.1.1 = n /\ placed_ok (seq 0 n) (addr_of lay.1.1).
Proof. intros Hp. cbn zeta. by destruct (ref_layout_placed_eligible perm Hp) as (H1 & H2 & _). Qed.
End validity.

Lemma handed_over bufs child parent c p :
  NoDup (buf_name <$> bufs) -> ref_check_pairs bufs = Ok tt -> bufs !! child = Some c -> bufs !! parent = Some p -> declares bufs child parent = true ->
  buf_name p ∈ in_place_parents c /\ end_time p = start_time c + 1.
Proof.
  intros Hnd Hchk Hc Hp Hd. unfold declares in Hd. rewrite Hc, Hp in Hd. apply bool_decide_eq_true in Hd. split; [done|].
  pose proof (for_each_units _ _ Hchk c (list_elem_of_lookup_2 _ _ _ Hc)) as H1.
  pose proof (for_each_units _ _ H1 (buf_name p) Hd) as H2. cbn in H2.
  rewrite (buf_by_name_lookup bufs p) in H2 by (done || by eapply list_elem_of_lookup_2).
  apply bind_Ok in H2 as ([] & _ & H3%raise_if_Ok). apply negb_false_iff, Z.eqb_eq in H3. done.
Qed.

Lemma related_valid bufs capacity al p r :
  related bufs capacity al p r -> 0 < al -> NoDup (buf_name <$> bufs) -> ref_check_pairs bufs = Ok tt -> r_sizes r = buf_size <$> bufs ->
  valid_plan capacity al (finalize p bufs).
Proof.
  intros Hrel Hal Hnd Hchk Hs. pose proof Hrel as [S1 S2 S3 S4 S5 S6 S7 S8 S9 S10 S11 S12 S13 S14 S15 S16 [S17 S17'] S18 S19].
  destruct (ref_layout_placed bufs capacity al (r_sizes r) (r_eligible r) Hal S14 (r_permutation r) S11) as [HL [Hr Ha]]. cbn zeta in *.
  rewrite <- S18 in *. cbn [fst snd] in *. rewrite <- S8 in *.
  assert (forall i b', finalize p bufs !! i = Some b' -> exists b, bufs !! i = Some b /\ b' = set_address (addr_of (n_addresses p) i) b /\
    zat (r_sizes r) i = buf_size b /\ i ∈ seq 0 (length bufs)) as Hfin.
  { intros i b' Hi. unfold finalize in Hi. apply lookup_zip_with_Some in Hi as (b & a & -> & Hb & Hia). exists b.
    unfold addr_of. rewrite Hia. split_and!; [done | done | unfold zat; by rewrite Hs, list_lookup_fmap, Hb |].
    apply elem_of_seq. apply lookup_lt_Some in Hb. lia. }
  split.
  - intros b x (i & Hi)%list_elem_of_lookup Hx. destruct (Hfin i b Hi) as (b0 & Hb0 & -> & Hsz & Hin). cbn in Hx.
    destruct (Hr i x Hin Hx) as (H1 & H2 & _). rewrite Hsz in H2. done.
  - intros b x (i & Hi)%list_elem_of_lookup Hx. destruct (Hfin i b Hi) as (b0 & Hb0 & -> & Hsz & Hin). cbn in Hx.
    by destruct (Hr i x Hin Hx) as (_ & _ & H3).
  - intros i j b c Hij Hi Hj. destruct (Hfin i b Hi) as (b0 & Hb0 & -> & Hszi & Hini). destruct (Hfin j c Hj) as (c0 & Hc0 & -> & Hszj & Hinj).
    intros x y Hx Hy Hov. cbn in Hx, Hy.
    assert (r_overlaps bufs i j = true) as Hov' by (unfold r_overlaps; rewrite Hb0, Hc0; exact Hov).
    destruct (Ha i j x y Hini Hinj ltac:(lia) Hx Hy Hov') as [Hd|[-> Hsh]]; [left; by rewrite Hszi, Hszj in Hd|]. right.
    destruct Hsh as [[Hd Hle]|[Hd Hle]]; rewrite Hszi, Hszj in Hle.
    + left. destruct (handed_over bufs j i c0 b0 Hnd Hchk Hc0 Hb0 Hd) as [H1 H2]. split_and!; cbn; [done | done | congruence | done].
    + right. destruct (handed_over bufs i j b0 c0 Hnd Hchk Hb0 Hc0 Hd) as [H1 H2]. split_and!; cbn; [done | done | congruence | done].
Qed.

(** ** Quality *)

Section quality.
Context (bufs : list LifetimeBoundBuffer) (capacity al : Z) (sizes : list Z) (eligible : list bool).
#[local] Notation n := (length bufs).

Definition worth (addresses : list (option Z)) (i : nat) : Z := gain bufs sizes i (addr_of addresses i).

Lemma ref_layout_quality perm :
  perm ≡ₚ seq 0 n -> let lay := ref_layout bufs capacity al sizes eligible perm in
  length lay.1.1 = n /\ lay.1.2 = zsum (worth lay.1.1 <$> seq 0 n) /\ lay.2 = cnt (fun i => is_Some (addr_of lay.1.1 i)) (seq 0 n).
Proof.
  intros Hp. cbn zeta. unfold ref_layout.
  assert (NoDup perm) as Hnd by (rewrite Hp; apply NoDup_seq).
  assert (forall rest prior lay, prior ++ rest = perm -> length lay.1.1 = n -> lay.1.2 = zsum (worth lay.1.1 <$> prior) ->
    lay.2 = cnt (fun i => is_Some (addr_of lay.1.1 i)) prior ->
    let lay' := build_from bufs capacity al sizes eligible prior rest lay in
    length lay'.1.1 = n /\ lay'.1.2 = zsum (worth lay'.1.1 <$> perm) /\ lay'.2 = cnt (fun i => is_Some (addr_of lay'.1.1 i)) perm) as Hgen.
  { induction rest as [|i rest IH]; intros prior lay Hs Hl Hq Hc; cbn [build_from]; cbn zeta; [rewrite app_nil_r in Hs; by subst|].
    assert (i ∈ perm) as Hi by (rewrite <- Hs; set_solver). rewrite Hp, elem_of_seq in Hi.
    assert (i ∉ prior) as Hni by (rewrite <- Hs in Hnd; apply NoDup_app in Hnd as (_ & Hd & _); intros H; apply (Hd i H); set_solver).
    rewrite build_step_outcome. cbn zeta. set (o := outcome _ _ _ _ _ _ _ _).
    assert (forall j, j ∈ prior -> addr_of (<[i := o]> lay.1.1) j = addr_of lay.1.1 j) as Hold
      by (intros j Hj; rewrite addr_of_insert, decide_False by (lia || (intros ->; done)); done).
    assert (addr_of (<[i := o]> lay.1.1) i = o) as Hnew by (by rewrite addr_of_insert, decide_True by lia).
    apply IH; cbn [fst snd]; [by rewrite <- app_assoc | by rewrite length_insert | |].
    - rewrite fmap_app, zsum_app, Hq. f_equal; [f_equal; apply list_fmap_ext|].
      + intros k j Hj%list_elem_of_lookup_2. unfold worth. by rewrite Hold.
      + unfold worth. unfold zsum. simpl. rewrite Hnew. lia.
    - unfold cnt. rewrite filter_app, length_app, filter_single. rewrite Hnew, Hc. unfold cnt.
      rewrite (filter_iff_in (fun j => is_Some (addr_of (<[i := o]> lay.1.1) j)) (fun j => is_Some (addr_of lay.1.1 j)))
        by (intros j Hj; by rewrite Hold).
      destruct o; [rewrite decide_True by done | rewrite decide_False by (by intros [])]; cbn [length]; lia. }
  destruct (Hgen perm [] (replicate n (Some 0), 0, 0)) as (H1 & H2 & H3); [done | apply length_replicate | done | done |].
  cbn zeta in *. set (lay := build_from _ _ _ _ _ _ _ _) in *. clearbody lay. clear Hgen. split_and!; [done | |].
  - rewrite H2. by rewrite Hp.
  - rewrite H3. unfold cnt. by rewrite Hp.
Qed.
End quality.

(** What the plan holds once it has been read off: the use-weighted size of every
    buffer with an address, in halves. *)
Definition plan_quality (bufs : list LifetimeBoundBuffer) : Z :=
  zsum ((fun b => if address b is Some _ then weight2 b * buf_size b else 0) <$> bufs).

Definition not_resize (o : packer_op) : Prop := match o with Resize _ _ => False | _ => True end.

Lemma apply_sizes o p p' d : not_resize o -> n_apply o p = Ok (p', d) -> n_sizes p' = n_sizes p.
Proof.
  assert (forall q, n_sizes (RecomputeAll q) = n_sizes q) as Hr by (intros q; unfold RecomputeAll; by destruct (InitIntervals _)).
  destruct o as [i|i j|idx s|idx f]; intros Ho; [| | done |]; cbn [n_apply].
  - unfold n_swap. repeat case_match; try done; intros [= <- <-]; by rewrite ?Hr.
  - unfold n_rotate. repeat case_match; try done; intros [= <- <-]; by rewrite ?Hr.
  - unfold n_set_eligible. intros ([] & _ & H)%bind_Ok. case_match; injection H as <- <-; by rewrite ?Hr.
Qed.

Lemma related_quality bufs capacity al p r :
  related bufs capacity al p r -> r_sizes r = buf_size <$> bufs ->
  n_quality p = plan_quality (finalize p bufs) /\ n_count p = cnt (fun b => is_Some (address b)) (finalize p bufs) /\
  length (finalize p bufs) = length bufs.
Proof.
  intros Hrel Hs. pose proof Hrel as [S1 S2 S3 S4 S5 S6 S7 S8 S9 S10 S11 S12 S13 S14 S15 S16 _ S18].
  destruct (ref_layout_quality bufs capacity al (r_sizes r) (r_eligible r) (r_permutation r) S11) as (HL & HQ & HC). cbn zeta in *.
  rewrite <- S18 in *. cbn [fst snd] in *. rewrite S9, S10, HQ, HC, Hs, <- S8 in *. clear -HL.
  unfold finalize, plan_quality. set (as_ := n_addresses p) in *. clearbody as_.
  assert (forall o bs as', length as' = length bs -> (forall i, bufs !! (o + i)%nat = bs !! i) -> (forall i, as_ !! (o + i)%nat = as' !! i) ->
    zsum (worth bufs (buf_size <$> bufs) as_ <$> seq o (length bs)) =
      zsum ((fun b => if address b is Some _ then weight2 b * buf_size b else 0) <$> zip_with (fun b a => set_address a b) bs as') /\
    cnt (fun i => is_Some (addr_of as_ i)) (seq o (length bs)) = cnt (fun b => is_Some (address b)) (zip_with (fun b a => set_address a b) bs as')) as Hgen.
  { intros o bs. revert o. induction bs as [|b bs IH]; intros o [|a as'] Hl Hb Ha; try done. cbn [length seq zip_with].
    destruct (IH (S o) as') as [I1 I2]; [simpl in Hl; lia | intros i; specialize (Hb (S i)); by rewrite <- Nat.add_succ_comm in Hb |
      intros i; specialize (Ha (S i)); by rewrite <- Nat.add_succ_comm in Ha |].
    pose proof (Hb 0%nat) as Hb0. pose proof (Ha 0%nat) as Ha0. rewrite Nat.add_0_r in Hb0, Ha0. cbn in Hb0, Ha0.
    rewrite !fmap_cons, !zsum_cons, !cnt_cons, I1, I2. split; f_equal.
    - unfold worth, gain, addr_of. rewrite Ha0. cbn. destruct a; [|done]. unfold zat. rewrite list_lookup_fmap, Hb0. done.
    - unfold addr_of. rewrite Ha0. cbn. by destruct a. }
  destruct (Hgen 0%nat bufs as_ HL) as [G1 G2]; [done | done |]. split_and!; [done | done |]. rewrite length_zip_with. lia.
Qed.

(** The largest quality the sizes allow: every buffer placed. *)
Definition most_quality (p : native) : Z := zsum (zip_with Z.mul (st_weight (n_static p)) (n_sizes p)).

Lemma zsum_below (f g : nat -> Z) l : Forall (fun i => 0 <= f i <= g i) l -> 0 <= zsum (f <$> l) <= zsum (g <$> l).
Proof. induction 1 as [|i l Hi _ IH]; [done|]. rewrite !fmap_cons, !zsum_cons. lia. Qed.

Lemma related_quality_range bufs capacity al p r : related bufs capacity al p r -> 0 <= n_quality p <= most_quality p.
Proof.
  intros Hrel. pose proof Hrel as [S1 S2 S3 S4 S5 S6 S7 S8 S9 S10 S11 S12 S13 S14 S15 S16 _ S18 _].
  destruct (ref_layout_quality bufs capacity al (r_sizes r) (r_eligible r) (r_permutation r) S11) as (_ & HQ & _). cbn zeta in *.
  rewrite <- S18 in HQ. cbn [fst snd] in HQ. unfold most_quality. rewrite S9, HQ, S1, S6.
  destruct (static_fields bufs capacity al) as (k & total & ivs & _ & _ & _ & _ & _ & _ & _ & _ & _ & -> & _).
  assert (zip_with Z.mul (weight2 <$> bufs) (r_sizes r) =
    (fun i => default 0 (weight2 <$> bufs !! i) * zat (r_sizes r) i) <$> seq 0 (length bufs)) as ->.
  { apply list_eq. intros i. rewrite lookup_zip_with, !list_lookup_fmap. unfold zat. destruct (decide (i < length bufs)%nat) as [Hi|Hi].
    - rewrite lookup_seq_lt by done. destruct (lookup_lt_is_Some_2 bufs i Hi) as [b Hb].
      destruct (lookup_lt_is_Some_2 (r_sizes r) i) as [z Hz]; [lia|]. cbn. by rewrite Hb, Hz.
    - rewrite lookup_seq_ge, (lookup_ge_None_2 bufs) by lia. done. }
  apply zsum_below, Forall_forall. intros i _. pose proof (zat_nonneg (r_sizes r) i S14).
  assert (0 <= default 0 (weight2 <$> bufs !! i)) by (destruct (bufs !! i) as [b|]; cbn; [unfold weight2; case_match; lia | done]).
  unfold worth, gain. case_match; nia.
Qed.

(** C4. The native packer computes the reference layout. For buffers with non-empty lifetimes
    whose fields fit an int64_t, with sizes, capacity, alignment and every new size of a resize
    of at most 2^61 (so that no int64_t sum of the native packer wraps; the wrap-around itself
    is modelled), construction succeeds in both packers or raises the same exception in both,
    and after every sequence of swap, rotate, resize and set_eligible they hold the same order,
    sizes, eligibility, addresses, quality and allocated count and returned the same quality
    changes, or raised the same exception: the interval aggregates, the saturation stop, the
    fast path and the skipped recomputations change nothing. The quality, counted in halves,
    lies between 0 and the one of every buffer placed, so the doubles of both packers hold it
    exactly while that is at most 2^53 halves. *)
Theorem packers_agree bufs perm capacity al eligible ops :
  Forall (fun b => start_time b < end_time b) bufs -> Forall fits bufs -> small capacity = true -> small al = true ->
  Forall op_fits ops ->
  match (p ← native_init bufs perm capacity al eligible; run n_apply ops p),
        (r ← ref_init bufs perm capacity al eligible; run r_apply ops r) with
  | Ok (p, ds), Ok (r, ds') =>
      n_permutation p = r_permutation r /\ n_sizes p = r_sizes r /\ n_eligible p = r_eligible r /\
      n_addresses p = r_addresses r /\ n_quality p = r_quality r /\ n_count p = r_count r /\ ds = ds' /\
      0 <= n_quality p <= most_quality p
  | Raise e, Raise e' => e = e'
  | _, _ => False
  end.
Proof.
  intros Hlive Hfits Hc Ha Hops. pose proof (init_agrees bufs perm capacity al eligible Hlive Hfits Hc Ha) as Hi.
  destruct (native_init bufs perm capacity al eligible) as [p|e], (ref_init bufs perm capacity al eligible) as [r|e']; cbn [mbind res_bind]; try done.
  destruct Hi as (Hrel & _ & _ & Hal & Hnd & _).
  pose proof (run_agrees bufs capacity al ops p r [] Hlive Hnd Hal (small_room _ Hc) (small_room _ Ha) Hops Hrel) as H.
  unfold run. destruct (for_each _ ops (p, [])) as [[p' ds1]|], (for_each _ ops (r, [])) as [[r' ds2]|]; try done.
  destruct H as [Hrel' ->]. pose proof (related_quality_range _ _ _ _ _ Hrel'). destruct Hrel'. split_and!; done || lia.
Qed.

(** Every plan of the packer is safe to use: after construction and any
    sequence of swaps, rotations and eligibility changes, writing the addresses back
    gives a valid plan (in range, aligned, no two simultaneously live buffers
    sharing bytes outside an in-place handover), changes nothing but addresses, and
    the reported quality and count are exactly those of the plan written. *)
Theorem packer_plan_valid bufs perm capacity al eligible ops p ds :
  Forall (fun b => start_time b < end_time b) bufs -> Forall fits bufs -> small capacity = true -> small al = true ->
  Forall not_resize ops -> (p0 ← native_init bufs perm capacity al eligible; run n_apply ops p0) = Ok (p, ds) ->
  valid_plan capacity al (finalize p bufs) /\ Forall2 (fun b b' => exists a, b' = set_address a b) bufs (finalize p bufs) /\
  n_quality p = plan_quality (finalize p bufs) /\ n_count p = cnt (fun b => is_Some (address b)) (finalize p bufs).
Proof.
  intros Hlive Hfits Hc Ha Hops (p0 & H0 & Hrun)%bind_Ok.
  pose proof (init_agrees bufs perm capacity al eligible Hlive Hfits Hc Ha) as Hi. rewrite H0 in Hi.
  destruct (ref_init bufs perm capacity al eligible) as [r0|]; [|done]. destruct Hi as (Hrel & _ & Hs & Hal & Hnd & Hchk).
  assert (Forall op_fits ops) as Hof by (eapply Forall_impl; [exact Hops|]; by intros []).
  pose proof (run_agrees bufs capacity al ops p0 r0 [] Hlive Hnd Hal (small_room _ Hc) (small_room _ Ha) Hof Hrel) as H. unfold run in Hrun. rewrite Hrun in H.
  destruct (for_each _ ops (r0, [])) as [[r ds']|]; [|done]. destruct H as [Hrel' _].
  assert (n_sizes p = n_sizes p0) as Hsz.
  { refine (for_each_ind _ (fun _ pd => n_sizes pd.1 = n_sizes p0) ops (p0, []) (p, ds) _ eq_refl Hrun).
    intros dn o rest [p1 l1] [p2 l2] Hsplit Hp1 Hstep. apply bind_Ok in Hstep as ([p2' d] & H1 & [= <- <-]). cbn [fst snd] in *.
    rewrite <- Hp1. eapply apply_sizes; [|exact H1]. rewrite Forall_forall in Hops. apply Hops. rewrite Hsplit. set_solver. }
  assert (r_sizes r = buf_size <$> bufs) as Hrs by (rewrite <- (rel_sizes _ _ _ _ _ Hrel'), Hsz, (rel_sizes _ _ _ _ _ Hrel); exact Hs).
  destruct (related_quality _ _ _ _ _ Hrel' Hrs) as (Q1 & Q2 & Q3).
  split_and!; [by eapply related_valid | | done | done].
  apply Forall2_same_length_lookup_2; [done|]. intros i b b' Hb Hb'. unfold finalize in Hb'.
  apply lookup_zip_with_Some in Hb' as (b0 & a & -> & Hb0 & _). exists a. congruence.
Qed.

(** ** Witnesses *)

(** Without the bound on the sizes the two packers part: the top of a buffer of
    2^63 - 1 bytes above one of 256 is negative in an [int64_t], so the native packer
    places what the reference evicts. *)
Example overlong_size_wraps :
  let bufs := [simple_buffer "a" 256 [0; 2] [] []; simple_buffer "b" INT64_MAX [1; 3] [] []]%string in
  (p ← native_init bufs [0; 1]%nat 512 128 None; Ok (n_addresses p)) = Ok [Some 0; Some 256] /\
  (r ← ref_init bufs [0; 1]%nat 512 128 None; Ok (r_addresses r)) = Ok [Some 0; None].
Proof. vm_compute. split; reflexivity. Qed.

(** [c] takes over [a]'s slot; [d] is evicted; [e] alone does not overlap anything. *)
Definition packer_sample : list LifetimeBoundBuffer :=
  [ simple_buffer "a" 256 [0; 2] [] []; simple_buffer "b" 200 [1; 3] [] [];
    simple_buffer "c" 256 [2; 4] ["a"] []; simple_buffer "d" 300 [1; 5] [] []; simple_buffer "e" 128 [7; 8] [] [] ]%string.

Definition packer_ops : list packer_op :=
  [Swap 3; Rotate 3 0; SetEligible 1 false; Resize 1 64; Rotate 0 4; SetEligible 1 true; Rotate 9 9].

Example packer_sample_addresses :
  (p ← native_init packer_sample [1; 0; 2; 3; 4]%nat 512 128 None; Ok (n_addresses p, n_quality p, n_count p))
    = Ok ([Some 256; Some 0; Some 256; None; Some 0], 4200, 4).
Proof. vm_compute. reflexivity. Qed.

Lemma packers_agree_witness :
  exists p r ds,
    (p ← native_init packer_sample [1; 0; 2; 3; 4]%nat 512 128 None; run n_apply (take 6 packer_ops) p) = Ok (p, ds) /\
    (r ← ref_init packer_sample [1; 0; 2; 3; 4]%nat 512 128 None; run r_apply (take 6 packer_ops) r) = Ok (r, ds) /\
    n_addresses p = r_addresses r.
Proof.
  pose proof (packers_agree packer_sample [1; 0; 2; 3; 4]%nat 512 128 None (take 6 packer_ops)) as H.
  destruct (p ← native_init packer_sample [1; 0; 2; 3; 4]%nat 512 128 None; run n_apply (take 6 packer_ops) p) as [[p ds]|] eqn:E1;
    [|vm_compute in E1; discriminate E1].
  destruct (r ← ref_init packer_sample [1; 0; 2; 3; 4]%nat 512 128 None; run r_apply (take 6 packer_ops) r) as [[r ds']|] eqn:E2;
    [|vm_compute in E2; discriminate E2].
  destruct H as (_ & _ & _ & Ha & _ & _ & -> & _).
  - apply (bool_decide_unpack _). vm_compute. exact I.
  - repeat constructor.
  - reflexivity.
  - reflexivity.
  - repeat constructor.
  - exists p, r, ds'. split; [reflexivity|]. split; [reflexivity | exact Ha].
Defined.

Lemma packer_plan_valid_witness :
  exists p ds, (p0 ← native_init packer_sample [1; 0; 2; 3; 4]%nat 512 128 None; run n_apply (take 3 packer_ops) p0) = Ok (p, ds) /\
    valid_plan 512 128 (finalize p packer_sample).
Proof.
  destruct (p0 ← native_init packer_sample [1; 0; 2; 3; 4]%nat 512 128 None; run n_apply (take 3 packer_ops) p0) as [[p ds]|] eqn:E;
    [|vm_compute in E; discriminate E].
  exists p, ds. split; [reflexivity|].
  apply (packer_plan_valid packer_sample [1; 0; 2; 3; 4]%nat 512 128 None (take 3 packer_ops) p ds); [| | reflexivity | reflexivity | | exact E].
  - apply (bool_decide_unpack _). vm_compute. exact I.
  - repeat constructor.
  - repeat constructor.
Defined.
