(* ===== verification/Cooling.v ===== *)
(** * Cooling schedules ([scratchpad/cooling_schedules.py])

    A [CoolingSchedule] hands the annealer one temperature per step and stops it.
    The class below is what the annealer relies on; [ExponentialCoolingSchedule] and
    [SelfCalibratingReheatingSchedule] implement it.

    Temperatures are floating-point numbers: their type and operations are
    parameters ([FloatOps]), every formula is written out with them, and no law of
    theirs is used; step counts, cycles and phases are integers.  [peak_memory_load]
    is integer code; its heap of [(end_time, size)] pairs is kept as a sorted list. *)

From S2P Require Import Prelude PlanSolver.

(** ** Peak memory load *)

Definition pair_le (a b : Z * Z) : bool := (a.1 <? b.1) || ((a.1 =? b.1) && (a.2 <=? b.2)).

Definition heappush (heap : list (Z * Z)) (x : Z * Z) : list (Z * Z) := insert_sorted pair_le x heap.

(** [while end_points and end_points[0][0] <= start: current_load -= heappop(end_points)[1]] *)
Fixpoint pop_ended (start load : Z) (heap : list (Z * Z)) : Z * list (Z * Z) :=
  match heap with
  | (e, s) :: heap' => if e <=? start then pop_ended start (load - s) heap' else (load, heap)
  | [] => (load, [])
  end.

(** One buffer of the sweep: the state is [(current_load, peak_load, end_points)]. *)
Definition sweep_step (st : Z * Z * list (Z * Z)) (b : LifetimeBoundBuffer) : Z * Z * list (Z * Z) :=
  let '(load, peak, heap) := st in
  let '(load, heap) := pop_ended (start_time b) load heap in
  let load := load + buf_size b in
  (load, Z.max peak load, heappush heap (end_time b, buf_size b)).

Definition peak_memory_load (buffers : list LifetimeBoundBuffer) : Z :=
  (foldl sweep_step (0, 0, []) (py_sorted (fun a b => start_time a <=? start_time b) buffers)).1.2.

(** The bytes live at a tick. *)
Definition load_at (t : Z) (buffers : list LifetimeBoundBuffer) : Z :=
  zsum (buf_size <$> filter (fun b => start_time b <= t < end_time b) buffers).

Lemma load_at_cons t b l :
  load_at t (b :: l) = (if decide (start_time b <= t < end_time b) then buf_size b else 0) + load_at t l.
Proof. unfold load_at. rewrite filter_cons. case_decide; [by rewrite fmap_cons, zsum_cons | done]. Qed.

Lemma load_at_snoc t l b :
  load_at t (l ++ [b]) = load_at t l + (if decide (start_time b <= t < end_time b) then buf_size b else 0).
Proof.
  unfold load_at. rewrite filter_app, fmap_app, zsum_app, filter_cons, filter_nil. f_equal.
  case_decide; [|done]. unfold zsum. simpl. lia.
Qed.

#[export] Instance load_at_proper t : Proper (Permutation ==> eq) (load_at t).
Proof. intros l k H. unfold load_at. by rewrite H. Qed.

Lemma load_at_nonneg t l : (forall b, b ∈ l -> 0 <= buf_size b) -> 0 <= load_at t l.
Proof.
  intros H. induction l as [|b l IH]; [done|]. rewrite load_at_cons. pose proof (H b ltac:(left)).
  pose proof (IH (fun c Hc => H c ltac:(by right))). case_decide; lia.
Qed.

(** The buffers swept so far that end after [s], as the heap holds them. *)
Definition pending (s : Z) (l : list LifetimeBoundBuffer) : list (Z * Z) :=
  (fun b => (end_time b, buf_size b)) <$> filter (fun b => s < end_time b) l.

Lemma pop_ended_spec start heap : forall load,
  StronglySorted (fun a b => pair_le a b = true) heap ->
  let kept := filter (fun p => start < p.1) heap in
  pop_ended start load heap = (load - zsum (snd <$> heap) + zsum (snd <$> kept), kept).
Proof.
  induction heap as [|[e s] heap IH]; intros load Hs; cbn [pop_ended]; cbn zeta; [unfold zsum; simpl; f_equal; lia|].
  apply StronglySorted_inv in Hs as [Hs He]. rewrite filter_cons. cbn [fst]. destruct (Z.leb_spec e start) as [Hle|Hgt].
  - rewrite decide_False by lia. rewrite IH by done. cbn zeta. rewrite fmap_cons, zsum_cons. cbn [snd]. f_equal. lia.
  - rewrite decide_True by lia. assert (filter (fun p => start < p.1) heap = heap) as ->.
    { apply filter_all. intros p Hp. rewrite Forall_forall in He. specialize (He p Hp). unfold pair_le in He. cbn in He. lia. }
    f_equal. lia.
Qed.

Lemma heappush_perm heap x : heappush heap x ≡ₚ x :: heap.
Proof. apply insert_sorted_perm. Qed.

Lemma heappush_sorted heap x :
  StronglySorted (fun a b => pair_le a b = true) heap -> StronglySorted (fun a b => pair_le a b = true) (heappush heap x).
Proof.
  apply insert_sorted_sorted.
  - intros a b. unfold pair_le. lia.
  - intros a b c. unfold pair_le. lia.
Qed.

(** What the sweep holds after the buffers [l], the last of which starts at [s]. *)
Record sweep_inv (l : list LifetimeBoundBuffer) (st : Z * Z * list (Z * Z)) : Prop := {
  sw_sorted : StronglySorted (fun a b => pair_le a b = true) st.2;
  sw_load : st.1.1 = zsum (snd <$> st.2);
  sw_heap : exists s, st.2 ≡ₚ pending s l /\ (forall b, b ∈ l -> start_time b <= s) /\ (l = [] \/ exists b, b ∈ l /\ start_time b = s);
  sw_upper : forall b, b ∈ l -> load_at (start_time b) l <= st.1.2;
  sw_attained : st.1.2 = 0 \/ exists t k, k `prefix_of` l /\ st.1.2 = load_at t k /\ (forall b, b ∈ k -> start_time b <= t)
}.

Lemma pending_later s s' l : s <= s' -> filter (fun p => s' < p.1) (pending s l) = pending s' l.
Proof.
  intros Hs. unfold pending. induction l as [|b l IH]; [done|]. rewrite !filter_cons.
  destruct (decide (s < end_time b)) as [H1|H1], (decide (s' < end_time b)) as [H2|H2]; try lia; rewrite ?fmap_cons, ?filter_cons; cbn [fst].
  - rewrite decide_True by done. by rewrite IH.
  - by rewrite decide_False by done.
  - done.
Qed.

Lemma load_pending t l : (forall b, b ∈ l -> start_time b <= t) -> load_at t l = zsum (snd <$> pending t l).
Proof.
  intros H. unfold load_at, pending. rewrite <- list_fmap_compose. f_equal.
  rewrite (filter_iff_in (fun b => start_time b <= t < end_time b) (fun b => t < end_time b)) by (intros b Hb; specialize (H b Hb); lia).
  done.
Qed.

Lemma sweep_step_inv l st b :
  sweep_inv l st -> (forall c, c ∈ l -> start_time c <= start_time b) -> start_time b < end_time b ->
  sweep_inv (l ++ [b]) (sweep_step st b).
Proof.
  intros [S1 S2 (s & S3 & S4 & S5) S6 S7] Hle Hlt. destruct st as [[load peak] heap]. cbn [fst snd] in *. unfold sweep_step.
  assert (s <= start_time b \/ l = []) as Hsb by (destruct S5 as [->|(c & Hc & <-)]; [by right | left; by apply Hle]).
  rewrite pop_ended_spec by done.
  cbn zeta. set (kept := filter (fun p => start_time b < p.1) heap).
  assert (kept ≡ₚ pending (start_time b) l) as Hkept.
  { unfold kept. rewrite S3. destruct Hsb as [Hsb | ->]; [|done]. by rewrite pending_later. }
  assert (load - zsum (snd <$> heap) + zsum (snd <$> kept) + buf_size b = load_at (start_time b) (l ++ [b])) as Hload.
  { rewrite load_at_snoc, decide_True by lia. rewrite load_pending by done. rewrite <- Hkept. lia. }
  split; cbn [fst snd].
  - apply heappush_sorted. eapply StronglySorted_sublist; [apply sublist_filter | exact S1].
  - rewrite heappush_perm, fmap_cons, zsum_cons. cbn [snd]. lia.
  - exists (start_time b). split_and!.
    + rewrite heappush_perm, Hkept. unfold pending. rewrite filter_app, fmap_app, filter_cons, filter_nil, decide_True by lia.
      apply Permutation_cons_append.
    + intros c [Hc | ->%list_elem_of_singleton]%elem_of_app; [by apply Hle | lia].
    + right. exists b. set_solver.
  - intros c Hc. rewrite Hload. apply elem_of_app in Hc as [Hc | ->%list_elem_of_singleton]; [|lia].
    destruct (decide (start_time c = start_time b)) as [->|Hne]; [lia|]. specialize (Hle c Hc). rewrite load_at_snoc, decide_False by lia.
    specialize (S6 c Hc). lia.
  - rewrite Hload. destruct (Z.max_spec peak (load_at (start_time b) (l ++ [b]))) as [[_ ->]|[_ ->]].
    + right. exists (start_time b), (l ++ [b]). split_and!; [done | done |].
      intros c [Hc | ->%list_elem_of_singleton]%elem_of_app; [by apply Hle | lia].
    + destruct S7 as [->|(t & k & Hk & -> & Ht)]; [by left|]. right. exists t, k. split_and!; [by apply prefix_app_r | done | done].
Qed.

Lemma sweep_inv_all l :
  StronglySorted (fun a b => start_time a <= start_time b) l -> Forall (fun b => start_time b < end_time b) l ->
  sweep_inv l (foldl sweep_step (0, 0, []) l).
Proof.
  induction l as [|b l IH] using rev_ind; intros Hs Hl.
  - split; cbn; [constructor | done | exists 0; split_and!; [done | set_solver | by left] | set_solver | by left].
  - rewrite foldl_app. cbn [foldl]. apply Forall_app in Hl as [Hl Hb]. apply Forall_cons in Hb as [Hb _].
    assert (forall c, c ∈ l -> start_time c <= start_time b) as Hle.
    { intros c [i Hi]%list_elem_of_lookup. apply (StronglySorted_lookup_lt _ _ i (length l) _ _ Hs).
      - by apply lookup_lt_Some in Hi.
      - by apply lookup_app_l_Some.
      - by apply list_lookup_middle. }
    apply sweep_step_inv; [|done|done]. apply IH; [|done]. eapply StronglySorted_sublist; [by apply sublist_inserts_r | exact Hs].
Qed.

(** Everything live at a tick was live at the latest start among it. *)
Lemma load_at_start t l :
  (forall b, b ∈ l -> 0 <= buf_size b) -> load_at t l = 0 \/ exists b, b ∈ l /\ load_at t l <= load_at (start_time b) l.
Proof.
  intros Hpos. destruct (decide (filter (fun b => start_time b <= t < end_time b) l = [])) as [He|Hne].
  - left. unfold load_at. by rewrite He.
  - right. set (live := filter (fun b => start_time b <= t < end_time b) l) in *.
    assert (start_time <$> live <> []) as Hne' by (by destruct live).
    pose proof (list_max_elem 0 (start_time <$> live) Hne') as Hm. apply list_elem_of_fmap in Hm as (b & Hb & Hin).
    exists b. apply list_elem_of_filter in Hin as [Hbt Hbl]. split; [done|].
    assert (forall c, c ∈ l -> start_time c <= t < end_time c -> start_time c <= start_time b < end_time c) as Hall.
    { intros c Hc Ht. assert (start_time c <= start_time b); [|lia]. rewrite <- Hb. apply list_max_ge, list_elem_of_fmap_2.
      by apply list_elem_of_filter. }
    clear -Hall Hpos. induction l as [|c l IH]; [done|]. rewrite !load_at_cons.
    pose proof (Hpos c ltac:(left)). pose proof (Hall c ltac:(left)).
    assert (load_at t l <= load_at (start_time b) l) by (apply IH; intros; [apply Hpos | apply Hall]; try done; by right).
    repeat case_decide; lia.
Qed.

Lemma load_at_prefix t k l : (forall b, b ∈ l -> 0 <= buf_size b) -> k `prefix_of` l -> load_at t k <= load_at t l.
Proof.
  intros Hpos [r ->]. assert (load_at t (k ++ r) = load_at t k + load_at t r) as ->.
  { unfold load_at. by rewrite filter_app, fmap_app, zsum_app. }
  pose proof (load_at_nonneg t r (fun b Hb => Hpos b ltac:(set_solver))). lia.
Qed.

(** The heap sweep computes the peak: for buffers with non-empty lifetimes and
    sizes that are not negative, [peak_memory_load] bounds the bytes live at every
    tick, and some tick reaches it. *)
Theorem peak_memory_load_spec buffers :
  Forall (fun b => start_time b < end_time b) buffers -> Forall (fun b => 0 <= buf_size b) buffers ->
  (forall t, load_at t buffers <= peak_memory_load buffers) /\ exists t, load_at t buffers = peak_memory_load buffers.
Proof.
  intros Hlive Hpos. unfold peak_memory_load. set (l := py_sorted _ buffers).
  assert (l ≡ₚ buffers) as Hp by apply py_sorted_perm.
  destruct (sweep_inv_all l) as [_ _ _ Hup Hat].
  { apply py_sorted_coarse; intros; lia. }
  { by rewrite Hp. }
  assert (forall b, b ∈ l -> 0 <= buf_size b) as Hpl by (rewrite <- Hp in Hpos; by apply Forall_forall).
  set (peak := (foldl sweep_step (0, 0, []) l).1.2) in *. setoid_rewrite <- Hp.
  assert (0 <= peak) as H0.
  { destruct Hat as [->|(t & k & Hk & -> & _)]; [done|]. apply load_at_nonneg. intros b Hb. apply Hpl. by eapply elem_of_prefix. }
  assert (forall t, load_at t l <= peak) as Hall.
  { intros t. destruct (load_at_start t l Hpl) as [->|(b & Hb & Hle)]; [done|]. specialize (Hup b Hb). lia. }
  split; [done|]. destruct Hat as [Hz|(t & k & Hk & He & _)].
  - exists 0. pose proof (Hall 0). pose proof (load_at_nonneg 0 l Hpl). lia.
  - exists t. pose proof (Hall t). pose proof (load_at_prefix t k l Hpl Hk). lia.
Qed.

(** ** Schedules *)

(** Python floats, as the schedules use them. *)
Class FloatOps (F : Type) := {
  f_Z : Z -> F;
  f_add : F -> F -> F;
  f_sub : F -> F -> F;
  f_mul : F -> F -> F;
  f_div : F -> F -> F;
  f_pow : F -> F -> F;
  f_min : F -> F -> F;
  f_neg : F -> F;
  f_log : F -> F;
  f_exp : F -> F;
  f_sqrt : F -> F;
  f_ltb : F -> F -> bool;
  f_eqb : F -> F -> bool
}.

(** What the annealer relies on: [reset] starts a run, [update] continues it, and
    [remaining] counts the temperatures still to come. *)
Class CoolingSchedule (F Sch : Type) := {
  set_buffers : list LifetimeBoundBuffer -> Sch -> Sch;
  reset : Sch -> res (option F * Sch);
  update : bool -> F -> Sch -> option F * Sch;
  remaining : Sch -> nat;
  update_counts : forall accepted scale s,
    match update accepted scale s with
    | (Some _, s') => remaining s = S (remaining s')
    | (None, _) => remaining s = 0%nat
    end
}.

Section schedules.
Context {F : Type} `{!FloatOps F}.

Definition default_initial_temperature (buffers : list LifetimeBoundBuffer) : F :=
  f_div (f_Z (peak_memory_load buffers)) (f_Z 300).

(** *** [ExponentialCoolingSchedule] *)

Record exponential := mkExp {
  t_initial : F; exp_alpha : F; steps_per_epoch : Z; epochs : Z; exp_t : F; exp_i : Z
}.

Definition exponential_init (t_init t_final : F) (steps eps : Z) : res exponential :=
  raise_if ((1 <? eps) && f_eqb t_init (f_Z 0)) ZeroDivisionError;;
  let alpha := if eps <=? 1 then f_Z 1 else f_pow (f_div t_final t_init) (f_div (f_Z 1) (f_Z (eps - 1))) in
  Ok (mkExp t_init alpha steps eps t_init 0).

Definition exponential_reset (s : exponential) : res (option F * exponential) :=
  Ok (Some (t_initial s), mkExp (t_initial s) (exp_alpha s) (steps_per_epoch s) (epochs s) (t_initial s) 0).

Definition exponential_update (accepted : bool) (scale : F) (s : exponential) : option F * exponential :=
  let i := exp_i s + 1 in
  if steps_per_epoch s * epochs s <=? i
  then (None, mkExp (t_initial s) (exp_alpha s) (steps_per_epoch s) (epochs s) (exp_t s) i)
  else
    let t := if i mod steps_per_epoch s =? 0 then f_mul (exp_t s) (exp_alpha s) else exp_t s in
    (Some t, mkExp (t_initial s) (exp_alpha s) (steps_per_epoch s) (epochs s) t i).

Definition exponential_remaining (s : exponential) : nat := Z.to_nat (steps_per_epoch s * epochs s - exp_i s - 1).

#[export] Program Instance exponential_schedule : CoolingSchedule F exponential := {
  set_buffers := fun _ s => s;
  reset := exponential_reset;
  update := exponential_update;
  remaining := exponential_remaining
}.
Next Obligation.
  intros accepted scale s. unfold exponential_update, exponential_remaining.
  destruct (Z.leb_spec (steps_per_epoch s * epochs s) (exp_i s + 1)); cbn; lia.
Qed.

(** *** [SelfCalibratingReheatingSchedule] *)

Record reheating := mkReheat {
  r_total_arg : option Z;          (* _total_steps *)
  r_cycles : Z;
  r_horizons : F;
  r_steps_per_buffer : Z;
  r_min_steps : Z;
  r_max_steps : Z;
  r_rt_ab : F;
  r_delta : F;
  r_total_steps : Z;
  r_cycle_len : Z;
  r_seed_center : F;
  r_alpha : F;
  r_ema_beta : F;
  r_snap_after : Z;
  r_i : Z;
  r_s : Z;
  r_cycle : Z;
  r_center : F;
  r_d_hat : option F;
  r_sample_sum : F;
  r_n_samples : Z
}.

(** [total_steps or 0]; fields set later start at zero. *)
Definition reheating_init (total_steps : option Z) (cycles : Z) (horizons : F)
    (steps_per_buffer min_steps max_steps : Z) (accept_hi accept_lo : F) : res reheating :=
  raise_if (negb (f_ltb (f_Z 0) accept_lo && f_ltb accept_lo accept_hi && f_ltb accept_hi (f_Z 1))) ValueError;;
  raise_if (cycles <? 1) ValueError;;
  raise_if (negb (f_ltb (f_Z 0) horizons)) ValueError;;
  let a := f_neg (f_log accept_hi) in
  let b := f_neg (f_log accept_lo) in
  Ok (mkReheat total_steps cycles horizons steps_per_buffer min_steps max_steps
        (f_sqrt (f_mul a b)) (f_sqrt (f_div b a)) (default 0 total_steps) 0 (f_Z 1)
        (f_Z 0) (f_Z 0) 0 0 0 0 (f_Z 0) None (f_Z 0) 0).

Definition reheating_set_buffers (buffers : list LifetimeBoundBuffer) (s : reheating) : reheating :=
  let total :=
    match r_total_arg s with
    | None => Z.min (r_max_steps s) (Z.max (r_min_steps s) (r_steps_per_buffer s * Z.of_nat (length buffers)))
    | Some t => Z.max 1 t
    end in
  let cycle_len := Z.max 1 (total / r_cycles s) in
  let snap := Z.min (cycle_len / 4) 20 in
  mkReheat (r_total_arg s) (r_cycles s) (r_horizons s) (r_steps_per_buffer s) (r_min_steps s) (r_max_steps s)
    (r_rt_ab s) (r_delta s) total cycle_len
    (f_div (default_initial_temperature buffers) (r_delta s))
    (f_pow (r_delta s) (f_div (f_Z (-2)) (f_Z cycle_len)))
    (f_min (f_Z 1) (f_div (r_horizons s) (f_Z cycle_len)))
    (if snap =? 0 then 1 else snap)
    (r_i s) (r_s s) (r_cycle s) (r_center s) (r_d_hat s) (r_sample_sum s) (r_n_samples s).

Definition temperature (s : reheating) : F :=
  f_mul (f_mul (r_center s) (r_delta s)) (f_pow (r_alpha s) (f_Z (r_s s))).

(** The mutable part of the state: steps, phase, cycle, centre and samples. *)
Definition advance (i s cycle : Z) (center : F) (d_hat : option F) (sample_sum : F) (n_samples : Z) (r : reheating) : reheating :=
  mkReheat (r_total_arg r) (r_cycles r) (r_horizons r) (r_steps_per_buffer r) (r_min_steps r) (r_max_steps r)
    (r_rt_ab r) (r_delta r) (r_total_steps r) (r_cycle_len r) (r_seed_center r) (r_alpha r) (r_ema_beta r) (r_snap_after r)
    i s cycle center d_hat sample_sum n_samples.

Definition reheating_reset (s : reheating) : res (option F * reheating) :=
  raise_if (r_cycle_len s =? 0) ValueError;;
  let s' := advance 0 0 0 (r_seed_center s) None (f_Z 0) 0 s in
  Ok (Some (temperature s'), s').

(** The tracking of the move scale: [(d_hat, sample_sum, n_samples)]. *)
Definition track (scale : F) (s : reheating) : option F * F * Z :=
  if f_ltb (f_Z 0) scale
  then match r_d_hat s with
       | None =>
           let sum := f_add (r_sample_sum s) scale in
           let n := r_n_samples s + 1 in
           (if r_snap_after s <=? n then Some (f_div sum (f_Z n)) else None, sum, n)
       | Some d => (Some (f_add d (f_mul (r_ema_beta s) (f_sub scale d))), r_sample_sum s, r_n_samples s)
       end
  else (r_d_hat s, r_sample_sum s, r_n_samples s).

Definition reheating_update (accepted : bool) (scale : F) (s : reheating) : option F * reheating :=
  let '(d_hat, sum, n) := track scale s in
  let center := match d_hat with Some d => f_div d (r_rt_ab s) | None => r_center s end in
  let i := r_i s + 1 in
  if r_total_steps s <=? i then (None, advance i (r_s s) (r_cycle s) center d_hat sum n s)
  else
    let ph := r_s s + 1 in
    let boundary := (r_cycle_len s <=? ph) && (r_cycle s <? r_cycles s - 1) in
    let s' := advance i (if boundary then 0 else ph) (if boundary then r_cycle s + 1 else r_cycle s) center d_hat sum n s in
    (Some (temperature s'), s').

Definition reheating_remaining (s : reheating) : nat := Z.to_nat (r_total_steps s - r_i s - 1).

#[export] Program Instance reheating_schedule : CoolingSchedule F reheating := {
  set_buffers := reheating_set_buffers;
  reset := reheating_reset;
  update := reheating_update;
  remaining := reheating_remaining
}.
Next Obligation.
  intros accepted scale s. unfold reheating_update, reheating_remaining. destruct (track scale s) as [[d sum] n].
  destruct (Z.leb_spec (r_total_steps s) (r_i s + 1)); cbn; lia.
Qed.

(** A run of a schedule on the feedback of the annealer: the temperatures it emits. *)
Fixpoint emitted {Sch} `{!CoolingSchedule F Sch} (feedback : list (bool * F)) (t : F) (s : Sch) : list F :=
  t :: match feedback with
       | [] => []
       | fb :: feedback' =>
           match update fb.1 fb.2 s with
           | (Some t', s') => emitted feedback' t' s'
           | (None, _) => []
           end
       end.

Lemma emitted_length {Sch} `{!CoolingSchedule F Sch} feedback t s :
  length (emitted feedback t s) = S (Nat.min (length feedback) (remaining s)).
Proof.
  revert t s. induction feedback as [|fb feedback IH]; intros t s; cbn [emitted length]; [done|]. f_equal.
  pose proof (update_counts fb.1 fb.2 s) as H. destruct (update fb.1 fb.2 s) as [[t'|] s'].
  - rewrite IH, H. lia.
  - rewrite H. cbn [length]. lia.
Qed.

(** Where a reheating run stands after [i] steps. *)
Definition phase_at (len cycles i : Z) : Z := i - len * Z.min (cycles - 1) (i / len).
Definition cycle_at (len cycles i : Z) : Z := Z.min (cycles - 1) (i / len).

Lemma phase_step len cycles i :
  1 <= len -> 1 <= cycles -> 0 <= i ->
  let s := phase_at len cycles i in let c := cycle_at len cycles i in
  let boundary := (len <=? s + 1) && (c <? cycles - 1) in
  (if boundary then 0 else s + 1) = phase_at len cycles (i + 1) /\ (if boundary then c + 1 else c) = cycle_at len cycles (i + 1).
Proof.
  intros Hl Hc Hi. cbn zeta. unfold phase_at, cycle_at. pose proof (Z.div_mod i len ltac:(lia)) as Hd. pose proof (Z.mod_pos_bound i len ltac:(lia)) as Hm.
  set (q := i / len) in *. set (r := i mod len) in *. assert (0 <= q) by (apply Z.div_pos; lia).
  assert ((i + 1) / len = if r + 1 =? len then q + 1 else q) as ->.
  { destruct (Z.eqb_spec (r + 1) len).
    - symmetry. apply (Z.div_unique _ _ _ 0); lia.
    - symmetry. apply (Z.div_unique _ _ _ (r + 1)); lia. }
  destruct (Z.eqb_spec (r + 1) len) as [He|He].
  - destruct (Z.leb_spec len (i - len * Z.min (cycles - 1) q + 1)), (Z.ltb_spec (Z.min (cycles - 1) q) (cycles - 1)); cbn [andb]; nia.
  - destruct (Z.leb_spec len (i - len * Z.min (cycles - 1) q + 1)), (Z.ltb_spec (Z.min (cycles - 1) q) (cycles - 1)); cbn [andb]; nia.
Qed.

(** The constants of a run, and its integer state after [i] steps. *)
Record reheating_at (c : reheating) (i : Z) (s : reheating) : Prop := {
  at_total : r_total_steps s = r_total_steps c;
  at_len : r_cycle_len s = r_cycle_len c;
  at_cycles : r_cycles s = r_cycles c;
  at_delta : r_delta s = r_delta c;
  at_alpha : r_alpha s = r_alpha c;
  at_rt_ab : r_rt_ab s = r_rt_ab c;
  at_i : r_i s = i;
  at_phase : r_s s = phase_at (r_cycle_len c) (r_cycles c) i;
  at_cycle : r_cycle s = cycle_at (r_cycle_len c) (r_cycles c) i;
  at_center : r_center s = r_seed_center c \/ exists d, r_center s = f_div d (r_rt_ab c)
}.

Lemma reheating_update_at c i s accepted scale t s' :
  1 <= r_cycle_len c -> 1 <= r_cycles c -> 0 <= i -> reheating_at c i s ->
  reheating_update accepted scale s = (Some t, s') -> t = temperature s' /\ reheating_at c (i + 1) s'.
Proof.
  intros Hl Hc Hi [A1 A2 A3 A4 A5 A6 A7 A8 A9 A10]. unfold reheating_update. destruct (track scale s) as [[d sum] n].
  destruct (r_total_steps s <=? r_i s + 1); [done|]. intros [= <- <-]. split; [done|].
  destruct (phase_step (r_cycle_len c) (r_cycles c) i Hl Hc Hi) as [P1 P2]. cbn zeta in P1, P2. unfold advance.
  split; cbn [r_total_steps r_cycle_len r_cycles r_delta r_alpha r_rt_ab r_i r_s r_cycle r_center]; try done.
  - by rewrite A7.
  - by rewrite A2, A3, A8, A9.
  - by rewrite A2, A3, A8, A9.
  - destruct d as [d|]; [right; exists d; by rewrite A6 | done].
Qed.

(** The temperature at step [i] of a run with the constants of [c]. *)
Definition band (c : reheating) (i : Z) (t : F) : Prop :=
  exists center, (center = r_seed_center c \/ exists d, center = f_div d (r_rt_ab c)) /\
    t = f_mul (f_mul center (r_delta c)) (f_pow (r_alpha c) (f_Z (phase_at (r_cycle_len c) (r_cycles c) i))).

Lemma emitted_band c feedback : forall i t s,
  1 <= r_cycle_len c -> 1 <= r_cycles c -> 0 <= i -> reheating_at c i s -> t = temperature s ->
  forall k tk, emitted feedback t s !! k = Some tk -> band c (i + Z.of_nat k) tk.
Proof.
  induction feedback as [|fb feedback IH]; intros i t s Hl Hc Hi Hat Ht k tk; cbn [emitted].
  - destruct k as [|k]; [|done]. cbn. intros [= <-]. subst t. rewrite Z.add_0_r. destruct Hat. exists (r_center s).
    split; [done|]. unfold temperature. congruence.
  - destruct k as [|k]; cbn [lookup list_lookup].
    + intros [= <-]. subst t. rewrite Z.add_0_r. destruct Hat. exists (r_center s). split; [done|]. unfold temperature. congruence.
    + change (update fb.1 fb.2 s) with (reheating_update fb.1 fb.2 s).
      destruct (reheating_update fb.1 fb.2 s) as [[t'|] s'] eqn:Eu; [|done]. intros Hk.
      destruct (reheating_update_at c i s _ _ _ _ Hl Hc Hi Hat Eu) as [-> Hat'].
      replace (i + Z.of_nat (S k)) with (i + 1 + Z.of_nat k) by lia. eapply IH; [done | done | lia | exact Hat' | done | exact Hk].
Qed.
End schedules.

(** A reheating run spends exactly its budget and follows its cycles.  From the
    constructor, [set_buffers] and [reset], the schedule emits one temperature per
    feedback until [total_steps] (at least one) are out, whatever the feedback; the
    [k]-th lies [k - cycle_len * min(cycles - 1, k // cycle_len)] cooling steps below
    the top of the band around the tracked centre, so every cycle restarts at the
    top and the last one absorbs the remainder. *)
Theorem reheating_run {F} `{!FloatOps F} total cycles horizons spb mn mx hi lo buffers (s0 s : reheating) (t : F) feedback :
  reheating_init total cycles horizons spb mn mx hi lo = Ok s0 ->
  reset (set_buffers buffers s0) = Ok (Some t, s) ->
  let c := reheating_set_buffers buffers s0 in
  length (emitted feedback t s) = Nat.min (S (length feedback)) (Z.to_nat (Z.max 1 (r_total_steps c))) /\
  r_total_steps c = match total with
                    | Some n => Z.max 1 n
                    | None => Z.min mx (Z.max mn (spb * Z.of_nat (length buffers)))
                    end /\
  forall k tk, emitted feedback t s !! k = Some tk -> band c (Z.of_nat k) tk.
Proof.
  intros H0 Hr. cbn zeta. unfold reheating_init in H0. apply bind_Ok in H0 as ([] & _ & H0). apply bind_Ok in H0 as ([] & Hc%raise_if_Ok & H0).
  apply bind_Ok in H0 as ([] & _ & [= <-]). apply Z.ltb_ge in Hc. set (s0 := mkReheat _ _ _ _ _ _ _ _ _ _ _ _ _ _ _ _ _ _ _ _ _) in *.
  cbn [set_buffers reheating_schedule reset] in Hr. set (c := reheating_set_buffers buffers s0) in *. unfold reheating_reset in Hr.
  apply bind_Ok in Hr as ([] & _ & [= <- <-]). set (s := advance 0 0 0 _ _ _ _ c).
  assert (1 <= r_cycle_len c) as Hl by (unfold c, reheating_set_buffers; cbn [r_cycle_len]; lia).
  assert (r_cycles c = cycles) as Hcy by done.
  assert (reheating_at c 0 s) as Hat.
  { unfold s, advance.
    split; cbn [r_total_steps r_cycle_len r_cycles r_delta r_alpha r_rt_ab r_i r_s r_cycle r_center]; try done.
    - unfold phase_at. rewrite Z.div_0_l, Hcy, Z.min_r by lia. lia.
    - unfold cycle_at. rewrite Z.div_0_l by lia. lia.
    - by left. }
  split_and!.
  - rewrite emitted_length. change (remaining s) with (reheating_remaining s). unfold reheating_remaining.
    rewrite (at_total _ _ _ Hat), (at_i _ _ _ Hat). lia.
  - unfold c, reheating_set_buffers. cbn [r_total_steps r_total_arg]. by destruct total.
  - intros k tk Hk. rewrite <- (Z.add_0_l (Z.of_nat k)). eapply (emitted_band c feedback 0); [done | lia | lia | exact Hat | done | exact Hk].
Qed.

(** ** Witnesses *)

(** Fixed-point numbers in thousandths, with a first-order logarithm and
    exponential and powers with whole exponents: a concrete instance to run the schedules on. *)
Definition milli : FloatOps Z := {|
  f_Z := fun z => 1000 * z;
  f_add := Z.add;
  f_sub := Z.sub;
  f_mul := fun a b => a * b / 1000;
  f_div := fun a b => a * 1000 / b;
  f_pow := fun a b => if b <? 0 then 1000000 / a else 1000 * (a / 1000) ^ (b / 1000);
  f_min := Z.min;
  f_neg := Z.opp;
  f_log := fun a => a - 1000;
  f_exp := fun a => 1000 + a;
  f_sqrt := fun a => Z.sqrt (a * 1000);
  f_ltb := Z.ltb;
  f_eqb := Z.eqb
|}.

#[local] Existing Instance milli | 100.

Definition cooling_sample : list LifetimeBoundBuffer :=
  [simple_buffer "a" 256 [0; 2] [] []; simple_buffer "b" 200 [1; 3] [] []; simple_buffer "c" 256 [3; 4] [] []]%string.

Example cooling_sample_peak : peak_memory_load cooling_sample = 456.
Proof. reflexivity. Qed.

Lemma peak_memory_load_spec_witness : forall t, load_at t cooling_sample <= 456.
Proof.
  apply (peak_memory_load_spec cooling_sample).
  - apply (bool_decide_unpack _). vm_compute. exact I.
  - apply (bool_decide_unpack _). vm_compute. exact I.
Defined.

Lemma reheating_run_witness :
  exists (s0 s : reheating) (t : Z), reheating_init (Some 10) 3 2000 30 500 5000 800 10 = Ok s0 /\
    length (emitted (replicate 20 (true, 5000)) t s) = 10%nat.
Proof.
  destruct (reheating_init (Some 10) 3 2000 30 500 5000 800 10) as [s0|] eqn:E; [|vm_compute in E; discriminate E].
  destruct (reset (set_buffers cooling_sample s0)) as [[[t|] s]|] eqn:Er;
    [|vm_compute in E; injection E as <-; vm_compute in Er; discriminate Er
     |vm_compute in E; injection E as <-; vm_compute in Er; discriminate Er].
  exists s0, s, t. split; [reflexivity|].
  destruct (reheating_run (Some 10) 3 2000 30 500 5000 800 10 cooling_sample s0 s t (replicate 20 (true, 5000)) E Er) as (Hl & Ht & _).
  rewrite Hl, Ht. reflexivity.
Defined.
