(* ===== verification/Annealing.v ===== *)
(** * The simulated-annealing layout solver ([scratchpad/simulated_annealing.py])

    [SimulatedAnnealingLayoutSolver] searches over the orders of a
    [NativePermutationLayoutSolver]: an initial order comes from a list or from
    another solver's plan, every step probes the reinsertion positions of one random
    buffer on a copy of the packer, accepts at most one of them, and tidies the order
    with swaps that move no buffer; the best order seen is committed at the end.

    The packer is the one of [PermLayout], the schedule any instance of
    [CoolingSchedule], the initial solvers those of [FitSolver] and [GreedySolver].
    Random numbers come from a generator state ([Random]); [random.choices] is
    written out over them.  Temperatures are abstract floats; qualities are exact,
    in halves, as in [PermLayout], and the theorems have its bound on sizes, capacity and
    alignment, below which the packer's sums do not wrap. *)

From S2P Require Import Prelude PlanSolver GreedySolver FitSolver PermLayout Cooling.

(** ** Accessors of the packer *)

Definition n_is_fully_allocated (idx : nat) (p : native) : res bool :=
  raise_if (negb (idx <? st_n (n_static p))%nat) ValueError;;
  Ok (flag (n_allocated p) idx).

Definition n_overlaps (i j : nat) (p : native) : res bool :=
  let st := n_static p in
  raise_if (negb ((i <? st_n st)%nat && (j <? st_n st)%nat)) ValueError;;
  Ok ((zat (st_start st) i <? zat (st_end st) j) && (zat (st_start st) j <? zat (st_end st) i)).

(** [None] is [+inf]. *)
Definition n_top_or_inf (idx : nat) (p : native) : res (option Z) :=
  raise_if (negb (idx <? st_n (n_static p))%nat) ValueError;;
  Ok (if flag (n_allocated p) idx then Some (zat (n_addr p) idx + zat (n_sizes p) idx) else None).

(** [a > b] *)
Definition above (a b : option Z) : bool :=
  match a, b with
  | Some x, Some y => y <? x
  | None, Some _ => true
  | _, None => false
  end.

(** [perm[i]] on the live view. *)
Definition view_at (i : nat) (p : native) : res nat :=
  match n_permutation p !! i with Some x => Ok x | None => Raise IndexError end.

(** ** [SolverToPermutation] *)

Definition permutation (plan : res (list LifetimeBoundBuffer)) (buffers : list LifetimeBoundBuffer) : res (list nat) :=
  allocated_buffers ← plan;
  let max_address := list_max 0 (omap address allocated_buffers) in
  let name_to_address : gmap string Z :=
    foldl (fun m b => <[buf_name b := default (max_address + 1) (address b)]> m) ∅ allocated_buffers in
  keys ← py_map (fun b => match name_to_address !! buf_name b with Some a => Ok a | None => Raise KeyError end) buffers;
  Ok (py_sorted (fun i j => zat keys i <=? zat keys j) (seq 0 (length buffers))).

(** [SolverInitialOption]: a user's solver is what its [plan_layout] returns. *)
Inductive initial_option :=
  | InitialOrder (order : list nat)
  | InitialFirstFit
  | InitialBestFit
  | InitialGreedy
  | InitialSolver (plan : res (list LifetimeBoundBuffer)).

Definition initial_order (initial : initial_option) (buffers : list LifetimeBoundBuffer) (size alignment : Z) : res (list nat) :=
  match initial with
  | InitialOrder l =>
      raise_if (negb (bool_decide (py_sorted Nat.leb l = seq 0 (length buffers)))) ValueError;; Ok l
  | InitialFirstFit => permutation (FitSolver.plan_layout first_fit_pick size alignment buffers) buffers
  | InitialBestFit => permutation (FitSolver.plan_layout best_fit_pick size alignment buffers) buffers
  | InitialGreedy => permutation (GreedySolver.plan_layout size alignment buffers) buffers
  | InitialSolver plan => permutation plan buffers
  end.

(** ** Random numbers *)

(** [rnd.Random]: its state yields the next float of [[0, 1)]. *)
Class Random (F R : Type) := random : R -> F * R.

Section annealing.
Context {F : Type} `{!FloatOps F} {R : Type} `{!Random F R} {Sch : Type} `{!CoolingSchedule F Sch}.

(** [bisect.bisect(cum, x, lo, hi)] *)
Fixpoint bisect (fuel : nat) (cum : list Z) (x : F) (lo hi : nat) : nat :=
  match fuel with
  | O => lo
  | S fuel =>
      if (lo <? hi)%nat
      then let mid := ((lo + hi) / 2)%nat in
           if f_ltb x (f_Z (zat cum mid)) then bisect fuel cum x lo mid else bisect fuel cum x (S mid) hi
      else lo
  end.

Fixpoint accumulate (total : Z) (weights : list Z) : list Z :=
  match weights with
  | [] => []
  | w :: weights' => (total + w) :: accumulate (total + w) weights'
  end.

(** [random.choices(range(n), weights)[0]] *)
Definition choices (weights : list Z) (r : R) : res (nat * R) :=
  let cum := accumulate 0 weights in
  let n := length weights in
  total ← match last cum with Some t => Ok t | None => Raise IndexError end;
  raise_if (total <=? 0) ValueError;;
  let '(u, r') := random r in
  Ok (bisect n cum (f_mul u (f_Z total)) 0 (n - 1), r').

(** ** [annealing_step_rotate] *)

Definition move_weights (allocated : list bool) : list Z :=
  let n_allocated := Z.of_nat (length (filter (fun b => b = true) allocated)) in
  (fun b : bool => if b then Z.of_nat (length allocated) else n_allocated + 1) <$> allocated.

Definition upper_bound (allocated : list bool) (i : nat) : nat :=
  let n := length allocated in
  if flag allocated i then (n - 1)%nat
  else
    let last_allocated := foldl Nat.max 0%nat (filter (fun pos => flag allocated pos = true) (seq 0 n)) in
    Nat.min (S last_allocated) (n - 1).

(** [probe.swap(p - 1)] and the quality recorded at [p]. *)
Definition probe_step (i p : nat) (s : native * list (option Z)) : res (native * list (option Z)) :=
  swapped ← n_swap (p - 1) s.1;
  Ok (swapped.1, if (p =? i)%nat then s.2 else <[p := Some (n_quality swapped.1)]> s.2).

(** The qualities of the reinsertion positions, on a copy of [plan]. *)
Definition probe (i n bound : nat) (plan : native) : res (list (option Z)) :=
  let none := replicate n None in
  s ← (if (i =? 0)%nat then Ok (plan, none)
       else rotated ← n_rotate i 0 plan; Ok (rotated.1, <[0%nat := Some (n_quality rotated.1)]> none));
  s' ← for_each (probe_step i) (seq 1 bound) s;
  Ok s'.2.

(** A quality in halves as a float. *)
Definition f_half (q : Z) : F := f_div (f_Z q) (f_Z 2).

Definition move_scale (before : Z) (qualities : list (option Z)) : F :=
  let probed := (fun q => Z.abs (q - before)) <$> omap id qualities in
  let nonzero := filter (fun d => 0 < d) probed in
  if bool_decide (nonzero = []) then f_Z 0 else f_div (f_half (zsum nonzero)) (f_Z (Z.of_nat (length nonzero))).

Definition quality_at (qualities : list (option Z)) (pos : nat) : option Z := default None (qualities !! pos).

Definition insertion_points (qualities : list (option Z)) : list nat :=
  py_sorted (fun a b => default 0 (quality_at qualities b) <=? default 0 (quality_at qualities a))
    (filter (fun pos => is_Some (quality_at qualities pos)) (seq 0 (length qualities))).

(** [qj > quality_before or random() < exp((qj - quality_before) / temperature)] *)
Definition accepts (before qj : Z) (temperature : F) (r : R) : res (bool * R) :=
  if before <? qj then Ok (true, r)
  else
    let '(u, r') := random r in
    raise_if (f_eqb temperature (f_Z 0)) ZeroDivisionError;;
    Ok (f_ltb u (f_exp (f_div (f_half (qj - before)) temperature)), r').

Fixpoint try_points (plan : native) (i : nat) (temperature : F) (before : Z) (qualities : list (option Z))
    (points : list nat) (r : R) : res (option (nat * nat) * native * R) :=
  match points with
  | [] => Ok (None, plan, r)
  | j :: points' =>
      py_assert (negb (i =? j)%nat);;
      match quality_at qualities j with
      | None => Raise AssertionError
      | Some qj =>
          decision ← accepts before qj temperature r;
          if decision.1 : bool
          then rotated ← n_rotate i j plan; Ok (Some (i, j), rotated.1, decision.2)
          else try_points plan i temperature before qualities points' decision.2
      end
  end.

Definition annealing_step_rotate (n : nat) (temperature : F) (plan : native) (r : R)
    : res (option (nat * nat) * F * native * R) :=
  allocated ← py_map (fun k => x ← view_at k plan; n_is_fully_allocated x plan) (seq 0 n);
  chosen ← choices (move_weights allocated) r;
  let i := chosen.1 in
  let before := n_quality plan in
  qualities ← probe i n (upper_bound allocated i) plan;
  outcome ← try_points plan i temperature before qualities (insertion_points qualities) chosen.2;
  let '(mv, plan', r') := outcome in
  Ok (mv, move_scale before qualities, plan', r').

(** ** [annealing_step_swap] *)

(** [while i <= j]; [last] is [len(perm) - 2]. *)
Fixpoint clean_loop (fuel last i j : nat) (p : native) : res native :=
  if (j <? i)%nat then Ok p
  else
    match fuel with
    | O => Raise OutOfFuel
    | S fuel =>
        pi ← view_at i p;
        pi1 ← view_at (S i) p;
        live ← n_overlaps pi pi1 p;
        dirty ← (if live : bool then Ok false
                 else t ← n_top_or_inf pi p; t1 ← n_top_or_inf pi1 p; Ok (above t t1));
        if dirty : bool
        then swapped ← n_swap i p;
             let j' := if (i =? j)%nat && (j <? last)%nat then S j else j in
             clean_loop fuel last (if (0 <? i)%nat then (i - 1)%nat else 1%nat) j' swapped.1
        else clean_loop fuel last (S i) j p
    end.

Definition clean_fuel (n : nat) : nat := (n * n + n)%nat.

Definition annealing_step_swap (i j : nat) (p : native) : res native :=
  let n := length (n_permutation p) in
  py_assert (negb (i =? j)%nat);;
  py_assert (i <? n)%nat;;
  py_assert (j <? n)%nat;;
  let lo := Nat.min i j in
  let hi := Nat.max i j in
  clean_loop (clean_fuel n) (n - 2) (lo - 1) (if (hi =? n - 1)%nat then n - 2 else hi)%nat p.

(** ** The search *)

Record search := mkSearch {
  sa_plan : native;
  sa_quality_logs : list (list Z);
  sa_temperature_logs : list (list F);
  sa_best_quality : Z;
  sa_best_permutation : list nat;
  sa_schedule : Sch;
  sa_random : R
}.

Definition _is_optimal (n : nat) (p : native) : bool := n_count p =? Z.of_nat n.

(** The [while temperature is not None] loop, with the two logs of the run. *)
Fixpoint anneal_loop (fuel n : nat) (temperature : option F) (s : search) (quality_log : list Z) (temperature_log : list F)
    : res (search * list Z * list F) :=
  match temperature with
  | None => Ok (s, quality_log, temperature_log)
  | Some t =>
      match fuel with
      | O => Raise OutOfFuel
      | S fuel =>
          rotated ← annealing_step_rotate n t (sa_plan s) (sa_random s);
          let '(mv, scale, rotated_plan, r) := rotated in
          plan ← match mv with Some (i, j) => annealing_step_swap i j rotated_plan | None => Ok rotated_plan end;
          let quality := n_quality plan in
          let quality_log := quality_log ++ [quality] in
          let temperature_log := temperature_log ++ [t] in
          let better := sa_best_quality s <? quality in
          let step sch := mkSearch plan (sa_quality_logs s) (sa_temperature_logs s)
                            (if better then quality else sa_best_quality s)
                            (if better then n_permutation plan else sa_best_permutation s) sch r in
          if _is_optimal n plan then Ok (step (sa_schedule s), quality_log, temperature_log)
          else
            let '(t', sch) := update (bool_decide (is_Some mv)) scale (sa_schedule s) in
            anneal_loop fuel n t' (step sch) quality_log temperature_log
      end
  end.

Definition anneal (n : nat) (s : search) : res search :=
  started ← reset (sa_schedule s);
  let s0 := mkSearch (sa_plan s) (sa_quality_logs s) (sa_temperature_logs s) (sa_best_quality s) (sa_best_permutation s)
              started.2 (sa_random s) in
  final ← anneal_loop (S (remaining started.2)) n started.1 s0 [] [];
  let '(s', quality_log, temperature_log) := final in
  Ok (mkSearch (sa_plan s') (sa_quality_logs s' ++ [quality_log]) (sa_temperature_logs s' ++ [temperature_log])
        (sa_best_quality s') (sa_best_permutation s') (sa_schedule s') (sa_random s')).

Definition solve (buffers : list LifetimeBoundBuffer) (size alignment : Z) (s : search) : res search :=
  if _is_optimal (length buffers) (sa_plan s) then Ok s
  else
    s' ← anneal (length buffers) s;
    if bool_decide (n_permutation (sa_plan s') = sa_best_permutation s') then Ok s'
    else
      p ← native_init buffers (sa_best_permutation s') size alignment None;
      Ok (mkSearch p (sa_quality_logs s') (sa_temperature_logs s') (sa_best_quality s') (sa_best_permutation s')
            (sa_schedule s') (sa_random s')).

(** ** The solver *)

(** [self.buffers], the placeable buffers, are references into [_all_buffers]; [None]
    is [_skip_solve]. *)
Record annealer := mkAnnealer {
  sa_all_buffers : list LifetimeBoundBuffer;
  sa_placeable : list nat;
  sa_size : Z;
  sa_alignment : Z;
  sa_search : option search
}.

Definition annealer_init (buffers : list LifetimeBoundBuffer) (size alignment : Z) (initial : initial_option)
    (schedule : res Sch) (r : R) : res annealer :=
  py_assert (forallb (fun b => bool_decide (paired_with b = [])) buffers);;
  let '(h, (placeable, _)) := partition (mkSolver size alignment false) buffers in
  if bool_decide (placeable = []) then Ok (mkAnnealer h placeable size alignment None)
  else
    let placed := deref h placeable in
    order ← initial_order initial placed size alignment;
    plan ← native_init placed order size alignment None;
    sch ← schedule;
    Ok (mkAnnealer h placeable size alignment
          (Some (mkSearch plan [] [] (n_quality plan) order (set_buffers placed sch) r))).

(** [schedule="auto"]; the two acceptance bounds are the floats 0.8 and 0.01. *)
Definition auto_schedule : res reheating :=
  reheating_init None 4 (f_Z 2) 30 500 5000 (f_div (f_Z 8) (f_Z 10)) (f_div (f_Z 1) (f_Z 100)).

(** [self.plan.finalize()]: the addresses written through the references. *)
Definition write_back (h : list LifetimeBoundBuffer) (placeable : list nat) (addresses : list (option Z)) : list LifetimeBoundBuffer :=
  foldl (fun h ra => alter (set_address ra.2) ra.1 h) h (zip placeable addresses).

Definition annealer_plan_layout (a : annealer) : res (list LifetimeBoundBuffer) :=
  match sa_search a with
  | None => Ok (sa_all_buffers a)
  | Some s =>
      s' ← solve (deref (sa_all_buffers a) (sa_placeable a)) (sa_size a) (sa_alignment a) s;
      Ok (write_back (sa_all_buffers a) (sa_placeable a) (n_addresses (sa_plan s')))
  end.

(** [SimulatedAnnealingLayoutSolver(...).plan_layout()] *)
Definition annealing_plan (initial : initial_option) (schedule : res Sch) (r : R) (size alignment : Z)
    (buffers : list LifetimeBoundBuffer) : res (list LifetimeBoundBuffer) :=
  a ← annealer_init buffers size alignment initial schedule r;
  annealer_plan_layout a.
End annealing.

(** ** Reinsertions *)

Definition without (i : nat) (l : list nat) : list nat := take i l ++ drop (S i) l.

Lemma move_insert i j (l : list nat) x :
  l !! i = Some x -> (j < length l)%nat -> move i j l = take j (without i l) ++ x :: drop j (without i l).
Proof.
  intros Hx Hj. pose proof (lookup_lt_Some _ _ _ Hx) as Hi. unfold move, without. rewrite Hx, take_app, drop_app, length_take.
  rewrite (Nat.min_l i) by lia. destruct (Nat.ltb_spec i j) as [Hij|Hij].
  - rewrite (take_ge (take i l) j), (drop_ge (take i l) j) by (rewrite length_take; lia). rewrite <- app_assoc. do 2 f_equal.
    cbn [app]. f_equal. rewrite drop_drop. f_equal. lia.
  - replace (j - i)%nat with 0%nat by lia. rewrite take_0, drop_0, app_nil_r, take_take, Nat.min_l by lia. f_equal. cbn [app]. f_equal.
    f_equal. symmetry. apply skipn_firstn_comm.
Qed.

Lemma length_without i (l : list nat) : (i < length l)%nat -> S (length (without i l)) = length l.
Proof. intros Hi. unfold without. rewrite length_app, length_take, length_drop. lia. Qed.

Lemma move_same i (l : list nat) : (i < length l)%nat -> move i i l = l.
Proof.
  intros Hi. destruct (lookup_lt_is_Some_2 l i Hi) as [x Hx]. rewrite (move_insert i i l x) by done. unfold without.
  assert (length (take i l) = i) as Hl by (rewrite length_take; lia).
  rewrite take_app_le, drop_app_ge, Hl, Nat.sub_diag, drop_0 by lia. rewrite take_ge by lia. by apply take_drop_middle.
Qed.

Lemma swap_after_move i j (l : list nat) :
  (i < length l)%nat -> (S j < length l)%nat -> swapl j (move i j l) = move i (S j) l.
Proof.
  intros Hi Hj. destruct (lookup_lt_is_Some_2 l i Hi) as [x Hx]. rewrite !(move_insert i _ l x) by (done || lia).
  pose proof (length_without i l Hi) as Hw. set (w := without i l) in *. destruct (lookup_lt_is_Some_2 w j) as [y Hy]; [lia|].
  rewrite (drop_S w y j Hy), (take_S_r w j y Hy), <- app_assoc. cbn [app].
  assert (j = length (take j w)) as Hlen by (rewrite length_take; lia). rewrite Hlen at 1. apply swapl_app.
Qed.

Lemma move_perm i j (l : list nat) : (i < length l)%nat -> (j < length l)%nat -> move i j l ≡ₚ l.
Proof.
  intros Hi Hj. destruct (lookup_lt_is_Some_2 l i Hi) as [x Hx].
  destruct (move_rotation i j l x Hx Hj) as (l1 & mid & mid' & l2 & m & Hrot). exact (proj2 (rotation_perm _ _ _ _ _ _ _ _ _ Hrot)).
Qed.

(** ** The packer of a search *)

Lemma sorted_seq perm m : perm ≡ₚ seq 0 m -> py_sorted Nat.leb perm = seq 0 m.
Proof.
  intros Hp. apply (StronglySorted_unique Nat.le).
  - apply py_sorted_coarse; [intros x y H%Nat.leb_le | intros x y H%Nat.leb_gt | intros x y z]; unfold Nat.le in *; lia.
  - generalize 0%nat. clear. induction m as [|m IH]; intros k; cbn [seq]; constructor; [apply IH|].
    apply Forall_forall. intros x Hx%elem_of_seq. lia.
  - rewrite <- Hp. apply py_sorted_perm.
Qed.

Section held.
Context (bufs : list LifetimeBoundBuffer) (capacity al : Z).
Context (Hlive : Forall (fun b => start_time b < end_time b) bufs) (Hnames : NoDup (buf_name <$> bufs)) (Hal : 0 < al).
Context (Hroomy : roomy capacity al bufs).

#[local] Notation Hcap := (proj1 Hroomy).
#[local] Notation Hroom := (proj1 (proj2 Hroomy)).

#[local] Notation n := (length bufs).

(** The plan of an order when every buffer may be placed. *)
Definition plan_of (perm : list nat) : layout :=
  ref_layout bufs capacity al (buf_size <$> bufs) (replicate n true) perm.
Definition quality_of (perm : list nat) : Z := (plan_of perm).1.2.

(** [p] holds the plan of [perm]. *)
Definition holds (p : native) (perm : list nat) : Prop :=
  exists r, related bufs capacity al p r /\ r_permutation r = perm /\ r_sizes r = buf_size <$> bufs /\ r_eligible r = replicate n true.

Lemma holds_fields p perm :
  holds p perm ->
  n_permutation p = perm /\ perm ≡ₚ seq 0 n /\ n_addresses p = (plan_of perm).1.1 /\ n_quality p = quality_of perm /\
  n_count p = (plan_of perm).2 /\ n_static p = build_static bufs capacity al /\ n_sizes p = buf_size <$> bufs /\
  n_eligible p = replicate n true.
Proof.
  intros (r & Hrel & <- & Hs & He). pose proof (rel_layout _ _ _ _ _ Hrel) as HL. destruct Hrel. unfold quality_of, plan_of.
  rewrite Hs, He in *. rewrite <- HL. cbn [fst snd]. split_and!; congruence || done.
Qed.

Lemma apply_eligible o p p' d :
  match o with SetEligible _ _ => False | _ => True end -> n_apply o p = Ok (p', d) -> n_eligible p' = n_eligible p.
Proof.
  assert (forall q, n_eligible (RecomputeAll q) = n_eligible q) as Hr by (intros q; unfold RecomputeAll; by destruct (InitIntervals _)).
  destruct o as [i|i j|idx s|idx f]; [| | |done]; intros _; cbn [n_apply]; unfold n_swap, n_rotate, n_resize; intros H;
    repeat (case_match; try done); inv_res; repeat (case_match; try done); inv_res; rewrite ?Hr; done.
Qed.

Lemma holds_agrees o p p' d r r' :
  match o with Swap _ | Rotate _ _ => True | _ => False end ->
  related bufs capacity al p r -> r_sizes r = buf_size <$> bufs -> r_eligible r = replicate n true ->
  n_apply o p = Ok (p', d) -> related bufs capacity al p' r' -> holds p' (r_permutation r').
Proof.
  intros Ho Hrel Hs He Happ Hrel'. exists r'. split_and!; [done | done | |].
  - rewrite <- (rel_sizes _ _ _ _ _ Hrel'), <- Hs, <- (rel_sizes _ _ _ _ _ Hrel). eapply apply_sizes; [|exact Happ]. by destruct o.
  - rewrite <- (rel_eligible _ _ _ _ _ Hrel'), <- He, <- (rel_eligible _ _ _ _ _ Hrel). eapply apply_eligible; [|exact Happ]. by destruct o.
Qed.

Lemma swap_holds i p perm :
  holds p perm -> (S i < n)%nat -> exists p' d, n_swap i p = Ok (p', d) /\ holds p' (swapl i perm).
Proof.
  intros Hh Hi. destruct (holds_fields p perm Hh) as (Hp & Hperm & _). destruct Hh as (r & Hrel & Hr & Hs & He).
  pose proof (swap_agrees bufs capacity al Hlive Hnames Hal Hcap Hroom i p r Hrel) as H.
  assert (length perm = n) as Hlen by (rewrite Hperm; apply length_seq).
  destruct (n_swap i p) as [[p' d]|e] eqn:E.
  - exists p', d. split; [done|]. destruct (r_swap i r) as [[r' d']|]; [|done]. destruct H as (Hrel' & _ & Hperm').
    rewrite <- Hr, <- Hperm'. by apply (holds_agrees (Swap i) p p' d r r').
  - exfalso. unfold n_swap in E. rewrite Hp in E. destruct (lookup_lt_is_Some_2 perm i) as [x Hx]; [lia|].
    destruct (lookup_lt_is_Some_2 perm (S i)) as [y Hy]; [lia|]. rewrite Hx, Hy in E. repeat case_match; done.
Qed.

Lemma rotate_holds i j p perm :
  holds p perm -> (i < n)%nat -> (j < n)%nat -> exists p' d, n_rotate i j p = Ok (p', d) /\ holds p' (move i j perm).
Proof.
  intros Hh Hi Hj. destruct (holds_fields p perm Hh) as (Hp & Hperm & _). destruct Hh as (r & Hrel & Hr & Hs & He).
  pose proof (rotate_agrees bufs capacity al Hlive Hnames Hal Hcap Hroom i j p r Hrel) as H.
  assert (length perm = n) as Hlen by (rewrite Hperm; apply length_seq).
  destruct (n_rotate i j p) as [[p' d]|e] eqn:E.
  - exists p', d. split; [done|]. destruct (r_rotate i j r) as [[r' d']|]; [|done]. destruct H as (Hrel' & _ & Hperm').
    rewrite <- Hr, <- Hperm'. by apply (holds_agrees (Rotate i j) p p' d r r').
  - exfalso. unfold n_rotate in E. rewrite Hp in E. destruct (lookup_lt_is_Some_2 perm i) as [x Hx]; [lia|].
    destruct (lookup_lt_is_Some_2 perm j) as [y Hy]; [lia|]. rewrite Hx, Hy in E. repeat case_match; done.
Qed.

Lemma init_holds perm p :
  Forall fits bufs -> native_init bufs perm capacity al None = Ok p -> holds p perm /\ ref_check_pairs bufs = Ok tt.
Proof.
  intros Hfits Hi. assert (small capacity = true /\ small al = true) as [Hc Ha].
  { unfold native_init in Hi. apply bind_Ok in Hi as ([] & H%raise_if_Ok & _). apply negb_false_iff, andb_true_iff in H as [??].
    destruct Hroomy as (? & ? & _). by split; apply int64_small. }
  pose proof (init_agrees bufs perm capacity al None Hlive Hfits Hc Ha) as H. rewrite Hi in H.
  destruct (ref_init bufs perm capacity al None) as [r|]; [|done]. destruct H as (Hrel & Hperm & Hs & _ & _ & Hchk).
  split; [|done]. exists r. split_and!; try done. rewrite <- (rel_eligible _ _ _ _ _ Hrel).
  unfold native_init in Hi. inv_res. unfold RecomputeAll. by destruct (InitIntervals _).
Qed.

(** *** Probing *)

Lemma quality_at_insert (qs : list (option Z)) p q k :
  (p < length qs)%nat -> quality_at (<[p := q]> qs) k = if decide (k = p) then q else quality_at qs k.
Proof.
  intros Hp. unfold quality_at. case_decide as Hk; [subst; by rewrite list_lookup_insert_eq by done | by rewrite list_lookup_insert_ne].
Qed.

(** The probe after position [k]. *)
Record probed (perm : list nat) (i k : nat) (s : native * list (option Z)) : Prop := {
  pr_holds : holds s.1 (move i k perm);
  pr_length : length s.2 = n;
  pr_quality : forall pos, quality_at s.2 pos =
    if decide ((pos <= k)%nat /\ pos <> i) then Some (quality_of (move i pos perm)) else None
}.

Lemma probe_step_probed perm i k s :
  length perm = n -> (i < n)%nat -> (S k < n)%nat -> probed perm i k s -> exists s', probe_step i (S k) s = Ok s' /\ probed perm i (S k) s'.
Proof.
  intros Hl Hi Hk [P1 P2 P3]. unfold probe_step. replace (S k - 1)%nat with k by lia.
  destruct (swap_holds k s.1 _ P1 Hk) as (p' & d & Hsw & Hh). rewrite Hsw. cbn [mbind res_bind fst snd].
  rewrite swap_after_move in Hh by lia. eexists. split; [reflexivity|]. split; cbn [fst snd].
  - done.
  - case_match; [done | by rewrite length_insert].
  - intros pos. destruct (holds_fields p' _ Hh) as (_ & _ & _ & Hq & _). destruct (Nat.eqb_spec (S k) i) as [He|He].
    + rewrite P3. repeat case_decide; try done; lia.
    + rewrite quality_at_insert by lia. rewrite P3, Hq. repeat case_decide; subst; try done; lia.
Qed.

Lemma probe_spec perm i bound p :
  holds p perm -> (i < n)%nat -> (bound < n)%nat ->
  exists qs, probe i n bound p = Ok qs /\ length qs = n /\
    forall pos, quality_at qs pos = if decide ((pos <= bound)%nat /\ pos <> i) then Some (quality_of (move i pos perm)) else None.
Proof.
  intros Hh Hi Hb. destruct (holds_fields p perm Hh) as (Hp & Hperm & _). assert (length perm = n) as Hl by (rewrite Hperm; apply length_seq).
  assert (forall pos, quality_at (replicate n None) pos = None) as Hnone.
  { intros pos. unfold quality_at. destruct (replicate n None !! pos) as [q|] eqn:E; [|done]. apply lookup_replicate in E as [-> _]. done. }
  assert (exists s, (if (i =? 0)%nat then Ok (p, replicate n None)
       else rotated ← n_rotate i 0 p; Ok (rotated.1, <[0%nat := Some (n_quality rotated.1)]> (replicate n None))) = Ok s /\ probed perm i 0 s) as (s & Hs & Hpr).
  { destruct (Nat.eqb_spec i 0) as [->|Hne].
    - eexists. split; [reflexivity|]. split; cbn [fst snd]; [by rewrite move_same by lia | apply length_replicate |].
      intros pos. rewrite Hnone, decide_False by lia. done.
    - destruct (rotate_holds i 0 p perm Hh Hi ltac:(lia)) as (p' & d & Hr & Hh'). rewrite Hr. cbn [mbind res_bind fst].
      destruct (holds_fields p' _ Hh') as (_ & _ & _ & Hq & _). eexists. split; [reflexivity|].
      split; cbn [fst snd]; [done | by rewrite length_insert, length_replicate |].
      intros pos. rewrite quality_at_insert by (rewrite length_replicate; lia). rewrite Hnone, Hq. repeat case_decide; subst; try done; lia. }
  unfold probe. rewrite Hs. cbn [mbind res_bind].
  assert (forall k s0, probed perm i 0 s0 -> (k < n)%nat -> exists s', for_each (probe_step i) (seq 1 k) s0 = Ok s' /\ probed perm i k s') as Hloop.
  { clear -Hlive Hnames Hal Hroomy Hl Hi. intros k s0 H0. induction k as [|k IH]; intros Hk; [by exists s0|].
    destruct (IH ltac:(lia)) as (s1 & H1 & Hp1). destruct (probe_step_probed perm i k s1 Hl Hi Hk Hp1) as (s2 & H2 & Hp2).
    exists s2. split; [|done]. rewrite seq_S, for_each_app, H1. cbn [mbind res_bind for_each Nat.add]. by rewrite H2. }
  destruct (Hloop bound s Hpr Hb) as (s' & H1 & [_ Q2 Q3]). rewrite H1. cbn [mbind res_bind]. eauto.
Qed.

(** *** One rotation step *)

Context {F : Type} `{!FloatOps F} {R : Type} `{!Random F R}.

Lemma bisect_le cum (x : F) fuel : forall lo hi, (lo <= hi)%nat -> (bisect fuel cum x lo hi <= hi)%nat.
Proof.
  induction fuel as [|fuel IH]; intros lo hi Hle; cbn [bisect]; [done|]. destruct (Nat.ltb_spec lo hi) as [Hlt|]; [|done].
  assert (lo <= (lo + hi) / 2 < hi)%nat as Hm.
  { pose proof (Nat.div_mod (lo + hi) 2 ltac:(lia)). pose proof (Nat.mod_upper_bound (lo + hi) 2 ltac:(lia)). lia. }
  destruct (f_ltb _ _); [etrans; [apply IH; lia | lia] | apply IH; lia].
Qed.

Lemma last_accumulate ws : forall t, ws <> [] -> last (accumulate t ws) = Some (t + zsum ws).
Proof.
  induction ws as [|w ws IH]; intros t Hne; [done|]. cbn [accumulate]. rewrite zsum_cons. destruct ws as [|w' ws].
  - cbn. f_equal. lia.
  - rewrite last_cons, IH by done. f_equal. lia.
Qed.

Lemma choices_spec ws (r : R) :
  ws <> [] -> Forall (fun w => 0 < w) ws -> exists i r', choices ws r = Ok (i, r') /\ (i < length ws)%nat.
Proof.
  intros Hne Hpos. unfold choices. rewrite last_accumulate by done. cbn [mbind res_bind].
  assert (0 < zsum ws) as Hs.
  { destruct ws as [|w ws]; [done|]. apply Forall_cons in Hpos as [Hw Hpos]. rewrite zsum_cons.
    assert (0 <= zsum ws); [|lia]. clear Hne. induction Hpos as [|v l Hv _ IH]; [done|]. rewrite zsum_cons. lia. }
  rewrite (proj2 (Z.leb_gt _ _)) by lia. cbn [raise_if mbind res_bind]. destruct (random r) as [u r'].
  eexists _, _. split; [reflexivity|]. assert (0 < length ws)%nat by (destruct ws; [done | cbn; lia]).
  pose proof (bisect_le (accumulate 0 ws) (f_mul u (f_Z (0 + zsum ws))) (length ws) 0 (length ws - 1) ltac:(lia)). lia.
Qed.

Lemma move_weights_pos allocated : allocated <> [] -> move_weights allocated <> [] /\ Forall (fun w => 0 < w) (move_weights allocated).
Proof.
  intros Hne. split; [by destruct allocated|]. apply Forall_fmap, Forall_forall. intros b _. cbn.
  destruct b; [|lia]. destruct allocated; [done | cbn [length]; lia].
Qed.

Lemma upper_bound_lt allocated i : allocated <> [] -> (upper_bound allocated i < length allocated)%nat.
Proof. intros Hne. unfold upper_bound. assert (0 < length allocated)%nat by (destruct allocated; [done | cbn; lia]). case_match; lia. Qed.

(** Whether each position of the order is placed. *)
Definition allocated_at (perm : list nat) : list bool := (fun x => bool_decide (is_Some (addr_of (plan_of perm).1.1 x))) <$> perm.

Lemma holds_flag p perm x : holds p perm -> (x < n)%nat ->
  addr_of (plan_of perm).1.1 x = if flag (n_allocated p) x then Some (zat (n_addr p) x) else None.
Proof.
  intros Hh Hx. destruct (holds_fields p perm Hh) as (_ & _ & Ha & _ & _ & Hst & _). rewrite <- Ha. unfold addr_of, n_addresses.
  rewrite list_lookup_fmap, Hst, lookup_seq_lt; [done|].
  destruct (static_fields bufs capacity al) as (k & total & ivs & _ & _ & _ & _ & _ & _ & -> & _). done.
Qed.

Lemma static_n p perm : holds p perm -> st_n (n_static p) = n.
Proof.
  intros Hh. destruct (holds_fields p perm Hh) as (_ & _ & _ & _ & _ & -> & _).
  by destruct (static_fields bufs capacity al) as (k & total & ivs & _ & _ & _ & _ & _ & _ & -> & _).
Qed.

Lemma perm_entry (perm : list nat) k : perm ≡ₚ seq 0 n -> (k < n)%nat -> exists x, perm !! k = Some x /\ (x < n)%nat.
Proof.
  intros Hp Hk. destruct (lookup_lt_is_Some_2 perm k) as [x Hx]; [rewrite Hp, length_seq; lia|]. exists x. split; [done|].
  apply list_elem_of_lookup_2 in Hx. rewrite Hp, elem_of_seq in Hx. lia.
Qed.

Lemma allocated_read p perm :
  holds p perm -> py_map (fun k => x ← view_at k p; n_is_fully_allocated x p) (seq 0 n) = Ok (allocated_at perm).
Proof.
  intros Hh. destruct (holds_fields p perm Hh) as (Hp & Hperm & _).
  assert (forall k x, perm !! k = Some x -> (x ← view_at k p; n_is_fully_allocated x p) = Ok (bool_decide (is_Some (addr_of (plan_of perm).1.1 x)))) as Hk.
  { intros k x Hx. unfold view_at. rewrite Hp, Hx. cbn [mbind res_bind]. unfold n_is_fully_allocated. rewrite (static_n p perm Hh).
    assert (x < n)%nat as Hxn by (apply list_elem_of_lookup_2 in Hx; rewrite Hperm, elem_of_seq in Hx; lia).
    rewrite (proj2 (Nat.ltb_lt _ _)) by done. cbn [negb raise_if mbind res_bind]. rewrite (holds_flag p perm x Hh Hxn).
    f_equal. by destruct (flag (n_allocated p) x). }
  unfold allocated_at. assert (length perm = n) as Hl by (rewrite Hperm; apply length_seq).
  apply py_map_Ok, Forall2_same_length_lookup_2; [by rewrite length_fmap, length_seq|]. intros k k' b Hk' Hb.
  apply lookup_seq in Hk' as [-> _]. rewrite list_lookup_fmap in Hb. destruct (perm !! k) as [x|] eqn:Hx; [|done]. injection Hb as <-. by apply Hk.
Qed.

Lemma accepts_spec before qj (t : F) (r : R) :
  (accepts before qj t r = Raise ZeroDivisionError /\ f_eqb t (f_Z 0) = true) \/
  exists b r', accepts before qj t r = Ok (b, r') /\ (before < qj -> b = true).
Proof.
  unfold accepts. destruct (Z.ltb_spec before qj) as [H|H]; [right; by exists true, r|]. destruct (random r) as [u r'].
  destruct (f_eqb t (f_Z 0)); cbn [raise_if mbind res_bind]; [by left|]. right. eexists _, _. split; [reflexivity | lia].
Qed.

(** [qs] holds the qualities of moving [i] to the positions [points]. *)
Definition probed_points (perm : list nat) (i : nat) (qs : list (option Z)) (points : list nat) : Prop :=
  forall j, j ∈ points -> j <> i /\ (j < n)%nat /\ quality_at qs j = Some (quality_of (move i j perm)).

Lemma try_points_spec perm p i (t : F) qs points : forall r : R,
  holds p perm -> (i < n)%nat -> probed_points perm i qs points ->
  StronglySorted (fun a b => quality_of (move i b perm) <= quality_of (move i a perm)) points ->
  (try_points p i t (quality_of perm) qs points r = Raise ZeroDivisionError /\ f_eqb t (f_Z 0) = true) \/
  exists mv p' r', try_points p i t (quality_of perm) qs points r = Ok (mv, p', r') /\
    match mv with
    | None => p' = p /\ forall j, j ∈ points -> quality_of (move i j perm) <= quality_of perm
    | Some (i', j) =>
        i' = i /\ j ∈ points /\ holds p' (move i j perm) /\
        forall j', j' ∈ points -> quality_of perm < quality_of (move i j' perm) ->
          forall k, k ∈ points -> quality_of (move i k perm) <= quality_of (move i j perm)
    end.
Proof.
  intros r Hh Hi. revert r. induction points as [|j points IH]; intros r Hpp Hs; cbn [try_points].
  { right. eexists _, _, _. split; [reflexivity|]. split; [done|]. intros j Hj. by apply elem_of_nil in Hj. }
  destruct (Hpp j ltac:(left)) as (Hne & Hj & Hq). rewrite (proj2 (Nat.eqb_neq i j)) by done. cbn [negb py_assert mbind res_bind]. rewrite Hq.
  apply StronglySorted_inv in Hs as [Hs Hhd]. rewrite Forall_forall in Hhd.
  destruct (accepts_spec (quality_of perm) (quality_of (move i j perm)) t r) as [[-> Ht]|(b & r' & -> & Hb)]; cbn [mbind res_bind fst snd]; [by left|].
  destruct b.
  - right. destruct (rotate_holds i j p perm Hh Hi Hj) as (p' & d & Hr & Hh'). rewrite Hr. cbn [mbind res_bind fst].
    eexists _, _, _. split; [reflexivity|]. split_and!; [done | left | done |]. intros _ _ _ k [->|Hk]%elem_of_cons; [lia | by apply Hhd].
  - assert (quality_of (move i j perm) <= quality_of perm) as Hle by (destruct (Z.le_gt_cases (quality_of (move i j perm)) (quality_of perm)); [done | by discriminate Hb]).
    destruct (IH r') as [[-> Ht]|(mv & p' & r2 & -> & H)]; [intros k Hk; apply Hpp; by right | done | by left |].
    right. exists mv, p', r2. split; [done|]. destruct mv as [[i' j']|].
    + destruct H as (-> & Hin & Hh' & _). split_and!; [done | by right | done |]. intros k [->|Hk]%elem_of_cons Hlt; [lia|]. specialize (Hhd k Hk). cbn in Hhd. lia.
    + destruct H as [-> H]. split; [done|]. intros k [->|Hk]%elem_of_cons; [done | by apply H].
Qed.

(** The positions a step probes for the entry at [i]. *)
Definition probes (perm : list nat) (i j : nat) : Prop := (j <= upper_bound (allocated_at perm) i)%nat /\ j <> i.

Lemma points_of_probe perm i qs :
  length qs = n -> (upper_bound (allocated_at perm) i < n)%nat ->
  (forall pos, quality_at qs pos = if decide ((pos <= upper_bound (allocated_at perm) i)%nat /\ pos <> i) then Some (quality_of (move i pos perm)) else None) ->
  probed_points perm i qs (insertion_points qs) /\ (forall j, j ∈ insertion_points qs <-> probes perm i j) /\
  StronglySorted (fun a b => quality_of (move i b perm) <= quality_of (move i a perm)) (insertion_points qs).
Proof.
  intros Hl Hb Hq. set (key := fun pos => default 0 (quality_at qs pos)).
  assert (forall j, j ∈ insertion_points qs <-> probes perm i j) as Hin.
  { intros j. unfold insertion_points, probes. rewrite elem_of_py_sorted, list_elem_of_filter, elem_of_seq, Hq.
    case_decide as Hd; split; intros H; [done | split; [done | lia] | by destruct H as [[? ?] _] | done]. }
  assert (forall j, j ∈ insertion_points qs -> quality_at qs j = Some (quality_of (move i j perm))) as Hval.
  { intros j Hj%Hin. rewrite Hq. by rewrite decide_True. }
  split_and!; [|done|].
  - intros j Hj. pose proof (Hval j Hj). apply Hin in Hj as [H1 H2]. split_and!; [done | lia | done].
  - assert (StronglySorted (fun a b => key b <= key a) (insertion_points qs)) as Hs by (apply py_sorted_coarse; unfold key; intros; lia).
    assert (forall j, j ∈ insertion_points qs -> key j = quality_of (move i j perm)) as Hk by (intros j Hj; unfold key; by rewrite (Hval j Hj)).
    clear -Hs Hk. induction Hs as [|a l Hs IH Ha]; [constructor|]. constructor; [apply IH; intros; apply Hk; by right|].
    rewrite Forall_forall in Ha |- *. intros b Hb'. rewrite <- !Hk by (left || by right). by apply Ha.
Qed.

(** The choice, the probes and the acceptance of one step. *)
Lemma rotate_step_spec p perm (t : F) (r : R) :
  holds p perm -> (0 < n)%nat ->
  (annealing_step_rotate n t p r = Raise ZeroDivisionError /\ f_eqb t (f_Z 0) = true) \/
  exists mv scale p' r' i, annealing_step_rotate n t p r = Ok (mv, scale, p', r') /\ (i < n)%nat /\
    match mv with
    | None => p' = p /\ forall j, probes perm i j -> quality_of (move i j perm) <= quality_of perm
    | Some (i', j) =>
        i' = i /\ probes perm i j /\ (j < n)%nat /\ holds p' (move i j perm) /\
        forall j', probes perm i j' -> quality_of perm < quality_of (move i j' perm) ->
          forall k, probes perm i k -> quality_of (move i k perm) <= quality_of (move i j perm)
    end.
Proof.
  intros Hh Hn. unfold annealing_step_rotate. destruct (holds_fields p perm Hh) as (_ & Hperm & _ & Hq & _).
  assert (length (allocated_at perm) = n) as Hla by (unfold allocated_at; by rewrite length_fmap, Hperm, length_seq).
  assert (allocated_at perm <> []) as Hne by (intros He; rewrite He in Hla; cbn in Hla; lia).
  rewrite (allocated_read p perm Hh). cbn [mbind res_bind]. destruct (move_weights_pos _ Hne) as [W1 W2].
  destruct (choices_spec _ r W1 W2) as (i & r1 & -> & Hi). cbn [mbind res_bind fst snd]. unfold move_weights in Hi. rewrite length_fmap, Hla in Hi.
  pose proof (upper_bound_lt (allocated_at perm) i Hne) as Hb. rewrite Hla in Hb.
  destruct (probe_spec perm i (upper_bound (allocated_at perm) i) p Hh Hi Hb) as (qs & -> & Hlq & Hqs). cbn [mbind res_bind].
  destruct (points_of_probe perm i qs Hlq Hb Hqs) as (P1 & P2 & P3). rewrite Hq.
  destruct (try_points_spec perm p i t qs (insertion_points qs) r1 Hh Hi P1 P3) as [[-> Ht]|(mv & p' & r2 & -> & H)]; cbn [mbind res_bind]; [by left|].
  right. eexists mv, _, p', r2, i. split; [reflexivity|]. split; [done|]. destruct mv as [[i' j]|].
  - destruct H as (-> & Hj & Hh' & Hmax). split_and!; [done | by apply P2 | by apply P1 | done |].
    intros j' Hj' Hlt k Hk. apply (Hmax j'); [by apply P2 | done | by apply P2].
  - destruct H as [-> H]. split; [done|]. intros j Hj. apply H. by apply P2.
Qed.

(** *** Tidying *)

(** The exclusive top of a buffer in a plan. *)
Definition top_in (a : list (option Z)) (x : nat) : option Z := (fun v => v + zat (buf_size <$> bufs) x) <$> addr_of a x.

(** Neighbours that are never live together, the higher one first. *)
Definition dirty_at (T : nat -> option Z) (perm : list nat) (k : nat) : Prop :=
  exists x y, perm !! k = Some x /\ perm !! S k = Some y /\ r_overlaps bufs x y = false /\ above (T x) (T y) = true.

Fixpoint inversions (T : nat -> option Z) (l : list nat) : nat :=
  match l with
  | [] => 0
  | x :: l' => length (filter (fun y => above (T x) (T y) = true) l') + inversions T l'
  end.

Lemma above_asym a b : above a b = true -> above b a = false.
Proof. destruct a, b; cbn; try done. lia. Qed.

Lemma inversions_swap T x y l2 l1 :
  above (T x) (T y) = true -> inversions T (l1 ++ x :: y :: l2) = S (inversions T (l1 ++ y :: x :: l2)).
Proof.
  intros H. induction l1 as [|z l1 IH]; cbn [app inversions].
  - rewrite !filter_cons, (above_asym _ _ H), H. rewrite decide_True, decide_False by done. cbn [length]. lia.
  - rewrite IH. assert (length (filter (fun w => above (T z) (T w) = true) (l1 ++ x :: y :: l2)) =
      length (filter (fun w => above (T z) (T w) = true) (l1 ++ y :: x :: l2))) as ->; [|lia].
    apply Permutation_length, filter_Permutation, Permutation_app_head, perm_swap.
Qed.

Lemma inversions_bound T l : (2 * inversions T l + length l <= length l * length l)%nat.
Proof.
  induction l as [|x l IH]; cbn [inversions length]; [done|]. pose proof (length_filter (fun y => above (T x) (T y) = true) l). lia.
Qed.

Lemma overlaps_read p perm x y : holds p perm -> (x < n)%nat -> (y < n)%nat -> n_overlaps x y p = Ok (r_overlaps bufs x y).
Proof.
  intros Hh Hx Hy. unfold n_overlaps. rewrite (static_n p perm Hh). destruct (holds_fields p perm Hh) as (_ & _ & _ & _ & _ & -> & _).
  rewrite !(proj2 (Nat.ltb_lt _ _)) by done. cbn [andb negb raise_if mbind res_bind]. f_equal.
  destruct (static_fields bufs capacity al) as (k & total & ivs & _ & _ & _ & _ & _ & _ & _ & -> & -> & _).
  unfold zat, r_overlaps. rewrite !list_lookup_fmap. destruct (lookup_lt_is_Some_2 bufs x Hx) as [b ->].
  destruct (lookup_lt_is_Some_2 bufs y Hy) as [c ->]. done.
Qed.

Lemma top_read p perm x : holds p perm -> (x < n)%nat -> n_top_or_inf x p = Ok (top_in (plan_of perm).1.1 x).
Proof.
  intros Hh Hx. unfold n_top_or_inf. rewrite (static_n p perm Hh), (proj2 (Nat.ltb_lt _ _)) by done. cbn [negb raise_if mbind res_bind].
  unfold top_in. rewrite (holds_flag p perm x Hh Hx). destruct (holds_fields p perm Hh) as (_ & _ & _ & _ & _ & _ & -> & _).
  by destruct (flag (n_allocated p) x).
Qed.

Lemma plan_swap perm i x y :
  Forall (fun b => 0 <= buf_size b) bufs -> perm ≡ₚ seq 0 n -> perm !! i = Some x -> perm !! S i = Some y -> r_overlaps bufs x y = false ->
  plan_of (swapl i perm) = plan_of perm.
Proof.
  intros Hsz Hp Hx Hy Ho. destruct (swapl_split i perm x y Hx Hy) as (l1 & l2 & -> & <-). rewrite swapl_app.
  unfold plan_of. apply ref_layout_swap; [done | by apply Forall_fmap | rewrite Hp; apply NoDup_seq | |].
  - intros j Hj. rewrite Hp, elem_of_seq in Hj. lia.
  - rewrite Ho. by intros (_ & _ & ?).
Qed.

(** A swap of neighbours changes the pairs around it only. *)
Lemma swapl_far perm i k : (S k < i \/ S i < k)%nat -> swapl i perm !! k = perm !! k /\ swapl i perm !! S k = perm !! S k.
Proof.
  intros Hk. unfold swapl. destruct (perm !! i) as [x|], (perm !! S i) as [y|]; try done.
  split; rewrite !list_lookup_insert_ne by lia; done.
Qed.

Lemma swapl_here (perm : list nat) i x y : perm !! i = Some x -> perm !! S i = Some y -> swapl i perm !! i = Some y /\ swapl i perm !! S i = Some x.
Proof.
  intros Hx Hy. unfold swapl. rewrite Hx, Hy. pose proof (lookup_lt_Some _ _ _ Hx). pose proof (lookup_lt_Some _ _ _ Hy).
  split; [rewrite list_lookup_insert_ne by lia; apply list_lookup_insert_eq; lia|]. apply list_lookup_insert_eq. by rewrite length_insert.
Qed.

(** The pairs outside [i .. j] are in order. *)
Definition clean_outside (T : nat -> option Z) (perm : list nat) (i j : nat) : Prop :=
  forall k, (k < i)%nat \/ (j < k)%nat -> ~ dirty_at T perm k.

Lemma clean_swap T perm i j x y :
  (i <= j)%nat -> length perm = n -> (S j < n)%nat -> perm !! i = Some x -> perm !! S i = Some y -> above (T x) (T y) = true ->
  clean_outside T perm i j ->
  clean_outside T (swapl i perm) (if (0 <? i)%nat then i - 1 else 1)%nat (if (i =? j)%nat && (j <? n - 2)%nat then S j else j).
Proof.
  intros Hij Hl Hj Hx Hy Hab Hc k Hk (u & v & Hu & Hv & Ho & Huv).
  destruct (decide (S k < i \/ S i < k)%nat) as [Hfar|Hnear].
  - destruct (swapl_far perm i k Hfar) as [E1 E2]. rewrite E1 in Hu. rewrite E2 in Hv. apply (Hc k); [|by exists u, v].
    destruct (Nat.ltb_spec 0 i) as [H0|H0], (Nat.eqb_spec i j) as [He|He], (Nat.ltb_spec j (n - 2)) as [H2'|H2']; cbn [andb] in Hk; lia.
  - assert (k = i \/ (k = S i /\ S k >= n)%nat) as [->|[-> Hge]].
    { destruct (Nat.ltb_spec 0 i) as [H0|H0], (Nat.eqb_spec i j) as [He|He], (Nat.ltb_spec j (n - 2)) as [H2'|H2']; cbn [andb] in Hk; lia. }
    + destruct (swapl_here perm i x y Hx Hy) as [E1 E2]. rewrite E1 in Hu. rewrite E2 in Hv. simplify_eq.
      rewrite (above_asym _ _ Hab) in Huv. done.
    + apply lookup_lt_Some in Hv. rewrite length_swapl in Hv. lia.
Qed.

Lemma clean_loop_spec fuel : forall i j p perm,
  Forall (fun b => 0 <= buf_size b) bufs -> holds p perm -> (S j < n)%nat -> (i <= S j)%nat ->
  (2 * inversions (top_in (plan_of perm).1.1) perm + (n - i) <= fuel)%nat ->
  exists p' perm', clean_loop fuel (n - 2) i j p = Ok p' /\ holds p' perm' /\ plan_of perm' = plan_of perm /\
    (clean_outside (top_in (plan_of perm).1.1) perm i j -> forall k, ~ dirty_at (top_in (plan_of perm).1.1) perm' k).
Proof.
  induction fuel as [|fuel IH]; intros i j p perm Hsz Hh Hj Hi Hf; cbn [clean_loop]; [exfalso; lia|].
  destruct (Nat.ltb_spec j i) as [Hji|Hij].
  { exists p, perm. split_and!; try done. intros Hc k. apply Hc. lia. }
  destruct (holds_fields p perm Hh) as (Hp & Hperm & _). assert (length perm = n) as Hl by (rewrite Hperm; apply length_seq).
  destruct (perm_entry perm i Hperm ltac:(lia)) as (x & Hx & Hxn). destruct (perm_entry perm (S i) Hperm ltac:(lia)) as (y & Hy & Hyn).
  unfold view_at. rewrite Hp, Hx, Hy. cbn [mbind res_bind]. rewrite (overlaps_read p perm x y Hh Hxn Hyn). cbn [mbind res_bind].
  set (T := top_in (plan_of perm).1.1) in *.
  assert ((if r_overlaps bufs x y then Ok false else t ← n_top_or_inf x p; t1 ← n_top_or_inf y p; Ok (above t t1)) =
    Ok (negb (r_overlaps bufs x y) && above (T x) (T y))) as ->.
  { destruct (r_overlaps bufs x y); [done|]. rewrite (top_read p perm x Hh Hxn), (top_read p perm y Hh Hyn). done. }
  cbn [mbind res_bind]. destruct (negb (r_overlaps bufs x y) && above (T x) (T y)) eqn:Ed.
  - apply andb_true_iff in Ed as [Ho%negb_true_iff Hab]. destruct (swap_holds i p perm Hh ltac:(lia)) as (p1 & d & Hsw & Hh1).
    rewrite Hsw. cbn [mbind res_bind fst]. pose proof (plan_swap perm i x y Hsz Hperm Hx Hy Ho) as Hplan.
    assert (inversions T perm = S (inversions T (swapl i perm))) as Hinv.
    { destruct (swapl_split i perm x y Hx Hy) as (l1 & l2 & -> & <-). rewrite swapl_app. by apply inversions_swap. }
    set (i' := if (0 <? i)%nat then _ else _). set (j' := if _ && _ then _ else _).
    destruct (IH i' j' p1 (swapl i perm) Hsz Hh1) as (p' & perm' & H1 & H2 & H3 & H4).
    + unfold j'. destruct (Nat.eqb_spec i j) as [He|He], (Nat.ltb_spec j (n - 2)) as [H2'|H2']; cbn [andb]; lia.
    + unfold i', j'. destruct (Nat.ltb_spec 0 i) as [H0|H0], (Nat.eqb_spec i j) as [He|He], (Nat.ltb_spec j (n - 2)) as [H2'|H2']; cbn [andb]; lia.
    + rewrite Hplan. fold T. unfold i'. destruct (Nat.ltb_spec 0 i); lia.
    + rewrite Hplan in H3, H4. fold T in H4. exists p', perm'. split_and!; try done. intros Hc. apply H4. by eapply clean_swap.
  - destruct (IH (S i) j p perm Hsz Hh Hj ltac:(lia)) as (p' & perm' & H1 & H2 & H3 & H4); [fold T; lia|].
    exists p', perm'. split_and!; try done. intros Hc. apply H4. fold T. intros k Hk.
    destruct (decide (k = i)) as [->|Hne]; [|apply Hc; lia]. intros (u & v & Hu & Hv & Ho & Hab). simplify_eq. by rewrite Ho, Hab in Ed.
Qed.

(** The order is tidied without moving a buffer. *)
Lemma swap_step_spec i j p perm :
  Forall (fun b => 0 <= buf_size b) bufs -> holds p perm -> i <> j -> (i < n)%nat -> (j < n)%nat ->
  exists p' perm', annealing_step_swap i j p = Ok p' /\ holds p' perm' /\ plan_of perm' = plan_of perm /\
    (clean_outside (top_in (plan_of perm).1.1) perm (Nat.min i j - 1) (Nat.max i j) -> forall k, ~ dirty_at (top_in (plan_of perm).1.1) perm' k).
Proof.
  intros Hsz Hh Hne Hi Hj. destruct (holds_fields p perm Hh) as (Hp & Hperm & _). assert (length perm = n) as Hl by (rewrite Hperm; apply length_seq).
  unfold annealing_step_swap. rewrite Hp, Hl, (proj2 (Nat.eqb_neq i j)), !(proj2 (Nat.ltb_lt _ _)) by done. cbn [negb py_assert mbind res_bind].
  set (hi := if (Nat.max i j =? n - 1)%nat then _ else _). destruct (clean_loop_spec (clean_fuel n) (Nat.min i j - 1) hi p perm Hsz Hh) as (p' & perm' & H1 & H2 & H3 & H4).
  - unfold hi. destruct (Nat.eqb_spec (Nat.max i j) (n - 1)) as [He|He]; lia.
  - unfold hi. destruct (Nat.eqb_spec (Nat.max i j) (n - 1)) as [He|He]; lia.
  - pose proof (inversions_bound (top_in (plan_of perm).1.1) perm) as Hb. rewrite Hl in Hb. unfold clean_fuel. lia.
  - exists p', perm'. split_and!; try done. intros Hc. apply H4. intros k [Hk|Hk]; [apply Hc; by left|].
    destruct (decide (Nat.max i j < k)%nat) as [Hlt|Hge]; [apply Hc; by right|]. intros (u & v & _ & Hv & _). apply lookup_lt_Some in Hv.
    unfold hi in Hk. destruct (Nat.eqb_spec (Nat.max i j) (n - 1)) as [He|He]; lia.
Qed.

(** *** The run *)

Context {Sch : Type} `{!CoolingSchedule F Sch}.
Context (Hsz : Forall (fun b => 0 <= buf_size b) bufs) (Hn : (0 < n)%nat).

(** The best order seen and its quality. *)
Definition best_ok (s : search (F := F) (R := R) (Sch := Sch)) : Prop :=
  sa_best_permutation s ≡ₚ seq 0 n /\ quality_of (sa_best_permutation s) = sa_best_quality s.

(** One iteration: the rotation, if any, and the tidying after it. *)
Lemma iteration_spec p perm (t : F) (r : R) :
  holds p perm ->
  (annealing_step_rotate n t p r = Raise ZeroDivisionError /\ f_eqb t (f_Z 0) = true) \/
  exists mv scale p1 r' p2 perm', annealing_step_rotate n t p r = Ok (mv, scale, p1, r') /\
    match mv with Some (i, j) => annealing_step_swap i j p1 | None => Ok p1 end = Ok p2 /\ holds p2 perm'.
Proof.
  intros Hh. destruct (rotate_step_spec p perm t r Hh Hn) as [?|(mv & scale & p1 & r' & i & H1 & Hi & H2)]; [by left|]. right.
  destruct mv as [[i' j]|].
  - destruct H2 as (-> & [_ Hne] & Hj & Hh1 & _).
    destruct (swap_step_spec i j p1 _ Hsz Hh1 (fun E => Hne (eq_sym E)) Hi Hj) as (p2 & perm' & H3 & H4 & _).
    exists (Some (i, j)), scale, p1, r', p2, perm'. done.
  - destruct H2 as [-> _]. exists None, scale, p, r', p, perm. done.
Qed.

Lemma anneal_loop_spec fuel : forall (t : F) s perm ql tl,
  holds (sa_plan s) perm -> best_ok s -> (remaining (sa_schedule s) < fuel)%nat ->
  (anneal_loop fuel n (Some t) s ql tl = Raise ZeroDivisionError /\
     exists feedback t0, t0 ∈ emitted feedback t (sa_schedule s) /\ f_eqb t0 (f_Z 0) = true) \/
  exists s' perm' qs feedback, anneal_loop fuel n (Some t) s ql tl = Ok (s', ql ++ qs, tl ++ emitted feedback t (sa_schedule s)) /\
    holds (sa_plan s') perm' /\ best_ok s' /\ sa_best_quality s' = zmax (sa_best_quality s) qs /\
    length qs = length (emitted feedback t (sa_schedule s)) /\ last qs = Some (quality_of perm').
Proof.
  induction fuel as [|fuel IH]; intros t s perm ql tl Hh Hbest Hfuel; [lia|]. cbn [anneal_loop].
  destruct (iteration_spec (sa_plan s) perm t (sa_random s) Hh) as [[-> Ht]|(mv & scale & p1 & r & p2 & perm2 & -> & Hsw & Hh2)]; cbn [mbind res_bind].
  { left. split; [done|]. exists [], t. split; [left | done]. }
  rewrite Hsw. cbn [mbind res_bind]. destruct (holds_fields p2 perm2 Hh2) as (Hp2 & Hperm2 & _ & Hq2 & _). rewrite Hq2, Hp2.
  set (q := quality_of perm2). set (better := sa_best_quality s <? q).
  set (bq := if better then q else sa_best_quality s). set (bp := if better then perm2 else sa_best_permutation s).
  assert (bp ≡ₚ seq 0 n /\ quality_of bp = bq) as Hb' by (unfold bp, bq; destruct better; [done | exact Hbest]).
  assert (bq = Z.max (sa_best_quality s) q) as Hbq by (unfold bq, better; destruct (Z.ltb_spec (sa_best_quality s) q); lia).
  destruct (_is_optimal n p2).
  { right. eexists _, perm2, [q], []. split; [reflexivity|]. split_and!; [done | done | | done | done]. cbn. lia. }
  pose proof (update_counts (bool_decide (is_Some mv)) scale (sa_schedule s)) as Hc.
  destruct (update (bool_decide (is_Some mv)) scale (sa_schedule s)) as [[t'|] sch'] eqn:Eu.
  - set (s1 := mkSearch p2 _ _ bq bp sch' r).
    destruct (IH t' s1 perm2 (ql ++ [q]) (tl ++ [t]) Hh2 Hb' ltac:(cbn; lia)) as [[-> (fb & t0 & H1 & H2)]|(s' & perm' & qs & fb & -> & H1 & H2 & H3 & H4 & H5)].
    + left. split; [done|]. exists ((bool_decide (is_Some mv), scale) :: fb), t0. split; [|done]. cbn [emitted fst snd]. rewrite Eu. by right.
    + right. exists s', perm', (q :: qs), ((bool_decide (is_Some mv), scale) :: fb). rewrite <- !app_assoc. cbn [emitted fst snd app]. rewrite Eu.
      split_and!; [done | done | done | | cbn [length]; by f_equal |].
      * rewrite H3. cbn [sa_best_quality s1]. rewrite Hbq. clear. unfold zmax. induction qs as [|z qs IH]; cbn [foldr] in *; lia.
      * rewrite last_cons, H5. done.
  - right. destruct fuel; eexists _, perm2, [q], []; (split; [reflexivity|]; split_and!; [done | done | cbn; lia | done | done]).
Qed.

Lemma zmax_max d l x : x ∈ l -> x <= zmax d l.
Proof. unfold zmax. induction l as [|y l IH]; [by intros ?%elem_of_nil|]. intros [->|H]%elem_of_cons; cbn [foldr]; [lia|]. specialize (IH H). lia. Qed.

(** The whole run: [solve] raises what [reset] raises or divides by a zero
    temperature, and otherwise commits the best order. *)
Lemma solve_spec s :
  Forall fits bufs ->
  (forall perm, perm ≡ₚ seq 0 n -> exists p, native_init bufs perm capacity al None = Ok p) ->
  holds (sa_plan s) (sa_best_permutation s) -> best_ok s ->
  (exists e, reset (sa_schedule s) = Raise e /\ solve bufs capacity al s = Raise e) \/
  (exists t sch feedback t0, reset (sa_schedule s) = Ok (Some t, sch) /\ t0 ∈ emitted feedback t sch /\ f_eqb t0 (f_Z 0) = true /\
     solve bufs capacity al s = Raise ZeroDivisionError) \/
  exists s', solve bufs capacity al s = Ok s' /\ holds (sa_plan s') (sa_best_permutation s') /\ best_ok s' /\
    sa_best_quality s <= sa_best_quality s' /\
    (s' = s \/ exists qs, last (sa_quality_logs s') = Some qs /\ sa_best_quality s' = zmax (sa_best_quality s) qs).
Proof.
  intros Hfits Hagain Hh Hb. unfold solve. destruct (_is_optimal n (sa_plan s)).
  { right. right. exists s. split_and!; [done | done | done | lia | by left]. }
  unfold anneal. destruct (reset (sa_schedule s)) as [[t sch]|e] eqn:Er; cbn [mbind res_bind fst snd]; [|left; by exists e].
  set (s0 := mkSearch (sa_plan s) _ _ _ _ sch _).
  assert (forall s1 perm ql tl, holds (sa_plan s1) perm -> best_ok s1 -> sa_best_quality s1 = zmax (sa_best_quality s) ql ->
    exists s', (s2 ← Ok (mkSearch (sa_plan s1) (sa_quality_logs s1 ++ [ql]) (sa_temperature_logs s1 ++ [tl]) (sa_best_quality s1)
                 (sa_best_permutation s1) (sa_schedule s1) (sa_random s1));
       if bool_decide (n_permutation (sa_plan s2) = sa_best_permutation s2) then Ok s2
       else p ← native_init bufs (sa_best_permutation s2) capacity al None;
            Ok (mkSearch p (sa_quality_logs s2) (sa_temperature_logs s2) (sa_best_quality s2) (sa_best_permutation s2) (sa_schedule s2) (sa_random s2))) = Ok s' /\
      holds (sa_plan s') (sa_best_permutation s') /\ best_ok s' /\ sa_best_quality s <= sa_best_quality s' /\
      (s' = s \/ exists qs, last (sa_quality_logs s') = Some qs /\ sa_best_quality s' = zmax (sa_best_quality s) qs)) as Hfin.
  { intros s1 perm ql tl H1 [H2 H2'] H3. cbn [mbind res_bind sa_plan sa_best_permutation sa_quality_logs sa_temperature_logs sa_best_quality sa_schedule sa_random].
    pose proof (zmax_ge (sa_best_quality s) ql) as Hge. destruct (holds_fields _ _ H1) as (Hp & _). rewrite Hp.
    case_bool_decide as Hc.
    - eexists. split; [reflexivity|]. cbn. rewrite <- Hc. split_and!; [done | split; [by rewrite Hc | by rewrite Hc] | lia |].
      right. exists ql. split; [by rewrite last_snoc | done].
    - destruct (Hagain _ H2) as [p Hpi]. rewrite Hpi. cbn [mbind res_bind]. eexists. split; [reflexivity|]. cbn.
      split_and!; [by apply init_holds | split; done | lia |]. right. exists ql. split; [by rewrite last_snoc | done]. }
  destruct t as [t|].
  - destruct (anneal_loop_spec (S (remaining sch)) t s0 (sa_best_permutation s) [] [] Hh Hb ltac:(cbn; lia))
      as [[-> (fb & t0 & H1 & H2)]|(s1 & perm' & qs & fb & -> & H1 & H2 & H3 & _)]; cbn [mbind res_bind].
    + right. left. exists t, sch, fb, t0. done.
    + right. right. by apply (Hfin s1 perm').
  - cbn [anneal_loop mbind res_bind]. right. right. by apply (Hfin s0 (sa_best_permutation s)).
Qed.
End held.

(** ** What the packer's constructor checked *)

Record packable (bufs : list LifetimeBoundBuffer) (capacity al : Z) : Prop := {
  pk_fits : Forall fits bufs;
  pk_sizes : Forall (fun b => 0 <= buf_size b) bufs;
  pk_used : Forall (fun b => uses b <> [] /\ default 0 (last (uses b)) <> INT64_MAX) bufs;
  pk_names : NoDup (buf_name <$> bufs);
  pk_pairs : check_pairs bufs = Ok tt;
  pk_ints : small capacity = true /\ small al = true;
  pk_alignment : 0 < al
}.

Lemma init_packable bufs perm capacity al p :
  roomy capacity al bufs -> native_init bufs perm capacity al None = Ok p -> packable bufs capacity al /\ perm ≡ₚ seq 0 (length bufs).
Proof.
  unfold native_init. intros (Hcap & Hroom & Hsmall) H. apply bind_Ok in H as ([] & H1%raise_if_Ok & H). apply bind_Ok in H as ([] & H2%raise_if_Ok & H).
  apply bind_Ok in H as ([] & H3%raise_if_Ok & H). apply bind_Ok in H as ([] & H4 & H). apply bind_Ok in H as ([] & H5%raise_if_Ok & H).
  apply bind_Ok in H as ([] & H6 & _). apply negb_false_iff, bool_decide_eq_true in H3, H5. apply negb_false_iff, andb_true_iff in H1.
  assert (forall b, b ∈ bufs -> fits b /\ 0 <= buf_size b /\ uses b <> [] /\ default 0 (last (uses b)) <> INT64_MAX) as Hb.
  { intros b Hb. pose proof (for_each_units read_fields bufs H4 b Hb) as Hr. unfold read_fields in Hr.
    apply bind_Ok in Hr as ([] & R1%raise_if_Ok & Hr). apply bind_Ok in Hr as ([] & R2%raise_if_Ok & Hr).
    apply bind_Ok in Hr as ([] & R3%raise_if_Ok & R4%raise_if_Ok). apply negb_false_iff in R1. rewrite !andb_true_iff in R1.
    apply bool_decide_eq_false in R3. apply Z.ltb_ge in R2. apply Z.eqb_neq in R4. unfold fits. rewrite Forall_forall in Hsmall.
    destruct R1 as [[[R1 ?] ?] ?]. split_and!; try done. apply int64_small; auto. }
  split; [|by apply sorted_is_perm]. destruct H1 as [??].
  split; try done; [apply Forall_forall; intros b Hin; by apply Hb.. | by split; apply int64_small | lia].
Qed.

Lemma packable_init_flags bufs perm capacity al eligible :
  packable bufs capacity al -> perm ≡ₚ seq 0 (length bufs) -> length (default (replicate (length bufs) true) eligible) = length bufs ->
  exists p, native_init bufs perm capacity al eligible = Ok p.
Proof.
  intros [P1 P2 P3 P4 P5 [P6%small_int64 P6'%small_int64] P7] Hp Hl. unfold native_init. rewrite P6, P6'. cbn [andb negb raise_if mbind res_bind].
  rewrite (proj2 (Z.leb_gt al 0)) by lia. cbn [raise_if mbind res_bind].
  rewrite (bool_decide_eq_true_2 (py_sorted Nat.leb perm = seq 0 (length bufs))) by (by apply sorted_seq).
  cbn [negb raise_if mbind res_bind]. rewrite (proj2 (for_each_unit_Ok (fun b _ => read_fields b) bufs)).
  2: { intros b Hin. rewrite Forall_forall in P1, P2, P3. destruct (P1 b Hin) as (F1%small_int64 & F2 & F3 & F4). destruct (P3 b Hin) as [U1 U2].
    unfold read_fields. rewrite F1, F2, F3, F4. cbn [andb negb raise_if mbind res_bind]. rewrite (proj2 (Z.ltb_ge _ _)) by (by apply P2).
    rewrite bool_decide_eq_false_2 by done. rewrite (proj2 (Z.eqb_neq _ _)) by done. done. }
  cbn [mbind res_bind]. rewrite bool_decide_eq_true_2 by done. rewrite P5.
  cbn [negb raise_if mbind res_bind]. rewrite Hl, Nat.eqb_refl. cbn. eauto.
Qed.

Lemma packable_init bufs perm capacity al :
  packable bufs capacity al -> perm ≡ₚ seq 0 (length bufs) -> exists p, native_init bufs perm capacity al None = Ok p.
Proof. intros Hk Hp. apply packable_init_flags; [done | done |]. apply length_replicate. Qed.

(** ** Writing the plan back *)

Section write_back.
Context (h : list LifetimeBoundBuffer) (placeable : list nat).
Context (Hnd : NoDup placeable) (Hlt : forall r, r ∈ placeable -> (r < length h)%nat).

Lemma length_deref : length (deref h placeable) = length placeable.
Proof. by apply length_omap_lookup. Qed.

Lemma deref_lookup k r : placeable !! k = Some r -> deref h placeable !! k = h !! r.
Proof. intros Hk. unfold deref. by rewrite omap_lookup_lookup, Hk. Qed.

Lemma write_back_spec (addresses : list (option Z)) :
  length addresses = length placeable ->
  length (write_back h placeable addresses) = length h /\
  (forall r, r ∉ placeable -> write_back h placeable addresses !! r = h !! r) /\
  forall k r a, placeable !! k = Some r -> addresses !! k = Some a -> write_back h placeable addresses !! r = set_address a <$> h !! r.
Proof.
  unfold write_back. revert h Hlt addresses. induction Hnd as [|r l Hr Hnd' IH]; intros h0 Hlt0 [|a addresses] Hl; try done.
  cbn [zip zip_with foldl fst snd]. destruct (IH Hnd' (alter (set_address a) r h0)) with (addresses := addresses) as (I1 & I2 & I3).
  { intros q Hq. rewrite length_alter. apply Hlt0. by right. }
  { cbn in Hl. lia. }
  rewrite length_alter in I1. split_and!; [done | |].
  - intros q Hq. rewrite not_elem_of_cons in Hq. rewrite I2 by tauto. apply list_lookup_alter_ne. intros ->. tauto.
  - intros [|k] q b Hk Hb; cbn in Hk, Hb; simplify_eq.
    + rewrite I2 by done. apply list_lookup_alter_eq.
    + rewrite (I3 k q b Hk Hb). rewrite list_lookup_alter_ne; [done|]. intros ->. apply Hr. by eapply list_elem_of_lookup_2.
Qed.
End write_back.

(** ** The solver on well-formed buffers *)

Section planned.
Context (lim al : Z) (bufs : list LifetimeBoundBuffer).
Context (Hin : wf_input bufs) (Hal : 0 < al).

Let cfg := mkSolver lim al false.
Let B := (partition cfg bufs).1.
Let placeable := (partition cfg bufs).2.1.
(** [self.buffers] *)
Let placed := deref B placeable.

Lemma placeable_below r : r ∈ placeable -> (r < length B)%nat.
Proof. intros Hr%placeable_lt. unfold B. by rewrite partition_bufs, length_fmap. Qed.

Lemma placed_elem b : b ∈ placed -> b ∈ B.
Proof. unfold placed, deref. intros (r & _ & Hr)%list_elem_of_omap. by eapply list_elem_of_lookup_2. Qed.

Lemma placed_wf : wf_input placed.
Proof.
  destruct (recorded_wf_input cfg bufs Hin) as [W1 W2 W3]. fold B in W1, W2, W3. split.
  - intros b Hb. by apply W1, placed_elem.
  - apply NoDup_alt. intros i j m Hi Hj. rewrite list_lookup_fmap in Hi, Hj. unfold placed, deref in Hi, Hj.
    rewrite omap_lookup_lookup in Hi, Hj by apply placeable_below. destruct (placeable !! i) as [r|] eqn:Er; [|done].
    destruct (placeable !! j) as [q|] eqn:Eq; [|done]. cbn in Hi, Hj. rewrite NoDup_alt in W2.
    assert (r = q) as -> by (apply (W2 r q m); by rewrite list_lookup_fmap). pose proof (placeable_NoDup cfg bufs) as Hnd.
    rewrite NoDup_alt in Hnd. by apply (Hnd i j q).
  - intros b Hb. by apply W3, placed_elem.
Qed.

Lemma placed_live : Forall (fun b => start_time b < end_time b) placed.
Proof. apply Forall_forall. intros b Hb. apply start_lt_end. by apply placed_wf. Qed.

Lemma placed_roomy : roomy lim al bufs -> roomy lim al placed.
Proof.
  intros (H1 & H2 & H3). split_and!; [done | done |]. apply Forall_forall. intros b Hb%placed_elem. unfold B in Hb.
  rewrite partition_bufs in Hb. apply list_elem_of_fmap in Hb as (b0 & -> & Hb). rewrite Forall_forall in H3. exact (H3 b0 Hb).
Qed.

Lemma placed_length : length placed = length placeable.
Proof. apply length_deref, placeable_below. Qed.

Section written.
Context (p : native) (order : list nat) (Hh : holds placed lim al p order).

Let out := write_back B placeable (n_addresses p).

Lemma addresses_length : length (n_addresses p) = length placeable.
Proof. unfold n_addresses. rewrite length_fmap, length_seq, (static_n _ _ _ _ _ Hh). apply placed_length. Qed.

Lemma out_facts :
  length out = length B /\ (forall r, r ∉ placeable -> out !! r = B !! r) /\
  forall k r a, placeable !! k = Some r -> n_addresses p !! k = Some a -> out !! r = set_address a <$> B !! r.
Proof. exact (write_back_spec B placeable (placeable_NoDup cfg bufs) placeable_below (n_addresses p) addresses_length). Qed.

(** An entry of [out]: untouched, or an entry of the finalized plan. *)
Lemma out_entry r b :
  out !! r = Some b ->
  (r ∉ placeable /\ B !! r = Some b) \/
  exists k a b0, placeable !! k = Some r /\ B !! r = Some b0 /\ b = set_address a b0 /\ finalize p placed !! k = Some b.
Proof.
  destruct out_facts as (_ & O2 & O3). intros Hr. destruct (decide (r ∈ placeable)) as [Hin'|Hni]; [|left; by rewrite O2 in Hr].
  right. apply list_elem_of_lookup in Hin' as [k Hk]. assert (k < length placeable)%nat as Hkl by (by eapply lookup_lt_Some).
  destruct (lookup_lt_is_Some_2 (n_addresses p) k) as [a Ha]; [by rewrite addresses_length|].
  rewrite (O3 k r a Hk Ha) in Hr. destruct (B !! r) as [b0|] eqn:Eb; [|done]. cbn in Hr. injection Hr as <-.
  exists k, a, b0. split_and!; [done | done | done |]. unfold finalize. rewrite lookup_zip_with, Ha. unfold placed.
  by rewrite (deref_lookup B placeable placeable_below k r Hk), Eb.
Qed.

Lemma out_frame : Forall2 same_buffer bufs out.
Proof.
  apply Forall2_same_length_lookup_2.
  { destruct out_facts as (-> & _). unfold B. by rewrite partition_bufs, length_fmap. }
  intros r b b' Hb Hb'. assert (B !! r = Some (set_spill_reason (excluded cfg b) b)) as HB by (unfold B; by rewrite recorded_lookup, Hb).
  destruct (out_entry r b' Hb') as [[_ H]|(k & a & b0 & _ & H & -> & _)]; rewrite HB in H; injection H as <-.
  - exists (address b), (excluded cfg b). by destruct b.
  - by exists a, (excluded cfg b).
Qed.

Lemma out_untouched r b : out !! r = Some b -> r ∉ placeable -> address b = None.
Proof.
  intros Hr Hni. destruct out_facts as (_ & O2 & _). rewrite O2 in Hr by done.
  destruct (recorded_wf_input cfg bufs Hin) as [_ _ W3]. apply W3. by eapply list_elem_of_lookup_2.
Qed.

Lemma out_placed r b x : out !! r = Some b -> address b = Some x -> exists k, placeable !! k = Some r /\ finalize p placed !! k = Some b.
Proof.
  intros Hr Hx. destruct (out_entry r b Hr) as [[Hni _]|(k & a & b0 & Hk & _ & _ & Hf)]; [|by exists k].
  rewrite (out_untouched r b Hr Hni) in Hx. done.
Qed.

Lemma out_valid : ref_check_pairs placed = Ok tt -> valid_plan lim al out.
Proof.
  intros Hchk. destruct Hh as (r & Hrel & _ & Hs & _).
  destruct (related_valid placed lim al p r Hrel Hal (wf_names _ placed_wf) Hchk Hs) as [V1 V2 V3]. split.
  - intros b x (q & Hq)%list_elem_of_lookup Hx. destruct (out_placed q b x Hq Hx) as (k & _ & Hf). apply V1; [by eapply list_elem_of_lookup_2 | done].
  - intros b x (q & Hq)%list_elem_of_lookup Hx. destruct (out_placed q b x Hq Hx) as (k & _ & Hf). apply (V2 b); [by eapply list_elem_of_lookup_2 | done].
  - intros i j b c Hij Hi Hj x y Hx Hy. destruct (out_placed i b x Hi Hx) as (ki & Hki & Hfi). destruct (out_placed j c y Hj Hy) as (kj & Hkj & Hfj).
    assert (ki <> kj) as Hne by (intros ->; rewrite Hki in Hkj; injection Hkj as ->; lia).
    destruct (decide (ki < kj)%nat) as [Hlt|Hge]; [by apply (V3 ki kj b c)|]. apply compatible_sym; [|done|done]. apply (V3 kj ki c b); [lia | done | done].
Qed.

Lemma out_barred i b b' : bufs !! i = Some b -> out !! i = Some b' -> excluded cfg b <> None -> address b' = None.
Proof.
  intros Hb Hb' Hx. apply (out_untouched i b' Hb'). intros Hi. apply Hx. by eapply placeable_not_excluded.
Qed.

Lemma out_quality : plan_quality out = quality_of placed lim al order.
Proof.
  destruct (holds_fields _ _ _ _ _ Hh) as (_ & _ & _ & <- & _). destruct Hh as (r & Hrel & _ & Hs & _).
  destruct (related_quality placed lim al p r Hrel Hs) as (-> & _ & Hlen).
  set (rest := filter (fun r => r ∉ placeable) (seq 0 (length out))).
  assert (seq 0 (length out) ≡ₚ placeable ++ rest) as Hp.
  { apply NoDup_Permutation; [apply NoDup_seq | apply NoDup_app; split_and! |].
    - apply placeable_NoDup.
    - intros q Hq [Hni _]%list_elem_of_filter. done.
    - apply NoDup_filter, NoDup_seq.
    - intros q. rewrite elem_of_app. unfold rest. rewrite list_elem_of_filter. destruct (decide (q ∈ placeable)) as [Hq|Hq]; [|tauto].
      split; [by left|]. intros _. apply elem_of_seq. destruct out_facts as (-> & _). pose proof (placeable_below q Hq). lia. }
  rewrite <- (omap_lookup_seq out) at 1. unfold plan_quality.
  rewrite (omap_proper (fun i => out !! i) _ _ Hp), omap_app, fmap_app, zsum_app.
  assert (omap (fun i => out !! i) placeable = finalize p placed) as ->.
  { apply list_eq. intros k. destruct (placeable !! k) as [q|] eqn:Eq.
    - rewrite omap_lookup_lookup by (intros q' Hq'; destruct out_facts as (-> & _); by apply placeable_below). rewrite Eq. cbn [mbind option_bind].
      destruct (lookup_lt_is_Some_2 out q) as [b Hb]; [destruct out_facts as (-> & _); apply placeable_below; by eapply list_elem_of_lookup_2|].
      rewrite Hb. destruct (out_entry q b Hb) as [[Hni _]|(k' & a & b0 & Hk' & _ & _ & Hf)]; [destruct Hni; by eapply list_elem_of_lookup_2|].
      rewrite <- Hf. f_equal. pose proof (placeable_NoDup cfg bufs) as Hnd. rewrite NoDup_alt in Hnd. by apply (Hnd k' k q).
    - assert (length placeable <= k)%nat by (by apply lookup_ge_None_1). rewrite !lookup_ge_None_2; [done | |].
      + rewrite Hlen, placed_length. done.
      + rewrite length_omap_lookup; [done|]. intros q' Hq'. destruct out_facts as (-> & _). by apply placeable_below. }
  assert (forall l : list nat, (forall q, q ∈ l -> q ∉ placeable) ->
    zsum ((fun b => if address b is Some _ then weight2 b * buf_size b else 0) <$> omap (fun i => out !! i) l) = 0) as Hzero.
  { induction l as [|q l IH]; intros Hq; [done|]. csimpl. destruct (out !! q) as [b|] eqn:Eb; [|apply IH; intros; apply Hq; by right].
    rewrite fmap_cons, zsum_cons, IH by (intros; apply Hq; by right). rewrite (out_untouched q b Eb) by (apply Hq; by left). done. }
  rewrite Hzero; [lia|]. intros q [Hq _]%list_elem_of_filter. done.
Qed.
End written.

Context {F : Type} `{!FloatOps F} {R : Type} `{!Random F R} {Sch : Type} `{!CoolingSchedule F Sch}.
Context (initial : initial_option) (schedule : res Sch) (r : R).
Context (Hroomy : roomy lim al bufs).

(** A run of the solver from its parts. *)
Lemma solve_runs order p0 (sch : Sch) :
  placeable <> [] -> native_init placed order lim al None = Ok p0 ->
  let s0 := mkSearch (F := F) p0 [] [] (n_quality p0) order (set_buffers placed sch) r in
  (exists e, reset (set_buffers placed sch) = Raise e /\ solve placed lim al s0 = Raise e) \/
  (exists t s feedback t0, reset (set_buffers placed sch) = Ok (Some t, s) /\ t0 ∈ emitted feedback t s /\ f_eqb t0 (f_Z 0) = true /\
     solve placed lim al s0 = Raise ZeroDivisionError) \/
  exists s' best, solve placed lim al s0 = Ok s' /\ holds placed lim al (sa_plan s') best /\
    quality_of placed lim al order <= quality_of placed lim al best /\ ref_check_pairs placed = Ok tt.
Proof.
  intros Hne Hi. cbn zeta. destruct (init_packable _ _ _ _ _ (placed_roomy Hroomy) Hi) as [Hpk Hperm].
  destruct (init_holds placed lim al placed_live (placed_roomy Hroomy) order p0 (pk_fits _ _ _ Hpk) Hi) as [Hh Hchk].
  destruct (holds_fields _ _ _ _ _ Hh) as (_ & _ & _ & Hq & _).
  assert (0 < length placed)%nat as Hlen by (rewrite placed_length; destruct placeable; [done | cbn; lia]).
  set (s0 := mkSearch _ _ _ _ _ _ _).
  destruct (solve_spec placed lim al placed_live (wf_names _ placed_wf) Hal (placed_roomy Hroomy) (pk_sizes _ _ _ Hpk) Hlen s0 (pk_fits _ _ _ Hpk)) as [?|[?|(s' & H1 & H2 & [_ H3] & H4 & _)]].
  - intros perm Hp. by apply packable_init.
  - exact Hh.
  - split; [exact Hperm | cbn; by rewrite Hq].
  - by left.
  - right. by left.
  - right. right. exists s', (sa_best_permutation s'). split_and!; [done | done | | done]. rewrite H3, <- Hq. exact H4.
Qed.

(** Every plan the solver returns is the layout of an order at least as good as the initial one. *)
Lemma annealing_cases out :
  annealing_plan initial schedule r lim al bufs = Ok out ->
  (placeable = [] /\ out = B) \/
  exists order p best, initial_order initial placed lim al = Ok order /\ holds placed lim al p best /\
    quality_of placed lim al order <= quality_of placed lim al best /\ ref_check_pairs placed = Ok tt /\
    out = write_back B placeable (n_addresses p).
Proof.
  unfold annealing_plan, annealer_init. intros (a & Ha & Hp)%bind_Ok. apply bind_Ok in Ha as ([] & _ & Ha). fold cfg in Ha.
  assert (partition cfg bufs = (B, (placeable, (partition cfg bufs).2.2))) as Epart
    by (unfold B, placeable; by destruct (partition cfg bufs) as [? [? ?]]).
  rewrite Epart in Ha. clear Epart.
  case_bool_decide as Hne.
  - injection Ha as <-. cbn in Hp. injection Hp as <-. by left.
  - right. apply bind_Ok in Ha as (order & Ho & Ha). apply bind_Ok in Ha as (p0 & Hi & Ha). apply bind_Ok in Ha as (sch & _ & [= <-]).
    unfold annealer_plan_layout in Hp. cbn [sa_search sa_all_buffers sa_placeable sa_size sa_alignment] in Hp.
    apply bind_Ok in Hp as (s' & Hs & [= <-]). fold placed in Ho, Hi, Hs |- *.
    destruct (solve_runs order p0 sch Hne Hi) as [(e & _ & H)|[(t & s & fb & t0 & _ & _ & _ & H)|(s2 & best & H1 & H2 & H3 & H4)]]; cbn zeta in *; try congruence.
    exists order, (sa_plan s'), best. split_and!; congruence || done.
Qed.
End planned.

(** ** The order of another solver's plan *)

Lemma foldl_by_name {V} (f : LifetimeBoundBuffer -> V) l :
  foldl (fun m b => <[buf_name b := f b]> m) (∅ : gmap string V) l = f <$> buf_by_name l.
Proof.
  induction l as [|b l IH] using rev_ind; [unfold buf_by_name; cbn [foldl]; by rewrite fmap_empty|].
  unfold buf_by_name in *. rewrite !foldl_app. cbn [foldl]. by rewrite fmap_insert, IH.
Qed.

Section order.
Context (lim al : Z) (bufs out : list LifetimeBoundBuffer).
Context (Hframe : Forall2 same_buffer bufs out) (Hnames : NoDup (buf_name <$> bufs)).

#[local] Notation n := (length bufs).

Definition max_address : Z := list_max 0 (omap address out).
(** Where a buffer sorts. *)
Definition address_key (i : nat) : Z := default (max_address + 1) (out !! i ≫= address).

Lemma frame_names : buf_name <$> out = buf_name <$> bufs.
Proof.
  apply list_eq. intros i. rewrite !list_lookup_fmap. destruct (out !! i) as [b'|] eqn:E.
  - by destruct (Forall2_lookup_r _ _ _ _ _ Hframe E) as (b & -> & a & r & ->).
  - apply lookup_ge_None in E. rewrite <- (Forall2_length _ _ _ Hframe) in E. by rewrite (proj2 (lookup_ge_None bufs i) E).
Qed.

Lemma frame_entry i b' : out !! i = Some b' -> exists b, bufs !! i = Some b /\ buf_name b' = buf_name b /\ buf_size b' = buf_size b /\
  weight2 b' = weight2 b /\ start_time b' = start_time b /\ end_time b' = end_time b /\ in_place_parents b' = in_place_parents b.
Proof. intros H. destruct (Forall2_lookup_r _ _ _ _ _ Hframe H) as (b & Hb & a & r & ->). by exists b. Qed.

Lemma permutation_spec :
  exists perm, permutation (Ok out) bufs = Ok perm /\ perm ≡ₚ seq 0 n /\ StronglySorted (fun i j => address_key i <= address_key j) perm.
Proof.
  assert (length out = n) as Hlen by (symmetry; by eapply Forall2_length).
  unfold permutation. cbn [mbind res_bind]. fold max_address. rewrite foldl_by_name.
  assert (forall i b, bufs !! i = Some b -> match ((fun b => default (max_address + 1) (address b)) <$> buf_by_name out) !! buf_name b with
    | Some a => Ok a | None => Raise KeyError end = Ok (address_key i)) as Hkey.
  { intros i b Hb. destruct (lookup_lt_is_Some_2 out i) as [b' Hb']; [rewrite Hlen; by eapply lookup_lt_Some|].
    destruct (frame_entry i b' Hb') as (b0 & Hb0 & Hn & _). assert (b0 = b) as -> by congruence. rewrite lookup_fmap, <- Hn, (buf_by_name_lookup out b').
    - cbn. unfold address_key. rewrite Hb'. done.
    - by rewrite frame_names.
    - by eapply list_elem_of_lookup_2. }
  set (f := fun b : LifetimeBoundBuffer => match _ with Some a => Ok a | None => Raise KeyError end).
  assert (py_map f bufs = Ok (address_key <$> seq 0 n)) as ->.
  { apply py_map_Ok, Forall2_same_length_lookup_2; [by rewrite length_fmap, length_seq|]. intros i b k Hb Hk.
    rewrite list_lookup_fmap, lookup_seq_lt in Hk by (by eapply lookup_lt_Some). injection Hk as <-. exact (Hkey i b Hb). }
  cbn [mbind res_bind]. eexists. split; [reflexivity|]. split; [apply py_sorted_perm|].
  assert (StronglySorted (fun i j => zat (address_key <$> seq 0 n) i <= zat (address_key <$> seq 0 n) j)
    (py_sorted (fun i j => zat (address_key <$> seq 0 n) i <=? zat (address_key <$> seq 0 n) j) (seq 0 n))) as Hs by (apply py_sorted_coarse; intros; lia).
  set (l := py_sorted _ _) in *. assert (forall i, i ∈ l -> zat (address_key <$> seq 0 n) i = address_key i) as Hz.
  { intros i Hi. unfold l in Hi. apply elem_of_py_sorted, elem_of_seq in Hi. unfold zat. rewrite list_lookup_fmap, lookup_seq_lt by lia. done. }
  clearbody l. clear -Hs Hz. induction Hs as [|i l Hs IH Hi]; [constructor|]. constructor; [apply IH; intros; apply Hz; by right|].
  rewrite Forall_forall in Hi |- *. intros j Hj. rewrite <- !Hz by (left || by right). by apply Hi.
Qed.

Context (Hvalid : valid_plan lim al out) (Hal : 0 < al).
Context (Hno : Forall (fun b => in_place_parents b = []) bufs) (Hpos : Forall (fun b => 0 < buf_size b) bufs).

#[local] Notation sizes := (buf_size <$> bufs).

Lemma align_up_least x a : x <= a -> (al | a) -> _align_up al x <= a.
Proof. intros Hx Ha. unfold _align_up. rewrite <- ceil_spellings by done. by apply round_up_least. Qed.

Lemma no_partners i : _inplace_partners bufs i = [].
Proof.
  unfold _inplace_partners. apply elem_of_nil_inv. intros j [Hj _]%list_elem_of_filter.
  assert (forall x y, declares bufs x y = false) as Hd; [|rewrite !Hd in Hj; by destruct Hj].
  intros x y. unfold declares. destruct (bufs !! x) as [b|] eqn:Eb; [|done]. destruct (bufs !! y); [|done].
  rewrite Forall_forall in Hno. rewrite (Hno b) by (by eapply list_elem_of_lookup_2). done.
Qed.

(** The address the solver chose. *)
Definition chosen (i : nat) : option Z := out !! i ≫= address.

Lemma chosen_spec i a : chosen i = Some a ->
  exists b, out !! i = Some b /\ address b = Some a /\ buf_size b = zat sizes i /\ 0 < zat sizes i /\ 0 <= a /\ a + zat sizes i <= lim /\ (al | a) /\
    a <= max_address /\ (i < n)%nat.
Proof.
  unfold chosen. destruct (out !! i) as [b|] eqn:Eb; [|done]. cbn. intros Ha. exists b. split; [done|].
  destruct (frame_entry i b Eb) as (b0 & Hb0 & _ & Hs & _). assert (b ∈ out) as Hin by (by eapply list_elem_of_lookup_2).
  assert (zat sizes i = buf_size b) as Hz by (unfold zat; by rewrite list_lookup_fmap, Hb0).
  destruct (plan_in_range _ _ _ Hvalid b a Hin Ha) as [H0 H1]. rewrite Hz. split_and!; [done | done | | done | done | by apply (plan_aligned _ _ _ Hvalid b) | |].
  - rewrite Hs. rewrite Forall_forall in Hpos. apply Hpos. by eapply list_elem_of_lookup_2.
  - apply list_max_ge. apply list_elem_of_omap. by exists b.
  - by eapply lookup_lt_Some.
Qed.

(** Two placed buffers live together lie apart. *)
Lemma chosen_apart i j a c : chosen i = Some a -> chosen j = Some c -> i <> j -> r_overlaps bufs i j = true -> c <= a -> c + zat sizes j <= a.
Proof.
  intros Hi Hj Hne Ho Hle. destruct (chosen_spec i a Hi) as (b & Hb & Ha & Hs & Hp & _). destruct (chosen_spec j c Hj) as (b' & Hb' & Hc & Hs' & Hp' & _).
  destruct (frame_entry i b Hb) as (b0 & Hb0 & _ & _ & _ & S1 & E1 & I1). destruct (frame_entry j b' Hb') as (b0' & Hb0' & _ & _ & _ & S2 & E2 & I2).
  assert (compatible b b') as Hcomp.
  { destruct (decide (i < j)%nat); [by apply (plan_compatible _ _ _ Hvalid i j)|]. apply compatible_sym. apply (plan_compatible _ _ _ Hvalid j i); [lia | done | done]. }
  assert (overlaps_in_time b b' = true) as Ho' by (unfold r_overlaps in Ho; rewrite Hb0, Hb0' in Ho; unfold overlaps_in_time in *; congruence).
  rewrite Forall_forall in Hno. destruct (Hcomp a c Ha Hc Ho') as [Hd|[[Hh _]|[Hh _]]].
  - unfold ranges_disjoint in Hd. lia.
  - rewrite I2, (Hno b0') in Hh by (by eapply list_elem_of_lookup_2). by apply elem_of_nil in Hh.
  - rewrite I1, (Hno b0) in Hh by (by eapply list_elem_of_lookup_2). by apply elem_of_nil in Hh.
Qed.

(** The packer lets every placed buffer sink: [prior] has settled. *)
Definition settled (prior : list nat) (A : nat -> option Z) : Prop :=
  forall i a, i ∈ prior -> chosen i = Some a -> exists a', A i = Some a' /\ 0 <= a' <= a.

Lemma settled_step prior idx lay :
  length lay.1.1 = n -> (idx < n)%nat -> idx ∉ prior -> (forall i, i ∈ prior -> address_key i <= address_key idx) ->
  settled prior (addr_of lay.1.1) ->
  let lay' := build_step bufs lim al sizes (replicate n true) prior idx lay in
  length lay'.1.1 = n /\ settled (prior ++ [idx]) (addr_of lay'.1.1).
Proof.
  intros Hl Hi Hni Hkey Hset. cbn zeta. rewrite build_step_outcome. cbn zeta. cbn [fst snd]. set (o := outcome _ _ _ _ _ _ _ _).
  split; [by rewrite length_insert|].
  intros i a [Hin | ->%list_elem_of_singleton]%elem_of_app Hc.
  { rewrite addr_of_insert, decide_False by (lia || (intros ->; done)). by apply Hset. }
  rewrite addr_of_insert, decide_True by lia. destruct (chosen_spec idx a Hc) as (b & _ & _ & _ & Hp & H0 & Hlim & Hdiv & Hmax & _).
  assert (address_key idx = a) as Hka by (unfold address_key; unfold chosen in Hc; by rewrite Hc).
  assert (forall p, p ∈ candidates_of bufs (replicate n true) prior idx -> exists a', addr_of lay.1.1 p = Some a' /\ 0 <= a' /\ a' + zat sizes p <= a) as Hcand.
  { intros p (Hp1 & Hp2 & _)%elem_of_cands. specialize (Hkey p Hp1). rewrite Hka in Hkey. unfold address_key in Hkey. fold (chosen p) in Hkey.
    destruct (chosen p) as [c|] eqn:Ec; cbn in Hkey; [|lia].
    destruct (Hset p c Hp1 Ec) as (a' & Ha' & H0a). exists a'. split; [done|].
    pose proof (chosen_apart idx p a c Hc Ec ltac:(intros ->; done) Hp2 Hkey). lia. }
  assert (flag (replicate n true) idx = true) as Hel by (unfold flag; by rewrite lookup_replicate_2).
  unfold o, outcome. rewrite Hel. unfold _placement_decision. set (cand := candidates_of _ _ _ _) in *. destruct cand as [|c0 cand'] eqn:Ecand.
  { rewrite (proj2 (Z.ltb_ge _ _)) by lia. exists 0. split; [done | lia]. }
  rewrite <- Ecand in *. assert (existsb (fun p => bool_decide (addr_of lay.1.1 p = None)) cand = false) as ->.
  { apply not_true_iff_false. intros (p & Hin%list_elem_of_In & Hb%bool_decide_eq_true)%existsb_exists. destruct (Hcand p Hin) as (a' & Ha' & _). congruence. }
  unfold stack_decision. rewrite no_partners. cbn [filter list_filter drop_into].
  assert (0 <= list_max 0 (top sizes (addr_of lay.1.1) <$> cand) <= a) as Hmx.
  { assert (top sizes (addr_of lay.1.1) <$> cand <> []) as Hne by (rewrite Ecand; done).
    pose proof (list_max_elem 0 _ Hne) as (p & -> & Hp')%list_elem_of_fmap. destruct (Hcand p Hp') as (a' & Ha' & Hle). unfold top. rewrite Ha'. cbn.
    pose proof (zat_nonneg sizes p ltac:(apply Forall_fmap; eapply Forall_impl; [exact Hpos | cbn; lia])). lia. }
  pose proof (align_up_least _ a (proj2 Hmx) Hdiv) as Hup. pose proof (aligned_up_spec al (list_max 0 (top sizes (addr_of lay.1.1) <$> cand)) Hal) as [Hge _].
  rewrite (proj2 (Z.ltb_ge _ _)) by lia. eexists. split; [reflexivity | lia].
Qed.

Lemma order_settles perm :
  perm ≡ₚ seq 0 n -> StronglySorted (fun i j => address_key i <= address_key j) perm ->
  settled (seq 0 n) (addr_of (plan_of bufs lim al perm).1.1).
Proof.
  intros Hp Hs. unfold plan_of, ref_layout.
  assert (forall rest prior lay, prior ++ rest = perm -> length lay.1.1 = n -> settled prior (addr_of lay.1.1) ->
    settled perm (addr_of (build_from bufs lim al sizes (replicate n true) prior rest lay).1.1)) as Hgen.
  { induction rest as [|i rest IH]; intros prior lay Hsplit Hl Hset; cbn [build_from]; [rewrite app_nil_r in Hsplit; by subst|].
    assert (NoDup perm) as Hnd by (rewrite Hp; apply NoDup_seq).
    assert (i ∈ perm) as Hi by (rewrite <- Hsplit; set_solver). rewrite Hp, elem_of_seq in Hi.
    destruct (settled_step prior i lay Hl ltac:(lia)) as [H1 H2]; [| |done|].
    - rewrite <- Hsplit in Hnd. apply NoDup_app in Hnd as (_ & Hd & _). intros H. apply (Hd i H). left.
    - intros j [k Hk]%list_elem_of_lookup. apply (StronglySorted_lookup_lt _ perm k (length prior) _ _ Hs).
      + by apply lookup_lt_Some in Hk.
      + rewrite <- Hsplit. by apply lookup_app_l_Some.
      + rewrite <- Hsplit. by apply list_lookup_middle.
    - apply IH; [by rewrite <- app_assoc | done | done]. }
  intros i a Hi. rewrite <- Hp in Hi. revert Hi. apply (Hgen perm []); [done | apply length_replicate |].
  intros j c Hj. by apply elem_of_nil in Hj.
Qed.

Lemma order_quality perm :
  perm ≡ₚ seq 0 n -> StronglySorted (fun i j => address_key i <= address_key j) perm -> plan_quality out <= quality_of bufs lim al perm.
Proof.
  intros Hp Hs. pose proof (order_settles perm Hp Hs) as Hset. unfold quality_of, plan_of in *.
  destruct (ref_layout_quality bufs lim al sizes (replicate n true) perm Hp) as (_ & -> & _). set (A := (ref_layout _ _ _ _ _ _).1.1) in *. clearbody A.
  assert (length out = n) as Hlen by (symmetry; by eapply Forall2_length). unfold plan_quality.
  set (f := fun b => if address b is Some _ then weight2 b * buf_size b else 0).
  assert (f <$> out = (fun i => default 0 (f <$> out !! i)) <$> seq 0 n) as ->.
  { apply list_eq. intros i. rewrite !list_lookup_fmap. destruct (out !! i) as [b|] eqn:E.
    - rewrite lookup_seq_lt by (rewrite <- Hlen; by eapply lookup_lt_Some). cbn. by rewrite E.
    - apply lookup_ge_None in E. rewrite lookup_seq_ge by lia. done. }
  assert (forall l : list nat, (forall i, i ∈ l -> i ∈ seq 0 n) ->
    zsum ((fun i => default 0 (f <$> out !! i)) <$> l) <= zsum (worth bufs sizes A <$> l)) as Hle; [|by apply Hle].
  induction l as [|i l IH]; intros Hl; [done|]. rewrite !fmap_cons, !zsum_cons. specialize (IH ltac:(intros; apply Hl; by right)).
  enough (default 0 (f <$> out !! i) <= worth bufs sizes A i) by lia. specialize (Hset i). unfold worth, gain, chosen in *.
  assert (0 <= default 0 (weight2 <$> bufs !! i) * zat sizes i) as Hnn.
  { apply Z.mul_nonneg_nonneg; [|apply zat_nonneg, Forall_fmap; eapply Forall_impl; [exact Hpos | cbn; lia]].
    destruct (bufs !! i); cbn; [|lia]. unfold weight2. case_match; lia. }
  destruct (out !! i) as [b|] eqn:E; cbn [mbind option_bind fmap option_fmap option_map default from_option] in *; [|by case_match].
  destruct (frame_entry i b E) as (b0 & Hb0 & _ & S & W & _). unfold f. destruct (address b) as [a|]; [|by case_match].
  destruct (Hset a (Hl i ltac:(left)) eq_refl) as (a' & -> & _). rewrite Hb0. cbn [fmap option_fmap option_map default from_option]. unfold zat.
  rewrite list_lookup_fmap, Hb0. cbn. unfold id. rewrite S, W. done.
Qed.
End order.

(** ** The solver returns a plan *)

Lemma check_sublist (l k : list LifetimeBoundBuffer) :
  NoDup (buf_name <$> k) -> (forall b, b ∈ l -> b ∈ k) -> _check_in_place_relationships k = Ok tt -> _check_in_place_relationships l = Ok tt.
Proof.
  intros Hn Hs Hc. rewrite check_in_place_spec in Hc |- *. intros child p parent Hin Hp Hl. apply buf_by_name_Some in Hl as [Hl <-].
  apply (Hc child (buf_name parent) parent); [by apply Hs | done |]. apply buf_by_name_lookup; [done | by apply Hs].
Qed.

Lemma check_gives_pairs bufs : _check_in_place_relationships bufs = Ok tt -> ref_check_pairs bufs = Ok tt.
Proof.
  rewrite check_in_place_spec. intros H. unfold ref_check_pairs. apply for_each_unit_Ok. intros child Hc. apply for_each_unit_Ok. intros m Hm.
  destruct (buf_by_name bufs !! m) as [parent|] eqn:E; [|done]. specialize (H child m parent Hc Hm E).
  apply check_in_place_pair_spec in H as (H1 & H2 & _). unfold check_in_place_parent_is_read. rewrite H2, H1, Z.eqb_refl. done.
Qed.

Section total.
Context (lim al : Z) (bufs : list LifetimeBoundBuffer).
Context (Hin : wf_input bufs) (Hal : 0 < al) (Hplain : Forall plain bufs).
Context (Hunpaired : forall b, b ∈ bufs -> paired_with b = []) (Hcheck : _check_in_place_relationships bufs = Ok tt).
Context (Hfits : Forall fits bufs) (Hints : small lim = true /\ small al = true).

#[local] Notation cfg := (mkSolver lim al false).
#[local] Notation B := (partition cfg bufs).1.
#[local] Notation placeable := (partition cfg bufs).2.1.
#[local] Notation placed := (deref B placeable).

Lemma total_roomy : roomy lim al bufs.
Proof.
  destruct Hints as [?%small_room ?%small_room]. split_and!; [done | done |].
  eapply Forall_impl; [exact Hfits|]. intros b [Hb _]. by apply small_room.
Qed.

Lemma placed_source b : b ∈ placed -> exists b0 r, b0 ∈ bufs /\ b = set_spill_reason r b0.
Proof. intros Hb%placed_elem. apply recorded_elem in Hb as (b0 & -> & H). eauto. Qed.

Lemma placed_packable : packable placed lim al.
Proof.
  pose proof (placed_wf lim al bufs Hin) as Hw. split.
  - apply Forall_forall. intros b (b0 & r & H & ->)%placed_source. rewrite Forall_forall in Hfits. exact (Hfits b0 H).
  - apply Forall_forall. intros b Hb. by destruct (wf_buffers _ Hw b Hb).
  - apply Forall_forall. intros b Hb. pose proof (wf_buffers _ Hw b Hb) as Hwb. split; [by destruct Hwb|].
    destruct (wf_uses b Hwb) as (f & z & _ & -> & _ & _ & _ & He). destruct (placed_source b Hb) as (b0 & r & H & ->).
    rewrite Forall_forall in Hfits. destruct (Hfits b0 H) as (_ & _ & _ & F4). unfold int64 in F4. split_bools.
    change (end_time (set_spill_reason r b0)) with (end_time b0) in He. cbn [default from_option]. unfold id, INT64_MAX in *. lia.
  - apply Hw.
  - rewrite check_pairs_agree by apply Hw. apply check_gives_pairs, (check_sublist _ B).
    + rewrite recorded_names. apply Hin.
    + intros b. apply placed_elem.
    + apply recorded_check; [apply Hin | done].
  - done.
  - done.
Qed.

(** The initial options whose order is known to exist. *)
Definition usable (initial : initial_option) : Prop :=
  match initial with
  | InitialOrder l => l ≡ₚ seq 0 (length placeable)
  | InitialSolver plan => exists out, plan = Ok out /\ Forall2 same_buffer placed out
  | _ => True
  end.

Lemma solver_order plan `{!LayoutSolver plan} :
  exists out, plan lim al placed = Ok out /\ Forall2 same_buffer placed out /\ valid_plan lim al out.
Proof.
  pose proof (placed_wf lim al bufs Hin) as Hw.
  assert (Forall plain placed) as Hp.
  { apply Forall_forall. intros b (b0 & r & H & ->)%placed_source. rewrite Forall_forall in Hplain. exact (Hplain b0 H). }
  destruct (solver_total lim al placed Hal Hw Hp) as [out Ho].
  - intros b (b0 & r & H & ->)%placed_source. exact (Hunpaired b0 H).
  - apply (check_sublist _ B); [rewrite recorded_names; apply Hin | intros b; apply placed_elem |]. apply recorded_check; [apply Hin | done].
  - exists out. split; [done|]. split; [by eapply solver_frame | by eapply solver_valid].
Qed.

Lemma usable_order initial : usable initial -> exists order, initial_order initial placed lim al = Ok order /\ order ≡ₚ seq 0 (length placed).
Proof.
  pose proof (wf_names _ (placed_wf lim al bufs Hin)) as Hnd.
  assert (forall out, Forall2 same_buffer placed out -> exists order, permutation (Ok out) placed = Ok order /\ order ≡ₚ seq 0 (length placed)) as Hperm.
  { intros out Hf. destruct (permutation_spec placed out Hf Hnd) as (perm & H1 & H2 & _). eauto. }
  assert (forall plan `{!LayoutSolver plan}, exists order, permutation (plan lim al placed) placed = Ok order /\ order ≡ₚ seq 0 (length placed)) as Hsolver.
  { intros plan Hls. destruct (solver_order plan) as (out & -> & Hf & _). by apply Hperm. }
  destruct initial as [l| | | |plan]; cbn [usable initial_order]; intros Hu.
  - rewrite (placed_length lim al bufs). rewrite bool_decide_eq_true_2 by (by apply sorted_seq). exists l. done.
  - apply (Hsolver (FitSolver.plan_layout first_fit_pick) _).
  - apply (Hsolver (FitSolver.plan_layout best_fit_pick) _).
  - apply (Hsolver GreedySolver.plan_layout _).
  - destruct Hu as (out & -> & Hf). by apply Hperm.
Qed.

Context {F : Type} `{!FloatOps F} {R : Type} `{!Random F R} {Sch : Type} `{!CoolingSchedule F Sch}.

Lemma annealing_runs initial (sch s : Sch) (t : F) (r : R) :
  usable initial -> reset (set_buffers placed sch) = Ok (Some t, s) ->
  (forall feedback t0, t0 ∈ emitted feedback t s -> f_eqb t0 (f_Z 0) = false) ->
  exists out, annealing_plan initial (Ok sch) r lim al bufs = Ok out.
Proof.
  intros Hu Hr Hnz. unfold annealing_plan, annealer_init. rewrite (proj2 (forallb_forall _ _)).
  2: { intros b Hb%list_elem_of_In. apply bool_decide_eq_true. by apply Hunpaired. }
  cbn [py_assert mbind res_bind].
  assert (partition cfg bufs = (B, (placeable, (partition cfg bufs).2.2))) as Epart by (by destruct (partition cfg bufs) as [? [? ?]]).
  rewrite Epart. clear Epart.
  case_bool_decide as Hne; cbn [mbind res_bind]; [by eexists|].
  destruct (usable_order initial Hu) as (order & Ho & Hp). rewrite Ho. cbn [mbind res_bind].
  destruct (packable_init _ order lim al placed_packable Hp) as [p0 Hi]. rewrite Hi. cbn [mbind res_bind].
  unfold annealer_plan_layout. cbn [sa_search sa_all_buffers sa_placeable sa_size sa_alignment].
  destruct (solve_runs lim al bufs Hin Hal r total_roomy order p0 sch Hne Hi) as [(e & He & _)|[(t' & s' & fb & t0 & He & H1 & H2 & _)|(s2 & best & -> & _)]];
    cbn zeta in *; [congruence | | cbn [mbind res_bind]; by eexists].
  rewrite Hr in He. injection He as <- <-. by rewrite (Hnz fb t0 H1) in H2.
Qed.
End total.

(** ** Claims *)

(** C28. Whatever the initial layout, the schedule, the random numbers and the number of steps,
    on well-formed buffers with sizes, capacity and alignment of at most 2^61 bytes (so that no
    int64_t sum of the native packer wraps) a plan the annealer returns keeps every buffer but
    for its address and spill reason, is valid for the scratchpad and leaves every barred buffer
    out. *)
Theorem annealing_plan_safe {F} `{!FloatOps F} {R} `{!Random F R} {Sch} `{!CoolingSchedule F Sch}
    initial (schedule : res Sch) (r : R) lim al bufs out :
  0 < al -> roomy lim al bufs -> wf_input bufs -> annealing_plan initial schedule r lim al bufs = Ok out ->
  Forall2 same_buffer bufs out /\ valid_plan lim al out /\
  forall i b b', bufs !! i = Some b -> out !! i = Some b' -> excluded (mkSolver lim al false) b <> None -> address b' = None.
Proof.
  intros Hal Hroomy Hin H. destruct (annealing_cases lim al bufs Hin Hal initial schedule r Hroomy out H) as [[Hp ->]|(order & p & best & _ & Hh & _ & Hchk & ->)].
  - pose proof (recorded_wf_input (mkSolver lim al false) bufs Hin) as [_ _ W3]. split_and!.
    + rewrite partition_bufs. apply Forall2_fmap_r, Forall_Forall2_diag, Forall_forall. intros b _. exists (address b), (excluded (mkSolver lim al false) b). by destruct b.
    + split; [intros b x Hb Hx | intros b x Hb Hx | intros i j b c _ Hi _ x y Hx]; rewrite W3 in Hx by (done || by eapply list_elem_of_lookup_2); done.
    + intros i b b' Hb Hb' _. apply W3. by eapply list_elem_of_lookup_2.
  - split_and!; [by eapply out_frame | by eapply out_valid |]. intros i b b' Hb Hb' Hx. by eapply out_barred.
Qed.

(** The buffers the annealer places, as [self.buffers] holds them. *)
Definition placed_buffers (lim al : Z) (bufs : list LifetimeBoundBuffer) : list LifetimeBoundBuffer :=
  let part := partition (mkSolver lim al false) bufs in deref part.1 part.2.1.

(** C29. The annealer returns a plan. On well-formed buffers with fixed divisions whose in-place
    declarations pass the precondition and whose fields fit the packer's integers (sizes,
    capacity and alignment of at most 2^61), with any of the built-in initial layouts, a
    permutation or a solver's plan, and a schedule that resets and never emits a zero
    temperature, the search ends within the schedule's budget and every tidying loop within its
    own bound: the solver returns, and raises nothing. *)
Theorem annealing_returns {F} `{!FloatOps F} {R} `{!Random F R} {Sch} `{!CoolingSchedule F Sch}
    initial (sch s : Sch) (t : F) (r : R) lim al bufs :
  0 < al -> wf_input bufs -> Forall plain bufs -> (forall b, b ∈ bufs -> paired_with b = []) ->
  _check_in_place_relationships bufs = Ok tt -> Forall fits bufs -> small lim = true -> small al = true ->
  usable lim al bufs initial -> reset (set_buffers (placed_buffers lim al bufs) sch) = Ok (Some t, s) ->
  (forall feedback t0, t0 ∈ emitted feedback t s -> f_eqb t0 (f_Z 0) = false) ->
  exists out, annealing_plan initial (Ok sch) r lim al bufs = Ok out.
Proof. intros. by eapply annealing_runs. Qed.

(** The built-in initial solvers. *)
Definition builtin_solver (initial : initial_option) : option (Z -> Z -> list LifetimeBoundBuffer -> res (list LifetimeBoundBuffer)) :=
  match initial with
  | InitialFirstFit => Some (FitSolver.plan_layout first_fit_pick)
  | InitialBestFit => Some (FitSolver.plan_layout best_fit_pick)
  | InitialGreedy => Some GreedySolver.plan_layout
  | _ => None
  end.

Lemma builtin_contract initial solver : builtin_solver initial = Some solver -> LayoutSolver solver.
Proof. destruct initial; cbn; intros [= <-]; apply _. Qed.

Lemma builtin_order initial solver bufs lim al :
  builtin_solver initial = Some solver -> initial_order initial bufs lim al = permutation (solver lim al bufs) bufs.
Proof. by destruct initial; cbn; intros [= <-]. Qed.

(** Annealing never loses.  The plan returned is at least as good (use-weighted
    resident size) as the layout of the initial order; and when no buffer declares an
    in-place parent and sizes are positive, at least as good as the plan of the
    built-in solver the order was taken from, whatever the search did in between. *)
Theorem annealing_never_worse {F} `{!FloatOps F} {R} `{!Random F R} {Sch} `{!CoolingSchedule F Sch}
    initial (schedule : res Sch) (r : R) lim al bufs out :
  0 < al -> roomy lim al bufs -> wf_input bufs -> Forall plain bufs -> annealing_plan initial schedule r lim al bufs = Ok out ->
  placed_buffers lim al bufs <> [] ->
  exists order, initial_order initial (placed_buffers lim al bufs) lim al = Ok order /\
    quality_of (placed_buffers lim al bufs) lim al order <= plan_quality out /\
    forall solver, builtin_solver initial = Some solver ->
      Forall (fun b => in_place_parents b = []) bufs -> Forall (fun b => 0 < buf_size b) bufs ->
      exists out0, solver lim al (placed_buffers lim al bufs) = Ok out0 /\ plan_quality out0 <= plan_quality out.
Proof.
  intros Hal Hroomy Hin Hplain H Hne. destruct (annealing_cases lim al bufs Hin Hal initial schedule r Hroomy out H) as [[Hp ->]|(order & p & best & Ho & Hh & Hq & _ & ->)].
  { destruct Hne. unfold placed_buffers. cbn zeta. by rewrite Hp. }
  exists order. fold (placed_buffers lim al bufs) in Ho, Hh, Hq. set (placed := placed_buffers lim al bufs) in *.
  pose proof (out_quality lim al bufs Hin p best Hh) as Hout. rewrite Hout. split_and!; [done | done |].
  intros solver Hb Hno Hpos. rewrite (builtin_order initial solver) in Ho by done. pose proof (builtin_contract initial solver Hb) as Hls.
  assert (forall b, b ∈ placed -> exists b0 r0, b0 ∈ bufs /\ b = set_spill_reason r0 b0) as Hsrc by (intros b; apply placed_source).
  assert (forall P : LifetimeBoundBuffer -> Prop, (forall b r0, P b -> P (set_spill_reason r0 b)) -> Forall P bufs -> Forall P placed) as Hall.
  { intros P HP HF. apply Forall_forall. intros b (b0 & r0 & Hb0 & ->)%Hsrc. apply HP. rewrite Forall_forall in HF. by apply HF. }
  pose proof (placed_wf lim al bufs Hin) as Hw.
  destruct (solver lim al placed) as [out0|e] eqn:Es; [|done]. exists out0. split; [done|].
  assert (Forall plain placed) as Hpl by (apply Hall; done).
  pose proof (solver_frame lim al placed out0 Hal Hw Hpl Es) as Hf. pose proof (solver_valid lim al placed out0 Hal Hw Hpl Es) as Hv.
  destruct (permutation_spec placed out0 Hf (wf_names _ Hw)) as (perm & Hp1 & Hp2 & Hp3). rewrite Ho in Hp1. injection Hp1 as ->.
  etrans; [|exact Hq]. pose proof (Hall (fun b => in_place_parents b = []) (fun _ _ H => H) Hno) as Hno'. pose proof (Hall (fun b => 0 < buf_size b) (fun _ _ H => H) Hpos) as Hpos'.
  exact (order_quality lim al placed out0 Hf (wf_names _ Hw) Hv Hal Hno' Hpos' perm Hp2 Hp3).
Qed.

(** Sorting a plan by address reproduces it or improves it.  For a valid plan of
    buffers without in-place parents and of positive size, [SolverToPermutation] yields a
    permutation, and the packer places every buffer the plan placed, at the same or a
    lower address. *)
Theorem solver_order_settles lim al bufs plan :
  0 < al -> NoDup (buf_name <$> bufs) -> Forall2 same_buffer bufs plan -> valid_plan lim al plan ->
  Forall (fun b => in_place_parents b = []) bufs -> Forall (fun b => 0 < buf_size b) bufs ->
  exists perm, permutation (Ok plan) bufs = Ok perm /\ perm ≡ₚ seq 0 (length bufs) /\
    forall i b a, plan !! i = Some b -> address b = Some a ->
      exists a', addr_of (plan_of bufs lim al perm).1.1 i = Some a' /\ 0 <= a' <= a.
Proof.
  intros Hal Hn Hf Hv Hno Hpos. destruct (permutation_spec bufs plan Hf Hn) as (perm & H1 & H2 & H3). exists perm. split_and!; [done | done |].
  intros i b a Hb Ha. apply (order_settles lim al bufs plan Hf Hn Hv Hal Hno Hpos perm H2 H3).
  - apply elem_of_seq. rewrite (Forall2_length _ _ _ Hf). apply lookup_lt_Some in Hb. lia.
  - unfold chosen. by rewrite Hb.
Qed.

(** A step takes the best improving reinsertion, and nothing but a reinsertion.
    With [p] holding the plan of [perm], a step chooses a position [i] and probes the
    positions up to its bound on a copy; it returns without touching the plan only when
    no probed position improves it, and otherwise applies one probed reinsertion, of
    exactly the probed quality, the best one whenever any of them improves the plan.  It
    raises only on a zero temperature. *)
Theorem rotation_step {F} `{!FloatOps F} {R} `{!Random F R} bufs capacity al p perm (t : F) (r : R) :
  Forall (fun b => start_time b < end_time b) bufs -> NoDup (buf_name <$> bufs) -> 0 < al -> roomy capacity al bufs -> (0 < length bufs)%nat ->
  holds bufs capacity al p perm -> f_eqb t (f_Z 0) = false ->
  exists mv scale p' r' i, annealing_step_rotate (length bufs) t p r = Ok (mv, scale, p', r') /\ (i < length bufs)%nat /\
    match mv with
    | None => p' = p /\ forall j, probes bufs capacity al perm i j -> quality_of bufs capacity al (move i j perm) <= n_quality p
    | Some (i', j) =>
        i' = i /\ probes bufs capacity al perm i j /\ holds bufs capacity al p' (move i j perm) /\
        n_quality p' = quality_of bufs capacity al (move i j perm) /\
        forall j', probes bufs capacity al perm i j' -> n_quality p < quality_of bufs capacity al (move i j' perm) ->
          forall k, probes bufs capacity al perm i k -> quality_of bufs capacity al (move i k perm) <= n_quality p'
    end.
Proof.
  intros Hlive Hnames Hal Hroomy Hn Hh Ht. destruct (holds_fields _ _ _ _ _ Hh) as (_ & _ & _ & Hq & _). rewrite Hq.
  destruct (rotate_step_spec bufs capacity al Hlive Hnames Hal Hroomy p perm t r Hh Hn) as [[_ H]|(mv & scale & p' & r' & i & H1 & Hi & H2)]; [congruence|].
  exists mv, scale, p', r', i. split_and!; [done | done |]. destruct mv as [[i' j]|]; [|done]. destruct H2 as (-> & H2 & _ & H3 & H4).
  destruct (holds_fields _ _ _ _ _ H3) as (_ & _ & _ & Hq' & _). rewrite Hq'. done.
Qed.

(** Tidying ends, moves no buffer, and restores the order.  After a rotation
    between [i] and [j], [annealing_step_swap] returns; every buffer keeps its address,
    so quality and count are unchanged; and if no neighbours outside the examined range
    were out of order, none are anywhere afterwards. *)
Theorem tidying_step bufs capacity al p perm i j :
  Forall (fun b => start_time b < end_time b) bufs -> NoDup (buf_name <$> bufs) -> 0 < al -> roomy capacity al bufs -> Forall (fun b => 0 <= buf_size b) bufs ->
  holds bufs capacity al p perm -> i <> j -> (i < length bufs)%nat -> (j < length bufs)%nat ->
  exists p' perm', annealing_step_swap i j p = Ok p' /\ holds bufs capacity al p' perm' /\ perm' ≡ₚ perm /\
    n_addresses p' = n_addresses p /\ n_quality p' = n_quality p /\ n_count p' = n_count p /\
    let T := top_in bufs (n_addresses p) in
    (clean_outside bufs T perm (Nat.min i j - 1) (Nat.max i j) -> forall k, ~ dirty_at bufs T perm' k).
Proof.
  intros Hlive Hnames Hal Hroomy Hsz Hh Hne Hi Hj. destruct (holds_fields _ _ _ _ _ Hh) as (_ & Hp & Ha & Hq & Hc & _).
  destruct (swap_step_spec bufs capacity al Hlive Hnames Hal Hroomy i j p perm Hsz Hh Hne Hi Hj) as (p' & perm' & H1 & H2 & H3 & H4).
  destruct (holds_fields _ _ _ _ _ H2) as (_ & Hp' & Ha' & Hq' & Hc' & _). exists p', perm'. cbn zeta. rewrite Ha.
  split_and!; [done | done | by rewrite Hp, Hp' | | | | done]; unfold quality_of in *; congruence.
Qed.

(** ** Witnesses and counterexamples *)

#[local] Existing Instance milli | 100.

(** A linear congruential generator, in thousandths. *)
Definition lcg : Random Z Z := fun r => let r' := (r * 1103515245 + 12345) mod 2147483648 in (r' mod 1000, r').

#[local] Existing Instance lcg | 100.

(** [x] fits only without [a]; [y] is live with [x] alone. *)
Definition annealing_sample : list LifetimeBoundBuffer :=
  [simple_buffer "a" 256 [0; 5] [] []; simple_buffer "x" 384 [3; 8] [] []; simple_buffer "y" 128 [8; 10] [] []]%string.

Definition annealing_schedule : exponential (F := Z) := mkExp 100000 1000 3 1 100000 0.

Example annealing_sample_plan :
  (out ← annealing_plan (InitialOrder [1; 0; 2]%nat) (Ok annealing_schedule) 7 512 128 annealing_sample; Ok (addresses out))
    = Ok [("a", None); ("x", Some 0); ("y", Some 384)]%string.
Proof. vm_compute. reflexivity. Qed.

Lemma annealing_plan_safe_witness :
  exists out, annealing_plan InitialFirstFit (Ok annealing_schedule) 7 512 128 annealing_sample = Ok out /\ valid_plan 512 128 out.
Proof.
  destruct (annealing_plan InitialFirstFit (Ok annealing_schedule) 7 512 128 annealing_sample) as [out|] eqn:E; [|vm_compute in E; discriminate E].
  exists out. split; [reflexivity|]. apply (annealing_plan_safe InitialFirstFit (Ok annealing_schedule) 7 512 128 annealing_sample out); [reflexivity | apply (bool_decide_unpack _); vm_compute; exact I | | exact E].
  apply (bool_decide_unpack _). vm_compute. exact I.
Defined.

Lemma annealing_returns_witness :
  exists out, annealing_plan InitialGreedy (Ok annealing_schedule) 7 512 128 annealing_sample = Ok out.
Proof.
  apply (annealing_returns InitialGreedy annealing_schedule annealing_schedule 100000 7 512 128 annealing_sample).
  - reflexivity.
  - apply (bool_decide_unpack _). vm_compute. exact I.
  - repeat constructor.
  - apply Forall_forall. repeat constructor.
  - reflexivity.
  - repeat constructor.
  - reflexivity.
  - reflexivity.
  - exact I.
  - reflexivity.
  - intros feedback t0 Ht. destruct feedback as [|f1 [|f2 [|f3 feedback]]]; cbn in Ht;
      repeat (apply elem_of_cons in Ht as [->|Ht]; [reflexivity|]); by apply elem_of_nil in Ht.
Defined.

Lemma annealing_never_worse_witness :
  exists out out0, annealing_plan InitialFirstFit (Ok annealing_schedule) 7 512 128 annealing_sample = Ok out /\
    FitSolver.plan_layout first_fit_pick 512 128 (placed_buffers 512 128 annealing_sample) = Ok out0 /\ plan_quality out0 <= plan_quality out.
Proof.
  destruct (annealing_plan InitialFirstFit (Ok annealing_schedule) 7 512 128 annealing_sample) as [out|] eqn:E; [|vm_compute in E; discriminate E].
  exists out. destruct (annealing_never_worse InitialFirstFit (Ok annealing_schedule) 7 512 128 annealing_sample out) as (order & _ & _ & H).
  - reflexivity.
  - apply (bool_decide_unpack _). vm_compute. exact I.
  - apply (bool_decide_unpack _). vm_compute. exact I.
  - repeat constructor.
  - exact E.
  - vm_compute. discriminate.
  - destruct (H (FitSolver.plan_layout first_fit_pick)) as (out0 & H0 & Hq); [reflexivity | repeat constructor | repeat constructor |].
    exists out0. split; [reflexivity|]. split; [exact H0 | exact Hq].
Defined.

Lemma annealing_sample_held :
  exists p, native_init annealing_sample [1; 0; 2]%nat 512 128 None = Ok p /\ holds annealing_sample 512 128 p [1; 0; 2]%nat.
Proof.
  destruct (native_init annealing_sample [1; 0; 2]%nat 512 128 None) as [p|] eqn:E; [|vm_compute in E; discriminate E]. exists p. split; [done|].
  apply init_holds; [| | |exact E].
  - apply (bool_decide_unpack _). vm_compute. exact I.
  - apply (bool_decide_unpack _). vm_compute. exact I.
  - repeat constructor.
Qed.

Lemma rotation_step_witness :
  exists p mv scale p' r', native_init annealing_sample [1; 0; 2]%nat 512 128 None = Ok p /\
    annealing_step_rotate 3 100000 p 7 = Ok (mv, scale, p', r').
Proof.
  destruct annealing_sample_held as (p & Hp & Hh).
  destruct (rotation_step annealing_sample 512 128 p [1; 0; 2]%nat 100000 7) as (mv & scale & p' & r' & i & H & _).
  - apply (bool_decide_unpack _). vm_compute. exact I.
  - apply (bool_decide_unpack _). vm_compute. exact I.
  - reflexivity.
  - apply (bool_decide_unpack _). vm_compute. exact I.
  - cbn. lia.
  - exact Hh.
  - reflexivity.
  - exists p, mv, scale, p', r'. split; [exact Hp | exact H].
Defined.

Lemma tidying_step_witness :
  exists p p', native_init annealing_sample [1; 0; 2]%nat 512 128 None = Ok p /\ annealing_step_swap 0 2 p = Ok p' /\
    n_addresses p' = n_addresses p.
Proof.
  destruct annealing_sample_held as (p & Hp & Hh).
  destruct (tidying_step annealing_sample 512 128 p [1; 0; 2]%nat 0 2) as (p' & perm' & H1 & _ & _ & H2 & _).
  - apply (bool_decide_unpack _). vm_compute. exact I.
  - apply (bool_decide_unpack _). vm_compute. exact I.
  - reflexivity.
  - apply (bool_decide_unpack _). vm_compute. exact I.
  - apply (bool_decide_unpack _). vm_compute. exact I.
  - exact Hh.
  - discriminate.
  - cbn. lia.
  - cbn. lia.
  - exists p, p'. split; [exact Hp|]. split; [exact H1 | exact H2].
Defined.

Lemma solver_order_settles_witness :
  exists plan perm, FitSolver.plan_layout first_fit_pick 512 128 annealing_sample = Ok plan /\ permutation (Ok plan) annealing_sample = Ok perm.
Proof.
  destruct (FitSolver.plan_layout first_fit_pick 512 128 annealing_sample) as [plan|] eqn:E; [|vm_compute in E; discriminate E].
  assert (wf_input annealing_sample) as Hw by (apply (bool_decide_unpack _); vm_compute; exact I).
  assert (Forall plain annealing_sample) as Hp by repeat constructor.
  destruct (solver_order_settles 512 128 annealing_sample plan) as (perm & H & _).
  - reflexivity.
  - apply Hw.
  - apply (solver_frame 512 128 annealing_sample plan); [reflexivity | exact Hw | exact Hp | exact E].
  - apply (solver_valid 512 128 annealing_sample plan); [reflexivity | exact Hw | exact Hp | exact E].
  - repeat constructor.
  - repeat constructor.
  - exists plan, perm. split; [reflexivity | exact H].
Defined.

(** With an in-place child listed before its parent, the order of a plan can lose a
    buffer: first-fit places all three, the packer on the sorted order evicts [p]. *)
Definition child_first : list LifetimeBoundBuffer :=
  [simple_buffer "c" 256 [2; 4] ["p"] []; simple_buffer "p" 256 [0; 2] [] []; simple_buffer "w" 128 [0; 1] [] []]%string.

Example child_first_loses :
  (plan ← FitSolver.plan_layout first_fit_pick 384 128 child_first; Ok (addresses plan)) = Ok [("c", Some 128); ("p", Some 128); ("w", Some 0)]%string /\
  (order ← permutation (FitSolver.plan_layout first_fit_pick 384 128 child_first) child_first;
   p ← native_init child_first order 384 128 None; Ok (n_addresses p)) = Ok [Some 0; None; Some 0].
Proof. vm_compute. done. Qed.

(** Moving an evicted buffer past the probed bound can place another: with [a] placed
    and [x] evicted after it, the probes for [x] end at position 1, but at position 2 [y]
    is placed too. *)
Example probe_bound_misses :
  upper_bound (allocated_at annealing_sample 512 128 [0; 1; 2]%nat) 1 = 1%nat /\
  quality_of annealing_sample 512 128 [0; 1; 2]%nat = 1280 /\ quality_of annealing_sample 512 128 (move 1 2 [0; 1; 2]%nat) = 1920.
Proof. vm_compute. done. Qed.

(** A rotation can put buffers beyond its range out of order: [u] and [v], behind the
    rotated pair, swap heights and are not examined. *)
Definition tidying_sample : list LifetimeBoundBuffer :=
  [simple_buffer "a" 128 [0; 5] [] []; simple_buffer "b" 256 [4; 12] [] []; simple_buffer "u" 512 [0; 2] [] [];
   simple_buffer "v" 512 [10; 12] [] []]%string.

Example tidying_leaves_dirty :
  (p ← native_init tidying_sample [0; 1; 2; 3]%nat 1024 128 None; rotated ← n_rotate 1 0 p; tidy ← annealing_step_swap 1 0 rotated.1;
   Ok (n_addresses p, n_addresses tidy, n_permutation tidy)) =
  Ok ([Some 0; Some 128; Some 128; Some 384], [Some 256; Some 0; Some 384; Some 256], [1; 0; 2; 3]%nat).
Proof. vm_compute. reflexivity. Qed.
