(* ===== verification/ExhaustiveSearch.v ===== *)
(** * The exhaustive core-division search ([scratchpad/exhaustive_search.py])

    [ExhaustiveSearchSolver] wraps a placement solver: it walks the product of
    every buffer's candidate divisions depth first, scores each leaf by placing
    the per-core footprints with a fresh inner solver, and commits the choice that
    leaves the fewest bytes in HBM.  The inner solver is a class parameter in the
    code; here it is a parameter of the section, of which only the contract
    [LayoutSolver] is used, so that the theorems hold for the greedy, first-fit
    and best-fit solvers alike.

    [chosen], [best_total] and [best_chosen] are variables shared by the nested
    functions; they are the fields of [sstate].  [math.inf] is [None]. *)

From S2P Require Import Prelude PlanSolver GreedySolver.

Record sstate := mkS {
  chosen : gmap string nat;
  best_total : option Z;
  best_chosen : gmap string nat
}.

Definition set_chosen (n : string) (i : nat) (s : sstate) : sstate :=
  mkS (<[n := i]> (chosen s)) (best_total s) (best_chosen s).

(** [chosen[name]] *)
Definition chosen_of (c : gmap string nat) (n : string) : res nat :=
  match c !! n with Some i => Ok i | None => Raise KeyError end.

(** [hbm < best_total] *)
Definition lt_inf (v : Z) (best : option Z) : bool :=
  match best with Some b => v <? b | None => true end.

(** The entries [children_by_parent] receives, in order. *)
Definition child_entries (bufs : list LifetimeBoundBuffer)
    : list (string * (LifetimeBoundBuffer * list (nat * nat))) :=
  mjoin ((fun child => (fun p => (p, (child, default [] (cd_parent_matches child !! p))))
                         <$> parents child) <$> bufs).

(** [children_by_parent]: the entries whose parent is in the solve, grouped. *)
Definition children_by_parent (bufs : list LifetimeBoundBuffer)
    : gmap string (list (LifetimeBoundBuffer * list (nat * nat))) :=
  foldl (fun m e =>
    if bool_decide (is_Some (buf_by_name bufs !! e.1))
    then <[e.1 := default [] (m !! e.1) ++ [e.2]]> m else m) ∅ (child_entries bufs).

(** The loop over the children in [_residency_reason]. *)
Fixpoint first_mismatch (c : gmap string nat) (ci : nat)
    (children : list (LifetimeBoundBuffer * list (nat * nat))) : res (option string) :=
  match children with
  | [] => Ok None
  | (child, pairs) :: rest =>
      child_division ← chosen_of c (buf_name child);
      if existsb (fun pq => Nat.eqb pq.1 ci && Nat.eqb pq.2 child_division) pairs
      then first_mismatch c ci rest
      else Ok (Some "core div mismatch"%string)
  end.

Definition _residency_reason (bufs : list LifetimeBoundBuffer) (c : gmap string nat)
    (b : LifetimeBoundBuffer) (ci : nat) : res (option string) :=
  match residency_reason b with
  | Some r => Ok (Some r)
  | None => first_mismatch c ci (default [] (children_by_parent bufs !! buf_name b))
  end.

(** The loop over the declared parents in [_valid_inplace_parents]. *)
Fixpoint keep_parents (bufs : list LifetimeBoundBuffer) (c : gmap string nat)
    (b_per_core : Z) (ps : list string) : res (list string) :=
  match ps with
  | [] => Ok []
  | p_name :: rest =>
      match buf_by_name bufs !! p_name with
      | None => valid ← keep_parents bufs c b_per_core rest; Ok (p_name :: valid)
      | Some p =>
          pi ← chosen_of c p_name;
          p_per_core ← per_core_size p pi;
          valid ← keep_parents bufs c b_per_core rest;
          Ok (if b_per_core <=? p_per_core then p_name :: valid else valid)
      end
  end.

Definition _valid_inplace_parents (bufs : list LifetimeBoundBuffer) (c : gmap string nat)
    (b : LifetimeBoundBuffer) (ci : nat) : res (list string) :=
  b_per_core ← per_core_size b ci;
  keep_parents bufs c b_per_core (in_place_parents b).

(** One element of [_make_temp_bufs]; constructing it runs [__post_init__]. *)
Definition make_temp_buf (bufs : list LifetimeBoundBuffer) (c : gmap string nat)
    (b : LifetimeBoundBuffer) : res LifetimeBoundBuffer :=
  ci ← chosen_of c (buf_name b);
  size ← per_core_size b ci;
  ps ← _valid_inplace_parents bufs c b ci;
  reason ← _residency_reason bufs c b ci;
  let t := mkBuffer (buf_name b) size (uses b) (first_use_is_read b) None ps reason None
             (lifetime_start_override b) (lifetime_end_override b) [] None [] [] ∅ None in
  post_init t;;
  Ok t.

Definition _make_temp_bufs (bufs : list LifetimeBoundBuffer) (c : gmap string nat)
    : res (list LifetimeBoundBuffer) :=
  py_map (make_temp_buf bufs c) bufs.

Section search.
Context (inner : Z -> Z -> list LifetimeBoundBuffer -> res (list LifetimeBoundBuffer)).
Context (lim : Z).

(** [self._inner_factory(temp, self.limit)]: the inner solver's own default
    alignment, one stick, is used. *)
Definition run_inner (bufs : list LifetimeBoundBuffer) (c : gmap string nat)
    : res (list LifetimeBoundBuffer) :=
  temp ← _make_temp_bufs bufs c;
  inner lim 128 temp.

(** [{a.name for a in allocation if a.address is not None}] *)
Definition pinned_names (allocation : list LifetimeBoundBuffer) : list string :=
  buf_name <$> filter (fun a => is_Some (address a)) allocation.

Definition score_leaf (bufs : list LifetimeBoundBuffer) (c : gmap string nat) : res Z :=
  allocation ← run_inner bufs c;
  Ok (zsum (buf_size <$> filter (fun b => buf_name b ∉ pinned_names allocation) bufs)).

(** [recurse(var_idx)], on the variables that are left. *)
Fixpoint recurse (bufs : list LifetimeBoundBuffer) (vars : list LifetimeBoundBuffer)
    (s : sstate) : res sstate :=
  match vars with
  | [] =>
      hbm ← score_leaf bufs (chosen s);
      Ok (if lt_inf hbm (best_total s) then mkS (chosen s) (Some hbm) (chosen s) else s)
  | b :: vars' =>
      prev ← chosen_of (chosen s) (buf_name b);
      s' ← for_each (fun opt_idx st => recurse bufs vars' (set_chosen (buf_name b) opt_idx st))
             (seq 0 (length (core_divisions b))) s;
      Ok (set_chosen (buf_name b) prev s')
  end.

(** [{b.name: 0 for b in buffers_list}] *)
Definition all_zero (bufs : list LifetimeBoundBuffer) : gmap string nat :=
  foldl (fun m b => <[buf_name b := 0%nat]> m) ∅ bufs.

Definition variable_buffers (bufs : list LifetimeBoundBuffer) : list LifetimeBoundBuffer :=
  filter (fun b => (1 < length (core_divisions b))%nat) bufs.

(** The commit loop: the winning division, then the address and the reason of the
    final placement. *)
Definition commit (best : gmap string nat) (final_alloc : list LifetimeBoundBuffer)
    (b : LifetimeBoundBuffer) : res LifetimeBoundBuffer :=
  ci ← chosen_of best (buf_name b);
  let placed := buf_by_name final_alloc !! buf_name b in
  Ok (set_spill_reason (placed ≫= spill_reason)
        (set_address (placed ≫= address) (set_chosen_division (Some ci) b))).

(** The constructor's assertion, then the solve. *)
Definition plan_layout_and_core_divisions (bufs : list LifetimeBoundBuffer)
    : res (list LifetimeBoundBuffer) :=
  py_assert (forallb (fun b => bool_decide (paired_with b = [])) bufs);;
  raise_if (existsb (fun b => existsb (fun cd => negb (is_untiled (tiling cd)))
                                (core_divisions b)) bufs) ValueError;;
  s ← recurse bufs (variable_buffers bufs)
        (mkS (all_zero bufs) None (all_zero bufs));
  final_alloc ← run_inner bufs (best_chosen s);
  py_map (commit (best_chosen s) final_alloc) bufs.
End search.

(** ** Inputs *)

(** What the allocator hands over: well-formed buffers whose in-place declarations
    hold, each with untiled candidate divisions of positive split factors. *)
Record wf_search (bufs : list LifetimeBoundBuffer) : Prop := {
  ws_input : wf_input bufs;
  ws_unpaired : forall b, b ∈ bufs -> paired_with b = [];
  ws_some : forall b, b ∈ bufs -> core_divisions b <> [];
  ws_untiled : forall b cd, b ∈ bufs -> cd ∈ core_divisions b -> axes (tiling cd) = [];
  ws_splits : forall b cd, b ∈ bufs -> cd ∈ core_divisions b ->
    Forall (fun s => 0 < s.2) (splits cd);
  ws_check : _check_in_place_relationships bufs = Ok tt
}.

(** A choice of one candidate per buffer. *)
Definition in_menu (bufs : list LifetimeBoundBuffer) (c : gmap string nat) : Prop :=
  forall b, b ∈ bufs -> exists i, c !! buf_name b = Some i /\ (i < length (core_divisions b))%nat.

(** ** The buffers of one leaf *)

Lemma child_entries_elem bufs n child pairs :
  (n, (child, pairs)) ∈ child_entries bufs <->
  child ∈ bufs /\ n ∈ parents child /\ pairs = default [] (cd_parent_matches child !! n).
Proof.
  unfold child_entries. rewrite list_elem_of_join. split.
  - intros (l & Hin & (c & -> & Hc)%list_elem_of_fmap).
    apply list_elem_of_fmap in Hin as (p & [= -> -> ->] & Hp). done.
  - intros (Hc & Hn & ->). eexists. split; [|by apply list_elem_of_fmap_2].
    apply list_elem_of_fmap. eauto.
Qed.

Lemma children_by_parent_elem bufs n e :
  is_Some (buf_by_name bufs !! n) ->
  (e ∈ default [] (children_by_parent bufs !! n) <-> (n, e) ∈ child_entries bufs).
Proof.
  intros Hn. unfold children_by_parent.
  induction (child_entries bufs) as [|[p x] l IH] using rev_ind.
  { simpl. rewrite lookup_empty. simpl. split; by intros ?%elem_of_nil. }
  rewrite foldl_app, elem_of_app, <- IH, list_elem_of_singleton. simpl.
  case_bool_decide as Hp; [|split; [by left | intros [|[= <- _]]; done]].
  rewrite lookup_insert. case_decide as He.
  - subst p. simpl. rewrite elem_of_app, list_elem_of_singleton. split; intros [H|H]; auto.
    + right. by subst.
    + right. by injection H.
  - split; [by left|]. intros [|[= -> _]]; done.
Qed.

Lemma per_core_size_Ok b i :
  (i < length (core_divisions b))%nat ->
  exists cd, core_divisions b !! i = Some cd /\
    per_core_size b i = Ok (ceil_div (buf_size b) (output_partition cd * output_tile_count (tiling cd))).
Proof.
  intros Hi. apply lookup_lt_is_Some_2 in Hi as [cd Hcd]. exists cd. split; [done|].
  unfold per_core_size. by rewrite Hcd.
Qed.

Lemma ceil_div_nonneg a b : 0 <= a -> 0 < b -> 0 <= ceil_div a b.
Proof. intros Ha Hb. unfold ceil_div. pose proof (neg_div_neg_spec a b Hb). nia. Qed.

Lemma Forall_filter {A} (P Q : A -> Prop) `{HQ : !forall x, Decision (Q x)} l :
  Forall P l -> Forall P (filter Q l).
Proof. rewrite !Forall_forall. intros HP x [_ Hx]%list_elem_of_filter. auto. Qed.

Section leaf.
Context (bufs : list LifetimeBoundBuffer) (Hws : wf_search bufs).
Context (c : gmap string nat) (Hc : in_menu bufs c).

(** The per-core footprint of [b] under the choice. *)
Definition leaf_size (b : LifetimeBoundBuffer) (sz : Z) : Prop :=
  exists i, c !! buf_name b = Some i /\ per_core_size b i = Ok sz.

Lemma leaf_size_total b : b ∈ bufs -> exists sz, leaf_size b sz /\ 0 <= sz.
Proof.
  intros Hb. destruct (Hc b Hb) as (i & Hi & Hlt).
  destruct (per_core_size_Ok b i Hlt) as (cd & Hcd & Hsz). eexists. split; [by exists i|].
  apply ceil_div_nonneg; [by apply (wf_size b), (wf_buffers bufs (ws_input _ Hws))|].
  apply list_elem_of_lookup_2 in Hcd.
  unfold output_tile_count. rewrite (ws_untiled _ Hws b cd Hb Hcd), filter_nil. simpl.
  rewrite Z.mul_1_r. apply zprod_pos, Forall_fmap. unfold output_splits.
  apply Forall_filter. by apply (ws_splits _ Hws b).
Qed.

(** What a temporary buffer is. *)
Record temp_of (b t : LifetimeBoundBuffer) : Prop := {
  to_name : buf_name t = buf_name b;
  to_size : leaf_size b (buf_size t);
  to_uses : uses t = uses b /\ first_use_is_read t = first_use_is_read b /\
    lifetime_start_override t = lifetime_start_override b /\
    lifetime_end_override t = lifetime_end_override b;
  to_fresh : address t = None /\ paired_with t = [] /\ core_divisions t = [] /\
    untiled_bar t = None;
  to_parents : forall p, p ∈ in_place_parents t -> p ∈ in_place_parents b /\
    forall q sz, buf_by_name bufs !! p = Some q -> leaf_size q sz -> buf_size t <= sz;
  to_reason : exists i, c !! buf_name b = Some i /\
    _residency_reason bufs c b i = Ok (residency_reason t)
}.

Lemma keep_parents_ok sz ps :
  exists valid, keep_parents bufs c sz ps = Ok valid /\
    forall p, p ∈ valid -> p ∈ ps /\
      forall q s, buf_by_name bufs !! p = Some q -> leaf_size q s -> sz <= s.
Proof.
  induction ps as [|p ps (valid & IH & Hv)]; simpl.
  { exists []. split; [done|]. by intros p ?%elem_of_nil. }
  assert (forall p', p' ∈ valid -> p' ∈ p :: ps /\
    forall q s, buf_by_name bufs !! p' = Some q -> leaf_size q s -> sz <= s) as Hrest.
  { intros p' Hp'. destruct (Hv p' Hp'). split; [list_mem | done]. }
  destruct (buf_by_name bufs !! p) as [q|] eqn:Hq; rewrite IH; simpl.
  - destruct (buf_by_name_Some _ _ _ Hq) as [Hin <-].
    destruct (leaf_size_total q Hin) as (s & (i & Hi & Hs) & _).
    unfold chosen_of. rewrite Hi. simpl. rewrite Hs. simpl.
    destruct (Z.leb_spec sz s); eexists; (split; [done|]); [|done].
    intros p' [-> | Hp']%elem_of_cons; [|auto]. split; [list_mem|].
    intros q' s' Hq' (i' & Hi' & Hs'). same_lookup Hq Hq'. congruence.
  - eexists. split; [done|]. intros p' [-> | Hp']%elem_of_cons; [|auto].
    split; [list_mem|]. intros q s Hq'. congruence.
Qed.

Lemma first_mismatch_ok ci children :
  (forall e, e ∈ children -> e.1 ∈ bufs) -> exists r, first_mismatch c ci children = Ok r.
Proof.
  induction children as [|[child pairs] children IH]; intros Hin; simpl; [eauto|].
  destruct (Hc child) as (i & Hi & _); [apply (Hin (child, pairs)); list_mem|].
  unfold chosen_of. rewrite Hi. simpl. case_match; [|eauto]. apply IH.
  intros e He. apply Hin. list_mem.
Qed.

Lemma residency_reason_ok b ci : b ∈ bufs -> exists r, _residency_reason bufs c b ci = Ok r.
Proof.
  intros Hb. unfold _residency_reason. destruct (residency_reason b); [eauto|].
  apply first_mismatch_ok. intros [child pairs] He. apply children_by_parent_elem in He.
  - by apply child_entries_elem in He as (? & _).
  - rewrite buf_by_name_lookup; [eauto | apply Hws | done].
Qed.

Lemma make_temp_buf_ok b : b ∈ bufs -> exists t, make_temp_buf bufs c b = Ok t /\ temp_of b t.
Proof.
  intros Hb. unfold make_temp_buf.
  destruct (leaf_size_total b Hb) as (sz & (i & Hi & Hs) & _).
  unfold chosen_of. rewrite Hi. simpl. rewrite Hs. simpl.
  unfold _valid_inplace_parents. rewrite Hs. simpl.
  destruct (keep_parents_ok sz (in_place_parents b)) as (valid & -> & Hv). simpl.
  destruct (residency_reason_ok b i Hb) as [r Hr]. rewrite Hr. simpl.
  assert (wf_buffer b) as [_ Hp _ _] by by apply (wf_buffers bufs (ws_input _ Hws)).
  unfold post_init in *. simpl. rewrite Hp. simpl. eexists. split; [done|].
  split; simpl; eauto. by exists i.
Qed.

Lemma make_temp_bufs_ok : exists temp, _make_temp_bufs bufs c = Ok temp /\ Forall2 temp_of bufs temp.
Proof.
  destruct (py_map_total (make_temp_buf bufs c) bufs) as [temp Ht].
  { intros b Hb. destruct (make_temp_buf_ok b Hb) as (t & ? & _). eauto. }
  exists temp. split; [done|]. apply py_map_Ok in Ht.
  apply Forall2_same_length_lookup_2; [by eapply Forall2_length|].
  intros i b t Hb Hti. pose proof (Forall2_lookup_lr _ _ _ _ _ _ Ht Hb Hti) as Hr.
  destruct (make_temp_buf_ok b) as (t' & Ht' & Hof); [by eapply list_elem_of_lookup_2|].
  cbv beta in Hr. rewrite Ht' in Hr. by injection Hr as ->.
Qed.

Section temps.
Context (temp : list LifetimeBoundBuffer) (Ht : Forall2 temp_of bufs temp).

Lemma temp_source t : t ∈ temp -> exists b, b ∈ bufs /\ temp_of b t.
Proof.
  intros (i & Hi)%list_elem_of_lookup.
  destruct (Forall2_lookup_r _ _ _ _ _ Ht Hi) as (b & Hb & Hof).
  exists b. split; [by eapply list_elem_of_lookup_2 | done].
Qed.

Lemma temp_names : buf_name <$> temp = buf_name <$> bufs.
Proof.
  apply list_eq. intros i. rewrite !list_lookup_fmap.
  destruct (bufs !! i) as [b|] eqn:Hb.
  - destruct (Forall2_lookup_l _ _ _ _ _ Ht Hb) as (t & -> & Hof). simpl.
    by rewrite (to_name _ _ Hof).
  - assert (temp !! i = None) as ->; [|done]. apply lookup_ge_None.
    rewrite <- (Forall2_length _ _ _ Ht). by apply lookup_ge_None.
Qed.

Lemma temp_times b t :
  temp_of b t -> start_time t = start_time b /\ end_time t = end_time b /\
  parent_is_read t = parent_is_read b /\ (post_init b = Ok tt -> post_init t = Ok tt).
Proof.
  intros Hof. destruct (to_uses _ _ Hof) as (H1 & H2 & H3 & H4).
  unfold start_time, end_time, parent_is_read, post_init. by rewrite H1, H2, H3, H4.
Qed.

Lemma temp_wf_input : wf_input temp.
Proof.
  split.
  - intros t (b & Hb & Hof)%temp_source.
    destruct (wf_buffers bufs (ws_input _ Hws) b Hb) as [Hu Hp Hs Hcomp].
    destruct (to_uses _ _ Hof) as (H1 & H2 & _ & _).
    destruct (temp_times b t Hof) as (_ & _ & _ & Hpi).
    split; [by rewrite H1 | by apply Hpi | |].
    + destruct (to_size _ _ Hof) as (i & Hi & Hsz).
      destruct (leaf_size_total b Hb) as (sz & (j & Hj & Hsz') & Hnn).
      same_lookup Hi Hj. congruence.
    + intros Hne. rewrite H2. apply Hcomp. destruct (in_place_parents t) as [|p ps] eqn:E; [done|].
      destruct (to_parents _ _ Hof p) as [Hp' _]; [rewrite E; list_mem|].
      by destruct (in_place_parents b); [apply elem_of_nil in Hp'|].
  - rewrite temp_names. apply Hws.
  - intros t (b & Hb & Hof)%temp_source. apply (to_fresh _ _ Hof).
Qed.

Lemma temp_plain : Forall plain temp.
Proof. apply Forall_forall. intros t (b & Hb & Hof)%temp_source. apply (to_fresh _ _ Hof). Qed.

Lemma temp_check : _check_in_place_relationships temp = Ok tt.
Proof.
  apply check_in_place_spec. intros ct p pt (cb & Hcb & Hct)%temp_source Hp Hl.
  apply buf_by_name_Some in Hl as [(pb & Hpb & Hpt)%temp_source Hn].
  destruct (to_parents _ _ Hct p Hp) as [Hp' Hsz].
  assert (buf_by_name bufs !! p = Some pb) as Hlk.
  { rewrite <- Hn, (to_name _ _ Hpt). apply buf_by_name_lookup; [apply Hws | done]. }
  pose proof (proj1 (check_in_place_spec bufs) (ws_check _ Hws) cb p pb Hcb Hp' Hlk) as Hpair.
  apply check_in_place_pair_spec in Hpair as (He & Hr & _). apply check_in_place_pair_spec.
  destruct (temp_times cb ct Hct) as (-> & _ & _ & _).
  destruct (temp_times pb pt Hpt) as (_ & -> & -> & _). split_and!; auto.
  intros _ _. apply (Hsz pb); [done|]. apply (to_size _ _ Hpt).
Qed.
End temps.
End leaf.

(** ** The committed plan *)

(** [o] occupies what [a] occupies, and declares at least its in-place parents. *)
Record occupies_as (a o : LifetimeBoundBuffer) : Prop := {
  oc_name : buf_name o = buf_name a;
  oc_slot : address o = address a /\ buf_size o = buf_size a;
  oc_time : start_time o = start_time a /\ end_time o = end_time a;
  oc_parents : forall p, p ∈ in_place_parents a -> p ∈ in_place_parents o
}.

Lemma occupies_hands_over a b x y :
  occupies_as a x -> occupies_as b y -> hands_over a b -> hands_over x y.
Proof.
  intros [An [Aa As] [At Ae] Ap] [Bn [Ba Bs] [Bt Be] Bp] (H1 & H2 & H3 & H4).
  split_and!; [rewrite An; auto | lia | congruence | lia].
Qed.

Lemma occupies_compatible a b x y :
  occupies_as a x -> occupies_as b y -> compatible a b -> compatible x y.
Proof.
  intros Ha Hb H u v Hu Hv Ho.
  destruct (oc_slot _ _ Ha) as [Aa As], (oc_slot _ _ Hb) as [Ba Bs].
  destruct (oc_time _ _ Ha) as [At Ae], (oc_time _ _ Hb) as [Bt Be].
  destruct (H u v) as [Hd | [Hd | Hd]]; [congruence | congruence | ..].
  - unfold overlaps_in_time in *. lia.
  - left. by rewrite As, Bs.
  - right; left. by eapply occupies_hands_over.
  - right; right. by eapply occupies_hands_over.
Qed.

Lemma occupies_valid_plan lim al l k :
  Forall2 occupies_as l k -> valid_plan lim al l -> valid_plan lim al k.
Proof.
  intros HF [Hr Ha Hc].
  assert (forall o, o ∈ k -> exists a, a ∈ l /\ occupies_as a o) as Hsrc.
  { intros o (i & Hi)%list_elem_of_lookup.
    destruct (Forall2_lookup_r _ _ _ _ _ HF Hi) as (a & ? & ?).
    exists a. split; [by eapply list_elem_of_lookup_2 | done]. }
  split.
  - intros o x (a & Hin & Ho)%Hsrc Hx. destruct (oc_slot _ _ Ho) as [Aa ->].
    apply (Hr a); congruence.
  - intros o x (a & Hin & Ho)%Hsrc Hx. destruct (oc_slot _ _ Ho) as [Aa _].
    apply (Ha a); congruence.
  - intros i j x y Hij Hx Hy.
    destruct (Forall2_lookup_r _ _ _ _ _ HF Hx) as (a & Hai & Ha').
    destruct (Forall2_lookup_r _ _ _ _ _ HF Hy) as (b & Hbj & Hb').
    eapply occupies_compatible; [done | done |]. by eapply (Hc i j).
Qed.

Lemma first_mismatch_None c ci children :
  first_mismatch c ci children = Ok None ->
  forall child pairs, (child, pairs) ∈ children ->
    exists j, c !! buf_name child = Some j /\ (ci, j) ∈ pairs.
Proof.
  induction children as [|[ch ps] children IH]; simpl; [by intros _ child pairs ?%elem_of_nil|].
  unfold chosen_of. destruct (c !! buf_name ch) as [j|] eqn:Hj; simpl; [|done].
  destruct (existsb _ ps) eqn:E; [|done]. intros H child pairs [[= -> ->]|Hin]%elem_of_cons; [|eauto].
  exists j. split; [done|]. apply existsb_exists in E as ([x y] & Hin%list_elem_of_In & Hxy).
  simpl in Hxy. apply andb_true_iff in Hxy as [->%Nat.eqb_eq ->%Nat.eqb_eq]. done.
Qed.

Section solve.
Context (inner : Z -> Z -> list LifetimeBoundBuffer -> res (list LifetimeBoundBuffer)).
Context `{!LayoutSolver inner}.
Context (lim : Z) (bufs : list LifetimeBoundBuffer) (Hws : wf_search bufs).

(** Every choice is scored: the inner solver never raises. *)
Lemma run_inner_ok c :
  in_menu bufs c -> exists temp alloc, _make_temp_bufs bufs c = Ok temp /\
    Forall2 (temp_of bufs c) bufs temp /\ inner lim 128 temp = Ok alloc /\
    run_inner inner lim bufs c = Ok alloc.
Proof.
  intros Hc. destruct (make_temp_bufs_ok bufs Hws c Hc) as (temp & Htmp & Hof).
  destruct (solver_total lim 128 temp) as [alloc Ha]; [lia | | | | |].
  - by eapply temp_wf_input.
  - by eapply temp_plain.
  - intros t (b & _ & Hb)%(temp_source bufs c temp Hof). apply (to_fresh _ _ _ _ Hb).
  - by eapply temp_check.
  - exists temp, alloc. split_and!; auto. unfold run_inner. by rewrite Htmp.
Qed.

Lemma score_total c : in_menu bufs c -> exists v, score_leaf inner lim bufs c = Ok v.
Proof.
  intros Hc. destruct (run_inner_ok c Hc) as (_ & alloc & _ & _ & _ & Hr).
  unfold score_leaf. rewrite Hr. simpl. eauto.
Qed.

(** ** The search *)

(** The choices the recursion over [vars] visits from [c]. *)
Fixpoint leaves (vars : list LifetimeBoundBuffer) (c : gmap string nat) : list (gmap string nat) :=
  match vars with
  | [] => [c]
  | b :: vars' =>
      mjoin ((fun i => leaves vars' (<[buf_name b := i]> c))
               <$> seq 0 (length (core_divisions b)))
  end.

Definition le_inf (best : option Z) (v : Z) : Prop :=
  match best with Some b => b <= v | None => False end.

(** [s'] is [s] after the choices [C] were scored. *)
Record scored (C : list (gmap string nat)) (s s' : sstate) : Prop := {
  sc_chosen : chosen s' = chosen s;
  sc_min : forall c v, c ∈ C -> score_leaf inner lim bufs c = Ok v -> le_inf (best_total s') v;
  sc_old : forall v, le_inf (best_total s) v -> le_inf (best_total s') v;
  sc_from : (best_total s' = best_total s /\ best_chosen s' = best_chosen s) \/
    (best_chosen s' ∈ C /\ exists v, best_total s' = Some v /\
       score_leaf inner lim bufs (best_chosen s') = Ok v)
}.

Lemma scored_trans C1 C2 s1 s2 s3 :
  scored C1 s1 s2 -> scored C2 s2 s3 -> scored (C1 ++ C2) s1 s3.
Proof.
  intros [A1 A2 A3 A4] [B1 B2 B3 B4]. split; [congruence | | auto |].
  - intros c v [Hc|Hc]%elem_of_app Hv; [apply B3|]; eauto.
  - destruct B4 as [[-> ->] | [Hin Hv]]; [|right; split; [list_mem | done]].
    destruct A4 as [|[Hin Hv]]; [by left | right; split; [list_mem | done]].
Qed.

Lemma scored_leaf s v :
  score_leaf inner lim bufs (chosen s) = Ok v ->
  scored [chosen s] s
    (if lt_inf v (best_total s) then mkS (chosen s) (Some v) (chosen s) else s).
Proof.
  intros Hv. destruct (lt_inf v (best_total s)) eqn:E; split; simpl; auto.
  - intros c w ->%list_elem_of_singleton Hw. replace w with v by congruence. lia.
  - intros w. unfold lt_inf in E. destruct (best_total s); simpl; lia.
  - right. split; [list_mem | eauto].
  - intros c w ->%list_elem_of_singleton Hw. replace w with v by congruence.
    unfold lt_inf in E. destruct (best_total s); simpl; [lia | done].
Qed.

Lemma scored_set C n i j s s' :
  scored C (set_chosen n i s) s' -> scored C (set_chosen n j s) (set_chosen n j s').
Proof.
  intros [A1 A2 A3 A4]. split; simpl in *; auto. rewrite A1. apply insert_insert_eq.
Qed.

Lemma scored_refl s : scored [] s s.
Proof. split; auto. by intros c v ?%elem_of_nil. Qed.

Lemma leaves_cons b vars c i :
  (i < length (core_divisions b))%nat ->
  forall c', c' ∈ leaves vars (<[buf_name b := i]> c) -> c' ∈ leaves (b :: vars) c.
Proof.
  intros Hi c' Hc'. simpl. apply list_elem_of_join. eexists. split; [exact Hc'|].
  apply list_elem_of_fmap. exists i. split; [done|]. apply elem_of_seq. lia.
Qed.

Lemma recurse_ok vars s :
  (forall c, c ∈ leaves vars (chosen s) -> in_menu bufs c) ->
  (forall b, b ∈ vars -> is_Some (chosen s !! buf_name b)) ->
  exists s', recurse inner lim bufs vars s = Ok s' /\ scored (leaves vars (chosen s)) s s'.
Proof.
  revert s. induction vars as [|b vars IH]; intros s Hmenu Hdef.
  { simpl. destruct (score_total (chosen s)) as [v Hv]; [apply Hmenu; simpl; list_mem|].
    rewrite Hv. simpl. eexists. split; [done|]. by apply scored_leaf. }
  destruct (Hdef b) as [prev Hprev]; [list_mem|].
  set (n := buf_name b) in *. set (sub i := leaves vars (<[n := i]> (chosen s))).
  destruct (for_each_total
    (fun opt_idx st => recurse inner lim bufs vars (set_chosen n opt_idx st))
    (fun dn st => (forall i, <[n := i]> (chosen st) = <[n := i]> (chosen s)) /\
       scored (mjoin (sub <$> dn)) s (set_chosen n prev st))
    (seq 0 (length (core_divisions b))) s) as (s' & Hs' & [HIc HIs]).
  - intros dn i rest st Hl [Hst Hsc].
    assert (i < length (core_divisions b))%nat as Hi.
    { assert (i ∈ seq 0 (length (core_divisions b))) as Hin by (rewrite Hl; list_mem).
      apply elem_of_seq in Hin. lia. }
    destruct (IH (set_chosen n i st)) as (st' & Hrun & Hsc').
    + simpl. rewrite Hst. intros c Hc. by eapply Hmenu, leaves_cons.
    + simpl. rewrite Hst. intros b' Hb'. destruct (Hdef b') as [k Hk]; [list_mem|].
      destruct (decide (n = buf_name b')) as [<-|]; [rewrite lookup_insert_eq; eauto|].
      rewrite lookup_insert_ne by done. eauto.
    + exists st'. split; [done|]. split.
      * intros j. rewrite (sc_chosen _ _ _ Hsc'). simpl. rewrite insert_insert_eq. apply Hst.
      * rewrite fmap_app, join_app. eapply scored_trans; [exact Hsc|]. simpl.
        rewrite app_nil_r. apply (scored_set _ _ i). simpl in Hsc'. by rewrite Hst in Hsc'.
  - split; [done|]. replace (set_chosen n prev s) with s; [apply scored_refl|].
    unfold set_chosen. rewrite (insert_id _ _ _ Hprev). by destruct s.
  - exists (set_chosen n prev s'). split; [|done].
    simpl. unfold chosen_of. fold n. rewrite Hprev. simpl. by rewrite Hs'.
Qed.

Lemma leaves_spec vars c0 c :
  NoDup (buf_name <$> vars) ->
  (c ∈ leaves vars c0 <->
   (forall n, n ∉ buf_name <$> vars -> c !! n = c0 !! n) /\
   (forall b, b ∈ vars -> exists i, c !! buf_name b = Some i /\ (i < length (core_divisions b))%nat)).
Proof.
  revert c0. induction vars as [|b vars IH]; intros c0 Hnd.
  { simpl. rewrite list_elem_of_singleton. split.
    - intros ->. split; [done|]. by intros b ?%elem_of_nil.
    - intros [H _]. apply map_eq. intros n. apply H, not_elem_of_nil. }
  rewrite fmap_cons in Hnd. apply NoDup_cons in Hnd as [Hnb Hnd].
  simpl. rewrite list_elem_of_join. split.
  - intros (l & Hc & (i & -> & Hi%elem_of_seq)%list_elem_of_fmap).
    apply IH in Hc as [H1 H2]; [|done]. split.
    + intros n [Hn1 Hn2]%not_elem_of_cons. rewrite H1 by done. by rewrite lookup_insert_ne.
    + intros b' [-> | Hb']%elem_of_cons; [|auto]. exists i. rewrite H1 by done.
      rewrite lookup_insert_eq. split; [done | lia].
  - intros [H1 H2]. destruct (H2 b) as (i & Hi & Hlt); [list_mem|].
    exists (leaves vars (<[buf_name b := i]> c0)). split.
    + apply IH; [done|]. split; [|intros b' Hb'; apply H2; list_mem].
      intros n Hn. destruct (decide (n = buf_name b)) as [->|Hne].
      * by rewrite lookup_insert_eq.
      * rewrite lookup_insert_ne by done. apply H1. by apply not_elem_of_cons.
    + apply list_elem_of_fmap. exists i. split; [done|]. apply elem_of_seq. lia.
Qed.

Lemma all_zero_lookup n :
  all_zero bufs !! n = if decide (n ∈ buf_name <$> bufs) then Some 0%nat else None.
Proof.
  unfold all_zero. clear Hws. induction bufs as [|b l IH] using rev_ind.
  { done. }
  rewrite foldl_app. simpl. rewrite lookup_insert, IH, fmap_app.
  assert (n ∈ (buf_name <$> l) ++ (buf_name <$> [b]) <-> n ∈ buf_name <$> l \/ n = buf_name b)
    as Hiff by (rewrite elem_of_app; simpl; by rewrite list_elem_of_singleton).
  destruct (decide (buf_name b = n)), (decide (n ∈ buf_name <$> l)),
    (decide (n ∈ (buf_name <$> l) ++ (buf_name <$> [b]))); naive_solver.
Qed.

Lemma variable_names_NoDup : NoDup (buf_name <$> variable_buffers bufs).
Proof.
  unfold variable_buffers. eapply sublist_NoDup; [apply (wf_names bufs (ws_input _ Hws))|].
  apply fmap_sublist, sublist_filter.
Qed.

(** The visited choices are exactly the choices from the menu. *)
Lemma leaves_menu c :
  c ∈ leaves (variable_buffers bufs) (all_zero bufs) <->
  in_menu bufs c /\ (forall n, is_Some (c !! n) -> n ∈ buf_name <$> bufs).
Proof.
  rewrite leaves_spec by apply variable_names_NoDup. split.
  - intros [H1 H2]. split.
    + intros b Hb. destruct (decide (1 < length (core_divisions b))%nat) as [Hv|Hv].
      { apply H2, list_elem_of_filter. done. }
      exists 0%nat. rewrite H1; [rewrite all_zero_lookup, decide_True by by apply list_elem_of_fmap_2|].
      * split; [done|]. pose proof (ws_some _ Hws b Hb). destruct (core_divisions b); [done | simpl; lia].
      * intros (b' & He & [Hv' Hb']%list_elem_of_filter)%list_elem_of_fmap.
        assert (b' = b) as ->; [|done]. symmetry. by eapply name_inj; [apply Hws|..].
    + intros n [i Hi]. destruct (decide (n ∈ buf_name <$> bufs)) as [|Hn]; [done|].
      rewrite H1, all_zero_lookup, decide_False in Hi; [done | done |].
      intros (b' & -> & [_ Hb']%list_elem_of_filter)%list_elem_of_fmap.
      by apply Hn, list_elem_of_fmap_2.
  - intros [Hm Hdom]. split; [|intros b [_ Hb]%list_elem_of_filter; auto].
    intros n Hn. rewrite all_zero_lookup. case_decide as Hin.
    + apply list_elem_of_fmap in Hin as (b & -> & Hb). destruct (Hm b Hb) as (i & Hi & Hlt).
      rewrite Hi. f_equal. destruct (decide (1 < length (core_divisions b))%nat) as [Hv|Hv]; [|lia].
      exfalso. apply Hn, list_elem_of_fmap_2, list_elem_of_filter. done.
    + destruct (c !! n) as [i|] eqn:Hi; [|done]. exfalso. apply Hin, Hdom. eauto.
Qed.

(** The search finds the least score of the menu. *)
Lemma search_ok :
  exists s v, recurse inner lim bufs (variable_buffers bufs)
      (mkS (all_zero bufs) None (all_zero bufs)) = Ok s /\
    in_menu bufs (best_chosen s) /\ score_leaf inner lim bufs (best_chosen s) = Ok v /\
    forall c w, in_menu bufs c -> (forall n, is_Some (c !! n) -> n ∈ buf_name <$> bufs) ->
      score_leaf inner lim bufs c = Ok w -> v <= w.
Proof.
  set (s0 := mkS (all_zero bufs) None (all_zero bufs)).
  destruct (recurse_ok (variable_buffers bufs) s0) as (s & Hs & [_ Hmin _ Hfrom]).
  { intros c Hc. by apply leaves_menu. }
  { intros b [_ Hb]%list_elem_of_filter. simpl.
    rewrite all_zero_lookup, decide_True by by apply list_elem_of_fmap_2. eauto. }
  assert (in_menu bufs (all_zero bufs)) as H0.
  { intros b Hb. exists 0%nat. rewrite all_zero_lookup, decide_True by by apply list_elem_of_fmap_2.
    split; [done|]. pose proof (ws_some _ Hws b Hb). destruct (core_divisions b); [done | simpl; lia]. }
  assert (all_zero bufs ∈ leaves (variable_buffers bufs) (all_zero bufs)) as Hz.
  { apply leaves_menu. split; [done|]. intros n [i Hi]. rewrite all_zero_lookup in Hi.
    by case_decide. }
  destruct (score_total _ H0) as [v0 Hv0]. pose proof (Hmin _ _ Hz Hv0) as Hle.
  destruct Hfrom as [[Hb _] | [Hin (v & Hb & Hv)]]; [by rewrite Hb in Hle|].
  exists s, v. split_and!; [done | by apply leaves_menu | done |].
  intros c w Hc Hdom Hw. assert (c ∈ leaves (variable_buffers bufs) (all_zero bufs)) as Hl
    by by apply leaves_menu.
  specialize (Hmin c w Hl Hw). by rewrite Hb in Hmin.
Qed.

Definition committed (best : gmap string nat) (b b' : LifetimeBoundBuffer) : Prop :=
  exists i a r, best !! buf_name b = Some i /\
    b' = set_spill_reason r (set_address a (set_chosen_division (Some i) b)).

(** The result of a run: the committed choice, the final placement, and how each
    buffer got its address. *)
Record finished (out : list LifetimeBoundBuffer) (best : gmap string nat)
    (temp alloc : list LifetimeBoundBuffer) : Prop := {
  fi_menu : in_menu bufs best;
  fi_temp : Forall2 (temp_of bufs best) bufs temp;
  fi_run : inner lim 128 temp = Ok alloc;
  fi_out : forall i b b', bufs !! i = Some b -> out !! i = Some b' ->
    committed best b b' /\ exists t a, temp !! i = Some t /\ alloc !! i = Some a /\
      same_buffer t a /\ address b' = address a;
  fi_len : length out = length bufs /\ length alloc = length bufs
}.

Lemma finish out best temp alloc :
  in_menu bufs best -> Forall2 (temp_of bufs best) bufs temp -> inner lim 128 temp = Ok alloc ->
  py_map (commit best alloc) bufs = Ok out -> finished out best temp alloc.
Proof.
  intros Hm Ht Hr Ho. apply py_map_Ok in Ho.
  assert (Forall2 same_buffer temp alloc) as HF.
  { eapply solver_frame; [| | |exact Hr]; [lia | by eapply temp_wf_input | by eapply temp_plain]. }
  assert (buf_name <$> alloc = buf_name <$> bufs) as Hnames.
  { rewrite <- (temp_names bufs best temp Ht). clear -HF.
    induction HF as [|x y l k (a & r & ->) _ IH]; csimpl; [done|]. by rewrite IH. }
  split; auto.
  - intros i b b' Hb Hb'. pose proof (Forall2_lookup_lr _ _ _ _ _ _ Ho Hb Hb') as Hc.
    cbv beta in Hc. unfold commit, chosen_of in Hc.
    destruct (best !! buf_name b) as [ci|] eqn:Hci; [|done]. simpl in Hc. injection Hc as <-.
    split; [exists ci; eauto|].
    destruct (Forall2_lookup_l _ _ _ _ _ Ht Hb) as (t & Hti & Hof).
    destruct (Forall2_lookup_l _ _ _ _ _ HF Hti) as (a & Hai & Hsame).
    exists t, a. split_and!; auto. simpl.
    assert (buf_name a = buf_name b) as Hn
      by (destruct Hsame as (? & ? & ->); apply (to_name _ _ _ _ Hof)).
    rewrite <- Hn, buf_by_name_lookup; [done | rewrite Hnames; apply Hws |].
    by eapply list_elem_of_lookup_2.
  - split; [by rewrite (Forall2_length _ _ _ Ho)|].
    by rewrite <- (Forall2_length _ _ _ HF), (Forall2_length _ _ _ Ht).
Qed.

Lemma finished_occupies out best temp alloc :
  finished out best temp alloc -> Forall2 occupies_as alloc (at_core <$> out).
Proof.
  intros [Hm Ht Hr Ho [Hl1 Hl2]]. apply Forall2_same_length_lookup_2.
  { rewrite length_fmap. congruence. }
  intros i a o Ha Hoi. rewrite list_lookup_fmap in Hoi.
  destruct (out !! i) as [b'|] eqn:Hb'; [|done]. injection Hoi as <-.
  destruct (lookup_lt_is_Some_2 bufs i) as [b Hb].
  { rewrite <- Hl1. by eapply lookup_lt_Some. }
  destruct (Ho i b b' Hb Hb') as [(ci & ad & r & Hci & ->) (t & a' & Hti & Hai & Hs & Haddr)].
  same_lookup Ha Hai. destruct Hs as (x & r' & ->).
  pose proof (Forall2_lookup_lr _ _ _ _ _ _ Ht Hb Hti) as Hof.
  destruct (to_size _ _ _ _ Hof) as (ci' & Hci' & Hsz). same_lookup Hci Hci'.
  unfold at_core. simpl.
  change (per_core_size (set_spill_reason r _) ci) with (per_core_size b ci). rewrite Hsz.
  destruct (to_uses _ _ _ _ Hof) as (U1 & U2 & U3 & U4).
  split; simpl.
  - by rewrite (to_name _ _ _ _ Hof).
  - done.
  - unfold start_time, end_time. simpl. by rewrite U1, U3, U4.
  - intros p Hp. by apply (to_parents _ _ _ _ Hof p).
Qed.

(** A resident buffer agrees with all its consumers on the slicing. *)
Lemma finished_matches out best temp alloc i b b' j child child' ci cj :
  finished out best temp alloc ->
  bufs !! i = Some b -> out !! i = Some b' -> is_Some (address b') ->
  bufs !! j = Some child -> out !! j = Some child' -> buf_name b ∈ parents child ->
  chosen_division b' = Some ci -> chosen_division child' = Some cj ->
  (ci, cj) ∈ default [] (cd_parent_matches child !! buf_name b).
Proof.
  intros [Hm Ht Hr Ho _] Hb Hb' [x Hx] Hch Hch' Hpar Hci Hcj.
  destruct (Ho i b b' Hb Hb') as [(ci' & ad & r & Hbest & Heq) (t & a & Hti & Hai & Hs & Haddr)].
  destruct (Ho j child child' Hch Hch') as [(cj' & ad' & r' & Hbestj & Heqj) _].
  subst b' child'. simpl in Hci, Hcj. injection Hci as <-. injection Hcj as <-.
  pose proof (Forall2_lookup_lr _ _ _ _ _ _ Ht Hb Hti) as Hof.
  assert (residency_reason t = None) as Hres.
  { destruct (residency_reason t) as [w|] eqn:Hw; [|done]. exfalso.
    assert (address a = None); [|congruence].
    eapply (solver_barred lim 128 temp alloc i t a); eauto; [lia | by eapply temp_wf_input
      | by eapply temp_plain |]. unfold excluded. by rewrite Hw. }
  destruct (to_reason _ _ _ _ Hof) as (ci & Hci & Hrr). same_lookup Hbest Hci.
  rewrite Hres in Hrr. unfold _residency_reason in Hrr.
  destruct (residency_reason b); [done|].
  destruct (first_mismatch_None _ _ _ Hrr child
              (default [] (cd_parent_matches child !! buf_name b))) as (cj & Hcj & Hin).
  { apply children_by_parent_elem.
    - rewrite buf_by_name_lookup; [eauto | apply Hws | by eapply list_elem_of_lookup_2].
    - apply child_entries_elem. split_and!; auto. by eapply list_elem_of_lookup_2. }
  congruence.
Qed.

(** The whole run returns, with the optimal choice. *)
Lemma plan_finished :
  exists out best temp alloc v, plan_layout_and_core_divisions inner lim bufs = Ok out /\
    finished out best temp alloc /\ score_leaf inner lim bufs best = Ok v /\
    forall c w, in_menu bufs c -> (forall n, is_Some (c !! n) -> n ∈ buf_name <$> bufs) ->
      score_leaf inner lim bufs c = Ok w -> v <= w.
Proof.
  destruct search_ok as (s & v & Hs & Hm & Hv & Hmin).
  destruct (run_inner_ok (best_chosen s) Hm) as (temp & alloc & Htmp & Hof & Hr & Hrun).
  destruct (py_map_total (commit (best_chosen s) alloc) bufs) as [out Hout].
  { intros b Hb. unfold commit, chosen_of. destruct (Hm b Hb) as (i & -> & _). simpl. eauto. }
  exists out, (best_chosen s), temp, alloc, v. split_and!; auto; [|by apply finish].
  unfold plan_layout_and_core_divisions.
  assert (forallb (fun b => bool_decide (paired_with b = [])) bufs = true) as ->.
  { apply forallb_forall. intros b Hb%list_elem_of_In.
    by apply bool_decide_eq_true, (ws_unpaired _ Hws). }
  simpl. assert (existsb (fun b => existsb (fun cd => negb (is_untiled (tiling cd)))
                            (core_divisions b)) bufs = false) as ->.
  { apply not_true_iff_false. intros (b & Hb%list_elem_of_In & Hcd)%existsb_exists.
    apply existsb_exists in Hcd as (cd & Hcd%list_elem_of_In & Hun).
    unfold is_untiled in Hun. by rewrite (ws_untiled _ Hws b cd Hb Hcd) in Hun. }
  simpl. rewrite Hs. simpl. rewrite Hrun. simpl. done.
Qed.
End solve.

(** ** Claims *)

(** A producer and its consumer, each whole or cut in two; whole, neither fits in
    512 bytes, and the slicings agree only on the cut. *)
Definition cut_menu : list CoreDivision :=
  [mkDivision [("d0"%string, 1)] [] (mkSpec []) []; mkDivision [("d0"%string, 2)] [] (mkSpec []) []].
Definition search_sample : list LifetimeBoundBuffer :=
  [ mkBuffer "a" 1024 [0; 1] false None [] None None None None [] None cut_menu [] ∅ None;
    mkBuffer "b" 600 [1; 2] false None ["a"%string] None None None None [] None cut_menu ["a"%string]
      {["a"%string := [(1, 1)]%nat]} None ].
Definition search_plan : list LifetimeBoundBuffer :=
  match plan_layout_and_core_divisions GreedySolver.plan_layout 512 search_sample with
  | Ok out => out | Raise _ => []
  end.

Example search_sample_plan :
  (fun b => (buf_name b, chosen_division b, address b)) <$> search_plan =
  [("a"%string, Some 1%nat, Some 0); ("b"%string, Some 1%nat, Some 0)].
Proof. vm_compute. reflexivity. Qed.

Lemma search_sample_wf : wf_search search_sample.
Proof.
  assert (Forall (fun b => core_divisions b = cut_menu) search_sample) as Hm
    by (repeat constructor). rewrite Forall_forall in Hm.
  assert (Forall (fun cd => axes (tiling cd) = [] /\ Forall (fun s => 0 < s.2) (splits cd)) cut_menu)
    as Hc by (repeat constructor). rewrite Forall_forall in Hc.
  split.
  - apply (bool_decide_unpack _). vm_compute. exact I.
  - apply Forall_forall. repeat constructor.
  - intros b Hb. by rewrite (Hm b Hb).
  - intros b cd Hb. rewrite (Hm b Hb). intros Hcd. apply (Hc cd Hcd).
  - intros b cd Hb. rewrite (Hm b Hb). intros Hcd. apply (Hc cd Hcd).
  - vm_compute. reflexivity.
Qed.

(** C27. The exhaustive search is optimal and total: for any inner placement solver
    that meets the layout contract it returns a plan, every buffer is committed to
    one of its own candidate divisions, and no choice of candidates leaves fewer
    bytes in HBM than the committed one. *)
Theorem exhaustive_optimal inner `{!LayoutSolver inner} lim bufs :
  wf_search bufs ->
  exists out best v, plan_layout_and_core_divisions inner lim bufs = Ok out /\
    in_menu bufs best /\ score_leaf inner lim bufs best = Ok v /\
    (forall i b b', bufs !! i = Some b -> out !! i = Some b' ->
       chosen_division b' = best !! buf_name b) /\
    (forall c w, in_menu bufs c -> (forall n, is_Some (c !! n) -> n ∈ buf_name <$> bufs) ->
       score_leaf inner lim bufs c = Ok w -> v <= w).
Proof.
  intros Hws. destruct (plan_finished inner lim bufs Hws)
    as (out & best & temp & alloc & v & Hp & Hf & Hv & Hmin).
  exists out, best, v. split_and!; auto; [apply Hf|]. intros i b b' Hb Hb'.
  destruct (fi_out _ _ _ _ _ _ _ Hf i b b' Hb Hb') as [(ci & a & r & -> & ->) _]. done.
Qed.

Lemma exhaustive_optimal_witness :
  exists out best v,
    plan_layout_and_core_divisions GreedySolver.plan_layout 512 search_sample = Ok out /\
    in_menu search_sample best /\
    score_leaf GreedySolver.plan_layout 512 search_sample best = Ok v /\
    (forall i b b', search_sample !! i = Some b -> out !! i = Some b' ->
       chosen_division b' = best !! buf_name b) /\
    (forall c w, in_menu search_sample c ->
       (forall n, is_Some (c !! n) -> n ∈ buf_name <$> search_sample) ->
       score_leaf GreedySolver.plan_layout 512 search_sample c = Ok w -> v <= w).
Proof. apply (exhaustive_optimal GreedySolver.plan_layout 512), search_sample_wf. Defined.

(** The committed plan is memory safe at core granularity: with each buffer's
    footprint cut down by its committed division, every placed buffer is inside
    the scratchpad and stick-aligned, and simultaneously live buffers are disjoint
    except for legal in-place handovers. *)
Theorem exhaustive_plan_safe inner `{!LayoutSolver inner} lim bufs out :
  wf_search bufs -> plan_layout_and_core_divisions inner lim bufs = Ok out ->
  valid_plan lim 128 (at_core <$> out).
Proof.
  intros Hws Hout. destruct (plan_finished inner lim bufs Hws)
    as (out' & best & temp & alloc & v & Hp & Hf & _).
  replace out' with out in * by congruence.
  eapply occupies_valid_plan; [by eapply finished_occupies|].
  eapply solver_valid; [| | |apply Hf]; [lia | |].
  - eapply temp_wf_input; apply Hws || apply Hf.
  - eapply temp_plain; apply Hf.
Qed.

Lemma exhaustive_plan_safe_witness : valid_plan 512 128 (at_core <$> search_plan).
Proof.
  apply (exhaustive_plan_safe GreedySolver.plan_layout 512 search_sample);
    [apply search_sample_wf | vm_compute; reflexivity].
Defined.

(** A buffer the search keeps in LX is sliced the way every consumer reads it:
    the committed divisions of a resident producer and of each buffer that lists
    it as a parent form one of the pairs the consumer declared compatible. *)
Theorem exhaustive_resident_matches inner `{!LayoutSolver inner} lim bufs out
    i b b' j child child' ci cj :
  wf_search bufs -> plan_layout_and_core_divisions inner lim bufs = Ok out ->
  bufs !! i = Some b -> out !! i = Some b' -> is_Some (address b') ->
  bufs !! j = Some child -> out !! j = Some child' -> buf_name b ∈ parents child ->
  chosen_division b' = Some ci -> chosen_division child' = Some cj ->
  (ci, cj) ∈ default [] (cd_parent_matches child !! buf_name b).
Proof.
  intros Hws Hout. destruct (plan_finished inner lim bufs Hws)
    as (out' & best & temp & alloc & v & Hp & Hf & _).
  replace out' with out in * by congruence. by eapply finished_matches.
Qed.

Lemma exhaustive_resident_matches_witness :
  exists a b, search_sample !! 0%nat = Some a /\ search_sample !! 1%nat = Some b /\
    (1, 1)%nat ∈ default [] (cd_parent_matches b !! buf_name a).
Proof.
  eexists _, _. split; [reflexivity|]. split; [reflexivity|].
  eapply (exhaustive_resident_matches GreedySolver.plan_layout 512 search_sample search_plan
            0 _ _ 1 _ _ 1 1);
    [apply search_sample_wf | vm_compute; reflexivity | reflexivity
    | vm_compute; reflexivity | eexists; reflexivity | reflexivity
    | vm_compute; reflexivity | vm_compute; constructor | reflexivity | reflexivity].
Defined.

(** A buffer without candidate divisions cannot be placed by the search: the
    per-core footprint indexes its empty menu, so the solve raises instead of
    placing the buffer as it is. *)
Theorem exhaustive_needs_divisions inner lim b :
  core_divisions b = [] -> paired_with b = [] ->
  plan_layout_and_core_divisions inner lim [b] = Raise IndexError.
Proof.
  intros Hd Hp. unfold plan_layout_and_core_divisions, variable_buffers.
  rewrite filter_cons, filter_nil. simpl. rewrite Hp, Hd. simpl.
  unfold score_leaf, run_inner, _make_temp_bufs. simpl.
  unfold make_temp_buf, chosen_of, all_zero. simpl. rewrite lookup_insert_eq. simpl.
  unfold per_core_size. by rewrite Hd.
Qed.

Lemma exhaustive_needs_divisions_witness :
  plan_layout_and_core_divisions GreedySolver.plan_layout 512 [simple_buffer "a" 256 [0; 1] [] []]
  = Raise IndexError.
Proof. apply (exhaustive_needs_divisions GreedySolver.plan_layout 512); reflexivity. Defined.
