(* ===== verification/HbmPool.v ===== *)
(** * HBM pool planning ([hbm_pool_planning.py])

    After fusion every top-level scheduler node is one bundle.  The pass finds the
    buffers that are written and read inside a single bundle, computes their live
    ranges over the bundle's direct children, and hands out offsets of the HBM
    intermediates segment with [Allocator], a bump allocator with a free list.

    Scheduler nodes and buffers belong to Inductor; [snode] and [buffer_info] hold
    the attributes the pass reads.  A layout's [allocation] dict is a shared
    mutable object identified by [id()]: it is an allocation number here, and
    two buffer names with the same number are one storage.
    [get_device_size_in_bytes] is native code: the parameter [device_size]. *)

From S2P Require Import Prelude PlanSolver.

(** ** [Allocator] *)

Definition block : Type := Z * Z.

Record Allocator := mkAlloc {
  _free : list block;
  _pool_end : Z;
  _segment_size : Z;
  _currently_allocated : Z;
  _peak_usage : Z
}.

Definition new_allocator (segment_size : Z) : Allocator := mkAlloc [] 0 segment_size 0 0.

(** The search loop: the first free block of at least [size], with the blocks left
    after [self._free.pop(i)]. *)
Fixpoint pop_fit (size : Z) (free : list block) : option (block * list block) :=
  match free with
  | [] => None
  | b :: rest =>
      if size <=? b.2 then Some (b, rest)
      else match pop_fit size rest with
           | Some (c, rest') => Some (c, b :: rest')
           | None => None
           end
  end.

Definition allocate (size : Z) (a : Allocator) : option Z * Allocator :=
  match pop_fit size (_free a) with
  | Some ((blk_offset, blk_size), rest) =>
      if _segment_size a <? _pool_end a then (None, a)
      else
        let remainder := blk_size - size in
        let free' := if 0 <? remainder then rest ++ [(blk_offset + size, remainder)] else rest in
        let cur := _currently_allocated a + size in
        (Some blk_offset,
         mkAlloc free' (_pool_end a) (_segment_size a) cur (Z.max cur (_peak_usage a)))
  | None =>
      let new_pool_end := _pool_end a + size in
      if _segment_size a <? new_pool_end then (None, a)
      else
        let cur := _currently_allocated a + size in
        (Some (_pool_end a),
         mkAlloc (_free a) new_pool_end (_segment_size a) cur (Z.max cur (_peak_usage a)))
  end.

Definition free_block (offset size : Z) (a : Allocator) : Allocator :=
  mkAlloc (_free a ++ [(offset, size)]) (_pool_end a) (_segment_size a)
    (_currently_allocated a - size) (_peak_usage a).

(** ** Scheduler nodes and buffers *)

Definition _align_up (n alignment : Z) : Z := (n + alignment - 1) / alignment * alignment.

Definition _HBM_ALLOCATION_ALIGNMENT_BYTES : Z := 128.

Inductive layout : Set :=
  | FixedTiledLayout (allocation : nat) (in_lx : bool)
  | OtherLayout.

(** A buffer of [V.graph]: whether it is a sympy symbol, whether it is a
    [SpyreEmptyFallback], and [maybe_get_layout()]. *)
Record buffer_info := mkInfo {
  is_symbol : bool;
  is_empty_fallback : bool;
  maybe_layout : option layout
}.

(** [V.graph]: inputs, outputs and [get_buffer]. *)
Record graph := mkGraph {
  graph_inputs : list string;
  graph_outputs : list string;
  get_buffer : gmap string buffer_info
}.

(** The node classes the pass tells apart.  An [ExternKernelSchedulerNode] that
    wraps a [SpyreEmptyFallback] carries that buffer's name. *)
Inductive node_kind : Set :=
  | Computed
  | ExternKernel (empty_fallback : option string)
  | NopOrFallback
  | Fused
  | CountedLoop.

(** [read_writes] is the node's own, merged for a group. *)
Inductive snode : Type :=
  Node (kind : node_kind) (name : string) (reads writes : list string) (snodes : list snode).

Definition kind_of (n : snode) : node_kind := let 'Node k _ _ _ _ := n in k.
Definition name_of (n : snode) : string := let 'Node _ m _ _ _ := n in m.
Definition reads_of (n : snode) : list string := let 'Node _ _ r _ _ := n in r.
Definition writes_of (n : snode) : list string := let 'Node _ _ _ w _ := n in w.
Definition get_nodes (n : snode) : list snode := let 'Node _ _ _ _ s := n in s.

(** [isinstance(n, FusedSchedulerNode)]; the counted loop is a subclass. *)
Definition is_fused (n : snode) : bool :=
  match kind_of n with Fused | CountedLoop => true | _ => false end.

(** [isinstance(n, _kernel_arg_types)] *)
Definition is_kernel_arg (n : snode) : bool :=
  match kind_of n with ExternKernel _ | NopOrFallback => true | _ => false end.

(** [_iter_all_nodes([n])] *)
Fixpoint iter_all_nodes (n : snode) : list snode :=
  match n with
  | Node k _ _ _ children =>
      match k with
      | Fused | CountedLoop =>
          (fix go (l : list snode) : list snode :=
             match l with [] => [] | c :: l' => iter_all_nodes c ++ go l' end) children
      | _ => [n]
      end
  end.

Section planning.
Context (g : graph) (device_size : string -> Z).

(** [_compute_size_bytes] *)
Definition _compute_size_bytes (name : string) : res Z :=
  match get_buffer g !! name ≫= maybe_layout with
  | Some (FixedTiledLayout _ _) =>
      Ok (_align_up (device_size name) _HBM_ALLOCATION_ALIGNMENT_BYTES)
  | _ => Raise AssertionError
  end.

Definition _alloc_id (name : string) : option nat :=
  match get_buffer g !! name ≫= maybe_layout with
  | Some (FixedTiledLayout a _) => Some a
  | _ => None
  end.

(** ** Live ranges *)

(** The state of the walk: [start] and [end]. *)
Record ranges := mkRanges {
  starts : gmap string Z;
  ends : gmap string Z
}.

Definition note_writes (cands : gset string) (idx : Z) (ws : list string) (m : gmap string Z)
    : gmap string Z :=
  foldl (fun m n => if bool_decide (n ∈ cands) then <[n := idx]> m else m) m ws.

(** One node of the enumeration: writes set [start], reads set [end]. *)
Definition walk_node (cands : gset string) (r : ranges) (in_ : nat * snode) : ranges :=
  mkRanges (note_writes cands (Z.of_nat in_.1) (writes_of in_.2) (starts r))
           (note_writes cands (Z.of_nat in_.1) (reads_of in_.2) (ends r)).

Definition walk (cands : gset string) (nodes : list snode) : ranges :=
  foldl (walk_node cands) (mkRanges ∅ ∅) (imap pair nodes).

(** [live_ranges] before aliases are merged. *)
Definition raw_range (nodes : list snode) (r : ranges) (name : string) : option (Z * Z) :=
  (fun s => (s, default (Z.of_nat (length nodes) + 1) (ends r !! name))) <$> starts r !! name.

Definition raw_ranges (nodes : list snode) (cands : gset string) : list (string * (Z * Z)) :=
  let r := walk cands nodes in
  omap (fun n => (fun se => (n, se)) <$> raw_range nodes r n) (elements cands).

(** [group_range]: the hull of the ranges of one allocation. *)
Definition merge_group (m : gmap nat (Z * Z)) (e : string * (Z * Z)) : gmap nat (Z * Z) :=
  match _alloc_id e.1 with
  | None => m
  | Some a =>
      let '(gs, ge) := default e.2 (m !! a) in
      <[a := (Z.min gs e.2.1, Z.max ge e.2.2)]> m
  end.

Definition _compute_live_ranges (nodes : list snode) (cands : gset string)
    : list (string * (Z * Z)) :=
  let raw := raw_ranges nodes cands in
  let group_range := foldl merge_group ∅ raw in
  (fun e => (e.1, match _alloc_id e.1 ≫= fun a => group_range !! a with
                  | Some se => se
                  | None => e.2
                  end)) <$> raw.

(** ** Candidates *)

Definition io_names : list string := graph_inputs g ++ graph_outputs g.

(** [io_alloc_ids] *)
Definition io_alloc_ids : list nat :=
  omap (fun n => match get_buffer g !! n with
                 | Some b => if is_symbol b then None
                             else match maybe_layout b with
                                  | Some (FixedTiledLayout a _) => Some a
                                  | _ => None
                                  end
                 | None => None
                 end) io_names.

Definition fallback_read (nodes : list snode) : list string :=
  mjoin (reads_of <$> filter (fun n => is_kernel_arg n = true) (mjoin (iter_all_nodes <$> nodes))).

Definition fallback_read_alloc_ids (nodes : list snode) : list nat :=
  omap _alloc_id (fallback_read nodes).

Definition _is_intermediate (nodes : list snode) (name : string) : bool :=
  match get_buffer g !! name ≫= maybe_layout with
  | Some (FixedTiledLayout a in_lx) =>
      negb in_lx && bool_decide (a ∉ io_alloc_ids)
      && bool_decide (a ∉ fallback_read_alloc_ids nodes)
  | _ => false
  end.

(** The five dicts of the bundle walk. *)
Record bmaps := mkB {
  buffer_writer_bundle : gmap string string;
  buffer_writer_bundles : gmap string (gset string);
  buffer_reader_bundles : gmap string (gset string);
  alloc_id_bundles : gmap nat (gset string);
  alloc_id_reader_bundles : gmap nat (gset string)
}.

(** [d.setdefault(k, set()).add(v)] *)
Definition add_to {K} `{Countable K} (k : K) (v : string) (d : gmap K (gset string))
    : gmap K (gset string) :=
  <[k := {[v]} ∪ default ∅ (d !! k)]> d.

Definition add_alloc (name bundle : string) (d : gmap nat (gset string))
    : gmap nat (gset string) :=
  match _alloc_id name with Some a => add_to a bundle d | None => d end.

(** A write of [name] in [bundle]. *)
Definition note_write (bundle : string) (m : bmaps) (name : string) : bmaps :=
  if bool_decide (name ∈ graph_outputs g) then m
  else mkB (<[name := bundle]> (buffer_writer_bundle m))
           (add_to name bundle (buffer_writer_bundles m))
           (buffer_reader_bundles m)
           (add_alloc name bundle (alloc_id_bundles m))
           (alloc_id_reader_bundles m).

Definition note_read (bundle : string) (m : bmaps) (name : string) : bmaps :=
  if bool_decide (name ∈ graph_inputs g) then m
  else mkB (buffer_writer_bundle m) (buffer_writer_bundles m)
           (add_to name bundle (buffer_reader_bundles m))
           (alloc_id_bundles m)
           (add_alloc name bundle (alloc_id_reader_bundles m)).

(** The writes and reads of one non-kernel node. *)
Definition note_node (bundle : string) (m : bmaps) (n : snode) : bmaps :=
  foldl (note_read bundle) (foldl (note_write bundle) m (writes_of n)) (reads_of n).

(** The buffer a [SpyreEmptyFallback] node allocates. *)
Definition note_empty (bundle : string) (m : bmaps) (n : snode) : bmaps :=
  match kind_of n with
  | ExternKernel (Some name) => note_write bundle m name
  | _ => m
  end.

Definition note_bundle (m : bmaps) (bundle : snode) : bmaps :=
  let flat := iter_all_nodes bundle in
  foldl (note_empty (name_of bundle))
    (foldl (note_node (name_of bundle)) m (filter (fun n => is_kernel_arg n = false) flat)) flat.

Definition bundle_maps (nodes : list snode) : bmaps :=
  foldl note_bundle (mkB ∅ ∅ ∅ ∅ ∅) nodes.

(** [d.get(k, set())] *)
Definition bundles_of {K} `{Countable K} (k : K) (d : gmap K (gset string)) : gset string :=
  default ∅ (d !! k).

(** [{writer}] for [writer = buffer_writer_bundle.get(name)] *)
Definition writer_set (m : bmaps) (name : string) : gset string :=
  match buffer_writer_bundle m !! name with Some w => {[w]} | None => ∅ end.

(** The allocation-scoped rejections. *)
Definition shared_by_bundles (m : bmaps) (a : nat) : bool :=
  bool_decide (1 < size (bundles_of a (alloc_id_bundles m)))%nat.
Definition read_elsewhere (m : bmaps) (name : string) (a : nat) : bool :=
  let alias_readers := bundles_of a (alloc_id_reader_bundles m) in
  let alias_writers := default (writer_set m name) (alloc_id_bundles m !! a) in
  negb (bool_decide (alias_readers ∖ alias_writers = ∅)).

Definition _is_cross_bundle (m : bmaps) (name : string) : bool :=
  if bool_decide (1 < size (bundles_of name (buffer_writer_bundles m)))%nat then true
  else if match _alloc_id name with Some a => shared_by_bundles m a | None => false end then true
  else if match _alloc_id name with Some a => read_elsewhere m name a | None => false end then true
  else negb (bool_decide (bundles_of name (buffer_reader_bundles m) ∖ writer_set m name = ∅)).

(** [all_candidates] *)
Definition all_candidates (nodes : list snode) : gset string :=
  let m := bundle_maps nodes in
  filter (fun n =>
    n ∉ io_names /\ n ∉ fallback_read nodes /\
    _is_intermediate nodes n = true /\ _is_cross_bundle m n = false)
    (dom (buffer_writer_bundle m) ∩ dom (buffer_reader_bundles m)).

(** ** One bundle *)

(** [_alloc_sort_key] compared as Python compares tuples. *)
Definition sort_key_leb (x y : string * (Z * Z)) : bool :=
  (x.2.1 <? y.2.1) ||
  ((x.2.1 =? y.2.1) &&
   ((x.2.2 <? y.2.2) || ((x.2.2 =? y.2.2) && String.leb x.1 y.1))).

(** The grouping of [sorted_bufs] by allocation: [(rep, its range, members)] in
    [alloc_order]. *)
Record grouping := mkGrouping {
  group_of_alloc_id : gmap nat string;
  groups : list (string * (Z * Z) * list string)
}.

Definition join_group (rep name : string) (gs : list (string * (Z * Z) * list string))
    : list (string * (Z * Z) * list string) :=
  (fun e => if bool_decide (e.1.1 = rep) then (e.1, e.2 ++ [name]) else e) <$> gs.

Definition group_step (gr : grouping) (e : string * (Z * Z)) : grouping :=
  match _alloc_id e.1 ≫= fun a => group_of_alloc_id gr !! a with
  | Some rep => mkGrouping (group_of_alloc_id gr) (join_group rep e.1 (groups gr))
  | None =>
      mkGrouping (match _alloc_id e.1 with
                  | Some a => <[a := e.1]> (group_of_alloc_id gr)
                  | None => group_of_alloc_id gr
                  end) (groups gr ++ [(e, [e.1])])
  end.

Definition alloc_groups (nodes : list snode) (cands : gset string)
    : list (string * (Z * Z) * list string) :=
  groups (foldl group_step (mkGrouping ∅ [])
            (py_sorted sort_key_leb (_compute_live_ranges nodes cands))).

(** The allocation loop: the allocator, [pending_frees] as [(end, offset, size)],
    the offsets handed out (the assignments to [layout.allocation]), and
    [overflowed]. *)
Record pstate := mkP {
  alloc : Allocator;
  pending_frees : list (Z * Z * Z);
  assigned : list (string * (Z * Z) * (Z * Z));
  overflowed : Z
}.

(** Free every block whose range ended before [start]. *)
Definition expire (start : Z) (st : Allocator * list (Z * Z * Z)) (e : Z * Z * Z)
    : Allocator * list (Z * Z * Z) :=
  let '(end_, off, sz) := e in
  if end_ <? start then (free_block off sz st.1, st.2) else (st.1, st.2 ++ [e]).

Definition place_group (gr : string * (Z * Z) * list string) (s : pstate) : res pstate :=
  let '(rep, (start, end_), _) := gr in
  let '(al, pending) := foldl (expire start) (alloc s, []) (pending_frees s) in
  sz ← _compute_size_bytes rep;
  match allocate sz al with
  | (None, al') => Ok (mkP al' pending (assigned s) (overflowed s + 1))
  | (Some offset, al') =>
      Ok (mkP al' (pending ++ [(end_, offset, sz)])
            (assigned s ++ [(rep, (start, end_), (offset, sz))]) (overflowed s))
  end.

(** [live_range_nodes]: a bare loop bundle is one opaque step. *)
Definition live_range_nodes (bundle : snode) : list snode :=
  match kind_of bundle with
  | CountedLoop => [bundle]
  | _ => get_nodes bundle
  end.

Definition plan_bundle (max_pool : Z) (m : bmaps) (cands : gset string) (bundle : snode)
    : res (option pstate) :=
  let bundle_candidates :=
    filter (fun n => buffer_writer_bundle m !! n = Some (name_of bundle)) cands in
  if bool_decide (bundle_candidates = ∅) then Ok None
  else
    s ← for_each place_group (alloc_groups (live_range_nodes bundle) bundle_candidates)
          (mkP (new_allocator max_pool) [] [] 0);
    Ok (Some s).

(** The pass: per bundle its name, the assignments and [hbm_pool_sizes]. *)
Definition hbm_pool_planning (max_pool : Z) (nodes : list snode)
    : res (list (string * option pstate)) :=
  let m := bundle_maps nodes in
  let cands := all_candidates nodes in
  py_map (fun b => s ← plan_bundle max_pool m cands b; Ok (name_of b, s)) nodes.
End planning.

(** ** The allocator as a state machine *)

(** The allocator together with the blocks its client holds. *)
Inductive pool_step : Allocator * list block -> Allocator * list block -> Prop :=
  | step_allocate a live size off a' :
      0 <= size -> allocate size a = (Some off, a') ->
      pool_step (a, live) (a', live ++ [(off, size)])
  | step_full a live size a' :
      allocate size a = (None, a') -> pool_step (a, live) (a', live)
  | step_free a l1 off size l2 :
      pool_step (a, l1 ++ (off, size) :: l2) (free_block off size a, l1 ++ l2).

Definition block_disjoint (b c : block) : Prop :=
  ranges_disjoint b.1 (b.1 + b.2) c.1 (c.1 + c.2).

(** The blocks lie in [[0, pool_end)], do not overlap, and use all of it. *)
Record tiles (pool_end : Z) (bs : list block) : Prop := {
  ti_range : forall b, b ∈ bs -> 0 <= b.1 /\ 0 <= b.2 /\ b.1 + b.2 <= pool_end;
  ti_apart : pairwise block_disjoint bs;
  ti_sum : zsum (snd <$> bs) = pool_end
}.

Record pool_inv (s : Allocator * list block) : Prop := {
  pi_tiles : tiles (_pool_end s.1) (_free s.1 ++ s.2);
  pi_current : _currently_allocated s.1 = zsum (snd <$> s.2);
  pi_peak : _currently_allocated s.1 <= _peak_usage s.1 <= _pool_end s.1;
  pi_segment : _pool_end s.1 <= _segment_size s.1
}.

Lemma block_disjoint_sym b c : block_disjoint b c -> block_disjoint c b.
Proof. apply ranges_disjoint_sym. Qed.

#[export] Instance tiles_proper pe : Proper (Permutation ==> iff) (tiles pe).
Proof.
  assert (forall l k, l ≡ₚ k -> tiles pe l -> tiles pe k) as H.
  { intros l k Hp [H1 H2 H3]. split.
    - intros b. rewrite <- Hp. apply H1.
    - eapply pairwise_perm; eauto using block_disjoint_sym.
    - by rewrite <- Hp. }
  intros l k Hp. split; apply H; [done | by symmetry].
Qed.

Lemma tiles_cons pe off sz bs :
  tiles pe ((off, sz) :: bs) <->
  (0 <= off /\ 0 <= sz /\ off + sz <= pe) /\
  (forall b, b ∈ bs -> (0 <= b.1 /\ 0 <= b.2 /\ b.1 + b.2 <= pe) /\ block_disjoint (off, sz) b) /\
  pairwise block_disjoint bs /\ sz + zsum (snd <$> bs) = pe.
Proof.
  split.
  - intros [H1 H2 H3]. apply pairwise_cons in H2 as [H2 H2']. split_and!; auto.
    + apply (H1 (off, sz)). list_mem.
    + apply (H1 (off, sz)). list_mem.
    + apply (H1 (off, sz)). list_mem.
    + intros b Hb. split; [apply H1; list_mem | auto].
  - intros (H1 & H2 & H3 & H4). split; [| |done].
    + intros b [-> | Hb]%elem_of_cons; [done | by apply H2].
    + apply pairwise_cons. split; [|done]. intros b Hb. by apply H2.
Qed.

(** Cutting a block in two keeps the tiling, and an empty block can go. *)
Lemma tiles_split pe off sz n bs :
  0 <= n <= sz -> tiles pe ((off, sz) :: bs) ->
  tiles pe ((off, n) :: (off + n, sz - n) :: bs).
Proof.
  rewrite !tiles_cons. intros Hn (H1 & H2 & H3 & H4). split_and!; try lia.
  - intros b [-> | Hb]%elem_of_cons; simpl.
    + split; [lia|]. unfold block_disjoint, ranges_disjoint. simpl. lia.
    + destruct (H2 b Hb) as [? Hd]. split; [done|].
      unfold block_disjoint, ranges_disjoint in *. simpl in *. lia.
  - apply pairwise_cons. split; [|done]. intros b Hb. destruct (H2 b Hb) as [? Hd].
    unfold block_disjoint, ranges_disjoint in *. simpl in *. lia.
  - rewrite fmap_cons. simpl. unfold zsum in *. simpl. lia.
Qed.

Lemma tiles_drop_empty pe off bs : tiles pe ((off, 0) :: bs) -> tiles pe bs.
Proof.
  rewrite tiles_cons. intros (H1 & H2 & H3 & H4). split; [|done | lia].
  intros b Hb. by apply H2.
Qed.

(** Extending the pool by a block at its end. *)
Lemma tiles_extend pe n bs : 0 <= pe -> 0 <= n -> tiles pe bs -> tiles (pe + n) ((pe, n) :: bs).
Proof.
  intros Hpe Hn [H1 H2 H3]. apply tiles_cons. split_and!; auto; try lia.
  intros b Hb. destruct (H1 b Hb) as (? & ? & ?). split; [lia|].
  unfold block_disjoint, ranges_disjoint. simpl. lia.
Qed.

Lemma pop_fit_Some size free b rest :
  pop_fit size free = Some (b, rest) -> free ≡ₚ b :: rest /\ size <= b.2.
Proof.
  revert b rest. induction free as [|c free IH]; intros b rest; simpl; [done|].
  destruct (Z.leb_spec size c.2); [intros [= <- <-]; done|].
  destruct (pop_fit size free) as [[d rest']|]; [|done]. intros [= <- <-].
  destruct (IH d rest' eq_refl) as [-> ?]. split; [apply Permutation_swap | done].
Qed.

Lemma pop_fit_None size free : pop_fit size free = None <-> forall b, b ∈ free -> b.2 < size.
Proof.
  induction free as [|c free IH]; simpl; [split; [by intros _ b ?%elem_of_nil | done]|].
  destruct (Z.leb_spec size c.2).
  - split; [done|]. intros Hb. specialize (Hb c ltac:(list_mem)). lia.
  - destruct (pop_fit size free) as [[d rest']|].
    + split; [done|]. intros Hb. destruct IH as [_ IH]. discriminate IH.
      intros b Hin. apply Hb. list_mem.
    + split; [|done]. intros _ b [-> | Hb]%elem_of_cons; [done|]. by apply IH.
Qed.

Lemma zsum_nonneg l : (forall x, x ∈ l -> 0 <= x) -> 0 <= zsum l.
Proof.
  induction l as [|x l IH]; intros H; [done|]. rewrite zsum_cons.
  assert (0 <= x) by (apply H; list_mem). assert (0 <= zsum l); [|lia].
  apply IH. intros y Hy. apply H. list_mem.
Qed.

Lemma tiles_nonneg pe bs : tiles pe bs -> 0 <= pe.
Proof.
  intros [H1 _ <-]. apply zsum_nonneg. intros x (b & -> & Hb)%list_elem_of_fmap.
  by destruct (H1 b Hb) as (_ & ? & _).
Qed.

(** The live bytes never exceed the pool. *)
Lemma tiles_live pe free live : tiles pe (free ++ live) -> zsum (snd <$> live) <= pe.
Proof.
  intros [H1 _ H3]. rewrite fmap_app, zsum_app in H3.
  assert (0 <= zsum (snd <$> free)); [|lia]. apply zsum_nonneg.
  intros x (b & -> & Hb)%list_elem_of_fmap. destruct (H1 b) as (_ & ? & _); [list_mem | done].
Qed.

Lemma zsum_snoc l (b : block) : zsum (snd <$> l ++ [b]) = zsum (snd <$> l) + b.2.
Proof. rewrite fmap_app, zsum_app. unfold zsum. simpl. lia. Qed.

Lemma allocate_inv a live size off a' :
  pool_inv (a, live) -> 0 <= size -> allocate size a = (Some off, a') ->
  pool_inv (a', live ++ [(off, size)]) /\ _segment_size a' = _segment_size a /\
  _pool_end a <= _pool_end a'.
Proof.
  intros [Ht Hc Hp Hs] Hn H. unfold allocate in H. simpl in *.
  destruct (pop_fit size (_free a)) as [[[bo bs] rest]|] eqn:Hf.
  - destruct (Z.ltb_spec (_segment_size a) (_pool_end a)); [done|]. injection H as <- <-.
    apply pop_fit_Some in Hf as [Hperm Hle]. simpl in Hle.
    rewrite Hperm in Ht. simpl in Ht.
    assert (tiles (_pool_end a)
      ((if 0 <? bs - size then rest ++ [(bo + size, bs - size)] else rest) ++ live ++ [(bo, size)]))
      as Ht'.
    { apply (tiles_split _ _ _ size) in Ht; [|lia]. destruct (Z.ltb_spec 0 (bs - size)).
      - eapply tiles_proper; [|exact Ht]. solve_Permutation.
      - replace (bs - size) with 0 in Ht by lia. rewrite Permutation_swap in Ht.
        apply tiles_drop_empty in Ht. eapply tiles_proper; [|exact Ht].
        solve_Permutation. }
    assert (zsum (snd <$> live ++ [(bo, size)]) = zsum (snd <$> live) + size) as Hsum
      by apply zsum_snoc.
    pose proof (tiles_live _ _ _ Ht') as Hlive. rewrite Hsum in Hlive.
    split; [|simpl; lia]. split; simpl; [exact Ht' | rewrite Hsum; lia | lia | done].
  - destruct (Z.ltb_spec (_segment_size a) (_pool_end a + size)); [done|]. injection H as <- <-.
    pose proof (tiles_nonneg _ _ Ht) as Hpe.
    assert (tiles (_pool_end a + size) (_free a ++ live ++ [(_pool_end a, size)])) as Ht'.
    { eapply tiles_proper; [|apply tiles_extend; [done | done | exact Ht]].
      solve_Permutation. }
    assert (zsum (snd <$> live ++ [(_pool_end a, size)]) = zsum (snd <$> live) + size) as Hsum
      by apply zsum_snoc.
    pose proof (tiles_live _ _ _ Ht') as Hlive. rewrite Hsum in Hlive.
    split; [|simpl; lia]. split; simpl; [exact Ht' | rewrite Hsum; lia | lia | done].
Qed.

Lemma free_inv a l1 off size l2 :
  pool_inv (a, l1 ++ (off, size) :: l2) -> pool_inv (free_block off size a, l1 ++ l2).
Proof.
  intros [Ht Hc Hp Hs]. simpl in *.
  assert (0 <= size) as Hn.
  { apply (ti_range _ _ Ht (off, size)). list_mem. }
  rewrite fmap_app, zsum_app, fmap_cons, zsum_cons in Hc. cbn [snd] in Hc.
  split; simpl.
  - eapply tiles_proper; [|exact Ht]. solve_Permutation.
  - rewrite fmap_app, zsum_app. lia.
  - lia.
  - done.
Qed.

Lemma allocate_None a size a' : allocate size a = (None, a') -> a' = a.
Proof. unfold allocate. repeat case_match; congruence. Qed.

Lemma pool_step_inv s s' : pool_step s s' -> pool_inv s -> pool_inv s'.
Proof.
  intros H. destruct H as [a live size off a' Hn Ha | a live size a' Ha | a l1 off size l2]; intros Hi.
  - by eapply allocate_inv.
  - by rewrite (allocate_None _ _ _ Ha).
  - by apply free_inv.
Qed.

Lemma new_pool_inv seg : 0 <= seg -> pool_inv (new_allocator seg, []).
Proof.
  intros Hs. split; simpl; [|done | lia | done].
  split; [by intros b ?%elem_of_nil | apply pairwise_nil | done].
Qed.

(** ** Alignment *)

Definition on_grid (s : Allocator * list block) : Prop :=
  (128 | _pool_end s.1) /\
  forall b, b ∈ _free s.1 ++ s.2 -> (128 | b.1) /\ (128 | b.2).

Lemma allocate_on_grid a live size off a' :
  on_grid (a, live) -> (128 | size) -> allocate size a = (Some off, a') ->
  on_grid (a', live ++ [(off, size)]).
Proof.
  intros [He Hb] Hn H. unfold allocate in H. simpl in *.
  assert (forall x, x ∈ live ++ [(off, size)] -> (128 | off) -> (128 | x.1) /\ (128 | x.2)) as Hl.
  { intros x [Hx | ->%list_elem_of_singleton]%elem_of_app Ho; [apply Hb; list_mem | done]. }
  destruct (pop_fit size (_free a)) as [[[bo bs] rest]|] eqn:Hf.
  - destruct (_segment_size a <? _pool_end a); [done|]. injection H as <- <-.
    apply pop_fit_Some in Hf as [Hperm _].
    assert (forall x, x ∈ (bo, bs) :: rest -> (128 | x.1) /\ (128 | x.2)) as Hfr.
    { intros x Hx. apply Hb. rewrite Hperm. apply elem_of_app. by left. }
    destruct (Hfr (bo, bs)) as [Ho Hs]; [list_mem|]. simpl in *.
    split; [done|]. simpl. intros x [Hx | Hx]%elem_of_app; [|auto].
    destruct (0 <? bs - size); [|apply Hfr; list_mem].
    apply elem_of_app in Hx as [Hx | ->%list_elem_of_singleton]; [apply Hfr; list_mem|].
    split; [by apply Z.divide_add_r | by apply Z.divide_sub_r].
  - destruct (_segment_size a <? _pool_end a + size); [done|]. injection H as <- <-.
    split; simpl; [by apply Z.divide_add_r|].
    intros x [Hx | Hx]%elem_of_app; [apply Hb; list_mem | auto].
Qed.

(** ** The allocation loop of one bundle *)

(** The block of a [pending_frees] entry. *)
Definition entry_block (e : Z * Z * Z) : block := (e.1.2, e.2).

Lemma expire_all start pend : forall al kept al' kept',
  pool_inv (al, entry_block <$> kept ++ pend) -> on_grid (al, entry_block <$> kept ++ pend) ->
  foldl (expire start) (al, kept) pend = (al', kept') ->
  pool_inv (al', entry_block <$> kept') /\ on_grid (al', entry_block <$> kept') /\
  _pool_end al' = _pool_end al /\ _segment_size al' = _segment_size al /\
  (forall x, x ∈ kept -> x ∈ kept') /\
  (forall x, x ∈ pend -> x ∈ kept' \/ x.1.1 < start).
Proof.
  induction pend as [|[[e off] sz] pend IH]; intros al kept al' kept' Hi Hg H; simpl in H.
  { injection H as <- <-. rewrite app_nil_r in Hi, Hg. split_and!; auto.
    by intros x ?%elem_of_nil. }
  destruct (Z.ltb_spec e start).
  - assert (pool_inv (free_block off sz al, entry_block <$> kept ++ pend)) as Hi'.
    { rewrite fmap_app. apply free_inv. by rewrite fmap_app in Hi. }
    assert (on_grid (free_block off sz al, entry_block <$> kept ++ pend)) as Hg'.
    { destruct Hg as [He Hb]. split; [done|]. simpl in *. intros b Hin. apply Hb.
      rewrite fmap_app in Hin |- *. simpl. set_unfold. naive_solver. }
    destruct (IH _ _ _ _ Hi' Hg' H) as (? & ? & ? & ? & ? & Hp). split_and!; auto.
    intros x [-> | Hx]%elem_of_cons; [right; simpl; lia | auto].
  - simpl in H. change (foldl (expire start) (al, kept ++ [(e, off, sz)]) pend = (al', kept')) in H.
    destruct (IH al (kept ++ [(e, off, sz)]) al' kept') as (? & ? & ? & ? & Hk & Hp);
      [by rewrite <- app_assoc | by rewrite <- app_assoc | done |]. split_and!; auto.
    + intros x Hx. apply Hk. list_mem.
    + intros x [-> | Hx]%elem_of_cons; [left; apply Hk; list_mem | auto].
Qed.

(** An assigned entry: its representative, live range and block. *)
Definition entry : Type := string * (Z * Z) * (Z * Z).
Definition range_start (e : entry) : Z := e.1.2.1.
Definition range_end (e : entry) : Z := e.1.2.2.
Definition slot (e : entry) : block := e.2.

(** Two storages live at a common step do not share a byte. *)
Definition no_clash (x y : entry) : Prop :=
  range_start x <= range_end y -> range_start y <= range_end x ->
  block_disjoint (slot x) (slot y).

Record loop_inv (max_pool cur : Z) (s : pstate) : Prop := {
  li_pool : pool_inv (alloc s, entry_block <$> pending_frees s);
  li_grid : on_grid (alloc s, entry_block <$> pending_frees s);
  li_segment : _segment_size (alloc s) = max_pool;
  li_pending : forall x, x ∈ assigned s ->
    (range_end x, (slot x).1, (slot x).2) ∈ pending_frees s \/ range_end x < cur;
  li_started : forall x, x ∈ assigned s -> range_start x <= cur;
  li_slots : forall x, x ∈ assigned s -> 0 <= (slot x).1 /\ 0 <= (slot x).2 /\
    (slot x).1 + (slot x).2 <= _pool_end (alloc s) /\ (128 | (slot x).1);
  li_clash : pairwise no_clash (assigned s)
}.

Lemma align_up_spec n al : 0 < al -> n <= _align_up n al < n + al /\ (al | _align_up n al).
Proof.
  intros H. unfold _align_up. pose proof (add_div_up_spec n al H).
  split; [lia | apply Z.divide_factor_r].
Qed.

Section bundle.
Context (g : graph) (device_size : string -> Z).
Context (Hdev : forall n, 0 <= device_size n).

Lemma size_bytes_spec n sz :
  _compute_size_bytes g device_size n = Ok sz -> 0 <= sz /\ (128 | sz).
Proof.
  unfold _compute_size_bytes. destruct (_ ≫= maybe_layout) as [[a lx|]|]; intros H; inv_res.
  destruct (align_up_spec (device_size n) _HBM_ALLOCATION_ALIGNMENT_BYTES) as [Hle Hd]; [done|].
  specialize (Hdev n). split; [lia | done].
Qed.

Lemma place_group_inv max_pool cur gr s s' :
  loop_inv max_pool cur s -> cur <= gr.1.2.1 ->
  place_group g device_size gr s = Ok s' -> loop_inv max_pool gr.1.2.1 s'.
Proof.
  destruct gr as [[rep [start end_]] names]. simpl.
  intros [Hp Hg Hseg Hpend Hst Hslot Hcl] Hcur H.
  destruct (foldl (expire start) (alloc s, []) (pending_frees s)) as [al pending] eqn:He.
  destruct (expire_all start (pending_frees s) (alloc s) [] al pending Hp Hg He)
    as (Hp1 & Hg1 & Hend & Hseg1 & _ & Hkeep).
  apply bind_Ok in H as (sz & Hsz & H). destruct (size_bytes_spec _ _ Hsz) as [Hnn Hdiv].
  assert (forall x, x ∈ assigned s ->
    (range_end x, (slot x).1, (slot x).2) ∈ pending \/ range_end x < start) as Hpend1.
  { intros x Hx. destruct (Hpend x Hx) as [Hin | Hlt]; [|right; lia].
    destruct (Hkeep _ Hin) as [|Hlt]; [by left | right; done]. }
  destruct (allocate sz al) as [[off|] al'] eqn:Ha; injection H as <-.
  - destruct (allocate_inv _ _ _ _ _ Hp1 Hnn Ha) as (Hp2 & Hseg2 & Hmono).
    pose proof (allocate_on_grid _ _ _ _ _ Hg1 Hdiv Ha) as Hg2.
    assert (entry_block <$> pending ++ [(end_, off, sz)] = (entry_block <$> pending) ++ [(off, sz)])
      as Heb by by rewrite fmap_app.
    pose proof (pi_tiles _ Hp2) as [Hr2 Ha2 _]. simpl in Hr2, Ha2.
    rewrite app_assoc in Ha2. apply pairwise_snoc in Ha2 as [_ Hnew].
    split; simpl; rewrite ?Heb; auto; [congruence | | | |].
    + intros x [Hx | ->%list_elem_of_singleton]%elem_of_app; [|left; list_mem].
      destruct (Hpend1 x Hx); [left; list_mem | by right].
    + intros x [Hx | ->%list_elem_of_singleton]%elem_of_app; [|done].
      specialize (Hst x Hx). lia.
    + intros x [Hx | ->%list_elem_of_singleton]%elem_of_app.
      * destruct (Hslot x Hx) as (? & ? & ? & ?). split_and!; [done | done | lia | done].
      * destruct (Hr2 (off, sz)) as (? & ? & ?); [list_mem|].
        destruct (proj2 Hg2 (off, sz)) as [? _]; [simpl; list_mem|]. done.
    + apply pairwise_snoc. split; [done|]. intros x Hx _ Hov.
      destruct (Hpend1 x Hx) as [Hin | Hlt]; [|unfold range_start in Hov; simpl in Hov; lia].
      destruct x as [[n [xs xe]] [xo xz]]. apply (Hnew (xo, xz)), elem_of_app. right.
      apply list_elem_of_fmap. by exists (xe, xo, xz).
  - rewrite (allocate_None _ _ _ Ha). split; simpl; auto; [congruence | |].
    + intros x Hx. specialize (Hst x Hx). lia.
    + rewrite Hend. done.
Qed.

Lemma groups_sublist L gr :
  fst <$> groups (foldl (group_step g) gr L) `sublist_of` (fst <$> groups gr) ++ L.
Proof.
  revert gr. induction L as [|e L IH]; intros gr; simpl; [by rewrite app_nil_r|].
  etrans; [apply IH|]. unfold group_step.
  destruct (_alloc_id g e.1 ≫= _) as [rep|]; simpl.
  - assert (fst <$> join_group rep e.1 (groups gr) = fst <$> groups gr) as ->.
    { unfold join_group. rewrite <- list_fmap_compose. apply list_fmap_ext.
      intros i x _. simpl. by case_bool_decide. }
    apply sublist_app; [done|]. by apply sublist_cons.
  - rewrite fmap_app, <- app_assoc. done.
Qed.

(** The groups are visited by non-decreasing start. *)
Lemma alloc_groups_sorted nodes cands :
  StronglySorted (fun x y => x.1.2.1 <= y.1.2.1) (alloc_groups g nodes cands).
Proof.
  unfold alloc_groups. set (L := py_sorted _ _).
  assert (StronglySorted (fun x y : string * (Z * Z) => x.2.1 <= y.2.1) L) as HL.
  { apply py_sorted_coarse; [| |lia]; intros x y; unfold sort_key_leb; [|]; intros E.
    - destruct (Z.ltb_spec x.2.1 y.2.1), (Z.eqb_spec x.2.1 y.2.1); simpl in E; lia || done.
    - destruct (Z.ltb_spec x.2.1 y.2.1), (Z.eqb_spec x.2.1 y.2.1); simpl in E; lia || done. }
  pose proof (groups_sublist L (mkGrouping ∅ [])) as Hs. simpl in Hs.
  apply (StronglySorted_sublist _ _ _ Hs) in HL. clear Hs.
  induction (groups _) as [|x l IH]; [constructor|]. csimpl in HL.
  apply StronglySorted_cons in HL as [Hx HL]. constructor; [auto|].
  by apply (Forall_fmap fst (fun y => x.1.2.1 <= y.2.1)) in Hx.
Qed.

Lemma place_groups_inv max_pool grs s s' :
  StronglySorted (fun x y => x.1.2.1 <= y.1.2.1) grs ->
  for_each (place_group g device_size) grs s = Ok s' ->
  forall cur, loop_inv max_pool cur s -> (forall x, x ∈ grs -> cur <= x.1.2.1) ->
  exists cur', loop_inv max_pool cur' s'.
Proof.
  revert s. induction grs as [|gr grs IH]; intros s Hs H cur Hi Hcur; simpl in H.
  { injection H as <-. eauto. }
  apply bind_Ok in H as (s1 & H1 & H). apply StronglySorted_cons in Hs as [Hx Hs].
  eapply (IH s1 Hs H (gr.1.2.1)).
  - eapply place_group_inv; eauto. apply Hcur. list_mem.
  - rewrite Forall_forall in Hx. done.
Qed.

Lemma plan_bundle_inv max_pool m cands bundle s :
  0 <= max_pool -> plan_bundle g device_size max_pool m cands bundle = Ok (Some s) ->
  exists cur, loop_inv max_pool cur s.
Proof.
  intros Hmax H. unfold plan_bundle in H. case_bool_decide; [done|].
  apply bind_Ok in H as (s' & Hs & H). injection H as ->.
  set (grs := alloc_groups _ _ _) in *.
  eapply (place_groups_inv max_pool grs _ _ (alloc_groups_sorted _ _) Hs
            (list_min 0 ((fun x => x.1.2.1) <$> grs))).
  - split; simpl; try (by intros x ?%elem_of_nil).
    + by apply new_pool_inv.
    + split; [apply Z.divide_0_r|]. by intros b ?%elem_of_nil.
    + done.
    + apply pairwise_nil.
  - intros x Hx. apply list_min_le, list_elem_of_fmap. eauto.
Qed.
End bundle.

(** ** Bundle scoping *)

(** The allocation-keyed dicts only grow. *)
Record grows (m m' : bmaps) : Prop := {
  gr_writers : forall a, bundles_of a (alloc_id_bundles m) ⊆ bundles_of a (alloc_id_bundles m');
  gr_readers : forall a,
    bundles_of a (alloc_id_reader_bundles m) ⊆ bundles_of a (alloc_id_reader_bundles m')
}.

#[export] Instance grows_preorder : PreOrder grows.
Proof.
  split; [by split|]. intros x y z [A1 A2] [B1 B2].
  split; intros a; [etrans; [apply A1 | apply B1] | etrans; [apply A2 | apply B2]].
Qed.

Lemma foldl_grows {A} (f : bmaps -> A -> bmaps) l m :
  (forall m x, grows m (f m x)) -> grows m (foldl f m l).
Proof.
  intros Hf. revert m. induction l as [|x l IH]; intros m; simpl; [reflexivity|].
  etrans; [apply Hf | apply IH].
Qed.

(** What the fold did for one element is kept. *)
Lemma foldl_kept {A} (f : bmaps -> A -> bmaps) l m x :
  (forall m x, grows m (f m x)) -> x ∈ l -> exists m0, grows (f m0 x) (foldl f m l).
Proof.
  intros Hf Hx. apply list_elem_of_split in Hx as (l1 & l2 & ->).
  exists (foldl f m l1). rewrite foldl_app. simpl. by apply foldl_grows.
Qed.

Lemma foldl_keeps {A} (P : bmaps -> Prop) (f : bmaps -> A -> bmaps) l m :
  (forall m x, P m -> P (f m x)) -> P m -> P (foldl f m l).
Proof. intros Hf. revert m. induction l as [|x l IH]; intros m Hm; simpl; auto. Qed.

Lemma bundles_of_add {K} `{Countable K} (k k' : K) v d :
  bundles_of k' (add_to k v d) =
  if decide (k = k') then {[v]} ∪ bundles_of k' d else bundles_of k' d.
Proof.
  unfold bundles_of, add_to. rewrite lookup_insert. case_decide as He; [by subst | done].
Qed.

Section scoping.
Context (g : graph).

Lemma add_alloc_grows n w d a : bundles_of a d ⊆ bundles_of a (add_alloc g n w d).
Proof.
  unfold add_alloc. destruct (_alloc_id g n); [|done]. rewrite bundles_of_add.
  case_decide; set_solver.
Qed.

Lemma add_alloc_hit n w d a :
  _alloc_id g n = Some a -> w ∈ bundles_of a (add_alloc g n w d).
Proof. intros Hn. unfold add_alloc. rewrite Hn, bundles_of_add, decide_True by done. set_solver. Qed.

Lemma note_write_grows w m n : grows m (note_write g w m n).
Proof.
  unfold note_write. case_bool_decide; [reflexivity|]. split; simpl; [|done].
  intros a. apply add_alloc_grows.
Qed.

Lemma note_read_grows w m n : grows m (note_read g w m n).
Proof.
  unfold note_read. case_bool_decide; [reflexivity|]. split; simpl; [done|].
  intros a. apply add_alloc_grows.
Qed.

Lemma note_node_grows w m n : grows m (note_node g w m n).
Proof.
  unfold note_node. transitivity (foldl (note_write g w) m (writes_of n));
    [apply foldl_grows, note_write_grows | apply foldl_grows, note_read_grows].
Qed.

Lemma note_empty_grows w m n : grows m (note_empty g w m n).
Proof. unfold note_empty. repeat case_match; try reflexivity. apply note_write_grows. Qed.

Lemma note_bundle_grows m b : grows m (note_bundle g m b).
Proof.
  unfold note_bundle.
  transitivity (foldl (note_node g (name_of b)) m
    (filter (fun n => is_kernel_arg n = false) (iter_all_nodes b)));
    [apply foldl_grows, note_node_grows | apply foldl_grows, note_empty_grows].
Qed.

(** Every write and every read of a computed node is recorded under its bundle. *)
Lemma accesses_recorded nodes bundle n :
  bundle ∈ nodes -> n ∈ iter_all_nodes bundle -> is_kernel_arg n = false ->
  (forall x a, x ∈ writes_of n -> x ∉ graph_outputs g -> _alloc_id g x = Some a ->
     name_of bundle ∈ bundles_of a (alloc_id_bundles (bundle_maps g nodes))) /\
  (forall x a, x ∈ reads_of n -> x ∉ graph_inputs g -> _alloc_id g x = Some a ->
     name_of bundle ∈ bundles_of a (alloc_id_reader_bundles (bundle_maps g nodes))).
Proof.
  intros Hb Hn Hk. unfold bundle_maps.
  destruct (foldl_kept (note_bundle g) nodes (mkB ∅ ∅ ∅ ∅ ∅) bundle) as [m0 Hm0];
    [apply note_bundle_grows | done|].
  assert (exists m1, grows (note_node g (name_of bundle) m1 n) (note_bundle g m0 bundle)) as [m1 Hm1].
  { unfold note_bundle.
    destruct (foldl_kept (note_node g (name_of bundle))
      (filter (fun n => is_kernel_arg n = false) (iter_all_nodes bundle)) m0 n) as [m1 Hm1];
      [apply note_node_grows | by apply list_elem_of_filter|].
    exists m1. etrans; [exact Hm1|]. apply foldl_grows, note_empty_grows. }
  assert (grows (note_node g (name_of bundle) m1 n) (foldl (note_bundle g) (mkB ∅ ∅ ∅ ∅ ∅) nodes))
    as Hall by (by etrans).
  split; intros x a Hx Hio Ha.
  - apply (gr_writers _ _ Hall). unfold note_node.
    destruct (foldl_kept (note_write g (name_of bundle)) (writes_of n) m1 x) as [m2 Hm2];
      [apply note_write_grows | done|].
    assert (grows (note_write g (name_of bundle) m2 x) (note_node g (name_of bundle) m1 n)) as Hw.
    { unfold note_node. etrans; [exact Hm2|]. apply foldl_grows, note_read_grows. }
    apply (gr_writers _ _ Hw). unfold note_write. rewrite bool_decide_eq_false_2 by done.
    by apply add_alloc_hit.
  - apply (gr_readers _ _ Hall). unfold note_node.
    destruct (foldl_kept (note_read g (name_of bundle)) (reads_of n)
      (foldl (note_write g (name_of bundle)) m1 (writes_of n)) x) as [m2 Hm2];
      [apply note_read_grows | done|].
    apply (gr_readers _ _ Hm2). unfold note_read. rewrite bool_decide_eq_false_2 by done.
    by apply add_alloc_hit.
Qed.

(** The bundle in [buffer_writer_bundle] is among the writers of the allocation. *)
Definition linked (m : bmaps) : Prop :=
  forall n w a, buffer_writer_bundle m !! n = Some w -> _alloc_id g n = Some a ->
    w ∈ bundles_of a (alloc_id_bundles m).

Lemma note_write_linked w m n : linked m -> linked (note_write g w m n).
Proof.
  intros Hm. unfold note_write. case_bool_decide; [done|]. intros n' w' a Hw Ha. simpl in *.
  rewrite lookup_insert in Hw. case_decide as He.
  - injection Hw as <-. subst n'. by apply add_alloc_hit.
  - apply add_alloc_grows. by eapply Hm.
Qed.

Lemma bundle_maps_linked nodes : linked (bundle_maps g nodes).
Proof.
  unfold bundle_maps. apply foldl_keeps; [|by intros n w a ?]. intros m b Hm.
  unfold note_bundle. apply foldl_keeps.
  { intros m' n Hm'. unfold note_empty. repeat case_match; auto using note_write_linked. }
  apply foldl_keeps; [|done]. intros m' n Hm'. unfold note_node.
  apply foldl_keeps; [|apply foldl_keeps; auto using note_write_linked].
  intros m'' x Hm''. unfold note_read. by case_bool_decide.
Qed.

Lemma size_le_1_singleton (X : gset string) w : ~ (1 < size X)%nat -> w ∈ X -> X = {[w]}.
Proof.
  intros Hs Hw. assert (size X = 1%nat) as H1.
  { assert (size X <> 0%nat); [|lia]. intros H0%size_empty_inv. set_solver. }
  apply size_1_elem_of in H1 as [v Hv]. apply leibniz_equiv in Hv. set_solver.
Qed.

(** What makes a name a candidate. *)
Lemma candidate_facts nodes c :
  c ∈ all_candidates g nodes ->
  exists a w, _alloc_id g c = Some a /\ buffer_writer_bundle (bundle_maps g nodes) !! c = Some w /\
    a ∉ io_alloc_ids g /\ a ∉ fallback_read_alloc_ids g nodes /\
    bundles_of a (alloc_id_bundles (bundle_maps g nodes)) = {[w]} /\
    bundles_of a (alloc_id_reader_bundles (bundle_maps g nodes)) ⊆ {[w]}.
Proof.
  unfold all_candidates. rewrite elem_of_filter.
  intros [(_ & _ & Hint & Hcross) [[w Hw]%elem_of_dom _]%elem_of_intersection].
  unfold _is_intermediate in Hint. unfold _is_cross_bundle in Hcross.
  assert (exists a, _alloc_id g c = Some a /\ a ∉ io_alloc_ids g /\ a ∉ fallback_read_alloc_ids g nodes)
    as (a & Ha & H1 & H2).
  { unfold _alloc_id. destruct (_ ≫= maybe_layout) as [[a lx|]|]; [|done..].
    split_bools. by exists a. }
  exists a, w. rewrite Ha in Hcross. case_bool_decide; [done|].
  destruct (shared_by_bundles _ a) eqn:Hs; [done|]. unfold shared_by_bundles in Hs. split_bools.
  destruct (read_elsewhere _ c a) eqn:Hr; [done|]. unfold read_elsewhere in Hr. split_bools.
  pose proof (bundle_maps_linked nodes c w a Hw Ha) as Hin.
  pose proof (size_le_1_singleton _ w Hs Hin) as Hsing.
  split_and!; auto. unfold bundles_of in Hsing. unfold writer_set in Hr. rewrite Hw in Hr.
  assert (default {[w]} (alloc_id_bundles (bundle_maps g nodes) !! a) = ({[w]} : gset string))
    as Hdef by (by destruct (alloc_id_bundles (bundle_maps g nodes) !! a)).
  rewrite Hdef in Hr. intros x Hx. destruct (decide (x ∈ ({[w]} : gset string))) as [|Hne]; [done|].
  exfalso. apply (not_elem_of_empty (C := gset string) x). rewrite <- Hr.
  by apply elem_of_difference.
Qed.

(** A name on a candidate's storage is neither an input nor an output. *)
Lemma io_alloc x a :
  (forall n b, get_buffer g !! n = Some b -> is_symbol b = true -> maybe_layout b = None) ->
  _alloc_id g x = Some a -> x ∈ io_names g -> a ∈ io_alloc_ids g.
Proof.
  intros Hsym Ha Hx. apply list_elem_of_omap. exists x. split; [done|]. unfold _alloc_id in Ha.
  destruct (get_buffer g !! x) as [b|] eqn:Hb; simpl in Ha; [|done].
  destruct (is_symbol b) eqn:Hs; [by rewrite (Hsym x b Hb Hs) in Ha|].
  by destruct (maybe_layout b) as [[? ?|]|].
Qed.
End scoping.

(** ** Live ranges cover the accesses *)

Lemma note_writes_lookup cands idx ws m n :
  note_writes cands idx ws m !! n =
  if decide (n ∈ cands /\ n ∈ ws) then Some idx else m !! n.
Proof.
  unfold note_writes. induction ws as [|x ws IH] using rev_ind; simpl.
  { rewrite decide_False; [done|]. by intros [_ ?%elem_of_nil]. }
  rewrite foldl_app. simpl.
  assert (n ∈ ws ++ [x] <-> n ∈ ws \/ n = x) as Hiff
    by (by rewrite elem_of_app, list_elem_of_singleton).
  destruct (decide (n ∈ cands /\ n ∈ ws ++ [x])) as [[Hc Hx]|Hno].
  - destruct (decide (x = n)) as [->|Hne].
    + rewrite bool_decide_eq_true_2 by done. by rewrite lookup_insert_eq.
    + assert (n ∈ ws) as Hw by (destruct (proj1 Hiff Hx); congruence).
      rewrite decide_True in IH by done. case_bool_decide; [|done]. by rewrite lookup_insert_ne.
  - rewrite decide_False in IH by tauto. case_bool_decide; [|done].
    destruct (decide (x = n)) as [->|Hne]; [|by rewrite lookup_insert_ne]. destruct Hno. tauto.
Qed.

(** [starts] and [ends] hold the last write and the last read. *)
Definition last_access (acc : snode -> list string) (nodes : list snode) (n : string)
    (o : option Z) : Prop :=
  match o with
  | Some s => exists i x, s = Z.of_nat i /\ nodes !! i = Some x /\ n ∈ acc x /\
      forall j y, nodes !! j = Some y -> n ∈ acc y -> (j <= i)%nat
  | None => forall j y, nodes !! j = Some y -> n ∉ acc y
  end.

Lemma last_access_snoc acc nodes x n o :
  last_access acc nodes n o ->
  last_access acc (nodes ++ [x]) n
    (if decide (n ∈ acc x) then Some (Z.of_nat (length nodes)) else o).
Proof.
  intros H. case_decide as Hx.
  - exists (length nodes), x. rewrite lookup_app_r, Nat.sub_diag by lia. split_and!; auto.
    intros j y Hj%lookup_lt_Some _. rewrite length_app in Hj. simpl in Hj. lia.
  - assert (forall j y, (nodes ++ [x]) !! j = Some y -> n ∈ acc y -> nodes !! j = Some y) as Hold.
    { intros j y [|[_ [_ ->]%list_lookup_singleton_Some]]%lookup_app_Some; done. }
    destruct o as [s|]; simpl in *.
    + destruct H as (i & y & -> & Hi & Hy & Hmax). exists i, y.
      split_and!; auto; [by apply lookup_app_l_Some|]. intros j z Hj Hz. eauto.
    + intros j y Hj Hy. eapply H; eauto.
Qed.

Lemma walk_spec cands nodes n :
  n ∈ cands ->
  last_access writes_of nodes n (starts (walk cands nodes) !! n) /\
  last_access reads_of nodes n (ends (walk cands nodes) !! n).
Proof.
  intros Hn. unfold walk. induction nodes as [|x nodes [IH1 IH2]] using rev_ind.
  { simpl. rewrite !lookup_empty. split; by intros j y Hj. }
  rewrite imap_app, foldl_app. simpl. rewrite Nat.add_0_r, !note_writes_lookup.
  split.
  - apply (last_access_snoc writes_of nodes x) in IH1.
    destruct (decide (n ∈ writes_of x)) as [Hw|Hw].
    + by rewrite decide_True.
    + by rewrite decide_False by tauto.
  - apply (last_access_snoc reads_of nodes x) in IH2.
    destruct (decide (n ∈ reads_of x)) as [Hw|Hw].
    + by rewrite decide_True.
    + by rewrite decide_False by tauto.
Qed.

Section ranges_cover.
Context (g : graph).

Lemma merge_groups_hull raw n se a :
  (n, se) ∈ raw -> _alloc_id g n = Some a ->
  exists gs ge, foldl (merge_group g) ∅ raw !! a = Some (gs, ge) /\ gs <= se.1 /\ se.2 <= ge.
Proof.
  intros Hin Ha. induction raw as [|[n' [s e]] raw IH] using rev_ind; [by apply elem_of_nil in Hin|].
  rewrite foldl_app. simpl. unfold merge_group at 1. simpl.
  apply elem_of_app in Hin as [Hin | Heq%list_elem_of_singleton].
  - destruct (IH Hin) as (gs & ge & Hl & H1 & H2).
    destruct (_alloc_id g n') as [a'|]; [|by exists gs, ge].
    destruct (decide (a' = a)) as [->|Hne].
    + rewrite Hl. simpl. rewrite lookup_insert_eq. eexists _, _. split; [done|]. lia.
    + destruct (default (s, e) _) as [gs' ge']. rewrite lookup_insert_ne by done. by exists gs, ge.
  - injection Heq as -> ->. rewrite Ha. destruct (default (s, e) _) as [gs' ge'].
    rewrite lookup_insert_eq. eexists _, _. split; [done|]. simpl. lia.
Qed.

Lemma raw_ranges_elem nodes cands n se :
  (n, se) ∈ raw_ranges nodes cands <->
  n ∈ cands /\ raw_range nodes (walk cands nodes) n = Some se.
Proof.
  unfold raw_ranges. rewrite list_elem_of_omap. split.
  - intros (x & Hx & H). destruct (raw_range nodes _ x) as [se'|] eqn:E; [|done].
    injection H as -> ->. split; [by apply elem_of_elements | done].
  - intros [Hn Hr]. exists n. rewrite Hr. split; [by apply elem_of_elements | done].
Qed.

(** The merged range of a name contains its own. *)
Lemma live_range_hull nodes cands n s e :
  (n, (s, e)) ∈ _compute_live_ranges g nodes cands ->
  n ∈ cands /\ exists s0 e0, raw_range nodes (walk cands nodes) n = Some (s0, e0) /\ s <= s0 /\ e0 <= e.
Proof.
  unfold _compute_live_ranges. intros ([n' [s0 e0]] & Heq & Hraw)%list_elem_of_fmap.
  pose proof Hraw as [Hn Hr]%raw_ranges_elem. simpl in *. injection Heq as -> Hse.
  split; [done|]. exists s0, e0. split; [done|].
  destruct (_alloc_id g n') as [a|] eqn:Ha; simpl in Hse; [|injection Hse as -> ->; lia].
  destruct (merge_groups_hull _ n' (s0, e0) a Hraw Ha) as (gs & ge & Hl & ? & ?).
  rewrite Hl in Hse. injection Hse as -> ->. simpl in *. lia.
Qed.

(** Storage that is written once, before it is read. *)
Definition written_first (nodes : list snode) (n : string) : Prop :=
  forall i j x y, nodes !! i = Some x -> nodes !! j = Some y -> n ∈ writes_of x ->
    n ∈ writes_of y \/ n ∈ reads_of y -> (i <= j)%nat.

Lemma live_range_covers nodes cands n s e i x :
  (n, (s, e)) ∈ _compute_live_ranges g nodes cands -> written_first nodes n ->
  nodes !! i = Some x -> n ∈ writes_of x \/ n ∈ reads_of x ->
  s <= Z.of_nat i <= e.
Proof.
  intros Hin Hwf Hi Hacc. apply live_range_hull in Hin as (Hn & s0 & e0 & Hr & Hs & He).
  unfold raw_range in Hr. destruct (walk_spec cands nodes n Hn) as [H1 H2].
  destruct (starts (walk cands nodes) !! n) as [s1|]; [|done]. injection Hr as -> He0.
  destruct H1 as (iw & w & -> & Hiw & Hw & Hmax).
  assert (iw <= i)%nat as Hle by (by eapply Hwf).
  assert (Z.of_nat i <= e0); [|lia].
  destruct (ends (walk cands nodes) !! n) as [e1|]; simpl in He0; subst e0.
  - destruct H2 as (ir & r & -> & Hir & Hr & Hmaxr).
    destruct Hacc as [Hwx | Hrx].
    + assert (i <= ir)%nat; [|lia]. eapply (Hwf i ir); eauto.
    + specialize (Hmaxr i x Hi Hrx). lia.
  - apply lookup_lt_Some in Hi. lia.
Qed.
End ranges_cover.

(** ** From the groups to the assignments *)

Section assigned.
Context (g : graph) (device_size : string -> Z).

Lemma place_groups_assigned grs s s' :
  for_each (place_group g device_size) grs s = Ok s' ->
  forall x, x ∈ assigned s' -> x ∈ assigned s \/ x.1 ∈ fst <$> grs.
Proof.
  revert s. induction grs as [|[[rep [start end_]] names] grs IH]; intros s H x Hx; simpl in H.
  { injection H as <-. by left. }
  apply bind_Ok in H as (s1 & H1 & H). destruct (IH s1 H x Hx) as [Hin | Hin].
  - destruct (foldl _ _ _) as [al pend]. apply bind_Ok in H1 as (sz & _ & H1).
    destruct (allocate sz al) as [[off|] al']; injection H1 as <-; simpl in Hin; [|by left].
    apply elem_of_app in Hin as [Hin | ->%list_elem_of_singleton]; [by left | right]. csimpl. list_mem.
  - right. csimpl. list_mem.
Qed.

Lemma assigned_range max_pool m cands bundle s x :
  plan_bundle g device_size max_pool m cands bundle = Ok (Some s) -> x ∈ assigned s ->
  exists C, C ⊆ cands /\ x.1 ∈ _compute_live_ranges g (live_range_nodes bundle) C.
Proof.
  intros H Hx. unfold plan_bundle in H. case_bool_decide; [done|].
  apply bind_Ok in H as (s' & Hs & H). injection H as ->.
  eexists. split; [|apply (elem_of_py_sorted sort_key_leb)].
  2:{ destruct (place_groups_assigned _ _ _ Hs x Hx) as [Hin%elem_of_nil | Hin]; [done|].
      unfold alloc_groups in Hin. eapply elem_of_sublist in Hin; [|apply groups_sublist].
      simpl in Hin. exact Hin. }
  intros n [_ Hn]%elem_of_filter. done.
Qed.

Lemma place_groups_total grs s :
  (forall gr, gr ∈ grs -> exists sz, _compute_size_bytes g device_size gr.1.1 = Ok sz) ->
  exists s', for_each (place_group g device_size) grs s = Ok s'.
Proof.
  revert s. induction grs as [|[[rep [start end_]] names] grs IH]; intros s Hsz; simpl; [eauto|].
  destruct (foldl _ _ _) as [al pend]. destruct (Hsz (rep, (start, end_), names)) as [sz Hs]; [list_mem|].
  simpl in Hs. rewrite Hs. simpl. destruct (allocate sz al) as [[off|] al']; simpl; apply IH; intros gr Hgr; apply Hsz; list_mem.
Qed.

Lemma candidate_has_size nodes c :
  c ∈ all_candidates g nodes -> exists sz, _compute_size_bytes g device_size c = Ok sz.
Proof.
  intros Hc. destruct (candidate_facts g nodes c Hc) as (a & w & Ha & _).
  unfold _compute_size_bytes. unfold _alloc_id in Ha.
  destruct (_ ≫= maybe_layout) as [[? ?|]|]; eauto || done.
Qed.

Lemma plan_bundle_total max_pool nodes bundle :
  exists o, plan_bundle g device_size max_pool (bundle_maps g nodes) (all_candidates g nodes) bundle
            = Ok o.
Proof.
  unfold plan_bundle. case_bool_decide; [eauto|].
  destruct (place_groups_total
    (alloc_groups g (live_range_nodes bundle)
       (filter (fun n => buffer_writer_bundle (bundle_maps g nodes) !! n = Some (name_of bundle))
          (all_candidates g nodes)))
    (mkP (new_allocator max_pool) [] [] 0)) as [s ->]; [|simpl; eauto].
  intros gr Hgr. apply (candidate_has_size nodes). unfold alloc_groups in Hgr.
  apply (list_elem_of_fmap_2 fst) in Hgr. eapply elem_of_sublist in Hgr; [|apply groups_sublist].
  simpl in Hgr. apply elem_of_py_sorted in Hgr. destruct gr as [[rep [s e]] names]. simpl in *.
  apply live_range_hull in Hgr as [Hn _]. by apply elem_of_filter in Hn as [_ Hn].
Qed.
End assigned.

(** ** Claims *)

(** C38. From a new pool allocator over a segment of non-negative size, in every state its
    client reaches by allocating non-negative sizes (with or without success) and freeing blocks
    it holds, the free and the live blocks tile the pool [0, pool_end) exactly without overlap,
    current usage is the sum of the live blocks, the recorded peak covers it and is at most the
    pool's extent, and the extent is within the segment. *)
Theorem allocator_sound seg s :
  0 <= seg -> rtc pool_step (new_allocator seg, []) s -> pool_inv s.
Proof.
  intros Hs H. pose proof (new_pool_inv seg Hs) as Hi. revert Hi.
  induction H as [s|s1 s2 s3 Hstep _ IH]; [done|]. intros Hi. apply IH.
  by eapply pool_step_inv.
Qed.

Lemma allocator_sound_witness :
  pool_inv (mkAlloc [(64, 64)] 256 1000 192 256, [(128, 128); (0, 64)]).
Proof.
  apply (allocator_sound 1000); [lia|].
  eapply rtc_l; [apply (step_allocate _ _ 128 0); [lia | reflexivity]|].
  eapply rtc_l; [apply (step_allocate _ _ 128 128); [lia | reflexivity]|].
  eapply rtc_l; [apply (step_free _ [] 0 128 [(128, 128)])|].
  eapply rtc_l; [apply (step_allocate _ _ 64 0); [lia | reflexivity]|].
  apply rtc_refl.
Defined.

(** An allocation fails exactly when no free block is large enough and
    extending the pool would pass the segment, and a failure leaves the allocator
    untouched. *)
Theorem allocate_fails_iff a live size :
  pool_inv (a, live) ->
  ((allocate size a).1 = None <->
   (forall b, b ∈ _free a -> b.2 < size) /\ _segment_size a < _pool_end a + size) /\
  ((allocate size a).1 = None -> (allocate size a).2 = a).
Proof.
  intros Hi. pose proof (pi_segment _ Hi) as Hseg. simpl in Hseg.
  rewrite <- pop_fit_None. unfold allocate.
  destruct (pop_fit size (_free a)) as [[[bo bs] rest]|].
  - destruct (Z.ltb_spec (_segment_size a) (_pool_end a)); [lia|]. simpl. naive_solver.
  - destruct (Z.ltb_spec (_segment_size a) (_pool_end a + size)); simpl; [naive_solver|].
    split; [|done]. split; [done | lia].
Qed.

Lemma allocate_fails_iff_witness :
  ((allocate 300 (new_allocator 256)).1 = None <->
   (forall b, b ∈ _free (new_allocator 256) -> b.2 < 300) /\
   _segment_size (new_allocator 256) < _pool_end (new_allocator 256) + 300) /\
  ((allocate 300 (new_allocator 256)).1 = None ->
   (allocate 300 (new_allocator 256)).2 = new_allocator 256).
Proof. apply (allocate_fails_iff _ []), new_pool_inv. lia. Defined.

(** Two buffers [x] and [t] of the bundle [k]; [x] is written by the first of
    [steps] that writes it. *)
Definition pool_graph : graph :=
  mkGraph ["i"%string] ["o"%string]
    {["x"%string := mkInfo false false (Some (FixedTiledLayout 0 false));
      "t"%string := mkInfo false false (Some (FixedTiledLayout 1 false));
      "i"%string := mkInfo false false (Some (FixedTiledLayout 2 false));
      "o"%string := mkInfo false false (Some (FixedTiledLayout 3 false))]}.
Definition op (n : string) (reads writes : list string) : snode := Node Computed n reads writes [].
Definition pool_bundle : snode :=
  Node Fused "k" ["i"%string] ["o"%string]
    [op "n0" ["i"%string] ["x"%string]; op "n1" ["x"%string] ["t"%string];
     op "n2" ["t"%string] ["o"%string]].
Definition pool_sizes (_ : string) : Z := 200.
Definition pool_plan : pstate :=
  match plan_bundle pool_graph pool_sizes 1024 (bundle_maps pool_graph [pool_bundle])
          (all_candidates pool_graph [pool_bundle]) pool_bundle with
  | Ok (Some s) => s
  | _ => mkP (new_allocator 0) [] [] 0
  end.

Example pool_plan_slots :
  assigned pool_plan = [("x"%string, (0, 1), (0, 256)); ("t"%string, (1, 2), (256, 256))].
Proof. vm_compute. reflexivity. Qed.

(** Pool offsets never clash: in the plan of a bundle every assigned block
    lies in the pool extent that is reserved for the bundle, the extent fits the
    segment, offsets are aligned to 128 bytes, and two storages whose live ranges
    share a step get disjoint blocks. *)
Theorem pool_offsets_disjoint g device_size max_pool m cands bundle s :
  (forall n, 0 <= device_size n) -> 0 <= max_pool ->
  plan_bundle g device_size max_pool m cands bundle = Ok (Some s) ->
  pairwise no_clash (assigned s) /\ _pool_end (alloc s) <= max_pool /\
  forall x, x ∈ assigned s ->
    0 <= (slot x).1 /\ (slot x).1 + (slot x).2 <= _pool_end (alloc s) /\ (128 | (slot x).1).
Proof.
  intros Hdev Hmax H. destruct (plan_bundle_inv g device_size Hdev max_pool m cands bundle s Hmax H)
    as (cur & [Hp Hg Hseg Hpend Hst Hslot Hcl]).
  split_and!; [done | |].
  - rewrite <- Hseg. apply (pi_segment _ Hp).
  - intros x Hx. by destruct (Hslot x Hx) as (? & _ & ? & ?).
Qed.

Lemma pool_offsets_disjoint_witness :
  pairwise no_clash (assigned pool_plan) /\ _pool_end (alloc pool_plan) <= 1024 /\
  forall x, x ∈ assigned pool_plan ->
    0 <= (slot x).1 /\ (slot x).1 + (slot x).2 <= _pool_end (alloc pool_plan) /\ (128 | (slot x).1).
Proof.
  apply (pool_offsets_disjoint pool_graph pool_sizes 1024 (bundle_maps pool_graph [pool_bundle])
           (all_candidates pool_graph [pool_bundle]) pool_bundle);
    [done | lia | vm_compute; reflexivity].
Defined.

(** C30. No pooled value is overwritten while it is needed: when two storages of a
    bundle are each written once, before they are read, and some step lies between
    accesses of both, their pool blocks are disjoint. *)
Theorem pool_values_safe g device_size max_pool m cands bundle s x y k i1 i2 j1 j2 a1 a2 b1 b2 :
  (forall n, 0 <= device_size n) -> 0 <= max_pool ->
  plan_bundle g device_size max_pool m cands bundle = Ok (Some s) ->
  x ∈ assigned s -> y ∈ assigned s -> x <> y ->
  let steps := live_range_nodes bundle in
  let accesses n i (o : snode) := steps !! i = Some o /\ (n ∈ writes_of o \/ n ∈ reads_of o) in
  written_first steps x.1.1 -> written_first steps y.1.1 ->
  accesses x.1.1 i1 a1 -> accesses x.1.1 i2 a2 -> (i1 <= k <= i2)%nat ->
  accesses y.1.1 j1 b1 -> accesses y.1.1 j2 b2 -> (j1 <= k <= j2)%nat ->
  block_disjoint (slot x) (slot y).
Proof.
  intros Hdev Hmax H Hx Hy Hne steps accesses Hwx Hwy [A1 A1'] [A2 A2'] Hi [B1 B1'] [B2 B2'] Hj.
  destruct (plan_bundle_inv g device_size Hdev max_pool m cands bundle s Hmax H) as (cur & HI).
  destruct (assigned_range _ _ _ _ _ _ _ _ H Hx) as (C & _ & HC).
  destruct (assigned_range _ _ _ _ _ _ _ _ H Hy) as (D & _ & HD).
  destruct x as [[n [xs xe]] xb], y as [[n' [ys ye]] yb]. simpl in *.
  pose proof (live_range_covers g steps C n xs xe i1 a1 HC Hwx A1 A1').
  pose proof (live_range_covers g steps C n xs xe i2 a2 HC Hwx A2 A2').
  pose proof (live_range_covers g steps D n' ys ye j1 b1 HD Hwy B1 B1').
  pose proof (live_range_covers g steps D n' ys ye j2 b2 HD Hwy B2 B2').
  destruct (pairwise_elem _ _ _ _ (li_clash _ _ _ HI) Hx Hy) as [|[Hc|Hc]]; [done | |].
  - apply Hc; unfold range_start, range_end; simpl; lia.
  - apply block_disjoint_sym, Hc; unfold range_start, range_end; simpl; lia.
Qed.

Lemma pool_bundle_written_once n :
  n ∈ ["x"%string; "t"%string] -> written_first (live_range_nodes pool_bundle) n.
Proof.
  intros Hn i j x y Hi Hj Hw Ha. unfold live_range_nodes, pool_bundle in *. simpl in *.
  destruct i as [|[|[|i]]], j as [|[|[|j]]]; simpl in *; simplify_eq/=; set_unfold; lia || naive_solver.
Qed.

Lemma pool_values_safe_witness : block_disjoint (0, 256) (256, 256).
Proof.
  eapply (pool_values_safe pool_graph pool_sizes 1024 (bundle_maps pool_graph [pool_bundle])
    (all_candidates pool_graph [pool_bundle]) pool_bundle pool_plan
    ("x"%string, (0, 1), (0, 256)) ("t"%string, (1, 2), (256, 256)) 1 0 1 1 2);
    [done | lia | vm_compute; reflexivity | | | done
    | apply pool_bundle_written_once; set_solver | apply pool_bundle_written_once; set_solver
    | split; [reflexivity | set_solver] | split; [reflexivity | set_solver] | lia
    | split; [reflexivity | set_solver] | split; [reflexivity | set_solver] | lia].
  - rewrite pool_plan_slots. list_mem.
  - rewrite pool_plan_slots. list_mem.
Defined.

(** A pooled storage belongs to one bundle: every read and every computed write
    of any name that shares a candidate's allocation happens in the candidate's
    own bundle, no fallback kernel reads it, and no such name is a graph input or
    output. *)
Theorem candidate_scoped g nodes c :
  (forall n b, get_buffer g !! n = Some b -> is_symbol b = true -> maybe_layout b = None) ->
  c ∈ all_candidates g nodes ->
  exists a w, _alloc_id g c = Some a /\
    forall bundle n x, bundle ∈ nodes -> n ∈ iter_all_nodes bundle -> _alloc_id g x = Some a ->
      x ∉ io_names g /\
      (x ∈ reads_of n -> is_kernel_arg n = false /\ name_of bundle = w) /\
      (x ∈ writes_of n -> is_kernel_arg n = false -> name_of bundle = w).
Proof.
  intros Hsym Hc. destruct (candidate_facts g nodes c Hc) as (a & w & Ha & _ & Hio & Hfb & Hw & Hr).
  exists a, w. split; [done|]. intros bundle n x Hb Hn Hx.
  assert (x ∉ io_names g) as Hnio by (intros Hin; by apply Hio, (io_alloc g x)).
  unfold io_names in Hnio. rewrite not_elem_of_app in Hnio. destruct Hnio as [Hni Hno].
  split; [unfold io_names; rewrite not_elem_of_app; done|].
  assert (is_kernel_arg n = false -> x ∈ reads_of n -> name_of bundle = w) as Hread.
  { intros Hk Hin. destruct (accesses_recorded g nodes bundle n Hb Hn Hk) as [_ H].
    specialize (H x a Hin Hni Hx). apply Hr in H. by apply elem_of_singleton in H. }
  split.
  - intros Hin. destruct (is_kernel_arg n) eqn:Hk; [|auto]. exfalso. apply Hfb.
    apply list_elem_of_omap. exists x. split; [|done]. apply list_elem_of_join.
    exists (reads_of n). split; [done|]. apply list_elem_of_fmap_2, list_elem_of_filter.
    split; [done|]. apply list_elem_of_join. exists (iter_all_nodes bundle).
    split; [done | by apply list_elem_of_fmap_2].
  - intros Hin Hk. destruct (accesses_recorded g nodes bundle n Hb Hn Hk) as [H _].
    specialize (H x a Hin Hno Hx). rewrite Hw in H. by apply elem_of_singleton in H.
Qed.

Lemma candidate_scoped_witness :
  exists a w, _alloc_id pool_graph "x" = Some a /\
    forall bundle n x, bundle ∈ [pool_bundle] -> n ∈ iter_all_nodes bundle ->
      _alloc_id pool_graph x = Some a ->
      x ∉ io_names pool_graph /\
      (x ∈ reads_of n -> is_kernel_arg n = false /\ name_of bundle = w) /\
      (x ∈ writes_of n -> is_kernel_arg n = false -> name_of bundle = w).
Proof.
  apply (candidate_scoped pool_graph [pool_bundle] "x"%string).
  - intros n b Hb. assert (map_Forall (fun _ b => is_symbol b = true -> maybe_layout b = None)
      (get_buffer pool_graph)) as Hall by (apply (bool_decide_unpack _); vm_compute; exact I).
    by apply (Hall n b).
  - apply (bool_decide_unpack _). vm_compute. exact I.
Defined.

(** The pass never fails: every bundle of every graph gets a plan, whatever
    did not fit being left on standalone HBM. *)
Theorem hbm_pool_planning_total g device_size max_pool nodes :
  exists plans, hbm_pool_planning g device_size max_pool nodes = Ok plans /\
    fst <$> plans = name_of <$> nodes.
Proof.
  unfold hbm_pool_planning.
  destruct (py_map_total (fun b => s ← plan_bundle g device_size max_pool (bundle_maps g nodes)
    (all_candidates g nodes) b; Ok (name_of b, s)) nodes) as [plans Hp].
  - intros b _. destruct (plan_bundle_total g device_size max_pool nodes b) as [o ->]. simpl. eauto.
  - exists plans. split; [done|]. apply py_map_Ok in Hp.
    induction Hp as [|b p bs ps Hb _ IH]; csimpl; [done|]. f_equal; [|done].
    apply bind_Ok in Hb as (s & _ & Hb). by injection Hb as <-.
Qed.

(** [x] is initialised at step 0 and rewritten in place at step 3; [t] lives in
    between. *)
Definition rewrite_bundle : snode :=
  Node Fused "k" ["i"%string] ["o"%string]
    [op "n0" ["i"%string] ["x"%string]; op "n1" ["i"%string] ["t"%string];
     op "n2" ["t"%string] ["o"%string]; op "n3" ["x"%string] ["x"%string];
     op "n4" ["x"%string] ["o"%string]].

(** A buffer rewritten inside its bundle is not protected: the live range starts
    at the last write, so the value written at step 0 and read at step 3 shares
    its block with a buffer written at step 1. *)
Theorem pool_rewrite_clobbers :
  assigned <$> (match plan_bundle pool_graph pool_sizes 1024
                        (bundle_maps pool_graph [rewrite_bundle])
                        (all_candidates pool_graph [rewrite_bundle]) rewrite_bundle with
                | Ok o => o | Raise _ => None
                end)
  = Some [("t"%string, (1, 2), (0, 256)); ("x"%string, (3, 4), (0, 256))].
Proof. vm_compute. reflexivity. Qed.
