(* ===== verification/SlidingWindow.v ===== *)
(** * Sliding-window placement ([sliding_window_plan.py])

    Where each block of query rows reads its slice of the KV cache.  The module is
    pure integer arithmetic; it is translated function by function, with Python's
    floor division.  The messages of the two checking functions are the
    constructors of [reason], one per [return], in the order of the code. *)

From S2P Require Import Prelude.

Definition STICK : Z := 64.
Definition MAX_QUERY_BLOCK : Z := 512.

Definition default_buffer_origin (seqlen_kv cache_capacity : Z) : Z :=
  Z.max 0 (seqlen_kv - cache_capacity).

Definition _floor_stick (value : Z) : Z := value / STICK * STICK.
Definition _ceil_stick (value : Z) : Z := - (- value / STICK) * STICK.

Record SlidingWindowPlan := mkPlan {
  seqlen_q : Z;
  seqlen_kv : Z;
  window_size : Z;
  q_block : Z;
  num_q_blocks : Z;
  buffer_width : Z;
  q_kv_offset : Z;
  is_causal : bool;
  cache_capacity : Z;
  buffer_origin : Z
}.

Definition block_q_range (p : SlidingWindowPlan) (qi : Z) : Z * Z :=
  let q_start := qi * q_block p in
  (q_start, Z.min (seqlen_q p) (q_start + q_block p)).

Definition row_window (p : SlidingWindowPlan) (q_index : Z) : Z * Z :=
  let coord := q_kv_offset p + q_index in
  (Z.max 0 (coord - window_size p + 1), Z.min (seqlen_kv p) (coord + 1)).

Definition read_start (p : SlidingWindowPlan) (qi : Z) : Z :=
  let q_start := (block_q_range p qi).1 in
  let first_coord := q_kv_offset p + q_start in
  let window_start_logical := Z.max 0 (first_coord - window_size p + 1) in
  let physical_origin := _floor_stick (window_start_logical - buffer_origin p) in
  Z.min physical_origin (cache_capacity p - buffer_width p).

Definition read_start_logical (p : SlidingWindowPlan) (qi : Z) : Z :=
  read_start p qi + buffer_origin p.

(** [range(lo, hi)] *)
Definition zrange (lo hi : Z) : list Z :=
  (fun i => lo + Z.of_nat i) <$> seq 0 (Z.to_nat (hi - lo)).

Definition block_is_fully_attended (p : SlidingWindowPlan) (qi : Z) : bool :=
  let start := read_start_logical p qi in
  let stop := start + buffer_width p in
  let '(q_start, q_end) := block_q_range p qi in
  forallb (fun q_index => ((row_window p q_index).1 <=? start) && (stop <=? (row_window p q_index).2))
    (zrange q_start q_end).

(** Why a read or a shape is refused. *)
Inductive reason : Set :=
  | NegativeReadStart | NonPositiveWidth | PastTheCache | HeadsNotMultiple | ShapeMismatch
  | Bidirectional | DegenerateLengths | RaggedBlocks | NonPositiveWindow | QueryLongerThanCache
  | DegenerateCapacity | CapacityNotStick | OriginTooSmall | OriginNoWrittenRow
  | CapacityTooNarrow | OriginOutOfReach.

#[export] Instance reason_eq_dec : EqDecision reason.
Proof. solve_decision. Defined.

Definition check_window_read (read_start buffer_width cache_capacity num_heads num_kv_heads : Z)
    (key_shape value_shape : list Z) : option reason :=
  if read_start <? 0 then Some NegativeReadStart
  else if buffer_width <=? 0 then Some NonPositiveWidth
  else if cache_capacity <? read_start + buffer_width then Some PastTheCache
  else if (num_kv_heads <=? 0) || negb (num_heads mod num_kv_heads =? 0) then Some HeadsNotMultiple
  else if negb (bool_decide (key_shape = value_shape)) then Some ShapeMismatch
  else None.

(** The span one block must cover, in buffer-relative coordinates. *)
Definition block_span (seqlen_q window_size q_block q_kv_offset buffer_origin qi : Z) : Z :=
  let q_start := qi * q_block in
  let q_end := Z.min seqlen_q (q_start + q_block) in
  let first_coord := q_kv_offset + q_start in
  let last_coord := q_kv_offset + q_end - 1 in
  let window_start_logical := Z.max 0 (first_coord - window_size + 1) in
  let physical_start := _floor_stick (window_start_logical - buffer_origin) in
  let physical_end := last_coord - buffer_origin + 1 in
  physical_end - physical_start.

Definition _required_width (seqlen_q window_size q_block q_kv_offset buffer_origin : Z) : Z :=
  let widest :=
    foldl (fun widest qi =>
      Z.max widest (block_span seqlen_q window_size q_block q_kv_offset buffer_origin qi))
      0 (zrange 0 (- (- seqlen_q / q_block))) in
  _ceil_stick widest.

(** [range(largest_candidate, STICK - 1, -STICK)] *)
Definition candidates (largest_candidate : Z) : list Z :=
  (fun k => largest_candidate - Z.of_nat k * STICK)
    <$> seq 0 (Z.to_nat (largest_candidate / STICK)).

Definition query_blocking (seqlen_q max_query_block : Z) : Z * Z :=
  if seqlen_q =? 1 then (1, 1)
  else
    let padded_seqlen_q := _ceil_stick seqlen_q in
    let max_query_block := Z.min max_query_block MAX_QUERY_BLOCK in
    let largest_candidate := Z.min padded_seqlen_q max_query_block in
    match list_find (fun q_block => padded_seqlen_q mod q_block = 0) (candidates largest_candidate) with
    | Some (_, q_block) => (q_block, padded_seqlen_q)
    | None => (STICK, padded_seqlen_q)
    end.

(** The effective capacity and origin: the defaults of the two optional arguments. *)
Definition effective (seqlen_kv : Z) (cache_capacity buffer_origin : option Z) : Z * Z :=
  let cap := default seqlen_kv cache_capacity in
  (cap, default (default_buffer_origin seqlen_kv cap) buffer_origin).

Definition rejection_reason (seqlen_q seqlen_kv window_size : Z) (is_causal : bool) (q_block : Z)
    (cache_capacity buffer_origin : option Z) : option reason :=
  if negb is_causal then Some Bidirectional
  else if (seqlen_q <=? 0) || (seqlen_kv <=? 0) || (q_block <=? 0) then Some DegenerateLengths
  else if negb (seqlen_q mod q_block =? 0) then Some RaggedBlocks
  else if window_size <=? 0 then Some NonPositiveWindow
  else if seqlen_kv - seqlen_q <? 0 then Some QueryLongerThanCache
  else
    let '(effective_capacity, origin) := effective seqlen_kv cache_capacity buffer_origin in
    if effective_capacity <=? 0 then Some DegenerateCapacity
    else if negb (effective_capacity mod STICK =? 0) then Some CapacityNotStick
    else
      let smallest_origin := default_buffer_origin seqlen_kv effective_capacity in
      if origin <? smallest_origin then Some OriginTooSmall
      else if seqlen_kv <=? origin then Some OriginNoWrittenRow
      else
        let q_kv_offset := seqlen_kv - seqlen_q in
        let width := _required_width seqlen_q window_size q_block q_kv_offset origin in
        if effective_capacity <? width then Some CapacityTooNarrow
        else if Z.max 0 (q_kv_offset - window_size + 1) <? origin then Some OriginOutOfReach
        else None.

Definition plan_sliding_window (seqlen_q seqlen_kv window_size : Z) (is_causal : bool) (q_block : Z)
    (cache_capacity buffer_origin : option Z) : option SlidingWindowPlan :=
  match rejection_reason seqlen_q seqlen_kv window_size is_causal q_block cache_capacity
          buffer_origin with
  | Some _ => None
  | None =>
      let '(cap, origin) := effective seqlen_kv cache_capacity buffer_origin in
      let q_kv_offset := seqlen_kv - seqlen_q in
      Some (mkPlan seqlen_q seqlen_kv window_size q_block (- (- seqlen_q / q_block))
              (_required_width seqlen_q window_size q_block q_kv_offset origin)
              q_kv_offset is_causal cap origin)
  end.

(** ** Stick rounding *)

Lemma floor_stick_spec v :
  _floor_stick v <= v < _floor_stick v + STICK /\ (STICK | _floor_stick v).
Proof.
  unfold _floor_stick, STICK. pose proof (Z.div_mod v 64). pose proof (Z.mod_pos_bound v 64).
  split; [lia | apply Z.divide_factor_r].
Qed.

Lemma ceil_stick_spec v :
  v <= _ceil_stick v < v + STICK /\ (STICK | _ceil_stick v).
Proof.
  unfold _ceil_stick. split; [unfold STICK; apply neg_div_neg_spec; lia | apply Z.divide_factor_r].
Qed.

Lemma floor_stick_mono a b : a <= b -> _floor_stick a <= _floor_stick b.
Proof.
  intros H. unfold _floor_stick, STICK. apply Z.mul_le_mono_nonneg_r; [lia|].
  apply Z.div_le_mono; lia.
Qed.

Lemma zrange_elem lo hi x : x ∈ zrange lo hi <-> lo <= x < hi.
Proof.
  unfold zrange. rewrite list_elem_of_fmap. setoid_rewrite elem_of_seq. split.
  - intros (i & -> & Hi). lia.
  - intros Hx. exists (Z.to_nat (x - lo)). lia.
Qed.

(** The running maximum of a loop bounds every value it saw. *)
Lemma foldl_max_bound {A} (f : A -> Z) l : forall w x,
  w <= foldl (fun w y => Z.max w (f y)) w l /\
  (x ∈ l -> f x <= foldl (fun w y => Z.max w (f y)) w l).
Proof.
  induction l as [|y l IH]; intros w x; simpl; [split; [lia | by intros ?%elem_of_nil]|].
  destruct (IH (Z.max w (f y)) x) as [H1 H2]. split; [lia|].
  intros [-> | Hx]%elem_of_cons; [lia | auto].
Qed.

Lemma foldl_max_le {A} (f : A -> Z) l b : forall w,
  w <= b -> (forall x, x ∈ l -> f x <= b) -> foldl (fun w y => Z.max w (f y)) w l <= b.
Proof.
  induction l as [|y l IH]; intros w Hw H; simpl; [done|]. apply IH.
  - specialize (H y ltac:(list_mem)). lia.
  - intros x Hx. apply H. list_mem.
Qed.

(** ** Accepted shapes *)

(** What [rejection_reason] guarantees when it returns [None]. *)
Record accepted (sq skv w qb cap o : Z) : Prop := {
  ac_lengths : 0 < sq /\ 0 < skv /\ 0 < qb /\ 0 < w;
  ac_blocks : (qb | sq);
  ac_query : sq <= skv;
  ac_capacity : 0 < cap /\ (STICK | cap);
  ac_origin : Z.max 0 (skv - cap) <= o < skv;
  ac_width : _required_width sq w qb (skv - sq) o <= cap;
  ac_reach : o <= Z.max 0 (skv - sq - w + 1)
}.

Lemma rejection_None sq skv w c qb cap o :
  rejection_reason sq skv w c qb cap o = None ->
  c = true /\ accepted sq skv w qb (effective skv cap o).1 (effective skv cap o).2.
Proof.
  unfold rejection_reason. destruct (effective skv cap o) as [ec eo]. cbn [fst snd].
  destruct c; simpl; [|done].
  destruct ((sq <=? 0) || (skv <=? 0) || (qb <=? 0)) eqn:E1; [done|].
  destruct (Z.eqb_spec (sq mod qb) 0) as [E2|]; simpl; [|done].
  destruct (Z.leb_spec w 0); [done|]. destruct (Z.ltb_spec (skv - sq) 0); [done|].
  destruct (Z.leb_spec ec 0); [done|].
  destruct (Z.eqb_spec (ec mod STICK) 0) as [E3|]; simpl; [|done].
  destruct (Z.ltb_spec eo (default_buffer_origin skv ec)) as [|E4]; [done|].
  destruct (Z.leb_spec skv eo); [done|].
  destruct (Z.ltb_spec ec (_required_width sq w qb (skv - sq) eo)); [done|].
  destruct (Z.ltb_spec (Z.max 0 (skv - sq - w + 1)) eo); [done|]. intros _.
  split; [done|]. unfold default_buffer_origin in E4.
  split; [lia | | lia | | lia | done | lia].
  - apply Z.mod_divide; [lia | done].
  - split; [lia|]. apply Z.mod_divide; done.
Qed.

Lemma plan_Some sq skv w c qb cap o p :
  plan_sliding_window sq skv w c qb cap o = Some p ->
  accepted sq skv w qb (cache_capacity p) (buffer_origin p) /\
  p = mkPlan sq skv w qb (- (- sq / qb))
        (_required_width sq w qb (skv - sq) (buffer_origin p)) (skv - sq) true
        (cache_capacity p) (buffer_origin p).
Proof.
  unfold plan_sliding_window. destruct (rejection_reason sq skv w c qb cap o) eqn:E; [done|].
  apply rejection_None in E as [-> E]. destruct (effective skv cap o) as [ec eo].
  by intros [= <-].
Qed.

Section accepted_plans.
Context (sq skv w qb cap o : Z) (Hac : accepted sq skv w qb cap o).
Let width := _required_width sq w qb (skv - sq) o.
Let p := mkPlan sq skv w qb (- (- sq / qb)) width (skv - sq) true cap o.

Lemma width_facts : (STICK | width) /\
  forall qi, 0 <= qi < - (- sq / qb) -> block_span sq w qb (skv - sq) o qi <= width.
Proof.
  unfold width, _required_width. split; [apply ceil_stick_spec|]. intros qi Hqi.
  destruct (ceil_stick_spec (foldl (fun widest qi => Z.max widest (block_span sq w qb (skv - sq) o qi))
    0 (zrange 0 (- (- sq / qb))))) as [[H _] _]. etrans; [|exact H].
  apply (foldl_max_bound (block_span sq w qb (skv - sq) o)). by apply zrange_elem.
Qed.

(** The window start of a block, before and after flooring. *)
Definition window_start (qi : Z) : Z := Z.max 0 (skv - sq + qi * qb - w + 1).

Lemma read_start_eq qi :
  read_start p qi = Z.min (_floor_stick (window_start qi - o)) (cap - width).
Proof. done. Qed.

Lemma read_start_bounds qi :
  0 <= qi -> 0 <= read_start p qi /\ read_start p qi + width <= cap /\ (STICK | read_start p qi).
Proof.
  intros Hqi. rewrite read_start_eq. destruct Hac as [Hl _ _ [Hc1 Hc2] Ho Hw Hr].
  fold width in Hw. destruct width_facts as [Hwd _].
  assert (0 <= _floor_stick (window_start qi - o)) as Hf.
  { change 0 with (_floor_stick 0). apply floor_stick_mono. unfold window_start. nia. }
  destruct (floor_stick_spec (window_start qi - o)) as [_ Hd].
  split; [lia|]. split; [lia|].
  destruct (Z.min_spec (_floor_stick (window_start qi - o)) (cap - width)) as [[_ ->]|[_ ->]];
    [done | by apply Z.divide_sub_r].
Qed.

(** Every row's window lies in the columns its block reads. *)
Lemma window_inside qi q :
  0 <= qi < num_q_blocks p -> (block_q_range p qi).1 <= q < (block_q_range p qi).2 ->
  read_start_logical p qi <= (row_window p q).1 /\
  (row_window p q).2 <= read_start_logical p qi + width.
Proof.
  intros Hqi Hq. unfold read_start_logical. rewrite read_start_eq. simpl in *.
  destruct Hac as [Hl _ Hsq _ Ho Hw _]. destruct width_facts as [_ Hspan].
  specialize (Hspan qi Hqi). unfold block_span in Hspan. simpl in Hspan.
  replace (Z.max 0 (skv - sq + qi * qb - w + 1)) with (window_start qi) in Hspan by done.
  destruct (floor_stick_spec (window_start qi - o)) as [Hf _].
  assert (window_start qi <= Z.max 0 (skv - sq + q - w + 1)) by (unfold window_start; lia).
  lia.
Qed.
End accepted_plans.

(** ** The defaults *)

(** With the default capacity and origin a block never needs more than the cache. *)
Lemma default_width sq skv w qb :
  0 < sq -> 0 < qb -> 0 < w -> sq <= skv -> (STICK | skv) ->
  _required_width sq w qb (skv - sq) 0 <= skv.
Proof.
  intros Hsq Hqb Hw Hle [k Hk]. unfold _required_width.
  assert (foldl (fun widest qi => Z.max widest (block_span sq w qb (skv - sq) 0 qi)) 0
            (zrange 0 (- (- sq / qb))) <= skv) as Hle'.
  { apply (foldl_max_le (block_span sq w qb (skv - sq) 0)); [lia|].
    intros qi Hqi%zrange_elem. unfold block_span.
    assert (0 <= _floor_stick (Z.max 0 (skv - sq + qi * qb - w + 1) - 0)).
    { change 0 with (_floor_stick 0) at 1. apply floor_stick_mono. lia. }
    lia. }
  set (m := foldl _ _ _) in *. destruct (ceil_stick_spec m) as [_ [j Hj]].
  destruct (ceil_stick_spec m) as [[_ Hlt] _]. rewrite Hj in *. unfold STICK in *. nia.
Qed.

(** ** Query blocking *)

Lemma candidates_elem n x :
  (STICK | n) -> (x ∈ candidates n <-> (STICK | x) /\ 0 < x <= n).
Proof.
  intros [m Hm]. unfold candidates, STICK in *. rewrite list_elem_of_fmap.
  setoid_rewrite elem_of_seq. subst n. rewrite Z.div_mul by lia. split.
  - intros (k & -> & Hk). split; [exists (m - Z.of_nat k); lia | lia].
  - intros [[j ->] Hj]. exists (Z.to_nat (m - j)). lia.
Qed.

(** The candidates come largest first. *)
Lemma candidates_decreasing n i j x y :
  candidates n !! i = Some x -> candidates n !! j = Some y -> (i < j)%nat -> y < x.
Proof.
  unfold candidates. rewrite !list_lookup_fmap. intros Hx Hy Hij.
  destruct (seq _ _ !! i) as [a|] eqn:Ha; [|done]. destruct (seq _ _ !! j) as [b|] eqn:Hb; [|done].
  apply lookup_seq in Ha as [-> _]. apply lookup_seq in Hb as [-> _]. simpl in *.
  injection Hx as <-. injection Hy as <-. unfold STICK. lia.
Qed.

(** ** Claims *)

(** Every query row's window lies inside the buffer its block reads: for an
    accepted plan, a block and a row of that block, the row's attended columns are
    within the block's read, in logical coordinates. *)
Theorem plan_windows_covered sq skv w c qb cap o p qi q :
  plan_sliding_window sq skv w c qb cap o = Some p ->
  0 <= qi < num_q_blocks p -> (block_q_range p qi).1 <= q < (block_q_range p qi).2 ->
  read_start_logical p qi <= (row_window p q).1 /\
  (row_window p q).2 <= read_start_logical p qi + buffer_width p.
Proof.
  intros Hp Hqi Hq. apply plan_Some in Hp as [Hac Heq]. rewrite Heq in Hqi, Hq |- *.
  by apply window_inside.
Qed.

(** A rolled cache of 192 rows holding positions 61.. of 253, window 100, one
    64-row block. *)
Definition rolled_plan : SlidingWindowPlan := mkPlan 64 253 100 64 1 192 189 true 192 61.

Lemma plan_windows_covered_witness :
  read_start_logical rolled_plan 0 <= (row_window rolled_plan 10).1 /\
  (row_window rolled_plan 10).2 <= read_start_logical rolled_plan 0 + buffer_width rolled_plan.
Proof.
  apply (plan_windows_covered 64 253 100 true 64 (Some 192) None rolled_plan);
    [vm_compute; reflexivity | vm_compute; split; congruence | vm_compute; split; congruence].
Defined.

(** C37. Every physical read of an accepted plan is in bounds: it starts at a
    non-negative stick boundary, ends inside the allocation, and passes
    [check_window_read] for any matching key and value shapes and whole head
    groups. *)
Theorem plan_reads_in_bounds sq skv w c qb cap o p qi heads kv_heads shape :
  plan_sliding_window sq skv w c qb cap o = Some p -> 0 <= qi < num_q_blocks p ->
  0 < kv_heads -> (kv_heads | heads) ->
  (STICK | read_start p qi) /\
  check_window_read (read_start p qi) (buffer_width p) (cache_capacity p) heads kv_heads shape shape
  = None.
Proof.
  intros Hp Hqi Hk Hh. apply plan_Some in Hp as [Hac Heq].
  destruct (read_start_bounds _ _ _ _ _ _ Hac qi) as (H0 & Hc & Hd); [lia|].
  destruct (window_inside _ _ _ _ _ _ Hac qi (qi * qb)) as [W1 W2].
  { rewrite Heq in Hqi. simpl in Hqi |- *. done. }
  { pose proof (ac_lengths _ _ _ _ _ _ Hac). rewrite Heq in Hqi. simpl in Hqi |- *.
    destruct (ac_blocks _ _ _ _ _ _ Hac) as [k Hk']. rewrite Hk' in Hqi |- *.
    rewrite <- Z.mul_opp_l, Z.div_mul in Hqi by lia. nia. }
  rewrite <- Heq in H0, Hc, Hd, W1, W2. split; [done|]. unfold check_window_read.
  assert (buffer_width p = _required_width sq w qb (skv - sq) (buffer_origin p)) as Hw
    by (by rewrite Heq at 1).
  rewrite <- Hw in Hc, W2.
  assert ((row_window p (qi * qb)).1 < (row_window p (qi * qb)).2) as Hrow.
  { pose proof (ac_lengths _ _ _ _ _ _ Hac). pose proof (ac_query _ _ _ _ _ _ Hac).
    rewrite Heq. rewrite Heq in Hqi. simpl in Hqi |- *.
    destruct (ac_blocks _ _ _ _ _ _ Hac) as [k Hk']. rewrite Hk' in *.
    rewrite <- Z.mul_opp_l, Z.div_mul in Hqi by lia. nia. }
  rewrite (proj2 (Z.mod_divide heads kv_heads ltac:(lia)) Hh). zcases. simpl.
  by rewrite bool_decide_eq_true_2.
Qed.

Lemma plan_reads_in_bounds_witness :
  (STICK | read_start rolled_plan 0) /\
  check_window_read (read_start rolled_plan 0) 192 192 8 2 [1; 2; 192; 64] [1; 2; 192; 64] = None.
Proof.
  apply (plan_reads_in_bounds 64 253 100 true 64 (Some 192) None rolled_plan 0 8 2);
    [vm_compute; reflexivity | vm_compute; split; congruence | lia | by exists 4].
Defined.

(** With capacity and origin both defaulted the late checks never fire: a causal
    shape of positive lengths, whole blocks, a query no longer than a stick-aligned
    cache is always accepted. *)
Theorem default_shape_accepted sq skv w qb :
  0 < sq -> 0 < qb -> (qb | sq) -> 0 < w -> sq <= skv -> (STICK | skv) ->
  rejection_reason sq skv w true qb None None = None.
Proof.
  intros Hsq Hqb Hd Hw Hle Hst. pose proof (default_width sq skv w qb Hsq Hqb Hw Hle Hst) as Hwd.
  unfold rejection_reason, effective, default_buffer_origin. cbn [negb default].
  replace (Z.max 0 (skv - skv)) with 0 by lia.
  rewrite (proj2 (Z.mod_divide sq qb ltac:(lia)) Hd).
  rewrite (proj2 (Z.mod_divide skv STICK ltac:(done)) Hst).
  by zcases.
Qed.

Lemma default_shape_accepted_witness : rejection_reason 128 256 100 true 64 None None = None.
Proof.
  apply (default_shape_accepted 128 256 100 64); try lia; [by exists 2 | by exists 4].
Defined.

(** A block whose mask is skipped masks nothing: [block_is_fully_attended] holds
    exactly when every row of the block attends to every column the block reads. *)
Theorem fully_attended_iff p qi :
  0 < buffer_width p ->
  (block_is_fully_attended p qi = true <->
   forall q col, (block_q_range p qi).1 <= q < (block_q_range p qi).2 ->
     read_start_logical p qi <= col < read_start_logical p qi + buffer_width p ->
     (row_window p q).1 <= col < (row_window p q).2).
Proof.
  intros Hw. unfold block_is_fully_attended.
  destruct (block_q_range p qi) as [qs qe]. rewrite forallb_forall. split.
  - intros H q col Hq Hc. specialize (H q). rewrite <- list_elem_of_In, zrange_elem in H.
    specialize (H Hq). lia.
  - intros H q Hq%list_elem_of_In%zrange_elem.
    pose proof (H q (read_start_logical p qi) Hq ltac:(lia)) as H1.
    pose proof (H q (read_start_logical p qi + buffer_width p - 1) Hq ltac:(lia)) as H2.
    apply andb_true_iff. lia.
Qed.

Lemma fully_attended_iff_witness :
  block_is_fully_attended rolled_plan 0 = true <->
  forall q col, (block_q_range rolled_plan 0).1 <= q < (block_q_range rolled_plan 0).2 ->
    read_start_logical rolled_plan 0 <= col < read_start_logical rolled_plan 0 + buffer_width rolled_plan ->
    (row_window rolled_plan q).1 <= col < (row_window rolled_plan q).2.
Proof. apply (fully_attended_iff rolled_plan 0). reflexivity. Defined.

(** Query blocking picks the largest stick-aligned block: for more than one row
    the padded length is the least stick multiple that holds the query, and the
    block is the largest stick multiple up to the (clamped) limit that divides
    it. *)
Theorem query_blocking_largest sq limit_ :
  1 < sq -> STICK <= limit_ -> (STICK | limit_) ->
  let '(qb, padded) := query_blocking sq limit_ in
  sq <= padded < sq + STICK /\ (STICK | padded) /\
  (STICK | qb) /\ 0 < qb <= Z.min limit_ MAX_QUERY_BLOCK /\ (qb | padded) /\
  forall b, (STICK | b) -> 0 < b <= Z.min limit_ MAX_QUERY_BLOCK -> (b | padded) -> b <= qb.
Proof.
  intros Hsq Hl Hd. unfold query_blocking. rewrite (proj2 (Z.eqb_neq sq 1)) by lia.
  destruct (ceil_stick_spec sq) as [Hp Hpd]. set (padded := _ceil_stick sq) in *.
  set (top := Z.min padded (Z.min limit_ MAX_QUERY_BLOCK)).
  assert (STICK | top) as Htd.
  { unfold top, MAX_QUERY_BLOCK. assert (STICK | 512) by (by exists 8).
    destruct (Z.min_spec padded (Z.min limit_ 512)) as [[_ ->]|[_ ->]]; [done|].
    by destruct (Z.min_spec limit_ 512) as [[_ ->]|[_ ->]]. }
  assert (STICK <= top) as Htop.
  { destruct Hpd as [k Hk]. unfold top, STICK, MAX_QUERY_BLOCK in *. nia. }
  assert (forall b, (STICK | b) -> 0 < b <= Z.min limit_ MAX_QUERY_BLOCK -> (b | padded) ->
            b ∈ candidates top /\ padded mod b = 0) as Hcand.
  { intros b Hb1 Hb2 Hb3. split; [|apply Z.mod_divide; [lia | done]].
    apply candidates_elem; [done|]. split; [done|].
    apply Z.divide_pos_le in Hb3; unfold top; lia. }
  destruct (list_find _ (candidates top)) as [[i qb]|] eqn:E.
  - apply list_find_Some in E as (Hi & Hm & Hmin).
    pose proof Hi as Hin%list_elem_of_lookup_2. apply candidates_elem in Hin as [Hb1 Hb2]; [|done].
    split_and!; auto; try lia; [apply Z.mod_divide; [lia | done]|].
    intros b Hb Hr Hdv. destruct (Hcand b Hb Hr Hdv) as [(j & Hj)%list_elem_of_lookup Hmod].
    destruct (lt_eq_lt_dec i j) as [[Hij | ->] | Hji].
    + pose proof (candidates_decreasing _ _ _ _ _ Hi Hj Hij). lia.
    + replace b with qb by congruence. lia.
    + by destruct (Hmin j b Hj Hji).
  - exfalso. apply list_find_None in E. rewrite Forall_forall in E.
    destruct (Hcand STICK) as [Hin Hmod]; [done | unfold STICK in *; unfold MAX_QUERY_BLOCK; lia | done|].
    by apply (E STICK Hin).
Qed.

Lemma query_blocking_largest_witness :
  let '(qb, padded) := query_blocking 1000 512 in
  1000 <= padded < 1000 + STICK /\ (STICK | padded) /\
  (STICK | qb) /\ 0 < qb <= Z.min 512 MAX_QUERY_BLOCK /\ (qb | padded) /\
  forall b, (STICK | b) -> 0 < b <= Z.min 512 MAX_QUERY_BLOCK -> (b | padded) -> b <= qb.
Proof. apply (query_blocking_largest 1000 512); [lia | unfold STICK; lia | by exists 8]. Defined.
