(* ===== verification/Fusion.v ===== *)
(** * Kernel fusion ([fusion.py])

    After scheduling, contiguous runs of Spyre compute nodes become one kernel (one
    SuperDSC bundle); no-ops are emitted ahead of the run they interrupt, everything
    else is a boundary.  [estimate_bundles] predicts the grouping from IR operations,
    through the same [group_contiguous_fusable].

    A scheduler node is what the pass asks of it: its class, its device and its IR
    operation; an IR operation likewise.  The configuration flag
    [bundle_symbolic_args] is an argument. *)

From S2P Require Import Prelude.

(** ** Grouping *)

Section grouping.
Context {A : Type} (is_fusable is_hoistable : A -> bool).

(** The loop of [group_contiguous_fusable]: the state is [(groups, run)]. *)
Definition group_step (s : list (list A) * list A) (item : A) : list (list A) * list A :=
  let '(groups, run) := s in
  if is_fusable item then (groups, run ++ [item])
  else
    match run with
    | [] => (groups ++ [[item]], [])
    | _ => if is_hoistable item then (groups ++ [[item]], run) else (groups ++ [run] ++ [[item]], [])
    end.

Definition close_run (s : list (list A) * list A) : list (list A) :=
  match s.2 with [] => s.1 | run => s.1 ++ [run] end.

Definition group_contiguous_fusable (items : list A) : list (list A) := close_run (foldl group_step ([], []) items).

(** An entry no run continues past. *)
Definition boundary (x : A) : bool := negb (is_fusable x) && negb (is_hoistable x).

Definition nops (l : list A) : list A := filter (fun x => is_fusable x = false) l.
Definition fused (l : list A) : list A := filter (fun x => is_fusable x = true) l.

(** What a stretch without boundaries becomes: its no-ops, then one run. *)
Definition stretch (l : list A) : list (list A) :=
  ((fun x => [x]) <$> nops l) ++ match fused l with [] => [] | run => [run] end.

Lemma group_steps_stretch l : forall groups run,
  Forall (fun x => boundary x = false) l -> foldl group_step (groups, run) l = (groups ++ ((fun x => [x]) <$> nops l), run ++ fused l).
Proof.
  induction l as [|x l IH]; intros groups run Hl; cbn [foldl]; [by rewrite !app_nil_r|]. apply Forall_cons in Hl as [Hx Hl].
  unfold group_step at 2. unfold nops, fused in *. rewrite !filter_cons. unfold boundary in Hx. destruct (is_fusable x) eqn:Ef.
  - rewrite decide_False, decide_True by done. rewrite IH by done. by rewrite <- app_assoc.
  - rewrite decide_True, decide_False by done. destruct (is_hoistable x); [|done].
    destruct run as [|y run]; rewrite IH by done; rewrite fmap_cons, <- app_assoc; done.
Qed.

Lemma group_no_boundary l : Forall (fun x => boundary x = false) l -> group_contiguous_fusable l = stretch l.
Proof.
  intros Hl. unfold group_contiguous_fusable. rewrite group_steps_stretch by done. unfold close_run, stretch. cbn [fst snd app].
  destruct (fused l); [by rewrite app_nil_r | done].
Qed.

(** Groups already closed stay in front. *)
Lemma group_steps_front l : forall groups run,
  foldl group_step (groups, run) l = (groups ++ (foldl group_step ([], run) l).1, (foldl group_step ([], run) l).2).
Proof.
  induction l as [|x l IH] using rev_ind; intros groups run; [cbn; by rewrite app_nil_r|]. rewrite !foldl_app. cbn [foldl].
  rewrite IH. destruct (foldl group_step ([], run) l) as [g r]. cbn [fst snd]. unfold group_step.
  destruct (is_fusable x), r, (is_hoistable x); cbn [fst snd]; by rewrite ?app_assoc.
Qed.

Lemma group_boundary l x r :
  boundary x = true -> group_contiguous_fusable (l ++ x :: r) = group_contiguous_fusable l ++ [x] :: group_contiguous_fusable r.
Proof.
  unfold boundary. intros [Hf Hh]%andb_true_iff. apply negb_true_iff in Hf, Hh. unfold group_contiguous_fusable. rewrite foldl_app. cbn [foldl].
  destruct (foldl group_step ([], []) l) as [g run]. unfold group_step at 2. rewrite Hf, Hh.
  destruct run as [|y run]; rewrite group_steps_front; unfold close_run; cbn [fst snd]; destruct (foldl group_step ([], []) r) as [g' r']; cbn [fst snd];
    destruct r'; rewrite <- ?app_assoc; done.
Qed.

(** The stretches of a list between its boundaries, front first. *)
Lemma boundary_split l : Forall (fun x => boundary x = false) l \/ exists l1 x l2, l = l1 ++ x :: l2 /\ Forall (fun x => boundary x = false) l1 /\ boundary x = true.
Proof.
  induction l as [|x l IH]; [left; constructor|]. destruct (boundary x) eqn:E; [right; by exists [], x, l|].
  destruct IH as [H|(l1 & y & l2 & -> & H1 & H2)]; [left; by constructor|]. right. exists (x :: l1), y, l2. split_and!; [done | by constructor | done].
Qed.

Lemma stretch_ind (P : list A -> Prop) :
  (forall l, Forall (fun x => boundary x = false) l -> P l) ->
  (forall l x r, Forall (fun x => boundary x = false) l -> boundary x = true -> P r -> P (l ++ x :: r)) -> forall l, P l.
Proof.
  intros H0 H1 l. remember (length l) as n eqn:Hn. revert l Hn. induction n as [n IH] using lt_wf_ind. intros l ->.
  destruct (boundary_split l) as [H|(l1 & x & l2 & -> & Hl1 & Hx)]; [by apply H0|].
  apply H1; [done | done |]. eapply IH; [|reflexivity]. rewrite length_app. cbn. lia.
Qed.

(** *** What the groups hold *)

Lemma mjoin_singletons (l : list A) : mjoin ((fun x => [x]) <$> l) = l.
Proof. induction l as [|x l IH]; [done|]. cbn. by f_equal. Qed.

Lemma mjoin_stretch l : mjoin (stretch l) = nops l ++ fused l.
Proof.
  unfold stretch. rewrite join_app, mjoin_singletons. f_equal. destruct (fused l) as [|x k]; [done|]. cbn. by rewrite app_nil_r.
Qed.

Lemma nops_fused_perm l : nops l ++ fused l ≡ₚ l.
Proof.
  unfold nops, fused. induction l as [|x l IH]; [done|]. rewrite !filter_cons. destruct (is_fusable x) eqn:E.
  - rewrite decide_False, decide_True by done. rewrite <- Permutation_middle. by constructor.
  - rewrite decide_True, decide_False by done. cbn. by constructor.
Qed.

Lemma group_perm l : mjoin (group_contiguous_fusable l) ≡ₚ l.
Proof.
  induction l as [l Hl|l x r Hl Hx IH] using stretch_ind.
  - rewrite group_no_boundary, mjoin_stretch by done. apply nops_fused_perm.
  - rewrite group_boundary, join_app, group_no_boundary, mjoin_stretch by done. cbn. rewrite IH. by rewrite nops_fused_perm.
Qed.

Lemma group_shape l g : g ∈ group_contiguous_fusable l -> (g <> [] /\ Forall (fun x => is_fusable x = true) g) \/ exists x, g = [x] /\ is_fusable x = false.
Proof.
  assert (forall k, g ∈ stretch k -> (g <> [] /\ Forall (fun x => is_fusable x = true) g) \/ exists x, g = [x] /\ is_fusable x = false) as Hs.
  { intros k. unfold stretch. intros [(x & -> & Hx)%list_elem_of_fmap|Hg]%elem_of_app.
    - right. exists x. split; [done|]. by apply list_elem_of_filter in Hx as [? _].
    - left. destruct (fused k) as [|y run] eqn:E; [by apply elem_of_nil in Hg|]. apply list_elem_of_singleton in Hg as ->. split; [done|].
      rewrite <- E. apply Forall_forall. intros x Hx. by apply list_elem_of_filter in Hx as [? _]. }
  induction l as [l Hl|l x r Hl Hx IH] using stretch_ind.
  - rewrite group_no_boundary by done. apply Hs.
  - rewrite group_boundary, group_no_boundary by done. intros [Hg|[->|Hg]%elem_of_cons]%elem_of_app; [by apply Hs in Hg | | by apply IH].
    right. exists x. split; [done|]. unfold boundary in Hx. by destruct (is_fusable x).
Qed.

(** [x] comes before [y]. *)
Definition before (l : list A) (x y : A) : Prop := exists l1 l2 l3, l = l1 ++ x :: l2 ++ y :: l3.

Lemma before_app l r x y : before (l ++ r) x y <-> before l x y \/ before r x y \/ (x ∈ l /\ y ∈ r).
Proof.
  split.
  - intros (l1 & l2 & l3 & H). revert l1 H. induction l as [|z l IH]; intros l1 H; [right; left; by exists l1, l2, l3|].
    destruct l1 as [|z' l1]; cbn in H; injection H as -> H.
    + apply app_eq_inv in H as [(k & -> & Hk)|(k & -> & ->)].
      * destruct k as [|w k]; cbn in Hk; [right; right; split; [left | rewrite <- Hk; left]|]. injection Hk as <- ->. left. by exists [], l2, k.
      * right. right. split; [left | set_solver].
    + destruct (IH l1 H) as [(k1 & k2 & k3 & ->)|[Hb|[Hx Hy]]]; [left; by exists (z' :: k1), k2, k3 | by right; left | right; right; split; [by right | done]].
  - intros [(l1 & l2 & l3 & ->)|[(l1 & l2 & l3 & ->)|[Hx Hy]]].
    + exists l1, l2, (l3 ++ r). rewrite <- app_assoc. cbn [app]. by rewrite <- app_assoc.
    + exists (l ++ l1), l2, l3. by rewrite <- app_assoc.
    + apply list_elem_of_split in Hx as (l1 & l2 & ->). apply list_elem_of_split in Hy as (r1 & r2 & ->).
      exists l1, (l2 ++ r1), r2. by rewrite <- !app_assoc.
Qed.

Lemma before_filter (P : A -> Prop) `{!forall x, Decision (P x)} l x y : before l x y -> P x -> P y -> before (filter P l) x y.
Proof.
  intros (l1 & l2 & l3 & ->) Hx Hy. exists (filter P l1), (filter P l2), (filter P l3).
  rewrite filter_app, filter_cons, filter_app, filter_cons, !decide_True by done. done.
Qed.

Lemma stretch_order l x y :
  Forall (fun x => boundary x = false) l -> before l x y -> is_fusable y = true \/ is_hoistable y = false -> before (mjoin (stretch l)) x y.
Proof.
  intros Hl Hb Hy. rewrite mjoin_stretch. assert (x ∈ l /\ y ∈ l) as [Hx Hin] by (destruct Hb as (? & ? & ? & ->); set_solver).
  assert (is_fusable y = true) as Hfy.
  { rewrite Forall_forall in Hl. specialize (Hl y Hin). unfold boundary in Hl. destruct Hy as [?|Hh]; [done|]. rewrite Hh in Hl. by destruct (is_fusable y). }
  apply before_app. destruct (is_fusable x) eqn:Ex; [right; left; by apply before_filter|].
  right. right. split; by apply list_elem_of_filter.
Qed.

(** Only a no-op moves ahead of what it followed. *)
Lemma group_order l x y : before l x y -> is_fusable y = true \/ is_hoistable y = false -> before (mjoin (group_contiguous_fusable l)) x y.
Proof.
  induction l as [l Hl|l z r Hl Hz IH] using stretch_ind; intros Hb Hy; [rewrite group_no_boundary by done; by apply stretch_order|].
  rewrite group_boundary, group_no_boundary by done. rewrite join_app.
  assert (x ∈ mjoin (stretch l) <-> x ∈ l) as Hpl by (by rewrite mjoin_stretch, nops_fused_perm).
  assert (y ∈ mjoin (group_contiguous_fusable r) <-> y ∈ r) as Hpr by (by rewrite group_perm).
  change (before (mjoin (stretch l) ++ [z] ++ mjoin (group_contiguous_fusable r)) x y). change (l ++ z :: r) with (l ++ [z] ++ r) in Hb.
  rewrite !before_app, elem_of_app in Hb |- *. rewrite Hpl, Hpr.
  destruct Hb as [Hb|[[Hb|[Hb|Hb]]|Hb]]; [left; by apply stretch_order | tauto | right; left; right; left; by apply IH | tauto | tauto].
Qed.
End grouping.

(** ** Scheduler nodes and IR operations *)

(** What the pass asks of an IR operation: [isinstance(op, NopKernel)],
    [isinstance(op, ComputedBuffer)], [op.is_no_op()] and the device. *)
Record operation := mkOp {
  op_name : string;
  op_nop_kernel : bool;
  op_computed : bool;
  op_no_op : bool;
  op_device : option string
}.

#[export] Instance operation_eq_dec : EqDecision operation.
Proof. solve_decision. Defined.

Inductive node_kind : Set := SchedulerNode | CountedLoopSchedulerNode | NopKernelSchedulerNode | OtherNode.

Record node := mkNode { node_kind_of : node_kind; node_op : operation; node_device : option string }.

Definition DEVICE_NAME : string := "spyre".

Definition _is_spyre_node (n : node) : bool := bool_decide (node_device n = Some DEVICE_NAME).

Definition _is_fusable_node (n : node) : bool :=
  match node_kind_of n with SchedulerNode | CountedLoopSchedulerNode => _is_spyre_node n | _ => false end.

Definition _is_vetted_nop (op : operation) : bool := op_nop_kernel op || (op_computed op && op_no_op op).

Definition _is_hoistable_node (n : node) : bool :=
  match node_kind_of n with NopKernelSchedulerNode => _is_vetted_nop (node_op n) | _ => false end.

Definition _is_fusable_operation (op : operation) : bool :=
  op_computed op && negb (op_no_op op) && bool_decide (op_device op = Some DEVICE_NAME).

Definition _is_hoistable_operation (op : operation) : bool := _is_vetted_nop op.

(** A kernel: a node, or several in a [FusedSchedulerNode]. *)
Inductive kernel := Single (n : node) | FusedSchedulerNode (ns : list node).

Definition kernel_nodes (k : kernel) : list node := match k with Single n => [n] | FusedSchedulerNode ns => ns end.

Definition _make_fused (nodes : list node) : option kernel :=
  match nodes with
  | [] => None
  | [n] => Some (Single n)
  | _ => Some (FusedSchedulerNode nodes)
  end.

Definition spyre_fuse_nodes (bundle_symbolic_args : bool) (nodes : list node) : list kernel :=
  if bool_decide (length nodes = 0%nat) then []
  else if negb bundle_symbolic_args then Single <$> nodes
  else omap _make_fused (group_contiguous_fusable _is_fusable_node _is_hoistable_node nodes).

Definition estimate_bundles (bundle_symbolic_args : bool) (operations : list operation) : list (list operation) :=
  if negb bundle_symbolic_args then (fun op => [op]) <$> operations
  else group_contiguous_fusable _is_fusable_operation _is_hoistable_operation operations.

Lemma make_fused_nodes gs : Forall (fun g => g <> []) gs -> kernel_nodes <$> omap _make_fused gs = gs.
Proof.
  induction 1 as [|g gs Hg _ IH]; [done|]. destruct g as [|a [|b g]]; [done | |]; csimpl; by rewrite IH.
Qed.

Lemma groups_nonempty {A} (f h : A -> bool) l : Forall (fun g => g <> []) (group_contiguous_fusable f h l).
Proof. apply Forall_forall. intros g [[H _]|(x & -> & _)]%group_shape; done. Qed.

(** The nodes of each kernel, whatever the flag. *)
Lemma fuse_groups flag nodes :
  kernel_nodes <$> spyre_fuse_nodes flag nodes =
  if flag then group_contiguous_fusable _is_fusable_node _is_hoistable_node nodes else (fun n => [n]) <$> nodes.
Proof.
  unfold spyre_fuse_nodes. case_bool_decide as Hl; [apply nil_length_inv in Hl as ->; by destruct flag|].
  destruct flag; cbn [negb]; [apply make_fused_nodes, groups_nonempty|]. rewrite <- list_fmap_compose. by apply list_fmap_ext.
Qed.

(** Grouping commutes with a map that keeps the two tests. *)
Lemma group_fmap {A B} (fA hA : A -> bool) (fB hB : B -> bool) (l : list A) (k : list B) (T : A -> B -> Prop) :
  (forall a b, T a b -> fA a = fB b /\ hA a = hB b) -> Forall2 T l k ->
  Forall2 (Forall2 T) (group_contiguous_fusable fA hA l) (group_contiguous_fusable fB hB k).
Proof.
  intros HT Hl. unfold group_contiguous_fusable.
  set (same := fun (sA : list (list A) * list A) (sB : list (list B) * list B) => Forall2 (Forall2 T) sA.1 sB.1 /\ Forall2 T sA.2 sB.2).
  assert (forall a b sA sB, T a b -> same sA sB -> same (group_step fA hA sA a) (group_step fB hB sB b)) as Hstep.
  { intros a b [gA rA] [gB rB] Hab [Hg Hr]. cbn [fst snd] in *. destruct (HT a b Hab) as [Hf Hh]. unfold group_step. rewrite Hf, Hh.
    assert (Forall2 (Forall2 T) [[a]] [[b]]) as H1 by (by repeat constructor).
    destruct (fB b); [split; [done | apply Forall2_app; [done | by constructor]]|].
    destruct Hr as [|u v rA rB Huv Hr]; [split; [by apply Forall2_app | done]|].
    destruct (hB b); split; cbn [fst snd]; try done; [by apply Forall2_app | by constructor |].
    repeat apply Forall2_app; [done | | done]. constructor; [by constructor | done]. }
  assert (same (foldl (group_step fA hA) ([], []) l) (foldl (group_step fB hB) ([], []) k)) as [H1 H2].
  { assert (same ([], []) ([], [])) as H0 by done. revert H0. generalize (@nil (list A), @nil A), (@nil (list B), @nil B).
    induction Hl as [|a b l k Hab _ IH]; intros sA sB Hs; [done|]. cbn [foldl]. by apply IH, Hstep. }
  unfold close_run.
  destruct (foldl (group_step fA hA) ([], []) l) as [gA rA], (foldl (group_step fB hB) ([], []) k) as [gB rB]. cbn [fst snd] in *.
  destruct H2; [done|]. apply Forall2_app; [done|]. by repeat constructor.
Qed.

(** ** Claims *)

(** Fusion forms exactly the maximal runs.  A stretch of nodes without a boundary
    becomes its no-ops, one kernel each, followed by a single kernel of all its Spyre
    compute nodes; a boundary is a kernel of its own between the kernels of what comes
    before it and of what comes after it; with symbolic arguments off every node is
    left alone. *)
Theorem fusion_runs nodes :
  (Forall (fun n => boundary _is_fusable_node _is_hoistable_node n = false) nodes ->
   kernel_nodes <$> spyre_fuse_nodes true nodes = stretch _is_fusable_node nodes) /\
  (forall l n r, nodes = l ++ n :: r -> boundary _is_fusable_node _is_hoistable_node n = true ->
   kernel_nodes <$> spyre_fuse_nodes true nodes =
     (kernel_nodes <$> spyre_fuse_nodes true l) ++ [n] :: (kernel_nodes <$> spyre_fuse_nodes true r)) /\
  spyre_fuse_nodes false nodes = Single <$> nodes.
Proof.
  split_and!.
  - intros H. rewrite fuse_groups. by apply group_no_boundary.
  - intros l n r -> Hn. rewrite !fuse_groups. by apply group_boundary.
  - unfold spyre_fuse_nodes. case_bool_decide as Hl; [by apply nil_length_inv in Hl as ->|done].
Qed.

(** Fusion keeps the program.  Every node is in exactly one kernel, a kernel of
    several nodes holds Spyre compute nodes only, and a node that is not a hoisted no-op
    still comes after every node that preceded it, across kernels and inside them: no
    computation, fallback or loop runs before something it followed. *)
Theorem fusion_keeps_order flag nodes :
  let kernels := spyre_fuse_nodes flag nodes in
  mjoin (kernel_nodes <$> kernels) ≡ₚ nodes /\
  (forall ns, FusedSchedulerNode ns ∈ kernels -> Forall (fun n => _is_fusable_node n = true) ns) /\
  forall x y, before nodes x y -> _is_hoistable_node y = false -> before (mjoin (kernel_nodes <$> kernels)) x y.
Proof.
  cbn zeta. rewrite fuse_groups. destruct flag.
  - split_and!; [apply group_perm | | intros x y Hb Hy; apply group_order; tauto].
    intros ns Hns. assert (ns ∈ kernel_nodes <$> spyre_fuse_nodes true nodes) as Hg by (apply list_elem_of_fmap; by exists (FusedSchedulerNode ns)).
    rewrite fuse_groups in Hg. apply group_shape in Hg as [[_ H]|(x & -> & _)]; [done|]. exfalso.
    unfold spyre_fuse_nodes in Hns. case_bool_decide; [by apply elem_of_nil in Hns|]. cbn [negb] in Hns.
    apply list_elem_of_omap in Hns as (g & _ & Hg). destruct g as [|a [|b g]]; done.
  - split_and!; [by rewrite mjoin_singletons | | intros x y Hb _; by rewrite mjoin_singletons].
    intros ns Hns. unfold spyre_fuse_nodes in Hns. case_bool_decide; [by apply elem_of_nil in Hns|]. cbn [negb] in Hns.
    by apply list_elem_of_fmap in Hns as (n & ? & _).
Qed.

(** The node the scheduler makes of an operation: a no-op node when [is_no_op()], a
    compute node for another [ComputedBuffer], an extern or fallback node otherwise. *)
Definition scheduled (op : operation) (n : node) : Prop :=
  node_op n = op /\ node_device n = op_device op /\
  node_kind_of n = (if op_no_op op then NopKernelSchedulerNode else if op_computed op then SchedulerNode else OtherNode) /\
  (op_nop_kernel op = true -> op_no_op op = true).

(** The early estimate is the real grouping.  When every operation is scheduled as
    one node of the kind its class calls for, [estimate_bundles] on the operations
    returns, kernel by kernel and in order, the operations of the kernels
    [spyre_fuse_nodes] forms, with fusion on or off. *)
Theorem estimate_matches_fusion flag operations nodes :
  Forall2 scheduled operations nodes ->
  estimate_bundles flag operations = (fun k => node_op <$> kernel_nodes k) <$> spyre_fuse_nodes flag nodes.
Proof.
  intros Hs. change (fun k => node_op <$> kernel_nodes k) with (fmap node_op ∘ kernel_nodes). rewrite list_fmap_compose, fuse_groups. unfold estimate_bundles.
  assert (forall l k, Forall2 scheduled l k -> l = node_op <$> k) as Heq.
  { induction 1 as [|a b l k [Ha _] _ IH]; [done|]. rewrite fmap_cons. congruence. }
  destruct flag; cbn [negb].
  - assert (Forall2 (Forall2 scheduled) (group_contiguous_fusable _is_fusable_operation _is_hoistable_operation operations)
      (group_contiguous_fusable _is_fusable_node _is_hoistable_node nodes)) as Hg.
    { apply group_fmap; [|done]. intros op n (Ho & Hd & Hk & Hn). unfold _is_fusable_operation, _is_hoistable_operation, _is_fusable_node, _is_hoistable_node, _is_spyre_node.
      rewrite Hk, Hd, Ho. unfold _is_vetted_nop. destruct (op_no_op op), (op_computed op), (op_nop_kernel op); cbn; split; try done; by specialize (Hn eq_refl). }
    induction Hg as [|g h gs hs Hgh _ IH]; [done|]. rewrite fmap_cons. f_equal; [by apply Heq | done].
  - rewrite (Heq _ _ Hs), <- !list_fmap_compose. by apply list_fmap_ext.
Qed.

(** ** Witnesses *)

Definition fusion_operations : list operation :=
  [ mkOp "a" false true false (Some DEVICE_NAME); mkOp "empty" false true true (Some DEVICE_NAME); mkOp "b" false true false (Some DEVICE_NAME);
    mkOp "fallback" false false false (Some "cpu"); mkOp "cat" true false true (Some DEVICE_NAME); mkOp "c" false true false (Some DEVICE_NAME) ]%string.

Definition fusion_nodes : list node :=
  (fun op => mkNode (if op_no_op op then NopKernelSchedulerNode else if op_computed op then SchedulerNode else OtherNode) op (op_device op)) <$> fusion_operations.

Example fusion_sample :
  (fun k => op_name <$> (node_op <$> kernel_nodes k)) <$> spyre_fuse_nodes true fusion_nodes
    = [["empty"]; ["a"; "b"]; ["fallback"]; ["cat"]; ["c"]]%string.
Proof. reflexivity. Qed.

Lemma estimate_matches_fusion_witness :
  estimate_bundles true fusion_operations = (fun k => node_op <$> kernel_nodes k) <$> spyre_fuse_nodes true fusion_nodes.
Proof. apply (estimate_matches_fusion true fusion_operations fusion_nodes). repeat constructor; discriminate. Defined.
