(* ===== verification/Deadcode.v ===== *)
(** * Dead-code elimination before scheduling ([deadcode_elimination.py])

    [live_operations] repeats a reverse liveness pass until nothing changes;
    [deadcode_elimination] removes the operations it did not reach and records
    their buffers.  The specification is the least set closed under the rules of
    the docstring, as the mutual inductive [live_buf] / [live_op].

    Inductor's [Operation]s are records of what the pass asks of them; their names
    are unique, and [operations.remove(op)] finds [op] by its name. *)

From S2P Require Import Prelude.

(** The operation classes the pass tells apart: a [ComputedBuffer], with the target
    of its [MutationLayoutSHOULDREMOVE] if it has one, a [FallbackKernel] with
    [has_side_effects()], any other operation. *)
Inductive op_class : Set :=
  | ComputedBuffer (mutates : option string)
  | FallbackKernel (impure : bool)
  | OtherOperation.

Record Operation := mkOp {
  op_name : string;
  op_reads : list string;
  op_writes : list string;
  op_kind : op_class
}.

Record GraphLowering := mkLowering {
  operations : list Operation;
  output_names : list string;
  graph_inputs : list string;
  constants : list string;
  removed_buffers : gset string
}.

Definition _mutation_target (op : Operation) : option string :=
  match op_kind op with ComputedBuffer t => t | _ => None end.

Definition _mutation_target_is_live (op : Operation) (live_bufs : gset string) : bool :=
  match _mutation_target op with
  | None => true
  | Some t => bool_decide (t ∈ live_bufs)
  end.

Definition _has_side_effects (op : Operation) : bool :=
  if bool_decide (is_Some (_mutation_target op)) then true
  else match op_kind op with FallbackKernel impure => impure | _ => false end.

(** The test of the walk: the op is observable or writes a live buffer. *)
Definition is_live_now (op : Operation) (live_bufs : gset string) : bool :=
  let observable := _has_side_effects op && _mutation_target_is_live op live_bufs in
  observable || existsb (fun w => bool_decide (w ∈ live_bufs)) (op_writes op).

(** What a live op keeps live: its reads and its mutation target. *)
Definition needs (op : Operation) : gset string :=
  list_to_set (op_reads op)
  ∪ match _mutation_target op with Some t => {[t]} | None => ∅ end.

Definition walk_op (st : gset string * gset string) (op : Operation)
    : gset string * gset string :=
  if is_live_now op st.1 then (st.1 ∪ needs op, {[op_name op]} ∪ st.2) else st.

Definition _walk_once (ops : list Operation) (st : gset string * gset string)
    : gset string * gset string :=
  foldl walk_op st (reverse ops).

(** [for _ in range(k)] with the early [break]. *)
Fixpoint iterate (k : nat) (ops : list Operation) (st : gset string * gset string)
    : gset string * gset string :=
  match k with
  | O => st
  | S k' =>
      let st' := _walk_once ops st in
      if bool_decide (size st'.1 = size st.1 /\ size st'.2 = size st.2) then st'
      else iterate k' ops st'
  end.

Definition seeds (g : GraphLowering) : gset string :=
  list_to_set (output_names g) ∪ list_to_set (graph_inputs g) ∪ list_to_set (constants g).

Definition live_operations (g : GraphLowering) : gset string :=
  (iterate (length (operations g) + 1) (operations g) (seeds g, ∅)).2.

(** [operations.remove(op)] *)
Fixpoint remove_op (n : string) (ops : list Operation) : list Operation :=
  match ops with
  | [] => []
  | o :: ops' => if bool_decide (op_name o = n) then ops' else o :: remove_op n ops'
  end.

Definition deadcode_elimination (g : GraphLowering) : GraphLowering :=
  let live_ops := live_operations g in
  let dead := filter (fun op => op_name op ∉ live_ops) (operations g) in
  foldl (fun g' op =>
    mkLowering (remove_op (op_name op) (operations g')) (output_names g') (graph_inputs g')
      (constants g') (removed_buffers g' ∪ list_to_set (op_writes op))) g dead.

(** ** Specification *)

Inductive live_buf (g : GraphLowering) : string -> Prop :=
  | live_seed b : b ∈ seeds g -> live_buf g b
  | live_needed op b : live_op g op -> b ∈ needs op -> live_buf g b
with live_op (g : GraphLowering) : Operation -> Prop :=
  | live_impure op : op ∈ operations g -> _has_side_effects op = true ->
      _mutation_target op = None -> live_op g op
  | live_mutation op t : op ∈ operations g -> _mutation_target op = Some t ->
      live_buf g t -> live_op g op
  | live_writer op w : op ∈ operations g -> w ∈ op_writes op -> live_buf g w -> live_op g op.

Scheme live_buf_mut := Minimality for live_buf Sort Prop
  with live_op_mut := Minimality for live_op Sort Prop.

(** ** The walk *)

Lemma is_live_now_mono op B B' : B ⊆ B' -> is_live_now op B = true -> is_live_now op B' = true.
Proof.
  intros HB. unfold is_live_now, _mutation_target_is_live. rewrite !orb_true_iff, !andb_true_iff.
  intros [[Hs Ht] | Hw]; [left | right].
  - split; [done|]. destruct (_mutation_target op); [|done]. split_bools.
    apply bool_decide_eq_true. set_solver.
  - apply existsb_exists in Hw as (w & Hw & Hl). apply existsb_exists. exists w. split; [done|].
    apply bool_decide_eq_true in Hl. apply bool_decide_eq_true. set_solver.
Qed.

Lemma walk_op_mono st op : st.1 ⊆ (walk_op st op).1 /\ st.2 ⊆ (walk_op st op).2.
Proof. unfold walk_op. case_match; simpl; set_solver. Qed.

Lemma walk_mono l st : st.1 ⊆ (foldl walk_op st l).1 /\ st.2 ⊆ (foldl walk_op st l).2.
Proof.
  revert st. induction l as [|op l IH]; intros st; simpl; [done|].
  destruct (IH (walk_op st op)), (walk_op_mono st op). split; by etrans.
Qed.

(** Every recorded op has what it needs among the live buffers. *)
Definition fed (ops : list Operation) (st : gset string * gset string) : Prop :=
  forall op, op ∈ ops -> op_name op ∈ st.2 -> needs op ⊆ st.1.

Section fixpoint.
Context (ops : list Operation) (Hnames : NoDup (op_name <$> ops)).

Lemma op_name_inj o o' : o ∈ ops -> o' ∈ ops -> op_name o = op_name o' -> o = o'.
Proof.
  intros (i & Hi)%list_elem_of_lookup (j & Hj)%list_elem_of_lookup He.
  assert (i = j) as <-; [|congruence].
  eapply (NoDup_lookup (op_name <$> ops)); [done | |]; rewrite list_lookup_fmap;
    [by rewrite Hi | rewrite Hj; simpl; by rewrite He].
Qed.

Lemma walk_fed l st : (forall o, o ∈ l -> o ∈ ops) -> fed ops st -> fed ops (foldl walk_op st l).
Proof.
  revert st. induction l as [|op l IH]; intros st Hl Hf; simpl; [done|].
  apply IH; [intros o Ho; apply Hl; list_mem|]. unfold walk_op. case_match; [|done].
  intros o Ho. simpl. rewrite elem_of_union, elem_of_singleton. intros [He | Hin].
  - replace o with op by (symmetry; apply op_name_inj; auto; apply Hl; list_mem). set_solver.
  - specialize (Hf o Ho Hin). set_solver.
Qed.

(** A walk that records no new op changes nothing. *)
Lemma walk_stuck l st :
  (forall o, o ∈ l -> o ∈ ops) -> fed ops st -> (foldl walk_op st l).2 ⊆ st.2 ->
  foldl walk_op st l = st.
Proof.
  revert st. induction l as [|op l IH]; intros st Hl Hf Hs; simpl in *; [done|].
  assert (walk_op st op = st) as Hst.
  { unfold walk_op in *. destruct (is_live_now op st.1) eqn:E; [|done].
    destruct (walk_mono l (st.1 ∪ needs op, {[op_name op]} ∪ st.2)) as [_ Hm]. simpl in Hm.
    assert (op_name op ∈ st.2) as Hin by set_solver.
    specialize (Hf op ltac:(apply Hl; list_mem) Hin). destruct st as [B O]. simpl in *.
    f_equal; apply leibniz_equiv; set_solver. }
  rewrite Hst in *. apply IH; auto. intros o Ho. apply Hl. list_mem.
Qed.

(** Nothing is left to add. *)
Definition closed (st : gset string * gset string) : Prop :=
  fed ops st /\ forall op, op ∈ ops -> is_live_now op st.1 = true -> op_name op ∈ st.2.

Lemma walk_adds l st op :
  op ∈ l -> is_live_now op st.1 = true -> op_name op ∈ (foldl walk_op st l).2.
Proof.
  revert st. induction l as [|o l IH]; intros st; [by intros ?%elem_of_nil|].
  intros [-> | Hin]%elem_of_cons Hlive; simpl.
  - apply (walk_mono l (walk_op st o)). unfold walk_op. rewrite Hlive. set_solver.
  - apply IH; [done|]. eapply is_live_now_mono; [apply walk_op_mono | done].
Qed.

Lemma walk_names l st :
  (forall o, o ∈ l -> o ∈ ops) -> st.2 ⊆ list_to_set (op_name <$> ops) ->
  (foldl walk_op st l).2 ⊆ list_to_set (op_name <$> ops).
Proof.
  revert st. induction l as [|o l IH]; intros st Hl Hs; simpl; [done|].
  apply IH; [intros o' Ho'; apply Hl; list_mem|]. unfold walk_op. case_match; [|done]. simpl.
  intros x [->%elem_of_singleton | Hx]%elem_of_union; [|by apply Hs].
  apply elem_of_list_to_set, list_elem_of_fmap_2, Hl. list_mem.
Qed.

Lemma reverse_ops o : o ∈ reverse ops -> o ∈ ops.
Proof. by rewrite elem_of_reverse. Qed.

Lemma same_size (X Y : gset string) : X ⊆ Y -> size Y = size X -> Y = X.
Proof.
  intros Hs Hn. apply leibniz_equiv. symmetry. apply set_subseteq_size_equiv; [done | lia].
Qed.

Lemma iterate_closed k st :
  fed ops st -> st.2 ⊆ list_to_set (op_name <$> ops) ->
  (length ops < k + size st.2)%nat -> closed (iterate k ops st).
Proof.
  revert st. induction k as [|k IH]; intros st Hf Hs Hk.
  { exfalso. apply subseteq_size in Hs. rewrite size_list_to_set, length_fmap in Hs by done. lia. }
  simpl. destruct (walk_mono (reverse ops) st) as [M1 M2].
  case_bool_decide as Heq.
  - destruct Heq as [Heq1 Heq2]. unfold _walk_once in *.
    assert ((foldl walk_op st (reverse ops)).1 = st.1) as E1 by (by apply same_size).
    assert ((foldl walk_op st (reverse ops)).2 = st.2) as E2 by (by apply same_size).
    split.
    + apply walk_fed; [apply reverse_ops | done].
    + intros op Hop Hlive. apply walk_adds; [by rewrite elem_of_reverse|]. by rewrite <- E1.
  - apply IH.
    + apply walk_fed; [apply reverse_ops | done].
    + apply walk_names; [apply reverse_ops | done].
    + assert (size st.2 < size (foldl walk_op st (reverse ops)).2)%nat; [|unfold _walk_once; lia].
      destruct (decide (size (foldl walk_op st (reverse ops)).2 = size st.2)) as [He|Hne].
      * exfalso. apply Heq. unfold _walk_once.
        assert ((foldl walk_op st (reverse ops)).2 = st.2) as E2 by (by apply same_size).
        by rewrite (walk_stuck (reverse ops) st reverse_ops Hf) by by rewrite E2.
      * pose proof (subseteq_size _ _ M2). lia.
Qed.
End fixpoint.

(** ** The result is the least fixed point *)

Definition sound (g : GraphLowering) (st : gset string * gset string) : Prop :=
  (forall b, b ∈ st.1 -> live_buf g b) /\
  (forall n, n ∈ st.2 -> exists op, op ∈ operations g /\ op_name op = n /\ live_op g op).

Lemma live_now_op g op B :
  op ∈ operations g -> (forall b, b ∈ B -> live_buf g b) -> is_live_now op B = true -> live_op g op.
Proof.
  intros Hop HB. unfold is_live_now, _mutation_target_is_live.
  rewrite orb_true_iff, andb_true_iff. intros [[Hs Ht] | Hw].
  - destruct (_mutation_target op) as [t|] eqn:E; [|by apply live_impure].
    split_bools. apply (live_mutation g op t); auto.
  - apply existsb_exists in Hw as (w & Hw%list_elem_of_In & Hl). split_bools.
    apply (live_writer g op w); auto.
Qed.

Lemma walk_sound g l st :
  (forall o, o ∈ l -> o ∈ operations g) -> sound g st -> sound g (foldl walk_op st l).
Proof.
  revert st. induction l as [|op l IH]; intros st Hl [H1 H2]; simpl; [done|].
  apply IH; [intros o Ho; apply Hl; list_mem|]. unfold walk_op.
  destruct (is_live_now op st.1) eqn:E; [|done].
  assert (op ∈ operations g) as Hop by (apply Hl; list_mem).
  pose proof (live_now_op g op st.1 Hop H1 E) as Hlive. split; simpl.
  - intros b [Hb | Hb]%elem_of_union; [auto | by eapply live_needed].
  - intros n [->%elem_of_singleton | Hn]%elem_of_union; [eauto | auto].
Qed.

Lemma iterate_sound g k st : sound g st -> sound g (iterate k (operations g) st).
Proof.
  revert st. induction k as [|k IH]; intros st Hs; simpl; [done|].
  assert (sound g (_walk_once (operations g) st)) as Hw
    by (apply walk_sound; [apply reverse_ops | done]).
  case_bool_decide; auto.
Qed.

Lemma iterate_seeds k ops st : st.1 ⊆ (iterate k ops st).1.
Proof.
  revert st. induction k as [|k IH]; intros st; simpl; [done|].
  destruct (walk_mono (reverse ops) st) as [M1 _].
  case_bool_decide; [done|]. etrans; [exact M1 | apply IH].
Qed.

Lemma live_operations_spec g op :
  NoDup (op_name <$> operations g) -> op ∈ operations g ->
  (op_name op ∈ live_operations g <-> live_op g op).
Proof.
  intros Hnd Hop. unfold live_operations.
  set (st := iterate (length (operations g) + 1) (operations g) (seeds g, ∅)).
  assert (closed (operations g) st) as [Hfed Hclosed].
  { apply iterate_closed; [done | by intros o _ ?%elem_of_empty | set_solver |].
    cbn [snd]. rewrite size_empty. lia. }
  split.
  - intros Hin. destruct (iterate_sound g (length (operations g) + 1) (seeds g, ∅)) as [_ H].
    { split; simpl; [intros b; by apply live_seed | by intros n ?%elem_of_empty]. }
    destruct (H _ Hin) as (o & Ho & He & Hl).
    by rewrite (op_name_inj (operations g) Hnd op o Hop Ho).
  - assert (forall o, live_op g o -> o ∈ operations g) as Hmem by (by intros o []).
    assert (seeds g ⊆ st.1) as Hseed by apply (iterate_seeds _ _ (seeds g, ∅)).
    intros Hlive. clear Hop. revert op Hlive.
    apply (live_op_mut g (fun b => b ∈ st.1) (fun o => op_name o ∈ st.2)).
    + auto.
    + intros o b Hl Hin Hb. by apply (Hfed o (Hmem o Hl) Hin).
    + intros o Ho Hs Ht. apply Hclosed; [done|]. unfold is_live_now, _mutation_target_is_live.
      by rewrite Hs, Ht.
    + intros o t Ho Ht _ Hb. apply Hclosed; [done|].
      unfold is_live_now, _mutation_target_is_live, _has_side_effects. rewrite Ht.
      rewrite (bool_decide_eq_true_2 (is_Some (Some t))) by eauto.
      by rewrite (bool_decide_eq_true_2 (t ∈ st.1)).
    + intros o w Ho Hw _ Hb. apply Hclosed; [done|]. unfold is_live_now. apply orb_true_iff. right.
      apply existsb_exists. exists w. split; [by apply list_elem_of_In | by apply bool_decide_eq_true].
Qed.

(** ** Removal *)

Lemma remove_op_filter n ops :
  NoDup (op_name <$> ops) -> remove_op n ops = filter (fun o => op_name o <> n) ops.
Proof.
  induction ops as [|o ops IH]; [done|]. rewrite fmap_cons. intros [Hn Hnd]%NoDup_cons.
  rewrite filter_cons. simpl. case_bool_decide as He.
  - rewrite decide_False by tauto. symmetry. apply filter_all.
    intros o' Ho' He'. apply Hn. rewrite He, <- He'. by apply list_elem_of_fmap_2.
  - rewrite decide_True by done. by rewrite IH.
Qed.

Lemma NoDup_names_filter (P : Operation -> Prop) `{!forall x, Decision (P x)} ops :
  NoDup (op_name <$> ops) -> NoDup (op_name <$> filter P ops).
Proof. intros Hnd. eapply sublist_NoDup; [exact Hnd|]. apply fmap_sublist, sublist_filter. Qed.

Lemma remove_all dead : forall g,
  NoDup (op_name <$> operations g) ->
  let g' := foldl (fun g' op =>
    mkLowering (remove_op (op_name op) (operations g')) (output_names g') (graph_inputs g')
      (constants g') (removed_buffers g' ∪ list_to_set (op_writes op))) g dead in
  operations g' = filter (fun o => op_name o ∉ op_name <$> dead) (operations g) /\
  removed_buffers g' = removed_buffers g ∪ list_to_set (mjoin (op_writes <$> dead)).
Proof.
  induction dead as [|d dead IH]; intros g Hnd; simpl.
  { split; [|set_solver]. symmetry. apply filter_all. intros o _. apply not_elem_of_nil. }
  set (g1 := mkLowering _ _ _ _ _).
  assert (operations g1 = filter (fun o => op_name o <> op_name d) (operations g)) as H1
    by (by apply remove_op_filter).
  destruct (IH g1) as [H2 H3]; [rewrite H1; by apply NoDup_names_filter|].
  split.
  - rewrite H2, H1, list_filter_filter. apply list_filter_iff. intros o.
    rewrite not_elem_of_cons. tauto.
  - rewrite H3. simpl. rewrite list_to_set_app_L. set_solver.
Qed.

(** ** Claims *)

(** An accumulator [acc] that is read at the top of a loop body and mutated at its
    bottom by [upd], and a dead chain [d0], [d1]. *)
Definition loop_graph : GraphLowering :=
  mkLowering
    [ mkOp "op0" ["in"%string] ["acc"%string] (ComputedBuffer None);
      mkOp "top" ["acc"%string] ["out"%string] (ComputedBuffer None);
      mkOp "upd" ["x"%string] ["u"%string] (ComputedBuffer (Some "acc"%string));
      mkOp "d0" ["in"%string] ["d"%string] (ComputedBuffer None);
      mkOp "d1" ["d"%string] ["e"%string] (ComputedBuffer (Some "d"%string)) ]
    ["out"%string] ["in"%string] [] ∅.

Example loop_graph_survivors :
  op_name <$> operations (deadcode_elimination loop_graph) = ["op0"; "top"; "upd"]%string.
Proof. vm_compute. reflexivity. Qed.

(** C36. In a graph whose operations have distinct names, the set dead-code elimination computes
    is the least one closed under the liveness rules: graph outputs, inputs and constants are
    live; a live operation keeps its reads and its mutation target live; an operation is live
    when it writes a live buffer, mutates a live target, or is impure. *)
Theorem live_operations_lfp g op :
  NoDup (op_name <$> operations g) -> op ∈ operations g ->
  (op_name op ∈ live_operations g <-> live_op g op).
Proof. apply live_operations_spec. Qed.

Lemma loop_graph_names : NoDup (op_name <$> operations loop_graph).
Proof. apply (bool_decide_unpack _). vm_compute. exact I. Qed.

Lemma live_operations_lfp_witness :
  "upd"%string ∈ live_operations loop_graph <->
  live_op loop_graph (mkOp "upd" ["x"%string] ["u"%string] (ComputedBuffer (Some "acc"%string))).
Proof.
  apply (live_operations_lfp loop_graph
           (mkOp "upd" ["x"%string] ["u"%string] (ComputedBuffer (Some "acc"%string))));
    [apply loop_graph_names | simpl; list_mem].
Defined.

(** Elimination keeps exactly the live operations, in their order, and records
    exactly the buffers the removed ones write. *)
Theorem deadcode_elimination_spec g :
  NoDup (op_name <$> operations g) ->
  operations (deadcode_elimination g)
    = filter (fun op => op_name op ∈ live_operations g) (operations g) /\
  forall b, b ∈ removed_buffers (deadcode_elimination g) <->
    b ∈ removed_buffers g \/
    exists op, op ∈ operations g /\ op_name op ∉ live_operations g /\ b ∈ op_writes op.
Proof.
  intros Hnd. unfold deadcode_elimination.
  set (dead := filter (fun op => op_name op ∉ live_operations g) (operations g)).
  destruct (remove_all dead g Hnd) as [H1 H2]. split.
  - rewrite H1. apply filter_iff_in. intros o Ho. unfold dead. split.
    + intros Hn. destruct (decide (op_name o ∈ live_operations g)) as [|Hd]; [done|].
      exfalso. apply Hn, list_elem_of_fmap_2, list_elem_of_filter. done.
    + intros Hl (o' & He & [Hd _]%list_elem_of_filter)%list_elem_of_fmap. apply Hd. by rewrite <- He.
  - intros b. rewrite H2, elem_of_union, elem_of_list_to_set, list_elem_of_join. split.
    + intros [Hb | (l & Hb & (op & -> & [Hd Hop]%list_elem_of_filter)%list_elem_of_fmap)];
        [by left | right; eauto].
    + intros [Hb | (op & Hop & Hd & Hb)]; [by left | right].
      exists (op_writes op). split; [done|]. by apply list_elem_of_fmap_2, list_elem_of_filter.
Qed.

Lemma deadcode_elimination_spec_witness :
  operations (deadcode_elimination loop_graph)
    = filter (fun op => op_name op ∈ live_operations loop_graph) (operations loop_graph) /\
  forall b, b ∈ removed_buffers (deadcode_elimination loop_graph) <->
    b ∈ removed_buffers loop_graph \/
    exists op, op ∈ operations loop_graph /\ op_name op ∉ live_operations loop_graph /\ b ∈ op_writes op.
Proof. apply (deadcode_elimination_spec loop_graph), loop_graph_names. Defined.

(** No survivor loses its data: an operation that writes a buffer some surviving
    operation reads or mutates, or that the caller can observe, survives too. *)
Theorem deadcode_keeps_producers g op b w :
  NoDup (op_name <$> operations g) -> w ∈ operations g -> b ∈ op_writes w ->
  (b ∈ seeds g \/ (op ∈ operations (deadcode_elimination g) /\ b ∈ needs op)) ->
  w ∈ operations (deadcode_elimination g).
Proof.
  intros Hnd Hw Hb Hneed.
  assert (forall o, o ∈ operations (deadcode_elimination g) <->
            o ∈ operations g /\ op_name o ∈ live_operations g) as Hsurv.
  { intros o. unfold deadcode_elimination.
    set (dead := filter (fun op => op_name op ∉ live_operations g) (operations g)).
    destruct (remove_all dead g Hnd) as [-> _]. rewrite list_elem_of_filter. split.
    - intros [Hn Ho]. split; [done|]. destruct (decide (op_name o ∈ live_operations g)); [done|].
      exfalso. apply Hn, list_elem_of_fmap_2, list_elem_of_filter. done.
    - intros [Ho Hl]. split; [|done].
      intros (o' & He & [Hd _]%list_elem_of_filter)%list_elem_of_fmap. apply Hd. by rewrite <- He. }
  apply Hsurv. split; [done|]. apply live_operations_spec; [done..|].
  apply (live_writer g w b); [done..|]. destruct Hneed as [Hs | [Hop Hn]]; [by apply live_seed|].
  apply Hsurv in Hop as [Hop Hl]. apply (live_needed g op); [|done].
  by apply live_operations_spec.
Qed.

Lemma deadcode_keeps_producers_witness :
  mkOp "op0" ["in"%string] ["acc"%string] (ComputedBuffer None)
    ∈ operations (deadcode_elimination loop_graph).
Proof.
  apply (deadcode_keeps_producers loop_graph
    (mkOp "upd" ["x"%string] ["u"%string] (ComputedBuffer (Some "acc"%string))) "acc"%string);
    [apply loop_graph_names | simpl; list_mem | simpl; list_mem |].
  right. split; [vm_compute; list_mem | vm_compute; reflexivity || set_solver].
Defined.
