(* ===== verification/Liveness.v ===== *)
(** * Liveness for scratchpad planning ([scratchpad/utils.py])

    [calculate_liveness] gives every buffer the indices of the operations that
    access it; [counted_loop_lifetime_overrides] widens the lifetime of values that
    cross into a counted loop, whose body appears once in the graph but runs many
    times; [ops_in_offset_mutation_component] closes a set of operations under
    data flow.  The theorems connect the first two to the constructor assertions
    and the lifetimes of [PlanSolver]. *)

From S2P Require Import Prelude PlanSolver.

(** What these functions ask of an Inductor operation: [op_read_writes] as the
    names of its dependencies (one entry per dependency, so a name can repeat),
    [loop_info.loop_group_id], whether it is an [ExternKernel], the target of a
    [MutationLayoutSHOULDREMOVE], and whether it writes at a constant offset
    (sympy's judgement of a dependency's index). *)
Record Operation := mkOp {
  op_name : string;
  reads : list string;
  writes : list string;
  loop_group_id : list nat;
  is_extern : bool;
  mutation_target : option string;
  writes_at_constant_offset : bool
}.

Record GraphLowering := mkLowering {
  operations : list Operation;
  graph_input_names : list string
}.

(** [rw.reads | rw.writes] *)
Definition accesses (op : Operation) : list string := reads op ++ writes op.

(** The operations with their indices. *)
Definition indexed (g : GraphLowering) : list (Z * Operation) :=
  imap (fun i op => (Z.of_nat i, op)) (operations g).

(** ** [calculate_liveness] *)

(** [uses = liveness.setdefault(name, [])], then append [i] unless it is the tail. *)
Definition note_use (i : Z) (m : gmap string (list Z)) (name : string) : gmap string (list Z) :=
  let us := default [] (m !! name) in
  <[name := if bool_decide (last us = Some i) then us else us ++ [i]]> m.

Definition note_op (m : gmap string (list Z)) (iop : Z * Operation) : gmap string (list Z) :=
  foldl (note_use iop.1) m (accesses iop.2).

Definition calculate_liveness (g : GraphLowering) : gmap string (list Z) :=
  foldl note_op (foldl (fun m n => <[n := []]> m) ∅ (graph_input_names g)) (indexed g).

(** ** Counted loops *)

Definition counted_loop_group_path (op : Operation) : list nat :=
  if is_extern op then [] else loop_group_id op.

Definition counted_loop_entry (ops : list Operation) (op : Operation) : option Operation :=
  let outer := take 1 (counted_loop_group_path op) in
  if bool_decide (outer = []) then None
  else snd <$> list_find (fun o => take 1 (counted_loop_group_path o) = outer) ops.

(** The five dicts of the first pass. *)
Record loop_facts := mkFacts {
  loop_start : gmap (list nat) Z;
  loop_end : gmap (list nat) Z;
  birth_group : gmap string (list nat);
  first_access : gmap string Z;
  last_access : gmap string Z
}.

(** [d.setdefault(k, v)] *)
Definition setdefault {K V} `{Countable K} (k : K) (v : V) (d : gmap K V) : gmap K V :=
  match d !! k with Some _ => d | None => <[k := v]> d end.

(** The loops an operation runs in, outermost first: [path[:depth]]. *)
Definition loops_of (path : list nat) : list (list nat) :=
  (fun d => take d path) <$> seq 1 (length path).

Definition note_loop (i : Z) (f : loop_facts) (loop : list nat) : loop_facts :=
  mkFacts (setdefault loop i (loop_start f)) (<[loop := i]> (loop_end f))
    (birth_group f) (first_access f) (last_access f).

(** One access: the birth group, the first and the last index. *)
Definition note_access (path : list nat) (i : Z) (f : loop_facts) (n : string) : loop_facts :=
  mkFacts (loop_start f) (loop_end f) (setdefault n path (birth_group f))
    (setdefault n i (first_access f)) (<[n := i]> (last_access f)).

Definition scan_op (f : loop_facts) (iop : Z * Operation) : loop_facts :=
  let path := counted_loop_group_path iop.2 in
  let f1 := foldl (note_loop iop.1) f (loops_of path) in
  let f2 := foldl (note_access path iop.1) f1 (writes iop.2) in
  foldl (note_access [] iop.1) f2 (reads iop.2).

Definition scan (g : GraphLowering) : loop_facts :=
  foldl scan_op
    (mkFacts ∅ ∅ (foldl (fun m n => <[n := []]> m) ∅ (graph_input_names g)) ∅ ∅) (indexed g).

(** The [while] loop: the length of the common prefix. *)
Fixpoint common_prefix (p c : list nat) : nat :=
  match p, c with
  | x :: p', y :: c' => if (x =? y)%nat then S (common_prefix p' c') else 0%nat
  | _, _ => 0%nat
  end.

Definition overrides : Type := gmap string Z * gmap string Z.

(** One read [n] of the operation at [index] with loop path [consumer_path]. *)
Definition cross_read (f : loop_facts) (index : Z) (consumer_path : list nat) (n : string)
    (ov : overrides) : res overrides :=
  let producer_path := default [] (birth_group f !! n) in
  let common := common_prefix producer_path consumer_path in
  if (common =? length consumer_path)%nat then Ok ov
  else
    let enclosing_loop := take (common + 1) consumer_path in
    match loop_start f !! enclosing_loop, loop_end f !! enclosing_loop with
    | Some start, Some lend =>
        let end_ := lend + 1 in
        let s' := if start <? default index (first_access f !! n)
                  then <[n := Z.min (default start (ov.1 !! n)) start]> ov.1 else ov.1 in
        let e' := if default index (last_access f !! n) + 1 <? end_
                  then <[n := Z.max (default 0 (ov.2 !! n)) end_]> ov.2 else ov.2 in
        Ok (s', e')
    | _, _ => Raise KeyError
    end.

Definition cross_op (f : loop_facts) (iop : Z * Operation) (ov : overrides) : res overrides :=
  let consumer_path := counted_loop_group_path iop.2 in
  if bool_decide (consumer_path = []) then Ok ov
  else for_each (cross_read f iop.1 consumer_path) (reads iop.2) ov.

Definition counted_loop_lifetime_overrides (g : GraphLowering) : res overrides :=
  for_each (cross_op (scan g)) (indexed g) (∅, ∅).

(** ** [ops_in_offset_mutation_component] *)

(** [successors.setdefault(k, set()).add(v)] *)
Definition add_succ (k v : string) (m : gmap string (gset string)) : gmap string (gset string) :=
  <[k := {[v]} ∪ default ∅ (m !! k)]> m.

Definition succ_op (m : gmap string (gset string)) (op : Operation) : gmap string (gset string) :=
  let m1 := foldl (fun m n => add_succ n (op_name op) m) m (reads op) in
  match mutation_target op with
  | Some t => add_succ t (op_name op) (add_succ (op_name op) t m1)
  | None => m1
  end.

Definition successors (g : GraphLowering) : gmap string (gset string) :=
  foldl succ_op ∅ (operations g).

Definition succs (m : gmap string (gset string)) (n : string) : gset string := default ∅ (m !! n).

(** The worklist loop; the stack's top is the head. *)
Fixpoint close (fuel : nat) (m : gmap string (gset string)) (stack : list string)
    (reached : gset string) : res (gset string) :=
  match stack with
  | [] => Ok reached
  | name :: stack' =>
      match fuel with
      | O => Raise OutOfFuel
      | S fuel' =>
          if bool_decide (name ∈ reached) then close fuel' m stack' reached
          else close fuel' m (elements (succs m name) ++ stack') ({[name]} ∪ reached)
      end
  end.

(** The edges not yet followed: with the stack it bounds the iterations. *)
Definition pending_edges (m : gmap string (gset string)) (reached : gset string) : nat :=
  sum_list ((fun e => if bool_decide (e.1 ∈ reached) then 0%nat else size e.2) <$> map_to_list m).

Definition ops_in_offset_mutation_component (g : GraphLowering) : res (gset string) :=
  let seeds := op_name <$> filter (fun op => writes_at_constant_offset op = true) (operations g) in
  if bool_decide (seeds = []) then Ok ∅
  else
    let m := successors g in
    reached ← close (length seeds + pending_edges m ∅) m seeds ∅;
    Ok (reached ∩ list_to_set (op_name <$> operations g)).

(** ** Reference definitions *)

(** The indices of the operations that satisfy a test, in order. *)
Definition indices (P : Operation -> Prop) `{!forall op, Decision (P op)} (g : GraphLowering)
    : list Z :=
  fst <$> filter (fun iop => P iop.2) (indexed g).

Definition access_indices (g : GraphLowering) (n : string) : list Z :=
  indices (fun op => n ∈ accesses op) g.

Definition loop_indices (g : GraphLowering) (loop : list nat) : list Z :=
  indices (fun op => loop <> [] /\ loop `prefix_of` counted_loop_group_path op) g.

(** The loop a value is born in: that of its first access when it is a write, and
    none for a graph input or a value that is read first. *)
Definition birth_path (g : GraphLowering) (n : string) : list nat :=
  if bool_decide (n ∈ graph_input_names g) then []
  else match list_find (fun op => n ∈ accesses op) (operations g) with
       | Some (_, op) => if bool_decide (n ∈ writes op) then counted_loop_group_path op else []
       | None => []
       end.

(** One step of data flow: from a buffer to its reader, and both ways between an
    update and its target. *)
Inductive flow (g : GraphLowering) : string -> string -> Prop :=
  | flow_read op n : op ∈ operations g -> n ∈ reads op -> flow g n (op_name op)
  | flow_update op t : op ∈ operations g -> mutation_target op = Some t -> flow g (op_name op) t
  | flow_target op t : op ∈ operations g -> mutation_target op = Some t -> flow g t (op_name op).

(** ** The indices *)

Lemma indexed_snoc ops ins op :
  indexed (mkLowering (ops ++ [op]) ins) =
  indexed (mkLowering ops ins) ++ [(Z.of_nat (length ops), op)].
Proof. unfold indexed. cbn [operations]. rewrite imap_app. simpl. by rewrite Nat.add_0_r. Qed.

Lemma elem_of_indexed g i op :
  (i, op) ∈ indexed g <-> exists k, i = Z.of_nat k /\ operations g !! k = Some op.
Proof.
  unfold indexed. rewrite list_elem_of_lookup. split.
  - intros [k Hk]. rewrite list_lookup_imap in Hk. exists k.
    destruct (operations g !! k); simplify_eq/=; done.
  - intros (k & -> & Hk). exists k. by rewrite list_lookup_imap, Hk.
Qed.

Section indices.
Context (P : Operation -> Prop) `{HP : !forall op, Decision (P op)}.

Lemma indices_snoc ops ins op :
  indices P (mkLowering (ops ++ [op]) ins) =
  indices P (mkLowering ops ins) ++ (if decide (P op) then [Z.of_nat (length ops)] else []).
Proof.
  unfold indices. rewrite indexed_snoc, filter_app, fmap_app, filter_cons. cbn [snd].
  by destruct (decide (P op)).
Qed.

Lemma elem_of_indices g i :
  i ∈ indices P g <-> exists k op, i = Z.of_nat k /\ operations g !! k = Some op /\ P op.
Proof.
  unfold indices. rewrite list_elem_of_fmap. split.
  - intros ([j op] & -> & [Hp (k & -> & Hk)%elem_of_indexed]%list_elem_of_filter). eauto.
  - intros (k & op & -> & Hk & Hp). exists (Z.of_nat k, op). split; [done|].
    apply list_elem_of_filter. split; [done|]. apply elem_of_indexed. eauto.
Qed.

Lemma indices_sorted g : StronglySorted Z.lt (indices P g).
Proof.
  destruct g as [ops ins]. induction ops as [|op ops IH] using rev_ind; [constructor|].
  rewrite indices_snoc. destruct (decide (P op)); [|by rewrite app_nil_r].
  apply StronglySorted_app. split_and!; [|done|repeat constructor].
  intros i j (k & o & -> & Hk & _)%elem_of_indices ->%list_elem_of_singleton.
  apply lookup_lt_Some in Hk. simpl in Hk. lia.
Qed.

End indices.

Lemma strictly_increasing_sorted l : StronglySorted Z.lt l -> strictly_increasing l = true.
Proof.
  induction 1 as [|x l Hs IH Hx]; [done|]. destruct l as [|y l]; [done|].
  apply Forall_cons in Hx as [Hxy _]. change ((x <? y) && strictly_increasing (y :: l) = true).
  rewrite IH. by destruct (Z.ltb_spec x y); [|lia].
Qed.

(** In a sorted list the head is below and the last above every element. *)
Lemma sorted_head l x i : StronglySorted Z.lt l -> head l = Some x -> i ∈ l -> x <= i.
Proof.
  destruct 1 as [|y l Hs Hy]; simpl; [done|]. intros [= ->] [-> | Hi]%elem_of_cons; [lia|].
  rewrite Forall_forall in Hy. specialize (Hy i Hi). lia.
Qed.

Lemma sorted_last l x i : StronglySorted Z.lt l -> last l = Some x -> i ∈ l -> i <= x.
Proof.
  induction 1 as [|y l Hs IH Hy]; [done|]. destruct l as [|z l].
  - intros [= ->] ->%list_elem_of_singleton. lia.
  - intros Hl [-> | Hi]%elem_of_cons; [|by apply IH].
    change (last (z :: l) = Some x) in Hl. apply last_Some in Hl as [l' Hl].
    rewrite Forall_forall in Hy. specialize (Hy x). rewrite Hl in Hy.
    assert (y < x) by (apply Hy; list_mem). lia.
Qed.

(** ** [calculate_liveness] *)

Lemma decide_elem_cons {K A} `{EqDecision K} (n a : K) (l : list K) (x y : A) :
  (if decide (n ∈ a :: l) then x else y) =
  if decide (n = a) then x else if decide (n ∈ l) then x else y.
Proof.
  destruct (decide (n ∈ a :: l)) as [[-> | H]%elem_of_cons | Hn].
  - by rewrite decide_True.
  - destruct (decide (n = a)); [done|]. by rewrite decide_True.
  - apply not_elem_of_cons in Hn as [? ?]. by rewrite !decide_False.
Qed.

Lemma setdefault_lookup {K V} `{Countable K} (k n : K) (v : V) d :
  setdefault k v d !! n =
  match d !! n with Some x => Some x | None => if decide (n = k) then Some v else None end.
Proof.
  unfold setdefault. destruct (decide (n = k)) as [-> | Hne].
  - destruct (d !! k) eqn:Hk; [done|]. by rewrite lookup_insert_eq.
  - destruct (d !! k); [|rewrite lookup_insert_ne by done]; by destruct (d !! n).
Qed.

Lemma insert_lookup_dec {K V} `{Countable K} (k n : K) (v : V) (d : gmap K V) :
  <[k := v]> d !! n = if decide (n = k) then Some v else d !! n.
Proof.
  destruct (decide (n = k)) as [-> | Hne]; [apply lookup_insert_eq | by apply lookup_insert_ne].
Qed.

Lemma note_op_lookup i op m n :
  note_op m (i, op) !! n =
  if decide (n ∈ accesses op)
  then let us := default [] (m !! n) in
       Some (if bool_decide (last us = Some i) then us else us ++ [i])
  else m !! n.
Proof.
  unfold note_op. cbn [fst snd]. revert m.
  induction (accesses op) as [|a l IH]; intros m; cbn [foldl].
  { rewrite decide_False; [done | apply not_elem_of_nil]. }
  rewrite IH, decide_elem_cons. unfold note_use. rewrite !insert_lookup_dec.
  destruct (decide (n = a)) as [-> | Hne]; [|done]. destruct (decide (a ∈ l)); [|done]. cbn.
  destruct (bool_decide (last (default [] (m !! a)) = Some i)) eqn:E; [by rewrite E|].
  by rewrite last_snoc, bool_decide_true.
Qed.

Lemma inputs_lookup {A} (x : A) l n : forall m : gmap string A,
  foldl (fun m k => <[k := x]> m) m l !! n = if decide (n ∈ l) then Some x else m !! n.
Proof.
  induction l as [|a l IH]; intros m; cbn [foldl].
  { rewrite decide_False; [done | apply not_elem_of_nil]. }
  rewrite IH, decide_elem_cons, insert_lookup_dec. by repeat case_decide.
Qed.

Lemma indices_not_next (P : Operation -> Prop) `{!forall op, Decision (P op)} ops ins :
  last (indices P (mkLowering ops ins)) <> Some (Z.of_nat (length ops)).
Proof.
  intros Hl. apply last_Some in Hl as [l Hl].
  assert (Z.of_nat (length ops) ∈ indices P (mkLowering ops ins)) as (k & op & ? & Hk & _)%elem_of_indices
    by (rewrite Hl; list_mem).
  apply lookup_lt_Some in Hk. simpl in Hk. lia.
Qed.

Lemma calculate_liveness_lookup g n :
  calculate_liveness g !! n =
  if decide (n ∈ graph_input_names g \/ access_indices g n <> [])
  then Some (access_indices g n) else None.
Proof.
  destruct g as [ops ins]. unfold access_indices, calculate_liveness. cbn [graph_input_names].
  induction ops as [|op ops IH] using rev_ind.
  - cbn [indexed operations imap foldl]. rewrite inputs_lookup.
    destruct (decide (n ∈ ins)); [rewrite decide_True by auto | rewrite decide_False by naive_solver]; done.
  - rewrite indexed_snoc, foldl_app, indices_snoc. cbn [foldl]. rewrite note_op_lookup, IH. clear IH.
    pose proof (indices_not_next (fun op => n ∈ accesses op) ops ins) as Hlast.
    set (us := indices (fun op => n ∈ accesses op) (mkLowering ops ins)) in *.
    destruct (decide (n ∈ accesses op)) as [Hn | Hn]; [|by rewrite app_nil_r].
    rewrite (decide_True (P := _ \/ us ++ _ <> [])) by (right; by destruct us).
    f_equal. case_decide as Hd; cbn [default id from_option].
    + by rewrite bool_decide_false.
    + destruct us; [done|]. exfalso. apply Hd. by right.
Qed.

(** [calculate_liveness] maps exactly the graph inputs and the buffers some
    operation accesses, each to the indices of the operations that access it; the
    list is strictly increasing, as [LifetimeBoundBuffer] demands, however many
    dependencies of one operation name the buffer. *)
Theorem liveness_exact g n :
  calculate_liveness g !! n =
    (if decide (n ∈ graph_input_names g \/ access_indices g n <> [])
     then Some (access_indices g n) else None) /\
  strictly_increasing (access_indices g n) = true /\
  (forall i, i ∈ access_indices g n <->
     exists k op, i = Z.of_nat k /\ operations g !! k = Some op /\ n ∈ accesses op).
Proof.
  split_and!; [apply calculate_liveness_lookup | | intros i; apply elem_of_indices].
  apply strictly_increasing_sorted, indices_sorted.
Qed.

(** ** The first pass over the loops *)

Lemma note_loops_lookup i ls f E :
  let f' := foldl (note_loop i) f ls in
  loop_start f' !! E =
    (match loop_start f !! E with
     | Some s => Some s | None => if decide (E ∈ ls) then Some i else None end) /\
  loop_end f' !! E = (if decide (E ∈ ls) then Some i else loop_end f !! E) /\
  birth_group f' = birth_group f /\ first_access f' = first_access f /\
  last_access f' = last_access f.
Proof.
  revert f. induction ls as [|L ls IH]; intros f; cbn [foldl].
  { rewrite !(decide_False (P := E ∈ [])) by apply not_elem_of_nil.
    split_and!; try done. by destruct (loop_start f !! E). }
  destruct (IH (note_loop i f L)) as (H1 & H2 & H3 & H4 & H5). clear IH.
  split_and!; [rewrite H1 | rewrite H2 | done | done | done]; cbn; rewrite decide_elem_cons.
  - rewrite setdefault_lookup. by destruct (loop_start f !! E), (decide (E = L)).
  - rewrite insert_lookup_dec. by repeat case_decide.
Qed.

Lemma note_accesses_lookup path i ns f n :
  let f' := foldl (note_access path i) f ns in
  birth_group f' !! n =
    (match birth_group f !! n with
     | Some p => Some p | None => if decide (n ∈ ns) then Some path else None end) /\
  first_access f' !! n =
    (match first_access f !! n with
     | Some a => Some a | None => if decide (n ∈ ns) then Some i else None end) /\
  last_access f' !! n = (if decide (n ∈ ns) then Some i else last_access f !! n) /\
  loop_start f' = loop_start f /\ loop_end f' = loop_end f.
Proof.
  revert f. induction ns as [|a ns IH]; intros f; cbn [foldl].
  { rewrite !(decide_False (P := n ∈ [])) by apply not_elem_of_nil.
    split_and!; try done; [by destruct (birth_group f !! n) | by destruct (first_access f !! n)]. }
  destruct (IH (note_access path i f a)) as (H1 & H2 & H3 & H4 & H5). clear IH.
  split_and!; [rewrite H1 | rewrite H2 | rewrite H3 | done | done]; cbn; rewrite decide_elem_cons.
  - rewrite setdefault_lookup. by destruct (birth_group f !! n), (decide (n = a)).
  - rewrite setdefault_lookup. by destruct (first_access f !! n), (decide (n = a)).
  - rewrite insert_lookup_dec. by repeat case_decide.
Qed.

Lemma elem_of_loops_of path E : E ∈ loops_of path <-> E <> [] /\ E `prefix_of` path.
Proof.
  unfold loops_of. rewrite list_elem_of_fmap. setoid_rewrite elem_of_seq. split.
  - intros (d & -> & Hd). split; [|apply prefix_take].
    intros H. apply (f_equal length) in H. rewrite length_take in H. simpl in H. lia.
  - intros [HE [k ->]]. exists (length E). rewrite take_app_length, length_app. split; [done|].
    destruct E; [done|]. simpl. lia.
Qed.

Lemma decide_iff {P Q : Prop} `{!Decision P, !Decision Q} {A} (x y : A) :
  (P <-> Q) -> (if decide P then x else y) = if decide Q then x else y.
Proof. intros H. repeat case_decide; tauto. Qed.

(** One operation of the first pass, on every dict. *)
Lemma scan_op_lookup i op f E n :
  let f' := scan_op f (i, op) in
  let path := counted_loop_group_path op in
  loop_start f' !! E =
    (match loop_start f !! E with
     | Some s => Some s
     | None => if decide (E <> [] /\ E `prefix_of` path) then Some i else None end) /\
  loop_end f' !! E =
    (if decide (E <> [] /\ E `prefix_of` path) then Some i else loop_end f !! E) /\
  first_access f' !! n =
    (match first_access f !! n with
     | Some a => Some a | None => if decide (n ∈ accesses op) then Some i else None end) /\
  last_access f' !! n = (if decide (n ∈ accesses op) then Some i else last_access f !! n) /\
  birth_group f' !! n =
    (match birth_group f !! n with
     | Some p => Some p
     | None => if decide (n ∈ accesses op)
               then Some (if bool_decide (n ∈ writes op) then path else []) else None end).
Proof.
  unfold scan_op. cbn [fst snd]. set (path := counted_loop_group_path op).
  destruct (note_loops_lookup i (loops_of path) f E) as (L1 & L2 & L3 & L4 & L5).
  set (f1 := foldl (note_loop i) f (loops_of path)) in *.
  destruct (note_accesses_lookup path i (writes op) f1 n) as (W1 & W2 & W3 & W4 & W5).
  set (f2 := foldl (note_access path i) f1 (writes op)) in *.
  destruct (note_accesses_lookup [] i (reads op) f2 n) as (R1 & R2 & R3 & R4 & R5).
  set (f3 := foldl (note_access [] i) f2 (reads op)) in *. cbn zeta.
  rewrite R4, R5, W4, W5, L1, L2, R1, R2, R3, W1, W2, W3, L3, L4, L5.
  clear L1 L2 L3 L4 L5 W1 W2 W3 W4 W5 R1 R2 R3 R4 R5.
  rewrite !(decide_iff (P := E ∈ loops_of path) _ _ (elem_of_loops_of path E)).
  rewrite !(decide_iff (P := n ∈ accesses op) (Q := n ∈ reads op \/ n ∈ writes op))
    by apply elem_of_app.
  split_and!; [done | done | | |];
    [destruct (first_access f !! n); [done|] | | destruct (birth_group f !! n); [done|]];
    destruct (decide (n ∈ writes op)) as [Hw | Hw], (decide (n ∈ reads op)) as [Hr | Hr];
    rewrite ?(bool_decide_true _ Hw), ?(bool_decide_false _ Hw);
    case_decide; try done; tauto.
Qed.

Lemma head_snoc {A} (l : list A) x :
  head (l ++ [x]) = match head l with Some y => Some y | None => Some x end.
Proof. by destruct l. Qed.

(** What the first pass knows when it ends. *)
Lemma scan_spec g E n :
  loop_start (scan g) !! E = head (loop_indices g E) /\
  loop_end (scan g) !! E = last (loop_indices g E) /\
  first_access (scan g) !! n = head (access_indices g n) /\
  last_access (scan g) !! n = last (access_indices g n) /\
  birth_group (scan g) !! n =
    (if bool_decide (n ∈ graph_input_names g) then Some []
     else match list_find (fun op => n ∈ accesses op) (operations g) with
          | Some (_, op) => Some (if bool_decide (n ∈ writes op)
                                  then counted_loop_group_path op else [])
          | None => None
          end).
Proof.
  destruct g as [ops ins]. unfold loop_indices, access_indices, scan.
  cbn [graph_input_names operations]. induction ops as [|op ops IH] using rev_ind.
  - cbn. rewrite inputs_lookup. split_and!; try done. by repeat case_decide.
  - rewrite indexed_snoc, foldl_app, !indices_snoc. cbn [foldl].
    match goal with |- context [scan_op ?f ?iop] => set (f0 := f) in * end.
    destruct IH as (H1 & H2 & H3 & H4 & H5).
    destruct (scan_op_lookup (Z.of_nat (length ops)) op f0 E n) as (S1 & S2 & S3 & S4 & S5).
    rewrite S1, S2, S3, S4, S5, H1, H2, H3, H4, H5. clear S1 S2 S3 S4 S5 H1 H2 H3 H4 H5.
    split_and!.
    + case_decide; [by rewrite head_snoc | rewrite app_nil_r; by case_match].
    + case_decide; [by rewrite last_snoc | by rewrite app_nil_r].
    + case_decide; [by rewrite head_snoc | rewrite app_nil_r; by case_match].
    + case_decide; [by rewrite last_snoc | by rewrite app_nil_r].
    + destruct (bool_decide (n ∈ ins)); [done|].
      destruct (list_find _ ops) as [[k o]|] eqn:Hf.
      * by rewrite (list_find_app_l _ _ _ _ _ Hf).
      * rewrite list_find_app_r by done. cbn. by case_decide.
Qed.

Lemma birth_path_scan g n : default [] (birth_group (scan g) !! n) = birth_path g n.
Proof.
  destruct (scan_spec g [] n) as (_ & _ & _ & _ & ->). unfold birth_path.
  destruct (bool_decide _); [done|]. by destruct (list_find _ _) as [[? ?]|].
Qed.

(** ** The second pass *)

Lemma common_prefix_spec p c :
  (common_prefix p c <= length c)%nat /\ take (common_prefix p c) c `prefix_of` p.
Proof.
  revert c. induction p as [|x p IH]; intros [|y c]; simpl; try (split; [lia | apply prefix_nil]).
  destruct (Nat.eqb_spec x y) as [-> | _]; simpl; [|split; [lia | apply prefix_nil]].
  destruct (IH c) as [H1 H2]. split; [lia | by apply prefix_cons].
Qed.

(** The enclosing loop is the outermost loop of the reader the value was born
    outside of. *)
Lemma enclosing_prefix p c E :
  E `prefix_of` c -> ~ E `prefix_of` p ->
  (common_prefix p c < length c)%nat /\ take (common_prefix p c + 1) c `prefix_of` E.
Proof.
  intros [k ->] Hp. destruct (common_prefix_spec p (E ++ k)) as [Hle Hpre].
  set (m := common_prefix p (E ++ k)) in *.
  destruct (decide (length E <= m)%nat) as [H | H].
  - exfalso. apply Hp. etrans; [|exact Hpre]. rewrite take_app_ge by done. by exists (take (m - length E) k).
  - rewrite length_app. split; [lia|]. rewrite take_app_le by lia. apply prefix_take.
Qed.

(** The lifetime a buffer gets from its accesses and the overrides, as
    [LifetimeBoundBuffer.start_time] and [end_time] compute it. *)
Definition lo (g : GraphLowering) (ov : overrides) (n : string) : Z :=
  let a := default 0 (head (access_indices g n)) in Z.min a (default a (ov.1 !! n)).
Definition hi (g : GraphLowering) (ov : overrides) (n : string) : Z :=
  let a := default 0 (last (access_indices g n)) + 1 in Z.max a (default a (ov.2 !! n)).

(** The overrides only ever widen the accesses. *)
Definition widening (g : GraphLowering) (ov : overrides) : Prop :=
  forall n,
    (forall s, ov.1 !! n = Some s -> s <= default 0 (head (access_indices g n))) /\
    (forall e, ov.2 !! n = Some e -> default 0 (last (access_indices g n)) + 1 <= e).

Lemma accessed_bounds (P : Operation -> Prop) `{!forall op, Decision (P op)} g k op :
  operations g !! k = Some op -> P op ->
  exists a z, head (indices P g) = Some a /\ last (indices P g) = Some z /\
    0 <= a <= Z.of_nat k /\ Z.of_nat k <= z.
Proof.
  intros Hk Hp. assert (Z.of_nat k ∈ indices P g) as Hin by (apply elem_of_indices; eauto).
  pose proof (indices_sorted P g) as Hs.
  destruct (head (indices P g)) as [a|] eqn:Ha; [|by destruct (indices P g); [apply elem_of_nil in Hin|]].
  destruct (last (indices P g)) as [z|] eqn:Hz;
    [|apply last_None in Hz; rewrite Hz in Hin; by apply elem_of_nil in Hin].
  exists a, z. split_and!; [done | done | | | ].
  - assert (a ∈ indices P g) as (j & o & -> & _)%elem_of_indices; [|lia].
    destruct (indices P g); simplify_eq/=. list_mem.
  - by eapply sorted_head.
  - by eapply sorted_last.
Qed.

(** The two assignments of [cross_read] for a loop [s..e] and a value accessed from
    [a] to [z]. *)
Definition crossed (n : string) (s e a z : Z) (ov : overrides) : overrides :=
  (if s <? a then <[n := Z.min (default s (ov.1 !! n)) s]> ov.1 else ov.1,
   if z + 1 <? e + 1 then <[n := Z.max (default 0 (ov.2 !! n)) (e + 1)]> ov.2 else ov.2).

Lemma crossed_ne n s e a z ov m :
  m <> n -> (crossed n s e a z ov).1 !! m = ov.1 !! m /\ (crossed n s e a z ov).2 !! m = ov.2 !! m.
Proof. intros Hm. cbn. split; case_match; rewrite ?lookup_insert_ne by done; done. Qed.

Lemma crossed_spec g n s e a z ov :
  head (access_indices g n) = Some a -> last (access_indices g n) = Some z -> widening g ov ->
  let ov' := crossed n s e a z ov in
  widening g ov' /\ (forall m, lo g ov' m <= lo g ov m /\ hi g ov m <= hi g ov' m) /\
  lo g ov' n <= s /\ e < hi g ov' n.
Proof.
  intros Ha Hz Hw ov'. destruct (Hw n) as [Hw1 Hw2]. rewrite Ha in Hw1. rewrite Hz in Hw2.
  cbn in Hw1, Hw2.
  assert ((forall s', ov'.1 !! n = Some s' -> s' <= a) /\ (forall e', ov'.2 !! n = Some e' ->  z + 1 <= e') /\
    lo g ov' n <= lo g ov n /\ hi g ov n <= hi g ov' n /\ lo g ov' n <= s /\ e < hi g ov' n) as Hn.
  { unfold lo, hi, ov', crossed. cbn [fst snd]. rewrite Ha, Hz. cbn.
    destruct (ov.1 !! n) as [so|] eqn:Hso, (ov.2 !! n) as [eo|] eqn:Heo;
      try pose proof (Hw1 _ eq_refl); try pose proof (Hw2 _ eq_refl); clear Hw1 Hw2; cbn;
      zcases; rewrite ?lookup_insert_eq, ?Hso, ?Heo; cbn; split_and!; intros; simplify_eq; lia. }
  split_and!; [| | tauto | tauto].
  - intros m. destruct (decide (m = n)) as [-> | Hm]; [rewrite Ha, Hz; cbn; tauto|].
    destruct (crossed_ne n s e a z ov m Hm) as [H1 H2]. unfold ov'. rewrite H1, H2. apply Hw.
  - intros m. destruct (decide (m = n)) as [-> | Hm]; [tauto|]. unfold lo, hi, ov'.
    destruct (crossed_ne n s e a z ov m Hm) as [-> ->]. lia.
Qed.

Lemma cross_read_spec g k op n ov :
  operations g !! k = Some op -> n ∈ reads op -> widening g ov ->
  exists ov', cross_read (scan g) (Z.of_nat k) (counted_loop_group_path op) n ov = Ok ov' /\
    widening g ov' /\
    (forall m, lo g ov' m <= lo g ov m /\ hi g ov m <= hi g ov' m) /\
    (forall E j op', E `prefix_of` counted_loop_group_path op -> ~ E `prefix_of` birth_path g n ->
       operations g !! j = Some op' -> E `prefix_of` counted_loop_group_path op' ->
       lo g ov' n <= Z.of_nat j < hi g ov' n).
Proof.
  intros Hk Hn Hw. unfold cross_read. rewrite birth_path_scan.
  set (path := counted_loop_group_path op) in *. set (common := common_prefix (birth_path g n) path).
  destruct (Nat.eqb_spec common (length path)) as [Heq | Hne].
  { exists ov. split_and!; [done | done | intros; lia |]. intros E j op' HE HnE.
    pose proof (enclosing_prefix _ _ _ HE HnE). subst common. lia. }
  set (L := take (common + 1) path).
  assert (L <> [] /\ L `prefix_of` path) as HL.
  { split; [|apply prefix_take]. intros H. apply (f_equal length) in H.
    subst L. rewrite length_take in H. pose proof (common_prefix_spec (birth_path g n) path).
    simpl in H. subst common. lia. }
  destruct (scan_spec g L n) as (-> & -> & -> & -> & _).
  destruct (accessed_bounds (fun op => L <> [] /\ L `prefix_of` counted_loop_group_path op) g k op Hk HL)
    as (s & e & Hs & He & _). fold (loop_indices g L) in Hs, He. rewrite Hs, He.
  destruct (accessed_bounds (fun op => n ∈ accesses op) g k op Hk) as (a & z & Ha & Hz & _);
    [apply elem_of_app; by left|]. fold (access_indices g n) in Ha, Hz. rewrite Ha, Hz.
  destruct (crossed_spec g n s e a z ov Ha Hz Hw) as (Hw' & Hmono & Hlo & Hhi).
  exists (crossed n s e a z ov). split_and!; [done | done | done |].
  intros E j op' HE HnE Hj HEj.
  assert (L <> [] /\ L `prefix_of` counted_loop_group_path op') as HLj.
  { split; [apply HL|]. etrans; [|exact HEj]. by apply enclosing_prefix. }
  destruct (accessed_bounds (fun op => L <> [] /\ L `prefix_of` counted_loop_group_path op) g j op' Hj HLj)
    as (s' & e' & Hs' & He' & Hj1 & Hj2). fold (loop_indices g L) in Hs', He'.
  same_lookup Hs Hs'. same_lookup He He'. lia.
Qed.

(** The value read by one access stays live over the loops it crosses into. *)
Definition covered (g : GraphLowering) (ov : overrides) (op : Operation) (n : string) : Prop :=
  forall E j op', E <> [] -> E `prefix_of` counted_loop_group_path op ->
    ~ E `prefix_of` birth_path g n ->
    operations g !! j = Some op' -> E `prefix_of` counted_loop_group_path op' ->
    lo g ov n <= Z.of_nat j < hi g ov n.

Definition wider (g : GraphLowering) (ov ov' : overrides) : Prop :=
  forall m, lo g ov' m <= lo g ov m /\ hi g ov m <= hi g ov' m.

Lemma covered_wider g ov ov' op n : wider g ov ov' -> covered g ov op n -> covered g ov' op n.
Proof.
  intros Hwd Hc E j op' H1 H2 H3 H4 H5. specialize (Hwd n).
  specialize (Hc E j op' H1 H2 H3 H4 H5). lia.
Qed.

Lemma cross_op_spec g k op ov :
  operations g !! k = Some op -> widening g ov ->
  exists ov', cross_op (scan g) (Z.of_nat k, op) ov = Ok ov' /\ widening g ov' /\ wider g ov ov' /\
    (forall n, n ∈ reads op -> covered g ov' op n).
Proof.
  intros Hk Hw. unfold cross_op. cbn [fst snd].
  case_bool_decide as Hp.
  { exists ov. split_and!; [done | done | intros m; lia |]. intros n Hn E j op' HE H _ _ _.
    rewrite Hp in H. by apply prefix_nil_inv in H. }
  destruct (for_each_total (cross_read (scan g) (Z.of_nat k) (counted_loop_group_path op))
    (fun done ov' => widening g ov' /\ wider g ov ov' /\ forall n, n ∈ done -> covered g ov' op n)
    (reads op) ov) as (ov' & Hrun & HI); [| |by exists ov'].
  - intros dn n rest ov1 Hl (Hw1 & Hwd & Hc).
    destruct (cross_read_spec g k op n ov1 Hk) as (ov2 & -> & Hw2 & Hwd2 & Hc2);
      [rewrite Hl; list_mem | done |].
    exists ov2. split_and!; [done | done | |].
    + intros m. specialize (Hwd m). specialize (Hwd2 m). lia.
    + intros m [Hm | ->%list_elem_of_singleton]%elem_of_app.
      * by eapply covered_wider, Hc.
      * intros E j op' _. apply Hc2.
  - split_and!; [done | intros m; lia |]. intros n Hn. by apply elem_of_nil in Hn.
Qed.

Lemma overrides_spec g :
  exists ov, counted_loop_lifetime_overrides g = Ok ov /\ widening g ov /\
    (forall k op n, operations g !! k = Some op -> n ∈ reads op -> covered g ov op n).
Proof.
  destruct (for_each_total (cross_op (scan g))
    (fun done ov => widening g ov /\
       forall iop n, iop ∈ done -> n ∈ reads iop.2 -> covered g ov iop.2 n)
    (indexed g) (∅, ∅)) as (ov & Hrun & Hw & Hc).
  - intros dn [i op] rest ov1 Hl (Hw1 & Hc1).
    assert ((i, op) ∈ indexed g) as (k & -> & Hk)%elem_of_indexed by (rewrite Hl; list_mem).
    destruct (cross_op_spec g k op ov1 Hk Hw1) as (ov2 & -> & Hw2 & Hwd & Hc2).
    exists ov2. split_and!; [done | done |].
    intros iop n [Hi | ->%list_elem_of_singleton]%elem_of_app Hn; [|by apply Hc2].
    by eapply covered_wider, Hc1.
  - split; [by intros n|]. intros iop n Hn. by apply elem_of_nil in Hn.
  - exists ov. split_and!; [done | done |]. intros k op n Hk. apply (Hc (Z.of_nat k, op)).
    apply elem_of_indexed. eauto.
Qed.

(** A buffer whose lifetime fields come from the two liveness functions. *)
Definition built_from (g : GraphLowering) (ov : overrides) (n : string) (b : LifetimeBoundBuffer)
    : Prop :=
  calculate_liveness g !! n = Some (uses b) /\ uses b <> [] /\
  lifetime_start_override b = ov.1 !! n /\ lifetime_end_override b = ov.2 !! n.

Lemma built_times g ov n b :
  widening g ov -> built_from g ov n b -> start_time b = lo g ov n /\ end_time b = hi g ov n.
Proof.
  intros Hw (Hl & Hne & Hs & He). rewrite calculate_liveness_lookup in Hl. case_decide; [|done].
  injection Hl as Hl. unfold start_time, end_time, lo, hi. rewrite Hs, He, Hl. split; [done|].
  destruct (ov.2 !! n) as [e|] eqn:Hn; [|done]. cbn. zcases. cbn. subst e.
  apply (proj2 (Hw n)) in Hn.
  assert (exists z, last (uses b) = Some z /\ z ∈ access_indices g n) as (z & Hz & Hin).
  { destruct (last (uses b)) as [z|] eqn:Hz; [|by apply last_None in Hz].
    exists z. split; [done|]. rewrite Hl. apply last_Some in Hz as [k ->]. list_mem. }
  apply elem_of_indices in Hin as (k & op & -> & _). rewrite Hl, Hz in Hn. cbn in Hn. lia.
Qed.

Lemma built_post_init g ov n b :
  widening g ov -> built_from g ov n b -> post_init b = Ok tt.
Proof.
  intros Hw (Hl & Hne & Hs & He). rewrite calculate_liveness_lookup in Hl. case_decide; [|done].
  injection Hl as Hl. unfold post_init. rewrite Hs, He, <- Hl.
  rewrite strictly_increasing_sorted by apply indices_sorted. cbn [py_assert mbind res_bind].
  destruct (Hw n) as [H1 H2].
  destruct (ov.1 !! n) as [s|] eqn:Es, (head (access_indices g n)) as [a|] eqn:Ea; cbn;
    destruct (ov.2 !! n) as [e|] eqn:Ee, (last (access_indices g n)) as [z|] eqn:Ez; cbn; try done;
    try specialize (H1 _ eq_refl); try specialize (H2 _ eq_refl); cbn in H1, H2;
    unfold py_assert; by zcases.
Qed.

(** The counted-loop analysis never fails -- every enclosing loop it looks up was
    recorded by the first pass -- and the buffer built from its overrides and from
    the liveness list passes the assertions of [LifetimeBoundBuffer.__post_init__]:
    the uses increase strictly and both overrides widen the lifetime. *)
Theorem liveness_builds_buffers g :
  exists ov, counted_loop_lifetime_overrides g = Ok ov /\
    forall n b, built_from g ov n b -> post_init b = Ok tt /\ start_time b < end_time b.
Proof.
  destruct (overrides_spec g) as (ov & Hov & Hw & _). exists ov. split; [done|].
  intros n b Hb. split; [by eapply built_post_init|].
  destruct (built_times g ov n b Hw Hb) as [-> ->]. destruct Hb as (Hl & Hne & _).
  rewrite calculate_liveness_lookup in Hl. case_decide; [|done]. injection Hl as Hl.
  assert (exists i, i ∈ access_indices g n) as [i Hi].
  { rewrite Hl. destruct (uses b) as [|i l]; [done|]. exists i. list_mem. }
  apply elem_of_indices in Hi as (k & op & -> & Hk & Hop).
  destruct (accessed_bounds (fun op => n ∈ accesses op) g k op Hk Hop) as (a & z & Ha & Hz & ? & ?).
  unfold lo, hi. fold (access_indices g n) in Ha, Hz. rewrite Ha, Hz. cbn. lia.
Qed.

(** C31. A value born outside a counted loop and read inside it is live over the whole
    textual interval of that loop: for every loop [E] around the reading operation
    that the value was not born in, every operation of [E] runs within
    [start_time, end_time) of the value's buffer, so no address reuse inside the
    body can clobber it across the back edge. *)
Theorem crossing_values_outlive_loop g ov k op n b E j op' :
  counted_loop_lifetime_overrides g = Ok ov -> built_from g ov n b ->
  operations g !! k = Some op -> n ∈ reads op ->
  E <> [] -> E `prefix_of` counted_loop_group_path op -> ~ E `prefix_of` birth_path g n ->
  operations g !! j = Some op' -> E `prefix_of` counted_loop_group_path op' ->
  start_time b <= Z.of_nat j < end_time b.
Proof.
  intros Hov Hb Hk Hn HE Hpre Hborn Hj Hpre'.
  destruct (overrides_spec g) as (ov1 & Hov1 & Hw & Hc). rewrite Hov in Hov1. injection Hov1 as <-.
  destruct (built_times g ov n b Hw Hb) as [-> ->]. by eapply (Hc k op n).
Qed.

(** A value [x] computed before a loop and read in its middle: its last textual read
    is operation 2, and operation 3 is still covered. *)
Definition loop_graph : GraphLowering :=
  mkLowering
    [ mkOp "op0" ["arg0"] ["x"] [] false None false;
      mkOp "op1" ["arg0"] ["t"] [0%nat] false None false;
      mkOp "op2" ["x"; "t"] ["u"] [0%nat] false None false;
      mkOp "op3" ["u"] ["v"] [0%nat] false None false ]
    ["arg0"].

Definition loop_buffer : LifetimeBoundBuffer :=
  mkBuffer "x" 64 [0; 2] false None [] None None None (Some 4) [] None [] [] ∅ None.

Lemma crossing_values_outlive_loop_witness :
  start_time loop_buffer <= 3 < end_time loop_buffer.
Proof.
  refine (crossing_values_outlive_loop loop_graph (∅, {[ "x"%string := 4; "arg0"%string := 4 ]}) 2
    (mkOp "op2" ["x"; "t"] ["u"] [0%nat] false None false) "x" loop_buffer [0%nat] 3
    (mkOp "op3" ["u"] ["v"] [0%nat] false None false) _ _ _ _ _ _ _ _ _);
    [vm_compute; reflexivity | split_and!; vm_compute; (reflexivity || discriminate)
    | reflexivity | list_mem | discriminate | | | reflexivity | ].
  - by exists [].
  - apply (bool_decide_unpack _). vm_compute. exact I.
  - by exists [].
Defined.

(** ** [ops_in_offset_mutation_component] *)

Lemma add_succ_spec k v m x y :
  y ∈ succs (add_succ k v m) x <-> (x = k /\ y = v) \/ y ∈ succs m x.
Proof.
  unfold succs, add_succ. rewrite insert_lookup_dec. destruct (decide (x = k)) as [-> | Hne]; cbn.
  - rewrite elem_of_union, elem_of_singleton. tauto.
  - tauto.
Qed.

Lemma add_succs_spec v l m x y :
  y ∈ succs (foldl (fun m n => add_succ n v m) m l) x <-> (x ∈ l /\ y = v) \/ y ∈ succs m x.
Proof.
  revert m. induction l as [|a l IH]; intros m; cbn [foldl].
  - rewrite elem_of_nil. tauto.
  - rewrite IH, add_succ_spec, elem_of_cons. tauto.
Qed.

(** The edge table is the data-flow relation. *)
Lemma successors_flow g x y : y ∈ succs (successors g) x <-> flow g x y.
Proof.
  assert (forall ops m, y ∈ succs (foldl succ_op m ops) x <->
            y ∈ succs m x \/ exists op, op ∈ ops /\
              ((x ∈ reads op /\ y = op_name op) \/
               (exists t, mutation_target op = Some t /\
                  ((x = op_name op /\ y = t) \/ (x = t /\ y = op_name op))))) as Hgen.
  { induction ops as [|op ops IH]; intros m; cbn [foldl].
    - setoid_rewrite elem_of_nil. naive_solver.
    - rewrite IH. setoid_rewrite elem_of_cons. clear IH. unfold succ_op at 1.
      destruct (mutation_target op) as [t|] eqn:Ht; rewrite ?add_succ_spec, add_succs_spec;
        naive_solver. }
  unfold successors. rewrite Hgen. unfold succs at 1. rewrite lookup_empty. cbn.
  rewrite elem_of_empty. split.
  - intros [[] | (op & Hop & [[H ->] | (t & Ht & [[-> ->] | [-> ->]])])];
      [by apply flow_read | by apply flow_update | by apply flow_target].
  - intros [op n Hop Hn | op t Hop Ht | op t Hop Ht]; right; exists op; eauto 10.
Qed.

Lemma pending_edges_add m reached n :
  n ∉ reached ->
  (pending_edges m ({[n]} ∪ reached) + size (succs m n) = pending_edges m reached)%nat.
Proof.
  intros Hn. unfold pending_edges, succs.
  set (w := fun (r : gset string) (e : string * gset string) =>
    if bool_decide (e.1 ∈ r) then 0%nat else size e.2).
  assert (forall l : list (string * gset string), n ∉ l.*1 ->
    w ({[n]} ∪ reached) <$> l = w reached <$> l) as Hsame.
  { intros l Hl. apply list_fmap_ext. intros i [k s] Hi. unfold w. cbn [fst snd].
    assert (k <> n).
    { intros ->. apply Hl, list_elem_of_fmap. exists (n, s). split; [done|].
      by eapply list_elem_of_lookup_2. }
    rewrite (bool_decide_ext (k ∈ {[n]} ∪ reached) (k ∈ reached)); [done | set_solver]. }
  assert (forall l k : list nat, l ≡ₚ k -> sum_list l = sum_list k) as Hperm.
  { induction 1; simpl; lia. }
  destruct (m !! n) as [s|] eqn:Hm; cbn [default from_option id].
  - rewrite <- (insert_id m n s Hm), <- insert_delete_eq.
    rewrite !(Hperm _ _ (fmap_Permutation _ _ _ (map_to_list_insert _ n s (lookup_delete_eq m n)))).
    cbn [fmap list_fmap sum_list foldr]. rewrite Hsame.
    + cbn [fst snd]. rewrite bool_decide_true by set_solver.
      rewrite bool_decide_false by done. unfold w, id. lia.
    + intros ([k s'] & -> & Hin)%list_elem_of_fmap. apply elem_of_map_to_list in Hin. cbn in Hin.
      by rewrite lookup_delete_eq in Hin.
  - rewrite size_empty, Nat.add_0_r, Hsame; [done|].
    intros ([k s'] & -> & Hin)%list_elem_of_fmap. apply elem_of_map_to_list in Hin. cbn in Hin.
    cbn in Hm. congruence.
Qed.

(** The worklist closes the reached set under [succs], and its fuel is enough. *)
Lemma close_spec m (seeds : list string) : forall fuel stack reached,
  (length stack + pending_edges m reached <= fuel)%nat ->
  (forall x, x ∈ seeds -> x ∈ reached \/ x ∈ stack) ->
  (forall x, x ∈ reached \/ x ∈ stack ->
     exists s, s ∈ seeds /\ rtc (fun a b => b ∈ succs m a) s x) ->
  (forall x y, x ∈ reached -> y ∈ succs m x -> y ∈ reached \/ y ∈ stack) ->
  exists r, close fuel m stack reached = Ok r /\
    forall x, x ∈ r <-> exists s, s ∈ seeds /\ rtc (fun a b => b ∈ succs m a) s x.
Proof.
  induction fuel as [|fuel IH]; intros [|n stack] reached Hf Hs Hr Hc; simpl in Hf; try lia;
    cbn [close]; [| |].
  1-2: exists reached; split; [done|]; intros x; split; [intros Hx; apply Hr; by left|];
    intros (s & Hin & Hrtc);
    assert (s ∈ reached) as Hsr by (by destruct (Hs s Hin) as [|H%elem_of_nil]); clear Hin;
    induction Hrtc as [s|s y z Hy _ IHr]; [done|]; apply IHr;
    by destruct (Hc _ _ Hsr Hy) as [|H%elem_of_nil].
  case_bool_decide as Hn.
  - apply IH; [lia | | |].
    + intros x Hx. destruct (Hs x Hx) as [|[-> | ]%elem_of_cons]; auto.
    + intros x Hx. apply Hr. rewrite elem_of_cons. tauto.
    + intros x y Hx Hy. destruct (Hc x y Hx Hy) as [|[-> | ]%elem_of_cons]; auto.
  - pose proof (pending_edges_add m reached n Hn) as Hp. apply IH.
    + rewrite length_app. unfold size, set_size in Hp. cbn in Hp. lia.
    + intros x Hx. destruct (Hs x Hx) as [|[-> | ]%elem_of_cons]; set_solver.
    + intros x. rewrite elem_of_union, elem_of_singleton, elem_of_app, elem_of_elements.
      intros [[-> | Hx] | [Hx | Hx]]; [apply Hr; right; list_mem | apply Hr; by left | |
        apply Hr; right; list_mem].
      destruct (Hr n) as (s & Hin & Hrtc); [right; list_mem|].
      exists s. split; [done|]. by eapply rtc_r.
    + intros x y. rewrite !elem_of_union, !elem_of_singleton, elem_of_app, elem_of_elements.
      intros [-> | Hx] Hy; [tauto|]. destruct (Hc x y Hx Hy) as [|[-> | ]%elem_of_cons]; tauto.
Qed.

(** [ops_in_offset_mutation_component] always returns, and returns exactly the
    operations that data flow reaches from an operation writing at a constant
    offset: through reads from buffer to reader, and both ways between an update
    and its mutation target, with no bound on the number of hops. *)
Theorem offset_component_exact g :
  exists r, ops_in_offset_mutation_component g = Ok r /\
    forall n, n ∈ r <->
      (exists op, op ∈ operations g /\ op_name op = n) /\
      (exists seed, seed ∈ operations g /\ writes_at_constant_offset seed = true /\
         rtc (flow g) (op_name seed) n).
Proof.
  unfold ops_in_offset_mutation_component.
  set (seeds := op_name <$> filter (fun op => writes_at_constant_offset op = true) (operations g)).
  assert (forall s, s ∈ seeds <-> exists op, op ∈ operations g /\
            writes_at_constant_offset op = true /\ op_name op = s) as Hseeds.
  { intros s. unfold seeds. rewrite list_elem_of_fmap. setoid_rewrite list_elem_of_filter. naive_solver. }
  case_bool_decide as Hne.
  { exists ∅. split; [done|]. intros n. rewrite elem_of_empty. split; [done|].
    intros (_ & op & Hop & Hw & _). rewrite Hne in Hseeds.
    assert (op_name op ∈ []) as H%elem_of_nil by (apply Hseeds; eauto). done. }
  destruct (close_spec (successors g) seeds (length seeds + pending_edges (successors g) ∅) seeds ∅)
    as (r & -> & Hr); [done | auto | | set_solver |].
  { intros x [H | Hx]; [set_solver|]. exists x. split; [done | apply rtc_refl]. }
  cbn [mbind res_bind]. eexists. split; [reflexivity|]. intros n.
  rewrite elem_of_intersection, elem_of_list_to_set, list_elem_of_fmap, Hr.
  assert (forall s, rtc (fun a b => b ∈ succs (successors g) a) s n <-> rtc (flow g) s n) as Hrtc.
  { intros s. split; apply rtc_subrel; intros a b; apply successors_flow. }
  setoid_rewrite Hseeds. setoid_rewrite Hrtc. naive_solver.
Qed.
