(* ===== verification/WorkDivision.v ===== *)
(** * Choosing split factors ([work_division.py], [pass_utils.py])

    The sizes work division ranks and divides (with the bucket metadata of symbolic
    dimensions), the legal factors of one dimension, and the greedy distribution
    [multi_dim_iteration_space_split] of the cores over an iteration space.

    A sympy size expression enters through what the code asks of it: whether it has
    free symbols, its concrete value or optimisation hint, and the bounds ShapeEnv
    records for it.  [config.max_buckets] and [config.min_default_granularity] are
    arguments.  An absent [allowed_splits] or [min_splits] argument behaves as an
    empty dictionary and is one. *)

From S2P Require Import Prelude PyDict.

(** ** Sizes *)

Record Expr := mkExpr {
  has_free_symbols : bool;
  concretize_expr : Z;
  bound_upper : option Z;
  bound_lower : option Z
}.

(** A size without free symbols. *)
Definition concrete (n : Z) : Expr := mkExpr false n None None.

Definition finite_upper_or_none (e : Expr) : option Z :=
  match bound_upper e with
  | Some u => if 0 <? u then Some u else None
  | None => None
  end.

Definition _SHAPE_ENV_DEFAULT_LOWER : Z := 2.

Definition _user_min_or_none (e : Expr) : option Z :=
  match bound_lower e with
  | Some l => if l =? _SHAPE_ENV_DEFAULT_LOWER then None else Some l
  | None => None
  end.

Definition compute_max_size (e : Expr) : Z :=
  if has_free_symbols e then default (concretize_expr e) (finite_upper_or_none e)
  else concretize_expr e.

(** sympy's [divisors]: ascending, and empty for zero. *)
Definition divisors (n : Z) : list Z :=
  filter (fun d => (Z.abs n) mod d = 0) (Z.of_nat <$> seq 1 (Z.to_nat (Z.abs n))).

(** The search for the default granularity: the first divisor the configuration
    accepts. *)
Definition default_granularity (max_buckets min_default_g max_size : Z) : option Z :=
  snd <$> list_find (fun d => min_default_g <= d /\ max_size / d <= max_buckets) (divisors max_size).

Definition compute_granularity (max_buckets min_default_g : Z) (e : Expr) (max_size : Z) : res Z :=
  py_assert (has_free_symbols e);;
  match _user_min_or_none e with
  | Some user_min =>
      if user_min =? 0 then Raise ZeroDivisionError
      else
        raise_if (negb (max_size mod user_min =? 0)) Unsupported;;
        raise_if (max_buckets <? max_size / user_min) Unsupported;;
        Ok user_min
  | None =>
      match default_granularity max_buckets min_default_g max_size with
      | Some d => Ok d
      | None => Raise Unsupported
      end
  end.

(** [{symbol: (max_size, granularity)}] *)
Definition SymbolMeta : Type := dict (Z * Z).

Definition collect_one (max_buckets min_default_g : Z) (se : string * Expr) (meta : SymbolMeta)
    : res SymbolMeta :=
  if negb (has_free_symbols se.2) then Ok meta
  else match finite_upper_or_none se.2 with
       | None => Ok meta
       | Some _ =>
           let max_size := compute_max_size se.2 in
           granularity ← compute_granularity max_buckets min_default_g se.2 max_size;
           Ok (dset se.1 (max_size, granularity) meta)
       end.

Definition _collect_symbol_metadata (max_buckets min_default_g : Z) (it_space : dict Expr)
    : res SymbolMeta :=
  for_each (collect_one max_buckets min_default_g) it_space [].

Definition _effective_size (v : string) (it_space : dict Expr) (meta : SymbolMeta) : Z :=
  match dget meta v with
  | Some (max_size, _) => max_size
  | None => concretize_expr (dget_or (concrete 1) it_space v)
  end.

Definition _valid_divisor_basis (v : string) (it_space : dict Expr) (meta : SymbolMeta) : Z :=
  match dget meta v with
  | Some (_, granularity) => granularity
  | None => concretize_expr (dget_or (concrete 1) it_space v)
  end.

(** ** Legal factors *)

Definition _legal_split_factors (v : string) (basis : Z) (allowed_splits : dict (gset Z))
    (min_splits : dict Z) : list Z :=
  let factors := divisors basis in
  let factors := match dget allowed_splits v with
                 | Some allowed => filter (fun s => s ∈ allowed) factors
                 | None => factors
                 end in
  filter (fun s => dget_or 1 min_splits v <= s) factors.

Definition _largest_legal_split (v : string) (basis max_cores : Z)
    (allowed_splits : dict (gset Z)) : res Z :=
  match list_find (fun s => s <= max_cores) (reverse (_legal_split_factors v basis allowed_splits [])) with
  | Some (_, split) => Ok split
  | None => if dmem allowed_splits v then Raise Unsupported else Ok 1
  end.

(** [cores_used // current_split] divides a product by one of its factors, which is
    at least one whenever the mandatory splits are. *)
Definition _largest_legal_split_from (v : string) (basis current_split cores_used max_cores : Z)
    (allowed_splits : dict (gset Z)) (min_splits : dict Z) : Z :=
  match list_find (fun s => current_split <= s /\ cores_used / current_split * s <= max_cores)
          (reverse (_legal_split_factors v basis allowed_splits min_splits)) with
  | Some (_, split) => split
  | None => current_split
  end.

(** One step of [_most_splittable_dim]'s loop over the dims. *)
Definition most_splittable_step (iteration_space : dict Expr) (splits : dict Z)
    (cores_used max_cores : Z) (symbol_meta : SymbolMeta) (allowed_splits : dict (gset Z))
    (min_splits : dict Z) (d : string) (best : option string * Z) : res (option string * Z) :=
  current ← dgetitem splits d;
  let split := _largest_legal_split_from d (_valid_divisor_basis d iteration_space symbol_meta)
                 current cores_used max_cores allowed_splits min_splits in
  Ok (if (current <? split) && (best.2 <? split) then (Some d, split) else best).

Definition _most_splittable_dim (dims : list string) (iteration_space : dict Expr)
    (splits : dict Z) (cores_used max_cores : Z) (symbol_meta : SymbolMeta)
    (allowed_splits : dict (gset Z)) (min_splits : dict Z) : res (option (string * Z)) :=
  best ← for_each (most_splittable_step iteration_space splits cores_used max_cores symbol_meta
                     allowed_splits min_splits) dims (None, 0);
  Ok (match best.1 with Some d => Some (d, best.2) | None => None end).

(** ** [multi_dim_iteration_space_split] *)

(** [min(allowed)] raises on an empty set. *)
Definition set_min (s : gset Z) : res Z :=
  match elements s with [] => Raise ValueError | l => Ok (list_min 0 l) end.

(** [mandatory_splits]: the span floors, then the least factor of every domain
    without one. *)
Definition mandatory_splits (min_splits : dict Z) (allowed_splits : dict (gset Z)) : res (dict Z) :=
  extra ← py_map (fun va => m ← set_min va.2; Ok (va.1, m))
            (filter (fun va => 1 ∉ va.2 /\ dget min_splits va.1 = None) allowed_splits);
  Ok (dupdate min_splits extra).

(** One mandatory split: the state is [(splits, cores_used)]. *)
Definition reserve (max_cores : Z) (allowed_splits : dict (gset Z)) (vm : string * Z)
    (st : dict Z * Z) : res (dict Z * Z) :=
  raise_if (max_cores <? st.2 * vm.2) Unsupported;;
  raise_if (match dget allowed_splits vm.1 with
            | Some allowed => bool_decide (vm.2 ∉ allowed)
            | None => false
            end) Unsupported;;
  Ok (dset vm.1 vm.2 st.1, st.2 * vm.2).

(** [[v for v in dims if splits[v] > 1]] *)
Fixpoint split_dims (splits : dict Z) (dims : list string) : res (list string) :=
  match dims with
  | [] => Ok []
  | v :: dims' =>
      s ← dgetitem splits v;
      rest ← split_dims splits dims';
      Ok (if 1 <? s then v :: rest else rest)
  end.

(** The second pass: output dims in priority order until the cores run out. *)
Fixpoint grow_outputs (iteration_space : dict Expr) (max_cores : Z) (symbol_meta : SymbolMeta)
    (allowed_splits : dict (gset Z)) (min_splits : dict Z) (dims : list string)
    (st : dict Z * Z) : res (dict Z * Z) :=
  match dims with
  | [] => Ok st
  | v :: dims' =>
      if max_cores <=? st.2 then Ok st
      else
        current ← dgetitem st.1 v;
        let best_split := _largest_legal_split_from v
          (_valid_divisor_basis v iteration_space symbol_meta) current st.2 max_cores
          allowed_splits min_splits in
        grow_outputs iteration_space max_cores symbol_meta allowed_splits min_splits dims'
          (if current <? best_split then (dset v best_split st.1, st.2 / current * best_split)
           else st)
  end.

(** The third pass: one reduction dim. *)
Definition grow_reduction (iteration_space : dict Expr) (max_cores : Z) (symbol_meta : SymbolMeta)
    (allowed_splits : dict (gset Z)) (min_splits : dict Z)
    (split_reduction_dims reduction_dims : list string) (st : dict Z * Z) : res (dict Z * Z) :=
  if bool_decide (reduction_dims <> []) && (st.2 <? max_cores) then
    let eligible := if bool_decide (split_reduction_dims = []) then reduction_dims
                    else split_reduction_dims in
    result ← _most_splittable_dim eligible iteration_space st.1 st.2 max_cores symbol_meta
               allowed_splits min_splits;
    match result with
    | Some (best_dim, best_split) =>
        current ← dgetitem st.1 best_dim;
        Ok (dset best_dim best_split st.1, st.2 / current * best_split)
    | None => Ok st
    end
  else Ok st.

Definition multi_dim_iteration_space_split (iteration_space : dict Expr) (max_cores : Z)
    (output_dims reduction_dims : list string) (min_splits : dict Z) (symbol_meta : SymbolMeta)
    (allowed_splits : dict (gset Z)) : res (dict Z) :=
  mandatory ← mandatory_splits min_splits allowed_splits;
  st ← for_each (reserve max_cores allowed_splits) mandatory
         ((fun kv => (kv.1, 1)) <$> iteration_space, 1);
  split_reduction_dims ← split_dims st.1 reduction_dims;
  raise_if (1 <? Z.of_nat (length split_reduction_dims)) Unsupported;;
  st ← grow_outputs iteration_space max_cores symbol_meta allowed_splits min_splits output_dims st;
  st ← grow_reduction iteration_space max_cores symbol_meta allowed_splits min_splits
         split_reduction_dims reduction_dims st;
  Ok st.1.

(** ** Divisors and legal factors *)

Lemma elem_of_divisors n d : d ∈ divisors n <-> 0 < d /\ (d | n) /\ n <> 0.
Proof.
  unfold divisors. rewrite list_elem_of_filter, list_elem_of_fmap. setoid_rewrite elem_of_seq.
  split.
  - intros [Hm (k & -> & Hk)]. split_and!; [lia | | lia].
    apply Z.divide_abs_r. by apply Z.mod_divide; [lia|].
  - intros (Hpos & Hdiv & Hn). apply Z.divide_abs_r in Hdiv. split; [by apply Z.mod_divide; [lia|]|].
    exists (Z.to_nat d). apply Z.divide_pos_le in Hdiv; lia.
Qed.

Lemma StronglySorted_fmap_seq i n : StronglySorted Z.lt (Z.of_nat <$> seq i n).
Proof.
  revert i. induction n as [|n IH]; intros i; csimpl; [constructor|]. constructor; [apply IH|].
  apply Forall_fmap, Forall_forall. intros j Hj%elem_of_seq. simpl. lia.
Qed.

Lemma divisors_sorted n : StronglySorted Z.lt (divisors n).
Proof. eapply StronglySorted_sublist; [apply sublist_filter | apply StronglySorted_fmap_seq]. Qed.

Lemma elem_of_legal v basis allowed mins s :
  s ∈ _legal_split_factors v basis allowed mins <->
  s ∈ divisors basis /\ (forall a, dget allowed v = Some a -> s ∈ a) /\ dget_or 1 mins v <= s.
Proof.
  unfold _legal_split_factors. rewrite list_elem_of_filter.
  destruct (dget allowed v) as [a|]; [rewrite list_elem_of_filter|]; naive_solver.
Qed.

Lemma legal_sorted v basis allowed mins :
  StronglySorted Z.lt (_legal_split_factors v basis allowed mins).
Proof.
  unfold _legal_split_factors. eapply StronglySorted_sublist; [apply sublist_filter|].
  destruct (dget allowed v); [|apply divisors_sorted].
  eapply StronglySorted_sublist; [apply sublist_filter | apply divisors_sorted].
Qed.

(** The first hit of a descending scan is the largest hit. *)
Lemma find_reverse_largest (P : Z -> Prop) `{!forall x, Decision (P x)} (l : list Z) :
  StronglySorted Z.lt l ->
  match list_find P (reverse l) with
  | Some (_, x) => x ∈ l /\ P x /\ forall y, y ∈ l -> P y -> y <= x
  | None => forall y, y ∈ l -> ~ P y
  end.
Proof.
  induction l as [|x l IH]; intros Hs; [intros y Hy; by apply elem_of_nil in Hy|].
  apply StronglySorted_cons in Hs as [Hx Hs]. specialize (IH Hs). rewrite Forall_forall in Hx.
  rewrite reverse_cons. destruct (list_find P (reverse l)) as [[i y]|] eqn:Hf.
  - rewrite (list_find_app_l _ _ _ _ _ Hf). destruct IH as (Hin & Hp & Hmax).
    split_and!; [list_mem | done |]. intros z [-> | Hz]%elem_of_cons Hpz; [|auto].
    specialize (Hx y Hin). lia.
  - rewrite list_find_app_r by done. simpl. destruct (decide (P x)) as [Hp | Hp]; simpl.
    + split_and!; [list_mem | done |]. intros z [-> | Hz]%elem_of_cons Hpz; [lia|].
      by apply IH in Hz.
    + intros z [-> | Hz]%elem_of_cons; auto.
Qed.

(** ** The distribution as a sequence of growth steps *)

Section split.
Context (iteration_space : dict Expr) (max_cores : Z) (symbol_meta : SymbolMeta).
Context (allowed_splits : dict (gset Z)) (min_splits : dict Z).

Definition basis (v : string) : Z := _valid_divisor_basis v iteration_space symbol_meta.
Definition legal (v : string) (s : Z) : Prop :=
  s ∈ _legal_split_factors v (basis v) allowed_splits min_splits.

(** Dimension [v] takes a larger legal factor that fits the budget. *)
Inductive grows (dims : list string) (st : dict Z * Z) : dict Z * Z -> Prop :=
  | grows_step v cur s :
      v ∈ dims -> dget st.1 v = Some cur -> cur < s -> legal v s ->
      st.2 / cur * s <= max_cores -> grows dims st (dset v s st.1, st.2 / cur * s).

(** [cores_used] is the product of the splits and within the budget. *)
Record budgeted (st : dict Z * Z) : Prop := {
  b_cores : st.2 = zprod (dvalues st.1);
  b_max : st.2 <= max_cores;
  b_pos : forall k v, (k, v) ∈ st.1 -> 1 <= v
}.

(** No larger legal factor of [v] fits. *)
Definition saturated (v : string) (st : dict Z * Z) : Prop :=
  forall cur s, dget st.1 v = Some cur -> legal v s -> cur < s -> max_cores < st.2 / cur * s.

Lemma budgeted_div st v cur :
  budgeted st -> dget st.1 v = Some cur -> 1 <= cur /\ (cur | st.2) /\ 0 < st.2.
Proof.
  intros [Hc Hm Hp] Hv. split_and!.
  - by eapply Hp, dget_Some_elem.
  - rewrite Hc. by eapply dget_divides.
  - rewrite Hc. apply dvalues_positive. intros k w Hin. specialize (Hp k w Hin). lia.
Qed.

Lemma grows_budgeted dims st st' : grows dims st st' -> budgeted st -> budgeted st'.
Proof.
  intros [v cur s Hv Hget Hlt Hl Hfit] Hb. destruct (budgeted_div st v cur Hb Hget) as (H1 & [q Hq] & H2).
  destruct Hb as [Hc Hm Hp]. split; cbn [fst snd].
  - pose proof (zprod_dset v s cur st.1 Hget) as Hz. rewrite <- Hc in Hz. rewrite Hq in Hz |- *.
    rewrite Z.div_mul by lia. nia.
  - done.
  - intros k w [[= -> ->] | Hin]%elem_of_dset; [lia | eauto].
Qed.

Lemma grows_mono dims st st' v :
  grows dims st st' -> dget_or 1 st.1 v <= dget_or 1 st'.1 v.
Proof.
  intros [u cur s _ Hget Hlt _ _]. unfold dget_or. cbn [fst]. rewrite dget_dset.
  case_decide as Hvu; [subst; rewrite Hget; simpl; lia | done].
Qed.

Lemma grows_other dims st st' v : grows dims st st' -> v ∉ dims -> dget st'.1 v = dget st.1 v.
Proof.
  intros [u cur s Hu Hget Hlt _ _] Hv. cbn [fst]. rewrite dget_dset, decide_False; [done|].
  by intros ->.
Qed.

Lemma grows_keys dims st st' v : grows dims st st' -> is_Some (dget st'.1 v) <-> is_Some (dget st.1 v).
Proof.
  intros [u cur s Hu Hget Hlt _ _]. cbn [fst]. rewrite dget_dset.
  case_decide as Hvu; [|done]. subst. rewrite Hget. split; eauto.
Qed.

(** Every factor is the one it started from or a legal one. *)
Lemma grows_factor dims st st' v :
  grows dims st st' -> dget st'.1 v = dget st.1 v \/ exists s, dget st'.1 v = Some s /\ legal v s.
Proof.
  intros [u cur s Hu Hget Hlt Hl _]. cbn [fst]. rewrite dget_dset.
  case_decide as Hvu; [subst; right; eauto | by left].
Qed.

Lemma grows_saturated dims st st' v :
  grows dims st st' -> budgeted st -> saturated v st -> saturated v st'.
Proof.
  intros [u cu su Hu Hget Hlt Hl Hfit] Hb Hsat cur s. cbn [fst snd]. rewrite dget_dset.
  case_decide as Hvu; [subst v|].
  - intros [= <-] Hs Hcs. specialize (Hsat cu su Hget Hl Hlt). lia.
  - intros Hcur Hs Hcs. specialize (Hsat cur s Hcur Hs Hcs).
    destruct (budgeted_div st u cu Hb Hget) as (H1 & [q Hq] & H2).
    destruct (budgeted_div st v cur Hb Hcur) as (H3 & [r Hr] & _).
    assert (st.2 <= st.2 / cu * su) as Hge.
    { rewrite Hq. rewrite Z.div_mul by lia. nia. }
    assert (st.2 / cur <= st.2 / cu * su / cur) by (apply Z.div_le_mono; lia). nia.
Qed.

Lemma largest_from_spec v cur cores :
  let r := _largest_legal_split_from v (basis v) cur cores max_cores allowed_splits min_splits in
  (r = cur \/ (cur <= r /\ legal v r /\ cores / cur * r <= max_cores)) /\
  (forall s, legal v s -> cur <= s -> cores / cur * s <= max_cores -> s <= r).
Proof.
  unfold _largest_legal_split_from, legal.
  pose proof (find_reverse_largest (fun s => cur <= s /\ cores / cur * s <= max_cores)
    (_legal_split_factors v (basis v) allowed_splits min_splits) (legal_sorted _ _ _ _)) as H.
  destruct (list_find _ _) as [[i x]|].
  - destruct H as (Hin & [Hc Hf] & Hmax). split; [right; tauto|]. intros s Hs H1 H2. by apply Hmax.
  - split; [by left|]. intros s Hs H1 H2. by destruct (H s Hs).
Qed.

Lemma grow_outputs_spec dims : forall st,
  budgeted st -> (forall v, v ∈ dims -> is_Some (dget st.1 v)) ->
  exists st', grow_outputs iteration_space max_cores symbol_meta allowed_splits min_splits dims st = Ok st' /\
    rtc (grows dims) st st' /\ budgeted st' /\ (forall v, v ∈ dims -> saturated v st').
Proof.
  induction dims as [|v dims IH]; intros st Hb Hk; cbn [grow_outputs].
  { exists st. split_and!; [done | apply rtc_refl | done |]. intros v Hv. by apply elem_of_nil in Hv. }
  destruct (Z.leb_spec max_cores st.2) as [Hfull | Hroom].
  { exists st. split_and!; [done | apply rtc_refl | done |]. intros u Hu cur s Hcur Hs Hlt.
    destruct (budgeted_div st u cur Hb Hcur) as (H1 & [q Hq] & H2). rewrite Hq.
    rewrite Z.div_mul by lia. nia. }
  destruct (Hk v) as [cur Hcur]; [list_mem|]. unfold dgetitem. rewrite Hcur. cbn [mbind res_bind].
  fold (basis v). destruct (largest_from_spec v cur st.2) as [Hr Hmax].
  set (r := _largest_legal_split_from _ _ _ _ _ _ _) in *.
  assert (exists st1, (if cur <? r then (dset v r st.1, st.2 / cur * r) else st) = st1 /\
    rtc (grows (v :: dims)) st st1 /\ budgeted st1 /\ saturated v st1) as (st1 & -> & Hg & Hb1 & Hs1).
  { destruct (Z.ltb_spec cur r) as [Hlt | Hge]; eexists; (split; [reflexivity|]).
    - destruct Hr as [-> | (Hle & Hl & Hf)]; [lia|].
      assert (grows (v :: dims) st (dset v r st.1, st.2 / cur * r)) as Hstep by (constructor; [list_mem|done..]).
      assert (budgeted (dset v r st.1, st.2 / cur * r)) as Hb1 by (by eapply grows_budgeted).
      split_and!; [by apply rtc_once | done |].
      intros c s. cbn [fst snd]. rewrite dget_dset, decide_True by done. intros [= <-] Hls Hlts.
      destruct (budgeted_div st v cur Hb Hcur) as (H1 & [q Hq] & H2).
      rewrite Z.div_mul by lia. destruct (Z.lt_ge_cases max_cores (st.2 / cur * s)) as [|Hfit]; [done|].
      specialize (Hmax s Hls). lia.
    - split_and!; [apply rtc_refl | done |]. intros c s Hc Hls Hlts. rewrite Hcur in Hc. injection Hc as <-.
      destruct (Z.lt_ge_cases max_cores (st.2 / cur * s)) as [|Hfit]; [done|].
      specialize (Hmax s Hls). lia. }
  destruct (IH st1 Hb1) as (st' & Hrun & Hg' & Hb' & Hs').
  { intros u Hu. clear - Hg Hk Hu. assert (is_Some (dget st.1 u)) as Hsu by (apply Hk; list_mem).
    induction Hg as [|a b c Hab _ IHg]; [done|]. apply IHg; [|by eapply grows_keys].
    intros w Hw. eapply grows_keys; eauto. }
  assert (rtc (grows (v :: dims)) st1 st') as Hg1.
  { eapply rtc_subrel, Hg'. intros a b [u c s Hu ? ? ? ?]. constructor; [list_mem|done..]. }
  exists st'. split_and!; [done | by etrans | done |].
  intros u [-> | Hu]%elem_of_cons; [|auto]. clear - Hg1 Hb1 Hs1.
  induction Hg1 as [|a b c Hab _ IHg]; [done|].
  apply IHg; [by eapply grows_budgeted | by eapply grows_saturated].
Qed.

Lemma most_splittable_spec dims st :
  (forall v, v ∈ dims -> is_Some (dget st.1 v)) ->
  exists r, _most_splittable_dim dims iteration_space st.1 st.2 max_cores symbol_meta
              allowed_splits min_splits = Ok r /\
    match r with
    | Some (d, s) => exists cur, d ∈ dims /\ dget st.1 d = Some cur /\ cur < s /\ legal d s /\
                       st.2 / cur * s <= max_cores
    | None => True
    end.
Proof.
  intros Hk. unfold _most_splittable_dim.
  destruct (for_each_total (most_splittable_step iteration_space st.1 st.2 max_cores symbol_meta
      allowed_splits min_splits)
    (fun _ best => match best.1 with
       | Some d => exists cur, d ∈ dims /\ dget st.1 d = Some cur /\ cur < best.2 /\ legal d best.2 /\
                     st.2 / cur * best.2 <= max_cores
       | None => True end) dims (None, 0)) as (best & -> & Hbest).
  - intros dn d rest best Hl Hbest. unfold most_splittable_step.
    destruct (Hk d) as [cur Hcur]; [rewrite Hl; list_mem|]. unfold dgetitem. rewrite Hcur.
    cbn [mbind res_bind]. eexists. split; [reflexivity|]. fold (basis d).
    destruct (largest_from_spec d cur st.2) as [Hr _]. set (r := _largest_legal_split_from _ _ _ _ _ _ _) in *.
    destruct (Z.ltb_spec cur r) as [Hlt|]; [|done]. destruct (Z.ltb_spec best.2 r) as [Hlt2|]; [|done].
    cbn. exists cur. destruct Hr as [Hr | (? & ? & ?)]; [lia|]. split_and!; try done. rewrite Hl. list_mem.
  - done.
  - cbn [mbind res_bind]. eexists. split; [reflexivity|]. by destruct best as [[d|] s].
Qed.

Lemma grow_reduction_spec srd rds st :
  budgeted st -> (forall v, v ∈ rds -> is_Some (dget st.1 v)) -> (forall v, v ∈ srd -> v ∈ rds) ->
  exists st', grow_reduction iteration_space max_cores symbol_meta allowed_splits min_splits srd rds st
                = Ok st' /\
    (st' = st \/ exists d, d ∈ rds /\ (srd <> [] -> d ∈ srd) /\ grows [d] st st').
Proof.
  intros Hb Hk Hsub. unfold grow_reduction. case_match; [|eauto]. cbn zeta.
  set (el := if bool_decide (srd = []) then rds else srd).
  assert (forall v, v ∈ el -> v ∈ rds /\ (srd <> [] -> v ∈ srd)) as Hel.
  { intros v. unfold el. destruct (decide (srd = [])) as [E | E].
    - rewrite bool_decide_true by done. by intros ?; split.
    - rewrite bool_decide_false by done. auto. }
  destruct (most_splittable_spec el st) as (r & -> & Hr); [naive_solver|].
  cbn [mbind res_bind]. destruct r as [[d s]|]; [|eauto].
  destruct Hr as (cur & Hd & Hcur & Hlt & Hl & Hf). unfold dgetitem. rewrite Hcur. cbn [mbind res_bind].
  eexists. split; [reflexivity|]. right. exists d. destruct (Hel d Hd). split_and!; [done | done |].
  constructor; [list_mem | done..].
Qed.

(** ** The mandatory splits *)

Context (Hmax : 1 <= max_cores).
Context (Hnd_min : NoDup (dkeys min_splits)) (Hnd_allowed : NoDup (dkeys allowed_splits)).
Context (Hnd_it : NoDup (dkeys iteration_space)).
Context (Hmin_pos : forall v m, (v, m) ∈ min_splits -> 1 <= m).
Context (Hallowed_pos : forall v a s, (v, a) ∈ allowed_splits -> s ∈ a -> 1 <= s).

Lemma set_min_spec a m : set_min a = Ok m -> m ∈ a.
Proof.
  unfold set_min. destruct (elements a) as [|x l] eqn:He; [done|]. intros [= <-].
  apply elem_of_elements. rewrite He. clear. revert x. induction l as [|y l IH]; intros x; [list_mem|].
  unfold list_min in *. cbn [foldl]. specialize (IH (Z.min x y)).
  apply elem_of_cons in IH as [-> | H]; [|list_mem].
  destruct (Z.min_spec x y) as [[_ ->] | [_ ->]]; list_mem.
Qed.

(** A mandatory split is a span floor or the least factor of a domain without one. *)
Lemma mandatory_spec mand :
  mandatory_splits min_splits allowed_splits = Ok mand ->
  NoDup (dkeys mand) /\
  (forall v m, dget min_splits v = Some m -> dget mand v = Some m) /\
  (forall v m, dget mand v = Some m -> 1 <= m) /\
  (forall v a, dget allowed_splits v = Some a -> dget mand v = None -> 1 ∈ a) /\
  (forall v, is_Some (dget mand v) -> is_Some (dget min_splits v) \/
     exists a, dget allowed_splits v = Some a /\ 1 ∉ a).
Proof.
  unfold mandatory_splits. intros (extra & Hmap & [= <-])%bind_Ok.
  apply py_map_Ok in Hmap.
  set (sel := filter (fun va => 1 ∉ va.2 /\ dget min_splits va.1 = None) allowed_splits) in *.
  assert (dkeys extra = dkeys sel) as Hkeys.
  { clear -Hmap. unfold dkeys. induction Hmap as [|[v a] [w m] l k Hx _ IH]; csimpl; [done|].
    apply bind_Ok in Hx as (m' & _ & Hx). cbn in Hx. congruence. }
  assert (NoDup (dkeys extra)) as Hnd.
  { rewrite Hkeys. unfold dkeys. eapply sublist_NoDup; [exact Hnd_allowed|].
    apply fmap_sublist, sublist_filter. }
  assert (forall v m, dget extra v = Some m -> exists a, (v, a) ∈ sel /\ m ∈ a) as Hextra.
  { intros v m Hv%dget_Some_elem. apply list_elem_of_lookup in Hv as [i Hi].
    destruct (Forall2_lookup_r _ _ _ _ _ Hmap Hi) as ([w a] & Hw & Hx).
    apply bind_Ok in Hx as (m' & Hm & [= <- <-]). exists a. split; [|by apply set_min_spec].
    by eapply list_elem_of_lookup_2. }
  split_and!.
  - by apply dupdate_NoDup.
  - intros v m Hv. rewrite dupdate_spec by done. destruct (dget extra v) as [m'|] eqn:He; [|done].
    apply Hextra in He as (a & [[_ Hnone] _]%list_elem_of_filter & _). cbn in Hnone. congruence.
  - intros v m. rewrite dupdate_spec by done. destruct (dget extra v) as [m'|] eqn:He.
    + intros [= ->]. apply Hextra in He as (a & [_ Hin]%list_elem_of_filter & Hm). eauto.
    + intros Hv%dget_Some_elem. eauto.
  - intros v a Ha. rewrite dupdate_spec by done. destruct (dget extra v) eqn:He; [done|]. intros Hmin.
    destruct (decide (1 ∈ a)) as [|Hn]; [done|]. exfalso. apply dget_None in He. apply He.
    rewrite Hkeys. apply list_elem_of_fmap. exists (v, a). split; [done|].
    apply list_elem_of_filter. split; [done|]. by apply dget_Some_elem.
  - intros v. rewrite dupdate_spec by done. destruct (dget extra v) as [m'|] eqn:He; [|auto].
    intros _. right. apply Hextra in He as (a & [[H1 _] Hin]%list_elem_of_filter & _).
    exists a. split; [by apply dget_NoDup | done].
Qed.

(** A dimension with no floor and a domain that admits one is not forced. *)
Lemma mandatory_unforced mand v :
  mandatory_splits min_splits allowed_splits = Ok mand -> dget min_splits v = None ->
  (forall a, dget allowed_splits v = Some a -> 1 ∈ a) -> dget_or 1 mand v = 1.
Proof.
  intros Hm Hmin Ha. destruct (mandatory_spec mand Hm) as (_ & _ & _ & _ & Hfrom). unfold dget_or.
  destruct (dget mand v) eqn:E; [|done].
  destruct (Hfrom v) as [[? ?] | (a & Hv & Hn)]; [eauto | congruence |]. by destruct Hn; apply Ha.
Qed.

(** The splits after the first pass. *)
Definition reserved (mand : dict Z) (st : dict Z * Z) : Prop :=
  budgeted st /\
  (forall v, dget st.1 v = match dget mand v with
               | Some m => Some m
               | None => if decide (v ∈ dkeys iteration_space) then Some 1 else None end) /\
  (forall v m a, dget mand v = Some m -> dget allowed_splits v = Some a -> m ∈ a) /\
  st.2 = zprod (dvalues mand).

Lemma initial_get v :
  dget ((fun kv : string * Expr => (kv.1, 1)) <$> iteration_space) v =
  if decide (v ∈ dkeys iteration_space) then Some 1 else None.
Proof.
  clear. unfold dkeys. induction iteration_space as [|[k e] d IH]; csimpl.
  - done.
  - rewrite IH. destruct (decide (v = k)) as [-> | Hne]; [rewrite decide_True; [done | list_mem]|].
    destruct (decide (v ∈ fst <$> d)); [rewrite decide_True | rewrite decide_False]; set_solver.
Qed.

Lemma initial_budgeted : budgeted ((fun kv : string * Expr => (kv.1, 1)) <$> iteration_space, 1).
Proof.
  split; cbn [fst snd]; [| done |].
  - unfold dvalues. clear. induction iteration_space as [|kv d IH]; [done|].
    csimpl. unfold zprod in *. simpl. lia.
  - intros k v ([k' e] & [= -> ->] & _)%list_elem_of_fmap. lia.
Qed.

Lemma dget_snoc {V} (d : dict V) k v k' :
  dget (d ++ [(k, v)]) k' = match dget d k' with Some w => Some w
                            | None => if decide (k' = k) then Some v else None end.
Proof.
  induction d as [|[a w] d IH]; simpl; [done|]. destruct (decide (k' = a)); [done|]. apply IH.
Qed.

Lemma reserve_step mand vm st st' :
  NoDup (dkeys (mand ++ [vm])) -> 1 <= vm.2 -> reserved mand st ->
  reserve max_cores allowed_splits vm st = Ok st' -> reserved (mand ++ [vm]) st'.
Proof.
  destruct vm as [v m]. cbn [snd]. intros Hnd Hm (Hb & Hget & Hdom & Hprod) Hrun. unfold reserve in Hrun.
  inv_res. cbn [fst snd] in *.
  assert (dget mand v = None) as Hnew.
  { apply dget_None. unfold dkeys in *. rewrite fmap_app in Hnd. apply NoDup_app in Hnd as (_ & Hd & _).
    intros Hin. apply (Hd v Hin). list_mem. }
  split_and!.
  - split; cbn [fst snd].
    + rewrite (b_cores _ Hb). specialize (Hget v). rewrite Hnew in Hget.
      case_decide; [pose proof (zprod_dset v m 1 st.1 Hget); lia | by rewrite zprod_dset_new].
    + lia.
    + intros k w [[= -> ->] | Hin]%elem_of_dset; [done | by eapply (b_pos _ Hb)].
  - intros u. cbn [fst]. rewrite dget_dset, dget_snoc, Hget.
    destruct (decide (u = v)) as [-> | Hne]; [by rewrite Hnew | by destruct (dget mand u)].
  - intros u m' a. rewrite dget_snoc. destruct (dget mand u) as [w|] eqn:Hu.
    + intros [= <-] Ha. by eapply Hdom.
    + case_decide as Huv; [|done]. intros [= <-] Ha. subst u.
      rewrite Ha in *. split_bools. by destruct (decide (m ∈ a)).
  - cbn [snd]. by rewrite zprod_dvalues_snoc, Hprod.
Qed.

Lemma reserve_all mand st' :
  mandatory_splits min_splits allowed_splits = Ok mand ->
  for_each (reserve max_cores allowed_splits) mand
    ((fun kv => (kv.1, 1)) <$> iteration_space, 1) = Ok st' -> reserved mand st'.
Proof.
  intros Hm. destruct (mandatory_spec mand Hm) as (Hnd & _ & Hpos & _ & _).
  apply (for_each_ind (reserve max_cores allowed_splits) reserved).
  - intros dn [v m] rest s1 s2 Hl Hs1 Hrun. eapply reserve_step; [| |exact Hs1|exact Hrun].
    + eapply sublist_NoDup; [exact Hnd|]. apply fmap_sublist. rewrite Hl.
      apply sublist_app; [done|]. apply sublist_skip, sublist_nil_l.
    + apply (Hpos v). apply dget_NoDup; [done|]. rewrite Hl. list_mem.
  - split_and!; [apply initial_budgeted | | done | done]. intros v. apply initial_get.
Qed.

(** The first pass succeeds exactly when the mandatory splits fit and are legal. *)
Lemma reserve_total mand :
  mandatory_splits min_splits allowed_splits = Ok mand ->
  zprod (dvalues mand) <= max_cores ->
  (forall v m a, dget mand v = Some m -> dget allowed_splits v = Some a -> m ∈ a) ->
  exists st, for_each (reserve max_cores allowed_splits) mand
    ((fun kv => (kv.1, 1)) <$> iteration_space, 1) = Ok st.
Proof.
  intros Hm Hfit Hdom. destruct (mandatory_spec mand Hm) as (Hnd & _ & Hpos & _ & _).
  destruct (for_each_total (reserve max_cores allowed_splits)
    (fun done st => st.2 = zprod (dvalues done)) mand
    ((fun kv => (kv.1, 1)) <$> iteration_space, 1)) as (st & Hrun & _); [|done|eauto].
  intros dn [v m] rest st Hl Hst. unfold reserve. cbn [fst snd].
  assert (forall k w, (k, w) ∈ mand -> 1 <= w) as Hpos' by (intros k w Hin; apply (Hpos k), dget_NoDup; done).
  assert (0 < zprod (dvalues rest)) as Hrest.
  { apply dvalues_positive. intros k w Hin. enough (1 <= w) by lia. apply (Hpos' k). rewrite Hl. list_mem. }
  assert (0 < zprod (dvalues dn)) as Hdn.
  { apply dvalues_positive. intros k w Hin. enough (1 <= w) by lia. apply (Hpos' k). rewrite Hl. list_mem. }
  assert (1 <= m) by (apply (Hpos' v); rewrite Hl; list_mem).
  assert (zprod (dvalues mand) = zprod (dvalues dn) * m * zprod (dvalues rest)) as Hprod.
  { rewrite Hl. unfold dvalues. rewrite fmap_app, zprod_app. csimpl.
    change (zprod (m :: ?l)) with (m * zprod l). lia. }
  eexists. rewrite Hst. unfold raise_if.
  destruct (Z.ltb_spec max_cores (zprod (dvalues dn) * m)) as [Hbad|]; [nia|]. cbn [mbind res_bind].
  assert (dget mand v = Some m) as Hv by (apply dget_NoDup; [done | rewrite Hl; list_mem]).
  destruct (dget allowed_splits v) as [a|] eqn:Ha.
  - rewrite bool_decide_false by (intros Hn; apply Hn; eauto). split; [reflexivity|]. cbn [snd].
    by rewrite zprod_dvalues_snoc.
  - split; [reflexivity|]. cbn [snd].
    by rewrite zprod_dvalues_snoc.
Qed.

Lemma split_dims_spec splits dims :
  (forall v, v ∈ dims -> is_Some (dget splits v)) ->
  split_dims splits dims = Ok (filter (fun v => 1 < dget_or 1 splits v) dims).
Proof.
  clear. induction dims as [|v dims IH]; intros Hk; cbn [split_dims]; [done|].
  destruct (Hk v) as [s Hs]; [list_mem|]. unfold dgetitem at 1. rewrite Hs. cbn [mbind res_bind].
  rewrite IH by (intros u Hu; apply Hk; list_mem). cbn [mbind res_bind]. rewrite filter_cons.
  assert (dget_or 1 splits v = s) as -> by (unfold dget_or; by rewrite Hs).
  destruct (Z.ltb_spec 1 s); [rewrite decide_True by lia | rewrite decide_False by lia]; done.
Qed.

(** A property growth steps preserve holds after any number of them. *)
Lemma rtc_grows_inv dims (I : dict Z * Z -> Prop) st st' :
  (forall a b, grows dims a b -> I a -> I b) -> I st -> rtc (grows dims) st st' -> I st'.
Proof. intros Hstep Hi Hr. induction Hr as [|a b c Hab _ IH]; [done|]. apply IH. by eapply Hstep. Qed.

End split.

(** ** What the distribution promises *)

(** The arguments [_default_split] passes: dictionaries have one entry per key, the
    floors and domains are positive, and the dims are distinct axes of the space. *)
Record wf_split (it_space : dict Expr) (max_cores : Z) (output_dims reduction_dims : list string)
    (min_splits : dict Z) (allowed_splits : dict (gset Z)) : Prop := {
  ws_cores : 1 <= max_cores;
  ws_it : NoDup (dkeys it_space);
  ws_min : NoDup (dkeys min_splits);
  ws_allowed : NoDup (dkeys allowed_splits);
  ws_min_pos : forall v m, (v, m) ∈ min_splits -> 1 <= m;
  ws_allowed_pos : forall v a s, (v, a) ∈ allowed_splits -> s ∈ a -> 1 <= s;
  ws_output : forall v, v ∈ output_dims -> v ∈ dkeys it_space;
  ws_reduction : forall v, v ∈ reduction_dims -> v ∈ dkeys it_space;
  ws_disjoint : forall v, v ∈ output_dims -> v ∉ reduction_dims;
  ws_nodup : NoDup reduction_dims
}.

(** Opening a successful run into its three passes. *)
Lemma split_run it_space max_cores outs reds mins meta allowed splits :
  wf_split it_space max_cores outs reds mins allowed ->
  multi_dim_iteration_space_split it_space max_cores outs reds mins meta allowed = Ok splits ->
  exists mand st1 st2 st3 srd,
    mandatory_splits mins allowed = Ok mand /\
    reserved it_space max_cores allowed mand st1 /\
    srd = filter (fun v => 1 < dget_or 1 st1.1 v) reds /\ (length srd <= 1)%nat /\
    rtc (grows it_space max_cores meta allowed mins outs) st1 st2 /\ budgeted max_cores st2 /\
    (forall v, v ∈ outs -> saturated it_space max_cores meta allowed mins v st2) /\
    (st3 = st2 \/ exists d, d ∈ reds /\ (srd <> [] -> d ∈ srd) /\
       grows it_space max_cores meta allowed mins [d] st2 st3) /\
    splits = st3.1.
Proof.
  intros [Hc Hit Hmin Hal Hmp Hap Ho Hr Hdis Hnd] Hrun. unfold multi_dim_iteration_space_split in Hrun.
  apply bind_Ok in Hrun as (mand & Hmand & Hrun). apply bind_Ok in Hrun as (st1 & Hres & Hrun).
  pose proof (reserve_all it_space max_cores allowed mins Hc Hmin Hal Hmp Hap mand st1 Hmand Hres) as Hst1.
  assert (forall v, v ∈ dkeys it_space -> is_Some (dget st1.1 v)) as Hkeys.
  { intros v Hv. destruct Hst1 as (_ & -> & _). destruct (dget mand v); [eauto|].
    rewrite decide_True by done. eauto. }
  rewrite split_dims_spec in Hrun by auto.
  cbn [mbind res_bind] in Hrun. apply bind_Ok in Hrun as ([] & Hone & Hrun). apply raise_if_Ok in Hone.
  destruct (grow_outputs_spec it_space max_cores meta allowed mins outs st1) as (st2 & Hgo & Hg & Hb2 & Hsat);
    [apply Hst1 | auto |].
  rewrite Hgo in Hrun. cbn [mbind res_bind] in Hrun.
  assert (forall v, is_Some (dget st1.1 v) -> is_Some (dget st2.1 v)) as Hkeys2.
  { intros v Hv. eapply (rtc_grows_inv _ _ _ _ _ outs (fun st => is_Some (dget st.1 v))); [| |exact Hg]; [|done].
    intros a b Hab. by eapply grows_keys. }
  set (srd := filter (fun v => 1 < dget_or 1 st1.1 v) reds) in *.
  destruct (grow_reduction_spec it_space max_cores meta allowed mins srd reds st2 Hb2)
    as (st3 & Hgr & H3); [auto | |].
  { intros v Hv. by apply list_elem_of_filter in Hv as [_ ?]. }
  rewrite Hgr in Hrun. cbn [mbind res_bind] in Hrun. injection Hrun as <-.
  exists mand, st1, st2, st3, srd. split_and!; try done. lia.
Qed.

Lemma NoDup_length_le_1 {A} (l : list A) d :
  NoDup l -> (forall x, x ∈ l -> x = d) -> (length l <= 1)%nat.
Proof.
  destruct l as [|x [|y l]]; simpl; [lia | lia |]. intros [Hx _]%NoDup_cons Hall. exfalso. apply Hx.
  rewrite (Hall x), (Hall y); list_mem.
Qed.

(** The reduction split is unique: the second pass leaves reduction dims alone, and
    the third grows the one already split, or one when none is. *)
Lemma one_reduction_split it_space max_cores meta allowed mins outs reds st1 st2 st3 srd :
  (forall v, v ∈ outs -> v ∉ reds) -> NoDup reds ->
  srd = filter (fun v => 1 < dget_or 1 st1.1 v) reds -> (length srd <= 1)%nat ->
  rtc (grows it_space max_cores meta allowed mins outs) st1 st2 ->
  (st3 = st2 \/ exists d, d ∈ reds /\ (srd <> [] -> d ∈ srd) /\
     grows it_space max_cores meta allowed mins [d] st2 st3) ->
  (length (filter (fun v => (1 < dget_or 1 st3.1 v)%Z) reds) <= 1)%nat.
Proof.
  intros Hdis Hnd Hsrd Hone Hg H3.
  assert (forall v, v ∈ reds -> dget_or 1 st2.1 v = dget_or 1 st1.1 v) as H12.
  { intros v Hv. eapply (rtc_grows_inv _ _ _ _ _ outs (fun st => dget_or 1 st.1 v = dget_or 1 st1.1 v));
      [|reflexivity|exact Hg]. intros a b Hab Ha. unfold dget_or in *.
    rewrite (grows_other _ _ _ _ _ _ _ _ v Hab); [done|]. intros Ho. by apply (Hdis v Ho). }
  assert (filter (fun v => 1 < dget_or 1 st2.1 v) reds = srd) as Hs2.
  { rewrite Hsrd. apply filter_iff_in. intros v Hv. by rewrite H12. }
  destruct H3 as [-> | (d & Hd & Hds & Hgd)]; [by rewrite Hs2|].
  assert (forall v, v <> d -> dget_or 1 st3.1 v = dget_or 1 st2.1 v) as H23.
  { intros v Hv. unfold dget_or. rewrite (grows_other _ _ _ _ _ _ _ _ v Hgd); [done|].
    by intros ->%list_elem_of_singleton. }
  apply (NoDup_length_le_1 _ d); [by apply NoDup_filter|].
  intros v [Hv Hin]%list_elem_of_filter. destruct (decide (v = d)) as [|Hne]; [done|].
  rewrite H23 in Hv by done.
  assert (v ∈ srd) as Hvs by (rewrite <- Hs2; by apply list_elem_of_filter).
  destruct srd as [|x [|y l]]; [by apply elem_of_nil in Hvs | | simpl in Hone; lia].
  apply list_elem_of_singleton in Hvs as ->. by apply list_elem_of_singleton in Hds.
Qed.

(** Everything later components use of a successful distribution. *)
Lemma split_facts it_space max_cores outs reds mins meta allowed splits :
  wf_split it_space max_cores outs reds mins allowed ->
  multi_dim_iteration_space_split it_space max_cores outs reds mins meta allowed = Ok splits ->
  exists mand, mandatory_splits mins allowed = Ok mand /\
    (zprod (dvalues splits) <= max_cores /\ forall v s, (v, s) ∈ splits -> 1 <= s) /\
    (forall v, dget_or 1 mand v <= dget_or 1 splits v) /\
    (forall v, dget_or 1 splits v = dget_or 1 mand v \/
       (v ∈ outs ++ reds /\ legal it_space meta allowed mins v (dget_or 1 splits v))) /\
    (forall v a, dget allowed v = Some a -> dget_or 1 splits v ∈ a) /\
    (forall v, v ∈ dkeys it_space -> is_Some (dget splits v)) /\
    (length (filter (fun v => (1 < dget_or 1 splits v)%Z) reds) <= 1)%nat /\
    (forall v, v ∈ outs -> saturated it_space max_cores meta allowed mins v
                            (splits, zprod (dvalues splits))).
Proof.
  intros Hwf Hrun. destruct (split_run _ _ _ _ _ _ _ _ Hwf Hrun)
    as (mand & st1 & st2 & st3 & srd & Hmand & Hst1 & Hsrd & Hone & Hg & Hb2 & Hsat & H3 & ->).
  exists mand. destruct Hwf as [Hc Hit Hmin Hal Hmp Hap Ho Hr Hdis Hnd].
  destruct (mandatory_spec allowed mins Hmin Hal Hmp Hap mand Hmand) as (_ & Hfloor & _ & Hdom1 & _).
  destruct Hst1 as (Hb1 & Hget1 & Hdom & _).
  assert (forall v, dget_or 1 st1.1 v = dget_or 1 mand v) as H1.
  { intros v. unfold dget_or. rewrite Hget1. destruct (dget mand v); [done|]. by case_decide. }
  assert (rtc (grows it_space max_cores meta allowed mins (outs ++ reds)) st1 st3) as Hg3.
  { assert (forall a b dims, grows it_space max_cores meta allowed mins dims a b ->
              (forall v, v ∈ dims -> v ∈ outs ++ reds) ->
              grows it_space max_cores meta allowed mins (outs ++ reds) a b) as Hwk.
    { intros a b dims [v cur s Hv ? ? ? ?] Hsub. constructor; auto. }
    etrans; [eapply rtc_subrel, Hg; intros a b Hab; eapply Hwk; [exact Hab|]; intros; list_mem|].
    destruct H3 as [-> | (d & Hd & _ & Hgd)]; [apply rtc_refl|]. apply rtc_once. eapply Hwk; [exact Hgd|].
    intros v ->%list_elem_of_singleton. list_mem. }
  assert (budgeted max_cores st3) as [Hb3 Hm3 Hp3].
  { destruct H3 as [-> | (d & _ & _ & Hgd)]; [done | by eapply grows_budgeted]. }
  assert (forall v, dget_or 1 st3.1 v = dget_or 1 mand v \/
    (v ∈ outs ++ reds /\ legal it_space meta allowed mins v (dget_or 1 st3.1 v))) as Hfac.
  { intros v. eapply (rtc_grows_inv _ _ _ _ _ (outs ++ reds) (fun st => dget_or 1 st.1 v = dget_or 1 mand v \/
      (v ∈ outs ++ reds /\ legal it_space meta allowed mins v (dget_or 1 st.1 v)))); [|left; apply H1|exact Hg3].
    intros a b [u cur s Hu Hget Hlt Hl Hf] Ha. unfold dget_or in *. cbn [fst].
    rewrite dget_dset. case_decide; [subst; by right | done]. }
  split_and!; [done | by rewrite <- Hb3 | done | | done | | | |].
  - intros v. rewrite <- H1. eapply (rtc_grows_inv _ _ _ _ _ (outs ++ reds)
      (fun st => dget_or 1 st1.1 v <= dget_or 1 st.1 v)); [|reflexivity|exact Hg3].
    intros a b Hab Ha. pose proof (grows_mono _ _ _ _ _ _ _ _ v Hab). lia.
  - intros v a Ha. destruct (Hfac v) as [-> | [_ Hl]].
    + unfold dget_or. destruct (dget mand v) as [m|] eqn:Hm; [by eapply Hdom | by eapply Hdom1].
    + apply elem_of_legal in Hl as (_ & Hl & _). by apply Hl.
  - intros v Hv. eapply (rtc_grows_inv _ _ _ _ _ (outs ++ reds) (fun st => is_Some (dget st.1 v))); [| |exact Hg3].
    + intros a b Hab. by eapply grows_keys.
    + rewrite Hget1. destruct (dget mand v); [eauto|]. rewrite decide_True by done. eauto.
  - by eapply one_reduction_split.
  - intros v Hv. rewrite <- Hb3. destruct st3 as [s3 c3]. cbn [fst snd].
    destruct H3 as [H3 | (d & _ & _ & Hgd)]; [rewrite H3; auto|].
    eapply grows_saturated; [exact Hgd | done | auto].
Qed.

(** The distribution of cores is legal on every count: the product of the splits
    is within the core budget, every split is positive, meets the committed span
    floors and lies in its hard domain, at most one reduction dimension is split,
    and a split that is neither one nor mandatory divides its axis -- for a symbolic
    axis every admissible runtime size, a multiple of the granularity. *)
Theorem split_is_legal it_space max_cores outs reds mins meta allowed splits :
  wf_split it_space max_cores outs reds mins allowed ->
  multi_dim_iteration_space_split it_space max_cores outs reds mins meta allowed = Ok splits ->
  zprod (dvalues splits) <= max_cores /\
  (forall v s, (v, s) ∈ splits -> 1 <= s) /\
  (forall v m, dget mins v = Some m -> m <= dget_or 1 splits v) /\
  (forall v a, dget allowed v = Some a -> dget_or 1 splits v ∈ a) /\
  (length (filter (fun v => (1 < dget_or 1 splits v)%Z) reds) <= 1)%nat /\
  (forall v k, dget mins v = None -> dget allowed v = None ->
     (dget_or 1 splits v | _valid_divisor_basis v it_space meta * k)).
Proof.
  intros Hwf Hrun. destruct (split_facts _ _ _ _ _ _ _ _ Hwf Hrun)
    as (mand & Hmand & [Hprod Hpos] & Hmono & Hfac & Hdom & _ & Hone & _).
  destruct Hwf as [Hc Hit Hmin Hal Hmp Hap Ho Hr Hdis Hnd].
  destruct (mandatory_spec allowed mins Hmin Hal Hmp Hap mand Hmand) as (_ & Hfloor & _ & _ & Hfrom).
  split_and!; try done.
  - intros v m Hm. specialize (Hmono v). unfold dget_or at 1 in Hmono.
    by rewrite (Hfloor v m Hm) in Hmono.
  - intros v k Hnm Hna. destruct (Hfac v) as [-> | [_ Hl]].
    + unfold dget_or. destruct (dget mand v) as [m|] eqn:Hm; [|apply Z.divide_1_l].
      destruct (Hfrom v) as [[? ?] | (? & ? & _)]; [eauto | congruence | congruence].
    + apply Z.divide_mul_l. apply elem_of_legal in Hl as (Hd & _). by apply elem_of_divisors in Hd as (_ & Hd & _).
Qed.

(** The greedy pass leaves no core to an output dimension that could use it: in the
    returned splits no output dimension has a larger legal factor whose product
    with the other splits still fits the core budget. *)
Theorem split_saturates_outputs it_space max_cores outs reds mins meta allowed splits v s :
  wf_split it_space max_cores outs reds mins allowed ->
  multi_dim_iteration_space_split it_space max_cores outs reds mins meta allowed = Ok splits ->
  v ∈ outs ->
  s ∈ _legal_split_factors v (_valid_divisor_basis v it_space meta) allowed mins ->
  dget_or 1 splits v < s ->
  max_cores < zprod (dvalues (dset v s splits)).
Proof.
  intros Hwf Hrun Hv Hs Hlt. destruct (split_facts _ _ _ _ _ _ _ _ Hwf Hrun)
    as (mand & Hmand & [Hprod Hpos] & _ & _ & _ & Hkeys & _ & Hsat).
  destruct (Hkeys v) as [cur Hcur]; [by apply Hwf|]. unfold dget_or in Hlt. rewrite Hcur in Hlt. cbn in Hlt.
  specialize (Hsat v Hv cur s Hcur Hs Hlt). cbn [fst snd] in Hsat.
  pose proof (zprod_dset v s cur splits Hcur) as Hz.
  destruct (dget_divides splits v cur Hcur) as [q Hq]. rewrite Hq in Hz, Hsat.
  assert (1 <= cur) by (eapply Hpos, dget_Some_elem; done).
  rewrite Z.div_mul in Hsat by lia. nia.
Qed.

(** What follows the mandatory splits: it raises on two split reduction dims and
    returns otherwise. *)
Lemma split_tail it_space max_cores outs reds mins meta allowed mand st1 :
  wf_split it_space max_cores outs reds mins allowed ->
  mandatory_splits mins allowed = Ok mand ->
  for_each (reserve max_cores allowed) mand ((fun kv => (kv.1, 1)) <$> it_space, 1) = Ok st1 ->
  (length (filter (fun v => (1 < dget_or 1 mand v)%Z) reds) <= 1)%nat /\
    (exists splits, multi_dim_iteration_space_split it_space max_cores outs reds mins meta allowed
                      = Ok splits) \/
  (1 < length (filter (fun v => (1 < dget_or 1 mand v)%Z) reds))%nat /\
    multi_dim_iteration_space_split it_space max_cores outs reds mins meta allowed = Raise Unsupported.
Proof.
  intros [Hc Hit Hmin Hal Hmp Hap Ho Hr Hdis Hnd] Hmand Hres.
  pose proof (reserve_all it_space max_cores allowed mins Hc Hmin Hal Hmp Hap mand st1 Hmand Hres)
    as (Hb1 & Hget & _).
  assert (forall v, v ∈ dkeys it_space -> is_Some (dget st1.1 v)) as Hkeys.
  { intros v Hv. rewrite Hget. destruct (dget mand v); [eauto|]. rewrite decide_True by done. eauto. }
  unfold multi_dim_iteration_space_split. rewrite Hmand. cbn [mbind res_bind]. rewrite Hres.
  cbn [mbind res_bind]. rewrite split_dims_spec by auto. cbn [mbind res_bind].
  rewrite (filter_iff_in (fun v => 1 < dget_or 1 st1.1 v) (fun v => 1 < dget_or 1 mand v)).
  2: { intros v Hv. unfold dget_or. rewrite Hget. destruct (dget mand v); [done|]. by case_decide. }
  unfold raise_if. destruct (Z.ltb_spec 1 (Z.of_nat (length (filter (fun v => 1 < dget_or 1 mand v) reds))));
    [right; split; [lia | done] | left; split; [lia|]]. cbn [mbind res_bind].
  destruct (grow_outputs_spec it_space max_cores meta allowed mins outs st1) as (st2 & -> & Hg & Hb2 & _);
    [done | auto |]. cbn [mbind res_bind].
  destruct (grow_reduction_spec it_space max_cores meta allowed mins
    (filter (fun v => 1 < dget_or 1 mand v) reds) reds st2 Hb2) as (st3 & -> & _); [| |cbn; eauto].
  - intros v Hv. eapply (rtc_grows_inv _ _ _ _ _ outs (fun st => is_Some (dget st.1 v))); [| |exact Hg]; [|auto].
    intros a b Hab. by eapply grows_keys.
  - intros v Hv. by apply list_elem_of_filter in Hv as [_ ?].
Qed.

Lemma reserve_raises max_cores allowed mand : forall st e,
  for_each (reserve max_cores allowed) mand st = Raise e -> e = Unsupported.
Proof.
  induction mand as [|vm mand IH]; intros st e; cbn [for_each]; [done|].
  destruct (reserve max_cores allowed vm st) as [st'|e'] eqn:Hr; cbn [mbind res_bind]; [apply IH|].
  unfold reserve, raise_if in Hr. intros [= <-].
  destruct (max_cores <? st.2 * vm.2); cbn in Hr; [congruence|].
  by destruct (match dget allowed vm.1 with Some a => _ | None => _ end); cbn in Hr; [congruence|].
Qed.

(** The distribution fails only for a reason it names: given non-empty domains it
    returns exactly when the mandatory splits fit the core budget, lie in their
    domains and split at most one reduction dimension, and it raises [Unsupported]
    when they do not. *)
Theorem split_total it_space max_cores outs reds mins meta allowed :
  wf_split it_space max_cores outs reds mins allowed ->
  (forall v a, (v, a) ∈ allowed -> a <> ∅) ->
  exists mand, mandatory_splits mins allowed = Ok mand /\
    let fits := zprod (dvalues mand) <= max_cores /\
      (forall v m a, dget mand v = Some m -> dget allowed v = Some a -> m ∈ a) /\
      (length (filter (fun v => (1 < dget_or 1 mand v)%Z) reds) <= 1)%nat in
    (fits /\ exists splits,
       multi_dim_iteration_space_split it_space max_cores outs reds mins meta allowed = Ok splits) \/
    (~ fits /\
       multi_dim_iteration_space_split it_space max_cores outs reds mins meta allowed
         = Raise Unsupported).
Proof.
  intros Hwf Hne.
  assert (exists mand, mandatory_splits mins allowed = Ok mand) as [mand Hmand].
  { unfold mandatory_splits. destruct (py_map_total (fun va => m ← set_min va.2; Ok (va.1, m))
      (filter (fun va => 1 ∉ va.2 /\ dget mins va.1 = None) allowed)) as [k ->]; [|eauto].
    intros [v a] [_ Hin]%list_elem_of_filter. unfold set_min. cbn [fst snd].
    destruct (elements a) as [|x l] eqn:He; [|eauto]. exfalso. apply (Hne v a Hin).
    by apply elements_empty_iff, leibniz_equiv in He. }
  exists mand. split; [done|]. cbn zeta.
  destruct (for_each (reserve max_cores allowed) mand ((fun kv => (kv.1, 1)) <$> it_space, 1))
    as [st1|e] eqn:Hres.
  - pose proof Hwf as [Hc Hit Hmin Hal Hmp Hap Ho Hr Hdis Hnd].
    destruct (reserve_all it_space max_cores allowed mins Hc Hmin Hal Hmp Hap mand st1 Hmand Hres)
      as (Hb & Hget & Hdom & Hprod). destruct Hb as [_ Hb _]. rewrite Hprod in Hb.
    destruct (split_tail it_space max_cores outs reds mins meta allowed mand st1 Hwf Hmand Hres)
      as [[Hone Hok] | [Htwo Hraise]]; [by left | right]. split; [|done]. intros (_ & _ & Hle). lia.
  - right. pose proof (reserve_raises _ _ _ _ _ Hres) as ->. split.
    + intros (Hfit & Hdom & _). destruct Hwf as [Hc Hit Hmin Hal Hmp Hap Ho Hr Hdis Hnd].
      destruct (reserve_total it_space max_cores allowed mins Hmin Hal Hmp Hap mand Hmand Hfit Hdom)
        as [st1 Hst]. congruence.
    + unfold multi_dim_iteration_space_split. rewrite Hmand. cbn [mbind res_bind]. by rewrite Hres.
Qed.

(** A batch axis with a committed floor, a feature axis whose domain excludes one and
    a reduction axis, over 32 cores. *)
Definition ex_space : dict Expr :=
  [("d0"%string, concrete 4); ("d1"%string, concrete 6); ("r0"%string, concrete 8)].
Definition ex_mins : dict Z := [("d0"%string, 2)].
Definition ex_allowed : dict (gset Z) := [("d1"%string, {[ 2; 3; 6 ]})].
Definition ex_splits : dict Z := [("d0"%string, 4); ("d1"%string, 6); ("r0"%string, 1)].

Lemma ex_wf : wf_split ex_space 32 ["d0"; "d1"]%string ["r0"%string] ex_mins ex_allowed.
Proof.
  split; try (apply (bool_decide_unpack _); vm_compute; exact I).
  - intros v m [[= -> ->] | H]%elem_of_cons; [lia | by apply elem_of_nil in H].
  - intros v a s [[= -> ->] | H]%elem_of_cons Hs; [|by apply elem_of_nil in H]. set_solver by lia.
  - intros v [-> | [-> | H%elem_of_nil]%elem_of_cons]%elem_of_cons; [list_mem | list_mem | done].
  - intros v [-> | H%elem_of_nil]%elem_of_cons; [|done]. unfold dkeys, ex_space. csimpl. list_mem.
  - intros v [-> | [-> | H%elem_of_nil]%elem_of_cons]%elem_of_cons;
      (apply (bool_decide_unpack _); vm_compute; exact I) || done.
Qed.

Lemma ex_run :
  multi_dim_iteration_space_split ex_space 32 ["d0"; "d1"]%string ["r0"%string] ex_mins [] ex_allowed
  = Ok ex_splits.
Proof. vm_compute. reflexivity. Qed.

Lemma split_is_legal_witness : zprod (dvalues ex_splits) <= 32.
Proof. exact (proj1 (split_is_legal _ _ _ _ _ _ _ _ ex_wf ex_run)). Defined.

Lemma split_saturates_outputs_witness :
  12 < zprod (dvalues (dset "d0"%string 4 [("d0"%string, 3); ("d1"%string, 4)])).
Proof.
  refine (split_saturates_outputs [("d0"%string, concrete 12); ("d1"%string, concrete 4)] 12
    ["d1"; "d0"]%string [] [] [] [] _ "d0" 4 _ _ _ _ _).
  - split; try (apply (bool_decide_unpack _); vm_compute; exact I).
    + intros v m H. by apply elem_of_nil in H.
    + intros v a s H. by apply elem_of_nil in H.
    + intros v [-> | [-> | H%elem_of_nil]%elem_of_cons]%elem_of_cons; [list_mem | list_mem | done].
    + intros v H. by apply elem_of_nil in H.
    + intros v _ H. by apply elem_of_nil in H.
  - vm_compute. reflexivity.
  - list_mem.
  - apply (bool_decide_unpack _). vm_compute. exact I.
  - vm_compute. reflexivity.
Defined.

Lemma split_total_witness :
  exists mand, mandatory_splits ex_mins ex_allowed = Ok mand /\
    zprod (dvalues mand) <= 32.
Proof.
  destruct (split_total _ _ _ _ _ [] _ ex_wf) as (mand & Hm & [[Hf _] | [_ Hr]]).
  - intros v a [[= -> ->] | H]%elem_of_cons; [set_solver | by apply elem_of_nil in H].
  - exists mand. split; [exact Hm | apply Hf].
  - rewrite ex_run in Hr. discriminate Hr.
Defined.
