(* ===== verification/SpanReduction.v ===== *)
(** * Memory spans and the splits they force ([work_division.py],
      [work_division_constraints.py])

    The per-core memory span of a tensor under a split, the search for the splits
    that bring every tensor under [MAX_SPAN_BYTES], the conversion of stick
    variables from elements to sticks, the merge of the work-division constraints
    and the priority order of the dimensions.

    A device coordinate is a sympy expression; the code only asks for its free
    symbols, whether it reads an index at run time, and the integer it denotes
    under a substitution, and [int] raises [TypeError] on a coordinate that stays
    symbolic.  [free_symbols] is a Python set: the model takes it in some fixed
    order. *)

From S2P Require Import Prelude PyDict WorkDivision.

Definition MAX_SPAN_BYTES : Z := 256 * 1024 * 1024.

(** Python's [//] raises on zero. *)
Definition py_floordiv (a b : Z) : res Z := if b =? 0 then Raise ZeroDivisionError else Ok (a / b).

Record Coord := mkCoord {
  free_symbols : list string;
  has_IndirectAccess : bool;
  subs : (string -> Z) -> option Z
}.

(** [int(coord.subs(env))] *)
Definition py_int (c : Coord) (env : string -> Z) : res Z :=
  match subs c env with Some n => Ok n | None => Raise TypeError end.

(** A [TensorDep] with the parts of its [FixedTiledLayout] the code reads. *)
Record TensorDep := mkTensorDep {
  dep_name : string;
  device_size : list Z;
  itemsize : Z;
  elems_per_stick : Z;
  is_QFP8WT : bool;
  device_coords : list Coord
}.

(** [device_coords[:-1]] *)
Definition outer_coords (td : TensorDep) : list Coord :=
  take (length (device_coords td) - 1) (device_coords td).

Definition _is_indirectly_accessed (td : TensorDep) : bool :=
  existsb has_IndirectAccess (outer_coords td).

(** ** [get_per_core_span] *)

(** One variable of a coordinate: the loop adds its maximum and its minimum. *)
Definition add_var_extent (c : Coord) (splits : dict Z) (it_space_orig : dict Expr)
    (symbol_meta : SymbolMeta) (v : string) (acc : Z * Z) : res (Z * Z) :=
  R ← py_floordiv (_effective_size v it_space_orig symbol_meta) (dget_or 1 splits v);
  hi ← py_int c (fun u => if decide (u = v) then R - 1 else 0);
  lo ← py_int c (fun _ => 0);
  Ok (acc.1 + hi, acc.2 + lo).

Definition per_core_size (c : Coord) (splits : dict Z) (it_space_orig : dict Expr)
    (symbol_meta : SymbolMeta) : res Z :=
  ext ← for_each (add_var_extent c splits it_space_orig symbol_meta) (free_symbols c) (0, 0);
  Ok (ext.1 - ext.2 + 1).

(** The loop over the device dimensions, from dimension [d]. *)
Fixpoint span_from (td : TensorDep) (splits : dict Z) (it_space_orig : dict Expr)
    (symbol_meta : SymbolMeta) (d : nat) (coords : list Coord) : res Z :=
  match coords with
  | [] => Ok (itemsize td)
  | c :: coords' =>
      if bool_decide (free_symbols c = []) then
        span_from td splits it_space_orig symbol_meta (S d) coords'
      else
        size ← per_core_size c splits it_space_orig symbol_meta;
        if 1 <? size then Ok (size * zprod (drop (S d) (device_size td)) * itemsize td)
        else span_from td splits it_space_orig symbol_meta (S d) coords'
  end.

Definition get_per_core_span (td : TensorDep) (splits : dict Z) (it_space_orig : dict Expr)
    (symbol_meta : SymbolMeta) : res Z :=
  span_from td splits it_space_orig symbol_meta 0 (outer_coords td).

Definition check_one_overflow (it_space_orig : dict Expr) (splits : dict Z)
    (symbol_meta : SymbolMeta) (td : TensorDep) (u : unit) : res unit :=
  if _is_indirectly_accessed td then Ok tt
  else
    span ← get_per_core_span td splits it_space_orig symbol_meta;
    raise_if (MAX_SPAN_BYTES <? span) Unsupported.

Definition raise_if_per_core_overflow (tensor_deps : list TensorDep) (it_space_orig : dict Expr)
    (splits : dict Z) (symbol_meta : SymbolMeta) : res unit :=
  for_each (check_one_overflow it_space_orig splits symbol_meta) tensor_deps tt.

(** ** [must_split_vars] *)

Section must_split.
Context (it_space_orig it_space_adjusted : dict Expr) (stick_vars : dict Z) (max_cores : Z).
Context (symbol_meta : SymbolMeta) (allowed_splits : dict (gset Z)) (blocked : gset string).

(** The basis [valid_splits] divides. *)
Definition split_basis (v : string) : res Z :=
  match dget symbol_meta v with
  | Some (_, granularity) => Ok granularity
  | None =>
      if dmem stick_vars v then e ← dgetitem it_space_adjusted v; Ok (concretize_expr e)
      else e ← dgetitem it_space_orig v; Ok (concretize_expr e)
  end.

Definition valid_splits (accumulated_splits : dict Z) (v : string) : res (list Z) :=
  if bool_decide (v ∈ blocked) then Ok [1]
  else
    basis ← split_basis v;
    Ok (filter (fun s => dget_or 1 accumulated_splits v <= s)
          (_legal_split_factors v basis allowed_splits [])).

(** [for v, s in zip(split_vars, combo): trial[v] = s] *)
Definition with_combo (acc : dict Z) (split_vars : list string) (combo : list Z) : dict Z :=
  dupdate acc (zip split_vars combo).

(** The two best combos so far, within and above the limit, with their spans. *)
Definition bests : Type := option (Z * list Z) * option (Z * list Z).

(** [(math.prod(combo), -span) < (math.prod(best), -best_span)] *)
Definition fewer_cores (span : Z) (combo : list Z) (best : Z * list Z) : bool :=
  (zprod combo <? zprod best.2) || ((zprod combo =? zprod best.2) && (- span <? - best.1)).

Definition try_combo (td : TensorDep) (acc : dict Z) (split_vars : list string) (combo : list Z)
    (b : bests) : res bests :=
  let trial := with_combo acc split_vars combo in
  if max_cores <? zprod (dvalues trial) then Ok b
  else
    span ← get_per_core_span td trial it_space_orig symbol_meta;
    Ok (if span <=? MAX_SPAN_BYTES then
          match b.1 with
          | None => (Some (span, combo), b.2)
          | Some best => if fewer_cores span combo best then (Some (span, combo), b.2) else b
          end
        else
          match b.2 with
          | None => (b.1, Some (span, combo))
          | Some best => if span <? best.1 then (b.1, Some (span, combo)) else b
          end).

(** [best_within or best_above] over the whole product. *)
Definition search_combos (td : TensorDep) (acc : dict Z) (split_vars : list string)
    (var_divisors : list (list Z)) : res (option (Z * list Z)) :=
  b ← for_each (try_combo td acc split_vars) (cartesian var_divisors) (None, None);
  Ok (match b.1 with Some w => Some w | None => b.2 end).

(** The extent a coordinate keeps on one core under the committed splits. *)
Definition per_core_coord_size (c : Coord) (acc : dict Z) : res Z :=
  sizes ← py_map (fun v => R ← py_floordiv (_effective_size v it_space_orig symbol_meta)
                                 (dget_or 1 acc v); Ok (v, R - 1)) (free_symbols c);
  n ← py_int c (fun u => dget_or 0 sizes u);
  Ok (Z.max n 0 + 1).

(** One coordinate of one tensor: the new splits, and whether the loop over the
    coordinates stops. *)
Definition split_coord (td : TensorDep) (acc : dict Z) (c : Coord) : res (dict Z * bool) :=
  let split_vars := filter (fun v => 1 < _effective_size v it_space_orig symbol_meta)
                      (free_symbols c) in
  if bool_decide (split_vars = []) then Ok (acc, false)
  else
    var_divisors ← py_map (valid_splits acc) split_vars;
    raise_if (existsb (fun l => bool_decide (l = [])) var_divisors) Unsupported;;
    best ← search_combos td acc split_vars var_divisors;
    match best with
    | None => Ok (acc, true)
    | Some (best_span, best_combo) =>
        let acc' := with_combo acc split_vars best_combo in
        if best_span <=? MAX_SPAN_BYTES then Ok (acc', true)
        else
          n ← per_core_coord_size c acc';
          Ok (acc', 1 <? n)
    end.

Fixpoint split_coords (td : TensorDep) (acc : dict Z) (coords : list Coord) : res (dict Z) :=
  match coords with
  | [] => Ok acc
  | c :: coords' =>
      r ← split_coord td acc c;
      if r.2 : bool then Ok r.1 else split_coords td r.1 coords'
  end.

Definition split_tensor (td : TensorDep) (acc : dict Z) : res (dict Z) :=
  span ← get_per_core_span td acc it_space_orig symbol_meta;
  if span <=? MAX_SPAN_BYTES then Ok acc else split_coords td acc (outer_coords td).

Definition must_split_vars (tensor_deps : list TensorDep) : res (dict Z) :=
  for_each split_tensor tensor_deps [].

End must_split.

(** ** [adjust_it_space_for_sticks] *)

(** [(e + n - 1) // n] on a size. *)
Definition expr_ceil_div (e : Expr) (n : Z) : Expr :=
  mkExpr (has_free_symbols e) ((concretize_expr e + n - 1) / n)
    ((fun u => (u + n - 1) / n) <$> bound_upper e) ((fun l => (l + n - 1) / n) <$> bound_lower e).

Definition note_stick_var (elems : Z) (stick_var : string) (max_elems : dict Z) : dict Z :=
  match dget max_elems stick_var with
  | Some m => if m <? elems then dset stick_var elems max_elems else max_elems
  | None => dset stick_var elems max_elems
  end.

Definition _qfp8wt_stick_coords (td : TensorDep) : list Coord :=
  drop (length (device_coords td) - 2) (device_coords td).

(** The only free symbol of a coordinate, when it is an iteration variable. *)
Definition sole_var (it_space : dict Expr) (c : Coord) : option string :=
  match free_symbols c with
  | [v] => if dmem it_space v then Some v else None
  | _ => None
  end.

(** Pass 1, one tensor. *)
Definition note_sticks (it_space : dict Expr) (symbol_meta : SymbolMeta) (td : TensorDep)
    (max_elems : dict Z) : res (dict Z) :=
  if is_QFP8WT td then
    Ok (foldl (fun m v => note_stick_var (elems_per_stick td) v m) max_elems
          (omap (sole_var it_space) (_qfp8wt_stick_coords td)))
  else
    match last (device_coords td) with
    | None => Raise IndexError
    | Some stick_expr =>
        match sole_var it_space stick_expr with
        | None => Ok max_elems
        | Some stick_var =>
            raise_if (dmem symbol_meta stick_var) Unsupported;;
            Ok (note_stick_var (elems_per_stick td) stick_var max_elems)
        end
    end.

(** Pass 2, one variable. *)
Definition adjust_var (ve : string * Z) (space : dict Expr) : res (dict Expr) :=
  e ← dgetitem space ve.1;
  if ve.2 =? 0 then Raise ZeroDivisionError else Ok (dset ve.1 (expr_ceil_div e ve.2) space).

Definition adjust_it_space_for_sticks (it_space : dict Expr) (tensor_deps : list TensorDep)
    (symbol_meta : SymbolMeta) : res (dict Expr * dict Z) :=
  max_elems ← for_each (note_sticks it_space symbol_meta) tensor_deps [];
  adjusted ← for_each adjust_var max_elems it_space;
  Ok (adjusted, max_elems).

(** ** [collect_work_division_constraints] *)

Record ConstraintResult := mkConstraints {
  blocked : gset string;
  allowed_splits : dict (gset Z)
}.

(** The context of the constraints; [op] is what each constraint closes over. *)
Record WorkDivConstraintContext := mkConstraintContext {
  cc_it_space : dict Expr;
  cc_it_space_adjusted : dict Expr;
  cc_output_td : TensorDep;
  cc_input_tds : list TensorDep;
  cc_stick_vars : dict Z;
  cc_reduction_vars : list string;
  committed_splits : dict Z
}.

Definition constraint : Type := WorkDivConstraintContext -> res ConstraintResult.

(** One domain of one constraint's result. *)
Definition merge_domain (committed : dict Z) (sa : string * gset Z) (domains : dict (gset Z))
    : res (dict (gset Z)) :=
  raise_if (bool_decide (sa.2 = ∅)) Unsupported;;
  let allowed := match dget domains sa.1 with Some a => sa.2 ∩ a | None => sa.2 end in
  raise_if (bool_decide (allowed = ∅)) Unsupported;;
  raise_if (match dget committed sa.1 with Some c => bool_decide (c ∉ allowed) | None => false end)
    Unsupported;;
  Ok (dset sa.1 allowed domains).

Definition merge_constraint (ctx : WorkDivConstraintContext) (k : constraint)
    (r : ConstraintResult) : res ConstraintResult :=
  result ← k ctx;
  raise_if (existsb (fun s => 1 <? dget_or 1 (committed_splits ctx) s) (elements (blocked result)))
    Unsupported;;
  domains ← for_each (merge_domain (committed_splits ctx)) (allowed_splits result) (allowed_splits r);
  Ok (mkConstraints (blocked r ∪ blocked result) domains).

Definition collect_work_division_constraints (constraints : list constraint)
    (ctx : WorkDivConstraintContext) : res ConstraintResult :=
  for_each (merge_constraint ctx) constraints (mkConstraints ∅ []).

(** ** [prioritize_dimensions] *)

(** The symbols of the output's device coordinates, the stick excluded. *)
Definition coord_vars (output : TensorDep) : list string := mjoin (free_symbols <$> outer_coords output).

(** [sort(key=size, reverse=True)] keeps equal sizes in order. *)
Definition by_size (it_space : dict Expr) (symbol_meta : SymbolMeta) (x y : string) : bool :=
  _effective_size y it_space symbol_meta <=? _effective_size x it_space symbol_meta.

Definition prioritize_dimensions (output : TensorDep) (it_space_adjusted : dict Expr)
    (symbol_meta : SymbolMeta) : list string * list string :=
  let outs := filter (fun s => s ∈ coord_vars output) (dkeys it_space_adjusted) in
  let reds := filter (fun s => s ∉ coord_vars output) (dkeys it_space_adjusted) in
  (py_sorted (by_size it_space_adjusted symbol_meta) outs,
   py_sorted (by_size it_space_adjusted symbol_meta) reds).

(** [entry_dims] is [indirect_store_entry_syms(op)]. *)
Definition prioritize_indirect_scatter_dimensions (entry_dims : gset string) (output : TensorDep)
    (it_space_adjusted : dict Expr) (symbol_meta : SymbolMeta) : list string * list string :=
  let '(outs, reds) := prioritize_dimensions output it_space_adjusted symbol_meta in
  (filter (fun d => d ∈ entry_dims) reds ++ outs, filter (fun d => d ∉ entry_dims) reds).


Section must_split_facts.
Context (it_space_orig it_space_adjusted : dict Expr) (stick_vars : dict Z) (max_cores : Z).
Context (symbol_meta : SymbolMeta) (allowed : dict (gset Z)) (blk : gset string).

#[local] Notation valid := (valid_splits it_space_orig it_space_adjusted stick_vars symbol_meta allowed blk).

(** A combo the core budget admits, with its span. *)
Definition admissible (td : TensorDep) (acc : dict Z) (vars : list string) (c : list Z) (span : Z) : Prop :=
  zprod (dvalues (with_combo acc vars c)) <= max_cores /\
  get_per_core_span td (with_combo acc vars c) it_space_orig symbol_meta = Ok span.

(** What the search knows after the combos [seen]: the best within the limit, and the
    best above it. *)
Definition within_inv (td : TensorDep) (acc : dict Z) (vars : list string) (seen : list (list Z))
    (o : option (Z * list Z)) : Prop :=
  match o with
  | Some (sp, c) => c ∈ seen /\ admissible td acc vars c sp /\ sp <= MAX_SPAN_BYTES /\
      forall c' sp', c' ∈ seen -> admissible td acc vars c' sp' -> sp' <= MAX_SPAN_BYTES ->
        zprod c < zprod c' \/ (zprod c = zprod c' /\ sp' <= sp)
  | None => forall c' sp', c' ∈ seen -> admissible td acc vars c' sp' -> MAX_SPAN_BYTES < sp'
  end.

Definition above_inv (td : TensorDep) (acc : dict Z) (vars : list string) (seen : list (list Z))
    (o : option (Z * list Z)) : Prop :=
  match o with
  | Some (sp, c) => c ∈ seen /\ admissible td acc vars c sp /\ MAX_SPAN_BYTES < sp /\
      forall c' sp', c' ∈ seen -> admissible td acc vars c' sp' -> MAX_SPAN_BYTES < sp' -> sp <= sp'
  | None => forall c' sp', c' ∈ seen -> admissible td acc vars c' sp' -> sp' <= MAX_SPAN_BYTES
  end.

Lemma admissible_fun td acc vars c s1 s2 :
  admissible td acc vars c s1 -> admissible td acc vars c s2 -> s1 = s2.
Proof. intros [_ H1] [_ H2]. congruence. Qed.

(** Quantifying over one more combo. *)
Lemma seen_snoc (P : list Z -> Z -> Prop) td acc vars seen combo :
  (forall c' sp', c' ∈ seen -> admissible td acc vars c' sp' -> P c' sp') ->
  (forall sp', admissible td acc vars combo sp' -> P combo sp') ->
  forall c' sp', c' ∈ seen ++ [combo] -> admissible td acc vars c' sp' -> P c' sp'.
Proof.
  intros H1 H2 c' sp' [Hin | ->%list_elem_of_singleton]%elem_of_app Ha; [by apply H1 | by apply H2].
Qed.

Ltac one_more := refine (seen_snoc (fun c' sp' => _) _ _ _ _ _ _ _).

Lemma within_skip td acc vars seen combo o :
  (forall sp, admissible td acc vars combo sp -> MAX_SPAN_BYTES < sp) ->
  within_inv td acc vars seen o -> within_inv td acc vars (seen ++ [combo]) o.
Proof.
  intros Hno. unfold within_inv. destruct o as [[sp c]|]; [intros (H1 & H2 & H3 & H4)|intros H];
    [split_and!; [list_mem | done | done |] |]; one_more; try done.
  intros sp' Ha%Hno Hle. lia.
Qed.

Lemma above_skip td acc vars seen combo o :
  (forall sp, admissible td acc vars combo sp -> sp <= MAX_SPAN_BYTES) ->
  above_inv td acc vars seen o -> above_inv td acc vars (seen ++ [combo]) o.
Proof.
  intros Hno. unfold above_inv. destruct o as [[sp c]|]; [intros (H1 & H2 & H3 & H4)|intros H];
    [split_and!; [list_mem | done | done |] |]; one_more; try done.
  intros sp' Ha%Hno Hle. lia.
Qed.

Lemma within_take td acc vars seen combo span o :
  admissible td acc vars combo span -> span <= MAX_SPAN_BYTES ->
  within_inv td acc vars seen o ->
  within_inv td acc vars (seen ++ [combo])
    (match o with
     | None => Some (span, combo)
     | Some best => if fewer_cores span combo best then Some (span, combo) else Some best end).
Proof.
  intros Hadm Hin Hw.
  assert (forall sp', admissible td acc vars combo sp' -> sp' = span) as Huniq
    by (intros sp' H; by eapply admissible_fun).
  destruct o as [[sp c]|]; cbn in Hw.
  - destruct Hw as (H1 & H2 & H3 & H4). unfold fewer_cores. cbn [fst snd].
    destruct ((zprod combo <? zprod c) || ((zprod combo =? zprod c) && (- span <? - sp))) eqn:E.
    + assert (zprod combo < zprod c \/ zprod combo = zprod c /\ sp < span) as E' by lia.
      split_and!; [list_mem | done | done |]. one_more.
      * intros c' sp' Hc' Ha' Hs'. destruct (H4 c' sp' Hc' Ha' Hs'); lia.
      * intros sp' ->%Huniq _. lia.
    + assert (zprod c < zprod combo \/ zprod c = zprod combo /\ span <= sp) as E' by lia.
      split_and!; [list_mem | done | done |]. one_more; [done|]. intros sp' ->%Huniq _. lia.
  - split_and!; [list_mem | done | done |]. one_more.
    + intros c' sp' Hc' Ha' Hs'. specialize (Hw c' sp' Hc' Ha'). lia.
    + intros sp' ->%Huniq _. lia.
Qed.

Lemma above_take td acc vars seen combo span o :
  admissible td acc vars combo span -> MAX_SPAN_BYTES < span ->
  above_inv td acc vars seen o ->
  above_inv td acc vars (seen ++ [combo])
    (match o with
     | None => Some (span, combo)
     | Some best => if span <? best.1 then Some (span, combo) else Some best end).
Proof.
  intros Hadm Hin Hw.
  assert (forall sp', admissible td acc vars combo sp' -> sp' = span) as Huniq
    by (intros sp' H; by eapply admissible_fun).
  destruct o as [[sp c]|]; cbn in Hw.
  - destruct Hw as (H1 & H2 & H3 & H4). cbn [fst]. destruct (Z.ltb_spec span sp).
    + split_and!; [list_mem | done | done |]. one_more.
      * intros c' sp' Hc' Ha' Hs'. specialize (H4 c' sp' Hc' Ha' Hs'). lia.
      * intros sp' ->%Huniq _. lia.
    + split_and!; [list_mem | done | done |]. one_more; [done|]. intros sp' ->%Huniq _. lia.
  - split_and!; [list_mem | done | done |]. one_more.
    + intros c' sp' Hc' Ha' Hs'. specialize (Hw c' sp' Hc' Ha'). lia.
    + intros sp' ->%Huniq _. lia.
Qed.

Lemma try_combo_step td acc vars seen combo b b' :
  within_inv td acc vars seen b.1 -> above_inv td acc vars seen b.2 ->
  try_combo it_space_orig max_cores symbol_meta td acc vars combo b = Ok b' ->
  within_inv td acc vars (seen ++ [combo]) b'.1 /\ above_inv td acc vars (seen ++ [combo]) b'.2.
Proof.
  intros Hw Ha Hrun. unfold try_combo in Hrun.
  destruct (Z.ltb_spec max_cores (zprod (dvalues (with_combo acc vars combo)))) as [Hbig | Hfit].
  { injection Hrun as <-. split; [apply within_skip | apply above_skip]; try done; intros sp [? _]; lia. }
  apply bind_Ok in Hrun as (span & Hspan & [= <-]).
  assert (admissible td acc vars combo span) as Hadm by done.
  assert (forall sp', admissible td acc vars combo sp' -> sp' = span) as Huniq
    by (intros sp' H; by eapply admissible_fun).
  destruct (Z.leb_spec span MAX_SPAN_BYTES) as [Hin | Hout].
  - pose proof (within_take _ _ _ _ _ _ _ Hadm Hin Hw) as Hw'.
    assert (above_inv td acc vars (seen ++ [combo]) b.2) by (apply above_skip; [by intros sp ->%Huniq | done]).
    destruct b as [[best|] ba]; cbn [fst snd] in *; [destruct (fewer_cores span combo best)|]; done.
  - pose proof (above_take _ _ _ _ _ _ _ Hadm Hout Ha) as Ha'.
    assert (within_inv td acc vars (seen ++ [combo]) b.1) by (apply within_skip; [by intros sp ->%Huniq | done]).
    destruct b as [bw [best|]]; cbn [fst snd] in *; [destruct (span <? best.1)|]; done.
Qed.

Lemma search_combos_spec td acc vars divs r :
  search_combos it_space_orig max_cores symbol_meta td acc vars divs = Ok r ->
  match r with
  | None => forall c sp, c ∈ cartesian divs -> ~ admissible td acc vars c sp
  | Some (sp, c) =>
      c ∈ cartesian divs /\ admissible td acc vars c sp /\
      (sp <= MAX_SPAN_BYTES ->
         forall c' sp', c' ∈ cartesian divs -> admissible td acc vars c' sp' ->
           sp' <= MAX_SPAN_BYTES -> zprod c <= zprod c') /\
      (MAX_SPAN_BYTES < sp ->
         forall c' sp', c' ∈ cartesian divs -> admissible td acc vars c' sp' -> sp <= sp')
  end.
Proof.
  unfold search_combos. intros (b & Hrun & [= <-])%bind_Ok.
  apply (for_each_ind _ (fun seen b => within_inv td acc vars seen b.1 /\ above_inv td acc vars seen b.2))
    in Hrun as [Hw Ha].
  - destruct b as [[[sp c]|] ba]; cbn [fst snd within_inv] in *.
    + destruct Hw as (H1 & H2 & H3 & H4). split_and!; [done | done | | lia].
      intros _ c' sp' Hc' Ha' Hs'. destruct (H4 c' sp' Hc' Ha' Hs'); lia.
    + destruct ba as [[sp c]|]; cbn [above_inv] in Ha.
      * destruct Ha as (H1 & H2 & H3 & H4). split_and!; [done | done | lia |].
        intros _ c' sp' Hc' Ha'. apply (H4 c' sp' Hc' Ha'). by eapply Hw.
      * intros c sp Hc Hadm. specialize (Hw c sp Hc Hadm). specialize (Ha c sp Hc Hadm). lia.
  - intros dn combo rest b1 b2 _ [H1 H2] Hstep. by eapply try_combo_step.
  - split; intros c' sp' Hc'; by apply elem_of_nil in Hc'.
Qed.

(** A split the search may commit for [v]. *)
Definition forced_ok (v : string) (s : Z) : Prop :=
  1 <= s /\ 1 < _effective_size v it_space_orig symbol_meta /\ (v ∈ blk -> s = 1) /\
  (v ∉ blk -> exists basis, split_basis it_space_orig it_space_adjusted stick_vars symbol_meta v = Ok basis /\
     s ∈ _legal_split_factors v basis allowed []).

Definition acc_ok (acc : dict Z) : Prop :=
  zprod (dvalues acc) <= max_cores /\ NoDup (dkeys acc) /\ forall v s, (v, s) ∈ acc -> forced_ok v s.

Lemma valid_splits_ok acc v l s :
  1 < _effective_size v it_space_orig symbol_meta -> valid acc v = Ok l -> s ∈ l -> forced_ok v s.
Proof.
  intros Hsize. unfold valid_splits. case_bool_decide as Hb.
  - intros [= <-] ->%list_elem_of_singleton. split_and!; [lia | done | done | done].
  - intros (basis & Hbasis & [= <-])%bind_Ok [_ Hs]%list_elem_of_filter.
    pose proof Hs as (Hd & _)%elem_of_legal. apply elem_of_divisors in Hd as [? _].
    split_and!; [lia | done | done | eauto].
Qed.

Lemma with_combo_ok acc vars divs c sp td :
  acc_ok acc -> (forall v, v ∈ vars -> 1 < _effective_size v it_space_orig symbol_meta) ->
  Forall2 (fun v l => valid acc v = Ok l) vars divs ->
  c ∈ cartesian divs -> admissible td acc vars c sp -> acc_ok (with_combo acc vars c).
Proof.
  intros (Hp & Hnd & Hall) Hsize Hdivs Hc%elem_of_cartesian [Hfit _].
  split_and!; [done | by apply dupdate_NoDup |].
  intros v s [Hin | Hin]%elem_of_dupdate; [by apply Hall|].
  apply list_elem_of_lookup in Hin as [i Hi]. apply lookup_zip_with_Some in Hi as (v' & s' & [= <- <-] & Hv & Hs).
  destruct (Forall2_lookup_l _ _ _ _ _ Hdivs Hv) as (l & Hl & Hvalid).
  destruct (Forall2_lookup_l _ _ _ _ _ Hc Hs) as (l' & Hl' & Hin). rewrite Hl in Hl'. injection Hl' as <-.
  eapply valid_splits_ok; [|exact Hvalid | done]. apply Hsize. by eapply list_elem_of_lookup_2.
Qed.

Lemma split_coord_ok td acc c r :
  acc_ok acc ->
  split_coord it_space_orig it_space_adjusted stick_vars max_cores symbol_meta allowed blk td acc c = Ok r ->
  acc_ok r.1.
Proof.
  intros Hacc. unfold split_coord. case_bool_decide; [by intros [= <-]|].
  intros (divs & Hdivs & Hrun)%bind_Ok. apply py_map_Ok in Hdivs.
  apply bind_Ok in Hrun as ([] & _ & Hrun). apply bind_Ok in Hrun as (best & Hbest & Hrun).
  apply search_combos_spec in Hbest. destruct best as [[sp combo]|]; [|by injection Hrun as <-].
  destruct Hbest as (Hin & Hadm & _). 
  assert (acc_ok (with_combo acc (filter (fun v => 1 < _effective_size v it_space_orig symbol_meta) (free_symbols c)) combo)) as Hok.
  { eapply with_combo_ok; [done | | done | done | done]. intros v Hv. by apply list_elem_of_filter in Hv as [? _]. }
  destruct (sp <=? MAX_SPAN_BYTES); [by injection Hrun as <-|].
  apply bind_Ok in Hrun as (n & _ & [= <-]). done.
Qed.

Lemma split_coords_ok td coords : forall acc r,
  acc_ok acc ->
  split_coords it_space_orig it_space_adjusted stick_vars max_cores symbol_meta allowed blk td acc coords = Ok r ->
  acc_ok r.
Proof.
  induction coords as [|c coords IH]; intros acc r Hacc; cbn [split_coords]; [by intros [= <-]|].
  intros ([acc' stop] & Hc & Hrun)%bind_Ok. apply split_coord_ok in Hc; [|done]. cbn [fst snd] in *.
  destruct stop; [by injection Hrun as <- | by eapply IH].
Qed.

Lemma must_split_ok tds r :
  1 <= max_cores ->
  must_split_vars it_space_orig it_space_adjusted stick_vars max_cores symbol_meta allowed blk tds = Ok r ->
  acc_ok r.
Proof.
  intros Hmax. apply (for_each_ind _ (fun _ => acc_ok)).
  - intros dn td rest a1 a2 _ Hacc (span & _ & Hrun)%bind_Ok.
    destruct (span <=? MAX_SPAN_BYTES); [by injection Hrun as <- | by eapply split_coords_ok].
  - split_and!; [done | constructor |]. intros v s H. by apply elem_of_nil in H.
Qed.

End must_split_facts.

(** The splits the span limit forces are themselves legal: their product is within
    the core budget, a blocked dimension stays unsplit, and every other split
    divides its axis (in sticks for a stick variable, in granules for a symbolic
    one) within its hard domain.  When no tensor exceeds the limit, nothing is
    split. *)
Theorem must_split_legal it_space adjusted sticks max_cores meta allowed blk tds r :
  1 <= max_cores ->
  must_split_vars it_space adjusted sticks max_cores meta allowed blk tds = Ok r ->
  (zprod (dvalues r) <= max_cores /\ NoDup (dkeys r)) /\
  (forall v s, (v, s) ∈ r -> 1 <= s /\ (v ∈ blk -> s = 1) /\
     (v ∉ blk -> exists basis, split_basis it_space adjusted sticks meta v = Ok basis /\
        (s | basis) /\ forall a, dget allowed v = Some a -> s ∈ a)) /\
  ((forall td, td ∈ tds -> exists sp, get_per_core_span td [] it_space meta = Ok sp /\ sp <= MAX_SPAN_BYTES) ->
   r = []).
Proof.
  intros Hmax Hrun. pose proof (must_split_ok _ _ _ _ _ _ _ _ _ Hmax Hrun) as (Hp & Hnd & Hall).
  split_and!; [done | done | |].
  - intros v s Hin. destruct (Hall v s Hin) as (H1 & _ & H2 & H3). split_and!; [done | done |].
    intros Hb. destruct (H3 Hb) as (basis & Hbasis & Hl). exists basis. split; [done|].
    apply elem_of_legal in Hl as (Hd & Ha & _). apply elem_of_divisors in Hd as (_ & Hd & _). done.
  - intros Hfit. unfold must_split_vars in Hrun. clear -Hrun Hfit. revert Hrun.
    induction tds as [|td tds IH]; cbn [for_each]; [by intros [= <-]|].
    destruct (Hfit td) as (sp & Hsp & Hle); [list_mem|].
    assert (split_tensor it_space adjusted sticks max_cores meta allowed blk td [] = Ok []) as ->.
    { unfold split_tensor. rewrite Hsp. cbn [mbind res_bind]. by destruct (Z.leb_spec sp MAX_SPAN_BYTES); [|lia]. }
    cbn [mbind res_bind]. apply IH. intros td' Htd'. apply Hfit. list_mem.
Qed.

(** The search at one coordinate spends as few cores as it can: if any combination
    of legal splits within the core budget brings the span under the limit, the
    chosen one does and has the least product of factors among those; otherwise
    the chosen one has the least span, and none is chosen only when the budget
    admits none. *)
Theorem span_search_minimal it_space max_cores meta td acc vars divs r :
  search_combos it_space max_cores meta td acc vars divs = Ok r ->
  match r with
  | None => forall c, c ∈ cartesian divs -> max_cores < zprod (dvalues (with_combo acc vars c))
              \/ exists e, get_per_core_span td (with_combo acc vars c) it_space meta = Raise e
  | Some (sp, c) =>
      c ∈ cartesian divs /\
      get_per_core_span td (with_combo acc vars c) it_space meta = Ok sp /\
      zprod (dvalues (with_combo acc vars c)) <= max_cores /\
      forall c' sp', c' ∈ cartesian divs -> zprod (dvalues (with_combo acc vars c')) <= max_cores ->
        get_per_core_span td (with_combo acc vars c') it_space meta = Ok sp' ->
        (sp' <= MAX_SPAN_BYTES -> sp <= MAX_SPAN_BYTES /\ zprod c <= zprod c') /\
        (MAX_SPAN_BYTES < sp -> sp <= sp')
  end.
Proof.
  intros Hrun%search_combos_spec. destruct r as [[sp c]|].
  - destruct Hrun as (Hin & [Hf Hs] & Hw & Ha). split_and!; [done | done | done |].
    intros c' sp' Hc' Hf' Hs'. assert (admissible it_space max_cores meta td acc vars c' sp') as Hadm by done.
    split; [|intros Hsp; by eapply Ha]. intros Hle.
    destruct (Z.le_gt_cases sp MAX_SPAN_BYTES) as [Hsp | Hsp]; [split; [done | by eapply Hw]|].
    specialize (Ha ltac:(lia) c' sp' Hc' Hadm). lia.
  - intros c Hc. destruct (Z.lt_ge_cases max_cores (zprod (dvalues (with_combo acc vars c)))); [by left|].
    right. destruct (get_per_core_span td (with_combo acc vars c) it_space meta) as [sp|e] eqn:Hs; [|eauto].
    by destruct (Hrun c sp Hc).
Qed.

(** ** The merge of the constraints *)

Lemma merge_domain_spec committed sa d d' :
  merge_domain committed sa d = Ok d' ->
  exists a, d' = dset sa.1 a d /\ a <> ∅ /\
    a = (match dget d sa.1 with Some b => sa.2 ∩ b | None => sa.2 end) /\
    (forall c, dget committed sa.1 = Some c -> c ∈ a).
Proof.
  unfold merge_domain. intros H. inv_res. eexists. split; [reflexivity|]. split_bools.
  split_and!; [done | done |]. intros c Hc. rewrite Hc in *. split_bools. by apply dec_stable.
Qed.

(** What holds of the merged result after the constraints' verdicts [rs]. *)
Record merged (committed : dict Z) (rs : list ConstraintResult) (r : ConstraintResult) : Prop := {
  m_nodup : NoDup (dkeys (allowed_splits r));
  m_blocked : forall v, v ∈ blocked r <-> exists x, x ∈ rs /\ v ∈ blocked x;
  m_unsplit : forall v, v ∈ blocked r -> dget_or 1 committed v <= 1;
  m_domain : forall v a, dget (allowed_splits r) v = Some a ->
    a <> ∅ /\ (forall c, dget committed v = Some c -> c ∈ a) /\
    forall s, s ∈ a <-> forall x b, x ∈ rs -> (v, b) ∈ allowed_splits x -> s ∈ b;
  m_none : forall v, dget (allowed_splits r) v = None -> forall x b, x ∈ rs -> (v, b) ∉ allowed_splits x
}.

Lemma merged_init committed : merged committed [] (mkConstraints ∅ []).
Proof.
  split; cbn; [constructor | | | done |].
  - intros v. split; [set_solver | intros (x & H & _); by apply elem_of_nil in H].
  - intros v Hv. by apply elem_of_empty in Hv.
  - intros v _ x b H. by apply elem_of_nil in H.
Qed.

(** The domains after the entries [dn] of one more verdict. *)
Lemma merge_domains committed rs r dn :
  merged committed rs r ->
  forall ds, for_each (merge_domain committed) dn (allowed_splits r) = Ok ds ->
  NoDup (dkeys ds) /\
  (forall v a, dget ds v = Some a ->
    a <> ∅ /\ (forall c, dget committed v = Some c -> c ∈ a) /\
    forall s, s ∈ a <-> (forall x b, x ∈ rs -> (v, b) ∈ allowed_splits x -> s ∈ b) /\
                       (forall b, (v, b) ∈ dn -> s ∈ b)) /\
  (forall v, dget ds v = None ->
     (forall x b, x ∈ rs -> (v, b) ∉ allowed_splits x) /\ forall b, (v, b) ∉ dn).
Proof.
  intros Hm ds. apply (for_each_ind _ (fun dn ds => NoDup (dkeys ds) /\
    (forall v a, dget ds v = Some a ->
      a <> ∅ /\ (forall c, dget committed v = Some c -> c ∈ a) /\
      forall s, s ∈ a <-> (forall x b, x ∈ rs -> (v, b) ∈ allowed_splits x -> s ∈ b) /\
                         (forall b, (v, b) ∈ dn -> s ∈ b)) /\
    (forall v, dget ds v = None ->
      (forall x b, x ∈ rs -> (v, b) ∉ allowed_splits x) /\ forall b, (v, b) ∉ dn))).
  - intros done_ [w b0] rest d1 d2 _ (Hnd & Hdom & Hnone) (a & -> & Hne & Ha & Hc)%merge_domain_spec.
    cbn [fst snd] in *. split_and!; [by apply dkeys_dset_NoDup | |].
    + intros v a'. rewrite dget_dset. setoid_rewrite elem_of_app. setoid_rewrite list_elem_of_singleton.
      destruct (decide (v = w)) as [-> | Hvw].
      * intros [= <-]. split_and!; [done | done |]. intros s. rewrite Ha.
        destruct (dget d1 w) as [a1|] eqn:Hd.
        -- destruct (Hdom w a1 Hd) as (_ & _ & Hs). rewrite elem_of_intersection, Hs.
           split; [intros (H1 & H2 & H3); split; [done|]; intros b [Hb | [= ->]]; auto|].
           intros [H1 H2]. split_and!; [apply H2; by right | done | intros b Hb; apply H2; by left].
        -- destruct (Hnone w Hd) as [N1 N2]. split.
           ++ intros Hs. split; [intros x b Hx Hb; by destruct (N1 x b) |].
              intros b [Hb | [= ->]]; [by destruct (N2 b) | done].
           ++ intros [_ H2]. apply H2. by right.
      * intros Hd. destruct (Hdom v a' Hd) as (D1 & D2 & D3). split_and!; [done | done |].
        intros s. rewrite D3. split; intros [H1 H2]; (split; [done|]); naive_solver.
    + intros v. rewrite dget_dset. case_decide; [done|]. intros Hd. destruct (Hnone v Hd) as [N1 N2].
      split; [done|]. intros b [Hb | [= -> ->]%list_elem_of_singleton]%elem_of_app; [by destruct (N2 b) | done].
  - split_and!; [apply Hm | |].
    + intros v a Hd. destruct (m_domain _ _ _ Hm v a Hd) as (D1 & D2 & D3).
      split_and!; [done | done |]. intros s. rewrite D3. split; [intros H; split; [done|] | tauto].
      intros b H'. by apply elem_of_nil in H'.
    + intros v Hd. split; [by eapply m_none | intros b; apply not_elem_of_nil].
Qed.

Lemma merge_constraint_ok ctx rs r k x r' :
  merged (committed_splits ctx) rs r -> k ctx = Ok x -> merge_constraint ctx k r = Ok r' ->
  merged (committed_splits ctx) (rs ++ [x]) r'.
Proof.
  intros Hm Hx. unfold merge_constraint. rewrite Hx. cbn [mbind res_bind].
  intros ([] & Hblk%raise_if_Ok & Hrun)%bind_Ok. apply bind_Ok in Hrun as (ds & Hds & [= <-]).
  destruct (merge_domains _ _ _ _ Hm _ Hds) as (Hnd & Hdom & Hnone).
  assert (forall v, v ∈ blocked x -> dget_or 1 (committed_splits ctx) v <= 1) as Hun.
  { intros v Hv. apply Z.nlt_ge. intros Hlt.
    assert (existsb (fun s => 1 <? dget_or 1 (committed_splits ctx) s) (elements (blocked x)) = true) as E;
      [|congruence].
    apply existsb_exists. exists v. split; [by apply list_elem_of_In, elem_of_elements | lia]. }
  split; cbn [allowed_splits blocked]; [done | | | |].
  - intros v. rewrite elem_of_union, (m_blocked _ _ _ Hm). setoid_rewrite elem_of_app.
    setoid_rewrite list_elem_of_singleton. naive_solver.
  - intros v [Hv | Hv]%elem_of_union; [by apply Hm | by apply Hun].
  - intros v a Hd. destruct (Hdom v a Hd) as (D1 & D2 & D3). split_and!; [done | done |].
    intros s. rewrite D3. setoid_rewrite elem_of_app. setoid_rewrite list_elem_of_singleton. naive_solver.
  - intros v Hd. destruct (Hnone v Hd) as [N1 N2].
    intros y b [Hy | ->%list_elem_of_singleton]%elem_of_app; [by apply N1 | apply N2].
Qed.

Lemma collect_merged ks ctx r :
  collect_work_division_constraints ks ctx = Ok r ->
  exists rs, py_map (fun k : constraint => k ctx) ks = Ok rs /\ merged (committed_splits ctx) rs r.
Proof.
  unfold collect_work_division_constraints.
  apply (for_each_ind _ (fun dn r => exists rs, py_map (fun k : constraint => k ctx) dn = Ok rs /\
    merged (committed_splits ctx) rs r)).
  - intros dn k rest r1 r2 _ (rs & Hrs & Hm) Hstep. pose proof Hstep as Hk. unfold merge_constraint in Hk.
    apply bind_Ok in Hk as (x & Hx & _). exists (rs ++ [x]). split; [|by eapply merge_constraint_ok].
    apply py_map_Ok in Hrs. apply py_map_Ok, Forall2_app; [done|]. by repeat constructor.
  - exists []. split; [done | apply merged_init].
Qed.

(** Merging the work-division constraints loses none of them: the blocked set is
    the union of the constraints' blocked sets and every domain the intersection of
    the domains they give that dimension, no domain is empty, and what span
    reduction already committed respects both -- a blocked dimension is unsplit and
    a committed factor lies in its domain. *)
Theorem constraints_merge ks ctx r :
  collect_work_division_constraints ks ctx = Ok r ->
  exists rs, py_map (fun k : constraint => k ctx) ks = Ok rs /\
    (forall v, v ∈ blocked r <-> exists x, x ∈ rs /\ v ∈ blocked x) /\
    (forall v, v ∈ blocked r -> dget_or 1 (committed_splits ctx) v <= 1) /\
    (forall v a, dget (allowed_splits r) v = Some a ->
       a <> ∅ /\ (forall c, dget (committed_splits ctx) v = Some c -> c ∈ a) /\
       forall s, s ∈ a <-> forall x b, x ∈ rs -> (v, b) ∈ allowed_splits x -> s ∈ b) /\
    (forall v, dget (allowed_splits r) v = None -> forall x b, x ∈ rs -> (v, b) ∉ allowed_splits x).
Proof.
  intros (rs & Hrs & [H1 H2 H3 H4 H5])%collect_merged. exists rs. split_and!; done.
Qed.

(** ** Witnesses *)

(** The coordinate that is one iteration variable. *)
Definition var_coord (v : string) : Coord := mkCoord [v] false (fun env => Some (env v)).

(** A 2 GB tensor whose rows are divided so that each core sees 256 MB. *)
Definition big_td : TensorDep :=
  mkTensorDep "arg0" [64; 65536; 4; 64] 2 64 false
    [var_coord "d0"; var_coord "d1"; mkCoord [] false (fun _ => Some 0); var_coord "d2"].
Definition big_space : dict Expr :=
  [("d0"%string, concrete 64); ("d1"%string, concrete 65536); ("d2"%string, concrete 64)].
Definition no_meta : SymbolMeta := [].

Lemma big_run :
  must_split_vars big_space big_space [("d2"%string, 64)] 32 no_meta [("d0"%string, {[ 1; 2; 4; 8; 16 ]})] ∅
    [big_td] = Ok [("d0"%string, 8)].
Proof. vm_compute. reflexivity. Qed.

Lemma must_split_legal_witness : zprod (dvalues [("d0"%string, 8)]) <= 32.
Proof.
  refine (proj1 (proj1 (must_split_legal _ _ _ 32 _ _ _ _ _ _ big_run))). lia.
Defined.

Lemma span_search_minimal_witness :
  [8] ∈ cartesian [[1; 2; 4; 8; 16]].
Proof.
  refine (proj1 (span_search_minimal big_space 32 no_meta big_td [] ["d0"%string] [[1; 2; 4; 8; 16]]
    (Some (MAX_SPAN_BYTES, [8])) _)).
  vm_compute. reflexivity.
Defined.

(** Two constraints on one axis: the domains intersect. *)
Definition ex_constraints : list constraint :=
  [fun _ => Ok (mkConstraints {[ "d1"%string ]} [("d0"%string, {[ 1; 2; 4 ]})]);
   fun _ => Ok (mkConstraints ∅ [("d0"%string, {[ 2; 4; 8 ]})])].
Definition ex_context : WorkDivConstraintContext :=
  mkConstraintContext big_space big_space big_td [] [] [] [("d0"%string, 2)].

Lemma constraints_merge_witness :
  exists rs, py_map (fun k : constraint => k ex_context) ex_constraints = Ok rs.
Proof.
  destruct (constraints_merge ex_constraints ex_context
    (mkConstraints ({[ "d1"%string ]}) [("d0"%string, {[ 2; 4 ]})])) as (rs & Hrs & _).
  - vm_compute. reflexivity.
  - exists rs. exact Hrs.
Defined.
