(* ===== verification/CoreMapping.v ===== *)
(** * Mapping work slices onto cores ([core_mapping.py], [op_spec.py])

    A split of the iteration space assigns every core one slice of every dimension:
    an expression in [core_id], which is a function of the core here.
    [core_to_slice_mapping] counts the slices in mixed radix, [derive_core_mapping]
    keeps the owners of grouped dimensions on contiguous core groups, and
    [derive_partition_mapping] replicates owners over such groups. *)

From S2P Require Import Prelude PyDict.

(** An expression in the free symbol [core_id]. *)
Definition owner : Type := Z -> Z.

(** ** [core_to_slice_mapping] *)

(** The slice index of one dimension: [Mod(floor(core_id / stride), split)], simplified
    where the code does. *)
Definition coordinate (split stride : Z) : owner :=
  if split =? 1 then fun _ => 0
  else if stride =? 1 then fun core_id => core_id mod split
  else fun core_id => (core_id / stride) mod split.

(** The order in which the dimensions vary: the contiguous one first. *)
Definition dim_order (splits : list Z) (contiguous_dim : option nat) : res (list nat) :=
  let order := seq 0 (length splits) in
  match contiguous_dim with
  | None => Ok order
  | Some c =>
      match splits !! c with
      | None => Raise IndexError
      | Some s => if 1 <? s then Ok (c :: filter (fun d => d <> c) order) else Ok order
      end
  end.

(** One dimension of the loop: the state is [(stride, result)]. *)
Definition map_dim (dims : list string) (splits : list Z) (dim : nat) (st : Z * dict owner)
    : res (Z * dict owner) :=
  match splits !! dim, dims !! dim with
  | Some split, Some d => Ok (st.1 * split, dset d (coordinate split st.1) st.2)
  | _, _ => Raise IndexError
  end.

Definition core_to_slice_mapping (dims : list string) (splits : list Z) (num_cores : Z)
    (contiguous_dim : option nat) : res (dict owner) :=
  raise_if (negb (length dims =? length splits)%nat) ValueError;;
  let logical_cores := zprod splits in
  (if num_cores <? logical_cores then Raise ValueError
   else if logical_cores =? 0 then Raise ZeroDivisionError
   else raise_if (negb (num_cores mod logical_cores =? 0)) ValueError);;
  order ← dim_order splits contiguous_dim;
  st ← for_each (map_dim dims splits) order (1, []);
  Ok st.2.

(** ** [derive_core_mapping] and [derive_partition_mapping] *)

(** [expression.subs(core_id, e)] *)
Definition subs_core (e : owner) (m : dict owner) : dict owner :=
  (fun kf => (kf.1, fun core_id => kf.2 (e core_id))) <$> m.

(** [dims.index(d) if d in dims else None] *)
Definition index_of (dims : list string) (d : option string) : option nat :=
  match d with Some x => fst <$> list_find (eq x) dims | None => None end.

(** The validation of the grouped dimensions. *)
Definition check_grouped (split_by_dim : dict Z) (gs : string * Z) (u : unit) : res unit :=
  s ← dgetitem split_by_dim gs.1; raise_if (negb (gs.2 =? s)) ValueError.

(** [splits[d] for d in ds] over the dictionary. *)
Definition lookup_splits (split_by_dim : dict Z) (ds : list string) : res (list Z) :=
  py_map (dgetitem split_by_dim) ds.

Definition derive_core_mapping (dims : list string) (splits : list Z) (num_cores : Z)
    (contiguous_dim : option string) (grouped_splits : dict Z) : res (dict owner) :=
  raise_if (negb (length dims =? length splits)%nat) ValueError;;
  let split_by_dim := dupdate [] (zip dims splits) in
  raise_if (negb (zprod splits =? num_cores)) ValueError;;
  raise_if (negb (forallb (fun g => dmem split_by_dim g) (dkeys grouped_splits))) ValueError;;
  for_each (check_grouped split_by_dim) grouped_splits tt;;
  if bool_decide (grouped_splits = []) then
    core_to_slice_mapping dims splits num_cores (index_of dims contiguous_dim)
  else
    let grouped_dims := dkeys grouped_splits in
    let local_dims := filter (fun d => dget grouped_splits d = None) dims in
    let owner_count := zprod (dvalues grouped_splits) in
    raise_if (owner_count <=? 0) ValueError;;
    raise_if (negb (num_cores mod owner_count =? 0)) ValueError;;
    let group_size := num_cores / owner_count in
    local_splits ← lookup_splits split_by_dim local_dims;
    raise_if (negb (zprod local_splits =? group_size)) ValueError;;
    owner_mapping ← core_to_slice_mapping grouped_dims (dvalues grouped_splits) owner_count None;
    local_mapping ← core_to_slice_mapping local_dims local_splits group_size
                      (index_of local_dims contiguous_dim);
    Ok (dupdate (subs_core (fun core_id => core_id / group_size) owner_mapping)
                (subs_core (fun core_id => core_id mod group_size) local_mapping)).

Definition derive_partition_mapping (dims : list string) (splits : list Z) (num_cores : Z)
    : res (dict owner) :=
  let owner_count := zprod splits in
  raise_if ((owner_count <=? 0) || (num_cores <=? 0)) ValueError;;
  raise_if (negb (num_cores mod owner_count =? 0)) ValueError;;
  let group_size := num_cores / owner_count in
  mapping ← core_to_slice_mapping dims splits owner_count None;
  Ok (subs_core (fun core_id => core_id / group_size) mapping).

(** ** [TensorWorkDivision] *)

Record TensorWorkDivision := mkWorkDivision {
  work_slices : dict Z;
  core_id_to_work_slice : dict owner;
  num_cores : option Z
}.

Definition physical_core_count (w : TensorWorkDivision) : Z :=
  default (zprod (dvalues (work_slices w))) (num_cores w).

(** The slot of one dimension for one core; an owner expression of this model is
    always integral. *)
Definition core_slot (w : TensorWorkDivision) (core : Z) (de : string * owner) : res (string * Z) :=
  split ← dgetitem (work_slices w) de.1;
  let slot := de.2 core in
  raise_if (negb ((0 <=? slot) && (slot <? split))) ValueError;;
  Ok (de.1, slot).

Definition to_core_slices (w : TensorWorkDivision) (n : Z) : res (list (Z * dict Z)) :=
  raise_if (n <=? 0) ValueError;;
  py_map (fun core => slots ← py_map (core_slot w core) (core_id_to_work_slice w); Ok (core, slots))
    (Z.of_nat <$> seq 0 (Z.to_nat n)).

(** [make_iteration_space_ownership]: [k_fast] is the matmul test with
    [config.core_id_k_fast_emission]. *)
Definition make_iteration_space_ownership (iter_space : list string) (k_fast : bool)
    (splits : dict Z) : res TensorWorkDivision :=
  let slices := (fun sym => (sym, dget_or 1 splits sym)) <$> iter_space in
  let dim_splits := dvalues slices in
  let contiguous_dim := if k_fast then Some (length dim_splits - 1)%nat else None in
  m ← core_to_slice_mapping iter_space dim_splits (zprod dim_splits) contiguous_dim;
  Ok (mkWorkDivision slices m (Some (zprod dim_splits))).

(** ** [distribute_aligned_split] *)

(** The loop over the segments, outermost first: the factors it appends and what
    remains. *)
Fixpoint distribute (remaining : Z) (bases : list Z) : res (list Z * Z) :=
  match bases with
  | [] => Ok ([], remaining)
  | basis :: bases' =>
      let factor := Z.gcd remaining basis in
      raise_if (factor =? 0) ZeroDivisionError;;
      r ← distribute (remaining / factor) bases';
      Ok (factor :: r.1, r.2)
  end.

Definition distribute_aligned_split (split : Z) (bases : list Z) : res (list Z * Z) :=
  r ← distribute split (reverse bases); Ok (reverse r.1, r.2).

Fixpoint keeps_blocks (split_inside : bool) (fbs : list (Z * Z)) : bool :=
  match fbs with
  | [] => true
  | (factor, basis) :: fbs' =>
      if split_inside && (1 <? factor) then false
      else keeps_blocks (split_inside || (factor <? basis)) fbs'
  end.

Definition aligned_split_keeps_blocks (split : Z) (bases : list Z) : res bool :=
  r ← distribute_aligned_split split bases;
  Ok (if negb (r.2 =? 1) then false
      else keeps_blocks false (zip (reverse r.1) (reverse bases))).

(** ** Mixed radix *)

Fixpoint digits (rs : list Z) (c : Z) : list Z :=
  match rs with [] => [] | r :: rs' => c mod r :: digits rs' (c / r) end.

Fixpoint undigits (rs ds : list Z) : Z :=
  match rs, ds with r :: rs', d :: ds' => d + r * undigits rs' ds' | _, _ => 0 end.

Lemma digits_lookup rs : forall c k r,
  Forall (fun r => 1 <= r) rs -> rs !! k = Some r ->
  digits rs c !! k = Some ((c / zprod (take k rs)) mod r).
Proof.
  induction rs as [|r0 rs IH]; intros c k r Hpos Hk; [done|]. apply Forall_cons in Hpos as [H0 Hpos].
  destruct k as [|k]; cbn [digits take]; simplify_eq/=.
  - by rewrite Z.div_1_r.
  - rewrite (IH (c / r0) k r Hpos Hk). rewrite Z.div_div; [done | lia |].
    apply zprod_pos, Forall_take. eapply Forall_impl; [exact Hpos|]. simpl. lia.
Qed.

Lemma digits_undigits rs ds :
  Forall2 (fun r d => 0 <= d < r) rs ds ->
  digits rs (undigits rs ds) = ds /\ 0 <= undigits rs ds < zprod rs.
Proof.
  induction 1 as [|r d rs ds Hd _ [IH1 IH2]]; cbn [digits undigits]; [done|].
  unfold zprod in *. cbn [foldr].
  assert ((d + r * undigits rs ds) mod r = d) as ->.
  { rewrite (Z.mul_comm r), Z_mod_plus_full. apply Z.mod_small. lia. }
  assert ((d + r * undigits rs ds) / r = undigits rs ds) as ->.
  { rewrite (Z.mul_comm r), Z.div_add by lia. rewrite Z.div_small by lia. lia. }
  split; [by f_equal | nia].
Qed.

Lemma undigits_digits rs : forall c,
  Forall (fun r => 1 <= r) rs -> 0 <= c < zprod rs -> undigits rs (digits rs c) = c.
Proof.
  induction rs as [|r rs IH]; intros c Hpos Hc; unfold zprod in *; cbn [foldr digits undigits] in *; [lia|].
  apply Forall_cons in Hpos as [Hr Hpos].
  rewrite (IH (c / r) Hpos); [pose proof (Z.div_mod c r); lia|].
  split; [apply Z.div_pos; lia | apply Z.div_lt_upper_bound; lia].
Qed.

Lemma digits_period rs : forall c,
  Forall (fun r => 1 <= r) rs -> digits rs (c + zprod rs) = digits rs c.
Proof.
  induction rs as [|r rs IH]; intros c Hpos; [done|]. apply Forall_cons in Hpos as [Hr Hpos].
  unfold zprod in *. cbn [foldr digits]. rewrite (Z.mul_comm r), Z_mod_plus_full, Z.div_add by lia.
  f_equal. by apply IH.
Qed.

(** ** The mapping in mixed radix *)

(** The slot of dimension [d] on a core. *)
Definition slot (m : dict owner) (d : string) (core : Z) : option Z := (fun f => f core) <$> dget m d.

Lemma coordinate_eq split stride c : coordinate split stride c = (c / stride) mod split.
Proof.
  unfold coordinate. destruct (Z.eqb_spec split 1) as [-> |]; [by rewrite Z.mod_1_r|].
  destruct (Z.eqb_spec stride 1) as [-> |]; [by rewrite Z.div_1_r | done].
Qed.

Lemma dim_order_perm splits cd order : dim_order splits cd = Ok order -> order ≡ₚ seq 0 (length splits).
Proof.
  unfold dim_order. destruct cd as [c|]; [|by intros [= <-]].
  destruct (splits !! c) as [s|] eqn:Hc; [|done]. case_match; intros [= <-]; [|done].
  symmetry. apply NoDup_Permutation; [apply NoDup_seq | |].
  - constructor; [|apply NoDup_filter, NoDup_seq]. intros Hin. by apply list_elem_of_filter in Hin as [? _].
  - apply lookup_lt_Some in Hc. intros x. rewrite elem_of_cons, list_elem_of_filter, !elem_of_seq.
    destruct (decide (x = c)); [subst|]; lia.
Qed.

(** The loop assigns every dimension its digit. *)
Lemma map_dims_spec dims splits order st :
  NoDup dims -> NoDup order ->
  for_each (map_dim dims splits) order (1, []) = Ok st ->
  exists rs ds, Forall2 (fun i r => splits !! i = Some r) order rs /\
    Forall2 (fun i d => dims !! i = Some d) order ds /\
    st.1 = zprod rs /\
    (forall k d r, ds !! k = Some d -> rs !! k = Some r ->
       dget st.2 d = Some (coordinate r (zprod (take k rs)))).
Proof.
  intros Hnd Hno. apply (for_each_ind _ (fun dn st => exists rs ds,
    Forall2 (fun i r => splits !! i = Some r) dn rs /\ Forall2 (fun i d => dims !! i = Some d) dn ds /\
    st.1 = zprod rs /\
    (forall k d r, ds !! k = Some d -> rs !! k = Some r ->
       dget st.2 d = Some (coordinate r (zprod (take k rs)))))).
  - intros dn i rest s1 s2 Hord (rs & ds & Hrs & Hds & Hst & Hget) Hstep. unfold map_dim in Hstep.
    destruct (splits !! i) as [r|] eqn:Hr; [|done]. destruct (dims !! i) as [d|] eqn:Hd; [|done].
    injection Hstep as <-. exists (rs ++ [r]), (ds ++ [d]). cbn [fst snd].
    pose proof (Forall2_length _ _ _ Hrs) as Hl1. pose proof (Forall2_length _ _ _ Hds) as Hl2.
    split_and!; [by apply Forall2_app; [|repeat constructor] | by apply Forall2_app; [|repeat constructor] | |].
    + rewrite zprod_app, Hst. unfold zprod at 3. simpl. lia.
    + intros k d' r' Hk Hk'. rewrite dget_dset.
      destruct (decide (k < length ds)%nat) as [Hlt | Hge].
      * rewrite lookup_app_l in Hk by done. rewrite lookup_app_l in Hk' by lia.
        rewrite decide_False; [rewrite take_app_le by lia; by apply Hget|]. intros ->.
        destruct (Forall2_lookup_r _ _ _ _ _ Hds Hk) as (j & Hj & Hdj).
        assert (i = j) as -> by (eapply (NoDup_lookup dims); eauto).
        rewrite Hord in Hno. apply NoDup_app in Hno as (_ & Hno & _).
        apply (Hno j); [by eapply list_elem_of_lookup_2 | list_mem].
      * apply lookup_app_Some in Hk as [Hk | [_ Hk]]; [by apply lookup_lt_Some in Hk|].
        apply lookup_app_Some in Hk' as [Hk' | [_ Hk']]; [apply lookup_lt_Some in Hk'; lia|].
        apply list_lookup_singleton_Some in Hk as [Hk <-]. apply list_lookup_singleton_Some in Hk' as [_ <-].
        rewrite decide_True by done. rewrite take_app_ge by lia.
        replace (k - length rs)%nat with 0%nat by lia. by rewrite app_nil_r, Hst.
  - exists [], []. split_and!; [constructor | constructor | done |]. intros k d r H. by rewrite lookup_nil in H.
Qed.

(** Every assignment of slots is owned by exactly one of the first [P] cores. *)
Record owns_all (m : dict owner) (ds : dict Z) (P : Z) : Prop := {
  oa_range : forall d s core, (d, s) ∈ ds -> exists v, slot m d core = Some v /\ 0 <= v < s;
  oa_unique : forall target : string -> Z, (forall d s, (d, s) ∈ ds -> 0 <= target d < s) ->
    exists core, 0 <= core < P /\ (forall d s, (d, s) ∈ ds -> slot m d core = Some (target d)) /\
      forall core', 0 <= core' < P -> (forall d s, (d, s) ∈ ds -> slot m d core' = Some (target d)) ->
        core' = core
}.

Lemma digits_own m rs ds :
  Forall (fun r => 1 <= r) rs -> length ds = length rs ->
  (forall k d core, ds !! k = Some d -> slot m d core = digits rs core !! k) ->
  owns_all m (zip ds rs) (zprod rs).
Proof.
  intros Hpos Hlen Hslot.
  assert (forall d s, (d, s) ∈ zip ds rs -> exists k, ds !! k = Some d /\ rs !! k = Some s) as Hzip.
  { intros d s [k Hk]%list_elem_of_lookup. exists k.
    by apply lookup_zip_with_Some in Hk as (d' & s' & [= <- <-] & ? & ?). }
  split.
  - intros d s core (k & Hd & Hs)%Hzip. rewrite (Hslot k d core Hd), (digits_lookup rs core k s Hpos Hs).
    eexists. split; [done|]. rewrite Forall_lookup in Hpos. apply Z.mod_pos_bound.
    specialize (Hpos k s Hs). simpl in Hpos. lia.
  - intros target Ht. assert (Forall2 (fun r d => 0 <= d < r) rs (target <$> ds)) as Hin.
    { apply Forall2_same_length_lookup_2; [by rewrite length_fmap|]. intros k r t Hr Hk.
      apply list_lookup_fmap_Some in Hk as (d & -> & Hd). apply (Ht d r).
      apply list_elem_of_lookup. exists k. by apply lookup_zip_with_Some; eauto 10. }
    destruct (digits_undigits rs _ Hin) as [Hdig Hrange]. exists (undigits rs (target <$> ds)).
    split_and!; [lia | lia | |].
    + intros d s (k & Hd & Hs)%Hzip. rewrite (Hslot k d _ Hd), Hdig, list_lookup_fmap, Hd. done.
    + intros core' Hc' Hall. rewrite <- (undigits_digits rs core' Hpos Hc'). f_equal.
      apply list_eq. intros k. destruct (ds !! k) as [d|] eqn:Hd.
      * rewrite list_lookup_fmap, Hd, <- (Hslot k d core' Hd).
        destruct (lookup_lt_is_Some_2 rs k) as [r Hr]; [apply lookup_lt_Some in Hd; lia|].
        apply (Hall d r). apply list_elem_of_lookup. exists k. by apply lookup_zip_with_Some; eauto 10.
      * rewrite list_lookup_fmap, Hd. apply lookup_ge_None in Hd. apply lookup_ge_None.
        rewrite <- (length_fmap target) in Hd. clear -Hd Hlen.
        assert (forall l c, length (digits l c) = length l) as ->;
          [induction l; intros; simpl; auto | rewrite length_fmap in Hd; lia].
Qed.

Lemma owns_all_ext m ds ds' P :
  (forall x, x ∈ ds <-> x ∈ ds') -> owns_all m ds P -> owns_all m ds' P.
Proof.
  intros Hext [Hr Hu]. split.
  - intros d s core Hin. apply Hr. by apply Hext.
  - intros target Ht. destruct (Hu target) as (core & Hc & Hall & Huniq).
    + intros d s Hin. apply Ht. by apply Hext.
    + exists core. split_and!; [lia | lia | |].
      * intros d s Hin. apply (Hall d s). by apply Hext.
      * intros core' Hc' Hall'. apply Huniq; [done|]. intros d s Hin. apply (Hall' d s). by apply Hext.
Qed.

Lemma core_to_slice_owns dims splits n cd m :
  NoDup dims -> Forall (fun r => 1 <= r) splits ->
  core_to_slice_mapping dims splits n cd = Ok m ->
  length dims = length splits /\ owns_all m (zip dims splits) (zprod splits).
Proof.
  intros Hnd Hpos. unfold core_to_slice_mapping.
  intros ([] & Hlen%raise_if_Ok & H)%bind_Ok. apply bind_Ok in H as ([] & _ & H).
  apply bind_Ok in H as (order & Hord & H). apply bind_Ok in H as (st & Hst & [= <-]).
  apply negb_false_iff, Nat.eqb_eq in Hlen. split; [done|].
  pose proof (dim_order_perm _ _ _ Hord) as Hperm.
  assert (NoDup order) as Hno by (rewrite Hperm; apply NoDup_seq).
  destruct (map_dims_spec dims splits order st Hnd Hno Hst) as (rs & ds & Hrs & Hds & _ & Hget).
  assert (rs = omap (fun i => splits !! i) order) as Ers.
  { clear -Hrs. induction Hrs as [|i r o l Hi _ IH]; csimpl; [done|]. by rewrite Hi, <- IH. }
  assert (rs ≡ₚ splits) as Prs by (rewrite Ers, Hperm, omap_lookup_seq; done).
  rewrite <- Prs in Hpos. rewrite <- (zprod_proper _ _ Prs). clear Ers Prs.
  apply (owns_all_ext _ (zip ds rs)).
  - intros [d s]. rewrite !elem_of_zip. split.
    + intros (k & Hk & Hk'). destruct (Forall2_lookup_r _ _ _ _ _ Hds Hk) as (i & Hi & Hdi).
      destruct (Forall2_lookup_l _ _ _ _ _ Hrs Hi) as (s' & Hs' & Hsi). exists i. split; congruence.
    + intros (i & Hi & Hi'). assert (i ∈ order) as [k Hk]%list_elem_of_lookup.
      { rewrite Hperm. apply elem_of_seq. apply lookup_lt_Some in Hi'. lia. }
      destruct (Forall2_lookup_l _ _ _ _ _ Hds Hk) as (d' & Hd' & ?).
      destruct (Forall2_lookup_l _ _ _ _ _ Hrs Hk) as (s' & Hs' & ?). exists k. split; congruence.
  - apply digits_own; [done | rewrite <- (Forall2_length _ _ _ Hds); apply (Forall2_length _ _ _ Hrs) |].
    intros k d core Hd. destruct (lookup_lt_is_Some_2 rs k) as [r Hr].
    { rewrite <- (Forall2_length _ _ _ Hrs), (Forall2_length _ _ _ Hds). by eapply lookup_lt_Some. }
    unfold slot. rewrite (Hget k d r Hd Hr). cbn. by rewrite coordinate_eq, (digits_lookup rs core k r).
Qed.

(** ** Grouped owners *)

Lemma slot_subs e m d core : slot (subs_core e m) d core = slot m d (e core).
Proof.
  unfold slot, subs_core. induction m as [|[k f] m IH]; csimpl; [done|]. by case_decide.
Qed.

Lemma dkeys_subs e m : dkeys (subs_core e m) = dkeys m.
Proof. unfold dkeys, subs_core. rewrite <- list_fmap_compose. by apply list_fmap_ext. Qed.

(** Two mappings side by side: the high part of the core number counts the owners of
    [gs], the low part those of [ls]. *)
Lemma owns_product mg ml gs ls G L m :
  1 <= L -> owns_all mg gs G -> owns_all ml ls L ->
  (forall d s core, (d, s) ∈ gs -> slot m d core = slot mg d (core / L)) ->
  (forall d s core, (d, s) ∈ ls -> slot m d core = slot ml d (core mod L)) ->
  owns_all m (gs ++ ls) (G * L).
Proof.
  intros HL [Rg Ug] [Rl Ul] Hg Hl. split.
  - intros d s core [Hin | Hin]%elem_of_app; [rewrite (Hg d s) by done; by apply Rg|].
    rewrite (Hl d s) by done. by apply Rl.
  - intros target Ht. destruct (Ug target) as (g & Hgr & Hga & Hgu); [intros; apply Ht; list_mem|].
    destruct (Ul target) as (l & Hlr & Hla & Hlu); [intros; apply Ht; list_mem|].
    assert ((g * L + l) / L = g) as Hdiv by (rewrite Z.div_add_l, Z.div_small by lia; lia).
    assert ((g * L + l) mod L = l) as Hmod by (rewrite Z.add_comm, Z_mod_plus_full, Z.mod_small; lia).
    exists (g * L + l). split_and!; [nia | nia | |].
    + intros d s [Hin | Hin]%elem_of_app.
      * rewrite (Hg d s), Hdiv by done. by apply (Hga d s).
      * rewrite (Hl d s), Hmod by done. by apply (Hla d s).
    + intros core' Hc' Hall. rewrite (Z.div_mod core' L) by lia. rewrite (Z.mul_comm L). f_equal; [f_equal|].
      * apply Hgu; [split; [apply Z.div_pos; lia | apply Z.div_lt_upper_bound; lia]|].
        intros d s Hin. rewrite <- (Hg d s core') by done. apply (Hall d s). list_mem.
      * apply Hlu; [apply Z.mod_pos_bound; lia|].
        intros d s Hin. rewrite <- (Hl d s core') by done. apply (Hall d s). list_mem.
Qed.

Lemma zip_filter_split (dims : list string) (splits : list Z) (gs : dict Z) ls :
  NoDup dims -> length dims = length splits ->
  (forall d s, (d, s) ∈ gs -> (d, s) ∈ zip dims splits) -> NoDup (dkeys gs) ->
  lookup_splits (zip dims splits) (filter (fun d => dget gs d = None) dims) = Ok ls ->
  forall x, x ∈ gs ++ zip (filter (fun d => dget gs d = None) dims) ls <-> x ∈ zip dims splits.
Proof.
  intros Hnd Hlen Hsub Hgs Hls [d s]. apply py_map_Ok in Hls.
  assert (NoDup (dkeys (zip dims splits))) as Hz by (unfold dkeys; rewrite fst_zip by lia; done).
  rewrite elem_of_app, elem_of_zip. split.
  - intros [Hin | (k & Hk & Hs)]; [by apply Hsub|].
    destruct (Forall2_lookup_l _ _ _ _ _ Hls Hk) as (s' & Hs' & Hget). rewrite Hs in Hs'. injection Hs' as <-.
    unfold dgetitem in Hget. destruct (dget (zip dims splits) d) eqn:E; simplify_eq. by apply dget_Some_elem.
  - intros Hin. destruct (dget gs d) as [s'|] eqn:Hd.
    + left. apply dget_Some_elem in Hd. pose proof (Hsub _ _ Hd) as Hin'.
      apply (dget_NoDup _ _ _ Hz) in Hin, Hin'. rewrite Hin in Hin'. by injection Hin' as ->.
    + right. assert (d ∈ filter (fun d => dget gs d = None) dims) as [k Hk]%list_elem_of_lookup.
      { apply list_elem_of_filter. split; [done|]. apply elem_of_zip in Hin as (i & Hi & _).
        by eapply list_elem_of_lookup_2. }
      destruct (Forall2_lookup_l _ _ _ _ _ Hls Hk) as (s' & Hs' & Hget). exists k. split; [done|].
      unfold dgetitem in Hget. rewrite (dget_NoDup _ _ _ Hz Hin) in Hget. congruence.
Qed.

Lemma core_to_slice_keys dims splits n cd m :
  core_to_slice_mapping dims splits n cd = Ok m ->
  NoDup (dkeys m) /\ forall d, d ∈ dkeys m -> d ∈ dims.
Proof.
  unfold core_to_slice_mapping. intros ([] & _ & H)%bind_Ok. apply bind_Ok in H as ([] & _ & H).
  apply bind_Ok in H as (order & _ & H). apply bind_Ok in H as (st & Hst & [= <-]). revert Hst.
  apply (for_each_ind _ (fun _ st => NoDup (dkeys st.2) /\ forall d, d ∈ dkeys st.2 -> d ∈ dims)).
  - intros dn i rest s1 s2 _ [Hnd Hsub] Hstep. unfold map_dim in Hstep.
    destruct (splits !! i); [|done]. destruct (dims !! i) as [d|] eqn:Hd; [|done]. injection Hstep as <-.
    cbn [snd]. split; [by apply dkeys_dset_NoDup|]. intros d' [-> | H]%elem_of_dkeys_dset; [|auto].
    by eapply list_elem_of_lookup_2.
  - split; [constructor|]. intros d H. by apply elem_of_nil in H.
Qed.

Lemma check_grouped_spec sbd gs u :
  for_each (check_grouped sbd) gs tt = Ok u -> forall d s, (d, s) ∈ gs -> dget sbd d = Some s.
Proof.
  apply (for_each_ind _ (fun dn _ => forall d s, (d, s) ∈ dn -> dget sbd d = Some s)).
  - intros dn [d0 s0] rest [] [] _ Hdn Hstep d s [H | [= -> ->]%list_elem_of_singleton]%elem_of_app; [auto|].
    unfold check_grouped, dgetitem in Hstep. cbn [fst snd] in Hstep.
    destruct (dget sbd d0) as [s1|]; [|done]. cbn in Hstep. apply raise_if_Ok, negb_false_iff, Z.eqb_eq in Hstep.
    by subst.
  - intros d s H. by apply elem_of_nil in H.
Qed.

(** What a successful grouped derivation consists of. *)
Lemma derive_grouped dims splits n cd gs m :
  NoDup dims -> Forall (fun r => 1 <= r) splits -> NoDup (dkeys gs) -> gs <> [] ->
  derive_core_mapping dims splits n cd gs = Ok m ->
  let L := n / zprod (dvalues gs) in
  exists mg ml ls, 1 <= L /\ n = zprod (dvalues gs) * L /\
    owns_all mg gs (zprod (dvalues gs)) /\
    owns_all ml (zip (filter (fun d => dget gs d = None) dims) ls) L /\
    (forall x, x ∈ gs ++ zip (filter (fun d => dget gs d = None) dims) ls <-> x ∈ zip dims splits) /\
    (forall d s core, (d, s) ∈ gs -> slot m d core = slot mg d (core / L)) /\
    (forall d s core, (d, s) ∈ zip (filter (fun d => dget gs d = None) dims) ls ->
       slot m d core = slot ml d (core mod L)).
Proof.
  intros Hnd Hpos Hgs Hne Hrun L. unfold derive_core_mapping in Hrun.
  rewrite (bool_decide_false (gs = [])) in Hrun by done.
  apply bind_Ok in Hrun as ([] & Hlen & Hrun). apply bind_Ok in Hrun as ([] & Hn & Hrun).
  apply bind_Ok in Hrun as ([] & _ & Hrun). apply bind_Ok in Hrun as ([] & Hchk & Hrun).
  apply bind_Ok in Hrun as ([] & Hoc & Hrun). apply bind_Ok in Hrun as ([] & Hmod & Hrun).
  apply bind_Ok in Hrun as (ls & Hls & Hrun). apply bind_Ok in Hrun as ([] & Hloc & Hrun).
  apply bind_Ok in Hrun as (mg & Hmg & Hrun). apply bind_Ok in Hrun as (ml & Hml & [= <-]).
  apply raise_if_Ok, negb_false_iff, Nat.eqb_eq in Hlen. apply raise_if_Ok, negb_false_iff, Z.eqb_eq in Hn.
  assert (NoDup (dkeys (zip dims splits))) as Hz by (by rewrite zip_keys).
  rewrite (dupdate_nil _ Hz) in Hchk, Hls.
  apply raise_if_Ok in Hoc. apply raise_if_Ok, negb_false_iff, Z.eqb_eq in Hmod.
  apply raise_if_Ok, negb_false_iff, Z.eqb_eq in Hloc. fold L in Hloc, Hml.
  assert (forall d s, (d, s) ∈ gs -> (d, s) ∈ zip dims splits) as Hsub
    by (intros d s Hin; eapply dget_Some_elem, check_grouped_spec; eauto).
  pose proof (zip_filter_split dims splits gs ls Hnd Hlen Hsub Hgs Hls) as Hext.
  assert (forall d s, (d, s) ∈ zip dims splits -> 1 <= s) as Hzpos.
  { intros d s (i & _ & Hs)%elem_of_zip. rewrite Forall_lookup in Hpos. by eapply Hpos. }
  assert (Forall (fun r => 1 <= r) ls) as Hlpos.
  { apply Forall_lookup. intros i s Hs. apply py_map_Ok in Hls.
    destruct (Forall2_lookup_r _ _ _ _ _ Hls Hs) as (d & Hd & _). apply (Hzpos d), Hext, elem_of_app. right.
    apply elem_of_zip. eauto. }
  assert (NoDup (filter (fun d => dget gs d = None) dims)) as Hnl by (by apply NoDup_filter).
  apply core_to_slice_owns in Hmg as Og; [|done|].
  2: { apply Forall_forall. intros s ([d s'] & -> & Hin)%list_elem_of_fmap. by eapply Hzpos, Hsub. }
  apply core_to_slice_owns in Hml as Ol; [|done|done]. rewrite Hloc in Ol. rewrite <- dict_zip in Og.
  assert (1 <= L) as HL.
  { rewrite <- Hloc. enough (0 < zprod ls) by lia. apply zprod_pos. eapply Forall_impl; [exact Hlpos|]. simpl; lia. }
  exists mg, ml, ls. split_and!; [done | | apply Og | apply Ol | done | |].
  - subst L. pose proof (Z.div_mod n (zprod (dvalues gs))). lia.
  - destruct (core_to_slice_keys _ _ _ _ _ Hml) as [Hkn Hks]. intros d s core Hin. rewrite <- (slot_subs (fun c => c / L) mg d core).
    fold L. unfold slot at 1. rewrite dupdate_spec by (by rewrite dkeys_subs).
    assert (dget (subs_core (fun c => c mod L) ml) d = None) as ->; [|done].
    apply dget_None. rewrite dkeys_subs. intros [Hnone _]%Hks%list_elem_of_filter.
    by rewrite (dget_NoDup gs d s Hgs Hin) in Hnone.
  - destruct (core_to_slice_keys _ _ _ _ _ Hml) as [Hkn Hks]. intros d s core Hin. rewrite <- (slot_subs (fun c => c mod L) ml d core).
    fold L. unfold slot at 1. rewrite dupdate_spec by (by rewrite dkeys_subs). unfold slot.
    destruct (oa_range _ _ _ (proj2 Ol) d s (core mod L) Hin) as (v & Hv & _).
    rewrite <- (slot_subs (fun c => c mod L) ml d core) in Hv.
    unfold slot in Hv. by destruct (dget (subs_core (fun c => c mod L) ml) d).
Qed.

(** C32. Every slice of the work has exactly one owner: when [derive_core_mapping]
    returns a mapping, each core's slot in each dimension is in range, every
    combination of slots is assigned to exactly one of the [num_cores] cores, and
    the cores of one group (equal [core_id // group_size]) own the same slice of
    every grouped dimension. *)
Theorem core_mapping_bijective dims splits n cd gs m :
  NoDup dims -> Forall (fun r => 1 <= r) splits -> NoDup (dkeys gs) ->
  derive_core_mapping dims splits n cd gs = Ok m ->
  (forall d s core, (d, s) ∈ zip dims splits -> exists v, slot m d core = Some v /\ 0 <= v < s) /\
  (forall target : string -> Z, (forall d s, (d, s) ∈ zip dims splits -> 0 <= target d < s) ->
     exists core, 0 <= core < n /\
       forall core', 0 <= core' < n ->
         ((forall d s, (d, s) ∈ zip dims splits -> slot m d core' = Some (target d)) <-> core' = core)) /\
  (forall d s core core', (d, s) ∈ gs ->
     core / (n / zprod (dvalues gs)) = core' / (n / zprod (dvalues gs)) ->
     slot m d core = slot m d core').
Proof.
  intros Hnd Hpos Hgs Hrun.
  assert (owns_all m (zip dims splits) n /\
    (forall d s core core', (d, s) ∈ gs ->
      core / (n / zprod (dvalues gs)) = core' / (n / zprod (dvalues gs)) -> slot m d core = slot m d core'))
    as [[Hr Hu] Hgrp].
  { destruct (decide (gs = [])) as [-> | Hne].
    - split; [|intros d s core core' H; by apply elem_of_nil in H].
      unfold derive_core_mapping in Hrun. apply bind_Ok in Hrun as ([] & _ & Hrun).
      apply bind_Ok in Hrun as ([] & Hn%raise_if_Ok & Hrun).
      apply negb_false_iff, Z.eqb_eq in Hn. cbn in Hrun. subst n.
      by apply core_to_slice_owns in Hrun as [_ ?].
    - destruct (derive_grouped dims splits n cd gs m Hnd Hpos Hgs Hne Hrun)
        as (mg & ml & ls & HL & Hn & Og & Ol & Hext & Hg & Hl).
      split; [|intros d s core core' Hin Heq; by rewrite !(Hg d s), Heq].
      apply (owns_all_ext _ _ _ _ Hext). rewrite Hn at 1. by eapply owns_product. }
  split_and!; [done | | done].
  intros target Ht. destruct (Hu target Ht) as (core & Hc & Hall & Huniq). exists core. split; [done|].
  intros core' Hc'. split; [by apply Huniq | by intros ->].
Qed.

(** A partition with fewer owners than cores gives every owner one contiguous,
    equal-size group of cores: the cores that hold a given combination of slots are
    exactly those of one interval of length [num_cores / owner_count]. *)
Theorem partition_groups_contiguous dims splits n m :
  NoDup dims -> Forall (fun r => 1 <= r) splits ->
  derive_partition_mapping dims splits n = Ok m ->
  let group_size := n / zprod splits in
  n = zprod splits * group_size /\
  forall target : string -> Z, (forall d s, (d, s) ∈ zip dims splits -> 0 <= target d < s) ->
    exists g, 0 <= g < zprod splits /\
      forall core, 0 <= core < n ->
        ((forall d s, (d, s) ∈ zip dims splits -> slot m d core = Some (target d)) <->
         g * group_size <= core < (g + 1) * group_size).
Proof.
  intros Hnd Hpos Hrun L. unfold derive_partition_mapping in Hrun. fold L in Hrun.
  apply bind_Ok in Hrun as ([] & Hc%raise_if_Ok & Hrun). apply bind_Ok in Hrun as ([] & Hmod%raise_if_Ok & Hrun).
  apply bind_Ok in Hrun as (m0 & Hm & [= <-]). split_bools. apply Z.eqb_eq in Hmod.
  pose proof (Z.div_mod n (zprod splits)) as Hdm. fold L in Hdm.
  assert (n = zprod splits * L) as Hn by lia. split; [done|].
  apply core_to_slice_owns in Hm as [_ [Hr Hu]]; [|done|done].
  assert (1 <= L) by nia. intros target Ht. destruct (Hu target Ht) as (g & Hg & Hall & Huniq).
  exists g. split; [done|]. intros core Hcore.
  assert (core / L = g <-> g * L <= core < (g + 1) * L) as <-.
  { pose proof (Z.div_mod core L). pose proof (Z.mod_pos_bound core L). nia. }
  setoid_rewrite slot_subs. split.
  - intros Hs. apply Huniq; [|done]. split; [apply Z.div_pos; lia | apply Z.div_lt_upper_bound; nia].
  - intros ->. done.
Qed.

(** ** Ownership of an iteration space *)

Lemma map_dims_total dims splits order :
  length dims = length splits -> (forall i, i ∈ order -> (i < length splits)%nat) ->
  forall st, exists st', for_each (map_dim dims splits) order st = Ok st'.
Proof.
  intros Hlen. induction order as [|i order IH]; intros Hin st; cbn [for_each]; [eauto|].
  destruct (lookup_lt_is_Some_2 splits i) as [s Hs]; [apply Hin; list_mem|].
  destruct (lookup_lt_is_Some_2 dims i) as [d Hd]; [rewrite Hlen; apply Hin; list_mem|].
  assert (map_dim dims splits i st = Ok (st.1 * s, dset d (coordinate s st.1) st.2)) as ->
    by (unfold map_dim; by rewrite Hs, Hd). cbn [mbind res_bind]. apply IH. intros j Hj. apply Hin. list_mem.
Qed.

Lemma core_to_slice_total dims splits cd :
  length dims = length splits -> Forall (fun r => 1 <= r) splits ->
  (forall c, cd = Some c -> (c < length splits)%nat) ->
  exists m, core_to_slice_mapping dims splits (zprod splits) cd = Ok m.
Proof.
  intros Hlen Hpos Hcd. unfold core_to_slice_mapping. rewrite Hlen, Nat.eqb_refl. cbn [negb raise_if mbind res_bind].
  assert (0 < zprod splits) as Hp by (apply zprod_pos; eapply Forall_impl; [exact Hpos | simpl; lia]).
  rewrite Z.ltb_irrefl. destruct (Z.eqb_spec (zprod splits) 0); [lia|]. rewrite Z.mod_same by lia.
  cbn [Z.eqb negb raise_if mbind res_bind].
  assert (exists order, dim_order splits cd = Ok order) as [order Hord].
  { unfold dim_order. destruct cd as [c|]; [|eauto].
    destruct (lookup_lt_is_Some_2 splits c) as [s ->]; [auto|]. case_match; eauto. }
  rewrite Hord. cbn [mbind res_bind].
  destruct (map_dims_total dims splits order Hlen) with (st := (1, @nil (string * owner))) as [st ->]; [|cbn; eauto].
  intros i Hi. rewrite (dim_order_perm _ _ _ Hord) in Hi. apply elem_of_seq in Hi. lia.
Qed.

(** Committing a split gives every core its slices: for a non-empty iteration space
    and positive splits [make_iteration_space_ownership] succeeds, its mapping
    expands without an invalid slot, and over the physical cores every combination
    of slices has exactly one owner. *)
Theorem ownership_covers iter_space k_fast splits :
  NoDup iter_space -> iter_space <> [] -> (forall v s, dget splits v = Some s -> 1 <= s) ->
  exists w l, make_iteration_space_ownership iter_space k_fast splits = Ok w /\
    to_core_slices w (physical_core_count w) = Ok l /\
    physical_core_count w = zprod (dvalues (work_slices w)) /\
    owns_all (core_id_to_work_slice w) (work_slices w) (physical_core_count w).
Proof.
  intros Hnd Hne Hpos. unfold make_iteration_space_ownership.
  set (slices := (fun sym => (sym, dget_or 1 splits sym)) <$> iter_space).
  assert (dkeys slices = iter_space) as Hk.
  { unfold dkeys, slices. rewrite <- list_fmap_compose. apply list_fmap_id. }
  assert (length iter_space = length (dvalues slices)) as Hlen by (unfold dvalues, slices; by rewrite !length_fmap).
  assert (Forall (fun r => 1 <= r) (dvalues slices)) as Hp.
  { unfold dvalues, slices. rewrite <- list_fmap_compose. apply Forall_fmap, Forall_forall. intros v _.
    cbn. unfold dget_or. destruct (dget splits v) eqn:E; cbn; [by eapply Hpos | lia]. }
  destruct (core_to_slice_total iter_space (dvalues slices)
    (if k_fast then Some (length (dvalues slices) - 1)%nat else None) Hlen Hp) as [m Hm].
  { intros c Hc. destruct k_fast; [|done]. injection Hc as <-. rewrite <- Hlen. destruct iter_space; [done|]. simpl. lia. }
  rewrite Hm. cbn [mbind res_bind]. set (w := mkWorkDivision slices m (Some (zprod (dvalues slices)))).
  pose proof (core_to_slice_owns _ _ _ _ _ Hnd Hp Hm) as [_ Ho].
  rewrite <- Hk, <- dict_zip in Ho.
  assert (0 < zprod (dvalues slices)) as Hprod
    by (apply zprod_pos; eapply Forall_impl; [exact Hp | simpl; lia]).
  assert (exists l, to_core_slices w (zprod (dvalues slices)) = Ok l) as [l Hl].
  { unfold to_core_slices, raise_if. destruct (Z.leb_spec (zprod (dvalues slices)) 0); [lia|].
    cbn [mbind res_bind]. apply py_map_total. intros core _.
    destruct (py_map_total (core_slot w core) (core_id_to_work_slice w)) as [slots ->]; [|cbn; eauto].
    intros [d f] Hin. cbn in Hin. destruct (core_to_slice_keys _ _ _ _ _ Hm) as [Hkn Hks].
    assert (d ∈ dkeys slices) as Hd.
    { rewrite Hk. apply Hks, list_elem_of_fmap. by exists (d, f). }
    apply dget_is_Some in Hd as [s Hs]. unfold core_slot. cbn [fst snd work_slices w].
    unfold dgetitem. rewrite Hs. cbn [mbind res_bind].
    destruct (oa_range _ _ _ Ho d s core) as (v & Hv & Hr); [by apply dget_Some_elem|].
    unfold slot in Hv. rewrite (dget_NoDup _ _ _ Hkn Hin) in Hv. cbn in Hv. injection Hv as ->.
    unfold raise_if. destruct (Z.leb_spec 0 v); [|lia]. destruct (Z.ltb_spec v s); [|lia]. cbn. eauto. }
  exists w, l. split_and!; done.
Qed.

(** ** Aligned segments *)

(** Positive splits and extents: the loop returns, the factors multiply back to the
    split, and each divides its segment. *)
Lemma distribute_spec bases : forall split,
  1 <= split -> Forall (fun b => 1 <= b) bases ->
  exists fs rem, distribute split bases = Ok (fs, rem) /\ zprod fs * rem = split /\ 1 <= rem /\
    Forall2 (fun f b => 1 <= f /\ (f | b)) fs bases.
Proof.
  induction bases as [|b bases IH]; intros split Hs Hb; cbn [distribute].
  - exists [], split. split_and!; [done | unfold zprod; simpl; lia | done | constructor].
  - apply Forall_cons in Hb as [Hb0 Hb]. set (f := Z.gcd split b).
    assert (1 <= f) as Hf.
    { pose proof (Z.gcd_nonneg split b). fold f in H. enough (f <> 0) by lia. intros H0. apply Z.gcd_eq_0_l in H0. lia. }
    destruct (Z.gcd_divide_l split b) as [q Hq]. fold f in Hq.
    assert (split / f = q) as Hdiv by (rewrite Hq; apply Z.div_mul; lia).
    destruct (IH (split / f) ltac:(rewrite Hdiv; nia) Hb) as (fs & rem & H1 & H2 & H3 & H4).
    unfold raise_if. destruct (Z.eqb_spec f 0); [lia|]. cbn [mbind res_bind]. rewrite H1. cbn [mbind res_bind fst snd].
    exists (f :: fs), rem. split_and!; [done | | done | constructor; [split; [done | apply Z.gcd_divide_r] | done]].
    change (zprod (f :: fs)) with (f * zprod fs). rewrite <- Z.mul_assoc, H2, Hdiv, Hq. lia.
Qed.

(** The slots of one row, outermost segment first: its digit in a segment of extent
    [b] cut [f] ways lies in block [digit / (b / f)]. *)
Fixpoint segment_owners (fs bs : list Z) (row : Z) : list Z :=
  match fs, bs with
  | f :: fs', b :: bs' => (row / zprod bs') / (b / f) :: segment_owners fs' bs' (row mod zprod bs')
  | _, _ => []
  end.

(** The rows of one owner are the rows of one of [zprod fs] equal blocks. *)
Definition owns_blocks (fs bs : list Z) : Prop :=
  forall r1 r2, 0 <= r1 < zprod bs -> 0 <= r2 < zprod bs ->
    (segment_owners fs bs r1 = segment_owners fs bs r2 <->
     r1 / (zprod bs / zprod fs) = r2 / (zprod bs / zprod fs)).

Definition cuts (fs bs : list Z) : Prop := Forall2 (fun f b => 1 <= f /\ exists q, 1 <= q /\ b = f * q) fs bs.

Lemma cuts_prod fs bs :
  cuts fs bs -> exists q, 1 <= q /\ 1 <= zprod fs /\ zprod bs = zprod fs * q /\ zprod bs / zprod fs = q.
Proof.
  induction 1 as [|f b fs bs [Hf (q & Hq & ->)] _ (q' & Hq' & Hp & IH & _)].
  - exists 1. unfold zprod. simpl. split_and!; [lia | lia | lia | done].
  - exists (q * q'). change (zprod (f :: fs)) with (f * zprod fs). change (zprod (f * q :: bs)) with (f * q * zprod bs).
    rewrite IH. split_and!; [nia | nia | ring |].
    replace (f * q * (zprod fs * q')) with (q * q' * (f * zprod fs)) by ring. apply Z.div_mul. nia.
Qed.

(** Segments that are not cut have one owner. *)
Lemma uncut_owners fs bs :
  cuts fs bs -> Forall (fun f => f = 1) fs ->
  forall r1 r2, 0 <= r1 < zprod bs -> 0 <= r2 < zprod bs -> segment_owners fs bs r1 = segment_owners fs bs r2.
Proof.
  induction 1 as [|f b fs bs [_ (q & Hq & ->)] Hc IH]; intros H1 r1 r2 Hr1 Hr2; cbn [segment_owners]; [done|].
  apply Forall_cons in H1 as [-> H1]. destruct (cuts_prod fs bs Hc) as (q' & Hq' & Hp & Hb & _).
  change (zprod (1 * q :: bs)) with (1 * q * zprod bs) in Hr1, Hr2. assert (0 < zprod bs) by nia.
  f_equal; [|apply IH; [done | by apply Z.mod_pos_bound..]]. rewrite Z.div_1_r, !(Z.mul_1_l q).
  rewrite !Z.div_small; [done | |]; (split; [apply Z.div_pos; lia | apply Z.div_lt_upper_bound; lia]).
Qed.

(** A segment that is cut somewhere changes its owner within one block of rows. *)
Lemma cut_changes fs bs :
  cuts fs bs -> Exists (fun f => 1 < f) fs ->
  exists r, 0 <= r <= zprod bs / zprod fs /\ r < zprod bs /\ segment_owners fs bs r <> segment_owners fs bs 0.
Proof.
  induction 1 as [|f b fs bs [Hf (q & Hq & ->)] Hc IH]; intros Hex; [by apply Exists_nil in Hex|].
  destruct (cuts_prod fs bs Hc) as (q' & Hq' & Hp & Hb & Hdiv).
  destruct (cuts_prod (f :: fs) (f * q :: bs)) as (q2 & _ & _ & _ & Hdiv2); [constructor; eauto|].
  assert (zprod (f * q :: bs) / zprod (f :: fs) = q * q') as Hblock.
  { change (zprod (f :: fs)) with (f * zprod fs). change (zprod (f * q :: bs)) with (f * q * zprod bs). rewrite Hb.
    replace (f * q * (zprod fs * q')) with (q * q' * (f * zprod fs)) by ring. apply Z.div_mul. nia. }
  rewrite Hblock. clear Hdiv2 q2. change (zprod (f * q :: bs)) with (f * q * zprod bs). cbn [segment_owners].
  destruct (decide (Exists (fun f => 1 < f) fs)) as [He | He].
  - destruct (IH He) as (r & Hr1 & Hr2 & Hr3). rewrite Hdiv in Hr1. assert (1 <= f * q) by nia.
    exists r. split_and!; [lia | nia | nia |].
    rewrite (Z.mod_small r), (Z.mod_small 0) by lia. intros [=]. done.
  - apply Exists_cons in Hex as [Hlt | ?]; [|done].
    assert (zprod fs = 1) as H1.
    { clear -Hc He. unfold cuts in Hc. induction Hc as [|f b fs bs [Hf _] _ IH]; [done|].
      rewrite Exists_cons in He. change (zprod (f :: fs)) with (f * zprod fs). rewrite IH by tauto. lia. }
    assert (0 < q * zprod bs) by nia. rewrite H1 in Hb.
    exists (q * zprod bs). split_and!; [lia | nia | nia |]. rewrite Z.div_mul by nia.
    rewrite (Z.mul_comm f q), Z.div_mul by lia. rewrite Z.div_same, !Zdiv_0_l by lia.
    intros [=].
Qed.

(** A segment split whole only shifts the blocks of the inner ones. *)
Lemma whole_segment b fs bs :
  cuts fs bs -> 1 <= b -> owns_blocks (b :: fs) (b :: bs) <-> owns_blocks fs bs.
Proof.
  intros Hc Hb0. destruct (cuts_prod fs bs Hc) as (q & Hq & Hp & Hb & Hdiv). unfold owns_blocks.
  change (zprod (b :: bs)) with (b * zprod bs). change (zprod (b :: fs)) with (b * zprod fs).
  rewrite (Z.div_mul_cancel_l (zprod bs) (zprod fs) b) by lia. rewrite Hdiv. cbn [segment_owners].
  assert (0 < zprod bs) as Hpos by nia. rewrite Z.div_same by lia.
  assert (forall r, r / q = zprod fs * (r / zprod bs) + (r mod zprod bs) / q) as Hrow.
  { intros r. rewrite (Z.div_mod r (zprod bs)) at 1 by lia. rewrite Hb at 1.
    replace (zprod fs * q * (r / zprod bs) + r mod zprod bs) with (r mod zprod bs + (zprod fs * (r / zprod bs)) * q) by ring.
    rewrite Z.div_add by lia. lia. }
  assert (forall r, 0 <= (r mod zprod bs) / q < zprod fs) as Hin.
  { intros r. pose proof (Z.mod_pos_bound r (zprod bs) Hpos). split; [apply Z.div_pos; lia|].
    apply Z.div_lt_upper_bound; nia. }
  split; intros H r1 r2 Hr1 Hr2.
  - specialize (H r1 r2 ltac:(nia) ltac:(nia)). rewrite !(Z.div_small _ (zprod bs)), !(Z.mod_small _ (zprod bs)) in H by lia.
    rewrite <- H. split; [by intros -> | intros [=]; done].
  - pose proof (Z.mod_pos_bound r1 _ Hpos). pose proof (Z.mod_pos_bound r2 _ Hpos).
    specialize (H (r1 mod zprod bs) (r2 mod zprod bs) ltac:(lia) ltac:(lia)).
    rewrite (Hrow r1), (Hrow r2), !Z.div_1_r. pose proof (Hin r1). pose proof (Hin r2). split.
    + intros [= -> Hsame]. f_equal. by apply H.
    + intros He. assert (r1 / zprod bs = r2 / zprod bs) as Hq1 by nia. rewrite Hq1 in *. f_equal. apply H. lia.
Qed.

(** A segment split partly owns blocks exactly when nothing inside it is split. *)
Lemma partial_segment f b fs bs :
  cuts (f :: fs) (b :: bs) -> f < b ->
  owns_blocks (f :: fs) (b :: bs) <-> Forall (fun f => f = 1) fs.
Proof.
  intros Hcs Hlt. apply Forall2_cons in Hcs as [[Hf (q & Hq & ->)] Hc].
  destruct (cuts_prod fs bs Hc) as (q' & Hq' & Hp & Hb & Hdiv).
  assert (2 <= q) as Hq2 by nia. assert (0 < zprod bs) as Hpos by nia.
  assert (zprod (f * q :: bs) / zprod (f :: fs) = q * q') as Hblock.
  { change (zprod (f :: fs)) with (f * zprod fs). change (zprod (f * q :: bs)) with (f * q * zprod bs). rewrite Hb.
    replace (f * q * (zprod fs * q')) with (q * q' * (f * zprod fs)) by ring. apply Z.div_mul. nia. }
  unfold owns_blocks. rewrite Hblock. change (zprod (f * q :: bs)) with (f * q * zprod bs). cbn [segment_owners].
  split.
  - intros H. destruct (decide (Exists (fun f => 1 < f) fs)) as [He | He].
    + exfalso. destruct (cut_changes fs bs Hc He) as (r & Hr1 & Hr2 & Hne). rewrite Hdiv in Hr1.
      assert (1 <= f * q) by nia.
      specialize (H r 0 ltac:(nia) ltac:(nia)). rewrite (Z.mod_small r), (Z.mod_small 0) in H by lia.
      rewrite (Z.div_small r (q * q')), (Z.div_small 0 (q * q')) in H by nia.
      destruct H as [_ H]. specialize (H eq_refl). congruence.
    + apply not_Exists_Forall in He; [|apply _]. clear -Hc He. unfold cuts in Hc.
      induction Hc as [|f b fs bs [Hf _] _ IH]; [constructor|]. apply Forall_cons in He as [Hn He]. cbn in Hn. constructor; [lia | auto].
  - intros H1. assert (zprod fs = 1) as H1p.
    { clear -H1. induction H1 as [|f fs -> _ IH]; [done|]. change (zprod (1 :: fs)) with (1 * zprod fs). lia. }
    intros r1 r2 Hr1 Hr2. assert (q' = zprod bs) as -> by lia.
    rewrite (Z.mul_comm f q), Z.div_mul by lia. rewrite (Z.mul_comm q), <- !Z.div_div by lia. split.
    + intros [=]. done.
    + intros ->. f_equal. apply uncut_owners; [done | done | by apply Z.mod_pos_bound..].
Qed.

Lemma inside_blocks fs bs :
  cuts fs bs -> keeps_blocks true (zip fs bs) = true <-> Forall (fun f => f = 1) fs.
Proof.
  induction 1 as [|f b fs bs [Hf _] _ IH]; cbn [zip zip_with keeps_blocks]; [split; [constructor | done]|].
  rewrite Forall_cons. cbn [andb orb]. destruct (Z.ltb_spec 1 f); [split; [done | lia]|].
  change (zip_with pair fs bs) with (zip fs bs). rewrite IH. split; [intros ?; split; [lia | done] | tauto].
Qed.

Lemma keeps_blocks_spec fs bs : cuts fs bs -> keeps_blocks false (zip fs bs) = true <-> owns_blocks fs bs.
Proof.
  induction 1 as [|f b fs bs Hfb Hc IH].
  { split; [|done]. intros _ r1 r2 Hr1 Hr2. unfold zprod in Hr1, Hr2. simpl in Hr1, Hr2. by replace r2 with r1 by lia. }
  cbn [zip zip_with keeps_blocks andb orb]. change (zip_with pair fs bs) with (zip fs bs).
  assert (cuts (f :: fs) (b :: bs)) as Hcs by (by constructor).
  destruct Hfb as [Hf (q & Hq & Hb)]. destruct (Z.ltb_spec f b).
  - by rewrite inside_blocks, partial_segment.
  - assert (f = b) as -> by nia. rewrite IH, whole_segment by (done || lia). done.
Qed.

(** [aligned_split_keeps_blocks] decides what its docstring says.  A positive split is
    distributed over the aligned segments without loss (the factors and the
    remainder multiply back to it, every factor divides its segment), and the
    test answers yes exactly when nothing remains and the rows of each owner are
    one of [split] equal contiguous blocks of the loop. *)
Theorem aligned_split_exact split bases :
  1 <= split -> Forall (fun b => 1 <= b) bases ->
  exists fs rem keeps, distribute_aligned_split split bases = Ok (fs, rem) /\
    zprod fs * rem = split /\ Forall2 (fun f b => 1 <= f /\ (f | b)) fs bases /\
    aligned_split_keeps_blocks split bases = Ok keeps /\
    (keeps = true <->
     rem = 1 /\ forall r1 r2, 0 <= r1 < zprod bases -> 0 <= r2 < zprod bases ->
       (segment_owners (reverse fs) (reverse bases) r1 = segment_owners (reverse fs) (reverse bases) r2 <->
        r1 / (zprod bases / split) = r2 / (zprod bases / split))).
Proof.
  intros Hs Hb. assert (Forall (fun b => 1 <= b) (reverse bases)) as Hb' by (by apply Forall_reverse).
  destruct (distribute_spec (reverse bases) split Hs Hb') as (fs & rem & Hd & Hp & Hrem & HF).
  unfold aligned_split_keeps_blocks, distribute_aligned_split. rewrite Hd. cbn [mbind res_bind fst snd].
  rewrite reverse_involutive.
  assert (zprod (reverse fs) = zprod fs) as Hz by (apply zprod_proper, reverse_Permutation).
  assert (zprod (reverse bases) = zprod bases) as Hzb by (apply zprod_proper, reverse_Permutation).
  assert (cuts fs (reverse bases)) as Hc.
  { clear -HF Hb'. induction HF as [|f b fs bs [Hf [q Hq]] _ IH]; [constructor|].
    apply Forall_cons in Hb' as [Hb Hb']. constructor; [|by apply IH]. split; [done|]. exists q. split; [nia | lia]. }
  do 3 eexists. split_and!; [done | by rewrite Hz | | done |].
  { apply Forall2_reverse in HF. by rewrite reverse_involutive in HF. }
  rewrite reverse_involutive. destruct (Z.eqb_spec rem 1) as [-> | He]; cbn [negb].
  - rewrite keeps_blocks_spec by done. unfold owns_blocks. rewrite Hzb. replace (zprod fs) with split by lia. tauto.
  - split; [done | by intros [? _]].
Qed.

(** ** Witnesses *)

Lemma core_mapping_bijective_witness :
  exists core, 0 <= core < 8 /\
    forall core', 0 <= core' < 8 ->
      ((forall d s, (d, s) ∈ zip ["h"; "q"]%string [2; 4] ->
          slot (dupdate (subs_core (fun c => c / 4) [("h"%string, coordinate 2 1)])
                  (subs_core (fun c => c mod 4) [("q"%string, coordinate 4 1)])) d core' = Some 1)
       <-> core' = core).
Proof.
  refine (proj1 (proj2 (core_mapping_bijective ["h"; "q"]%string [2; 4] 8 None [("h"%string, 2)]
    _ _ _ _ _)) (fun _ => 1) _).
  - apply (bool_decide_unpack _). vm_compute. exact I.
  - apply (bool_decide_unpack _). vm_compute. exact I.
  - apply (bool_decide_unpack _). vm_compute. exact I.
  - reflexivity.
  - intros d s [[= -> ->] | [[= -> ->] | H%elem_of_nil]%elem_of_cons]%elem_of_cons; [lia | lia | done].
Defined.

Lemma partition_groups_contiguous_witness : 32 = zprod [2; 4] * (32 / zprod [2; 4]).
Proof.
  refine (proj1 (partition_groups_contiguous ["h"; "q"]%string [2; 4] 32
    (subs_core (fun c => c / 4) [("h"%string, coordinate 2 1); ("q"%string, coordinate 4 2)]) _ _ _)).
  - apply (bool_decide_unpack _). vm_compute. exact I.
  - apply (bool_decide_unpack _). vm_compute. exact I.
  - reflexivity.
Defined.

Lemma ownership_covers_witness :
  exists w l, make_iteration_space_ownership ["d0"; "r0"]%string true [("r0"%string, 4)] = Ok w /\
    to_core_slices w (physical_core_count w) = Ok l.
Proof.
  destruct (ownership_covers ["d0"; "r0"]%string true [("r0"%string, 4)]) as (w & l & H1 & H2 & _).
  - apply (bool_decide_unpack _). vm_compute. exact I.
  - discriminate.
  - intros v s Hv%dget_Some_elem. apply elem_of_cons in Hv as [[= -> ->] | H%elem_of_nil]; [lia | done].
  - exists w, l. split; [exact H1 | exact H2].
Defined.

Lemma aligned_split_exact_witness :
  exists fs rem keeps, distribute_aligned_split 2 [2; 3] = Ok (fs, rem) /\ zprod fs * rem = 2 /\
    aligned_split_keeps_blocks 2 [2; 3] = Ok keeps.
Proof.
  destruct (aligned_split_exact 2 [2; 3]) as (fs & rem & keeps & H1 & H2 & _ & H3 & _); [lia | |].
  - apply (bool_decide_unpack _). vm_compute. exact I.
  - exists fs, rem, keeps. split; [exact H1 | split; [exact H2 | exact H3]].
Defined.
