(* ===== verification/SubrangeTransfer.v ===== *)
(** * Certified transfers of a part of a tensor ([core_mapping.py])

    A child tensor is a rectangle of whole sticks of its parent.  The parent is cut into one
    tile per core and the child into tiles that may be replicated.
    [certify_dense_subrange_transfer] lists, for every destination core, the rectangles it
    receives from source cores, with their places in both local tiles;
    [local_subrange_byte_offset] asks whether every core just reads its own tile at one
    offset.

    Shapes are lists with one entry per physical axis; owner maps are finite maps from
    cores to slots by axis.  Python's type tests on integers are the types here. *)

From S2P Require Import Prelude.

Definition _MAX_SHUFFLE_FANIN : nat := 8.

(** ** Data *)

Record SubrangeTransferFragment := mkFragment {
  source_core : nat;
  destination_core : nat;
  parent_origin : list Z;
  fragment_extent : list Z;
  source_offset_bytes : Z;
  destination_offset_bytes : Z;
  source_strides_bytes : list Z;
  destination_strides_bytes : list Z
}.

Record DenseSubrangeTransfer := mkTransfer {
  parent_shape : list Z;
  child_origin : list Z;
  child_extent : list Z;
  element_bytes : Z;
  source_splits : list Z;
  destination_splits : list Z;
  source_owners : list (list Z);
  destination_owners : list (list Z);
  source_local_shape : list Z;
  destination_local_shape : list Z;
  source_reservation_bytes : Z;
  destination_reservation_bytes : Z;
  fragments : list SubrangeTransferFragment
}.

(** [destination_identity] *)
Definition destination_identity (c : DenseSubrangeTransfer) : list Z * list Z * list Z * Z * list Z * list (list Z) :=
  (parent_shape c, child_origin c, child_extent c, element_bytes c, destination_splits c, destination_owners c).

(** ** Partitions *)

(** [range(n)] *)
Definition ints (n : nat) : list Z := Z.of_nat <$> seq 0 n.

Definition axis_ok (rank : nat) (axis : Z) : bool := (0 <=? axis) && (axis <? Z.of_nat rank).

(** [tuple(m.get(axis, d) for axis in range(rank))] *)
Definition per_axis (d : Z) (m : gmap Z Z) (rank : nat) : list Z := (fun axis => default d (m !! axis)) <$> ints rank.

(** The slots of one core. *)
Definition owner_row (full : list Z) (owners : gmap Z (gmap Z Z)) (core : Z) : res (list Z) :=
  match owners !! core with
  | None => Raise KeyError
  | Some row =>
      let rank := length full in
      raise_if (negb (forallb (axis_ok rank) (map_to_list row).*1)) ValueError;;
      let slots := per_axis 0 row rank in
      raise_if (existsb (fun x => x)
        (zip_with (fun axis ss => (1 <? ss.2) && negb (bool_decide (is_Some (row !! axis))) || negb ((0 <=? ss.1) && (ss.1 <? ss.2)))
           (ints rank) (zip slots full))) ValueError;;
      Ok slots
  end.

(** How many cores own a tile. *)
Definition owner_count (rows : list (list Z)) (slots : list Z) : nat := length (filter (fun r => r = slots) rows).

Definition grid (full : list Z) : list (list Z) := cartesian ((fun n => ints (Z.to_nat n)) <$> full).

Definition _dense_subrange_partition (shape : list Z) (splits : gmap Z Z) (owners : gmap Z (gmap Z Z)) (allow_replicas : bool)
    : res (list Z * list (list Z) * list Z) :=
  let rank := length shape in
  raise_if (negb (forallb (axis_ok rank) (map_to_list splits).*1)) ValueError;;
  let full := per_axis 1 splits rank in
  raise_if (existsb (fun x => x) (zip_with (fun size split => (split <=? 0) || negb (size mod split =? 0)) shape full)
            || negb (bool_decide (last full = Some 1))) ValueError;;
  let cores := size owners in
  raise_if (bool_decide (cores = 0%nat)) ValueError;;
  raise_if (negb (forallb (fun core => bool_decide (is_Some (owners !! core))) (ints cores))) ValueError;;
  let partitions := zprod full in
  raise_if (negb (Z.of_nat cores mod partitions =? 0) || (negb allow_replicas && negb (Z.of_nat cores =? partitions))) ValueError;;
  rows ← py_map (owner_row full owners) (ints cores);
  raise_if (negb (forallb (fun r => bool_decide (r ∈ grid full)) rows && forallb (fun e => bool_decide (e ∈ rows)) (grid full))) ValueError;;
  let counts := owner_count rows <$> rows in
  raise_if (negb (bool_decide (length (remove_dups counts) = 1%nat))
            || (negb allow_replicas && existsb (fun c => negb (bool_decide (c = 1%nat))) counts)) ValueError;;
  Ok (full, rows, zip_with Z.div shape full).

(** ** The transfer *)

(** [math.prod(shape[axis + 1:]) * element_bytes], for every axis *)
Fixpoint dense_strides (element : Z) (shape : list Z) : list Z :=
  match shape with
  | [] => []
  | _ :: rest => zprod rest * element :: dense_strides element rest
  end.

Definition _intervals_overlap (a_start a_end b_start b_end : Z) : bool := (a_start <? b_end) && (b_start <? a_end).

Definition dot (l k : list Z) : Z := zsum (zip_with Z.mul l k).

(** [offset + sum((width - 1) * stride) + element_bytes] *)
Definition last_byte (element offset : Z) (widths strides : list Z) : Z := offset + dot (Z.pred <$> widths) strides + element.

Definition in_reservation (element offset : Z) (widths strides : list Z) (span : Z) : bool :=
  negb ((offset <? 0) || negb (offset mod 128 =? 0) || (span <? last_byte element offset widths strides)).

Section fragments.
Context (element : Z) (src_shape dst_shape src_strides dst_strides : list Z) (source_span destination_span : Z).

(** The intersection of the tile at [src_start] with the tile at [dst_start]. *)
Definition fragment_of (d : nat) (dst_start : list Z) (s : nat) (src_slots : list Z) : res (option SubrangeTransferFragment) :=
  let src_start := zip_with Z.mul src_slots src_shape in
  let src_end := zip_with Z.add src_start src_shape in
  let dst_end := zip_with Z.add dst_start dst_shape in
  if negb (forallb (fun b => _intervals_overlap b.1.1 b.1.2 b.2.1 b.2.2) (zip (zip src_start src_end) (zip dst_start dst_end)))
  then Ok None
  else
    let start := zip_with Z.max src_start dst_start in
    let widths := zip_with Z.sub (zip_with Z.min src_end dst_end) start in
    let src_offset := dot (zip_with Z.sub start src_start) src_strides in
    let dst_offset := dot (zip_with Z.sub start dst_start) dst_strides in
    raise_if (negb (in_reservation element src_offset widths src_strides source_span)) ValueError;;
    raise_if (negb (in_reservation element dst_offset widths dst_strides destination_span)) ValueError;;
    Ok (Some (mkFragment s d start widths src_offset dst_offset src_strides dst_strides)).

Definition incoming (origin : list Z) (src_owners : list (list Z)) (d : nat) (dst_slots : list Z) : res (list SubrangeTransferFragment) :=
  let dst_start := zip_with Z.add origin (zip_with Z.mul dst_slots dst_shape) in
  fs ← py_map (fun sr : nat * list Z => fragment_of d dst_start sr.1 sr.2) (imap pair src_owners);
  let fs := omap id fs in
  raise_if (bool_decide (fs = []) || (_MAX_SHUFFLE_FANIN <? length fs)%nat) ValueError;;
  raise_if (negb (zsum ((fun f => zprod (fragment_extent f)) <$> fs) =? zprod dst_shape)) ValueError;;
  Ok fs.
End fragments.

Definition certify_dense_subrange_transfer (parent origin extent : list Z) (src_split dst_split : gmap Z Z)
    (source_map destination_map : gmap Z (gmap Z Z)) (element : Z) : res DenseSubrangeTransfer :=
  let rank := length parent in
  raise_if ((rank <? 2)%nat || negb (bool_decide (length origin = rank)) || negb (bool_decide (length extent = rank))
            || negb (bool_decide (element ∈ [1; 2; 4]))
            || existsb (fun x => x) (zip_with (fun size sw => (size <=? 0) || (sw.1 <? 0) || (sw.2 <=? 0) || (size <? sw.1 + sw.2))
                                       parent (zip origin extent))) ValueError;;
  raise_if (negb (bool_decide ((fun l => l * element) <$> last parent = Some 128)) || negb (bool_decide (last origin = Some 0))
            || negb (bool_decide (last extent = last parent))) ValueError;;
  src ← _dense_subrange_partition parent src_split source_map false;
  dst ← _dense_subrange_partition extent dst_split destination_map true;
  let '(src_splits, src_owners, src_shape) := src in
  let '(dst_splits, dst_owners, dst_shape) := dst in
  let src_strides := dense_strides element src_shape in
  let dst_strides := dense_strides element dst_shape in
  let source_span := zprod src_shape * element in
  let destination_span := zprod dst_shape * element in
  fs ← py_map (fun dr : nat * list Z =>
         incoming element src_shape dst_shape src_strides dst_strides source_span destination_span origin src_owners dr.1 dr.2)
         (imap pair dst_owners);
  Ok (mkTransfer parent origin extent element src_splits dst_splits src_owners dst_owners src_shape dst_shape source_span destination_span (mjoin fs)).

(** ** Local reads *)

Definition compact_read (c : DenseSubrangeTransfer) (core : nat) (f : SubrangeTransferFragment) : bool :=
  bool_decide (source_core f = core) && bool_decide (destination_core f = core) && (destination_offset_bytes f =? 0)
  && bool_decide (fragment_extent f = destination_local_shape c)
  && forallb (fun x => x) (zip_with (fun size ss => negb ((1 <? size) && negb (ss.1 =? ss.2)))
       (fragment_extent f) (zip (source_strides_bytes f) (destination_strides_bytes f))).

Definition local_subrange_byte_offset (c : DenseSubrangeTransfer) : res Z :=
  let count := length (source_owners c) in
  raise_if (negb (bool_decide (length (destination_owners c) = count)) || negb (bool_decide (length (fragments c) = count))) ValueError;;
  raise_if (negb (forallb (fun cf => compact_read c cf.1 cf.2) (imap pair (fragments c)))) ValueError;;
  match remove_dups (source_offset_bytes <$> fragments c) with
  | [off] => Ok off
  | _ => Raise ValueError
  end.

(** ** Vectors *)

(** A point of the box at the origin. *)
Definition in_box (q shape : list Z) : Prop := Forall2 (fun x n => 0 <= x < n) q shape.

#[export] Instance in_box_dec q shape : Decision (in_box q shape).
Proof. unfold in_box. apply _. Defined.

#[local] Notation "l @ i" := (l !!! i : Z) (at level 30).

Lemma in_box_spec q shape : in_box q shape <-> length q = length shape /\ forall i, (i < length shape)%nat -> 0 <= q @ i < shape @ i.
Proof.
  unfold in_box. split.
  - intros H. split; [by eapply Forall2_length|]. intros i Hi. destruct (lookup_lt_is_Some_2 shape i Hi) as [n Hn].
    destruct (Forall2_lookup_r _ _ _ _ _ H Hn) as (x & Hx & Hb). by rewrite (list_lookup_total_correct _ _ _ Hx), (list_lookup_total_correct _ _ _ Hn).
  - intros [Hl Hb]. apply Forall2_same_length_lookup_2; [done|]. intros i x n Hx Hn. specialize (Hb i (lookup_lt_Some _ _ _ Hn)).
    by rewrite (list_lookup_total_correct _ _ _ Hx), (list_lookup_total_correct _ _ _ Hn) in Hb.
Qed.

Lemma zip_at (f : Z -> Z -> Z) l k i : (i < length l)%nat -> (i < length k)%nat -> zip_with f l k @ i = f (l @ i) (k @ i).
Proof.
  intros Hl Hk. apply lookup_lt_is_Some in Hl as [x Hx]. apply lookup_lt_is_Some in Hk as [y Hy].
  rewrite (list_lookup_total_correct _ _ _ Hx), (list_lookup_total_correct _ _ _ Hy). apply list_lookup_total_correct.
  apply lookup_zip_with_Some. by exists x, y.
Qed.

Lemma vec_ext (l k : list Z) n : length l = n -> length k = n -> (forall i, (i < n)%nat -> l @ i = k @ i) -> l = k.
Proof.
  intros Hl Hk H. apply list_eq_same_length with (n := n); [done | done|]. intros i x y Hi Hx Hy. specialize (H i Hi).
  by rewrite (list_lookup_total_correct _ _ _ Hx), (list_lookup_total_correct _ _ _ Hy) in H.
Qed.

Lemma dot_zip_add l k s : length l = length k -> dot (zip_with Z.add l k) s = dot l s + dot k s.
Proof.
  unfold dot, zsum. revert k s. induction l as [|x l IH]; intros [|y k] s Hl; try done. destruct s as [|z s]; [done|]. cbn.
  specialize (IH k s ltac:(by injection Hl)). lia.
Qed.

Lemma length_strides e shape : length (dense_strides e shape) = length shape.
Proof. induction shape; cbn; congruence. Qed.

Lemma in_box_pos q shape : in_box q shape -> 0 < zprod shape.
Proof. induction 1 as [|x n q shape Hx Hq IH]; [done|]. change (zprod (n :: shape)) with (n * zprod shape). apply Z.mul_pos_pos; lia. Qed.

(** Row-major addresses stay inside the tile. *)
Lemma dot_in_tile e q shape : 0 < e -> in_box q shape -> 0 <= dot q (dense_strides e shape) /\ dot q (dense_strides e shape) + e <= zprod shape * e.
Proof.
  intros He. induction 1 as [|x n q shape Hx Hq IH]; [cbn; lia|]. apply in_box_pos in Hq.
  change (dot (x :: q) (dense_strides e (n :: shape))) with (x * (zprod shape * e) + dot q (dense_strides e shape)).
  change (zprod (n :: shape)) with (n * zprod shape). nia.
Qed.

(** ** Partitions *)

(** A partition: every tile has an owner. *)
Record partitions (shape full : list Z) (rows : list (list Z)) (tile : list Z) : Prop := {
  pt_length : length full = length shape /\ length tile = length shape;
  pt_exact : forall i, (i < length shape)%nat -> 0 < full @ i /\ tile @ i * full @ i = shape @ i;
  pt_rows : forall r, r ∈ rows <-> in_box r full
}.

Lemma elem_of_ints n x : x ∈ ints n <-> 0 <= x < Z.of_nat n.
Proof.
  unfold ints. rewrite list_elem_of_fmap. setoid_rewrite elem_of_seq. split; [intros (k & -> & ?); lia|]. intros Hx. exists (Z.to_nat x). lia.
Qed.

Lemma elem_of_grid full r : r ∈ grid full <-> in_box r full.
Proof.
  unfold grid, in_box. rewrite elem_of_cartesian, Forall2_fmap_r.
  split; intros H; (eapply Forall2_impl; [exact H|]); cbn; intros x n; rewrite elem_of_ints; lia.
Qed.

Lemma counted_NoDup (rows : list (list Z)) : (forall r, r ∈ rows -> owner_count rows r = 1%nat) -> NoDup rows.
Proof.
  intros H. apply NoDup_alt. intros i j r Hi Hj. destruct (decide (i = j)) as [|Hne]; [done|]. exfalso.
  specialize (H r (list_elem_of_lookup_2 _ _ _ Hi)). unfold owner_count in H.
  assert (forall l (i j : nat), (i < j)%nat -> l !! i = Some r -> l !! j = Some r -> (2 <= length (filter (fun x : list Z => x = r) l))%nat) as Hc.
  { clear. induction l as [|x l IH]; intros i j Hij Hi Hj; [done|]. destruct j as [|j]; [lia|]. cbn in Hj. rewrite filter_cons. destruct i as [|i].
    - injection Hi as ->. rewrite decide_True by done. cbn. apply list_elem_of_lookup_2 in Hj.
      assert (r ∈ filter (fun x => x = r) l) as Hin by (by apply list_elem_of_filter). destruct (filter _ l); [by apply elem_of_nil in Hin | cbn; lia].
    - cbn in Hi. specialize (IH i j ltac:(lia) Hi Hj). case_decide; cbn; lia. }
  destruct (decide (i < j)%nat); [specialize (Hc rows i j ltac:(lia) Hi Hj) | specialize (Hc rows j i ltac:(lia) Hj Hi)]; lia.
Qed.

Lemma per_axis_length d m rank : length (per_axis d m rank) = rank.
Proof. unfold per_axis, ints. by rewrite !length_fmap, length_seq. Qed.

Lemma zip_existsb (f : Z -> Z -> bool) l k : existsb (fun x => x) (zip_with f l k) = false -> forall i, (i < length l)%nat -> (i < length k)%nat -> f (l @ i) (k @ i) = false.
Proof.
  revert k. induction l as [|x l IH]; intros [|y k] H i Hl Hk; cbn in *; try lia. apply orb_false_iff in H as [H1 H2].
  destruct i as [|i]; [done|]. exact (IH k H2 i ltac:(lia) ltac:(lia)).
Qed.

Lemma partition_Ok shape splits owners rep full rows tile :
  _dense_subrange_partition shape splits owners rep = Ok (full, rows, tile) ->
  partitions shape full rows tile /\ (rep = false -> NoDup rows).
Proof.
  unfold _dense_subrange_partition. intros H. apply bind_Ok in H as (_ & _ & H). apply bind_Ok in H as (? & Hs%raise_if_Ok & H).
  do 3 (apply bind_Ok in H as (? & _ & H)). apply bind_Ok in H as (rows' & _ & H). apply bind_Ok in H as (? & Hg%raise_if_Ok & H).
  apply bind_Ok in H as (? & Hc%raise_if_Ok & [= <- <- <-]). apply orb_false_iff in Hs as [Hs _]. apply negb_false_iff, andb_true_iff in Hg as [Hg1 Hg2].
  assert (length (per_axis 1 splits (length shape)) = length shape) as Hlen by apply per_axis_length. split; [split|].
  - rewrite length_zip_with, Hlen. split; [done | lia].
  - intros i Hi. pose proof (zip_existsb _ _ _ Hs i Hi ltac:(lia)) as Hb. apply orb_false_iff in Hb as [H1 H2]. apply Z.leb_gt in H1.
    apply negb_false_iff, Z.eqb_eq in H2. split; [done|]. rewrite zip_at by lia. symmetry. rewrite Z.mul_comm. by apply Z.div_exact; [lia|].
  - intros r. rewrite <- elem_of_grid. rewrite forallb_forall in Hg1, Hg2. split; intros Hr.
    + specialize (Hg1 r ltac:(by apply list_elem_of_In)). by apply bool_decide_eq_true in Hg1.
    + specialize (Hg2 r ltac:(by apply list_elem_of_In)). by apply bool_decide_eq_true in Hg2.
  - intros ->. apply counted_NoDup. intros r Hr. apply orb_false_iff in Hc as [_ Hc]. cbn [negb andb] in Hc.
    apply not_true_iff_false in Hc. destruct (decide (owner_count rows' r = 1%nat)) as [|Hne]; [done|]. destruct Hc. apply existsb_exists.
    exists (owner_count rows' r). split; [apply list_elem_of_In, list_elem_of_fmap_2; done|]. by rewrite bool_decide_eq_false_2.
Qed.

(** ** Fragments *)

(** The fragment contains a point of the parent. *)
Definition covers (f : SubrangeTransferFragment) (p : list Z) : Prop := in_box (zip_with Z.sub p (parent_origin f)) (fragment_extent f).

(** The point relative to a corner lies in a tile. *)
Definition in_tile (corner tile p : list Z) : Prop := in_box (zip_with Z.sub p corner) tile.

Ltac vec_len := rewrite ?length_zip_with, ?length_strides; lia.
Ltac vec_at i := rewrite ?(zip_at _ _ _ i) in * by vec_len.

Lemma in_tile_spec n corner tile p : length corner = n -> length tile = n -> length p = n ->
  in_tile corner tile p <-> forall i, (i < n)%nat -> corner @ i <= p @ i < corner @ i + tile @ i.
Proof.
  intros Hc Ht Hp. unfold in_tile. rewrite in_box_spec. split.
  - intros [_ H] i Hi. specialize (H i ltac:(lia)). vec_at i. lia.
  - intros H. split; [vec_len|]. intros i Hi. specialize (H i ltac:(lia)). vec_at i. lia.
Qed.

Section fragment.
Context (element : Z) (src_shape dst_shape : list Z) (source_span destination_span : Z) (n : nat).
Context (Hsrc : length src_shape = n) (Hdst : length dst_shape = n).

#[local] Notation src_strides := (dense_strides element src_shape).
#[local] Notation dst_strides := (dense_strides element dst_shape).
#[local] Notation fragment := (fragment_of element src_shape dst_shape src_strides dst_strides source_span destination_span).

Context (d s : nat) (dst_start src_slots : list Z) (Hd : length dst_start = n) (Hs : length src_slots = n).

#[local] Notation src_start := (zip_with Z.mul src_slots src_shape).

(** What a fragment is for. *)
Record serves (f : SubrangeTransferFragment) : Prop := {
  sf_cores : source_core f = s /\ destination_core f = d;
  sf_points : forall p, length p = n -> covers f p <-> in_tile src_start src_shape p /\ in_tile dst_start dst_shape p;
  sf_source : forall p, length p = n -> source_offset_bytes f + dot (zip_with Z.sub p (parent_origin f)) src_strides = dot (zip_with Z.sub p src_start) src_strides;
  sf_destination : forall p, length p = n ->
    destination_offset_bytes f + dot (zip_with Z.sub p (parent_origin f)) dst_strides = dot (zip_with Z.sub p dst_start) dst_strides;
  sf_strides : source_strides_bytes f = src_strides /\ destination_strides_bytes f = dst_strides
}.

Lemma overlap_at l k : forallb (fun b : Z * Z * (Z * Z) => _intervals_overlap b.1.1 b.1.2 b.2.1 b.2.2)
    (zip (zip l (zip_with Z.add l src_shape)) (zip k (zip_with Z.add k dst_shape))) = true <->
  (forall i a b c e, l !! i = Some a -> k !! i = Some b -> src_shape !! i = Some c -> dst_shape !! i = Some e -> a < b + e /\ b < a + c).
Proof.
  rewrite forallb_forall. setoid_rewrite <- list_elem_of_In. split.
  - intros H i a b c e Ha Hb Hc He. specialize (H (a, a + c, (b, b + e))). unfold _intervals_overlap in H. cbn in H.
    assert ((a <? b + e) && (b <? a + c) = true) as Hx; [|lia]. apply H. apply (list_elem_of_lookup_2 _ i). apply lookup_zip_with_Some.
    exists (a, a + c), (b, b + e). split_and!; [done | |]; apply lookup_zip_with_Some; eexists _, _; (split_and!; [done | done|]); apply lookup_zip_with_Some; eauto.
  - intros H [[a a'] [b b']] [i Hi]%list_elem_of_lookup. apply lookup_zip_with_Some in Hi as (x & y & [= <- <-] & Hx & Hy).
    apply lookup_zip_with_Some in Hx as (u & v & [= -> ->] & Hu & Hv). apply lookup_zip_with_Some in Hy as (w & z & [= -> ->] & Hw & Hz).
    apply lookup_zip_with_Some in Hv as (u' & c & -> & Hu' & Hc). apply lookup_zip_with_Some in Hz as (w' & e & -> & Hw' & He).
    unfold _intervals_overlap. cbn. destruct (H i u w c e Hu Hw Hc He). rewrite Hu in Hu'. rewrite Hw in Hw'. injection Hu' as <-. injection Hw' as <-. lia.
Qed.

Lemma fragment_Ok r : fragment d dst_start s src_slots = Ok r ->
  (forall f, r = Some f -> serves f) /\
  (forall p, length p = n -> in_tile src_start src_shape p -> in_tile dst_start dst_shape p -> is_Some r).
Proof.
  unfold fragment_of. destruct (forallb _ _) eqn:E; cbn [negb].
  - intros H. apply bind_Ok in H as (_ & _ & H). apply bind_Ok in H as (_ & _ & [= <-]). split; [|by eexists]. intros f [= <-].
    set (start := zip_with Z.max src_start dst_start). assert (length start = n) as Hst by (unfold start; vec_len).
    split; cbn [source_core destination_core parent_origin fragment_extent source_offset_bytes destination_offset_bytes source_strides_bytes destination_strides_bytes].
    + done.
    + intros p Hp. change (covers _ p) with (in_tile start (zip_with Z.sub (zip_with Z.min (zip_with Z.add src_start src_shape) (zip_with Z.add dst_start dst_shape)) start) p).
      rewrite !(in_tile_spec n) by vec_len. unfold start. split.
      * intros H. split; intros i Hi; specialize (H i Hi); vec_at i; lia.
      * intros [H1 H2] i Hi. specialize (H1 i Hi). specialize (H2 i Hi). vec_at i. lia.
    + intros p Hp. rewrite <- dot_zip_add by vec_len. f_equal. apply (vec_ext _ _ n); [vec_len | vec_len|]. intros i Hi. vec_at i. lia.
    + intros p Hp. rewrite <- dot_zip_add by vec_len. f_equal. apply (vec_ext _ _ n); [vec_len | vec_len|]. intros i Hi. vec_at i. lia.
    + done.
  - intros [= <-]. split; [done|]. intros p Hp H1 H2. apply not_true_iff_false in E. destruct E. apply overlap_at. intros i a b c e Ha Hb Hc He.
    assert ((i < n)%nat) as Hi by (rewrite <- Hsrc; by eapply lookup_lt_Some). rewrite (in_tile_spec n) in H1, H2 by vec_len. specialize (H1 i Hi). specialize (H2 i Hi).
    rewrite (list_lookup_total_correct _ _ _ Ha), (list_lookup_total_correct _ _ _ Hc) in H1. rewrite (list_lookup_total_correct _ _ _ Hb), (list_lookup_total_correct _ _ _ He) in H2. lia.
Qed.
End fragment.

(** ** Certificates *)

(** What the certificate was made from. *)
Record certified (parent origin extent : list Z) (element : Z) (c : DenseSubrangeTransfer) : Prop := {
  ce_fields : parent_shape c = parent /\ child_origin c = origin /\ child_extent c = extent /\ element_bytes c = element;
  ce_lengths : length origin = length parent /\ length extent = length parent;
  ce_element : 0 < element;
  ce_inside : forall i, (i < length parent)%nat -> 0 <= origin @ i /\ 0 < extent @ i /\ origin @ i + extent @ i <= parent @ i;
  ce_source : partitions parent (source_splits c) (source_owners c) (source_local_shape c) /\ NoDup (source_owners c);
  ce_destination : partitions extent (destination_splits c) (destination_owners c) (destination_local_shape c);
  ce_fragments : exists fs, fragments c = mjoin fs /\
    Forall2 (fun dr l => incoming element (source_local_shape c) (destination_local_shape c)
        (dense_strides element (source_local_shape c)) (dense_strides element (destination_local_shape c))
        (source_reservation_bytes c) (destination_reservation_bytes c) origin (source_owners c) dr.1 dr.2 = Ok l)
      (imap pair (destination_owners c)) fs;
  ce_spans : source_reservation_bytes c = zprod (source_local_shape c) * element /\
    destination_reservation_bytes c = zprod (destination_local_shape c) * element
}.

Lemma certify_Ok parent origin extent ss ds sm dm element c :
  certify_dense_subrange_transfer parent origin extent ss ds sm dm element = Ok c -> certified parent origin extent element c.
Proof.
  unfold certify_dense_subrange_transfer. intros H. apply bind_Ok in H as (? & H1%raise_if_Ok & H). apply bind_Ok in H as (? & _ & H).
  apply bind_Ok in H as ([[sf so] st] & Hs & H). apply bind_Ok in H as ([[df dow] dt] & Hd & H). apply bind_Ok in H as (fs & Hf & [= <-]).
  rewrite !orb_false_iff in H1. destruct H1 as [[[[_ L1] L2] He] Hb]. apply negb_false_iff, bool_decide_eq_true in L1, L2, He.
  apply partition_Ok in Hs as [Hs Hnd]. apply partition_Ok in Hd as [Hd _]. split; cbn.
  - done.
  - done.
  - rewrite !elem_of_cons, elem_of_nil in He. lia.
  - intros i Hi. destruct (lookup_lt_is_Some_2 parent i Hi) as [a Ha]. destruct (lookup_lt_is_Some_2 origin i ltac:(lia)) as [b Hb'].
    destruct (lookup_lt_is_Some_2 extent i ltac:(lia)) as [e He'].
    rewrite (list_lookup_total_correct _ _ _ Ha), (list_lookup_total_correct _ _ _ Hb'), (list_lookup_total_correct _ _ _ He').
    apply not_true_iff_false in Hb. destruct (decide (0 <= b /\ 0 < e /\ b + e <= a)) as [|Hne]; [done|]. destruct Hb. apply existsb_exists.
    eexists. split; [|reflexivity]. apply list_elem_of_In, (list_elem_of_lookup_2 _ i). apply lookup_zip_with_Some. exists a, (b, e).
    split_and!; [cbn; lia | done|]. apply lookup_zip_with_Some. by exists b, e.
  - by split; [|apply Hnd].
  - done.
  - exists fs. split; [done|]. by apply py_map_Ok in Hf.
  - done.
Qed.

Section certificate.
Context (parent origin extent : list Z) (element : Z) (c : DenseSubrangeTransfer) (Hc : certified parent origin extent element c).

#[local] Notation n := (length parent).
#[local] Notation src := (source_local_shape c).
#[local] Notation dst := (destination_local_shape c).

(** The corner of a source tile and of a destination tile, in the parent. *)
Definition source_corner (row : list Z) : list Z := zip_with Z.mul row src.
Definition destination_corner (row : list Z) : list Z := zip_with Z.add origin (zip_with Z.mul row dst).

Lemma source_row s row : source_owners c !! s = Some row -> length row = n /\ length src = n.
Proof.
  intros Hs. destruct (ce_source _ _ _ _ _ Hc) as [[[L1 L2] _ Hr] _]. apply list_elem_of_lookup_2, Hr, in_box_spec in Hs as [L3 _]. lia.
Qed.

Lemma destination_row d row : destination_owners c !! d = Some row -> length row = n /\ length dst = n.
Proof.
  intros Hd. destruct (ce_destination _ _ _ _ _ Hc) as [[L1 L2] _ Hr]. apply list_elem_of_lookup_2, Hr, in_box_spec in Hd as [L3 _].
  destruct (ce_lengths _ _ _ _ _ Hc). lia.
Qed.

Lemma source_sizes i : (i < n)%nat -> 0 < source_splits c @ i /\ 0 < src @ i /\ src @ i * source_splits c @ i = parent @ i.
Proof.
  intros Hi. destruct (ce_source _ _ _ _ _ Hc) as [[_ He _] _]. destruct (He i Hi) as [H1 H2]. destruct (ce_inside _ _ _ _ _ Hc i Hi) as (? & ? & ?). nia.
Qed.

(** Where the fragments come from. *)
Lemma fragment_origin f : f ∈ fragments c <->
  exists d s drow srow r, destination_owners c !! d = Some drow /\ source_owners c !! s = Some srow /\ r = Some f /\
    fragment_of element src dst (dense_strides element src) (dense_strides element dst) (source_reservation_bytes c) (destination_reservation_bytes c)
      d (destination_corner drow) s srow = Ok r.
Proof.
  destruct (ce_fragments _ _ _ _ _ Hc) as (fs & -> & Hall). rewrite list_elem_of_join. split.
  - intros (l & Hf & [d Hd]%list_elem_of_lookup). destruct (Forall2_lookup_r _ _ _ _ _ Hall Hd) as ([d' drow] & Hd' & Hl).
    rewrite list_lookup_imap in Hd'. destruct (destination_owners c !! d) as [drow'|] eqn:Ed; [|done]. injection Hd' as <- <-. unfold incoming in Hl. cbn [fst snd] in Hl.
    apply bind_Ok in Hl as (rs & Hrs & Hl). do 2 (apply bind_Ok in Hl as (? & _ & Hl)). injection Hl as <-.
    apply list_elem_of_omap in Hf as (r & [s Hr]%list_elem_of_lookup & Er). cbn in Er. apply py_map_Ok in Hrs.
    destruct (Forall2_lookup_r _ _ _ _ _ Hrs Hr) as ([s' srow] & Hs' & Hfr). rewrite list_lookup_imap in Hs'. destruct (source_owners c !! s) as [srow'|] eqn:Es; [|done].
    injection Hs' as <- <-. by exists d, s, drow', srow', r.
  - intros (d & s & drow & srow & r & Hd & Hs & -> & Hfr).
    assert (imap pair (destination_owners c) !! d = Some (d, drow)) as Hd' by (by rewrite list_lookup_imap, Hd).
    destruct (Forall2_lookup_l _ _ _ _ _ Hall Hd') as (l & Hl & Hin). exists l. split; [|by eapply list_elem_of_lookup_2].
    unfold incoming in Hin. cbn [fst snd] in Hin. apply bind_Ok in Hin as (rs & Hrs & Hin). do 2 (apply bind_Ok in Hin as (? & _ & Hin)). injection Hin as <-.
    apply py_map_Ok in Hrs. assert (imap pair (source_owners c) !! s = Some (s, srow)) as Hs' by (by rewrite list_lookup_imap, Hs).
    destruct (Forall2_lookup_l _ _ _ _ _ Hrs Hs') as (r & Hr & E). cbn [fst snd] in E. fold (destination_corner drow) in E. rewrite Hfr in E. injection E as <-.
    apply list_elem_of_omap. exists (Some f). split; [by eapply list_elem_of_lookup_2 | done].
Qed.

(** The source tile that holds a point of the parent. *)
Lemma owner_exists p : length p = n -> (forall i, (i < n)%nat -> 0 <= p @ i < parent @ i) ->
  exists s row, source_owners c !! s = Some row /\ in_tile (source_corner row) src p.
Proof.
  intros Hp Hb. destruct (ce_source _ _ _ _ _ Hc) as [[[L1 L2] _ Hr] _]. set (row := zip_with Z.div p src).
  assert (length row = n) as Hrow by (unfold row; vec_len).
  assert (row ∈ source_owners c) as [s Hs]%list_elem_of_lookup.
  { apply Hr, in_box_spec. split; [lia|]. intros i Hi. destruct (source_sizes i ltac:(lia)) as (H1 & H2 & H3). specialize (Hb i ltac:(lia)). unfold row. vec_at i.
    split; [apply Z.div_pos; lia | apply Z.div_lt_upper_bound; lia]. }
  exists s, row. split; [done|]. unfold source_corner. apply (in_tile_spec n); [vec_len | done | done|]. intros i Hi. unfold row. vec_at i.
  destruct (source_sizes i Hi) as (_ & H2 & _). pose proof (Z.mul_div_le (p @ i) (src @ i) H2). pose proof (Z.mul_succ_div_gt (p @ i) (src @ i) H2). lia.
Qed.

Lemma owner_unique p s row s' row' : length p = n -> source_owners c !! s = Some row -> source_owners c !! s' = Some row' ->
  in_tile (source_corner row) src p -> in_tile (source_corner row') src p -> s = s' /\ row = row'.
Proof.
  intros Hp Hs Hs' H1 H2. destruct (source_row _ _ Hs) as [L1 L2], (source_row _ _ Hs') as [L1' _].
  assert (row = row') as <-.
  { apply (vec_ext _ _ n); [done | done|]. intros i Hi. unfold source_corner in H1, H2. rewrite (in_tile_spec n) in H1, H2 by vec_len.
    specialize (H1 i Hi). specialize (H2 i Hi). vec_at i. destruct (source_sizes i Hi) as (_ & H3 & _). nia. }
  split; [|done]. destruct (ce_source _ _ _ _ _ Hc) as [_ Hnd]. by apply (NoDup_lookup _ _ _ _ Hnd Hs Hs').
Qed.

Lemma destination_inside d row q : destination_owners c !! d = Some row -> in_box q dst ->
  let p := zip_with Z.add (destination_corner row) q in
  length p = n /\ in_tile (destination_corner row) dst p /\ zip_with Z.sub p (destination_corner row) = q /\ forall i, (i < n)%nat -> 0 <= p @ i < parent @ i.
Proof.
  intros Hd Hq p. destruct (destination_row _ _ Hd) as [L1 L2]. destruct (ce_lengths _ _ _ _ _ Hc) as [L3 L4].
  apply in_box_spec in Hq as [Lq Hq]. assert (length p = n) as Lp by (unfold p, destination_corner; vec_len).
  assert (length (destination_corner row) = n) as Lc by (unfold destination_corner; vec_len). split_and!; [done | | |].
  - apply (in_tile_spec n); [done | done | done|]. intros i Hi. specialize (Hq i ltac:(lia)). unfold p. vec_at i. lia.
  - apply (vec_ext _ _ n); [vec_len | lia|]. intros i Hi. unfold p. vec_at i. lia.
  - intros i Hi. specialize (Hq i ltac:(lia)). destruct (ce_destination _ _ _ _ _ Hc) as [_ He Hr]. destruct (He i ltac:(lia)) as [H1 H2].
    apply list_elem_of_lookup_2, Hr, in_box_spec in Hd as [Lr Hrow]. specialize (Hrow i ltac:(lia)). destruct (ce_inside _ _ _ _ _ Hc i Hi) as (H3 & H4 & H5).
    unfold p, destination_corner. vec_at i. assert (row @ i * dst @ i + q @ i < extent @ i) by nia. nia.
Qed.
(** How the element at [q] of the tile of [row] reaches core [d]. *)
Record arrives (d : nat) (p q : list Z) (f : SubrangeTransferFragment) (srow : list Z) : Prop := {
  ar_fragment : f ∈ fragments c /\ destination_core f = d /\ covers f p;
  ar_unique : forall f', f' ∈ fragments c -> destination_core f' = d -> covers f' p -> f' = f;
  ar_owner : source_owners c !! source_core f = Some srow /\ in_tile (source_corner srow) src p;
  (** the bytes at which it is read and written *)
  ar_source : source_offset_bytes f + dot (zip_with Z.sub p (parent_origin f)) (source_strides_bytes f)
    = dot (zip_with Z.sub p (source_corner srow)) (dense_strides element src);
  ar_destination : destination_offset_bytes f + dot (zip_with Z.sub p (parent_origin f)) (destination_strides_bytes f)
    = dot q (dense_strides element dst)
}.

Lemma element_arrives d row q : destination_owners c !! d = Some row -> in_box q dst ->
  exists f srow, arrives d (zip_with Z.add (destination_corner row) q) q f srow.
Proof.
  intros Hd Hq. destruct (destination_inside d row q Hd Hq) as (Lp & Htile & Hsub & Hin). set (p := zip_with Z.add (destination_corner row) q) in *.
  destruct (owner_exists p Lp Hin) as (s & srow & Hs & Hown). destruct (source_row _ _ Hs) as [Ls Lsrc]. destruct (destination_row _ _ Hd) as [Ld Ldst].
  assert (length (destination_corner row) = n) as Lc by (destruct (ce_lengths _ _ _ _ _ Hc); unfold destination_corner; vec_len).
  destruct (ce_fragments _ _ _ _ _ Hc) as (fs & _ & Hall).
  assert (exists r, fragment_of element src dst (dense_strides element src) (dense_strides element dst) (source_reservation_bytes c) (destination_reservation_bytes c)
    d (destination_corner row) s srow = Ok r) as [r Hr].
  { assert (imap pair (destination_owners c) !! d = Some (d, row)) as Hd' by (by rewrite list_lookup_imap, Hd).
    destruct (Forall2_lookup_l _ _ _ _ _ Hall Hd') as (l & _ & Hl). unfold incoming in Hl. apply bind_Ok in Hl as (rs & Hrs%py_map_Ok & _).
    assert (imap pair (source_owners c) !! s = Some (s, srow)) as Hs' by (by rewrite list_lookup_imap, Hs).
    destruct (Forall2_lookup_l _ _ _ _ _ Hrs Hs') as (r & _ & E). by exists r. }
  destruct (fragment_Ok element src dst _ _ n Lsrc Ldst d s _ srow Lc Ls r Hr) as [Hserve Hsome].
  destruct (Hsome p Lp Hown Htile) as [f ->]. destruct (Hserve f eq_refl) as [[F1 F2] F3 F4 F5 [F6 F7]].
  exists f, srow. rewrite <- F1 in Hs. split.
  - split_and!; [|done|by apply F3]. apply fragment_origin. exists d, s, row, srow, (Some f). rewrite F1 in Hs. done.
  - intros f' Hf' Hdf Hcov. apply fragment_origin in Hf' as (d' & s' & drow' & srow' & r' & Hd' & Hs' & -> & Hfr').
    destruct (source_row _ _ Hs') as [Ls' _]. destruct (destination_row _ _ Hd') as [Ld' _].
    assert (length (destination_corner drow') = n) as Lc' by (destruct (ce_lengths _ _ _ _ _ Hc); unfold destination_corner; vec_len).
    destruct (fragment_Ok element src dst _ _ n Lsrc Ldst d' s' _ srow' Lc' Ls' _ Hfr') as [Hserve' _]. destruct (Hserve' f' eq_refl) as [[G1 G2] G3 _ _ _].
    rewrite Hdf in G2. subst d'. rewrite Hd in Hd'. injection Hd' as <-. apply G3 in Hcov as [Hown' _]; [|done].
    rewrite F1 in Hs. destruct (owner_unique p _ _ _ _ Lp Hs Hs' Hown Hown') as [<- <-]. congruence.
  - done.
  - rewrite F6. by apply F4.
  - rewrite F7. rewrite F5 by done. by rewrite Hsub.
Qed.
End certificate.

(** C16. A certified transfer delivers the child: for every destination core and every element
    of its tile exactly one fragment of that core contains the element; the fragment's
    source core owns it, the byte read is the element's place in the owner's tile, inside
    the source reservation, and the byte written is its place in the destination tile. *)
Theorem transfer_complete parent origin extent ss ds sm dm element c d row q :
  certify_dense_subrange_transfer parent origin extent ss ds sm dm element = Ok c ->
  destination_owners c !! d = Some row -> in_box q (destination_local_shape c) ->
  exists f srow, arrives element c d (zip_with Z.add (destination_corner origin c row) q) q f srow /\
    0 <= dot (zip_with Z.sub (zip_with Z.add (destination_corner origin c row) q) (source_corner c srow)) (dense_strides element (source_local_shape c)) /\
    dot (zip_with Z.sub (zip_with Z.add (destination_corner origin c row) q) (source_corner c srow)) (dense_strides element (source_local_shape c))
      + element <= source_reservation_bytes c.
Proof.
  intros Hc%certify_Ok Hd Hq. destruct (element_arrives _ _ _ _ _ Hc d row q Hd Hq) as (f & srow & A). exists f, srow. split; [done|].
  destruct (ce_spans _ _ _ _ _ Hc) as [-> _]. apply dot_in_tile; [apply (ce_element _ _ _ _ _ Hc) | apply (ar_owner _ _ _ _ _ _ _ A)].
Qed.

(** Strides matter only where there is more than one element. *)
Lemma dot_compact q extent l k : in_box q extent -> length l = length extent -> length k = length extent ->
  forallb (fun x => x) (zip_with (fun size ss => negb ((1 <? size) && negb (ss.1 =? ss.2))) extent (zip l k)) = true -> dot q l = dot q k.
Proof.
  unfold dot, zsum. intros H. revert l k. induction H as [|x m q extent Hx Hq IH]; intros [|a l] [|b k] Hl Hk Hf; try done.
  cbn in Hf. apply andb_true_iff in Hf as [Hf1 Hf2]. cbn -[Z.mul]. rewrite (IH l k) by (done || (cbn in *; lia)).
  apply negb_true_iff, andb_false_iff in Hf1 as [Hf1 | Hf1]; [assert (x = 0) as -> by lia; lia|]. apply negb_false_iff, Z.eqb_eq in Hf1. by subst.
Qed.

(** C17. In a certified transfer whose local read offset is granted, every core finds each
    element of its destination tile in its own source tile, at that offset plus the element's
    address in the compact tile. *)
Theorem local_read_exact parent origin extent ss ds sm dm element c off d row q :
  certify_dense_subrange_transfer parent origin extent ss ds sm dm element = Ok c -> local_subrange_byte_offset c = Ok off ->
  destination_owners c !! d = Some row -> in_box q (destination_local_shape c) ->
  exists srow, source_owners c !! d = Some srow /\
    in_tile (source_corner c srow) (source_local_shape c) (zip_with Z.add (destination_corner origin c row) q) /\
    dot (zip_with Z.sub (zip_with Z.add (destination_corner origin c row) q) (source_corner c srow)) (dense_strides element (source_local_shape c))
      = off + dot q (dense_strides element (destination_local_shape c)).
Proof.
  intros Hc%certify_Ok Ho Hd Hq. destruct (element_arrives _ _ _ _ _ Hc d row q Hd Hq) as (f & srow & [(A1 & A2 & A3) _ [A4 A5] A6 A7]).
  unfold local_subrange_byte_offset in Ho. apply bind_Ok in Ho as (_ & _ & Ho). apply bind_Ok in Ho as (? & Hall%raise_if_Ok & Ho).
  apply negb_false_iff in Hall. rewrite forallb_forall in Hall.
  assert (off = source_offset_bytes f) as ->.
  { assert (source_offset_bytes f ∈ remove_dups (source_offset_bytes <$> fragments c)) as Hin by (apply elem_of_remove_dups; by apply list_elem_of_fmap_2).
    destruct (remove_dups _) as [|o [|o' l]]; [done | | done]. injection Ho as <-. apply list_elem_of_singleton in Hin. done. }
  pose proof A1 as [j Hj]%list_elem_of_lookup. specialize (Hall (j, f)). cbn [fst snd] in Hall.
  assert (compact_read c j f = true) as Hcr by (apply Hall, list_elem_of_In, elem_of_lookup_imap; by exists j, f).
  unfold compact_read in Hcr. rewrite !andb_true_iff, !bool_decide_eq_true, Z.eqb_eq in Hcr. destruct Hcr as [[[[C1 C2] C3] C4] C5].
  exists srow. rewrite <- A2, C2, <- C1. split_and!; [done | done|]. rewrite <- A6, <- A7, C3. f_equal. rewrite Z.add_0_l.
  assert (source_strides_bytes f = dense_strides element (source_local_shape c) /\ destination_strides_bytes f = dense_strides element (destination_local_shape c)) as [E1 E2].
  { apply (fragment_origin _ _ _ _ _ Hc) in A1 as (d' & s' & dr & sr & r & H1 & H2 & -> & Hfr). unfold fragment_of in Hfr. destruct (negb _); [done|].
    apply bind_Ok in Hfr as (_ & _ & Hfr). apply bind_Ok in Hfr as (_ & _ & [= <-]). done. }
  destruct (destination_row _ _ _ _ _ Hc d row Hd) as [_ L1]. destruct (source_row _ _ _ _ _ Hc _ _ A4) as [_ L2].
  apply (dot_compact _ (fragment_extent f)); [exact A3 | rewrite E1, length_strides, C4; lia | rewrite E2, length_strides, C4; lia | exact C5].
Qed.

(** ** Examples *)

Definition axis_map (l : list (Z * Z)) : gmap Z Z := list_to_map l.
Definition core_map (l : list (Z * gmap Z Z)) : gmap Z (gmap Z Z) := list_to_map l.

(** Rows 1 and 2 of four, held by two cores in halves of the rows and wanted in halves of
    the columns: both destinations receive a fragment from both sources. *)
Notation row_band := (certify_dense_subrange_transfer [4; 8; 64] [1; 0; 0] [2; 8; 64] (axis_map [(0, 2)]) (axis_map [(1, 2)])
  (core_map [(0, axis_map [(0, 0)]); (1, axis_map [(0, 1)])]) (core_map [(0, axis_map [(1, 0)]); (1, axis_map [(1, 1)])]) 2).

Definition the_transfer (r : res DenseSubrangeTransfer) : DenseSubrangeTransfer :=
  match r with Ok c => c | Raise _ => mkTransfer [] [] [] 0 [] [] [] [] [] [] 0 0 [] end.

Lemma transfer_complete_witness :
  exists c, row_band = Ok c /\ ((fun f => (source_core f, destination_core f)) <$> fragments c) = [(0, 0); (1, 0); (0, 1); (1, 1)]%nat /\
    exists f srow, arrives 2 c 1 (zip_with Z.add (destination_corner [1; 0; 0] c [0; 1; 0]) [1; 2; 3]) [1; 2; 3] f srow.
Proof.
  exists (the_transfer row_band). assert (row_band = Ok (the_transfer row_band)) as E by (vm_compute; reflexivity). split_and!; [exact E | vm_compute; reflexivity|].
  destruct (transfer_complete [4; 8; 64] [1; 0; 0] [2; 8; 64] _ _ _ _ 2 _ 1 [0; 1; 0] [1; 2; 3] E) as (f & srow & A & _).
  - vm_compute. reflexivity.
  - apply (bool_decide_unpack _). vm_compute. exact I.
  - exists f, srow. exact A.
Defined.

(** Column 4 of eight, on the cores that hold the rows: every core reads its own tile at
    offset 512. *)
Notation column := (certify_dense_subrange_transfer [2; 8; 64] [0; 4; 0] [2; 1; 64] (axis_map [(0, 2)]) (axis_map [(0, 2)])
  (core_map [(0, axis_map [(0, 0)]); (1, axis_map [(0, 1)])]) (core_map [(0, axis_map [(0, 0)]); (1, axis_map [(0, 1)])]) 2).

Lemma local_read_exact_witness :
  exists c srow, column = Ok c /\ local_subrange_byte_offset c = Ok 512 /\ source_owners c !! 1%nat = Some srow /\
    dot (zip_with Z.sub (zip_with Z.add (destination_corner [0; 4; 0] c [1; 0; 0]) [0; 0; 5]) (source_corner c srow))
      (dense_strides 2 (source_local_shape c)) = 512 + dot [0; 0; 5] (dense_strides 2 (destination_local_shape c)).
Proof.
  assert (column = Ok (the_transfer column)) as E by (vm_compute; reflexivity).
  assert (local_subrange_byte_offset (the_transfer column) = Ok 512) as Eo by (vm_compute; reflexivity).
  destruct (local_read_exact [2; 8; 64] [0; 4; 0] [2; 1; 64] _ _ _ _ 2 _ 512 1 [1; 0; 0] [0; 0; 5] E Eo) as (srow & H1 & _ & H2).
  - vm_compute. reflexivity.
  - apply (bool_decide_unpack _). vm_compute. exact I.
  - exists (the_transfer column), srow. split_and!; [exact E | exact Eo | exact H1 | exact H2].
Defined.
