(* ===== verification/Tilings.v ===== *)
(** * The coarse tilings of one operation ([wsr/enumerate_tilings.py])

    [TilingSpace] holds the legal split counts of an operation's output dimensions
    and answers one tiling at a time; [enumerate_tile_options] is the list a solver
    consumes.  The file also models what the enumeration is built on: the legal
    split counts of a dimension ([wsr/span_overflow_hint_analysis.py]), the
    reduction loop variables ([wsr/loop_tiling_common.py]) and the resolver that
    lowers a tiling ([scratchpad/coarse_tiling.py]).

    An operation is the record [tile_op] of what this code reads of it.  An extent
    is [None] when it is symbolic.  Three answers are fields because they come from
    sympy expressions: the stick dimension, whether a split of an output dimension
    respects sticks and can be resized, and whether a loop walks an input twice. *)

From S2P Require Import Prelude PyDict PlanSolver.

Definition extent : Set := option Z.

Record tile_op := mkTileOp {
  is_computed_buffer : bool;
  fixed_tiled_layout : bool;
  has_dim_hints : bool;
  has_loop_info : bool;
  stick_host_dim : option Z;
  is_reduction_data : bool;
  ranges : option (list extent);
  reduction_ranges : list extent;
  layout_size : list extent;
  static_span_metadata : bool;
  out_coords : list (list string);
  iter_space : dict extent;
  write_syms : option (gset string);
  read_ranges : list (list string);
  repeated_read : string -> bool;
  split_aligned : Z -> Z -> bool;
  cuts_input_stick : string -> Z -> bool
}.

(** [op.data.ranges] *)
Definition data_ranges (op : tile_op) : res (list extent) :=
  match ranges op with Some r => Ok r | None => Raise AttributeError end.

(** [int(e)] *)
Definition py_int_extent (e : extent) : res Z :=
  match e with Some n => Ok n | None => Raise TypeError end.

(** ** Legal split counts of one dimension *)

Definition _MAX_AUTO_TILE_SPLIT_COUNT : Z := 64.
Definition _MAX_SPLITS_PER_DIM : nat := 16.

(** [sorted({d for i in range(1, isqrt(n) + 1) if n % i == 0 for d in (i, n // i)})] *)
Definition exact_divisors (n : Z) : list Z :=
  py_sorted Z.leb (remove_dups
    (i ← (Z.of_nat <$> seq 1 (Z.to_nat (Z.sqrt n)));
     if n mod i =? 0 then [i; n / i] else [])).

(** [add] of [_cap_split_candidates] *)
Definition cap_add (legal : list Z) (split : Z) (selected : list Z) : list Z :=
  if bool_decide (split ∈ legal /\ split ∉ selected) then selected ++ [split] else selected.

(** The loop over the small splits. *)
Fixpoint add_small (legal l selected : list Z) : list Z :=
  match l with
  | [] => selected
  | split :: l' =>
      let selected := if 1 <? split then cap_add legal split selected else selected in
      if (Nat.min 5 _MAX_SPLITS_PER_DIM <=? length selected)%nat then selected
      else add_small legal l' selected
  end.

(** The loop over the large fallbacks. *)
Fixpoint add_large (legal l selected : list Z) : list Z :=
  match l with
  | [] => selected
  | split :: l' =>
      let selected := cap_add legal split selected in
      if (_MAX_SPLITS_PER_DIM <=? length selected)%nat then selected
      else add_large legal l' selected
  end.

(** [range(max(0, r - 2), min(len, r + 4))] and the elements there. *)
Definition around_required (legal : list Z) (required_count : Z) : list Z :=
  let required_idx := match list_find (fun split => required_count <= split) legal with
                      | Some (idx, _) => idx | None => (length legal - 1)%nat end in
  take (required_idx + 4 - (required_idx - 2)) (drop (required_idx - 2) legal).

Definition _cap_split_candidates (legal : list Z) (required_count : Z) : list Z :=
  if (length legal <=? _MAX_SPLITS_PER_DIM)%nat then legal
  else
    let selected := add_small legal legal (cap_add legal 1 []) in
    let selected := foldl (fun s split => cap_add legal split s) selected
                      (around_required legal required_count) in
    let selected := add_large legal (reverse legal) selected in
    take _MAX_SPLITS_PER_DIM (py_sorted Z.leb selected).

Definition _split_candidates_for_host_dim (op : tile_op) (host_dim : nat) (required_count : Z)
    : res (list Z) :=
  rs ← data_ranges op;
  match rs !! host_dim with
  | None => Raise Unsupported
  | Some None => Raise Unsupported
  | Some (Some full_size) =>
      raise_if (full_size <=? 1) Unsupported;;
      let legal_candidates := filter (fun split =>
        split = 1 \/
        ((is_reduction_data op = false \/ 1 < full_size / split) /\ split <= _MAX_AUTO_TILE_SPLIT_COUNT
         /\ split_aligned op (Z.of_nat host_dim) split = true)) (exact_divisors full_size) in
      Ok (_cap_split_candidates legal_candidates required_count)
  end.

Definition _output_split_counts (op : tile_op) (host_dim : nat) : res (list Z) :=
  match _split_candidates_for_host_dim op host_dim 1 with
  | Raise Unsupported => Ok []
  | Raise e => Raise e
  | Ok candidates => Ok (filter (fun s => 1 < s) candidates)
  end.

(** ** Reduction loop variables and the resolver *)

(** The first of the reads that index the most reduction symbols. *)
Definition best_read (out_syms : gset string) (reads : list (list string)) : option (list string) :=
  let key r := length (filter (fun s => s ∉ out_syms) r) in
  match reads with
  | [] => None
  | r :: rest => Some (foldl (fun best d => if (key best <? key d)%nat then d else best) r rest)
  end.

Definition reduction_loop_vars (op : tile_op) : res (list string) :=
  py_assert (is_reduction_data op);;
  match write_syms op with
  | None => Raise StopIteration
  | Some out_syms =>
      Ok (match best_read out_syms (read_ranges op) with
          | None => []
          | Some in_dep => filter (fun s => s ∉ out_syms) in_dep
          end)
  end.

Definition _loop_var_to_reduction_ranges_pos (op : tile_op) (sym : string) : res (option nat) :=
  red_vars ← reduction_loop_vars op;
  match list_find (eq sym) red_vars with
  | None => Ok None
  | Some (i, _) =>
      let not_one := filter (fun i => reduction_ranges op !! i <> Some (Some 1))
                       (seq 0 (length (reduction_ranges op))) in
      if (length not_one <? length red_vars)%nat then Ok None
      else match not_one !! i with Some p => Ok (Some p) | None => Raise IndexError end
  end.

Definition _get_out_var (op : tile_op) (host_dim : Z) : res (option string) :=
  if Z.of_nat (length (out_coords op)) <=? host_dim then Ok None
  else
    free_symbols ← py_nth (out_coords op) host_dim;
    Ok (match free_symbols with
        | [loop_var] => if dmem (iter_space op) loop_var then Some loop_var else None
        | _ => None
        end).

Definition _get_red_var (op : tile_op) (host_dim : Z) : res (option string) :=
  if negb (is_reduction_data op) then Ok None
  else match reduction_loop_vars op with
       | Raise StopIteration => Ok None
       | Raise e => Raise e
       | Ok red_vars =>
           if bool_decide (red_vars = []) || (Z.of_nat (length red_vars) <=? host_dim) then Ok None
           else
             loop_var ← py_nth red_vars host_dim;
             pos ← _loop_var_to_reduction_ranges_pos op loop_var;
             Ok (match pos with Some _ => Some loop_var | None => None end)
       end.

(** [_symbolic_extent_reason(op) is not None] *)
Definition symbolic_extent (op : tile_op) : bool :=
  bool_decide (None ∈ default [] (ranges op)) || bool_decide (None ∈ reduction_ranges op)
  || bool_decide (None ∈ layout_size op)
  || (fixed_tiled_layout op && negb (static_span_metadata op)).

(** One axis of [try_resolve_tile_axis_loop_vars]. *)
Definition resolve_axis (op : tile_op) (axis : TileAxis) : res (option string) :=
  loop_var ← (if is_reduction axis then _get_red_var op (host_dim axis)
              else _get_out_var op (host_dim axis));
  Ok (match loop_var with
      | Some v => if repeated_read op v then None else Some v
      | None => None
      end).

Fixpoint resolve_axes (op : tile_op) (l : list TileAxis) : res (option (list string)) :=
  match l with
  | [] => Ok (Some [])
  | axis :: l' =>
      v ← resolve_axis op axis;
      match v with
      | None => Ok None
      | Some v => vs ← resolve_axes op l'; Ok (option_map (cons v) vs)
      end
  end.

Definition try_resolve_tile_axis_loop_vars (op : tile_op) (spec : TileSpec)
    : res (option (list string)) :=
  if negb (is_untiled spec) && symbolic_extent op then Ok None
  else resolve_axes op (axes spec).

(** ** [TilingSpace] *)

Record TilingSpace := mkTilingSpace {
  max_dims : nat;
  output_counts : gmap Z (list Z)
}.

Definition output_dims (sp : TilingSpace) : list Z :=
  py_sorted Z.leb (elements (dom (output_counts sp))).

Definition counts (sp : TilingSpace) (host_dim : Z) : list Z :=
  default [] (output_counts sp !! host_dim).

(** [any(a.host_dim >= b.host_dim for a, b in zip(axes, axes[1:]))], negated *)
Fixpoint ascending (l : list TileAxis) : bool :=
  match l with
  | a :: ((b :: _) as l') => (host_dim a <? host_dim b) && ascending l'
  | _ => true
  end.

Definition admits (sp : TilingSpace) (spec : TileSpec) : bool :=
  if is_untiled spec then true
  else if existsb is_reduction (axes spec) then false
  else if existsb (fun a => bool_decide (count a ∉ counts sp (host_dim a))) (axes spec) then false
  else if negb (ascending (axes spec)) then false
  else (depth spec <=? max_dims sp)%nat.

(** [TileAxis(host_dim=dim, count=count)] *)
Definition out_axis (dim count : Z) : TileAxis := mkAxis dim count false.

Definition enumerate (sp : TilingSpace) : list TileSpec :=
  let per_dim := (fun dim => (dim, counts sp dim)) <$> output_dims sp in
  mkSpec [] ::
  (depth ← seq 1 (Nat.min (max_dims sp) (length per_dim));
   combo ← combinations depth per_dim;
   cs ← cartesian (snd <$> combo);
   [mkSpec (zip_with out_axis (fst <$> combo) cs)]).

(** The sort key [(is_reduction, host_dim)]. *)
Definition level_leb (a b : TileAxis) : bool :=
  match is_reduction a, is_reduction b with
  | false, true => true
  | true, false => false
  | _, _ => host_dim a <=? host_dim b
  end.

Definition canonical_tiling (spec : TileSpec) : TileSpec := mkSpec (py_sorted level_leb (axes spec)).

(** The three loops of [neighbours]. *)
Definition recounted (sp : TilingSpace) (l : list TileAxis) : list TileSpec :=
  i ← seq 0 (length l);
  match l !! i with
  | None => []
  | Some axis =>
      (fun c => mkSpec (take i l ++ mkAxis (host_dim axis) c (is_reduction axis) :: drop (S i) l))
        <$> filter (fun c => c <> count axis) (counts sp (host_dim axis))
  end.

Definition removed (l : list TileAxis) : list TileSpec :=
  (fun i => mkSpec (take i l ++ drop (S i) l)) <$> seq 0 (length l).

Definition extended (sp : TilingSpace) (l : list TileAxis) : list TileSpec :=
  let tiled := host_dim <$> filter (fun a => is_reduction a = false) l in
  dim ← filter (fun d => d ∉ tiled) (output_dims sp);
  (fun c => mkSpec (l ++ [out_axis dim c])) <$> counts sp dim.

Definition neighbours (sp : TilingSpace) (spec : TileSpec) : list TileSpec :=
  let out := recounted sp (axes spec) ++ removed (axes spec) ++ extended sp (axes spec) in
  filter (fun c => c <> spec /\ admits sp c = true) (fromkeys (canonical_tiling <$> out)).

(** ** Building the space of an operation *)

Definition _tileable (op : tile_op) : bool :=
  is_computed_buffer op && fixed_tiled_layout op && negb (has_dim_hints op) && negb (has_loop_info op).

Definition _static_extents (op : tile_op) : bool := negb (symbolic_extent op).

(** Whether one reader views the unit tile through another rank or shape. *)
Definition views_otherwise (host_dim : nat) (rs : list extent) (reader : tile_op) : res bool :=
  reader_ranges ← data_ranges reader;
  if (length reader_ranges <? length rs)%nat then Ok true
  else match reader_ranges !! host_dim with
       | None => Raise IndexError
       | Some e => Ok (bool_decide (e <> Some 1) && bool_decide (reader_ranges <> rs))
       end.

(** [any] over the readers, stopping at the first. *)
Fixpoint any_reader (p : tile_op -> res bool) (l : list tile_op) : res bool :=
  match l with
  | [] => Ok false
  | r :: l' => b ← p r; if (b : bool) then Ok true else any_reader p l'
  end.

Definition _unit_tile_breaks_a_reader (op : tile_op) (host_dim : nat) (count : Z)
    (readers : list tile_op) : res bool :=
  rs ← data_ranges op;
  match rs !! host_dim with
  | None => Raise IndexError
  | Some e =>
      n ← py_int_extent e;
      if negb (n / count =? 1) then Ok false
      else any_reader (views_otherwise host_dim rs) readers
  end.

Definition _lowering_accepts (op : tile_op) (axis : TileAxis) : res bool :=
  vars ← try_resolve_tile_axis_loop_vars op (mkSpec [axis]);
  Ok (bool_decide (is_Some vars)).

(** [[x for x in l if not p(x)]] with a test that may raise. *)
Fixpoint py_filter_out {A} (p : A -> res bool) (l : list A) : res (list A) :=
  match l with
  | [] => Ok []
  | x :: l' => b ← p x; k ← py_filter_out p l'; Ok (if (b : bool) then k else x :: k)
  end.

(** One output dimension of [build_tiling_space]. *)
Definition add_dim (op : tile_op) (stick_dim : Z) (max_splits_per_dim : nat)
    (readers : list tile_op) (host_dim : nat) (m : gmap Z (list Z)) : res (gmap Z (list Z)) :=
  if Z.of_nat host_dim =? stick_dim then Ok m
  else
    all ← _output_split_counts op host_dim;
    kept ← py_filter_out (fun c => _unit_tile_breaks_a_reader op host_dim c readers) all;
    let cs := take max_splits_per_dim kept in
    match cs with
    | [] => Ok m
    | c0 :: _ =>
        ok ← _lowering_accepts op (out_axis (Z.of_nat host_dim) c0);
        Ok (if (ok : bool) then <[Z.of_nat host_dim := cs]> m else m)
    end.

Definition build_tiling_space (op : tile_op) (max_dims max_splits_per_dim : nat)
    (readers : list tile_op) : res TilingSpace :=
  m ← match (if _tileable op then stick_host_dim op else None) with
      | Some stick_dim =>
          if _static_extents op then
            let n_out := length (default [] (ranges op)) in
            let retiled_readers := filter (fun r => is_computed_buffer r = true) readers in
            for_each (add_dim op stick_dim max_splits_per_dim retiled_readers) (seq 0 n_out) ∅
          else Ok ∅
      | None => Ok ∅
      end;
  Ok (mkTilingSpace max_dims m).

(** ** [enumerate_tile_options] *)

Definition _reduction_split_counts (op : tile_op) (red_pos : nat) : res (list Z) :=
  red_var ← _get_red_var op (Z.of_nat red_pos);
  match red_var with
  | None => Ok []
  | Some v =>
      match dget (iter_space op) v with
      | None | Some None => Ok []
      | Some (Some full) =>
          if full <=? 1 then Ok []
          else Ok (filter (fun split => 1 < split /\ 1 < full / split
                     /\ split <= _MAX_AUTO_TILE_SPLIT_COUNT /\ cuts_input_stick op v split = false)
                     (exact_divisors full))
      end
  end.

(** The key [(depth, axis tuple)], compared lexicographically. *)
Definition axis_compare (a b : TileAxis) : comparison :=
  match Bool.compare (is_reduction a) (is_reduction b) with
  | Eq => match host_dim a ?= host_dim b with Eq => count a ?= count b | c => c end
  | c => c
  end.

Fixpoint axes_compare (l k : list TileAxis) : comparison :=
  match l, k with
  | [], [] => Eq
  | [], _ => Lt
  | _, [] => Gt
  | a :: l', b :: k' => match axis_compare a b with Eq => axes_compare l' k' | c => c end
  end.

Definition canonical_leb (s t : TileSpec) : bool :=
  match (depth s ?= depth t)%nat with
  | Lt => true | Gt => false
  | Eq => match axes_compare (axes s) (axes t) with Gt => false | _ => true end
  end.

Definition _finalize_options (options : list TileSpec) (max_options : option nat) : list TileSpec :=
  let unique := fromkeys options in
  let rest := py_sorted canonical_leb (filter (fun s => is_untiled s = false) unique) in
  let result := mkSpec [] :: rest in
  match max_options with Some n => take n result | None => result end.

(** The reduction options of one position. *)
Definition reduction_options (op : tile_op) (max_splits_per_dim red_pos : nat) : res (list TileSpec) :=
  cs ← _reduction_split_counts op red_pos;
  Ok ((fun c => mkSpec [mkAxis (Z.of_nat red_pos) c true]) <$> take max_splits_per_dim cs).

(** The number of reduction positions, zero where there is none to derive. *)
Definition n_red (op : tile_op) : res nat :=
  match reduction_loop_vars op with
  | Ok vs => Ok (length vs)
  | Raise StopIteration | Raise AssertionError => Ok O
  | Raise e => Raise e
  end.

Definition all_reduction_options (enable_reduction_tiling : bool) (op : tile_op)
    (max_splits_per_dim : nat) : res (list TileSpec) :=
  if _tileable op && _static_extents op && is_reduction_data op && enable_reduction_tiling
     && forallb (fun r => bool_decide (r <> Some 1)) (reduction_ranges op) then
    n ← n_red op;
    l ← py_map (reduction_options op max_splits_per_dim) (seq 0 n);
    Ok (concat l)
  else Ok [].

Definition enumerate_tile_options (enable_reduction_tiling : bool) (op : tile_op)
    (max_dims max_splits_per_dim : nat) (max_options : option nat) (readers : list tile_op)
    : res (list TileSpec) :=
  sp ← build_tiling_space op max_dims max_splits_per_dim readers;
  more ← all_reduction_options enable_reduction_tiling op max_splits_per_dim;
  Ok (_finalize_options (enumerate sp ++ more) max_options).

(** ** What the space admits *)

Definition host_lt (a b : TileAxis) : Prop := host_dim a < host_dim b.

Lemma sorted_hosts l : StronglySorted Z.lt (host_dim <$> l) <-> StronglySorted host_lt l.
Proof.
  split; [|by apply StronglySorted_fmap].
  induction l as [|a l IH]; csimpl; [constructor|]. intros [Hs Ha]%StronglySorted_inv. constructor; [auto|].
  exact (proj1 (Forall_fmap _ _ _) Ha).
Qed.

(** The legal levels: output axes with legal counts, in ascending order, not too
    many. *)
Definition legal_levels (sp : TilingSpace) (l : list TileAxis) : Prop :=
  Forall (fun a => is_reduction a = false /\ count a ∈ counts sp (host_dim a)) l /\
  StronglySorted host_lt l /\ (length l <= max_dims sp)%nat.

Lemma ascending_spec l : ascending l = true <-> StronglySorted host_lt l.
Proof.
  induction l as [|a l IH]; [split; [constructor | done]|]. destruct l as [|b l].
  - split; [repeat constructor | done].
  - change (ascending (a :: b :: l)) with ((host_dim a <? host_dim b) && ascending (b :: l)).
    rewrite andb_true_iff, IH, Z.ltb_lt. split.
    + intros [Hab Hs]. constructor; [done|]. apply StronglySorted_inv in Hs as [_ Hb].
      constructor; [done|]. eapply Forall_impl; [exact Hb|]. unfold host_lt. simpl. lia.
    + intros [Hs Ha]%StronglySorted_inv. by apply Forall_cons in Ha as [? _].
Qed.

Lemma admits_legal sp spec : admits sp spec = true <-> legal_levels sp (axes spec).
Proof.
  unfold admits, legal_levels, is_untiled, depth. destruct spec as [l]; cbn [axes].
  destruct l as [|a l]; [cbn; split; [intros _; split_and!; [constructor | constructor | lia] | done]|].
  rewrite bool_decide_false by done. set (k := a :: l). clearbody k. rewrite Forall_forall, <- ascending_spec.
  destruct (existsb is_reduction k) eqn:E1.
  { split; [done|]. intros [H _]. apply existsb_exists in E1 as (x & Hx%list_elem_of_In & Hr).
    destruct (H x Hx). congruence. }
  destruct (existsb (fun a => bool_decide (count a ∉ counts sp (host_dim a))) k) eqn:E2.
  { split; [done|]. intros [H _]. apply existsb_exists in E2 as (x & Hx%list_elem_of_In & Hr). split_bools.
    by destruct (H x Hx). }
  destruct (ascending k); cbn [negb]; [|split; [done | intros (_ & ? & _); done]].
  rewrite Nat.leb_le. split; [|intros (_ & _ & ?); done]. intros Hd. split_and!; [|done|done].
  intros x Hx. rewrite <- not_true_iff_false, existsb_exists in E1, E2. split.
  - destruct (is_reduction x) eqn:E; [|done]. destruct E1. exists x. by rewrite <- list_elem_of_In.
  - destruct (decide (count x ∈ counts sp (host_dim x))); [done|]. destruct E2. exists x.
    rewrite <- list_elem_of_In. split; [done|]. by apply bool_decide_eq_true.
Qed.

Lemma StronglySorted_Zlt_sublist (l k : list Z) :
  StronglySorted Z.lt l -> StronglySorted Z.lt k -> (forall x, x ∈ l -> x ∈ k) -> l `sublist_of` k.
Proof.
  intros Hl Hk. revert l Hl. induction Hk as [|y k Hk IH Hy]; intros l Hl Hin.
  - destruct l as [|x l]; [constructor|]. specialize (Hin x ltac:(list_mem)). by apply elem_of_nil in Hin.
  - destruct Hl as [|x l Hl Hx]; [apply sublist_nil_l|]. rewrite Forall_forall in Hx, Hy.
    destruct (decide (x = y)) as [-> | Hne].
    + constructor. apply IH; [done|]. intros z Hz. specialize (Hin z ltac:(list_mem)).
      apply elem_of_cons in Hin as [-> | ?]; [|done]. specialize (Hx y Hz). lia.
    + constructor. apply IH; [constructor; [done | by apply Forall_forall]|].
      intros z Hz. pose proof (Hin z Hz) as [-> | ?]%elem_of_cons; [|done].
      apply elem_of_cons in Hz as [? | Hz]; [done|]. specialize (Hin x ltac:(list_mem)).
      apply elem_of_cons in Hin as [? | Hin]; [done|]. specialize (Hx y Hz). specialize (Hy x Hin). lia.
Qed.

Lemma output_dims_spec sp :
  StronglySorted Z.lt (output_dims sp) /\ forall d, d ∈ output_dims sp <-> is_Some (output_counts sp !! d).
Proof.
  split.
  - assert (StronglySorted Z.le (output_dims sp)) as Hle.
    { apply py_sorted_coarse; lia. }
    assert (NoDup (output_dims sp)) as Hnd.
    { unfold output_dims. rewrite py_sorted_perm. apply NoDup_elements. }
    induction Hle as [|x l Hl IH Hx]; [constructor|]. apply NoDup_cons in Hnd as [Hn Hnd].
    constructor; [auto|]. rewrite Forall_forall in Hx |- *. intros y Hy. specialize (Hx y Hy).
    destruct (decide (x = y)) as [-> | ?]; [done | lia].
  - intros d. unfold output_dims. by rewrite elem_of_py_sorted, elem_of_elements, elem_of_dom.
Qed.

(** The pairs [enumerate] combines are a function of the dimension. *)
Definition per_dim (sp : TilingSpace) : list (Z * list Z) := (fun dim => (dim, counts sp dim)) <$> output_dims sp.

Lemma zip_out_axis l :
  Forall (fun a => is_reduction a = false) l -> zip_with out_axis (host_dim <$> l) (count <$> l) = l.
Proof.
  induction 1 as [|[d c r] l Hr _ IH]; csimpl; [done|]. cbn in Hr. subst r. by rewrite IH.
Qed.

Lemma combo_dims sp c k : c ∈ combinations k (per_dim sp) ->
  c = (fun dim => (dim, counts sp dim)) <$> (fst <$> c) /\ StronglySorted Z.lt (fst <$> c) /\ length c = k.
Proof.
  intros [Hs Hl]%elem_of_combinations. split_and!; [| |done].
  - assert (forall x, x ∈ c -> x = (x.1, counts sp x.1)) as Hx.
    { intros x Hx. eapply elem_of_sublist in Hx; [|exact Hs].
      by apply list_elem_of_fmap in Hx as (d & -> & _). }
    clear -Hx. rewrite <- list_fmap_compose. rewrite <- (list_fmap_id c) at 1. apply list_fmap_ext.
    intros i x Hi. apply Hx. by eapply list_elem_of_lookup_2.
  - eapply StronglySorted_sublist; [|apply (output_dims_spec sp)].
    apply (fmap_sublist fst) in Hs. unfold per_dim in Hs. rewrite <- list_fmap_compose in Hs.
    rewrite list_fmap_id in Hs. done.
Qed.

Lemma elem_of_enumerate sp spec : spec ∈ enumerate sp <-> legal_levels sp (axes spec).
Proof.
  unfold enumerate. fold (per_dim sp). rewrite elem_of_cons, list_elem_of_bind.
  setoid_rewrite list_elem_of_bind. setoid_rewrite list_elem_of_bind. setoid_rewrite list_elem_of_singleton.
  setoid_rewrite elem_of_cartesian. setoid_rewrite elem_of_seq. split.
  - intros [-> | (k & (c & (cs & -> & Hcs) & Hc) & Hk)]; [split_and!; [constructor | constructor | cbn; lia]|].
    destruct (combo_dims sp c k Hc) as (He & Hs & Hl). cbn [axes].
    apply (proj1 (Forall2_fmap_r _ _ _ _)) in Hcs. assert (length cs = length c) as Hlen by (by eapply Forall2_length).
    split_and!.
    + clear -He Hcs. induction Hcs as [|y x k l Hxy _ IH]; csimpl; [constructor|].
      injection He as Hx He. constructor; [|by apply IH]. cbn. rewrite Hx in Hxy. done.
    + assert (host_dim <$> zip_with out_axis (fst <$> c) cs = fst <$> c) as Hd.
      { clear -Hlen. revert cs Hlen. induction c as [|x c IH]; intros [|y cs] Hlen; csimpl; try done. f_equal. apply IH. simpl in Hlen. lia. }
      rewrite <- Hd in Hs. by apply sorted_hosts in Hs.
    + rewrite length_zip_with, length_fmap, Hlen. lia.
  - intros (Hf & Hs & Hl). destruct spec as [l]. cbn [axes] in *. destruct l as [|a l]; [by left|]. right.
    remember (a :: l) as k eqn:Hk. exists (length k).
    assert (Forall (fun a => is_reduction a = false) k) as Hr by (eapply Forall_impl; [exact Hf | naive_solver]).
    assert (host_dim <$> k `sublist_of` output_dims sp) as Hsub.
    { apply StronglySorted_Zlt_sublist; [by apply sorted_hosts | apply output_dims_spec |].
      intros d (x & -> & Hx)%list_elem_of_fmap. apply output_dims_spec. rewrite Forall_forall in Hf.
      destruct (Hf x Hx) as [_ Hin]. unfold counts in Hin.
      destruct (output_counts sp !! host_dim x); [eauto | by apply elem_of_nil in Hin]. }
    split.
    + exists ((fun dim => (dim, counts sp dim)) <$> (host_dim <$> k)). split.
      * exists (count <$> k). rewrite <- !list_fmap_compose. cbn [compose fst]. split; [by rewrite zip_out_axis|].
        apply Forall2_fmap, Forall2_same_length_lookup_2; [done|]. intros i x y Hx Hy.
        assert (x = y) as -> by congruence. rewrite Forall_forall in Hf. apply Hf. by eapply list_elem_of_lookup_2.
      * apply elem_of_combinations. rewrite !length_fmap. split; [by apply fmap_sublist | done].
    + subst k. apply sublist_length in Hsub. rewrite length_fmap in Hsub. unfold per_dim. rewrite length_fmap.
      cbn [length] in *. lia.
Qed.

Definition wf_space (sp : TilingSpace) : Prop := map_Forall (fun _ cs => NoDup cs) (output_counts sp).

Lemma counts_NoDup sp d : wf_space sp -> NoDup (counts sp d).
Proof.
  intros H. unfold counts. destruct (output_counts sp !! d) eqn:E; [by eapply H | constructor].
Qed.

Lemma zip_out_axis_inj dims cs cs' :
  length cs = length dims -> length cs' = length dims ->
  zip_with out_axis dims cs = zip_with out_axis dims cs' -> cs = cs'.
Proof.
  revert cs cs'. induction dims as [|d dims IH]; intros [|c cs] [|c' cs'] H1 H2 He; try done.
  injection He as -> He. f_equal. apply IH; [simpl in *; lia..|done].
Qed.

Lemma zip_out_axis_dims dims cs :
  length cs = length dims -> host_dim <$> zip_with out_axis dims cs = dims.
Proof.
  revert cs. induction dims as [|d dims IH]; intros [|c cs] H; csimpl; try done. f_equal. apply IH. simpl in H. lia.
Qed.

Lemma cartesian_length {A} (ls : list (list A)) c : c ∈ cartesian ls -> length c = length ls.
Proof. intros H%elem_of_cartesian. by eapply Forall2_length. Qed.

Lemma NoDup_enumerate sp : wf_space sp -> NoDup (enumerate sp).
Proof.
  intros Hwf. unfold enumerate. fold (per_dim sp).
  assert (NoDup (per_dim sp)) as Hnd.
  { apply NoDup_fmap_2; [intros ? ? [=]; done|]. unfold output_dims. rewrite py_sorted_perm. apply NoDup_elements. }
  assert (forall k c s, c ∈ combinations k (per_dim sp) -> s ∈ (cs ← cartesian (snd <$> c); [mkSpec (zip_with out_axis (fst <$> c) cs)]) ->
            host_dim <$> axes s = fst <$> c) as Hdims.
  { intros k c s _ (cs & ->%list_elem_of_singleton & Hcs%cartesian_length)%list_elem_of_bind. cbn [axes].
    apply zip_out_axis_dims. by rewrite Hcs, !length_fmap. }
  apply NoDup_cons. split.
  - intros (k & (c & Hs & Hc)%list_elem_of_bind & Hk%elem_of_seq)%list_elem_of_bind.
    pose proof (Hdims k c _ Hc Hs) as He. apply elem_of_combinations in Hc as [_ Hl].
    cbn in He. apply (f_equal length) in He. rewrite length_fmap in He. simpl in He. lia.
  - apply NoDup_bind_disjoint; [apply NoDup_seq | |].
    + intros k _. apply NoDup_bind_disjoint; [by apply NoDup_combinations | |].
      * intros c Hc. apply NoDup_bind_disjoint.
        -- apply NoDup_cartesian, Forall_forall. intros l (x & -> & Hx)%list_elem_of_fmap.
           apply elem_of_combinations in Hc as [Hsub _]. eapply elem_of_sublist in Hx; [|exact Hsub].
           apply list_elem_of_fmap in Hx as (d & -> & _). by apply counts_NoDup.
        -- intros; apply NoDup_singleton.
        -- intros cs cs' z H1%cartesian_length H2%cartesian_length ->%list_elem_of_singleton [=]%list_elem_of_singleton.
           rewrite length_fmap in H1, H2. eapply zip_out_axis_inj; [..|done]; by rewrite length_fmap.
      * intros c c' z Hc Hc' Hz Hz'. pose proof (Hdims k c z Hc Hz) as H1. pose proof (Hdims k c' z Hc' Hz') as H2.
        destruct (combo_dims sp c k Hc) as (-> & _). destruct (combo_dims sp c' k Hc') as (-> & _). congruence.
    + intros k k' z _ _ (c & Hz & Hc)%list_elem_of_bind (c' & Hz' & Hc')%list_elem_of_bind.
      pose proof (Hdims k c z Hc Hz) as H1. pose proof (Hdims k' c' z Hc' Hz') as H2.
      apply elem_of_combinations in Hc as [_ <-], Hc' as [_ <-].
      apply (f_equal length) in H1, H2. rewrite !length_fmap in H1, H2. congruence.
Qed.

(** ** Moves *)

(** One level changed, added or removed. *)
Inductive level_edit : list TileAxis -> list TileAxis -> Prop :=
  | edit_count l1 l2 d c c' : c <> c' ->
      level_edit (l1 ++ out_axis d c :: l2) (l1 ++ out_axis d c' :: l2)
  | edit_add l1 l2 a : level_edit (l1 ++ l2) (l1 ++ a :: l2)
  | edit_remove l1 l2 a : level_edit (l1 ++ a :: l2) (l1 ++ l2).

Lemma level_edit_sym l k : level_edit l k -> level_edit k l.
Proof. intros []; constructor. congruence. Qed.

Lemma level_edit_neq l k : level_edit l k -> l <> k.
Proof.
  intros [l1 l2 d c c' Hc | l1 l2 a | l1 l2 a] He.
  - apply app_inv_head in He. by injection He.
  - apply app_inv_head in He. apply (f_equal length) in He. simpl in He. lia.
  - apply app_inv_head in He. apply (f_equal length) in He. simpl in He. lia.
Qed.

(** Sorting an unsorted list of output levels finds the sorted one. *)
Lemma canonical_sorted l k :
  Forall (fun a => is_reduction a = false) k -> StronglySorted host_lt k -> l ≡ₚ k ->
  canonical_tiling (mkSpec l) = mkSpec k.
Proof.
  intros Hr Hs Hp. unfold canonical_tiling. cbn [axes]. f_equal.
  assert (forall x, x ∈ l -> is_reduction x = false) as Hl
    by (intros x Hx; rewrite Hp in Hx; rewrite Forall_forall in Hr; auto).
  apply (StronglySorted_lt_unique host_lt); [unfold host_lt; lia | unfold host_lt; lia | | done | by rewrite py_sorted_perm].
  assert (StronglySorted (fun a b => level_leb a b = true) (py_sorted level_leb l)) as Hle.
  { apply py_sorted_sorted; intros; unfold level_leb in *; repeat case_match; try lia; try done; auto. }
  assert (NoDup (host_dim <$> py_sorted level_leb l)) as Hnd.
  { rewrite py_sorted_perm, Hp. clear -Hs. induction Hs as [|a k Hs IH Ha]; csimpl; [constructor|].
    apply NoDup_cons. split; [|done]. intros (b & Hb & Hin)%list_elem_of_fmap. rewrite Forall_forall in Ha.
    specialize (Ha b Hin). unfold host_lt in Ha. lia. }
  assert (forall x, x ∈ py_sorted level_leb l -> is_reduction x = false) as Hl'
    by (intros x; rewrite elem_of_py_sorted; apply Hl).
  clear -Hle Hnd Hl'. induction Hle as [|a k Hk IH Ha]; [constructor|]. csimpl in Hnd.
  apply NoDup_cons in Hnd as [Hn Hnd]. constructor; [apply IH; [done | intros; apply Hl'; list_mem]|].
  rewrite Forall_forall in Ha |- *. intros b Hb. specialize (Ha b Hb). unfold level_leb in Ha.
  rewrite !Hl' in Ha by list_mem. apply Z.leb_le in Ha. unfold host_lt.
  enough (host_dim a <> host_dim b) by lia. intros He. apply Hn. rewrite He. by apply list_elem_of_fmap_2.
Qed.

Lemma legal_output sp l : legal_levels sp l -> Forall (fun a => is_reduction a = false) l.
Proof. intros [H _]. eapply Forall_impl; [exact H | naive_solver]. Qed.

(** A new level has one place in the ascending order. *)
Lemma sorted_insert_split l a :
  StronglySorted host_lt l -> (forall b, b ∈ l -> host_dim b <> host_dim a) ->
  exists l1 l2, l = l1 ++ l2 /\ StronglySorted host_lt (l1 ++ a :: l2).
Proof.
  induction 1 as [|b l Hl IH Hb]; intros Hne.
  - exists [], []. split; [done | repeat constructor].
  - destruct (decide (host_dim a < host_dim b)) as [Hlt | Hge].
    + exists [], (b :: l). split; [done|]. cbn. constructor; [by constructor|]. constructor; [done|].
      eapply Forall_impl; [exact Hb|]. unfold host_lt. lia.
    + destruct IH as (l1 & l2 & -> & Hs); [intros; apply Hne; list_mem|].
      exists (b :: l1), l2. split; [done|]. cbn. constructor; [done|].
      apply Forall_app in Hb as [Hb1 Hb2]. apply Forall_app. split; [done|]. constructor; [|done].
      specialize (Hne b ltac:(list_mem)). unfold host_lt. lia.
Qed.

Lemma sorted_middle l1 a l2 : StronglySorted host_lt (l1 ++ a :: l2) -> forall b, b ∈ l1 ++ l2 -> host_dim b <> host_dim a.
Proof.
  induction l1 as [|c l1 IH]; cbn; intros [Hs Ha]%StronglySorted_inv b Hb; rewrite Forall_forall in Ha.
  - specialize (Ha b Hb). unfold host_lt in Ha. lia.
  - apply elem_of_cons in Hb as [-> | Hb]; [|by apply IH].
    specialize (Ha a ltac:(apply elem_of_app; right; list_mem)). unfold host_lt in Ha. lia.
Qed.

Lemma elem_of_recounted sp l t :
  Forall (fun a => is_reduction a = false) l ->
  t ∈ recounted sp l <->
  exists l1 l2 d c c', l = l1 ++ out_axis d c :: l2 /\ axes t = l1 ++ out_axis d c' :: l2 /\ c <> c' /\ c' ∈ counts sp d.
Proof.
  intros Hr. unfold recounted. rewrite list_elem_of_bind. split.
  - intros (i & Ht & _). destruct (l !! i) as [[d c r]|] eqn:Hi; [|by apply elem_of_nil in Ht].
    apply list_elem_of_fmap in Ht as (c' & -> & [Hne Hc]%list_elem_of_filter). cbn in *.
    assert (r = false) as -> by (rewrite Forall_lookup in Hr; exact (Hr i _ Hi)).
    exists (take i l), (drop (S i) l), d, c, c'. split_and!; [|done|congruence|done].
    by rewrite <- (take_drop_middle l i _ Hi) at 1.
  - intros (l1 & l2 & d & c & c' & -> & Ht & Hne & Hc). exists (length l1). split.
    + rewrite list_lookup_middle by done. cbn [host_dim is_reduction count].
      apply list_elem_of_fmap. exists c'. split; [|apply list_elem_of_filter; auto].
      rewrite take_app_length, drop_app_ge by lia. replace (S (length l1) - length l1)%nat with 1%nat by lia.
      destruct t; cbn in *. by subst.
    + rewrite length_app. cbn. apply elem_of_seq. lia.
Qed.

Lemma elem_of_removed l t : t ∈ removed l <-> exists l1 l2 a, l = l1 ++ a :: l2 /\ axes t = l1 ++ l2.
Proof.
  unfold removed. rewrite list_elem_of_fmap. split.
  - intros (i & -> & Hi%elem_of_seq). destruct (lookup_lt_is_Some_2 l i) as [a Ha]; [lia|].
    exists (take i l), (drop (S i) l), a. split; [|done]. by rewrite (take_drop_middle l i _ Ha).
  - intros (l1 & l2 & a & -> & Ht). exists (length l1). split.
    + rewrite take_app_length, drop_app_ge by lia. replace (S (length l1) - length l1)%nat with 1%nat by lia.
      destruct t; cbn in *. by subst.
    + rewrite length_app. cbn. apply elem_of_seq. lia.
Qed.

Lemma elem_of_extended sp l t :
  Forall (fun a => is_reduction a = false) l ->
  t ∈ extended sp l <->
  exists d c, (forall b, b ∈ l -> host_dim b <> d) /\ c ∈ counts sp d /\ axes t = l ++ [out_axis d c].
Proof.
  intros Hr. unfold extended. rewrite list_elem_of_bind. split.
  - intros (d & (c & -> & Hc)%list_elem_of_fmap & [Hd _]%list_elem_of_filter). exists d, c. split_and!; [|done|done].
    intros b Hb <-. apply Hd, list_elem_of_fmap_2. apply list_elem_of_filter. rewrite Forall_forall in Hr. auto.
  - intros (d & c & Hd & Hc & Ht). exists d. split.
    + apply list_elem_of_fmap. exists c. split; [|done]. destruct t; cbn in *. by subst.
    + apply list_elem_of_filter. split.
      * intros (b & -> & [_ Hb]%list_elem_of_filter)%list_elem_of_fmap. by eapply Hd.
      * apply output_dims_spec. unfold counts in Hc. destruct (output_counts sp !! d); [eauto | by apply elem_of_nil in Hc].
Qed.

(** From a legal tiling the moves are exactly the legal tilings one level away. *)
Lemma elem_of_tiling_moves sp s t :
  legal_levels sp (axes s) ->
  t ∈ neighbours sp s <-> legal_levels sp (axes t) /\ level_edit (axes s) (axes t).
Proof.
  intros Hs. pose proof (legal_output _ _ Hs) as Hr. unfold neighbours.
  rewrite list_elem_of_filter, (proj2 (fromkeys_spec _)), list_elem_of_fmap, admits_legal.
  setoid_rewrite elem_of_app. setoid_rewrite elem_of_app.
  setoid_rewrite (elem_of_recounted sp (axes s)); [|done]. setoid_rewrite elem_of_removed.
  setoid_rewrite (elem_of_extended sp (axes s)); [|done]. split.
  - intros [[Hne Ht] ([lt] & -> & Hraw)]. split; [done|]. cbn [axes] in *.
    assert (forall k, lt ≡ₚ k -> StronglySorted host_lt k -> Forall (fun a => is_reduction a = false) k ->
              axes (canonical_tiling (mkSpec lt)) = k) as Hcan
      by (intros k Hp Hk Hk2; by rewrite (canonical_sorted lt k)).
    destruct Hs as (Hsf & Hss & _).
    destruct Hraw as [(l1 & l2 & d & c & c' & He & -> & Hcc & _) |
                      [(l1 & l2 & a & He & ->) | (d & c & Hd & Hc & ->)]].
    + rewrite He in *. rewrite (Hcan (l1 ++ out_axis d c' :: l2)); [by constructor | done | |].
      * clear -Hss. apply sorted_hosts. apply sorted_hosts in Hss. by rewrite fmap_app, fmap_cons in Hss |- *.
      * apply Forall_app in Hr as [Hr1 [_ Hr2]%Forall_cons]. apply Forall_app. split; [done | by constructor].
    + rewrite He in *. rewrite (Hcan (l1 ++ l2)); [by constructor | done | |].
      * eapply StronglySorted_sublist; [|exact Hss]. apply sublist_app; [done|]. by constructor.
      * apply Forall_app in Hr as [Hr1 [_ Hr2]%Forall_cons]. by apply Forall_app.
    + destruct (sorted_insert_split (axes s) (out_axis d c) Hss Hd) as (l1 & l2 & He & Hk).
      rewrite He in *. rewrite (Hcan (l1 ++ out_axis d c :: l2)); [by constructor | | done |].
      * rewrite <- Permutation_cons_append. apply Permutation_middle.
      * apply Forall_app in Hr as [Hr1 Hr2]. apply Forall_app. split; [done | by constructor].
  - intros [Ht Hed]. split; [split; [|done]|].
    { intros ->. by apply level_edit_neq in Hed. }
    pose proof (legal_output _ _ Ht) as Hrt. destruct Ht as (Htf & Hts & _). destruct t as [lt]. cbn [axes] in *.
    destruct s as [ls]. cbn [axes] in *. inversion Hed as [l1 l2 d c c' Hcc | l1 l2 a | l1 l2 a]; subst.
    + exists (mkSpec (l1 ++ out_axis d c' :: l2)). split; [by rewrite (canonical_sorted _ _ Hrt Hts)|].
      left. exists l1, l2, d, c, c'. split_and!; [done..|].
      apply Forall_app in Htf as [_ [[_ Hc] _]%Forall_cons]. done.
    + exists (mkSpec ((l1 ++ l2) ++ [a])). split.
      { symmetry. apply canonical_sorted; [done | done |]. rewrite <- Permutation_cons_append. apply Permutation_middle. }
      right; right. exists (host_dim a), (count a).
      apply Forall_app in Htf as [_ [[Har Hc] _]%Forall_cons]. split_and!; [by apply sorted_middle | done |].
      cbn. destruct a as [d c r]; cbn in *. by subst.
    + exists (mkSpec (l1 ++ l2)). split; [by rewrite (canonical_sorted _ _ Hrt Hts)|]. right; left. eauto.
Qed.

Lemma legal_prefix sp l k : legal_levels sp (l ++ k) -> legal_levels sp l.
Proof.
  intros (Hf & Hs & Hl). split_and!.
  - by apply Forall_app in Hf as [? _].
  - eapply StronglySorted_sublist; [|exact Hs]. by apply sublist_inserts_r.
  - rewrite length_app in Hl. lia.
Qed.

(** C39. In a tiling space where no dimension repeats a count, the enumeration lists, once each,
    exactly the specs that admits accepts. *)
Theorem tilings_enumerated sp :
  wf_space sp -> NoDup (enumerate sp) /\ forall spec, spec ∈ enumerate sp <-> admits sp spec = true.
Proof.
  intros Hwf. split; [by apply NoDup_enumerate|]. intros spec. by rewrite elem_of_enumerate, admits_legal.
Qed.

(** The moves of a tiling space explore all of it.  From an admitted tiling,
    [neighbours] offers exactly the other admitted tilings that differ by one
    level (a count changed, a level added or removed); every move can be taken
    back; and every admitted tiling is reached from the untiled one. *)
Theorem tiling_moves sp s :
  admits sp s = true ->
  (forall t, t ∈ neighbours sp s <-> admits sp t = true /\ level_edit (axes s) (axes t)) /\
  (forall t, t ∈ neighbours sp s -> s ∈ neighbours sp t) /\
  rtc (fun a b => b ∈ neighbours sp a) (mkSpec []) s.
Proof.
  rewrite admits_legal. intros Hs. setoid_rewrite admits_legal. split_and!.
  - intros t. by apply elem_of_tiling_moves.
  - intros t [Ht He]%elem_of_tiling_moves; [|done]. apply elem_of_tiling_moves; [done|]. split; [done | by apply level_edit_sym].
  - destruct s as [l]. cbn [axes] in Hs. induction l as [|a l IH] using rev_ind; [constructor|].
    pose proof (legal_prefix _ _ _ Hs) as Hp. eapply rtc_r; [by apply IH|]. apply elem_of_tiling_moves; [done|].
    split; [done|]. cbn [axes]. rewrite <- (app_nil_r l) at 1. constructor.
Qed.

(** ** Divisors and the cap *)

Lemma elem_of_exact_divisors n d : 1 < n -> d ∈ exact_divisors n <-> 0 < d /\ (d | n).
Proof.
  intros Hn. unfold exact_divisors. rewrite elem_of_py_sorted, elem_of_remove_dups, list_elem_of_bind.
  pose proof (Z.sqrt_spec n ltac:(lia)) as [Hs1 Hs2]. pose proof (Z.sqrt_nonneg n). split.
  - intros (i & Hd & (k & -> & Hk%elem_of_seq)%list_elem_of_fmap).
    destruct (Z.eqb_spec (n mod Z.of_nat k) 0) as [Hm | Hm]; [|by apply elem_of_nil in Hd].
    apply Z.mod_divide in Hm as [q Hq]; [|lia]. assert (n / Z.of_nat k = q) as Hdiv by (rewrite Hq; apply Z.div_mul; lia).
    rewrite Hdiv in Hd. apply elem_of_cons in Hd as [-> | ->%list_elem_of_singleton].
    + split; [lia|]. by exists q.
    + split; [nia|]. exists (Z.of_nat k). lia.
  - intros [Hd [q Hq]]. assert (0 < q) as Hq0 by nia.
    assert (forall i j, 0 < i -> n = i * j -> i <= Z.sqrt n ->
              i ∈ Z.of_nat <$> seq 1 (Z.to_nat (Z.sqrt n)) /\ n mod i = 0 /\ n / i = j) as Hin.
    { intros i j Hi He Hle. split_and!.
      - apply list_elem_of_fmap. exists (Z.to_nat i). split; [lia|]. apply elem_of_seq. lia.
      - rewrite He, Z.mul_comm. apply Z.mod_mul. lia.
      - rewrite He, Z.mul_comm. apply Z.div_mul. lia. }
    destruct (decide (d <= Z.sqrt n)) as [Hle | Hgt].
    + destruct (Hin d q) as (H1 & H2 & H3); [done | lia | done|]. exists d. rewrite H2. split; [|done]. cbn. list_mem.
    + destruct (Hin q d) as (H1 & H2 & H3); [done | done | nia|]. exists q. rewrite H2, H3. split; [|done]. cbn. list_mem.
Qed.

Lemma py_sorted_lt (l : list Z) : NoDup l -> StronglySorted Z.lt (py_sorted Z.leb l).
Proof.
  intros Hnd. assert (StronglySorted Z.le (py_sorted Z.leb l)) as Hle by (apply py_sorted_coarse; lia).
  assert (NoDup (py_sorted Z.leb l)) as H by (by rewrite py_sorted_perm). clear Hnd.
  induction Hle as [|x k Hk IH Hx]; [constructor|]. apply NoDup_cons in H as [Hn Hd].
  constructor; [auto|]. rewrite Forall_forall in Hx |- *. intros y Hy. specialize (Hx y Hy).
  destruct (decide (x = y)) as [-> | ?]; [done | lia].
Qed.

Lemma exact_divisors_sorted n : StronglySorted Z.lt (exact_divisors n).
Proof. apply py_sorted_lt, NoDup_remove_dups. Qed.

(** What every step of the cap keeps: a duplicate-free selection of legal splits
    that only grows, by at most one. *)
Record cap_step (legal s s' : list Z) (n : nat) : Prop := {
  cap_sub : (forall x, x ∈ s -> x ∈ legal) -> forall x, x ∈ s' -> x ∈ legal;
  cap_nodup : NoDup s -> NoDup s';
  cap_mono : forall x, x ∈ s -> x ∈ s';
  cap_len : (length s' <= length s + n)%nat
}.

Lemma cap_add_step legal x s : cap_step legal s (cap_add legal x s) 1 /\ (x ∈ legal -> x ∈ cap_add legal x s).
Proof.
  unfold cap_add. destruct (bool_decide _) eqn:E; split_bools.
  - destruct E as [Hx Hs]. split; [split|].
    + intros H y [? | ->%list_elem_of_singleton]%elem_of_app; auto.
    + intros H. apply NoDup_app. split_and!; [done | | apply NoDup_singleton]. intros y Hy ->%list_elem_of_singleton. done.
    + intros y Hy. list_mem.
    + rewrite length_app. simpl. lia.
    + intros _. list_mem.
  - split; [split; auto; lia|]. intros Hx. destruct (decide (x ∈ s)); [done|]. tauto.
Qed.

Lemma cap_step_trans legal a b c m n k :
  cap_step legal a b m -> cap_step legal b c n -> (m + n <= k)%nat -> cap_step legal a c k.
Proof. intros [H1 H2 H3 H4] [K1 K2 K3 K4] Hk. split; auto. lia. Qed.

Lemma add_small_step legal l : forall s, (length s < 5)%nat ->
  cap_step legal s (add_small legal l s) (5 - length s).
Proof.
  induction l as [|x l IH]; intros s Hs; cbn [add_small]; [split; auto; lia|].
  set (s' := if 1 <? x then cap_add legal x s else s).
  assert (cap_step legal s s' 1) as H1 by (unfold s'; case_match; [apply cap_add_step | split; auto; lia]).
  pose proof (cap_len _ _ _ _ H1). cbn [Nat.min _MAX_SPLITS_PER_DIM]. destruct (Nat.leb_spec 5 (length s')).
  - destruct H1 as [? ? ? ?]. split; auto. lia.
  - specialize (IH s' ltac:(lia)). destruct H1 as [? ? ? ?], IH as [? ? ? ?]. split; auto. lia.
Qed.

Lemma add_large_step legal l : forall s, (length s < 16)%nat ->
  cap_step legal s (add_large legal l s) (16 - length s).
Proof.
  induction l as [|x l IH]; intros s Hs; cbn [add_large]; [split; auto; lia|].
  destruct (cap_add_step legal x s) as [H1 _]. pose proof (cap_len _ _ _ _ H1).
  unfold _MAX_SPLITS_PER_DIM. destruct (Nat.leb_spec 16 (length (cap_add legal x s))).
  - destruct H1 as [? ? ? ?]. split; auto. lia.
  - specialize (IH _ H0). destruct H1 as [? ? ? ?], IH as [? ? ? ?]. split; auto. lia.
Qed.

Lemma add_all_step legal l : forall s,
  cap_step legal s (foldl (fun s x => cap_add legal x s) s l) (length l) /\
  forall x, x ∈ l -> x ∈ legal -> x ∈ foldl (fun s x => cap_add legal x s) s l.
Proof.
  induction l as [|x l IH]; intros s; cbn [foldl length].
  - split; [split; auto; lia|]. intros x H. by apply elem_of_nil in H.
  - destruct (cap_add_step legal x s) as [H1 Hx]. destruct (IH (cap_add legal x s)) as [H2 Hl].
    split; [by eapply cap_step_trans; [exact H1 | exact H2 | lia]|].
    intros y [-> | Hy]%elem_of_cons Hleg; [|auto]. by apply (cap_mono _ _ _ _ H2), Hx.
Qed.

(** The cap: at most sixteen of the candidates, ascending, among them one and the
    least one that reaches the required count. *)
Lemma cap_split_candidates_spec legal req :
  StronglySorted Z.lt legal ->
  let r := _cap_split_candidates legal req in
  StronglySorted Z.lt r /\ (forall x, x ∈ r -> x ∈ legal) /\ (length r <= 16)%nat /\
  (1 ∈ legal -> 1 ∈ r) /\
  (forall x, x ∈ legal -> req <= x -> (forall y, y ∈ legal -> req <= y -> x <= y) -> x ∈ r).
Proof.
  intros Hs. unfold _cap_split_candidates. destruct (Nat.leb_spec (length legal) _MAX_SPLITS_PER_DIM) as [Hl | Hl];
    [cbn zeta; split_and!; auto|].
  set (s0 := cap_add legal 1 []). set (s1 := add_small legal legal s0).
  set (s2 := foldl (fun s split => cap_add legal split s) s1 (around_required legal req)).
  set (s3 := add_large legal (reverse legal) s2). cbn zeta.
  destruct (cap_add_step legal 1 []) as [H0 Hone]. fold s0 in H0, Hone.
  pose proof (cap_len _ _ _ _ H0) as L0. cbn [length] in L0.
  pose proof (add_small_step legal legal s0 ltac:(lia)) as H1. fold s1 in H1. pose proof (cap_len _ _ _ _ H1) as L1.
  destruct (add_all_step legal (around_required legal req) s1) as [H2 Hreq]. fold s2 in H2, Hreq.
  pose proof (cap_len _ _ _ _ H2) as L2.
  assert (length (around_required legal req) <= 6)%nat as L6.
  { unfold around_required. rewrite length_take. lia. }
  pose proof (add_large_step legal (reverse legal) s2 ltac:(lia)) as H3. fold s3 in H3.
  pose proof (cap_len _ _ _ _ H3) as L3.
  assert (NoDup s3) as Hnd by (apply H3, H2, H1, H0; constructor).
  assert (forall x, x ∈ s3 -> x ∈ legal) as Hsub.
  { apply H3, H2, H1, H0. intros x Hx. by apply elem_of_nil in Hx. }
  rewrite take_ge by (rewrite length_py_sorted; unfold _MAX_SPLITS_PER_DIM; lia).
  split_and!; [by apply py_sorted_lt | intros x; rewrite elem_of_py_sorted; auto | rewrite length_py_sorted; lia | |].
  - intros H. apply elem_of_py_sorted, H3, H2, H1, Hone, H.
  - intros x Hx Hge Hmin. apply elem_of_py_sorted, H3, Hreq; [|done]. unfold around_required.
    destruct (list_find (fun split => req <= split) legal) as [[i y]|] eqn:Hf.
    + apply list_find_Some in Hf as (Hy & Hyr & Hfirst). assert (x = y) as ->.
      { assert (x <= y) as Hle by (apply Hmin; [by eapply list_elem_of_lookup_2 | done]).
        apply list_elem_of_lookup in Hx as [j Hj]. destruct (Nat.lt_trichotomy i j) as [Hij | [-> | Hij]].
        - pose proof (StronglySorted_lookup_lt _ _ _ _ _ _ Hs Hij Hy Hj) as Hc. lia.
        - congruence.
        - by destruct (Hfirst j x Hj Hij). }
      apply (list_elem_of_lookup_2 _ (i - (i - 2))%nat). rewrite lookup_take_lt by lia. rewrite lookup_drop.
      by replace (i - 2 + (i - (i - 2)))%nat with i by lia.
    + exfalso. apply list_find_None in Hf. rewrite Forall_forall in Hf. by eapply Hf.
Qed.

(** ** What the built space contains *)

(** A count offered for an output dimension. *)
Record offered (op : tile_op) (dim : nat) (c : Z) : Prop := {
  off_stick : stick_host_dim op <> Some (Z.of_nat dim);
  off_divides : exists full, default [] (ranges op) !! dim = Some (Some full) /\ 1 < full /\ (c | full) /\
    (is_reduction_data op = true -> 1 < full / c);
  off_range : 1 < c <= _MAX_AUTO_TILE_SPLIT_COUNT;
  off_aligned : split_aligned op (Z.of_nat dim) c = true
}.

(** A dimension the lowering resolves. *)
Definition lowerable (op : tile_op) (axis : TileAxis) : Prop :=
  exists v, resolve_axis op axis = Ok (Some v).

Lemma py_filter_out_sublist {A} (p : A -> res bool) l k : py_filter_out p l = Ok k -> k `sublist_of` l.
Proof.
  revert k. induction l as [|x l IH]; cbn; intros k Hk; [by injection Hk as <-|].
  apply bind_Ok in Hk as (b & _ & Hk). apply bind_Ok in Hk as (k' & Hk' & [= <-]).
  destruct b; constructor; auto.
Qed.

Lemma output_counts_offered op dim cs :
  stick_host_dim op <> Some (Z.of_nat dim) -> _output_split_counts op dim = Ok cs ->
  StronglySorted Z.lt cs /\ forall c, c ∈ cs -> offered op dim c.
Proof.
  intros Hst. unfold _output_split_counts, _split_candidates_for_host_dim, data_ranges.
  destruct (ranges op) as [rs|] eqn:Hrs; cbn [mbind res_bind]; [|done].
  destruct (rs !! dim) as [[full|]|] eqn:Hd; cbn [mbind res_bind];
    [|intros [= <-]; split; [constructor | intros c H; by apply elem_of_nil in H]..].
  unfold raise_if. destruct (Z.leb_spec full 1) as [Hf | Hf]; cbn [mbind res_bind].
  { intros [= <-]. split; [constructor | intros c H; by apply elem_of_nil in H]. }
  intros [= <-]. set (legal := filter _ (exact_divisors full)).
  assert (StronglySorted Z.lt legal) as Hl.
  { eapply StronglySorted_sublist; [apply sublist_filter | apply exact_divisors_sorted]. }
  destruct (cap_split_candidates_spec legal 1 Hl) as (Hs & Hsub & _). split.
  - eapply StronglySorted_sublist; [apply sublist_filter | exact Hs].
  - intros c [Hc1 Hc%Hsub]%list_elem_of_filter. unfold legal in Hc.
    apply list_elem_of_filter in Hc as [Hc [Hpos Hdiv]%elem_of_exact_divisors]; [|done].
    destruct Hc as [-> | (Hu & Hm & Ha)]; [lia|]. split; [done | | done | done].
    exists full. rewrite Hrs. split_and!; [done | done | done|]. intros Hr. destruct Hu; [congruence | done].
Qed.

Lemma lowering_accepts_spec op axis : _lowering_accepts op axis = Ok true -> symbolic_extent op = false /\ lowerable op axis.
Proof.
  unfold _lowering_accepts, try_resolve_tile_axis_loop_vars. intros (vs & Hvs & He)%bind_Ok.
  injection He as He. split_bools. destruct He as [v ->]. cbn [is_untiled axes] in Hvs.
  unfold is_untiled in Hvs. rewrite bool_decide_false in Hvs by done. cbn [negb andb] in Hvs.
  destruct (symbolic_extent op); [done|]. split; [done|]. cbn [resolve_axes axes] in Hvs.
  apply bind_Ok in Hvs as (o & Ho & Hvs). unfold lowerable. destruct o as [w|]; [eauto | done].
Qed.

Lemma resolve_axis_count op d c c' r : resolve_axis op (mkAxis d c r) = resolve_axis op (mkAxis d c' r).
Proof. done. Qed.

(** The invariant of the loop over the output dimensions. *)
Definition space_ok (op : tile_op) (ms : nat) (m : gmap Z (list Z)) : Prop :=
  map_Forall (fun d cs => NoDup cs /\ (length cs <= ms)%nat /\ symbolic_extent op = false /\
    exists dim, d = Z.of_nat dim /\ forall c, c ∈ cs -> offered op dim c /\ lowerable op (out_axis d c)) m.

Lemma StronglySorted_lt_NoDup (l : list Z) : StronglySorted Z.lt l -> NoDup l.
Proof.
  induction 1 as [|x l Hl IH Hx]; [constructor|]. apply NoDup_cons. split; [|done].
  intros H. rewrite Forall_forall in Hx. specialize (Hx x H). lia.
Qed.

Lemma add_dim_ok op stick ms readers dim m m' :
  stick_host_dim op = Some stick -> space_ok op ms m ->
  add_dim op stick ms readers dim m = Ok m' -> space_ok op ms m'.
Proof.
  intros Hst Hm. unfold add_dim. destruct (Z.eqb_spec (Z.of_nat dim) stick) as [|Hne]; [intros [= <-]; done|].
  intros (all & Hall & Hrun)%bind_Ok. apply bind_Ok in Hrun as (kept & Hk%py_filter_out_sublist & Hrun).
  destruct (output_counts_offered op dim all) as [Hs Hoff]; [congruence | done|].
  assert (take ms kept `sublist_of` all) as Hsub by (etrans; [apply sublist_take | done]).
  assert (length (take ms kept) <= ms)%nat as Hlen by (rewrite length_take; lia).
  destruct (take ms kept) as [|c0 cs] eqn:Ht; [injection Hrun as <-; done|]. apply bind_Ok in Hrun as (ok & Hok & [= <-]).
  destruct ok; [|done]. apply lowering_accepts_spec in Hok as [Hsym [v Hv]]. apply map_Forall_insert_2; [|done].
  split_and!; [| done | done |].
  - apply StronglySorted_lt_NoDup. by eapply StronglySorted_sublist.
  - exists dim. split; [done|]. intros c Hc. split; [apply Hoff; by eapply elem_of_sublist|]. exists v. exact Hv.
Qed.

Lemma build_tiling_space_ok op md ms readers sp :
  build_tiling_space op md ms readers = Ok sp -> max_dims sp = md /\ space_ok op ms (output_counts sp).
Proof.
  unfold build_tiling_space. intros (m & Hm & [= <-])%bind_Ok. split; [done|]. cbn [output_counts].
  destruct (if _tileable op then stick_host_dim op else None) as [stick|] eqn:Hst; [|injection Hm as <-; apply map_Forall_empty].
  destruct (_static_extents op); [|injection Hm as <-; apply map_Forall_empty].
  assert (stick_host_dim op = Some stick) as Hst' by (by destruct (_tileable op)).
  revert Hm. apply (for_each_ind _ (fun _ m => space_ok op ms m)); [|apply map_Forall_empty].
  intros dn dim rest m1 m2 _ H1 H2. by eapply add_dim_ok.
Qed.

Lemma space_ok_wf sp op ms : space_ok op ms (output_counts sp) -> wf_space sp.
Proof. intros H d cs Hd. by destruct (H d cs Hd). Qed.

Lemma resolve_axes_all op l :
  Forall (lowerable op) l -> exists vs, resolve_axes op l = Ok (Some vs) /\ length vs = length l.
Proof.
  induction 1 as [|a l [v Hv] _ (vs & Hvs & Hl)]; cbn [resolve_axes]; [by exists []|].
  rewrite Hv. cbn [mbind res_bind]. rewrite Hvs. cbn. exists (v :: vs). split; [done | simpl; lia].
Qed.

Lemma legal_levels_offered op ms sp l :
  space_ok op ms (output_counts sp) -> legal_levels sp l ->
  forall a, a ∈ l -> symbolic_extent op = false /\ lowerable op a /\
    exists dim, host_dim a = Z.of_nat dim /\ offered op dim (count a).
Proof.
  intros Hok [Hf _] a Ha. rewrite Forall_forall in Hf. destruct (Hf a Ha) as [Hr Hc]. unfold counts in Hc.
  destruct (output_counts sp !! host_dim a) as [cs|] eqn:Hd; [|by apply elem_of_nil in Hc].
  destruct (Hok _ _ Hd) as (_ & _ & Hsym & dim & Hdim & Hall). cbn in Hc. destruct (Hall _ Hc) as [Ho Hl].
  split_and!; [done | | by exists dim]. destruct a as [d c r]; cbn in *. by subst r.
Qed.

(** ** The canonical order *)

Lemma axis_compare_eq a b : axis_compare a b = Eq <-> a = b.
Proof.
  destruct a as [d c r], b as [d' c' r']. unfold axis_compare. cbn.
  destruct r, r'; cbn; try (split; congruence);
    destruct (Z.compare_spec d d'), (Z.compare_spec c c'); split; try congruence; intros [=]; lia.
Qed.

Lemma axis_compare_opp a b : axis_compare b a = CompOpp (axis_compare a b).
Proof.
  unfold axis_compare. destruct (is_reduction a), (is_reduction b); cbn; try done;
    rewrite (Z.compare_antisym (host_dim a)); destruct (host_dim a ?= host_dim b); cbn; try done;
    apply Z.compare_antisym.
Qed.

Lemma axis_compare_trans a b c : axis_compare a b = Lt -> axis_compare b c = Lt -> axis_compare a c = Lt.
Proof.
  unfold axis_compare. destruct (is_reduction a), (is_reduction b), (is_reduction c); cbn; try done;
    destruct (Z.compare_spec (host_dim a) (host_dim b)), (Z.compare_spec (host_dim b) (host_dim c)); try done;
    destruct (Z.compare_spec (host_dim a) (host_dim c)); try done; try lia;
    rewrite !Z.compare_lt_iff; lia.
Qed.

Lemma axes_compare_opp l k : axes_compare k l = CompOpp (axes_compare l k).
Proof.
  revert k. induction l as [|a l IH]; intros [|b k]; cbn; try done.
  rewrite (axis_compare_opp a b). destruct (axis_compare a b); cbn; auto.
Qed.

Lemma axes_compare_trans l k m :
  axes_compare l k <> Gt -> axes_compare k m <> Gt -> axes_compare l m <> Gt.
Proof.
  revert k m. induction l as [|a l IH]; intros [|b k] [|c m]; cbn; try done.
  destruct (axis_compare a b) eqn:E1; try done.
  - apply axis_compare_eq in E1 as ->. destruct (axis_compare b c); try done. apply IH.
  - destruct (axis_compare b c) eqn:E2; try done.
    + apply axis_compare_eq in E2 as ->. by rewrite E1.
    + by rewrite (axis_compare_trans a b c).
Qed.

Lemma canonical_leb_total s t : canonical_leb s t = false -> canonical_leb t s = true.
Proof.
  unfold canonical_leb. destruct (Nat.compare_spec (depth s) (depth t)), (Nat.compare_spec (depth t) (depth s)); try done; try lia.
  rewrite (axes_compare_opp (axes s)). by destruct (axes_compare (axes s) (axes t)).
Qed.

Lemma canonical_leb_trans s t u : canonical_leb s t = true -> canonical_leb t u = true -> canonical_leb s u = true.
Proof.
  unfold canonical_leb. destruct (Nat.compare_spec (depth s) (depth t)), (Nat.compare_spec (depth t) (depth u)),
    (Nat.compare_spec (depth s) (depth u)); try done; try lia.
  pose proof (axes_compare_trans (axes s) (axes t) (axes u)) as H2.
  destruct (axes_compare (axes s) (axes t)), (axes_compare (axes t) (axes u)), (axes_compare (axes s) (axes u));
    try done; intros _ _; exfalso; by apply H2.
Qed.

(** The options before truncation. *)
Definition all_options (options : list TileSpec) : list TileSpec := _finalize_options options None.

Lemma is_untiled_spec s : is_untiled s = true <-> s = mkSpec [].
Proof. unfold is_untiled. rewrite bool_decide_eq_true. destruct s; cbn. split; congruence. Qed.

Lemma all_options_spec options :
  StronglySorted (fun s t => canonical_leb s t = true) (all_options options) /\ NoDup (all_options options) /\
  head (all_options options) = Some (mkSpec []) /\
  forall s, s ∈ all_options options <-> s = mkSpec [] \/ s ∈ options.
Proof.
  unfold all_options, _finalize_options. destruct (fromkeys_spec options) as [Hnd Hel].
  set (rest := py_sorted canonical_leb _).
  assert (forall s, s ∈ rest <-> s <> mkSpec [] /\ s ∈ options) as Hrest.
  { intros s. unfold rest. rewrite elem_of_py_sorted, list_elem_of_filter, Hel.
    rewrite <- not_true_iff_false, is_untiled_spec. done. }
  split_and!; [| | done |].
  - constructor.
    + apply py_sorted_coarse; [done | apply canonical_leb_total | apply canonical_leb_trans].
    + apply Forall_forall. intros s [Hs _]%Hrest. destruct s as [[|a l]]; [done|]. done.
  - apply NoDup_cons. split; [intros [H _]%Hrest; done|]. unfold rest. rewrite py_sorted_perm. by apply NoDup_filter.
  - intros s. rewrite elem_of_cons, Hrest. destruct (decide (s = mkSpec [])); naive_solver.
Qed.

Lemma finalize_take options mo :
  _finalize_options options mo = match mo with Some n => take n (all_options options) | None => all_options options end.
Proof. by destruct mo. Qed.

(** A reduction level the enumeration offers. *)
Record offered_reduction (op : tile_op) (a : TileAxis) (v : string) : Prop := {
  offr_red : is_reduction_data op = true /\ is_reduction a = true /\ _get_red_var op (host_dim a) = Ok (Some v);
  offr_divides : exists full, dget (iter_space op) v = Some (Some full) /\ (count a | full) /\ 1 < full / count a;
  offr_range : 1 < count a <= _MAX_AUTO_TILE_SPLIT_COUNT;
  offr_stick : cuts_input_stick op v (count a) = false
}.

Lemma reduction_options_offered op ms pos l :
  is_reduction_data op = true -> reduction_options op ms pos = Ok l ->
  forall s, s ∈ l -> exists a v, axes s = [a] /\ offered_reduction op a v.
Proof.
  intros Hr. unfold reduction_options, _reduction_split_counts.
  intros (cs & Hcs & [= <-])%bind_Ok s (c & -> & Hc)%list_elem_of_fmap.
  apply bind_Ok in Hcs as (rv & Hrv & Hcs). assert (forall B : Prop, cs = [] -> B) as Hnil.
  { intros B ->. rewrite take_nil in Hc. by apply elem_of_nil in Hc. }
  destruct rv as [v|]; [|apply Hnil; by injection Hcs].
  destruct (dget (iter_space op) v) as [[full|]|] eqn:Hd; [|apply Hnil; by injection Hcs..].
  destruct (Z.leb_spec full 1); [apply Hnil; by injection Hcs|]. injection Hcs as <-.
  eapply elem_of_sublist in Hc; [|apply sublist_take].
  apply list_elem_of_filter in Hc as [(H1 & H2 & H3 & H4) [_ Hdiv]%elem_of_exact_divisors]; [|lia].
  exists (mkAxis (Z.of_nat pos) c true), v. split; [done|]. split; cbn; [done | eauto | done | done].
Qed.

Lemma all_reduction_options_offered e op ms l :
  all_reduction_options e op ms = Ok l ->
  forall s, s ∈ l -> symbolic_extent op = false /\ exists a v, axes s = [a] /\ offered_reduction op a v.
Proof.
  unfold all_reduction_options. destruct (_ && _ && _ && _ && _) eqn:E; [|intros [= <-] s H; by apply elem_of_nil in H].
  split_bools. intros (n & _ & Hl)%bind_Ok. apply bind_Ok in Hl as (ls & Hls%py_map_Ok & [= <-]). intros s Hs.
  split; [unfold _static_extents in *; split_bools; done|].
  apply list_elem_of_In, in_concat in Hs as (k & Hk%list_elem_of_In & Hin%list_elem_of_In).
  apply list_elem_of_lookup in Hk as [i Hi]. destruct (Forall2_lookup_r _ _ _ _ _ Hls Hi) as (pos & _ & Hpos).
  by eapply reduction_options_offered.
Qed.

(** The menu of tilings a solver sees is the beginning of one fixed list: the
    untiled option first, then in canonical order, once each, every tiling the
    operation's space admits and every reduction tiling.  Truncation only cuts
    the tail, so the untiled option survives any positive limit. *)
Theorem tile_options_prefix e op md ms mo readers opts :
  enumerate_tile_options e op md ms mo readers = Ok opts ->
  exists sp more all, build_tiling_space op md ms readers = Ok sp /\ all_reduction_options e op ms = Ok more /\
    opts = match mo with Some n => take n all | None => all end /\
    head all = Some (mkSpec []) /\ NoDup all /\
    StronglySorted (fun s t => canonical_leb s t = true) all /\
    forall s, s ∈ all <-> admits sp s = true \/ s ∈ more.
Proof.
  unfold enumerate_tile_options. intros (sp & Hsp & Hrun)%bind_Ok. apply bind_Ok in Hrun as (more & Hmore & [= <-]).
  destruct (all_options_spec (enumerate sp ++ more)) as (H1 & H2 & H3 & H4).
  exists sp, more, (all_options (enumerate sp ++ more)). split_and!; try done.
  intros s. rewrite H4, elem_of_app, elem_of_enumerate, admits_legal. split; [|tauto].
  intros [-> | ?]; [|done]. left. split_and!; [constructor | constructor | cbn; lia].
Qed.

(** Every tiling offered is sound.  An output tiling never touches the stick
    dimension, splits every dimension into 2 to 64 equal tiles (never a unit tile
    of a reduction) along stick boundaries, and is accepted by the resolver that
    lowers it.  A reduction tiling has one level, which divides its loop into 2 to
    64 tiles of more than one element without cutting an input stick, and is
    accepted by the resolver when no input is walked twice along that loop. *)
Theorem tile_options_sound e op md ms mo readers opts spec :
  enumerate_tile_options e op md ms mo readers = Ok opts -> spec ∈ opts ->
  ((forall a, a ∈ axes spec -> is_reduction a = false /\
      exists dim, host_dim a = Z.of_nat dim /\ offered op dim (count a)) /\
   (depth spec <= md)%nat /\
   exists vs, try_resolve_tile_axis_loop_vars op spec = Ok (Some vs) /\ length vs = depth spec) \/
  (exists a v, axes spec = [a] /\ offered_reduction op a v /\
     (repeated_read op v = false -> try_resolve_tile_axis_loop_vars op spec = Ok (Some [v]))).
Proof.
  unfold enumerate_tile_options. intros (sp & Hsp & Hrun)%bind_Ok Hin. apply bind_Ok in Hrun as (more & Hmore & [= <-]).
  destruct (build_tiling_space_ok _ _ _ _ _ Hsp) as [Hmd Hok].
  assert (spec ∈ all_options (enumerate sp ++ more)) as Hall.
  { rewrite finalize_take in Hin. destruct mo; [|done]. eapply elem_of_sublist; [exact Hin | apply sublist_take]. }
  apply all_options_spec in Hall. assert (legal_levels sp (axes spec) \/ spec ∈ more) as [Hl | Hm].
  { destruct Hall as [-> | [?%elem_of_enumerate | ?]%elem_of_app]; [left | by left | by right].
    split_and!; [constructor | constructor | cbn; lia]. }
  - left. pose proof (legal_levels_offered _ _ _ _ Hok Hl) as Hoff. split_and!.
    + intros a Ha. destruct (Hoff a Ha) as (_ & _ & ?). split; [|done]. apply legal_output in Hl.
      rewrite Forall_forall in Hl. auto.
    + destruct Hl as (_ & _ & ?). unfold depth. lia.
    + unfold try_resolve_tile_axis_loop_vars. assert (negb (is_untiled spec) && symbolic_extent op = false) as ->.
      { destruct spec as [[|a l]]; [done|]. destruct (Hoff a) as [-> _]; [cbn; list_mem|]. apply andb_false_r. }
      apply resolve_axes_all, Forall_forall. intros a Ha. by destruct (Hoff a Ha) as (_ & ? & _).
  - right. destruct (all_reduction_options_offered _ _ _ _ Hmore _ Hm) as (Hsym & a & v & Ha & Ho).
    exists a, v. split_and!; [done | done|]. intros Hrep. unfold try_resolve_tile_axis_loop_vars.
    rewrite Hsym, andb_false_r, Ha. destruct (offr_red _ _ _ Ho) as (_ & Hra & Hrv). cbn [resolve_axes].
    unfold resolve_axis. rewrite Hra, Hrv. cbn [mbind res_bind]. by rewrite Hrep.
Qed.

(** ** Examples and witnesses *)

(** A pointwise operation of shape 4 x 6 x 64 whose last dimension is the stick. *)
Definition example_op : tile_op :=
  mkTileOp true true false false (Some 2) false (Some [Some 4; Some 6; Some 64]) [] [Some 4; Some 6; Some 64] true
    [["d0"]; ["d1"]; ["d2"]]%string [("d0", Some 4); ("d1", Some 6); ("d2", Some 64)]%string
    (Some (list_to_set ["d0"; "d1"; "d2"]%string)) [["d0"; "d1"; "d2"]]%string
    (fun _ => false) (fun _ _ => true) (fun _ _ => false).

(** A reduction over a repeated input: [x.repeat(1, 2).sum(1)]. *)
Definition repeat_sum_op : tile_op :=
  mkTileOp true true false false (Some 0) true (Some [Some 64]) [Some 8] [Some 64] true
    [["d0"]]%string [("d0", Some 64); ("d1", Some 8)]%string
    (Some {["d0"%string]}) [["d0"; "d1"]]%string
    (fun v => bool_decide (v = "d1"%string)) (fun _ _ => true) (fun _ _ => false).

Definition example_space : TilingSpace := mkTilingSpace 2 (<[0 := [2; 4]]> (<[1 := [2; 3; 6]]> ∅)).

Lemma tilings_enumerated_witness : NoDup (enumerate example_space).
Proof.
  refine (proj1 (tilings_enumerated example_space _)).
  apply (bool_decide_unpack _). vm_compute. exact I.
Defined.

Lemma tiling_moves_witness :
  rtc (fun a b => b ∈ neighbours example_space a) (mkSpec []) (mkSpec [out_axis 0 4; out_axis 1 3]).
Proof. refine (proj2 (proj2 (tiling_moves example_space (mkSpec [out_axis 0 4; out_axis 1 3]) _))). reflexivity. Defined.

Lemma tile_options_prefix_witness :
  exists opts sp (more all : list TileSpec), enumerate_tile_options true example_op 2 16 (Some 64%nat) [] = Ok opts /\
    build_tiling_space example_op 2 16 [] = Ok sp /\ opts = take 64 all /\ head all = Some (mkSpec []) /\
    forall s, s ∈ all <-> admits sp s = true \/ s ∈ more.
Proof.
  destruct (enumerate_tile_options true example_op 2 16 (Some 64%nat) []) as [opts|] eqn:E; [|vm_compute in E; discriminate E].
  destruct (tile_options_prefix true example_op 2 16 (Some 64%nat) [] opts E) as (sp & more & all & H1 & _ & H2 & H3 & _ & _ & H4).
  exists opts, sp, more, all. split; [reflexivity|]. split; [exact H1|]. split; [exact H2|]. split; [exact H3 | exact H4].
Defined.

Lemma tile_options_sound_witness :
  exists opts, enumerate_tile_options true example_op 2 16 (Some 64%nat) [] = Ok opts /\
    mkSpec [out_axis 0 2; out_axis 1 3] ∈ opts /\
    exists vs, try_resolve_tile_axis_loop_vars example_op (mkSpec [out_axis 0 2; out_axis 1 3]) = Ok (Some vs).
Proof.
  destruct (enumerate_tile_options true example_op 2 16 (Some 64%nat) []) as [opts|] eqn:E; [|vm_compute in E; discriminate E].
  exists opts. split; [reflexivity|].
  assert (mkSpec [out_axis 0 2; out_axis 1 3] ∈ opts) as Hin.
  { vm_compute in E. injection E as <-. apply (bool_decide_unpack _). vm_compute. exact I. }
  split; [exact Hin|].
  destruct (tile_options_sound true example_op 2 16 (Some 64%nat) [] opts _ E Hin) as [(_ & _ & vs & Hvs & _) | (a & v & Ha & _)].
  - exists vs. exact Hvs.
  - discriminate Ha.
Defined.

(** The reduction options are not put through the whole resolver: for a sum over an
    input repeated along the reduced dimension, a reduction tiling is offered that
    [try_resolve_tile_axis_loop_vars] rejects. *)
Theorem reduction_option_not_lowered :
  exists opts spec, enumerate_tile_options true repeat_sum_op 2 16 (Some 64%nat) [] = Ok opts /\
    spec ∈ opts /\ try_resolve_tile_axis_loop_vars repeat_sum_op spec = Ok None.
Proof.
  eexists _, (mkSpec [mkAxis 0 2 true]). split; [vm_compute; reflexivity|]. split; [|reflexivity].
  apply (bool_decide_unpack _). vm_compute. exact I.
Qed.
