(* ===== verification/TilingGroups.v ===== *)
(** * Applying coarse tilings to a graph ([scratchpad/coarse_tiling.py])

    The solver's choice is one tiling per operation.  [derive_tiling_groups] cuts the
    operation list into runs that share a loop nest, [apply_tilings] mints the hint
    ids of every group and stamps them on its operations, and [planned_splits]
    restates the chosen core divisions on the tiled operations.

    The record [graph_op] holds what this code reads of an operation.  Comparing the
    slices two operations own of a shared buffer needs sympy views; the view of an
    access under a tiling and the comparison of two views are parameters.  The
    rewrite of the loop bodies ([coarse_tile_post_stickify]) is another component:
    [apply_tilings] stops where it is called. *)

From S2P Require Import Prelude PyDict PlanSolver Tilings.

Record DimHint := mkHint {
  split_count : Z;
  loop_var : option string;
  hint_is_reduction : bool;
  hint_id : Z;
  loop_var_range : option Z
}.

(** A dependency; [dep_memory] is [isinstance(dep, MemoryDep)]. *)
Record Dep := mkDep { dep_name : string; dep_memory : bool; dep_index : nat }.

Record graph_op := mkGraphOp {
  get_operation_name : string;
  get_name : string;
  facts : tile_op;
  reads : list Dep;
  writes : list Dep;
  dim_hints : list DimHint;
  loop_group_id : option (list Z)
}.

(** ** Lowering one tiling *)

Definition tile_spec_to_dim_hints (op : tile_op) (spec : TileSpec) (hint_ids : list Z) : res (list DimHint) :=
  raise_if (negb (length hint_ids =? length (axes spec))%nat) ValueError;;
  loop_vars ← try_resolve_tile_axis_loop_vars op spec;
  match loop_vars with
  | None => Raise Unsupported
  | Some vs =>
      Ok (zip_with (fun (al : TileAxis * string) id =>
            mkHint (count al.1) (Some al.2) (is_reduction al.1) id None) (zip (axes spec) vs) hint_ids)
  end.

(** ** [for_each_tile] regions *)

Record PrescribedRegion := mkRegion {
  region_group : Z;
  region_start : nat;
  region_stop : nat;
  region_names : list string;
  unstamped : list string
}.

Definition _is_spliced (op : graph_op) : bool :=
  bool_decide (is_Some (loop_group_id op)) &&
  existsb (fun h => bool_decide (is_Some (loop_var h)) && bool_decide (is_Some (loop_var_range h))) (dim_hints op).

(** The span of each group, in order of first occurrence; [spans.setdefault(outer, [pos, pos])]
    then [span[1] = pos]. *)
Fixpoint extend_span (outer : Z) (pos : nat) (spans : list (Z * (nat * nat))) : list (Z * (nat * nat)) :=
  match spans with
  | [] => [(outer, (pos, pos))]
  | (g, (first, last)) :: rest =>
      if g =? outer then (g, (first, pos)) :: rest else (g, (first, last)) :: extend_span outer pos rest
  end.

Definition span_step (po : nat * graph_op) (spans : list (Z * (nat * nat))) : res (list (Z * (nat * nat))) :=
  if _is_spliced po.2 then
    match loop_group_id po.2 with
    | Some (outer :: _) => Ok (extend_span outer po.1 spans)
    | _ => Raise IndexError
    end
  else Ok spans.

Definition region_of (operations : list graph_op) (s : Z * (nat * nat)) : PrescribedRegion :=
  let members := take (S s.2.2 - s.2.1) (drop s.2.1 operations) in
  mkRegion s.1 s.2.1 (S s.2.2) (get_operation_name <$> members)
    (get_operation_name <$> filter (fun op => _is_spliced op = false) members).

Definition prescribed_regions (operations : list graph_op) : res (list PrescribedRegion) :=
  spans ← for_each span_step (imap pair operations) [];
  Ok (region_of operations <$> py_sorted (fun a b => (a.2.1 <=? b.2.1)%nat) spans).

(** ** Groups *)

Section groups.
Context {view : Type} (ownership_view : graph_op -> Dep -> list (string * Z) -> option view).
Context (same_partition : view -> view -> bool) (not_read_in_full : string -> bool).
Context (choices : dict TileSpec).

(** [tile_misread(...) is not None] *)
Definition tile_misread (producer : graph_op) (producer_spec : TileSpec) (consumer : graph_op)
    (consumer_spec : TileSpec) (read : Dep) : res bool :=
  match list_find (fun w => dep_name w = dep_name read /\ dep_memory w = true) (writes producer) with
  | None => Ok true
  | Some (_, write) =>
      if negb (dep_memory read) || not_read_in_full (dep_name read) then Ok true
      else
        producer_vars ← try_resolve_tile_axis_loop_vars (facts producer) producer_spec;
        match producer_vars with
        | None => Ok true
        | Some pvs =>
            consumer_vars ← try_resolve_tile_axis_loop_vars (facts consumer) consumer_spec;
            match consumer_vars with
            | None => Ok true
            | Some cvs =>
                match ownership_view producer write (zip pvs (count <$> axes producer_spec)),
                      ownership_view consumer read (zip cvs (count <$> axes consumer_spec)) with
                | Some produced, Some consumed => Ok (negb (same_partition produced consumed))
                | _, _ => Ok true
                end
            end
        end
  end.

(** [_stretch_misread(...) is not None] *)
Fixpoint _stretch_misread (op : graph_op) (spec : TileSpec) (stretch : dict graph_op) (rs : list Dep) : res bool :=
  match rs with
  | [] => Ok false
  | read :: rs' =>
      match dget stretch (dep_name read) with
      | None => _stretch_misread op spec stretch rs'
      | Some producer =>
          pspec ← dgetitem choices (get_operation_name producer);
          m ← tile_misread producer pspec op spec read;
          if (m : bool) then Ok true else _stretch_misread op spec stretch rs'
      end
  end.

Record gstate := mkG {
  groups : list (list graph_op * list Z);
  current_ops : list graph_op;
  current_nest : list Z;
  stretch : dict graph_op
}.

Definition nest_of (op : graph_op) : list Z :=
  match dget choices (get_operation_name op) with Some spec => level_counts spec | None => [] end.

(** [if current_ops: groups.append((current_ops, current_nest))] *)
Definition flush (st : gstate) : list (list graph_op * list Z) :=
  if bool_decide (current_ops st = []) then groups st else groups st ++ [(current_ops st, current_nest st)].

Definition group_step (op : graph_op) (st : gstate) : res gstate :=
  let nest := nest_of op in
  st' ← match dget choices (get_operation_name op) with
        | Some spec =>
            if bool_decide (nest <> [] /\ nest = current_nest st) then
              misread ← _stretch_misread op spec (stretch st) (reads op);
              Ok (if (misread : bool) then mkG (groups st ++ [(current_ops st, current_nest st)]) [op] (current_nest st) (stretch st)
                  else mkG (groups st) (current_ops st ++ [op]) (current_nest st) (stretch st))
            else Ok (mkG (flush st) (if bool_decide (nest = []) then [] else [op]) nest [])
        | None => Ok (mkG (flush st) [] [] [])
        end;
  Ok (if bool_decide (nest = []) then st'
      else mkG (groups st') (current_ops st') (current_nest st') (dset (get_name op) op (stretch st'))).

Definition derive_tiling_groups (operations : list graph_op) : res (list (list graph_op * list Z)) :=
  st ← for_each group_step operations (mkG [] [] [] []);
  Ok (flush st).

(** ** [apply_tilings], up to the rewrite of the loops *)

Definition _derive_hint_id_base (operations : list graph_op) : Z :=
  list_max (-1) (hint_id <$> (op ← operations; dim_hints op)) + 1.

(** [op.loop_info.loop_group_id[0] for op in ... if loop_info is not None] *)
Fixpoint used_group_ids (operations : list graph_op) : res (list Z) :=
  match operations with
  | [] => Ok []
  | op :: rest =>
      match loop_group_id op with
      | None => used_group_ids rest
      | Some [] => Raise IndexError
      | Some (g :: _) => k ← used_group_ids rest; Ok (g :: k)
      end
  end.

Definition _derive_group_idx_offset (operations : list graph_op) : res Z :=
  used ← used_group_ids operations; Ok (list_max (-1) used + 1).

Definition set_dim_hints (op : graph_op) (hs : list DimHint) : graph_op :=
  mkGraphOp (get_operation_name op) (get_name op) (facts op) (reads op) (writes op) hs (loop_group_id op).

Definition stamp (hint_ids : list Z) (op : graph_op) : res graph_op :=
  spec ← dgetitem choices (get_operation_name op);
  hs ← tile_spec_to_dim_hints (facts op) spec hint_ids;
  Ok (set_dim_hints op hs).

(** One group of the minting loop; the state is [(next_hint_id, groups)]. *)
Definition mint (g : list graph_op * list Z) (st : Z * list (list graph_op * list (Z * Z)))
    : res (Z * list (list graph_op * list (Z * Z))) :=
  let n := Z.of_nat (length g.2) in
  let hint_ids := seqZ st.1 n in
  ops ← py_map (stamp hint_ids) g.1;
  Ok (st.1 + n, st.2 ++ [(ops, zip hint_ids g.2)]).

(** [hint_id in hint_id_to_group] for the ids of one group, then their registration. *)
Definition validate_group (g : list graph_op * list (Z * Z)) (seen : gset Z) : res (gset Z) :=
  let group_hint_ids : gset Z := list_to_set (hint_id <$> (op ← g.1; dim_hints op)) in
  raise_if (negb (bool_decide (group_hint_ids ## seen))) RuntimeError;;
  Ok (seen ∪ group_hint_ids).

Definition validate_coarse_tile_groups (gs : list (list graph_op * list (Z * Z))) : res unit :=
  for_each validate_group gs ∅;; Ok tt.

(** The groups handed to [coarse_tile_post_stickify], with the group-id offset;
    [None] when nothing is tiled. *)
Definition apply_tilings (operations : list graph_op)
    : res (option (list (list graph_op * list (Z * Z)) * Z)) :=
  groups_specs ← derive_tiling_groups operations;
  if bool_decide (groups_specs = []) then Ok None
  else
    regions ← prescribed_regions operations;
    let region_ops := r ← regions; region_names r in
    raise_if (existsb (fun g => existsb (fun op => bool_decide (get_operation_name op ∈ region_ops)) g.1) groups_specs)
      Unsupported;;
    offset ← _derive_group_idx_offset operations;
    st ← for_each mint groups_specs (_derive_hint_id_base operations, []);
    validate_coarse_tile_groups st.2;;
    Ok (Some (st.2, offset)).
End groups.

(** ** Restating core divisions on tiles *)

(** [dict(zip(walked, symbols))], keyed by dimension. *)
Definition _symbols_by_dim (op : tile_op) : res (option (list (nat * string))) :=
  rs ← data_ranges op;
  let extents := rs ++ reduction_ranges op in
  let walked := filter (fun d => extents !! d <> Some (Some 1)) (seq 0 (length extents)) in
  let symbols := dkeys (iter_space op) in
  Ok (if (length walked =? length symbols)%nat then Some (zip walked symbols) else None).

(** [{symbol: now[dim] for dim, symbol in was.items() if dim in now}] *)
Definition symbols_on_tile (was now : list (nat * string)) : dict string :=
  dupdate [] (ds ← was;
    match list_find (fun e => e.1 = ds.1) now with Some (_, e) => [(ds.2, e.2)] | None => [] end).

Definition splits_on_tile (on_tile : option (dict string)) (splits : dict Z) : option (dict Z) :=
  match on_tile with
  | None => Some splits
  | Some m =>
      if existsb (fun sf => negb (dmem m sf.1) && (1 <? sf.2)) splits then None
      else Some (dupdate [] (sf ← splits;
             match dget m sf.1 with Some sym => [(sym, sf.2)] | None => [] end))
  end.

(** [chosen_tilings]: the non-empty tilings of the plan, by operation name. *)
Definition choose_tiling (operations : list graph_op) (buf : LifetimeBoundBuffer) (m : dict TileSpec)
    : res (dict TileSpec) :=
  match list_find (fun op => get_name op = buf_name buf) operations, chosen_division buf with
  | Some (_, op), Some ci =>
      match core_divisions buf !! ci with
      | None => Raise IndexError
      | Some cd => Ok (if is_untiled (tiling cd) then m else dset (get_operation_name op) (tiling cd) m)
      end
  | _, _ => Ok m
  end.

Definition chosen_tilings (operations : list graph_op) (planned : list LifetimeBoundBuffer) : res (dict TileSpec) :=
  for_each (choose_tiling operations) planned [].

(** An operation of the tiled graph: [tiled_on_tile] is its [symbols_on_tile]
    attribute, [joint] its [JOINT_TILING_AND_DIVISION_ATTR]. *)
Record tiled_op := mkTiled {
  tiled_name : string;
  tiled_reads : list string;
  joint : bool;
  tiled_on_tile : option (dict string)
}.

(** [{buf.name: buf.core_divisions[buf.chosen_division] ...}] *)
Definition chosen_step (buf : LifetimeBoundBuffer) (m : dict CoreDivision) : res (dict CoreDivision) :=
  match chosen_division buf with
  | None => Ok m
  | Some ci => match core_divisions buf !! ci with
               | None => Raise IndexError
               | Some cd => Ok (dset (buf_name buf) cd m)
               end
  end.

(** The source operation and the splits wanted of one operation, if any. *)
Definition wanted_splits (ops : list tiled_op) (chosen : dict CoreDivision) (planned_names : list string)
    (op : tiled_op) : res (option (tiled_op * dict Z)) :=
  match dget chosen (tiled_name op) with
  | Some division => Ok (Some (op, splits division))
  | None =>
      if bool_decide (tiled_name op ∉ planned_names) && joint op then
        match remove_dups (tiled_reads op) with
        | [drained] =>
            match dget chosen drained with
            | None => Ok None
            | Some division =>
                match list_find (fun o => tiled_name o = drained) ops with
                | None => Raise KeyError
                | Some (_, source) => Ok (Some (source, output_splits division))
                end
            end
        | _ => Ok None
        end
      else Ok None
  end.

Definition planned_step (ops : list tiled_op) (chosen : dict CoreDivision) (planned_names : list string)
    (op : tiled_op) (st : dict (dict Z) * list string) : res (dict (dict Z) * list string) :=
  wanted ← wanted_splits ops chosen planned_names op;
  Ok (match wanted with
      | None => st
      | Some (source, w) =>
          match splits_on_tile (tiled_on_tile source) w with
          | None => (st.1, st.2 ++ [tiled_name op])
          | Some r => (dset (tiled_name op) r st.1, st.2)
          end
      end).

(** The splits by operation, and the operations whose division cannot be stated. *)
Definition planned_splits (ops : list tiled_op) (planned : list LifetimeBoundBuffer)
    : res (dict (dict Z) * list string) :=
  chosen ← for_each chosen_step planned [];
  for_each (planned_step ops chosen (buf_name <$> planned)) ops ([], []).

(** ** Correctness of the groups *)

Section group_proofs.
Context {view : Type} (ownership_view : graph_op -> Dep -> list (string * Z) -> option view).
Context (same_partition : view -> view -> bool) (not_read_in_full : string -> bool).
Context (choices : dict TileSpec).

#[local] Notation misread := (tile_misread ownership_view same_partition not_read_in_full).
#[local] Notation gstep := (group_step ownership_view same_partition not_read_in_full choices).
#[local] Notation nest := (nest_of choices).

(** On every tile, each operation of the list reads what the earlier ones wrote. *)
Definition reads_aligned (g : list graph_op) : Prop :=
  forall g1 c g2 p read spec pspec, g = g1 ++ c :: g2 -> p ∈ g1 -> read ∈ reads c -> dep_name read = get_name p ->
    dget choices (get_operation_name c) = Some spec -> dget choices (get_operation_name p) = Some pspec ->
    misread p pspec c spec read = Ok false.

Record good_group (ops : list graph_op) (g : list graph_op) (n : list Z) : Prop := {
  gg_nonempty : g <> [] /\ n <> [];
  gg_nest : forall op, op ∈ g -> nest op = n;
  gg_contiguous : exists pre post, ops = pre ++ g ++ post;
  gg_aligned : reads_aligned g
}.

Lemma stretch_misread_false op spec st rs :
  _stretch_misread ownership_view same_partition not_read_in_full choices op spec st rs = Ok false ->
  forall read p, read ∈ rs -> dget st (dep_name read) = Some p ->
    exists pspec, dget choices (get_operation_name p) = Some pspec /\ misread p pspec op spec read = Ok false.
Proof.
  induction rs as [|r rs IH]; cbn [_stretch_misread]; intros Hrun read p; [intros H; by apply elem_of_nil in H|].
  intros [-> | Hin]%elem_of_cons Hp.
  - rewrite Hp in Hrun. apply bind_Ok in Hrun as (pspec & Hps & Hrun). apply bind_Ok in Hrun as (m & Hm & Hrun).
    destruct m; [done|]. exists pspec. split; [|done]. unfold dgetitem in Hps. by destruct (dget choices _); simplify_eq.
  - destruct (dget st (dep_name r)) as [q|]; [|eauto]. apply bind_Ok in Hrun as (pspec & _ & Hrun).
    apply bind_Ok in Hrun as (m & _ & Hrun). destruct m; [done | eauto].
Qed.

Lemma reads_aligned_snoc g c :
  reads_aligned g ->
  (forall p read spec pspec, p ∈ g -> read ∈ reads c -> dep_name read = get_name p ->
     dget choices (get_operation_name c) = Some spec -> dget choices (get_operation_name p) = Some pspec ->
     misread p pspec c spec read = Ok false) -> reads_aligned (g ++ [c]).
Proof.
  intros Hg Hc g1 c' g2 p read spec pspec He. destruct g2 as [|x g2 _] using rev_ind.
  - apply app_inj_tail in He as [-> ->]. apply Hc.
  - rewrite app_comm_cons, app_assoc in He. apply app_inj_tail in He as [-> _]. intros ?. eapply Hg; eauto.
Qed.

Lemma reads_aligned_one c : reads_aligned [c].
Proof.
  intros [|x g1] c' g2 p read spec pspec He Hp; [by apply elem_of_nil in Hp|].
  injection He as _ He. destruct g1; discriminate He.
Qed.

(** The invariant of the walk over the operations. *)
Record walk_inv (dn : list graph_op) (st : gstate) : Prop := {
  wi_all : concat (fst <$> groups st) ++ current_ops st = filter (fun op => nest op <> []) dn;
  wi_groups : forall g n, (g, n) ∈ groups st -> good_group dn g n;
  wi_empty : current_ops st = [] <-> current_nest st = [];
  wi_nest : forall op, op ∈ current_ops st -> nest op = current_nest st;
  wi_suffix : exists pre, dn = pre ++ current_ops st;
  wi_aligned : reads_aligned (current_ops st);
  wi_stretch : forall op, op ∈ current_ops st -> dget (stretch st) (get_name op) = Some op
}.

Lemma good_group_snoc dn g n op : good_group dn g n -> good_group (dn ++ [op]) g n.
Proof.
  intros [H1 H2 (pre & post & ->) H4]. split; [done | done | | done].
  exists pre, (post ++ [op]). by rewrite <- !app_assoc.
Qed.

Lemma current_good dn st : walk_inv dn st -> current_ops st <> [] -> good_group dn (current_ops st) (current_nest st).
Proof.
  intros [_ _ He Hn [pre Hp] Ha _] Hne. split; [| done | | done].
  - split; [done|]. intros H. by apply Hne, He.
  - exists pre, []. by rewrite app_nil_r.
Qed.

Lemma flush_inv dn st :
  walk_inv dn st -> concat (fst <$> flush st) = filter (fun op => nest op <> []) dn /\
  forall g n, (g, n) ∈ flush st -> good_group dn g n.
Proof.
  intros H. unfold flush. destruct (bool_decide _) eqn:E; split_bools.
  - pose proof (wi_all _ _ H) as Ha. rewrite E, app_nil_r in Ha. split; [done | apply H].
  - rewrite fmap_app, concat_app. cbn. rewrite app_nil_r. split; [apply H|].
    intros g n [Hg | [= -> ->]%list_elem_of_singleton]%elem_of_app; [by apply H | by apply current_good].
Qed.

Lemma filter_snoc_tiled dn op :
  filter (fun op => nest op <> []) (dn ++ [op]) =
  filter (fun op => nest op <> []) dn ++ (if bool_decide (nest op = []) then [] else [op]).
Proof.
  rewrite filter_app. f_equal. rewrite filter_cons, filter_nil. destruct (bool_decide _) eqn:E; split_bools.
  - by rewrite decide_False by tauto.
  - by rewrite decide_True.
Qed.

(** A run that continues, cut or not. *)
Lemma continue_inv dn st op spec mis :
  get_name op ∉ (get_name <$> dn) -> walk_inv dn st -> dget choices (get_operation_name op) = Some spec ->
  nest op <> [] -> nest op = current_nest st ->
  _stretch_misread ownership_view same_partition not_read_in_full choices op spec (stretch st) (reads op) = Ok mis ->
  walk_inv (dn ++ [op])
    (mkG (if mis then groups st ++ [(current_ops st, current_nest st)] else groups st)
       (if mis then [op] else current_ops st ++ [op]) (current_nest st) (dset (get_name op) op (stretch st))).
Proof.
  intros Hname H Hspec Hne Hcur Hmis.
  assert (current_ops st <> []) as Hops by (intros He; apply Hne; rewrite Hcur; by apply (wi_empty _ _ H)).
  assert (forall p, p ∈ current_ops st -> get_name p <> get_name op) as Hdiff.
  { intros p Hp He. apply Hname. rewrite <- He. apply list_elem_of_fmap_2. destruct (wi_suffix _ _ H) as [pre ->]. list_mem. }
  split; cbn [groups current_ops current_nest stretch].
  - rewrite filter_snoc_tiled, bool_decide_false by done. rewrite <- (wi_all _ _ H). destruct mis.
    + rewrite fmap_app, concat_app. cbn. by rewrite app_nil_r.
    + by rewrite app_assoc.
  - intros g n Hg. apply good_group_snoc. destruct mis; [|by apply H].
    apply elem_of_app in Hg as [Hg | [= -> ->]%list_elem_of_singleton]; [by apply H | by apply current_good].
  - rewrite <- Hcur. split; intros Hc; [|done]. destruct mis; [done|]. by apply app_eq_nil in Hc as [_ ?].
  - intros p Hp. destruct mis; [apply list_elem_of_singleton in Hp as ->; done|].
    apply elem_of_app in Hp as [Hp | ->%list_elem_of_singleton]; [by apply (wi_nest _ _ H) | done].
  - destruct (wi_suffix _ _ H) as [pre Hp]. destruct mis; [by exists dn|]. exists pre. by rewrite Hp, <- app_assoc.
  - destruct mis; [apply reads_aligned_one|]. apply reads_aligned_snoc; [apply H|].
    intros p read spec' pspec Hp Hr Hn Hs' Hps.
    destruct (stretch_misread_false op spec (stretch st) (reads op) Hmis read p Hr) as (ps & Hps' & Hm).
    { rewrite Hn. by apply H. }
    congruence.
  - intros p Hp. rewrite dget_dset. destruct (decide (get_name p = get_name op)) as [He | He].
    + destruct mis; [apply list_elem_of_singleton in Hp as ->; done|].
      apply elem_of_app in Hp as [Hp | ->%list_elem_of_singleton]; [|done]. by destruct (Hdiff p Hp).
    + destruct mis; [apply list_elem_of_singleton in Hp as ->; done|].
      apply elem_of_app in Hp as [Hp | ->%list_elem_of_singleton]; [by apply H | done].
Qed.

(** A run that ends, starting a new one or not. *)
Lemma restart_inv dn st op :
  walk_inv dn st ->
  walk_inv (dn ++ [op])
    (mkG (flush st) (if bool_decide (nest op = []) then [] else [op]) (nest op)
       (if bool_decide (nest op = []) then [] else dset (get_name op) op [])).
Proof.
  intros H. destruct (flush_inv dn st H) as [Hc Hg]. split; cbn [groups current_ops current_nest stretch].
  - by rewrite filter_snoc_tiled, Hc.
  - intros g n Hin. by apply good_group_snoc, Hg.
  - destruct (bool_decide _) eqn:E; split_bools; [done|]. split; [done | intros ?; done].
  - intros p Hp. destruct (bool_decide _) eqn:E; [by apply elem_of_nil in Hp|]. by apply list_elem_of_singleton in Hp as ->.
  - destruct (bool_decide _); [exists (dn ++ [op]); by rewrite app_nil_r | by exists dn].
  - destruct (bool_decide _); [|apply reads_aligned_one]. intros [|] ? ? ? ? ? ? He; discriminate He.
  - intros p Hp. destruct (bool_decide _); [by apply elem_of_nil in Hp|]. apply list_elem_of_singleton in Hp as ->.
    by rewrite dget_dset, decide_True.
Qed.

Lemma group_step_inv dn op st st' :
  get_name op ∉ (get_name <$> dn) -> walk_inv dn st -> gstep op st = Ok st' -> walk_inv (dn ++ [op]) st'.
Proof.
  intros Hname H. unfold group_step. cbn zeta.
  destruct (dget choices (get_operation_name op)) as [spec|] eqn:Hspec.
  - destruct (bool_decide (nest op <> [] /\ nest op = current_nest st)) eqn:E; split_bools.
    + destruct E as [Hne Hcur]. intros (s1 & Hs1 & [= <-])%bind_Ok. apply bind_Ok in Hs1 as (mis & Hmis & [= <-]).
      rewrite bool_decide_false by done. pose proof (continue_inv dn st op spec mis Hname H Hspec Hne Hcur Hmis) as Hi.
      destruct mis; exact Hi.
    + cbn [mbind res_bind]. intros [= <-]. pose proof (restart_inv dn st op H) as Hi.
      destruct (bool_decide (nest op = [])); exact Hi.
  - cbn [mbind res_bind]. intros [= <-]. pose proof (restart_inv dn st op H) as Hi.
    assert (nest op = []) as Hn by (unfold nest_of; by rewrite Hspec). rewrite Hn in Hi. cbn in Hi. by rewrite Hn.
Qed.

Lemma derive_tiling_groups_inv operations gs :
  NoDup (get_name <$> operations) ->
  derive_tiling_groups ownership_view same_partition not_read_in_full choices operations = Ok gs ->
  concat (fst <$> gs) = filter (fun op => nest op <> []) operations /\
  forall g n, (g, n) ∈ gs -> good_group operations g n.
Proof.
  intros Hnd. unfold derive_tiling_groups. intros (st & Hrun & [= <-])%bind_Ok. apply flush_inv. revert Hrun.
  apply for_each_ind.
  - intros dn op rest s1 s2 Hops H1 Hs. eapply group_step_inv; [|exact H1 | exact Hs].
    rewrite Hops, fmap_app, fmap_cons in Hnd. apply NoDup_app in Hnd as (_ & Hd & _). intros Hin.
    by apply (Hd _ Hin), list_elem_of_here.
  - split; cbn; try done; try (intros ? ? H; by apply elem_of_nil in H); try (intros ? H; by apply elem_of_nil in H).
    + by exists [].
    + intros [|] ? ? ? ? ? ? He; discriminate He.
Qed.

(** Groups follow the code's contract: [derive_tiling_groups] puts every tiled
    operation into exactly one group, in program order; a group is a contiguous
    stretch of operations that all run its non-empty loop nest; and inside a group
    every operation reads what an earlier member wrote tile by tile. *)
Theorem tiling_groups_spec operations gs :
  NoDup (get_name <$> operations) ->
  derive_tiling_groups ownership_view same_partition not_read_in_full choices operations = Ok gs ->
  concat (fst <$> gs) = filter (fun op => nest op <> []) operations /\
  forall g n, (g, n) ∈ gs -> good_group operations g n.
Proof. apply derive_tiling_groups_inv. Qed.

(** ** Minted hint ids *)

Lemma resolve_axes_length op l vs : resolve_axes op l = Ok (Some vs) -> length vs = length l.
Proof.
  revert vs. induction l as [|a l IH]; intros vs; cbn [resolve_axes]; [by intros [= <-]|].
  intros (o & _ & H)%bind_Ok. destruct o as [v|]; [|done]. apply bind_Ok in H as (vs' & Hvs & [= He]).
  destruct vs' as [vs'|]; [|done]. injection He as <-. simpl. by rewrite (IH vs').
Qed.

(** The hints of one operation: one per level, carrying the level's id and count. *)
Lemma dim_hints_levels op spec ids hs :
  tile_spec_to_dim_hints op spec ids = Ok hs ->
  hint_id <$> hs = ids /\ split_count <$> hs = level_counts spec /\
  exists vs, try_resolve_tile_axis_loop_vars op spec = Ok (Some vs) /\ loop_var <$> hs = Some <$> vs.
Proof.
  unfold tile_spec_to_dim_hints. intros ([] & Hlen%raise_if_Ok & H)%bind_Ok.
  apply negb_false_iff, Nat.eqb_eq in Hlen. apply bind_Ok in H as (o & Ho & H). destruct o as [vs|]; [|done].
  injection H as <-. assert (length vs = length (axes spec)) as Hvs.
  { unfold try_resolve_tile_axis_loop_vars in Ho. destruct (_ && _); [done|]. by apply resolve_axes_length in Ho. }
  unfold level_counts. split_and!; [| |exists vs; split; [done|]]; clear Ho; revert vs ids Hlen Hvs;
    induction (axes spec) as [|a l IH]; intros [|v vs] [|i ids] Hlen Hvs; csimpl; try done; f_equal; apply IH; simpl in *; lia.
Qed.

(** What minting makes of one group. *)
Record minted_group (g : list graph_op * list Z) (g' : list graph_op * list (Z * Z)) : Prop := {
  mg_names : get_operation_name <$> g'.1 = get_operation_name <$> g.1;
  mg_nest : snd <$> g'.2 = g.2;
  mg_hints : forall op, op ∈ g'.1 -> hint_id <$> dim_hints op = fst <$> g'.2 /\ split_count <$> dim_hints op = g.2
}.

Definition ids_below (lo hi : Z) (g' : list graph_op * list (Z * Z)) : Prop :=
  forall i, i ∈ (fst <$> g'.2) -> lo <= i < hi.

Lemma mint_step g st st' :
  (forall op, op ∈ g.1 -> nest op = g.2) -> mint choices g st = Ok st' ->
  exists g', st' = (st.1 + Z.of_nat (length g.2), st.2 ++ [g']) /\ minted_group g g' /\
    ids_below st.1 (st.1 + Z.of_nat (length g.2)) g'.
Proof.
  intros Hn. unfold mint. intros (ops & Hops%py_map_Ok & [= <-])%bind_Ok.
  set (ids := seqZ st.1 (Z.of_nat (length g.2))). eexists. split; [done|].
  assert (length ids = length g.2) as Hlen by (unfold ids; rewrite length_seqZ; lia).
  assert (fst <$> zip ids g.2 = ids) as Hfst by (apply fst_zip; lia).
  split; [split; cbn [fst snd]|].
  - clear -Hops. induction Hops as [|op op' l l' H _ IH]; csimpl; [done|]. f_equal; [|done].
    unfold stamp in H. apply bind_Ok in H as (spec & _ & H). by apply bind_Ok in H as (hs & _ & [= <-]).
  - apply snd_zip. lia.
  - intros op' Hin. rewrite Hfst. apply list_elem_of_lookup in Hin as [k Hk].
    destruct (Forall2_lookup_r _ _ _ _ _ Hops Hk) as (op & Hop & Hst). unfold stamp in Hst.
    apply bind_Ok in Hst as (spec & Hsp & Hst). apply bind_Ok in Hst as (hs & Hhs & [= <-]). cbn [dim_hints set_dim_hints].
    destruct (dim_hints_levels _ _ _ _ Hhs) as (H1 & H2 & _). split; [done|]. rewrite H2.
    rewrite <- (Hn op) by (by eapply list_elem_of_lookup_2). unfold nest_of. unfold dgetitem in Hsp.
    by destruct (dget choices _); simplify_eq.
  - intros i. cbn [fst snd]. rewrite Hfst. unfold ids. rewrite elem_of_seqZ. lia.
Qed.

(** Groups with ascending, disjoint ids. *)
Definition ids_ascend (g g' : list graph_op * list (Z * Z)) : Prop :=
  forall i j, i ∈ (fst <$> g.2) -> j ∈ (fst <$> g'.2) -> i < j.

Lemma mint_all gs : forall base st',
  (forall g op, g ∈ gs -> op ∈ g.1 -> nest op = g.2) -> for_each (mint choices) gs (base, []) = Ok st' ->
  base <= st'.1 /\ Forall2 minted_group gs st'.2 /\ Forall (ids_below base st'.1) st'.2 /\ StronglySorted ids_ascend st'.2.
Proof.
  intros base st' Hn. apply (for_each_ind _ (fun dn st => base <= st.1 /\ Forall2 minted_group dn st.2 /\
    Forall (ids_below base st.1) st.2 /\ StronglySorted ids_ascend st.2)).
  - intros dn g rest s1 s2 Hgs (Hb & HF & Hlo & Hs) Hstep.
    destruct (mint_step g s1 s2) as (g' & -> & Hm & Hi); [|done|].
    { intros op. apply Hn. rewrite Hgs. list_mem. }
    cbn [fst snd]. split_and!; [lia | apply Forall2_app; [done | constructor; [done | constructor]] | |].
    + apply Forall_app. split; [|constructor; [intros i H%Hi; lia | constructor]].
      eapply Forall_impl; [exact Hlo|]. intros g0 H0 i H%H0. lia.
    + apply StronglySorted_app. split_and!; [|done|repeat constructor].
      intros g1 g2 Hg1 ->%list_elem_of_singleton i j Hin Hjn%Hi. rewrite Forall_forall in Hlo.
      specialize (Hlo g1 Hg1 i Hin). lia.
  - cbn. split_and!; [lia | constructor | constructor | constructor].
Qed.

(** The ids a validated group registers. *)
Lemma group_ids gs gs' g' :
  Forall2 minted_group gs gs' -> g' ∈ gs' ->
  forall i, i ∈ (hint_id <$> (op ← g'.1; dim_hints op)) -> i ∈ (fst <$> g'.2).
Proof.
  intros HF Hg i (h & -> & (op & Hh & Hop)%list_elem_of_bind)%list_elem_of_fmap.
  apply list_elem_of_lookup in Hg as [k Hk]. destruct (Forall2_lookup_r _ _ _ _ _ HF Hk) as (g & _ & Hm).
  destruct (mg_hints _ _ Hm op Hop) as [<- _]. by apply list_elem_of_fmap_2.
Qed.

(** The check of the hint ids cannot fail: whatever groups of equal nests are minted,
    from whatever base, [validate_coarse_tile_groups] accepts the result. *)
Theorem minted_groups_validate gs base st' :
  (forall g op, g ∈ gs -> op ∈ g.1 -> nest op = g.2) -> for_each (mint choices) gs (base, []) = Ok st' ->
  validate_coarse_tile_groups st'.2 = Ok tt.
Proof.
  intros Hn Hm. destruct (mint_all gs base st' Hn Hm) as (_ & HF & _ & Hs). unfold validate_coarse_tile_groups.
  destruct (for_each_total validate_group (fun dn (seen : gset Z) =>
    forall i, i ∈ seen -> exists g', g' ∈ dn /\ i ∈ (fst <$> g'.2)) st'.2 ∅) as (seen & -> & _); [| |done].
  - intros dn g rest s1 He Hseen. unfold validate_group.
    assert (forall i, i ∈ (hint_id <$> (op ← g.1; dim_hints op)) -> i ∈ (fst <$> g.2)) as Hids.
    { apply (group_ids gs st'.2); [done | rewrite He; list_mem]. }
    rewrite bool_decide_true.
    + cbn. eexists. split; [done|]. intros i [Hi | Hi]%elem_of_union.
      * destruct (Hseen i Hi) as (g0 & H0 & ?). exists g0. split; [list_mem | done].
      * exists g. split; [list_mem|]. apply Hids. by apply elem_of_list_to_set in Hi.
    + intros i Hi Hi'. apply elem_of_list_to_set, Hids in Hi. destruct (Hseen i Hi') as (g0 & H0 & Hi0).
      rewrite He in Hs. apply StronglySorted_app in Hs as (Hlt & _). specialize (Hlt g0 g H0 ltac:(list_mem) i i Hi0 Hi). lia.
  - intros i Hi. set_solver.
Qed.
End group_proofs.

(** ** Regions *)

(** Every span covers its group's positions so far; the first is never above the last. *)
Definition spans_cover (dn : list (nat * graph_op)) (spans : list (Z * (nat * nat))) : Prop :=
  forall p op outer rest, (p, op) ∈ dn -> _is_spliced op = true -> loop_group_id op = Some (outer :: rest) ->
    exists first last, (outer, (first, last)) ∈ spans /\ (first <= p <= last)%nat.

Lemma extend_span_spec outer pos spans :
  (forall g f l, (g, (f, l)) ∈ spans -> (f <= pos)%nat /\ (l <= pos)%nat) ->
  (exists f, (outer, (f, pos)) ∈ extend_span outer pos spans /\ (f <= pos)%nat) /\
  (forall g f l, (g, (f, l)) ∈ spans -> exists l', (g, (f, l')) ∈ extend_span outer pos spans /\ (l <= l')%nat) /\
  (forall g f l, (g, (f, l)) ∈ extend_span outer pos spans -> (f <= pos)%nat /\ (l <= pos)%nat).
Proof.
  induction spans as [|[g [f l]] spans IH]; intros Hb; cbn [extend_span].
  - split_and!.
    + exists pos. split; [list_mem | lia].
    + intros ? ? ? H. by apply elem_of_nil in H.
    + intros g f l [= -> -> ->]%list_elem_of_singleton. lia.
  - destruct IH as (H1 & H2 & H3); [intros g' f' l' Hin; apply (Hb g'); list_mem|]. pose proof (Hb g f l ltac:(list_mem)) as [Hf Hl].
    destruct (Z.eqb_spec g outer) as [-> | Hne]; split_and!.
    + exists f. split; [list_mem | done].
    + intros g' f' l' [[= -> -> ->] | Hin]%elem_of_cons; [exists pos; split; [list_mem | done] | exists l'; split; [list_mem | lia]].
    + intros g' f' l' [[= -> -> ->] | Hin]%elem_of_cons; [lia | apply (Hb g'); list_mem].
    + destruct H1 as (f' & H1 & ?). exists f'. split; [list_mem | done].
    + intros g' f' l' [[= -> -> ->] | Hin]%elem_of_cons; [exists l; split; [list_mem | lia]|].
      destruct (H2 _ _ _ Hin) as (l2 & ? & ?). exists l2. split; [list_mem | done].
    + intros g' f' l' [[= -> -> ->] | Hin]%elem_of_cons; [lia | by eapply H3].
Qed.

Lemma spans_spec operations spans :
  for_each span_step (imap pair operations) [] = Ok spans -> spans_cover (imap pair operations) spans.
Proof.
  intros Hrun. enough (spans_cover (imap pair operations) spans /\
    (forall g f l, (g, (f, l)) ∈ spans -> (f <= length (imap pair operations))%nat /\ (l <= length (imap pair operations))%nat)) as [H _] by exact H.
  assert (forall i x, imap pair operations !! i = Some x -> x.1 = i) as Hpos.
  { intros i x. rewrite list_lookup_imap. destruct (operations !! i); [by intros [= <-] | done]. }
  revert Hpos Hrun. generalize (imap pair operations). intros ops Hpos.
  apply (for_each_ind _ (fun dn sp => spans_cover dn sp /\
    (forall g f l, (g, (f, l)) ∈ sp -> (f <= length dn)%nat /\ (l <= length dn)%nat))).
  - intros dn [p op] rest s1 s2 Hops [Hc Hb] Hstep.
    assert (p = length dn) as ->.
    { apply (Hpos (length dn) (p, op)). by rewrite Hops, list_lookup_middle. }
    assert (forall s, spans_cover dn s -> _is_spliced op = false -> spans_cover (dn ++ [(length dn, op)]) s) as Hkeep.
    { intros s Hs Hno p0 op0 outer rest0 [Hin | [= -> ->]%list_elem_of_singleton]%elem_of_app; [by apply Hs | congruence]. }
    unfold span_step in Hstep. cbn [fst snd] in Hstep. destruct (_is_spliced op) eqn:Hsp.
    + destruct (loop_group_id op) as [[|outer gs]|] eqn:Hg; [done| |done]. injection Hstep as <-.
      destruct (extend_span_spec outer (length dn) s1 Hb) as (H1 & H2 & H3). split.
      * intros p0 op0 o r [Hin | [= -> ->]%list_elem_of_singleton]%elem_of_app Hsp0 Hg0.
        -- destruct (Hc _ _ _ _ Hin Hsp0 Hg0) as (f & l & Hfl & ?). destruct (H2 _ _ _ Hfl) as (l' & ? & ?).
           exists f, l'. split; [done | lia].
        -- rewrite Hg in Hg0. injection Hg0 as <- <-. destruct H1 as (f & ? & ?). exists f, (length dn). split; [done | lia].
      * intros g f l Hin. rewrite length_app. destruct (H3 _ _ _ Hin). lia.
    + injection Hstep as <-. split; [by apply Hkeep|]. intros g f l Hin. rewrite length_app. destruct (Hb _ _ _ Hin). lia.
  - split; [intros ? ? ? ? H; by apply elem_of_nil in H | intros ? ? ? H; by apply elem_of_nil in H].
Qed.

(** The names of a region are those of the operations in its slice. *)
Lemma region_names_spec operations s i op :
  operations !! i = Some op -> (s.2.1 <= i <= s.2.2)%nat -> get_operation_name op ∈ region_names (region_of operations s).
Proof.
  intros Hi Hr. unfold region_of. cbn [region_names]. apply list_elem_of_fmap_2.
  apply (list_elem_of_lookup_2 _ (i - s.2.1)%nat). rewrite lookup_take_lt by lia. rewrite lookup_drop.
  by replace (s.2.1 + (i - s.2.1))%nat with i by lia.
Qed.

Section apply_proofs.
Context {view : Type} (ownership_view : graph_op -> Dep -> list (string * Z) -> option view).
Context (same_partition : view -> view -> bool) (not_read_in_full : string -> bool).
Context (choices : dict TileSpec).

(** What [apply_tilings] hands to the loop rewrite: the derived groups, each with one
    hint id per level; every operation carries the ids and counts of its group's
    levels; ids ascend from group to group, so no two groups share one, and lie
    above every id already in the graph, as the group offset lies above every
    group already there; and no operation of a group is part of a
    [for_each_tile] loop. *)
Theorem apply_tilings_spec operations gs offset :
  NoDup (get_name <$> operations) ->
  apply_tilings ownership_view same_partition not_read_in_full choices operations = Ok (Some (gs, offset)) ->
  exists specs, derive_tiling_groups ownership_view same_partition not_read_in_full choices operations = Ok specs /\
    Forall2 minted_group specs gs /\ StronglySorted ids_ascend gs /\
    (forall op h g i, op ∈ operations -> h ∈ dim_hints op -> g ∈ gs -> i ∈ (fst <$> g.2) -> hint_id h < i) /\
    (forall op g rest, op ∈ operations -> loop_group_id op = Some (g :: rest) -> g < offset) /\
    (forall g n op, (g, n) ∈ specs -> op ∈ g -> _is_spliced op = false).
Proof.
  intros Hnd. unfold apply_tilings. intros (specs & Hspecs & Hrun)%bind_Ok.
  destruct (bool_decide _); [done|]. apply bind_Ok in Hrun as (regions & Hreg & Hrun).
  apply bind_Ok in Hrun as ([] & Hclash%raise_if_Ok & Hrun). apply bind_Ok in Hrun as (off & Hoff & Hrun).
  apply bind_Ok in Hrun as (st & Hst & Hrun). apply bind_Ok in Hrun as ([] & _ & [= <- <-]).
  destruct (derive_tiling_groups_inv _ _ _ _ _ _ Hnd Hspecs) as [_ Hgood].
  destruct (mint_all choices specs (_derive_hint_id_base operations) st) as (Hb & HF & Hlo & Hs); [|exact Hst|].
  { intros [g n] op Hg Hop. by apply (gg_nest _ _ _ _ _ _ _ (Hgood g n Hg)). }
  exists specs. split_and!; [done | done | done | | |].
  - intros op h g i Hop Hh Hg Hi. rewrite Forall_forall in Hlo. specialize (Hlo g Hg i Hi). unfold _derive_hint_id_base in Hlo.
    assert (hint_id h <= list_max (-1) (hint_id <$> (op ← operations; dim_hints op))); [|lia].
    apply list_max_ge, list_elem_of_fmap_2, list_elem_of_bind. eauto.
  - intros op g rest Hop Hg. unfold _derive_group_idx_offset in Hoff. apply bind_Ok in Hoff as (used & Hused & [= <-]).
    assert (g ∈ used) as Hin; [|pose proof (list_max_ge (-1) used g Hin); lia].
    clear -Hop Hg Hused. revert used Hused. induction operations as [|o l IH]; [by apply elem_of_nil in Hop|].
    intros used. cbn [used_group_ids]. apply elem_of_cons in Hop as [<- | Hop].
    + rewrite Hg. intros (k & _ & [= <-])%bind_Ok. list_mem.
    + destruct (loop_group_id o) as [[|x xs]|]; [done| |auto]. intros (k & Hk & [= <-])%bind_Ok.
      apply elem_of_cons. right. auto.
  - intros g n op Hg Hop. destruct (_is_spliced op) eqn:Hsp; [|done]. exfalso.
    assert (get_operation_name op ∈ (r ← regions; region_names r)) as Hin.
    { destruct (gg_contiguous _ _ _ _ _ _ _ (Hgood g n Hg)) as (pre & post & Hops).
      assert (op ∈ operations) as Ho by (rewrite Hops; list_mem). apply list_elem_of_lookup in Ho as [i Hi].
      unfold prescribed_regions in Hreg. apply bind_Ok in Hreg as (spans & Hspans & [= <-]).
      assert ((i, op) ∈ imap pair operations) as Hio.
      { apply (list_elem_of_lookup_2 _ i). by rewrite list_lookup_imap, Hi. }
      assert (exists o r, loop_group_id op = Some (o :: r)) as (o & r & Ho).
      { clear -Hspans Hio Hsp. apply list_elem_of_lookup in Hio as [k Hk].
        revert Hspans. generalize (@nil (Z * (nat * nat))). revert k Hk. generalize (imap pair operations).
        induction l as [|x l IH]; intros k Hk; [by rewrite lookup_nil in Hk|]. intros s0. cbn [for_each].
        intros (s1 & Hs1 & Hrest)%bind_Ok. destruct k as [|k]; [|by eapply IH]. injection Hk as ->.
        unfold span_step in Hs1. cbn in Hs1. rewrite Hsp in Hs1. destruct (loop_group_id op) as [[|? ?]|]; eauto; done. }
      destruct (spans_spec operations spans Hspans _ _ _ _ Hio Hsp Ho) as (f & l & Hfl & Hle).
      apply list_elem_of_bind. exists (region_of operations (o, (f, l))). split.
      - by eapply region_names_spec.
      - apply list_elem_of_fmap_2. by apply elem_of_py_sorted. }
    apply not_true_iff_false in Hclash. apply Hclash, existsb_exists. exists (g, n). split; [by apply list_elem_of_In|].
    apply existsb_exists. exists op. split; [by apply list_elem_of_In|]. by apply bool_decide_eq_true.
Qed.
End apply_proofs.

(** ** Divisions on tiles *)

Lemma symbols_by_dim_spec op was :
  _symbols_by_dim op = Ok (Some was) ->
  NoDup (fst <$> was) /\ (snd <$> was) = dkeys (iter_space op).
Proof.
  unfold _symbols_by_dim. intros (rs & _ & H)%bind_Ok. injection H as H.
  destruct (Nat.eqb_spec (length (filter (fun d => (rs ++ reduction_ranges op) !! d <> Some (Some 1))
    (seq 0 (length (rs ++ reduction_ranges op))))) (length (dkeys (iter_space op)))) as [He|]; [|done].
  injection H as <-. rewrite fst_zip, snd_zip by lia. split; [apply NoDup_filter, NoDup_seq | done].
Qed.

(** The entries of the map from old to new symbols, one per dimension both have. *)
Definition tile_entries (was now : list (nat * string)) : dict string :=
  ds ← was; match list_find (fun e => e.1 = ds.1) now with Some (_, e) => [(ds.2, e.2)] | None => [] end.

Lemma elem_of_tile_entries was now s s' :
  NoDup (fst <$> now) ->
  (s, s') ∈ tile_entries was now <-> exists dim, (dim, s) ∈ was /\ (dim, s') ∈ now.
Proof.
  intros Hnd. unfold tile_entries. rewrite list_elem_of_bind. split.
  - intros ([dim s0] & Hin & Hw). destruct (list_find _ now) as [[i [d e]]|] eqn:Hf; [|by apply elem_of_nil in Hin].
    apply list_find_Some in Hf as (Hi & Hd & _). cbn in Hd, Hin. subst d.
    apply list_elem_of_singleton in Hin as [= -> ->]. exists dim. split; [done|]. by eapply list_elem_of_lookup_2.
  - intros (dim & Hw & Hn). exists (dim, s). split; [|done]. cbn [fst snd].
    destruct (list_find (fun e => e.1 = dim) now) as [[i [d e]]|] eqn:Hf.
    + apply list_find_Some in Hf as (Hi & Hd & _). cbn in Hd. subst d.
      apply list_elem_of_lookup in Hn as [j Hj].
      assert (i = j) as -> by (eapply (NoDup_lookup (fst <$> now)); [done | by rewrite list_lookup_fmap, Hi | by rewrite list_lookup_fmap, Hj]).
      rewrite Hi in Hj. injection Hj as ->. list_mem.
    + exfalso. apply list_find_None in Hf. rewrite Forall_forall in Hf. by apply (Hf _ Hn).
Qed.

Lemma tile_entries_keys was now : dkeys (tile_entries was now) `sublist_of` (snd <$> was).
Proof.
  unfold tile_entries, dkeys. induction was as [|[d s] was IH]; csimpl; [constructor|].
  destruct (list_find _ now) as [[i e]|]; csimpl; by constructor.
Qed.

(** Two pairs of one list with the same second component. *)
Lemma NoDup_snd_inj {A B} (l : list (A * B)) a a' b :
  NoDup (snd <$> l) -> (a, b) ∈ l -> (a', b) ∈ l -> a = a'.
Proof.
  intros Hnd [i Hi]%list_elem_of_lookup [j Hj]%list_elem_of_lookup.
  assert (i = j) as -> by (eapply (NoDup_lookup (snd <$> l)); [done | by rewrite list_lookup_fmap, Hi | by rewrite list_lookup_fmap, Hj]).
  congruence.
Qed.

Lemma NoDup_fst_inj {A B} (l : list (A * B)) a b b' :
  NoDup (fst <$> l) -> (a, b) ∈ l -> (a, b') ∈ l -> b = b'.
Proof.
  intros Hnd [i Hi]%list_elem_of_lookup [j Hj]%list_elem_of_lookup.
  assert (i = j) as -> by (eapply (NoDup_lookup (fst <$> l)); [done | by rewrite list_lookup_fmap, Hi | by rewrite list_lookup_fmap, Hj]).
  congruence.
Qed.

(** The renamed splits before they become a dictionary. *)
Definition renamed (m : dict string) (splits : dict Z) : dict Z :=
  sf ← splits; match dget m sf.1 with Some sym => [(sym, sf.2)] | None => [] end.

Lemma elem_of_renamed m splits s' f :
  (s', f) ∈ renamed m splits <-> exists s, (s, f) ∈ splits /\ dget m s = Some s'.
Proof.
  unfold renamed. rewrite list_elem_of_bind. split.
  - intros ([s f0] & Hin & Hs). cbn in Hin. destruct (dget m s) eqn:E; [|by apply elem_of_nil in Hin].
    apply list_elem_of_singleton in Hin as [= -> ->]. eauto.
  - intros (s & Hs & Hm). exists (s, f). cbn. rewrite Hm. split; [list_mem | done].
Qed.

Lemma renamed_NoDup m splits :
  (forall s1 s2 s', dget m s1 = Some s' -> dget m s2 = Some s' -> s1 = s2) ->
  NoDup (dkeys splits) -> NoDup (dkeys (renamed m splits)).
Proof.
  intros Hinj. induction splits as [|[s f] splits IH]; intros Hnd; [constructor|].
  unfold dkeys in Hnd. csimpl in Hnd. apply NoDup_cons in Hnd as [Hs Hnd]. unfold renamed. csimpl. fold (renamed m splits).
  destruct (dget m s) as [s'|] eqn:E; [|by apply IH]. unfold dkeys. csimpl. apply NoDup_cons. split; [|by apply IH].
  intros ([s2 f2] & -> & (s1 & Hs1 & E1)%elem_of_renamed)%list_elem_of_fmap. cbn in *.
  rewrite (Hinj s s1 s2 E E1) in Hs. apply Hs, list_elem_of_fmap. by exists (s1, f2).
Qed.

Lemma renamed_prod m splits :
  (forall s f, (s, f) ∈ splits -> dget m s = None -> f = 1) ->
  zprod (dvalues (renamed m splits)) = zprod (dvalues splits).
Proof.
  unfold dvalues. induction splits as [|[s f] splits IH]; intros H; [done|]. unfold renamed. csimpl. fold (renamed m splits).
  change (zprod (f :: (snd <$> splits))) with (f * zprod (snd <$> splits)).
  rewrite <- IH by (intros; eapply H; [apply list_elem_of_further|]; eauto).
  destruct (dget m s) eqn:E; csimpl; [done|]. rewrite (H s f); [lia | list_mem | done].
Qed.

(** Restating a division on the tile keeps it: when [splits_on_tile] accepts the
    splits chosen for the untiled operation, the restated splits use the same
    number of cores and split every dimension both operations walk by the same
    factor. *)
Theorem tile_keeps_division op tiled was now splits r :
  _symbols_by_dim op = Ok (Some was) -> _symbols_by_dim tiled = Ok (Some now) ->
  NoDup (dkeys (iter_space op)) -> NoDup (dkeys (iter_space tiled)) ->
  NoDup (dkeys splits) -> (forall s f, (s, f) ∈ splits -> 1 <= f) ->
  splits_on_tile (Some (symbols_on_tile was now)) splits = Some r ->
  zprod (dvalues r) = zprod (dvalues splits) /\
  forall dim s s', (dim, s) ∈ was -> (dim, s') ∈ now -> dget_or 1 r s' = dget_or 1 splits s.
Proof.
  intros [Hwf Hws]%symbols_by_dim_spec [Hnf Hns]%symbols_by_dim_spec Hop Htiled Hnd Hpos.
  rewrite <- Hws in Hop. rewrite <- Hns in Htiled.
  assert (NoDup (dkeys (tile_entries was now))) as Hk by (eapply sublist_NoDup; [exact Hop | apply tile_entries_keys]).
  unfold splits_on_tile. replace (symbols_on_tile was now) with (tile_entries was now) by (symmetry; by apply dupdate_nil).
  set (m := tile_entries was now) in *.
  assert (forall s s', dget m s = Some s' <-> exists dim, (dim, s) ∈ was /\ (dim, s') ∈ now) as Hm.
  { intros s s'. rewrite <- elem_of_tile_entries by done. split; [apply dget_Some_elem | by apply dget_NoDup]. }
  destruct (existsb _ splits) eqn:E; [done|]. intros [= <-].
  assert (forall s1 s2 s', dget m s1 = Some s' -> dget m s2 = Some s' -> s1 = s2) as Hinj.
  { intros s1 s2 s' (d1 & Hw1 & Hn1)%Hm (d2 & Hw2 & Hn2)%Hm. rewrite (NoDup_snd_inj now d2 d1 s') in Hw2 by done.
    eapply (NoDup_fst_inj was); [done | exact Hw1 | exact Hw2]. }
  pose proof (renamed_NoDup m splits Hinj Hnd) as Hr. fold (renamed m splits). rewrite dupdate_nil by done.
  assert (forall s f, (s, f) ∈ splits -> dget m s = None -> f = 1) as Hone.
  { intros s f Hin Hs. specialize (Hpos s f Hin). apply not_true_iff_false in E. destruct (decide (1 < f)); [|lia].
    exfalso. apply E, existsb_exists. exists (s, f). split; [by apply list_elem_of_In|]. cbn. unfold dmem. rewrite Hs.
    rewrite bool_decide_false by (intros [? [=]]). cbn. by apply Z.ltb_lt. }
  split; [by apply renamed_prod|]. intros dim s s' Hw Hn.
  assert (dget m s = Some s') as Hs by (apply Hm; eauto). unfold dget_or.
  destruct (dget splits s) as [f|] eqn:Hf.
  - rewrite (dget_NoDup (renamed m splits) s' f); [done | done|]. apply elem_of_renamed. exists s.
    split; [by apply dget_Some_elem | done].
  - destruct (dget (renamed m splits) s') as [f|] eqn:Hf'; [|done]. exfalso.
    apply dget_Some_elem, elem_of_renamed in Hf' as (s2 & Hs2 & Hm2). rewrite (Hinj s2 s s') in Hs2 by done.
    by rewrite (dget_NoDup splits s f) in Hf.
Qed.

(** ** Witnesses *)

Definition ex_producer : graph_op := mkGraphOp "op0" "buf0" example_op [] [mkDep "buf0" true 0] [] None.
Definition ex_consumer : graph_op :=
  mkGraphOp "op1" "buf1" example_op [mkDep "buf0" true 0] [mkDep "buf1" true 0] [] None.
Definition ex_prescribed : graph_op :=
  mkGraphOp "op2" "buf2" example_op [] [] [mkHint 1 (Some "d0"%string) false 4 (Some 8)] (Some [3]).
Definition ex_graph : list graph_op := [ex_producer; ex_consumer; ex_prescribed].
Definition ex_choices : dict TileSpec :=
  [("op0", mkSpec [out_axis 0 2]); ("op1", mkSpec [out_axis 0 2])]%string.
Definition ex_view (op : graph_op) (d : Dep) (l : list (string * Z)) : option (list (string * Z)) := Some l.
Definition ex_same (a b : list (string * Z)) : bool := bool_decide (a = b).

Lemma tiling_groups_spec_witness :
  exists gs, derive_tiling_groups ex_view ex_same (fun _ => false) ex_choices ex_graph = Ok gs /\
    concat (fst <$> gs) = filter (fun op => nest_of ex_choices op <> []) ex_graph.
Proof.
  destruct (derive_tiling_groups ex_view ex_same (fun _ => false) ex_choices ex_graph) as [gs|] eqn:E; [|vm_compute in E; discriminate E].
  exists gs. split; [reflexivity|].
  refine (proj1 (tiling_groups_spec ex_view ex_same (fun _ => false) ex_choices ex_graph gs _ E)).
  apply (bool_decide_unpack _). vm_compute. exact I.
Defined.

Lemma minted_groups_validate_witness :
  exists st, for_each (mint ex_choices) [([ex_producer; ex_consumer], [2])] (5, []) = Ok st /\
    validate_coarse_tile_groups st.2 = Ok tt.
Proof.
  destruct (for_each (mint ex_choices) [([ex_producer; ex_consumer], [2])] (5, [])) as [st|] eqn:E; [|vm_compute in E; discriminate E].
  exists st. split; [reflexivity|].
  refine (minted_groups_validate ex_choices [([ex_producer; ex_consumer], [2])] 5 st _ E).
  intros g op ->%list_elem_of_singleton [-> | [-> | H%elem_of_nil]%elem_of_cons]%elem_of_cons; [reflexivity | reflexivity | destruct H].
Defined.

Lemma apply_tilings_spec_witness :
  exists gs offset, apply_tilings ex_view ex_same (fun _ => false) ex_choices ex_graph = Ok (Some (gs, offset)) /\
    StronglySorted ids_ascend gs.
Proof.
  destruct (apply_tilings ex_view ex_same (fun _ => false) ex_choices ex_graph) as [[[gs offset]|]|] eqn:E;
    [|vm_compute in E; discriminate E..].
  exists gs, offset. split; [reflexivity|].
  destruct (apply_tilings_spec ex_view ex_same (fun _ => false) ex_choices ex_graph gs offset) as (_ & _ & _ & H & _).
  - apply (bool_decide_unpack _). vm_compute. exact I.
  - exact E.
  - exact H.
Defined.

(** A (64, 64, 128) operation tiled 64 ways along its first dimension. *)
Definition ex_untiled : tile_op :=
  mkTileOp true true false false (Some 2) false (Some [Some 64; Some 64; Some 128]) [] [] true []
    [("d0", Some 64); ("d1", Some 64); ("d2", Some 128)]%string None [] (fun _ => false) (fun _ _ => true) (fun _ _ => false).
Definition ex_unit_tile : tile_op :=
  mkTileOp true true false false (Some 2) false (Some [Some 1; Some 64; Some 128]) [] [] true []
    [("d0", Some 64); ("d1", Some 128)]%string None [] (fun _ => false) (fun _ _ => true) (fun _ _ => false).

Lemma tile_keeps_division_witness :
  splits_on_tile (Some (symbols_on_tile [(0, "d0"); (1, "d1"); (2, "d2")] [(1, "d0"); (2, "d1")]))%nat%string
    [("d1", 8); ("d2", 2)]%string = Some [("d0", 8); ("d1", 2)]%string /\
  zprod (dvalues [("d0", 8); ("d1", 2)]%string) = zprod (dvalues [("d1", 8); ("d2", 2)]%string).
Proof.
  split; [reflexivity|].
  refine (proj1 (tile_keeps_division ex_untiled ex_unit_tile [(0, "d0"); (1, "d1"); (2, "d2")]%nat%string
    [(1, "d0"); (2, "d1")]%nat%string [("d1", 8); ("d2", 2)]%string [("d0", 8); ("d1", 2)]%string _ _ _ _ _ _ _));
    try reflexivity.
  - apply (bool_decide_unpack _). vm_compute. exact I.
  - apply (bool_decide_unpack _). vm_compute. exact I.
  - apply (bool_decide_unpack _). vm_compute. exact I.
  - intros s f [[= -> ->] | [[= -> ->] | H%elem_of_nil]%elem_of_cons]%elem_of_cons; [lia | lia | destruct H].
Defined.
