(* ===== verification/SliceOwnership.v ===== *)
(** * Coordinate proofs for slice ownership ([slice_ownership.py])

    A tensor axis of [device_extent] sticks is split into [split] equal slices, and an
    access walks the axis with a coordinate over several loops.  The functions of
    this module certify that splitting one loop ([project_affine_slice_axis], with
    its variant under a floor) or several ([factor_slice_axis]) hands out exactly
    those slices.

    Coordinates are sympy expressions.  What the code asks sympy about one is the
    record [affine_query] or [floor_query], or the list of terms
    [Add.make_args(expand(c))] returns; [value] is the integer the expression denotes
    when the loops have the given values.  The laws state what sympy's answers mean:
    an expression whose expanded difference to [origin + sum(c * s)] is zero denotes
    that sum.  [free_symbols] is a Python set, taken in some order: the results do
    not depend on it. *)

From S2P Require Import Prelude PyDict.

(** What is asked of one affine candidate: [None] where [is_Integer] is not true. *)
Record affine_query := mkAffine {
  free_symbols : list string;
  origin : option Z;
  coeff : string -> option Z;
  residual_zero : bool;
  value : (string -> Z) -> Z
}.

(** The sum of [c * s] over the symbols. *)
Definition linear (coefficients : string -> Z) (symbols : list string) (env : string -> Z) : Z :=
  zsum ((fun s => coefficients s * env s) <$> symbols).

Definition affine_law (q : affine_query) : Prop :=
  forall o, origin q = Some o -> (forall s, s ∈ free_symbols q -> is_Some (coeff q s)) -> residual_zero q = true ->
    forall env, value q env = o + linear (fun s => default 0 (coeff q s)) (free_symbols q) env.

(** ** [project_affine_slice_axis] *)

(** An extent of the iteration space: [None] when it is not a positive integer. *)
Definition positive_extent (space : dict (option Z)) (s : string) : option Z :=
  match dget space s with Some (Some e) => if 0 <? e then Some e else None | _ => None end.

Fixpoint all_extents (space : dict (option Z)) (symbols : list string) : option (dict Z) :=
  match symbols with
  | [] => Some []
  | s :: rest =>
      match positive_extent space s, all_extents space rest with
      | Some e, Some k => Some ((s, e) :: k)
      | _, _ => None
      end
  end.

(** The containment test of one slot. *)
Definition slot_contained (o step loop_width other_span width slot : Z) : bool :=
  let low := o + step * slot * loop_width in
  let high := low + step * (loop_width - 1) + other_span in
  (slot * width <=? low) && (low <=? high) && (high <? (slot + 1) * width).

(** One loop: its projection, if every slot is contained. *)
Definition project_loop (q : affine_query) (o width split : Z) (extents : dict Z) (le : string * Z)
    : list (string * (Z * Z)) :=
  if negb (le.2 mod split =? 0) then []
  else
    let step := default 0 (coeff q le.1) in
    let other_span := zsum ((fun se => default 0 (coeff q se.1) * (se.2 - 1)) <$>
                              filter (fun se => se.1 <> le.1) extents) in
    if forallb (slot_contained o step (le.2 / split) other_span width) (seqZ 0 split)
    then [(le.1, (o, step))] else [].

(** The result is the loop and the line [origin + step * loop]. *)
Definition project_affine_slice_axis (q : affine_query) (device_extent split : Z) (space : dict (option Z))
    : res (option (string * (Z * Z))) :=
  if (length (free_symbols q) <? 2)%nat || negb (forallb (fun s => dmem space s) (free_symbols q)) then Ok None
  else match origin q with
  | None => Ok None
  | Some o =>
      if existsb (fun s => match coeff q s with Some c => c <=? 0 | None => true end) (free_symbols q)
         || negb (residual_zero q) then Ok None
      else match all_extents space (free_symbols q) with
      | None => Ok None
      | Some extents =>
          raise_if (split =? 0) ZeroDivisionError;;
          Ok (match (le ← extents; project_loop q o (device_extent / split) split extents le) with
              | [p] => Some p
              | _ => None
              end)
      end
  end.

(** ** [project_floor_affine_slice_axis] *)

(** A coordinate [A + floor(B)]: [integer_part] answers for [A], [floor_num] and
    [floor_den] for [B], and [scaled], [denominator] for
    [together(A + B).as_numer_denom()].  The symbols of [integer_part] are those of
    the whole coordinate. *)
Record floor_query := mkFloor {
  one_floor : bool;
  integer_part : affine_query;
  floor_num : (string -> Z) -> Z;
  floor_den : Z;
  scaled : affine_query;
  denominator : option Z
}.

Definition floor_value (f : floor_query) (env : string -> Z) : Z :=
  value (integer_part f) env + floor_num f env / floor_den f.

Definition floor_law (f : floor_query) : Prop :=
  0 < floor_den f /\ affine_law (scaled f) /\
  forall d env, denominator f = Some d ->
    value (scaled f) env * floor_den f = (value (integer_part f) env * floor_den f + floor_num f env) * d.

(** The certified loop; the line returned is the original access with the other
    loops at zero. *)
Definition project_floor_affine_slice_axis (f : floor_query) (device_extent split : Z) (space : dict (option Z))
    : res (option string) :=
  if negb (one_floor f) then Ok None
  else if bool_decide (origin (integer_part f) = None)
          || existsb (fun s => bool_decide (coeff (integer_part f) s = None)) (free_symbols (integer_part f))
          || negb (residual_zero (integer_part f)) then Ok None
  else match denominator f with
  | None => Ok None
  | Some d =>
      if d <=? 0 then Ok None
      else
        projected ← project_affine_slice_axis (scaled f) (device_extent * d) split space;
        Ok (option_map fst projected)
  end.

(** ** [project_slice_axis] *)

(** A coordinate as both proofs see it. *)
Record coordinate := mkCoordinate { as_affine : affine_query; as_floor : floor_query }.

(** [SLICE_OWNERSHIP_PROOFS]: the proof, and whether it is a floor recovery. *)
Definition SLICE_OWNERSHIP_PROOFS
    : list ((coordinate -> Z -> Z -> dict (option Z) -> res (option string)) * bool) :=
  [(fun c de sp space => p ← project_affine_slice_axis (as_affine c) de sp space; Ok (option_map fst p), false);
   (fun c de sp space => project_floor_affine_slice_axis (as_floor c) de sp space, true)].

Fixpoint try_proofs (proofs : list ((coordinate -> Z -> Z -> dict (option Z) -> res (option string)) * bool))
    (c : coordinate) (device_extent split : Z) (space : dict (option Z)) (floor_only : bool) : res (option string) :=
  match proofs with
  | [] => Ok None
  | (prove, floor_recovery) :: rest =>
      if floor_only && negb floor_recovery then try_proofs rest c device_extent split space floor_only
      else
        projected ← prove c device_extent split space;
        match projected with
        | Some loop => Ok (Some loop)
        | None => try_proofs rest c device_extent split space floor_only
        end
  end.

Definition project_slice_axis (c : coordinate) (device_extent split : Z) (space : dict (option Z))
    (floor_only : bool) : res (option string) :=
  try_proofs SLICE_OWNERSHIP_PROOFS c device_extent split space floor_only.

(** ** [factor_slice_axis] *)

(** What a term's digit is: a loop, the floor of a loop over a number ([None] when the
    denominator is not an integer), or anything else. *)
Inductive digit : Set := DSymbol (loop : string) | DFloor (loop : string) (den : option Z) | DOther.

(** A term of the sum: [as_coeff_Mul()]. *)
Definition term : Set := option Z * digit.

Definition digit_value (d : digit) (env : string -> Z) : Z :=
  match d with DSymbol l => env l | DFloor l (Some n) => env l / n | _ => 0 end.

(** The loop and divisor of a digit. *)
Definition digit_loop (d : digit) : option (string * Z) :=
  match d with
  | DSymbol l => Some (l, 1)
  | DFloor l (Some n) => if n <=? 0 then None else Some (l, n)
  | _ => None
  end.

(** The loop over the terms: [(coefficient, digit, radix)] per term. *)
Fixpoint collect_digits (space : dict (option Z)) (terms : list term) (seen : list string)
    : option (list (Z * digit * Z)) :=
  match terms with
  | [] => Some []
  | (c, d) :: rest =>
      match c with
      | None => None
      | Some coefficient =>
          if coefficient <=? 0 then None
          else match digit_loop d with
          | None => None
          | Some (loop, divisor) =>
              if bool_decide (loop ∈ seen) then None
              else match positive_extent space loop with
              | None => None
              | Some extent =>
                  if negb (extent mod divisor =? 0) then None
                  else
                    let radix := extent / divisor in
                    if radix <=? 1 then None
                    else match collect_digits space rest (seen ++ [loop]) with
                         | Some k => Some ((coefficient, d, radix) :: k)
                         | None => None
                         end
              end
          end
      end
  end.

(** The owner of a digit's block: [Mod(floor(slot / remaining), factor)]. *)
Record factored := mkFactored { f_radix : Z; f_digit : digit; f_factor : Z; f_owner : Z -> Z }.

Fixpoint factor_digits (digits : list (Z * digit * Z)) (stride remaining : Z)
    : res (option (list factored)) :=
  match digits with
  | [] => Ok (if (stride =? 1) && (remaining =? 1) then Some [] else None)
  | (coefficient, d, radix) :: rest =>
      if negb (stride mod radix =? 0) || negb (coefficient =? stride / radix) then Ok None
      else
        let factor := Z.min radix remaining in
        raise_if (factor =? 0) ZeroDivisionError;;
        if negb (radix mod factor =? 0) || negb (remaining mod factor =? 0) then Ok None
        else
          let remaining' := remaining / factor in
          k ← factor_digits rest (stride / radix) remaining';
          Ok (match k with
              | Some k => Some (mkFactored radix d factor (fun slot => (slot / remaining') mod factor) :: k)
              | None => None
              end)
  end.

Definition factor_slice_axis (terms : list term) (device_extent split : Z) (space : dict (option Z))
    : res (option (list factored)) :=
  match collect_digits space terms [] with
  | None => Ok None
  | Some digits =>
      if (length digits <? 2)%nat || (4 <? length digits)%nat then Ok None
      else factor_digits (py_sorted (fun a b => b.1.1 <=? a.1.1) digits) device_extent split
  end.

(** ** Containment *)

Lemma all_extents_spec space symbols extents :
  all_extents space symbols = Some extents ->
  dkeys extents = symbols /\ forall s e, (s, e) ∈ extents -> 0 < e /\ dget space s = Some (Some e).
Proof.
  revert extents. induction symbols as [|s symbols IH]; intros extents; cbn [all_extents].
  - intros [= <-]. split; [done|]. intros s e H. by apply elem_of_nil in H.
  - unfold positive_extent. destruct (dget space s) as [[e|]|] eqn:E; try done.
    destruct (Z.ltb_spec 0 e); [|done]. destruct (all_extents space symbols) as [k|] eqn:Ek; [|done].
    intros [= <-]. destruct (IH k eq_refl) as [Hk He]. split; [unfold dkeys; csimpl; by rewrite <- Hk|].
    intros s' e' [[= -> ->] | Hin]%elem_of_cons; auto.
Qed.

(** The part of the sum over one symbol, and the rest. *)
Lemma linear_split c (symbols : list string) loop env :
  NoDup symbols -> loop ∈ symbols ->
  linear c symbols env = c loop * env loop + linear c (filter (fun s => s <> loop) symbols) env.
Proof.
  unfold linear. induction 1 as [|s symbols Hs Hnd IH]; intros Hin; [by apply elem_of_nil in Hin|].
  rewrite fmap_cons, zsum_cons. apply elem_of_cons in Hin as [-> | Hin].
  - rewrite filter_cons_False by tauto. rewrite filter_all; [done|].
    intros x Hx ->. done.
  - rewrite filter_cons_True by (intros ->; done). rewrite fmap_cons, zsum_cons, IH by done. lia.
Qed.

(** Positive coefficients: the sum ranges between zero and its value at the last
    iterations. *)
Lemma linear_bounds c (extents : dict Z) env :
  (forall s e, (s, e) ∈ extents -> 0 < c s /\ 0 <= env s < e) ->
  0 <= linear c (dkeys extents) env <= zsum ((fun se => c se.1 * (se.2 - 1)) <$> extents).
Proof.
  unfold linear, dkeys. induction extents as [|[s e] extents IH]; intros H; [unfold zsum; simpl; lia|].
  rewrite !fmap_cons, !zsum_cons. destruct (H s e) as [Hc He]; [list_mem|].
  destruct IH as [IH1 IH2]; [intros; apply H; list_mem|]. cbn [fst snd]. nia.
Qed.

Lemma dkeys_filter (d : dict Z) k : dkeys (filter (fun se => se.1 <> k) d) = filter (fun s => s <> k) (dkeys d).
Proof.
  unfold dkeys. induction d as [|[a v] d IH]; [done|]. csimpl. destruct (decide (a = k)) as [-> | Hne].
  - rewrite filter_cons_False by (cbn; tauto). rewrite filter_cons_False by tauto. done.
  - rewrite filter_cons_True by (cbn; tauto). rewrite filter_cons_True by tauto. csimpl. by rewrite IH.
Qed.

(** The loops stay in their ranges. *)
Definition in_ranges (space : dict (option Z)) (env : string -> Z) : Prop :=
  forall s e, dget space s = Some (Some e) -> 0 <= env s < e.

Lemma affine_contained q device_extent split space loop line :
  affine_law q -> NoDup (free_symbols q) -> 0 < split ->
  project_affine_slice_axis q device_extent split space = Ok (Some (loop, line)) ->
  exists extent, dget space loop = Some (Some extent) /\ 0 < extent /\ extent mod split = 0 /\
    forall env, in_ranges space env ->
      value q env / (device_extent / split) = env loop / (extent / split) /\ 0 <= value q env < split * (device_extent / split).
Proof.
  intros Hlaw Hnd Hsplit. unfold project_affine_slice_axis.
  destruct (_ || _); [done|]. destruct (origin q) as [o|] eqn:Ho; [|done].
  destruct (_ || _) eqn:Hc; [done|]. split_bools. destruct (all_extents space (free_symbols q)) as [extents|] eqn:He; [|done].
  intros ([] & _ & Hrun)%bind_Ok. injection Hrun as Hrun. destruct (all_extents_spec _ _ _ He) as [Hk Hext].
  assert ((loop, line) ∈ (le ← extents; project_loop q o (device_extent / split) split extents le)) as Hin.
  { destruct (le ← extents; _) as [|p [|]]; simplify_eq. list_mem. }
  apply list_elem_of_bind in Hin as ([l extent] & Hp & Hle). unfold project_loop in Hp. cbn [fst snd] in Hp.
  destruct (Z.eqb_spec (extent mod split) 0) as [Hmod | Hmod]; [|by apply elem_of_nil in Hp]. cbn [negb] in Hp.
  set (c := fun s => default 0 (coeff q s)) in *.
  set (other := zsum _) in Hp. destruct (forallb _ _) eqn:Hall; [|by apply elem_of_nil in Hp].
  apply list_elem_of_singleton in Hp as [= -> _]. destruct (Hext l extent Hle) as [Hpos Hget].
  assert (forall s, s ∈ free_symbols q -> is_Some (coeff q s) /\ 0 < c s) as Hcoef.
  { intros s Hs. unfold c. destruct (coeff q s) as [cs|] eqn:E.
    - split; [eauto|]. cbn. destruct (Z.leb_spec cs 0) as [Hneg|]; [|lia]. exfalso.
      match goal with H : existsb _ (free_symbols q) = false |- _ => apply not_true_iff_false in H; apply H end.
      apply existsb_exists. exists s. split; [by apply list_elem_of_In|]. rewrite E. lia.
    - exfalso. match goal with H : existsb _ (free_symbols q) = false |- _ => apply not_true_iff_false in H; apply H end.
      apply existsb_exists. exists s. split; [by apply list_elem_of_In|]. by rewrite E. }
  exists extent. split_and!; [done | done | done|]. intros env Henv.
  assert (value q env = o + c l * env l + linear c (dkeys (filter (fun se => se.1 <> l) extents)) env) as Hval.
  { rewrite (Hlaw o); [|done| |done]. 2:{ intros s Hs. by apply Hcoef. }
    fold c. rewrite (linear_split c (free_symbols q) l); [|done|].
    - rewrite dkeys_filter, Hk. lia.
    - rewrite <- Hk. apply list_elem_of_fmap. by exists (l, extent). }
  assert (0 <= linear c (dkeys (filter (fun se => se.1 <> l) extents)) env <= other) as Hoth.
  { apply linear_bounds. intros s e [_ Hin]%list_elem_of_filter. destruct (Hext s e Hin) as [Hpe Hge]. split; [|by apply Henv].
    apply Hcoef. rewrite <- Hk. apply list_elem_of_fmap. by exists (s, e). }
  set (lw := extent / split) in *. assert (extent = split * lw) as Hlw by (apply Z.div_exact; lia).
  assert (0 < lw) as Hlwpos by nia. pose proof (Henv l extent Hget) as Hl. set (slot := env l / lw).
  assert (0 <= slot < split) as Hslot.
  { split; [apply Z.div_pos; lia|]. apply Z.div_lt_upper_bound; lia. }
  assert (slot_contained o (c l) lw other (device_extent / split) slot = true) as Hs.
  { rewrite forallb_forall in Hall. apply Hall, list_elem_of_In, elem_of_seqZ. lia. }
  unfold slot_contained in Hs. split_bools. pose proof (Hcoef l) as [_ Hcl].
  { rewrite <- Hk. apply list_elem_of_fmap. by exists (l, extent). }
  assert (slot * lw <= env l <= slot * lw + (lw - 1)) as Hrow.
  { unfold slot. pose proof (Z.div_mod (env l) lw ltac:(lia)). pose proof (Z.mod_pos_bound (env l) lw Hlwpos). lia. }
  set (w := device_extent / split) in *. assert (slot * w <= value q env < (slot + 1) * w) as Hbounds by nia.
  assert (0 < w) by nia. split; [|nia]. fold slot. symmetry. apply (Z.div_unique _ _ _ (value q env - w * slot)); lia.
Qed.

(** A certified loop owns the slices.  When [project_affine_slice_axis] returns a
    loop, then for every point of the iteration space the slice its coordinate
    falls into is the block of that loop's own partition, whatever the other
    loops do, and the coordinate stays inside the split axis. *)
Theorem affine_projection_owns q device_extent split space loop line :
  affine_law q -> NoDup (free_symbols q) -> 0 < split ->
  project_affine_slice_axis q device_extent split space = Ok (Some (loop, line)) ->
  exists extent, dget space loop = Some (Some extent) /\ 0 < extent /\ extent mod split = 0 /\
    forall env, in_ranges space env ->
      value q env / (device_extent / split) = env loop / (extent / split) /\ 0 <= value q env < split * (device_extent / split).
Proof. apply affine_contained. Qed.

(** The floor variant certifies the floored coordinate: when
    [project_floor_affine_slice_axis] returns a loop and the splits divide the axis,
    the slice of [A + floor(B)] at every point is the block of that loop. *)
Theorem floor_projection_owns f device_extent split space loop :
  floor_law f -> NoDup (free_symbols (scaled f)) -> 0 < split -> (split | device_extent) ->
  project_floor_affine_slice_axis f device_extent split space = Ok (Some loop) ->
  exists extent, dget space loop = Some (Some extent) /\ 0 < extent /\ extent mod split = 0 /\
    forall env, in_ranges space env ->
      floor_value f env / (device_extent / split) = env loop / (extent / split) /\ 0 <= floor_value f env < device_extent.
Proof.
  intros (Hden & Hlaw & Hrel) Hnd Hsplit [k Hk]. unfold project_floor_affine_slice_axis.
  destruct (negb (one_floor f)); [done|]. destruct (_ || _); [done|]. destruct (denominator f) as [d|] eqn:Hd; [|done].
  destruct (Z.leb_spec d 0); [done|]. intros (p & Hp & [= He])%bind_Ok. destruct p as [[l line]|]; [|done].
  injection He as ->. destruct (affine_contained _ _ _ _ _ _ Hlaw Hnd Hsplit Hp) as (extent & Hget & Hpos & Hmod & Hall).
  exists extent. split_and!; [done | done | done|]. intros env Henv. destruct (Hall env Henv) as [Hslot Hin].
  assert (device_extent / split = k) as Hw by (rewrite Hk; apply Z.div_mul; lia).
  assert (device_extent * d / split = k * d) as Hwd.
  { rewrite Hk. replace (k * split * d) with (k * d * split) by ring. apply Z.div_mul. lia. }
  rewrite Hwd in Hslot, Hin. rewrite Hw. specialize (Hrel d env eq_refl).
  assert (floor_value f env = value (scaled f) env / d) as Hfl.
  { unfold floor_value. set (A := value (integer_part f) env) in *. set (B := floor_num f env) in *.
    rewrite <- (Z.div_mul_cancel_r (value (scaled f) env) d (floor_den f)) by lia. rewrite Hrel.
    rewrite (Z.mul_comm d), Z.div_mul_cancel_r by lia. by rewrite Z.div_add_l by lia. }
  rewrite Hfl. split.
  - rewrite Z.div_div by nia. rewrite (Z.mul_comm d). done.
  - split; [apply Z.div_pos; lia|]. apply Z.div_lt_upper_bound; nia.
Qed.

(** ** Factored axes *)

(** A digit within its radix. *)
Definition digit_ok (env : string -> Z) (cdr : Z * digit * Z) : Prop :=
  1 < cdr.2 /\ 0 <= digit_value cdr.1.2 env < cdr.2.

(** The number the digits write. *)
Definition digits_value (env : string -> Z) (digits : list (Z * digit * Z)) : Z :=
  zsum ((fun cdr => cdr.1.1 * digit_value cdr.1.2 env) <$> digits).

(** What factoring the digits from [stride] and [remaining] establishes. *)
Record factors_axis (digits : list (Z * digit * Z)) (stride remaining : Z) (fs : list factored) : Prop := {
  fa_digits : f_digit <$> fs = (fun cdr => cdr.1.2) <$> digits;
  fa_split : exists w, stride = remaining * w /\ 1 <= w;
  fa_prod : remaining = zprod (f_factor <$> fs);
  fa_periodic : forall f x k, f ∈ fs -> f_owner f (x + remaining * k) = f_owner f x;
  fa_inj : forall k k', 0 <= k < remaining -> 0 <= k' < remaining ->
    (forall f, f ∈ fs -> f_owner f k = f_owner f k') -> k = k';
  fa_owns : forall env, Forall (digit_ok env) digits ->
    0 <= digits_value env digits < stride /\
    forall f, f ∈ fs -> digit_value (f_digit f) env / (f_radix f / f_factor f) =
      f_owner f (digits_value env digits / (stride / remaining))
}.

Lemma div_exact_mul a b : b <> 0 -> a mod b = 0 -> a = b * (a / b).
Proof. intros. by apply Z.div_exact. Qed.

Lemma owner_periodic R' f x k : 0 < R' -> 0 < f -> ((x + f * R' * k) / R') mod f = (x / R') mod f.
Proof.
  intros HR Hf. replace (x + f * R' * k) with (x + (f * k) * R') by ring. rewrite Z.div_add by lia.
  rewrite (Z.mul_comm f). apply Z.mod_add. lia.
Qed.

(** The head digit is split whole: it is the leading digit of the slot. *)
Lemma owner_whole v r R' w V :
  0 < R' -> 0 < w -> 0 <= v < r -> 0 <= V < R' * w ->
  (R' * w * v + V) / w = V / w + R' * v /\ (((R' * w * v + V) / w) / R') mod r = v.
Proof.
  intros HR Hw Hv HV. assert ((R' * w * v + V) / w = V / w + R' * v) as He.
  { replace (R' * w * v + V) with (V + (R' * v) * w) by ring. by rewrite Z.div_add by lia. }
  split; [done|]. rewrite He, (Z.mul_comm R'), Z.div_add by lia.
  rewrite (Z.div_small (V / w) R'); [rewrite Z.add_0_l; by apply Z.mod_small|].
  split; [apply Z.div_pos; lia | apply Z.div_lt_upper_bound; lia].
Qed.

(** The head digit takes all the splits that remain. *)
Lemma owner_last v q R S V :
  0 < q -> 0 < R -> 0 <= v < R * q -> 0 <= V < S ->
  (S * v + V) / (q * S) = v / q /\ (v / q) mod R = v / q.
Proof.
  intros Hq HR Hv HV. split.
  - rewrite (Z.mul_comm q), <- Z.div_div by lia. f_equal. rewrite Z.mul_comm, Z.div_add_l, Z.div_small by lia. lia.
  - apply Z.mod_small. split; [apply Z.div_pos; lia | apply Z.div_lt_upper_bound; lia].
Qed.

Lemma factor_digits_spec digits : forall stride remaining fs,
  1 <= remaining -> Forall (fun cdr => 1 < cdr.2) digits -> factor_digits digits stride remaining = Ok (Some fs) ->
  factors_axis digits stride remaining fs.
Proof.
  induction digits as [|[[c d] r] digits IH]; intros stride R fs HR Hrad; cbn [factor_digits].
  { destruct (Z.eqb_spec stride 1) as [->|]; [|done]. destruct (Z.eqb_spec R 1) as [->|]; [|done]. intros [= <-]. split; try done.
    - by exists 1.
    - intros ? ? ? H. by apply elem_of_nil in H.
    - lia.
    - intros env _. split; [unfold digits_value, zsum; simpl; lia|]. intros ? H. by apply elem_of_nil in H. }
  apply Forall_cons in Hrad as [Hr Hrad]. cbn in Hr.
  destruct (Z.eqb_spec (stride mod r) 0) as [Hsr|]; [|done]. destruct (Z.eqb_spec c (stride / r)) as [->|]; [|done]. cbn [negb orb].
  set (f := Z.min r R). unfold raise_if. destruct (Z.eqb_spec f 0); [lia|]. cbn [mbind res_bind].
  destruct (Z.eqb_spec (r mod f) 0) as [Hrf|]; [|done]. destruct (Z.eqb_spec (R mod f) 0) as [HRf|]; [|done]. cbn [negb orb].
  apply div_exact_mul in Hsr, Hrf, HRf; [|lia..]. set (S' := stride / r) in *. set (R' := R / f) in *. set (q := r / f) in *.
  intros (k & Hk & Hfs)%bind_Ok. destruct k as [k|]; [|done]. injection Hfs as <-.
  assert (1 <= f) as Hf1 by lia. assert (1 <= R') as HR' by nia. assert (1 <= q) as Hq by nia.
  destruct (IH S' R' k HR' Hrad Hk) as [Hd (w & Hw & Hw1) Hp Hper Hinj Hown].
  assert (stride / R = q * w) as Hwidth.
  { rewrite Hsr, Hrf, HRf, Hw. replace (f * q * (R' * w)) with (q * w * (f * R')) by ring. apply Z.div_mul. nia. }
  assert (S' / R' = w) as Hw' by (rewrite Hw, Z.mul_comm; apply Z.div_mul; lia).
  split.
  - csimpl. by rewrite Hd.
  - exists (q * w). split; [rewrite Hsr, Hrf, HRf, Hw; ring | nia].
  - change (f_factor <$> _ :: k) with (f :: (f_factor <$> k)). change (zprod (f :: ?l)) with (f * zprod l). lia.
  - intros g x j [-> | Hg]%elem_of_cons; cbn [f_owner].
    + rewrite HRf. apply owner_periodic; lia.
    + rewrite HRf. replace (x + f * R' * j) with (x + R' * (f * j)) by ring. by apply Hper.
  - intros a b Ha Hb Hall. assert (a / R' = b / R') as Hhead.
    { specialize (Hall _ (list_elem_of_here _ _)). cbn [f_owner] in Hall. rewrite !Z.mod_small in Hall; [done|..];
        (split; [apply Z.div_pos; lia | apply Z.div_lt_upper_bound; lia]). }
    assert (a mod R' = b mod R') as Htail.
    { apply Hinj; [apply Z.mod_pos_bound; lia..|]. intros g Hg. specialize (Hall g (list_elem_of_further _ _ _ Hg)).
      rewrite (Z.div_mod a R'), (Z.div_mod b R') in Hall by lia. rewrite !(Z.add_comm (R' * _)), !Hper in Hall by done. done. }
    rewrite (Z.div_mod a R'), (Z.div_mod b R') by lia. by rewrite Hhead, Htail.
  - intros env [[_ Hv] Henv]%Forall_cons. cbn in Hv. destruct (Hown env Henv) as [HV Howns]. rewrite Hw' in Howns.
    set (V := digits_value env digits) in *. set (v := digit_value d env) in *.
    assert (digits_value env ((S', d, r) :: digits) = S' * v + V) as ->.
    { unfold digits_value. rewrite fmap_cons, zsum_cons. done. }
    split; [rewrite Hsr; nia|]. rewrite Hwidth. destruct (decide (r <= R)) as [Hle | Hgt].
    + assert (f = r) as Hfr by lia. assert (q = 1) as Hq1 by nia. rewrite Hq1, Z.mul_1_l, Hw.
      destruct (owner_whole v r R' w V) as [Hsl Hhd]; [lia | lia | lia | lia|].
      intros g [-> | Hg]%elem_of_cons; cbn [f_owner f_digit f_radix f_factor].
      * fold q. rewrite Hq1, Z.div_1_r. fold v. rewrite Hfr. by symmetry.
      * rewrite Hsl, Hper by done. by apply Howns.
    + assert (f = R) as HfR by lia. assert (R' = 1) as HR1 by nia. assert (S' = w) as HSw by lia.
      destruct (owner_last v q R S' V) as [Hsl Hhd]; [lia | lia | rewrite <- HfR, <- Hrf; lia | lia|]. rewrite <- HSw, Hsl.
      intros g [-> | Hg]%elem_of_cons; cbn [f_owner f_digit f_radix f_factor].
      * fold q. fold v. rewrite HR1, Z.div_1_r, HfR. by symmetry.
      * rewrite (Howns g Hg), <- HSw, (Z.div_small V) by lia. rewrite <- (Hper g 0 (v / q) Hg), HR1. f_equal. lia.
Qed.

Lemma collect_digits_ok space terms : forall seen digits,
  collect_digits space terms seen = Some digits ->
  Forall (fun cdr => 1 < cdr.2) digits /\
  (forall env, in_ranges space env -> Forall (digit_ok env) digits) /\
  terms = (fun cdr => (Some cdr.1.1, cdr.1.2)) <$> digits.
Proof.
  induction terms as [|[c d] terms IH]; intros seen digits; cbn [collect_digits].
  { intros [= <-]. split_and!; [constructor | constructor | done]. }
  destruct c as [c|]; [|done]. destruct (Z.leb_spec c 0); [done|]. destruct (digit_loop d) as [[loop div]|] eqn:Hd; [|done].
  destruct (bool_decide _); [done|]. unfold positive_extent. destruct (dget space loop) as [[e|]|] eqn:He; try done.
  destruct (Z.ltb_spec 0 e); [|done]. destruct (Z.eqb_spec (e mod div) 0) as [Hm|]; [|done]. cbn [negb].
  destruct (Z.leb_spec (e / div) 1); [done|]. destruct (collect_digits space terms (seen ++ [loop])) as [k|] eqn:Hk; [|done].
  intros [= <-]. destruct (IH _ _ Hk) as (Hi1 & Hi2 & Hi3). split_and!.
  - constructor; [cbn; lia | done].
  - intros env Henv. constructor; [|by apply Hi2]. split; [cbn; lia|]. cbn [fst snd]. pose proof (Henv loop e He) as Hl.
    destruct d as [l|l [n|]|]; cbn in Hd; simplify_eq.
    + cbn. by rewrite Z.div_1_r.
    + destruct (Z.leb_spec n 0); simplify_eq. cbn. apply div_exact_mul in Hm; [|lia].
      split; [apply Z.div_pos; lia | apply Z.div_lt_upper_bound; lia].
  - csimpl. by rewrite Hi3.
Qed.

(** The integer a sum of terms denotes. *)
Definition terms_value (env : string -> Z) (terms : list term) : Z :=
  zsum ((fun t => default 0 t.1 * digit_value t.2 env) <$> terms).

(** A factored axis is split exactly.  When [factor_slice_axis] returns factors, they
    multiply to [split], which divides the axis; and at every point of the iteration
    space the coordinate lies in slice [slot] exactly when every digit lies in the
    block its owner expression assigns to [slot]. *)
Theorem factored_axis_owns terms device_extent split space fs :
  1 <= split -> factor_slice_axis terms device_extent split space = Ok (Some fs) ->
  zprod (f_factor <$> fs) = split /\ (split | device_extent) /\
  forall env, in_ranges space env ->
    0 <= terms_value env terms < device_extent /\
    forall slot, 0 <= slot < split ->
      (terms_value env terms / (device_extent / split) = slot <->
       forall f, f ∈ fs -> digit_value (f_digit f) env / (f_radix f / f_factor f) = f_owner f slot).
Proof.
  intros Hs. unfold factor_slice_axis. destruct (collect_digits space terms []) as [digits|] eqn:Hd; [|done].
  destruct (_ || _); [done|]. destruct (collect_digits_ok _ _ _ _ Hd) as (Hrad & Hok & Hterms).
  set (sorted := py_sorted _ digits). assert (sorted ≡ₚ digits) as Hp by apply py_sorted_perm. intros Hrun.
  assert (Forall (fun cdr => 1 < cdr.2) sorted) as Hrad' by (by rewrite Hp).
  destruct (factor_digits_spec _ _ _ _ Hs Hrad' Hrun) as [_ (w & Hw & Hw1) Hprod _ Hinj Hown].
  split_and!; [done | exists w; lia|]. intros env Henv. specialize (Hok env Henv).
  assert (Forall (digit_ok env) sorted) as Hok' by (by rewrite Hp). destruct (Hown env Hok') as [HV Hf].
  assert (digits_value env sorted = terms_value env terms) as He.
  { unfold digits_value, terms_value. rewrite Hp, Hterms, <- list_fmap_compose. done. }
  rewrite He in *. split; [done|]. intros slot Hslot. split; [intros <-; done|]. intros Hall.
  assert (device_extent / split = w) as Hdw by (rewrite Hw, Z.mul_comm; apply Z.div_mul; lia). rewrite Hdw in *.
  apply Hinj; [|done|].
  - split; [apply Z.div_pos; lia | apply Z.div_lt_upper_bound; lia].
  - intros f Hin. by rewrite <- Hf, Hall.
Qed.

(** ** Witnesses *)

(** The reshaped query read [2 * head + pair]. *)
Definition q_rope : affine_query :=
  mkAffine ["head"; "pair"]%string (Some 0) (fun s => if String.eqb s "head" then Some 2 else Some 1) true
    (fun env => 2 * env "head"%string + env "pair"%string).

Definition rope_space : dict (option Z) := [("head", Some 8); ("pair", Some 2); ("width", Some 128)]%string.

(** The attention repack [2 * head + floor(width / 64)]. *)
Definition repack : floor_query :=
  mkFloor true
    (mkAffine ["head"; "width"]%string (Some 0) (fun s => if String.eqb s "head" then Some 2 else Some 0) true
       (fun env => 2 * env "head"%string))
    (fun env => env "width"%string) 64
    (mkAffine ["head"; "width"]%string (Some 0) (fun s => if String.eqb s "head" then Some 128 else Some 1) true
       (fun env => 128 * env "head"%string + env "width"%string))
    (Some 64).

Lemma affine_projection_owns_witness :
  project_affine_slice_axis q_rope 16 4 rope_space = Ok (Some ("head"%string, (0, 2))) /\
  exists extent, dget rope_space "head"%string = Some (Some extent) /\
    forall env, in_ranges rope_space env -> value q_rope env / (16 / 4) = env "head"%string / (extent / 4).
Proof.
  split; [reflexivity|].
  destruct (affine_projection_owns q_rope 16 4 rope_space "head"%string (0, 2)) as (e & H1 & _ & _ & H2).
  - intros o [= <-] _ _ env. cbn. lia.
  - apply (bool_decide_unpack _). vm_compute. exact I.
  - lia.
  - reflexivity.
  - exists e. split; [exact H1|]. intros env Henv. exact (proj1 (H2 env Henv)).
Defined.

Lemma floor_projection_owns_witness :
  project_floor_affine_slice_axis repack 16 4 rope_space = Ok (Some "head"%string) /\
  exists extent, dget rope_space "head"%string = Some (Some extent) /\
    forall env, in_ranges rope_space env -> floor_value repack env / (16 / 4) = env "head"%string / (extent / 4).
Proof.
  split; [reflexivity|].
  destruct (floor_projection_owns repack 16 4 rope_space "head"%string) as (e & H1 & _ & _ & H2).
  - split; [reflexivity|]. split.
    + intros o [= <-] _ _ env. cbn. lia.
    + intros d env [= <-]. cbn. ring.
  - apply (bool_decide_unpack _). vm_compute. exact I.
  - lia.
  - exists 4. reflexivity.
  - reflexivity.
  - exists e. split; [exact H1|]. intros env Henv. exact (proj1 (H2 env Henv)).
Defined.

Lemma factored_axis_owns_witness :
  exists fs, factor_slice_axis [(Some 2, DSymbol "head"); (Some 1, DFloor "width" (Some 64))]%string 16 16 rope_space = Ok (Some fs) /\
    zprod (f_factor <$> fs) = 16.
Proof.
  destruct (factor_slice_axis [(Some 2, DSymbol "head"); (Some 1, DFloor "width" (Some 64))]%string 16 16 rope_space)
    as [[fs|]|] eqn:E; [|vm_compute in E; discriminate E..].
  exists fs. split; [reflexivity|].
  refine (proj1 (factored_axis_owns [(Some 2, DSymbol "head"); (Some 1, DFloor "width" (Some 64))]%string 16 16 rope_space fs _ E)).
  lia.
Defined.
