(* ===== verification/TileIndex.v ===== *)
(** * Strides and indices of tiles ([wsr/tile.py])

    Coarse tiling replaces a tensor by tiles of [tile_size]; the functions here turn
    the strides of the tensor into those of a tile and an index expression into the
    index of the same element in the tile.

    Sizes, strides and coefficients are integers (the code also lets shape symbols
    through).  An index expression enters as its ordered terms; a term is described
    by the iteration variables it mentions and its shape. *)

From S2P Require Import Prelude PyDict.

(** [zip(size, stride)], [size[d]], [stride[d]]. *)
Definition regular (size stride : list Z) (d : nat) : bool :=
  match size !! d, stride !! d with
  | Some s, Some t => negb (s =? 1) && negb (t =? 0)
  | _, _ => false
  end.

(** The regular dimensions, by increasing stride. *)
Definition regular_dims (size stride : list Z) : list nat :=
  py_sorted (fun i j => default 0 (stride !! i) <=? default 0 (stride !! j))
    (filter (fun d => regular size stride d = true) (seq 0 (length size))).

(** [all(x % y == 0 for x, y in zip(size, tile_size))] *)
Fixpoint tiles_divide (size tile_size : list Z) : res bool :=
  match size, tile_size with
  | x :: size', y :: tile_size' =>
      raise_if (y =? 0) ZeroDivisionError;;
      if x mod y =? 0 then tiles_divide size' tile_size' else Ok false
  | _, _ => Ok true
  end.

(** One dimension of the loop: the state is [(running_tile_count, tile_stride)]. *)
Definition stride_step (size stride tile_size : list Z) (d : nat) (st : Z * list Z) : res (Z * list Z) :=
  match size !! d, stride !! d, tile_size !! d with
  | Some s, Some t, Some ts =>
      raise_if (st.1 =? 0) ZeroDivisionError;;
      raise_if (negb (t mod st.1 =? 0)) Unsupported;;
      let tile_stride := if 1 <? ts then <[d := t / st.1]> st.2 else st.2 in
      Ok (st.1 * (s / ts), tile_stride)
  | _, _, _ => Raise IndexError
  end.

Definition compute_tile_stride (size stride tile_size : list Z) : res (list Z) :=
  ok ← tiles_divide size tile_size;
  raise_if (negb ok) Unsupported;;
  st ← for_each (stride_step size stride tile_size) (regular_dims size stride) (1, replicate (length tile_size) 0);
  Ok st.2.

(** The loop of [compute_tile_offset]: the state is [(offset, tile_offset)]. *)
Definition offset_step (p : Z * Z) (st : Z * Z) : res (Z * Z) :=
  raise_if (p.1 =? 0) ZeroDivisionError;;
  Ok (st.1 mod p.1, st.2 + st.1 / p.1 * p.2).

Definition compute_tile_offset (offset : Z) (paired_strides : list (Z * Z)) : res Z :=
  st ← for_each offset_step paired_strides (offset, 0);
  raise_if (negb (st.1 =? 0)) Unsupported;;
  Ok st.2.

(** ** [decompose_index_for_tiling] *)

(** A factor of a product: the iteration variable, a modular index, a number, or
    another function of the variable, whose sign the algebra does not decide: the
    coefficient's positivity test then has no truth value. *)
Inductive factor : Set := FVar | FModular | FNum (z : Z) | FOther.

(** A term: a constant, a single variable, a modular index, a product, or something else. *)
Inductive shape : Set := SConst (z : Z) | SVar | SModular | SMul (args : list factor) | SOther.

(** [term_vars] are the iteration variables in the term. *)
Record index_term := mkTerm { term_vars : list string; term_shape : shape }.

(** The product of the arguments other than the variable: the state is
    [(prod, var_found)], and the product is [None] once it is not a number. *)
Definition mul_step (arg : factor) (st : option Z * bool) : res (option Z * bool) :=
  match arg with
  | FModular => Raise Unsupported
  | FVar => raise_if st.2 Unsupported;; Ok (st.1, true)
  | FNum z => Ok (option_map (Z.mul z) st.1, st.2)
  | FOther => Ok (None, st.2)
  end.

Record decomposition := mkDec { vars_found : list string; dec_offset : Z; atoms : list (Z * string) }.

Definition decompose_step (term : index_term) (st : decomposition) : res decomposition :=
  match term_vars term with
  | [] => match term_shape term with
          | SConst z => Ok (mkDec (vars_found st) (dec_offset st + z) (atoms st))
          | _ => Raise Unsupported
          end
  | [var] =>
      raise_if (bool_decide (var ∈ vars_found st)) Unsupported;;
      let found := vars_found st ++ [var] in
      match term_shape term with
      | SVar => Ok (mkDec found (dec_offset st) (atoms st ++ [(1, var)]))
      | SMul args =>
          pv ← for_each mul_step args (Some 1, false);
          match pv.1 with
          | None => Raise TypeError
          | Some prod =>
              raise_if (negb (0 <? prod)) Unsupported;;
              Ok (mkDec found (dec_offset st) (atoms st ++ [(prod, var)]))
          end
      | _ => Raise Unsupported
      end
  | _ => Raise Unsupported
  end.

Definition decompose_index_for_tiling (index : list index_term) : res (list (Z * string) * Z) :=
  st ← for_each decompose_step index (mkDec [] 0 []);
  raise_if (negb (0 <=? dec_offset st)) Unsupported;;
  Ok (atoms st, dec_offset st).

(** [reversed(sorted(zip(stride, tile_stride)))] over the regular dimensions. *)
Definition pair_leb (a b : Z * Z) : bool := (a.1 <? b.1) || ((a.1 =? b.1) && (a.2 <=? b.2)).

Definition paired (size stride tile_stride : list Z) : list (Z * Z) :=
  let dims := filter (fun d => regular size stride d = true) (seq 0 (length size)) in
  reverse (py_sorted pair_leb
    ((fun d => (default 0 (stride !! d), default 0 (tile_stride !! d))) <$> dims)).

(** The tile index: a constant and one coefficient per variable. *)
Definition compute_tile_index (index : list index_term) (size stride tile_stride : list Z)
    : res (Z * list (Z * string)) :=
  ao ← decompose_index_for_tiling index;
  let ps := paired size stride tile_stride in
  o ← compute_tile_offset ao.2 ps;
  cs ← py_map (fun a => c ← compute_tile_offset a.1 ps; Ok (c, a.2)) ao.1;
  Ok (o, cs).

(** ** Offsets *)

(** [sum(x * s)] *)
Definition dot (xs ss : list Z) : Z := zsum (zip_with Z.mul xs ss).

Lemma dot_cons x xs s ss : dot (x :: xs) (s :: ss) = x * s + dot xs ss.
Proof. done. Qed.

Lemma dot_add xs ys ss : length xs = length ss -> length ys = length ss ->
  dot (zip_with Z.add xs ys) ss = dot xs ss + dot ys ss.
Proof.
  revert xs ys. induction ss as [|s ss IH]; intros [|x xs] [|y ys] Hx Hy; try done.
  cbn [zip_with]. rewrite !dot_cons, IH by (simpl in *; lia). lia.
Qed.

Lemma dot_scale k xs ss : dot ((fun x => k * x) <$> xs) ss = k * dot xs ss.
Proof.
  revert xs. induction ss as [|s ss IH]; intros [|x xs]; try (unfold dot, zsum; simpl; lia).
  rewrite fmap_cons, !dot_cons, IH. lia.
Qed.

(** Peeling strides off an offset: the digits it finds rebuild both offsets. *)
Lemma offset_digits ps : forall st st',
  for_each offset_step ps st = Ok st' ->
  exists qs, length qs = length ps /\ st.1 = dot qs (fst <$> ps) + st'.1 /\ st'.2 = st.2 + dot qs (snd <$> ps).
Proof.
  induction ps as [|[s t] ps IH]; intros st st'; cbn [for_each].
  - intros [= <-]. exists []. unfold dot, zsum. simpl. split_and!; [done | lia | lia].
  - intros (st1 & Hst1 & Hrun)%bind_Ok. unfold offset_step in Hst1.
    apply bind_Ok in Hst1 as ([] & Hz%raise_if_Ok & [= <-]). cbn [fst snd] in *. apply Z.eqb_neq in Hz.
    destruct (IH _ _ Hrun) as (qs & Hl & H1 & H2). cbn [fst snd] in *. exists (st.1 / s :: qs).
    rewrite !fmap_cons, !dot_cons. cbn [fst snd]. pose proof (Z.div_mod st.1 s Hz). split_and!; [simpl; lia | lia | lia].
Qed.

Lemma tile_offset_digits offset ps t :
  compute_tile_offset offset ps = Ok t ->
  exists qs, length qs = length ps /\ offset = dot qs (fst <$> ps) /\ t = dot qs (snd <$> ps).
Proof.
  unfold compute_tile_offset. intros (st & Hrun & H)%bind_Ok. apply bind_Ok in H as ([] & Hz%raise_if_Ok & [= <-]).
  apply negb_false_iff, Z.eqb_eq in Hz. destruct (offset_digits _ _ _ Hrun) as (qs & Hl & H1 & H2). cbn in *.
  exists qs. split_and!; [done | lia | lia].
Qed.

(** A layout without overlap, outermost dimension first: an inner element never
    reaches the next stride.  Entries are [(stride, size)]. *)
Fixpoint nested (l : list (Z * Z)) : Prop :=
  match l with
  | [] => True
  | (s, n) :: l' => 0 < s /\ 1 <= n /\ match l' with [] => True | (s', n') :: _ => n' * s' <= s end /\ nested l'
  end.

(** Coordinates inside the sizes. *)
Definition in_bounds (xs : list Z) (l : list (Z * Z)) : Prop := Forall2 (fun x sn => 0 <= x < sn.2) xs l.

Lemma nested_bound l xs :
  nested l -> in_bounds xs l ->
  0 <= dot xs (fst <$> l) /\ match l with [] => dot xs (fst <$> l) = 0 | (s, n) :: _ => dot xs (fst <$> l) < n * s end.
Proof.
  intros Hn Hb. revert Hn. induction Hb as [|x [s n] xs l Hx Hb IH]; [unfold dot, zsum; simpl; lia|].
  intros (Hs & Hn & Hlt & Hnest). cbn [fst snd] in *. rewrite fmap_cons, dot_cons. cbn [fst].
  destruct (IH Hnest) as [H0 H1]. destruct l as [|[s' n'] l]; [split; nia|]. split; nia.
Qed.

(** Greedy division finds the coordinates back. *)
Lemma offset_roundtrip_aux ps ns xs : forall acc,
  length ns = length ps -> nested (zip (fst <$> ps) ns) -> in_bounds xs (zip (fst <$> ps) ns) ->
  for_each offset_step ps (dot xs (fst <$> ps), acc) = Ok (0, acc + dot xs (snd <$> ps)).
Proof.
  revert ns xs. induction ps as [|[s t] ps IH]; intros ns xs acc Hl Hn Hb.
  - assert (xs = []) as -> by (by inversion Hb). cbn. unfold dot, zsum. simpl. by rewrite Z.add_0_r.
  - destruct ns as [|n ns]; [done|]. destruct xs as [|x xs]; [by inversion Hb|].
    rewrite !fmap_cons, !dot_cons. cbn [fst snd]. rewrite fmap_cons in Hn, Hb. cbn [zip zip_with fst] in Hn, Hb.
    apply Forall2_cons in Hb as [Hx Hb]. cbn in Hx. destruct Hn as (Hs & Hn1 & Hlt & Hn).
    change (zip_with pair (fst <$> ps) ns) with (zip (fst <$> ps) ns) in *.
    destruct (nested_bound _ _ Hn Hb) as [H0 H1]. rewrite fst_zip in H0, H1 by (rewrite length_fmap; simpl in Hl; lia).
    assert (0 <= dot xs (fst <$> ps) < s) as Hr by (destruct (zip (fst <$> ps) ns) as [|[s' n'] l]; lia).
    assert (forall a, offset_step (s, t) (a, acc) = Ok (a mod s, acc + a / s * t)) as Hstep.
    { intros a. unfold offset_step, raise_if. cbn [fst snd]. destruct (Z.eqb_spec s 0); [lia | done]. }
    cbn [for_each]. rewrite Hstep. cbn [mbind res_bind].
    assert ((x * s + dot xs (fst <$> ps)) / s = x) as ->
      by (rewrite Z.div_add_l, Z.div_small by lia; lia).
    assert ((x * s + dot xs (fst <$> ps)) mod s = dot xs (fst <$> ps)) as ->
      by (rewrite Z.add_comm, Z.mod_add, Z.mod_small by lia; done).
    rewrite (IH ns) by (done || (simpl in Hl; lia)). do 2 f_equal. lia.
Qed.

(** The offset of an element survives the change of layout: in a tensor without
    overlap, [compute_tile_offset] turns the offset of the element at given
    coordinates into the tile offset of the same coordinates. *)
Lemma offset_conversion ps ns xs :
  length ns = length ps -> nested (zip (fst <$> ps) ns) -> in_bounds xs (zip (fst <$> ps) ns) ->
  compute_tile_offset (dot xs (fst <$> ps)) ps = Ok (dot xs (snd <$> ps)).
Proof.
  intros Hl Hn Hb. unfold compute_tile_offset. rewrite (offset_roundtrip_aux ps ns xs 0) by done. cbn. done.
Qed.

(** ** Tile indices *)

Section values.
(** [v] gives the iteration variables their values, [opaque] the factors and terms
    that are neither numbers nor variables. *)
Context (v : string -> Z) (opaque : Z).

Definition factor_value (x : string) (a : factor) : Z :=
  match a with FVar => v x | FNum z => z | FModular | FOther => opaque end.

Definition term_value (t : index_term) : Z :=
  match term_shape t, term_vars t with
  | SConst z, _ => z
  | SVar, x :: _ => v x
  | SMul args, x :: _ => zprod (factor_value x <$> args)
  | _, _ => opaque
  end.

Definition atoms_value (l : list (Z * string)) : Z := zsum ((fun a => a.1 * v a.2) <$> l).

Lemma atoms_value_snoc l a : atoms_value (l ++ [a]) = atoms_value l + a.1 * v a.2.
Proof. unfold atoms_value. rewrite fmap_app, zsum_app. unfold zsum at 2. simpl. lia. Qed.

(** The product of a term's factors is the coefficient times the variable. *)
Lemma mul_loop x args : forall st p' found',
  for_each mul_step args st = Ok (Some p', found') ->
  exists p, st.1 = Some p /\
  zprod (factor_value x <$> args) * (p * if st.2 then v x else 1) = p' * (if found' then v x else 1) /\
  (found' = true \/ Forall (fun a => exists z, a = FNum z) args).
Proof.
  induction args as [|a args IH]; intros [op found] p' found'; cbn [for_each fst snd].
  - intros [= -> ->]. exists p'. unfold zprod. simpl. split_and!; [done | lia | right; constructor].
  - intros (st1 & Hst1 & Hrun)%bind_Ok. destruct (IH _ _ _ Hrun) as (p1 & Hp1 & He & Hf). rewrite fmap_cons.
    change (zprod (factor_value x a :: (factor_value x <$> args))) with (factor_value x a * zprod (factor_value x <$> args)).
    destruct a as [| |z|]; cbn in Hst1; try done.
    + apply bind_Ok in Hst1 as ([] & Hfound%raise_if_Ok & [= <-]). cbn in *. subst op found. exists p1. split; [done|].
      split; [nia|]. left. destruct Hf as [|Hf]; [done|]. destruct found'; [done|]. exfalso.
      clear -Hrun. revert Hrun. generalize (Some p1). induction args as [|a args IH]; intros o; cbn [for_each]; [done|].
      intros (st & Hst & Hr)%bind_Ok. destruct a; cbn in Hst; try done; injection Hst as <-; by eapply IH.
    + injection Hst1 as <-. cbn in Hp1. destruct op as [p|]; [|done]. cbn in *. injection Hp1 as <-. exists p. split; [done|].
      split; [nia|]. destruct Hf as [|Hf]; [by left|]. right. constructor; [eauto | done].
    + injection Hst1 as <-. by cbn in Hp1.
Qed.

(** A product that mentions a variable has a factor other than the numbers. *)
Definition well_formed (t : index_term) : Prop :=
  match term_shape t with SMul args => ~ Forall (fun a => exists z, a = FNum z) args | _ => True end.

Lemma decompose_step_value t st st' :
  well_formed t -> decompose_step t st = Ok st' ->
  dec_offset st' + atoms_value (atoms st') = dec_offset st + atoms_value (atoms st) + term_value t.
Proof.
  unfold decompose_step, term_value, well_formed. destruct (term_vars t) as [|x [|y l]]; [| |done].
  - destruct (term_shape t); try done. intros _ [= <-]. cbn [dec_offset atoms]. lia.
  - intros Hwf ([] & _ & H)%bind_Ok. destruct (term_shape t) as [| | |args|]; try done.
    + injection H as <-. cbn [dec_offset atoms]. rewrite atoms_value_snoc. cbn [fst snd]. lia.
    + apply bind_Ok in H as ([[p|] found] & Hrun & H); [|done]. apply bind_Ok in H as ([] & _ & [= <-]).
      destruct (mul_loop x args _ _ _ Hrun) as (q & Hq & He & Hf). cbn in Hq. injection Hq as <-. cbn [snd] in He.
      destruct Hf as [->|Hf]; [|done]. cbn [dec_offset atoms]. rewrite atoms_value_snoc. cbn [fst snd]. lia.
Qed.

Lemma decompose_value index al o :
  Forall well_formed index -> decompose_index_for_tiling index = Ok (al, o) ->
  zsum (term_value <$> index) = o + atoms_value al.
Proof.
  intros Hwf. unfold decompose_index_for_tiling. intros (st & Hrun & H)%bind_Ok. apply bind_Ok in H as ([] & _ & [= <- <-]).
  enough (forall l st0 st1, Forall well_formed l -> for_each decompose_step l st0 = Ok st1 ->
    dec_offset st1 + atoms_value (atoms st1) = dec_offset st0 + atoms_value (atoms st0) + zsum (term_value <$> l)) as Hgen.
  { specialize (Hgen _ _ _ Hwf Hrun). unfold atoms_value at 2, zsum at 1 in Hgen. simpl in Hgen. lia. }
  clear. induction l as [|t l IH]; intros st0 st1 Hwf; cbn [for_each].
  - intros [= <-]. unfold zsum. simpl. lia.
  - apply Forall_cons in Hwf as [Ht Hwf]. intros (st & Hst & Hr)%bind_Ok. rewrite fmap_cons, zsum_cons.
    rewrite (IH _ _ Hwf Hr), (decompose_step_value _ _ _ Ht Hst). lia.
Qed.
End values.

(** The coefficients' digit vectors, summed with the variables' values. *)
Lemma tile_index_digits al ps cs :
  py_map (fun a => c ← compute_tile_offset a.1 ps; Ok (c, a.2)) al = Ok cs ->
  exists Q : (string -> Z) -> list Z, forall v, length (Q v) = length ps /\
    atoms_value v al = dot (Q v) (fst <$> ps) /\ atoms_value v cs = dot (Q v) (snd <$> ps).
Proof.
  revert cs. induction al as [|[c x] al IH]; intros cs; cbn [py_map].
  - intros [= <-]. exists (fun _ => replicate (length ps) 0). intros v. rewrite length_replicate.
    assert (forall ss, length ss = length ps -> dot (replicate (length ps) 0) ss = 0) as H0.
    { clear. intros ss. revert ps. induction ss as [|s ss IH]; intros [|p ps] Hl; try done.
      cbn [length replicate]. rewrite dot_cons, IH by (simpl in Hl; lia). lia. }
    rewrite !H0 by (by rewrite length_fmap). done.
  - intros (y & Hy & H)%bind_Ok. apply bind_Ok in H as (ys & Hys & [= <-]).
    apply bind_Ok in Hy as (t & Ht & [= <-]). cbn [fst snd] in *.
    destruct (IH _ Hys) as [Q HQ]. destruct (tile_offset_digits _ _ _ Ht) as (q & Hl & H1 & H2).
    exists (fun v => zip_with Z.add ((fun z => v x * z) <$> q) (Q v)). intros v. destruct (HQ v) as (Hl' & Ha & Hc).
    split; [rewrite length_zip_with, length_fmap; lia|].
    rewrite !dot_add, !dot_scale by (by rewrite ?length_fmap).
    unfold atoms_value in *. rewrite !fmap_cons, !zsum_cons. cbn [fst snd]. rewrite <- Ha, <- Hc, H1, H2. lia.
Qed.

(** [compute_tile_index] maps elements to themselves: the index it returns has
    coordinates, one digit vector of the tensor's strides per variable and one for
    the constant, such that at all values of the iteration variables the original
    index is the offset of those coordinates under the tensor strides and the tile
    index is the offset of the same coordinates under the tile strides.  Where they
    lie inside a layout without overlap, the tile index is therefore exactly the
    converted offset of the original index. *)
Theorem tile_index_correct index size stride tile_stride o cs :
  Forall well_formed index -> compute_tile_index index size stride tile_stride = Ok (o, cs) ->
  exists Q : (string -> Z) -> list Z, forall v opaque,
    let ps := paired size stride tile_stride in
    let value := zsum (term_value v opaque <$> index) in
    let tile_value := o + atoms_value v cs in
    length (Q v) = length ps /\ value = dot (Q v) (fst <$> ps) /\ tile_value = dot (Q v) (snd <$> ps) /\
    (forall ns, length ns = length ps -> nested (zip (fst <$> ps) ns) -> in_bounds (Q v) (zip (fst <$> ps) ns) ->
       compute_tile_offset value ps = Ok tile_value).
Proof.
  intros Hwf H. unfold compute_tile_index in H. apply bind_Ok in H as ([al off] & Hdec & H). cbn [fst snd] in H.
  apply bind_Ok in H as (o' & Ho & H). apply bind_Ok in H as (cs' & Hcs & [= -> ->]).
  set (ps := paired size stride tile_stride) in *.
  destruct (tile_index_digits al ps cs Hcs) as (Q & HQ). destruct (tile_offset_digits _ _ _ Ho) as (q0 & Hl0 & H1 & H2).
  exists (fun v => zip_with Z.add q0 (Q v)). intros v opaque. cbn zeta. destruct (HQ v) as (Hl & Ha & Hc).
  assert (length (zip_with Z.add q0 (Q v)) = length ps) as Hlen by (rewrite length_zip_with; lia).
  assert (zsum (term_value v opaque <$> index) = dot (zip_with Z.add q0 (Q v)) (fst <$> ps)) as Hv.
  { rewrite dot_add by (by rewrite length_fmap). rewrite (decompose_value v opaque index al off) by done. lia. }
  assert (o + atoms_value v cs = dot (zip_with Z.add q0 (Q v)) (snd <$> ps)) as Ht.
  { rewrite dot_add by (by rewrite length_fmap). lia. }
  split_and!; [done | done | done |]. intros ns Hns Hn Hb. rewrite Hv, Ht. by apply (offset_conversion ps ns).
Qed.

(** Row 2 of a 4 x 6 tensor, column [j], in tiles with rows 3 apart. *)
Lemma tile_index_correct_witness :
  compute_tile_index [mkTerm ["i"] (SMul [FNum 6; FVar]); mkTerm ["j"] SVar; mkTerm [] (SConst 12)] [4; 6] [6; 1] [3; 1]
    = Ok (6, [(3, "i"); (1, "j")]) /\
  exists Q : (string -> Z) -> list Z, forall v : string -> Z,
    6 + atoms_value v [(3, "i"); (1, "j")] = dot (Q v) [3; 1].
Proof.
  split; [reflexivity|].
  destruct (tile_index_correct [mkTerm ["i"] (SMul [FNum 6; FVar]); mkTerm ["j"] SVar; mkTerm [] (SConst 12)]
    [4; 6] [6; 1] [3; 1] 6 [(3, "i"); (1, "j")]) as [Q HQ].
  - repeat constructor. cbn. intros H. apply Forall_cons in H as [_ H]. apply Forall_cons in H as [[z Hz] _]. discriminate Hz.
  - reflexivity.
  - exists Q. intros v. destruct (HQ v 0) as (_ & _ & H & _). exact H.
Defined.

(** ** Tile strides *)

Section strides.
Context (size stride tile_size : list Z).

Definition size_of (d : nat) : Z := default 0 (size !! d).
Definition stride_of (d : nat) : Z := default 0 (stride !! d).
Definition tile_of (d : nat) : Z := default 0 (tile_size !! d).

(** The strides of the tile, in the order of the loop, unit tiles included. *)
Fixpoint loop_strides (running : Z) (dims : list nat) : list Z :=
  match dims with
  | [] => []
  | d :: dims' => stride_of d / running :: loop_strides (running * (size_of d / tile_of d)) dims'
  end.

Definition known (d : nat) : Prop := is_Some (size !! d) /\ is_Some (stride !! d) /\ is_Some (tile_size !! d).

Lemma stride_step_spec d st st' :
  stride_step size stride tile_size d st = Ok st' ->
  known d /\ st.1 <> 0 /\ stride_of d mod st.1 = 0 /\
  st' = (st.1 * (size_of d / tile_of d), if 1 <? tile_of d then <[d := stride_of d / st.1]> st.2 else st.2).
Proof.
  unfold stride_step, known, size_of, stride_of, tile_of.
  destruct (size !! d), (stride !! d), (tile_size !! d); try done.
  intros ([] & Hz%raise_if_Ok & H)%bind_Ok. apply bind_Ok in H as ([] & Hm%raise_if_Ok & [= <-]).
  apply Z.eqb_neq in Hz. apply negb_false_iff, Z.eqb_eq in Hm. split_and!; eauto.
Qed.

(** What the loop leaves in the tile strides. *)
Lemma stride_loop dims : forall st st',
  NoDup dims -> length st.2 = length tile_size -> for_each (stride_step size stride tile_size) dims st = Ok st' ->
  (forall d, d ∉ dims -> st'.2 !! d = st.2 !! d) /\
  Forall2 (fun d t => 1 < tile_of d -> st'.2 !! d = Some t) dims (loop_strides st.1 dims) /\
  Forall (fun d => ~ 1 < tile_of d -> st'.2 !! d = st.2 !! d) dims.
Proof.
  induction dims as [|d dims IH]; intros st st' Hnd Hlen; cbn [for_each loop_strides].
  - intros [= <-]. split_and!; [done | constructor | constructor].
  - apply NoDup_cons in Hnd as [Hd Hnd]. intros (st1 & Hst1 & Hrun)%bind_Ok.
    destruct (stride_step_spec _ _ _ Hst1) as ((_ & _ & Hk) & Hz & Hm & ->). cbn [fst snd] in *.
    assert (d < length st.2)%nat as Hlt by (rewrite Hlen; by apply lookup_lt_is_Some).
    eapply IH in Hrun as (H1 & H2 & H3); [|done|cbn; case_match; by rewrite ?length_insert].
    cbn [fst snd] in *. split_and!.
    + intros e [Hne He]%not_elem_of_cons. rewrite H1 by done. case_match; [|done]. by rewrite list_lookup_insert_ne.
    + constructor; [|done]. intros Ht. rewrite H1 by done. destruct (Z.ltb_spec 1 (tile_of d)); [|lia].
      by rewrite list_lookup_insert_eq.
    + constructor.
      * intros Ht. rewrite H1 by done. destruct (Z.ltb_spec 1 (tile_of d)); [lia | done].
      * rewrite Forall_forall in H3 |- *. intros e He Ht. rewrite H3 by done. case_match; [|done].
        rewrite list_lookup_insert_ne; [done|]. intros ->. done.
Qed.

Lemma nested_reverse_cons s n l :
  nested (reverse ((s, n) :: l)) <->
  nested (reverse l) /\ 0 < s /\ 1 <= n /\ match l with [] => True | (s', _) :: _ => n * s <= s' end.
Proof.
  rewrite reverse_cons. assert (match l with [] => True | (s', _) :: _ => n * s <= s' end <->
    match last (reverse l) with None => True | Some (s', _) => n * s <= s' end) as ->.
  { rewrite last_reverse. by destruct l as [|[]]. }
  generalize (reverse l). clear l. intros l. induction l as [|[a m] l IH]; [cbn; tauto|].
  destruct l as [|[b k] l].
  - cbn. tauto.
  - change (((a, m) :: (b, k) :: l) ++ [(s, n)]) with ((a, m) :: (b, k) :: (l ++ [(s, n)])).
    change (nested ((a, m) :: (b, k) :: l ++ [(s, n)])) with (0 < a /\ 1 <= m /\ k * b <= a /\ nested ((b, k) :: l ++ [(s, n)])).
    change ((b, k) :: l ++ [(s, n)]) with (((b, k) :: l) ++ [(s, n)]). rewrite IH.
    change (last ((a, m) :: (b, k) :: l)) with (last ((b, k) :: l)).
    change (nested ((a, m) :: (b, k) :: l)) with (0 < a /\ 1 <= m /\ k * b <= a /\ nested ((b, k) :: l)). tauto.
Qed.

(** Dividing nested strides by the running tile count keeps them nested. *)
Lemma loop_strides_nested dims : forall st st',
  0 < st.1 -> Forall (fun d => 1 <= tile_of d /\ size_of d mod tile_of d = 0) dims ->
  for_each (stride_step size stride tile_size) dims st = Ok st' ->
  nested (reverse ((fun d => (stride_of d, size_of d)) <$> dims)) ->
  nested (reverse (zip (loop_strides st.1 dims) (tile_of <$> dims))).
Proof.
  induction dims as [|d dims IH]; intros st st' Hpos Ht; cbn [for_each loop_strides]; [done|].
  apply Forall_cons in Ht as [[Ht1 Htd] Ht]. intros (st1 & Hst1 & Hrun)%bind_Ok.
  destruct (stride_step_spec _ _ _ Hst1) as (_ & Hz & Hm & ->). rewrite !fmap_cons, nested_reverse_cons.
  intros (Hn & Hs & Hsz & Hnext). cbn [zip zip_with]. rewrite nested_reverse_cons.
  apply Z.div_exact in Htd; [|lia]. set (c := size_of d / tile_of d) in *. assert (0 < c) as Hc by nia.
  apply Z.div_exact in Hm; [|done]. set (t := stride_of d / st.1) in *.
  assert (0 < t) by nia. split_and!; [|done|done|].
  - apply (IH _ st') in Hrun; [exact Hrun | cbn; nia | done | done].
  - destruct dims as [|e dims]; [done|]. cbn [fmap list_fmap loop_strides zip zip_with] in *.
    cbn [for_each] in Hrun. apply bind_Ok in Hrun as (st2 & Hst2 & _).
    destruct (stride_step_spec _ _ _ Hst2) as (_ & Hz2 & Hm2 & _). cbn [fst] in Hz2, Hm2.
    apply Z.div_exact in Hm2; [|done]. set (t' := stride_of e / (st.1 * c)) in *.
    assert (st.1 * c * (tile_of d * t) <= st.1 * c * t') by nia. apply Z.mul_le_mono_pos_l in H0; [done | nia].
Qed.
End strides.

(** Distinct coordinates of a layout without overlap have distinct offsets. *)
Lemma nested_inj l xs ys :
  nested l -> in_bounds xs l -> in_bounds ys l -> dot xs (fst <$> l) = dot ys (fst <$> l) -> xs = ys.
Proof.
  intros Hn Hx. revert ys Hn. induction Hx as [|x [s n] xs l Hx Hxs IH]; intros ys Hn Hy He.
  - by inversion Hy.
  - destruct ys as [|y ys]; [by inversion Hy|]. apply Forall2_cons in Hy as [Hy Hys]. cbn in Hx, Hy.
    destruct Hn as (Hs & Hn1 & Hlt & Hn). rewrite fmap_cons, !dot_cons in He. cbn [fst] in He.
    destruct (nested_bound l xs Hn Hxs) as [Hx0 Hx1]. destruct (nested_bound l ys Hn Hys) as [Hy0 Hy1].
    assert (x = y) as ->.
    { destruct l as [|[s' n'] l]; nia. }
    f_equal. apply IH; [done | done | lia].
Qed.

Lemma zip_reverse {A B} (l : list A) (k : list B) :
  length l = length k -> zip (reverse l) (reverse k) = reverse (zip l k).
Proof.
  revert k. induction l as [|x l IH]; intros [|y k] Hl; try done. rewrite !reverse_cons.
  cbn [zip zip_with]. rewrite reverse_cons. change (zip_with pair l k) with (zip l k). rewrite <- IH by (simpl in Hl; lia).
  rewrite (zip_with_app pair); [done|]. rewrite !length_reverse. simpl in Hl. lia.
Qed.

Lemma nested_strictly_ascending l :
  nested (reverse l) -> Forall (fun sn => 1 < sn.2) l -> StronglySorted (fun a b => a.1 < b.1) l.
Proof.
  intros Hn Hsz. enough (Sorted (fun a b => a.1 < b.1) l) as H.
  { apply Sorted_StronglySorted; [intros ? ? ?; lia | done]. }
  induction l as [|[s n] l IH]; [constructor|]. apply Forall_cons in Hsz as [H1 Hsz]. cbn in H1.
  apply nested_reverse_cons in Hn as (Hn & Hs & _ & Hnext). constructor; [auto|].
  destruct l as [|[s' n'] l]; constructor. cbn. nia.
Qed.

Lemma dot_fmap {A} (f g : A -> Z) (l : list A) : dot (f <$> l) (g <$> l) = zsum ((fun d => f d * g d) <$> l).
Proof. induction l as [|d l IH]; [done|]. rewrite !fmap_cons, dot_cons, zsum_cons. by rewrite IH. Qed.

Lemma dot_seq xs ss : length xs = length ss ->
  dot xs ss = zsum ((fun d => default 0 (xs !! d) * default 0 (ss !! d)) <$> seq 0 (length ss)).
Proof.
  revert ss. induction xs as [|x xs IH]; intros [|s ss] Hl; try done. rewrite dot_cons, IH by (simpl in Hl; lia).
  cbn [length seq]. rewrite <- fmap_S_seq, fmap_cons, zsum_cons, <- list_fmap_compose. done.
Qed.

Lemma zsum_filter {A} (P : A -> Prop) `{HP : !forall x, Decision (P x)} (f : A -> Z) (l : list A) :
  (forall d, d ∈ l -> ~ P d -> f d = 0) -> zsum (f <$> filter P l) = zsum (f <$> l).
Proof.
  induction l as [|d l IH]; intros H; [done|]. rewrite filter_cons. case_decide as Hd.
  - rewrite !fmap_cons, !zsum_cons, IH; [done|]. intros e He. apply H. by right.
  - rewrite fmap_cons, zsum_cons, (H d) by (done || by left). rewrite IH; [done|]. intros e He. apply H. by right.
Qed.

Lemma zip_fmap_diag {A B C} (f : A -> B) (g : A -> C) (l : list A) :
  zip (f <$> l) (g <$> l) = (fun d => (f d, g d)) <$> l.
Proof. induction l as [|d l IH]; [done|]. rewrite !fmap_cons. cbn [zip zip_with]. by rewrite <- IH. Qed.

Section layout.
Context (size stride tile_size tile_stride : list Z).
Context (Hrun : compute_tile_stride size stride tile_size = Ok tile_stride).
Context (Hlen : length stride = length size) (Htlen : length tile_size = length size).
Context (Htile : Forall (fun t => 1 <= t) tile_size) (Hsize : Forall (fun n => 1 <= n) size).

#[local] Notation dims := (regular_dims size stride).
#[local] Notation tile_str d := (default 0 (tile_stride !! d)).

Lemma elem_of_dims d : d ∈ dims <-> (d < length size)%nat /\ regular size stride d = true.
Proof.
  unfold regular_dims. rewrite elem_of_py_sorted, list_elem_of_filter, elem_of_seq. split; intros []; split; (lia || done).
Qed.

Lemma dims_NoDup : NoDup dims.
Proof. unfold regular_dims. rewrite py_sorted_perm. apply NoDup_filter, NoDup_seq. Qed.

Lemma dims_size d : d ∈ dims -> 1 < size_of size d /\ 1 <= tile_of tile_size d.
Proof.
  intros [Hd Hr]%elem_of_dims. unfold size_of, tile_of. unfold regular in Hr.
  destruct (lookup_lt_is_Some_2 size d Hd) as [n Hn]. destruct (lookup_lt_is_Some_2 tile_size d) as [t Ht]; [lia|].
  rewrite Forall_lookup in Htile, Hsize. specialize (Htile _ _ Ht). specialize (Hsize _ _ Hn). rewrite Hn, Ht in *. cbn.
  destruct (stride !! d); [|done]. split_bools. lia.
Qed.

Lemma tiles_divide_true : forall a b d x y, tiles_divide a b = Ok true -> a !! d = Some x -> b !! d = Some y -> x mod y = 0.
Proof.
  induction a as [|x0 a IH]; intros [|y0 b] d x y Hd; try (by rewrite lookup_nil).
  cbn [tiles_divide] in Hd. apply bind_Ok in Hd as ([] & _ & Hd). destruct (Z.eqb_spec (x0 mod y0) 0); [|done].
  destruct d as [|d]; cbn; [intros [= <-] [= <-]; done|]. by apply IH.
Qed.

(** The loop's run, its results and divisibility. *)
Lemma tile_stride_facts :
  exists st, for_each (stride_step size stride tile_size) dims (1, replicate (length tile_size) 0) = Ok st /\
    Forall2 (fun d t => tile_str d = if 1 <? tile_of tile_size d then t else 0) dims (loop_strides size stride tile_size 1 dims) /\
    Forall (fun d => 1 <= tile_of tile_size d /\ size_of size d mod tile_of tile_size d = 0) dims.
Proof.
  pose proof Hrun as Hrun'. unfold compute_tile_stride in Hrun'. apply bind_Ok in Hrun' as (ok & Hok & Hr).
  apply bind_Ok in Hr as ([] & Hok'%raise_if_Ok & Hr). apply negb_false_iff in Hok'. subst ok.
  apply bind_Ok in Hr as (st & Hst & [= <-]). exists st. split; [done|].
  destruct (stride_loop size stride tile_size dims (1, replicate (length tile_size) 0) st dims_NoDup
    (length_replicate _ _) Hst) as (_ & H2 & H3).
  cbn [fst snd] in *. split.
  - apply Forall2_same_length_lookup_2; [by eapply Forall2_length|]. intros i d t Hd Ht.
    pose proof (Forall2_lookup_lr _ _ _ _ _ _ H2 Hd Ht) as Hl. pose proof (Forall_lookup_1 _ _ _ _ H3 Hd) as Hl0. cbn in Hl, Hl0.
    destruct (Z.ltb_spec 1 (tile_of tile_size d)) as [Hlt | Hge]; [by rewrite Hl|]. rewrite Hl0 by lia.
    rewrite lookup_replicate_2; [done|]. apply list_elem_of_lookup_2, elem_of_dims in Hd. lia.
  - apply Forall_forall. intros d Hd. split; [by apply dims_size|]. apply elem_of_dims in Hd as [Hd _].
    destruct (lookup_lt_is_Some_2 size d Hd) as [n Hn]. destruct (lookup_lt_is_Some_2 tile_size d) as [t Ht]; [lia|].
    unfold size_of, tile_of. rewrite Hn, Ht. cbn. by eapply tiles_divide_true.
Qed.

(** The pairs the offset conversion walks, when no two strides coincide. *)
Lemma paired_dims :
  nested (reverse ((fun d => (stride_of stride d, size_of size d)) <$> dims)) ->
  paired size stride tile_stride = (fun d => (stride_of stride d, tile_str d)) <$> reverse dims.
Proof.
  intros Hn. unfold paired. rewrite fmap_reverse. f_equal.
  assert (StronglySorted (fun a b => a.1 < b.1) ((fun d => (stride_of stride d, tile_str d)) <$> dims)) as Hs.
  { apply nested_strictly_ascending in Hn.
    - clear -Hn. induction dims as [|d l IH]; [constructor|]. rewrite fmap_cons in *. apply StronglySorted_inv in Hn as [Hn Hd].
      constructor; [auto|]. rewrite Forall_forall in Hd |- *.
      intros p (e & -> & He)%list_elem_of_fmap. exact (Hd _ (list_elem_of_fmap_2 (fun d => (stride_of stride d, size_of size d)) _ _ He)).
    - apply Forall_fmap, Forall_forall. intros d Hd. cbn. by apply dims_size. }
  apply (StronglySorted_lt_unique (fun a b : Z * Z => a.1 < b.1)); [intros; lia | intros; lia | | done |].
  - assert (py_sorted pair_leb ((fun d => (default 0 (stride !! d), tile_str d)) <$>
      filter (fun d => regular size stride d = true) (seq 0 (length size))) ≡ₚ
      (fun d => (stride_of stride d, tile_str d)) <$> dims) as Hp.
    { rewrite py_sorted_perm. apply fmap_Permutation. unfold regular_dims. by rewrite py_sorted_perm. }
    revert Hp. set (l := py_sorted pair_leb _). assert (StronglySorted (fun a b => a.1 <= b.1) l) as Hle.
    { apply py_sorted_coarse; unfold pair_leb; intros; lia. }
    clearbody l. intros Hp. assert (NoDup (fst <$> l)) as Hnd.
    { rewrite Hp. clear -Hs. induction Hs as [|a k Hk IH Ha]; [constructor|]. csimpl. apply NoDup_cons. split; [|done].
      intros (b & Hb & Hin)%list_elem_of_fmap. rewrite Forall_forall in Ha. specialize (Ha b Hin). cbn in Ha. lia. }
    clear -Hle Hnd. induction Hle as [|a k Hk IH Ha]; [constructor|]. csimpl in Hnd. apply NoDup_cons in Hnd as [Hna Hnd].
    constructor; [auto|]. rewrite Forall_forall in Ha |- *. intros b Hb. specialize (Ha b Hb).
    assert (a.1 <> b.1); [|cbn in *; lia]. intros He. apply Hna. rewrite He. by apply list_elem_of_fmap_2.
  - rewrite py_sorted_perm. apply fmap_Permutation. unfold regular_dims. by rewrite py_sorted_perm.
Qed.

#[local] Notation at_ xs d := (default 0 (xs !! d)).

Lemma length_tile_stride : length tile_stride = length size.
Proof.
  pose proof Hrun as Hr. unfold compute_tile_stride in Hr. apply bind_Ok in Hr as (ok & _ & Hr).
  apply bind_Ok in Hr as ([] & _ & Hr). apply bind_Ok in Hr as (st & Hst & [= <-]).
  assert (length st.2 = length tile_size) as ->; [|done].
  refine (for_each_ind _ (fun _ s => length s.2 = length tile_size) _
    (1, replicate (length tile_size) 0) _ _ (length_replicate _ _) Hst).
  intros ds d rest st0 st1 _ H Hs. apply stride_step_spec in Hs as (_ & _ & _ & ->). cbn. case_match; by rewrite ?length_insert.
Qed.

(** A sum over all dimensions is one over the regular ones. *)
Lemma dot_dims xs ss :
  length xs = length size -> length ss = length size ->
  (forall d, d ∉ dims -> at_ xs d * at_ ss d = 0) ->
  dot xs ss = dot ((fun d => at_ xs d) <$> reverse dims) ((fun d => at_ ss d) <$> reverse dims).
Proof.
  intros Hx Hs H0. rewrite dot_fmap, (reverse_Permutation dims). unfold regular_dims. rewrite py_sorted_perm.
  rewrite zsum_filter; [rewrite dot_seq by congruence; by rewrite Hs|].
  intros d Hd Hr. apply H0. rewrite elem_of_dims. tauto.
Qed.

Lemma tile_le_size d : d ∈ dims -> tile_of tile_size d <= size_of size d.
Proof.
  intros Hd. destruct tile_stride_facts as (_ & _ & _ & H). rewrite Forall_forall in H. destruct (H d Hd) as [H1 H2].
  destruct (dims_size d Hd) as [Hs _]. apply Z.div_exact in H2; [|lia].
  assert (0 < size_of size d / tile_of tile_size d) by nia. nia.
Qed.

Lemma irregular_tile_stride d : d ∉ dims -> tile_str d = 0.
Proof.
  intros Hd. pose proof Hrun as Hr. unfold compute_tile_stride in Hr. apply bind_Ok in Hr as (ok & _ & Hr).
  apply bind_Ok in Hr as ([] & _ & Hr). apply bind_Ok in Hr as (st & Hst & [= <-]).
  destruct (stride_loop size stride tile_size dims (1, replicate (length tile_size) 0) st dims_NoDup
    (length_replicate _ _) Hst) as (H1 & _). rewrite H1 by done. cbn [snd].
  destruct (decide (d < length tile_size)%nat); [by rewrite lookup_replicate_2|].
  by rewrite lookup_ge_None_2 by (rewrite length_replicate; lia).
Qed.

#[local] Notation layout ds := ((fun d => (stride_of stride d, size_of size d)) <$> ds).

(** Coordinates of an element: inside the sizes given. *)
Definition within (xs sizes : list Z) : Prop := Forall2 (fun x n => 0 <= x < n) xs sizes.

Lemma within_bounds xs sizes d : within xs sizes -> (d < length sizes)%nat -> 0 <= at_ xs d < at_ sizes d.
Proof.
  intros Hw Hd. destruct (lookup_lt_is_Some_2 sizes d Hd) as [n Hn].
  destruct (Forall2_lookup_r _ _ _ _ _ Hw Hn) as (x & Hx & H). by rewrite Hx, Hn.
Qed.

Lemma irregular_product xs d : within xs size -> d ∉ dims -> at_ xs d * at_ stride d = 0.
Proof.
  intros Hw Hd. destruct (decide (d < length size)%nat) as [Hlt | Hge].
  - pose proof (within_bounds xs size d Hw Hlt) as Hb. rewrite elem_of_dims in Hd. unfold regular in Hd.
    destruct (lookup_lt_is_Some_2 size d Hlt) as [n Hn]. destruct (lookup_lt_is_Some_2 stride d) as [t Ht]; [lia|].
    rewrite Hn in Hb. rewrite Hn, Ht in Hd. rewrite Ht. revert Hb. generalize (at_ xs d). intros x Hb. cbn in *.
    destruct (Z.eqb_spec n 1); [by replace x with 0 by lia|].
    destruct (Z.eqb_spec t 0); [lia|]. cbn in Hd. tauto.
  - rewrite (lookup_ge_None_2 stride) by lia. cbn. lia.
Qed.

Lemma loop_in_bounds (xs : list Z) (f g : nat -> Z) ds :
  (forall d, d ∈ ds -> 0 <= at_ xs d < g d) ->
  in_bounds ((fun d => at_ xs d) <$> ds) ((fun d => (f d, g d)) <$> ds).
Proof.
  intros H. apply Forall2_fmap, Forall_Forall2_diag. apply Forall_forall. intros d Hd. by apply H.
Qed.

Lemma tile_stride_offsets xs :
  nested (layout (reverse dims)) -> within xs size ->
  compute_tile_offset (dot xs stride) (paired size stride tile_stride) = Ok (dot xs tile_stride).
Proof.
  intros Hn Hw. assert (length xs = length size) as Hx by (by eapply Forall2_length).
  rewrite (dot_dims xs stride Hx Hlen (fun d => irregular_product xs d Hw)).
  rewrite (dot_dims xs tile_stride Hx); [|by apply length_tile_stride|intros d Hd; by rewrite irregular_tile_stride, Z.mul_0_r].
  rewrite paired_dims by (by rewrite <- fmap_reverse).
  set (l := reverse dims). assert (forall d, d ∈ l -> (d < length size)%nat) as Hl.
  { intros d Hd. apply elem_of_reverse, elem_of_dims in Hd. tauto. }
  pose proof (offset_roundtrip_aux ((fun d => (stride_of stride d, tile_str d)) <$> l) (size_of size <$> l)
    ((fun d => at_ xs d) <$> l) 0) as H.
  rewrite <- !list_fmap_compose in H. unfold compose in H. cbn [fst snd] in H.
  unfold compute_tile_offset. unfold stride_of in *.
  rewrite H; [done | by rewrite !length_fmap | |].
  - by rewrite zip_fmap_diag.
  - rewrite zip_fmap_diag. apply loop_in_bounds. intros d Hd. unfold size_of. apply within_bounds; auto.
Qed.

(** A unit tile's coordinate is 0, so its stride does not matter. *)
Lemma dot_loop_strides xs ds ts :
  within xs tile_size -> (forall d, d ∈ ds -> (d < length size)%nat) ->
  Forall2 (fun d t => tile_str d = if 1 <? tile_of tile_size d then t else 0) ds ts ->
  dot ((fun d => at_ xs d) <$> ds) ((fun d => tile_str d) <$> ds) = dot ((fun d => at_ xs d) <$> ds) ts.
Proof.
  intros Hw Hd Hf. induction Hf as [|d t ds ts Ht Hf IH]; [done|]. rewrite !fmap_cons, !dot_cons, IH, Ht by set_solver.
  pose proof (within_bounds xs tile_size d Hw ltac:(rewrite Htlen; set_solver)) as Hb. unfold tile_of.
  destruct (Z.ltb_spec 1 (at_ tile_size d)) as [|Hle]; [done|].
  assert (at_ xs d = 0) as -> by lia. lia.
Qed.

Lemma tile_stride_distinct xs ys :
  nested (layout (reverse dims)) -> within xs tile_size -> within ys tile_size ->
  dot xs tile_stride = dot ys tile_stride -> forall d, d ∈ dims -> at_ xs d = at_ ys d.
Proof.
  intros Hn Hx Hy He. destruct tile_stride_facts as (st & Hst & Hf & Ht).
  assert (forall d, d ∈ reverse dims -> (d < length size)%nat) as Hl.
  { intros d Hd. apply elem_of_reverse, elem_of_dims in Hd. tauto. }
  assert (forall zs, within zs tile_size -> dot zs tile_stride =
    dot ((fun d => at_ zs d) <$> reverse dims) ((fun d => tile_str d) <$> reverse dims)) as Hdot.
  { intros zs Hz. apply dot_dims; [|apply length_tile_stride|].
    - rewrite <- Htlen. by apply Forall2_length in Hz.
    - intros d Hd. by rewrite irregular_tile_stride, Z.mul_0_r. }
  rewrite (Hdot xs Hx), (Hdot ys Hy) in He.
  apply Forall2_reverse in Hf as Hfr.
  rewrite (dot_loop_strides xs _ _ Hx Hl Hfr), (dot_loop_strides ys _ _ Hy Hl Hfr) in He.
  apply Forall2_length in Hf as Hlf. rewrite fmap_reverse in Hn.
  pose proof (loop_strides_nested size stride tile_size dims (1, replicate (length tile_size) 0) st ltac:(cbn; lia) Ht Hst Hn) as Hnest.
  cbn [fst] in Hnest. set (L := loop_strides size stride tile_size 1 dims) in *.
  rewrite <- zip_reverse in Hnest by (by rewrite length_fmap). rewrite <- fmap_reverse in Hnest.
  assert (forall zs, within zs tile_size ->
    in_bounds ((fun d => at_ zs d) <$> reverse dims) (zip (reverse L) (tile_of tile_size <$> reverse dims))) as Hib.
  { intros zs Hz. apply Forall2_same_length_lookup_2.
    { rewrite length_zip_with, !length_fmap, !length_reverse. lia. }
    intros i z [s n] Hzi Hi. apply lookup_zip_with_Some in Hi as (s' & n' & [= -> ->] & _ & Hni).
    rewrite list_lookup_fmap in Hzi, Hni. destruct (reverse dims !! i) as [d|] eqn:Hd; [|done].
    injection Hzi as <-. injection Hni as <-. cbn. unfold tile_of. apply within_bounds; [done|].
    rewrite Htlen. apply Hl. by eapply list_elem_of_lookup_2. }
  assert ((fun d => at_ xs d) <$> reverse dims = (fun d => at_ ys d) <$> reverse dims) as Heq.
  { apply (nested_inj _ _ _ Hnest (Hib xs Hx) (Hib ys Hy)).
    rewrite fst_zip by (rewrite length_fmap, !length_reverse; lia). done. }
  intros d Hd. apply elem_of_reverse, list_elem_of_lookup in Hd as [i Hi].
  apply (f_equal (fun l => l !! i)) in Heq. rewrite !list_lookup_fmap, Hi in Heq. by injection Heq.
Qed.
End layout.

(** C40. In a layout whose regular dimensions do not overlap (an inner dimension's
    extent fits under the next stride, padding allowed), the strides
    [compute_tile_stride] returns place the tile correctly: [compute_tile_offset]
    turns the offset of the element at any coordinates of the tensor into the offset
    of the same coordinates under the tile strides, irregular dimensions included,
    and inside one tile two elements share an offset only if they agree on every
    regular dimension. *)
Theorem tile_stride_correct size stride tile_size tile_stride :
  compute_tile_stride size stride tile_size = Ok tile_stride ->
  length stride = length size -> length tile_size = length size ->
  Forall (fun t => 1 <= t) tile_size -> Forall (fun n => 1 <= n) size ->
  nested ((fun d => (stride_of stride d, size_of size d)) <$> reverse (regular_dims size stride)) ->
  (forall xs, within xs size ->
     compute_tile_offset (dot xs stride) (paired size stride tile_stride) = Ok (dot xs tile_stride)) /\
  (forall xs ys, within xs tile_size -> within ys tile_size -> dot xs tile_stride = dot ys tile_stride ->
     forall d, regular size stride d = true -> xs !! d = ys !! d).
Proof.
  intros Hrun Hlen Htlen Ht Hs Hn. split.
  - intros xs. by apply (tile_stride_offsets size stride tile_size).
  - intros xs ys Hx Hy He d Hr. assert (d < length size)%nat as Hd.
    { unfold regular in Hr. destruct (size !! d) eqn:E; [by eapply lookup_lt_Some | done]. }
    assert (d ∈ regular_dims size stride) as Hin by (by rewrite elem_of_dims).
    pose proof (tile_stride_distinct _ _ _ _ Hrun Hlen Htlen Ht Hs xs ys Hn Hx Hy He d Hin) as H.
    apply Forall2_length in Hx as Hlx. apply Forall2_length in Hy as Hly.
    destruct (lookup_lt_is_Some_2 xs d) as [x Hx']; [lia|]. destruct (lookup_lt_is_Some_2 ys d) as [y Hy']; [lia|].
    rewrite Hx', Hy' in *. cbn in H. congruence.
Qed.

(** A padded 4 x 1 x 6 tensor (rows 16 apart) in 2 x 1 x 3 tiles: rows 8 apart. *)
Lemma tile_stride_correct_witness :
  compute_tile_stride [4; 1; 6] [16; 5; 1] [2; 1; 3] = Ok [8; 0; 1] /\
  compute_tile_offset (dot [3; 0; 5] [16; 5; 1]) (paired [4; 1; 6] [16; 5; 1] [8; 0; 1]) = Ok (dot [3; 0; 5] [8; 0; 1]).
Proof.
  split; [reflexivity|].
  apply (tile_stride_correct [4; 1; 6] [16; 5; 1] [2; 1; 3] [8; 0; 1]).
  - reflexivity.
  - reflexivity.
  - reflexivity.
  - apply (bool_decide_unpack _). vm_compute. exact I.
  - apply (bool_decide_unpack _). vm_compute. exact I.
  - vm_compute. repeat split; discriminate.
  - unfold within. apply (bool_decide_unpack _). vm_compute. exact I.
Defined.
