(* ===== verification/SplitSpace.v ===== *)
(** * The legal divisions of one operation ([work_division.py])

    [WorkDivisionContext] judges a proposed split; the enumerated menu and the
    move space [OpSplitSpace] of the annealing search are both built on it.  The
    theorems show that the menu is exactly the legal splits, that the move space
    generates the menu, and that its moves are legal and reversible.

    What the code reads of an operation is the record [op_facts]: its iteration
    space, tensors, constraints and committed span floors, and
    [wsr.tile_prediction.predict_frame], which predicts the iteration space of one
    tile and is a function argument here.  The memo tables are left out. *)

From S2P Require Import Prelude PyDict PlanSolver Tilings WorkDivision SpanReduction.

(** [all(p(x) for x in l)], where the predicate may raise. *)
Fixpoint py_all {A} (p : A -> res bool) (l : list A) : res bool :=
  match l with
  | [] => Ok true
  | x :: l' => b ← p x; if b : bool then py_all p l' else Ok false
  end.

(** [[x for x in l if p(x)]], where the predicate may raise. *)
Fixpoint py_filter {A} (p : A -> res bool) (l : list A) : res (list A) :=
  match l with
  | [] => Ok []
  | x :: l' => b ← p x; k ← py_filter p l'; Ok (if b : bool then x :: k else k)
  end.

(** [a and b] *)
Definition py_and (a : res bool) (b : res bool) : res bool :=
  x ← a; if x : bool then b else Ok false.

(** ** [WorkDivisionContext] *)

Record WorkDivisionContext := mkContext {
  ctx_max_cores : option Z;
  ctx_it_space : dict Expr;
  ctx_it_space_adjusted : dict Expr;
  ctx_stick_vars : dict Z;
  ctx_symbol_meta : SymbolMeta;
  ctx_tensor_deps : list TensorDep;
  ctx_reduction_vars : list string;
  ctx_constraints : ConstraintResult;
  ctx_span_min_splits : dict Z
}.

Definition ctx_axes (c : WorkDivisionContext) : list string := dkeys (ctx_it_space_adjusted c).

Definition factor_domain (c : WorkDivisionContext) (v : string) : res (list Z) :=
  basis ← split_basis (ctx_it_space c) (ctx_it_space_adjusted c) (ctx_stick_vars c)
            (ctx_symbol_meta c) v;
  Ok (_legal_split_factors v basis (allowed_splits (ctx_constraints c)) (ctx_span_min_splits c)).

Definition _factors_in_domain (c : WorkDivisionContext) (splits : dict Z) : res bool :=
  py_all (fun vf =>
    if dmem (ctx_it_space_adjusted c) vf.1
    then dom ← factor_domain c vf.1; Ok (bool_decide (vf.2 ∈ dom))
    else Ok false) splits.

Definition _within_core_budget (c : WorkDivisionContext) (splits : dict Z) : bool :=
  match ctx_max_cores c with None => true | Some m => zprod (dvalues splits) <=? m end.

Definition _spans_within_cap (c : WorkDivisionContext) (splits : dict Z) : res bool :=
  py_all (fun td =>
    span ← get_per_core_span td splits (ctx_it_space c) (ctx_symbol_meta c);
    Ok (span <=? MAX_SPAN_BYTES)) (ctx_tensor_deps c).

Definition _one_reduction_split_at_most (c : WorkDivisionContext) (splits : dict Z) : bool :=
  (length (filter (fun v => (1 < dget_or 1 splits v)%Z) (ctx_reduction_vars c)) <=? 1)%nat.

Definition _in_split_domains (c : WorkDivisionContext) (splits : dict Z) : bool :=
  if existsb (fun v => 1 <? dget_or 1 splits v) (elements (blocked (ctx_constraints c))) then false
  else forallb (fun va => bool_decide (dget_or 1 splits va.1 ∈ va.2)) (allowed_splits (ctx_constraints c)).

Definition meets_span_floors (c : WorkDivisionContext) (splits : dict Z) : bool :=
  forallb (fun vm => vm.2 <=? dget_or 1 splits vm.1) (ctx_span_min_splits c).

Definition is_legal (c : WorkDivisionContext) (splits : dict Z) : res bool :=
  py_and (_factors_in_domain c splits)
  (py_and (Ok (_within_core_budget c splits))
  (py_and (Ok (_one_reduction_split_at_most c splits))
  (py_and (_spans_within_cap c splits)
  (py_and (Ok (_in_split_domains c splits)) (Ok (meets_span_floors c splits)))))).

Definition obeys_op_constraints (c : WorkDivisionContext) (splits : dict Z) : bool :=
  _one_reduction_split_at_most c splits && _in_split_domains c splits.

(** ** Building the context *)

Record op_facts := mkOpFacts {
  op_it_space : dict Expr;
  op_input_tds : list TensorDep;
  op_output_td : TensorDep;
  op_constraints : list constraint;
  op_span_min_splits : dict Z;
  op_max_buckets : Z;
  op_min_granularity : Z;
  predict_frame : TileSpec -> option (dict Expr)
}.

(** The body of [work_division_context_for_op] after the frame is known. *)
Definition context_in_frame (op : op_facts) (max_cores : option Z) (it_space : dict Expr)
    : res WorkDivisionContext :=
  let tds := op_input_tds op ++ [op_output_td op] in
  symbol_meta ← _collect_symbol_metadata (op_max_buckets op) (op_min_granularity op) it_space;
  adj ← adjust_it_space_for_sticks it_space tds symbol_meta;
  let reduction_vars := filter (fun v => v ∉ coord_vars (op_output_td op)) (dkeys adj.1) in
  constraints ← collect_work_division_constraints (op_constraints op)
    (mkConstraintContext it_space adj.1 (op_output_td op) (op_input_tds op) adj.2 reduction_vars []);
  Ok (mkContext max_cores it_space adj.1 adj.2 symbol_meta tds reduction_vars constraints
        (op_span_min_splits op)).

Definition work_division_context_for_op (op : op_facts) (max_cores : option Z) (tiling : TileSpec)
    : res (option WorkDivisionContext) :=
  if is_untiled tiling then Some <$> context_in_frame op max_cores (op_it_space op)
  else match predict_frame op tiling with
       | None => Ok None
       | Some it_space => Some <$> context_in_frame op max_cores it_space
       end.

(** The comprehension of [enumerate_work_division_candidates] over one context. *)
Definition menu (c : WorkDivisionContext) : res (list (dict Z)) :=
  domains ← py_map (factor_domain c) (ctx_axes c);
  py_filter (is_legal c) ((fun combo => zip (ctx_axes c) combo) <$> cartesian domains).

Definition enumerate_work_division_candidates (op : op_facts) (max_cores : Z) (tiling : TileSpec)
    : res (list (dict Z)) :=
  ctx ← work_division_context_for_op op (Some max_cores) tiling;
  match ctx with None => Ok [] | Some c => menu c end.

(** [work_division_splits_are_legal] for an operation with a [FixedTiledLayout]. *)
Definition work_division_splits_are_legal (op : op_facts) (splits : dict Z) : res bool :=
  ctx ← work_division_context_for_op op None (mkSpec []);
  match ctx with
  | None => Raise AssertionError
  | Some c => Ok (obeys_op_constraints c splits && meets_span_floors c splits)
  end.

(** ** [OpSplitSpace] *)

Record OpSplitSpace := mkSpace {
  sp_op : op_facts;
  sp_context : WorkDivisionContext;
  output_axes : gset string;
  sp_tiling : option TilingSpace
}.

Definition axes (sp : OpSplitSpace) : list string := ctx_axes (sp_context sp).

Definition splits_of (sp : OpSplitSpace) (division : CoreDivision) : dict Z :=
  (fun axis => (axis, dget_or 1 (splits division) axis)) <$> axes sp.

Definition division_of (sp : OpSplitSpace) (s : dict Z) (tiling : TileSpec) : CoreDivision :=
  let sparse := filter (fun af => 1 < af.2) s in
  mkDivision sparse (filter (fun a => a ∉ output_axes sp) (dkeys sparse)) tiling [].

Definition _context (sp : OpSplitSpace) (tiling : TileSpec) : res (option WorkDivisionContext) :=
  if is_untiled tiling then Ok (Some (sp_context sp))
  else match work_division_context_for_op (sp_op sp) (ctx_max_cores (sp_context sp)) tiling with
       | Raise Unsupported => Ok None
       | r => r
       end.

Definition space_factor_domain (sp : OpSplitSpace) (axis : string) (tiling : TileSpec) : res (list Z) :=
  context ← _context sp tiling;
  match context with None => Ok [] | Some c => factor_domain c axis end.

Definition admits_tiling (sp : OpSplitSpace) (tiling : TileSpec) : res bool :=
  match sp_tiling sp with
  | None => Ok (is_untiled tiling)
  | Some ts =>
      if Tilings.admits ts tiling then context ← _context sp tiling; Ok (bool_decide (is_Some context))
      else Ok false
  end.

Definition admits (sp : OpSplitSpace) (s : dict Z) (tiling : TileSpec) : res bool :=
  b ← admits_tiling sp tiling;
  context ← (if b : bool then _context sp tiling else Ok None);
  match context with None => Ok false | Some c => is_legal c s end.

Definition tiling_options (sp : OpSplitSpace) (tiling : TileSpec) : list TileSpec :=
  match sp_tiling sp with None => [] | Some ts => Tilings.neighbours ts tiling end.

(** The moves along one axis, in factor order. *)
Definition axis_moves (sp : OpSplitSpace) (current : dict Z) (tiling : TileSpec) (axis : string)
    : res (list (dict Z)) :=
  dom ← space_factor_domain sp axis tiling;
  py_filter (fun s => admits sp s tiling)
    ((fun f => dset axis f current) <$> filter (fun f => f <> dget_or 1 current axis) dom).

Definition neighbours (sp : OpSplitSpace) (division : CoreDivision) : res (list CoreDivision) :=
  let current := splits_of sp division in
  let t := tiling division in
  moves ← py_map (axis_moves sp current t) (axes sp);
  specs ← py_filter (fun spec => admits sp current spec) (tiling_options sp t);
  Ok (((fun s => division_of sp s t) <$> mjoin moves) ++
      ((fun spec => division_of sp current spec) <$> specs)).

(** ** Facts about the monadic comprehensions *)

Lemma py_all_true {A} (p : A -> res bool) l :
  py_all p l = Ok true <-> forall x, x ∈ l -> p x = Ok true.
Proof.
  induction l as [|x l IH]; cbn [py_all].
  - split; [intros _ x H; by apply elem_of_nil in H | done].
  - split.
    + intros (b & Hb & H)%bind_Ok. destruct b; [|done]. pose proof (proj1 IH H).
      intros y [-> | Hy]%elem_of_cons; auto.
    + intros H. rewrite (H x) by list_mem. cbn. apply IH. intros y Hy. apply H. list_mem.
Qed.

Lemma py_filter_spec {A} (p : A -> res bool) l k :
  py_filter p l = Ok k -> k `sublist_of` l /\ forall x, x ∈ k <-> x ∈ l /\ p x = Ok true.
Proof.
  revert k. induction l as [|x l IH]; intros k; cbn [py_filter].
  - intros [= <-]. split; [done|]. intros x. rewrite elem_of_nil. tauto.
  - intros (b & Hb & H)%bind_Ok. apply bind_Ok in H as (k' & Hk & [= <-]).
    destruct (IH k' Hk) as [Hs Hiff]. destruct b.
    + split; [by constructor|]. intros y. rewrite !elem_of_cons, Hiff. naive_solver.
    + split; [by constructor|]. intros y. rewrite !elem_of_cons, Hiff. split; [tauto|].
      intros [[-> | Hy] Hp]; [congruence | done].
Qed.

Lemma py_and_true a b : py_and a b = Ok true <-> a = Ok true /\ b = Ok true.
Proof.
  unfold py_and. destruct a as [[]|]; cbn; naive_solver.
Qed.

Lemma Ok_true (b : bool) : Ok b = Ok true <-> b = true.
Proof. split; [by intros [= ->] | by intros ->]. Qed.

Lemma legal_factors c s : is_legal c s = Ok true -> _factors_in_domain c s = Ok true.
Proof. intros H. by apply py_and_true in H as [? _]. Qed.

Lemma legal_in_domain c s v f :
  is_legal c s = Ok true -> (v, f) ∈ s ->
  v ∈ ctx_axes c /\ exists dom, factor_domain c v = Ok dom /\ f ∈ dom.
Proof.
  intros Hl%legal_factors Hin. apply (proj1 (py_all_true _ _) Hl) in Hin. cbn [fst snd] in Hin.
  unfold dmem in Hin. case_bool_decide as Hm; [|done]. split; [by apply dget_is_Some|].
  apply bind_Ok in Hin as (dom & Hd & [= Hb]). exists dom. split; [done | by apply bool_decide_eq_true in Hb].
Qed.

Lemma factor_domain_positive c v dom f : factor_domain c v = Ok dom -> f ∈ dom -> 1 <= f.
Proof.
  unfold factor_domain. intros (basis & _ & [= <-])%bind_Ok (Hd & _)%elem_of_legal.
  apply elem_of_divisors in Hd. lia.
Qed.

Lemma factor_domain_NoDup c v dom : factor_domain c v = Ok dom -> NoDup dom.
Proof.
  unfold factor_domain. intros (basis & _ & [= <-])%bind_Ok.
  assert (forall l, StronglySorted Z.lt l -> NoDup l) as H; [|apply H, legal_sorted].
  induction 1 as [|x l _ IH Hx]; constructor; [|done]. rewrite Forall_forall in Hx.
  intros Hin. specialize (Hx x Hin). lia.
Qed.

(** ** The menu *)

Lemma cartesian_NoDup {A} (ls : list (list A)) :
  Forall NoDup ls -> NoDup (cartesian ls).
Proof.
  induction 1 as [|l ls Hl Hls IH]; cbn [cartesian]; [apply NoDup_singleton|].
  apply NoDup_bind; [| |done].
  - intros x1 x2 c Hx1 Hx2 (c1 & ->%list_elem_of_singleton & _)%list_elem_of_bind
      (c2 & [= ? ?]%list_elem_of_singleton & _)%list_elem_of_bind. done.
  - intros x Hx. apply NoDup_bind; [| |done].
    + intros c1 c2 c _ _ ->%list_elem_of_singleton [= ?]%list_elem_of_singleton. done.
    + intros c _. apply NoDup_singleton.
Qed.

Lemma menu_spec c l :
  menu c = Ok l -> NoDup (ctx_axes c) ->
  NoDup l /\ forall s, s ∈ l <-> dkeys s = ctx_axes c /\ is_legal c s = Ok true.
Proof.
  unfold menu. intros (domains & Hd & Hf)%bind_Ok Hnd. apply py_map_Ok in Hd.
  apply py_filter_spec in Hf as [Hsub Hiff]. pose proof (Forall2_length _ _ _ Hd) as Hlen.
  assert (forall combo, combo ∈ cartesian domains -> length combo = length (ctx_axes c)) as Hcl.
  { intros combo Hc%elem_of_cartesian%Forall2_length. congruence. }
  split.
  - eapply sublist_NoDup; [|exact Hsub]. apply NoDup_fmap_2_strong.
    + intros x y Hx Hy Hz. apply (f_equal dvalues) in Hz. unfold dvalues in Hz.
      rewrite !snd_zip in Hz by (rewrite Hcl by done; lia). done.
    + apply cartesian_NoDup. apply Forall_lookup. intros i dom Hi.
      destruct (Forall2_lookup_r _ _ _ _ _ Hd Hi) as (v & _ & Hv). by eapply factor_domain_NoDup.
  - intros s. rewrite Hiff. split.
    + intros [(combo & -> & Hc)%list_elem_of_fmap Hl]. split; [|done]. apply zip_keys. by rewrite Hcl.
    + intros [Hk Hl]. split; [|done]. apply list_elem_of_fmap. exists (dvalues s).
      split; [rewrite <- Hk; apply dict_zip|]. apply elem_of_cartesian.
      apply Forall2_same_length_lookup_2.
      { unfold dvalues. rewrite length_fmap, <- Hlen, <- Hk. unfold dkeys. by rewrite length_fmap. }
      intros i f dom Hi Hdom. destruct (Forall2_lookup_r _ _ _ _ _ Hd Hdom) as (v & Hv & Hfd).
      unfold dvalues in Hi. apply list_lookup_fmap_Some in Hi as ([k f'] & Hf' & Hs).
      rewrite <- Hk in Hv. apply list_lookup_fmap_Some in Hv as (kf & Hv' & Hs').
      assert (kf = (k, f')) as -> by congruence. cbn in Hf', Hv'. subst f v. destruct (legal_in_domain c s k f' Hl) as (_ & dom' & Hd' & Hin);
        [by eapply list_elem_of_lookup_2|]. congruence.
Qed.

(** C35. The enumerated menu is exact: it lists, once each, precisely the splits over
    the operation's axes that [is_legal] accepts -- factors that divide their axes
    within the hard domains, within the core budget, with at most one reduction
    split, every tensor's span under the cap, blocked axes unsplit and the span
    floors met. *)
Theorem menu_exact op max_cores tiling c l :
  work_division_context_for_op op (Some max_cores) tiling = Ok (Some c) -> NoDup (ctx_axes c) ->
  enumerate_work_division_candidates op max_cores tiling = Ok l ->
  NoDup l /\
  forall s, s ∈ l <->
    dkeys s = ctx_axes c /\ _factors_in_domain c s = Ok true /\ _within_core_budget c s = true /\
    _one_reduction_split_at_most c s = true /\ _spans_within_cap c s = Ok true /\
    _in_split_domains c s = true /\ meets_span_floors c s = true.
Proof.
  unfold enumerate_work_division_candidates. intros -> Hnd Hmenu. cbn [mbind res_bind] in Hmenu.
  destruct (menu_spec c l Hmenu Hnd) as [H1 H2]. split; [done|]. intros s. rewrite H2.
  unfold is_legal. rewrite !py_and_true, !Ok_true. tauto.
Qed.

(** ** The move space *)

(** A complete, admitted split. *)
Definition at_state (sp : OpSplitSpace) (s : dict Z) (t : TileSpec) : Prop :=
  dkeys s = axes sp /\ admits sp s t = Ok true.

Lemma admits_context sp s t :
  admits sp s t = Ok true -> exists c, _context sp t = Ok (Some c) /\ is_legal c s = Ok true.
Proof.
  unfold admits. intros (b & _ & H)%bind_Ok. apply bind_Ok in H as (ctx & Hc & Hl).
  destruct b; [|by injection Hc as <-]. destruct ctx as [c|]; [|done]. eauto.
Qed.

Lemma at_state_positive sp s t v f : at_state sp s t -> (v, f) ∈ s -> 1 <= f.
Proof.
  intros [_ (c & _ & Hl)%admits_context] Hin.
  destruct (legal_in_domain c s v f Hl Hin) as (_ & dom & Hd & Hf). by eapply factor_domain_positive.
Qed.

Lemma sparse_get s v :
  NoDup (dkeys s) -> (forall k f, (k, f) ∈ s -> 1 <= f) ->
  dget_or 1 (filter (fun af : string * Z => 1 < af.2) s) v = dget_or 1 s v.
Proof.
  unfold dget_or, dkeys. induction s as [|[k f] s IH]; intros Hnd Hpos; [done|].
  apply NoDup_cons in Hnd as [Hk Hnd]. rewrite filter_cons. cbn [snd dget].
  assert (forall k' f', (k', f') ∈ s -> 1 <= f') as Hpos' by (intros k' f' Hin; apply (Hpos k'); list_mem).
  specialize (IH Hnd Hpos'). assert (1 <= f) as Hf by (apply (Hpos k); list_mem).
  destruct (decide (1 < f)) as [H | H]; cbn [dget]; destruct (decide (v = k)) as [-> | Hvk]; try done.
  assert (f = 1) as -> by lia. cbn. rewrite IH.
  destruct (dget s k) eqn:E; [|done]. exfalso. apply Hk, dget_is_Some. eauto.
Qed.

(** A division keeps the factors above one, and no information is lost. *)
Lemma splits_division sp s t :
  NoDup (axes sp) -> at_state sp s t -> splits_of sp (division_of sp s t) = s.
Proof.
  intros Hnd Hs. pose proof Hs as [Hk _]. rewrite <- Hk in Hnd. unfold splits_of, division_of.
  cbn [splits]. rewrite <- Hk.
  assert (forall k f, (k, f) ∈ s -> 1 <= f) as Hpos by (intros k f; by eapply at_state_positive).
  setoid_rewrite sparse_get; [|done|done].
  assert (forall l : dict Z, (forall k f, (k, f) ∈ l -> dget_or 1 s k = f) ->
            (fun a => (a, dget_or 1 s a)) <$> dkeys l = l) as Hgen.
  { unfold dkeys. induction l as [|[k f] l IH]; intros H; csimpl; [done|].
    rewrite (H k f) by list_mem. f_equal. apply IH. intros. apply H. list_mem. }
  apply Hgen. intros k f Hin. unfold dget_or. by rewrite (dget_NoDup s k f Hnd Hin).
Qed.

Lemma elem_of_axis_moves sp s t axis l s' :
  axis_moves sp s t axis = Ok l ->
  s' ∈ l <-> exists dom f, space_factor_domain sp axis t = Ok dom /\ f ∈ dom /\
    f <> dget_or 1 s axis /\ s' = dset axis f s /\ admits sp s' t = Ok true.
Proof.
  unfold axis_moves. intros (dom & Hdom & Hf)%bind_Ok. apply py_filter_spec in Hf as [_ Hiff].
  rewrite Hiff, list_elem_of_fmap. setoid_rewrite list_elem_of_filter. split.
  - intros [(f & -> & Hne & Hin) Ha]. eauto 10.
  - intros (dom' & f & Hd' & Hin & Hne & -> & Ha). rewrite Hdom in Hd'. injection Hd' as <-. eauto 10.
Qed.

(** The divisions one move away. *)
Lemma elem_of_neighbours sp s t out d' :
  NoDup (axes sp) -> at_state sp s t ->
  neighbours sp (division_of sp s t) = Ok out ->
  d' ∈ out <->
  (exists axis l s', axis ∈ axes sp /\ axis_moves sp s t axis = Ok l /\ s' ∈ l /\ d' = division_of sp s' t) \/
  (exists spec, spec ∈ tiling_options sp t /\ admits sp s spec = Ok true /\ d' = division_of sp s spec).
Proof.
  intros Hnd Hs. unfold neighbours. rewrite splits_division by done. cbn [tiling division_of].
  intros (moves & Hm & H)%bind_Ok. apply bind_Ok in H as (specs & Hsp & [= <-]).
  apply py_map_Ok in Hm. apply py_filter_spec in Hsp as [_ Hiff].
  rewrite elem_of_app, !list_elem_of_fmap. setoid_rewrite Hiff. setoid_rewrite list_elem_of_join. split.
  - intros [(s' & -> & l & Hin & Hl) | (spec & -> & ? & ?)]; [left | right; eauto].
    apply list_elem_of_lookup in Hl as [i Hi]. destruct (Forall2_lookup_r _ _ _ _ _ Hm Hi) as (axis & Ha & Hax).
    exists axis, l, s'. split_and!; [by eapply list_elem_of_lookup_2 | done | done | done].
  - intros [(axis & l & s' & Hax & Hl & Hin & ->) | (spec & ? & ? & ->)]; [left | right; eauto].
    apply list_elem_of_lookup in Hax as [i Hi]. destruct (Forall2_lookup_l _ _ _ _ _ Hm Hi) as (l' & Hl' & Hax').
    rewrite Hl in Hax'. injection Hax' as <-. exists s'. split; [done|]. exists l. split; [done|].
    by eapply list_elem_of_lookup_2.
Qed.

Lemma dset_dset_back (s : dict Z) axis f :
  axis ∈ dkeys s -> dset axis (dget_or 1 s axis) (dset axis f s) = s.
Proof.
  unfold dkeys, dget_or. induction s as [|[k v] s IH]; csimpl; [intros H; by apply elem_of_nil in H|].
  rewrite elem_of_cons. intros Hin. destruct (decide (axis = k)) as [-> | Hne]; csimpl.
  - by rewrite decide_True.
  - rewrite decide_False by done. f_equal. apply IH. by destruct Hin.
Qed.

Lemma admits_tiling_legal sp s t ts :
  sp_tiling sp = Some ts -> admits sp s t = Ok true -> legal_levels ts (PlanSolver.axes t).
Proof.
  intros Hts. unfold admits, admits_tiling. rewrite Hts. intros (b & Hb & Hrun)%bind_Ok.
  destruct (Tilings.admits ts t) eqn:E; [by apply admits_legal|]. injection Hb as <-. cbn in Hrun. discriminate Hrun.
Qed.

(** The moves of the annealing search stay legal and can be taken back: from an
    admitted complete split every neighbour is again an admitted complete split
    that differs in the factor of one axis or in one level of the tiling, its
    division loses no information, and the search can move back. *)
Theorem neighbours_legal_reversible sp s t out d' :
  NoDup (axes sp) -> at_state sp s t ->
  neighbours sp (division_of sp s t) = Ok out -> d' ∈ out ->
  exists s' t', d' = division_of sp s' t' /\ at_state sp s' t' /\ splits_of sp d' = s' /\
    ((t' = t /\ exists axis f, axis ∈ axes sp /\ f <> dget_or 1 s axis /\ s' = dset axis f s) \/
     (s' = s /\ level_edit (PlanSolver.axes t) (PlanSolver.axes t'))) /\
    (forall out', neighbours sp d' = Ok out' -> division_of sp s t ∈ out').
Proof.
  intros Hnd Hs Hrun Hin. pose proof Hs as [Hk Hadm].
  apply (elem_of_neighbours sp s t out d' Hnd Hs Hrun) in Hin
    as [(axis & l & s' & Hax & Hl & Hs' & ->) | (spec & Hopt & Ha & ->)].
  - apply (elem_of_axis_moves _ _ _ _ _ _ Hl) in Hs' as (dom & f & Hdom & Hf & Hne & -> & Ha).
    assert (at_state sp (dset axis f s) t) as Hst.
    { split; [|done]. rewrite dkeys_dset_mem; [done|]. by rewrite Hk. }
    exists (dset axis f s), t. split_and!; [done | done | by apply splits_division | left; split; [done|]; by exists axis, f |].
    intros out' Hout'.
    apply (elem_of_neighbours sp _ t out' _ Hnd Hst Hout'). left.
    assert (exists l', axis_moves sp (dset axis f s) t axis = Ok l') as [l' Hl'].
    { unfold neighbours in Hout'. rewrite splits_division in Hout' by done. cbn [tiling division_of] in Hout'.
      apply bind_Ok in Hout' as (moves & Hm & _). apply py_map_Ok in Hm.
      apply list_elem_of_lookup in Hax as [i Hi].
      destruct (Forall2_lookup_l _ _ _ _ _ Hm Hi) as (l' & _ & Hl'). eauto. }
    exists axis, l', s. split_and!; try done. apply (elem_of_axis_moves _ _ _ _ _ _ Hl').
    assert (axis ∈ dkeys s) as Hak by (by rewrite Hk).
    exists dom, (dget_or 1 s axis). split_and!; [done | | | |done].
    + destruct (admits_context sp s t Hadm) as (c & Hc & Hleg).
      destruct (proj2 (dget_is_Some s axis) Hak) as [f0 Hf0]. unfold dget_or. rewrite Hf0. cbn.
      destruct (legal_in_domain c s axis f0 Hleg (dget_Some_elem _ _ _ Hf0)) as (_ & dom' & Hd' & Hin').
      unfold space_factor_domain in Hdom. rewrite Hc in Hdom. cbn [mbind res_bind] in Hdom. congruence.
    + unfold dget_or at 2. rewrite dget_dset, decide_True by done. cbn. congruence.
    + symmetry. by apply dset_dset_back.
  - assert (at_state sp s spec) as Hst by done. unfold tiling_options in Hopt.
    destruct (sp_tiling sp) as [ts|] eqn:Hts; [|by apply elem_of_nil in Hopt].
    pose proof (admits_tiling_legal sp s t ts Hts Hadm) as Ht.
    apply elem_of_tiling_moves in Hopt as [Hspec Hed]; [|done].
    exists s, spec. split_and!; [done | done | by apply splits_division | by right |].
    intros out' Hout'. apply (elem_of_neighbours sp s spec out' _ Hnd Hst Hout'). right. exists t.
    split_and!; [|done|done]. unfold tiling_options. rewrite Hts. apply elem_of_tiling_moves; [done|].
    split; [done | by apply level_edit_sym].
Qed.

(** ** Witnesses *)

(** A row-wise reduction over [r0] into [d0] rows of two sticks [d1]. *)
Definition ex_out : TensorDep :=
  mkTensorDep "buf0" [4; 2; 64] 2 64 false
    [var_coord "d0"; mkCoord ["d1"%string] false (fun env => Some (env "d1"%string / 64));
     mkCoord ["d1"%string] false (fun env => Some (env "d1"%string mod 64))].

Definition ex_op : op_facts :=
  mkOpFacts [("d0"%string, concrete 4); ("d1"%string, concrete 128); ("r0"%string, concrete 6)]
    [] ex_out [fun _ => Ok (mkConstraints ∅ [("r0"%string, {[ 1; 2; 3 ]})])] [] 32 4 (fun _ => None).

Definition ex_adjusted : dict Expr :=
  [("d0"%string, concrete 4); ("d1"%string, concrete 2); ("r0"%string, concrete 6)].

Definition ex_ctx : WorkDivisionContext :=
  mkContext (Some 4) (op_it_space ex_op) ex_adjusted [("d1"%string, 64)] [] [ex_out] ["r0"%string]
    (mkConstraints ∅ [("r0"%string, {[ 1; 2; 3 ]})]) [].

Definition ex_menu : list (dict Z) :=
  Eval vm_compute in match menu ex_ctx with Ok l => l | Raise _ => [] end.

Lemma menu_exact_witness : NoDup ex_menu.
Proof.
  refine (proj1 (menu_exact ex_op 4 (mkSpec []) ex_ctx ex_menu _ _ _)).
  - vm_compute. reflexivity.
  - apply (bool_decide_unpack _). vm_compute. exact I.
  - vm_compute. reflexivity.
Defined.

Definition ex_space : OpSplitSpace := mkSpace ex_op ex_ctx {[ "d0"%string; "d1"%string ]} None.
Definition ex_state : dict Z := [("d0"%string, 2); ("d1"%string, 1); ("r0"%string, 2)].

Lemma neighbours_legal_reversible_witness :
  exists s' t', division_of ex_space [("d0"%string, 1); ("d1"%string, 1); ("r0"%string, 2)] (mkSpec [])
                = division_of ex_space s' t' /\ at_state ex_space s' t'.
Proof.
  destruct (neighbours_legal_reversible ex_space ex_state (mkSpec [])
    (match neighbours ex_space (division_of ex_space ex_state (mkSpec [])) with Ok l => l | Raise _ => [] end)
    (division_of ex_space [("d0"%string, 1); ("d1"%string, 1); ("r0"%string, 2)] (mkSpec [])))
    as (s' & t' & H1 & H2 & _).
  - apply (bool_decide_unpack _). vm_compute. exact I.
  - split; vm_compute; reflexivity.
  - vm_compute. reflexivity.
  - apply (bool_decide_unpack _). vm_compute. exact I.
  - exists s', t'. split; [exact H1 | exact H2].
Defined.
