(* ===== verification/WorkPasses.v ===== *)
(** * The work-division passes over one operation ([work_division.py])

    [span_reduction_pass] commits the splits the memory-span limit forces;
    [work_distribution_pass] then follows the user's hint or distributes the
    remaining cores by priority.  The main theorem runs the two in sequence and
    shows that what is committed is legal on every count the backend cares about.

    The attributes the passes write on the operation are the record [op_state]:
    the span floors and the iteration-space ownership.  The hint dictionaries, the
    named loop dimensions and the entry dimensions of an indirect store are
    arguments of the operation. *)

From S2P Require Import Prelude PyDict WorkDivision SpanReduction CoreMapping.

(** A hint value: an integer, or something [isinstance(x, int)] rejects (a [bool]
    counts as such here, as in the code). *)
Inductive hint_value : Set := HInt (n : Z) | HOther.

Record pass_op := mkPassOp {
  it_space : dict Expr;
  input_tds : list TensorDep;
  output_td : TensorDep;
  constraints : list constraint;
  op_hints : list (dict hint_value);
  work_div_loop_info : dict (list string);
  entry_dims : gset string;
  k_fast : bool;
  max_buckets : Z;
  min_granularity : Z;
  ignore_work_division_hints : bool
}.

Record op_state := mkOpState {
  span_min_splits : dict Z;
  ownership : option TensorWorkDivision
}.

Definition all_tds (op : pass_op) : list TensorDep := input_tds op ++ [output_td op].

(** ** User hints *)

(** The hints of the operation, already sorted by id. *)
Definition _work_div_hint_by_name (op : pass_op) : dict hint_value :=
  foldl dupdate [] (op_hints op).

(** The first unassigned symbol that carries the name. *)
Definition resolve_one (loop_var_dims : dict (list string)) (space : dict Expr)
    (splits : dict hint_value) (ns : string * hint_value) : dict hint_value :=
  match list_find (fun sym => dget splits sym = None /\ ns.1 ∈ dget_or [] loop_var_dims sym) (dkeys space) with
  | Some (_, sym) => dset sym ns.2 splits
  | None => splits
  end.

Definition _resolve_work_div_hint (op : pass_op) (space : dict Expr) : option (dict hint_value) :=
  let dim_to_split := _work_div_hint_by_name op in
  if bool_decide (dim_to_split = []) then None
  else
    let splits := foldl (resolve_one (work_div_loop_info op) space) [] dim_to_split in
    if bool_decide (splits = []) then None else Some splits.

(** One hinted symbol: the state is [(splits, cores_used)]. *)
Definition apply_hint (adjusted : dict Expr) (max_cores : Z) (r : ConstraintResult)
    (min_splits : dict Z) (sv : string * hint_value) (st : dict Z * Z) : res (dict Z * Z) :=
  match sv.2 with
  | HOther => Raise Unsupported
  | HInt split =>
      raise_if (split <? 1) Unsupported;;
      raise_if (negb (dmem adjusted sv.1)) Unsupported;;
      raise_if ((1 <? split) && bool_decide (sv.1 ∈ blocked r)) Unsupported;;
      raise_if (match dget (allowed_splits r) sv.1 with
                | Some a => bool_decide (split ∉ a) | None => false end) Unsupported;;
      raise_if (split <? dget_or 1 min_splits sv.1) Unsupported;;
      let next_cores := st.2 * split in
      if max_cores <? next_cores then Ok st
      else
        e ← dgetitem adjusted sv.1;
        raise_if (negb (concretize_expr e mod split =? 0)) Unsupported;;
        Ok (dset sv.1 split st.1, next_cores)
  end.

Definition _apply_user_hint (user_splits : dict hint_value) (adjusted : dict Expr)
    (out : TensorDep) (max_cores : Z) (r : ConstraintResult) (min_splits : dict Z) : res (dict Z) :=
  st ← for_each (apply_hint adjusted max_cores r min_splits) user_splits ([], 1);
  let splits := st.1 in
  let reduction_vars_to_split := filter (fun ss => 1 < ss.2 /\ ss.1 ∉ coord_vars out) splits in
  raise_if (1 <? Z.of_nat (length reduction_vars_to_split)) Unsupported;;
  raise_if (existsb (fun va => bool_decide (dget_or 1 splits va.1 ∉ va.2)) (allowed_splits r)
            || existsb (fun vm => dget_or 1 splits vm.1 <? vm.2) min_splits) Unsupported;;
  Ok splits.

(** ** [span_reduction_pass] *)

(** [apply_splits] *)
Definition apply_splits (op : pass_op) (splits : dict Z) : res TensorWorkDivision :=
  make_iteration_space_ownership (dkeys (it_space op)) (k_fast op) splits.

(** The common prefix of the passes. *)
Definition op_spaces (op : pass_op) : res (SymbolMeta * (dict Expr * dict Z)) :=
  symbol_meta ← _collect_symbol_metadata (max_buckets op) (min_granularity op) (it_space op);
  adj ← adjust_it_space_for_sticks (it_space op) (all_tds op) symbol_meta;
  Ok (symbol_meta, adj).

Definition reduction_vars (op : pass_op) (adjusted : dict Expr) : list string :=
  filter (fun v => v ∉ coord_vars (output_td op)) (dkeys adjusted).

Definition collect (op : pass_op) (adj : dict Expr * dict Z) (committed : dict Z)
    : res ConstraintResult :=
  collect_work_division_constraints (constraints op)
    (mkConstraintContext (it_space op) adj.1 (output_td op) (input_tds op) adj.2
       (reduction_vars op adj.1) committed).

Definition span_reduction_pass (op : pass_op) (st : op_state) (max_cores : Z) : res op_state :=
  sp ← op_spaces op;
  r ← collect op sp.2 [];
  min_splits ← must_split_vars (it_space op) sp.2.1 sp.2.2 max_cores sp.1 (allowed_splits r) (blocked r)
                 (all_tds op);
  collect op sp.2 min_splits;;
  raise_if (1 <? Z.of_nat (length (filter (fun ss => 1 < ss.2 /\ ss.1 ∉ coord_vars (output_td op)) min_splits)))
    Unsupported;;
  w ← apply_splits op min_splits;
  Ok (mkOpState min_splits (Some w)).

(** ** [work_distribution_pass] *)

Definition _default_split (op : pass_op) (adjusted : dict Expr) (committed : dict Z) (max_cores : Z)
    (symbol_meta : SymbolMeta) (r : ConstraintResult) : res (dict Z) :=
  let '(output_dims, reduction_dims) :=
    prioritize_indirect_scatter_dimensions (entry_dims op) (output_td op) adjusted symbol_meta in
  let committed_reduction := filter (fun v => v ∉ coord_vars (output_td op)) (dkeys committed) in
  let reduction_dims := if bool_decide (committed_reduction = []) then reduction_dims
                        else filter (fun v => v ∈ committed_reduction) reduction_dims in
  multi_dim_iteration_space_split adjusted max_cores
    (filter (fun v => v ∉ blocked r) output_dims) (filter (fun v => v ∉ blocked r) reduction_dims)
    committed symbol_meta (allowed_splits r).

(** The splits above one that are already committed. *)
Definition committed_of (st : op_state) : dict Z :=
  match ownership st with
  | Some w => filter (fun sv => 1 < sv.2) (work_slices w)
  | None => []
  end.

Definition choose_splits (op : pass_op) (st : op_state) (adjusted : dict Expr) (committed : dict Z)
    (max_cores : Z) (symbol_meta : SymbolMeta) (r : ConstraintResult) : res (dict Z) :=
  match (if ignore_work_division_hints op then None else _resolve_work_div_hint op adjusted) with
  | Some user_splits =>
      _apply_user_hint user_splits adjusted (output_td op) max_cores r (span_min_splits st)
  | None => _default_split op adjusted committed max_cores symbol_meta r
  end.

Definition work_distribution_pass (op : pass_op) (st : op_state) (max_cores : Z) : res op_state :=
  sp ← op_spaces op;
  r ← collect op sp.2 (committed_of st);
  splits ← choose_splits op st sp.2.1 (committed_of st) max_cores sp.1 r;
  w ← apply_splits op splits;
  raise_if_per_core_overflow (all_tds op) (it_space op) splits sp.1;;
  Ok (mkOpState (span_min_splits st) (Some w)).

(** [span_reduction] then [work_distribution] on one operation. *)
Definition divide_op (op : pass_op) (st : op_state) (max_cores : Z) : res op_state :=
  st1 ← span_reduction_pass op st max_cores;
  work_distribution_pass op st1 max_cores.

(** ** What the passes share *)

Lemma op_spaces_keys op meta adj :
  op_spaces op = Ok (meta, adj) ->
  dkeys adj.1 = dkeys (it_space op) /\ (forall v, is_Some (dget meta v) -> v ∈ dkeys (it_space op)).
Proof.
  unfold op_spaces. intros (meta' & Hmeta & H)%bind_Ok. apply bind_Ok in H as (adj' & Hadj & [= <- <-]).
  split.
  - unfold adjust_it_space_for_sticks in Hadj. apply bind_Ok in Hadj as (me & _ & Hadj).
    apply bind_Ok in Hadj as (sp & Hsp & [= <-]). cbn [fst]. revert Hsp.
    apply (for_each_ind _ (fun _ sp => dkeys sp = dkeys (it_space op))); [|done].
    intros dn [v n] rest s1 s2 _ Hs1 (e & He & Hstep)%bind_Ok. cbn [fst snd] in *.
    case_match; [done|]. injection Hstep as <-. rewrite dkeys_dset_mem; [done|].
    unfold dgetitem in He. destruct (dget s1 v) eqn:E; [|done]. apply dget_is_Some. eauto.
  - clear Hadj. revert Hmeta. unfold _collect_symbol_metadata. apply (for_each_ind _ (fun dn m => forall v, is_Some (dget m v) -> v ∈ dkeys dn)).
    + intros dn [s e] rest m1 m2 _ Hm1 Hstep v. unfold collect_one in Hstep. cbn [fst snd] in Hstep.
      assert (v ∈ dkeys dn -> v ∈ dkeys (dn ++ [(s, e)])) as Hup
        by (unfold dkeys; rewrite fmap_app; intros; list_mem).
      destruct (negb (has_free_symbols e)); [injection Hstep as <-; auto|].
      destruct (finite_upper_or_none e); [|injection Hstep as <-; auto].
      apply bind_Ok in Hstep as (g & _ & [= <-]). rewrite dget_dset. case_decide as Hv; [|auto].
      subst. intros _. unfold dkeys. rewrite fmap_app. list_mem.
    + intros v [? H]. done.
Qed.

(** The domains a merged result carries are as sane as the constraints'. *)
Definition sane (op : pass_op) : Prop :=
  forall k ctx x v a, k ∈ constraints op -> k ctx = Ok x -> (v, a) ∈ allowed_splits x ->
    v ∈ dkeys (it_space op) /\ forall s, s ∈ a -> 1 <= s.

Lemma collect_sane op adj committed r :
  sane op -> collect op adj committed = Ok r ->
  NoDup (dkeys (allowed_splits r)) /\
  (forall v a, dget (allowed_splits r) v = Some a ->
     v ∈ dkeys (it_space op) /\ (forall s, s ∈ a -> 1 <= s) /\ a <> ∅ /\
     forall c, dget committed v = Some c -> c ∈ a) /\
  (forall v, v ∈ blocked r -> dget_or 1 committed v <= 1).
Proof.
  intros Hsane (rs & Hrs & [Hnd _ Hun Hdom _])%collect_merged. cbn in Hun, Hdom. apply py_map_Ok in Hrs.
  assert (forall x v a, x ∈ rs -> (v, a) ∈ allowed_splits x ->
            v ∈ dkeys (it_space op) /\ forall s, s ∈ a -> 1 <= s) as Hx.
  { intros x v a [i Hi]%list_elem_of_lookup Hin.
    destruct (Forall2_lookup_r _ _ _ _ _ Hrs Hi) as (k & Hk & Hrun).
    eapply Hsane; [by eapply list_elem_of_lookup_2 | exact Hrun | done]. }
  split_and!; [done | | done]. intros v a Hv. destruct (Hdom v a Hv) as (Hne & Hc & Hs).
  assert (forall P : Prop, Decision P -> (forall x b, x ∈ rs -> (v, b) ∈ allowed_splits x -> P) -> P) as Hcase.
  { intros P [HP | HnP] H; [done|]. exfalso. destruct (exist_fresh a) as [y Hy]. apply Hy, Hs.
    intros x b Hxin Hb. destruct (HnP (H x b Hxin Hb)). }
  split_and!; [| | done | done].
  - apply Hcase; [apply _|]. intros x b Hxin Hb. by eapply Hx.
  - intros s Hin. apply Hcase; [apply _|]. intros x b Hxin Hb. eapply Hx; [done | exact Hb |].
    by eapply (proj1 (Hs s) Hin).
Qed.

(** ** The user's hint *)

(** What every chosen split satisfies, whichever way it was chosen. *)
Record chosen_ok (op : pass_op) (max_cores : Z) (r : ConstraintResult) (floors : dict Z)
    (splits : dict Z) : Prop := {
  ch_budget : zprod (dvalues splits) <= max_cores;
  ch_pos : forall v s, (v, s) ∈ splits -> 1 <= s;
  ch_floor : forall v m, dget floors v = Some m -> m <= dget_or 1 splits v;
  ch_domain : forall v a, dget (allowed_splits r) v = Some a -> dget_or 1 splits v ∈ a;
  ch_blocked : forall v, v ∈ blocked r ->
    (forall a, dget (allowed_splits r) v = Some a -> 1 ∈ a) -> dget_or 1 splits v = 1
}.

Lemma existsb_false {A} (p : A -> bool) l x : existsb p l = false -> x ∈ l -> p x = false.
Proof.
  induction l as [|y l IH]; cbn; [intros _ H; by apply elem_of_nil in H|].
  intros [H1 H2]%orb_false_iff [-> | H]%elem_of_cons; auto.
Qed.

Lemma apply_hint_loop adjusted max_cores r mins us st :
  1 <= max_cores ->
  for_each (apply_hint adjusted max_cores r mins) us ([], 1) = Ok st ->
  NoDup (dkeys us) ->
  st.2 = zprod (dvalues st.1) /\ st.2 <= max_cores /\ NoDup (dkeys st.1) /\
  (forall v, v ∈ dkeys st.1 -> v ∈ dkeys us) /\
  (forall v s, (v, s) ∈ st.1 -> 1 <= s /\ (v ∈ blocked r -> s = 1)).
Proof.
  intros Hmax Hrun Hnd. revert Hrun.
  apply (for_each_ind _ (fun dn st => st.2 = zprod (dvalues st.1) /\ st.2 <= max_cores /\ NoDup (dkeys st.1) /\
    (forall v, v ∈ dkeys st.1 -> v ∈ dkeys dn) /\
    (forall v s, (v, s) ∈ st.1 -> 1 <= s /\ (v ∈ blocked r -> s = 1)))).
  - intros dn [v h] rest [s1 c1] s2 Hus (Hc & Hm & Hn & Hk & Hall) Hstep. unfold apply_hint in Hstep.
    cbn [fst snd] in *.
    assert (forall u, u ∈ dkeys dn -> u ∈ dkeys (dn ++ [(v, h)])) as Hup
      by (intros u Hu; unfold dkeys in *; rewrite fmap_app; list_mem).
    destruct h as [n|]; [|done]. apply bind_Ok in Hstep as ([] & H1%raise_if_Ok & Hstep).
    apply bind_Ok in Hstep as ([] & _ & Hstep). apply bind_Ok in Hstep as ([] & Hb%raise_if_Ok & Hstep).
    apply bind_Ok in Hstep as ([] & _ & Hstep). apply bind_Ok in Hstep as ([] & _ & Hstep).
    destruct (Z.ltb_spec max_cores (c1 * n)) as [_ | Hfit]; [injection Hstep as <-; split_and!; auto|].
    apply bind_Ok in Hstep as (e & _ & Hstep). apply bind_Ok in Hstep as ([] & _ & [= <-]). cbn [fst snd].
    assert (v ∉ dkeys s1) as Hnew.
    { intros Hin%Hk. rewrite Hus in Hnd. unfold dkeys in Hnd, Hin. rewrite fmap_app in Hnd.
      apply NoDup_app in Hnd as (_ & Hd & _). apply (Hd v Hin). csimpl. list_mem. }
    split_and!; [| done | by apply dkeys_dset_NoDup | |].
    + rewrite zprod_dset_new by (by apply dget_None). by rewrite Hc.
    + intros u [-> | Hu]%elem_of_dkeys_dset; [|auto]. unfold dkeys. rewrite fmap_app. csimpl. list_mem.
    + intros u s [[= -> ->] | Hin]%elem_of_dset; [|by apply Hall]. split; [lia|]. intros Hblk.
      rewrite (bool_decide_true _ Hblk), andb_true_r in Hb. lia.
  - cbn. split_and!; [done | done | constructor | done |]. intros v s H. by apply elem_of_nil in H.
Qed.

Lemma user_hint_ok op us adjusted max_cores r mins splits :
  1 <= max_cores -> NoDup (dkeys us) ->
  _apply_user_hint us adjusted (output_td op) max_cores r mins = Ok splits ->
  chosen_ok op max_cores r mins splits /\
  (length (filter (fun ss : string * Z => (1 < ss.2)%Z /\ ss.1 ∉ coord_vars (output_td op)) splits) <= 1)%nat.
Proof.
  intros Hmax Hnd. unfold _apply_user_hint. intros ([s c] & Hrun & H)%bind_Ok. cbn [fst] in H.
  apply bind_Ok in H as ([] & Hred%raise_if_Ok & H). apply bind_Ok in H as ([] & Hconf%raise_if_Ok & [= <-]).
  apply orb_false_iff in Hconf as [Hdom Hfl].
  destruct (apply_hint_loop _ _ _ _ _ _ Hmax Hrun Hnd) as (Hc & Hm & Hn & _ & Hall). cbn [fst snd] in *.
  split; [|lia]. split; [lia | intros v s' Hin; apply (proj1 (Hall v s' Hin)) | | |].
  - intros v m Hm'%dget_Some_elem. apply (existsb_false _ _ _ Hfl) in Hm'. cbn in Hm'. lia.
  - intros v a Ha%dget_Some_elem. apply (existsb_false _ _ _ Hdom) in Ha. cbn in Ha.
    by destruct (decide (dget_or 1 s v ∈ a)); [|rewrite bool_decide_true in Ha].
  - intros v Hv _. unfold dget_or. destruct (dget s v) as [x|] eqn:E; [|done].
    apply dget_Some_elem in E. by apply (Hall v x E).
Qed.

Lemma resolve_NoDup op adjusted us : _resolve_work_div_hint op adjusted = Some us -> NoDup (dkeys us).
Proof.
  unfold _resolve_work_div_hint. case_match; [done|]. case_match; [done|]. intros [= <-].
  assert (forall l d, NoDup (dkeys d) ->
    NoDup (dkeys (foldl (resolve_one (work_div_loop_info op) adjusted) d l))) as Hgen.
  { induction l as [|ns l IH]; intros d Hd; [done|]. cbn [foldl]. apply IH. unfold resolve_one.
    destruct (list_find _ _) as [[i sym]|]; [by apply dkeys_dset_NoDup | done]. }
  apply Hgen. constructor.
Qed.

(** ** The default split *)

(** The dims the priority lists split over: every axis is an output dim or a reduction
    dim, never both. *)
Lemma prioritize_spec entry out adjusted meta :
  NoDup (dkeys adjusted) ->
  let '(outs, reds) := prioritize_indirect_scatter_dimensions entry out adjusted meta in
  (forall v, v ∈ reds <-> v ∈ dkeys adjusted /\ v ∉ coord_vars out /\ v ∉ entry) /\
  (forall v, v ∈ outs -> v ∈ dkeys adjusted /\ (v ∈ coord_vars out \/ v ∈ entry)) /\ NoDup reds.
Proof.
  intros Hnd. unfold prioritize_indirect_scatter_dimensions, prioritize_dimensions. split_and!.
  - intros v. rewrite list_elem_of_filter, elem_of_py_sorted, list_elem_of_filter. tauto.
  - intros v [Hv | Hv]%elem_of_app.
    + apply list_elem_of_filter in Hv as [He Hv]. apply elem_of_py_sorted, list_elem_of_filter in Hv. tauto.
    + apply elem_of_py_sorted, list_elem_of_filter in Hv. tauto.
  - apply NoDup_filter. rewrite py_sorted_perm. by apply NoDup_filter.
Qed.

(** The arguments the default split passes on are well formed. *)
Lemma default_wf op adjusted committed max_cores meta r outs reds reds' :
  1 <= max_cores -> NoDup (dkeys adjusted) -> dkeys adjusted = dkeys (it_space op) ->
  NoDup (dkeys committed) -> (forall v s, (v, s) ∈ committed -> 1 < s) ->
  NoDup (dkeys (allowed_splits r)) ->
  (forall v a, dget (allowed_splits r) v = Some a -> forall s, s ∈ a -> 1 <= s) ->
  prioritize_indirect_scatter_dimensions (entry_dims op) (output_td op) adjusted meta = (outs, reds) ->
  reds' `sublist_of` reds ->
  wf_split adjusted max_cores (filter (fun v => v ∉ blocked r) outs) (filter (fun v => v ∉ blocked r) reds')
    committed (allowed_splits r).
Proof.
  intros Hmax Hnd Hk Hnc Hcp Hna Hap Hp Hsub.
  pose proof (prioritize_spec (entry_dims op) (output_td op) adjusted meta Hnd) as Hs. rewrite Hp in Hs.
  destruct Hs as (Hr & Ho & Hndr).
  split; [done | done | done | done | | | | | |].
  - intros v m Hin. specialize (Hcp v m Hin). lia.
  - intros v a s Hin. apply (Hap v). by apply dget_NoDup.
  - intros v [_ Hv]%list_elem_of_filter. by apply Ho.
  - intros v [_ Hv]%list_elem_of_filter. eapply elem_of_sublist in Hv; [|exact Hsub]. by apply Hr.
  - intros v [_ Hv]%list_elem_of_filter [_ Hv']%list_elem_of_filter.
    eapply elem_of_sublist in Hv'; [|exact Hsub]. apply Hr in Hv'. apply Ho in Hv. tauto.
  - apply NoDup_filter. by eapply sublist_NoDup.
Qed.

Lemma default_ok op adjusted committed max_cores meta r splits :
  1 <= max_cores -> NoDup (dkeys adjusted) -> dkeys adjusted = dkeys (it_space op) ->
  NoDup (dkeys committed) -> (forall v s, (v, s) ∈ committed -> 1 < s) ->
  NoDup (dkeys (allowed_splits r)) ->
  (forall v a, dget (allowed_splits r) v = Some a -> forall s, s ∈ a -> 1 <= s) ->
  (forall v, v ∈ blocked r -> dget_or 1 committed v <= 1) ->
  _default_split op adjusted committed max_cores meta r = Ok splits ->
  chosen_ok op max_cores r committed splits /\
  ((forall v a, v ∉ coord_vars (output_td op) -> dget (allowed_splits r) v = Some a -> 1 ∈ a) ->
   (length (filter (fun v => (1 < dget_or 1 splits v)%Z /\ v ∉ entry_dims op)
              (reduction_vars op adjusted)) <= 1)%nat).
Proof.
  intros Hmax Hnd Hk Hnc Hcp Hna Hap Hbl. unfold _default_split.
  destruct (prioritize_indirect_scatter_dimensions _ _ _ _) as [outs reds] eqn:Hp.
  set (cr := filter (fun v => v ∉ coord_vars (output_td op)) (dkeys committed)).
  set (reds' := if bool_decide (cr = []) then reds else filter (fun v => v ∈ cr) reds). intros Hrun.
  assert (reds' `sublist_of` reds) as Hsub by (unfold reds'; case_match; [done | apply sublist_filter]).
  pose proof (default_wf op adjusted committed max_cores meta r outs reds reds' Hmax Hnd Hk Hnc Hcp Hna Hap Hp Hsub)
    as Hwf.
  destruct (split_facts _ _ _ _ _ _ _ _ Hwf Hrun)
    as (mand & Hmand & [Hprod Hpos] & Hmono & Hfac & Hdom & Hkeys & Hone & _).
  pose proof Hwf as [_ _ Hmin Hal Hmp Hap' _ _ _ _].
  destruct (mandatory_spec (allowed_splits r) committed Hmin Hal Hmp Hap' mand Hmand) as (_ & Hfloor & _).
  pose proof (mandatory_unforced (allowed_splits r) committed Hmin Hal Hmp Hap' mand) as Hunf.
  assert (forall v, dget committed v = None -> (forall a, dget (allowed_splits r) v = Some a -> 1 ∈ a) ->
    v ∉ filter (fun v => v ∉ blocked r) outs ++ filter (fun v => v ∉ blocked r) reds' ->
    dget_or 1 splits v = 1) as Hone_v.
  { intros v Hn Ha Hv. destruct (Hfac v) as [-> | [? _]]; [by apply Hunf | done]. }
  assert (forall v, v ∈ blocked r -> dget committed v = None) as Hbn.
  { intros v Hv. specialize (Hbl v Hv). unfold dget_or in Hbl. destruct (dget committed v) eqn:E; [|done].
    apply dget_Some_elem, Hcp in E. cbn in Hbl. lia. }
  split.
  - split; [done | done | | done |].
    + intros v m Hm. specialize (Hmono v). unfold dget_or at 1 in Hmono. by rewrite (Hfloor v m Hm) in Hmono.
    + intros v Hv Ha. apply Hone_v; [by apply Hbn | done |].
      intros [[? _]%list_elem_of_filter | [? _]%list_elem_of_filter]%elem_of_app; done.
  - intros Hadm. etrans; [|exact Hone]. apply submseteq_length, NoDup_submseteq.
    { apply NoDup_filter, NoDup_filter. by rewrite Hk in Hnd |- *. }
    intros v [[Hlt He] Hv]%list_elem_of_filter. apply list_elem_of_filter. split; [done|].
    apply list_elem_of_filter in Hv as [Hc Hv].
    pose proof (prioritize_spec (entry_dims op) (output_td op) adjusted meta Hnd) as Hs. rewrite Hp in Hs.
    destruct Hs as (Hr & Ho & _). assert (v ∈ reds) as Hvr by (apply Hr; done).
    destruct (decide (v ∈ filter (fun v => v ∉ blocked r) reds')) as [Hin | Hnin]; [done|]. exfalso.
    assert (dget committed v <> None) as Hcom.
    { intros Hn. rewrite (Hone_v v Hn) in Hlt; [lia | intros a Ha; by eapply Hadm |].
      intros [[_ Hvo]%list_elem_of_filter | ?]%elem_of_app; [|done]. apply Ho in Hvo. tauto. }
    apply Hnin, list_elem_of_filter. split; [intros Hb; by apply Hcom, Hbn|].
    assert (v ∈ cr) as Hvc.
    { apply list_elem_of_filter. split; [done|]. apply dget_is_Some.
      destruct (dget committed v); [eauto | done]. }
    unfold reds'. rewrite bool_decide_false; [by apply list_elem_of_filter|]. intros E. rewrite E in Hvc.
    by apply elem_of_nil in Hvc.
Qed.

(** ** Committing *)

(** [{sym: splits.get(sym, 1) for sym in iter_space}] *)
Definition slices (ks : list string) (d : dict Z) : dict Z := (fun v => (v, dget_or 1 d v)) <$> ks.

Lemma slices_get ks d v :
  dget (slices ks d) v = if decide (v ∈ ks) then Some (dget_or 1 d v) else None.
Proof.
  unfold slices. induction ks as [|k ks IH]; csimpl.
  - done.
  - rewrite IH. destruct (decide (v = k)) as [-> | Hne]; [rewrite decide_True; [done | list_mem]|].
    destruct (decide (v ∈ ks)); [rewrite decide_True; [done | list_mem]|].
    rewrite decide_False; [done|]. by intros [? | ?]%elem_of_cons.
Qed.

Lemma slices_prod ks d :
  NoDup ks -> (forall v s, (v, s) ∈ d -> 1 <= s) ->
  1 <= zprod (dvalues (slices ks d)) <= zprod (dvalues d).
Proof.
  intros Hnd. induction d as [|[k x] d IH]; intros Hpos.
  - clear. unfold slices. enough (dvalues ((fun v => (v, dget_or 1 [] v)) <$> ks) = replicate (length ks) 1) as ->.
    { unfold zprod. induction (length ks); simpl in *; lia. }
    unfold dvalues. induction ks as [|a l IH]; csimpl; [done|]. by rewrite IH.
  - assert (1 <= x) as Hx by (apply (Hpos k); list_mem).
    assert (forall v s, (v, s) ∈ d -> 1 <= s) as Hpos' by (intros v s Hin; apply (Hpos v); list_mem).
    specialize (IH Hpos'). unfold dvalues at 3. csimpl. change (zprod (x :: ?l)) with (x * zprod l).
    fold (dvalues d). clear Hpos.
    assert (forall l, k ∉ l -> slices l ((k, x) :: d) = slices l d) as Hout.
    { intros l Hl. unfold slices. apply list_fmap_ext. intros i v Hi. unfold dget_or. cbn [dget].
      rewrite decide_False; [done|]. intros ->. apply Hl. by eapply list_elem_of_lookup_2. }
    destruct (decide (k ∈ ks)) as [Hin | Hnin]; [|rewrite Hout by done; nia].
    apply list_elem_of_split in Hin as (l1 & l2 & ->). apply NoDup_app in Hnd as (_ & Hd & [Hk2 _]%NoDup_cons).
    assert (k ∉ l1) as Hk1 by (intros H; apply (Hd k H); list_mem).
    assert (forall e, zprod (dvalues (slices (l1 ++ k :: l2) e)) =
      zprod (dvalues (slices l1 e)) * (dget_or 1 e k * zprod (dvalues (slices l2 e)))) as Hsplit.
    { intros e. unfold slices, dvalues. rewrite !fmap_app, zprod_app. by csimpl. }
    rewrite Hsplit in IH |- *. rewrite !Hout by done.
    assert (dget_or 1 ((k, x) :: d) k = x) as -> by (unfold dget_or; cbn; by rewrite decide_True).
    assert (forall v, 1 <= dget_or 1 d v) as Hg.
    { intros v. unfold dget_or. destruct (dget d v) eqn:E; [|done]. by eapply Hpos', dget_Some_elem. }
    assert (forall l, 1 <= zprod (dvalues (slices l d))) as Hge.
    { intros l. enough (0 < zprod (dvalues (slices l d))) by lia. apply dvalues_positive.
      intros v s (y & [= -> ->] & _)%list_elem_of_fmap. specialize (Hg y). lia. }
    pose proof (Hge l1). pose proof (Hge l2). specialize (Hg k). nia.
Qed.

Lemma apply_splits_slices op d w :
  apply_splits op d = Ok w ->
  work_slices w = slices (dkeys (it_space op)) d /\
  physical_core_count w = zprod (dvalues (slices (dkeys (it_space op)) d)).
Proof. unfold apply_splits, make_iteration_space_ownership. intros (m & _ & [= <-])%bind_Ok. done. Qed.

(** The floors span reduction commits are the floors work distribution sees. *)
Definition synced (op : pass_op) (st : op_state) : Prop :=
  (forall v m, dget (span_min_splits st) v = Some m -> v ∈ dkeys (it_space op)) /\
  (forall v m, dget (span_min_splits st) v = Some m -> 1 < m -> dget (committed_of st) v = Some m) /\
  NoDup (dkeys (committed_of st)) /\ (forall v s, (v, s) ∈ committed_of st -> 1 < s).

Lemma span_reduction_synced op st max_cores st' :
  1 <= max_cores -> NoDup (dkeys (it_space op)) ->
  span_reduction_pass op st max_cores = Ok st' -> synced op st'.
Proof.
  intros Hmax Hnd. unfold span_reduction_pass. intros ([meta adj] & Hsp & H)%bind_Ok.
  apply bind_Ok in H as (r & _ & H). apply bind_Ok in H as (ms & Hms & H).
  apply bind_Ok in H as (r2 & _ & H). apply bind_Ok in H as ([] & _ & H).
  apply bind_Ok in H as (w & Hw & [= <-]). cbn [fst snd] in *.
  destruct (op_spaces_keys op meta adj Hsp) as [_ Hmeta].
  destruct (must_split_ok _ _ _ _ _ _ _ _ _ Hmax Hms) as (_ & _ & Hall).
  destruct (apply_splits_slices op ms w Hw) as [Hws _].
  assert (forall v m, dget ms v = Some m -> v ∈ dkeys (it_space op)) as Hkeys.
  { intros v m Hv%dget_Some_elem. destruct (Hall v m Hv) as (_ & Hsize & _). unfold _effective_size in Hsize.
    destruct (dget meta v) eqn:E; [apply Hmeta; eauto|]. unfold dget_or in Hsize.
    destruct (dget (it_space op) v) eqn:E'; [apply dget_is_Some; eauto | cbn in Hsize; lia]. }
  assert (NoDup (dkeys (work_slices w))) as Hwk.
  { rewrite Hws. unfold slices, dkeys at 1. rewrite <- list_fmap_compose. by rewrite list_fmap_id. }
  unfold synced, committed_of. cbn [span_min_splits ownership].
  assert (NoDup (dkeys (filter (fun sv : string * Z => 1 < sv.2) (work_slices w)))) as Hfn.
  { unfold dkeys in *. eapply sublist_NoDup; [exact Hwk|]. apply fmap_sublist, sublist_filter. }
  split_and!; [done | | done |].
  - intros v m Hv Hm. apply dget_NoDup; [done|]. apply list_elem_of_filter. split; [done|].
    apply dget_Some_elem. rewrite Hws, slices_get, decide_True by eauto. unfold dget_or. by rewrite Hv.
  - intros v s Hin. by apply list_elem_of_filter in Hin as [? _].
Qed.

Lemma overflow_checked tds space splits meta td u :
  raise_if_per_core_overflow tds space splits meta = Ok u -> td ∈ tds ->
  _is_indirectly_accessed td = false ->
  exists span, get_per_core_span td splits space meta = Ok span /\ span <= MAX_SPAN_BYTES.
Proof.
  unfold raise_if_per_core_overflow. intros Hrun Hin Hind. revert Hin. revert Hrun.
  apply (for_each_ind _ (fun dn _ => td ∈ dn -> exists span,
    get_per_core_span td splits space meta = Ok span /\ span <= MAX_SPAN_BYTES)).
  - intros dn x rest u1 u2 _ IH Hstep [Hin | ->%list_elem_of_singleton]%elem_of_app; [auto|].
    unfold check_one_overflow in Hstep. rewrite Hind in Hstep.
    apply bind_Ok in Hstep as (span & Hspan & H%raise_if_Ok). exists span. split; [done | lia].
  - intros H. by apply elem_of_nil in H.
Qed.

(** C3. When span reduction and work distribution both succeed for an operation with distinct
    axes and constraints that give its axes domains of positive counts, and max_cores is at
    least one, the committed split uses between one and max_cores cores, meets the committed
    span floors, lies in every hard domain, and keeps each directly accessed tensor's per-core
    span under the hardware limit. A blocked axis is left whole if its hard domain, where it has
    one, admits 1. If no axis absent from the output has a hard domain that excludes 1, at most
    one reduction axis is split, the entry axes of an indirect store not counted. *)
Theorem divide_op_legal op st max_cores st' :
  1 <= max_cores -> NoDup (dkeys (it_space op)) -> sane op ->
  divide_op op st max_cores = Ok st' ->
  exists meta adj committed r splits w,
    op_spaces op = Ok (meta, adj) /\ collect op adj committed = Ok r /\
    ownership st' = Some w /\ work_slices w = slices (dkeys (it_space op)) splits /\
    1 <= physical_core_count w <= max_cores /\
    (forall v m, dget (span_min_splits st') v = Some m -> m <= dget_or 1 (work_slices w) v) /\
    (forall v a, dget (allowed_splits r) v = Some a -> dget_or 1 (work_slices w) v ∈ a) /\
    (forall v, v ∈ blocked r -> (forall a, dget (allowed_splits r) v = Some a -> 1 ∈ a) ->
       dget_or 1 (work_slices w) v = 1) /\
    (forall td, td ∈ all_tds op -> _is_indirectly_accessed td = false ->
       exists span, get_per_core_span td splits (it_space op) meta = Ok span /\ span <= MAX_SPAN_BYTES) /\
    ((forall v a, v ∉ coord_vars (output_td op) -> dget (allowed_splits r) v = Some a -> 1 ∈ a) ->
     (length (filter (fun v => (1 < dget_or 1 (work_slices w) v)%Z /\ v ∉ entry_dims op)
                (reduction_vars op adj.1)) <= 1)%nat).
Proof.
  intros Hmax Hnd Hsane (st1 & Hspan & Hrun)%bind_Ok.
  pose proof (span_reduction_synced op st max_cores st1 Hmax Hnd Hspan) as (Hk1 & Hfl & Hcn & Hcp).
  unfold work_distribution_pass in Hrun. apply bind_Ok in Hrun as ([meta adj] & Hsp & Hrun).
  apply bind_Ok in Hrun as (r & Hr & Hrun). apply bind_Ok in Hrun as (splits & Hch & Hrun).
  apply bind_Ok in Hrun as (w & Hw & Hrun). apply bind_Ok in Hrun as (u & Hov & [= <-]). cbn [fst snd] in *.
  destruct (op_spaces_keys op meta adj Hsp) as [Hka _].
  destruct (collect_sane op adj _ r Hsane Hr) as (Hna & Hdom & Hbl).
  destruct (apply_splits_slices op splits w Hw) as [Hws Hpc].
  assert (exists floors, chosen_ok op max_cores r floors splits /\
    (forall v m, dget (span_min_splits st1) v = Some m -> 1 < m -> dget floors v = Some m) /\
    ((forall v a, v ∉ coord_vars (output_td op) -> dget (allowed_splits r) v = Some a -> 1 ∈ a) ->
     (length (filter (fun v => (1 < dget_or 1 splits v)%Z /\ v ∉ entry_dims op)
                (reduction_vars op adj.1)) <= 1)%nat)) as (floors & Hok & Hfloors & Hone).
  { unfold choose_splits in Hch. destruct (if ignore_work_division_hints op then None else _) as [us|] eqn:Hus.
    - assert (NoDup (dkeys us)) as Hun.
      { destruct (ignore_work_division_hints op); [done|]. by eapply resolve_NoDup. }
      apply user_hint_ok in Hch as [Hok Hred]; [|done|done]. exists (span_min_splits st1).
      split_and!; [done | by intros | intros _].
      etrans; [|exact Hred]. rewrite <- (length_fmap fst).
      apply submseteq_length, NoDup_submseteq; [apply NoDup_filter, NoDup_filter; by rewrite Hka|].
      intros v [[Hlt _] [Hc _]%list_elem_of_filter]%list_elem_of_filter.
      unfold dget_or in Hlt. destruct (dget splits v) as [s|] eqn:E; [|cbn in Hlt; lia].
      apply list_elem_of_fmap. exists (v, s). split; [done|]. apply list_elem_of_filter.
      split; [done | by apply dget_Some_elem].
    - apply default_ok in Hch as [Hok Hred]; try done.
      + exists (committed_of st1). split_and!; done.
      + by rewrite Hka.
      + intros v a Ha. by apply Hdom in Ha as (_ & ? & _). }
  destruct Hok as [Hbud Hpos Hflo Hd Hb].
  assert (forall v, dget_or 1 (work_slices w) v = if decide (v ∈ dkeys (it_space op)) then dget_or 1 splits v else 1)
    as Hget by (intros v; unfold dget_or at 1; rewrite Hws, slices_get; by case_decide).
  exists meta, adj, (committed_of st1), r, splits, w. cbn [ownership span_min_splits].
  pose proof (slices_prod (dkeys (it_space op)) splits Hnd Hpos) as Hprod.
  split_and!; try done.
  - rewrite Hpc. lia.
  - rewrite Hpc. lia.
  - intros v m Hv. rewrite Hget, decide_True by eauto.
    destruct (Z.le_gt_cases m 1) as [Hle | Hgt].
    + assert (1 <= dget_or 1 splits v); [|lia]. unfold dget_or. destruct (dget splits v) eqn:E; [|done].
      by eapply Hpos, dget_Some_elem.
    + apply Hflo, Hfloors; [done | lia].
  - intros v a Ha. rewrite Hget, decide_True by (by eapply Hdom). by apply Hd.
  - intros v Hv Ha. rewrite Hget. case_decide; [by apply Hb | done].
  - intros td Htd Hind. by eapply overflow_checked.
  - intros Ha. rewrite (filter_iff_in (fun v => 1 < dget_or 1 (work_slices w) v /\ v ∉ entry_dims op)
      (fun v => 1 < dget_or 1 splits v /\ v ∉ entry_dims op)); [by apply Hone|].
    intros v [_ Hv]%list_elem_of_filter. rewrite Hget, decide_True; [done | by rewrite <- Hka].
Qed.

(** ** Witness and a gap *)

(** A reduction of [d0] rows by [r0], one stick each; the domain of [r0] is given. *)
Definition ex_out : TensorDep :=
  mkTensorDep "buf0" [16; 64] 2 64 false [var_coord "d0"; var_coord "d1"].

Definition ex_pass (domains : dict (gset Z)) : pass_op :=
  mkPassOp [("d0"%string, concrete 16); ("d1"%string, concrete 64); ("r0"%string, concrete 8);
            ("r1"%string, concrete 4)]
    [] ex_out [fun _ => Ok (mkConstraints {[ "d1"%string ]} domains)] [] [] ∅ false 32 4 false.

Lemma divide_op_legal_witness :
  exists w, physical_core_count w <= 24 /\
    work_slices w = [("d0"%string, 8); ("d1"%string, 1); ("r0"%string, 2); ("r1"%string, 1)].
Proof.
  destruct (divide_op_legal (ex_pass [("d0"%string, {[ 1; 8 ]})]) (mkOpState [] None) 24
    (match divide_op (ex_pass [("d0"%string, {[ 1; 8 ]})]) (mkOpState [] None) 24 with
     | Ok s => s | Raise _ => mkOpState [] None end)) as (meta & adj & c & r & s & w & _ & _ & Hw & _ & [_ Hp] & _).
  - lia.
  - apply (bool_decide_unpack _). vm_compute. exact I.
  - intros k ctx x v a [-> | H%elem_of_nil]%elem_of_cons; [|done]. intros [= <-] [[= -> ->] | H%elem_of_nil]%elem_of_cons; [|done].
    split; [apply (bool_decide_unpack _); vm_compute; exact I | intros n Hn; set_solver by lia].
  - vm_compute. reflexivity.
  - exists w. split; [exact Hp|]. vm_compute in Hw. injection Hw as <-. reflexivity.
Defined.

(** The guard against two split reduction axes has a gap: when span reduction has
    committed a split of one reduction axis, [_default_split] hands only that axis
    to the distributor, which then reserves the mandatory factor of another
    reduction axis whose domain excludes one without counting it, and returns a
    division that splits both. *)
Theorem default_split_two_reductions :
  exists splits,
    _default_split (ex_pass [("r1"%string, {[ 2; 4 ]})]) (it_space (ex_pass [])) [("r0"%string, 2)] 32 []
      (mkConstraints ∅ [("r1"%string, {[ 2; 4 ]})]) = Ok splits /\
    1 < dget_or 1 splits "r0"%string /\ 1 < dget_or 1 splits "r1"%string /\
    "r0"%string ∉ coord_vars ex_out /\ "r1"%string ∉ coord_vars ex_out.
Proof.
  eexists. split; [vm_compute; reflexivity|].
  split_and!; apply (bool_decide_unpack _); vm_compute; exact I.
Qed.
