(* ===== verification/Restickify.v ===== *)
(** * Choosing stick layouts ([optimize_restickify.py])

    Layout propagation leaves each operation with a list of candidate layouts and
    a cost node that says which inputs must be restickified for each of them.
    [beam_global_min_cost] chooses one layout per buffer: it walks the operations
    in order, expands every partial assignment by every candidate, merges the
    assignments that agree on the buffers still to be read, and keeps the best
    [BEAM_WIDTH] of them.

    The stick rules themselves ([compute_restickify_needed] and
    [compute_size1_restickify_target] of [pass_utils.py], the symbols of a stick
    expression) and the extension's layout sizes are the class [StickRules]; the
    search uses only its laws.  A cost is a Python float that holds a whole number of
    bytes or [math.inf] ([ecost] of [Doubles]).  The definitions are written over
    an arithmetic of costs, [CostArith]: [doubles] is the one of the code, every sum
    rounded and past 2^1024 infinite, and [exact] the one the specification counts in.
    (From Python 3.12 on [sum] compensates the rounding of its additions; here it adds
    from left to right, as before.  No sum below 2^53 rounds in either.)  The caches of
    [EdgeCostMap] are [cached_cost]; elsewhere the cost is computed anew.  The
    layouts and the cost node of an operation are set together by layout
    propagation and are one optional field here. *)

From S2P Require Import Prelude PyDict Doubles.

(** ** Costs with infinity *)

Class CostArith := {
  cadd : ecost -> ecost -> ecost;      (* [a + b] *)
  of_bytes : Z -> ecost                (* [float(n)] *)
}.

Definition exact : CostArith := {|
  cadd a b := match a, b with Some x, Some y => Some (x + y) | _, _ => None end;
  of_bytes := Some
|}.

Definition doubles : CostArith := {|
  cadd a b := match a, b with Some x, Some y => dbl (x + y) | _, _ => None end;
  of_bytes := dbl
|}.

(** [sum(costs)] *)
Definition csum `{A : CostArith} (l : list ecost) : ecost := foldl cadd (Some 0) l.

(** [a < INF] *)
Definition is_finite (a : ecost) : bool := bool_decide (is_Some a).

Section exact_sums.
#[local] Existing Instance exact.

Lemma cadd_assoc a b c : cadd a (cadd b c) = cadd (cadd a b) c.
Proof. destruct a, b, c; cbn; f_equal; lia. Qed.

Lemma cadd_0_l a : cadd (Some 0) a = a.
Proof. destruct a; cbn; f_equal; lia. Qed.

Lemma cadd_None_r a : cadd a None = None.
Proof. by destruct a. Qed.

Lemma foldl_cadd l : forall a, foldl cadd a l = cadd a (csum l).
Proof.
  unfold csum. induction l as [|x l IH]; intros a; cbn [foldl].
  - destruct a; cbn; f_equal; lia.
  - rewrite IH, (IH (cadd (Some 0) x)), cadd_0_l. by rewrite cadd_assoc.
Qed.

Lemma csum_cons x l : csum (x :: l) = cadd x (csum l).
Proof. unfold csum. cbn [foldl]. by rewrite cadd_0_l, foldl_cadd. Qed.

Lemma csum_app l k : csum (l ++ k) = cadd (csum l) (csum k).
Proof. unfold csum. by rewrite foldl_app, foldl_cadd. Qed.

Lemma csum_snoc l x : csum (l ++ [x]) = cadd (csum l) x.
Proof. rewrite csum_app, csum_cons. destruct x, (csum l); cbn; f_equal; lia. Qed.

Lemma cadd_Some a b k : cadd a b = Some k <-> exists x y, a = Some x /\ b = Some y /\ k = x + y.
Proof.
  destruct a, b; cbn; split; try done; try (by intros (? & ? & ? & ? & ?)).
  - intros [= <-]. eauto.
  - by intros (? & ? & [= ->] & [= ->] & ->).
Qed.

(** A finite sum has finite terms. *)
Lemma csum_elem l k x : csum l = Some k -> x ∈ l -> exists v, x = Some v.
Proof.
  revert k. induction l as [|y l IH]; intros k; [by intros _ ?%elem_of_nil|].
  rewrite csum_cons. intros (a & b & -> & Hb & _)%cadd_Some [->|H]%elem_of_cons; [eauto|].
  by apply (IH b).
Qed.

Lemma csum_nonneg l k :
  (forall v, Some v ∈ l -> 0 <= v) -> csum l = Some k -> 0 <= k.
Proof.
  revert k. induction l as [|y l IH]; intros k Hl; [by intros [= <-]|].
  rewrite csum_cons. intros (a & b & -> & Hb & ->)%cadd_Some.
  assert (0 <= a) by (apply Hl, list_elem_of_here).
  assert (0 <= b) by (apply IH; [intros v Hv; by apply Hl, list_elem_of_further | done]). lia.
Qed.

Lemma csum_elem_le l k v :
  (forall w, Some w ∈ l -> 0 <= w) -> csum l = Some k -> Some v ∈ l -> v <= k.
Proof.
  revert k. induction l as [|y l IH]; intros k Hl; [by intros _ ?%elem_of_nil|].
  rewrite csum_cons. intros (a & b & -> & Hb & ->)%cadd_Some Hv.
  assert (forall w, Some w ∈ l -> 0 <= w) as Hl' by (intros w Hw; by apply Hl, list_elem_of_further).
  apply elem_of_cons in Hv as [[= ->]|Hv].
  - pose proof (csum_nonneg l b Hl' Hb). lia.
  - assert (0 <= a) by (apply Hl, list_elem_of_here). pose proof (IH b Hl' Hb Hv). lia.
Qed.

End exact_sums.

(** A float follows a whole number: infinite with it, and equal to it below [EXACT]. *)
Definition follows (a b : ecost) : Prop :=
  match b with
  | Some k => 0 <= k /\ saturated a = Z.min k EXACT /\ forall v, a = Some v -> 0 <= v
  | None => a = None
  end.

Lemma follows_add a a' b b' : follows a b -> follows a' b' -> follows (cadd (CostArith := doubles) a a') (cadd (CostArith := exact) b b').
Proof.
  destruct b as [k|]; cbn [follows]; [|by intros -> _]. intros (Hk & Hs & Hp).
  destruct b' as [k'|]; cbn [follows cadd exact]; [|intros ->; by destruct a]. intros (Hk' & Hs' & Hp').
  split; [lia|]. assert (0 < EXACT) as He by done. destruct a as [x|], a' as [y|]; cbn [saturated cadd doubles] in *; [|split; [lia | done]..].
  specialize (Hp x eq_refl). specialize (Hp' y eq_refl). destruct (saturated_dbl (x + y)) as [-> ?]; [lia|]. split; [lia | done].
Qed.

Lemma follows_bytes z : 0 <= z -> follows (of_bytes (CostArith := doubles) z) (of_bytes (CostArith := exact) z).
Proof. intros Hz. cbn. destruct (saturated_dbl z Hz). split; [done|]. split; [done | done]. Qed.

Lemma follows_whole k : 0 <= k -> follows (Some k) (Some k).
Proof. intros Hk. cbn. split_and!; [done | done |]. by intros v [= <-]. Qed.

Lemma follows_0 : follows (Some 0) (Some 0).
Proof. by apply follows_whole. Qed.

Lemma follows_sum l k : Forall2 follows l k -> follows (csum (A := doubles) l) (csum (A := exact) k).
Proof.
  unfold csum. generalize follows_0. generalize (Some 0) at 1 3. generalize (Some 0). intros b a Hab H. revert a b Hab.
  induction H as [|x y l k Hx _ IH]; intros a b Hab; cbn [foldl]; [done|]. by apply IH, follows_add.
Qed.

(** Below [EXACT] it is the number. *)
Lemma follows_exact a k : follows a (Some k) -> k < EXACT -> a = Some k.
Proof. intros (Hk & Hs & Hp) Hlt. destruct a as [x|]; cbn in *; [f_equal|]; lia. Qed.

Lemma follows_finite a b v : follows a b -> a = Some v -> exists k, b = Some k /\ 0 <= k.
Proof. destruct b as [k|]; cbn; [intros [? _] _; eauto | congruence]. Qed.

(** ** The stick rules *)

(** A read of a buffer: its name and its index expression. *)
Record MemoryDep := mkDep { dep_name : string; dep_index : string }.

#[export] Instance MemoryDep_eq_dec : EqDecision MemoryDep.
Proof. solve_decision. Defined.

(** The device formats the restickify operation accepts, and the others. *)
Inductive DataFormats := SEN169_FP16 | IEEE_FP32 | IEEE_INT32 | SENUINT32 | OtherFormat.

#[export] Instance DataFormats_eq_dec : EqDecision DataFormats.
Proof. solve_decision. Defined.

Definition RESTICKIFY_DEVICE_DTYPE_COST_WEIGHT : list (DataFormats * Z) :=
  [(SEN169_FP16, 1); (IEEE_FP32, 2); (IEEE_INT32, 2); (SENUINT32, 2)].

Definition RESTICKIFY_SUPPORTED_DEVICE_DTYPES : list DataFormats :=
  RESTICKIFY_DEVICE_DTYPE_COST_WEIGHT.*1.

Class StickRules (STL : Type) := {
  stl_eq_dec :: EqDecision STL;
  device_dtype : STL -> DataFormats;
  get_device_size_in_bytes : STL -> Z;
  (** [compute_restickify_needed(in_stl, layout, dep, target_stl, target_dep, op)],
      the host layout being the one of the buffer the read names *)
  compute_restickify_needed :
    STL -> MemoryDep -> STL -> MemoryDep -> option string -> bool * option STL;
  compute_size1_restickify_target : STL -> MemoryDep -> string -> option STL;
  (** [sym in device_coordinates(stl, dep, None)[-1].free_symbols] *)
  stick_has_symbol : STL -> MemoryDep -> string -> bool;
  device_size_nonneg stl : 0 <= get_device_size_in_bytes stl;
  (** a target is only offered for a format the operation supports *)
  target_supported in_stl dep t_stl t_dep op tgt :
    compute_restickify_needed in_stl dep t_stl t_dep op = (true, Some tgt) ->
    device_dtype in_stl ∈ RESTICKIFY_SUPPORTED_DEVICE_DTYPES;
  (** no target accompanies a compatible pair *)
  compatible_no_target in_stl dep t_stl t_dep op tgt :
    compute_restickify_needed in_stl dep t_stl t_dep op = (false, tgt) -> tgt = None
}.

(** [EdgeCostMap._layout]: [None], [INFEASIBLE] or the layout to restickify to. *)
Inductive RestickTarget (STL : Type) :=
  | NoRestick
  | INFEASIBLE
  | Restick (tgt : STL).
Arguments NoRestick {_}.
Arguments INFEASIBLE {_}.
Arguments Restick {_} _.

(** One input of an operation. *)
Record EdgeCostMap (STL : Type) := mkEdge {
  ec_dep : MemoryDep;
  ec_in_layouts : list STL;
  ec_target_dep : MemoryDep;
  ec_op : string;
  forbidden_stick_sym : option string
}.
Arguments mkEdge {_} _ _ _ _ _.
Arguments ec_dep {_} _.
Arguments ec_in_layouts {_} _.
Arguments ec_target_dep {_} _.
Arguments ec_op {_} _.
Arguments forbidden_stick_sym {_} _.

Section costs.
Context `{A : CostArith} {STL : Type} `{R : StickRules STL}.
Implicit Types (ec : EdgeCostMap STL) (stl in_stl out_stl target_stl : STL).

(** [RESTICKIFY_DEVICE_DTYPE_COST_WEIGHT[in_stl.device_dtype]]; a format outside
    the table is a [KeyError] in the code, which [weight_found] rules out. *)
Definition dtype_weight stl : Z :=
  default 0 (aget RESTICKIFY_DEVICE_DTYPE_COST_WEIGHT (device_dtype stl)).

(** Whether a restickify is needed on the edge, and its target. *)
Definition restick_decision ec in_stl target_stl : bool * option STL :=
  let '(needed, tgt) := compute_restickify_needed in_stl (ec_dep ec) target_stl
                          (ec_target_dep ec) (Some (ec_op ec)) in
  match forbidden_stick_sym ec with
  | Some sym =>
      if negb needed && stick_has_symbol in_stl (ec_dep ec) sym then
        if bool_decide (device_dtype in_stl ∈ RESTICKIFY_SUPPORTED_DEVICE_DTYPES) then
          match compute_size1_restickify_target in_stl (ec_dep ec) (ec_op ec) with
          | Some tgt' =>
              (true, if stick_has_symbol tgt' (ec_dep ec) sym then None else Some tgt')
          | None => (true, None)
          end
        else (true, tgt)
      else (needed, tgt)
  | None => (needed, tgt)
  end.

Definition _compute_and_cache_cost ec in_stl target_stl : ecost * RestickTarget STL :=
  let '(needed, tgt) := restick_decision ec in_stl target_stl in
  if negb needed then (Some 0, NoRestick)
  else match tgt with
       | None => (None, INFEASIBLE)
       | Some t => (of_bytes (get_device_size_in_bytes in_stl * dtype_weight in_stl), Restick t)
       end.

(** [EdgeCostMap.cost] *)
Definition edge_cost ec in_stl target_stl : ecost :=
  (_compute_and_cache_cost ec in_stl target_stl).1.

(** [EdgeCostMap.layout] *)
Definition edge_layout ec in_stl target_stl : RestickTarget STL :=
  (_compute_and_cache_cost ec in_stl target_stl).2.

(** The two tables of [EdgeCostMap], filled together. *)
Notation edge_cache := (list ((STL * STL) * (ecost * RestickTarget STL))).

Definition cached_entry ec (cache : edge_cache) in_stl target_stl
    : (ecost * RestickTarget STL) * edge_cache :=
  match aget cache (in_stl, target_stl) with
  | Some e => (e, cache)
  | None =>
      let e := _compute_and_cache_cost ec in_stl target_stl in
      (e, aset (in_stl, target_stl) e cache)
  end.

(** ** Cost nodes *)

Inductive RestickNodeCost :=
  | AllSameNode (input_edge_costs output_edge_costs : list (EdgeCostMap STL))
  | FixedInOutNode (edges : list (EdgeCostMap STL)) (required_out_stl : STL)
      (required_in_stls : list STL) (out_dep : MemoryDep)
  | AnyInNode.

Definition is_any_in (n : RestickNodeCost) : bool :=
  match n with AnyInNode => true | _ => false end.

Definition edge_costs (n : RestickNodeCost) : list (EdgeCostMap STL) :=
  match n with
  | AllSameNode ins outs => ins ++ outs
  | FixedInOutNode edges _ _ _ => edges
  | AnyInNode => []
  end.

(** The arguments of [from_args]: the read and the layouts of its buffer. *)
Record PropArg := mkArg { arg_dep : MemoryDep; arg_layouts : list STL }.

(** [AllSameNode.from_args]; [buffer_layouts] reads the [layouts] attribute of a
    buffer of the graph, empty when it has none. *)
Definition AllSameNode_from_args (buffer_layouts : string -> list STL) (args : list PropArg)
    (out_layouts : list STL) (out_deps : list MemoryDep) (op : string)
    (forbidden : option string) : res RestickNodeCost :=
  _ ← py_assert (negb (bool_decide (out_layouts = [])));
  match out_deps with
  | [] => Raise IndexError
  | out_dep :: co_output_deps =>
      Ok (AllSameNode
        ((fun a => mkEdge (arg_dep a) (arg_layouts a) out_dep op forbidden) <$> args)
        ((fun d => mkEdge d (buffer_layouts (dep_name d)) out_dep op None) <$> co_output_deps))
  end.

(** [FixedInOutNode.from_args] *)
Definition FixedInOutNode_from_args (args : list PropArg) out_stl (req_stls : list STL)
    (op : string) (out_dep : MemoryDep) : res RestickNodeCost :=
  _ ← py_assert (negb (bool_decide (req_stls = [])));
  Ok (FixedInOutNode
    ((fun '(a, _) => mkEdge (arg_dep a) (arg_layouts a) (arg_dep a) op None) <$> zip args req_stls)
    out_stl req_stls out_dep).

Definition _out_stick_compatible (required_out_stl : STL) (out_dep : MemoryDep) out_stl : bool :=
  if bool_decide (out_stl = required_out_stl) then true
  else negb (compute_restickify_needed required_out_stl out_dep out_stl out_dep None).1.

(** [RestickNodeCost.cost] *)
Definition node_cost (n : RestickNodeCost) (in_layouts : list STL) out_stl : ecost :=
  match n with
  | AllSameNode ins outs =>
      match csum (zip_with (fun ec lk => edge_cost ec lk out_stl) ins
                    (take (length ins) in_layouts)) with
      | None => None
      | Some input_cost =>
          if forallb (fun '(_, lk) => bool_decide (lk = out_stl))
               (zip outs (drop (length ins) in_layouts))
          then Some input_cost else None
      end
  | FixedInOutNode edges required_out_stl required_in_stls out_dep =>
      if negb (_out_stick_compatible required_out_stl out_dep out_stl) then None
      else csum (zip_with (fun '(ec, lk) rk => edge_cost ec lk rk)
                   (zip edges in_layouts) required_in_stls)
  | AnyInNode => Some 0
  end.

(** [RestickNodeCost.required_input_stls] *)
Definition required_input_stls (n : RestickNodeCost) out_stl : list (EdgeCostMap STL * STL) :=
  match n with
  | AllSameNode ins _ => (fun ec => (ec, out_stl)) <$> ins
  | FixedInOutNode edges _ required_in_stls _ => zip edges required_in_stls
  | AnyInNode => []
  end.

(** [zip(l, k, strict=True)] *)
Definition zip_strict {A B} (l : list A) (k : list B) : res (list (A * B)) :=
  if bool_decide (length l = length k) then Ok (zip l k) else Raise ValueError.

(** Some layout of the edge's buffer can be brought to [req]. *)
Definition edge_possible ec req : bool :=
  existsb (fun other_c => is_finite (edge_cost ec other_c req)) (ec_in_layouts ec).

(** [RestickNodeCost.min_input_cost] *)
Definition min_input_cost (n : RestickNodeCost) (name : string) in_stl out_stl : res ecost :=
  match n with
  | AllSameNode ins _ =>
      match list_find (fun ec => dep_name (ec_dep ec) = name) ins with
      | None => Ok (Some 0)
      | Some (_, ec) =>
          let edge_c := edge_cost ec in_stl out_stl in
          if negb (is_finite edge_c) then Ok None
          else
            let other_ok := forallb (fun e => edge_possible e out_stl)
              (filter (fun e => dep_name (ec_dep e) <> name) ins) in
            Ok (if other_ok then edge_c else None)
      end
  | FixedInOutNode edges required_out_stl required_in_stls out_dep =>
      if negb (_out_stick_compatible required_out_stl out_dep out_stl) then Ok None
      else
        pairs ← zip_strict edges required_in_stls;
        let matching := filter (fun p => dep_name (ec_dep p.1) = name) pairs in
        match matching with
        | [] => Ok None
        | _ =>
            let costs := (fun p => edge_cost p.1 in_stl p.2) <$> matching in
            if existsb (fun c => negb (is_finite c)) costs then Ok None
            else
              let other_ok := forallb (fun p => edge_possible p.1 p.2)
                (filter (fun p => dep_name (ec_dep p.1) <> name) pairs) in
              Ok (if other_ok then csum costs else None)
        end
  | AnyInNode => Ok (Some 0)
  end.

(** [RestickNodeCost.first_blocking_edge] *)
Definition first_blocking_edge (n : RestickNodeCost) out_stl : option (EdgeCostMap STL) :=
  snd <$> list_find (fun ec => existsb (fun in_stl => negb (is_finite (edge_cost ec in_stl out_stl)))
                                 (ec_in_layouts ec) = true) (edge_costs n).

(** *** Laws of the edges *)

(** The weight is read from the table only for a format that is in it. *)
Lemma weight_found ec in_stl target_stl tgt :
  edge_layout ec in_stl target_stl = Restick tgt ->
  is_Some (aget RESTICKIFY_DEVICE_DTYPE_COST_WEIGHT (device_dtype in_stl)).
Proof.
  intros H. apply aget_is_Some. revert H.
  unfold edge_layout, _compute_and_cache_cost, restick_decision.
  destruct (compute_restickify_needed _ _ _ _ _) as [needed t] eqn:E.
  destruct needed.
  - destruct t as [t|]; [intros _; by eapply target_supported|].
    by destruct (forbidden_stick_sym ec).
  - apply compatible_no_target in E as ->. destruct (forbidden_stick_sym ec) as [sym|]; [|done].
    cbn [negb andb]. destruct (stick_has_symbol _ _ _); [|done].
    by destruct (bool_decide_reflect (device_dtype in_stl ∈ RESTICKIFY_SUPPORTED_DEVICE_DTYPES)).
Qed.

Lemma dtype_weight_nonneg stl : 0 <= dtype_weight stl.
Proof. unfold dtype_weight. by destruct (device_dtype stl). Qed.

(** The tables only ever hold what would be computed. *)
Definition cache_ok ec (cache : edge_cache) : Prop :=
  forall a t e, aget cache (a, t) = Some e -> e = _compute_and_cache_cost ec a t.

Lemma cached_entry_spec ec cache in_stl target_stl :
  cache_ok ec cache ->
  (cached_entry ec cache in_stl target_stl).1 = _compute_and_cache_cost ec in_stl target_stl
  /\ cache_ok ec (cached_entry ec cache in_stl target_stl).2.
Proof.
  intros Hc. unfold cached_entry. destruct (aget cache _) as [e|] eqn:E; cbn [fst snd].
  - by rewrite (Hc _ _ _ E).
  - split; [done|]. intros a t e. rewrite aget_aset. case_decide as Hk; [intros; by simplify_eq|]. apply Hc.
Qed.

(** *** Laws of the nodes *)

(** [FixedInOutNode] is built with one required layout per edge. *)
Definition node_wf (n : RestickNodeCost) : Prop :=
  match n with FixedInOutNode edges _ reqs _ => length edges = length reqs | _ => True end.

Lemma FixedInOutNode_from_args_wf args out_stl req_stls op out_dep n :
  FixedInOutNode_from_args args out_stl req_stls op out_dep = Ok n ->
  (length req_stls <= length args)%nat -> node_wf n.
Proof.
  unfold FixedInOutNode_from_args. intros H Hl. inv_res. cbn [node_wf].
  rewrite length_fmap, length_zip_with. lia.
Qed.

Lemma AllSameNode_from_args_wf bl args out_layouts out_deps op forbidden n :
  AllSameNode_from_args bl args out_layouts out_deps op forbidden = Ok n -> node_wf n.
Proof. unfold AllSameNode_from_args. intros H. inv_res. destruct out_deps; by simplify_eq. Qed.

Lemma min_input_cost_total n name in_stl out_stl :
  node_wf n -> exists c, min_input_cost n name in_stl out_stl = Ok c.
Proof.
  destruct n as [ins outs|edges ro reqs od|]; cbn [node_wf min_input_cost]; intros Hw; [| |eauto].
  - destruct (list_find _ ins) as [[? ec]|]; [|eauto]. destruct (negb _); eauto.
  - destruct (negb _); [eauto|]. unfold zip_strict. rewrite bool_decide_true by done. cbn [mbind res_bind].
    destruct (filter _ _) as [|p l]; [eauto|]. destruct (existsb _ _); eauto.
Qed.

End costs.

(** *** Whole-number costs *)

Section exact_costs.
Context {STL : Type} `{R : StickRules STL}.
Implicit Types (ec : EdgeCostMap STL) (stl in_stl out_stl target_stl : STL).
#[local] Existing Instance exact.

Lemma edge_cost_nonneg ec in_stl target_stl v : edge_cost ec in_stl target_stl = Some v -> 0 <= v.
Proof.
  unfold edge_cost, _compute_and_cache_cost. destruct (restick_decision _ _ _) as [[] [t|]]; cbn;
    intros [= <-]; [|lia|lia].
  apply Z.mul_nonneg_nonneg; [apply device_size_nonneg | apply dtype_weight_nonneg].
Qed.

(** A finite cost is what the inserted restickify, if any, costs. *)
Lemma edge_cost_layout ec in_stl target_stl :
  edge_cost ec in_stl target_stl =
  match edge_layout ec in_stl target_stl with
  | NoRestick => Some 0
  | INFEASIBLE => None
  | Restick _ => Some (get_device_size_in_bytes in_stl * dtype_weight in_stl)
  end.
Proof.
  unfold edge_cost, edge_layout, _compute_and_cache_cost.
  by destruct (restick_decision _ _ _) as [[] [t|]].
Qed.

Lemma node_cost_nonneg n ins out_stl k : node_cost n ins out_stl = Some k -> 0 <= k.
Proof.
  destruct n as [es outs|edges ro reqs od|]; cbn [node_cost].
  - destruct (csum _) as [c|] eqn:E; [|done]. destruct (forallb _ _); intros [= <-].
    eapply csum_nonneg; [|exact E]. intros v (? & ? & ? & ? & ?)%elem_of_lookup_zip_with.
    by eapply edge_cost_nonneg.
  - destruct (negb _); [done|]. intros E. eapply csum_nonneg; [|exact E].
    intros v (i & [ec lk] & rk & ? & ? & ?)%elem_of_lookup_zip_with. by eapply edge_cost_nonneg.
  - by intros [= <-].
Qed.

(** The inputs of a node under [σ]: one admitted layout per edge, by buffer name. *)
Definition node_inputs (σ : string -> option STL) (edges : list (EdgeCostMap STL))
    (ins : list STL) : Prop :=
  Forall2 (fun ec lk => σ (dep_name (ec_dep ec)) = Some lk /\ lk ∈ ec_in_layouts ec) edges ins.

Lemma edge_possible_intro ec lk req :
  lk ∈ ec_in_layouts ec -> is_Some (edge_cost ec lk req) -> edge_possible ec req = true.
Proof.
  intros Hlk Hc. unfold edge_possible. apply existsb_exists. exists lk.
  split; [by apply list_elem_of_In | by apply bool_decide_true].
Qed.

(** The pairs of one buffer cost no more than all of them. *)
Lemma fixed_matching_le σ name in_stl edges ins reqs k :
  σ name = Some in_stl -> node_inputs σ edges ins -> length edges = length reqs ->
  csum (zip_with (fun '(ec, lk) rk => edge_cost ec lk rk) (zip edges ins) reqs) = Some k ->
  (exists c, csum ((fun p => edge_cost p.1 in_stl p.2)
                <$> filter (fun p => dep_name (ec_dep p.1) = name) (zip edges reqs)) = Some c
             /\ 0 <= c <= k)
  /\ forallb (fun p => edge_possible p.1 p.2) (zip edges reqs) = true.
Proof.
  intros Hn H. revert reqs k. induction H as [|ec lk edges ins [Hlk Hin] _ IH]; intros reqs k Hl.
  - intros [= <-]. split; [exists 0; split; [done | lia] | done].
  - destruct reqs as [|rk reqs]; [done|]. cbn [zip zip_with]. rewrite csum_cons.
    intros (a & b & Ha & Hb & ->)%cadd_Some. pose proof (edge_cost_nonneg _ _ _ _ Ha).
    destruct (IH reqs b) as [(c & Hc & Hcb) Hok]; [by injection Hl | done|]. split.
    + rewrite filter_cons. cbn [fst snd]. case_decide as Hd; [|exists c; split; [done | lia]].
      cbn [fmap list_fmap fst snd]. rewrite csum_cons.
      rewrite Hd in Hlk. assert (lk = in_stl) as -> by congruence.
      rewrite Ha, Hc. exists (a + c). split; [done | lia].
    + cbn [forallb fst snd]. rewrite Hok, andb_true_r. eapply edge_possible_intro; eauto.
Qed.

Lemma forallb_filter {A} (P : A -> Prop) `{!forall x, Decision (P x)} (f : A -> bool) l :
  forallb f l = true -> forallb f (filter P l) = true.
Proof.
  rewrite !forallb_forall. intros Hf x Hx. apply Hf. apply list_elem_of_In.
  by apply list_elem_of_In, list_elem_of_filter in Hx as [_ ?].
Qed.

Lemma all_same_edges σ edges ins out_stl k :
  node_inputs σ edges ins ->
  csum (zip_with (fun ec lk => edge_cost ec lk out_stl) edges ins) = Some k ->
  (forall ec lk, ec ∈ edges -> σ (dep_name (ec_dep ec)) = Some lk ->
     exists c, edge_cost ec lk out_stl = Some c /\ 0 <= c <= k)
  /\ forallb (fun e => edge_possible e out_stl) edges = true.
Proof.
  intros H. revert k. induction H as [|ec lk edges ins [Hlk Hin] _ IH]; intros k.
  - intros _. split; [by intros ? ? ?%elem_of_nil | done].
  - cbn [zip_with]. rewrite csum_cons. intros (a & b & Ha & Hb & ->)%cadd_Some.
    pose proof (edge_cost_nonneg _ _ _ _ Ha). destruct (IH b Hb) as [He Hok].
    assert (0 <= b).
    { eapply csum_nonneg; [|exact Hb]. intros v (? & ? & ? & ? & ?)%elem_of_lookup_zip_with.
      by eapply edge_cost_nonneg. }
    split.
    + intros ec' lk' [->|Hec]%elem_of_cons Hlk'.
      * assert (lk' = lk) as -> by congruence. exists a. split; [done | lia].
      * destruct (He ec' lk' Hec Hlk') as (c & ? & ?). exists c. split; [done | lia].
    + cbn [forallb]. rewrite Hok, andb_true_r. eapply edge_possible_intro; eauto.
Qed.

(** The estimate of one input never exceeds what the node costs. *)
Lemma min_input_cost_le σ n ins name in_stl out_stl k :
  node_wf n -> node_inputs σ (edge_costs n) ins -> σ name = Some in_stl ->
  name ∈ ((fun ec => dep_name (ec_dep ec)) <$> edge_costs n) ->
  node_cost n ins out_stl = Some k ->
  exists c, min_input_cost n name in_stl out_stl = Ok (Some c) /\ 0 <= c <= k.
Proof.
  intros Hw Hi Hn Hmem Hk. pose proof (node_cost_nonneg _ _ _ _ Hk) as Hk0.
  destruct n as [es outs|edges ro reqs od|]; cbn [node_wf edge_costs node_cost min_input_cost] in *.
  - apply Forall2_app_inv_l in Hi as (ins1 & ins2 & Hi1 & Hi2 & ->).
    rewrite take_app_length' in Hk by (by eapply Forall2_length).
    destruct (csum _) as [c0|] eqn:E; [|done]. destruct (forallb _ _); simplify_eq.
    destruct (all_same_edges _ _ _ _ _ Hi1 E) as [He Hok].
    destruct (list_find _ es) as [[i ec]|] eqn:Ef; [|exists 0; split; [done | lia]].
    apply list_find_Some in Ef as (Hec & Hname & _). rewrite <- Hname in Hn.
    destruct (He ec in_stl) as (c & -> & Hc); [by eapply list_elem_of_lookup_2 | done|].
    unfold is_finite at 1. rewrite bool_decide_true by eauto. cbn [negb].
    rewrite forallb_filter by done. eauto.
  - destruct (negb _); [done|]. unfold zip_strict. rewrite bool_decide_true by done. cbn [mbind res_bind].
    destruct (fixed_matching_le _ _ _ _ _ _ _ Hn Hi Hw Hk) as [(c & Hc & Hck) Hok].
    destruct (filter _ (zip edges reqs)) as [|p l] eqn:Ef.
    + exfalso. apply list_elem_of_fmap in Hmem as (ec & -> & [i Hec]%list_elem_of_lookup).
      destruct (lookup_lt_is_Some_2 reqs i) as [rq Hrq]; [rewrite <- Hw; by eapply lookup_lt_Some|].
      assert ((ec, rq) ∈ filter (fun p => dep_name (ec_dep p.1) = dep_name (ec_dep ec)) (zip edges reqs))
        as Hin; [|rewrite Ef in Hin; by apply elem_of_nil in Hin].
      apply list_elem_of_filter. split; [done|]. apply elem_of_lookup_zip_with. eauto 10.
    + destruct (existsb _ _) eqn:Ex; [|rewrite forallb_filter by done; rewrite Hc; eauto].
      exfalso. apply existsb_exists in Ex as (x & Hx & Hf). apply list_elem_of_In in Hx.
      destruct (csum_elem _ _ x Hc Hx) as [v ->]. unfold is_finite in Hf.
      by rewrite bool_decide_true in Hf by eauto.
  - exists 0. split; [done | lia].
Qed.

(** No arithmetic changes the target. *)
Lemma edge_layout_any (A B : CostArith) ec in_stl target_stl :
  edge_layout (A := A) ec in_stl target_stl = edge_layout (A := B) ec in_stl target_stl.
Proof. unfold edge_layout, _compute_and_cache_cost. by destruct (restick_decision _ _ _) as [[] [t|]]. Qed.

(** The cost the code computes follows the whole number. *)
Lemma follows_edge ec in_stl target_stl :
  follows (edge_cost (A := doubles) ec in_stl target_stl) (edge_cost (A := exact) ec in_stl target_stl).
Proof.
  unfold edge_cost, _compute_and_cache_cost. destruct (restick_decision _ _ _) as [[] [t|]]; cbn [negb fst]; try apply follows_0; [|done].
  apply follows_bytes, Z.mul_nonneg_nonneg; [apply device_size_nonneg | apply dtype_weight_nonneg].
Qed.

Lemma follows_zip {B C} (f g : B -> C -> ecost) l k :
  (forall x y, follows (f x y) (g x y)) -> follows (csum (A := doubles) (zip_with f l k)) (csum (A := exact) (zip_with g l k)).
Proof. intros H. apply follows_sum. revert k. induction l as [|x l IH]; intros [|y k]; cbn; constructor; auto. Qed.

Lemma follows_node n ins out_stl : follows (node_cost (A := doubles) n ins out_stl) (node_cost (A := exact) n ins out_stl).
Proof.
  destruct n as [es outs|edges ro reqs od|]; cbn [node_cost].
  - pose proof (follows_zip (fun ec lk => edge_cost (A := doubles) ec lk out_stl) (fun ec lk => edge_cost (A := exact) ec lk out_stl)
      es (take (length es) ins) (fun ec lk => follows_edge ec lk out_stl)) as H.
    destruct (forallb _ _); [destruct (csum (A := doubles) _), (csum (A := exact) _); exact H|].
    by destruct (csum (A := doubles) _), (csum (A := exact) _).
  - destruct (negb _); [done|]. apply follows_zip. intros [ec lk] rk. apply follows_edge.
  - apply follows_0.
Qed.

End exact_costs.

Arguments RestickNodeCost : clear implicits.
Arguments PropArg : clear implicits.

(** ** The search *)

Section search.
Context `{A : CostArith} {STL : Type} `{R : StickRules STL}.
Implicit Types (stl in_stl out_stl : STL).

(** An operation: [layouts] and [restick_cost_fn] when propagation set them. *)
Record rop := mkOp {
  op_name : string;
  op_info : option (list STL * RestickNodeCost STL)
}.

(** An operation the search assigns a layout to. *)
Record lop := mkLop {
  lname : string;
  layouts : list STL;
  restick_cost_fn : RestickNodeCost STL
}.

Definition to_lop (o : rop) : option lop :=
  (fun '(ls, n) => mkLop (op_name o) ls n) <$> op_info o.

(** The operations the loops do not skip. *)
Definition planned (operations : list rop) : list lop := omap to_lop operations.

(** The buffers an operation's cost node reads. *)
Definition deps (o : lop) : list string := (fun ec => dep_name (ec_dep ec)) <$> edge_costs (restick_cost_fn o).

Definition reads (o : lop) (name : string) : bool := bool_decide (name ∈ deps o).

(** *** Reordering *)

(** The operation has layouts and its cost node reads [name]. *)
Definition consumes (name : string) (o : rop) : bool :=
  match to_lop o with Some l => reads l name | None => false end.

(** The first operation after position [i] that reads [name]. *)
Definition first_consumer_pos (operations : list rop) (i : nat) (name : string) : option nat :=
  (fun '(j, _) => (S i + j)%nat) <$>
    list_find (fun o => consumes name o = true) (drop (S i) operations).

Definition move_target (operations : list rop) (i : nat) (o : rop) : option (nat * nat) :=
  l ← to_lop o;
  if negb (is_any_in (restick_cost_fn l)) then None
  else
    p ← first_consumer_pos operations i (op_name o);
    if (S i <? p)%nat then Some (i, p) else None.

(** [to_move]: old position and the position to insert before. *)
Definition to_move (operations : list rop) : list (nat * nat) :=
  omap id (imap (move_target operations) operations).

Definition pos_le (a b : nat * nat) : bool :=
  (a.1 <? b.1)%nat || ((a.1 =? b.1)%nat && (a.2 <=? b.2)%nat).

Definition reorder_at (operations : list rop) (moves : list (nat * nat)) (i : nat) (o : rop) : list rop :=
  if bool_decide (i ∈ moves.*1) then []
  else omap (fun m => if (m.2 =? i)%nat then operations !! m.1 else None) (py_sorted pos_le moves)
       ++ [o].

Definition _reorder_any_in_nodes (operations : list rop) : list rop :=
  let moves := to_move operations in
  if bool_decide (moves = []) then operations
  else mjoin (imap (reorder_at operations moves) operations).

(** *** The backward estimate *)

(** [downstream]: per buffer, the operations that read it, once each. *)
Definition add_downstream (o : lop) (d : dict (list lop)) (name : string) : dict (list lop) :=
  let l := dget_or [] d name in
  if bool_decide (lname o ∈ lname <$> l) then d else dset name (l ++ [o]) d.

Definition downstream (ops : list lop) : dict (list lop) :=
  foldl (fun d o => foldl (add_downstream o) d (deps o)) [] ops.

Definition INFEASIBLE_CAP : Z := 10 ^ 18.

(** [future.get(name, {}).get(stl, 0.0)] *)
Definition future_of (future : dict (list (STL * ecost))) (name : string) stl : ecost :=
  default (Some 0) (aget (dget_or [] future name) stl).

(** The cheapest way on through consumer [d]. *)
Definition best_through (future : dict (list (STL * ecost))) (name : string) (candidate : STL)
    (d : lop) : res ecost :=
  best ← for_each (fun d_cand best =>
      edge_c ← min_input_cost (restick_cost_fn d) name candidate d_cand;
      Ok (match edge_c with
          | None => best
          | Some _ => cmin best (cadd edge_c (future_of future (lname d) d_cand))
          end)) (layouts d) (None : ecost);
  Ok (if is_finite best then best else Some INFEASIBLE_CAP).

Definition total_future (ops : list lop) (future : dict (list (STL * ecost))) (name : string)
    (candidate : STL) : res ecost :=
  for_each (fun d total =>
      if reads d name then
        b ← best_through future name candidate d; Ok (cadd total b)
      else Ok total) (dget_or [] (downstream ops) name) (Some 0).

Definition future_step (ops : list lop) (o : lop) (future : dict (list (STL * ecost)))
    : res (dict (list (STL * ecost))) :=
  m ← for_each (fun candidate m =>
        t ← total_future ops (dset (lname o) m future) (lname o) candidate;
        Ok (aset candidate t m)) (layouts o) ([] : list (STL * ecost));
  Ok (dset (lname o) m future).

Definition compute_future_min_cost (ops : list lop) : res (dict (list (STL * ecost))) :=
  for_each (future_step ops) (reverse ops) [].

(** *** Steps and last uses *)

Definition step_of (ops : list lop) : dict nat :=
  foldl (fun d '(i, o) => dset (lname o) i d) [] (imap pair ops).

Definition note_use (steps : dict nat) (o : lop) (last_use : dict nat) (name : string)
    : res (dict nat) :=
  if dmem steps name then
    consumer_step ← dgetitem steps (lname o);
    Ok (if bool_decide (Z.of_nat consumer_step > from_option Z.of_nat (-1) (dget last_use name))
        then dset name consumer_step last_use else last_use)
  else Ok last_use.

Definition _compute_last_use (ops : list lop) (steps : dict nat) : res (dict nat) :=
  for_each (fun o lu => for_each (fun name lu => note_use steps o lu name) (deps o) lu) ops [].

(** *** The frontier *)

Record BeamState := mkState {
  assignments : list STL;
  cost : ecost;
  lower_bound : ecost
}.

Record Frontier := mkFrontier {
  buf_names : list string;
  buf_idx : dict nat;
  states : list BeamState;
  (** a debug message reports each trim that dropped states *)
  trimmed : bool
}.

Definition BEAM_WIDTH : nat := 200.

Definition new_frontier : Frontier := mkFrontier [] [] [mkState [] (Some 0) (Some 0)] false.

Definition add_buf (name : string) (f : Frontier) : Frontier :=
  mkFrontier (buf_names f ++ [name]) (dset name (length (buf_names f)) (buf_idx f))
    (states f) (trimmed f).

Definition input_stl (f : Frontier) (s : BeamState) (name : string) : res STL :=
  idx ← dgetitem (buf_idx f) name;
  match assignments s !! idx with Some stl => Ok stl | None => Raise IndexError end.

(** [min(self.states, key=...)]: the first state of least cost. *)
Definition best (f : Frontier) : res BeamState :=
  match states f with
  | [] => Raise ValueError
  | s :: l => Ok (foldl (fun b t => if clt (cost t) (cost b) then t else b) s l)
  end.

Definition lb_le (s t : BeamState) : bool := negb (clt (lower_bound t) (lower_bound s)).

Definition trim (K : nat) (f : Frontier) : Frontier :=
  let sorted := py_sorted lb_le (states f) in
  mkFrontier (buf_names f) (buf_idx f) (take K sorted)
    (trimmed f || (K <? length sorted)%nat).

(** The layouts the cost node is asked about. *)
Definition in_layouts (f : Frontier) (o : lop) (s : BeamState) : res (list STL) :=
  py_map (input_stl f s) (deps o).

(** One state, every candidate. *)
Definition expand_state (f : Frontier) (op_future : list (STL * ecost)) (o : lop) (s : BeamState)
    : res (list BeamState) :=
  ins ← in_layouts f o s;
  Ok (omap (fun candidate_stl =>
        match node_cost (restick_cost_fn o) ins candidate_stl with
        | None => None
        | Some extra_cost =>
            let new_cost := cadd (cost s) (Some extra_cost) in
            Some (mkState (assignments s ++ [candidate_stl]) new_cost
                    (cadd new_cost (default (Some 0) (aget op_future candidate_stl))))
        end) (layouts o)).

Definition expand (f : Frontier) (op_future : list (STL * ecost)) (o : lop) : res (list BeamState) :=
  blocks ← py_map (expand_state f op_future o) (states f);
  Ok (mjoin (blocks : list (list BeamState))).

(** [last_use.get(name, -1) > current_step] *)
Definition is_live (last_use : dict nat) (current_step : nat) (name : string) : bool :=
  match dget last_use name with Some u => (current_step <? u)%nat | None => false end.

(** [live_indices] as a mask over the slots *)
Definition live_mask (last_use : dict nat) (current_step : nat) (names : list string) : list bool :=
  is_live last_use current_step <$> names.

Definition live_key (mask : list bool) (s : BeamState) : list (option STL) :=
  zip_with (fun (b : bool) a => if b then Some a else None) mask (assignments s).

Notation canon_map := (list (list (option STL) * BeamState)).

Definition canon_add (mask : list bool) (canon : canon_map) (s : BeamState) : canon_map :=
  let key := live_key mask s in
  match aget canon key with
  | None => aset key s canon
  | Some t => if clt (lower_bound s) (lower_bound t) then aset key s canon else canon
  end.

Definition merge (mask : list bool) (l : list BeamState) : list BeamState :=
  (foldl (canon_add mask) [] l).*2.

Definition with_states (l : list BeamState) (f : Frontier) : Frontier :=
  mkFrontier (buf_names f) (buf_idx f) l (trimmed f).

(** One operation of the forward loop. *)
Definition beam_step (K : nat) (future : dict (list (STL * ecost))) (steps last_use : dict nat)
    (o : lop) (f : Frontier) : res Frontier :=
  current_step ← dgetitem steps (lname o);
  let f := add_buf (lname o) f in
  next_states ← expand f (dget_or [] future (lname o)) o;
  let mask := live_mask last_use current_step (buf_names f) in
  let f := trim K (with_states (merge mask next_states) f) in
  _ ← raise_if (bool_decide (states f = [])) NotImplementedError;
  Ok f.

(** A graph input: its name and, for a tensor with candidate layouts, those. *)
Notation graph_input := (string * option (list STL))%type.

(** The inputs are committed to their first layout and take the first slots. *)
Definition seed_input (gi : graph_input) (f : Frontier) : res Frontier :=
  match gi.2 with
  | None => Ok f
  | Some [] => Raise StopIteration
  | Some (stl :: _) =>
      let f := add_buf gi.1 f in
      Ok (with_states ((fun s => mkState (assignments s ++ [stl]) (cost s) (cost s)) <$> states f) f)
  end.

(** [total_inp_future] *)
Definition total_inp_future (future : dict (list (STL * ecost))) (inputs : list graph_input) : ecost :=
  foldl (fun t (gi : graph_input) => match gi.2 with
                   | Some (stl :: _) => cadd t (future_of future gi.1 stl)
                   | _ => t
                   end) (Some 0) inputs.

Definition seed_frontier (future : dict (list (STL * ecost))) (inputs : list graph_input)
    : res Frontier :=
  f ← for_each seed_input inputs new_frontier;
  let t := total_inp_future future inputs in
  Ok (with_states ((fun s => mkState (assignments s) (cost s) (cadd (cost s) t)) <$> states f) f).

(** The frontier at the end of the forward loop. *)
Definition beam_search (K : nat) (operations : list rop) (inputs : list graph_input) : res Frontier :=
  let ops := planned (_reorder_any_in_nodes operations) in
  future ← compute_future_min_cost ops;
  let steps := step_of ops in
  last_use ← _compute_last_use ops steps;
  f ← seed_frontier future inputs;
  for_each (beam_step K future steps last_use) ops f.

(** [committed_stl], buffer by buffer. *)
Definition beam_global_min_cost (operations : list rop) (inputs : list graph_input)
    : res (dict STL) :=
  f ← beam_search BEAM_WIDTH operations inputs;
  b ← best f;
  Ok (dupdate [] (zip (buf_names f) (assignments b))).

Definition optimize_restickify_locations := beam_global_min_cost.

End search.

Arguments rop : clear implicits.
Arguments lop : clear implicits.
Arguments BeamState : clear implicits.
Arguments Frontier : clear implicits.

(** The code computes in doubles. *)
#[export] Existing Instance doubles.
