(* ===== verification/RestickifyBeam.v ===== *)
(** * The layout search is exact while it fits its beam

    The theorems on [beam_global_min_cost]: the reordering it starts with keeps
    every producer before its readers, every layout it commits is a candidate and
    the cost it reports is the cost of the assignment, and while the states of
    the live buffers fit the beam the assignment is a cheapest one among those whose
    estimates are below 2^53, where the floats the search compares are exact.  The
    proofs go through the same definitions over [exact] arithmetic, which [follows]
    relates to the floats of the code; [merge_ties] shows two bounds that differ and round
    to the same float. *)

From S2P Require Import Prelude PyDict Doubles Restickify.

(** ** The reordering *)

Section reorder.
Context {STL : Type} `{R : StickRules STL}.
Implicit Types (operations : list (rop STL)).

(** Every buffer a planned operation reads is an input or produced before it. *)
Definition ordered (nin : list string) operations : Prop :=
  forall j o l d, operations !! j = Some o -> to_lop o = Some l -> d ∈ deps l ->
    d ∈ nin \/ exists i p lp, (i < j)%nat /\ operations !! i = Some p /\ to_lop p = Some lp /\ lname lp = d.

Lemma elem_of_to_move operations i p :
  (i, p) ∈ to_move operations <->
  exists o, operations !! i = Some o /\ move_target operations i o = Some (i, p).
Proof.
  unfold to_move. rewrite list_elem_of_omap. split.
  - intros (m & (k & Hk)%list_elem_of_lookup & Hid). cbn in Hid. subst m. rewrite list_lookup_imap in Hk.
    destruct (operations !! k) as [o|] eqn:Ho; [|done]. cbn in Hk. injection Hk as Hk.
    assert (k = i) as ->; [|eauto]. revert Hk. unfold move_target.
    destruct (to_lop o) as [l|]; [|done]. cbn [mbind option_bind]. destruct (negb _); [done|].
    destruct (first_consumer_pos _ _ _); [|done]. cbn [mbind option_bind]. case_match; congruence.
  - intros (o & Ho & Hm). exists (Some (i, p)). split; [|done].
    apply list_elem_of_lookup. exists i. rewrite list_lookup_imap, Ho. cbn. by rewrite Hm.
Qed.

Lemma first_consumer_pos_spec operations i name p :
  first_consumer_pos operations i name = Some p ->
  (i < p)%nat
  /\ (exists o l, operations !! p = Some o /\ to_lop o = Some l /\ name ∈ deps l)
  /\ forall j o l, (i < j)%nat -> operations !! j = Some o -> to_lop o = Some l -> name ∈ deps l ->
       (p <= j)%nat.
Proof.
  unfold first_consumer_pos. intros ([k o] & (Hk & Hc & Hmin)%list_find_Some & ->)%fmap_Some.
  rewrite lookup_drop in Hk. split_and!; [lia | |].
  - unfold consumes, reads in Hc. destruct (to_lop o) as [l|] eqn:Hl; [|done].
    exists o, l. split_and!; [done | done | by apply bool_decide_eq_true in Hc].
  - intros j o' l' Hj Ho' Hl' Hd. destruct (decide (S i + k <= j)%nat) as [?|Hn]; [done|]. exfalso.
    eapply (Hmin (j - S i)%nat o'); [rewrite lookup_drop, <- Ho'; f_equal; lia | lia |].
    unfold consumes, reads. rewrite Hl'. by apply bool_decide_eq_true.
Qed.

(** A move goes forward, to the first reader, which does not move. *)
Lemma to_move_spec operations i p :
  (i, p) ∈ to_move operations ->
  (i < p < length operations)%nat /\ p ∉ (to_move operations).*1
  /\ exists o l, operations !! i = Some o /\ to_lop o = Some l /\ deps l = []
     /\ forall j o' l', (i < j)%nat -> operations !! j = Some o' -> to_lop o' = Some l' ->
          lname l ∈ deps l' -> (p <= j)%nat.
Proof.
  intros (o & Ho & Hm)%elem_of_to_move. unfold move_target in Hm.
  destruct (to_lop o) as [l|] eqn:Hl; [|done]. cbn [mbind option_bind] in Hm.
  destruct (is_any_in _) eqn:Ea; [|done]. cbn [negb] in Hm.
  destruct (first_consumer_pos _ _ _) as [q|] eqn:Eq; [|done]. cbn [mbind option_bind] in Hm.
  destruct (S i <? q)%nat; [|done]. injection Hm as ->.
  destruct (first_consumer_pos_spec _ _ _ _ Eq) as (Hip & (o' & l' & Ho' & Hl' & Hd) & Hmin).
  assert (lname l = op_name o) as Hname.
  { unfold to_lop in Hl. apply fmap_Some in Hl as ([ls n] & _ & ->). done. }
  split_and!; [done | by eapply lookup_lt_Some | |].
  - intros ([p1 q1] & -> & (o2 & Ho2 & Hm2)%elem_of_to_move)%list_elem_of_fmap. cbn [fst] in *.
    rewrite Ho' in Ho2. injection Ho2 as <-. unfold move_target in Hm2. rewrite Hl' in Hm2.
    cbn [mbind option_bind] in Hm2. destruct (is_any_in (restick_cost_fn l')) eqn:Ea'; [|done].
    unfold deps in Hd. destruct (restick_cost_fn l'); try discriminate Ea'.
    by apply elem_of_nil in Hd.
  - exists o, l. split_and!; [done | done | |].
    + unfold deps. by destruct (restick_cost_fn l).
    + rewrite Hname. exact Hmin.
Qed.

Lemma to_move_fun operations i p q :
  (i, p) ∈ to_move operations -> (i, q) ∈ to_move operations -> p = q.
Proof.
  intros (o & Ho & Hp)%elem_of_to_move (o' & Ho' & Hq)%elem_of_to_move. congruence.
Qed.

(** The new order, as old positions. *)
Definition block operations (i : nat) : list nat :=
  if bool_decide (i ∈ (to_move operations).*1) then []
  else (filter (fun m => m.2 = i) (py_sorted pos_le (to_move operations))).*1 ++ [i].

Definition new_order operations : list nat := seq 0 (length operations) ≫= block operations.

Lemma elem_of_block operations i k :
  k ∈ block operations i <->
  i ∉ (to_move operations).*1 /\ (k = i \/ (k, i) ∈ to_move operations).
Proof.
  unfold block. case_bool_decide as Hi; [split; [by intros ?%elem_of_nil | tauto]|].
  rewrite elem_of_app, list_elem_of_singleton, list_elem_of_fmap. split.
  - intros [([k' p] & -> & [Hp Hm]%list_elem_of_filter)| ->]; [|tauto]. cbn [snd] in Hp. subst p.
    apply elem_of_py_sorted in Hm. tauto.
  - intros [_ [->|Hm]]; [tauto|]. left. exists (k, i). split; [done|].
    apply list_elem_of_filter. split; [done|]. by apply elem_of_py_sorted.
Qed.

Lemma NoDup_to_move operations : NoDup (to_move operations).*1.
Proof.
  unfold to_move. assert (forall (l : list (rop STL)) (f : nat -> rop STL -> option (nat * nat)) n,
    (forall i o m, f i o = Some m -> m.1 = (n + i)%nat) -> NoDup (omap id (imap f l)).*1) as H.
  { induction l as [|o l IH]; intros f n Hf; [constructor|]. cbn [imap].
    assert (NoDup (omap id (imap (f ∘ S) l)).*1) as Htl.
    { apply (IH (f ∘ S) (S n)). intros i o' m Hm. rewrite (Hf _ _ _ Hm). lia. }
    cbn [omap list_omap id]. destruct (f 0%nat o) as [m|] eqn:Em; [|exact Htl].
    cbn [fmap list_fmap]. apply NoDup_cons. split; [|exact Htl].
    intros (m' & Hm' & (x & (k & Hk)%list_elem_of_lookup & Hx)%list_elem_of_omap)%list_elem_of_fmap.
    cbn in Hx. subst x. rewrite list_lookup_imap in Hk. destruct (l !! k) as [o'|]; [|done].
    cbn in Hk. injection Hk as Hk. apply Hf in Hk. apply Hf in Em. lia. }
  apply (H _ _ 0%nat). intros i o [a b] Hm. unfold move_target in Hm.
  destruct (to_lop o); [|done]. cbn [mbind option_bind] in Hm. destruct (negb _); [done|].
  destruct (first_consumer_pos _ _ _); [|done]. cbn [mbind option_bind] in Hm. case_match; [|done].
  by injection Hm as <- _.
Qed.

Lemma NoDup_filter_fst {B} (P : nat * B -> Prop) `{!forall x, Decision (P x)} (l : list (nat * B)) :
  NoDup l.*1 -> NoDup (filter P l).*1.
Proof.
  induction l as [|x l IH]; [done|]. rewrite filter_cons. cbn [fmap list_fmap].
  intros [Hx Hl]%NoDup_cons. case_decide; [|by apply IH]. cbn [fmap list_fmap].
  apply NoDup_cons. split; [|by apply IH]. intros (y & Hy & [_ Hm]%list_elem_of_filter)%list_elem_of_fmap.
  apply Hx. rewrite Hy. by apply list_elem_of_fmap_2.
Qed.

Lemma NoDup_new_order operations : NoDup (new_order operations).
Proof.
  apply NoDup_bind_disjoint; [apply NoDup_seq | |].
  - intros i _. unfold block. case_bool_decide as Hi; [constructor|]. apply NoDup_app. split_and!.
    + apply NoDup_filter_fst. rewrite py_sorted_perm. apply NoDup_to_move.
    + intros k ([k' p] & -> & [Hp Hm]%list_elem_of_filter)%list_elem_of_fmap Hk%list_elem_of_singleton.
      apply elem_of_py_sorted, to_move_spec in Hm. cbn in *. lia.
    + apply NoDup_singleton.
  - intros i j k _ _ [Hi Hki]%elem_of_block [Hj Hkj]%elem_of_block.
    destruct Hki as [->|Hki], Hkj as [->|Hkj]; [done | | |].
    + exfalso. apply Hi, list_elem_of_fmap. by exists (i, j).
    + exfalso. apply Hj, list_elem_of_fmap. by exists (j, i).
    + by eapply to_move_fun.
Qed.

Lemma elem_of_new_order operations k : k ∈ new_order operations <-> (k < length operations)%nat.
Proof.
  unfold new_order. rewrite list_elem_of_bind. split.
  - intros (i & [_ Hk]%elem_of_block & Hi%elem_of_seq). destruct Hk as [->|Hk]; [lia|].
    apply to_move_spec in Hk. lia.
  - intros Hk. destruct (decide (k ∈ (to_move operations).*1)) as [Hm|Hm].
    + apply list_elem_of_fmap in Hm as ([k' p] & -> & Hm). cbn [fst] in *.
      pose proof (to_move_spec _ _ _ Hm) as (? & Hp & _). exists p. rewrite elem_of_block, elem_of_seq. split; [tauto | lia].
    + exists k. rewrite elem_of_block, elem_of_seq. split; [tauto | lia].
Qed.

Lemma reorder_new_order operations :
  _reorder_any_in_nodes operations = omap (fun i => operations !! i) (new_order operations).
Proof.
  unfold _reorder_any_in_nodes. case_bool_decide as Hm.
  - rewrite <- (omap_lookup_seq operations) at 1. f_equal. unfold new_order, block. rewrite Hm.
    generalize (seq 0 (length operations)). intros l. induction l as [|i l IH]; [done|].
    cbn [mbind list_bind]. by rewrite <- IH.
  - unfold new_order. rewrite <- (omap_lookup_seq operations) at 2.
    assert (forall k, (k <= length operations)%nat ->
      mjoin (imap (reorder_at operations (to_move operations)) (take k operations))
      = omap (fun i => operations !! i) (seq 0 k ≫= block operations)) as H.
    { induction k as [|k IH]; intros Hk; [by rewrite take_0|].
      destruct (lookup_lt_is_Some_2 operations k) as [o Ho]; [lia|].
      rewrite (take_S_r _ _ _ Ho), imap_app, join_app, seq_S, bind_app, omap_app, IH by lia. f_equal.
      cbn [imap]. rewrite length_take_le, Nat.add_0_r by lia. cbn [mbind list_bind Nat.add].
      unfold mjoin, list_join. rewrite !app_nil_r. unfold reorder_at, block.
      case_bool_decide; [done|]. rewrite omap_app. cbn [omap list_omap]. rewrite Ho. f_equal.
      generalize (py_sorted pos_le (to_move operations)). intros ms.
      induction ms as [|m ms IHm]; [done|]. cbn [omap list_omap]. rewrite filter_cons.
      destruct (Nat.eqb_spec m.2 k); case_decide; try done. cbn [fmap list_fmap omap list_omap].
      by rewrite IHm. }
    rewrite omap_lookup_seq, <- H by lia. by rewrite firstn_all.
Qed.

Lemma reorder_perm operations : _reorder_any_in_nodes operations ≡ₚ operations.
Proof.
  rewrite reorder_new_order. rewrite (NoDup_seq_perm (new_order operations) (length operations)).
  - by rewrite omap_lookup_seq.
  - apply NoDup_new_order.
  - apply elem_of_new_order.
Qed.

(** What precedes an operation that does not move. *)
Lemma new_order_split operations j :
  (j < length operations)%nat -> j ∉ (to_move operations).*1 ->
  exists l1 l2, new_order operations = l1 ++ j :: l2
    /\ forall k, k ∈ l1 <-> (k < j)%nat /\ k ∉ (to_move operations).*1
                            \/ exists p, (k, p) ∈ to_move operations /\ (p <= j)%nat.
Proof.
  intros Hj Hm. unfold new_order.
  replace (length operations) with (j + S (length operations - S j))%nat by lia.
  rewrite seq_app, bind_app. cbn [seq mbind list_bind Nat.add]. unfold block at 2.
  rewrite bool_decide_false by done. rewrite <- (app_assoc _ [j]), app_assoc. cbn [app].
  eexists _, _. split; [reflexivity|]. intros k. rewrite elem_of_app, list_elem_of_bind, list_elem_of_fmap. split.
  - intros [(i & [Hi Hk]%elem_of_block & Hij%elem_of_seq)|([k' p] & -> & [Hp Hk]%list_elem_of_filter)].
    + destruct Hk as [->|Hk]; [left; split; [lia | done]|]. right. exists i. split; [done | lia].
    + cbn [snd] in Hp. subst p. apply elem_of_py_sorted in Hk. right. exists j. split; [done | lia].
  - intros [[Hkj Hk]|(p & Hk & Hp)].
    + left. exists k. rewrite elem_of_block, elem_of_seq. split; [tauto | lia].
    + destruct (decide (p = j)) as [->|Hne].
      * right. exists (k, j). split; [done|]. apply list_elem_of_filter. split; [done|]. by apply elem_of_py_sorted.
      * left. exists p. pose proof (to_move_spec _ _ _ Hk) as (? & ? & _).
        rewrite elem_of_block, elem_of_seq. split; [tauto | lia].
Qed.

Lemma not_moved_reader operations j o l d :
  operations !! j = Some o -> to_lop o = Some l -> d ∈ deps l -> j ∉ (to_move operations).*1.
Proof.
  intros Ho Hl Hd ([j' p] & -> & (_ & _ & o' & l' & Ho' & Hl' & Hd' & _)%to_move_spec)%list_elem_of_fmap.
  cbn [fst] in *. assert (l' = l) as -> by congruence. rewrite Hd' in Hd. by apply elem_of_nil in Hd.
Qed.

Lemma reorder_ordered nin operations :
  ordered nin operations -> ordered nin (_reorder_any_in_nodes operations).
Proof.
  intros Hord a o l d Ha Hl Hd. rewrite reorder_new_order in *.
  assert (forall r, r ∈ new_order operations -> (r < length operations)%nat) as Hr
    by (intros r; apply elem_of_new_order).
  rewrite omap_lookup_lookup in Ha by done. destruct (new_order operations !! a) as [j|] eqn:Hj; [|done].
  cbn [mbind option_bind] in Ha.
  pose proof (not_moved_reader _ _ _ _ _ Ha Hl Hd) as Hmv.
  destruct (Hord j o l d Ha Hl Hd) as [?|(i & p & lp & Hij & Hp & Hlp & Hn)]; [by left | right].
  destruct (new_order_split operations j) as (l1 & l2 & Hs & Hl1); [by eapply lookup_lt_Some | done|].
  assert (a = length l1) as ->.
  { eapply (NoDup_lookup (new_order operations)); [apply NoDup_new_order | exact Hj|].
    rewrite Hs. by apply list_lookup_middle. }
  assert (i ∈ l1) as Hi.
  { apply Hl1. destruct (decide (i ∈ (to_move operations).*1)) as [Hi|Hi]; [|tauto].
    apply list_elem_of_fmap in Hi as ([i' q] & -> & Hi). cbn [fst] in *. right. exists q. split; [done|].
    apply to_move_spec in Hi as (_ & _ & o' & l' & Ho' & Hl' & _ & Hmin).
    assert (l' = lp) as -> by congruence. eapply Hmin; eauto. by rewrite Hn. }
  apply list_elem_of_lookup in Hi as [b Hb]. pose proof (lookup_lt_Some _ _ _ Hb).
  exists b, p, lp. split_and!; [done | | done | done].
  rewrite omap_lookup_lookup by done. rewrite Hs, lookup_app_l by done. by rewrite Hb.
Qed.

(** Producers before readers, on the planned operations. *)
Definition ops_ordered (nin : list string) (ops : list (lop STL)) : Prop :=
  forall l1 o l2 d, ops = l1 ++ o :: l2 -> d ∈ deps o -> d ∈ nin \/ d ∈ lname <$> l1.

Lemma planned_ordered nin operations :
  ordered nin operations <-> ops_ordered nin (planned operations).
Proof.
  split.
  - intros H l1 o l2 d (xs1 & x & xs2 & -> & Hx & <-)%omap_split Hd.
    destruct (H (length xs1) x o d) as [?|(i & p & lp & Hi & Hp & Hlp & <-)];
      [by apply list_lookup_middle | done | done | by left | right].
    rewrite lookup_app_l in Hp by done. apply list_elem_of_fmap. exists lp. split; [done|].
    apply list_elem_of_omap. exists p. split; [by eapply list_elem_of_lookup_2 | done].
  - intros H j o l d Ho Hl Hd. pose proof (take_drop_middle _ _ _ Ho) as Hs.
    destruct (H (planned (take j operations)) l (planned (drop (S j) operations)) d) as [?|Hin]; [|done|by left|right].
    + rewrite <- Hs at 1. unfold planned. rewrite omap_app. cbn [omap list_omap]. by rewrite Hl.
    + apply list_elem_of_fmap in Hin as (lp & -> & (p & (i & Hi)%list_elem_of_lookup & Hp)%list_elem_of_omap).
      exists i, p, lp. rewrite lookup_take_Some in Hi. destruct Hi. split_and!; done.
Qed.

End reorder.

(** ** Well-formed inputs of the search *)

Section graph.
Context `{CA : CostArith} {STL : Type} `{R : StickRules STL}.
Implicit Types (ops : list (lop STL)) (inputs : list (string * option (list STL))).

(** The inputs that take a slot. *)
Definition input_names inputs : list string :=
  omap (fun gi : string * option (list STL) => if gi.2 then Some gi.1 else None) inputs.

(** Names are unique, inputs have a layout, producers come before readers and
    the cost nodes are built by their constructors. *)
Record wf_graph ops inputs : Prop := {
  wf_names : NoDup (input_names inputs ++ (lname <$> ops));
  wf_inputs n l : (n, Some l) ∈ inputs -> l <> [];
  wf_order : ops_ordered (input_names inputs) ops;
  wf_nodes o : o ∈ ops -> node_wf (restick_cost_fn o)
}.

Lemma wf_graph_reorder operations inputs :
  wf_graph (planned operations) inputs ->
  wf_graph (planned (_reorder_any_in_nodes operations)) inputs.
Proof.
  intros [Hn Hi Ho Hw].
  assert (planned (_reorder_any_in_nodes operations) ≡ₚ planned operations) as Hp
    by (unfold planned; by rewrite reorder_perm).
  split; [by rewrite Hp | done | by apply planned_ordered, reorder_ordered, planned_ordered |].
  intros o. rewrite Hp. apply Hw.
Qed.

Lemma names_inj ops i j x y :
  NoDup (lname <$> ops) -> ops !! i = Some x -> ops !! j = Some y -> lname x = lname y -> i = j.
Proof.
  intros Hn Hi Hj Hxy. eapply (NoDup_lookup (lname <$> ops)); [done | |];
    rewrite list_lookup_fmap; [by rewrite Hi | by rewrite Hj, Hxy].
Qed.

Context (ops : list (lop STL)) (inputs : list (string * option (list STL))).
Context (Hwf : wf_graph ops inputs).

Lemma wf_op_names : NoDup (lname <$> ops).
Proof. apply (NoDup_app (input_names inputs)). apply Hwf. Qed.

Lemma wf_not_input o : o ∈ ops -> lname o ∉ input_names inputs.
Proof.
  intros Ho Hi. pose proof (wf_names _ _ Hwf) as (_ & H & _)%NoDup_app.
  apply (H _ Hi), list_elem_of_fmap. eauto.
Qed.

(** A reader comes after the operation it reads. *)
Lemma reader_after i j x d :
  ops !! i = Some x -> ops !! j = Some d -> lname x ∈ deps d -> (i < j)%nat.
Proof.
  intros Hi Hj Hd.
  destruct (wf_order _ _ Hwf (take j ops) d (drop (S j) ops) (lname x)) as [Hin|Hin];
    [by rewrite take_drop_middle | done | |].
  - exfalso. apply (wf_not_input x); [by eapply list_elem_of_lookup_2 | done].
  - apply list_elem_of_fmap in Hin as (x' & Hx & [k Hk]%list_elem_of_lookup).
    apply lookup_take_Some in Hk as [Hk Hlt].
    rewrite (names_inj ops i k x x'); [done | apply wf_op_names | done | done | done].
Qed.

(** *** The backward estimate *)

Lemma add_downstream_spec (o : lop STL) l : forall d,
  (forall n, lname o ∉ lname <$> dget_or [] d n) ->
  forall n, dget_or [] (foldl (add_downstream o) d l) n =
    dget_or [] d n ++ if bool_decide (n ∈ l) then [o] else [].
Proof.
  induction l as [|m l IH] using rev_ind; intros d Hd n.
  - by rewrite app_nil_r.
  - rewrite foldl_app. cbn [foldl]. unfold add_downstream at 1. rewrite IH by done.
    destruct (decide (m ∈ l)) as [Hm|Hm].
    + rewrite (bool_decide_true (m ∈ l)) by done. rewrite bool_decide_true.
      * rewrite IH by done. f_equal. rewrite (bool_decide_ext (n ∈ l) (n ∈ l ++ [m])); [done|].
        rewrite elem_of_app, list_elem_of_singleton. split; [tauto|]. by intros [?| ->].
      * rewrite fmap_app, elem_of_app. right. apply list_elem_of_here.
    + rewrite (bool_decide_false (m ∈ l)) by done. rewrite app_nil_r, bool_decide_false by done.
      unfold dget_or at 1. rewrite dget_dset. case_decide as Hnm.
      * subst. rewrite (bool_decide_true (m ∈ l ++ [m])) by (apply elem_of_app; right; list_mem). done.
      * change (default [] (dget (foldl (add_downstream o) d l) n))
          with (dget_or [] (foldl (add_downstream o) d l) n).
        rewrite IH by done. f_equal. rewrite (bool_decide_ext (n ∈ l) (n ∈ l ++ [m])); [done|].
        rewrite elem_of_app, list_elem_of_singleton. tauto.
Qed.

Lemma downstream_spec n : dget_or [] (downstream ops) n = filter (fun o => n ∈ deps o) ops.
Proof.
  pose proof wf_op_names as Hn. unfold downstream. clear Hwf. revert n Hn.
  induction ops as [|o l IH] using rev_ind; intros n Hn; [done|].
  rewrite fmap_app in Hn. apply NoDup_app in Hn as (Hn & Hdis & _).
  rewrite foldl_app. cbn [foldl]. rewrite add_downstream_spec.
  - rewrite IH by done. rewrite filter_app. f_equal. rewrite filter_cons, filter_nil.
    by case_bool_decide; case_decide.
  - intros m. rewrite IH by done. intros (o' & Ho' & [_ Hin]%list_elem_of_filter)%list_elem_of_fmap.
    eapply (Hdis (lname o)); [rewrite Ho'; by apply list_elem_of_fmap_2 | list_mem].
Qed.

(** The estimate of a buffer depends on the entries of its readers. *)
Lemma for_each_ext_in {A S} (f g : A -> S -> res S) l s :
  (forall x s', x ∈ l -> f x s' = g x s') -> for_each f l s = for_each g l s.
Proof.
  revert s. induction l as [|x l IH]; intros s H; [done|]. cbn [for_each].
  rewrite H by list_mem. destruct (g x s); [|done]. apply IH. intros y s' Hy. apply H. list_mem.
Qed.

Lemma best_through_ext (F F' : dict (list (STL * ecost))) name c d :
  (forall e, future_of F (lname d) e = future_of F' (lname d) e) ->
  best_through F name c d = best_through F' name c d.
Proof.
  intros H. unfold best_through. f_equal. apply for_each_ext_in. intros x s _. by rewrite H.
Qed.

Lemma total_future_ext (F F' : dict (list (STL * ecost))) name c :
  (forall d e, d ∈ ops -> name ∈ deps d -> future_of F (lname d) e = future_of F' (lname d) e) ->
  total_future ops F name c = total_future ops F' name c.
Proof.
  intros H. unfold total_future. rewrite downstream_spec. apply for_each_ext_in.
  intros d s [Hd Hin]%list_elem_of_filter. rewrite (best_through_ext F F'); [done|].
  intros e. by apply H.
Qed.

Lemma future_of_dset_ne (F : dict (list (STL * ecost))) name m n e :
  n <> name -> future_of (dset name m F) n e = future_of F n e.
Proof. intros H. unfold future_of, dget_or. by rewrite dget_dset, decide_False by done. Qed.

Lemma future_of_dset_eq (F : dict (list (STL * ecost))) name m e : future_of (dset name m F) name e = default (Some 0) (aget m e).
Proof. unfold future_of, dget_or. by rewrite dget_dset, decide_True by done. Qed.

Lemma best_through_total F name c d :
  node_wf (restick_cost_fn d) -> exists b, best_through F name c d = Ok b.
Proof.
  intros Hw. unfold best_through.
  destruct (for_each_total (fun (d_cand : STL) (best : ecost) =>
      edge_c ← min_input_cost (restick_cost_fn d) name c d_cand;
      Ok (match edge_c with
          | None => best
          | Some _ => cmin best (cadd edge_c (future_of F (lname d) d_cand))
          end)) (fun _ _ => True) (layouts d) None) as (s & -> & _); [|done|cbn; eauto].
  intros done x rest s1 _ _. destruct (min_input_cost_total (restick_cost_fn d) name c x Hw) as [e ->].
  cbn. eauto.
Qed.

Lemma total_future_total F name c : exists t, total_future ops F name c = Ok t.
Proof.
  unfold total_future. rewrite downstream_spec.
  destruct (for_each_total (fun d total =>
      if reads d name then b ← best_through F name c d; Ok (cadd total b) else Ok total)
      (fun _ _ => True) (filter (fun o => name ∈ deps o) ops) (Some 0)) as (s & -> & _); [|done|eauto].
  intros done d rest s1 Hs _. destruct (reads d name); [|eauto].
  destruct (best_through_total F name c d) as [b ->]; [|cbn; eauto].
  apply (wf_nodes _ _ Hwf). assert (d ∈ filter (fun o => name ∈ deps o) ops) as Hd
    by (rewrite Hs, elem_of_app; right; list_mem). by apply list_elem_of_filter in Hd as [_ ?].
Qed.

(** [F] answers its own recursion at [o]. *)
Definition bellman (F : dict (list (STL * ecost))) (o : lop STL) : Prop :=
  forall c, c ∈ layouts o -> total_future ops F (lname o) c = Ok (future_of F (lname o) c).

Lemma not_own_reader x : x ∈ ops -> forall d, d ∈ ops -> lname x ∈ deps d -> lname d <> lname x.
Proof.
  intros [i Hi]%list_elem_of_lookup d [j Hj]%list_elem_of_lookup Hd Heq.
  pose proof (reader_after i j x d Hi Hj Hd). pose proof (names_inj ops j i d x wf_op_names Hj Hi Heq). lia.
Qed.

Lemma future_step_total x F : x ∈ ops ->
  exists m, future_step ops x F = Ok (dset (lname x) m F) /\ bellman (dset (lname x) m F) x.
Proof.
  intros Hx. unfold future_step.
  destruct (for_each_total (fun candidate m =>
        t ← total_future ops (dset (lname x) m F) (lname x) candidate;
        Ok (aset candidate t m))
      (fun done m => forall c, c ∈ done -> exists t, aget m c = Some t /\ total_future ops F (lname x) c = Ok t)
      (layouts x) []) as (m & -> & Hm).
  - intros done c rest m _ Hm. rewrite (total_future_ext _ F).
    + destruct (total_future_total F (lname x) c) as [t Ht]. rewrite Ht. cbn [mbind res_bind].
      eexists. split; [done|]. intros c' Hc'. rewrite aget_aset. case_decide as He; [subst; eauto|].
      apply Hm. apply elem_of_app in Hc' as [?|Hc']; [done|]. by apply list_elem_of_singleton in Hc'.
    + intros d e Hd Hr. apply future_of_dset_ne. by apply not_own_reader.
  - by intros c ?%elem_of_nil.
  - cbn [mbind res_bind]. exists m. split; [done|]. intros c Hc. destruct (Hm c Hc) as (t & Ht & Htot).
    rewrite (total_future_ext _ F).
    + by rewrite future_of_dset_eq, Ht.
    + intros d e Hd Hr. apply future_of_dset_ne. by apply not_own_reader.
Qed.

Lemma compute_future_spec :
  exists F, compute_future_min_cost ops = Ok F /\ forall o, o ∈ ops -> bellman F o.
Proof.
  unfold compute_future_min_cost.
  destruct (for_each_total (future_step ops)
    (fun done F => forall o, o ∈ done -> bellman F o) (reverse ops) []) as (F & -> & HF).
  - intros done x rest F Hs HF.
    assert (ops = reverse rest ++ x :: reverse done) as Hops.
    { rewrite <- (reverse_involutive ops), Hs, reverse_app, reverse_cons, <- app_assoc. done. }
    assert (x ∈ ops) as Hx by (rewrite Hops, elem_of_app; right; list_mem).
    destruct (future_step_total x F Hx) as (m & -> & Hm). eexists. split; [done|].
    intros o [Ho| ->%list_elem_of_singleton]%elem_of_app; [|done]. intros c Hc.
    assert (reverse rest ++ x :: reverse done = ops) as Hops' by done.
    assert (ops !! length (reverse rest) = Some x) as Hxi by (rewrite <- Hops'; by apply list_lookup_middle).
    apply elem_of_reverse, list_elem_of_lookup in Ho as [k Hk].
    assert (ops !! (length (reverse rest) + S k)%nat = Some o) as Hoi.
    { rewrite <- Hops', lookup_app_r by lia. by replace (length (reverse rest) + S k - length (reverse rest))%nat with (S k) by lia. }
    rewrite (total_future_ext _ F), future_of_dset_ne.
    + apply HF, Hc. apply elem_of_reverse. by eapply list_elem_of_lookup_2.
    + intros Heq. pose proof (names_inj ops _ _ _ _ wf_op_names Hoi Hxi Heq). lia.
    + intros d e Hd Hr. apply future_of_dset_ne. intros Heq.
      apply list_elem_of_lookup in Hd as [j Hj]. pose proof (reader_after _ _ _ _ Hoi Hj Hr).
      pose proof (names_inj ops _ _ _ _ wf_op_names Hj Hxi Heq). lia.
  - by intros o ?%elem_of_nil.
  - exists F. split; [done|]. intros o Ho. apply HF. by apply elem_of_reverse.
Qed.

(** A buffer nobody reads has no cost ahead. *)
Lemma future_unread F o c :
  bellman F o -> c ∈ layouts o -> (forall d, d ∈ ops -> lname o ∉ deps d) ->
  future_of F (lname o) c = Some 0.
Proof.
  intros HF Hc Hr. specialize (HF c Hc). unfold total_future in HF. rewrite downstream_spec in HF.
  destruct (filter _ ops) as [|d l] eqn:E; [by injection HF|]. exfalso.
  assert (d ∈ filter (fun d => lname o ∈ deps d) ops) as Hd by (rewrite E; list_mem).
  apply list_elem_of_filter in Hd as [Hd Hin]. by apply (Hr d Hin).
Qed.

(** *** Steps and last uses *)

Lemma step_of_spec n i :
  dget (step_of ops) n = Some i <-> exists o, ops !! i = Some o /\ lname o = n.
Proof.
  pose proof wf_op_names as Hn. unfold step_of. clear Hwf. revert n i Hn.
  induction ops as [|o l IH] using rev_ind; intros n i Hn.
  - split; [done|]. by intros (o & Ho & _).
  - rewrite fmap_app in Hn. apply NoDup_app in Hn as (Hn & Hdis & _).
    rewrite imap_app, foldl_app. cbn [foldl imap]. rewrite dget_dset, Nat.add_0_r. case_decide as He.
    + subst. split.
      * intros [= <-]. exists o. split; [by apply list_lookup_middle | done].
      * intros (o' & Ho' & Heq). f_equal. apply lookup_app_Some in Ho' as [Ho'|[Hle Ho']].
        { exfalso. apply (Hdis (lname o)); [|list_mem]. rewrite <- Heq. apply list_elem_of_fmap_2.
          by eapply list_elem_of_lookup_2. }
        apply list_lookup_singleton_Some in Ho' as [? _]. lia.
    + rewrite IH by done. split; intros (o' & Ho' & Heq); exists o'; (split; [|done]).
      * by apply lookup_app_l_Some.
      * apply lookup_app_Some in Ho' as [Ho'|[Hle Ho']]; [done|].
        apply list_lookup_singleton_Some in Ho' as [_ ->]. done.
Qed.

(** [lu] holds the last of the uses [P] of the operations' buffers. *)
Definition uses_ok (P : nat -> string -> Prop) (lu : dict nat) : Prop :=
  (forall n u, dget lu n = Some u -> P u n /\ n ∈ lname <$> ops)
  /\ forall j n, P j n -> n ∈ lname <$> ops -> exists u, dget lu n = Some u /\ (j <= u)%nat.

Lemma dmem_step_of n : dmem (step_of ops) n = bool_decide (n ∈ lname <$> ops).
Proof.
  unfold dmem. apply bool_decide_ext. rewrite list_elem_of_fmap. split.
  - intros [i (o & Ho & <-)%step_of_spec]. exists o. split; [done | by eapply list_elem_of_lookup_2].
  - intros (o & -> & [i Hi]%list_elem_of_lookup). exists i. apply step_of_spec. eauto.
Qed.

Lemma note_use_spec P lu j o n :
  ops !! j = Some o -> uses_ok P lu ->
  exists lu', note_use (step_of ops) o lu n = Ok lu'
    /\ uses_ok (fun i m => P i m \/ (i = j /\ m = n)) lu'.
Proof.
  intros Ho [H1 H2]. unfold note_use. rewrite dmem_step_of. case_bool_decide as Hn.
  - unfold dgetitem. rewrite (proj2 (step_of_spec (lname o) j)) by eauto. cbn [mbind res_bind].
    eexists. split; [done|]. case_bool_decide as Hlt.
    + split.
      * intros m u. rewrite dget_dset. case_decide; [intros [= <-]; subst; tauto|].
        intros Hu. destruct (H1 m u Hu). tauto.
      * intros i m [Hi|[-> ->]] Hm; rewrite dget_dset; case_decide as He; [|by eauto| |done].
        { subst. destruct (H2 i n Hi Hm) as (u & Hu & ?). rewrite Hu in Hlt. cbn in Hlt. exists j. split; [done | lia]. }
        exists j. split; [done | lia].
    + split; [intros m u Hu; destruct (H1 m u Hu); tauto|].
      intros i m [Hi|[-> ->]] Hm; [by eauto|]. destruct (dget lu n) as [u|]; cbn in Hlt; [|lia].
      exists u. split; [done | lia].
  - eexists. split; [done|]. split; [intros m u Hu; destruct (H1 m u Hu); tauto|].
    intros i m [Hi|[-> ->]] Hm; [by eauto | done].
Qed.

Lemma uses_ok_iff P Q lu : (forall j n, P j n <-> Q j n) -> uses_ok P lu -> uses_ok Q lu.
Proof.
  intros H [H1 H2]. split.
  - intros n u Hu. rewrite <- H. by apply H1.
  - intros j n Hj. apply H2. by apply H.
Qed.

(** Buffer [n] is read by operation [j]. *)
Definition read_at (j : nat) (n : string) : Prop := exists o, ops !! j = Some o /\ n ∈ deps o.

Lemma last_use_spec :
  exists lu, _compute_last_use ops (step_of ops) = Ok lu /\ uses_ok read_at lu.
Proof.
  unfold _compute_last_use.
  destruct (for_each_total (fun o lu => for_each (fun name lu => note_use (step_of ops) o lu name) (deps o) lu)
    (fun done lu => uses_ok (fun j n => (j < length done)%nat /\ read_at j n) lu) ops []) as (lu & -> & Hlu).
  - intros done o rest lu Hs Hlu.
    assert (ops !! length done = Some o) as Ho by (rewrite Hs; by apply list_lookup_middle).
    destruct (for_each_total (fun name lu => note_use (step_of ops) o lu name)
      (fun ds lu => uses_ok (fun j n => ((j < length done)%nat /\ read_at j n) \/ (j = length done /\ n ∈ ds)) lu)
      (deps o) lu) as (lu' & -> & Hlu').
    + intros ds d ds' lu1 _ H1. destruct (note_use_spec _ _ _ _ d Ho H1) as (lu2 & -> & H2).
      eexists. split; [done|]. eapply uses_ok_iff; [|exact H2]. intros j n. cbn.
      rewrite elem_of_app, list_elem_of_singleton. tauto.
    + eapply uses_ok_iff; [|exact Hlu]. intros j n. rewrite elem_of_nil. tauto.
    + eexists. split; [done|]. eapply uses_ok_iff; [|exact Hlu']. intros j n. cbn.
      rewrite length_app. cbn [length]. split.
      * intros [[? ?]|[-> Hn]]; [split; [lia | done]|]. split; [lia|]. by exists o.
      * intros [Hj Hr]. destruct (decide (j = length done)) as [->|]; [|left; split; [lia | done]].
        right. destruct Hr as (o' & Ho' & Hn). rewrite Ho in Ho'. by simplify_eq.
  - split; [done|]. intros j n [Hj _]. cbn in Hj. lia.
  - eexists. split; [done|]. eapply uses_ok_iff; [|exact Hlu]. intros j n. cbn. split; [tauto|].
    intros (o & Ho & Hn). split; [by eapply lookup_lt_Some | by exists o].
Qed.

(** Some operation after step [t] reads [n]. *)
Definition read_later (t : nat) (n : string) : bool := existsb (fun o => reads o n) (drop (S t) ops).

Lemma read_later_true t n :
  read_later t n = true <-> exists j o, (t < j)%nat /\ ops !! j = Some o /\ n ∈ deps o.
Proof.
  unfold read_later. rewrite existsb_exists. split.
  - intros (o & (k & Hk)%list_elem_of_In%list_elem_of_lookup & Hr). rewrite lookup_drop in Hk.
    exists (S t + k)%nat, o. unfold reads in Hr. apply bool_decide_eq_true in Hr. split_and!; [lia | done | done].
  - intros (j & o & Hj & Ho & Hn). exists o. split; [|unfold reads; by apply bool_decide_eq_true].
    apply list_elem_of_In, list_elem_of_lookup. exists (j - S t)%nat. rewrite lookup_drop, <- Ho. f_equal. lia.
Qed.

Lemma is_live_spec lu t n :
  uses_ok read_at lu -> n ∈ lname <$> ops -> is_live lu t n = read_later t n.
Proof.
  intros [H1 H2] Hn. apply eq_true_iff_eq. rewrite read_later_true. unfold is_live. split.
  - destruct (dget lu n) as [u|] eqn:Hu; [|done]. intros Ht%Nat.ltb_lt.
    destruct (H1 n u Hu) as [(o & Ho & Hd) _]. eauto.
  - intros (j & o & Hj & Ho & Hd). destruct (H2 j n) as (u & -> & Hu); [by exists o | done|].
    apply Nat.ltb_lt. lia.
Qed.

Lemma is_live_input lu t n : uses_ok read_at lu -> n ∉ lname <$> ops -> is_live lu t n = false.
Proof.
  intros [H1 _] Hn. unfold is_live. destruct (dget lu n) as [u|] eqn:Hu; [|done].
  by destruct (H1 n u Hu).
Qed.

End graph.

(** ** What an assignment costs *)

Section spec.
Context {STL : Type} `{R : StickRules STL}.
Implicit Types (σ τ : string -> option STL) (o : lop STL).

(** The restickify cost of one operation under the assignment [σ]. *)
Definition op_cost σ o : ecost :=
  ins ← mapM σ (deps o);
  out ← σ (lname o);
  node_cost (A := exact) (restick_cost_fn o) ins out.

Definition total_cost σ (ops : list (lop STL)) : ecost := csum (A := exact) (op_cost σ <$> ops).

(** Operations take one of their candidates, graph inputs their first layout. *)
Definition legal σ (ops : list (lop STL)) (inputs : list (string * option (list STL))) : Prop :=
  (forall o, o ∈ ops -> exists stl, stl ∈ layouts o /\ σ (lname o) = Some stl)
  /\ (forall n stl l, (n, Some (stl :: l)) ∈ inputs -> σ n = Some stl).

Definition feasible ops inputs σ (k : Z) : Prop :=
  legal σ ops inputs /\ total_cost σ ops = Some k.

Lemma mapM_ext_in σ τ l : (forall d, d ∈ l -> σ d = τ d) -> mapM σ l = mapM τ l.
Proof.
  induction l as [|d l IH]; intros H; [done|]. cbn [mapM]. rewrite H by list_mem.
  rewrite IH; [done|]. intros e He. apply H. list_mem.
Qed.

Lemma op_cost_ext σ τ o :
  (forall d, d ∈ lname o :: deps o -> σ d = τ d) -> op_cost σ o = op_cost τ o.
Proof.
  intros H. unfold op_cost. rewrite (mapM_ext_in σ τ), (H (lname o)); [done | list_mem |].
  intros d Hd. apply H. list_mem.
Qed.

Lemma total_cost_ext σ τ ops :
  (forall o d, o ∈ ops -> d ∈ lname o :: deps o -> σ d = τ d) -> total_cost σ ops = total_cost τ ops.
Proof.
  intros H. unfold total_cost. f_equal. apply list_fmap_ext. intros i o Ho.
  apply op_cost_ext. intros d Hd. eapply H; [by eapply list_elem_of_lookup_2 | done].
Qed.

Lemma total_cost_snoc σ ops o : total_cost σ (ops ++ [o]) = cadd (CostArith := exact) (total_cost σ ops) (op_cost σ o).
Proof. unfold total_cost. rewrite fmap_app. apply csum_snoc. Qed.

#[export] Instance csum_proper : Proper (Permutation ==> eq) (csum (A := exact)).
Proof.
  intros l k H. induction H as [|x l k _ IH|x y l|l k m _ IH1 _ IH2]; [done | | |congruence].
  - by rewrite !csum_cons, IH.
  - rewrite !csum_cons, !cadd_assoc. f_equal. destruct x, y; cbn; f_equal; lia.
Qed.

#[export] Instance total_cost_proper σ : Proper (Permutation ==> eq) (total_cost σ).
Proof. intros l k H. unfold total_cost. by rewrite H. Qed.

Lemma feasible_perm ops ops' inputs σ k :
  ops ≡ₚ ops' -> feasible ops inputs σ k <-> feasible ops' inputs σ k.
Proof. intros H. unfold feasible, legal. rewrite H. by setoid_rewrite H. Qed.

(** The assignment of a state, by buffer name. *)
Definition state_map (names : list string) (s : BeamState STL) : string -> option STL :=
  dget (zip names (assignments s)).

Lemma dget_zip (names : list string) (l : list STL) i n :
  NoDup names -> length l = length names -> names !! i = Some n -> dget (zip names l) n = l !! i.
Proof.
  intros Hn Hl Hi. destruct (lookup_lt_is_Some_2 l i) as [a Ha]; [rewrite Hl; by eapply lookup_lt_Some|].
  rewrite Ha. apply dget_NoDup.
  - unfold dkeys. rewrite fst_zip by lia. done.
  - apply elem_of_lookup_zip_with. exists i, n, a. done.
Qed.

Lemma dget_zip_snoc (names : list string) (l : list STL) n a m :
  length l = length names -> m <> n -> dget (zip (names ++ [n]) (l ++ [a])) m = dget (zip names l) m.
Proof.
  revert l. induction names as [|x names IH]; intros [|y l] Hl Hm; try done; cbn [app zip zip_with dget].
  - by rewrite decide_False.
  - case_decide; [done|]. apply IH; [by injection Hl | done].
Qed.

(** Every sum the search compares on behalf of [σ] is below [EXACT]: at each operation,
    what [σ] costs up to it and the estimate [F] of what is ahead. *)
Definition exact_estimates (F : dict (list (STL * ecost))) σ (ops : list (lop STL)) : Prop :=
  forall pre o suf c k, ops = pre ++ o :: suf -> σ (lname o) = Some c -> total_cost σ (pre ++ [o]) = Some k ->
    exists f, future_of F (lname o) c = Some f /\ k + f < EXACT.

Definition estimate_below (F : dict (list (STL * ecost))) σ (ops : list (lop STL)) (i : nat) : bool :=
  match ops !! i with
  | Some o =>
      match σ (lname o), total_cost σ (take (S i) ops) with
      | Some c, Some k => from_option (fun f => k + f <? EXACT) false (future_of F (lname o) c)
      | _, _ => true
      end
  | None => true
  end.

Lemma exact_estimates_check F σ ops :
  forallb (estimate_below F σ ops) (seq 0 (length ops)) = true -> exact_estimates F σ ops.
Proof.
  intros H pre o suf c k -> Hc Hk. rewrite forallb_forall in H. specialize (H (length pre)).
  unfold estimate_below in H. rewrite list_lookup_middle, Hc in H by done.
  rewrite (app_assoc pre [o] suf : pre ++ o :: suf = _), take_app_length' in H by (rewrite length_app; cbn; lia). rewrite Hk in H.
  destruct (future_of F (lname o) c) as [f|]; cbn in H.
  - exists f. split; [done|]. apply Z.ltb_lt, H, in_seq. rewrite !length_app. cbn. lia.
  - discriminate H. apply in_seq. rewrite !length_app. cbn. lia.
Qed.

Lemma exact_estimates_prefix F σ done o : exact_estimates F σ (done ++ [o]) -> exact_estimates F σ done.
Proof. intros H pre o' suf c k ->. apply (H pre o' (suf ++ [o])). by rewrite <- app_assoc. Qed.

(** *** Estimates are not negative *)

Definition nonneg (a : ecost) : Prop := forall v, a = Some v -> 0 <= v.

Lemma follows_nonneg a b : follows a b -> nonneg a.
Proof. destruct b; cbn; [by intros (_ & _ & ?) | by intros ->]. Qed.

Lemma nonneg_add a b : nonneg a -> nonneg b -> nonneg (cadd a b).
Proof.
  intros Ha Hb v. destruct a as [x|], b as [y|]; try done. specialize (Ha x eq_refl). specialize (Hb y eq_refl).
  apply saturated_dbl. lia.
Qed.

Lemma saturated_add x f : 0 <= x -> 0 <= f -> saturated (cadd (Some x) (Some f)) = Z.min (x + f) EXACT.
Proof. intros Hx Hf. apply saturated_dbl. lia. Qed.

(** A lower bound no larger than an exact one is that of a cost no larger. *)
Lemma lower_cost x y f :
  nonneg x -> 0 <= y -> 0 <= f -> y + f < EXACT ->
  saturated (cadd x (Some f)) <= saturated (cadd (Some y) (Some f)) -> exists v, x = Some v /\ v <= y.
Proof.
  intros Hx Hy Hf Hlt. rewrite (saturated_add y) by done. destruct x as [v|]; [|cbn; lia].
  rewrite saturated_add by auto. intros Hle. exists v. split; [done | lia].
Qed.

Lemma min_input_cost_nonneg n name in_stl out_stl (c : ecost) : min_input_cost n name in_stl out_stl = Ok c -> nonneg c.
Proof.
  assert (forall ec a b, nonneg (edge_cost ec a b)) as Hedge by (intros; eapply follows_nonneg, follows_edge).
  assert (nonneg (Some 0)) as H0 by (by intros v [= <-]). assert (nonneg None) as HN by (by intros v).
  assert (forall ps : list (EdgeCostMap STL * STL), nonneg (csum ((fun p => edge_cost p.1 in_stl p.2) <$> ps))) as Hsum.
  { intros ps. eapply follows_nonneg, (follows_sum _ ((fun p => edge_cost (A := exact) p.1 in_stl p.2) <$> ps)).
    apply Forall2_fmap, Forall_Forall2_diag, Forall_forall. intros p _. apply follows_edge. }
  destruct n as [ins outs|edges ro reqs od|]; cbn [min_input_cost].
  - destruct (list_find _ ins) as [[? ec]|]; [|by intros [= <-]]. case_match; [by intros [= <-]|]. intros [= <-]. by case_match.
  - case_match; [by intros [= <-]|]. intros (pairs & _ & Hc)%bind_Ok. destruct (filter _ pairs) as [|q l]; [by injection Hc as <-|].
    destruct (existsb _ _); [by injection Hc as <-|]. injection Hc as <-. destruct (forallb _ _); [|done].
    exact (Hsum (q :: l)).
  - by intros [= <-].
Qed.

Lemma compute_future_nonneg ops F : compute_future_min_cost ops = Ok F -> forall n e, nonneg (future_of F n e).
Proof.
  assert (nonneg (Some 0)) as H0 by (by intros v [= <-]).
  assert (forall (F : dict (list (STL * ecost))) name c d b, (forall n e, nonneg (future_of F n e)) -> best_through F name c d = Ok b -> nonneg b) as Hbest.
  { intros F' name c d b HF (best & Hb & [= <-])%bind_Ok. assert (nonneg best) as Hn.
    { refine (for_each_ind _ (fun _ (v : ecost) => nonneg v) _ _ _ _ _ Hb); [|done].
      intros pre x rest v1 v2 _ Hv (ec & Hec & Hstep)%bind_Ok. apply min_input_cost_nonneg in Hec.
      destruct ec as [e|]; injection Hstep as <-; [|done]. unfold cmin. case_match; [|done]. exact (nonneg_add (Some e) _ Hec (HF _ _)). }
    case_match; [done|]. by intros v [= <-]. }
  assert (forall (F : dict (list (STL * ecost))) name c t, (forall n e, nonneg (future_of F n e)) -> total_future ops F name c = Ok t -> nonneg t) as Htotal.
  { intros F' name c t HF Ht. refine (for_each_ind _ (fun _ (v : ecost) => nonneg v) _ _ _ _ _ Ht); [|done].
    intros pre d rest v1 v2 _ Hv Hstep. destruct (reads d name); [|by injection Hstep as <-].
    apply bind_Ok in Hstep as (b & Hb & [= <-]). apply nonneg_add; [done | by eapply Hbest]. }
  assert (forall (F : dict (list (STL * ecost))) name m, (forall n e, nonneg (future_of F n e)) -> (forall e v, aget m e = Some v -> nonneg v) ->
    forall n e, nonneg (future_of (dset name m F) n e)) as Hset.
  { intros F' name m HF Hm n e. unfold future_of, dget_or. rewrite dget_dset. case_decide; [|apply HF]. cbn.
    destruct (aget m e) eqn:E; [by eapply Hm | done]. }
  unfold compute_future_min_cost. intros HF.
  refine (for_each_ind _ (fun _ F => forall n e, nonneg (future_of F n e)) _ _ _ _ _ HF); [|done].
  intros pre o rest F1 F2 _ H1 (m & Hm & [= <-])%bind_Ok. apply Hset; [done|].
  refine (for_each_ind _ (fun _ m => forall e v, aget m e = Some v -> nonneg v) _ _ _ _ _ Hm); [|done].
  intros pre' c rest' m1 m2 _ Hm1 (t & Ht & [= <-])%bind_Ok e v. rewrite aget_aset. case_decide; [|by apply Hm1].
  intros [= <-]. eapply Htotal; [|exact Ht]. by apply Hset.
Qed.

(** *** Merging and trimming *)

Lemma canon_fold mask (l : list (BeamState STL)) :
  let canon := foldl (canon_add mask) [] l in
  NoDup canon.*1
  /\ (forall k s, (k, s) ∈ canon -> live_key mask s = k /\ s ∈ l)
  /\ (forall s, s ∈ l -> exists t, aget canon (live_key mask s) = Some t /\ saturated (lower_bound t) <= saturated (lower_bound s)).
Proof.
  induction l as [|x l IH] using rev_ind; intros canon.
  - split_and!; [constructor | by intros ? ? ?%elem_of_nil | by intros ? ?%elem_of_nil].
  - subst canon. rewrite foldl_app. cbn [foldl]. set (c := foldl (canon_add mask) [] l) in *.
    destruct IH as (Hnd & Hin & Hall). unfold canon_add.
    assert (forall s, s ∈ l ++ [x] -> s ∈ l \/ s = x) as Hsplit.
    { intros s [?|?%list_elem_of_singleton]%elem_of_app; tauto. }
    assert (NoDup (aset (live_key mask x) x c).*1
      /\ (forall k s, (k, s) ∈ aset (live_key mask x) x c -> live_key mask s = k /\ s ∈ l ++ [x])) as [Ha Hb].
    { split; [by apply keys_aset_NoDup|]. intros k s [[= -> ->]|Hc]%elem_of_aset.
      - split; [done | apply elem_of_app; right; list_mem].
      - destruct (Hin k s Hc). split; [done | apply elem_of_app; by left]. }
    destruct (aget c (live_key mask x)) as [t|] eqn:Et.
    + destruct (clt (lower_bound x) (lower_bound t)) eqn:Hlt; [apply clt_saturated_lt in Hlt | apply clt_saturated in Hlt].
      * split_and!; [done | done |]. intros s Hs. rewrite aget_aset.
        destruct (Hsplit s Hs) as [Hl| ->]; [|rewrite decide_True by done; eauto with lia].
        case_decide as He; [|by apply Hall]. exists x. split; [done|].
        destruct (Hall s Hl) as (t' & Ht' & ?). rewrite He, Et in Ht'. simplify_eq. lia.
      * split_and!; [done | intros k s Hc; destruct (Hin k s Hc); split; [done | apply elem_of_app; by left] |].
        intros s Hs. destruct (Hsplit s Hs) as [Hl| ->]; [by apply Hall|]. exists t. split; [done | lia].
    + split_and!; [done | done |]. intros s Hs. rewrite aget_aset.
      destruct (Hsplit s Hs) as [Hl| ->]; [|rewrite decide_True by done; eauto with lia].
      rewrite decide_False; [by apply Hall|]. intros He. destruct (Hall s Hl) as (t' & Ht' & _). congruence.
Qed.

Lemma elem_of_merge mask (l : list (BeamState STL)) s : s ∈ merge mask l -> s ∈ l.
Proof.
  intros ([k s'] & -> & Hs)%list_elem_of_fmap. destruct (canon_fold mask l) as (_ & Hin & _).
  by apply (Hin k s').
Qed.

Lemma merge_dominates mask (l : list (BeamState STL)) s :
  s ∈ l -> exists t, t ∈ merge mask l /\ live_key mask t = live_key mask s
                     /\ saturated (lower_bound t) <= saturated (lower_bound s).
Proof.
  intros Hs. destruct (canon_fold mask l) as (_ & Hin & Hall). destruct (Hall s Hs) as (t & Ht & Hle).
  apply aget_Some_elem in Ht. exists t. split_and!; [|by apply Hin | done].
  apply list_elem_of_fmap. by exists (live_key mask s, t).
Qed.

Lemma merge_keys mask (l : list (BeamState STL)) : NoDup (live_key mask <$> merge mask l).
Proof.
  destruct (canon_fold mask l) as (Hnd & Hin & _). unfold merge.
  replace (live_key mask <$> (foldl (canon_add mask) [] l).*2) with ((foldl (canon_add mask) [] l).*1); [done|].
  rewrite <- list_fmap_compose. apply list_fmap_ext. intros i [k s] Hk. cbn. symmetry.
  apply (Hin k s). by eapply list_elem_of_lookup_2.
Qed.

Lemma elem_of_trim K (f : Frontier STL) s : s ∈ states (trim K f) -> s ∈ states f.
Proof. cbn. intros Hs. apply (elem_of_py_sorted lb_le). eapply subseteq_take, Hs. Qed.

Lemma trim_all K (f : Frontier STL) :
  trimmed (trim K f) = false ->
  trimmed f = false /\ forall s, s ∈ states f -> s ∈ states (trim K f).
Proof.
  cbn. intros [Ht Hl]%orb_false_iff. split; [done|]. intros s Hs. apply Nat.ltb_ge in Hl.
  rewrite take_ge by lia. by apply elem_of_py_sorted.
Qed.

Lemma trim_nonempty K (f : Frontier STL) : (0 < K)%nat -> states f <> [] -> states (trim K f) <> [].
Proof.
  intros HK Hs Ht. apply Hs. apply length_zero_iff_nil. apply (f_equal length) in Ht. cbn in Ht.
  rewrite length_take, length_py_sorted in Ht. lia.
Qed.

End spec.

(** ** The forward loop *)

Section beam.
Context {STL : Type} `{R : StickRules STL}.
Context (ops : list (lop STL)) (inputs : list (string * option (list STL))).
Context (Hwf : wf_graph ops inputs).
Context (F : dict (list (STL * ecost))) (HF : forall o, o ∈ ops -> bellman ops F o).
Context (HFpos : forall n e, nonneg (future_of F n e)).
Context (lu : dict nat) (Hlu : uses_ok ops (read_at ops) lu).
Implicit Types (f : Frontier STL) (s t : BeamState STL) (o : lop STL) (done : list (lop STL)).

Notation nin := (input_names inputs).
Notation names done := (nin ++ (lname <$> done)).

Definition state_ok done s : Prop :=
  length (assignments s) = length (names done)
  /\ exists k, feasible done inputs (state_map (names done) s) k /\ follows (cost s) (Some k).

(** The state has the layouts of [σ] in the slots that later operations read. *)
Definition agrees done (σ : string -> option STL) s : Prop :=
  forall i n, names done !! i = Some n -> n ∈ lname <$> done ->
    (exists j, (length done <= j)%nat /\ read_at ops j n) -> assignments s !! i = σ n.

Record inv done f : Prop := {
  inv_names : buf_names f = names done;
  inv_idx i n : names done !! i = Some n -> dget (buf_idx f) n = Some i;
  inv_sound s : s ∈ states f -> state_ok done s;
  inv_complete : trimmed f = false -> forall σ k, feasible done inputs σ k -> exact_estimates F σ done ->
    exists s v, s ∈ states f /\ cost s = Some v /\ v <= k /\ agrees done σ s
}.

Context (done : list (lop STL)) (o : lop STL) (rest : list (lop STL)).
Context (Hops : ops = done ++ o :: rest).

Lemma op_at : ops !! length done = Some o.
Proof. rewrite Hops. by apply list_lookup_middle. Qed.

Lemma op_in : o ∈ ops.
Proof. eapply list_elem_of_lookup_2, op_at. Qed.

Lemma names_NoDup : NoDup (names (done ++ [o])).
Proof.
  pose proof (wf_names _ _ Hwf) as H. rewrite Hops in H.
  rewrite (app_assoc done [o] rest : done ++ o :: rest = _), fmap_app, app_assoc in H.
  by apply NoDup_app in H as [? _].
Qed.

Lemma names_snoc : names (done ++ [o]) = names done ++ [lname o].
Proof. by rewrite fmap_app, app_assoc. Qed.

Lemma name_fresh : lname o ∉ names done.
Proof.
  pose proof names_NoDup as H. rewrite names_snoc in H. apply NoDup_app in H as (_ & H & _).
  intros Hin. apply (H _ Hin). list_mem.
Qed.

Lemma names_done_NoDup : NoDup (names done).
Proof. pose proof names_NoDup as H. rewrite names_snoc in H. by apply NoDup_app in H as [? _]. Qed.

(** Everything read so far has a slot. *)
Lemma dep_slot o' d : o' ∈ done ++ [o] -> d ∈ deps o' -> d ∈ names done.
Proof.
  intros [l1 [l2 Hs]]%list_elem_of_split Hd.
  destruct (wf_order _ _ Hwf l1 o' (l2 ++ rest) d) as [Hi|Hi]; [|done|by apply elem_of_app; left|].
  - rewrite Hops, (app_assoc done [o] rest : done ++ o :: rest = _), Hs, <- app_assoc. done.
  - apply elem_of_app. right.
    destruct l2 as [|y l2 _] using rev_ind.
    + apply app_inj_2 in Hs as [-> _]; done.
    + rewrite app_comm_cons, app_assoc in Hs. apply app_inj_2 in Hs as [-> _]; [|done].
      rewrite fmap_app. apply elem_of_app. by left.
Qed.

Lemma input_slot f s d :
  inv done f -> state_ok done s -> d ∈ deps o ->
  exists a, input_stl (add_buf (lname o) f) s d = Ok a /\ state_map (names done) s d = Some a.
Proof.
  intros Hf [Hl _] Hd. pose proof (dep_slot o d ltac:(apply elem_of_app; right; list_mem) Hd) as Hn.
  pose proof Hn as [i Hi]%list_elem_of_lookup.
  destruct (lookup_lt_is_Some_2 (assignments s) i) as [a Ha]; [rewrite Hl; by eapply lookup_lt_Some|].
  exists a. split.
  - unfold input_stl, dgetitem. cbn [add_buf buf_idx]. rewrite dget_dset, decide_False.
    + rewrite (inv_idx _ _ Hf i d Hi). cbn [mbind res_bind]. by rewrite Ha.
    + intros ->. by apply name_fresh.
  - unfold state_map. by rewrite (dget_zip _ _ i d names_done_NoDup Hl Hi).
Qed.

Lemma in_layouts_spec f s :
  inv done f -> state_ok done s ->
  exists ins, in_layouts (add_buf (lname o) f) o s = Ok ins
              /\ mapM (state_map (names done) s) (deps o) = Some ins.
Proof.
  intros Hf Hs. unfold in_layouts.
  assert (forall d, d ∈ deps o -> exists a, input_stl (add_buf (lname o) f) s d = Ok a
            /\ state_map (names done) s d = Some a) as H by (intros d Hd; by apply input_slot).
  revert H. generalize (deps o). intros l H. induction l as [|d l IH]; [by exists []|].
  destruct (H d) as (a & Ha & Ha'); [list_mem|].
  destruct IH as (ins & Hi & Hi'); [intros e He; apply H; list_mem|].
  exists (a :: ins). cbn [py_map mapM]. rewrite Ha, Ha'. cbn [mbind res_bind option_bind].
  by rewrite Hi, Hi'.
Qed.

(** The successors of [s]. *)
Definition child s (ins : list STL) (c : STL) (e : Z) : BeamState STL :=
  mkState (assignments s ++ [c]) (cadd (cost s) (Some e)) (cadd (cadd (cost s) (Some e)) (future_of F (lname o) c)).

Lemma expand_spec f :
  inv done f ->
  exists next, expand (add_buf (lname o) f) (dget_or [] F (lname o)) o = Ok next
    /\ forall s', s' ∈ next <-> exists s ins c e, s ∈ states f
         /\ mapM (state_map (names done) s) (deps o) = Some ins
         /\ c ∈ layouts o /\ node_cost (restick_cost_fn o) ins c = Some e /\ s' = child s ins c e.
Proof.
  intros Hf. unfold expand. cbn [add_buf states].
  assert (forall s, s ∈ states f -> exists ins l,
    expand_state (add_buf (lname o) f) (dget_or [] F (lname o)) o s = Ok l
    /\ mapM (state_map (names done) s) (deps o) = Some ins
    /\ forall s', s' ∈ l <-> exists c e, c ∈ layouts o /\ node_cost (restick_cost_fn o) ins c = Some e
                             /\ s' = child s ins c e) as H.
  { intros s Hs. destruct (in_layouts_spec f s Hf (inv_sound _ _ Hf s Hs)) as (ins & Hi & Hm).
    unfold expand_state. rewrite Hi. cbn [mbind res_bind]. eexists ins, _.
    split_and!; [reflexivity | done |]. intros s'. rewrite list_elem_of_omap. split.
    - intros (c & Hc & He). destruct (node_cost _ ins c) as [e|] eqn:En; [|done]. injection He as <-.
      exists c, e. done.
    - intros (c & e & Hc & He & ->). exists c. split; [done|]. by rewrite He. }
  destruct (py_map_total (expand_state (add_buf (lname o) f) (dget_or [] F (lname o)) o) (states f))
    as [blocks Hb]; [intros s Hs; destruct (H s Hs) as (? & l & ? & _); eauto|].
  rewrite Hb. cbn [mbind res_bind]. eexists. split; [done|]. intros s'. rewrite list_elem_of_join.
  apply py_map_Ok in Hb. split.
  - intros (l & Hs' & Hl). apply list_elem_of_lookup in Hl as [i Hi].
    destruct (Forall2_lookup_r _ _ _ _ _ Hb Hi) as (s & Hs & Hl). apply list_elem_of_lookup_2 in Hs.
    destruct (H s Hs) as (ins & l' & Hl' & Hm & Hiff). assert (l' = l) as -> by congruence.
    apply Hiff in Hs' as (c & e & ? & ? & ?). exists s, ins, c, e. done.
  - intros (s & ins & c & e & Hs & Hm & Hc & He & ->).
    destruct (H s Hs) as (ins' & l' & Hl' & Hm' & Hiff). assert (ins' = ins) as -> by congruence.
    apply list_elem_of_lookup in Hs as [i Hi].
    destruct (Forall2_lookup_l _ _ _ _ _ Hb Hi) as (l & Hi' & Hl). assert (l' = l) as -> by congruence.
    exists l. split; [apply Hiff; eauto | by eapply list_elem_of_lookup_2].
Qed.

Lemma state_map_snoc s c d :
  length (assignments s) = length (names done) -> d <> lname o ->
  dget (zip (names (done ++ [o])) (assignments s ++ [c])) d = state_map (names done) s d.
Proof. intros Hl Hd. rewrite names_snoc. by apply dget_zip_snoc. Qed.

Lemma state_map_last s c :
  length (assignments s) = length (names done) ->
  dget (zip (names (done ++ [o])) (assignments s ++ [c])) (lname o) = Some c.
Proof.
  intros Hl. rewrite (dget_zip _ _ (length (names done))).
  - by rewrite list_lookup_middle.
  - apply names_NoDup.
  - rewrite names_snoc, (length_app (assignments s)), (length_app (names done)), Hl. done.
  - rewrite names_snoc. by apply list_lookup_middle.
Qed.

Lemma child_ok s ins c e :
  state_ok done s -> mapM (state_map (names done) s) (deps o) = Some ins -> c ∈ layouts o ->
  node_cost (restick_cost_fn o) ins c = Some e -> state_ok (done ++ [o]) (child s ins c e).
Proof.
  intros [Hl (k & [[Hleg Hin] Htot] & Hfol)] Hm Hc He. pose proof name_fresh as Hfresh.
  pose proof (follows_node (restick_cost_fn o) ins c) as Hnode. rewrite He in Hnode.
  destruct (follows_finite _ _ _ Hnode eq_refl) as (e' & He' & He0). rewrite He' in Hnode.
  assert (forall d, d ∈ names done ->
    state_map (names (done ++ [o])) (child s ins c e) d = state_map (names done) s d) as Hold.
  { intros d Hd. apply state_map_snoc; [done|]. by intros ->. }
  assert (state_map (names (done ++ [o])) (child s ins c e) (lname o) = Some c) as Hnew
    by by apply state_map_last.
  split; [rewrite names_snoc; cbn [child assignments]; rewrite !(length_app _ [_]), Hl; done|].
  exists (k + e'). split; [|exact (follows_add _ _ _ _ Hfol Hnode)]. split; [split|].
  - intros o' [Ho'| ->%list_elem_of_singleton]%elem_of_app; [|eauto].
    rewrite Hold; [by apply Hleg|]. apply elem_of_app. right. by apply list_elem_of_fmap_2.
  - intros n stl l Hn. rewrite Hold; [by eapply Hin|]. apply elem_of_app. left.
    apply list_elem_of_omap. by exists (n, Some (stl :: l)).
  - rewrite total_cost_snoc. cbn [child cost].
    rewrite (total_cost_ext _ (state_map (names done) s)), Htot.
    + unfold op_cost. rewrite (mapM_ext_in _ (state_map (names done) s)), Hm, Hnew.
      { cbn [mbind option_bind]. by rewrite He'. }
      intros d Hd. apply Hold. eapply dep_slot; [apply elem_of_app; right; list_mem | done].
    + intros o' d Ho' Hd. apply Hold. apply elem_of_cons in Hd as [->|Hd].
      * apply elem_of_app. right. by apply list_elem_of_fmap_2.
      * eapply dep_slot; [apply elem_of_app; by left | done].
Qed.

(** Two candidates of one live key have the same estimate. *)
Lemma same_future c c' :
  c ∈ layouts o -> c' ∈ layouts o ->
  (read_later ops (length done) (lname o) = true -> c = c') ->
  future_of F (lname o) c = future_of F (lname o) c'.
Proof.
  intros Hc Hc' Hlive.
  destruct (read_later ops (length done) (lname o)) eqn:E; [by rewrite (Hlive eq_refl)|].
  assert (forall d, d ∈ ops -> lname o ∉ deps d) as Hun.
  { intros d [j Hj]%list_elem_of_lookup Hd. pose proof (reader_after _ _ Hwf _ _ _ _ op_at Hj Hd).
    assert (read_later ops (length done) (lname o) = true); [|congruence].
    apply read_later_true. eauto. }
  by rewrite !(future_unread _ _ Hwf F o) by (done || apply HF, op_in).
Qed.

Notation mask := (live_mask lu (length done) (names (done ++ [o]))).

Lemma mask_lookup i n :
  names (done ++ [o]) !! i = Some n -> n ∈ lname <$> (done ++ [o]) ->
  mask !! i = Some (read_later ops (length done) n).
Proof.
  intros Hi Hn. unfold live_mask. rewrite list_lookup_fmap, Hi. cbn [fmap option_fmap option_map].
  f_equal. apply is_live_spec; [done|]. rewrite Hops, fmap_app, fmap_cons.
  rewrite fmap_app in Hn. cbn in Hn |- *. rewrite elem_of_app in Hn |- *. rewrite elem_of_cons.
  rewrite list_elem_of_singleton in Hn. tauto.
Qed.

(** Equal keys mean equal live slots. *)
Lemma same_key s t i n :
  state_ok (done ++ [o]) s -> state_ok (done ++ [o]) t -> live_key mask s = live_key mask t ->
  names (done ++ [o]) !! i = Some n -> n ∈ lname <$> (done ++ [o]) ->
  read_later ops (length done) n = true -> assignments s !! i = assignments t !! i.
Proof.
  intros [Hs _] [Ht _] Hk Hi Hn Hr. pose proof (mask_lookup i n Hi Hn) as Hm. rewrite Hr in Hm.
  apply lookup_lt_Some in Hi.
  destruct (lookup_lt_is_Some_2 (assignments s) i) as [a Ha]; [by rewrite Hs|].
  destruct (lookup_lt_is_Some_2 (assignments t) i) as [b Hb]; [by rewrite Ht|].
  apply (f_equal (.!! i)) in Hk. unfold live_key in Hk. rewrite !lookup_zip_with, Hm, Ha, Hb in Hk.
  cbn in Hk. congruence.
Qed.

Lemma names_last : names (done ++ [o]) !! length (names done) = Some (lname o).
Proof. rewrite names_snoc. by apply list_lookup_middle. Qed.

Lemma child_last s ins c e :
  state_ok done s -> assignments (child s ins c e) !! length (names done) = Some c.
Proof. intros [Hl _]. cbn [child assignments]. rewrite <- Hl. by apply list_lookup_middle. Qed.

(** A state that agrees on the live slots reads the same layouts. *)
Lemma inputs_agree s σ :
  state_ok done s -> agrees done σ s ->
  (forall n stl l, (n, Some (stl :: l)) ∈ inputs -> σ n = Some stl) ->
  mapM (state_map (names done) s) (deps o) = mapM σ (deps o).
Proof.
  intros (Hl & k & [[_ Hins] _] & _) Hag Hin. apply mapM_ext_in. intros d Hd.
  assert (d ∈ names done) as Hn by (eapply dep_slot; [apply elem_of_app; right; list_mem | done]).
  pose proof Hn as [i Hi]%list_elem_of_lookup. apply elem_of_app in Hn as [Hn|Hn].
  - apply list_elem_of_omap in Hn as ([n [l|]] & Hn & He'); [|done]. injection He' as ->.
    destruct l as [|stl l]; [by apply (wf_inputs _ _ Hwf) in Hn|].
    by rewrite (Hins d stl l Hn), (Hin d stl l Hn).
  - unfold state_map. rewrite (dget_zip _ _ i d names_done_NoDup Hl Hi). eapply Hag; [done | done|].
    exists (length done). split; [done|]. exists o. split; [apply op_at | done].
Qed.

(** The expansion covers every feasible assignment, and so does the merge. *)
Lemma expand_complete f next σ k :
  inv done f -> trimmed f = false ->
  (forall s', s' ∈ next <-> exists s ins c e, s ∈ states f
         /\ mapM (state_map (names done) s) (deps o) = Some ins
         /\ c ∈ layouts o /\ node_cost (restick_cost_fn o) ins c = Some e /\ s' = child s ins c e) ->
  feasible (done ++ [o]) inputs σ k -> exact_estimates F σ (done ++ [o]) ->
  exists t v, t ∈ merge mask next /\ cost t = Some v /\ v <= k /\ agrees (done ++ [o]) σ t.
Proof.
  intros Hf Htr Hnext [[Hleg Hin] Htot] Hexact. pose proof Htot as Htot'. rewrite total_cost_snoc in Htot.
  apply cadd_Some in Htot as (k1 & e & Hk1 & He & ->). unfold op_cost in He.
  destruct (mapM σ (deps o)) as [ins|] eqn:Hm; [|done]. cbn [mbind option_bind] in He.
  destruct (Hleg o) as (c & Hc & Hσ); [apply elem_of_app; right; list_mem|]. rewrite Hσ in He.
  cbn [mbind option_bind] in He.
  destruct (inv_complete _ _ Hf Htr σ k1) as (s & v & Hs & Hv & Hle & Hag).
  { split; [|done]. split; [|done]. intros o' Ho'. apply Hleg. apply elem_of_app. by left. }
  { by eapply exact_estimates_prefix. }
  destruct (Hexact done o [] c (k1 + e) eq_refl Hσ Htot') as (fut & Hfut & Hlt). pose proof (HFpos _ _ _ Hfut) as Hfut0.
  pose proof (inv_sound _ _ Hf s Hs) as Hok.
  assert (mapM (state_map (names done) s) (deps o) = Some ins) as Hms by (rewrite <- Hm; by apply inputs_agree).
  pose proof (follows_node (restick_cost_fn o) ins c) as Hnode. rewrite He in Hnode. pose proof Hnode as [He0 _].
  assert (0 <= v) as Hv0 by (destruct Hok as (_ & ? & _ & Hfol); exact (follows_nonneg _ _ Hfol v Hv)).
  apply follows_exact in Hnode; [|lia].
  set (s' := child s ins c e). assert (s' ∈ next) as Hs' by (apply Hnext; by exists s, ins, c, e).
  assert (cost s' = Some (v + e)) as Hcs.
  { cbn. rewrite Hv. apply follows_exact; [|lia]. exact (follows_add (Some v) (Some e) (Some v) (Some e) (follows_whole v Hv0) (follows_whole e He0)). }
  destruct (merge_dominates mask next s' Hs') as (t & Ht & Hkey & Hlb).
  pose proof (elem_of_merge _ _ _ Ht) as Htn. apply Hnext in Htn as (u & ins' & c' & e' & Hu & Hmu & Hc' & He' & ->).
  pose proof (child_ok s ins c e Hok Hms Hc Hnode) as Hsok.
  pose proof (child_ok u ins' c' e' (inv_sound _ _ Hf u Hu) Hmu Hc' He') as Htok.
  assert (exists v', cost (child u ins' c' e') = Some v' /\ v' <= v + e) as (v' & Hv' & Hle').
  { assert (future_of F (lname o) c' = Some fut) as Hfut'.
    { rewrite <- Hfut. apply same_future; [done | done |]. intros Hr.
      pose proof (same_key _ _ _ _ Htok Hsok Hkey names_last ltac:(rewrite fmap_app; apply elem_of_app; right; list_mem) Hr) as Hsame.
      rewrite !child_last in Hsame; [congruence | done | by apply (inv_sound _ _ Hf)]. }
    destruct Htok as (_ & k' & _ & Hfol). apply (lower_cost _ _ fut); [by eapply follows_nonneg | lia | done | lia |].
    rewrite <- Hfut' at 1. rewrite <- Hcs, <- Hfut. exact Hlb. }
  exists (child u ins' c' e'), v'. split_and!; [done | done | lia |].
  - intros i n Hi Hn (j & Hj & Hr). rewrite length_app in Hj. cbn in Hj.
    assert (read_later ops (length done) n = true) as Hrl.
    { destruct Hr as (d & Hd & ?). apply read_later_true. exists j, d. split_and!; [lia | done | done]. }
    rewrite (same_key _ _ _ _ Htok Hsok Hkey Hi Hn Hrl). cbn [s' child assignments].
    rewrite names_snoc in Hi. destruct Hok as [Hl _].
    apply lookup_app_Some in Hi as [Hi|[Hge Hi]].
    + rewrite lookup_app_l by (rewrite Hl; by eapply lookup_lt_Some).
      eapply Hag; [done | |exists j; split; [lia | done]].
      rewrite fmap_app in Hn. apply elem_of_app in Hn as [?|Hn%list_elem_of_singleton]; [done|].
      exfalso. subst. apply name_fresh. by eapply list_elem_of_lookup_2.
    + apply list_lookup_singleton_Some in Hi as [Hi <-].
      rewrite lookup_app_r by (rewrite Hl; lia). rewrite Hσ, Hl. by rewrite Hi.
Qed.

(** One step of the loop: the merged states, or the error when there are none. *)
Lemma beam_step_spec K f :
  inv done f ->
  exists next, (forall s', s' ∈ next <-> exists s ins c e, s ∈ states f
         /\ mapM (state_map (names done) s) (deps o) = Some ins
         /\ c ∈ layouts o /\ node_cost (restick_cost_fn o) ins c = Some e /\ s' = child s ins c e)
    /\ beam_step K F (step_of ops) lu o f =
       (let f' := trim K (with_states (merge mask next) (add_buf (lname o) f)) in
        if bool_decide (states f' = []) then Raise NotImplementedError else Ok f').
Proof.
  intros Hf. destruct (expand_spec f Hf) as (next & He & Hnext). exists next. split; [done|].
  unfold beam_step, dgetitem. rewrite (proj2 (step_of_spec _ _ Hwf (lname o) (length done))) by (exists o; split; [apply op_at | done]).
  cbn [mbind res_bind]. rewrite He. cbn [mbind res_bind].
  assert (buf_names (add_buf (lname o) f) = names (done ++ [o])) as ->.
  { cbn [add_buf buf_names]. by rewrite (inv_names _ _ Hf), names_snoc. }
  cbn zeta. destruct (bool_decide _); done.
Qed.

Lemma beam_step_inv K f f' :
  inv done f -> beam_step K F (step_of ops) lu o f = Ok f' -> inv (done ++ [o]) f'.
Proof.
  intros Hf Hstep. destruct (beam_step_spec K f Hf) as (next & Hnext & Hb). rewrite Hstep in Hb.
  cbn zeta in Hb. destruct (bool_decide _); [done|]. injection Hb as ->. split.
  - cbn. by rewrite (inv_names _ _ Hf), names_snoc.
  - intros i n Hi. cbn. rewrite dget_dset. rewrite names_snoc in Hi. rewrite (inv_names _ _ Hf).
    apply lookup_app_Some in Hi as [Hi|[Hge Hi]].
    + rewrite decide_False; [by apply (inv_idx _ _ Hf)|]. intros ->. apply name_fresh. by eapply list_elem_of_lookup_2.
    + apply list_lookup_singleton_Some in Hi as [Hi <-]. rewrite decide_True by done. f_equal. lia.
  - intros s Hs%elem_of_trim. cbn [with_states states] in Hs. apply elem_of_merge, Hnext in Hs.
    destruct Hs as (s0 & ins & c & e & Hs0 & Hm & Hc & He & ->). apply child_ok; [by apply (inv_sound _ _ Hf) | done..].
  - intros [Ht Hall]%trim_all σ k Hfeas Hexact. cbn [with_states trimmed add_buf states] in Ht, Hall.
    destruct (expand_complete f next σ k Hf Ht Hnext Hfeas Hexact) as (t & v & Hin & Hv & Hle & Hag).
    exists t, v. split_and!; [by apply Hall | done | done | done].
Qed.

(** *** How many states a step can keep *)

Lemma length_cartesian {A} (ls : list (list A)) :
  Z.of_nat (length (cartesian ls)) = zprod ((fun l => Z.of_nat (length l)) <$> ls).
Proof.
  induction ls as [|l ls IH]; [done|]. cbn [cartesian fmap list_fmap].
  change (zprod (Z.of_nat (length l) :: ((fun l => Z.of_nat (length l)) <$> ls)))
    with (Z.of_nat (length l) * zprod ((fun l => Z.of_nat (length l)) <$> ls)). rewrite <- IH. clear IH.
  induction l as [|x l IHl]; [done|]. cbn [mbind list_bind length]. rewrite length_app, Nat2Z.inj_add, IHl.
  assert (length (c ← cartesian ls; [x :: c]) = length (cartesian ls)) as ->; [|lia].
  clear. induction (cartesian ls) as [|c cs IH]; [done|]. cbn [mbind list_bind length app]. by f_equal.
Qed.

(** The keys a step can have, slot by slot. *)
Definition slot_keys : list (list (option STL)) :=
  ((fun _ => [None]) <$> nin) ++
  ((fun o' => if read_later ops (length done) (lname o') then Some <$> layouts o' else [None])
     <$> (done ++ [o])).

Lemma live_key_slots s : state_ok (done ++ [o]) s -> live_key mask s ∈ cartesian slot_keys.
Proof.
  intros [Hl (k0 & [[Hleg Hin] _] & _)]. apply elem_of_cartesian. unfold slot_keys, live_key.
  apply Forall2_same_length_lookup. rewrite length_zip_with, Hl. unfold live_mask.
  rewrite !length_fmap, !length_app, !length_fmap. split; [rewrite length_app; lia|].
  intros i k ks Hk Hks. apply lookup_zip_with_Some in Hk as (b & a & -> & Hb & Ha).
  rewrite list_lookup_fmap in Hb. apply fmap_Some in Hb as (n & Hn & ->).
  pose proof Hn as Hn'. apply lookup_app_Some in Hn as [Hn|[Hge Hn]].
  - rewrite lookup_app_l in Hks by (rewrite length_fmap; by eapply lookup_lt_Some).
    rewrite list_lookup_fmap, Hn in Hks. injection Hks as <-.
    rewrite (is_live_input ops), list_elem_of_singleton; [done | done |].
    intros (o' & -> & Ho')%list_elem_of_fmap. apply (wf_not_input _ _ Hwf o' Ho').
    by eapply list_elem_of_lookup_2.
  - rewrite lookup_app_r, length_fmap, list_lookup_fmap in Hks by (by rewrite length_fmap).
    rewrite list_lookup_fmap in Hn. apply fmap_Some in Hn as (o' & Ho' & ->).
    rewrite Ho' in Hks. injection Hks as <-. apply list_elem_of_lookup_2 in Ho'.
    pose proof (mask_lookup i (lname o') Hn' ltac:(by apply list_elem_of_fmap_2)) as Hm.
    unfold live_mask in Hm. rewrite list_lookup_fmap, Hn' in Hm. injection Hm as ->.
    destruct (read_later _ _ _); [|apply list_elem_of_here]. destruct (Hleg o' Ho') as (stl & Hstl & Hmap).
    unfold state_map in Hmap. rewrite (dget_zip _ _ i _ names_NoDup Hl Hn'), Ha in Hmap.
    injection Hmap as ->. by apply list_elem_of_fmap_2.
Qed.

(** The product of the candidates of the buffers still to be read. *)
Definition live_width (t : nat) : Z :=
  zprod ((fun o' => if read_later ops t (lname o') then Z.of_nat (length (layouts o')) else 1)
           <$> take (S t) ops).

Lemma slot_keys_length : Z.of_nat (length (cartesian slot_keys)) = live_width (length done).
Proof.
  rewrite length_cartesian. unfold slot_keys, live_width.
  rewrite fmap_app, zprod_app. rewrite <- !list_fmap_compose.
  assert (zprod (((fun l : list (option STL) => Z.of_nat (length l)) ∘ (fun _ => [None])) <$> nin) = 1) as ->.
  { induction nin as [|n l IH]; [done|]. cbn [fmap list_fmap].
    change (zprod (?x :: ?l)) with (x * zprod l). unfold zprod in *. cbn [foldr]. rewrite IH. done. }
  rewrite Z.mul_1_l. f_equal.
  replace (take (S (length done)) ops) with (done ++ [o]).
  - apply list_fmap_ext. intros i o' _. cbn [compose]. destruct (read_later _ _ _); [by rewrite length_fmap | done].
  - rewrite Hops, (app_assoc done [o] rest : done ++ o :: rest = _), take_app_length'; [done|].
    rewrite length_app. cbn. lia.
Qed.

Lemma merge_width f next :
  inv done f ->
  (forall s', s' ∈ next <-> exists s ins c e, s ∈ states f
         /\ mapM (state_map (names done) s) (deps o) = Some ins
         /\ c ∈ layouts o /\ node_cost (restick_cost_fn o) ins c = Some e /\ s' = child s ins c e) ->
  Z.of_nat (length (merge mask next)) <= live_width (length done).
Proof.
  intros Hf Hnext. rewrite <- slot_keys_length, <- (length_fmap (live_key mask)).
  apply inj_le, submseteq_length, NoDup_submseteq; [apply merge_keys|].
  intros k (s & -> & Hs)%list_elem_of_fmap. apply live_key_slots.
  apply elem_of_merge, Hnext in Hs as (s0 & ins & c & e & Hs0 & Hm & Hc & He & ->).
  apply child_ok; [by apply (inv_sound _ _ Hf) | done..].
Qed.

(** While the live buffers fit the beam nothing is trimmed and the step succeeds
    for as long as some assignment is feasible. *)
Lemma beam_step_fits K f :
  inv done f -> trimmed f = false -> live_width (length done) <= Z.of_nat K ->
  (exists σ k, feasible (done ++ [o]) inputs σ k /\ exact_estimates F σ (done ++ [o])) ->
  exists f', beam_step K F (step_of ops) lu o f = Ok f' /\ trimmed f' = false.
Proof.
  intros Hf Ht HK (σ & k & Hfeas & Hexact). destruct (beam_step_spec K f Hf) as (next & Hnext & ->).
  pose proof (merge_width f next Hf Hnext) as Hw.
  destruct (expand_complete f next σ k Hf Ht Hnext Hfeas Hexact) as (t & v & Hin & _).
  cbn zeta. rewrite bool_decide_false.
  - eexists. split; [done|]. unfold trim. cbn [trimmed with_states add_buf states]. rewrite Ht. cbn [orb]. apply Nat.ltb_ge. rewrite length_py_sorted. lia.
  - apply trim_nonempty.
    + destruct (merge mask next) as [|x l]; [by apply elem_of_nil in Hin|]. cbn in Hw. lia.
    + cbn. intros E. rewrite E in Hin. by apply elem_of_nil in Hin.
Qed.

Lemma beam_step_error K f e :
  inv done f -> beam_step K F (step_of ops) lu o f = Raise e -> e = NotImplementedError.
Proof.
  intros Hf. destruct (beam_step_spec K f Hf) as (next & Hnext & ->). cbn zeta.
  destruct (bool_decide _); congruence.
Qed.

End beam.

(** ** The whole search *)

Section search_theorems.
Context {STL : Type} `{R : StickRules STL}.
Implicit Types (inputs : list (string * option (list STL))) (ops : list (lop STL)).

Definition first_layouts inputs : list STL :=
  omap (fun gi : string * option (list STL) => match gi.2 with Some (stl :: _) => Some stl | _ => None end) inputs.

Lemma length_first_layouts inputs :
  (forall n l, (n, Some l) ∈ inputs -> l <> []) ->
  length (first_layouts inputs) = length (input_names inputs).
Proof.
  induction inputs as [|[n [l|]] inputs IH]; intros H; [done | |].
  - unfold first_layouts, input_names in *. cbn [omap list_omap snd fst].
    destruct l as [|stl l]; [by destruct (H n [] ltac:(list_mem))|]. cbn [length]. f_equal.
    apply IH. intros m k Hm. eapply H. by apply list_elem_of_further.
  - apply IH. intros m k Hm. eapply H. by apply list_elem_of_further.
Qed.

Lemma first_layouts_get inputs n stl l :
  (forall n l, (n, Some l) ∈ inputs -> l <> []) -> NoDup (input_names inputs) ->
  (n, Some (stl :: l)) ∈ inputs -> dget (zip (input_names inputs) (first_layouts inputs)) n = Some stl.
Proof.
  induction inputs as [|[m [k|]] inputs IH]; intros H Hnd Hin; [by apply elem_of_nil in Hin | |].
  - unfold first_layouts, input_names in *. cbn [omap list_omap snd fst] in *.
    destruct k as [|stl' k]; [by destruct (H m [] ltac:(list_mem))|]. cbn [zip zip_with dget].
    apply NoDup_cons in Hnd as [Hm Hnd]. apply elem_of_cons in Hin as [[= -> -> ->]|Hin].
    + by rewrite decide_True.
    + rewrite decide_False; [apply IH; [|done|done]; intros m' k' Hm'; eapply H; by apply list_elem_of_further|].
      intros ->. apply Hm, list_elem_of_omap. by exists (m, Some (stl :: l)).
  - apply elem_of_cons in Hin as [[=]|Hin]. apply IH; [|done|done].
    intros m' k' Hm'. eapply H. by apply list_elem_of_further.
Qed.

Lemma seed_loop inputs :
  (forall n l, (n, Some l) ∈ inputs -> l <> []) -> NoDup (input_names inputs) ->
  exists f lb, for_each seed_input inputs new_frontier = Ok f
    /\ buf_names f = input_names inputs
    /\ (forall i n, input_names inputs !! i = Some n -> dget (buf_idx f) n = Some i)
    /\ states f = [mkState (first_layouts inputs) (Some 0) lb] /\ trimmed f = false.
Proof.
  induction inputs as [|[n l] inputs IH] using rev_ind; intros H Hnd.
  - exists new_frontier, (Some 0). split_and!; [done.. | by intros i n Hi | done | done].
  - unfold input_names, first_layouts in *. rewrite omap_app in *.
    apply NoDup_app in Hnd as (Hnd & Hdis & _).
    destruct IH as (f & lb & Hf & Hn & Hidx & Hs & Ht); [|done|].
    { intros m k Hm. eapply H. apply elem_of_app. by left. }
    rewrite for_each_app, Hf. cbn [mbind res_bind for_each]. rewrite omap_app. cbn [omap list_omap snd fst] in *.
    unfold seed_input. cbn [snd fst]. destruct l as [l|].
    + destruct l as [|stl l].
      { exfalso. eapply (H n []); [apply elem_of_app; right; list_mem | done]. }
      cbn [mbind res_bind]. eexists _, (Some 0). split; [reflexivity|]. cbn [with_states add_buf buf_names buf_idx states trimmed].
      rewrite Hs, Hn. cbn [fmap list_fmap assignments cost]. split_and!; [done | | done | done].
      intros i m Hi. rewrite dget_dset. apply lookup_app_Some in Hi as [Hi|[Hge Hi]].
      * rewrite decide_False; [by apply Hidx|]. intros ->. apply (Hdis n); [by eapply list_elem_of_lookup_2 | list_mem].
      * apply list_lookup_singleton_Some in Hi as [Hi <-]. rewrite decide_True by done. f_equal. lia.
    + rewrite !app_nil_r. eauto 10.
Qed.

Lemma seed_spec ops inputs F :
  wf_graph ops inputs ->
  exists f, seed_frontier F inputs = Ok f /\ inv ops inputs F [] f /\ trimmed f = false /\ states f <> [].
Proof.
  intros Hwf. pose proof (wf_names _ _ Hwf) as (Hnd & _)%NoDup_app.
  destruct (seed_loop inputs (wf_inputs _ _ Hwf) Hnd) as (f & lb & Hf & Hn & Hidx & Hs & Ht).
  unfold seed_frontier. rewrite Hf. cbn [mbind res_bind]. eexists. split; [reflexivity|].
  split; [|split; [by cbn | by rewrite Hs]]. rewrite Hs. cbn [fmap list_fmap assignments cost].
  assert (legal (dget (zip (input_names inputs) (first_layouts inputs))) [] inputs) as Hleg.
  { split; [by intros o ?%elem_of_nil|]. intros n stl l Hin.
    by apply (first_layouts_get _ _ _ _ (wf_inputs _ _ Hwf) Hnd Hin). }
  split; cbn [with_states buf_names buf_idx states trimmed fmap list_fmap]; rewrite ?app_nil_r.
  - done.
  - exact Hidx.
  - intros s ->%list_elem_of_singleton. split; cbn [fmap list_fmap assignments cost]; rewrite app_nil_r.
    + by apply length_first_layouts, (wf_inputs _ _ Hwf).
    + exists 0. split; [split; [exact Hleg | done] | apply follows_0].
  - intros _ σ k [_ Hk] _. injection Hk as <-. eexists _, 0. split; [apply list_elem_of_here|].
    split_and!; [done | done |]. intros i n _ ?%elem_of_nil. done.
Qed.

(** The frontier's best state is one of least cost. *)
Lemma best_spec (f : Frontier STL) b :
  best f = Ok b -> b ∈ states f /\ forall s, s ∈ states f -> saturated (cost b) <= saturated (cost s).
Proof.
  unfold best. destruct (states f) as [|s l]; [done|]. intros [= <-].
  induction l as [|t l IH] using rev_ind.
  - split; [list_mem|]. intros x [->|?%elem_of_nil]%elem_of_cons; [cbn; lia | done].
  - rewrite foldl_app. cbn [foldl]. set (b := foldl _ s l) in *. destruct IH as [Hin Hmin].
    rewrite app_comm_cons. destruct (clt (cost t) (cost b)) eqn:E; [apply clt_saturated_lt in E | apply clt_saturated in E].
    + split; [apply elem_of_app; right; list_mem|].
      intros x [Hx| ->%list_elem_of_singleton]%elem_of_app; [|lia]. specialize (Hmin x Hx). lia.
    + split; [apply elem_of_app; by left|].
      intros x [Hx| ->%list_elem_of_singleton]%elem_of_app; [by apply Hmin | lia].
Qed.

Lemma best_total (f : Frontier STL) : states f <> [] -> exists b, best f = Ok b.
Proof. unfold best. destruct (states f); [done | eauto]. Qed.

(** The parts of the search, all present on a well-formed graph. *)
Lemma search_setup operations inputs K :
  wf_graph (planned operations) inputs ->
  let ops := planned (_reorder_any_in_nodes operations) in
  wf_graph ops inputs /\ ops ≡ₚ planned operations
  /\ exists F lu f0, compute_future_min_cost ops = Ok F /\ (forall o, o ∈ ops -> bellman ops F o) /\ uses_ok ops (read_at ops) lu
       /\ inv ops inputs F [] f0 /\ trimmed f0 = false /\ states f0 <> []
       /\ beam_search K operations inputs = for_each (beam_step K F (step_of ops) lu) ops f0.
Proof.
  intros Hwf0 ops. pose proof (wf_graph_reorder _ _ Hwf0 : wf_graph ops inputs) as Hwf.
  split; [done|]. split; [unfold ops, planned; by rewrite reorder_perm|].
  destruct (compute_future_spec ops inputs Hwf) as (F & HFe & HF).
  destruct (last_use_spec ops inputs Hwf) as (lu & Hlue & Hlu).
  destruct (seed_spec ops inputs F Hwf) as (f0 & Hf0 & Hinv & Ht & Hne).
  exists F, lu, f0. split_and!; [done.. |]. unfold beam_search. fold ops. rewrite HFe. cbn [mbind res_bind].
  rewrite Hlue. cbn [mbind res_bind]. rewrite Hf0. done.
Qed.

Lemma inv_final ops inputs F lu K f0 f :
  wf_graph ops inputs -> (forall o, o ∈ ops -> bellman ops F o) -> (forall n e, nonneg (future_of F n e)) -> uses_ok ops (read_at ops) lu ->
  inv ops inputs F [] f0 -> for_each (beam_step K F (step_of ops) lu) ops f0 = Ok f ->
  inv ops inputs F ops f.
Proof.
  intros Hwf HF HFpos Hlu H0 Hrun.
  apply (for_each_ind (beam_step K F (step_of ops) lu) (fun done f => inv ops inputs F done f) ops f0 f); [|done|done].
  intros done o rest f1 f2 Hs Hf1 Hstep. by apply (beam_step_inv ops inputs Hwf F HF HFpos lu Hlu done o rest Hs K f1 f2).
Qed.

Lemma commit_map (names : list string) (s : BeamState STL) n :
  NoDup names -> length (assignments s) = length names ->
  dget (dupdate [] (zip names (assignments s))) n = state_map names s n.
Proof.
  intros Hnd Hl. rewrite dupdate_nil; [done|]. unfold dkeys. by rewrite fst_zip by lia.
Qed.

Lemma feasible_prefix done rest inputs σ k :
  feasible (done ++ rest) inputs σ k -> exists k', feasible done inputs σ k'.
Proof.
  intros [[Hleg Hin] Htot]. unfold total_cost in Htot. rewrite fmap_app, csum_app in Htot.
  apply cadd_Some in Htot as (a & b & Ha & Hb & _). exists a. split; [|done]. split; [|done].
  intros o Ho. apply Hleg, elem_of_app. by left.
Qed.

(** The loop stays non-empty, raises only the one error, and within the bound on
    the live buffers runs to the end without trimming. *)
Lemma run_nonempty ops F lu f0 f K :
  states f0 <> [] -> for_each (beam_step K F (step_of ops) lu) ops f0 = Ok f -> states f <> [].
Proof.
  intros H0 Hrun.
  apply (for_each_ind (beam_step K F (step_of ops) lu) (fun _ f => states f <> []) ops f0 f); [|done|done].
  intros done o rest f1 f2 _ _ Hstep. unfold beam_step in Hstep. inv_res. by case_bool_decide.
Qed.

Lemma run_error ops inputs F lu f0 K e :
  wf_graph ops inputs -> (forall o, o ∈ ops -> bellman ops F o) -> (forall n e, nonneg (future_of F n e)) -> uses_ok ops (read_at ops) lu ->
  inv ops inputs F [] f0 -> for_each (beam_step K F (step_of ops) lu) ops f0 = Raise e ->
  e = NotImplementedError.
Proof.
  intros Hwf HF HFpos Hlu H0.
  assert (forall rest pre f, ops = pre ++ rest -> inv ops inputs F pre f ->
    for_each (beam_step K F (step_of ops) lu) rest f = Raise e -> e = NotImplementedError) as Hgen.
  { induction rest as [|o rest IH]; intros pre f Hs Hf; [done|]. cbn [for_each].
    destruct (beam_step K F (step_of ops) lu o f) as [f'|e'] eqn:E; cbn [mbind res_bind].
    - apply (IH (pre ++ [o])); [by rewrite <- app_assoc|].
      by apply (beam_step_inv ops inputs Hwf F HF HFpos lu Hlu pre o rest Hs K f f').
    - intros [= ->]. by apply (beam_step_error ops inputs Hwf F lu pre o rest Hs K f e). }
  by apply (Hgen ops []).
Qed.

Lemma run_fits ops inputs F lu f0 K :
  wf_graph ops inputs -> (forall o, o ∈ ops -> bellman ops F o) -> (forall n e, nonneg (future_of F n e)) -> uses_ok ops (read_at ops) lu ->
  inv ops inputs F [] f0 -> trimmed f0 = false ->
  (forall t, (t < length ops)%nat -> live_width ops t <= Z.of_nat K) ->
  (exists σ k, feasible ops inputs σ k /\ exact_estimates F σ ops) ->
  exists f, for_each (beam_step K F (step_of ops) lu) ops f0 = Ok f
    /\ inv ops inputs F ops f /\ trimmed f = false.
Proof.
  intros Hwf HF HFpos Hlu H0 Ht HK (σ & k & Hfeas & Hexact).
  apply (for_each_total (beam_step K F (step_of ops) lu)
           (fun done f => inv ops inputs F done f /\ trimmed f = false)); [|done].
  intros pre o rest f1 Hs [Hf1 Ht1].
  destruct (beam_step_fits ops inputs Hwf F HF HFpos lu Hlu pre o rest Hs K f1) as (f2 & Hf2 & Ht2); [done | done | | |].
  - apply HK. rewrite Hs, length_app. cbn. lia.
  - rewrite Hs, (app_assoc pre [o] rest : pre ++ o :: rest = _) in Hfeas.
    destruct (feasible_prefix _ _ _ _ _ Hfeas) as [k' ?]. exists σ, k'. split; [done|].
    intros pre' o' suf c k1 E. apply (Hexact pre' o' (suf ++ rest)).
    rewrite Hs, (app_assoc pre [o] rest : pre ++ o :: rest = _), E, <- app_assoc. done.
  - exists f2. split_and!; [done | | done].
    by apply (beam_step_inv ops inputs Hwf F HF HFpos lu Hlu pre o rest Hs K f1 f2).
Qed.

Lemma commit_feasible ops inputs F f b :
  wf_graph ops inputs -> inv ops inputs F ops f -> b ∈ states f ->
  exists k, feasible ops inputs (dget (dupdate [] (zip (buf_names f) (assignments b)))) k /\ follows (cost b) (Some k).
Proof.
  intros Hwf Hf Hb. destruct (inv_sound _ _ _ _ _ Hf b Hb) as [Hl (k & [[Hleg Hin] Htot] & Hfol)].
  exists k. split; [|done]. rewrite (inv_names _ _ _ _ _ Hf).
  pose proof (wf_names _ _ Hwf) as Hnd.
  assert (forall n, dget (dupdate [] (zip (input_names inputs ++ (lname <$> ops)) (assignments b))) n
                    = state_map (input_names inputs ++ (lname <$> ops)) b n) as Hmap
    by (intros n; by apply commit_map).
  split; [split|].
  - intros o Ho. rewrite Hmap. by apply Hleg.
  - intros n stl l Hn. rewrite Hmap. by eapply Hin.
  - rewrite <- Htot. apply total_cost_ext. intros; apply Hmap.
Qed.

(** A total is below [EXACT] where its estimates are. *)
Lemma final_below F σ (ops : list (lop STL)) k :
  total_cost σ ops = Some k -> (forall n e, nonneg (future_of F n e)) -> (forall o, o ∈ ops -> exists c, σ (lname o) = Some c) -> exact_estimates F σ ops -> k < EXACT.
Proof.
  intros Hk HF Hσ Hex. destruct ops as [|o ops _] using rev_ind; [by injection Hk as <-|].
  destruct (Hσ o) as [c Hc]; [apply elem_of_app; right; list_mem|].
  destruct (Hex ops o [] c k eq_refl Hc Hk) as (f & Hf & Hlt). specialize (HF _ _ _ Hf). lia.
Qed.

(** What [beam_global_min_cost] commits is legal and costs what it says: on a
    graph whose producers come before their readers, every operation gets one of
    its candidate layouts, every graph input its first one, and the committed
    assignment has a finite restickify cost, that is, no edge it leaves is
    infeasible.  Only the error for an infeasible graph can be raised. *)
Theorem beam_commits_feasible operations inputs :
  wf_graph (planned operations) inputs ->
  match beam_global_min_cost operations inputs with
  | Ok c => exists k, feasible (planned operations) inputs (dget c) k
  | Raise e => e = NotImplementedError
  end.
Proof.
  intros Hwf0. destruct (search_setup operations inputs BEAM_WIDTH Hwf0)
    as (Hwf & Hp & F & lu & f0 & HFe & HF & Hlu & H0 & Ht & Hne & Hrun).
  pose proof (compute_future_nonneg _ _ HFe) as HFpos.
  unfold beam_global_min_cost. rewrite Hrun. clear Hrun.
  set (ops := planned (_reorder_any_in_nodes operations)) in *.
  destruct (for_each (beam_step BEAM_WIDTH F (step_of ops) lu) ops f0) as [f|e] eqn:E; cbn [mbind res_bind].
  - pose proof (inv_final _ _ _ _ _ _ _ Hwf HF HFpos Hlu H0 E) as Hf.
    destruct (best f) as [b|e] eqn:Eb; cbn [mbind res_bind].
    + destruct (commit_feasible ops inputs F f b Hwf Hf) as (k & Hk & _); [by apply best_spec|].
      exists k. by rewrite <- (feasible_perm ops).
    + exfalso. destruct (best_total f) as [b Hb]; [|congruence]. by apply (run_nonempty ops F lu f0 f BEAM_WIDTH).
  - by apply (run_error ops inputs F lu f0 BEAM_WIDTH).
Qed.

(** C33. The layout search is exact while it fits its beam and its floats. Every sum and
    comparison of costs is one of doubles, as in the code. On a well-formed graph (distinct
    names, inputs with a layout, producers before their readers, nodes built by their
    constructors) where after every step the candidates of the buffers still to be read have at
    most BEAM_WIDTH combinations, and where some feasible assignment has, at every operation, a
    cost so far plus backward estimate below 2^53, the search returns; the assignment it commits
    is legal with a finite cost, and no feasible assignment whose costs plus estimates stay
    below 2^53 costs less. Beyond 2^53 the bounds of different states round to the same float
    and the cheaper state can be lost (merge_ties). *)
Theorem beam_optimal operations inputs F :
  wf_graph (planned operations) inputs ->
  (forall t, (t < length (planned operations))%nat ->
     live_width (planned (_reorder_any_in_nodes operations)) t <= Z.of_nat BEAM_WIDTH) ->
  compute_future_min_cost (planned (_reorder_any_in_nodes operations)) = Ok F ->
  (exists σ k, feasible (planned operations) inputs σ k /\
     exact_estimates F σ (planned (_reorder_any_in_nodes operations))) ->
  exists c k, beam_global_min_cost operations inputs = Ok c
    /\ feasible (planned operations) inputs (dget c) k
    /\ forall σ k', feasible (planned operations) inputs σ k' ->
         exact_estimates F σ (planned (_reorder_any_in_nodes operations)) -> k <= k'.
Proof.
  intros Hwf0 Hw HF' (σ0 & k0 & Hfeas & Hex0). destruct (search_setup operations inputs BEAM_WIDTH Hwf0)
    as (Hwf & Hp & F0 & lu & f0 & HFe & HF & Hlu & H0 & Ht & Hne & Hrun). rewrite HF' in HFe. injection HFe as <-.
  pose proof (compute_future_nonneg _ _ HF') as HFpos.
  rewrite <- (feasible_perm (planned (_reorder_any_in_nodes operations))) in Hfeas by done.
  set (ops := planned (_reorder_any_in_nodes operations)) in *.
  destruct (run_fits ops inputs F lu f0 BEAM_WIDTH) as (f & Hf & Hfinv & Hft); [done.. | intros t Hlt; apply Hw; by rewrite <- Hp | eauto |].
  destruct (inv_complete _ _ _ _ _ Hfinv Hft σ0 k0 Hfeas Hex0) as (s0 & v0 & Hs0 & _).
  destruct (best_total f) as [b Hb]; [intros E; rewrite E in Hs0; by apply elem_of_nil in Hs0|].
  destruct (best_spec f b Hb) as [Hbin Hbmin].
  destruct (commit_feasible ops inputs F f b Hwf Hfinv Hbin) as (k & Hk & _ & Hsat & _).
  exists (dupdate [] (zip (buf_names f) (assignments b))), k. split_and!.
  - unfold beam_global_min_cost. rewrite Hrun, Hf. cbn [mbind res_bind]. by rewrite Hb.
  - by rewrite <- (feasible_perm ops).
  - intros σ k'. rewrite <- (feasible_perm ops) by done. intros Hσ Hex.
    destruct (inv_complete _ _ _ _ _ Hfinv Hft σ k' Hσ Hex) as (s & v & Hs & Hv & Hle & _).
    specialize (Hbmin s Hs). rewrite Hv, Hsat in Hbmin. cbn in Hbmin.
    pose proof (final_below F σ ops k' (proj2 Hσ) HFpos (fun o Ho => let '(ex_intro _ c H) := proj1 (proj1 Hσ) o Ho in ex_intro _ c (proj2 H)) Hex). lia.
Qed.

End search_theorems.

(** ** When the backward estimate is a lower bound *)

Section estimate.
Context {STL : Type} `{R : StickRules STL}.
#[local] Existing Instance exact.
Context (ops : list (lop STL)) (inputs : list (string * option (list STL))).
Context (Hwf : wf_graph ops inputs).
Context (F : dict (list (STL * ecost))) (HF : forall o, o ∈ ops -> bellman ops F o).

(** The layouts an edge was built with are those of the buffer it reads. *)
Definition edges_cover : Prop :=
  forall o ec stl σ, o ∈ ops -> ec ∈ edge_costs (restick_cost_fn o) -> legal σ ops inputs ->
    σ (dep_name (ec_dep ec)) = Some stl -> stl ∈ ec_in_layouts ec.

(** Every buffer has at most one reader. *)
Definition single_readers : Prop :=
  forall o, o ∈ ops -> (length (filter (fun d => lname o ∈ deps d) ops) <= 1)%nat.

Lemma best_through_le name c d b x e v :
  best_through F name c d = Ok b -> x ∈ layouts d ->
  min_input_cost (restick_cost_fn d) name c x = Ok (Some e) -> future_of F (lname d) x = Some v ->
  exists w, b = Some w /\ w <= e + v.
Proof.
  unfold best_through. intros Hb Hx He Hv. apply bind_Ok in Hb as (u & Hu & Hb).
  cut (exists w, u = Some w /\ w <= e + v); [by intros (w & -> & Hw); injection Hb as <-; exists w|]. clear Hb b.
  cut (forall y e' v', y ∈ layouts d -> min_input_cost (restick_cost_fn d) name c y = Ok (Some e') -> future_of F (lname d) y = Some v' ->
    exists w, u = Some w /\ w <= e' + v'); [by eauto|].
  refine (for_each_ind _ (fun pre (u : ecost) => forall y e' v', y ∈ pre ->
    min_input_cost (restick_cost_fn d) name c y = Ok (Some e') -> future_of F (lname d) y = Some v' ->
    exists w, u = Some w /\ w <= e' + v') _ _ _ _ _ Hu); [|by intros y e' v' ?%elem_of_nil].
  intros pre y rest u1 u2 _ Hpre Hstep z e' v' Hz He' Hv'. apply bind_Ok in Hstep as (e1 & He1 & Hstep).
  apply elem_of_app in Hz as [Hz|Hz%list_elem_of_singleton].
  - destruct (Hpre z e' v' Hz He' Hv') as (w & -> & Hw). destruct e1 as [e1|]; injection Hstep as <-; [|eauto].
    unfold cmin. cbn [cadd exact]. destruct (future_of F (lname d) y) as [t|]; cbn [clt]; [|eauto].
    destruct (Z.ltb_spec (e1 + t) w); eexists; (split; [done | lia]).
  - subst z. assert (e1 = Some e') as -> by congruence. injection Hstep as <-. rewrite Hv'. unfold cmin. cbn [cadd exact].
    destruct u1 as [w|]; cbn [clt]; [destruct (Z.ltb_spec (e' + v') w)|]; eexists; (split; [done | lia]).
Qed.

(** What an operation costs bounds the estimate of each of its inputs. *)
Lemma min_input_cost_op σ d n c x e :
  edges_cover -> legal σ ops inputs -> d ∈ ops -> n ∈ deps d -> σ n = Some c ->
  σ (lname d) = Some x -> op_cost σ d = Some e ->
  exists e', min_input_cost (restick_cost_fn d) n c x = Ok (Some e') /\ 0 <= e' <= e.
Proof.
  intros Hcov Hleg Hd Hn Hc Hx He. unfold op_cost in He.
  destruct (mapM σ (deps d)) as [ins|] eqn:Hm; [|done]. rewrite Hx in He. cbn [mbind option_bind] in He.
  apply (min_input_cost_le σ (restick_cost_fn d) ins); [by apply (wf_nodes _ _ Hwf) | | done | done | done].
  apply mapM_Some in Hm. unfold deps in Hm. apply Forall2_fmap_l in Hm. unfold node_inputs.
  apply Forall2_same_length_lookup. split; [by eapply Forall2_length|]. intros i ec lk Hec Hlk.
  pose proof (Forall2_lookup_lr _ _ _ _ _ _ Hm Hec Hlk) as Hσ. cbn in Hσ. split; [done|].
  eapply Hcov; [done | by eapply list_elem_of_lookup_2 | done | done].
Qed.

Lemma total_cost_nonneg σ l k : total_cost σ l = Some k -> 0 <= k.
Proof.
  apply csum_nonneg. intros v (o & Hv & _)%list_elem_of_fmap. unfold op_cost in Hv.
  destruct (mapM σ (deps o)); [|done]. destruct (σ (lname o)); [|done]. by eapply node_cost_nonneg.
Qed.

Lemma total_cost_drop σ i d k :
  ops !! i = Some d -> total_cost σ (drop i ops) = Some k ->
  exists e k', op_cost σ d = Some e /\ total_cost σ (drop (S i) ops) = Some k' /\ k = e + k'.
Proof.
  intros Hd. rewrite (drop_S _ _ _ Hd). unfold total_cost. cbn [fmap list_fmap].
  rewrite csum_cons. intros (e & k' & ? & ? & ?)%cadd_Some. eauto.
Qed.

Lemma total_cost_suffix σ i j k :
  (i <= j)%nat -> total_cost σ (drop i ops) = Some k ->
  exists k', total_cost σ (drop j ops) = Some k' /\ k' <= k.
Proof.
  intros Hij. replace (drop j ops) with (drop (j - i) (drop i ops)) by (rewrite drop_drop; f_equal; lia).
  generalize (drop i ops). intros l. rewrite <- (take_drop (j - i) l) at 1. unfold total_cost.
  rewrite fmap_app, csum_app. intros (a & b & Ha & Hb & ->)%cadd_Some.
  pose proof (total_cost_nonneg _ _ _ Ha). exists b. split; [done | lia].
Qed.

(** With single readers the estimate is at most what the later operations cost. *)
Lemma future_le_rest σ :
  edges_cover -> single_readers -> legal σ ops inputs ->
  forall n i o c k, (length ops - i <= n)%nat -> ops !! i = Some o -> σ (lname o) = Some c ->
    total_cost σ (drop (S i) ops) = Some k -> exists v, future_of F (lname o) c = Some v /\ v <= k.
Proof.
  intros Hcov Hsingle Hleg. induction n as [|n IH]; intros i o c k Hn Hi Hc Hk.
  { apply lookup_lt_Some in Hi. lia. }
  pose proof (list_elem_of_lookup_2 _ _ _ Hi) as Ho.
  assert (c ∈ layouts o) as Hco by (destruct (proj1 Hleg o Ho) as (c' & ? & ?); congruence).
  pose proof (HF o Ho c Hco) as Hbell. unfold total_future in Hbell.
  rewrite (downstream_spec _ _ Hwf) in Hbell. specialize (Hsingle o Ho).
  destruct (filter _ ops) as [|d [|]] eqn:Ef; [| |cbn in Hsingle; lia].
  { injection Hbell as <-. exists 0. split; [done|]. by eapply total_cost_nonneg. }
  assert (d ∈ filter (fun d => lname o ∈ deps d) ops) as [Hd Hin]%list_elem_of_filter by (rewrite Ef; list_mem).
  cbn [for_each] in Hbell. unfold reads in Hbell. rewrite bool_decide_true in Hbell by done.
  destruct (best_through F (lname o) c d) as [b|] eqn:Eb; [|done]. injection Hbell as <-.
  apply list_elem_of_lookup in Hin as [j Hj].
  pose proof (reader_after _ _ Hwf _ _ _ _ Hi Hj Hd) as Hij.
  destruct (total_cost_suffix σ (S i) j k) as (k1 & Hk1 & Hle); [lia | done|].
  destruct (total_cost_drop σ j d k1 Hj Hk1) as (e & k2 & He & Hk2 & ->).
  pose proof (list_elem_of_lookup_2 _ _ _ Hj) as Hdin.
  destruct (proj1 Hleg d Hdin) as (x & Hx & Hσx).
  destruct (min_input_cost_op σ d (lname o) c x e) as (e' & He' & ?); [done..|].
  destruct (IH j d x k2) as (v & Hv & Hle2); [lia | done..|].
  destruct (best_through_le _ _ _ _ _ _ _ Eb Hx He' Hv) as (w & -> & Hw). exists (0 + w). split; [done | lia].
Qed.

End estimate.

Section admissible.
Context {STL : Type} `{R : StickRules STL}.

(** The A*-style bound of the layout search is a lower bound when every buffer
    has a single reader: the cost so far plus [compute_future_min_cost] of the last
    operation's layout is at most the cost of any completion. *)
Theorem estimate_admissible (ops : list (lop STL)) inputs F σ i o c k1 k :
  wf_graph ops inputs -> edges_cover ops inputs -> single_readers ops ->
  compute_future_min_cost (A := exact) ops = Ok F -> feasible ops inputs σ k ->
  ops !! i = Some o -> σ (lname o) = Some c -> total_cost σ (take (S i) ops) = Some k1 ->
  exists v, future_of F (lname o) c = Some v /\ k1 + v <= k.
Proof.
  intros Hwf Hcov Hsr HF [Hleg Hk] Hi Hc Hk1.
  destruct (compute_future_spec (CA := exact) ops inputs Hwf) as (F' & HF' & Hbell).
  rewrite HF in HF'. injection HF' as <-.
  rewrite <- (take_drop (S i) ops) in Hk. unfold total_cost in Hk, Hk1. rewrite fmap_app, csum_app, Hk1 in Hk.
  apply cadd_Some in Hk as (a & k2 & [= ->] & Hk2 & ->).
  destruct (future_le_rest ops inputs Hwf F Hbell σ Hcov Hsr Hleg (length ops) i o c k2
    ltac:(lia) Hi Hc Hk2) as (v & Hv & Hle). exists v. split; [done | lia].
Qed.

End admissible.

(** ** Small graphs *)

(** Layouts named by numbers: a layout goes to any other that is not negative. *)
#[export] Instance numbered_rules : StickRules Z.
Proof.
  refine {|
    device_dtype _ := SEN169_FP16;
    get_device_size_in_bytes _ := 128;
    compute_restickify_needed in_stl _ t_stl _ _ :=
      if decide (in_stl = t_stl) then (false, None)
      else if t_stl <? 0 then (true, None) else (true, Some t_stl);
    compute_size1_restickify_target _ _ _ := None;
    stick_has_symbol _ _ _ := false
  |}.
  - done.
  - intros. apply (bool_decide_unpack _). vm_compute. exact I.
  - intros in_stl ? t_stl ? ? tgt. case_decide; [congruence|]. case_match; congruence.
Defined.

Definition edge_on (name : string) (ls : list Z) (op : string) : EdgeCostMap Z :=
  mkEdge (mkDep name "i") ls (mkDep op "i") op None.

(** A pointwise operation on the named buffers. *)
Definition pointwise (op : string) (ls : list Z) (reads : list (string * list Z)) : rop Z :=
  mkOp op (Some (ls, AllSameNode ((fun '(n, l) => edge_on n l op) <$> reads) [])).

(** An operation that requires the layout [req] of its input. *)
Definition requiring (op : string) (ls : list Z) (req : Z) (name : string) (l : list Z) : rop Z :=
  mkOp op (Some (ls, FixedInOutNode [edge_on name l op] 0 [req] (mkDep op "i"))).

(** An empty buffer, a chain on the input and an operation that joins them. *)
Definition join_graph : list (rop Z) :=
  [ mkOp "acc" (Some ([0; 1], AnyInNode));
    pointwise "p" [0; 1] [("x", [0; 1])];
    mkOp "view" None;
    pointwise "q" [1] [("p", [0; 1]); ("acc", [0; 1])] ]%string.

Definition join_inputs : list (string * option (list Z)) :=
  [("x", Some [0; 1]); ("n", None)]%string.

Lemma ops_ordered_check (nin : list string) (ops : list (lop Z)) :
  forallb (fun '(i, o) => forallb (fun d => bool_decide (d ∈ nin ++ (lname <$> take i ops))) (deps o))
    (imap pair ops) = true -> ops_ordered nin ops.
Proof.
  intros H l1 o l2 d -> Hd. rewrite forallb_forall in H.
  specialize (H (length l1, o)). cbn in H. rewrite forallb_forall in H.
  assert (d ∈ nin ++ (lname <$> take (length l1) (l1 ++ o :: l2))) as Hin.
  { eapply bool_decide_eq_true, H; [|by apply list_elem_of_In]. apply list_elem_of_In.
    apply list_elem_of_lookup. exists (length l1). rewrite list_lookup_imap, list_lookup_middle by done. done. }
  rewrite take_app_length in Hin. by apply elem_of_app.
Qed.

Lemma join_graph_wf : wf_graph (planned join_graph) join_inputs.
Proof.
  split.
  - apply (bool_decide_unpack _). vm_compute. exact I.
  - intros n l [[= -> ->]|[[=]|?%elem_of_nil]%elem_of_cons]%elem_of_cons; done.
  - apply ops_ordered_check. vm_compute. reflexivity.
  - intros o Ho. repeat (apply elem_of_cons in Ho as [->|Ho]; [done|]). by apply elem_of_nil in Ho.
Qed.

Definition join_choice (n : string) : option Z :=
  dget [("x", 0); ("acc", 1); ("p", 0); ("q", 1)]%string n.

Lemma join_choice_feasible : feasible (planned join_graph) join_inputs join_choice 128.
Proof.
  split; [split|].
  - intros o Ho. repeat (apply elem_of_cons in Ho as [->|Ho];
      [eexists; split; [|vm_compute; reflexivity]; apply (bool_decide_unpack _); vm_compute; exact I|]).
    by apply elem_of_nil in Ho.
  - intros n stl l [[= -> -> ->]|[[=]|?%elem_of_nil]%elem_of_cons]%elem_of_cons; done.
  - vm_compute. reflexivity.
Qed.

Lemma beam_commits_feasible_witness :
  match beam_global_min_cost join_graph join_inputs with
  | Ok c => exists k, feasible (planned join_graph) join_inputs (dget c) k
  | Raise e => e = NotImplementedError
  end.
Proof. apply (beam_commits_feasible join_graph join_inputs join_graph_wf). Defined.

Lemma join_choice_exact F : compute_future_min_cost (planned (_reorder_any_in_nodes join_graph)) = Ok F ->
  exact_estimates F join_choice (planned (_reorder_any_in_nodes join_graph)).
Proof. intros E. apply exact_estimates_check. vm_compute in E. injection E as <-. vm_compute. reflexivity. Qed.

Lemma beam_optimal_witness :
  exists F c k, compute_future_min_cost (planned (_reorder_any_in_nodes join_graph)) = Ok F
    /\ beam_global_min_cost join_graph join_inputs = Ok c
    /\ feasible (planned join_graph) join_inputs (dget c) k
    /\ forall σ k', feasible (planned join_graph) join_inputs σ k' ->
         exact_estimates F σ (planned (_reorder_any_in_nodes join_graph)) -> k <= k'.
Proof.
  destruct (compute_future_min_cost (planned (_reorder_any_in_nodes join_graph))) as [F|] eqn:E; [|vm_compute in E; discriminate E].
  destruct (beam_optimal join_graph join_inputs F join_graph_wf) as (c & k & H).
  - intros t Ht. do 3 (destruct t as [|t]; [vm_compute; congruence|]). cbn in Ht. lia.
  - exact E.
  - exists join_choice, 128. split; [exact join_choice_feasible | exact (join_choice_exact F E)].
  - exists F, c, k. split; [reflexivity | exact H].
Defined.

(** A chain of pointwise operations that ends in a restickify. *)
Definition chain_graph : list (rop Z) :=
  [ pointwise "a" [0] [("x", [0])]; pointwise "b" [0] [("a", [0])];
    requiring "z" [0] 1 "b" [0] ]%string.

Definition chain_inputs : list (string * option (list Z)) := [("x", Some [0])]%string.

Definition chain_choice (n : string) : option Z :=
  if decide (n ∈ ["x"; "a"; "b"; "z"]%string) then Some 0 else None.

Lemma chain_graph_wf : wf_graph (planned chain_graph) chain_inputs.
Proof.
  split.
  - apply (bool_decide_unpack _). vm_compute. exact I.
  - intros n l [[= -> ->]|?%elem_of_nil]%elem_of_cons; done.
  - apply ops_ordered_check. vm_compute. reflexivity.
  - intros o Ho. repeat (apply elem_of_cons in Ho as [->|Ho]; [done|]). by apply elem_of_nil in Ho.
Qed.

(** Every layout of the chain is the same one. *)
Lemma chain_edges_cover : edges_cover (planned chain_graph) chain_inputs.
Proof.
  intros o ec stl σ Ho Hec [Hleg Hin] Hσ.
  assert (forall n, n ∈ ["x"; "a"; "b"; "z"]%string -> σ n = Some 0) as H0.
  { intros n Hn. repeat (apply elem_of_cons in Hn as [->|Hn]); [| | | |by apply elem_of_nil in Hn].
    - apply (Hin _ 0 []). list_mem.
    - destruct (Hleg (mkLop "a" [0] (AllSameNode [edge_on "x" [0] "a"] []))%string) as (s & Hs & He);
        [apply list_elem_of_here|]. by apply list_elem_of_singleton in Hs as ->.
    - destruct (Hleg (mkLop "b" [0] (AllSameNode [edge_on "a" [0] "b"] []))%string) as (s & Hs & He);
        [apply list_elem_of_further, list_elem_of_here|]. by apply list_elem_of_singleton in Hs as ->.
    - destruct (Hleg (mkLop "z" [0] (FixedInOutNode [edge_on "b" [0] "z"] 0 [1] (mkDep "z" "i")))%string) as (s & Hs & He);
        [apply list_elem_of_further, list_elem_of_further, list_elem_of_here|].
      by apply list_elem_of_singleton in Hs as ->. }
  repeat (apply elem_of_cons in Ho as [->|Ho];
    [apply list_elem_of_singleton in Hec as ->; cbn in Hσ; rewrite H0 in Hσ by (cbn; list_mem);
     injection Hσ as <-; list_mem|]).
  by apply elem_of_nil in Ho.
Qed.

Lemma chain_feasible : feasible (planned chain_graph) chain_inputs chain_choice 128.
Proof.
  split; [split|].
  - intros o Ho. repeat (apply elem_of_cons in Ho as [->|Ho];
      [eexists; split; [|vm_compute; reflexivity]; apply (bool_decide_unpack _); vm_compute; exact I|]).
    by apply elem_of_nil in Ho.
  - intros n stl l [[= -> -> ->]|?%elem_of_nil]%elem_of_cons; done.
  - vm_compute. reflexivity.
Qed.

Lemma estimate_admissible_witness :
  exists F v, compute_future_min_cost (A := exact) (planned chain_graph) = Ok F
    /\ future_of F "a" 0 = Some v /\ 0 + v <= 128.
Proof.
  destruct (compute_future_min_cost (A := exact) (planned chain_graph)) as [F|] eqn:E; [|vm_compute in E; discriminate E].
  cut (exists v, future_of F "a" 0 = Some v /\ 0 + v <= 128); [intros (v & H); exists F, v; split; [reflexivity | exact H]|].
  apply (estimate_admissible (planned chain_graph) chain_inputs F chain_choice 0
           (mkLop "a" [0] (AllSameNode [edge_on "x" [0] "a"] []))%string 0 0 128);
    [exact chain_graph_wf | exact chain_edges_cover | | exact E | exact chain_feasible | reflexivity..].
  intros o Ho. repeat (apply elem_of_cons in Ho as [->|Ho]; [vm_compute; lia|]). by apply elem_of_nil in Ho.
Defined.

(** The chain with [n] diamonds: each level is read twice and joined again. *)
Definition level (k : nat) (s : string) : string := (s +:+ pretty k)%string.

Fixpoint diamonds (n k : nat) : list (rop Z) :=
  match n with
  | O => [requiring "z" [0] 1 (level k "a") [0]]
  | S n' =>
      pointwise (level k "b") [0] [(level k "a", [0])] ::
      pointwise (level k "c") [0] [(level k "a", [0])] ::
      pointwise (level (S k) "a") [0] [(level k "b", [0]); (level k "c", [0])] ::
      diamonds n' (S k)
  end.

Definition diamond_graph (n : nat) : list (rop Z) :=
  pointwise "a0" [0] [("x", [0])]%string :: diamonds n 0.

(** With shared readers the bound of [compute_future_min_cost] is no lower
    bound: the cost behind a join is counted once per path to it, so a graph of six
    diamonds in a row whose only cost is one restickify of 128 bytes at its end is
    estimated at 64 times that cost from its first operation. *)
Theorem estimate_counts_paths :
  exists F σ, compute_future_min_cost (planned (diamond_graph 6)) = Ok F
    /\ total_cost σ (planned (diamond_graph 6)) = Some 128
    /\ future_of F "a0" 0 = Some (2 ^ 6 * 128)
    /\ (exists c, beam_global_min_cost (diamond_graph 6) chain_inputs = Ok c
                  /\ total_cost (dget c) (planned (diamond_graph 6)) = Some 128).
Proof.
  destruct (compute_future_min_cost (planned (diamond_graph 6))) as [F|] eqn:E; [|vm_compute in E; discriminate E].
  exists F, (fun _ => Some 0). split_and!; [done | vm_compute; reflexivity | |].
  - vm_compute in E. injection E as <-. vm_compute. reflexivity.
  - eexists. split; vm_compute; reflexivity.
Qed.

(** Beyond [EXACT] the bounds of the code tie.  Two states that differ in the layout of [p],
    read for the last time by [a0]: the second is cheaper by one restickify, but with 2^63
    ahead (the estimate before 56 diamonds) both bounds are 2^63, and the merge keeps the
    first.  In whole numbers it keeps the second. *)
Definition tie_step `{A : CostArith} : res (list (BeamState Z)) :=
  let o := mkLop "a0" [0] (AllSameNode [edge_on "p" [2; 1] "a0"] [])%string in
  let f := mkFrontier ["x"; "p"]%string [("x", 0%nat); ("p", 1%nat)]%string
             [mkState [1; 2] (Some 128) (Some 128); mkState [1; 1] (Some 0) (Some 0)] false in
  f' ← beam_step BEAM_WIDTH [("a0", [(0, Some (2 ^ 63))])]%string [("p", 0%nat); ("a0", 1%nat)]%string
         [("p", 1%nat); ("a0", 2%nat)]%string o f;
  Ok (states f').

Example merge_ties :
  tie_step = Ok [mkState [1; 2; 0] (Some 256) (Some (2 ^ 63))] /\
  tie_step (A := exact) = Ok [mkState [1; 1; 0] (Some 128) (Some (2 ^ 63 + 128))].
Proof. vm_compute. split; reflexivity. Qed.
