(* ===== verification/InsertRestickify.v ===== *)
(** * Committing layouts and inserting restickifies ([insert_restickify.py])

    [finalize_layouts] turns the layouts the search committed into buffer layouts
    and records in a plan each input edge whose layout must change; the plan is
    executed by [insert_restickify], which puts a restickify operation before the
    reader and redirects the reader's loads ([InputEdgeSwapHandler]).

    A buffer layout is [Fixed] (no device layout yet), [Tiled] with its device
    layout, or [Mutation] of a target buffer (the chain of views down to the
    buffer is resolved).  An operation's layouts and cost node come together, as
    in [Restickify].  SymPy index expressions are strings; replacing the live
    symbols of an index by the canonical ones is a parameter of the handler.
    Lowering a restickify node returns a buffer under a new name, which the code
    appends to the operation list: the names are a parameter. *)

From S2P Require Import Prelude PyDict Doubles Restickify RestickifyBeam.

(** ** Finalizing layouts *)

Section finalize.
Context {STL : Type} `{R : StickRules STL}.

Inductive blayout :=
  | Fixed
  | Tiled (stl : STL)
  | Mutation (target : string).

(** [RestickifyArgInfo]; the target layout is the input's host layout wrapped
    around the device layout kept here. *)
Record RestickifyArgInfo := mkInfo {
  arg_name : string;
  info_index : option string;
  occurrence : nat;
  target_layout : STL
}.

(** An operation as [finalize_layouts] finds it. *)
Record fop := mkFop {
  fop_op : rop STL;
  (** [_tiled_reduction_accum_name], when the loop tiles a reduction *)
  fop_accum : option string;
  (** whether the buffer is a [SpyreEmptyFallback] *)
  fop_fallback : bool;
  (** [ELIDED_COPY_BACK_ATTR] *)
  fop_elided : bool
}.

Notation store := (dict blayout).
Notation plan := (dict (list RestickifyArgInfo)).

Definition fop_name (o : fop) : string := op_name (fop_op o).

Definition find_fop (ops : list fop) (name : string) : option fop :=
  snd <$> list_find (fun o => fop_name o = name) ops.

(** The device layout of a buffer, where it has one. *)
Definition device_layout (l : blayout) : res STL :=
  match l with Tiled stl => Ok stl | _ => Raise AttributeError end.

(** The graph inputs take the layout the optimizer committed. *)
Definition finalize_input (committed : dict STL) (gi : string * option (list STL)) (lay : store)
    : res store :=
  match gi.2 with
  | None => Ok lay
  | Some _ =>
      match dget committed gi.1 with
      | Some stl => Ok (dset gi.1 (Tiled stl) lay)
      | None => Raise AssertionError
      end
  end.

Definition is_mutation (l : blayout) : bool := match l with Mutation _ => true | _ => false end.

(** The chosen layout becomes the operation's own, except for mutations; a tiled
    reduction hands it to its accumulator. *)
Definition commit_layout (o : fop) (stl : STL) (lay : store) : res store :=
  l ← dgetitem lay (fop_name o);
  if is_mutation l then Ok lay
  else
    let lay := dset (fop_name o) (Tiled stl) lay in
    match fop_accum o with
    | None => Ok lay
    | Some accum =>
        al ← dgetitem lay accum;
        Ok (match al with Tiled _ => lay | _ => dset accum (Tiled stl) lay end)
    end.

(** A mutation of an empty buffer stamps the buffer with the writer's layout. *)
Definition stamp_target (ops : list fop) (o : fop) (n : RestickNodeCost STL) (stl : STL) (lay : store)
    : res store :=
  l ← dgetitem lay (fop_name o);
  match l with
  | Mutation target =>
      if is_any_in n then Ok lay
      else if from_option fop_fallback false (find_fop ops target) then
        al ← dgetitem lay target;
        match al with
        | Tiled existing =>
            _ ← py_assert (bool_decide (existing = stl));
            Ok (dset target (Tiled stl) lay)
        | Fixed => Ok (dset target (Tiled stl) lay)
        | Mutation _ => Ok lay
        end
      else Ok lay
  | _ => Ok lay
  end.

(** The device layout an edge reads: through a mutation, the target's. *)
Definition edge_in_stl (ops : list fop) (lay : store) (name : string) : res STL :=
  l ← dgetitem lay name;
  match l with
  | Mutation target =>
      tl ← dgetitem lay target;
      _ ← py_assert (from_option fop_elided false (find_fop ops name)
                     || match tl with Tiled _ => true | _ => false end);
      device_layout tl
  | _ => device_layout l
  end.

(** [edge_occurrences]: how many edges of this read were seen. *)
Notation occ_map := (list ((string * string) * nat)).

Definition schedule_edge (ops : list fop) (lay : store) (edge : EdgeCostMap STL * STL)
    (st : list RestickifyArgInfo * occ_map) : res (list RestickifyArgInfo * occ_map) :=
  let '(ec, target_stl) := edge in
  let '(infos, occ) := st in
  let key := (dep_name (ec_dep ec), dep_index (ec_dep ec)) in
  in_stl ← edge_in_stl ops lay (dep_name (ec_dep ec));
  let seen := default O (aget occ key) in
  match edge_layout ec in_stl target_stl with
  | NoRestick => Ok (infos, aset key (S seen) occ)
  | INFEASIBLE => Raise AssertionError
  | Restick t =>
      Ok (infos ++ [mkInfo (dep_name (ec_dep ec)) (Some (dep_index (ec_dep ec))) seen t],
          aset key (S seen) occ)
  end.

(** [plan[op.get_name()].append(...)], entry by entry *)
Definition record_infos (name : string) (infos : list RestickifyArgInfo) (p : plan) : plan :=
  match infos with [] => p | _ => dset name (dget_or [] p name ++ infos) p end.

Definition finalize_op (ops : list fop) (committed : dict STL) (o : fop) (st : store * plan)
    : res (store * plan) :=
  let '(lay, p) := st in
  match op_info (fop_op o) with
  | None => Ok (lay, p)
  | Some (ls, n) =>
      stl ← dgetitem committed (fop_name o);
      lay ← (if bool_decide (ls = []) then Ok lay else commit_layout o stl lay);
      lay ← stamp_target ops o n stl lay;
      r ← for_each (schedule_edge ops lay) (required_input_stls n stl) ([], []);
      Ok (lay, record_infos (fop_name o) r.1 p)
  end.

(** [finalize_layouts]: the buffer layouts and [graph.restickify_plan]. *)
Definition finalize_layouts (ops : list fop) (inputs : list (string * option (list STL)))
    (committed : dict STL) (lay : store) : res (store * plan) :=
  lay ← for_each (finalize_input committed) inputs lay;
  for_each (finalize_op ops committed) ops (lay, []).

(** [validate_no_restickify_on_mutation_targets] *)
Definition validate_no_restickify_on_mutation_targets (ops : list fop) (lay : store) (p : plan)
    : res unit :=
  for_each (fun o _ =>
    l ← dgetitem lay (fop_name o);
    match l with
    | Mutation target =>
        raise_if (existsb (fun e => bool_decide (arg_name e = target)) (dget_or [] p (fop_name o)))
          AssertionError
    | _ => Ok tt
    end) ops tt.

End finalize.

Arguments blayout : clear implicits.
Arguments RestickifyArgInfo : clear implicits.
Arguments fop : clear implicits.

(** ** Redirecting loads *)

Section handler.

(** [(old_name, dep_index, occurrence, new_name)] *)
Record edge_swap := mkSwap {
  old_name : string;
  swap_index : string;
  swap_occurrence : nat;
  new_name : string
}.

(** [index_replacements] applied to a live index. *)
Context (xreplace : string -> string).
Context (swaps : list edge_swap) (name_map : dict string).

(** [_seen] *)
Notation seen_map := (list ((string * string) * nat)).

(** [_name_map.get(name, name)] *)
Definition mapped_name (name : string) : string := default name (dget name_map name).

Definition matching (name index : string) : list (nat * string) :=
  (fun s => (swap_occurrence s, new_name s)) <$>
    filter (fun s => old_name s = name /\ swap_index s = index) swaps.

(** [InputEdgeSwapHandler.load]: the buffer the load goes to. *)
Definition load (name index : string) (seen : seen_map) : res (string * seen_map) :=
  let dep_index := xreplace index in
  let m := matching name dep_index in
  match m with
  | [] => Ok (mapped_name name, seen)
  | (o0, _) :: rest =>
      let occ := default O (aget seen (name, dep_index)) in
      let seen := aset (name, dep_index) (S occ) seen in
      let targets := (filter (fun p => p.1 = occ) m).*2 in
      _ ← py_assert (length targets <=? 1)%nat;
      match targets with
      | t :: _ => Ok (t, seen)
      | [] =>
          let min_planned := foldl Nat.min o0 rest.*1 in
          if (occ <? min_planned)%nat then Ok (mapped_name name, seen)
          else
            match fromkeys (m.*2) with
            | [t] => Ok (t, seen)
            | _ => Raise AssertionError
            end
      end
  end.

(** A trace of the body: its loads in order. *)
Definition loads (trace : list (string * string)) (seen : seen_map) : res (list string * seen_map) :=
  for_each (fun '(name, index) '(out, seen) =>
    r ← load name index seen; Ok (out ++ [r.1], r.2)) trace ([], seen).

End handler.

(** ** The plan costs what the search reported *)

Section realize.
Context {STL : Type} `{R : StickRules STL}.
Implicit Types (c : dict STL) (lay : dict (blayout STL)) (o : fop STL).

(** The bytes an entry of the plan moves, weighted by the format. *)
Definition stl_bytes (stl : STL) : Z := get_device_size_in_bytes stl * dtype_weight stl.

Definition info_cost c (e : RestickifyArgInfo STL) : Z :=
  from_option stl_bytes 0 (dget c (arg_name e)).

Definition infos_cost c (l : list (RestickifyArgInfo STL)) : Z := zsum (info_cost c <$> l).

Definition plan_cost c (p : dict (list (RestickifyArgInfo STL))) : Z :=
  zsum (infos_cost c <$> dvalues p).

#[local] Existing Instance exact.

(** The cost of a node is the cost of its required edges. *)
Lemma node_cost_required (σ : string -> option STL) n ins out_stl k :
  node_wf n -> Forall2 (fun ec lk => σ (dep_name (ec_dep ec)) = Some lk) (edge_costs n) ins ->
  node_cost n ins out_stl = Some k ->
  csum ((fun '(ec, req) => lk ← σ (dep_name (ec_dep ec)); edge_cost ec lk req)
          <$> required_input_stls n out_stl) = Some k.
Proof.
  destruct n as [es outs|edges ro reqs od|]; cbn [node_wf edge_costs node_cost required_input_stls]; intros Hw Hi Hk.
  - apply Forall2_app_inv_l in Hi as (ins1 & ins2 & Hi1 & _ & ->).
    rewrite take_app_length' in Hk by (by eapply Forall2_length).
    destruct (csum (zip_with _ es ins1)) as [c0|] eqn:E; [|done]. destruct (forallb _ _); simplify_eq.
    rewrite <- E, <- list_fmap_compose. f_equal. clear E Hw.
    induction Hi1 as [|ec lk es ins1 Hlk _ IH]; [done|]. cbn [fmap list_fmap zip_with compose].
    rewrite Hlk, IH. done.
  - destruct (negb _); [done|]. rewrite <- Hk. f_equal. clear Hk.
    revert reqs Hw. induction Hi as [|ec lk es ins Hlk _ IH]; intros [|rk reqs] Hw; try done.
    cbn [zip zip_with fmap list_fmap]. rewrite Hlk. cbn [mbind option_bind]. f_equal. apply IH. by injection Hw.
  - by injection Hk as <-.
Qed.

Lemma required_edge (n : RestickNodeCost STL) out_stl ec req :
  (ec, req) ∈ required_input_stls n out_stl -> ec ∈ edge_costs n.
Proof.
  destruct n as [es outs|edges ro reqs od|]; cbn [required_input_stls edge_costs].
  - intros (ec' & [= -> ->] & H)%list_elem_of_fmap. apply elem_of_app. by left.
  - intros H. by apply elem_of_zip_l in H.
  - by intros ?%elem_of_nil.
Qed.

(** A co-output edge of an operation with a finite cost has the operation's layout. *)
Lemma co_output_same (σ : string -> option STL) ins outs ec l out_stl k :
  Forall2 (fun ec lk => σ (dep_name (ec_dep ec)) = Some lk) (ins ++ outs) l ->
  node_cost (AllSameNode ins outs) l out_stl = Some k -> ec ∈ outs ->
  σ (dep_name (ec_dep ec)) = Some out_stl.
Proof.
  intros Hi Hk Hec. cbn [node_cost] in Hk.
  apply Forall2_app_inv_l in Hi as (l1 & l2 & Hi1 & Hi2 & ->).
  rewrite drop_app_length' in Hk by (by eapply Forall2_length).
  destruct (csum _); [|done]. destruct (forallb _ _) eqn:E; [|done]. rewrite forallb_forall in E.
  apply list_elem_of_lookup in Hec as [i Hi]. destruct (Forall2_lookup_l _ _ _ _ _ Hi2 Hi) as (lk & Hlk & ->).
  specialize (E (ec, lk)). cbn in E. f_equal. apply (bool_decide_eq_true_1 _), E, list_elem_of_In.
  apply elem_of_lookup_zip_with. eauto 10.
Qed.

Context (ops : list (fop STL)) (inputs : list (string * option (list STL))) (c : dict STL).
Notation rops := (fop_op <$> ops).
Context (Hwf : wf_graph (planned rops) inputs) (k : Z).
Context (Hfeas : feasible (planned rops) inputs (dget c) k).
Context (lay0 : dict (blayout STL)).

(** Every buffer has a layout. *)
Definition has_layouts : Prop := forall o, o ∈ ops -> is_Some (dget lay0 (fop_name o)).

(** A buffer with a layout of its own that is committed once [pre] is processed. *)
Definition settled (pre : list (fop STL)) (t : string) : Prop :=
  (t ∈ input_names inputs \/ exists q l, q ∈ pre /\ to_lop (fop_op q) = Some l /\ fop_name q = t)
  /\ forall t', dget lay0 t <> Some (Mutation t').

(** What ties a mutation to its target in the search: a co-output edge
    ([_handle_empty_fallback_mutation], [_handle_multi_candidate_cooutput]), or that
    both have one and the same candidate. *)
Definition joined (pre : list (fop STL)) (l : lop STL) (t : string) : Prop :=
  (exists ins outs ec, restick_cost_fn l = AllSameNode ins outs /\ ec ∈ outs /\ dep_name (ec_dep ec) = t)
  \/ exists stl, layouts l = [stl] /\
       ((t, Some [stl]) ∈ inputs \/ exists q lq, q ∈ pre /\ to_lop (fop_op q) = Some lq /\ fop_name q = t /\ layouts lq = [stl]).

(** Mutations that write an empty buffer or whose result is read are tied to a target
    with a layout of its own.  Other mutations are free. *)
Definition mutations_joined : Prop := forall pre o post l t,
  ops = pre ++ o :: post -> to_lop (fop_op o) = Some l -> dget lay0 (fop_name o) = Some (Mutation t) ->
  (is_any_in (restick_cost_fn l) = false /\ from_option fop_fallback false (find_fop ops t) = true)
  \/ (exists r, r ∈ planned rops /\ fop_name o ∈ deps r) ->
  joined pre l t /\ forall t', dget lay0 t <> Some (Mutation t').

(** The accumulator of a tiled reduction is committed before the reduction, or not at all. *)
Definition accums_allocated : Prop := forall pre o post a,
  ops = pre ++ o :: post -> fop_accum o = Some a ->
  is_Some (dget lay0 a) /\ (settled pre a \/ a ∉ input_names inputs ++ (lname <$> planned rops)).

(** What holds of the layouts once [pre] is processed. *)
Record lay_ok (pre : list (fop STL)) lay : Prop := {
  lay_inputs n : n ∈ input_names inputs -> exists stl, dget c n = Some stl /\ dget lay n = Some (Tiled stl);
  lay_done o l : o ∈ pre -> to_lop (fop_op o) = Some l ->
    (forall t, dget lay0 (fop_name o) <> Some (Mutation t)) ->
    exists stl, dget c (fop_name o) = Some stl /\ dget lay (fop_name o) = Some (Tiled stl);
  lay_same n : n ∈ lname <$> planned rops ->
    forall t, dget lay0 n = Some (Mutation t) <-> dget lay n = Some (Mutation t);
  lay_dom n : is_Some (dget lay0 n) -> is_Some (dget lay n)
}.

Lemma committed_stl o l :
  o ∈ ops -> to_lop (fop_op o) = Some l -> exists stl, stl ∈ layouts l /\ dget c (fop_name o) = Some stl.
Proof.
  intros Ho Hl. destruct Hfeas as [[Hleg _] _]. destruct (Hleg l) as (stl & Hs & Hc).
  - apply list_elem_of_omap. exists (fop_op o). split; [by apply list_elem_of_fmap_2 | done].
  - exists stl. split; [done|]. rewrite <- Hc. f_equal. unfold to_lop in Hl.
    apply fmap_Some in Hl as ([ls n] & _ & ->). done.
Qed.

Lemma op_finite o l :
  o ∈ ops -> to_lop (fop_op o) = Some l -> exists e, op_cost (dget c) l = Some e.
Proof.
  intros Ho Hl. destruct Hfeas as [_ Htot]. eapply csum_elem; [exact Htot|]. apply list_elem_of_fmap_2.
  apply list_elem_of_omap. exists (fop_op o). split; [by apply list_elem_of_fmap_2 | done].
Qed.

Lemma schedule_edge_in lay ec req infos occ stl :
  edge_in_stl ops lay (dep_name (ec_dep ec)) = Ok stl ->
  schedule_edge ops lay (ec, req) (infos, occ) =
    let key := (dep_name (ec_dep ec), dep_index (ec_dep ec)) in
    let seen := default O (aget occ key) in
    match edge_layout (A := doubles) ec stl req with
    | NoRestick => Ok (infos, aset key (S seen) occ)
    | INFEASIBLE => Raise AssertionError
    | Restick t =>
        Ok (infos ++ [mkInfo (dep_name (ec_dep ec)) (Some (dep_index (ec_dep ec))) seen t],
            aset key (S seen) occ)
    end.
Proof. intros H. unfold schedule_edge. by rewrite H. Qed.

(** Scheduling the edges of one operation. *)
Lemma schedule_edges lay l e :
  (forall ec req, (ec, req) ∈ l -> exists stl, dget c (dep_name (ec_dep ec)) = Some stl
     /\ edge_in_stl ops lay (dep_name (ec_dep ec)) = Ok stl) ->
  csum ((fun '(ec, req) => lk ← dget c (dep_name (ec_dep ec)); edge_cost ec lk req) <$> l) = Some e ->
  forall infos occ, exists infos' occ',
    for_each (schedule_edge ops lay) l (infos, occ) = Ok (infos ++ infos', occ')
    /\ infos_cost c infos' = e.
Proof.
  revert e. induction l as [|[ec req] l IH]; intros e Hin Hsum infos occ.
  - injection Hsum as <-. exists [], occ. by rewrite app_nil_r.
  - cbn [fmap list_fmap] in Hsum. rewrite csum_cons in Hsum.
    apply cadd_Some in Hsum as (a & b & Ha & Hb & ->).
    destruct (Hin ec req) as (stl & Hstl & Hes); [list_mem|]. rewrite Hstl in Ha. cbn [mbind option_bind] in Ha.
    assert (forall ec' req', (ec', req') ∈ l -> exists stl, dget c (dep_name (ec_dep ec')) = Some stl
      /\ edge_in_stl ops lay (dep_name (ec_dep ec')) = Ok stl) as Hin' by (intros; eapply Hin; by apply list_elem_of_further).
    cbn [for_each]. rewrite (schedule_edge_in _ _ _ _ _ _ Hes).
    rewrite edge_cost_layout, (edge_layout_any exact doubles) in Ha. destruct (edge_layout ec stl req) as [| |t]; [|done|]; injection Ha as <-; cbn [mbind res_bind].
    + edestruct (IH b Hin' Hb) as (infos' & occ' & -> & Hc).
      exists infos', occ'. split; [done | lia].
    + edestruct (IH b Hin' Hb) as (infos' & occ' & -> & Hc).
      eexists (_ :: infos'), occ'. split; [by rewrite <- app_assoc|].
      unfold infos_cost in *. cbn [fmap list_fmap]. rewrite zsum_cons, Hc. unfold info_cost at 1. cbn [arg_name].
      rewrite Hstl. done.
Qed.

Lemma fop_planned o l : o ∈ ops -> to_lop (fop_op o) = Some l -> l ∈ planned rops /\ lname l = fop_name o.
Proof.
  intros Ho Hl. split.
  - apply list_elem_of_omap. exists (fop_op o). split; [by apply list_elem_of_fmap_2 | done].
  - unfold to_lop in Hl. by apply fmap_Some in Hl as ([ls n] & _ & ->).
Qed.

(** Writing what was committed, or a buffer outside the search, keeps the layouts. *)
Lemma lay_ok_set pre lay n stl :
  pre ⊆ ops -> lay_ok pre lay ->
  dget c n = Some stl \/ n ∉ input_names inputs ++ (lname <$> planned rops) ->
  (n ∈ lname <$> planned rops -> forall t, dget lay0 n <> Some (Mutation t)) ->
  lay_ok pre (dset n (Tiled stl) lay).
Proof.
  intros Hpre [Hi Hd Hs Hdom] Hn Hm.
  assert (forall m, m ∈ input_names inputs ++ (lname <$> planned rops) -> m = n -> dget c n = Some stl) as Hc
    by (intros m Hin ->; tauto).
  split.
  - intros m Hin. destruct (Hi m Hin) as (s' & Hs' & Hl). exists s'. rewrite dget_dset. case_decide as He; [|done].
    subst. split; [done|]. rewrite (Hc n) in Hs'; [by simplify_eq | by apply elem_of_app; left | done].
  - intros o l Ho Hl Hnm. destruct (Hd o l Ho Hl Hnm) as (s' & Hs' & Hlay). exists s'. split; [done|].
    rewrite dget_dset. case_decide as He; [|done]. rewrite He, (Hc (fop_name o)) in Hs'; [by simplify_eq | | done].
    destruct (fop_planned o l (Hpre _ Ho) Hl) as [Hp <-]. apply elem_of_app. right. by apply list_elem_of_fmap_2.
  - intros m Hin t. rewrite dget_dset. case_decide as He; [|by apply Hs]. subst.
    split; [intros Hf; by destruct (Hm Hin t) | done].
  - intros m Hin. rewrite dget_dset. case_decide; [by eexists | by apply Hdom].
Qed.

Context (Hlay : has_layouts) (Hmut : mutations_joined) (Hacc : accums_allocated).

Section step.
Context (pre : list (fop STL)) (o : fop STL) (post : list (fop STL)) (Hops : ops = pre ++ o :: post).

Lemma pre_sub : pre ⊆ ops.
Proof. rewrite Hops. intros x Hx. apply elem_of_app. by left. Qed.

Lemma o_in : o ∈ ops.
Proof. rewrite Hops. apply elem_of_app. right. list_mem. Qed.

(** A settled buffer has the committed layout. *)
Lemma settled_tiled p lay t : p ⊆ ops -> lay_ok p lay -> settled p t ->
  exists stl, dget c t = Some stl /\ dget lay t = Some (Tiled stl).
Proof.
  intros Hp Hok [[Hin | (q & l & Hq & Hl & <-)] Hn]; [by apply (lay_inputs _ _ Hok)|]. by apply (lay_done _ _ Hok q l).
Qed.

(** Reads come from inputs and from operations before. *)
Lemma dep_source l d : to_lop (fop_op o) = Some l -> d ∈ deps l ->
  d ∈ input_names inputs \/ exists pre' q post' lq, pre = pre' ++ q :: post' /\ to_lop (fop_op q) = Some lq /\ fop_name q = d.
Proof.
  pose proof pre_sub as Hpre. intros Hl Hd. pose proof (wf_order _ _ Hwf) as Hord. rewrite <- planned_ordered in Hord.
  destruct (Hord (length pre) (fop_op o) l d) as [Hin|(i & p & lp & Hi & Hpi & Hlp & <-)]; [|done|done|by left|].
  { rewrite Hops, fmap_app, fmap_cons. rewrite <- (length_fmap fop_op pre). by apply list_lookup_middle. }
  rewrite Hops, fmap_app, lookup_app_l, list_lookup_fmap in Hpi by (by rewrite length_fmap).
  apply fmap_Some in Hpi as (q & Hq & ->). apply list_elem_of_split_length in Hq as (p1 & p2 & -> & _).
  right. exists p1, q, p2, lp. split_and!; [done | done|].
  destruct (fop_planned q lp) as [_ Hname]; [apply Hpre, elem_of_app; right; list_mem | done|]. by symmetry.
Qed.

(** The layouts of an operation's inputs, as its node sees them. *)
Lemma node_view l e :
  to_lop (fop_op o) = Some l -> op_cost (dget c) l = Some e ->
  exists ins stl, Forall2 (fun ec lk => dget c (dep_name (ec_dep ec)) = Some lk) (edge_costs (restick_cost_fn l)) ins
    /\ dget c (fop_name o) = Some stl /\ node_cost (restick_cost_fn l) ins stl = Some e.
Proof.
  intros Hl He. destruct (fop_planned o l o_in Hl) as [_ Hname]. unfold op_cost in He.
  destruct (mapM (dget c) (deps l)) as [ins|] eqn:Hm; [|done]. cbn [mbind option_bind] in He.
  destruct (dget c (lname l)) as [stl|] eqn:Hs; [|done]. cbn [mbind option_bind] in He.
  exists ins, stl. rewrite <- Hname. split_and!; [|done|done].
  apply mapM_Some in Hm. unfold deps in Hm. by apply Forall2_fmap_l in Hm.
Qed.

(** A tied target is settled, with the layout committed for the mutation. *)
Lemma joined_settled l e t : to_lop (fop_op o) = Some l -> op_cost (dget c) l = Some e -> joined pre l t ->
  (forall t', dget lay0 t <> Some (Mutation t')) -> settled pre t /\ dget c t = dget c (fop_name o).
Proof.
  intros Hl He Hj Hn. destruct (committed_stl o l o_in Hl) as (stl & Hs & Hc). destruct Hj as [(ins & outs & ec & En & Hec & <-) | (s1 & Es & Hj)].
  - destruct (node_view l e Hl He) as (vs & stl' & Hvs & Hstl' & Hcost). assert (stl' = stl) as -> by congruence.
    rewrite En in Hvs, Hcost. cbn [edge_costs] in Hvs. rewrite Hc. split; [|exact (co_output_same _ _ _ ec _ _ _ Hvs Hcost Hec)].
    split; [|done]. destruct (dep_source l (dep_name (ec_dep ec)) Hl) as [Hi | (p1 & q & p2 & lq & -> & Hlq & Hq)]; [|by left|].
    { unfold deps. rewrite En. cbn [edge_costs]. apply list_elem_of_fmap. exists ec. split; [done|]. apply elem_of_app. by right. }
    right. exists q, lq. split_and!; [apply elem_of_app; right; list_mem | done | done].
  - rewrite Es in Hs. apply list_elem_of_singleton in Hs as ->. destruct Hj as [Hi | (q & lq & Hq & Hlq & <- & Elq)].
    + destruct Hfeas as [[_ Hins] _]. rewrite (Hins _ _ _ Hi), Hc. split; [|done]. split; [|done].
      left. apply list_elem_of_omap. by exists (t, Some [s1]).
    + destruct (committed_stl q lq (pre_sub _ Hq) Hlq) as (s2 & Hs2 & Hc2). rewrite Elq in Hs2. apply list_elem_of_singleton in Hs2 as ->.
      split; [|congruence]. split; [|done]. right. eauto.
Qed.

End step.

Section turn.
Context (pre : list (fop STL)) (o : fop STL) (post : list (fop STL)) (Hops : ops = pre ++ o :: post).

(** What an edge reads, through a mutation too, is the layout committed for the operand. *)
Lemma read_committed lay l d :
  lay_ok pre lay -> to_lop (fop_op o) = Some l -> d ∈ deps l ->
  exists stl, dget c d = Some stl /\ edge_in_stl ops lay d = Ok stl.
Proof.
  intros Hok Hl Hd. destruct (dep_source pre o post Hops l d Hl Hd) as [Hi | (p1 & q & p2 & lq & -> & Hlq & <-)].
  { destruct (lay_inputs _ _ Hok d Hi) as (stl & Hc & Ht). exists stl. split; [done|]. unfold edge_in_stl, dgetitem. by rewrite Ht. }
  assert (ops = p1 ++ q :: p2 ++ o :: post) as Hops' by (by rewrite Hops, <- app_assoc).
  assert (q ∈ ops) as Hq by (rewrite Hops'; apply elem_of_app; right; list_mem).
  destruct (fop_planned q lq Hq Hlq) as [Hp Hname].
  assert (fop_name q ∈ lname <$> planned rops) as Hpn by (rewrite <- Hname; by apply list_elem_of_fmap_2).
  destruct (Hlay q Hq) as [b0 Hb0]. assert ((exists t, b0 = Mutation t) \/ ~ exists t, b0 = Mutation t) as [[t ->] | Hnm] by (destruct b0; naive_solver).
  - destruct (Hmut p1 q _ lq t Hops' Hlq Hb0) as [Hj Hn].
    { right. exists l. split; [|done]. by destruct (fop_planned o l (o_in _ o post Hops) Hl). }
    destruct (op_finite q lq Hq Hlq) as [e He].
    destruct (joined_settled p1 q _ Hops' lq e t Hlq He Hj Hn) as [Hset Hc].
    destruct (settled_tiled (p1 ++ q :: p2) lay t) as (stl & Hct & Htt); [apply (pre_sub _ o post); by rewrite Hops | done | |].
    { destruct Hset as [[Hi | (r & lr & Hr & ?)] Hm]; split; [by left | done | | done]. right. exists r, lr. split; [|done]. apply elem_of_app. by left. }
    exists stl. split; [congruence|]. unfold edge_in_stl, dgetitem. apply (lay_same _ _ Hok) in Hb0; [|done].
    rewrite Hb0. cbn [mbind res_bind]. rewrite Htt. cbn. by rewrite orb_true_r.
  - destruct (lay_done _ _ Hok q lq) as (stl & Hc & Ht); [apply elem_of_app; right; list_mem | done | |].
    { intros t Ht. apply Hnm. exists t. congruence. }
    exists stl. split; [done|]. unfold edge_in_stl, dgetitem. by rewrite Ht.
Qed.

Lemma commit_layout_ok lay l stl :
  lay_ok pre lay -> to_lop (fop_op o) = Some l -> dget c (fop_name o) = Some stl ->
  exists lay', commit_layout o stl lay = Ok lay' /\ lay_ok pre lay'
    /\ ((forall t, dget lay0 (fop_name o) <> Some (Mutation t)) -> dget lay' (fop_name o) = Some (Tiled stl)).
Proof.
  pose proof (o_in pre o post Hops) as Hin. pose proof (pre_sub pre o post Hops) as Hpre.
  intros Hok Hl Hc. pose proof (Hlay o Hin) as [b0 Hb0].
  destruct (lay_dom _ _ Hok (fop_name o)) as [b Hb]; [by eexists|].
  destruct (fop_planned o l Hin Hl) as [Hp Hname].
  assert (fop_name o ∈ lname <$> planned rops) as Hpn by (rewrite <- Hname; by apply list_elem_of_fmap_2).
  unfold commit_layout, dgetitem. rewrite Hb. cbn [mbind res_bind]. destruct (is_mutation b) eqn:Em.
  - destruct b as [| |t]; try discriminate Em. exists lay. split_and!; [done | done|]. intros Hn.
    destruct (Hn t). by apply (lay_same _ _ Hok).
  - assert (forall t, dget lay0 (fop_name o) <> Some (Mutation t)) as Hn.
    { intros t Ht. apply (lay_same _ _ Hok) in Ht; [|done]. rewrite Hb in Ht. injection Ht as ->. discriminate Em. }
    pose proof (lay_ok_set pre lay (fop_name o) stl Hpre Hok (or_introl Hc) (fun _ => Hn)) as Hok1.
    destruct (fop_accum o) as [a|] eqn:Ea.
    + destruct (Hacc pre o post a Hops Ea) as [Ha Hna]. destruct (lay_dom _ _ Hok1 a Ha) as [al Hal]. rewrite Hal. cbn [mbind res_bind].
      destruct Hna as [Hset | Hna].
      { destruct (settled_tiled pre _ a Hpre Hok1 Hset) as (s' & _ & Hs'). assert (al = Tiled s') as -> by congruence.
        eexists. split_and!; [done | done |]. intros _. by rewrite dget_dset, decide_True. }
      assert (a <> fop_name o) as Hne by (intros ->; apply Hna, elem_of_app; by right).
      eexists. split; [done|]. destruct al.
      1,3: split; [apply lay_ok_set; [done | done | by right | intros Hi; destruct Hna; apply elem_of_app; by right] |
             intros _; by rewrite dget_dset, decide_False, dget_dset, decide_True].
      split; [done|]. intros _. by rewrite dget_dset, decide_True.
    + eexists. split_and!; [done | done |]. intros _. by rewrite dget_dset, decide_True.
Qed.

Lemma lay_ok_extend lay l stl :
  lay_ok pre lay -> to_lop (fop_op o) = Some l -> dget c (fop_name o) = Some stl ->
  ((forall t, dget lay0 (fop_name o) <> Some (Mutation t)) -> dget lay (fop_name o) = Some (Tiled stl)) ->
  lay_ok (pre ++ [o]) lay.
Proof.
  intros [Hi Hd Hs Hdom] Hl Hc Hset. split; [done | | done | done].
  intros o' l' [Ho'| ->%list_elem_of_singleton]%elem_of_app Hl' Hn; [by apply (Hd o' l')|]. eauto.
Qed.

Lemma stamp_target_ok lay l e stl :
  lay_ok pre lay -> to_lop (fop_op o) = Some l -> op_cost (dget c) l = Some e ->
  dget c (fop_name o) = Some stl ->
  exists lay', stamp_target ops o (restick_cost_fn l) stl lay = Ok lay' /\ lay_ok pre lay'
    /\ (dget lay (fop_name o) = Some (Tiled stl) -> dget lay' (fop_name o) = Some (Tiled stl)).
Proof.
  pose proof (o_in pre o post Hops) as Hin. pose proof (pre_sub pre o post Hops) as Hpre.
  intros Hok Hl He Hc. pose proof (Hlay o Hin) as Hb0.
  destruct (lay_dom _ _ Hok (fop_name o) Hb0) as [b Hb]. unfold stamp_target, dgetitem. rewrite Hb.
  cbn [mbind res_bind]. destruct b as [| |t]; [exists lay; split_and!; [done | done | congruence] | exists lay; split_and!; [done | done | congruence] |].
  destruct (is_any_in (restick_cost_fn l)) eqn:Ea; [exists lay; split_and!; [done | done | congruence]|].
  destruct (from_option _ _ _) eqn:Ef; [|exists lay; split_and!; [done | done | congruence]].
  assert (dget lay0 (fop_name o) = Some (Mutation t)) as Hm.
  { apply (lay_same _ _ Hok); [|done]. destruct (fop_planned o l Hin Hl) as [Hp <-]. by apply list_elem_of_fmap_2. }
  destruct (Hmut pre o post l t Hops Hl Hm) as [Hj Hn]; [by left|].
  destruct (joined_settled pre o post Hops l e t Hl He Hj Hn) as [Hset Hct].
  destruct (settled_tiled pre lay t Hpre Hok Hset) as (s' & Hs' & Hlt). assert (s' = stl) as -> by congruence.
  rewrite Hlt. cbn [mbind res_bind]. rewrite bool_decide_true by done. cbn [py_assert mbind res_bind].
  eexists. split; [done|]. split; [|intros [=]]. apply lay_ok_set; [done | done | by left |]. by intros _.
Qed.

End turn.

Lemma plan_cost_record name infos p :
  name ∉ dkeys p -> plan_cost c (record_infos name infos p) = plan_cost c p + infos_cost c infos.
Proof.
  intros Hn. unfold record_infos. destruct infos as [|i l]; [unfold infos_cost; cbn; lia|].
  unfold dget_or. rewrite (proj2 (dget_None p name)) by done. cbn [default app].
  unfold plan_cost. rewrite dvalues_dset_new, fmap_app, zsum_app by done.
  cbn [fmap list_fmap]. rewrite zsum_cons. cbn [zsum foldr]. lia.
Qed.

Lemma dkeys_record name infos p m : m ∈ dkeys (record_infos (STL := STL) name infos p) -> m = name \/ m ∈ dkeys p.
Proof. unfold record_infos. destruct infos; [by right|]. apply elem_of_dkeys_dset. Qed.

(** The layouts are committed and the plan so far costs what the operations cost. *)
Definition fin_ok (pre : list (fop STL)) (st : dict (blayout STL) * dict (list (RestickifyArgInfo STL))) : Prop :=
  lay_ok pre st.1
  /\ (forall m, m ∈ dkeys st.2 -> m ∈ lname <$> planned (fop_op <$> pre))
  /\ total_cost (dget c) (planned (fop_op <$> pre)) = Some (plan_cost c st.2).

Lemma finalize_op_ok pre o post st :
  ops = pre ++ o :: post -> fin_ok pre st ->
  exists st', finalize_op ops c o st = Ok st' /\ fin_ok (pre ++ [o]) st'.
Proof.
  intros Hops (Hok & Hkeys & Hcost). destruct st as [lay p]. cbn [fst snd] in *.
  unfold finalize_op. assert (planned (fop_op <$> pre ++ [o]) = planned (fop_op <$> pre) ++ omap to_lop [fop_op o]) as Hpl
    by (unfold planned; by rewrite fmap_app, omap_app).
  destruct (to_lop (fop_op o)) as [l|] eqn:Hl.
  2:{ unfold to_lop in Hl. destruct (op_info (fop_op o)) as [[ls n]|] eqn:E; [done|].
      eexists. split; [done|]. unfold fin_ok. cbn [fst snd]. rewrite Hpl. cbn [omap list_omap]. unfold to_lop. rewrite E. cbn [fmap option_fmap option_map].
      rewrite app_nil_r. split_and!; [|done|done]. destruct Hok as [Hi Hd Hs Hdom]. split; [done | | done | done].
      intros o' l' [Ho'| ->%list_elem_of_singleton]%elem_of_app Hl'; [by apply (Hd o' l')|]. unfold to_lop in Hl'. by rewrite E in Hl'. }
  assert (op_info (fop_op o) = Some (layouts l, restick_cost_fn l)) as ->.
  { unfold to_lop in Hl. apply fmap_Some in Hl as ([ls n] & -> & ->). done. }
  pose proof (o_in pre o post Hops) as Ho. destruct (fop_planned o l Ho Hl) as [Hp Hname].
  destruct (committed_stl o l Ho Hl) as (stl & Hin & Hc). destruct (op_finite o l Ho Hl) as [e He].
  unfold dgetitem at 1. rewrite Hc. cbn [mbind res_bind].
  rewrite bool_decide_false by (intros E; rewrite E in Hin; by apply elem_of_nil in Hin).
  destruct (commit_layout_ok pre o post Hops lay l stl Hok Hl Hc) as (lay1 & -> & Hok1 & Hset1). cbn [mbind res_bind].
  destruct (stamp_target_ok pre o post Hops lay1 l e stl Hok1 Hl He Hc) as (lay2 & -> & Hok2 & Hset2). cbn [mbind res_bind].
  destruct (node_view pre o post Hops l e Hl He) as (ins & stl' & Hins & Hstl' & Hnc). assert (stl' = stl) as -> by congruence.
  destruct (schedule_edges lay2 (required_input_stls (restick_cost_fn l) stl) e) with (infos := @nil (RestickifyArgInfo STL)) (occ := @nil ((string * string) * nat))
    as (infos & occ & -> & Hinf).
  - intros ec req Hreq. assert (dep_name (ec_dep ec) ∈ deps l) as Hd.
    { unfold deps. apply list_elem_of_fmap. exists ec. split; [done|]. eapply required_edge, Hreq. }
    by apply (read_committed pre o post Hops lay2 l).
  - by apply (node_cost_required _ _ ins); [apply (wf_nodes _ _ Hwf)|..].
  - cbn [mbind res_bind app fst]. eexists. split; [done|]. unfold fin_ok. cbn [fst snd].
    rewrite Hpl. cbn [omap list_omap]. rewrite Hl, fmap_app. split_and!.
    + eapply lay_ok_extend; [done | done | done | by eauto].
    + intros m [->|Hm]%dkeys_record; apply elem_of_app; [right; rewrite <- Hname; list_mem | left; by apply Hkeys].
    + rewrite total_cost_snoc, Hcost, He. cbn [cadd exact]. f_equal. rewrite plan_cost_record; [lia|].
      intros Hm%Hkeys. pose proof (wf_op_names _ _ Hwf) as Hnd. rewrite Hops, fmap_app in Hnd.
      unfold planned in Hnd. rewrite omap_app, fmap_app in Hnd. apply NoDup_app in Hnd as (_ & Hdis & _).
      apply (Hdis _ Hm). cbn [fmap list_fmap omap list_omap]. rewrite Hl. cbn [fmap list_fmap]. rewrite Hname. list_mem.
Qed.

Lemma finalize_inputs_ok :
  exists lay, for_each (finalize_input c) inputs lay0 = Ok lay /\ lay_ok [] lay.
Proof.
  destruct (for_each_total (finalize_input c) (fun done lay =>
    (forall n, n ∈ input_names done -> exists stl, dget c n = Some stl /\ dget lay n = Some (Tiled stl))
    /\ (forall n, n ∉ input_names inputs -> dget lay n = dget lay0 n)
    /\ forall n, is_Some (dget lay0 n) -> is_Some (dget lay n)) inputs lay0) as (lay & -> & Hi & Hs & Hd).
  - intros done [n ls] rest lay Hsp (Hi & Hs & Hd). unfold finalize_input. cbn [snd fst].
    destruct ls as [ls|].
    + assert ((n, Some ls) ∈ inputs) as Hin by (rewrite Hsp; apply elem_of_app; right; list_mem).
      destruct ls as [|stl ls]; [by apply (wf_inputs _ _ Hwf) in Hin|].
      destruct Hfeas as [[_ Hins] _]. pose proof (Hins n stl ls Hin) as Hc. rewrite Hc.
      eexists. split; [done|]. split_and!.
      * intros m. unfold input_names. rewrite omap_app. cbn [omap list_omap snd fst].
        intros Hm. rewrite dget_dset. case_decide as He; [subst; eauto|].
        apply elem_of_app in Hm as [Hm|Hm%list_elem_of_singleton]; [by apply Hi | done].
      * intros m Hm. rewrite dget_dset, decide_False; [by apply Hs|]. intros ->. apply Hm.
        apply list_elem_of_omap. by exists (n, Some (stl :: ls)).
      * intros m Hm. rewrite dget_dset. case_decide; [by eexists | by apply Hd].
    + eexists. split; [done|]. split_and!; [|done|done]. intros m. unfold input_names. rewrite omap_app.
      cbn [omap list_omap snd fst]. rewrite app_nil_r. apply Hi.
  - split_and!; [by intros n ?%elem_of_nil | done | done].
  - exists lay. split; [done|]. split; [done | by intros o l ?%elem_of_nil | | done].
    intros n Hn t. rewrite Hs; [done|]. intros Hin. apply list_elem_of_fmap in Hn as (l & -> & Hl).
    by apply (wf_not_input _ _ Hwf l Hl).
Qed.

End realize.

Section realized.
Context {STL : Type} `{R : StickRules STL}.

(** C34. In a well-formed graph (distinct names, inputs with a layout, reads of inputs or
    earlier operations, nodes built by their constructors) where every operation has a layout, a
    committed assignment of legal candidates and finite cost is finalized without an error, and
    the restickifies planned move exactly the weighted bytes the cost nodes charge for it,
    counted in whole bytes (the search's floats hold the same number below 2^53). Conditions: a
    mutation that writes an empty buffer, or whose result is read, is tied to a target with a
    layout of its own, by a co-output edge or because both have one and the same candidate; the
    accumulator of a tiled reduction is an input or an earlier operation of the search, not
    itself a mutation, or no part of the search. *)
Theorem finalize_realizes_cost (ops : list (fop STL)) inputs (c : dict STL) k lay0 :
  wf_graph (planned (fop_op <$> ops)) inputs ->
  feasible (planned (fop_op <$> ops)) inputs (dget c) k ->
  has_layouts ops lay0 -> mutations_joined ops inputs lay0 -> accums_allocated ops inputs lay0 ->
  exists lay p, finalize_layouts ops inputs c lay0 = Ok (lay, p) /\ plan_cost c p = k.
Proof.
  intros Hwf Hfeas Hlay Hmut Hacc. unfold finalize_layouts.
  destruct (finalize_inputs_ok ops inputs c Hwf k Hfeas lay0) as (lay1 & -> & Hok1). cbn [mbind res_bind].
  destruct (for_each_total (finalize_op ops c) (fin_ok ops inputs c lay0) ops (lay1, [])) as ([lay p] & Hrun & Hfin).
  - intros pre o post st Hs Hst. by apply (finalize_op_ok ops inputs c Hwf k Hfeas lay0 Hlay Hmut Hacc pre o post).
  - split_and!; [done | by intros m ?%elem_of_nil | done].
  - exists lay, p. split; [done|]. destruct Hfin as (_ & _ & Htot), Hfeas as [_ Hk]. cbn [snd] in Htot. congruence.
Qed.

End realized.


(** ** The loads reach the buffers the plan names *)

Section routing.
Context {STL : Type} `{R : StickRules STL}.

(** One edge after [finalize_layouts]: its read and the layout it is brought to. *)
Notation edge_plan := ((string * string) * option STL)%type.

(** How often a read occurs. *)
Definition count (key : string * string) (l : list (string * string)) : nat :=
  length (filter (fun k => k = key) l).

(** The plan entries of the edges [L] after the reads [pre]. *)
Fixpoint infos_of (pre : list (string * string)) (L : list edge_plan) : list (RestickifyArgInfo STL) :=
  match L with
  | [] => []
  | (key, None) :: L' => infos_of (pre ++ [key]) L'
  | (key, Some t) :: L' =>
      mkInfo key.1 (Some key.2) (count key pre) t :: infos_of (pre ++ [key]) L'
  end.

(** The swaps [insert_restickify_on_node_inputs] makes of the entries. *)
Definition plan_swaps (infos : list (RestickifyArgInfo STL)) (news : list string) : list edge_swap :=
  mjoin (zip_with (fun e new =>
    match info_index e with
    | Some idx => [mkSwap (arg_name e) idx (occurrence e) new]
    | None => []
    end) infos news).

(** Where each load should go: the next new buffer, or the original. *)
Fixpoint routes (L : list edge_plan) (news : list string) : list string :=
  match L with
  | [] => []
  | (key, None) :: L' => key.1 :: routes L' news
  | (key, Some _) :: L' =>
      match news with
      | new :: news' => new :: routes L' news'
      | [] => key.1 :: routes L' []
      end
  end.

(** No edge that keeps its layout follows one of the same read that does not. *)
Definition no_trailing_gap (L : list edge_plan) : Prop :=
  forall i j key t, (i < j)%nat -> L !! i = Some (key, Some t) -> L !! j <> Some (key, None).

Lemma count_snoc key k l : count key (l ++ [k]) = (count key l + if decide (k = key) then 1 else 0)%nat.
Proof. unfold count. rewrite filter_app, length_app, filter_cons, filter_nil. by case_decide. Qed.

(** [schedule_edge] numbers the occurrences of each read. *)
Lemma schedule_infos ops lay (L : list (EdgeCostMap STL * STL)) (D : list edge_plan) :
  Forall2 (fun '(ec, req) '(key, t) => key = (dep_name (ec_dep ec), dep_index (ec_dep ec))
     /\ exists stl, edge_in_stl ops lay (dep_name (ec_dep ec)) = Ok stl
        /\ edge_layout ec stl req = match t with Some t => Restick t | None => NoRestick end) L D ->
  forall pre infos occ,
    (forall key, default O (aget occ key) = count key pre) ->
    exists occ', for_each (schedule_edge ops lay) L (infos, occ) = Ok (infos ++ infos_of pre D, occ').
Proof.
  induction 1 as [|[ec req] [key t] L D (Hkey & stl & Hs & Hl) _ IH]; intros pre infos occ Hocc.
  - exists occ. cbn. by rewrite app_nil_r.
  - cbn [for_each]. rewrite (schedule_edge_in _ _ _ _ _ _ _ Hs), Hl, <- Hkey. cbn zeta. rewrite Hocc.
    assert (forall key', default O (aget (aset key (S (count key pre)) occ) key') = count key' (pre ++ [key])) as Hocc'.
    { intros key'. rewrite aget_aset, count_snoc. repeat case_decide; subst; cbn; try done; [lia|]. rewrite Hocc. lia. }
    destruct t as [t|]; cbn [mbind res_bind infos_of].
    + destruct (IH (pre ++ [key]) (infos ++ [mkInfo key.1 (Some key.2) (count key pre) t]) _ Hocc') as [occ' Hr].
      exists occ'. rewrite <- app_assoc in Hr. etransitivity; [|exact Hr]. by rewrite Hkey.
    + apply (IH _ _ _ Hocc').
Qed.

Lemma foldl_min_gt (a b : nat) l :
  (a < b)%nat -> (forall x, x ∈ l -> (a < x)%nat) -> (a < foldl Nat.min b l)%nat.
Proof.
  revert b. induction l as [|x l IH]; intros b Hb Hl; [done|]. cbn [foldl]. apply IH.
  - assert (a < x)%nat by (apply Hl; list_mem). lia.
  - intros y Hy. apply Hl. list_mem.
Qed.

(** The swaps of the edges [L] after the reads [pre]. *)
Definition swaps_of pre (L : list edge_plan) (news : list string) : list edge_swap :=
  plan_swaps (infos_of pre L) news.

Lemma swaps_of_Some pre key t L new news :
  swaps_of pre ((key, Some t) :: L) (new :: news)
  = mkSwap key.1 key.2 (count key pre) new :: swaps_of (pre ++ [key]) L news.
Proof. reflexivity. Qed.

Definition swap_key (s : edge_swap) : string * string := (old_name s, swap_index s).

Lemma swaps_of_occurrence L : forall pre news s,
  s ∈ swaps_of pre L news ->
  (count (swap_key s) pre <= swap_occurrence s)%nat /\ exists t, (swap_key s, Some t) ∈ L.
Proof.
  induction L as [|[key [t|]] L IH]; intros pre news s Hs; [by apply elem_of_nil in Hs | |].
  - destruct news as [|new news]; [by apply elem_of_nil in Hs|]. rewrite swaps_of_Some in Hs.
    apply elem_of_cons in Hs as [->|Hs].
    + unfold swap_key. cbn. rewrite <- surjective_pairing. split; [done|]. exists t. list_mem.
    + destruct (IH _ _ _ Hs) as (Hle & t' & Ht'). rewrite count_snoc in Hle. split; [lia|]. exists t'. list_mem.
  - destruct (IH (pre ++ [key]) news s Hs) as (Hle & t' & Ht'). rewrite count_snoc in Hle. split; [lia|]. exists t'. list_mem.
Qed.

Lemma filter_singleton {A} (P : A -> Prop) `{!forall x, Decision (P x)} l1 (x : A) l2 :
  P x -> (forall y, y ∈ l1 -> ~ P y) -> (forall y, y ∈ l2 -> ~ P y) -> filter P (l1 ++ x :: l2) = [x].
Proof.
  intros Hx H1 H2. rewrite filter_app, filter_cons_True by done. by rewrite !filter_none by done.
Qed.

Lemma filter_filter {A} (P Q : A -> Prop) `{!forall x, Decision (P x), !forall x, Decision (Q x)} (l : list A) :
  filter P (filter Q l) = filter (fun x => P x /\ Q x) l.
Proof.
  induction l as [|x l IH]; [done|]. rewrite !filter_cons. repeat case_decide; try tauto; rewrite ?filter_cons.
  - rewrite decide_True by tauto. by rewrite IH.
  - rewrite decide_False by tauto. by rewrite IH.
Qed.

Context (xreplace : string -> string) (name_map : dict string) (Hmap : name_map = []).

(** The swap of the next planned edge is the only one of its occurrence. *)
Lemma filter_planned A pre key t L new news :
  (forall s, s ∈ A -> (swap_occurrence s < count (swap_key s) pre)%nat) ->
  (filter (fun p => p.1 = count key pre)
     (matching (A ++ swaps_of pre ((key, Some t) :: L) (new :: news)) key.1 key.2)).*2 = [new].
Proof.
  intros HA. unfold matching. rewrite filter_fmap, <- list_fmap_compose, filter_filter.
  rewrite swaps_of_Some, filter_singleton; [done | done | |].
  - intros s Hs [Ho [H1 H2]]. cbn in Ho. specialize (HA s Hs). unfold swap_key in HA.
    rewrite H1, H2, <- surjective_pairing in HA. lia.
  - intros s Hs [Ho [H1 H2]]. cbn in Ho. apply swaps_of_occurrence in Hs as [Hs _]. unfold swap_key in Hs.
    rewrite H1, H2, <- surjective_pairing, count_snoc, decide_True in Hs by done. lia.
Qed.

(** The swaps of a read that keeps its layout here all come later. *)
Lemma planned_later A pre key L news p :
  (forall s, s ∈ A -> swap_key s <> key) ->
  p ∈ matching (A ++ swaps_of pre ((key, None) :: L) news) key.1 key.2 -> (count key pre < p.1)%nat.
Proof.
  intros Hgap (s & -> & [[H1 H2] Hs]%list_elem_of_filter)%list_elem_of_fmap. cbn [fst].
  apply elem_of_app in Hs as [Hs|Hs].
  - exfalso. apply (Hgap s Hs). unfold swap_key. by rewrite H1, H2, <- surjective_pairing.
  - apply (swaps_of_occurrence L (pre ++ [key])) in Hs as [Hs _]. unfold swap_key in Hs.
    rewrite H1, H2, <- surjective_pairing, count_snoc, decide_True in Hs by done. lia.
Qed.

(** One load of a body that reads the edges in order. *)
Lemma load_step A pre key d L news index seen :
  (forall s, s ∈ A -> (swap_occurrence s < count (swap_key s) pre)%nat) ->
  (d = None -> forall s, s ∈ A -> swap_key s <> key) ->
  xreplace index = key.2 ->
  (forall k, matching (A ++ swaps_of pre ((key, d) :: L) news) k.1 k.2 <> [] -> default O (aget seen k) = count k pre) ->
  (is_Some d -> news <> []) ->
  exists seen', load xreplace (A ++ swaps_of pre ((key, d) :: L) news) name_map key.1 index seen
    = Ok (match d, news with Some _, new :: _ => new | _, _ => key.1 end, seen')
    /\ forall k, matching (A ++ swaps_of pre ((key, d) :: L) news) k.1 k.2 <> [] ->
         default O (aget seen' k) = count k (pre ++ [key]).
Proof.
  intros HA Hgap Hx Hseen Hnews. set (swaps := A ++ swaps_of pre ((key, d) :: L) news) in *.
  assert (forall k, default O (aget (aset key (S (count key pre)) seen) k)
    = (if decide (k = key) then S (count key pre) else default O (aget seen k))) as Hset.
  { intros k. rewrite aget_aset. by case_decide. }
  assert (forall k, matching swaps k.1 k.2 <> [] ->
    default O (aget (aset key (S (count key pre)) seen) k) = count k (pre ++ [key])) as Hafter.
  { intros k Hk. rewrite Hset, count_snoc. repeat case_decide; subst; try done; [lia|]. rewrite Hseen by done. lia. }
  unfold load. rewrite Hx, <- surjective_pairing.
  destruct (matching swaps key.1 key.2) as [|[o0 n0] rest] eqn:Em.
  - destruct d as [t|].
    + exfalso. destruct news as [|new news]; [by destruct (Hnews (ex_intro _ t eq_refl))|].
      assert ((count key pre, new) ∈ matching swaps key.1 key.2) as Hin; [|rewrite Em in Hin; by apply elem_of_nil in Hin].
      unfold matching. apply list_elem_of_fmap. exists (mkSwap key.1 key.2 (count key pre) new). split; [done|].
      apply list_elem_of_filter. split; [done|]. unfold swaps. rewrite swaps_of_Some. apply elem_of_app. right. list_mem.
    + eexists. split; [unfold mapped_name; by rewrite Hmap|]. intros k Hk.
      rewrite count_snoc, decide_False; [rewrite Hseen by done; lia|]. intros <-. by rewrite Em in Hk.
  - rewrite Hseen by (by rewrite Em). destruct d as [t|].
    + destruct news as [|new news]; [by destruct (Hnews (ex_intro _ t eq_refl))|].
      rewrite <- Em. unfold swaps. rewrite filter_planned by done.
      cbn [length Nat.leb py_assert mbind res_bind]. eauto.
    + pose proof (planned_later A pre key L news) as Hgt. specialize (fun p => Hgt p (Hgap eq_refl)). fold swaps in Hgt.
      rewrite Em in Hgt. destruct (filter _ _) as [|p l] eqn:Ef.
      * cbn [fmap list_fmap length Nat.leb py_assert mbind res_bind].
        rewrite (proj2 (Nat.ltb_lt _ _)); [|apply foldl_min_gt; [apply (Hgt (o0, n0)); list_mem|]].
        { eexists. split; [unfold mapped_name; by rewrite Hmap | done]. }
        intros x ([o' n'] & -> & Hp)%list_elem_of_fmap. apply (Hgt (o', n')). list_mem.
      * exfalso. assert (p ∈ filter (fun p => p.1 = count key pre) ((o0, n0) :: rest)) as Hp by (rewrite Ef; list_mem).
        apply list_elem_of_filter in Hp as [Hp1 Hp2]. specialize (Hgt p Hp2). lia.
Qed.

Lemma loads_suffix L : forall A pre news trace out seen,
  no_trailing_gap L ->
  (forall s, s ∈ A -> (swap_occurrence s < count (swap_key s) pre)%nat) ->
  (forall s key, s ∈ A -> (key, None) ∈ L -> swap_key s <> key) ->
  (length (infos_of pre L) <= length news)%nat ->
  Forall2 (fun '(n, i) '(key, _) => n = key.1 /\ xreplace i = key.2) trace L ->
  (forall k, matching (A ++ swaps_of pre L news) k.1 k.2 <> [] -> default O (aget seen k) = count k pre) ->
  exists seen', for_each (fun '(name, index) '(out, seen) =>
      r ← load xreplace (A ++ swaps_of pre L news) name_map name index seen; Ok (out ++ [r.1], r.2))
      trace (out, seen) = Ok (out ++ routes L news, seen').
Proof.
  induction L as [|[key d] L IH]; intros A pre news trace out seen Hgap HA Hno Hlen Htr Hseen.
  - inversion Htr. subst. exists seen. cbn. by rewrite app_nil_r.
  - destruct trace as [|[n i] trace']; [by inversion Htr|].
    apply Forall2_cons in Htr as [[-> Hi] Htr']. cbn [for_each].
    assert (no_trailing_gap L) as Hgap' by (intros a b k t Hab Ha; apply (Hgap (S a) (S b) k t); [lia | done]).
    destruct (load_step A pre key d L news i seen) as (seen' & Hl & Hseen'); [done | | done | done | |].
    { intros -> s Hs. apply Hno; [done | list_mem]. }
    { intros [t ->]. destruct news; [cbn in Hlen; lia | done]. }
    rewrite Hl. cbn [mbind res_bind fst snd].
    destruct d as [t|].
    + destruct news as [|new news]; [cbn in Hlen; lia|]. cbn [routes].
      rewrite swaps_of_Some, cons_middle, app_assoc in Hseen' |- *.
      destruct (IH (A ++ [mkSwap key.1 key.2 (count key pre) new]) (pre ++ [key]) news trace' (out ++ [new]) seen')
        as [seen2 Hr]; [done | | | cbn in Hlen; lia | done | done |].
      * intros s [Hs| ->%list_elem_of_singleton]%elem_of_app; rewrite count_snoc.
        { specialize (HA s Hs). lia. }
        unfold swap_key. cbn. rewrite <- surjective_pairing, decide_True by done. lia.
      * intros s k [Hs| ->%list_elem_of_singleton]%elem_of_app Hk; [apply Hno; [done | list_mem]|].
        unfold swap_key. cbn. rewrite <- surjective_pairing. intros <-.
        apply list_elem_of_lookup in Hk as [b Hb]. apply (Hgap O (S b) key t); [lia | done | done].
      * exists seen2. etransitivity; [exact Hr|]. by rewrite <- app_assoc.
    + cbn [routes]. destruct (IH A (pre ++ [key]) news trace' (out ++ [key.1]) seen') as [seen2 Hr];
        [done | | | done | done | done |].
      * intros s Hs. rewrite count_snoc. specialize (HA s Hs). lia.
      * intros s k Hs Hk. apply Hno; [done | list_mem].
      * exists seen2. etransitivity; [exact Hr|]. by rewrite <- app_assoc.
Qed.

End routing.

Section routed.
Context {STL : Type} `{R : StickRules STL}.

(** Each load of a restickified operation reaches the buffer planned for its
    edge: let [D] be what [finalize_layouts] decides for the required edges [L] of
    an operation, edge by edge.  If no edge that keeps its layout follows an edge of
    the same read that changes it, then for the entries [finalize_layouts] records
    and any new buffers, a body that loads the edges in order has each load of a
    restickified edge redirected to that edge's new buffer and every other load
    left on the original. *)
Theorem loads_follow_plan (ops : list (fop STL)) lay (L : list (EdgeCostMap STL * STL))
    (D : list ((string * string) * option STL)) xreplace trace news :
  Forall2 (fun '(ec, req) '(key, t) => key = (dep_name (ec_dep ec), dep_index (ec_dep ec))
     /\ exists stl, edge_in_stl ops lay (dep_name (ec_dep ec)) = Ok stl
        /\ edge_layout ec stl req = match t with Some t => Restick t | None => NoRestick end) L D ->
  no_trailing_gap D ->
  Forall2 (fun '(n, i) '(key, _) => n = key.1 /\ xreplace i = key.2) trace D ->
  (length (infos_of [] D) <= length news)%nat ->
  exists infos occ seen, for_each (schedule_edge ops lay) L ([], []) = Ok (infos, occ)
    /\ loads xreplace (plan_swaps infos news) [] trace [] = Ok (routes D news, seen).
Proof.
  intros HL Hgap Htr Hlen.
  destruct (schedule_infos ops lay L D HL [] [] []) as [occ Hs]; [done|].
  destruct (loads_suffix xreplace [] eq_refl D [] [] news trace [] []) as [seen Hr];
    [done | by intros s ?%elem_of_nil | by intros s k ?%elem_of_nil | done | done | done |].
  exists (infos_of [] D), occ, seen. done.
Qed.

(** The one case the plan does not reach: when an edge that keeps its layout
    follows an edge of the same read that changes it, its load is redirected to the
    restickified copy of the earlier edge instead of staying on the original. *)
Theorem trailing_edge_redirected (key : string * string) (t : STL) new :
  let D := [(key, Some t); (key, None)] in
  routes D [new] = [new; key.1]
  /\ exists seen, loads id (plan_swaps (infos_of [] D) [new]) [] [key; key] [] = Ok ([new; new], seen).
Proof.
  intros D. split; [done|]. destruct key as [n i].
  assert (plan_swaps (infos_of [] D) [new] = [mkSwap n i 0 new]) as -> by done.
  assert (matching [mkSwap n i 0 new] n i = [(O, new)]) as Hm
    by (unfold matching; rewrite filter_cons_True by done; done).
  assert (load id [mkSwap n i 0 new] [] n i [] = Ok (new, aset (n, i) 1%nat [])) as H1
    by (unfold load; cbn [id]; rewrite Hm; done).
  assert (load id [mkSwap n i 0 new] [] n i (aset (n, i) 1%nat []) = Ok (new, aset (n, i) 2%nat (aset (n, i) 1%nat []))) as H2
    by (unfold load; cbn [id]; rewrite Hm, aget_aset, decide_True by done; done).
  eexists. unfold loads. cbn [for_each]. rewrite H1. cbn [mbind res_bind fst snd]. rewrite H2. done.
Qed.

End routed.

(** ** Editing the operation list *)

(** [l.index(x)] *)
Definition py_index (l : list string) (x : string) : res nat :=
  match list_find (fun y => y = x) l with Some (i, _) => Ok i | None => Raise ValueError end.

(** [l.remove(x)] *)
Definition py_remove (l : list string) (x : string) : res (list string) :=
  i ← py_index l x; Ok (take i l ++ drop (S i) l).

(** [l.insert(i, x)] *)
Definition py_insert (l : list string) (i : nat) (x : string) : list string :=
  take i l ++ x :: drop i l.

Section edits.
Context {STL : Type}.
(** the name lowering gives the [n]-th buffer it creates *)
Context (gen : nat -> string).

(** The operation list (by name) and the number of buffers created. *)
Notation graph_state := (list string * nat)%type.

(** [_create_restickify_node], as far as the operation list: the new buffer is
    appended. *)
Definition _create_restickify_node (st : graph_state) : string * graph_state :=
  (gen st.2, (st.1 ++ [gen st.2], S st.2)).

(** One entry of [resticks_needed]: state, [op_index], [edge_swaps], [name_map]. *)
Definition insert_one (e : RestickifyArgInfo STL)
    (s : (graph_state * nat) * (list edge_swap * dict string))
    : res ((graph_state * nat) * (list edge_swap * dict string)) :=
  let '((st, op_index), (edge_swaps, name_map)) := s in
  let '(new, (operations, n)) := _create_restickify_node st in
  let '(edge_swaps, name_map) :=
    match info_index e with
    | Some idx => (edge_swaps ++ [mkSwap (arg_name e) idx (occurrence e) new], name_map)
    | None => (edge_swaps, dset (arg_name e) new name_map)
    end in
  operations ← py_remove operations new;
  Ok (((py_insert operations op_index new, n), S op_index), (edge_swaps, name_map)).

Definition insert_restickify_on_node_inputs (op : string) (resticks_needed : list (RestickifyArgInfo STL))
    (st : graph_state) : res (graph_state * (list edge_swap * dict string)) :=
  match py_index st.1 op with
  | Raise _ => Raise AssertionError
  | Ok op_index =>
      r ← for_each insert_one resticks_needed ((st, op_index), ([], []));
      Ok (r.1.1, r.2)
  end.

(** [insert_restickify]: the loop over a copy of the operations; [computed] tells
    the [ComputedBuffer]s.  The swaps of each rewritten operation are returned. *)
Definition insert_body (computed : string -> bool) (plan : dict (list (RestickifyArgInfo STL)))
    (op : string) (s : graph_state * dict (list edge_swap * dict string))
    : res (graph_state * dict (list edge_swap * dict string)) :=
  let '(st, swaps) := s in
  match dget plan op with
  | Some infos =>
      if computed op then
        r ← insert_restickify_on_node_inputs op infos st;
        Ok (r.1, swaps ++ [(op, r.2)])
      else Ok (st, swaps)
  | None => Ok (st, swaps)
  end.

Definition insert_restickify (computed : string -> bool) (plan : dict (list (RestickifyArgInfo STL)))
    (st : graph_state) : res (graph_state * dict (list edge_swap * dict string)) :=
  for_each (insert_body computed plan) st.1 (st, []).

(** The edits of [insert_post_mutation_restickify] for one graph-input mutation:
    the copy in before the mutation, the copy back after it. *)
Definition insert_around_mutation (mutation_op : string) (st : graph_state)
    : res (graph_state * (string * string)) :=
  let '(buf_tmp, st) := _create_restickify_node st in
  let '(buf_copyback, (operations, n)) := _create_restickify_node st in
  mutation_op_index ← py_index operations mutation_op;
  operations ← py_remove operations buf_tmp;
  let operations := py_insert operations mutation_op_index buf_tmp in
  operations ← py_remove operations buf_copyback;
  let operations := py_insert operations (mutation_op_index + 2) buf_copyback in
  Ok ((operations, n), (buf_tmp, buf_copyback)).

(** *** Where the new operations go *)

Lemma py_index_middle (l1 : list string) x l2 : x ∉ l1 -> py_index (l1 ++ x :: l2) x = Ok (length l1).
Proof.
  intros Hx. unfold py_index.
  assert (list_find (fun y => y = x) (l1 ++ x :: l2) = Some (length l1, x)) as ->; [|done].
  apply list_find_Some. split_and!; [by apply list_lookup_middle | done|].
  intros j y Hy Hj ->. rewrite lookup_app_l in Hy by done. apply Hx. by eapply list_elem_of_lookup_2.
Qed.

Lemma py_remove_last (l : list string) x : x ∉ l -> py_remove (l ++ [x]) x = Ok l.
Proof.
  intros Hx. unfold py_remove. rewrite py_index_middle by done. cbn [mbind res_bind].
  rewrite take_app_length, drop_ge; [by rewrite app_nil_r|]. rewrite length_app. cbn. lia.
Qed.

Lemma insert_one_indexed e idx operations n i sw nm :
  info_index e = Some idx ->
  insert_one e (((operations, n), i), (sw, nm)) =
    (l ← py_remove (operations ++ [gen n]) (gen n);
     Ok (((py_insert l i (gen n), S n), S i), (sw ++ [mkSwap (arg_name e) idx (occurrence e) (gen n)], nm))).
Proof. intros H. unfold insert_one, _create_restickify_node. cbn [fst snd]. by rewrite H. Qed.

(** The [n] names from [k] on. *)
Definition gens (k n : nat) : list string := gen <$> seq k n.

(** The reader's new operations, directly before it and in plan order. *)
Lemma insert_on_node_spec op infos l1 l2 n :
  op ∉ l1 -> (forall m, (n <= m)%nat -> gen m ∉ l1 ++ op :: l2) ->
  (forall a b, gen a = gen b -> a = b) -> Forall (fun e => is_Some (info_index e)) infos ->
  insert_restickify_on_node_inputs op infos (l1 ++ op :: l2, n) =
    Ok ((l1 ++ gens n (length infos) ++ op :: l2, (n + length infos)%nat),
        (plan_swaps infos (gens n (length infos)), [])).
Proof.
  intros Hop Hfresh Hinj Hidx. unfold insert_restickify_on_node_inputs. cbn [fst].
  rewrite py_index_middle by done.
  assert (forall infos m ins sw,
    Forall (fun e => is_Some (info_index e)) infos -> (n <= m)%nat ->
    (forall x, x ∈ ins -> exists a, (a < m)%nat /\ x = gen a) ->
    for_each insert_one infos (((l1 ++ ins ++ op :: l2, m), (length l1 + length ins)%nat), (sw, [])) =
    Ok (((l1 ++ (ins ++ gens m (length infos)) ++ op :: l2, (m + length infos)%nat),
         (length l1 + length (ins ++ gens m (length infos)))%nat),
        (sw ++ plan_swaps infos (gens m (length infos)), []))) as Hgen.
  { clear infos Hidx. induction infos as [|e infos IH]; intros m ins sw Hidx Hm Hins.
    - cbn. rewrite !app_nil_r, Nat.add_0_r. done.
    - apply Forall_cons in Hidx as [[idx He] Hidx]. cbn [for_each].
      rewrite (insert_one_indexed _ _ _ _ _ _ _ He), py_remove_last.
      + cbn [mbind res_bind]. unfold py_insert. rewrite (app_assoc l1 ins).
        rewrite take_app_length', drop_app_length' by (by rewrite length_app).
        rewrite <- (app_assoc l1 ins), (app_assoc ins [gen m] (op :: l2) : ins ++ gen m :: op :: l2 = _).
        replace (S (length l1 + length ins)) with (length l1 + length (ins ++ [gen m]))%nat
          by (rewrite length_app; cbn; lia).
        rewrite IH; [|done|lia|].
        * cbn [length]. unfold gens. cbn [seq fmap list_fmap].
          rewrite <- (app_assoc ins), Nat.add_succ_r. cbn [app].
          unfold plan_swaps at 2. cbn [zip_with]. rewrite He. cbn [mjoin list_join app].
          by rewrite <- (app_assoc sw).
        * intros x [Hx| ->%list_elem_of_singleton]%elem_of_app; [|exists m; split; [lia | done]].
          destruct (Hins x Hx) as (a & ? & ->). exists a. split; [lia | done].
      + rewrite !elem_of_app. intros [Hx|[Hx|Hx]].
        * apply (Hfresh m Hm), elem_of_app. by left.
        * destruct (Hins _ Hx) as (a & Ha & Heq%Hinj). lia.
        * apply (Hfresh m Hm), elem_of_app. by right. }
  pose proof (Hgen infos n [] [] Hidx (le_n _) ltac:(by intros x ?%elem_of_nil)) as Hrun.
  cbn [app length] in Hrun. rewrite Nat.add_0_r in Hrun. rewrite Hrun. done.
Qed.

(** What the pass makes of the operations, and the swaps of each rewritten one. *)
Fixpoint expanded (computed : string -> bool) (plan : dict (list (RestickifyArgInfo STL)))
    (l : list string) (n : nat) : list string * nat * dict (list edge_swap * dict string) :=
  match l with
  | [] => ([], n, [])
  | op :: l' =>
      match dget plan op with
      | Some infos =>
          if computed op then
            let news := gens n (length infos) in
            let '(r, m, sw) := expanded computed plan l' (n + length infos) in
            (news ++ op :: r, m, (op, (plan_swaps infos news, [])) :: sw)
          else let '(r, m, sw) := expanded computed plan l' n in (op :: r, m, sw)
      | None => let '(r, m, sw) := expanded computed plan l' n in (op :: r, m, sw)
      end
  end.

Context (Hinj : forall a b, gen a = gen b -> a = b).

Lemma insert_pass computed plan l : forall pre m sw,
  NoDup l -> (forall x, x ∈ l -> x ∉ pre) ->
  (forall a, (m <= a)%nat -> gen a ∉ pre ++ l) -> (forall a, gen a ∉ l) ->
  (forall op infos, dget plan op = Some infos -> Forall (fun e => is_Some (info_index e)) infos) ->
  for_each (insert_body computed plan) l ((pre ++ l, m), sw)
  = (let '(r, m', sw') := expanded computed plan l m in Ok ((pre ++ r, m'), sw ++ sw')).
Proof.
  induction l as [|op l IH]; intros pre m sw Hnd Hpre Hfresh Hno Hidx.
  - cbn. by rewrite !app_nil_r.
  - apply NoDup_cons in Hnd as [Hop Hnd]. cbn [for_each expanded].
    assert (forall m', (m <= m')%nat -> forall ins,
      (forall x, x ∈ ins -> exists a, (a < m')%nat /\ x = gen a) -> forall sw',
      for_each (insert_body computed plan) l ((pre ++ ins ++ op :: l, m'), sw')
      = (let '(r, m2, sw2) := expanded computed plan l m' in Ok ((pre ++ ins ++ op :: r, m2), sw' ++ sw2))) as Hrest.
    { intros m' Hm' ins Hins sw'.
      assert (forall z, pre ++ ins ++ op :: z = (pre ++ ins ++ [op]) ++ z) as Hz by (intros z; by rewrite <- !app_assoc).
      rewrite (Hz l), IH; [|done| | |intros a Ha; apply (Hno a); list_mem|done].
      - destruct (expanded computed plan l m') as [[r m2] sw2]. by rewrite <- Hz.
      - intros x Hx. rewrite !elem_of_app, list_elem_of_singleton. intros [Hp|[Hi| ->]].
        + apply (Hpre x); [list_mem | done].
        + destruct (Hins x Hi) as (a & _ & ->). apply (Hno a). list_mem.
        + done.
      - intros a Ha. rewrite !elem_of_app, list_elem_of_singleton. intros [[Hp|[Hi|Ho]]|Hl].
        + apply (Hfresh a); [lia | apply elem_of_app; by left].
        + destruct (Hins _ Hi) as (b & Hb & Heq%Hinj). lia.
        + apply (Hno a). rewrite Ho. list_mem.
        + apply (Hno a). list_mem. }
    pose proof (Hrest m (le_n _) [] ltac:(by intros x ?%elem_of_nil) sw) as Hkeep. cbn [app] in Hkeep.
    assert (insert_body computed plan op ((pre ++ op :: l, m), sw) =
      match dget plan op with
      | Some infos =>
          if computed op then
            r ← insert_restickify_on_node_inputs op infos (pre ++ op :: l, m);
            Ok (r.1, sw ++ [(op, r.2)])
          else Ok ((pre ++ op :: l, m), sw)
      | None => Ok ((pre ++ op :: l, m), sw)
      end) as -> by done.
    destruct (dget plan op) as [infos|] eqn:Hp; [|cbn [mbind res_bind]; rewrite Hkeep; by destruct (expanded computed plan l m) as [[r m2] sw2]].
    destruct (computed op); [|cbn [mbind res_bind]; rewrite Hkeep; by destruct (expanded computed plan l m) as [[r m2] sw2]].
    rewrite insert_on_node_spec; [|apply Hpre; list_mem | done | done | by eapply Hidx].
    cbn [mbind res_bind fst snd]. rewrite Hrest; [|lia|].
    + destruct (expanded computed plan l (m + length infos)) as [[r m2] sw2]. by rewrite <- (app_assoc sw).
    + intros x (a & -> & Ha%elem_of_seq)%list_elem_of_fmap. exists a. split; [lia | done].
Qed.

(** [insert_restickify] keeps the order of the operations and puts the
    restickifies of a reader directly before it: on distinct operations whose names
    lowering does not reuse, the pass returns, the operation list is the original
    one with each planned reader preceded by its new operations in plan order, and
    the reader's swaps pair its plan entries with those new buffers. *)
Theorem insert_restickify_order computed plan operations n :
  NoDup operations -> (forall a, gen a ∉ operations) ->
  (forall op infos, dget plan op = Some infos -> Forall (fun e => is_Some (info_index e)) infos) ->
  insert_restickify computed plan (operations, n) =
    (let '(r, m, sw) := expanded computed plan operations n in Ok ((r, m), sw))
  /\ filter (fun x => x ∈ operations) (expanded computed plan operations n).1.1 = operations.
Proof.
  intros Hnd Hno Hidx. split.
  - unfold insert_restickify. cbn [fst]. pose proof (insert_pass computed plan operations [] n []) as H.
    cbn [app] in H. rewrite H; [done | done | by intros x _ ?%elem_of_nil | by intros a _ | done | done].
  - assert (forall (l : list string) k, (forall x, x ∈ l -> x ∈ operations) ->
      filter (fun x => x ∈ operations) (expanded computed plan l k).1.1 = l) as Hf.
    { induction l as [|op l IH]; intros k Hl; [done|]. cbn [expanded].
      assert (op ∈ operations) as Hop by (apply Hl; list_mem).
      assert (forall x, x ∈ l -> x ∈ operations) as Hl' by (intros x Hx; apply Hl; list_mem).
      destruct (dget plan op) as [infos|]; [destruct (computed op)|].
      - specialize (IH (k + length infos)%nat Hl'). destruct (expanded computed plan l _) as [[r m] sw]. cbn [fst] in *.
        rewrite filter_app, filter_cons_True, IH by done. rewrite filter_none; [done|].
        intros x (a & -> & _)%list_elem_of_fmap. apply Hno.
      - specialize (IH k Hl'). destruct (expanded computed plan l k) as [[r m] sw]. cbn [fst] in *.
        by rewrite filter_cons_True, IH by done.
      - specialize (IH k Hl'). destruct (expanded computed plan l k) as [[r m] sw]. cbn [fst] in *.
        by rewrite filter_cons_True, IH by done. }
    by apply Hf.
Qed.

(** The copy in goes directly before the mutation and the copy back directly after. *)
Lemma insert_around_mutation_spec mutation_op l1 l2 n :
  mutation_op ∉ l1 -> (forall m, (n <= m)%nat -> gen m ∉ l1 ++ mutation_op :: l2) ->
  insert_around_mutation mutation_op (l1 ++ mutation_op :: l2, n) =
    Ok ((l1 ++ gen n :: mutation_op :: gen (S n) :: l2, S (S n)), (gen n, gen (S n))).
Proof.
  intros Hm Hfresh. unfold insert_around_mutation, _create_restickify_node. cbn [fst snd].
  assert (gen n <> gen (S n)) as Hne by (intros H%Hinj; lia).
  rewrite <- !(app_assoc l1). cbn [app]. rewrite py_index_middle by done. cbn [mbind res_bind].
  assert (py_remove (l1 ++ mutation_op :: (l2 ++ [gen n]) ++ [gen (S n)]) (gen n)
          = Ok (l1 ++ mutation_op :: l2 ++ [gen (S n)])) as ->.
  { unfold py_remove. rewrite <- (app_assoc l2).
    cbn [app]. rewrite (app_assoc l1 (mutation_op :: l2) (gen n :: [gen (S n)]) : l1 ++ mutation_op :: l2 ++ gen n :: [gen (S n)] = _).
    rewrite py_index_middle by (apply Hfresh; lia). cbn [mbind res_bind].
    rewrite take_app_length. rewrite (app_assoc _ [gen n] [gen (S n)] : (l1 ++ mutation_op :: l2) ++ gen n :: [gen (S n)] = _).
    rewrite drop_app_length' by (rewrite !length_app; cbn; lia). by rewrite <- (app_assoc l1). }
  cbn [mbind res_bind]. unfold py_insert. rewrite take_app_length, drop_app_length.
  rewrite (app_assoc l1 (gen n :: mutation_op :: l2) [gen (S n)] : l1 ++ gen n :: mutation_op :: l2 ++ [gen (S n)] = _).
  rewrite py_remove_last.
  - cbn [mbind res_bind].
    rewrite (app_assoc l1 [gen n; mutation_op] l2 : l1 ++ gen n :: mutation_op :: l2 = _).
    rewrite take_app_length', drop_app_length' by (rewrite length_app; cbn; lia). by rewrite <- (app_assoc l1).
  - pose proof (Hfresh (S n) ltac:(lia)) as Hf. rewrite elem_of_app, !elem_of_cons in *.
    intros [?|[?|[?|?]]]; [tauto | congruence | tauto | tauto].
Qed.

End edits.

(** ** Loop metadata of an inserted restickify *)

Section loops.
Context {STL : Type}.

(** [CoarseTileInfo], the fields the pass reads and writes. *)
Record CoarseTileInfo := mkLoopInfo {
  loop_group_id : list Z;
  loop_count : list Z;
  (** per read and nesting level, the dimensions that advance *)
  tiled_dims_per_read : option (list (list (list Z)));
  squeezed_advance_per_read : list (list (list Z));
  output_tiled_dims : list (list Z)
}.

(** [_restickify_dep_index] *)
Definition _restickify_dep_index (memory_deps : list MemoryDep) (e : RestickifyArgInfo STL)
    : res (option nat) :=
  let matches := match info_index e with
    | None => omap (fun '(i, d) => if bool_decide (dep_name d = arg_name e) then Some i else None)
                (imap pair memory_deps)
    | Some idx => omap (fun '(i, d) =>
          if bool_decide (dep_name d = arg_name e) && bool_decide (dep_index d = idx)
          then Some i else None) (imap pair memory_deps)
    end in
  match info_index e, matches with
  | _, _ :: _ :: _ => Raise AssertionError
  | _, [i] => Ok (Some i)
  | None, [] => Ok None
  | Some _, [] => Raise AssertionError
  end.

(** The common prefix of the two loop nests. *)
Fixpoint shared_loop_depth (source consumer : list Z) : nat :=
  match source, consumer with
  | s :: source', c :: consumer' => if s =? c then S (shared_loop_depth source' consumer') else O
  | _, _ => O
  end.

(** [level if level_idx < depth else []] and its complement *)
Definition transferred (depth : nat) (adv : list (list Z)) : list (list Z) :=
  imap (fun i level => if (i <? depth)%nat then level else []) adv.
Definition retained (depth : nat) (adv : list (list Z)) : list (list Z) :=
  imap (fun i level => if (i <? depth)%nat then [] else level) adv.

(** [any(levels)] *)
Definition any_level (adv : list (list Z)) : bool := existsb (fun l => negb (bool_decide (l = []))) adv.

Definition no_advance (n_levels : nat) : list (list Z) := replicate n_levels [].

(** [l[i] = x], which raises outside the list *)
Definition set_item {A} (l : list A) (i : nat) (x : A) : res (list A) :=
  if (i <? length l)%nat then Ok (<[i := x]> l) else Raise IndexError.

(** The loop metadata of the new operation and of its consumer. *)
Definition inherit_loop_info (source consumer : option CoarseTileInfo) (memory_deps : list MemoryDep)
    (e : RestickifyArgInfo STL) : res (option CoarseTileInfo * option CoarseTileInfo) :=
  match consumer with
  | None => Ok (None, None)
  | Some cli =>
      let depth := match source with
                   | Some sli => shared_loop_depth (loop_group_id sli) (loop_group_id cli)
                   | None => O
                   end in
      let n_levels := length (loop_count cli) in
      if (0 <? depth)%nat then
        match tiled_dims_per_read cli with
        | Some reads_per_dim =>
            if (n_levels =? 0)%nat then Ok (Some cli, Some cli)
            else
              dep_idx ← _restickify_dep_index memory_deps e;
              _ ← match dep_idx with
                  | Some i => py_assert (i <? length reads_per_dim)%nat
                  | None => Ok tt
                  end;
              let dep_advance := match dep_idx with
                | Some i => default [] (reads_per_dim !! i)
                | None => no_advance n_levels
                end in
              let adv_per_read := squeezed_advance_per_read cli in
              let dep_squeezed := match dep_idx with
                | Some i => default [] (adv_per_read !! i)
                | None => []
                end in
              let t_adv := transferred depth dep_advance in
              let t_sq := transferred depth dep_squeezed in
              _ ← raise_if (negb (occurrence e =? 0)%nat && (any_level t_adv || any_level t_sq)) Unsupported;
              let restick_li := mkLoopInfo (loop_group_id cli) (loop_count cli) (Some [t_adv])
                                  (if any_level t_sq then [t_sq] else []) (no_advance n_levels) in
              match dep_idx with
              | None => Ok (Some restick_li, Some cli)
              | Some i =>
                  reads' ← set_item reads_per_dim i (retained depth dep_advance);
                  adv' ← (if bool_decide (adv_per_read = []) then Ok adv_per_read
                          else set_item adv_per_read i (retained depth dep_squeezed));
                  Ok (Some restick_li,
                      Some (mkLoopInfo (loop_group_id cli) (loop_count cli) (Some reads') adv'
                              (output_tiled_dims cli)))
              end
        | None => Ok (Some cli, Some cli)
        end
      else
        Ok (Some (mkLoopInfo (loop_group_id cli) (loop_count cli) (Some [no_advance n_levels]) []
                    (no_advance n_levels)), Some cli)
  end.

(** The advance of a read at a nesting level. *)
Definition advance_at (reads : option (list (list (list Z)))) (i lvl : nat) : list Z :=
  default [] (default [] (default [] reads !! i) !! lvl).

Lemma transferred_lookup depth adv lvl :
  default [] (transferred depth adv !! lvl) = if (lvl <? depth)%nat then default [] (adv !! lvl) else [].
Proof.
  unfold transferred. rewrite list_lookup_imap. destruct (adv !! lvl); cbn [fmap option_fmap option_map default id]; by destruct (lvl <? depth)%nat.
Qed.

Lemma retained_lookup depth adv lvl :
  default [] (retained depth adv !! lvl) = if (lvl <? depth)%nat then [] else default [] (adv !! lvl).
Proof.
  unfold retained. rewrite list_lookup_imap. destruct (adv !! lvl); cbn [fmap option_fmap option_map default id]; by destruct (lvl <? depth)%nat.
Qed.

Lemma dep_index_spec memory_deps e i :
  _restickify_dep_index memory_deps e = Ok (Some i) ->
  exists d, memory_deps !! i = Some d /\ dep_name d = arg_name e
            /\ forall idx, info_index e = Some idx -> dep_index d = idx.
Proof.
  unfold _restickify_dep_index. destruct (info_index e) as [idx|].
  all: destruct (omap _ _) as [|j [|]] eqn:E; try done; intros [= ->].
  all: match type of E with ?l = _ => assert (i ∈ l) as Hi by (rewrite E; list_mem) end; clear E.
  all: apply list_elem_of_omap in Hi as ([j d] & (k & Hk)%list_elem_of_lookup & Hj).
  all: rewrite list_lookup_imap in Hk; destruct (memory_deps !! k) as [d'|] eqn:Ed; [|done]; injection Hk as <- <-.
  - destruct (bool_decide_reflect (dep_name d' = arg_name e)), (bool_decide_reflect (dep_index d' = idx));
      cbn in Hj; try done. injection Hj as <-. exists d'. split_and!; [done | done | congruence].
  - destruct (bool_decide_reflect (dep_name d' = arg_name e)); [|done]. injection Hj as <-. exists d'. done.
Qed.

(** A restickify inserted in a loop nest takes over the advance of the read it
    serves in the loops it shares with the producer and only those: at every level
    exactly one of the new operation and the consumer advances as the consumer did,
    and the consumer's other reads are untouched.  (A level outside the shared
    prefix keeps advancing in the consumer; inside it the consumer stops.) *)
Theorem restickify_advance_split source cli memory_deps (e : RestickifyArgInfo STL) rli cli' i :
  inherit_loop_info (Some source) (Some cli) memory_deps e = Ok (Some rli, Some cli') ->
  let depth := shared_loop_depth (loop_group_id source) (loop_group_id cli) in
  (0 < depth)%nat -> loop_count cli <> [] -> is_Some (tiled_dims_per_read cli) ->
  _restickify_dep_index memory_deps e = Ok (Some i) ->
  loop_group_id rli = loop_group_id cli /\ loop_group_id cli' = loop_group_id cli
  /\ (forall lvl,
        advance_at (tiled_dims_per_read rli) 0 lvl
          = (if (lvl <? depth)%nat then advance_at (tiled_dims_per_read cli) i lvl else [])
        /\ advance_at (tiled_dims_per_read cli') i lvl
          = (if (lvl <? depth)%nat then [] else advance_at (tiled_dims_per_read cli) i lvl))
  /\ (forall j lvl, j <> i ->
        advance_at (tiled_dims_per_read cli') j lvl = advance_at (tiled_dims_per_read cli) j lvl)
  /\ (forall lvl, default [] (output_tiled_dims rli !! lvl) = []).
Proof.
  intros H depth Hd Hn [reads Hr] Hi. unfold inherit_loop_info in H. fold depth in H.
  rewrite (proj2 (Nat.ltb_lt _ _) Hd), Hr in H.
  destruct (loop_count cli) as [|c0 cs] eqn:Ec; [done|]. cbn [length Nat.eqb] in H. rewrite Hi in H.
  cbn [mbind res_bind] in H. apply bind_Ok in H as ([] & Hlt%py_assert_Ok & H).
  apply bind_Ok in H as ([] & _ & H). unfold set_item in H. rewrite Hlt in H. cbn [mbind res_bind] in H.
  apply bind_Ok in H as (adv' & _ & H). injection H as <- <-. apply Nat.ltb_lt in Hlt.
  destruct (lookup_lt_is_Some_2 reads i Hlt) as [adv Hadv]. rewrite Hadv.
  cbn [loop_group_id tiled_dims_per_read output_tiled_dims].
  unfold advance_at. rewrite Hr. cbn [default id].
  split_and!; [done | done | | |].
  - intros lvl. rewrite list_lookup_insert_eq, Hadv by done. cbn [default id lookup list_lookup].
    by rewrite transferred_lookup, retained_lookup.
  - intros j lvl Hj. by rewrite list_lookup_insert_ne by done.
  - intros lvl. unfold no_advance. destruct (replicate _ _ !! lvl) as [x|] eqn:E; [|done].
    by apply lookup_replicate in E as [-> _].
Qed.

End loops.

(** ** A small graph *)

(** An empty buffer, a producer that is a tiled reduction, a mutation of the empty buffer
    and a tiled reduction into the same buffer that reads the mutation's result in another layout. *)
Definition accum_ops : list (fop Z) :=
  [ mkFop (mkOp "acc" (Some ([0; 1], AnyInNode))) None true false;
    mkFop (pointwise "p" [0; 1] [("x", [0; 1])]) (Some "tmp") false false;
    mkFop (mkOp "w" (Some ([0; 1], AllSameNode [edge_on "p" [0; 1] "w"] [edge_on "acc" [0; 1] "w"])))
      None false false;
    mkFop (requiring "z" [0] 1 "w" [0; 1]) (Some "acc") false false ]%string.

Definition accum_lay : dict (blayout Z) :=
  [("x", Fixed); ("acc", Fixed); ("p", Fixed); ("w", Mutation "acc"); ("z", Fixed); ("tmp", Fixed)]%string.

Definition accum_choice : dict Z := [("x", 0); ("acc", 0); ("p", 0); ("w", 0); ("z", 0)]%string.

Lemma accum_wf : wf_graph (planned (fop_op <$> accum_ops)) chain_inputs.
Proof.
  split.
  - apply (bool_decide_unpack _). vm_compute. exact I.
  - intros n l [[= -> ->]|?%elem_of_nil]%elem_of_cons; done.
  - apply ops_ordered_check. vm_compute. reflexivity.
  - intros o Ho. repeat (apply elem_of_cons in Ho as [->|Ho]; [done|]). by apply elem_of_nil in Ho.
Qed.

Lemma accum_feasible : feasible (planned (fop_op <$> accum_ops)) chain_inputs (dget accum_choice) 128.
Proof.
  split; [split|].
  - intros o Ho. repeat (apply elem_of_cons in Ho as [->|Ho];
      [eexists; split; [|vm_compute; reflexivity]; apply (bool_decide_unpack _); vm_compute; exact I|]).
    by apply elem_of_nil in Ho.
  - intros n stl l [[= -> -> ->]|?%elem_of_nil]%elem_of_cons; done.
  - vm_compute. reflexivity.
Qed.

Lemma finalize_realizes_cost_witness :
  exists lay p, finalize_layouts accum_ops chain_inputs accum_choice accum_lay = Ok (lay, p)
                /\ plan_cost accum_choice p = 128.
Proof.
  apply (finalize_realizes_cost accum_ops chain_inputs accum_choice 128 accum_lay accum_wf accum_feasible).
  - intros o Ho. repeat (apply elem_of_cons in Ho as [->|Ho]; [vm_compute; eauto|]). by apply elem_of_nil in Ho.
  - intros pre o post l t Hs Hl Ht _. destruct pre as [|? pre]; [by injection Hs as <- <-|]. injection Hs as <- Hs.
    destruct pre as [|? pre]; [by injection Hs as <- <-|]. injection Hs as <- Hs.
    destruct pre as [|? pre]; [|injection Hs as <- Hs; destruct pre as [|? pre]; [by injection Hs as <- <- | by destruct pre]].
    injection Hs as <- <-. injection Ht as <-. injection Hl as <-. split; [|intros t'; vm_compute; discriminate].
    left. eexists _, _, _. split_and!; [reflexivity | apply list_elem_of_here | reflexivity].
  - intros pre o post a Hs Ha. destruct pre as [|? pre]; [by injection Hs as <- <-|]. injection Hs as <- Hs.
    destruct pre as [|? pre]; [injection Hs as <- <-; injection Ha as <- | injection Hs as <- Hs].
    + split; [vm_compute; eauto|]. right. apply (bool_decide_unpack _). vm_compute. exact I.
    + destruct pre as [|? pre]; [by injection Hs as <- <-|]. injection Hs as <- Hs. destruct pre as [|? pre]; [|by destruct pre].
      injection Hs as <- <-. injection Ha as <-. split; [vm_compute; eauto|]. left.
      split; [right; eexists _, _; split_and!; [apply list_elem_of_here | reflexivity | reflexivity] | intros t'; vm_compute; discriminate].
Defined.

(** A reader of "p" at two indices, the first twice: only the last occurrence of
    the first index and the second index change layout. *)
Definition routed_edges : list (EdgeCostMap Z * Z) :=
  [ (mkEdge (mkDep "p" "i") [0] (mkDep "z" "i") "z" None, 0);
    (mkEdge (mkDep "p" "i") [0] (mkDep "z" "i") "z" None, 1);
    (mkEdge (mkDep "p" "j") [0] (mkDep "z" "i") "z" None, 2) ]%string.

Definition routed_lay : dict (blayout Z) := [("p", Tiled 0)]%string.

Lemma loads_follow_plan_witness :
  exists infos occ seen,
    for_each (schedule_edge accum_ops routed_lay) routed_edges ([], []) = Ok (infos, occ)
    /\ loads id (plan_swaps infos ["b1"; "b2"]%string) [] [("p", "i"); ("p", "i"); ("p", "j")]%string []
       = Ok (["p"; "b1"; "b2"]%string, seen).
Proof.
  apply (loads_follow_plan accum_ops routed_lay routed_edges
    [(("p", "i"), None); (("p", "i"), Some 1); (("p", "j"), Some 2)]%string id).
  - repeat constructor; eexists; split; reflexivity.
  - intros i j key t Hij Hi Hj. destruct i as [|[|[|i]]]; try discriminate Hi.
    + destruct j as [|[|[|j]]]; [lia | lia | discriminate Hj | discriminate Hj].
    + destruct j as [|[|[|j]]]; [lia | lia | lia | discriminate Hj].
  - repeat constructor.
  - cbn. lia.
Defined.

Definition buffer_name (n : nat) : string := ("restick" +:+ pretty n)%string.

Lemma buffer_name_inj a b : buffer_name a = buffer_name b -> a = b.
Proof. unfold buffer_name. intros H. by apply (inj (String.append _)), (inj pretty) in H. Qed.

Lemma insert_restickify_order_witness :
  insert_restickify buffer_name (fun _ => true)
    [("z", [mkInfo (STL := Z) "p" (Some "i") 0 1; mkInfo "q" (Some "i") 0 2])]%string
    (["p"; "q"; "z"]%string, O)
  = Ok ((["p"; "q"; "restick0"; "restick1"; "z"]%string, 2%nat),
        [("z", ([mkSwap "p" "i" 0 "restick0"; mkSwap "q" "i" 0 "restick1"], []))]%string).
Proof.
  refine (eq_trans (proj1 (insert_restickify_order buffer_name buffer_name_inj (fun _ => true)
    [("z", [mkInfo (STL := Z) "p" (Some "i") 0 1; mkInfo "q" (Some "i") 0 2])]%string
    ["p"; "q"; "z"]%string 0 _ _ _)) _).
  - apply (bool_decide_unpack _). vm_compute. exact I.
  - intros a Ha. repeat (apply elem_of_cons in Ha as [Ha|Ha]; [discriminate Ha|]). by apply elem_of_nil in Ha.
  - intros op infos. cbn [dget]. case_decide; [|done]. intros [= <-]. repeat constructor; by eexists.
  - vm_compute. reflexivity.
Defined.

(** A reader two loops deep, whose producer shares only the outer loop. *)
Definition nest_consumer : CoarseTileInfo :=
  mkLoopInfo [1; 2] [4; 8] (Some [[[0]; [1]]; [[2]; [3]]]) [] [[0]; [0]].
Definition nest_source : CoarseTileInfo := mkLoopInfo [1; 7] [4; 3] None [] [].

Lemma restickify_advance_split_witness :
  exists rli cli',
    inherit_loop_info (Some nest_source) (Some nest_consumer) [mkDep "a" "i"; mkDep "p" "i"]%string
      (mkInfo (STL := Z) "p" (Some "i") 0 1)%string = Ok (Some rli, Some cli')
    /\ advance_at (tiled_dims_per_read rli) 0 0 = [2] /\ advance_at (tiled_dims_per_read rli) 0 1 = []
    /\ advance_at (tiled_dims_per_read cli') 1 0 = [] /\ advance_at (tiled_dims_per_read cli') 1 1 = [3].
Proof.
  destruct (inherit_loop_info (Some nest_source) (Some nest_consumer) [mkDep "a" "i"; mkDep "p" "i"]%string
      (mkInfo (STL := Z) "p" (Some "i") 0 1)%string) as [[[rli|] [cli'|]]|] eqn:E;
    try (vm_compute in E; discriminate E).
  destruct (restickify_advance_split nest_source nest_consumer _ _ rli cli' 1 E) as (_ & _ & Hadv & _);
    [vm_compute; lia | discriminate | by eexists | reflexivity |].
  exists rli, cli'. split; [done|]. destruct (Hadv O) as [-> ->], (Hadv 1%nat) as [-> ->].
  repeat split; reflexivity.
Defined.
