(* ===== verification/CoreViews.v ===== *)
(** * Per-core views and their inversion ([core_mapping.py], [pass_utils.py])

    A [PerCoreView] says which slice of a buffer each core owns, in the buffer's own
    device dimensions.  This file models the comparison of two views
    ([same_owner_maps], [core_mappings_equal]), the expansion of a view into one slot
    per core ([owner_slots]), the copies needed between two ownerships
    ([transfer_edges]), and the search for a split map whose view of a buffer is a given
    one ([invert_per_core_view]).

    An owner formula is a function of the core, as in [CoreMapping].  The forward
    map [_per_core_view_from_prep] projects sympy coordinates; its early returns are
    written out and the rest is the field [forward] of the precomputed record. *)

From S2P Require Import Prelude PyDict CoreMapping.

(** ** Views *)

Record PerCoreView := mkView {
  work_slice_dims : list (Z * Z);
  core_to_slot : list (Z * owner);
  view_num_cores : option Z
}.

Definition split_product (v : PerCoreView) : Z := zprod (snd <$> work_slice_dims v).

(** [self.num_cores if self.num_cores is not None else self.split_product] *)
Definition view_cores (v : PerCoreView) : Z := default (split_product v) (view_num_cores v).

(** [dict(pairs)] *)
Definition dict_of {V} (l : list (Z * V)) : list (Z * V) := foldl (fun m kv => aset kv.1 kv.2 m) [] l.

(** [range(n)] over cores *)
Definition core_range (n : Z) : list Z := Z.of_nat <$> seq 0 (Z.to_nat n).

(** Equality of two dicts, which ignores their order. *)
Definition same_items (l r : list (Z * Z)) : bool :=
  (length l =? length r)%nat && forallb (fun kv => bool_decide (aget r kv.1 = Some kv.2)) l.

(** [_core_mappings_equal_cached] *)
Definition _core_mappings_equal_cached (left right : list (Z * owner)) (num_cores : Z) : bool :=
  forallb (fun lr => forallb (fun core => lr.1.2 core =? lr.2.2 core) (core_range num_cores)) (zip left right).

Definition key_le {V} (a b : Z * V) : bool := a.1 <=? b.1.

Definition core_mappings_equal (left right : list (Z * owner)) (num_cores : Z) : bool :=
  if num_cores <=? 0 then false
  else if negb (forallb (fun k => bool_decide (k ∈ right.*1)) left.*1
                && forallb (fun k => bool_decide (k ∈ left.*1)) right.*1) then false
  else _core_mappings_equal_cached (py_sorted key_le left) (py_sorted key_le right) num_cores.

(** [{dim: slots[dim] for dim in splits}]; a missing formula is a [KeyError]. *)
Definition select (slots : list (Z * owner)) (splits : list (Z * Z)) : option (list (Z * owner)) :=
  mapM (fun kv => (fun f => (kv.1, f)) <$> aget slots kv.1) splits.

Definition same_owner_maps (left_splits : list (Z * Z)) (left_slots : list (Z * owner)) (left_cores : Z)
    (right_splits : list (Z * Z)) (right_slots : list (Z * owner)) (right_cores : Z) : bool :=
  if left_cores <=? 0 then false
  else if negb (left_cores =? right_cores) then false
  else
    let left := filter (fun kv => 1 < kv.2) left_splits in
    let right := filter (fun kv => 1 < kv.2) right_splits in
    if bool_decide (left = []) && bool_decide (right = []) then true
    else if negb (same_items left right) then false
    else match select left_slots left, select right_slots right with
         | Some l, Some r => core_mappings_equal l r left_cores
         | _, _ => false
         end.

Definition same_partition (v w : PerCoreView) : bool :=
  same_owner_maps (dict_of (work_slice_dims v)) (dict_of (core_to_slot v)) (view_cores v)
    (dict_of (work_slice_dims w)) (dict_of (core_to_slot w)) (view_cores w).

(** [per_core_views_equal] *)
Definition per_core_views_equal (left right : option PerCoreView) : bool :=
  match left, right with
  | Some v, Some w => same_partition v w
  | None, None => true
  | _, _ => false
  end.

(** ** Slots and transfers *)

(** One slot of [owner_slots]. *)
Definition owner_slot (slots : list (Z * owner)) (core : Z) (dim_split : Z * Z) : res (Z * Z) :=
  match aget slots dim_split.1 with
  | None => Raise ValueError
  | Some formula =>
      let value := formula core in
      raise_if (negb ((0 <=? value) && (value <? dim_split.2))) ValueError;;
      Ok (dim_split.1, value)
  end.

Definition owner_slots (slots : list (Z * owner)) (splits : list (Z * Z)) (num_cores : Z)
    : res (list (list (Z * Z))) :=
  raise_if (num_cores <=? 0) ValueError;;
  raise_if (negb (forallb (fun kv => bool_decide (is_Some (aget slots kv.1))) splits)) ValueError;;
  py_map (fun core => py_map (owner_slot slots core) splits) (core_range num_cores).

(** [core_slices]: the rows, numbered by core. *)
Definition core_slices (v : PerCoreView) (num_cores : Z) : res (list (Z * list (Z * Z))) :=
  match view_num_cores v with
  | Some n => raise_if (n <=? 0) ValueError;; raise_if (negb (n =? num_cores)) ValueError
  | None => Ok tt
  end;;
  rows ← owner_slots (dict_of (core_to_slot v)) (dict_of (work_slice_dims v)) num_cores;
  Ok (zip (core_range num_cores) rows).

(** Slice [a] of [an] and slice [b] of [bn] of one axis meet. *)
Definition _overlap (a an b bn : Z) : bool := (a * bn <? (b + 1) * an) && (b * an <? (a + 1) * bn).

(** Whether two cores' slices meet in every dimension. *)
Definition slices_meet (source_splits destination_splits : list (Z * Z)) (s_slice d_slice : list (Z * Z)) : bool :=
  forallb (fun dim => _overlap (default 0 (aget s_slice dim)) (default 1 (aget source_splits dim))
                               (default 0 (aget d_slice dim)) (default 1 (aget destination_splits dim)))
    (source_splits.*1 ++ destination_splits.*1).

Definition transfer_edges (source_splits destination_splits : list (Z * Z))
    (source_map destination_map : list (Z * list (Z * Z))) : list (Z * Z) :=
  s ← source_map;
  d ← destination_map;
  if slices_meet source_splits destination_splits s.2 d.2 then [(s.1, d.1)] else [].

(** ** The precomputed view of one access *)

(** [_ViewPrep], with [forward s ownership] for what [_per_core_view_from_prep] returns
    past its early returns: the view and whether it is representable. *)
Record ViewPrep := mkPrep {
  iter_space : list string;
  dep_coeff : dict Z;
  device_stride_to_dim : list (Z * Z);
  stick_host_stride : option Z;
  num_stick_dim : option Z;
  num_stick_stride : Z;
  forward : dict Z -> option TensorWorkDivision -> res (PerCoreView * bool)
}.

(** The placement maps of [_prepare_per_core_view]. *)
Definition place_stride (device_size : list Z) (ie : nat * Z) (m : list (Z * Z)) : res (list (Z * Z)) :=
  if ie.2 <=? 0 then Ok m
  else match aget m ie.2 with
       | None => Ok (aset ie.2 (Z.of_nat ie.1) m)
       | Some _ =>
           size ← match device_size !! ie.1 with Some s => Ok s | None => Raise IndexError end;
           Ok (if size =? 1 then m else aset ie.2 (Z.of_nat ie.1) m)
       end.

Definition stride_dims (stride_map device_size : list Z) : res (list (Z * Z)) :=
  for_each (place_stride device_size) (zip (seq 0 (length stride_map)) stride_map) [].

(** [(stick_host_stride, num_stick_dim, num_stick, num_stick_stride)] *)
Definition stick_placement (stride_map device_size : list Z) (elems_per_stick : Z) (dims : list (Z * Z))
    : res (option Z * option Z * Z * Z) :=
  match last stride_map with
  | None => Raise IndexError
  | Some inner =>
      if inner <=? 0 then Ok (None, None, 0, 0)
      else match aget dims (inner * elems_per_stick) with
           | None => Ok (Some inner, None, 0, 0)
           | Some d =>
               num_stick ← py_nth device_size d;
               stride ← py_nth stride_map d;
               Ok (Some inner, Some d, num_stick, stride)
           end
  end.

Definition _view_placement (prep : ViewPrep) (host_stride : Z) : option (Z * Z) :=
  let dev_dim := if bool_decide (Some host_stride = stick_host_stride prep) then num_stick_dim prep
                 else aget (device_stride_to_dim prep) host_stride in
  match dev_dim with
  | Some d => Some (d, 1)
  | None =>
      match num_stick_dim prep with
      | Some d =>
          if (0 <? num_stick_stride prep) && (host_stride mod num_stick_stride prep =? 0)
          then let k := host_stride / num_stick_stride prep in if 1 <? k then Some (d, k) else None
          else None
      | None => None
      end
  end.

(** The early returns of [_per_core_view_from_prep]: the view and [representable]. *)
Definition no_view (num_cores : Z) : PerCoreView := mkView [] [] (Some num_cores).

Definition _per_core_view_from_prep (prep : option ViewPrep) (s : dict Z) (ownership : option TensorWorkDivision)
    : res (PerCoreView * bool) :=
  let num_cores := match ownership with Some w => physical_core_count w | None => zprod (dvalues s) end in
  if negb (existsb (fun n => 1 <? n) (dvalues s)) then Ok (no_view num_cores, true)
  else match prep with
       | None => Ok (no_view num_cores, false)
       | Some p => forward p s ownership
       end.

(** [has_partial_reduction]: some reduction axis is split, and the view is not empty-handed. *)
Definition has_partial_reduction (reduction : string -> bool) (s : dict Z) : bool :=
  existsb (fun kv => reduction kv.1 && (1 <? kv.2)) s.

(** [tile_ownership_view] *)
Definition tile_ownership_view (prep : option ViewPrep) (tile_splits : dict Z) : res (option PerCoreView) :=
  match prep with
  | None => Ok None
  | Some p =>
      let tile_syms := dkeys tile_splits in
      if negb (bool_decide (NoDup tile_syms) && forallb (fun s => bool_decide (s ∈ iter_space p)) tile_syms)
      then Ok None
      else
        let tiles := zprod (dvalues tile_splits) in
        let order := reverse tile_syms ++ filter (fun s => s ∉ tile_syms) (iter_space p) in
        slots ← core_to_slice_mapping order ((fun s => dget_or 1 tile_splits s) <$> order) tiles None;
        let s := (fun x => (x, dget_or 1 tile_splits x)) <$> iter_space p in
        vr ← _per_core_view_from_prep (Some p) s (Some (mkWorkDivision s slots (Some tiles)));
        Ok (if negb vr.2 then None
            else if bool_decide (work_slice_dims vr.1 = []) then Some (mkView [] [] (Some 1))
            else Some vr.1)
  end.

(** ** [invert_per_core_view] *)

Section inversion.
Context (prep : ViewPrep) (target : PerCoreView) (domains : dict (list Z)).
Context (accept : dict Z -> res bool).

#[local] Notation want := (dict_of (work_slice_dims target)).
#[local] Notation placement := (Z * string * Z)%type.

(** The symbols that can serve device dimension [dim], with the split each needs:
    [(host_stride, sym, split)]. *)
Definition option_for (dim : Z) (sym : string) : option placement :=
  let host_stride := dget_or 0 (dep_coeff prep) sym in
  if host_stride =? 0 then None
  else match _view_placement prep host_stride, aget want dim with
       | Some (dev_dim, k), Some w =>
           if negb (dev_dim =? dim) then None
           else if negb (w mod k =? 0) then None
           else let split := w / k in
                if bool_decide (split ∈ dget_or [] domains sym) then Some (host_stride, sym, split) else None
       | _, _ => None
       end.

(** Python's order on the tuples; the names are distinct. *)
Definition placement_le (a b : placement) : bool :=
  if a.1.1 =? b.1.1 then String.leb a.1.2 b.1.2 else a.1.1 <? b.1.1.

Definition options_for (dim : Z) : list placement :=
  py_sorted placement_le (omap (option_for dim) (iter_space prep)).

(** [sorted(want)] *)
Definition want_dims : list Z := py_sorted Z.leb want.*1.

Definition placed_of (choice : list placement) : dict Z := dupdate [] ((fun c => (c.1.2, c.2)) <$> choice).

(** The symbols a view does not show: off the buffer, or shadowed by a placed one. *)
Definition hidden_of (placed : dict Z) : list string :=
  let placed_strides := (fun s => dget_or 0 (dep_coeff prep) s) <$> dkeys placed in
  filter (fun s => s ∉ dkeys placed /\
            (dget_or 0 (dep_coeff prep) s = 0 \/ dget_or 0 (dep_coeff prep) s ∈ placed_strides)) (iter_space prep).

(** [sorted(set(domains.get(sym, ())) | {1})] *)
Definition hidden_domain (sym : string) : list Z := py_sorted Z.leb (remove_dups (1 :: dget_or [] domains sym)).

(** The candidates of one choice of placements, in order. *)
Definition candidates_of_choice (choice : list placement) : list (dict Z) :=
  let placed := placed_of choice in
  if negb (length placed =? length choice)%nat then []
  else
    let base := dupdate ((fun s => (s, 1)) <$> iter_space prep) placed in
    let hidden := hidden_of placed in
    (fun combo => dupdate base (zip hidden combo)) <$> cartesian (hidden_domain <$> hidden).

Definition view_candidates : list (dict Z) :=
  choice ← cartesian (options_for <$> want_dims); candidates_of_choice choice.

(** The core count of a candidate is the target's, where the target has one. *)
Definition right_cores (candidate : dict Z) : bool :=
  match view_num_cores target with None => true | Some n => zprod (dvalues candidate) =? n end.

(** The loop over the candidates; [probes] counts down from [max_probes]. *)
Fixpoint probe_candidates (probes : nat) (cs : list (dict Z)) : res (option (dict Z)) :=
  match cs with
  | [] => Ok None
  | candidate :: cs' =>
      if negb (right_cores candidate) then probe_candidates probes cs'
      else match probes with
           | O => Ok None
           | S probes' =>
               ok ← accept candidate;
               if negb ok then probe_candidates probes' cs'
               else
                 vr ← _per_core_view_from_prep (Some prep) candidate None;
                 if vr.2 && same_partition vr.1 target then Ok (Some candidate)
                 else probe_candidates probes' cs'
           end
  end.

Definition MAX_PROBES : nat := 256.

Definition invert_prep : res (option (dict Z)) :=
  if existsb (fun dim => bool_decide (options_for dim = [])) want.*1 then Ok None
  else probe_candidates MAX_PROBES view_candidates.

End inversion.

Definition invert_per_core_view (prep : option ViewPrep) (target : PerCoreView) (domains : dict (list Z))
    (accept : dict Z -> res bool) : res (option (dict Z)) :=
  match prep with
  | None => Ok None
  | Some p => invert_prep p target domains accept
  end.

(** ** Comparing views *)

Section items.
Context {V : Type}.
Implicit Types (l : list (Z * V)).

Lemma dict_of_NoDup l : NoDup (dict_of l).*1.
Proof.
  unfold dict_of. enough (forall m : list (Z * V), NoDup m.*1 -> NoDup (foldl (fun m kv => aset kv.1 kv.2 m) m l).*1) as H
    by (apply H; constructor).
  induction l as [|kv l IH]; intros m Hm; cbn [foldl]; [done|]. by apply IH, keys_aset_NoDup.
Qed.

Lemma filter_keys_NoDup (P : Z * V -> Prop) `{!forall x, Decision (P x)} l : NoDup l.*1 -> NoDup (filter P l).*1.
Proof.
  induction l as [|kv l IH]; intros Hnd; [by rewrite filter_nil|]. rewrite fmap_cons in Hnd. apply NoDup_cons in Hnd as [Hk Hnd].
  rewrite filter_cons. destruct (decide (P kv)); [|by apply IH]. rewrite fmap_cons. apply NoDup_cons. split; [|by apply IH].
  intros (kv' & Hk' & [_ Hin]%list_elem_of_filter)%list_elem_of_fmap. apply Hk. rewrite Hk'. by apply list_elem_of_fmap_2.
Qed.

Lemma aget_filter (P : Z * V -> Prop) `{!forall x, Decision (P x)} l k v :
  NoDup l.*1 -> aget (filter P l) k = Some v <-> aget l k = Some v /\ P (k, v).
Proof.
  intros Hnd. split.
  - intros [HP Hin]%aget_Some_elem%list_elem_of_filter. split; [by apply aget_NoDup | done].
  - intros [Hin%aget_Some_elem HP]. apply aget_NoDup; [by apply filter_keys_NoDup|]. by apply list_elem_of_filter.
Qed.

Lemma aget_None_key l k : aget l k = None <-> k ∉ l.*1.
Proof. rewrite eq_None_not_Some. by rewrite aget_is_Some. Qed.
End items.

Lemma same_items_spec l r :
  NoDup l.*1 -> NoDup r.*1 -> same_items l r = true <-> forall k, aget l k = aget r k.
Proof.
  intros Hl Hr. unfold same_items. rewrite andb_true_iff, Nat.eqb_eq, forallb_forall. setoid_rewrite <- list_elem_of_In.
  setoid_rewrite bool_decide_eq_true. split.
  - intros [Hlen Hin] k. destruct (aget l k) as [v|] eqn:E.
    + symmetry. exact (Hin (k, v) (aget_Some_elem _ _ _ E)).
    + symmetry. apply aget_None_key. apply aget_None_key in E. intros Hk. apply E.
      assert (l.*1 ⊆ r.*1) as Hsub.
      { intros x (kv & -> & Hkv)%list_elem_of_fmap. apply aget_is_Some. rewrite (Hin kv Hkv). eauto. }
      assert (l.*1 ≡ₚ r.*1) as ->; [|done].
      apply submseteq_length_Permutation; [by apply NoDup_submseteq | rewrite !length_fmap; lia].
  - intros Heq. split.
    + rewrite <- (length_fmap fst l), <- (length_fmap fst r). apply Permutation_length, NoDup_Permutation; [done | done|].
      intros k. by rewrite <- !aget_is_Some, Heq.
    + intros [k v] Hkv. rewrite <- Heq. by apply aget_NoDup.
Qed.

Lemma elem_of_core_range n c : c ∈ core_range n <-> 0 <= c < n.
Proof.
  unfold core_range. rewrite list_elem_of_fmap. setoid_rewrite elem_of_seq. split.
  - intros (i & -> & Hi). lia.
  - intros Hc. exists (Z.to_nat c). lia.
Qed.

Lemma select_spec slots splits sel :
  select slots splits = Some sel -> sel.*1 = splits.*1 /\ (forall k f, (k, f) ∈ sel -> aget slots k = Some f).
Proof.
  unfold select. rewrite mapM_Some. intros H. induction H as [|kv kf splits sel (f & Hf & ->)%fmap_Some _ [IH1 IH2]]; [split; [done | by intros k f ?%elem_of_nil]|].
  rewrite !fmap_cons, IH1. split; [done|]. intros k f'. rewrite elem_of_cons. intros [[= -> ->] | Hin]; eauto.
Qed.

Lemma select_is_Some slots splits :
  is_Some (select slots splits) <-> forall k, k ∈ splits.*1 -> is_Some (aget slots k).
Proof.
  unfold select. rewrite mapM_is_Some, Forall_forall. setoid_rewrite fmap_is_Some. split.
  - intros H k (kv & -> & Hkv)%list_elem_of_fmap. by apply H.
  - intros H kv Hkv. apply H. by apply list_elem_of_fmap_2.
Qed.

Lemma keys_sorted {V} (l : list (Z * V)) : StronglySorted Z.le (py_sorted key_le l).*1.
Proof.
  eapply (StronglySorted_fmap fst (fun a b : Z * V => a.1 <= b.1)); [done|].
  apply py_sorted_coarse; unfold key_le; intros; cases_lia.
Qed.

Lemma sorted_keys_eq {V W} (l : list (Z * V)) (r : list (Z * W)) :
  l.*1 ≡ₚ r.*1 -> (py_sorted key_le l).*1 = (py_sorted key_le r).*1.
Proof.
  intros Hp. apply (StronglySorted_unique Z.le); [apply keys_sorted | apply keys_sorted|].
  by rewrite !py_sorted_perm.
Qed.

Lemma zip_same_keys {V W} (l : list (Z * V)) (r : list (Z * W)) k f g :
  l.*1 = r.*1 -> NoDup l.*1 -> (k, f) ∈ l -> (k, g) ∈ r -> ((k, f), (k, g)) ∈ zip l r.
Proof.
  intros Hk Hnd (i & Hi)%list_elem_of_lookup (j & Hj)%list_elem_of_lookup.
  assert (i = j) as <-.
  { eapply NoDup_lookup; [exact Hnd | rewrite list_lookup_fmap, Hi; done | rewrite Hk, list_lookup_fmap, Hj; done]. }
  apply (list_elem_of_lookup_2 _ i). apply lookup_zip_with_Some. eauto.
Qed.

Lemma core_mappings_equal_spec l r n :
  NoDup l.*1 -> NoDup r.*1 ->
  core_mappings_equal l r n = true <->
  0 < n /\ (forall k, k ∈ l.*1 <-> k ∈ r.*1) /\
  (forall k f g core, (k, f) ∈ l -> (k, g) ∈ r -> 0 <= core < n -> f core = g core).
Proof.
  intros Hl Hr. unfold core_mappings_equal. destruct (Z.leb_spec n 0) as [Hn|Hn]; [split; [done | lia]|].
  destruct (_ && _) eqn:E; cbn [negb].
  - apply andb_true_iff in E as [E1 E2]. rewrite forallb_forall in E1, E2. setoid_rewrite <- list_elem_of_In in E1.
    setoid_rewrite <- list_elem_of_In in E2. setoid_rewrite bool_decide_eq_true in E1. setoid_rewrite bool_decide_eq_true in E2.
    assert (l.*1 ≡ₚ r.*1) as Hp by (apply NoDup_Permutation; firstorder).
    unfold _core_mappings_equal_cached. rewrite forallb_forall. setoid_rewrite <- list_elem_of_In. split.
    + intros Hall. split_and!; [done | firstorder|]. intros k f g core Hf Hg Hc.
      assert (((k, f), (k, g)) ∈ zip (py_sorted key_le l) (py_sorted key_le r)) as Hz.
      { apply zip_same_keys; [by apply sorted_keys_eq | by rewrite py_sorted_perm | by apply elem_of_py_sorted | by apply elem_of_py_sorted]. }
      specialize (Hall _ Hz). rewrite forallb_forall in Hall. apply Z.eqb_eq, (Hall core).
      by apply list_elem_of_In, elem_of_core_range.
    + intros (_ & _ & Hall) [[k f] [k' g]] (i & Hi)%list_elem_of_lookup. apply lookup_zip_with_Some in Hi as (a & b & [= <- <-] & Ha & Hb).
      assert (k = k') as <-.
      { pose proof (f_equal (lookup i) (sorted_keys_eq l r Hp)) as Hk.
        rewrite !list_lookup_fmap, Ha, Hb in Hk. by injection Hk. }
      apply forallb_forall. intros core Hc%list_elem_of_In%elem_of_core_range. apply Z.eqb_eq.
      apply (Hall k); [| | done]; eapply elem_of_py_sorted, list_elem_of_lookup_2; eassumption.
  - split; [done|]. intros (_ & Hk & _). exfalso. apply andb_false_iff in E as [E|E]; apply not_true_iff_false in E; apply E;
      apply forallb_forall; intros k Hin%list_elem_of_In; apply bool_decide_eq_true; by apply Hk.
Qed.

(** The comparison of the slots of the split dimensions. *)
Lemma selected_equal_spec ls rs (l r : list (Z * Z)) n :
  NoDup l.*1 -> NoDup r.*1 -> (forall k, k ∈ l.*1 <-> k ∈ r.*1) -> 0 < n ->
  match select ls l, select rs r with Some a, Some b => core_mappings_equal a b n | _, _ => false end = true <->
  forall k core, k ∈ l.*1 -> 0 <= core < n -> exists f g, aget ls k = Some f /\ aget rs k = Some g /\ f core = g core.
Proof.
  intros Hl Hr Hkeys Hn.
  assert ((forall k core, k ∈ l.*1 -> 0 <= core < n -> exists f g, aget ls k = Some f /\ aget rs k = Some g /\ f core = g core) ->
          is_Some (select ls l) /\ is_Some (select rs r)) as Hsome.
  { intros H. split; apply select_is_Some; intros k Hk; [|apply Hkeys in Hk];
      destruct (H k 0 Hk ltac:(lia)) as (f & g & ? & ? & _); eauto. }
  destruct (select ls l) as [sl|] eqn:Esl, (select rs r) as [sr|] eqn:Esr;
    try (split; [done | intros H; destruct (Hsome H) as [[? ?] [? ?]]; congruence]).
  destruct (select_spec _ _ _ Esl) as [Kl Sl], (select_spec _ _ _ Esr) as [Kr Sr].
  rewrite core_mappings_equal_spec by (rewrite ?Kl, ?Kr; done). rewrite Kl, Kr. split.
  - intros (_ & _ & Heq) k core Hk Hcore.
    assert (k ∈ sl.*1) as ([k1 f] & E1 & Hf)%list_elem_of_fmap by (by rewrite Kl).
    assert (k ∈ sr.*1) as ([k2 g] & E2 & Hg)%list_elem_of_fmap by (rewrite Kr; by apply Hkeys).
    cbn [fst] in E1, E2. subst k1 k2. exists f, g. split_and!; [by apply Sl | by apply Sr | by eapply Heq].
  - intros H. split_and!; [done | done|]. intros k f g core Hf Hg Hcore.
    assert (k ∈ l.*1) as Hk by (rewrite <- Kl; by apply (list_elem_of_fmap_2 fst) in Hf).
    destruct (H k core Hk Hcore) as (f' & g' & Hf' & Hg' & E). rewrite (Sl _ _ Hf) in Hf'. rewrite (Sr _ _ Hg) in Hg'. congruence.
Qed.

(** Two views agree when they are over the same positive number of cores, split the
    same dimensions alike and give every core the same slot of each. *)
Record same_slices (v w : PerCoreView) : Prop := {
  slices_cores : view_cores v = view_cores w;
  slices_pos : 0 < view_cores v;
  slices_splits : forall dim n, 1 < n ->
    aget (dict_of (work_slice_dims v)) dim = Some n <-> aget (dict_of (work_slice_dims w)) dim = Some n;
  slices_slots : forall dim n core, 1 < n -> aget (dict_of (work_slice_dims v)) dim = Some n -> 0 <= core < view_cores v ->
    exists f g, aget (dict_of (core_to_slot v)) dim = Some f /\ aget (dict_of (core_to_slot w)) dim = Some g /\ f core = g core
}.

(** The dimensions that are really split. *)
Lemma aget_split (l : list (Z * Z)) dim n :
  NoDup l.*1 -> aget (filter (fun kv : Z * Z => 1 < kv.2) l) dim = Some n <-> 1 < n /\ aget l dim = Some n.
Proof. intros Hnd. rewrite aget_filter by done. cbn. tauto. Qed.

Lemma same_splits_spec (l r : list (Z * Z)) :
  NoDup l.*1 -> NoDup r.*1 ->
  (forall k, aget (filter (fun kv : Z * Z => 1 < kv.2) l) k = aget (filter (fun kv : Z * Z => 1 < kv.2) r) k) <->
  (forall dim n, 1 < n -> aget l dim = Some n <-> aget r dim = Some n).
Proof.
  intros Hl Hr. split.
  - intros H dim n Hn. pose proof (aget_split l dim n Hl) as H1. pose proof (aget_split r dim n Hr) as H2. rewrite H in H1. tauto.
  - intros H k. apply option_eq. intros n. rewrite !aget_split by done. specialize (H k n). tauto.
Qed.

Lemma same_partition_spec v w : same_partition v w = true <-> same_slices v w.
Proof.
  unfold same_partition, same_owner_maps.
  set (ld := dict_of (work_slice_dims v)). set (rd := dict_of (work_slice_dims w)).
  assert (NoDup ld.*1) as Hld by apply dict_of_NoDup. assert (NoDup rd.*1) as Hrd by apply dict_of_NoDup.
  destruct (Z.leb_spec (view_cores v) 0) as [Hp|Hp]; [split; [done | intros []; lia]|].
  destruct (Z.eqb_spec (view_cores v) (view_cores w)) as [Hc|Hc]; cbn [negb]; [|split; [done | intros []; lia]].
  set (l := filter (fun kv : Z * Z => 1 < kv.2) ld). set (r := filter (fun kv : Z * Z => 1 < kv.2) rd).
  assert (NoDup l.*1 /\ NoDup r.*1) as [Hl Hr] by (split; by apply filter_keys_NoDup).
  assert (forall k, k ∈ l.*1 <-> exists n, 1 < n /\ aget ld k = Some n) as Hkl.
  { intros k. rewrite <- aget_is_Some. split; intros [n Hn]; exists n; by apply (aget_split ld k n Hld). }
  destruct (bool_decide (l = []) && bool_decide (r = [])) eqn:Enil.
  { apply andb_true_iff in Enil as [El%bool_decide_eq_true Er%bool_decide_eq_true]. split; [|done]. intros _.
    split; [done | done | |]; fold ld rd.
    - apply same_splits_spec; [done | done|]. intros k. fold l r. by rewrite El, Er.
    - intros dim n core Hn Hdim. assert (dim ∈ l.*1) as Hin by (apply Hkl; eauto). rewrite El in Hin. by apply elem_of_nil in Hin. }
  destruct (same_items l r) eqn:Ei; cbn [negb].
  - rewrite same_items_spec in Ei by done.
    rewrite selected_equal_spec; [|done | done | intros k; by rewrite <- !aget_is_Some, Ei | done]. split.
    + intros H. split; [done | done | |]; fold ld rd; [by apply same_splits_spec|].
      intros dim n core Hn Hdim Hcore. apply H; [apply Hkl; eauto | done].
    + intros [_ _ _ H] k core (n & Hn & Hdim)%Hkl Hcore. eauto.
  - split; [done|]. intros [_ _ Hs _]. apply not_true_iff_false in Ei. exfalso. apply Ei, same_items_spec; [done | done|].
    by apply same_splits_spec.
Qed.

(** ** A core that owns the slice it reads needs no other core *)

Lemma py_map_keys {V} (f : Z * Z -> res (Z * V)) l k :
  (forall x y, f x = Ok y -> y.1 = x.1) -> py_map f l = Ok k -> k.*1 = l.*1.
Proof.
  intros Hf H%py_map_Ok. induction H as [|x y l k Hx _ IH]; [done|]. by rewrite !fmap_cons, IH, (Hf x y).
Qed.

Lemma owner_slot_Ok slots core ds kv :
  owner_slot slots core ds = Ok kv ->
  exists f, aget slots ds.1 = Some f /\ kv = (ds.1, f core) /\ 0 <= f core < ds.2.
Proof.
  unfold owner_slot. destruct (aget slots ds.1) as [f|]; [|done]. intros ([] & H%raise_if_Ok & [= <-])%bind_Ok.
  exists f. split_and!; [done | done | |]; cases_lia.
Qed.

(** The row of one core: a slot inside the split, for each dimension of the view. *)
Lemma core_slices_row v n sl core row :
  core_slices v n = Ok sl -> (core, row) ∈ sl ->
  0 <= core < n /\ row.*1 = (dict_of (work_slice_dims v)).*1 /\
  forall dim split, aget (dict_of (work_slice_dims v)) dim = Some split ->
    exists f, aget (dict_of (core_to_slot v)) dim = Some f /\ aget row dim = Some (f core) /\ 0 <= f core < split.
Proof.
  unfold core_slices, owner_slots. intros ([] & _ & H)%bind_Ok Hin. apply bind_Ok in H as (rows & Hrows & [= <-]).
  apply bind_Ok in Hrows as ([] & _ & Hrows). apply bind_Ok in Hrows as ([] & _ & Hrows%py_map_Ok).
  apply list_elem_of_lookup in Hin as [i Hi]. apply lookup_zip_with_Some in Hi as (c & r & [= -> ->] & Hc & Hr).
  pose proof (Forall2_lookup_lr _ _ _ _ _ _ Hrows Hc Hr) as Hrow. cbn beta in Hrow.
  split; [by apply elem_of_core_range; eapply list_elem_of_lookup_2|].
  assert (r.*1 = (dict_of (work_slice_dims v)).*1) as Hk.
  { eapply py_map_keys; [|exact Hrow]. intros x y (f & _ & -> & _)%owner_slot_Ok. done. }
  split; [done|]. intros dim split (j & Hj)%aget_Some_elem%list_elem_of_lookup.
  apply py_map_Ok in Hrow. destruct (Forall2_lookup_l _ _ _ _ _ Hrow Hj) as (kv & Hkv & (f & Hf & -> & Hb)%owner_slot_Ok).
  cbn [fst snd] in *. exists f. split_and!; [done | | lia | lia].
  apply aget_NoDup; [rewrite Hk; apply dict_of_NoDup | by eapply list_elem_of_lookup_2].
Qed.

Lemma _overlap_spec a b n : 0 <= a < n -> 0 <= b < n -> _overlap a n b n = true <-> a = b.
Proof. intros Ha Hb. unfold _overlap. rewrite andb_true_iff, !Z.ltb_lt. split; [|intros ->]; nia. Qed.

Lemma slot_unsplit v n sl core row dim :
  core_slices v n = Ok sl -> (core, row) ∈ sl ->
  (forall m, 1 < m -> aget (dict_of (work_slice_dims v)) dim <> Some m) ->
  default 0 (aget row dim) = 0 /\ default 1 (aget (dict_of (work_slice_dims v)) dim) = 1.
Proof.
  intros Hsl Hrow Hno. destruct (core_slices_row v n sl core row Hsl Hrow) as (_ & Hk & Hs).
  destruct (aget (dict_of (work_slice_dims v)) dim) as [m|] eqn:E.
  - destruct (Hs dim m E) as (f & _ & -> & Hf). cbn. assert (m = 1) as -> by (specialize (Hno m); destruct (decide (1 < m)); [by destruct Hno | lia]).
    lia.
  - apply aget_None_key in E. rewrite <- Hk in E. apply aget_None_key in E. by rewrite E.
Qed.

Lemma core_slices_keys v n sl : core_slices v n = Ok sl -> sl.*1 = core_range n.
Proof.
  unfold core_slices, owner_slots. intros ([] & _ & H)%bind_Ok. apply bind_Ok in H as (rows & Hrows & [= <-]).
  apply bind_Ok in Hrows as ([] & _ & Hrows). apply bind_Ok in Hrows as ([] & _ & Hrows%py_map_Ok%Forall2_length).
  rewrite fst_zip; [done | lia].
Qed.

Lemma core_range_NoDup n : NoDup (core_range n).
Proof. apply NoDup_fmap_2; [intros i j; lia | apply NoDup_seq]. Qed.

(** Two rows of one view are equal when they agree where the view splits. *)
Lemma rows_equal v n sl s d rs rd :
  core_slices v n = Ok sl -> (s, rs) ∈ sl -> (d, rd) ∈ sl ->
  rs = rd <-> forall dim m, 1 < m -> aget (dict_of (work_slice_dims v)) dim = Some m -> aget rs dim = aget rd dim.
Proof.
  intros Hsl Hs Hd. split; [by intros -> |]. intros H.
  destruct (core_slices_row v n sl s rs Hsl Hs) as (_ & Ks & Ss), (core_slices_row v n sl d rd Hsl Hd) as (_ & Kd & Sd).
  assert (forall dim, aget rs dim = aget rd dim) as Hall.
  { intros dim. destruct (aget (dict_of (work_slice_dims v)) dim) as [m|] eqn:E.
    - destruct (decide (1 < m)); [by eauto|]. destruct (Ss dim m E) as (f & _ & -> & Hf), (Sd dim m E) as (g & _ & -> & Hg).
      f_equal. lia.
    - apply aget_None_key in E. transitivity (@None Z); [|symmetry]; apply aget_None_key; congruence. }
  assert (forall l k : list (Z * Z), NoDup l.*1 -> l.*1 = k.*1 -> (forall dim, aget l dim = aget k dim) -> l = k) as Hgen.
  { clear. induction l as [|[a x] l IH]; intros [|[b y] k] Hnd Hk Hg; try done. cbn in Hk, Hnd. injection Hk as <- Hk.
    apply NoDup_cons in Hnd as [Ha Hnd]. pose proof (Hg a) as E. cbn in E. rewrite !decide_True in E by done. injection E as ->.
    f_equal. apply IH; [done | done|]. intros dim. specialize (Hg dim). cbn in Hg. destruct (decide (dim = a)) as [->|]; [|done].
    transitivity (@None Z); [|symmetry]; apply aget_None_key; [done | congruence]. }
  apply Hgen; [rewrite Ks; apply dict_of_NoDup | congruence | done].
Qed.

(** Slices of two agreeing views meet where the producer's own rows coincide. *)
Lemma slices_meet_spec v w n sv sw s d rs rd rw :
  same_partition v w = true -> view_cores v = n -> core_slices v n = Ok sv -> core_slices w n = Ok sw ->
  (s, rs) ∈ sv -> (d, rd) ∈ sv -> (d, rw) ∈ sw ->
  slices_meet (dict_of (work_slice_dims v)) (dict_of (work_slice_dims w)) rs rw = true <->
  forall dim m, 1 < m -> aget (dict_of (work_slice_dims v)) dim = Some m -> aget rs dim = aget rd dim.
Proof.
  intros [Hc _ Hsp Hsl]%same_partition_spec Hn Hv Hw Hs Hd Hdw.
  destruct (core_slices_row v n sv s rs Hv Hs) as (Is & Ks & Ss), (core_slices_row v n sv d rd Hv Hd) as (Id & Kd & Sd),
    (core_slices_row w n sw d rw Hw Hdw) as (_ & Kw & Sw).
  assert (forall dim m, 1 < m -> aget (dict_of (work_slice_dims v)) dim = Some m ->
    exists a b, aget rs dim = Some a /\ aget rd dim = Some b /\ aget rw dim = Some b /\ 0 <= a < m /\ 0 <= b < m /\
      aget (dict_of (work_slice_dims w)) dim = Some m) as Hrows.
  { intros dim m Hm Hdim. assert (aget (dict_of (work_slice_dims w)) dim = Some m) as Hdimw by (by apply Hsp).
    destruct (Ss dim m Hdim) as (f & Hf & Ea & Ba), (Sd dim m Hdim) as (f' & Hf' & Eb & Bb), (Sw dim m Hdimw) as (g & Hg & Ew & Bw).
    destruct (Hsl dim m d Hm Hdim) as (f1 & g1 & Hf1 & Hg1 & E); [lia|].
    exists (f s), (f' d). split_and!; try done; try lia. rewrite Ew. f_equal. congruence. }
  unfold slices_meet. rewrite forallb_forall. setoid_rewrite <- list_elem_of_In. split.
  - intros H dim m Hm Hdim. destruct (Hrows dim m Hm Hdim) as (a & b & Ea & Eb & Ew & Ba & Bb & Ed).
    specialize (H dim). rewrite Hdim, Ea, Ew, Ed in H. cbn in H. rewrite _overlap_spec in H by done. rewrite Ea, Eb. f_equal.
    apply H, elem_of_app. left. apply aget_is_Some. eauto.
  - intros H dim _. assert ((exists m, 1 < m /\ aget (dict_of (work_slice_dims v)) dim = Some m) \/
      ~ exists m, 1 < m /\ aget (dict_of (work_slice_dims v)) dim = Some m) as [(m & Hm & Hdim)|Hno].
    { destruct (aget _ dim) as [m|]; [|by right; intros (m & _ & ?)]. destruct (decide (1 < m)); [left; eauto|].
      right. by intros (m' & ? & [= ->]). }
    + destruct (Hrows dim m Hm Hdim) as (a & b & Ea & Eb & Ew & Ba & Bb & Ed). rewrite Hdim, Ea, Ew, Ed. cbn.
      rewrite _overlap_spec by done. specialize (H dim m Hm Hdim). congruence.
    + destruct (slot_unsplit v n sv s rs dim Hv Hs) as [-> ->]; [intros m Hm E; apply Hno; eauto|].
      destruct (slot_unsplit w n sw d rw dim Hw Hdw) as [-> ->]; [intros m Hm E; apply Hno; exists m; split; [done | by apply Hsp]|].
      done.
Qed.

(** Between agreeing views a slice is copied to the cores that hold it already. *)
Lemma transfer_edges_local v w n sv sw s d rs rd :
  same_partition v w = true -> view_cores v = n -> core_slices v n = Ok sv -> core_slices w n = Ok sw ->
  (s, rs) ∈ sv -> (d, rd) ∈ sv ->
  (s, d) ∈ transfer_edges (dict_of (work_slice_dims v)) (dict_of (work_slice_dims w)) sv sw <-> rs = rd.
Proof.
  intros Heq Hn Hv Hw Hs Hd. rewrite (rows_equal v n sv s d rs rd) by done.
  assert (exists rw, (d, rw) ∈ sw) as [rw Hdw].
  { assert (d ∈ sw.*1) as ([? rw] & -> & Hin)%list_elem_of_fmap; [|by eexists].
    rewrite (core_slices_keys w n sw Hw), <- (core_slices_keys v n sv Hv). by apply (list_elem_of_fmap_2 fst) in Hd. }
  rewrite <- (slices_meet_spec v w n sv sw s d rs rd rw) by done.
  assert (forall u su c r r', core_slices u n = Ok su -> (c, r) ∈ su -> (c, r') ∈ su -> r = r') as Hfun.
  { intros u su c r r' Hu H1 H2. pose proof (core_slices_keys u n su Hu) as Hk. pose proof (core_range_NoDup n) as Hnd.
    rewrite <- Hk in Hnd. apply (aget_NoDup su c r Hnd) in H1. apply (aget_NoDup su c r' Hnd) in H2. congruence. }
  unfold transfer_edges. rewrite list_elem_of_bind. setoid_rewrite list_elem_of_bind. split.
  - intros ([s' rs'] & ([d' rw'] & Hin & Hd') & Hs'). case_match eqn:E; [|by apply elem_of_nil in Hin].
    apply list_elem_of_singleton in Hin as [= -> ->]. cbn [snd] in E.
    by rewrite (Hfun v sv s' rs rs' Hv Hs Hs'), (Hfun w sw d' rw rw' Hw Hdw Hd').
  - intros Hm. exists (s, rs). split; [|done]. exists (d, rw). split; [|done]. cbn [fst snd]. rewrite Hm. by apply list_elem_of_singleton.
Qed.

(** C25. Views that compare equal make the read local: if the producer's view [v] and
    the consumer's view [w] of a buffer agree on [n] cores, the copies
    [transfer_edges] finds between them go from a core exactly to the cores that
    already hold the same slice, so every core finds all it reads in its own
    scratchpad. *)
Theorem equal_views_read_locally v w n sv sw s d rs rd :
  same_partition v w = true -> view_cores v = n -> core_slices v n = Ok sv -> core_slices w n = Ok sw ->
  (s, rs) ∈ sv -> (d, rd) ∈ sv ->
  (s, d) ∈ transfer_edges (dict_of (work_slice_dims v)) (dict_of (work_slice_dims w)) sv sw <-> rs = rd.
Proof. apply transfer_edges_local. Qed.

(** ** The inversion is sound *)

Lemma dkeys_dupdate_mem {V} (e d : dict V) : (forall k, k ∈ dkeys e -> k ∈ dkeys d) -> dkeys (dupdate d e) = dkeys d.
Proof.
  unfold dupdate. revert d. induction e as [|[k v] e IH]; intros d Hk; cbn [foldl fst snd]; [done|].
  assert (dkeys (dset k v d) = dkeys d) as E by (apply dkeys_dset_mem, Hk; cbn; list_mem).
  rewrite IH; [done|]. intros k' Hk'. rewrite E. apply Hk. cbn. by right.
Qed.

Section sound.
Context (p : ViewPrep) (target : PerCoreView) (domains : dict (list Z)).

Lemma candidate_keys choice s :
  choice ∈ cartesian (options_for p target domains <$> want_dims target) -> s ∈ candidates_of_choice p domains choice ->
  dkeys s = iter_space p.
Proof.
  intros Hc%elem_of_cartesian. unfold candidates_of_choice. case_match; [by intros ?%elem_of_nil|].
  intros (combo & -> & Hcombo)%list_elem_of_fmap.
  assert (forall b, dkeys (dupdate ((fun s => (s, 1)) <$> iter_space p) (placed_of choice)) = b -> b = iter_space p) as Hb.
  { intros b <-. rewrite dkeys_dupdate_mem; unfold dkeys; rewrite <- list_fmap_compose; [by rewrite list_fmap_id|].
    intros k. unfold placed_of. rewrite list_fmap_id. intros ([k' v] & -> & Hkv)%list_elem_of_fmap. cbn.
    apply elem_of_dupdate in Hkv as [?%elem_of_nil | Hkv]; [done|]. apply list_elem_of_fmap in Hkv as (c & [= -> ->] & Hcin).
    apply list_elem_of_lookup in Hcin as [i Hi]. rewrite Forall2_fmap_r in Hc.
    destruct (Forall2_lookup_l _ _ _ _ _ Hc Hi) as (dim & _ & Hopt). unfold options_for in Hopt.
    apply elem_of_py_sorted, list_elem_of_omap in Hopt as (sym & Hsym & E). unfold option_for in E. by repeat case_match; simplify_eq. }
  rewrite dkeys_dupdate_mem; [by apply Hb|]. intros k ([k' v] & -> & Hkv)%list_elem_of_fmap. cbn.
  rewrite (Hb _ eq_refl). apply elem_of_zip_l in Hkv. unfold hidden_of in Hkv. by apply list_elem_of_filter in Hkv as [_ ?].
Qed.

Lemma probe_sound accept probes cs s :
  probe_candidates p target accept probes cs = Ok (Some s) ->
  s ∈ cs /\ right_cores target s = true /\ accept s = Ok true /\
  exists v, _per_core_view_from_prep (Some p) s None = Ok (v, true) /\ same_partition v target = true.
Proof.
  revert probes. induction cs as [|c cs IH]; intros probes; cbn [probe_candidates]; [done|].
  assert (forall k, probe_candidates p target accept k cs = Ok (Some s) ->
    s ∈ c :: cs /\ right_cores target s = true /\ accept s = Ok true /\
    exists v, _per_core_view_from_prep (Some p) s None = Ok (v, true) /\ same_partition v target = true) as Hrest.
  { intros k (Hin & ?)%IH. split; [by right | done]. }
  destruct (right_cores target c) eqn:Ec; cbn [negb]; [|apply Hrest]. destruct probes as [|probes]; [done|].
  intros (ok & Ha & H)%bind_Ok. destruct ok; cbn [negb] in H; [|by eapply Hrest].
  apply bind_Ok in H as ([v b] & Hv & H). cbn [fst snd] in H. destruct (b && same_partition v target) eqn:E; [|by eapply Hrest].
  injection H as <-. apply andb_true_iff in E as [-> E]. split_and!; [by left | done | done | eauto].
Qed.

(** What the inversion returns covers the iteration space, satisfies the caller's
    filter, and induces the target view. *)
Lemma invert_sound accept s :
  invert_per_core_view (Some p) target domains accept = Ok (Some s) ->
  dkeys s = iter_space p /\ right_cores target s = true /\ accept s = Ok true /\
  exists v, _per_core_view_from_prep (Some p) s None = Ok (v, true) /\ same_partition v target = true.
Proof.
  cbn. unfold invert_prep. case_match; [done|]. intros (Hin & Hrest)%probe_sound. split; [|done].
  unfold view_candidates in Hin. apply list_elem_of_bind in Hin as (choice & Hs & Hc). by eapply candidate_keys.
Qed.
End sound.

(** ** Witnesses *)

(** Four slices over eight cores, spelled in two ways. *)
Definition ex_writes : PerCoreView := mkView [(0, 4)] [(0, fun core => core mod 4)] (Some 8).
Definition ex_reads : PerCoreView := mkView [(0, 4); (1, 1)] [(0, fun core => core - 4 * (core / 4)); (1, fun _ => 0)] (Some 8).

Lemma equal_views_read_locally_witness :
  exists sv sw, core_slices ex_writes 8 = Ok sv /\ core_slices ex_reads 8 = Ok sw /\
    (1, 5) ∈ transfer_edges (dict_of (work_slice_dims ex_writes)) (dict_of (work_slice_dims ex_reads)) sv sw.
Proof.
  destruct (core_slices ex_writes 8) as [sv|] eqn:Ev; [|vm_compute in Ev; discriminate Ev].
  destruct (core_slices ex_reads 8) as [sw|] eqn:Ew; [|vm_compute in Ew; discriminate Ew].
  exists sv, sw. split_and!; [done | done|].
  apply (equal_views_read_locally ex_writes ex_reads 8 sv sw 1 5 [(0, 1)] [(0, 1)]);
    [vm_compute; reflexivity | vm_compute; reflexivity | done | done | | | done];
    vm_compute in Ev; injection Ev as <-; apply (bool_decide_unpack _); vm_compute; exact I.
Defined.
