(* ===== verification/ResidencyEdge.v ===== *)
(** * Residency edges ([work_division.py], [ResidencyEdge])

    An edge connects the operation that writes a buffer with one that reads it, and
    answers which pairs of divisions let the reader find its slice in the
    scratchpad of its own core.  [compatible] judges one pair, [match_pairs] two menus,
    and [consumer_division_for] and [parent_division_for] construct the division of the
    other end by inverting a view.

    The views are those of [CoreViews] and the spaces those of [SplitSpace].  What the
    edge asks of the graph is a field: the precomputed accesses, which symbols reduce,
    whether a read covers only a part of the buffer, and the certificate for such
    reads. *)

From S2P Require Import Prelude PyDict PlanSolver CoreMapping CoreViews Tilings SplitSpace.

Record ResidencyEdge := mkEdge {
  write_prep : option ViewPrep;
  read_preps : list (option ViewPrep);
  (** [_reduction_syms] of the producer *)
  write_reduces : string -> bool;
  partial_read : bool;
  lx_extended_ownership : bool;
  local_read_certificate : PerCoreView -> PerCoreView -> bool
}.

Definition UNTILED : TileSpec := mkSpec [].
Definition _WHOLE_VIEW : PerCoreView := mkView [] [] (Some 1).

(** ** The views of the two ends *)

Section edge.
Context (e : ResidencyEdge).

Definition parent_view (division : CoreDivision) : res (option PerCoreView) :=
  vr ← _per_core_view_from_prep (write_prep e) (splits division) None;
  Ok (if negb vr.2 || has_partial_reduction (write_reduces e) (splits division) then None else Some vr.1).

(** [first, *rest = ...]: an edge without reads is never built. *)
Definition _common_read_view (vs : list (option PerCoreView)) : res (option PerCoreView) :=
  match vs with
  | [] => Raise ValueError
  | None :: _ => Ok None
  | Some first :: rest =>
      Ok (if existsb (fun v => match v with Some w => negb (same_partition first w) | None => true end) rest
          then None else Some first)
  end.

Definition core_view (division : CoreDivision) (prep : option ViewPrep) : res (option PerCoreView) :=
  vr ← _per_core_view_from_prep prep (splits division) None;
  Ok (if vr.2 : bool then Some vr.1 else None).

Definition consumer_view (division : CoreDivision) : res (option PerCoreView) :=
  vs ← py_map (core_view division) (read_preps e);
  _common_read_view vs.

(** [_tile_view_for_div] *)
Definition _tile_view_for_div (prep : option ViewPrep) (division : CoreDivision) : res (option PerCoreView) :=
  if bool_decide (tile_splits division = []) then Ok (Some _WHOLE_VIEW)
  else tile_ownership_view prep (tile_splits division).

Definition consumer_tile_view (division : CoreDivision) : res (option PerCoreView) :=
  vs ← py_map (fun prep => _tile_view_for_div prep division) (read_preps e);
  _common_read_view vs.

(** ** Judging a pair *)

Definition _local_reads_compatible (pv cv : PerCoreView) : bool :=
  if negb (partial_read e) then true
  else if negb (lx_extended_ownership e) then false
  else local_read_certificate e pv cv.

(** [CoreDivision(splits=...)] *)
Definition plain_division (s : dict Z) : CoreDivision := mkDivision s [] UNTILED [].

Definition compatible (parent_splits consumer_splits : dict Z) : res bool :=
  let parent := plain_division parent_splits in
  let consumer := plain_division consumer_splits in
  if negb (cores_used parent =? cores_used consumer) then Ok false
  else
    pv ← parent_view parent;
    cv ← consumer_view consumer;
    Ok match pv, cv with
       | Some p, Some c => same_partition p c && _local_reads_compatible p c
       | _, _ => false
       end.

(** ** Inverting a view across the edge *)

Definition factor_domains (sp : OpSplitSpace) : res (dict (list Z)) :=
  py_map (fun a => d ← factor_domain (sp_context sp) a; Ok (a, d)) (axes sp).

(** The filter of one attempt. *)
Definition inverse_accepts (parent_side : bool) (sp : OpSplitSpace) (t : TileSpec) (s : dict Z) : res bool :=
  ok ← admits sp s t;
  if negb ok then Ok false
  else
    v ← (if parent_side then parent_view else consumer_view) (division_of sp s UNTILED);
    Ok (bool_decide (is_Some v)).

Definition inverse_attempt (parent_side : bool) (prep : option ViewPrep) (target : PerCoreView) (sp : OpSplitSpace)
    (other : CoreDivision) (t : TileSpec) : res (option CoreDivision) :=
  domains ← factor_domains sp;
  found ← invert_per_core_view prep target domains (inverse_accepts parent_side sp t);
  match found with
  | None => Ok None
  | Some s =>
      let division := division_of sp s t in
      ok ← (if parent_side then compatible (splits division) (splits other)
            else compatible (splits other) (splits division));
      Ok (if ok : bool then Some division else None)
  end.

(** [for tiling in attempts] *)
Fixpoint first_attempt (try : TileSpec -> res (option CoreDivision)) (attempts : list TileSpec)
    : res (option CoreDivision) :=
  match attempts with
  | [] => Ok None
  | t :: attempts' =>
      d ← try t;
      match d with Some d => Ok (Some d) | None => first_attempt try attempts' end
  end.

Definition _inverse (parent_side : bool) (prep : option ViewPrep) (target : PerCoreView) (sp : OpSplitSpace)
    (other : CoreDivision) : res (option CoreDivision) :=
  offered ← admits_tiling sp (tiling other);
  let wanted := if offered : bool then tiling other else UNTILED in
  if partial_read e && negb (is_untiled (tiling other)) then Ok None
  else
    let wanted := if partial_read e then UNTILED else wanted in
    let attempts := if is_untiled wanted then [wanted] else [wanted; UNTILED] in
    first_attempt (inverse_attempt parent_side prep target sp other) attempts.

Definition consumer_division_for (parent_division : CoreDivision) (consumer_space : OpSplitSpace)
    : res (option CoreDivision) :=
  target ← parent_view parent_division;
  match target with
  | None => Ok None
  | Some target =>
      match read_preps e with
      | [] => Raise IndexError
      | prep :: _ => _inverse false prep target consumer_space parent_division
      end
  end.

Definition parent_division_for (consumer_division : CoreDivision) (parent_space : OpSplitSpace)
    : res (option CoreDivision) :=
  target ← consumer_view consumer_division;
  match target with
  | None => Ok None
  | Some target => _inverse true (write_prep e) target parent_space consumer_division
  end.

(** ** Two menus *)

(** The test of one pair of [match_pairs]. *)
Definition pair_matches (p : CoreDivision * (option PerCoreView * option PerCoreView))
    (c : CoreDivision * (option PerCoreView * option PerCoreView)) : bool :=
  match p.2, c.2 with
  | (Some pv, Some pt), (Some cv, Some ct) =>
      same_partition pv cv && same_partition pt ct
      && (cores_used p.1 =? cores_used c.1)
      && _local_reads_compatible pv cv
      && (negb (partial_read e) || (is_untiled (tiling p.1) && is_untiled (tiling c.1)))
  | _, _ => false
  end.

Definition match_pairs (parent_divisions consumer_divisions : list CoreDivision) : res (list (nat * nat)) :=
  parent_views ← py_map parent_view parent_divisions;
  consumer_views ← py_map consumer_view consumer_divisions;
  parent_tiles ← py_map (_tile_view_for_div (write_prep e)) parent_divisions;
  consumer_tiles ← py_map consumer_tile_view consumer_divisions;
  let ps := zip parent_divisions (zip parent_views parent_tiles) in
  let cs := zip consumer_divisions (zip consumer_views consumer_tiles) in
  Ok (ip ← zip (seq 0 (length ps)) ps;
      jc ← zip (seq 0 (length cs)) cs;
      if pair_matches ip.2 jc.2 then [(ip.1, jc.1)] else []).

End edge.

(** ** What the inverse constructs *)

(** The accesses of an end are over the axes of its space. *)
Definition preps_over (sp : OpSplitSpace) (preps : list (option ViewPrep)) : Prop :=
  NoDup (axes sp) /\ forall p, Some p ∈ preps -> CoreViews.iter_space p = axes sp.

Lemma first_attempt_Some try attempts d :
  first_attempt try attempts = Ok (Some d) -> exists t, t ∈ attempts /\ try t = Ok (Some d).
Proof.
  induction attempts as [|t attempts IH]; cbn [first_attempt]; [done|]. intros (r & Hr & H)%bind_Ok. destruct r as [d'|].
  - injection H as <-. exists t. split; [by left | done].
  - destruct (IH H) as (t' & Hin & Ht'). exists t'. split; [by right | done].
Qed.

(** A division constructed for one end: legal in its space, compatible with the
    other end, and under the tiling of the other end or none. *)
Definition constructed (e : ResidencyEdge) (parent_side : bool) (sp : OpSplitSpace) (other d : CoreDivision) : Prop :=
  (exists s, d = division_of sp s (tiling d) /\ at_state sp s (tiling d)) /\
  (if parent_side then compatible e (splits d) (splits other) else compatible e (splits other) (splits d)) = Ok true /\
  (tiling d = tiling other \/ tiling d = UNTILED).

Lemma inverse_sound e parent_side prep target sp other d :
  preps_over sp [prep] -> _inverse e parent_side prep target sp other = Ok (Some d) ->
  constructed e parent_side sp other d.
Proof.
  intros [Hnd Hover] (offered & _ & H)%bind_Ok. destruct (partial_read e && _); [done|].
  apply first_attempt_Some in H as (t & Hin & H). unfold inverse_attempt in H.
  apply bind_Ok in H as (domains & _ & H). apply bind_Ok in H as (found & Hinv & H).
  destruct found as [s|]; [|done]. apply bind_Ok in H as (ok & Hok & H). destruct ok; [|done]. injection H as <-.
  destruct prep as [p|]; [|done]. apply invert_sound in Hinv as (Hk & _ & Hacc & _).
  apply bind_Ok in Hacc as (b & Hadm & Hacc). destruct b; [|done].
  rewrite (Hover p) in Hk by list_mem. split_and!.
  - exists s. done.
  - done.
  - cbn [tiling division_of]. repeat case_match; repeat (apply elem_of_cons in Hin as [-> | Hin]); try (by left); try (by right);
      by apply elem_of_nil in Hin.
Qed.

Lemma consumer_division_sound e sp d d' :
  preps_over sp (read_preps e) -> consumer_division_for e d sp = Ok (Some d') -> constructed e false sp d d'.
Proof.
  intros [Hnd Hc] ([target|] & _ & H)%bind_Ok; [|done]. destruct (read_preps e) as [|prep preps]; [done|].
  eapply inverse_sound; [|exact H]. split; [done|]. intros p Hin%list_elem_of_singleton. apply Hc. rewrite Hin. by left.
Qed.

Lemma parent_division_sound e sp d d' :
  preps_over sp [write_prep e] -> parent_division_for e d sp = Ok (Some d') -> constructed e true sp d d'.
Proof. intros Hp ([target|] & _ & H)%bind_Ok; [|done]. by eapply inverse_sound. Qed.

(** C26. Propagating a division across an edge: what [consumer_division_for] and
    [parent_division_for] return is a complete legal division of the other end, under
    the tiling it was propagated with or untiled, and the edge accepts the pair. *)
Theorem propagated_divisions_sound e parent_space consumer_space d d' :
  preps_over parent_space [write_prep e] -> preps_over consumer_space (read_preps e) ->
  (consumer_division_for e d consumer_space = Ok (Some d') -> constructed e false consumer_space d d') /\
  (parent_division_for e d parent_space = Ok (Some d') -> constructed e true parent_space d d').
Proof. intros Hp Hc. split; [by apply consumer_division_sound | by apply parent_division_sound]. Qed.

(** ** The menu form and the pair form agree *)

Lemma common_whole n : _common_read_view (replicate (S n) (Some _WHOLE_VIEW)) = Ok (Some _WHOLE_VIEW).
Proof.
  cbn [replicate _common_read_view]. destruct (existsb _ (replicate n (Some _WHOLE_VIEW))) eqn:E; [|done].
  apply existsb_exists in E as (v & Hv%list_elem_of_In%elem_of_replicate & E). destruct Hv as [-> _]. vm_compute in E. discriminate E.
Qed.

Lemma consumer_tile_untiled e d : tile_splits d = [] -> read_preps e <> [] -> consumer_tile_view e d = Ok (Some _WHOLE_VIEW).
Proof.
  intros Hd He. unfold consumer_tile_view.
  assert (py_map (fun prep => _tile_view_for_div prep d) (read_preps e) = Ok (replicate (length (read_preps e)) (Some _WHOLE_VIEW))) as ->.
  { assert (forall prep, _tile_view_for_div prep d = Ok (Some _WHOLE_VIEW)) as Hw
      by (intros prep; unfold _tile_view_for_div; by rewrite bool_decide_true).
    clear He. induction (read_preps e) as [|prep preps IH]; [done|]. cbn [py_map length replicate]. by rewrite Hw, IH. }
  cbn [mbind res_bind]. destruct (read_preps e) as [|x l]; [done|]. apply common_whole.
Qed.

Lemma elem_of_zip_seq {A} (l : list A) i x : (i, x) ∈ zip (seq 0 (length l)) l <-> l !! i = Some x.
Proof.
  rewrite list_elem_of_lookup. setoid_rewrite lookup_zip_with_Some. split.
  - intros (k & ? & ? & [= -> ->] & Hs & Hx). apply lookup_seq in Hs as [-> _]. done.
  - intros Hx. exists i, i, x. split_and!; [done | | done]. apply lookup_seq. split; [done | by eapply lookup_lt_Some].
Qed.

(** A division of the untiled graph. *)
Definition untiled_division (d : CoreDivision) : Prop := tiling d = UNTILED /\ tile_splits d = [].

(** On untiled menus the two forms of the edge's test are one: [match_pairs] lists
    the positions of exactly the pairs that [compatible] accepts one by one. *)
Theorem match_pairs_are_compatible e ps cs pairs i j p c :
  read_preps e <> [] -> Forall untiled_division ps -> Forall untiled_division cs ->
  match_pairs e ps cs = Ok pairs -> ps !! i = Some p -> cs !! j = Some c ->
  (i, j) ∈ pairs <-> compatible e (splits p) (splits c) = Ok true.
Proof.
  intros He Hps Hcs H Hp Hc.
  apply bind_Ok in H as (pvs & Hpv%py_map_Ok & H). apply bind_Ok in H as (cvs & Hcv%py_map_Ok & H).
  apply bind_Ok in H as (pts & Hpt%py_map_Ok & H). apply bind_Ok in H as (cts & Hct%py_map_Ok & H). injection H as <-.
  destruct (Forall2_lookup_l _ _ _ _ _ Hpv Hp) as (pv & Hpvi & Epv), (Forall2_lookup_l _ _ _ _ _ Hcv Hc) as (cv & Hcvj & Ecv).
  destruct (Forall2_lookup_l _ _ _ _ _ Hpt Hp) as (pt & Hpti & Ept), (Forall2_lookup_l _ _ _ _ _ Hct Hc) as (ct & Hctj & Ect).
  destruct (Forall_lookup_1 _ _ _ _ Hps Hp) as [Tp Sp], (Forall_lookup_1 _ _ _ _ Hcs Hc) as [Tc Sc].
  assert (pt = Some _WHOLE_VIEW) as ->.
  { unfold _tile_view_for_div in Ept. rewrite bool_decide_true in Ept by done. by injection Ept. }
  rewrite consumer_tile_untiled in Ect by done. injection Ect as <-.
  set (P := zip ps (zip pvs pts)). set (C := zip cs (zip cvs cts)).
  assert (P !! i = Some (p, (pv, Some _WHOLE_VIEW))) as HP.
  { apply lookup_zip_with_Some. eexists _, _. split_and!; [done | done|]. apply lookup_zip_with_Some. eauto. }
  assert (C !! j = Some (c, (cv, Some _WHOLE_VIEW))) as HC.
  { apply lookup_zip_with_Some. eexists _, _. split_and!; [done | done|]. apply lookup_zip_with_Some. eauto. }
  assert ((i, j) ∈ (ip ← zip (seq 0 (length P)) P; jc ← zip (seq 0 (length C)) C;
             if pair_matches e ip.2 jc.2 then [(ip.1, jc.1)] else []) <->
          pair_matches e (p, (pv, Some _WHOLE_VIEW)) (c, (cv, Some _WHOLE_VIEW)) = true) as ->.
  { rewrite list_elem_of_bind. setoid_rewrite list_elem_of_bind. split.
    - intros ([i' x] & ([j' y] & Hin & Hy%elem_of_zip_seq) & Hx%elem_of_zip_seq). cbn [fst snd] in Hin.
      case_match eqn:E; [|by apply elem_of_nil in Hin]. apply list_elem_of_singleton in Hin as [= <- <-]. congruence.
    - intros E. exists (i, (p, (pv, Some _WHOLE_VIEW))). split; [|by apply elem_of_zip_seq].
      exists (j, (c, (cv, Some _WHOLE_VIEW))). split; [|by apply elem_of_zip_seq]. cbn [fst snd]. rewrite E. by apply list_elem_of_singleton. }
  unfold compatible, pair_matches. cbn [fst snd]. change (parent_view e (plain_division (splits p))) with (parent_view e p).
  change (consumer_view e (plain_division (splits c))) with (consumer_view e c).
  change (cores_used (plain_division ?s)) with (zprod (snd <$> s)). fold (cores_used p) (cores_used c).
  rewrite Epv, Ecv, Tp, Tc. replace (same_partition _WHOLE_VIEW _WHOLE_VIEW) with true by (vm_compute; reflexivity).
  replace (negb (partial_read e) || (is_untiled UNTILED && is_untiled UNTILED)) with true by (by destruct (partial_read e)).
  destruct pv as [pv|], cv as [cv|]; try (split; [done|]; destruct (negb _); done).
  rewrite !andb_true_r. destruct (cores_used p =? cores_used c); cbn [negb mbind res_bind]; rewrite ?andb_true_r, ?andb_false_r.
  - split; [by intros -> | by intros [= ->]].
  - rewrite andb_false_l. done.
Qed.

(** ** Witnesses *)

(** The row-wise reduction of [SplitSpace] at both ends of an edge; rows are on
    device dimension 1, sticks on device dimension 0. *)
Definition edge_forward (s : dict Z) (ownership : option TensorWorkDivision) : res (PerCoreView * bool) :=
  m ← core_to_slice_mapping (dkeys s) (dvalues s) (zprod (dvalues s)) None;
  let placed := omap (fun ad => let n := dget_or 1 s ad.1 in
                                if 1 <? n then Some (ad.2, n, dget_or (fun _ => 0) m ad.1) else None)
                  [("d0"%string, 1); ("d1"%string, 0)] in
  Ok (mkView (fst <$> placed) ((fun x => (x.1.1, x.2)) <$> placed) (Some (zprod (dvalues s))), true).

Definition edge_prep : ViewPrep :=
  mkPrep ["d0"; "d1"; "r0"]%string [("d0", 128); ("d1", 1)]%string [(64, 0); (128, 1)] (Some 1) (Some 0) 64 edge_forward.

Definition ex_edge : ResidencyEdge :=
  mkEdge (Some edge_prep) [Some edge_prep] (fun s => bool_decide (s = "r0"%string)) false false (fun _ _ => true).

Definition edge_division : CoreDivision := division_of ex_space [("d0", 2); ("d1", 2); ("r0", 1)]%string UNTILED.

Lemma edge_preps : preps_over ex_space [Some edge_prep].
Proof.
  split; [apply (bool_decide_unpack _); vm_compute; exact I|]. intros p Hp%list_elem_of_singleton. injection Hp as ->. done.
Qed.

Lemma propagated_divisions_sound_witness :
  constructed ex_edge false ex_space edge_division edge_division /\ constructed ex_edge true ex_space edge_division edge_division.
Proof.
  destruct (propagated_divisions_sound ex_edge ex_space ex_space edge_division edge_division edge_preps edge_preps) as [H1 H2].
  split; [apply H1 | apply H2]; vm_compute; reflexivity.
Defined.

Lemma match_pairs_are_compatible_witness :
  (0%nat, 1%nat) ∈ [(0%nat, 1%nat)] <-> compatible ex_edge (splits edge_division) (splits edge_division) = Ok true.
Proof.
  apply (match_pairs_are_compatible ex_edge [edge_division; plain_division []]
    [plain_division [("d0", 2); ("r0", 2)]%string; edge_division] [(0%nat, 1%nat)] 0 1 edge_division edge_division);
    [done | repeat constructor | repeat constructor | vm_compute; reflexivity | done | done].
Defined.
