(* ===== verification/CoDivisions.v ===== *)
(** * Divisions as values of the joint search ([scratchpad/sa_cooptimizer.py])

    The co-optimizer holds one [DivisionConfig] per buffer.  This file models what a
    configuration is and when two are the same choice, the sources it can come from
    (a menu, or the split space of the operation: [_MenuDivisions],
    [_GeneratedDivisions]), and the relation on an edge between two buffers
    ([_TableRelation], [_ViewRelation]).

    Sources and relations memoize by choice; the memo tables are left out.  The seeded
    generator is the state [R] of [Random] and [RandBelow]. *)

From S2P Require Import Prelude PyDict PlanSolver CoreMapping CoreViews Tilings SplitSpace ResidencyEdge Cooling Annealing.

(** ** Drawing from the generator *)

(** [Random._randbelow], which [choice], [randrange] and [shuffle] draw from. *)
Class RandBelow (R : Type) := {
  randbelow : nat -> R -> nat * R;
  randbelow_lt : forall n r, (0 < n)%nat -> ((randbelow n r).1 < n)%nat
}.

Section draws.
Context {R : Type} `{!RandBelow R}.

Definition randrange (n : nat) (r : R) : res (nat * R) :=
  if (n =? 0)%nat then Raise ValueError else Ok (randbelow n r).

Definition choice {A} (l : list A) (r : R) : res (A * R) :=
  match l with
  | [] => Raise IndexError
  | _ => let '(i, r') := randbelow (length l) r in
         match l !! i with Some x => Ok (x, r') | None => Raise IndexError end
  end.

(** [x[i], x[j] = x[j], x[i]] *)
Definition exchange {A} (l : list A) (i j : nat) : list A :=
  match l !! i, l !! j with Some x, Some y => <[i := y]> (<[j := x]> l) | _, _ => l end.

Definition shuffle {A} (l : list A) (r : R) : list A * R :=
  foldl (fun lr i => let '(j, r') := randbelow (S i) lr.2 in (exchange lr.1 i j, r'))
    (l, r) (reverse (seq 1 (length l - 1))).

Lemma choice_spec {A} (l : list A) (r : R) : l <> [] -> exists x r', choice l r = Ok (x, r') /\ x ∈ l.
Proof.
  intros Hl. unfold choice. destruct l as [|a l]; [done|]. pose proof (randbelow_lt (length (a :: l)) r ltac:(cbn; lia)) as Hlt.
  destruct (randbelow _ r) as [i r']. cbn [fst] in Hlt. destruct (lookup_lt_is_Some_2 _ _ Hlt) as [x Hx]. rewrite Hx.
  exists x, r'. split; [done | by eapply list_elem_of_lookup_2].
Qed.

Lemma choice_Ok {A} (l : list A) (r : R) x r' : choice l r = Ok (x, r') -> x ∈ l.
Proof.
  intros H. destruct l as [|a l]; [done|]. destruct (choice_spec (a :: l) r) as (y & r'' & Hy & Hin); [done|]. congruence.
Qed.

Lemma randrange_spec n (r : R) : (0 < n)%nat -> exists i r', randrange n r = Ok (i, r') /\ (i < n)%nat.
Proof.
  intros Hn. unfold randrange. rewrite (proj2 (Nat.eqb_neq n 0)) by lia. pose proof (randbelow_lt n r Hn).
  destruct (randbelow n r) as [i r']. by exists i, r'.
Qed.

Lemma elem_of_exchange {A} (l : list A) i j x : x ∈ exchange l i j -> x ∈ l.
Proof.
  unfold exchange. destruct (l !! i) as [a|] eqn:Ei; [|done]. destruct (l !! j) as [b|] eqn:Ej; [|done].
  intros (k & Hk)%list_elem_of_lookup. apply list_lookup_insert_Some in Hk as [(_ & <- & _) | (_ & Hk)]; [by eapply list_elem_of_lookup_2|].
  apply list_lookup_insert_Some in Hk as [(_ & <- & _) | (_ & Hk)]; by eapply list_elem_of_lookup_2.
Qed.

Lemma elem_of_shuffle {A} (l : list A) (r : R) x : x ∈ (shuffle l r).1 -> x ∈ l.
Proof.
  unfold shuffle. generalize (reverse (seq 1 (length l - 1))) as ks. intros ks.
  enough (forall l' r', (forall y, y ∈ l' -> y ∈ l) ->
    x ∈ (foldl (fun lr i => let '(j, r'') := randbelow (S i) lr.2 in (exchange lr.1 i j, r'')) (l', r') ks).1 -> x ∈ l) as H by eauto.
  induction ks as [|i ks IH]; intros l' r' Hsub; cbn [foldl]; [apply Hsub|]. cbn [fst snd].
  destruct (randbelow (S i) r') as [j r'']. apply IH. intros y Hy%elem_of_exchange. auto.
Qed.
End draws.

(** ** Configurations *)

(** [_canonical_key]: the split map, the reduction symbols and the tiling. *)
Definition ckey : Type := list (string * Z) * list string * TileSpec.

Definition _canonical_key (d : CoreDivision) : ckey :=
  (py_sorted (fun a b => String.leb a.1 b.1) (splits d), py_sorted String.leb (reduction_syms d), tiling d).

Record DivisionConfig := mkConfig {
  division : CoreDivision;
  menu_index : option nat;
  position_disambiguates : bool
}.

(** The attribute [key]; the second component is the fourth element of the tuple. *)
Definition key (c : DivisionConfig) : ckey * option (option nat) :=
  (_canonical_key (division c), if position_disambiguates c then Some (menu_index c) else None).

Definition skey : Type := list (string * Z) * list string * option (option nat).

(** [key[:2] + key[3:]] *)
Definition _split_key (k : ckey * option (option nat)) : skey := (k.1.1, k.2).

Definition cfg_tiling (c : DivisionConfig) : TileSpec := tiling (division c).

Definition _one_axis_apart (left right : CoreDivision) : bool :=
  Nat.eqb (length (filter (fun k => dget_or 1 (splits left) k <> dget_or 1 (splits right) k)
                     (remove_dups (dkeys (splits left) ++ dkeys (splits right))))) 1.

(** ** Sources *)

Inductive division_source :=
  | MenuDivisions (configs : list DivisionConfig)
  | GeneratedDivisions (space : OpSplitSpace) (seed_config : DivisionConfig).

(** One menu of [_build_sources], with the split maps seen so far. *)
Definition menu_step (ic : nat * CoreDivision) (st : list DivisionConfig * list ckey) : list DivisionConfig * list ckey :=
  let canonical := _canonical_key ic.2 in
  (st.1 ++ [mkConfig ic.2 (Some ic.1) (bool_decide (canonical ∈ st.2))], canonical :: st.2).

Definition menu_of (divisions : list CoreDivision) : list DivisionConfig :=
  (foldl (fun st ic => menu_step ic st) ([], []) (zip (seq 0 (length divisions)) divisions)).1.

(** [by_key] *)
Definition by_key (configs : list DivisionConfig) : list ((ckey * option (option nat)) * DivisionConfig) :=
  foldl (fun m c => aset (key c) c m) [] configs.

Definition head_config (configs : list DivisionConfig) : res DivisionConfig :=
  match configs with c :: _ => Ok c | [] => Raise IndexError end.

Definition build_source (divisions : list CoreDivision) (space : option OpSplitSpace) : res division_source :=
  let configs := menu_of divisions in
  match space with
  | None => Ok (MenuDivisions configs)
  | Some sp => seed ← head_config configs; Ok (GeneratedDivisions sp seed)
  end.

Definition source_seed (s : division_source) : res DivisionConfig :=
  match s with
  | MenuDivisions configs => head_config configs
  | GeneratedDivisions _ seed => Ok seed
  end.

(** [_GeneratedDivisions.config_for] *)
Definition config_for (d : CoreDivision) : DivisionConfig := mkConfig d None false.

Definition splitting (configs : list DivisionConfig) : list DivisionConfig :=
  filter (fun c => 1 < output_partition (division c)) configs.

Definition space_can_tile (sp : OpSplitSpace) : bool :=
  match sp_tiling sp with Some ts => negb (bool_decide (output_counts ts = ∅)) | None => false end.

Definition can_tile (s : division_source) : bool :=
  match s with MenuDivisions _ => false | GeneratedDivisions sp _ => space_can_tile sp end.

Definition can_move (s : division_source) : res bool :=
  match s with
  | MenuDivisions configs => Ok (1 <? length configs)%nat
  | GeneratedDivisions sp _ =>
      domains ← factor_domains sp;
      Ok (existsb (fun ad => 1 <? length ad.2)%nat domains || space_can_tile sp)
  end.

Definition can_split (s : division_source) : res bool :=
  match s with
  | MenuDivisions configs => Ok (negb (bool_decide (splitting configs = [])))
  | GeneratedDivisions sp _ =>
      domains ← factor_domains sp;
      Ok (existsb (fun ad => bool_decide (ad.1 ∈ output_axes sp) && existsb (fun f => 1 <? f) ad.2) domains)
  end.

Definition retiled (s : division_source) (config : DivisionConfig) (t : TileSpec) : res (option DivisionConfig) :=
  match s with
  | MenuDivisions _ => Ok (if is_untiled t then Some config else None)
  | GeneratedDivisions sp _ =>
      let current := splits_of sp (division config) in
      ok ← admits sp current t;
      Ok (if ok : bool then Some (config_for (division_of sp current t)) else None)
  end.

Definition source_neighbours (s : division_source) (config : DivisionConfig) : res (list DivisionConfig) :=
  match s with
  | MenuDivisions configs => Ok (filter (fun c => _one_axis_apart (division c) (division config) = true) configs)
  | GeneratedDivisions sp _ => ds ← SplitSpace.neighbours sp (division config); Ok (config_for <$> (ds : list CoreDivision))
  end.

(** ** The recolor anchor *)

Section anchor.
Context {F : Type} `{!FloatOps F} {R : Type} `{!Random F R} `{!RandBelow R}.

(** [_UNTILED_ANCHOR_PROB] *)
Definition _UNTILED_ANCHOR_PROB : F := f_div (f_Z 1) (f_Z 2).

(** One output dimension of [_draw_tiling]. *)
Definition draw_level (sp : OpSplitSpace) (ts : TilingSpace) (host_dim : Z) (st : TileSpec * R) : res (TileSpec * R) :=
  cr ← choice (None :: (Some <$> counts ts host_dim)) st.2;
  match cr.1 with
  | None => Ok (st.1, cr.2)
  | Some c =>
      let candidate := mkSpec (PlanSolver.axes st.1 ++ [out_axis host_dim c]) in
      ok ← admits_tiling sp candidate;
      Ok (if ok : bool then candidate else st.1, cr.2)
  end.

Definition _draw_tiling (sp : OpSplitSpace) (r : R) : res (TileSpec * R) :=
  match sp_tiling sp with
  | None => Ok (UNTILED, r)
  | Some ts =>
      let '(u, r') := random r in
      if f_ltb u _UNTILED_ANCHOR_PROB then Ok (UNTILED, r')
      else for_each (draw_level sp ts) (output_dims ts) (UNTILED, r')
  end.

(** The splits and the tiling the redraw starts from, if there are any. *)
Definition anchor_start (sp : OpSplitSpace) (current : dict Z) (t : TileSpec) : res (option (dict Z * TileSpec)) :=
  ok ← admits sp current t;
  if ok : bool then Ok (Some (current, t))
  else
    let floor := (fun a => (a, 1)) <$> axes sp in
    ok ← admits sp floor t;
    if ok : bool then Ok (Some (floor, t))
    else
      ok ← admits sp current UNTILED;
      Ok (if ok : bool then Some (current, UNTILED) else None).

(** One axis of the redraw. *)
Definition redraw_axis (sp : OpSplitSpace) (domains : dict (list Z)) (t : TileSpec) (axis : string) (st : dict Z * R)
    : res (dict Z * R) :=
  domain ← dgetitem domains axis;
  fr ← choice domain st.2;
  let candidate := dset axis fr.1 st.1 in
  ok ← admits sp candidate t;
  Ok (if ok : bool then candidate else st.1, fr.2).

Definition anchor (s : division_source) (config : DivisionConfig) (r : R) : res (option DivisionConfig * R) :=
  match s with
  | MenuDivisions configs =>
      if bool_decide (splitting configs = []) then Ok (None, r)
      else cr ← choice (splitting configs) r; Ok (Some cr.1, cr.2)
  | GeneratedDivisions sp _ =>
      tr ← _draw_tiling sp r;
      start ← anchor_start sp (splits_of sp (division config)) tr.1;
      match start with
      | None => Ok (None, tr.2)
      | Some (current, t) =>
          domains ← factor_domains sp;
          let '(order, r') := shuffle (axes sp) tr.2 in
          sr ← for_each (redraw_axis sp domains t) order (current, r');
          let d := division_of sp sr.1 t in
          Ok (if output_partition d <=? 1 then None else Some (config_for d), sr.2)
      end
  end.

End anchor.

(** ** Edge relations *)

Notation pair_table := (list (skey * skey)).

Inductive edge_relation :=
  | TableRelation (pairs : pair_table) (down up : list (skey * DivisionConfig))
  | ViewRelation (edge : ResidencyEdge) (parent_space child_space : OpSplitSpace) (carries : TileSpec -> bool).

(** [d.setdefault(k, v)] *)
Definition setdefault {V} (k : skey) (v : V) (d : list (skey * V)) : list (skey * V) :=
  match aget d k with Some _ => d | None => aset k v d end.

Definition nat_pair_le (a b : nat * nat) : bool :=
  if (a.1 =? b.1)%nat then (a.2 <=? b.2)%nat else (a.1 <? b.1)%nat.

(** [p[1], p[0]] as the sort key *)
Definition child_first_le (a b : nat * nat) : bool := nat_pair_le (a.2, a.1) (b.2, b.1).

Notation menu_pair := (nat * nat * (DivisionConfig * DivisionConfig))%type.

(** [parent_menu.configs[ip]] and [child_menu.configs[ic]] *)
Definition pair_configs (pc cc : list DivisionConfig) (p : nat * nat) : res menu_pair :=
  match pc !! p.1, cc !! p.2 with
  | Some a, Some b => Ok (p, (a, b))
  | _, _ => Raise IndexError
  end.

Definition split_of_config (c : DivisionConfig) : skey := _split_key (key c).

Definition _table_relation (pairs : list (nat * nat)) (pc cc : list DivisionConfig) : res edge_relation :=
  entries ← py_map (pair_configs pc cc) (py_sorted nat_pair_le (remove_dups pairs));
  let untiled := filter (fun e => is_untiled (cfg_tiling e.2.1) = true /\ is_untiled (cfg_tiling e.2.2) = true) entries in
  let down_first := py_sorted (fun a b => child_first_le a.1 b.1) untiled in
  Ok (TableRelation ((fun e => (split_of_config e.2.1, split_of_config e.2.2)) <$> untiled)
        (foldl (fun d e => setdefault (split_of_config e.2.1) e.2.2 d) [] down_first)
        (foldl (fun d e => setdefault (split_of_config e.2.2) e.2.1 d) [] untiled)).

Definition relation_compatible (rel : edge_relation) (parent child : DivisionConfig) : res bool :=
  match rel with
  | TableRelation pairs _ _ => Ok (bool_decide ((split_of_config parent, split_of_config child) ∈ pairs))
  | ViewRelation e _ _ _ => ResidencyEdge.compatible e (splits (division parent)) (splits (division child))
  end.

(** [_carried] *)
Definition _carried (carries : TileSpec -> bool) (d : CoreDivision) : CoreDivision :=
  if carries (tiling d) then d else mkDivision (splits d) (reduction_syms d) UNTILED (tile_splits d).

Definition child_for (rel : edge_relation) (parent : DivisionConfig) : res (option DivisionConfig) :=
  match rel with
  | TableRelation _ down _ => Ok (aget down (split_of_config parent))
  | ViewRelation e _ sp carries => d ← consumer_division_for e (_carried carries (division parent)) sp; Ok (option_map config_for d)
  end.

Definition parent_for (rel : edge_relation) (child : DivisionConfig) : res (option DivisionConfig) :=
  match rel with
  | TableRelation _ _ up => Ok (aget up (split_of_config child))
  | ViewRelation e sp _ carries => d ← parent_division_for e (_carried carries (division child)) sp; Ok (option_map config_for d)
  end.

(** ** What a source hands out is legal *)

(** A complete legal split of the space under the division's tiling. *)
Definition legal_division (sp : OpSplitSpace) (d : CoreDivision) : Prop :=
  exists s, d = division_of sp s (tiling d) /\ at_state sp s (tiling d).

(** The configurations a buffer can hold: an entry of its menu, or a division
    generated from its space. *)
Definition source_admits (menu : list DivisionConfig) (src : division_source) (c : DivisionConfig) : Prop :=
  c ∈ menu \/
  match src with
  | MenuDivisions _ => False
  | GeneratedDivisions sp _ => c = config_for (division c) /\ legal_division sp (division c)
  end.

(** A source over its menu: the committed division comes first, and where divisions
    are generated the menu is part of the space. *)
Definition wf_source (menu : list DivisionConfig) (src : division_source) : Prop :=
  match src with
  | MenuDivisions configs => configs = menu
  | GeneratedDivisions sp seed =>
      head menu = Some seed /\ NoDup (axes sp) /\ Forall (fun c => legal_division sp (division c)) menu
  end.

Lemma admitted_legal menu sp seed c :
  wf_source menu (GeneratedDivisions sp seed) -> source_admits menu (GeneratedDivisions sp seed) c ->
  legal_division sp (division c).
Proof. intros (_ & _ & Hm) [Hc | [_ Hc]]; [|done]. by eapply Forall_forall in Hm. Qed.

Lemma config_for_admitted menu sp seed d :
  legal_division sp d -> source_admits menu (GeneratedDivisions sp seed) (config_for d).
Proof. intros Hd. right. done. Qed.

Lemma legal_division_of sp s t : at_state sp s t -> legal_division sp (division_of sp s t).
Proof. intros Hs. by exists s. Qed.

Lemma legal_splits sp d : NoDup (axes sp) -> legal_division sp d -> at_state sp (splits_of sp d) (tiling d) /\
  d = division_of sp (splits_of sp d) (tiling d).
Proof. intros Hnd (s & E & Hs). rewrite E at 1 4. rewrite splits_division by done. done. Qed.

Lemma seed_admitted menu src c : wf_source menu src -> source_seed src = Ok c -> source_admits menu src c.
Proof.
  intros Hwf Hs. left. destruct src as [configs|sp seed]; cbn in *.
  - subst configs. unfold head_config in Hs. destruct menu as [|a menu]; [done|]. injection Hs as <-. by left.
  - injection Hs as <-. destruct Hwf as (Hh & _). destruct menu as [|a menu]; [done|]. injection Hh as <-. by left.
Qed.

Lemma neighbours_admitted menu src c l c' :
  wf_source menu src -> source_admits menu src c -> source_neighbours src c = Ok l -> c' ∈ l -> source_admits menu src c'.
Proof.
  intros Hwf Hc Hl Hin. destruct src as [configs|sp seed]; cbn in Hl.
  - injection Hl as <-. apply list_elem_of_filter in Hin as [_ Hin]. left. by rewrite <- Hwf.
  - apply bind_Ok in Hl as (ds & Hds & [= <-]). apply list_elem_of_fmap in Hin as (d & -> & Hd).
    apply config_for_admitted. pose proof (admitted_legal menu sp seed c Hwf Hc) as Hleg. destruct Hwf as (_ & Hnd & _).
    destruct (legal_splits sp (division c) Hnd Hleg) as [Hs E]. rewrite E in Hds.
    apply (elem_of_neighbours sp _ _ ds d Hnd Hs Hds) in Hd as [(axis & l & s' & Hax & Hl & Hs' & ->) | (spec & _ & Ha & ->)].
    + apply (elem_of_axis_moves _ _ _ _ _ _ Hl) in Hs' as (dom & f & _ & _ & _ & -> & Ha). apply legal_division_of.
      split; [|done]. rewrite dkeys_dset_mem; [apply Hs|]. by rewrite (proj1 Hs).
    + apply legal_division_of. split; [apply Hs | done].
Qed.

Lemma retiled_admitted menu src c t c' :
  wf_source menu src -> source_admits menu src c -> retiled src c t = Ok (Some c') -> source_admits menu src c'.
Proof.
  intros Hwf Hc Hr. destruct src as [configs|sp seed]; cbn in Hr.
  - destruct (is_untiled t); [|done]. by injection Hr as <-.
  - apply bind_Ok in Hr as (ok & Ha & Hr). destruct ok; [|done]. injection Hr as <-. apply config_for_admitted.
    pose proof (admitted_legal menu sp seed c Hwf Hc) as Hleg. destruct Hwf as (_ & Hnd & _).
    apply legal_division_of. split; [apply (legal_splits sp (division c) Hnd Hleg) | done].
Qed.

(** A retiled configuration keeps its splits. *)
Lemma retiled_tiling src c t c' : retiled src c t = Ok (Some c') ->
  cfg_tiling c' = t \/ (exists configs, src = MenuDivisions configs) /\ c' = c.
Proof.
  intros Hr. destruct src as [configs|sp seed]; cbn in Hr.
  - destruct (is_untiled t); [|done]. injection Hr as <-. right. eauto.
  - apply bind_Ok in Hr as (ok & _ & Hr). destruct ok; [|done]. injection Hr as <-. by left.
Qed.

Section anchored.
Context {F : Type} `{!FloatOps F} {R : Type} `{!Random F R} `{!RandBelow R}.

Lemma anchor_start_state sp current t s' t' :
  dkeys current = axes sp -> anchor_start sp current t = Ok (Some (s', t')) -> at_state sp s' t'.
Proof.
  intros Hk (ok & Ha & H)%bind_Ok. destruct ok; [by injection H as <- <-|].
  apply bind_Ok in H as (ok & Hf & H). destruct ok.
  - injection H as <- <-. split; [|done]. unfold dkeys. rewrite <- list_fmap_compose. by rewrite list_fmap_id.
  - apply bind_Ok in H as (ok & Hu & H). destruct ok; [|done]. by injection H as <- <-.
Qed.

Lemma redraw_state sp domains t order (st st' : dict Z * R) :
  (forall a, a ∈ order -> a ∈ axes sp) -> at_state sp st.1 t ->
  for_each (redraw_axis sp domains t) order st = Ok st' -> at_state sp st'.1 t.
Proof.
  intros Ho Hs Hrun. refine (for_each_ind _ (fun _ st => at_state sp st.1 t) order st st' _ Hs Hrun).
  intros pre a rest s1 s2 Ha Hst Hstep. apply bind_Ok in Hstep as (dom & _ & H). apply bind_Ok in H as (fr & _ & H).
  apply bind_Ok in H as (ok & Hadm & [= <-]). cbn [fst]. destruct ok; [|done]. split; [|done].
  rewrite dkeys_dset_mem; [apply Hst|]. rewrite (proj1 Hst). apply Ho. subst order. list_mem.
Qed.

Lemma anchor_admitted menu src c (r r' : R) c' :
  wf_source menu src -> source_admits menu src c -> anchor src c r = Ok (Some c', r') ->
  source_admits menu src c' /\ 1 < output_partition (division c').
Proof.
  intros Hwf Hc Ha. destruct src as [configs|sp seed]; cbn [anchor] in Ha.
  - case_match; [done|]. apply bind_Ok in Ha as ([x r1] & Hx%choice_Ok & [= <- <-]). cbn in Hx.
    apply list_elem_of_filter in Hx as [Hp Hx]. split; [|done]. left. by rewrite <- Hwf.
  - pose proof (admitted_legal menu sp seed c Hwf Hc) as Hleg. destruct Hwf as (_ & Hnd & _).
    destruct (legal_splits sp (division c) Hnd Hleg) as [[Hk _] _].
    apply bind_Ok in Ha as (tr & _ & Ha). apply bind_Ok in Ha as (start & Hst & Ha).
    destruct start as [[current t]|]; [|done]. apply anchor_start_state in Hst; [|done].
    apply bind_Ok in Ha as (domains & _ & Ha). destruct (shuffle (axes sp) tr.2) as [order r1] eqn:Esh.
    apply bind_Ok in Ha as (sr & Hrun & Ha).
    assert (at_state sp sr.1 t) as Hsr.
    { apply (redraw_state sp domains t order (current, r1) sr); [|done | done]. intros a Hin. apply (elem_of_shuffle _ tr.2). by rewrite Esh. }
    destruct (Z.leb_spec (output_partition (division_of sp sr.1 t)) 1); [done|]. injection Ha as <- _.
    split; [by apply config_for_admitted, legal_division_of | done].
Qed.
End anchored.

(** ** Menus *)

Lemma menu_of_snoc_gen l : forall st,
  let r := foldl (fun st ic => menu_step ic st) st l in
  exists k, r.1 = st.1 ++ k /\ Forall2 (fun ic c => division c = ic.2 /\ menu_index c = Some ic.1) l k.
Proof.
  induction l as [|ic l IH]; intros st; cbn [foldl]; [exists []; by rewrite app_nil_r|].
  destruct (IH (menu_step ic st)) as (k & Hk & Hf). cbn zeta in *. rewrite Hk. cbn [menu_step fst].
  eexists. rewrite <- app_assoc. split; [reflexivity|]. by constructor.
Qed.

Lemma menu_of_entries ds :
  Forall2 (fun ic c => division c = ic.2 /\ menu_index c = Some ic.1) (zip (seq 0 (length ds)) ds) (menu_of ds).
Proof. destruct (menu_of_snoc_gen (zip (seq 0 (length ds)) ds) ([], [])) as (k & Hk & Hf). unfold menu_of. by rewrite Hk. Qed.

Lemma length_menu_of ds : length (menu_of ds) = length ds.
Proof. rewrite <- (Forall2_length _ _ _ (menu_of_entries ds)). rewrite length_zip, length_seq. lia. Qed.

(** The entry at a position names it. *)
Lemma menu_of_lookup ds i c : menu_of ds !! i = Some c -> ds !! i = Some (division c) /\ menu_index c = Some i.
Proof.
  intros Hi. destruct (Forall2_lookup_r _ _ _ _ _ (menu_of_entries ds) Hi) as ([j d] & Hj & E1 & E2). cbn in *.
  apply lookup_zip_with_Some in Hj as (? & ? & [= -> ->] & Hs & Hd). apply lookup_seq in Hs as [-> _]. cbn in E2. by rewrite E1.
Qed.

Lemma elem_of_menu_of ds c : c ∈ menu_of ds -> exists i, menu_index c = Some i /\ ds !! i = Some (division c).
Proof. intros (i & Hi)%list_elem_of_lookup. exists i. by destruct (menu_of_lookup ds i c Hi). Qed.

Lemma by_key_spec configs k c : aget (by_key configs) k = Some c -> c ∈ configs /\ key c = k.
Proof.
  unfold by_key. enough (forall m, (forall k c, aget m k = Some c -> c ∈ configs /\ key c = k) ->
    forall l, (forall c, c ∈ l -> c ∈ configs) -> forall k c, aget (foldl (fun m c => aset (key c) c m) m l) k = Some c -> c ∈ configs /\ key c = k) as H.
  { apply H; [done | done]. }
  intros m Hm l. revert m Hm. induction l as [|a l IH]; intros m Hm Hl k' c'; cbn [foldl]; [apply Hm|]. apply IH; [|intros; apply Hl; list_mem].
  intros k1 c1. rewrite aget_aset. destruct (decide (k1 = key a)) as [-> | _]; [|apply Hm].
  intros [= <-]. split; [apply Hl; list_mem | done].
Qed.

(** ** What crosses an edge is admitted and compatible *)

Lemma setdefault_fold {A} (f : A -> skey) (g : A -> DivisionConfig) l k c :
  aget (foldl (fun d x => setdefault (f x) (g x) d) [] l) k = Some c -> exists x, x ∈ l /\ f x = k /\ g x = c.
Proof.
  enough (forall d, aget (foldl (fun d x => setdefault (f x) (g x) d) d l) k = Some c ->
    aget d k = Some c \/ exists x, x ∈ l /\ f x = k /\ g x = c) as H by (intros E; destruct (H [] E) as [?|?]; done).
  induction l as [|a l IH]; intros d; cbn [foldl]; [by left|]. intros [Hd | (x & ? & ?)]%IH.
  - unfold setdefault in Hd. destruct (aget d (f a)) eqn:E; [by left|]. rewrite aget_aset in Hd.
    destruct (decide (k = f a)) as [-> | _]; [|by left]. injection Hd as <-. right. exists a. split; [list_mem | done].
  - right. exists x. split; [by right | done].
Qed.

Record table_ok (pairs : list (nat * nat)) (pc cc : list DivisionConfig) (ps : pair_table)
    (down up : list (skey * DivisionConfig)) : Prop := {
  table_pairs : forall kp kc, (kp, kc) ∈ ps -> exists ip ic p c, (ip, ic) ∈ pairs /\ pc !! ip = Some p /\ cc !! ic = Some c /\
    kp = split_of_config p /\ kc = split_of_config c;
  table_down : forall k c, aget down k = Some c -> c ∈ cc /\ (k, split_of_config c) ∈ ps;
  table_up : forall k p, aget up k = Some p -> p ∈ pc /\ (split_of_config p, k) ∈ ps
}.

Lemma table_relation_spec pairs pc cc rel :
  _table_relation pairs pc cc = Ok rel -> exists ps down up, rel = TableRelation ps down up /\ table_ok pairs pc cc ps down up.
Proof.
  intros (entries & He & [= <-])%bind_Ok. eexists _, _, _. split; [reflexivity|].
  set (untiled := filter _ entries).
  assert (forall e, e ∈ untiled -> e.1 ∈ pairs /\ pc !! e.1.1 = Some e.2.1 /\ cc !! e.1.2 = Some e.2.2) as Hent.
  { intros e [_ (i & Hi)%list_elem_of_lookup]%list_elem_of_filter. apply py_map_Ok in He.
    destruct (Forall2_lookup_r _ _ _ _ _ He Hi) as (p & Hp & E). unfold pair_configs in E.
    destruct (pc !! p.1) eqn:E1; [|done]. destruct (cc !! p.2) eqn:E2; [|done]. injection E as <-. cbn.
    split; [|done]. apply elem_of_remove_dups, (elem_of_py_sorted nat_pair_le). by eapply list_elem_of_lookup_2. }
  split.
  - intros kp kc ([ij [p c]] & [= -> ->] & Hin)%list_elem_of_fmap. destruct (Hent _ Hin) as (H1 & H2 & H3). cbn in *.
    exists ij.1, ij.2, p, c. by destruct ij.
  - intros k c (e & Hin%elem_of_py_sorted & <- & <-)%setdefault_fold. destruct (Hent _ Hin) as (_ & _ & H3).
    split; [by eapply list_elem_of_lookup_2|]. apply list_elem_of_fmap. by exists e.
  - intros k c (e & Hin & <- & <-)%setdefault_fold. destruct (Hent _ Hin) as (_ & H2 & _).
    split; [by eapply list_elem_of_lookup_2|]. apply list_elem_of_fmap. by exists e.
Qed.

(** The relation on an edge between two buffers with these menus and sources. *)
Definition wf_relation (pmenu : list DivisionConfig) (psrc : division_source) (cmenu : list DivisionConfig)
    (csrc : division_source) (rel : edge_relation) : Prop :=
  match rel with
  | TableRelation ps down up => exists pairs, table_ok pairs pmenu cmenu ps down up
  | ViewRelation e psp csp _ =>
      (exists seed, psrc = GeneratedDivisions psp seed) /\ (exists seed, csrc = GeneratedDivisions csp seed) /\
      preps_over psp [write_prep e] /\ preps_over csp (read_preps e)
  end.

Lemma carried_splits carries d : splits (_carried carries d) = splits d.
Proof. unfold _carried. by destruct (carries (tiling d)). Qed.

Lemma child_for_sound pmenu psrc cmenu csrc rel p c :
  wf_relation pmenu psrc cmenu csrc rel -> child_for rel p = Ok (Some c) ->
  source_admits cmenu csrc c /\ relation_compatible rel p c = Ok true.
Proof.
  destruct rel as [ps down up|e psp csp carries]; cbn [wf_relation child_for relation_compatible].
  - intros (pairs & Ht) [= Hd]. destruct (table_down _ _ _ _ _ _ Ht _ _ Hd) as [Hc Hp].
    split; [by left|]. by rewrite bool_decide_true.
  - intros ([seed1 ->] & [seed2 ->] & Hp & Hc) (d & Hd & H)%bind_Ok. destruct d as [d|]; [|done]. injection H as <-.
    assert (constructed e false csp (_carried carries (division p)) d) as (Hl & Hcomp & _) by (by apply consumer_division_sound).
    rewrite carried_splits in Hcomp. split; [by apply config_for_admitted | done].
Qed.

Lemma parent_for_sound pmenu psrc cmenu csrc rel p c :
  wf_relation pmenu psrc cmenu csrc rel -> parent_for rel c = Ok (Some p) ->
  source_admits pmenu psrc p /\ relation_compatible rel p c = Ok true.
Proof.
  destruct rel as [ps down up|e psp csp carries]; cbn [wf_relation parent_for relation_compatible].
  - intros (pairs & Ht) [= Hd]. destruct (table_up _ _ _ _ _ _ Ht _ _ Hd) as [Hc Hp].
    split; [by left|]. by rewrite bool_decide_true.
  - intros ([seed1 ->] & [seed2 ->] & Hp & Hc) (d & Hd & H)%bind_Ok. destruct d as [d|]; [|done]. injection H as <-.
    assert (constructed e true psp (_carried carries (division c)) d) as (Hl & Hcomp & _) by (by apply parent_division_sound).
    rewrite carried_splits in Hcomp. split; [by apply config_for_admitted | done].
Qed.
