(* ===== verification/CoOptimizer.v ===== *)
(** * The joint division and layout search ([scratchpad/sa_cooptimizer.py])

    [SaCoOptimizingSolver] anneals a pair: the order [pi] of the buffers, held by the
    packer of [PermLayout], and the division vector [W], one configuration of
    [CoDivisions] per buffer.  A step reorders, flips one division or moves a tiling
    boundary, or floods a region with compatible divisions; structural moves are
    followed by a short burst of layout steps, and one Metropolis test judges the
    whole.  The best state seen is written back.

    The engine's state is explicit: [cstate] is what a snapshot copies, and the
    generator is threaded besides it.  Positions are those of [buffers].  The compiled
    cost expression is an argument (its symbols and a price), and so is the conversion
    of bytes to fixed-point time. *)

From S2P Require Import Prelude PyDict PlanSolver GreedySolver FitSolver PermLayout Cooling Annealing CoreMapping CoreViews Tilings SplitSpace ResidencyEdge CoDivisions.

Definition enumerate {A} (l : list A) : list (nat * A) := zip (seq 0 (length l)) l.

(** ** Buffers and the static topology *)

Notation tile_test := (TileSpec -> TileSpec -> bool).

(** [CoreDivisionBuffer], with the fields only this engine reads.  [tile_reads] gives, per
    producer read, what [TileReads.aligned] answers. *)
Record cobuffer := mkCo {
  co_buf : LifetimeBoundBuffer;
  boundary : BufferType;
  op_position : option nat;
  tile_reads : dict tile_test;
  division_space : option OpSplitSpace;
  residency_edges : dict ResidencyEdge
}.

Definition co_name (b : cobuffer) : string := buf_name (co_buf b).

(** What [_precompute_topology] leaves on the solver.  [flippable_ops] is the static list of
    [_flippable], which [_anneal] asks for at its start. *)
Record topology := mkTopology {
  bufs : list cobuffer;
  lx_limit : Z;
  lx_alignment : Z;
  menus : list (list DivisionConfig);
  sources : list division_source;
  (** [(p, c, relation)], in the order the edges are met *)
  edges : list (nat * nat * edge_relation);
  buffer_at : list (nat * nat);
  (** [(reader position, producer position, reads)] *)
  read_edges : list (nat * nat * tile_test);
  anchor_candidates : list nat;
  flippable_ops : list nat;
  tilings_are_possible : bool;
  spill_costs : list Z
}.

(** [_name_to_idx] *)
Definition name_to_index (bs : list cobuffer) : dict nat :=
  foldl (fun m ib => dset (co_name ib.2) ib.1 m) [] (enumerate bs).

Definition _assert_unsized_buffers_are_pinned (bs : list cobuffer) : res unit :=
  py_assert (forallb (fun b => (0 <=? buf_size (co_buf b)) || bool_decide (is_Some (residency_reason (co_buf b)))) bs).

Definition _edge_relation (bs : list cobuffer) (ms : list (list DivisionConfig)) (srcs : list division_source)
    (p_idx c_idx : nat) (p_name : string) : res edge_relation :=
  c ← py_at bs c_idx;
  parent_source ← py_at srcs p_idx;
  child_source ← py_at srcs c_idx;
  match dget (residency_edges c) p_name, parent_source, child_source with
  | Some edge, GeneratedDivisions psp _, GeneratedDivisions csp _ =>
      Ok (ViewRelation edge psp csp
            match dget (tile_reads c) p_name with
            | None => fun _ => true
            | Some reads => fun spec => reads spec spec
            end)
  | _, _, _ =>
      pm ← py_at ms p_idx;
      cm ← py_at ms c_idx;
      _table_relation (default [] (cd_parent_matches (co_buf c) !! p_name)) pm cm
  end.

(** The declared parents the solver owns, as [(p_idx, c_idx, p_name)]. *)
Definition parent_edges (bs : list cobuffer) : list (nat * nat * string) :=
  ic ← enumerate bs;
  omap (fun p_name => (fun p_idx => (p_idx, ic.1, p_name)) <$> dget (name_to_index bs) p_name) (parents (co_buf ic.2)).

Definition build_edges (bs : list cobuffer) (ms : list (list DivisionConfig)) (srcs : list division_source)
    : res (list (nat * nat * edge_relation)) :=
  py_map (fun pcn => rel ← _edge_relation bs ms srcs pcn.1.1 pcn.1.2 pcn.2; Ok (pcn.1, rel)) (parent_edges bs).

(** [_build_operation_positions]: [_buffer_at]. *)
Definition place_position (ib : nat * cobuffer) (m : list (nat * nat)) : res (list (nat * nat)) :=
  match op_position ib.2 with
  | None => Ok m
  | Some position => py_assert (negb (bool_decide (is_Some (aget m position))));; Ok (aset position ib.1 m)
  end.

Definition build_positions (bs : list cobuffer) : res (list (nat * nat)) := for_each place_position (enumerate bs) [].

Definition producer_position (bs : list cobuffer) (name : string) : option nat :=
  match dget (name_to_index bs) name with
  | None => None
  | Some p_idx => match bs !! p_idx with Some b => op_position b | None => None end
  end.

(** [_build_operation_positions]: [_tile_reads] and [_tile_readers] in one list. *)
Definition build_reads (bs : list cobuffer) : list (nat * nat * tile_test) :=
  buf ← bs;
  match op_position buf with
  | None => []
  | Some reader =>
      omap (fun nr : string * tile_test =>
        match producer_position bs nr.1 with
        | None => None
        | Some producer => if (reader <=? producer)%nat then None else Some (reader, producer, nr.2)
        end) (py_sorted (fun a b => String.leb a.1 b.1) (tile_reads buf))
  end.

(** [_spill_cost] *)
Definition _spill_cost (b : cobuffer) : Z :=
  let reads_served := read_count (co_buf b) - (if first_use_is_read (co_buf b) then 1 else 0) in
  (reads_served + (if bool_decide (boundary b = Intermediate) then 1 else 0)) * Z.max 0 (buf_size (co_buf b)).

Definition indices_where {A} (p : A -> res bool) (l : list A) : res (list nat) :=
  flags ← py_map p l;
  Ok (omap (fun ib => if ib.2 : bool then Some ib.1 else None) (enumerate flags)).

Definition _precompute_topology (bs : list cobuffer) (limit alignment : Z) : res topology :=
  _assert_unsized_buffers_are_pinned bs;;
  let ms := (fun b => menu_of (core_divisions (co_buf b))) <$> bs in
  srcs ← py_map (fun b => build_source (core_divisions (co_buf b)) (division_space b)) bs;
  es ← build_edges bs ms srcs;
  anchors ← indices_where can_split srcs;
  ats ← build_positions bs;
  flips ← indices_where can_move srcs;
  Ok (mkTopology bs limit alignment ms srcs es ats (build_reads bs) anchors flips
        (existsb can_tile srcs) (_spill_cost <$> bs)).

Section engine.
Context {F : Type} `{!FloatOps F} {R : Type} `{!Random F R} `{!RandBelow R}.
Context (t : topology).

#[local] Notation n := (length (bufs t)).

(** [_children[i]] *)
Definition children (i : nat) : list (nat * edge_relation) :=
  omap (fun e => if bool_decide (e.1.1 = i) then Some (e.1.2, e.2) else None) (edges t).

(** [sorted(_parents_idx[i])] *)
Definition parents_idx (i : nat) : list nat :=
  py_sorted Nat.leb (remove_dups (omap (fun e => if bool_decide (e.1.2 = i) then Some e.1.1 else None) (edges t))).

Definition children_idx (i : nat) : list nat := py_sorted Nat.leb (children i).*1.

(** [_relations[(p, c)]]: a later edge of the same pair replaces an earlier one. *)
Definition relation_of (p c : nat) : res edge_relation :=
  match last (filter (fun cr => cr.1 = c) (children p)) with Some cr => Ok cr.2 | None => Raise KeyError end.

(** ** The state *)

Record cstate := mkState {
  chosen : list DivisionConfig;
  packer : native;
  n_eligible : Z
}.

(** ** Runs *)

Definition n_positions : nat := foldr (fun pi m => Nat.max (S pi.1) m) 0%nat (buffer_at t).

(** [_tiling_at] under the division vector [w]. *)
Definition _tiling_at (w : list DivisionConfig) (position : nat) : res TileSpec :=
  match aget (buffer_at t) position with
  | None => Ok UNTILED
  | Some idx => c ← py_at w idx; Ok (cfg_tiling c)
  end.

(** [_tile_reads.get(position, ())] and [_tile_readers.get(position, ())] *)
Definition reads_at (position : nat) : list (nat * tile_test) :=
  omap (fun e => if bool_decide (e.1.1 = position) then Some (e.1.2, e.2) else None) (read_edges t).
Definition readers_at (position : nat) : list (nat * tile_test) :=
  omap (fun e => if bool_decide (e.1.2 = position) then Some (e.1.1, e.2) else None) (read_edges t).

Definition _breaks_at (w : list DivisionConfig) (position stretch : nat) : res bool :=
  spec ← _tiling_at w position;
  if is_untiled spec then Ok false
  else py_any (fun pr =>
         if (stretch <=? pr.1)%nat then pspec ← _tiling_at w pr.1; Ok (negb (pr.2 pspec spec)) else Ok false)
         (reads_at position).

(** Both loops of [_runs]: [rest] counts the positions after [at_]. *)
Fixpoint runs_from (w : list DivisionConfig) (rest stretch lo at_ : nat) : res (list (nat * nat)) :=
  match rest with
  | O => Ok [(lo, at_)]
  | S rest' =>
      nest ← _tiling_at w stretch;
      next ← _tiling_at w (S at_);
      if bool_decide (level_counts next = level_counts nest) then
        b ← _breaks_at w (S at_) stretch;
        if (b : bool) then rs ← runs_from w rest' stretch (S at_) (S at_); Ok ((lo, at_) :: rs)
        else runs_from w rest' stretch lo (S at_)
      else rs ← runs_from w rest' (S at_) (S at_) (S at_); Ok ((lo, at_) :: rs)
  end.

Definition _runs (w : list DivisionConfig) : res (list (nat * nat)) :=
  match n_positions with O => Ok [] | S rest => runs_from w rest 0 0 0 end.

Definition _run_bounds (w : list DivisionConfig) (position : nat) : res (nat * nat) :=
  rs ← _runs w;
  match list_find (fun run => (position <= run.2)%nat) rs with
  | Some (_, run) => Ok run
  | None => Raise StopIteration
  end.

(** The vector under an [override]. *)
Definition with_override (w : list DivisionConfig) (assignment : list (nat * DivisionConfig)) : list DivisionConfig :=
  foldl (fun w ic => <[ic.1 := ic.2]> w) w assignment.

(** ** Eligibility *)

Definition _per_core_size (idx : nat) (config : DivisionConfig) : res Z :=
  b ← py_at (bufs t) idx;
  Ok (Z.max 0 (ceil_div (buf_size (co_buf b)) (output_partition (division config) * output_tile_count (cfg_tiling config)))).

Definition _read_across_a_tiling_boundary (w : list DivisionConfig) (idx : nat) (parent : DivisionConfig) : res bool :=
  if negb (tilings_are_possible t) || negb (is_untiled (cfg_tiling parent)) then Ok false
  else py_any (fun cr => child ← py_at w cr.1; Ok (negb (is_untiled (cfg_tiling child)))) (children idx).

Definition _eligible (w : list DivisionConfig) (idx : nat) : res bool :=
  b ← py_at (bufs t) idx;
  if bool_decide (is_Some (residency_reason (co_buf b))) then Ok false
  else
    parent ← py_at w idx;
    size ← _per_core_size idx parent;
    if lx_limit t <? size then Ok false
    else
      across ← _read_across_a_tiling_boundary w idx parent;
      if across : bool then Ok false
      else py_all (fun cr => child ← py_at w cr.1; relation_compatible cr.2 parent child) (children idx).

Definition _all_eligible_resident (s : cstate) : bool := n_count (packer s) =? n_eligible s.

(** [sum(self._eligible(x) for x in l)] *)
Definition count_eligible (w : list DivisionConfig) (l : list nat) : res Z :=
  for_each (fun x total => flag ← _eligible w x; Ok (total + Z.b2z flag)) l 0.

(** ** The seed *)

(** [_lifetime_buffers] *)
Definition lifetime_buffer (size : Z) (b : cobuffer) : LifetimeBoundBuffer :=
  let o := co_buf b in
  mkBuffer (buf_name o) size (uses o) (first_use_is_read o) None
    (filter (fun p => is_Some (dget (name_to_index (bufs t)) p)) (in_place_parents o))
    (residency_reason o) None (lifetime_start_override o) (lifetime_end_override o) [] None [] [] ∅ None.

Definition _lifetime_buffers (sizes : list Z) : list LifetimeBoundBuffer := zip_with lifetime_buffer sizes (bufs t).

Definition set_in_place_parents (l : list string) (b : LifetimeBoundBuffer) : LifetimeBoundBuffer :=
  mkBuffer (buf_name b) (buf_size b) (uses b) (first_use_is_read b) (address b) l (residency_reason b) (untiled_bar b)
    (lifetime_start_override b) (lifetime_end_override b) (paired_with b) (spill_reason b) (core_divisions b)
    (parents b) (cd_parent_matches b) (chosen_division b).

(** The pairs first fit would refuse are dropped for the seed. *)
Definition size_by_name (sizes : list Z) (name : string) : option Z :=
  match dget (name_to_index (bufs t)) name with Some i => sizes !! i | None => None end.

Definition parent_as_large (sizes : list Z) (child parent : string) : bool :=
  match size_by_name sizes parent, size_by_name sizes child with
  | Some parent_size, Some child_size => child_size <=? parent_size
  | _, _ => false
  end.

Definition drop_larger (sizes : list Z) (b : LifetimeBoundBuffer) : LifetimeBoundBuffer :=
  set_in_place_parents (filter (fun p => parent_as_large sizes (buf_name b) p = true) (in_place_parents b)) b.

Definition _build_seed_packer (w : list DivisionConfig) : res (native * Z) :=
  sizes ← py_map (fun ic => _per_core_size ic.1 ic.2) (enumerate w);
  eligible ← py_map (_eligible w) (seq 0 n);
  let ff_bufs := drop_larger sizes <$> _lifetime_buffers sizes in
  pi ← permutation (FitSolver.plan_layout first_fit_pick (lx_limit t) (lx_alignment t) ff_bufs) ff_bufs;
  p ← native_init (_lifetime_buffers sizes) pi (lx_limit t) (lx_alignment t) (Some eligible);
  Ok (p, zsum (Z.b2z <$> eligible)).

(** ** Moves on one or several divisions *)

(** The refresh loop over the affected buffers, counting the eligible ones. *)
Definition refresh (w : list DivisionConfig) (affected : list nat) (p : native) : res (native * Z) :=
  for_each (fun x pa => flag ← _eligible w x; p' ← n_set_eligible x flag pa.1; Ok (p'.1, pa.2 + Z.b2z flag)) affected (p, 0).

Definition _atomic_flip (idx : nat) (config : DivisionConfig) (s : cstate) : res cstate :=
  let affected := py_sorted Nat.leb (remove_dups (idx :: parents_idx idx)) in
  before ← count_eligible (chosen s) affected;
  let w := <[idx := config]> (chosen s) in
  size ← _per_core_size idx config;
  resized ← n_resize idx size (packer s);
  pa ← refresh w affected resized.1;
  Ok (mkState w pa.1 (n_eligible s + (pa.2 - before))).

Definition resize_op (w : list DivisionConfig) (op : nat) (p : native) : res native :=
  c ← py_at w op;
  size ← _per_core_size op c;
  resized ← n_resize op size p;
  Ok resized.1.

Definition _apply_assignment (assignment : list (nat * DivisionConfig)) (s : cstate) : res cstate :=
  let affected := py_sorted Nat.leb (remove_dups (assignment.*1 ++ mjoin (parents_idx <$> assignment.*1))) in
  before ← count_eligible (chosen s) affected;
  let w := with_override (chosen s) assignment in
  p ← for_each (resize_op w) (py_sorted Nat.leb assignment.*1) (packer s);
  pa ← refresh w affected p;
  Ok (mkState w pa.1 (n_eligible s + (pa.2 - before))).

(** ** The tiling boundary *)

Definition _misread_across (at_ start : nat) (spec : TileSpec) (forward : bool) : bool :=
  if is_untiled spec then false
  else
    let tests := if forward then snd <$> filter (fun pr => (start <= pr.1)%nat) (reads_at at_)
                 else snd <$> filter (fun pr => (pr.1 <= start)%nat) (readers_at at_) in
    existsb (fun reads : tile_test => negb (reads spec spec)) tests.

(** The walk of [_retile_boundary] over the positions to the end of the run. *)
Fixpoint walk (w : list DivisionConfig) (position : nat) (spec : TileSpec) (forward : bool) (positions : list nat)
    (assignment : list (nat * DivisionConfig)) : res (list (nat * DivisionConfig)) :=
  match positions with
  | [] => Ok assignment
  | at_ :: positions' =>
      match aget (buffer_at t) at_ with
      | None => Ok assignment
      | Some target =>
          if negb (at_ =? position)%nat && _misread_across at_ position spec forward then Ok assignment
          else
            c ← py_at w target;
            src ← py_at (sources t) target;
            r ← retiled src c spec;
            match r with
            | None => Ok assignment
            | Some c' => walk w position spec forward positions' (aset target c' assignment)
            end
      end
  end.

(** [position, position + 1, ..., hi] or [position, position - 1, ..., lo] *)
Definition walk_positions (position : nat) (run : nat * nat) (forward : bool) : list nat :=
  if forward then seq position (S run.2 - position) else reverse (seq run.1 (S position - run.1)).

Definition position_of (idx : nat) : res (option nat) := b ← py_at (bufs t) idx; Ok (op_position b).

Definition _retile_boundary (idx : nat) (config : DivisionConfig) (s : cstate) (r : R) : res (cstate * R) :=
  at_ ← position_of idx;
  match at_ with
  | None => Ok (s, r)
  | Some position =>
      run ← _run_bounds (chosen s) position;
      let '(u, r') := random r in
      let forward := f_ltb u (f_div (f_Z 1) (f_Z 2)) in
      assignment ← walk (chosen s) position (cfg_tiling config) forward (walk_positions position run forward) [];
      if bool_decide (assignment = []) then Ok (s, r')
      else s' ← _apply_assignment assignment s; Ok (s', r')
  end.

(** ** The flood *)

Notation flood_state := (list (nat * DivisionConfig) * list nat)%type.

(** One neighbour [v] of the popped [u]: it joins unless it is assigned already. *)
Definition join (v : nat) (answer : res (option DivisionConfig)) (st : flood_state) : res flood_state :=
  if bool_decide (is_Some (aget st.1 v)) then Ok st
  else
    joined ← answer;
    Ok match joined with
       | None => st
       | Some c => (aset v c st.1, insert_sorted Nat.leb v st.2)
       end.

Definition flood_down (u : nat) (cu : DivisionConfig) (c : nat) (st : flood_state) : res flood_state :=
  join c (rel ← relation_of u c; child_for rel cu) st.

Definition flood_up (u : nat) (cu : DivisionConfig) (p : nat) (st : flood_state) : res flood_state :=
  join p (rel ← relation_of p u; parent_for rel cu) st.

(** [while heap]: the heap is kept sorted, so its head is the smallest index. *)
Fixpoint flood (fuel : nat) (st : flood_state) : res (list (nat * DivisionConfig)) :=
  match st.2 with
  | [] => Ok st.1
  | u :: heap =>
      match fuel with
      | O => Raise OutOfFuel
      | S fuel' =>
          match aget st.1 u with
          | None => Raise KeyError
          | Some cu =>
              st1 ← for_each (flood_down u cu) (children_idx u) (st.1, heap);
              st2 ← for_each (flood_up u cu) (parents_idx u) st1;
              flood fuel' st2
          end
      end
  end.

(** Every index is pushed at most once. *)
Definition _flood_region (anchor : nat) (config : DivisionConfig) : res (list (nat * DivisionConfig)) :=
  flood n ([(anchor, config)], [anchor]).

(** One assigned operation of [_trim_tilings_to_anchor_run]; [None] is the empty run. *)
Definition trim_one (run : option (nat * nat)) (ic : nat * DivisionConfig) (trimmed : list (nat * DivisionConfig))
    : res (list (nat * DivisionConfig)) :=
  if is_untiled (cfg_tiling ic.2) then Ok trimmed
  else
    at_ ← position_of ic.1;
    let inside := match at_, run with Some a, Some (lo, hi) => (lo <=? a)%nat && (a <=? hi)%nat | _, _ => false end in
    if inside then Ok trimmed
    else
      src ← py_at (sources t) ic.1;
      u ← retiled src ic.2 UNTILED;
      Ok match u with None => trimmed | Some c => aset ic.1 c trimmed end.

Definition _trim_tilings_to_anchor_run (w : list DivisionConfig) (anchor : nat) (assignment : list (nat * DivisionConfig))
    : res (list (nat * DivisionConfig)) :=
  if forallb (fun ic => is_untiled (cfg_tiling ic.2)) assignment then Ok assignment
  else
    at_ ← position_of anchor;
    run ← match at_ with
          | None => Ok None
          | Some position => Some <$> _run_bounds (with_override w assignment) position
          end;
    for_each (trim_one run) assignment assignment.

(** ** Bursts and recolors *)

(** One layout step of the burst: reverted when it lowers the packer's quality. *)
Definition burst_step (pr : native * R) : res (native * R) :=
  ir ← randrange n pr.2;
  jr ← randrange n ir.2;
  moved ← n_rotate ir.1 jr.1 pr.1;
  if moved.2 <? 0 then back ← n_rotate jr.1 ir.1 moved.1; Ok (back.1, jr.2) else Ok (moved.1, jr.2).

Fixpoint burst_loop (steps : nat) (s : cstate) (r : R) : res (cstate * R) :=
  match steps with
  | O => Ok (s, r)
  | S steps' =>
      if _all_eligible_resident s then Ok (s, r)
      else
        pr ← burst_step (packer s, r);
        burst_loop steps' (mkState (chosen s) pr.1 (n_eligible s)) pr.2
  end.

(** [max(1, int(_BURST_FRACTION * n))]; the product is below the next integer. *)
Definition _burst (s : cstate) (r : R) : res (cstate * R) :=
  if (n <? 2)%nat then Ok (s, r) else burst_loop (Nat.max 1 (n / 10)) s r.

Definition _recolor (s : cstate) (r : R) : res (cstate * R) :=
  ar ← choice (anchor_candidates t) r;
  src ← py_at (sources t) ar.1;
  c ← py_at (chosen s) ar.1;
  cr ← CoDivisions.anchor src c ar.2;
  match cr.1 with
  | None => Ok (s, cr.2)
  | Some config =>
      region ← _flood_region ar.1 config;
      assignment ← _trim_tilings_to_anchor_run (chosen s) ar.1 region;
      s' ← _apply_assignment assignment s;
      _burst s' cr.2
  end.

(** ** Scoring *)

(** The free symbols of the cost expression. *)
Inductive cost_symbol :=
  | SymIsLx (idx : nat)
  | SymDivision (idx : nat)
  | SymCoreDiv (idx : nat) (axis : string)
  | SymTileCount (idx : nat) (level : Z * bool)
  | SymForeign.

(** The value of a symbol under [(chosen, resident)]; a generated configuration has no
    menu position. *)
Definition value_of (w : list DivisionConfig) (resident : list string) (sym : cost_symbol) : res Z :=
  match sym with
  | SymIsLx idx => b ← py_at (bufs t) idx; Ok (Z.b2z (bool_decide (co_name b ∈ resident)))
  | SymDivision idx => c ← py_at w idx; match menu_index c with Some i => Ok (Z.of_nat i) | None => Raise TypeError end
  | SymCoreDiv idx axis => c ← py_at w idx; Ok (dget_or 1 (splits (division c)) axis)
  | SymTileCount idx level => c ← py_at w idx; Ok (count_for (cfg_tiling c) level)
  | SymForeign => Raise KeyError
  end.

(** The cost expression: its free symbols and, over their values, the fixed-point
    price.  [fixed_us] converts bytes moved to and from HBM. *)
Context (cost_expr : option (list cost_symbol * (list Z -> res Z))) (fixed_us : Z -> Z).

Definition is_foreign (sym : cost_symbol) : bool := match sym with SymForeign => true | _ => false end.

Definition _build_score_fn : option (list DivisionConfig -> list string -> res Z) :=
  match cost_expr with
  | None => None
  | Some (free, price) =>
      if existsb is_foreign free then None
      else Some (fun w resident => vs ← py_map (value_of w resident) free; price vs)
  end.

(** The charge of one position of a tiled run, if its buffer escapes. *)
Definition companion_charge (addresses : list (option Z)) (run : nat * nat) (position : nat)
    : res (option ((nat * nat) * Z)) :=
  idx ← match aget (buffer_at t) position with Some i => Ok i | None => Raise KeyError end;
  buf ← py_at (bufs t) idx;
  inside ← py_map (fun cr => at_ ← position_of cr.1;
                     Ok match at_ with Some a => (run.1 <=? a)%nat && (a <=? run.2)%nat | None => false end) (children idx);
  addr ← py_at addresses idx;
  let outside := Z.of_nat (length (filter (fun b => b = false) inside)) in
  let is_graph_output := bool_decide (boundary buf = Output) in
  if (outside =? 0) && negb is_graph_output then Ok None
  else
    let size := Z.max 0 (buf_size (co_buf buf)) in
    let copy_read := match addr with Some _ => 0 | None => size end in
    let copy_write := if is_graph_output then copy_read else size in
    let outside_reads := match addr with Some _ => size * outside | None => 0 end in
    Ok (Some (run, copy_read + copy_write + outside_reads)).

Definition run_charges (w : list DivisionConfig) (addresses : list (option Z)) (run : nat * nat)
    : res (list ((nat * nat) * Z)) :=
  spec ← _tiling_at w run.1;
  if is_untiled spec then Ok []
  else cs ← py_map (companion_charge addresses run) (seq run.1 (S run.2 - run.1)); Ok (omap id (cs : list (option ((nat * nat) * Z)))).

Definition _companion_charges (w : list DivisionConfig) (addresses : list (option Z)) : res (list ((nat * nat) * Z)) :=
  if negb (tilings_are_possible t) then Ok []
  else rs ← _runs w; cs ← py_map (run_charges w addresses) rs; Ok (mjoin (cs : list (list _))).

Definition _companions (w : list DivisionConfig) (addresses : list (option Z)) : res Z :=
  cs ← _companion_charges w addresses;
  Ok (fixed_us (zsum cs.*2)).

Definition _score (s : cstate) : res Z :=
  let addresses := n_addresses (packer s) in
  companions ← _companions (chosen s) addresses;
  match _build_score_fn with
  | Some f =>
      let resident := omap (fun ba => match ba.2 with Some _ => Some (co_name ba.1) | None => None end)
                        (zip (bufs t) addresses) in
      cost ← f (chosen s) resident;
      Ok (cost + companions)
  | None =>
      let traffic := zsum (omap (fun ca => match ca.2 with None => Some ca.1 | Some _ => None end)
                             (zip (spill_costs t) addresses)) in
      Ok (fixed_us traffic + companions)
  end.

(** ** Choosing and executing a move *)

Inductive move_name := Reorder | Flip | Recolor.

Definition _applicable_moves (s : cstate) : list move_name :=
  (if (2 <=? n)%nat && negb (_all_eligible_resident s) then [Reorder] else [])
  ++ (if bool_decide (flippable_ops t = []) then [] else [Flip])
  ++ (if bool_decide (anchor_candidates t = []) then [] else [Recolor]).

(** [_MOVE_WEIGHTS] *)
Definition move_weight (m : move_name) : F :=
  match m with Reorder => f_div (f_Z 5) (f_Z 10) | Flip => f_div (f_Z 3) (f_Z 10) | Recolor => f_div (f_Z 2) (f_Z 10) end.

Fixpoint f_accumulate (total : F) (ws : list F) : list F :=
  match ws with [] => [] | w :: ws' => f_add total w :: f_accumulate (f_add total w) ws' end.

(** [list(accumulate(weights))] *)
Definition cumulative (ws : list F) : list F :=
  match ws with [] => [] | w :: ws' => w :: f_accumulate w ws' end.

Fixpoint f_bisect (fuel : nat) (cum : list F) (x : F) (lo hi : nat) : nat :=
  match fuel with
  | O => lo
  | S fuel =>
      if (lo <? hi)%nat
      then let mid := ((lo + hi) / 2)%nat in
           if f_ltb x (default (f_Z 0) (cum !! mid)) then f_bisect fuel cum x lo mid else f_bisect fuel cum x (S mid) hi
      else lo
  end.

(** [rng.choices(population, weights)[0]] with float weights *)
Definition f_choices {A} (population : list A) (ws : list F) (r : R) : res (A * R) :=
  let cum := cumulative ws in
  total ← match last cum with Some x => Ok (f_add x (f_Z 0)) | None => Raise IndexError end;
  raise_if (negb (f_ltb (f_Z 0) total)) ValueError;;
  let '(u, r') := random r in
  x ← py_at population (f_bisect (length ws) cum (f_mul u total) 0 (length ws - 1));
  Ok (x, r').

Definition _choose_move (s : cstate) (r : R) : res (option move_name * R) :=
  let applicable := _applicable_moves s in
  if bool_decide (applicable = []) then Ok (None, r)
  else mr ← f_choices applicable (move_weight <$> applicable) r; Ok (Some mr.1, mr.2).

Definition flip_move (s : cstate) (r : R) : res (cstate * R) :=
  ir ← choice (flippable_ops t) r;
  src ← py_at (sources t) ir.1;
  c ← py_at (chosen s) ir.1;
  options ← source_neighbours src c;
  if bool_decide (options = []) then Ok (s, ir.2)
  else
    cr ← choice options ir.2;
    sr ← (if bool_decide (cfg_tiling cr.1 = cfg_tiling c)
          then s' ← _atomic_flip ir.1 cr.1 s; Ok (s', cr.2)
          else _retile_boundary ir.1 cr.1 s cr.2);
    _burst sr.1 sr.2.

Definition reorder_move (s : cstate) (r : R) : res (cstate * R) :=
  ir ← randrange n r;
  jr ← randrange n ir.2;
  moved ← n_rotate ir.1 jr.1 (packer s);
  Ok (mkState (chosen s) moved.1 (n_eligible s), jr.2).

Definition _execute_move (m : option move_name) (s : cstate) (r : R) : res (cstate * R) :=
  match m with
  | Some Reorder => reorder_move s r
  | Some Flip => flip_move s r
  | Some Recolor => _recolor s r
  | None => Ok (s, r)
  end.

(** ** The annealing loop *)

(** [statistics.median] of a non-empty list, as a float *)
Definition median (l : list Z) : F :=
  let data := py_sorted Z.leb l in
  let k := length data in
  if Nat.even k then f_div (f_Z (zat data (k / 2 - 1) + zat data (k / 2))) (f_Z 2) else f_Z (zat data (k / 2)).

(** One probe of [_calibrate_temperature]: the state is restored, the generator is not. *)
Definition probe_delta (base : Z) (s : cstate) (rd : R * list Z) : res (R * list Z) :=
  mr ← _choose_move s rd.1;
  sr ← _execute_move mr.1 s mr.2;
  score ← _score sr.1;
  let d := Z.abs (score - base) in
  Ok (sr.2, if 0 <? d then rd.2 ++ [d] else rd.2).

Definition _calibrate_temperature (s : cstate) (r : R) : res (F * R) :=
  base ← _score s;
  rd ← for_each (fun _ rd => probe_delta base s rd) (seq 0 (Nat.min 64 (4 * n + 8))) (r, []);
  Ok (if bool_decide (rd.2 = []) then f_Z 1 else median rd.2, rd.1).

(** [delta <= 0 or rng.random() < math.exp(-delta / temperature)] *)
Definition metropolis (delta : Z) (temperature : F) (r : R) : res (bool * R) :=
  if delta <=? 0 then Ok (true, r)
  else
    let '(u, r') := random r in
    raise_if (f_eqb temperature (f_Z 0)) ZeroDivisionError;;
    Ok (f_ltb u (f_exp (f_div (f_Z (- delta)) temperature)), r').

(** What a run of steps carries: the live state, the generator and the best seen. *)
Record joint := mkJoint {
  live : cstate;
  rng : R;
  best_score : Z;
  best_snap : cstate
}.

(** [if new < self._best_score: ...] *)
Definition note_best (score : Z) (s : cstate) (r : R) (j : joint) : joint :=
  if score <? best_score j then mkJoint s r score s else mkJoint s r (best_score j) (best_snap j).

(** The sweep of [_step_reorder]: the packer with the lifted buffer at the bound, and
    the quality at each position. *)
Definition sweep_step (i p : nat) (s : native * list (option Z)) : res (native * list (option Z)) :=
  swapped ← n_swap (p - 1) s.1;
  Ok (swapped.1, if (p =? i)%nat then s.2 else <[p := Some (n_quality swapped.1)]> s.2).

Definition sweep (i upper : nat) (p : native) : res (native * list (option Z)) :=
  let none := replicate n None in
  s ← (if (i =? 0)%nat then Ok (p, none)
       else rotated ← n_rotate i 0 p; Ok (rotated.1, <[0%nat := Some (n_quality rotated.1)]> none));
  for_each (sweep_step i) (seq 1 upper) s.

(** The positions best first, from the one the buffer sits at. *)
Fixpoint try_positions (snap : cstate) (temperature : F) (cur : Z) (p : native) (pos : nat) (order : list nat) (j : joint)
    : res (Z * joint) :=
  match order with
  | [] => Ok (cur, mkJoint snap (rng j) (best_score j) (best_snap j))
  | k :: order' =>
      rotated ← n_rotate pos k p;
      let s := mkState (chosen snap) rotated.1 (n_eligible snap) in
      candidate ← _score s;
      ar ← metropolis (candidate - cur) temperature (rng j);
      if ar.1 : bool then Ok (candidate, note_best candidate s ar.2 j)
      else try_positions snap temperature cur rotated.1 k order' (mkJoint (live j) ar.2 (best_score j) (best_snap j))
  end.

Definition _step_reorder (temperature : F) (cur : Z) (j : joint) : res (Z * joint) :=
  let s := live j in
  allocated ← py_map (fun k => x ← view_at k (packer s); n_is_fully_allocated x (packer s)) (seq 0 n);
  ir ← choices (move_weights allocated) (rng j);
  let upper := upper_bound allocated ir.1 in
  swept ← sweep ir.1 upper (packer s);
  try_positions s temperature cur swept.1 upper (insertion_points swept.2)
    (mkJoint s ir.2 (best_score j) (best_snap j)).

Definition _step (m : move_name) (temperature : F) (cur : Z) (j : joint) : res (Z * joint) :=
  match m with
  | Reorder => _step_reorder temperature cur j
  | _ =>
      sr ← _execute_move (Some m) (live j) (rng j);
      new ← _score sr.1;
      ar ← metropolis (new - cur) temperature sr.2;
      if ar.1 : bool then Ok (new, note_best new sr.1 ar.2 j)
      else Ok (cur, mkJoint (live j) ar.2 (best_score j) (best_snap j))
  end.

Definition _STEPS_PER_BUFFER : nat := 200.
Definition _MAX_STEPS : Z := 50000.
Definition _step_budget (k : nat) : nat := Z.to_nat (Z.min _MAX_STEPS (Z.of_nat (_STEPS_PER_BUFFER * k))).

(** [t0 * (t_end / t0) ** frac] at one step of [steps] *)
Definition f_max (a b : F) : F := if f_ltb a b then b else a.

Definition cooled (t0 : F) (steps step : nat) : res F :=
  let t_end := f_max (f_div t0 (f_Z 1000)) (f_div (f_Z 1) (f_Z (10 ^ 9))) in
  let frac := if (1 <? steps)%nat then f_div (f_Z (Z.of_nat step)) (f_Z (Z.of_nat (steps - 1))) else f_Z 1 in
  raise_if (f_eqb t0 (f_Z 0)) ZeroDivisionError;;
  Ok (f_mul t0 (f_pow (f_div t_end t0) frac)).

(** [for step in range(steps)], ended early when no move applies *)
Fixpoint anneal_steps (t0 : F) (steps : nat) (todo : list nat) (cur : Z) (j : joint) : res (Z * joint) :=
  match todo with
  | [] => Ok (cur, j)
  | step :: todo' =>
      mr ← _choose_move (live j) (rng j);
      match mr.1 with
      | None => Ok (cur, j)
      | Some m =>
          temperature ← cooled t0 steps step;
          cj ← _step m temperature cur (mkJoint (live j) mr.2 (best_score j) (best_snap j));
          anneal_steps t0 steps todo' cj.1 cj.2
      end
  end.

(** The annealed state: the best seen, with its score. *)
Definition _anneal (s : cstate) (r : R) : res (cstate * Z) :=
  cur ← _score s;
  let j := mkJoint s r cur s in
  let steps := _step_budget n in
  cj ← (if bool_decide (_applicable_moves s = []) then Ok (cur, j)
        else
          tr ← _calibrate_temperature s r;
          anneal_steps tr.1 steps (seq 0 steps) cur (mkJoint s tr.2 cur s));
  Ok (best_snap cj.2, best_score cj.2).

(** ** Writing the plan back *)

Definition set_divisions (l : list CoreDivision) (b : LifetimeBoundBuffer) : LifetimeBoundBuffer :=
  mkBuffer (buf_name b) (buf_size b) (uses b) (first_use_is_read b) (address b) (in_place_parents b)
    (residency_reason b) (untiled_bar b) (lifetime_start_override b) (lifetime_end_override b) (paired_with b)
    (spill_reason b) l (parents b) (cd_parent_matches b) (chosen_division b).

(** [_menu_position]: the position and the divisions, which may have grown. *)
Definition _menu_position (menu : list DivisionConfig) (divisions : list CoreDivision) (config : DivisionConfig)
    : nat * list CoreDivision :=
  match menu_index config with
  | Some i => (i, divisions)
  | None =>
      match aget (by_key menu) (key config) ≫= menu_index with
      | Some i => (i, divisions)
      | None => (length divisions, divisions ++ [division config])
      end
  end.

Definition _SOLVER_CHOSE_SPILL : string := "spilled by solver (no residency benefit / no room)".

(** [b.residency_reason or _SOLVER_CHOSE_SPILL] *)
Definition spilled_reason (b : LifetimeBoundBuffer) : string :=
  match residency_reason b with
  | Some r => if bool_decide (r = ""%string) then _SOLVER_CHOSE_SPILL else r
  | None => _SOLVER_CHOSE_SPILL
  end.

Definition write_one (menu : list DivisionConfig) (config : DivisionConfig) (addr : option Z) (b : LifetimeBoundBuffer)
    : LifetimeBoundBuffer :=
  let '(position, divisions) := _menu_position menu (core_divisions b) config in
  set_spill_reason (match addr with None => Some (spilled_reason b) | Some _ => None end)
    (set_address addr (set_chosen_division (Some position) (set_divisions divisions b))).

Definition _write_back (s : cstate) : res (list LifetimeBoundBuffer) :=
  py_map (fun ib =>
    config ← py_at (chosen s) ib.1;
    addr ← py_at (n_addresses (packer s)) ib.1;
    menu ← py_at (menus t) ib.1;
    Ok (write_one menu config addr (co_buf ib.2))) (enumerate (bufs t)).

Definition seed_state : res cstate :=
  w ← py_map source_seed (sources t);
  pe ← _build_seed_packer w;
  Ok (mkState w pe.1 pe.2).

End engine.

(** [plan_layout_and_core_divisions]: the planned buffers and the score they have. *)
Definition plan_layout_and_core_divisions {F} `{!FloatOps F} {R} `{!Random F R} `{!RandBelow R}
    (cost_expr : option (list cost_symbol * (list Z -> res Z))) (fixed_us : Z -> Z) (seed : R)
    (limit alignment : Z) (buffers : list cobuffer) : res (list LifetimeBoundBuffer * Z) :=
  if bool_decide (buffers = []) then Ok ([], 0)
  else
    t ← _precompute_topology buffers limit alignment;
    s ← seed_state t;
    best ← _anneal t cost_expr fixed_us s seed;
    out ← _write_back t best.1;
    Ok (out, best.2).
