(* ===== verification/TilingRuns.v ===== *)
(** * Tiling runs of the co-optimizer ([scratchpad/sa_cooptimizer.py], [_runs])

    The search reasons about the loop nests its tilings will form without building them:
    [_runs] cuts the positions into runs.  Here the runs are shown to partition the
    positions, every run to share one nest, and the tiled runs to be exactly the groups
    [derive_tiling_groups] forms once the choice is applied to the graph. *)

From S2P Require Import Prelude PyDict PlanSolver Tilings TilingGroups CoreViews SplitSpace ResidencyEdge CoDivisions CoOptimizer.

Lemma py_at_lookup {A} (l : list A) i x : l !! i = Some x -> py_at l i = Ok x.
Proof. unfold py_at. by intros ->. Qed.

Lemma py_at_Ok {A} (l : list A) i x : py_at l i = Ok x -> l !! i = Some x.
Proof. unfold py_at. destruct (l !! i); [by intros [= ->] | done]. Qed.

Lemma wp_py_at {A} E (l : list A) i (P : A -> Prop) :
  (i < length l)%nat -> (forall x, l !! i = Some x -> P x) -> wp E (py_at l i) P.
Proof. intros [x Hx]%lookup_lt_is_Some_2 HP. rewrite (py_at_lookup _ _ _ Hx). by apply HP. Qed.

Lemma py_any_pure {A} (p : A -> res bool) (q : A -> bool) l :
  (forall x, x ∈ l -> p x = Ok (q x)) -> py_any p l = Ok (existsb q l).
Proof.
  induction l as [|x l IH]; intros H; [done|]. cbn [py_any existsb]. rewrite H by list_mem. cbn [mbind res_bind].
  destruct (q x); [done|]. apply IH. intros y Hy. apply H. by right.
Qed.

(** ** Runs as data *)

(** Consecutive intervals from [lo] up to, not including, [hi]. *)
Fixpoint cover (lo hi : nat) (rs : list (nat * nat)) : Prop :=
  match rs with
  | [] => lo = hi
  | (a, b) :: rs' => a = lo /\ (a <= b)%nat /\ cover (S b) hi rs'
  end.

Lemma cover_le rs : forall lo hi, cover lo hi rs -> (lo <= hi)%nat.
Proof. induction rs as [|[a b] rs IH]; intros lo hi; cbn; [lia|]. intros (-> & Hab & H%IH). lia. Qed.

Lemma cover_run rs : forall lo hi run, cover lo hi rs -> run ∈ rs -> (lo <= run.1 /\ run.1 <= run.2 /\ run.2 < hi)%nat.
Proof.
  induction rs as [|[a b] rs IH]; intros lo hi run; cbn; [by intros _ ?%elem_of_nil|].
  intros (-> & Hab & Hc) [-> | Hin]%elem_of_cons; [cbn; pose proof (cover_le _ _ _ Hc); lia|].
  destruct (IH _ _ _ Hc Hin). lia.
Qed.

(** The run of a position is the first that ends at or after it. *)
Lemma cover_find rs : forall lo hi p, cover lo hi rs -> (lo <= p < hi)%nat ->
  exists k run, list_find (fun run => (p <= run.2)%nat) rs = Some (k, run) /\ run ∈ rs /\ (run.1 <= p <= run.2)%nat.
Proof.
  induction rs as [|[a b] rs IH]; intros lo hi p; cbn [cover list_find]; [lia|]. intros (-> & Hab & Hc) Hp. cbn [snd].
  destruct (decide (p <= b)%nat) as [Hb|Hb]; [exists 0%nat, (lo, b); split; [done|]; split; [list_mem | cbn; lia]|].
  destruct (IH (S b) hi p Hc ltac:(lia)) as (k & run & Hf & Hin & Hr). rewrite Hf. cbn. exists (S k), run. split; [done|]. split; [by right | done].
Qed.

Section runs.
Context (t : topology) (w : list DivisionConfig).

(** The vector covers every position's buffer. *)
Definition positions_fit : Prop := forall p idx, aget (buffer_at t) p = Some idx -> (idx < length w)%nat.

Definition spec_at (p : nat) : TileSpec :=
  match aget (buffer_at t) p with
  | None => UNTILED
  | Some idx => match w !! idx with Some c => cfg_tiling c | None => UNTILED end
  end.

Definition breaks (p stretch : nat) : bool :=
  negb (is_untiled (spec_at p)) &&
  existsb (fun pr => (stretch <=? pr.1)%nat && negb (pr.2 (spec_at pr.1) (spec_at p))) (reads_at t p).

(** [runs_from] without the lookups that cannot fail. *)
Fixpoint cut_runs (rest stretch lo at_ : nat) : list (nat * nat) :=
  match rest with
  | O => [(lo, at_)]
  | S rest' =>
      if bool_decide (level_counts (spec_at (S at_)) = level_counts (spec_at stretch)) then
        if breaks (S at_) stretch then (lo, at_) :: cut_runs rest' stretch (S at_) (S at_)
        else cut_runs rest' stretch lo (S at_)
      else (lo, at_) :: cut_runs rest' (S at_) (S at_) (S at_)
  end.

Definition runs : list (nat * nat) := match n_positions t with O => [] | S rest => cut_runs rest 0 0 0 end.

Context (Hfit : positions_fit).

Lemma tiling_at_spec p : _tiling_at t w p = Ok (spec_at p).
Proof.
  unfold _tiling_at, spec_at. destruct (aget (buffer_at t) p) as [idx|] eqn:E; [|done].
  destruct (lookup_lt_is_Some_2 w idx (Hfit _ _ E)) as [c Hc]. by rewrite (py_at_lookup _ _ _ Hc), Hc.
Qed.

Lemma breaks_at_spec p stretch : _breaks_at t w p stretch = Ok (breaks p stretch).
Proof.
  unfold _breaks_at, breaks. rewrite tiling_at_spec. cbn [mbind res_bind]. destruct (is_untiled (spec_at p)); [done|]. cbn [negb andb].
  apply py_any_pure. intros [q reads] _. cbn. destruct (stretch <=? q)%nat; [|done]. by rewrite tiling_at_spec.
Qed.

Lemma runs_from_spec rest : forall stretch lo at_, runs_from t w rest stretch lo at_ = Ok (cut_runs rest stretch lo at_).
Proof.
  induction rest as [|rest IH]; intros stretch lo at_; [done|]. cbn [runs_from cut_runs]. rewrite !tiling_at_spec. cbn [mbind res_bind].
  destruct (bool_decide _); [|by rewrite IH]. rewrite breaks_at_spec. cbn [mbind res_bind].
  destruct (breaks _ _); rewrite IH; done.
Qed.

Lemma runs_spec : _runs t w = Ok runs.
Proof. unfold _runs, runs. destruct (n_positions t); [done|]. apply runs_from_spec. Qed.

(** Every position of a run runs the nest of its first. *)
Definition one_nest (run : nat * nat) : Prop :=
  forall p, (run.1 <= p <= run.2)%nat -> level_counts (spec_at p) = level_counts (spec_at run.1).

Lemma cut_runs_spec rest : forall stretch lo at_,
  (stretch <= lo)%nat -> (lo <= at_)%nat ->
  (forall p, (stretch <= p <= at_)%nat -> level_counts (spec_at p) = level_counts (spec_at stretch)) ->
  cover lo (S at_ + rest) (cut_runs rest stretch lo at_) /\ Forall one_nest (cut_runs rest stretch lo at_).
Proof.
  induction rest as [|rest IH]; intros stretch lo at_ Hsl Hla Hnest; cbn [cut_runs].
  - split; [cbn; split_and!; lia|]. repeat constructor. intros p Hp. cbn in *. etrans; [|symmetry]; apply Hnest; lia.
  - assert (one_nest (lo, at_)) as Hone by (intros p Hp; cbn in *; etrans; [|symmetry]; apply Hnest; lia).
    assert (S at_ + S rest = S (S at_) + rest)%nat as -> by lia.
    destruct (bool_decide _) eqn:E; split_bools.
    + assert (forall p, (stretch <= p <= S at_)%nat -> level_counts (spec_at p) = level_counts (spec_at stretch)) as Hnest'.
      { intros p Hp. destruct (decide (p = S at_)) as [-> | ?]; [done|]. apply Hnest. lia. }
      destruct (breaks _ _).
      * destruct (IH stretch (S at_) (S at_) ltac:(lia) ltac:(lia) Hnest') as [Hc Hf].
        split; [cbn; split_and!; [done | done | exact Hc] | by constructor].
      * by apply IH; [lia | lia |].
    + destruct (IH (S at_) (S at_) (S at_) ltac:(lia) ltac:(lia)) as [Hc Hf].
      { intros p Hp. by assert (p = S at_) as -> by lia. }
      split; [cbn; split_and!; [done | done | exact Hc] | by constructor].
Qed.

Lemma runs_partition : cover 0 (n_positions t) runs /\ Forall one_nest runs.
Proof.
  unfold runs. destruct (n_positions t) as [|rest]; [done|]. apply (cut_runs_spec rest 0 0 0); [lia | lia |].
  intros p Hp. by assert (p = 0)%nat as -> by lia.
Qed.

Lemma run_bounds_spec p : (p < n_positions t)%nat ->
  exists run, _run_bounds t w p = Ok run /\ run ∈ runs /\ (run.1 <= p <= run.2)%nat.
Proof.
  intros Hp. unfold _run_bounds. rewrite runs_spec. cbn [mbind res_bind].
  destruct (cover_find runs 0 (n_positions t) p (proj1 runs_partition) ltac:(lia)) as (k & run & Hf & Hin & Hr).
  rewrite Hf. by exists run.
Qed.

(** A position of a run whose nest is not empty has a buffer. *)
Lemma tiled_run_buffers run p : run ∈ runs -> is_untiled (spec_at run.1) = false -> (run.1 <= p <= run.2)%nat ->
  exists idx, aget (buffer_at t) p = Some idx.
Proof.
  intros Hin Ht Hp. destruct (aget (buffer_at t) p) as [idx|] eqn:E; [by exists idx|].
  pose proof (proj2 runs_partition) as Hf. rewrite Forall_forall in Hf. pose proof (Hf run Hin p Hp) as Hn.
  unfold spec_at at 1 in Hn. rewrite E in Hn. unfold is_untiled in Ht. split_bools. destruct Ht.
  unfold level_counts in Hn. cbn in Hn. symmetry in Hn. by apply fmap_nil_inv in Hn.
Qed.

End runs.

Lemma n_positions_bound t p idx : aget (buffer_at t) p = Some idx -> (p < n_positions t)%nat.
Proof.
  intros H%aget_Some_elem. unfold n_positions. induction (buffer_at t) as [|[q i] l IH]; [by apply elem_of_nil in H|].
  cbn [foldr fst]. apply elem_of_cons in H as [[= -> ->] | H]; [lia | specialize (IH H); lia].
Qed.

(** ** The runs are the groups *)

Section groups.
Context {view : Type} (ownership_view : graph_op -> Dep -> list (string * Z) -> option view).
Context (same_partition : view -> view -> bool) (not_read_in_full : string -> bool).
Context (choices : dict TileSpec) (operations : list graph_op).
Context (planned : list LifetimeBoundBuffer) (Hchosen : chosen_tilings operations planned = Ok choices).
Context (t : topology) (w : list DivisionConfig).

#[local] Notation misread := (tile_misread ownership_view same_partition not_read_in_full).
#[local] Notation gstep := (group_step ownership_view same_partition not_read_in_full choices).
#[local] Notation spec := (spec_at t w).

(** [TileReads.aligned]: no read of [producer] by [consumer] is misread. *)
Definition aligned (producer consumer : graph_op) (producer_spec consumer_spec : TileSpec) : res bool :=
  py_all (fun read => m ← misread producer producer_spec consumer consumer_spec read; Ok (negb m))
    (filter (fun read => dep_name read = get_name producer) (reads consumer)).

(** The search's picture of the graph: positions are those of the operations, the
    divisions the plan commits have the vector's tilings, and the recorded reads are the
    graph's. *)
Record pictures : Prop := {
  pic_fit : positions_fit t w;
  pic_length : (n_positions t <= length operations)%nat;
  pic_names : NoDup (get_name <$> operations);
  pic_op_names : NoDup (get_operation_name <$> operations);
  pic_plan : forall p op buf ci cd, operations !! p = Some op -> buf ∈ planned -> buf_name buf = get_name op ->
    chosen_division buf = Some ci -> core_divisions buf !! ci = Some cd -> tiling cd = spec p;
  pic_planned : forall p op, operations !! p = Some op -> is_untiled (spec p) = false ->
    exists buf, buf ∈ planned /\ buf_name buf = get_name op /\ is_Some (chosen_division buf);
  pic_reads : forall p op q test, operations !! p = Some op -> (q, test) ∈ reads_at t p ->
    exists producer, operations !! q = Some producer /\ (q < p)%nat /\
      aligned producer op (spec q) (spec p) = Ok (test (spec q) (spec p));
  pic_complete : forall p op q producer read, operations !! p = Some op -> operations !! q = Some producer -> (q < p)%nat ->
    read ∈ reads op -> dep_name read = get_name producer ->
    is_Some (aget (buffer_at t) p) -> is_Some (aget (buffer_at t) q) -> exists test, (q, test) ∈ reads_at t p;
  pic_total : forall p op q producer read, operations !! p = Some op -> operations !! q = Some producer -> read ∈ reads op ->
    exists m, misread producer (spec q) op (spec p) read = Ok m
}.

Context (Hpic : pictures).

Lemma position_unique {B} (f : graph_op -> B) p q op op' : NoDup (f <$> operations) ->
  operations !! p = Some op -> operations !! q = Some op' -> f op = f op' -> p = q.
Proof.
  intros Hnd Hp Hq Hn. eapply (NoDup_lookup _ _ _ (f op) Hnd); rewrite list_lookup_fmap; [by rewrite Hp | by rewrite Hq, Hn].
Qed.

(** [chosen_tilings] has an entry exactly for the tiled operations, the vector's tiling. *)
Lemma choices_at p op : operations !! p = Some op ->
  dget choices (get_operation_name op) = if is_untiled (spec p) then None else Some (spec p).
Proof.
  intros Hop. assert ((forall p op s, operations !! p = Some op -> dget choices (get_operation_name op) = Some s -> s = spec p /\ is_untiled (spec p) = false) /\
    forall p op buf, operations !! p = Some op -> is_untiled (spec p) = false -> buf ∈ planned -> buf_name buf = get_name op -> is_Some (chosen_division buf) ->
      is_Some (dget choices (get_operation_name op))) as [Ha Hb].
  { refine (for_each_ind (choose_tiling operations) (fun dn m => (forall p op s, operations !! p = Some op -> dget m (get_operation_name op) = Some s -> s = spec p /\ is_untiled (spec p) = false) /\
      forall p op buf, operations !! p = Some op -> is_untiled (spec p) = false -> buf ∈ dn -> buf_name buf = get_name op -> is_Some (chosen_division buf) ->
        is_Some (dget m (get_operation_name op))) planned [] choices _ _ Hchosen); [|split; [done | by intros ? ? ? _ _ ?%elem_of_nil]].
    intros dn buf rest m m' Hpl [Ha Hb] Hs. assert (buf ∈ planned) as Hbuf by (rewrite Hpl; list_mem). unfold choose_tiling in Hs.
    destruct (list_find _ operations) as [[i o]|] eqn:Ef.
    2: { injection Hs as <-. split; [done|]. intros p' op' b Hp' Ht [Hb' | ->%list_elem_of_singleton]%elem_of_app Hn Hc; [by eapply Hb|].
      apply list_find_None in Ef. rewrite Forall_forall in Ef. destruct (Ef op'); [by eapply list_elem_of_lookup_2 | done]. }
    apply list_find_Some in Ef as (Hi & Hin & _). destruct (chosen_division buf) as [ci|] eqn:Ec.
    2: { injection Hs as <-. split; [done|]. intros p' op' b Hp' Ht [Hb' | ->%list_elem_of_singleton]%elem_of_app Hn Hc; [by eapply Hb|]. rewrite Ec in Hc. by destruct Hc. }
    destruct (core_divisions buf !! ci) as [cd|] eqn:Ed; [|done]. injection Hs as <-. pose proof (pic_plan Hpic i o buf ci cd Hi Hbuf (eq_sym Hin) Ec Ed) as Etil.
    rewrite Etil. destruct (is_untiled (spec i)) eqn:Eu.
    - split; [done|]. intros p' op' b Hp' Ht [Hb' | ->%list_elem_of_singleton]%elem_of_app Hn Hc; [by eapply Hb|].
      assert (p' = i) as -> by (apply (position_unique get_name p' i op' o (pic_names Hpic) Hp' Hi); congruence). congruence.
    - split.
      + intros p' op' s Hp'. rewrite dget_dset. case_decide as He; [|by apply Ha]. intros [= <-].
        by assert (p' = i) as -> by (by apply (position_unique get_operation_name p' i op' o (pic_op_names Hpic) Hp' Hi)).
      + intros p' op' b Hp' Ht Hb' Hn Hc. rewrite dget_dset. case_decide; [by eexists|].
        apply elem_of_app in Hb' as [Hb' | ->%list_elem_of_singleton]; [by eapply Hb|].
        assert (p' = i) as -> by (apply (position_unique get_name p' i op' o (pic_names Hpic) Hp' Hi); congruence).
        rewrite Hi in Hp'. injection Hp' as ->. done. }
  destruct (is_untiled (spec p)) eqn:Eu.
  - destruct (dget choices (get_operation_name op)) as [s|] eqn:Es; [|done]. destruct (Ha p op s Hop Es). congruence.
  - destruct (pic_planned Hpic p op Hop Eu) as (buf & Hbuf & Hn & Hc). destruct (Hb p op buf Hop Eu Hbuf Hn Hc) as [s Es]. rewrite Es.
    by destruct (Ha p op s Hop Es) as [-> _].
Qed.

Lemma choices_tiled p op : operations !! p = Some op -> is_untiled (spec p) = false -> dget choices (get_operation_name op) = Some (spec p).
Proof. intros Hop Ht. by rewrite (choices_at p op Hop), Ht. Qed.

Definition mis (producer : graph_op) (ps : TileSpec) (op : graph_op) (cs : TileSpec) (read : Dep) : bool :=
  match misread producer ps op cs read with Ok m => m | Raise _ => true end.

Lemma misread_mis p op q producer read :
  operations !! p = Some op -> operations !! q = Some producer -> read ∈ reads op ->
  misread producer (spec q) op (spec p) read = Ok (mis producer (spec q) op (spec p) read).
Proof. intros H1 H2 H3. unfold mis. by destruct (pic_total Hpic p op q producer read H1 H2 H3) as [m ->]. Qed.

Lemma py_all_pure {A} (p : A -> res bool) (q : A -> bool) l :
  (forall x, x ∈ l -> p x = Ok (q x)) -> py_all p l = Ok (forallb q l).
Proof.
  induction l as [|x l IH]; intros H; [done|]. cbn [py_all forallb]. rewrite H by list_mem. cbn [mbind res_bind].
  destruct (q x); [|done]. apply IH. intros y Hy. apply H. by right.
Qed.

Lemma aligned_false p op q producer :
  operations !! p = Some op -> operations !! q = Some producer ->
  aligned producer op (spec q) (spec p) = Ok false <->
  exists read, read ∈ reads op /\ dep_name read = get_name producer /\ mis producer (spec q) op (spec p) read = true.
Proof.
  intros Ho Hp. set (ps := spec q). set (cs := spec p). unfold aligned. rewrite (py_all_pure _ (fun read => negb (mis producer ps op cs read))).
  2: { intros read [_ Hr]%list_elem_of_filter. by rewrite (misread_mis p op q producer). }
  split.
  - intros [= H%not_true_iff_false]. rewrite forallb_forall in H.
    destruct (existsb (mis producer ps op cs) (filter (fun read => dep_name read = get_name producer) (reads op))) eqn:E.
    + apply existsb_exists in E as (r & [Hn Hr]%list_elem_of_In%list_elem_of_filter & Hm). eauto.
    + destruct H. intros r Hr. destruct (mis producer ps op cs r) eqn:Em; [|done].
      exfalso. apply not_true_iff_false in E. apply E, existsb_exists. by exists r.
  - intros (r & Hr & Hn & Hm). f_equal. apply not_true_iff_false. rewrite forallb_forall. intros H.
    specialize (H r). rewrite Hm in H.
    enough (negb true = true) by done. by apply H, list_elem_of_In, list_elem_of_filter.
Qed.

Lemma spec_tiled_buffer p : is_untiled (spec p) = false -> is_Some (aget (buffer_at t) p).
Proof. unfold spec_at. by destruct (aget (buffer_at t) p). Qed.

Lemma untiled_nest p : is_untiled (spec p) = true <-> level_counts (spec p) = [].
Proof. unfold is_untiled, level_counts. rewrite bool_decide_eq_true. split; [by intros -> | apply fmap_nil_inv]. Qed.

Lemma nest_at p op : operations !! p = Some op -> nest_of choices op = level_counts (spec p).
Proof.
  intros Hp. unfold nest_of. rewrite (choices_at p op Hp). destruct (is_untiled (spec p)) eqn:E; [|done].
  symmetry. by apply untiled_nest.
Qed.

(** The dictionary of a stretch: the operations of the positions [lo .. hi] by name. *)
Definition holds_stretch (lo hi : nat) (st : dict graph_op) : Prop :=
  forall name producer, dget st name = Some producer <->
    exists q, (lo <= q <= hi)%nat /\ operations !! q = Some producer /\ get_name producer = name.

Lemma position_by_name p q op op' : operations !! p = Some op -> operations !! q = Some op' -> get_name op = get_name op' -> p = q.
Proof. apply (position_unique get_name), Hpic. Qed.

(** Asking the stretch is asking the recorded reads. *)
Lemma stretch_misread_breaks lo hi st op :
  operations !! S hi = Some op -> is_untiled (spec (S hi)) = false ->
  (forall p, (lo <= p <= hi)%nat -> is_untiled (spec p) = false) -> holds_stretch lo hi st ->
  _stretch_misread ownership_view same_partition not_read_in_full choices op (spec (S hi)) st (reads op) = Ok (breaks t w (S hi) lo).
Proof.
  intros Hop Htiled Hall Hst.
  set (asked read := match dget st (dep_name read) with
                     | None => false
                     | Some producer => mis producer (default UNTILED (dget choices (get_operation_name producer))) op (spec (S hi)) read
                     end).
  assert (forall rs, (forall r, r ∈ rs -> r ∈ reads op) ->
    _stretch_misread ownership_view same_partition not_read_in_full choices op (spec (S hi)) st rs = Ok (existsb asked rs)) as Hpure.
  { induction rs as [|r rs IH]; intros Hin; [done|]. cbn [_stretch_misread existsb]. unfold asked at 1.
    destruct (dget st (dep_name r)) as [producer|] eqn:E; [|apply IH; intros; apply Hin; by right].
    destruct (proj1 (Hst _ _) E) as (q & Hq & Hqo & Hqn). unfold dgetitem.
    rewrite (choices_tiled q producer Hqo (Hall q Hq)). cbn [default mbind res_bind].
    rewrite (misread_mis (S hi) op q producer) by (done || by apply Hin; list_mem). cbn [mbind res_bind].
    destruct (mis _ _ _ _ _); [done|]. apply IH. intros; apply Hin; by right. }
  rewrite Hpure by done. f_equal. unfold breaks. rewrite Htiled. cbn [negb andb].
  apply eq_true_iff_eq. rewrite !existsb_exists. split.
  - intros (r & Hr%list_elem_of_In & Ha). unfold asked in Ha. destruct (dget st (dep_name r)) as [producer|] eqn:E; [|done].
    destruct (proj1 (Hst _ _) E) as (q & Hq & Hqo & Hqn). rewrite (choices_tiled q producer Hqo (Hall q Hq)) in Ha. cbn [default] in Ha.
    destruct (pic_complete Hpic (S hi) op q producer r) as [test Ht]; try done; [lia | by apply spec_tiled_buffer | by apply spec_tiled_buffer, Hall|].
    exists (q, test). split; [by apply list_elem_of_In|]. cbn. rewrite (proj2 (Nat.leb_le lo q)) by lia. cbn [andb].
    destruct (pic_reads Hpic (S hi) op q test Hop Ht) as (producer' & Hq' & _ & Htest).
    assert (producer' = producer) as -> by congruence.
    assert (aligned producer op (spec q) (spec (S hi)) = Ok false) as Hf.
    { apply aligned_false; [done | done |]. by exists r. }
    rewrite Htest in Hf. by injection Hf as ->.
  - intros ([q test] & Hin%list_elem_of_In & Hb). cbn in Hb. split_bools.
    match goal with H : (lo <=? q)%nat = true |- _ => apply Nat.leb_le in H end.
    destruct (pic_reads Hpic (S hi) op q test Hop Hin) as (producer & Hqo & Hlt & Htest).
    assert (aligned producer op (spec q) (spec (S hi)) = Ok false) as Hf by (rewrite Htest; f_equal; done).
    apply aligned_false in Hf as (r & Hr & Hn & Hm); [|done..].
    exists r. split; [by apply list_elem_of_In|]. unfold asked. assert (dget st (dep_name r) = Some producer) as ->.
    { apply Hst. exists q. split; [lia | done]. }
    rewrite (choices_tiled q producer Hqo (Hall q ltac:(lia))). exact Hm.
Qed.

(** The operations of the positions [lo .. hi]. *)
Definition slice (lo hi : nat) : list graph_op := take (S hi - lo) (drop lo operations).

Lemma slice_snoc lo hi op : (lo <= hi)%nat -> operations !! S hi = Some op -> slice lo (S hi) = slice lo hi ++ [op].
Proof.
  intros Hle Hop. unfold slice. assert (S (S hi) - lo = S (S hi - lo))%nat as -> by lia. apply take_S_r.
  rewrite lookup_drop. rewrite <- Hop. f_equal. lia.
Qed.

Lemma slice_one p op : operations !! p = Some op -> slice p p = [op].
Proof.
  intros Hop. unfold slice. assert (S p - p = 1)%nat as -> by lia. rewrite (drop_S _ _ _ Hop). done.
Qed.

(** The walk's state after position [at_], in a stretch from [stretch] cut last at [lo]. *)
Record mirrors (start lo at_ : nat) (st : gstate) : Prop := {
  mi_ops : current_ops st = if is_untiled (spec at_) then [] else slice lo at_;
  mi_nest : current_nest st = level_counts (spec at_);
  mi_stretch : is_untiled (spec at_) = false -> holds_stretch start at_ (stretch st)
}.

Definition group_of (run : nat * nat) : list graph_op * list Z := (slice run.1 run.2, level_counts (spec run.1)).
Definition tiled_run (run : nat * nat) : bool := negb (is_untiled (spec run.1)).

Lemma slice_nonempty lo hi op : (lo <= hi)%nat -> operations !! hi = Some op -> slice lo hi <> [].
Proof.
  intros Hle Hop Hn. apply (f_equal length) in Hn. unfold slice in Hn. rewrite length_take, length_drop in Hn.
  apply lookup_lt_Some in Hop. cbn in Hn. lia.
Qed.

Lemma flush_mirrors start lo at_ st op :
  (lo <= at_)%nat -> operations !! at_ = Some op -> mirrors start lo at_ st -> level_counts (spec lo) = level_counts (spec at_) ->
  flush st = groups st ++ (group_of <$> filter (fun run => tiled_run run = true) [(lo, at_)]).
Proof.
  intros Hle Hop [Ho Hn _] Hlo. unfold flush. rewrite Ho, Hn. rewrite filter_cons, filter_nil. unfold tiled_run. cbn [fst snd].
  assert (is_untiled (spec lo) = is_untiled (spec at_)) as ->.
  { apply eq_true_iff_eq. by rewrite !untiled_nest, Hlo. }
  destruct (is_untiled (spec at_)).
  - rewrite bool_decide_true, decide_False by done. by rewrite app_nil_r.
  - rewrite bool_decide_false, decide_True by (done || by eapply slice_nonempty). cbn. unfold group_of. cbn. by rewrite Hlo.
Qed.

(** An operation whose nest is not the current one closes the group and opens its own. *)
Lemma open_step p op st :
  operations !! p = Some op -> (is_untiled (spec p) = true \/ level_counts (spec p) <> current_nest st) ->
  exists st', gstep op st = Ok st' /\ groups st' = flush st /\ mirrors p p p st'.
Proof.
  intros Hop Hd. unfold group_step. rewrite (nest_at p op Hop). cbn zeta.
  assert (forall st', st' = mkG (flush st) (if bool_decide (level_counts (spec p) = []) then [] else [op]) (level_counts (spec p)) [] ->
    exists st2, Ok (if bool_decide (level_counts (spec p) = []) then st'
      else mkG (groups st') (current_ops st') (current_nest st') (dset (get_name op) op (stretch st'))) = Ok st2 /\
      groups st2 = flush st /\ mirrors p p p st2) as Hfin.
  { intros st' ->. destruct (bool_decide (level_counts (spec p) = [])) eqn:E; split_bools; eexists; (split; [reflexivity|]); (split; [done|]).
    - rewrite <- untiled_nest in E. split; cbn; [by rewrite E | done | congruence].
    - assert (is_untiled (spec p) = false) as Ht by (apply not_true_iff_false; by rewrite untiled_nest).
      split; cbn; [by rewrite Ht, (slice_one p op) | done |]. intros _ name producer. cbn. split.
      + case_decide; [|done]. intros [= <-]. exists p. split; [lia | done].
      + intros (q & Hq & Hqo & Hn). assert (q = p) as -> by lia. rewrite Hop in Hqo. injection Hqo as <-. by rewrite decide_True. }
  rewrite (choices_at p op Hop). destruct (is_untiled (spec p)) eqn:Eb.
  - cbn [mbind res_bind]. apply Hfin. by rewrite (proj1 (untiled_nest p) Eb).
  - rewrite (bool_decide_eq_false_2 (_ /\ _)).
    + cbn [mbind res_bind]. by apply Hfin.
    + intros [H1 H2]. destruct Hd as [Hd | Hd]; [congruence | done].
Qed.

(** An operation of the current nest joins the group or, misread, cuts it. *)
Lemma join_step start lo at_ op st :
  (start <= lo)%nat -> (lo <= at_)%nat -> operations !! S at_ = Some op ->
  (forall p, (start <= p <= S at_)%nat -> level_counts (spec p) = level_counts (spec start)) ->
  is_untiled (spec (S at_)) = false -> mirrors start lo at_ st ->
  exists st', gstep op st = Ok st' /\
    if breaks t w (S at_) start
    then groups st' = groups st ++ [(current_ops st, current_nest st)] /\ mirrors start (S at_) (S at_) st'
    else groups st' = groups st /\ mirrors start lo (S at_) st'.
Proof.
  intros Hsl Hla Hop Hnest Ht [Ho Hn Hst].
  assert (forall p, (start <= p <= S at_)%nat -> is_untiled (spec p) = false) as Hall.
  { intros p Hp. apply not_true_iff_false. apply not_true_iff_false in Ht. rewrite untiled_nest in *.
    rewrite Hnest in Ht by lia. by rewrite Hnest. }
  assert (level_counts (spec (S at_)) = level_counts (spec at_)) as Hsame by (etrans; [|symmetry]; apply Hnest; lia).
  assert (level_counts (spec (S at_)) <> []) as Hne by (rewrite <- untiled_nest; congruence).
  specialize (Hst (Hall at_ ltac:(lia))). rewrite (Hall at_ ltac:(lia)) in Ho.
  unfold group_step. rewrite (nest_at (S at_) op Hop), (choices_tiled (S at_) op Hop Ht). cbn zeta.
  rewrite (bool_decide_eq_true_2 (_ /\ _)) by (split; [done | congruence]).
  rewrite (stretch_misread_breaks start at_ (stretch st) op Hop Ht) by (done || (intros; apply Hall; lia)).
  cbn [mbind res_bind]. rewrite bool_decide_false by done. eexists. split; [reflexivity|].
  assert (holds_stretch start (S at_) (dset (get_name op) op (stretch st))) as Hst'.
  { intros name producer. rewrite dget_dset. case_decide as Hname.
    - subst name. split; [intros [= <-]; exists (S at_); split; [lia | done]|].
      intros (q & Hq & Hqo & Hqn). f_equal. rewrite (position_by_name q (S at_) producer op Hqo Hop Hqn) in Hqo. congruence.
    - rewrite (Hst name producer). split; intros (q & Hq & Hqo & Hqn); exists q; (split; [|done]); [lia|].
      assert (q <> S at_) by (intros ->; congruence). lia. }
  destruct (breaks t w (S at_) start); cbn [groups current_ops current_nest stretch]; (split; [done|]); split; cbn;
    try rewrite Ht; try done; try congruence.
  - exact (eq_sym (slice_one _ op Hop)).
  - by rewrite (slice_snoc lo at_ op), Ho by done.
Qed.

Lemma walk_mirrors rest : forall start lo at_ st,
  (start <= lo)%nat -> (lo <= at_)%nat -> (S at_ + rest <= length operations)%nat ->
  (forall p, (start <= p <= at_)%nat -> level_counts (spec p) = level_counts (spec start)) -> mirrors start lo at_ st ->
  exists st', for_each gstep (take rest (drop (S at_) operations)) st = Ok st' /\
    flush st' = groups st ++ (group_of <$> filter (fun run => tiled_run run = true) (cut_runs t w rest start lo at_)).
Proof.
  induction rest as [|rest IH]; intros start lo at_ st Hsl Hla Hlen Hnest Hm.
  { exists st. split; [by rewrite take_0|]. destruct (lookup_lt_is_Some_2 operations at_ ltac:(lia)) as [op Hop].
    cbn [cut_runs]. eapply flush_mirrors; try done. etrans; [|symmetry]; apply Hnest; lia. }
  destruct (lookup_lt_is_Some_2 operations (S at_) ltac:(lia)) as [op Hop].
  destruct (lookup_lt_is_Some_2 operations at_ ltac:(lia)) as [op0 Hop0].
  rewrite (drop_S _ _ _ Hop). cbn [take for_each cut_runs].
  assert (level_counts (spec lo) = level_counts (spec at_)) as Hlo by (etrans; [|symmetry]; apply Hnest; lia).
  pose proof (flush_mirrors start lo at_ st op0 Hla Hop0 Hm Hlo) as Hfl.
  destruct (bool_decide (level_counts (spec (S at_)) = level_counts (spec start))) eqn:E; split_bools.
  - assert (forall p, (start <= p <= S at_)%nat -> level_counts (spec p) = level_counts (spec start)) as Hnest'.
    { intros p Hp. destruct (decide (p = S at_)) as [-> | ?]; [done|]. apply Hnest. lia. }
    destruct (is_untiled (spec (S at_))) eqn:Ht.
    + assert (breaks t w (S at_) start = false) as -> by (unfold breaks; by rewrite Ht).
      destruct (open_step (S at_) op st Hop (or_introl Ht)) as (st' & -> & Hg & [M1 M2 M3]). cbn [mbind res_bind].
      assert (is_untiled (spec lo) = true) as Hlt.
      { apply untiled_nest. rewrite Hnest by lia. rewrite <- E. by apply untiled_nest. }
      destruct (IH start lo (S at_) st' Hsl ltac:(lia) ltac:(lia) Hnest') as (st2 & H2 & Hf2).
      { split; [by rewrite Ht in * | done | congruence]. }
      exists st2. split; [exact H2|]. rewrite Hf2, Hg, Hfl. unfold tiled_run. rewrite filter_cons, filter_nil. cbn [fst].
      rewrite decide_False by (rewrite Hlt; done). by rewrite app_nil_r.
    + destruct (join_step start lo at_ op st Hsl Hla Hop Hnest' Ht Hm) as (st' & -> & Hb). cbn [mbind res_bind].
      destruct (breaks t w (S at_) start); destruct Hb as [Hg Hm'].
      * destruct (IH start (S at_) (S at_) st' ltac:(lia) ltac:(lia) ltac:(lia) Hnest' Hm') as (st2 & H2 & Hf2).
        exists st2. split; [exact H2|]. rewrite Hf2, Hg.
        assert (is_untiled (spec at_) = false) as Hat.
        { apply not_true_iff_false. apply not_true_iff_false in Ht. rewrite untiled_nest in *. by rewrite Hnest, <- E by lia. }
        unfold flush in Hfl. rewrite bool_decide_false in Hfl
          by (rewrite (mi_ops _ _ _ _ Hm), Hat; by eapply slice_nonempty).
        rewrite Hfl, <- app_assoc, <- fmap_app, <- filter_app. done.
      * destruct (IH start lo (S at_) st' Hsl ltac:(lia) ltac:(lia) Hnest' Hm') as (st2 & H2 & Hf2).
        exists st2. split; [exact H2|]. by rewrite Hf2, Hg.
  - destruct (open_step (S at_) op st Hop) as (st' & -> & Hg & Hm').
    { right. rewrite (mi_nest _ _ _ _ Hm), (Hnest at_ ltac:(lia)). done. }
    cbn [mbind res_bind]. destruct (IH (S at_) (S at_) (S at_) st' ltac:(lia) ltac:(lia) ltac:(lia)) as (st2 & H2 & Hf2); [|done|].
    { intros p Hp. by assert (p = S at_) as -> by lia. }
    exists st2. split; [exact H2|]. rewrite Hf2, Hg, Hfl, <- app_assoc, <- fmap_app, <- filter_app. done.
Qed.

(** Past the last buffer nothing is chosen, and nothing is grouped. *)
Lemma tail_steps k : forall p st, (n_positions t <= p)%nat -> (p + k = length operations)%nat ->
  exists st', for_each gstep (drop p operations) st = Ok st' /\ flush st' = flush st.
Proof.
  induction k as [|k IH]; intros p st Hp Hlen; [rewrite drop_ge by lia; by exists st|].
  destruct (lookup_lt_is_Some_2 operations p ltac:(lia)) as [op Hop]. rewrite (drop_S _ _ _ Hop). cbn [for_each].
  assert (is_untiled (spec p) = true) as Ht.
  { unfold spec_at. destruct (aget (buffer_at t) p) as [idx|] eqn:E; [|done]. apply n_positions_bound in E. lia. }
  destruct (open_step p op st Hop (or_introl Ht)) as (st' & -> & Hg & [M1 _ _]). cbn [mbind res_bind].
  destruct (IH (S p) st' ltac:(lia) ltac:(lia)) as (st2 & H2 & Hf2). exists st2. split; [exact H2|].
  rewrite Hf2. unfold flush at 1. rewrite M1, Ht. by rewrite bool_decide_true.
Qed.

(** C24. For a plan whose committed divisions carry the tilings of the division vector, _runs
    returns, and the groups derive_tiling_groups forms from chosen_tilings of the plan (which
    has no entry for untiled operations) are its tiled runs, in order, each with its operations
    and its nest. Conditions: operation and buffer names are distinct; the topology's positions
    are the operations'; every tiled position's buffer is in the plan with a committed division;
    the topology records the reads of earlier buffered operations, each with the alignment test
    of the graph's reads; and no test for a misread tile raises. *)
Theorem runs_are_groups :
  _runs t w = Ok (runs t w) /\
  derive_tiling_groups ownership_view same_partition not_read_in_full choices operations
    = Ok (group_of <$> filter (fun run => tiled_run run = true) (runs t w)).
Proof.
  split; [apply runs_spec, Hpic|]. unfold derive_tiling_groups.
  assert (exists st', for_each gstep (take (n_positions t) operations) (mkG [] [] [] []) = Ok st' /\
    flush st' = group_of <$> filter (fun run => tiled_run run = true) (runs t w)) as (st1 & H1 & Hf1).
  { unfold runs. pose proof (pic_length Hpic) as Hlen. destruct (n_positions t) as [|rest]; [eexists; split; [by rewrite take_0 | done]|].
    destruct (lookup_lt_is_Some_2 operations 0 ltac:(lia)) as [op Hop].
    assert (operations = op :: drop 1 operations) as Eo by (pose proof (drop_S _ _ _ Hop) as E; by rewrite drop_0 in E).
    assert (take (S rest) operations = op :: take rest (drop 1 operations)) as -> by (rewrite Eo at 1; done). cbn [for_each].
    destruct (open_step 0 op (mkG [] [] [] []) Hop) as (st' & -> & Hg & Hm).
    { destruct (is_untiled (spec 0)) eqn:E; [by left|]. right. cbn. rewrite <- untiled_nest. congruence. }
    cbn [mbind res_bind]. destruct (walk_mirrors rest 0 0 0 st' ltac:(lia) ltac:(lia) ltac:(lia)) as (st2 & H2 & Hf2).
    { intros p Hp. by assert (p = 0)%nat as -> by lia. }
    { exact Hm. }
    exists st2. split; [exact H2 | by rewrite Hf2, Hg]. }
  destruct (tail_steps (length operations - n_positions t) (n_positions t) st1) as (st2 & H2 & Hf2);
    [lia | pose proof (pic_length Hpic); lia |].
  rewrite <- (take_drop (n_positions t) operations) at 1. rewrite for_each_app, H1. cbn [mbind res_bind]. rewrite H2. cbn [mbind res_bind].
  by rewrite Hf2, Hf1.
Qed.
End groups.

(** ** Witness *)

(** Three operations with the same nest, the third of which slices another dimension, and
    one whose buffer is not tiled: the plan gives it no entry. *)
Definition ex_cutter : graph_op := mkGraphOp "op2" "buf2" example_op [mkDep "buf1" true 0] [mkDep "buf2" true 0] [] None.
Definition ex_whole : graph_op := mkGraphOp "op3" "buf3" example_op [] [mkDep "buf3" true 0] [] None.
Definition ex_ops : list graph_op := [ex_producer; ex_consumer; ex_cutter; ex_whole].
Definition ex_specs : list TileSpec := [mkSpec [out_axis 0 2]; mkSpec [out_axis 0 2]; mkSpec [out_axis 1 2]; UNTILED].
Definition ex_vector : list DivisionConfig := (fun s => config_for (mkDivision [] [] s [])) <$> ex_specs.
Definition ex_plan : list LifetimeBoundBuffer := zip_with (fun op s =>
  mkBuffer (get_name op) 128 [] false None [] None None None None [] None [mkDivision [] [] s []] [] ∅ (Some 0%nat)) ex_ops ex_specs.
Definition ex_tilings : dict TileSpec :=
  [("op0", mkSpec [out_axis 0 2]); ("op1", mkSpec [out_axis 0 2]); ("op2", mkSpec [out_axis 1 2])]%string.
Definition ex_aligned (producer consumer : graph_op) (ps cs : TileSpec) : bool :=
  match aligned ex_view ex_same (fun _ => false) producer consumer ps cs with Ok b => b | Raise _ => false end.
Definition ex_topology : topology :=
  mkTopology [] 0 0 [] [] [] [(0, 0); (1, 1); (2, 2); (3, 3)]%nat
    [(1, 0, ex_aligned ex_producer ex_consumer); (2, 1, ex_aligned ex_consumer ex_cutter)]%nat [] [] true [].

Lemma runs_are_groups_witness :
  _runs ex_topology ex_vector = Ok [(0, 1); (2, 2); (3, 3)]%nat /\
  derive_tiling_groups ex_view ex_same (fun _ => false) ex_tilings ex_ops
    = Ok [([ex_producer; ex_consumer], [2]); ([ex_cutter], [2])].
Proof.
  apply (runs_are_groups ex_view ex_same (fun _ => false) ex_tilings ex_ops ex_plan eq_refl ex_topology ex_vector).
  assert (forall p op, ex_ops !! p = Some op -> exists s, ex_specs !! p = Some s /\ ex_plan !! p =
    Some (mkBuffer (get_name op) 128 [] false None [] None None None None [] None [mkDivision [] [] s []] [] ∅ (Some 0%nat)) /\ spec_at ex_topology ex_vector p = s) as Hat.
  { intros [|[|[|[|p]]]] op [= <-]; eexists; split_and!; reflexivity. }
  assert (NoDup (get_name <$> ex_ops)) as Hnd by (apply (bool_decide_unpack _); vm_compute; exact I).
  split.
  - intros p idx H%aget_Some_elem. repeat (apply elem_of_cons in H as [[= -> ->] | H]; [cbn; lia|]). by apply elem_of_nil in H.
  - cbn. lia.
  - exact Hnd.
  - apply (bool_decide_unpack _). vm_compute. exact I.
  - intros p op buf ci cd Hp [q Hq]%list_elem_of_lookup Hn Hc Hd. assert (is_Some (ex_ops !! q)) as [op' Hop'].
    { apply lookup_lt_is_Some. by apply lookup_lt_Some in Hq. }
    destruct (Hat q op' Hop') as (s & _ & Hs & <-). rewrite Hq in Hs. injection Hs as ->. injection Hc as <-. injection Hd as <-. cbn in Hn.
    by assert (p = q) as -> by (apply (NoDup_lookup _ p q (get_name op) Hnd); rewrite list_lookup_fmap; [by rewrite Hp | rewrite Hop'; cbn; congruence]).
  - intros p op Hp _. destruct (Hat p op Hp) as (s & _ & Hs & _). eexists. split; [by eapply list_elem_of_lookup_2|]. by split; [|eexists].
  - intros [|[|[|[|p]]]] op q test [= <-]; cbn; [by intros ?%elem_of_nil | | | by intros ?%elem_of_nil].
    + intros [= -> ->]%list_elem_of_singleton. exists ex_producer. split; [reflexivity|]. split; [lia | reflexivity].
    + intros [= -> ->]%list_elem_of_singleton. exists ex_consumer. split; [reflexivity|]. split; [lia | reflexivity].
  - intros [|[|[|[|p]]]] op [|[|[|[|q]]]] producer read [= <-] [= <-] Hlt; try lia; cbn [reads ex_consumer ex_cutter ex_whole]; try (by intros ?%elem_of_nil);
      intros ->%list_elem_of_singleton; cbn; intros Hn; try discriminate Hn; intros _ _; eexists; apply list_elem_of_here.
  - intros [|[|[|[|p]]]] op [|[|[|[|q]]]] producer read [= <-] [= <-]; cbn [reads ex_producer ex_consumer ex_cutter ex_whole];
      try (by intros ?%elem_of_nil); intros ->%list_elem_of_singleton; eexists; reflexivity.
Defined.
