(* ===== verification/CoOptimizerInv.v ===== *)
(** * The invariant of the joint search

    What every state of [SaCoOptimizingSolver] satisfies: the divisions are ones their
    operations admit, the packer is the packer of these divisions' per-core sizes and
    eligibilities, and the eligible count is the number of set flags.  Each move is
    shown to keep it, over an arbitrary set [E] of exceptions the geometry may raise, so
    that one proof serves safety (everything allowed) and totality (nothing allowed). *)

From S2P Require Import Prelude PyDict PlanSolver GreedySolver FitSolver PermLayout Cooling Annealing CoreMapping CoreViews Tilings SplitSpace ResidencyEdge CoDivisions CoOptimizer TilingRuns.

(** ** The packer's operations on a tracked state *)

Section packer.
Context (lb : list LifetimeBoundBuffer) (lim al : Z).
Context (Hlive : Forall (fun b => start_time b < end_time b) lb) (Hnames : NoDup (buf_name <$> lb)) (Hal : 0 < al).
Context (Hcap : lim <= ROOM) (Hroom : al <= ROOM).

(** A packer over [lb] with these sizes and flags. *)
Record packs (sizes : list Z) (flags : list bool) (p : native) : Prop := {
  pk_related : exists r, related lb lim al p r;
  pk_sizes : n_sizes p = sizes;
  pk_flags : PermLayout.n_eligible p = flags
}.

Lemma packs_length sizes flags p : packs sizes flags p ->
  length sizes = length lb /\ length flags = length lb /\ length (n_permutation p) = length lb /\ st_n (n_static p) = length lb /\
  length (n_addresses p) = length lb.
Proof.
  intros [[r Hr] <- <-]. rewrite (rel_sizes _ _ _ _ _ Hr), (rel_eligible _ _ _ _ _ Hr), (rel_permutation _ _ _ _ _ Hr), (rel_perm _ _ _ _ _ Hr), length_seq.
  rewrite (rel_len_sizes _ _ _ _ _ Hr), (rel_len_eligible _ _ _ _ _ Hr). unfold n_addresses. rewrite length_fmap, length_seq.
  rewrite (rel_static _ _ _ _ _ Hr). unfold build_static. by destruct (BuildIntervalData _ _) as [[? ?] ?].
Qed.

Lemma packs_step o sizes flags p p' d :
  packs sizes flags p -> op_fits o -> n_apply o p = Ok (p', d) -> exists r, related lb lim al p' r.
Proof.
  intros [[r Hr] _ _] Ho Hp. pose proof (apply_agrees lb lim al o p r Hlive Hnames Hal Hcap Hroom Ho Hr) as H. rewrite Hp in H.
  destruct (r_apply o r) as [[r' d']|]; [|done]. destruct H as [H _]. by exists r'.
Qed.

Lemma recompute_fields q : n_sizes (RecomputeAll q) = n_sizes q /\ PermLayout.n_eligible (RecomputeAll q) = PermLayout.n_eligible q.
Proof. unfold RecomputeAll. by destruct (InitIntervals _). Qed.

Lemma wp_packer {A} E (m : res (native * A)) (P : native -> Prop) :
  (exists p' d, m = Ok (p', d) /\ P p') -> wp E m (fun pd => P pd.1).
Proof. by intros (p' & d & -> & H). Qed.

Lemma rotate_packs E sizes flags p i j :
  packs sizes flags p -> (i < length lb)%nat -> (j < length lb)%nat -> wp E (n_rotate i j p) (fun pd => packs sizes flags pd.1).
Proof.
  intros H Hi Hj. apply wp_packer. destruct (packs_length _ _ _ H) as (_ & _ & Hl & _ & _). pose proof (packs_step (Rotate i j) sizes flags p) as Hs.
  destruct (lookup_lt_is_Some_2 (n_permutation p) i ltac:(lia)) as [x Hx]. destruct (lookup_lt_is_Some_2 (n_permutation p) j ltac:(lia)) as [y Hy].
  destruct (n_rotate i j p) as [[p' d]|] eqn:E1.
  2: { unfold n_rotate in E1. rewrite Hx, Hy in E1. repeat (case_match; try done). }
  exists p', d. split; [done|]. split; [by apply (Hs p' d H) | |]; destruct H as [_ <- <-].
  - by apply (apply_sizes (Rotate i j) p p' d).
  - by apply (apply_eligible (Rotate i j) p p' d).
Qed.

Lemma swap_packs E sizes flags p i :
  packs sizes flags p -> (S i < length lb)%nat -> wp E (n_swap i p) (fun pd => packs sizes flags pd.1).
Proof.
  intros H Hi. apply wp_packer. destruct (packs_length _ _ _ H) as (_ & _ & Hl & _ & _). pose proof (packs_step (Swap i) sizes flags p) as Hs.
  destruct (lookup_lt_is_Some_2 (n_permutation p) i ltac:(lia)) as [x Hx]. destruct (lookup_lt_is_Some_2 (n_permutation p) (S i) ltac:(lia)) as [y Hy].
  destruct (n_swap i p) as [[p' d]|] eqn:E1.
  2: { unfold n_swap in E1. rewrite Hx, Hy in E1. repeat (case_match; try done). }
  exists p', d. split; [done|]. split; [by apply (Hs p' d H) | |]; destruct H as [_ <- <-].
  - by apply (apply_sizes (Swap i) p p' d).
  - by apply (apply_eligible (Swap i) p p' d).
Qed.

Lemma zat_insert_id l i z : (i < length l)%nat -> zat l i = z -> <[i := z]> l = l.
Proof. intros [x Hx]%lookup_lt_is_Some_2 Hz. apply list_insert_id. unfold zat in Hz. rewrite Hx in *. cbn in Hz. congruence. Qed.

Lemma resize_packs E sizes flags p i s :
  packs sizes flags p -> (i < length lb)%nat -> 0 <= s -> small s = true ->
  wp E (n_resize i s p) (fun pd => packs (<[i := s]> sizes) flags pd.1).
Proof.
  intros H Hi H0 Hs. apply wp_packer. destruct (packs_length _ _ _ H) as (Hls & _ & _ & Hn & _).
  pose proof (packs_step (Resize i s) sizes flags p) as Hstep. destruct (n_resize i s p) as [[p' d]|] eqn:E1.
  2: { unfold n_resize in E1. rewrite (small_int64 _ Hs), Hn, (proj2 (Nat.ltb_lt _ _) Hi), (proj2 (Z.ltb_ge _ _) H0) in E1. cbn in E1. repeat (case_match; try done). }
  exists p', d. split; [done|]. split; [by apply (Hstep p' d H) | |]; destruct H as [_ <- <-]; revert E1; unfold n_resize;
    intros ([] & _ & H)%bind_Ok; apply bind_Ok in H as ([] & _ & H); apply bind_Ok in H as ([] & _ & H);
    repeat case_match; injection H as <- <-; rewrite ?(proj1 (recompute_fields _)), ?(proj2 (recompute_fields _)); try done.
  symmetry. apply zat_insert_id; [lia|]. by apply Z.eqb_eq.
Qed.

Lemma set_eligible_packs E sizes flags p i f :
  packs sizes flags p -> (i < length lb)%nat -> wp E (n_set_eligible i f p) (fun pd => packs sizes (<[i := f]> flags) pd.1).
Proof.
  intros H Hi. apply wp_packer. destruct (packs_length _ _ _ H) as (_ & Hlf & _ & Hn & _).
  pose proof (packs_step (SetEligible i f) sizes flags p) as Hstep. destruct (n_set_eligible i f p) as [[p' d]|] eqn:E1.
  2: { unfold n_set_eligible in E1. rewrite Hn, (proj2 (Nat.ltb_lt _ _) Hi) in E1. cbn in E1. by case_match. }
  exists p', d. split; [done|]. split; [by apply (Hstep p' d H) | |]; destruct H as [_ <- <-]; revert E1; unfold n_set_eligible;
    intros ([] & _ & H)%bind_Ok; case_match; injection H as <- <-; rewrite ?(proj1 (recompute_fields _)), ?(proj2 (recompute_fields _)); try done.
  symmetry. apply list_insert_id. destruct (lookup_lt_is_Some_2 (PermLayout.n_eligible p) i ltac:(lia)) as [g Hg].
  match goal with H : Bool.eqb _ _ = true |- _ => apply eqb_prop in H; unfold flag in H; rewrite Hg in H; cbn in H; subst g end. done.
Qed.

(** What the packer's addresses mean. *)
Lemma packs_placed sizes flags p :
  packs sizes flags p ->
  placed_ok lb lim al sizes (seq 0 (length lb)) (addr_of (n_addresses p)) /\
  only_eligible flags (seq 0 (length lb)) (addr_of (n_addresses p)) /\
  n_count p = cnt (fun i => is_Some (addr_of (n_addresses p) i)) (seq 0 (length lb)).
Proof.
  intros [[r Hr] <- <-].
  destruct (ref_layout_placed_eligible lb lim al (r_sizes r) (r_eligible r) Hal (rel_nonneg _ _ _ _ _ Hr) (r_permutation r) (rel_perm _ _ _ _ _ Hr)) as (_ & H2 & H3).
  destruct (ref_layout_quality lb lim al (r_sizes r) (r_eligible r) (r_permutation r) (rel_perm _ _ _ _ _ Hr)) as (_ & _ & H4).
  cbn zeta in *. rewrite <- (rel_layout _ _ _ _ _ Hr) in *. cbn [fst snd] in *.
  by rewrite (rel_sizes _ _ _ _ _ Hr), (rel_eligible _ _ _ _ _ Hr), (rel_addresses _ _ _ _ _ Hr), (rel_count _ _ _ _ _ Hr).
Qed.

End packer.

(** ** Well-formed problems *)

(** A configuration the operation's menu or space offers. *)
Definition admitted (t : topology) (i : nat) (c : DivisionConfig) : Prop :=
  exists m src, menus t !! i = Some m /\ sources t !! i = Some src /\ source_admits m src c.

Record wf_topology (t : topology) : Prop := {
  wt_menus : length (menus t) = length (bufs t);
  wt_sources : length (sources t) = length (bufs t);
  wt_source : forall i m src, menus t !! i = Some m -> sources t !! i = Some src -> wf_source m src;
  wt_edge : forall p c rel, (p, c, rel) ∈ edges t -> (p < length (bufs t))%nat /\ (c < length (bufs t))%nat /\
    forall pm psrc cm csrc, menus t !! p = Some pm -> sources t !! p = Some psrc -> menus t !! c = Some cm -> sources t !! c = Some csrc ->
      wf_relation pm psrc cm csrc rel;
  wt_position : forall p idx, aget (buffer_at t) p = Some idx -> exists b, bufs t !! idx = Some b /\ op_position b = Some p;
  wt_positioned : forall idx b p, bufs t !! idx = Some b -> op_position b = Some p -> aget (buffer_at t) p = Some idx;
  wt_anchors : Forall (fun i => (i < length (bufs t))%nat) (anchor_candidates t);
  wt_flips : Forall (fun i => (i < length (bufs t))%nat) (flippable_ops t);
  wt_spills : length (spill_costs t) = length (bufs t);
  wt_size : forall i b, bufs t !! i = Some b -> small (buf_size (co_buf b)) = true;
  wt_pieces : forall i c, admitted t i c -> 1 <= output_partition (division c) * output_tile_count (cfg_tiling c)
}.

(** The geometry -- the edges' tests and the spaces' enumerations -- raises only [E]. *)
Record tame {F R} `{!FloatOps F} `{!Random F R} `{!RandBelow R} (E : exn -> Prop) (t : topology) : Prop := {
  tm_compatible : forall p c rel cp cc, (p, c, rel) ∈ edges t -> wp E (relation_compatible rel cp cc) (fun _ => True);
  tm_child : forall p c rel cp, (p, c, rel) ∈ edges t -> wp E (child_for rel cp) (fun _ => True);
  tm_parent : forall p c rel cc, (p, c, rel) ∈ edges t -> wp E (parent_for rel cc) (fun _ => True);
  tm_neighbours : forall src c, src ∈ sources t -> wp E (source_neighbours src c) (fun _ => True);
  tm_retiled : forall src c spec, src ∈ sources t -> wp E (retiled src c spec) (fun _ => True);
  tm_anchor : forall src c (r : R), src ∈ sources t -> wp E (CoDivisions.anchor src c r) (fun _ => True)
}.

(** ** Generic steps *)

Lemma wp_self {A} E (m : res A) : wp E m (fun _ => True) -> wp E m (fun a => m = Ok a).
Proof. by destruct m. Qed.

Lemma wp_and {A} E (m : res A) P (Q : A -> Prop) : wp E m P -> (forall a, m = Ok a -> Q a) -> wp E m (fun a => P a /\ Q a).
Proof. destruct m; cbn; auto. Qed.

Lemma wp_py_any {A} E (p : A -> res bool) l :
  (forall x, x ∈ l -> wp E (p x) (fun _ => True)) -> wp E (py_any p l) (fun _ => True).
Proof.
  induction l as [|x l IH]; intros H; [done|]. cbn [py_any]. apply wp_bind. eapply wp_mono; [apply H; list_mem|].
  intros [|] _; [done|]. apply IH. intros y Hy. apply H. by right.
Qed.

Lemma wp_py_all {A} E (p : A -> res bool) l :
  (forall x, x ∈ l -> wp E (p x) (fun _ => True)) -> wp E (py_all p l) (fun _ => True).
Proof.
  induction l as [|x l IH]; intros H; [done|]. cbn [py_all]. apply wp_bind. eapply wp_mono; [apply H; list_mem|].
  intros [|] _; [|done]. apply IH. intros y Hy. apply H. by right.
Qed.

Lemma py_any_ext {A} (p q : A -> res bool) l : (forall x, x ∈ l -> p x = q x) -> py_any p l = py_any q l.
Proof.
  induction l as [|x l IH]; intros H; [done|]. cbn [py_any]. rewrite H by list_mem. destruct (q x) as [[]|]; [done | | done].
  apply IH. intros y Hy. apply H. by right.
Qed.

Lemma py_all_ext {A} (p q : A -> res bool) l : (forall x, x ∈ l -> p x = q x) -> py_all p l = py_all q l.
Proof.
  induction l as [|x l IH]; intros H; [done|]. cbn [py_all]. rewrite H by list_mem. destruct (q x) as [[]|]; [|done..].
  apply IH. intros y Hy. apply H. by right.
Qed.

Lemma zsum_insert {A} (f : A -> Z) l i x y : l !! i = Some x -> zsum (f <$> <[i := y]> l) = zsum (f <$> l) + f y - f x.
Proof.
  revert i. induction l as [|a l IH]; intros [|i] Hi; try done.
  - injection Hi as ->. change (<[0%nat := y]> (x :: l)) with (y :: l). rewrite !fmap_cons, !zsum_cons. lia.
  - change (<[S i := y]> (a :: l)) with (a :: <[i := y]> l). rewrite !fmap_cons, !zsum_cons, (IH i Hi). lia.
Qed.

Lemma flag_lookup l i f : l !! i = Some f -> flag l i = f.
Proof. unfold flag. by intros ->. Qed.

(** ** Edges *)

Lemma elem_of_children t i c rel : (c, rel) ∈ children t i <-> (i, c, rel) ∈ edges t.
Proof.
  unfold children. rewrite list_elem_of_omap. split.
  - intros ([[p c'] rel'] & Hin & H). cbn in H. case_bool_decide; [|done]. injection H as <- <-. by subst.
  - intros Hin. exists (i, c, rel). split; [done|]. cbn. by rewrite bool_decide_true.
Qed.

Lemma elem_of_parents_idx t i p : p ∈ parents_idx t i <-> exists rel, (p, i, rel) ∈ edges t.
Proof.
  unfold parents_idx. rewrite elem_of_py_sorted, elem_of_remove_dups, list_elem_of_omap. split.
  - intros ([[p' c'] rel'] & Hin & H). cbn in H. case_bool_decide; [|done]. injection H as <-. subst. eauto.
  - intros [rel Hin]. exists (p, i, rel). split; [done|]. cbn. by rewrite bool_decide_true.
Qed.

Lemma elem_of_children_idx t i c : c ∈ children_idx t i <-> exists rel, (i, c, rel) ∈ edges t.
Proof.
  unfold children_idx. rewrite elem_of_py_sorted, list_elem_of_fmap. split.
  - intros ([c' rel] & -> & H%elem_of_children). eauto.
  - intros [rel H%elem_of_children]. by exists (c, rel).
Qed.

Lemma relation_of_edge t p c rel0 : (p, c, rel0) ∈ edges t -> exists rel, relation_of t p c = Ok rel /\ (p, c, rel) ∈ edges t.
Proof.
  intros Hin. unfold relation_of. destruct (last (filter (fun cr : nat * edge_relation => cr.1 = c) (children t p))) as [[c' rel]|] eqn:El.
  - exists rel. split; [done|]. apply last_Some_elem_of, list_elem_of_filter in El as [Hc Hl]. cbn in Hc. subst. by apply elem_of_children.
  - apply last_None in El. assert ((c, rel0) ∈ filter (fun cr : nat * edge_relation => cr.1 = c) (children t p)) as H.
    { apply list_elem_of_filter. split; [done|]. by apply elem_of_children. }
    rewrite El in H. by apply elem_of_nil in H.
Qed.

(** ** States *)

(** ** Per-core sizes *)

Definition core_size (b : cobuffer) (c : DivisionConfig) : Z :=
  Z.max 0 (ceil_div (buf_size (co_buf b)) (output_partition (division c) * output_tile_count (cfg_tiling c))).

(** A per-core size is no larger than the buffer. *)
Lemma core_size_range b c : 1 <= output_partition (division c) * output_tile_count (cfg_tiling c) ->
  0 <= core_size b c <= Z.max 0 (buf_size (co_buf b)).
Proof.
  intros Hp. unfold core_size, ceil_div. set (k := output_partition _ * _) in *.
  pose proof (neg_div_neg_spec (buf_size (co_buf b)) k ltac:(lia)). set (q := - (- _ / k)) in *. set (a := buf_size (co_buf b)) in *.
  split; [lia|]. destruct (Z.le_gt_cases q 0) as [Hq|Hq]; [lia|]. assert (q - 1 < a \/ a <= q - 1) as [Hlt|Hge] by lia; [lia|].
  assert ((q - 1) * 1 <= (q - 1) * k) by (apply Z.mul_le_mono_nonneg_l; lia). lia.
Qed.

Lemma core_size_small b c : 1 <= output_partition (division c) * output_tile_count (cfg_tiling c) ->
  small (buf_size (co_buf b)) = true -> small (core_size b c) = true.
Proof.
  intros Hp Hs. pose proof (core_size_range b c Hp). pose proof (small_room _ Hs). apply small_int64 in Hs.
  unfold int64, INT64_MAX in Hs. split_bools. unfold ROOM in *. apply int64_small; [unfold int64, INT64_MAX; apply andb_true_iff|unfold ROOM]; lia.
Qed.

(** What a search starts from: a well-formed problem, the packer's buffers [lb] with
    their lifetimes, and the exceptions [E] its geometry may raise. *)
Class setting {F R} `{!FloatOps F} `{!Random F R} `{!RandBelow R} (E : exn -> Prop) (t : topology) (lb : list LifetimeBoundBuffer) : Prop := {
  set_topology : wf_topology t;
  set_tame : tame E t;
  set_live : Forall (fun b => start_time b < end_time b) lb;
  set_names : NoDup (buf_name <$> lb);
  set_alignment : 0 < lx_alignment t;
  set_room : lx_limit t <= ROOM /\ lx_alignment t <= ROOM;
  set_length : length lb = length (bufs t)
}.

Section states.
Context {F : Type} `{!FloatOps F} {R : Type} `{!Random F R} `{!RandBelow R}.
Context (t : topology) (E : exn -> Prop) (lb : list LifetimeBoundBuffer).
Context `{Hset : !setting E t lb}.

#[local] Notation Hwt := (set_topology (F:=F) (R:=R) (E:=E) (t:=t) (lb:=lb)).
#[local] Notation Htame := (set_tame (F:=F) (R:=R) (E:=E) (t:=t) (lb:=lb)).
#[local] Notation Hlive := (set_live (F:=F) (R:=R) (E:=E) (t:=t) (lb:=lb)).
#[local] Notation Hnames := (set_names (F:=F) (R:=R) (E:=E) (t:=t) (lb:=lb)).
#[local] Notation Hal := (set_alignment (F:=F) (R:=R) (E:=E) (t:=t) (lb:=lb)).
#[local] Notation Hroom := (set_room (F:=F) (R:=R) (E:=E) (t:=t) (lb:=lb)).
#[local] Notation Hlb := (set_length (F:=F) (R:=R) (E:=E) (t:=t) (lb:=lb)).
#[local] Notation n := (length (bufs t)).
#[local] Notation packs := (packs lb (lx_limit t) (lx_alignment t)).

Record vector_ok (w : list DivisionConfig) : Prop := {
  vo_length : length w = n;
  vo_admitted : forall i c, w !! i = Some c -> admitted t i c
}.

Definition sizes_of (w : list DivisionConfig) : list Z := zip_with core_size (bufs t) w.

Definition flags_ok (w : list DivisionConfig) (flags : list bool) : Prop :=
  forall i f, flags !! i = Some f -> _eligible t w i = Ok f.

(** The packer is the packer of the vector, and the count its eligible buffers. *)
Record state_ok (s : cstate) : Prop := {
  so_vector : vector_ok (chosen s);
  so_packed : exists flags, packs (sizes_of (chosen s)) flags (packer s) /\ flags_ok (chosen s) flags /\
    n_eligible s = zsum (Z.b2z <$> flags)
}.

Lemma buffer_lookup i : (i < n)%nat -> exists b, bufs t !! i = Some b.
Proof. intros H. by apply lookup_lt_is_Some_2. Qed.

Lemma per_core_size_spec i b c : bufs t !! i = Some b -> _per_core_size t i c = Ok (core_size b c).
Proof. intros Hb. unfold _per_core_size. by rewrite (py_at_lookup _ _ _ Hb). Qed.

Lemma core_size_bound i b c : bufs t !! i = Some b -> admitted t i c -> 0 <= core_size b c /\ small (core_size b c) = true.
Proof.
  intros Hb Hc. pose proof (wt_pieces t Hwt i c Hc) as Hp. split; [by apply core_size_range|].
  apply core_size_small; [done | by eapply (wt_size t Hwt)].
Qed.

Lemma sizes_insert w i b c : bufs t !! i = Some b -> sizes_of (<[i := c]> w) = <[i := core_size b c]> (sizes_of w).
Proof. intros Hb. unfold sizes_of. rewrite (insert_zip_with core_size). by rewrite (list_insert_id (bufs t) i b). Qed.

Lemma length_sizes w : length w = n -> length (sizes_of w) = n.
Proof. intros Hw. unfold sizes_of. rewrite length_zip_with. lia. Qed.

(** Eligibility only looks at the buffer's division and its readers'. *)
Lemma eligible_frame w w' i :
  w !! i = w' !! i -> (forall c rel, (i, c, rel) ∈ edges t -> w !! c = w' !! c) -> _eligible t w i = _eligible t w' i.
Proof.
  intros Hi Hc. assert (forall c, w !! c = w' !! c -> py_at w c = py_at w' c) as Hat by (unfold py_at; by intros c ->).
  unfold _eligible. destruct (py_at (bufs t) i) as [b|]; [|done]. cbn [mbind res_bind]. case_match; [done|].
  rewrite (Hat i Hi). destruct (py_at w' i) as [parent|]; [|done]. cbn [mbind res_bind].
  destruct (_per_core_size t i parent) as [size|]; [|done]. cbn [mbind res_bind]. case_match; [done|].
  assert (_read_across_a_tiling_boundary t w i parent = _read_across_a_tiling_boundary t w' i parent) as ->.
  { unfold _read_across_a_tiling_boundary. case_match; [done|]. apply py_any_ext. intros [c rel] Hin. cbn. rewrite (Hat c); [done|].
    by eapply Hc, elem_of_children. }
  destruct (_read_across_a_tiling_boundary t w' i parent) as [[]|]; [done | | done]. cbn [mbind res_bind].
  apply py_all_ext. intros [c rel] Hin. cbn. rewrite (Hat c); [done|]. by eapply Hc, elem_of_children.
Qed.

Lemma eligible_returns w i : vector_ok w -> (i < n)%nat -> wp E (_eligible t w i) (fun f => _eligible t w i = Ok f).
Proof.
  intros [Hlen _] Hi. apply wp_self. destruct (buffer_lookup i Hi) as [b Hb]. unfold _eligible. rewrite (py_at_lookup _ _ _ Hb). cbn [mbind res_bind].
  case_match; [done|]. apply wp_bind, wp_py_at; [lia|]. intros parent Hp. rewrite (per_core_size_spec i b parent Hb). cbn [mbind res_bind].
  case_match; [done|]. apply wp_bind. apply (wp_mono _ _ (fun _ => True)).
  - unfold _read_across_a_tiling_boundary. case_match; [exact I|]. apply wp_py_any. intros [c rel] Hin%elem_of_children.
    apply wp_bind, wp_py_at; [destruct (wt_edge t Hwt _ _ _ Hin) as (_ & ? & _); cbn; lia | done].
  - intros [] _; [done|]. apply wp_py_all. intros [c rel] Hin%elem_of_children. cbn [fst snd].
    apply wp_bind, wp_py_at; [destruct (wt_edge t Hwt _ _ _ Hin) as (_ & ? & _); lia|]. intros child _. by eapply (tm_compatible E t Htame).
Qed.

Lemma count_eligible_spec w flags l :
  flags_ok w flags -> (forall x, x ∈ l -> (x < length flags)%nat) ->
  count_eligible t w l = Ok (zsum ((fun i => Z.b2z (flag flags i)) <$> l)).
Proof.
  intros Hf Hl. unfold count_eligible. enough (forall k, for_each (fun x total => f ← _eligible t w x; Ok (total + Z.b2z f)) l k =
    Ok (k + zsum ((fun i => Z.b2z (flag flags i)) <$> l))) as H by (rewrite H; by rewrite Z.add_0_l).
  induction l as [|x l IH]; intros k; [cbn; by rewrite Z.add_0_r|]. cbn [for_each].
  destruct (lookup_lt_is_Some_2 flags x) as [f Hx]; [apply Hl; list_mem|]. rewrite (Hf x f Hx). cbn [mbind res_bind].
  rewrite IH by (intros; apply Hl; by right). f_equal. rewrite fmap_cons, zsum_cons, (flag_lookup _ _ _ Hx). lia.
Qed.

Lemma refresh_spec w l sizes flags p :
  vector_ok w -> NoDup l -> (forall x, x ∈ l -> (x < n)%nat) -> packs sizes flags p ->
  wp E (refresh t w l p) (fun pa => exists flags', packs sizes flags' pa.1 /\
    (forall i, i ∉ l -> flags' !! i = flags !! i) /\ (forall i f, i ∈ l -> flags' !! i = Some f -> _eligible t w i = Ok f) /\
    zsum (Z.b2z <$> flags') = zsum (Z.b2z <$> flags) + (pa.2 - zsum ((fun i => Z.b2z (flag flags i)) <$> l))).
Proof.
  intros Hw Hnd Hl Hp. pose proof Hlb as Hlbn. destruct (packs_length _ _ _ _ _ _ Hp) as (_ & Hlf & _). unfold refresh.
  apply (wp_for_each E _ (fun pre pa => exists flags', packs sizes flags' pa.1 /\
    (forall i, i ∉ pre -> flags' !! i = flags !! i) /\ (forall i f, i ∈ pre -> flags' !! i = Some f -> _eligible t w i = Ok f) /\
    zsum (Z.b2z <$> flags') = zsum (Z.b2z <$> flags) + (pa.2 - zsum ((fun i => Z.b2z (flag flags i)) <$> pre)))).
  2: { exists flags. split; [done|]. split; [done|]. split; [by intros i f ?%elem_of_nil|]. cbn. lia. }
  intros pre x rest [p1 acc] Hsplit (flags' & Hp1 & Hout & Hin & Hsum). cbn [fst snd] in *.
  assert (x < n)%nat as Hx by (apply Hl; rewrite Hsplit; list_mem).
  assert (x ∉ pre) as Hxp.
  { rewrite Hsplit in Hnd. apply NoDup_app in Hnd as (_ & Hd & _). intros Hxp. apply (Hd x Hxp). list_mem. }
  apply wp_bind. eapply wp_mono; [by apply eligible_returns|]. intros f Hf. apply wp_bind.
  eapply wp_mono; [apply (set_eligible_packs lb (lx_limit t) (lx_alignment t) Hlive Hnames Hal (proj1 Hroom) (proj2 Hroom) E sizes flags' p1 x f Hp1); lia|].
  intros [p2 d] Hp2. cbn [fst snd wp] in *. destruct (packs_length _ _ _ _ _ _ Hp1) as (_ & Hlf' & _).
  destruct (lookup_lt_is_Some_2 flags' x ltac:(lia)) as [f0 Hf0]. exists (<[x := f]> flags'). split_and!; [done | | |].
  - intros i Hi. rewrite list_lookup_insert_ne; [apply Hout; set_solver|]. intros <-. apply Hi. list_mem.
  - intros i g Hi Hg. apply list_lookup_insert_Some in Hg as [(-> & -> & _) | (Hne & Hg)]; [done|].
    apply elem_of_app in Hi as [Hi | ->%list_elem_of_singleton]; [by apply Hin | done].
  - rewrite (zsum_insert _ _ _ _ _ Hf0), Hsum, fmap_app, zsum_app. rewrite Hout in Hf0 by done.
    cbn [fmap list_fmap]. rewrite zsum_cons, (flag_lookup _ _ _ Hf0). cbn. lia.
Qed.

(** Refreshing the buffers the change can reach restores the invariant. *)
Lemma reassigned s w' flags l (changed : list nat) p1 :
  state_ok s -> packs (sizes_of (chosen s)) flags (packer s) -> flags_ok (chosen s) flags -> n_eligible s = zsum (Z.b2z <$> flags) ->
  vector_ok w' -> (forall i, i ∉ changed -> w' !! i = chosen s !! i) ->
  NoDup l -> (forall x, x ∈ l -> (x < n)%nat) -> (forall x, x ∈ changed -> x ∈ l) ->
  (forall p c rel, (p, c, rel) ∈ edges t -> c ∈ changed -> p ∈ l) -> packs (sizes_of w') flags p1 ->
  wp E (pa ← refresh t w' l p1; Ok (mkState w' pa.1 (n_eligible s + (pa.2 - zsum ((fun i => Z.b2z (flag flags i)) <$> l))))) state_ok.
Proof.
  intros Hs Hp Hf Hn Hw' Hsame Hnd Hl Hch Hpar Hp1. apply wp_bind. eapply wp_mono; [by apply refresh_spec|].
  intros [p2 acc] (flags' & Hp2 & Hout & Hin & Hsum). cbn [fst snd wp] in *. split; cbn; [done|]. exists flags'. split_and!; [done | | by rewrite Hn, Hsum].
  intros i f Hi. destruct (decide (i ∈ l)) as [Hil|Hil]; [by apply Hin|]. rewrite Hout in Hi by done. rewrite <- (Hf i f Hi).
  apply eligible_frame.
  - apply Hsame. intros Hc. by apply Hil, Hch.
  - intros c rel Hed. apply Hsame. intros Hc. by eapply Hil, Hpar.
Qed.

(** *** One flip, and an assignment of several *)

Lemma index_bounded idx x : (idx < n)%nat -> x ∈ idx :: parents_idx t idx -> (x < n)%nat.
Proof. intros Hi [-> | [rel He]%elem_of_parents_idx]%elem_of_cons; [done|]. by destruct (wt_edge t Hwt _ _ _ He). Qed.

Lemma sorted_dups (l : list nat) : NoDup (py_sorted Nat.leb (remove_dups l)) /\ (forall x, x ∈ py_sorted Nat.leb (remove_dups l) <-> x ∈ l).
Proof. split; [rewrite py_sorted_perm; apply NoDup_remove_dups|]. intros x. by rewrite elem_of_py_sorted, elem_of_remove_dups. Qed.

Lemma vector_insert w i c : vector_ok w -> admitted t i c -> vector_ok (<[i := c]> w).
Proof.
  intros [H1 H2] Hc. split; [by rewrite length_insert|]. intros j d. rewrite list_lookup_insert_Some.
  intros [(-> & -> & _) | (_ & Hj)]; [done | by apply H2].
Qed.

Lemma atomic_flip_ok idx c s : state_ok s -> (idx < n)%nat -> admitted t idx c -> wp E (_atomic_flip t idx c s) state_ok.
Proof.
  intros Hs Hidx Hc. pose proof Hlb as Hlbn. pose proof Hs as [Hv (flags & Hp & Hf & Hn)]. unfold _atomic_flip. cbn zeta.
  set (l := py_sorted Nat.leb (remove_dups (idx :: parents_idx t idx))). destruct (sorted_dups (idx :: parents_idx t idx)) as [Hnd Hl]. fold l in Hnd, Hl.
  destruct (packs_length _ _ _ _ _ _ Hp) as (_ & Hlf & _).
  assert (forall x, x ∈ l -> (x < n)%nat) as Hb by (intros x Hx; by apply (index_bounded idx), Hl).
  rewrite (count_eligible_spec _ flags) by (done || (intros x Hx; rewrite Hlf, Hlbn; by apply Hb)). cbn [mbind res_bind].
  destruct (buffer_lookup idx Hidx) as [b Hbuf]. rewrite (per_core_size_spec idx b c Hbuf). cbn [mbind res_bind]. apply wp_bind.
  eapply wp_mono; [eapply (resize_packs lb (lx_limit t) (lx_alignment t) Hlive Hnames Hal (proj1 Hroom) (proj2 Hroom) E _ flags _ idx _ Hp);
    [lia | by apply (core_size_bound idx b c)..]|].
  intros [p1 d] Hp1. cbn [fst] in *. rewrite <- sizes_insert in Hp1 by done.
  apply (reassigned s _ flags l [idx] p1); try done.
  - by apply vector_insert.
  - intros i Hi. apply list_lookup_insert_ne. intros ->. apply Hi. list_mem.
  - intros x ->%list_elem_of_singleton. apply Hl. list_mem.
  - intros p c' rel He ->%list_elem_of_singleton. apply Hl. right. apply elem_of_parents_idx. eauto.
Qed.

Lemma override_lookup assignment : forall w i,
  (i ∉ assignment.*1 -> with_override w assignment !! i = w !! i) /\
  (forall c, with_override w assignment !! i = Some c -> (i, c) ∈ assignment \/ w !! i = Some c).
Proof.
  clear Hset. unfold with_override. induction assignment as [|[j d] l IH]; intros w i; cbn [foldl]; [split; [done | by right]|].
  destruct (IH (<[j := d]> w) i) as [IH1 IH2]. cbn [fst snd] in *. split.
  - intros Hi. rewrite IH1 by set_solver. apply list_lookup_insert_ne. intros ->. apply Hi. cbn. list_mem.
  - intros c [Hin | Hj]%IH2; [left; by right|]. apply list_lookup_insert_Some in Hj as [(-> & -> & _) | (_ & Hj)]; [left; list_mem | by right].
Qed.

Lemma length_override assignment w : length (with_override w assignment) = length w.
Proof. unfold with_override. revert w. induction assignment as [|[j d] l IH]; intros w; cbn [foldl]; [done|]. by rewrite IH, length_insert. Qed.

(** The configurations of an assignment are admitted where they are assigned. *)
Definition assignment_ok (assignment : list (nat * DivisionConfig)) : Prop :=
  forall i c, (i, c) ∈ assignment -> (i < n)%nat /\ admitted t i c.

Lemma vector_override w assignment : vector_ok w -> assignment_ok assignment -> vector_ok (with_override w assignment).
Proof.
  intros [H1 H2] Ha. split; [by rewrite length_override|]. intros i c [Hin | Hi]%override_lookup; [by apply Ha | by apply H2].
Qed.

Lemma assignment_index assignment i : assignment_ok assignment -> i ∈ assignment.*1 -> (i < n)%nat.
Proof. intros Ha ([j c] & -> & Hin)%list_elem_of_fmap. by destruct (Ha _ _ Hin). Qed.

(** Resizing every assigned buffer gives the sizes of the new vector. *)
Lemma resize_loop w w' (ops : list nat) sizes flags p :
  vector_ok w' -> (forall i, i ∈ ops -> (i < n)%nat) -> (forall i, i ∉ ops -> w' !! i = w !! i) -> length w = n ->
  sizes = sizes_of w -> packs sizes flags p -> wp E (for_each (resize_op t w') ops p) (packs (sizes_of w') flags).
Proof.
  intros Hw' Hops Hout Hlen Hsz Hp. pose proof Hlb as Hlbn. apply (wp_mono _ _ (fun p' => exists sz, packs sz flags p' /\
    (forall i, i ∈ ops -> sz !! i = sizes_of w' !! i) /\ (forall i, i ∉ ops -> sz !! i = sizes_of w !! i))).
  - apply (wp_for_each E _ (fun pre p' => exists sz, packs sz flags p' /\
      (forall i, i ∈ pre -> sz !! i = sizes_of w' !! i) /\ (forall i, i ∉ pre -> sz !! i = sizes_of w !! i))).
    2: { exists sizes. split; [done|]. split; [by intros i ?%elem_of_nil | by subst]. }
    intros pre x rest p1 Hsplit (sz & Hp1 & Hin & Hno). unfold resize_op.
    assert (x < n)%nat as Hx by (apply Hops; rewrite Hsplit; list_mem).
    apply wp_bind, wp_py_at; [by rewrite (vo_length _ Hw')|]. intros c Hc. destruct (buffer_lookup x Hx) as [b Hb].
    pose proof (vo_admitted _ Hw' x c Hc) as Hadm. rewrite (per_core_size_spec x b c Hb). cbn [mbind res_bind]. apply wp_bind.
    eapply wp_mono; [eapply (resize_packs lb (lx_limit t) (lx_alignment t) Hlive Hnames Hal (proj1 Hroom) (proj2 Hroom) E sz flags p1 x _ Hp1);
      [lia | by apply (core_size_bound x b c)..]|].
    intros [p2 d] Hp2. cbn [fst wp] in *. eexists. split; [exact Hp2|]. destruct (packs_length _ _ _ _ _ _ Hp1) as (Hls & _).
    assert (sizes_of w' !! x = Some (core_size b c)) as Hsx by (unfold sizes_of; rewrite lookup_zip_with, Hb, Hc; done).
    split; intros i Hi.
    + destruct (decide (i = x)) as [-> | Hne]; [rewrite list_lookup_insert_eq by lia; done|]. rewrite list_lookup_insert_ne by done.
      apply Hin. set_solver.
    + rewrite list_lookup_insert_ne by set_solver. apply Hno. set_solver.
  - intros p' (sz & Hp' & Hin & Hno). enough (sz = sizes_of w') by congruence. apply list_eq. intros i.
    destruct (decide (i ∈ ops)) as [Hi|Hi]; [by apply Hin|]. rewrite Hno by done. unfold sizes_of. by rewrite !lookup_zip_with, Hout.
Qed.

Lemma apply_assignment_ok assignment s : state_ok s -> assignment_ok assignment -> wp E (_apply_assignment t assignment s) state_ok.
Proof.
  intros Hs Ha. pose proof Hlb as Hlbn. pose proof Hs as [Hv (flags & Hp & Hf & Hn)]. unfold _apply_assignment. cbn zeta.
  set (reach := assignment.*1 ++ mjoin (parents_idx t <$> assignment.*1)).
  set (l := py_sorted Nat.leb (remove_dups reach)). destruct (sorted_dups reach) as [Hnd Hl]. fold l in Hnd, Hl.
  assert (forall x, x ∈ l -> (x < n)%nat) as Hb.
  { intros x [Hx | Hx]%Hl%elem_of_app; [by eapply assignment_index|]. apply list_elem_of_join in Hx as (ps & Hx & (i & -> & Hi)%list_elem_of_fmap).
    apply (index_bounded i); [by eapply assignment_index | by right]. }
  destruct (packs_length _ _ _ _ _ _ Hp) as (_ & Hlf & _).
  rewrite (count_eligible_spec _ flags) by (done || (intros x Hx; rewrite Hlf, Hlbn; by apply Hb)). cbn [mbind res_bind]. apply wp_bind.
  pose proof (vector_override _ _ Hv Ha) as Hv'.
  assert (forall i, i ∉ py_sorted Nat.leb assignment.*1 -> with_override (chosen s) assignment !! i = chosen s !! i) as Hout.
  { intros i Hi. apply override_lookup. by rewrite elem_of_py_sorted in Hi. }
  eapply wp_mono; [apply (resize_loop (chosen s) (with_override (chosen s) assignment) _ (sizes_of (chosen s)) flags); try done|].
  - intros i Hi. rewrite elem_of_py_sorted in Hi. by eapply assignment_index.
  - apply Hv.
  - intros p1 Hp1. apply (reassigned s _ flags l (assignment.*1) p1); try done.
    + intros i Hi. by apply override_lookup.
    + intros x Hx. apply Hl, elem_of_app. by left.
    + intros p c rel He Hc. apply Hl, elem_of_app. right. apply list_elem_of_join. exists (parents_idx t c).
      split; [apply elem_of_parents_idx; eauto | by apply list_elem_of_fmap_2].
Qed.

End states.
