(* ===== verification/CoOptimizerMoves.v ===== *)
(** * The moves of the joint search keep its invariant

    Each move of [SaCoOptimizingSolver] -- reorder, flip, boundary retile, recolor with
    its flood and trim, and the burst that follows -- takes a well-formed state to a
    well-formed state.  The flood is shown to end within one visit per buffer and to join
    operations only across edges whose relation accepts the two divisions. *)

From S2P Require Import Prelude PyDict PlanSolver GreedySolver FitSolver PermLayout Cooling Annealing CoreMapping CoreViews Tilings SplitSpace ResidencyEdge CoDivisions CoOptimizer TilingRuns CoOptimizerInv.

Section moves.
Context {F : Type} `{!FloatOps F} {R : Type} `{!Random F R} `{!RandBelow R}.
Context (t : topology) (E : exn -> Prop) (lb : list LifetimeBoundBuffer).
Context `{Hset : !setting E t lb}.

#[local] Notation n := (length (bufs t)).
#[local] Notation Hwt := (set_topology (F:=F) (R:=R) (E:=E) (t:=t) (lb:=lb)).
#[local] Notation Htame := (set_tame (F:=F) (R:=R) (E:=E) (t:=t) (lb:=lb)).
#[local] Notation state_ok := (state_ok t lb).
#[local] Notation vector_ok := (vector_ok t).
#[local] Notation assignment_ok := (assignment_ok t).

(** *** Lookups that cannot fail *)

Lemma source_at i : (i < n)%nat -> exists m src, menus t !! i = Some m /\ sources t !! i = Some src /\ wf_source m src /\ src ∈ sources t.
Proof.
  intros Hi. destruct (lookup_lt_is_Some_2 (menus t) i) as [m Hm]; [by rewrite (wt_menus t Hwt)|].
  destruct (lookup_lt_is_Some_2 (sources t) i) as [src Hs]; [by rewrite (wt_sources t Hwt)|].
  exists m, src. split_and!; [done | done | by eapply (wt_source t Hwt) | by eapply list_elem_of_lookup_2].
Qed.

Lemma admitted_at i m src c : menus t !! i = Some m -> sources t !! i = Some src -> admitted t i c <-> source_admits m src c.
Proof. intros Hm Hs. split; [intros (m' & s' & ? & ? & ?); congruence | by exists m, src]. Qed.

Lemma position_spec idx : (idx < n)%nat -> exists b, bufs t !! idx = Some b /\ position_of t idx = Ok (op_position b).
Proof. intros [b Hb]%lookup_lt_is_Some_2. exists b. split; [done|]. unfold position_of. by rewrite (py_at_lookup _ _ _ Hb). Qed.

Lemma position_index p idx : aget (buffer_at t) p = Some idx -> (idx < n)%nat.
Proof. intros (b & Hb & _)%(wt_position t Hwt). by eapply lookup_lt_Some. Qed.

Lemma fits_vector w : vector_ok w -> positions_fit t w.
Proof. intros Hw p idx Hp. rewrite (vo_length _ _ Hw). by eapply position_index. Qed.

Lemma run_bounds_ok w idx b p : vector_ok w -> bufs t !! idx = Some b -> op_position b = Some p ->
  wp E (_run_bounds t w p) (fun run => run ∈ runs t w /\ (run.1 <= p <= run.2)%nat).
Proof.
  intros Hw Hb Hp. destruct (run_bounds_spec t w (fits_vector w Hw) p) as (run & -> & H); [|done].
  by eapply n_positions_bound, (wt_positioned t Hwt).
Qed.

Lemma retiled_ok i src c spec : sources t !! i = Some src -> admitted t i c ->
  wp E (retiled src c spec) (fun o => forall c', o = Some c' -> admitted t i c').
Proof.
  intros Hs (m & src' & Hm & Hs' & Hc). rewrite Hs in Hs'. injection Hs' as <-.
  eapply wp_mono; [apply wp_self, (tm_retiled E t Htame); by eapply list_elem_of_lookup_2|].
  intros o Ho c' ->. exists m, src. split_and!; [done | done |]. eapply retiled_admitted; [by eapply (wt_source t Hwt) | exact Hc | exact Ho].
Qed.

Lemma assignment_aset i c a : assignment_ok a -> (i < n)%nat -> admitted t i c -> assignment_ok (aset i c a).
Proof. intros Ha Hi Hc j d [[= -> ->] | Hin]%elem_of_aset; [done | by apply Ha]. Qed.

(** *** The boundary retile *)

Lemma walk_ok w position spec forward positions : forall a,
  vector_ok w -> assignment_ok a -> wp E (walk t w position spec forward positions a) assignment_ok.
Proof.
  induction positions as [|at_ positions IH]; intros a Hw Ha; cbn [walk]; [done|].
  destruct (aget (buffer_at t) at_) as [target|] eqn:Et; [|done]. case_match; [done|].
  pose proof (position_index _ _ Et) as Hi. apply wp_bind, wp_py_at; [by rewrite (vo_length _ _ Hw)|]. intros c Hc.
  apply wp_bind, wp_py_at; [by rewrite (wt_sources t Hwt)|]. intros src Hsrc. apply wp_bind.
  eapply wp_mono; [apply (retiled_ok target src c spec Hsrc); by apply (vo_admitted _ _ Hw)|].
  intros [c'|] Hr; [|done]. apply IH; [done|]. apply assignment_aset; [done | done | by apply Hr].
Qed.

Lemma retile_boundary_ok idx c s (r : R) : state_ok s -> (idx < n)%nat -> wp E (_retile_boundary t idx c s r) (fun sr => state_ok sr.1).
Proof.
  intros Hs Hi. unfold _retile_boundary. destruct (position_spec idx Hi) as (b & Hb & ->). cbn [mbind res_bind].
  destruct (op_position b) as [p|] eqn:Ep; [|done]. pose proof (so_vector _ _ _ Hs) as Hv. apply wp_bind.
  eapply wp_mono; [by eapply run_bounds_ok|]. intros run _. destruct (random r) as [u r']. apply wp_bind.
  eapply wp_mono; [apply walk_ok; [done | by intros i d ?%elem_of_nil]|]. intros a Ha. case_match; [done|].
  apply wp_bind. eapply wp_mono; [by apply apply_assignment_ok|]. done.
Qed.

(** *** The flood *)

(** [v] holds [c] because an assigned neighbour accepts it across an edge. *)
Definition linked (a : list (nat * DivisionConfig)) (v : nat) (c : DivisionConfig) : Prop :=
  exists u cu rel, (u, cu) ∈ a /\
    (((u, v, rel) ∈ edges t /\ relation_compatible rel cu c = Ok true) \/ ((v, u, rel) ∈ edges t /\ relation_compatible rel c cu = Ok true)).

Record region_ok (anchor : nat) (config : DivisionConfig) (st : list (nat * DivisionConfig) * list nat) : Prop := {
  rg_anchor : (anchor, config) ∈ st.1;
  rg_assigned : assignment_ok st.1;
  rg_keys : NoDup st.1.*1;
  rg_heap : forall u, u ∈ st.2 -> u ∈ st.1.*1;
  rg_linked : forall v c, (v, c) ∈ st.1 -> v = anchor \/ linked st.1 v c
}.

Lemma linked_mono a a' v c : (forall uc, uc ∈ a -> uc ∈ a') -> linked a v c -> linked a' v c.
Proof. intros Hsub (u & cu & rel & Hin & H). exists u, cu, rel. split; [by apply Hsub | done]. Qed.

Lemma aset_fresh {V} (i : nat) (c : V) a : i ∉ a.*1 -> aset i c a = a ++ [(i, c)].
Proof.
  induction a as [|[j d] a IH]; intros Hi; [done|]. cbn [aset]. rewrite decide_False by (intros ->; apply Hi; cbn; list_mem).
  cbn. f_equal. apply IH. intros H. apply Hi. by right.
Qed.

(** One neighbour: it joins with an admitted, accepted configuration or not at all, and
    is pushed exactly when it joins. *)
Lemma join_ok anchor config v answer st :
  region_ok anchor config st -> (v < n)%nat ->
  wp E answer (fun o => forall c, o = Some c -> admitted t v c /\ linked st.1 v c) ->
  wp E (join v answer st) (fun st' => region_ok anchor config st' /\ (forall uc, uc ∈ st.1 -> uc ∈ st'.1) /\
    (length st'.1 + length st.2 = length st.1 + length st'.2)%nat).
Proof.
  intros Hst Hv Hans. unfold join. case_bool_decide as Hin; [done|]. apply wp_bind. eapply wp_mono; [exact Hans|].
  intros [c|] Ho; cbn [wp]; [|done]. destruct (Ho c eq_refl) as [Hadm Hl]. rewrite aget_is_Some in Hin.
  destruct Hst as [H1 H2 H3 H4 H5]. cbn [fst snd].
  assert (forall uc, uc ∈ st.1 -> uc ∈ aset v c st.1) as Hsub by (intros uc Huc; rewrite aset_fresh by done; apply elem_of_app; by left).
  split_and!; [|done|rewrite aset_fresh by done; rewrite length_app, insert_sorted_perm; cbn; lia].
  split; cbn [fst snd]; [by apply Hsub | by apply assignment_aset | by apply keys_aset_NoDup | |].
  - intros u Hu. rewrite insert_sorted_perm in Hu. rewrite keys_aset_new by done. apply elem_of_cons in Hu as [-> | Hu]; [set_solver|].
    apply elem_of_app. left. by apply H4.
  - intros v' c' Hin'. rewrite aset_fresh in Hin' by done.
    apply elem_of_app in Hin' as [Hin' | [= -> ->]%list_elem_of_singleton]; [|right; by eapply linked_mono].
    destruct (H5 v' c' Hin') as [-> | H]; [by left | right; by eapply linked_mono].
Qed.

Lemma flood_down_ok anchor config u cu c st :
  region_ok anchor config st -> (u, cu) ∈ st.1 -> c ∈ children_idx t u ->
  wp E (flood_down t u cu c st) (fun st' => region_ok anchor config st' /\ (forall uc, uc ∈ st.1 -> uc ∈ st'.1) /\
    (length st'.1 + length st.2 = length st.1 + length st'.2)%nat).
Proof.
  intros Hst Hu [rel0 He0]%elem_of_children_idx. destruct (relation_of_edge t u c rel0 He0) as (rel & Hr & He).
  destruct (wt_edge t Hwt _ _ _ He) as (Hun & Hcn & Hrel). apply join_ok; [done | done|]. rewrite Hr. cbn [mbind res_bind].
  eapply wp_mono; [apply wp_self; by eapply (tm_child E t Htame)|]. intros o Ho c' ->.
  destruct (source_at u Hun) as (pm & psrc & Hpm & Hps & _). destruct (source_at c Hcn) as (cm & csrc & Hcm & Hcs & _).
  destruct (child_for_sound pm psrc cm csrc rel cu c' (Hrel _ _ _ _ Hpm Hps Hcm Hcs) Ho) as [Hadm Hcomp].
  split; [by eapply admitted_at|]. exists u, cu, rel. split; [done | by left].
Qed.

Lemma flood_up_ok anchor config u cu p st :
  region_ok anchor config st -> (u, cu) ∈ st.1 -> p ∈ parents_idx t u ->
  wp E (flood_up t u cu p st) (fun st' => region_ok anchor config st' /\ (forall uc, uc ∈ st.1 -> uc ∈ st'.1) /\
    (length st'.1 + length st.2 = length st.1 + length st'.2)%nat).
Proof.
  intros Hst Hu [rel0 He0]%elem_of_parents_idx. destruct (relation_of_edge t p u rel0 He0) as (rel & Hr & He).
  destruct (wt_edge t Hwt _ _ _ He) as (Hpn & Hun & Hrel). apply join_ok; [done | done|]. rewrite Hr. cbn [mbind res_bind].
  eapply wp_mono; [apply wp_self; by eapply (tm_parent E t Htame)|]. intros o Ho c' ->.
  destruct (source_at p Hpn) as (pm & psrc & Hpm & Hps & _). destruct (source_at u Hun) as (cm & csrc & Hcm & Hcs & _).
  destruct (parent_for_sound pm psrc cm csrc rel c' cu (Hrel _ _ _ _ Hpm Hps Hcm Hcs) Ho) as [Hadm Hcomp].
  split; [by eapply admitted_at|]. exists u, cu, rel. split; [done | by right].
Qed.

(** A loop of joins around the popped [u]. *)
Lemma joins_ok anchor config u cu (step : nat -> list (nat * DivisionConfig) * list nat -> res (list (nat * DivisionConfig) * list nat)) l st0 :
  (forall v st, v ∈ l -> region_ok anchor config st -> (u, cu) ∈ st.1 ->
    wp E (step v st) (fun st' => region_ok anchor config st' /\ (forall uc, uc ∈ st.1 -> uc ∈ st'.1) /\
      (length st'.1 + length st.2 = length st.1 + length st'.2)%nat)) ->
  region_ok anchor config st0 -> (u, cu) ∈ st0.1 ->
  wp E (for_each step l st0) (fun st => region_ok anchor config st /\ (u, cu) ∈ st.1 /\ (length st.1 + length st0.2 = length st0.1 + length st.2)%nat).
Proof.
  intros Hstep H0 Hu. apply (wp_for_each E _ (fun _ st => region_ok anchor config st /\ (u, cu) ∈ st.1 /\
    (length st.1 + length st0.2 = length st0.1 + length st.2)%nat)); [|done].
  intros pre v rest st Hl (H1 & H2 & H3). eapply wp_mono; [apply Hstep; [rewrite Hl; list_mem | done | done]|].
  intros st' (H1' & Hsub & Hlen). split_and!; [done | by apply Hsub | lia].
Qed.

Lemma flood_ok anchor config fuel : forall st,
  region_ok anchor config st -> (n + length st.2 <= fuel + length st.1)%nat ->
  wp E (flood t fuel st) (fun a => region_ok anchor config (a, [])).
Proof.
  induction fuel as [|fuel IH]; intros [a heap] Hst Hfuel; cbn [fst snd] in *; pose proof Hst as [H1 H2 H3 H4 H5]; cbn [fst snd] in *.
  all: destruct heap as [|u heap]; cbn [flood fst snd]; [split; cbn; try done; by intros u ?%elem_of_nil|].
  { assert (length a.*1 <= n)%nat as Hle by (apply NoDup_below; [done|]; intros j Hj; by eapply assignment_index).
    rewrite length_fmap in Hle. cbn in Hfuel. lia. }
  assert (u ∈ a.*1) as [cu Hcu]%aget_is_Some by (apply H4; list_mem). rewrite Hcu. apply aget_Some_elem in Hcu. apply wp_bind.
  assert (region_ok anchor config (a, heap)) as Hpop by (split; try done; cbn; intros v Hv; apply H4; by right).
  eapply wp_mono; [apply (joins_ok anchor config u cu); [|exact Hpop | exact Hcu]; intros v st Hv Hr Huv; by apply flood_down_ok|].
  intros st1 (R1 & U1 & L1). cbn [fst snd] in *. apply wp_bind.
  eapply wp_mono; [apply (joins_ok anchor config u cu); [|exact R1 | exact U1]; intros v st Hv Hr Huv; by apply flood_up_ok|].
  intros st2 (R2 & _ & L2). apply IH; [done|]. cbn in Hfuel. lia.
Qed.

Lemma flood_region_ok anchor config : (anchor < n)%nat -> admitted t anchor config ->
  wp E (_flood_region t anchor config) (fun a => region_ok anchor config (a, [])).
Proof.
  intros Ha Hc. apply flood_ok; [|cbn; lia]. split; cbn; [list_mem | | apply NoDup_singleton | |].
  - by intros i c [= -> ->]%list_elem_of_singleton.
  - by intros u Hu.
  - intros v c [= -> ->]%list_elem_of_singleton. by left.
Qed.

(** *** The trim *)

Lemma trim_one_ok run i c a : assignment_ok a -> (i < n)%nat -> admitted t i c -> wp E (trim_one t run (i, c) a) assignment_ok.
Proof.
  intros Ha Hi Hc. unfold trim_one. cbn [fst snd]. case_match; [done|]. destruct (position_spec i Hi) as (b & Hb & ->). cbn [mbind res_bind].
  match goal with |- wp _ (if ?x then _ else _) _ => destruct x end; [done|].
  apply wp_bind, wp_py_at; [by rewrite (wt_sources t Hwt)|]. intros src Hs. apply wp_bind.
  eapply wp_mono; [by apply (retiled_ok i src c)|]. intros [c'|] Hr; cbn [wp]; [|done]. apply assignment_aset; [done | done | by apply Hr].
Qed.

Lemma trim_ok w anchor a : vector_ok w -> (anchor < n)%nat -> assignment_ok a -> wp E (_trim_tilings_to_anchor_run t w anchor a) assignment_ok.
Proof.
  intros Hw Hanc Ha. unfold _trim_tilings_to_anchor_run. case_match; [done|]. destruct (position_spec anchor Hanc) as (b & Hb & ->). cbn [mbind res_bind].
  apply wp_bind. apply (wp_mono _ _ (fun _ => True)).
  - destruct (op_position b) as [p|] eqn:Ep; [|done]. destruct (run_bounds_spec t (with_override w a)
      (fits_vector _ (vector_override t w a Hw Ha)) p) as (run & -> & _); [|done]. by eapply n_positions_bound, (wt_positioned t Hwt).
  - intros run _. apply (wp_for_each E _ (fun _ => assignment_ok)); [|done]. intros pre [i c] rest a' Hl Ha'.
    destruct (Ha i c) as [Hi Hc]; [rewrite Hl; list_mem|]. by apply trim_one_ok.
Qed.

(** *** Bursts *)

Lemma with_packer s p flags : state_ok s -> packs lb (lx_limit t) (lx_alignment t) (sizes_of t (chosen s)) flags p ->
  flags_ok t (chosen s) flags -> n_eligible s = zsum (Z.b2z <$> flags) -> state_ok (mkState (chosen s) p (n_eligible s)).
Proof. intros Hs Hp Hf Hn. split; cbn; [apply Hs|]. by exists flags. Qed.

(** A packer that keeps the sizes and the flags keeps the state. *)
Lemma repack s (m : res (native * Z)) :
  state_ok s -> (forall sizes flags, packs lb (lx_limit t) (lx_alignment t) sizes flags (packer s) ->
    wp E m (fun pd => packs lb (lx_limit t) (lx_alignment t) sizes flags pd.1)) ->
  wp E m (fun pd => state_ok (mkState (chosen s) pd.1 (n_eligible s))).
Proof.
  intros Hs Hm. destruct (so_packed _ _ _ Hs) as (flags & Hp & Hf & Hn). eapply wp_mono; [by apply Hm|].
  intros pd Hpd. eapply with_packer; [done | exact Hpd | done | done].
Qed.

Lemma rotate_state s i j : state_ok s -> (i < n)%nat -> (j < n)%nat ->
  wp E (n_rotate i j (packer s)) (fun pd => state_ok (mkState (chosen s) pd.1 (n_eligible s))).
Proof.
  intros Hs Hi Hj. apply repack; [done|]. intros sizes flags Hp. pose proof (set_length (F:=F) (R:=R) (E:=E) (t:=t) (lb:=lb)).
  apply (rotate_packs lb _ _ set_live set_names set_alignment (proj1 set_room) (proj2 set_room)); [done | lia | lia].
Qed.

Lemma swap_state s i : state_ok s -> (S i < n)%nat ->
  wp E (n_swap i (packer s)) (fun pd => state_ok (mkState (chosen s) pd.1 (n_eligible s))).
Proof.
  intros Hs Hi. apply repack; [done|]. intros sizes flags Hp. pose proof (set_length (F:=F) (R:=R) (E:=E) (t:=t) (lb:=lb)).
  apply (swap_packs lb _ _ set_live set_names set_alignment (proj1 set_room) (proj2 set_room)); [done | lia].
Qed.

Lemma burst_step_ok s (r : R) : state_ok s -> (0 < n)%nat ->
  wp E (burst_step t (packer s, r)) (fun pr => state_ok (mkState (chosen s) pr.1 (n_eligible s))).
Proof.
  intros Hs Hn. unfold burst_step. cbn [fst snd]. destruct (randrange_spec n r Hn) as (i & r1 & -> & Hi). cbn [mbind res_bind fst snd].
  destruct (randrange_spec n r1 Hn) as (j & r2 & -> & Hj). cbn [mbind res_bind fst snd]. apply wp_bind.
  eapply wp_mono; [by apply rotate_state|]. intros [p d] Hp. cbn [fst snd] in *. case_match; [|done]. apply wp_bind.
  eapply wp_mono; [apply (rotate_state (mkState (chosen s) p (n_eligible s)) j i Hp Hj Hi)|]. done.
Qed.

Lemma burst_loop_ok steps : forall s (r : R), state_ok s -> (0 < n)%nat -> wp E (burst_loop t steps s r) (fun sr => state_ok sr.1).
Proof.
  induction steps as [|steps IH]; intros s r Hs Hn; cbn [burst_loop]; [done|]. case_match; [done|]. apply wp_bind.
  eapply wp_mono; [by apply burst_step_ok|]. intros pr Hpr. by apply IH.
Qed.

Lemma burst_ok s (r : R) : state_ok s -> wp E (_burst t s r) (fun sr => state_ok sr.1).
Proof. intros Hs. unfold _burst. destruct (Nat.ltb_spec n 2); [done|]. apply burst_loop_ok; [done | lia]. Qed.

(** *** The moves *)

Lemma choice_ok {A} (l : list A) (r : R) : l <> [] -> wp E (choice l r) (fun xr => xr.1 ∈ l).
Proof. intros Hl. by destruct (choice_spec l r Hl) as (x & r' & -> & Hx). Qed.

Lemma reorder_ok s (r : R) : state_ok s -> (0 < n)%nat -> wp E (reorder_move t s r) (fun sr => state_ok sr.1).
Proof.
  intros Hs Hn. unfold reorder_move. destruct (randrange_spec n r Hn) as (i & r1 & -> & Hi). cbn [mbind res_bind fst snd].
  destruct (randrange_spec n r1 Hn) as (j & r2 & -> & Hj). cbn [mbind res_bind fst snd]. apply wp_bind.
  eapply wp_mono; [by apply rotate_state|]. done.
Qed.

Lemma flip_ok s (r : R) : state_ok s -> flippable_ops t <> [] -> wp E (flip_move t s r) (fun sr => state_ok sr.1).
Proof.
  intros Hs Hne. unfold flip_move. apply wp_bind. eapply wp_mono; [by apply choice_ok|]. intros [idx r1] Hin. cbn [fst snd] in *.
  pose proof (wt_flips t Hwt) as Hfl. rewrite Forall_forall in Hfl. specialize (Hfl idx Hin). pose proof (so_vector _ _ _ Hs) as Hv.
  destruct (source_at idx Hfl) as (m & src & Hm & Hsrc & Hwf & Hel). rewrite (py_at_lookup _ _ _ Hsrc). cbn [mbind res_bind].
  apply wp_bind, wp_py_at; [by rewrite (vo_length _ _ Hv)|]. intros c Hc. apply wp_bind.
  eapply wp_mono; [apply wp_self; by apply (tm_neighbours E t Htame)|]. intros options Hopt. case_bool_decide; [done|]. apply wp_bind.
  eapply wp_mono; [by apply choice_ok|]. intros [c' r2] Hc'. cbn [fst snd] in *. apply wp_bind.
  assert (admitted t idx c') as Hadm.
  { apply (admitted_at idx m src c' Hm Hsrc). eapply neighbours_admitted; [exact Hwf | | exact Hopt | exact Hc'].
    apply (admitted_at idx m src c Hm Hsrc). by apply (vo_admitted _ _ Hv). }
  apply (wp_mono _ _ (fun sr => state_ok sr.1)); [|intros sr Hsr; by apply burst_ok].
  case_bool_decide; [|by apply retile_boundary_ok]. apply wp_bind. eapply wp_mono; [by apply atomic_flip_ok|]. done.
Qed.

Lemma recolor_ok s (r : R) : state_ok s -> anchor_candidates t <> [] -> wp E (_recolor t s r) (fun sr => state_ok sr.1).
Proof.
  intros Hs Hne. unfold _recolor. apply wp_bind. eapply wp_mono; [by apply choice_ok|]. intros [a r1] Hin. cbn [fst snd] in *.
  pose proof (wt_anchors t Hwt) as Han. rewrite Forall_forall in Han. specialize (Han a Hin). pose proof (so_vector _ _ _ Hs) as Hv.
  destruct (source_at a Han) as (m & src & Hm & Hsrc & Hwf & Hel). rewrite (py_at_lookup _ _ _ Hsrc). cbn [mbind res_bind].
  apply wp_bind, wp_py_at; [by rewrite (vo_length _ _ Hv)|]. intros c Hc. apply wp_bind.
  eapply wp_mono; [apply wp_self; by apply (tm_anchor E t Htame)|]. intros [[config|] r2] Hanc; cbn [fst snd]; [|done].
  assert (admitted t a config) as Hadm.
  { apply (admitted_at a m src config Hm Hsrc). eapply anchor_admitted; [exact Hwf | | exact Hanc].
    apply (admitted_at a m src c Hm Hsrc). by apply (vo_admitted _ _ Hv). }
  apply wp_bind. eapply wp_mono; [by apply flood_region_ok|]. intros region Hreg. apply wp_bind.
  eapply wp_mono; [apply trim_ok; [done | done | exact (rg_assigned _ _ _ Hreg)]|]. intros assignment Ha. apply wp_bind.
  eapply wp_mono; [by apply apply_assignment_ok|]. intros s' Hs'. by apply burst_ok.
Qed.

(** The moves [_applicable_moves] can offer. *)
Definition applicable (m : move_name) : Prop :=
  match m with Reorder => (2 <= n)%nat | Flip => flippable_ops t <> [] | Recolor => anchor_candidates t <> [] end.

Lemma applicable_spec s m : m ∈ _applicable_moves t s -> applicable m.
Proof.
  unfold _applicable_moves. rewrite !elem_of_app. intros [H | [H | H]].
  - destruct (2 <=? n)%nat eqn:E2; [|by apply elem_of_nil in H]. apply Nat.leb_le in E2. destruct (negb _); [|by apply elem_of_nil in H].
    apply list_elem_of_singleton in H as ->. done.
  - case_bool_decide; [by apply elem_of_nil in H|]. by apply list_elem_of_singleton in H as ->.
  - case_bool_decide; [by apply elem_of_nil in H|]. by apply list_elem_of_singleton in H as ->.
Qed.

Lemma move_ok m s (r : R) : state_ok s -> (forall m', m = Some m' -> applicable m') -> wp E (_execute_move t m s r) (fun sr => state_ok sr.1).
Proof.
  intros Hs Hm. destruct m as [[| |]|]; cbn [_execute_move]; [| | |done]; specialize (Hm _ eq_refl); cbn in Hm.
  - apply reorder_ok; [done | lia].
  - by apply flip_ok.
  - by apply recolor_ok.
Qed.

(** C23. Every move keeps the joint search's invariant: from a state whose divisions are
    offered by their operations, whose packer holds exactly these divisions' per-core
    sizes and eligibilities and whose count is the number of eligible buffers, any
    applicable move -- reordering, flipping one division or one tiling boundary,
    recoloring a region, with its burst -- returns such a state; it fails only with an
    exception the geometry itself raises, so with total geometry it always returns. *)
Theorem moves_keep_invariant m s (r : R) :
  state_ok s -> m ∈ _applicable_moves t s -> wp E (_execute_move t (Some m) s r) (fun sr => state_ok sr.1).
Proof. intros Hs Hm. apply move_ok; [done|]. intros m' [= <-]. by eapply applicable_spec. Qed.

(** The flood ends and colours consistently: started from an offered configuration of
    any buffer, [_flood_region] visits every buffer at most once, so its fuel -- the
    number of buffers -- is never spent; it keeps the anchor's configuration, assigns
    each buffer once, only configurations the buffer is offered, and every other buffer
    of the region is tied to one already in it by an edge whose relation accepts the
    two divisions. *)
Theorem flood_colours_consistently anchor config :
  (anchor < n)%nat -> admitted t anchor config ->
  wp E (_flood_region t anchor config) (fun a =>
    (anchor, config) ∈ a /\ NoDup a.*1 /\ (forall i c, (i, c) ∈ a -> (i < n)%nat /\ admitted t i c) /\
    (forall v c, (v, c) ∈ a -> v = anchor \/ linked a v c)).
Proof.
  intros Ha Hc. eapply wp_mono; [by apply flood_region_ok|]. intros a [H1 H2 H3 _ H5]. split_and!; [done | done | exact H2 | done].
Qed.

(** *** The resident count *)

Lemma zsum_flags (flags : list bool) : zsum (Z.b2z <$> flags) = cnt (fun i => flag flags i = true) (seq 0 (length flags)).
Proof.
  enough (forall k (l : list bool), (forall i, l !! i = flags !! (k + i)%nat) ->
    zsum (Z.b2z <$> l) = cnt (fun i => flag flags i = true) (seq k (length l))) as H by (by apply (H 0%nat)).
  intros k l. revert k. induction l as [|f l IH]; intros k Hl; [done|]. cbn [length seq]. rewrite fmap_cons, zsum_cons, cnt_cons, (IH (S k)).
  - f_equal. specialize (Hl 0%nat). rewrite Nat.add_0_r in Hl. cbn in Hl. unfold flag. rewrite <- Hl. by destruct f.
  - intros i. specialize (Hl (S i)). change ((f :: l) !! S i) with (l !! i) in Hl. rewrite Hl. f_equal. lia.
Qed.

(** Equal counts of nested properties: they coincide on the list. *)
Lemma cnt_nested {A} (P Q : A -> Prop) `{HP : !forall x, Decision (P x)} `{HQ : !forall x, Decision (Q x)} l :
  (forall x, x ∈ l -> P x -> Q x) -> cnt P l <= cnt Q l /\ (cnt P l = cnt Q l <-> forall x, x ∈ l -> Q x -> P x).
Proof.
  induction l as [|x l IH]; intros Hsub; [split; [done|]; split; [by intros _ y ?%elem_of_nil | done]|].
  destruct (IH ltac:(intros y Hy; apply Hsub; by right)) as [Hle Hiff]. rewrite !cnt_cons. pose proof (Hsub x ltac:(list_mem)) as Hx.
  destruct (decide (P x)) as [p|p], (decide (Q x)) as [q|q]; try (by destruct q; apply Hx); split; try lia; split; try lia.
  - intros He y [-> | Hy]%elem_of_cons; [done|]. apply Hiff; [lia | done].
  - intros H. enough (cnt P l = cnt Q l) by lia. apply Hiff. intros y Hy. apply H. by right.
  - intros H. destruct p. apply (H x); [list_mem | done].
  - intros He y [-> | Hy]%elem_of_cons; [done|]. apply Hiff; [lia | done].
  - intros H. enough (cnt P l = cnt Q l) by lia. apply Hiff. intros y Hy. apply H. by right.
Qed.

(** The stopping test is exact: comparing the packer's count of placed buffers with the
    tracked number of eligible ones, [_all_eligible_resident] answers yes exactly when
    every buffer that is eligible under the current divisions has an address. *)
Theorem resident_test_exact s :
  state_ok s ->
  _all_eligible_resident s = true <->
  forall i, _eligible t (chosen s) i = Ok true -> exists x, n_addresses (packer s) !! i = Some (Some x).
Proof.
  intros Hs. destruct (so_packed _ _ _ Hs) as (flags & Hp & Hf & Hn). pose proof (set_length (F:=F) (R:=R) (E:=E) (t:=t) (lb:=lb)) as Hlb.
  destruct (packs_placed lb (lx_limit t) (lx_alignment t) (set_alignment (F:=F) (R:=R) (E:=E) (t:=t) (lb:=lb)) _ _ _ Hp) as (_ & Honly & Hcnt).
  destruct (packs_length _ _ _ _ _ _ Hp) as (_ & Hlf & _ & _ & Hla). unfold _all_eligible_resident. rewrite Z.eqb_eq, Hcnt, Hn, zsum_flags, Hlf.
  destruct (cnt_nested (fun i => is_Some (addr_of (n_addresses (packer s)) i)) (fun i => flag flags i = true) (seq 0 (length lb))) as [_ ->].
  { intros i Hi [x Hx]. destruct (flag flags i) eqn:Ef; [done|]. destruct (Honly i x Hi Ef Hx). }
  assert (forall i f, flags !! i = Some f -> i ∈ seq 0 (length lb)) as Hseq by (intros i f Hi%lookup_lt_Some; apply elem_of_seq; lia).
  split.
  - intros H i Hi. assert (i < n)%nat as Hlt.
    { unfold _eligible in Hi. apply bind_Ok in Hi as (b & Hb%py_at_Ok & _). by eapply lookup_lt_Some. }
    destruct (lookup_lt_is_Some_2 flags i ltac:(lia)) as [f Hfi]. pose proof (Hf i f Hfi) as He. rewrite Hi in He. injection He as <-.
    destruct (H i (Hseq i true Hfi) (flag_lookup _ _ _ Hfi)) as [x Hx]. exists x. unfold addr_of in Hx.
    destruct (n_addresses (packer s) !! i) as [a|]; [cbn in Hx; by rewrite Hx | done].
  - intros H i [_ Hi]%elem_of_seq Hfl. destruct (lookup_lt_is_Some_2 flags i ltac:(lia)) as [f Hfi]. rewrite (flag_lookup _ _ _ Hfi) in Hfl. subst f.
    destruct (H i (Hf i true Hfi)) as [x Hx]. exists x. unfold addr_of. by rewrite Hx.
Qed.
End moves.
