(* ===== verification/CoOptimizerSearch.v ===== *)
(** * The annealing loop of the joint search

    The score of a state, the choice of a move, the Metropolis test and the loop: every
    state the loop holds satisfies the invariant, the best one is kept with its score,
    and that score never exceeds the seed's. *)

From S2P Require Import Prelude PyDict PlanSolver GreedySolver FitSolver PermLayout Cooling Annealing CoreMapping CoreViews Tilings SplitSpace ResidencyEdge CoDivisions CoOptimizer TilingRuns CoOptimizerInv CoOptimizerMoves.

(** What the loop relies on of the floats, where their failure is not allowed for: the
    move weights have a positive total, and temperatures cooled from a unit or from a
    median of positive score changes are not zero. *)
Definition start_temperature {F} `{!FloatOps F} (t0 : F) : Prop :=
  t0 = f_Z 1 \/ exists l, l <> [] /\ Forall (fun d => 0 < d) l /\ t0 = median l.

Record numerics {F} `{!FloatOps F} (E : exn -> Prop) : Prop := {
  nu_weights : E ValueError \/ forall ms total, ms <> [] -> ms `sublist_of` [Reorder; Flip; Recolor] ->
    last (cumulative (move_weight <$> ms)) = Some total -> f_ltb (f_Z 0) (f_add total (f_Z 0) : F) = true;
  nu_start : E ZeroDivisionError \/ forall t0 : F, start_temperature t0 -> f_eqb t0 (f_Z 0) = false;
  nu_cooled : E ZeroDivisionError \/ forall (t0 T : F) steps step, start_temperature t0 -> (step < steps)%nat ->
    cooled t0 steps step = Ok T -> f_eqb T (f_Z 0) = false
}.

Section search.
Context {F : Type} `{!FloatOps F} {R : Type} `{!Random F R} `{!RandBelow R}.
Context (t : topology) (E : exn -> Prop) (lb : list LifetimeBoundBuffer).
Context `{Hset : !setting E t lb}.
Context (cost_expr : option (list cost_symbol * (list Z -> res Z))) (fixed_us : Z -> Z).
Context (Hprice : forall f w resident, _build_score_fn t cost_expr = Some f -> vector_ok t w -> wp E (f w resident) (fun _ => True)).
Context (Hnum : numerics (F:=F) E).

#[local] Notation n := (length (bufs t)).
#[local] Notation Hwt := (set_topology (F:=F) (R:=R) (E:=E) (t:=t) (lb:=lb)).
#[local] Notation state_ok := (state_ok t lb).
#[local] Notation vector_ok := (vector_ok t).
#[local] Notation score := (_score t cost_expr fixed_us).

(** ** Scores *)

Lemma joint_addresses_length s : state_ok s -> length (n_addresses (packer s)) = n.
Proof.
  intros [_ (flags & Hp & _)]. destruct (packs_length _ _ _ _ _ _ Hp) as (_ & _ & _ & _ & Ha).
  by rewrite Ha, (set_length (F:=F) (R:=R) (E:=E) (t:=t) (lb:=lb)).
Qed.

Lemma companion_charge_ok addresses run position idx :
  length addresses = n -> aget (buffer_at t) position = Some idx -> wp E (companion_charge t addresses run position) (fun _ => True).
Proof.
  intros Ha Hp. unfold companion_charge. rewrite Hp. cbn [mbind res_bind]. pose proof (position_index t E lb position idx Hp) as Hi.
  apply wp_bind, wp_py_at; [done|]. intros b Hb. apply wp_bind.
  eapply wp_mono; [apply (wp_py_map E _ (fun _ _ => True)); intros [c rel] Hin%elem_of_children|].
  - destruct (wt_edge t Hwt _ _ _ Hin) as (_ & Hc & _). destruct (position_spec t c Hc) as (b' & _ & Hpos). cbn [fst]. rewrite Hpos. done.
  - intros inside _. apply wp_bind, wp_py_at; [lia|]. intros addr _. case_match; done.
Qed.

Lemma companions_ok w addresses : vector_ok w -> length addresses = n -> wp E (_companions t fixed_us w addresses) (fun _ => True).
Proof.
  intros Hw Ha. unfold _companions. apply wp_bind. apply (wp_mono _ _ (fun _ => True)); [|done]. unfold _companion_charges. case_match; [done|].
  pose proof (fits_vector t E lb w Hw) as Hfit. rewrite (runs_spec t w Hfit). cbn [mbind res_bind]. apply wp_bind.
  eapply wp_mono; [apply (wp_py_map E _ (fun _ _ => True))|done]. intros run Hrun. unfold run_charges. rewrite (tiling_at_spec t w Hfit). cbn [mbind res_bind].
  destruct (is_untiled (spec_at t w run.1)) eqn:Eu; [done|]. apply wp_bind.
  eapply wp_mono; [apply (wp_py_map E _ (fun _ _ => True))|done]. intros p Hp%elem_of_seq.
  destruct (tiled_run_buffers t w run p Hrun Eu ltac:(lia)) as [idx Hidx]. by eapply companion_charge_ok.
Qed.

Lemma score_ok s : state_ok s -> wp E (score s) (fun z => score s = Ok z).
Proof.
  intros Hs. apply wp_self. unfold _score. apply wp_bind.
  eapply wp_mono; [apply companions_ok; [apply Hs | by apply joint_addresses_length]|]. intros companions _.
  destruct (_build_score_fn t cost_expr) as [f|] eqn:Ef; [|done]. apply wp_bind.
  eapply wp_mono; [apply Hprice; [done | apply Hs]|]. done.
Qed.

(** ** Choosing a move *)

Lemma f_bisect_le cum (x : F) fuel : forall lo hi, (lo <= hi)%nat -> (f_bisect fuel cum x lo hi <= hi)%nat.
Proof.
  induction fuel as [|fuel IH]; intros lo hi H; cbn [f_bisect]; [done|]. destruct (Nat.ltb_spec lo hi) as [Hlt|]; [|done].
  pose proof (Nat.div_lt_upper_bound (lo + hi) 2 hi ltac:(lia) ltac:(lia)). pose proof (Nat.div_le_lower_bound (lo + hi) 2 lo ltac:(lia) ltac:(lia)).
  case_match; [etrans; [apply IH; lia | lia] | apply IH; lia].
Qed.

Lemma length_cumulative (ws : list F) : length (cumulative ws) = length ws.
Proof.
  assert (forall l a, length (f_accumulate a l) = length l) as H by (induction l as [|x l IH]; intros a; cbn; [done | by rewrite IH]).
  destruct ws as [|w ws]; cbn; [done | by rewrite H].
Qed.

Lemma applicable_sublist s : _applicable_moves t s `sublist_of` [Reorder; Flip; Recolor].
Proof.
  unfold _applicable_moves. apply (sublist_app _ [Reorder] _ [Flip; Recolor]); [case_match; [done | apply sublist_nil_l]|].
  apply (sublist_app _ [Flip] _ [Recolor]); case_match; apply sublist_nil_l || done.
Qed.

Lemma choose_move_ok s (r : R) : wp E (_choose_move t s r) (fun mr => forall m, mr.1 = Some m -> m ∈ _applicable_moves t s).
Proof.
  unfold _choose_move. case_bool_decide as Hne; [done|]. apply wp_bind. apply (wp_mono _ _ (fun mr => mr.1 ∈ _applicable_moves t s)).
  2: { intros mr Hm. cbn. by intros m [= <-]. }
  unfold f_choices. set (ms := _applicable_moves t s) in *. destruct (last (cumulative (move_weight <$> ms))) as [total|] eqn:El.
  2: { apply last_None in El. apply (f_equal length) in El. rewrite length_cumulative, length_fmap in El. by destruct ms. }
  cbn [mbind res_bind]. apply wp_bind, wp_raise_if.
  - intros Hb%negb_true_iff. destruct (nu_weights E Hnum) as [He | Hw]; [done|].
    rewrite (Hw ms total Hne (applicable_sublist s) El) in Hb. done.
  - intros _. destruct (random r) as [u r']. apply wp_bind, wp_py_at; [|by intros x Hx%list_elem_of_lookup_2].
    eapply Nat.le_lt_trans; [apply f_bisect_le; lia|]. rewrite length_fmap. destruct ms; [done | cbn; lia].
Qed.

(** ** The loop *)

Definition temperature_ok (T : F) : Prop := E ZeroDivisionError \/ f_eqb T (f_Z 0) = false.

Lemma metropolis_ok delta T (r : R) : temperature_ok T -> wp E (metropolis delta T r) (fun _ => True).
Proof.
  intros HT. unfold metropolis. case_match; [done|]. destruct (random r) as [u r']. apply wp_bind, wp_raise_if; [|done].
  intros He. destruct HT as [? | HT]; [done|]. congruence.
Qed.

Context (base : Z).

(** The live state has the current score, the best state its own, no worse than [base]. *)
Record joint_ok (cur : Z) (j : joint (R:=R)) : Prop := {
  jo_live : state_ok (live j) /\ score (live j) = Ok cur;
  jo_best : state_ok (best_snap j) /\ score (best_snap j) = Ok (best_score j);
  jo_base : best_score j <= base
}.

Lemma note_best_ok cur j s (r : R) z : joint_ok cur j -> state_ok s -> score s = Ok z -> joint_ok z (note_best z s r j).
Proof. intros [H1 H2 H3] Hs Hz. unfold note_best. destruct (Z.ltb_spec z (best_score j)); split; cbn; done || lia. Qed.

Lemma perm_entry_ok s k : state_ok s -> (k < n)%nat -> exists x, n_permutation (packer s) !! k = Some x /\ (x < n)%nat.
Proof.
  intros [_ (flags & [[r Hr] _ _] & _)] Hk. rewrite (rel_permutation _ _ _ _ _ Hr).
  pose proof (set_length (F:=F) (R:=R) (E:=E) (t:=t) (lb:=lb)) as Hl. pose proof (rel_perm _ _ _ _ _ Hr) as Hp. rewrite Hl in Hp.
  destruct (lookup_lt_is_Some_2 (r_permutation r) k) as [x Hx]; [by rewrite Hp, length_seq|]. exists x. split; [done|].
  apply list_elem_of_lookup_2 in Hx. rewrite Hp, elem_of_seq in Hx. lia.
Qed.

Lemma sweep_ok i upper s : state_ok s -> (i < n)%nat -> (upper < n)%nat ->
  wp E (sweep t i upper (packer s)) (fun sw => state_ok (mkState (chosen s) sw.1 (n_eligible s)) /\ length sw.2 = n).
Proof.
  intros Hs Hi Hu. unfold sweep. cbn zeta. apply wp_bind.
  apply (wp_mono _ _ (fun sw => state_ok (mkState (chosen s) sw.1 (n_eligible s)) /\ length sw.2 = n)).
  - case_match; [cbn; rewrite length_replicate; split; [by destruct s | done]|]. apply wp_bind. eapply wp_mono; [apply (rotate_state t E lb s i 0); [done | done | lia]|].
    intros pd Hp. cbn. by rewrite length_insert, length_replicate.
  - intros sw Hsw. apply (wp_for_each E _ (fun _ sw => state_ok (mkState (chosen s) sw.1 (n_eligible s)) /\ length sw.2 = n)); [|done].
    intros pre p rest [p1 qs] Hl [Hs1 Hq]. cbn [fst snd] in *. assert (p ∈ seq 1 upper) as Hp%elem_of_seq by (rewrite Hl; list_mem).
    unfold sweep_step. cbn [fst snd]. apply wp_bind.
    eapply wp_mono; [apply (swap_state t E lb (mkState (chosen s) p1 (n_eligible s)) (p - 1) Hs1); lia|].
    intros pd Hp2. cbn [fst snd wp] in *. split; [done|]. case_match; [done | by rewrite length_insert].
Qed.

Lemma try_positions_ok snap T cur order : forall p pos j,
  state_ok snap -> score snap = Ok cur -> temperature_ok T -> state_ok (mkState (chosen snap) p (n_eligible snap)) ->
  (pos < n)%nat -> (forall k, k ∈ order -> (k < n)%nat) -> joint_ok cur j ->
  wp E (try_positions t cost_expr fixed_us snap T cur p pos order j) (fun cj => joint_ok cj.1 cj.2).
Proof.
  induction order as [|k order IH]; intros p pos j Hs Hc HT Hp Hpos Hord Hj; cbn [try_positions].
  - destruct Hj as [_ H2 H3]. by split.
  - apply wp_bind. eapply wp_mono; [apply (rotate_state t E lb (mkState (chosen snap) p (n_eligible snap)) pos k Hp Hpos); apply Hord; list_mem|].
    intros [p2 d] Hp2. cbn [fst snd chosen n_eligible packer] in *. apply wp_bind. eapply wp_mono; [by apply score_ok|]. intros z Hz. apply wp_bind.
    eapply wp_mono; [by apply metropolis_ok|]. intros [[] r'] _; cbn [fst snd wp]; [by eapply note_best_ok|].
    apply IH; try done; [apply Hord; list_mem | intros; apply Hord; by right|]. destruct Hj as [H1 H2 H3]. by split.
Qed.

Lemma step_reorder_ok T cur j : (0 < n)%nat -> temperature_ok T -> joint_ok cur j ->
  wp E (_step_reorder t cost_expr fixed_us T cur j) (fun cj => joint_ok cj.1 cj.2).
Proof.
  intros Hn HT Hj. pose proof Hj as [[Hs Hc] H2 H3]. unfold _step_reorder. cbn zeta. apply wp_bind.
  eapply wp_mono; [apply (wp_py_map E _ (fun _ _ => True)); intros k [_ Hk]%elem_of_seq|].
  { destruct (perm_entry_ok (live j) k Hs ltac:(lia)) as (x & Hx & Hxn). unfold view_at. rewrite Hx. cbn [mbind res_bind].
    unfold n_is_fully_allocated. destruct (so_packed _ _ _ Hs) as (flags & Hp & _). destruct (packs_length _ _ _ _ _ _ Hp) as (_ & _ & _ & Hst & _).
    rewrite (set_length (F:=F) (R:=R) (E:=E) (t:=t) (lb:=lb)) in Hst.
    apply wp_bind, wp_raise_if; [|done]. rewrite Hst. intros Hb%negb_true_iff%Nat.ltb_ge. lia. }
  intros allocated Hal. pose proof (Forall2_length _ _ _ Hal) as Hlen. rewrite length_seq in Hlen.
  assert (allocated <> []) as Hne by (intros ->; cbn in Hlen; lia). destruct (move_weights_pos allocated Hne) as [Hw1 Hw2].
  destruct (choices_spec (move_weights allocated) (rng j) Hw1 Hw2) as (i & r' & Hch & Hi). rewrite Hch. cbn [mbind res_bind fst snd].
  pose proof (upper_bound_lt allocated i Hne) as Hu. unfold move_weights in Hi. rewrite length_fmap in Hi. apply wp_bind.
  eapply wp_mono; [apply sweep_ok; [done | lia | lia]|]. intros [p qs] [Hp Hq]. cbn [fst snd] in *.
  apply try_positions_ok; try done; [lia|].
  intros k Hk. unfold insertion_points in Hk. rewrite elem_of_py_sorted, list_elem_of_filter, elem_of_seq in Hk. lia.
Qed.

Lemma step_ok m T cur j : applicable t m -> temperature_ok T -> joint_ok cur j ->
  wp E (_step t cost_expr fixed_us m T cur j) (fun cj => joint_ok cj.1 cj.2).
Proof.
  intros Hm HT Hj. pose proof Hj as [[Hs Hc] H2 H3].
  assert (forall m', m' = m -> wp E (sr ← _execute_move t (Some m') (live j) (rng j); new ← score sr.1; ar ← metropolis (new - cur) T sr.2;
    if ar.1 : bool then Ok (new, note_best new sr.1 ar.2 j) else Ok (cur, mkJoint (live j) ar.2 (best_score j) (best_snap j)))
    (fun cj => joint_ok cj.1 cj.2)) as Hgen.
  { intros m' ->. apply wp_bind. eapply wp_mono; [apply (move_ok t E lb); [done | by intros m' [= <-]]|]. intros [s' r'] Hs'. cbn [fst snd] in *.
    apply wp_bind. eapply wp_mono; [by apply score_ok|]. intros z Hz. apply wp_bind. eapply wp_mono; [by apply metropolis_ok|].
    intros [[] r2] _; cbn [fst snd wp]; [by eapply note_best_ok | by split]. }
  destruct m; cbn [_step]; [|by apply Hgen..]. apply step_reorder_ok; [cbn in Hm; lia | done | done].
Qed.

Lemma cooled_ok t0 steps step : start_temperature t0 -> (step < steps)%nat -> wp E (cooled t0 steps step) temperature_ok.
Proof.
  intros Ht Hs. destruct (cooled t0 steps step) as [T|e] eqn:Ec; cbn.
  - destruct (nu_cooled E Hnum) as [? | H]; [by left|]. right. by eapply H.
  - unfold cooled in Ec. unfold raise_if in Ec. destruct (f_eqb t0 (f_Z 0)) eqn:E0; cbn in Ec; [|done]. injection Ec as <-.
    destruct (nu_start E Hnum) as [? | H]; [done|]. rewrite (H t0 Ht) in E0. done.
Qed.

Lemma anneal_steps_ok t0 steps todo : forall cur j,
  start_temperature t0 -> (forall k, k ∈ todo -> (k < steps)%nat) -> joint_ok cur j ->
  wp E (anneal_steps t cost_expr fixed_us t0 steps todo cur j) (fun cj => joint_ok cj.1 cj.2).
Proof.
  induction todo as [|step todo IH]; intros cur j Ht Htodo Hj; cbn [anneal_steps]; [done|]. apply wp_bind.
  eapply wp_mono; [apply choose_move_ok|]. intros [[m|] r'] Hm; cbn [fst snd] in *; [|done]. apply wp_bind.
  eapply wp_mono; [apply cooled_ok; [done | apply Htodo; list_mem]|]. intros T HT. apply wp_bind.
  eapply wp_mono; [apply step_ok; [by eapply applicable_spec, Hm | done |]|].
  - destruct Hj as [H1 H2 H3]. by split.
  - intros [cur' j'] Hj'. cbn [fst snd] in *. apply IH; [done | intros; apply Htodo; by right | done].
Qed.

Lemma calibrate_ok s (r : R) : state_ok s -> wp E (_calibrate_temperature t cost_expr fixed_us s r) (fun tr => start_temperature tr.1).
Proof.
  intros Hs. unfold _calibrate_temperature. apply wp_bind. eapply wp_mono; [by apply score_ok|]. intros z Hz. apply wp_bind.
  eapply wp_mono; [apply (wp_for_each E _ (fun _ rd => Forall (fun d => 0 < d) rd.2)); [|by constructor]|].
  - intros pre k rest [r1 ds] _ Hd. cbn [snd] in Hd. unfold probe_delta. cbn [fst snd]. apply wp_bind. eapply wp_mono; [apply choose_move_ok|].
    intros mr Hm. apply wp_bind. eapply wp_mono; [apply (move_ok t E lb); [done | intros m' Hm'; by eapply applicable_spec, Hm]|].
    intros sr Hsr. apply wp_bind. eapply wp_mono; [by apply score_ok|]. intros z' _. cbn. destruct (Z.ltb_spec 0 (Z.abs (z' - z))); [|done].
    apply Forall_app. split; [done | by repeat constructor].
  - intros [r1 ds] Hd. cbn [fst snd wp] in *. case_bool_decide; [by left|]. right. by exists ds.
Qed.

Lemma anneal_ok s (r : R) : state_ok s -> score s = Ok base ->
  wp E (_anneal t cost_expr fixed_us s r) (fun best => state_ok best.1 /\ score best.1 = Ok best.2 /\ best.2 <= base).
Proof.
  intros Hs Hz. unfold _anneal. rewrite Hz. cbn [mbind res_bind]. cbn zeta. apply wp_bind. apply (wp_mono _ _ (fun cj => joint_ok cj.1 cj.2)).
  2: { intros [cur j] [_ [H2 H2'] H3]. done. }
  assert (forall r', joint_ok base (mkJoint s r' base s)) as Hj by (intros r'; by split).
  case_bool_decide; [apply Hj|]. apply wp_bind. eapply wp_mono; [by apply calibrate_ok|]. intros tr Htr.
  apply anneal_steps_ok; [done | | done]. intros k [_ Hk]%elem_of_seq. lia.
Qed.

End search.
