(* ===== verification/CoOptimizerPlan.v ===== *)
(** * The plan of the joint search

    From the buffers to the written plan: a well-formed problem gives a well-formed
    topology and a seed state with the search's invariant, and writing a state with the
    invariant back gives a plan that is valid, legal and consistent with the residency
    rules the search enforces. *)

From S2P Require Import Prelude PyDict PlanSolver GreedySolver FitSolver PermLayout Cooling Annealing CoreMapping CoreViews Tilings SplitSpace ResidencyEdge CoDivisions CoOptimizer TilingRuns CoOptimizerInv CoOptimizerMoves CoOptimizerSearch.

(** ** Problems *)

Definition pieces (d : CoreDivision) : Z := output_partition d * output_tile_count (tiling d).

(** What the allocator's buffers satisfy. *)
Record wf_joint (bs : list cobuffer) (limit alignment : Z) : Prop := {
  wj_names : NoDup (co_name <$> bs);
  wj_used : forall b, b ∈ bs -> uses (co_buf b) <> [] /\ post_init (co_buf b) = Ok tt /\
    (in_place_parents (co_buf b) <> [] -> first_use_is_read (co_buf b) = false);
  wj_sized : forall b, b ∈ bs -> 0 <= buf_size (co_buf b) \/ is_Some (residency_reason (co_buf b));
  wj_fits : forall b, b ∈ bs -> fits (co_buf b) /\ default 0 (last (uses (co_buf b))) <> INT64_MAX;
  wj_ints : small limit = true /\ small alignment = true /\ 0 < alignment;
  wj_pairs : forall c p, c ∈ bs -> p ∈ bs -> co_name p ∈ in_place_parents (co_buf c) ->
    end_time (co_buf p) = start_time (co_buf c) + 1 /\ parent_is_read (co_buf p) = true;
  wj_divisions : forall b, b ∈ bs -> core_divisions (co_buf b) <> [] /\ Forall (fun d => 1 <= pieces d) (core_divisions (co_buf b));
  wj_positions : NoDup (omap op_position bs);
  wj_space : forall b sp, b ∈ bs -> division_space b = Some sp ->
    NoDup (axes sp) /\ Forall (legal_division sp) (core_divisions (co_buf b)) /\
    forall ts dim l, sp_tiling sp = Some ts -> output_counts ts !! dim = Some l -> Forall (fun c => 1 <= c) l;
  wj_edge : forall c p e psp csp, c ∈ bs -> p ∈ bs -> co_name p ∈ parents (co_buf c) ->
    dget (residency_edges c) (co_name p) = Some e -> division_space p = Some psp -> division_space c = Some csp ->
    preps_over psp [write_prep e] /\ preps_over csp (read_preps e);
  wj_table : forall c p ip ic, c ∈ bs -> p ∈ bs -> co_name p ∈ parents (co_buf c) ->
    (ip, ic) ∈ default [] (cd_parent_matches (co_buf c) !! co_name p) ->
    (ip < length (core_divisions (co_buf p)))%nat /\ (ic < length (core_divisions (co_buf c)))%nat
}.

(** The spaces and the edges of the problem raise only [E]. *)
Record geometry {F R} `{!FloatOps F} `{!Random F R} `{!RandBelow R} (E : exn -> Prop) (bs : list cobuffer) : Prop := {
  ge_domains : forall b sp, b ∈ bs -> division_space b = Some sp -> wp E (factor_domains sp) (fun _ => True);
  ge_admits : forall b sp s spec, b ∈ bs -> division_space b = Some sp -> wp E (SplitSpace.admits sp s spec) (fun _ => True);
  ge_neighbours : forall b sp d, b ∈ bs -> division_space b = Some sp -> wp E (SplitSpace.neighbours sp d) (fun _ => True);
  ge_anchor : forall b sp seed c (r : R), b ∈ bs -> division_space b = Some sp ->
    wp E (CoDivisions.anchor (GeneratedDivisions sp seed) c r) (fun _ => True);
  ge_compatible : forall c sp name e ps cs, c ∈ bs -> division_space c = Some sp -> dget (residency_edges c) name = Some e ->
    wp E (ResidencyEdge.compatible e ps cs) (fun _ => True);
  ge_consumer : forall c sp name e d sp', c ∈ bs -> division_space c = Some sp -> dget (residency_edges c) name = Some e ->
    wp E (consumer_division_for e d sp') (fun _ => True);
  ge_parent : forall c sp name e d sp', c ∈ bs -> division_space c = Some sp -> dget (residency_edges c) name = Some e ->
    wp E (parent_division_for e d sp') (fun _ => True)
}.

(** ** The topology of a problem *)

Section topology.
Context (bs : list cobuffer) (limit alignment : Z) (Hwj : wf_joint bs limit alignment).

Lemma elem_of_positions {A} (l : list A) i x : (i, x) ∈ enumerate l <-> l !! i = Some x.
Proof. apply elem_of_zip_seq. Qed.

Lemma enumerate_snoc {A} (l : list A) x : enumerate (l ++ [x]) = enumerate l ++ [(length l, x)].
Proof.
  unfold enumerate. rewrite length_app, seq_app. cbn. rewrite zip_with_app; [done|]. by rewrite length_seq.
Qed.

Lemma name_to_index_spec name i : dget (name_to_index bs) name = Some i <-> exists b, bs !! i = Some b /\ co_name b = name.
Proof.
  pose proof (wj_names _ _ _ Hwj) as Hnd. clear Hwj. unfold name_to_index. induction bs as [|b l IH] using rev_ind; [split; [done | by intros (b & ? & _)]|].
  rewrite fmap_app in Hnd. apply NoDup_app in Hnd as (Hnd & Hd & _). rewrite enumerate_snoc, foldl_app. cbn [foldl fst snd]. rewrite dget_dset. case_decide as Hn.
  - subst name. split; [intros [= <-]; exists b; by rewrite lookup_app_r, Nat.sub_diag by lia|]. intros (b' & Hb' & Hn').
    destruct (decide (i < length l)%nat) as [Hlt|Hge].
    + rewrite lookup_app_l in Hb' by done. destruct (Hd (co_name b)); [|list_mem]. rewrite <- Hn'. by apply list_elem_of_lookup_2, (list_elem_of_fmap_2 co_name) in Hb'.
    + apply lookup_lt_Some in Hb'. rewrite length_app in Hb'. cbn in Hb'. f_equal. lia.
  - rewrite (IH Hnd). split; intros (b' & Hb' & Hn'); exists b'; (split; [|done]).
    + by apply lookup_app_l_Some.
    + apply lookup_app_Some in Hb' as [? | [_ Hb']]; [done|]. apply list_lookup_singleton_Some in Hb' as [_ <-]. done.
Qed.

Lemma elem_of_parent_edges p c name : (p, c, name) ∈ parent_edges bs <->
  exists cb pb, bs !! c = Some cb /\ bs !! p = Some pb /\ co_name pb = name /\ name ∈ parents (co_buf cb).
Proof.
  unfold parent_edges. rewrite list_elem_of_bind. split.
  - intros ([c' cb] & (m & Hm & H)%list_elem_of_omap & Hc%elem_of_positions). cbn [fst snd] in *.
    destruct (dget (name_to_index bs) m) as [p'|] eqn:Ed; [|done]. injection H as -> -> ->.
    apply name_to_index_spec in Ed as (pb & Hp & Hn). by exists cb, pb.
  - intros (cb & pb & Hc & Hp & <- & Hin). exists (c, cb). split; [|by apply elem_of_positions]. apply list_elem_of_omap.
    exists (co_name pb). split; [done|]. cbn. by rewrite (proj2 (name_to_index_spec (co_name pb) p)) by eauto.
Qed.

(** Distinct buffers have distinct positions. *)
Lemma positions_inj i j b c p : bs !! i = Some b -> bs !! j = Some c -> op_position b = Some p -> op_position c = Some p -> i = j.
Proof.
  pose proof (wj_positions _ _ _ Hwj) as Hnd. clear Hwj. revert i j. induction bs as [|x l IH]; intros [|i] [|j] Hi Hj Hb Hc; try done; cbn in Hi, Hj.
  - injection Hi as ->. csimpl in Hnd. rewrite Hb in Hnd. apply NoDup_cons in Hnd as [Hn _]. destruct Hn. apply list_elem_of_omap. exists c.
    split; [by eapply list_elem_of_lookup_2 | done].
  - injection Hj as ->. csimpl in Hnd. rewrite Hc in Hnd. apply NoDup_cons in Hnd as [Hn _]. destruct Hn. apply list_elem_of_omap. exists b.
    split; [by eapply list_elem_of_lookup_2 | done].
  - f_equal. eapply IH; try done. csimpl in Hnd. destruct (op_position x); [by apply NoDup_cons in Hnd as [_ ?] | done].
Qed.

(** The menus and the sources of the buffers. *)
Definition menu_at (b : cobuffer) : list DivisionConfig := menu_of (core_divisions (co_buf b)).
Definition source_for (b : cobuffer) (src : division_source) : Prop := build_source (core_divisions (co_buf b)) (division_space b) = Ok src.

Lemma menu_nonempty b : b ∈ bs -> exists c l, menu_at b = c :: l.
Proof.
  intros Hb. destruct (wj_divisions _ _ _ Hwj b Hb) as [Hd _]. pose proof (length_menu_of (core_divisions (co_buf b))) as Hl. fold (menu_at b) in Hl.
  destruct (menu_at b) as [|c l]; [|eauto]. destruct (core_divisions (co_buf b)); [done | cbn in Hl; lia].
Qed.

Lemma source_built b : b ∈ bs -> exists src, source_for b src /\ wf_source (menu_at b) src.
Proof.
  intros Hb. unfold source_for, build_source. fold (menu_at b). destruct (division_space b) as [sp|] eqn:Es; [|by eexists].
  destruct (menu_nonempty b Hb) as (c & l & Hm). rewrite Hm. cbn. eexists. split; [reflexivity|]. cbn.
  destruct (wj_space _ _ _ Hwj b sp Hb Es) as (Hnd & Hleg & _). split_and!; [done | done |]. rewrite <- Hm. apply Forall_forall.
  intros c' (i & _ & Hi)%elem_of_menu_of. rewrite Forall_forall in Hleg. apply Hleg. by eapply list_elem_of_lookup_2.
Qed.

Lemma source_wf b src : b ∈ bs -> source_for b src -> wf_source (menu_at b) src.
Proof. intros Hb Hs. destruct (source_built b Hb) as (src' & Hs' & Hwf). unfold source_for in *. congruence. Qed.

Lemma source_generated b sp seed : source_for b (GeneratedDivisions sp seed) -> division_space b = Some sp.
Proof.
  unfold source_for, build_source. destruct (division_space b) as [sp'|]; [|done]. intros (c & _ & H)%bind_Ok. injection H as -> _. done.
Qed.

Lemma source_menu b configs : source_for b (MenuDivisions configs) -> configs = menu_at b /\ division_space b = None.
Proof.
  unfold source_for, build_source. destruct (division_space b) as [sp'|]; [intros (c & _ & H)%bind_Ok; done|]. by intros [= <-].
Qed.

(** A legal division cuts its output into at least one piece. *)
Lemma legal_pieces b sp d : b ∈ bs -> division_space b = Some sp -> legal_division sp d -> 1 <= pieces d.
Proof.
  intros Hb Hsp (s & -> & Hs). destruct (wj_space _ _ _ Hwj b sp Hb Hsp) as (Hnd & _ & Hcounts). unfold pieces. set (ti := tiling d) in *.
  assert (1 <= output_partition (division_of sp s ti)) as Hpart.
  { unfold output_partition. enough (0 < zprod (snd <$> output_splits (division_of sp s ti))) by lia. apply zprod_pos, Forall_fmap, Forall_forall.
    intros [v f] [_ Hin]%list_elem_of_filter. cbn in Hin. apply list_elem_of_filter in Hin as [_ Hin]. cbn.
    pose proof (at_state_positive sp s ti v f Hs Hin). lia. }
  assert (1 <= output_tile_count ti) as Htiles.
  { unfold output_tile_count. enough (0 < zprod (count <$> filter (fun a => is_reduction a = false) (PlanSolver.axes ti))) by lia.
    apply zprod_pos, Forall_fmap, Forall_forall. intros a [_ Ha]%list_elem_of_filter. cbn.
    destruct Hs as [_ Hadm]. apply bind_Ok in Hadm as (ok & Hok & Hadm). destruct ok; [|by apply bind_Ok in Hadm as (ctx & [= <-] & ?)].
    unfold admits_tiling in Hok. change (tiling (division_of sp s ti)) with ti in *. destruct (sp_tiling sp) as [ts|] eqn:Ets.
    - destruct (Tilings.admits ts ti) eqn:Ea; [|done]. unfold Tilings.admits in Ea.
      destruct (is_untiled ti) eqn:Eu; [unfold is_untiled in Eu; split_bools; rewrite Eu in Ha; by apply elem_of_nil in Ha|].
      destruct (existsb is_reduction _); [done|]. destruct (existsb (fun a => bool_decide (count a ∉ counts ts (host_dim a))) _) eqn:Ec; [done|].
      apply not_true_iff_false in Ec. rewrite existsb_exists in Ec. destruct (decide (count a ∈ counts ts (host_dim a))) as [Hc|Hc].
      + unfold counts in Hc. destruct (output_counts ts !! host_dim a) as [l|] eqn:El; [|by apply elem_of_nil in Hc].
        pose proof (Hcounts ts (host_dim a) l eq_refl El) as Hf. rewrite Forall_forall in Hf. specialize (Hf _ Hc). cbn in Hf. lia.
      + destruct Ec. exists a. split; [by apply list_elem_of_In | by apply bool_decide_eq_true].
    - injection Hok as Hu. unfold is_untiled in Hu. split_bools. rewrite Hu in Ha. by apply elem_of_nil in Ha. }
  fold (division_of sp s ti). cbn [tiling division_of]. nia.
Qed.

Context {F : Type} `{!FloatOps F} {R : Type} `{!Random F R} `{!RandBelow R} (E : exn -> Prop) (Hgeo : geometry E bs).

Lemma can_move_ok b src : b ∈ bs -> source_for b src -> wp E (can_move src) (fun _ => True).
Proof.
  intros Hb Hs. destruct src as [configs|sp seed]; [done|]. apply source_generated in Hs. cbn. apply wp_bind.
  eapply wp_mono; [by eapply (ge_domains E bs Hgeo)|]. done.
Qed.

Lemma can_split_ok b src : b ∈ bs -> source_for b src -> wp E (can_split src) (fun _ => True).
Proof.
  intros Hb Hs. destruct src as [configs|sp seed]; [done|]. apply source_generated in Hs. cbn. apply wp_bind.
  eapply wp_mono; [by eapply (ge_domains E bs Hgeo)|]. done.
Qed.

Lemma indices_where_ok {A} (p : A -> res bool) (l : list A) :
  (forall x, x ∈ l -> wp E (p x) (fun _ => True)) -> wp E (indices_where p l) (Forall (fun i => (i < length l)%nat)).
Proof.
  intros Hp. unfold indices_where. apply wp_bind. eapply wp_mono; [by apply (wp_py_map E _ (fun _ _ => True))|]. intros flags Hf.
  apply Forall2_length in Hf. cbn. apply Forall_forall. intros i ([j b] & Hin%elem_of_positions & H)%list_elem_of_omap. cbn in H. destruct b; [|done].
  injection H as ->. rewrite Hf. by eapply lookup_lt_Some.
Qed.

Lemma pair_configs_ok pm cm pairs :
  (forall ip ic, (ip, ic) ∈ pairs -> (ip < length pm)%nat /\ (ic < length cm)%nat) -> wp E (_table_relation pairs pm cm) (fun _ => True).
Proof.
  intros Hp. unfold _table_relation. apply wp_bind. eapply wp_mono; [apply (wp_py_map E _ (fun _ _ => True))|done].
  intros [ip ic] Hin. rewrite elem_of_py_sorted, elem_of_remove_dups in Hin. destruct (Hp ip ic Hin) as [H1 H2]. unfold pair_configs. cbn [fst snd].
  destruct (lookup_lt_is_Some_2 pm ip H1) as [x ->]. by destruct (lookup_lt_is_Some_2 cm ic H2) as [y ->].
Qed.

(** The relation on the edge from [p] to [c], with what it may raise. *)
Definition edge_ok (pm : list DivisionConfig) (psrc : division_source) (cm : list DivisionConfig) (csrc : division_source) (rel : edge_relation) : Prop :=
  wf_relation pm psrc cm csrc rel /\
  (forall cp cc, wp E (relation_compatible rel cp cc) (fun _ => True)) /\
  (forall cp, wp E (child_for rel cp) (fun _ => True)) /\ (forall cc, wp E (parent_for rel cc) (fun _ => True)).

Lemma table_edge_ok pairs pm psrc cm csrc rel : _table_relation pairs pm cm = Ok rel -> edge_ok pm psrc cm csrc rel.
Proof. intros (ps & down & up & -> & Ht)%table_relation_spec. split; [by exists pairs | done]. Qed.

Lemma edge_relation_ok srcs p c pb cb psrc csrc :
  bs !! p = Some pb -> bs !! c = Some cb -> co_name pb ∈ parents (co_buf cb) ->
  srcs !! p = Some psrc -> srcs !! c = Some csrc -> source_for pb psrc -> source_for cb csrc ->
  wp E (_edge_relation bs (menu_at <$> bs) srcs p c (co_name pb)) (edge_ok (menu_at pb) psrc (menu_at cb) csrc).
Proof.
  intros Hp Hc Hpar Hsp Hsc Hps Hcs. pose proof (list_elem_of_lookup_2 _ _ _ Hp) as Hpin. pose proof (list_elem_of_lookup_2 _ _ _ Hc) as Hcin.
  unfold _edge_relation. rewrite (py_at_lookup _ _ _ Hc), (py_at_lookup _ _ _ Hsp), (py_at_lookup _ _ _ Hsc). cbn [mbind res_bind].
  assert (wp E (pm ← py_at (menu_at <$> bs) p; cm ← py_at (menu_at <$> bs) c;
    _table_relation (default [] (cd_parent_matches (co_buf cb) !! co_name pb)) pm cm) (edge_ok (menu_at pb) psrc (menu_at cb) csrc)) as Htab.
  { assert ((menu_at <$> bs) !! p = Some (menu_at pb)) as H1 by (by rewrite list_lookup_fmap, Hp).
    assert ((menu_at <$> bs) !! c = Some (menu_at cb)) as H2 by (by rewrite list_lookup_fmap, Hc).
    rewrite (py_at_lookup _ _ _ H1), (py_at_lookup _ _ _ H2). cbn [mbind res_bind].
    eapply wp_mono; [apply wp_self, pair_configs_ok|intros rel Hr; exact (table_edge_ok _ _ _ _ _ _ Hr)].
    intros ip ic Hin. unfold menu_at. rewrite !length_menu_of. by eapply (wj_table _ _ _ Hwj). }
  destruct (dget (residency_edges cb) (co_name pb)) as [e|] eqn:Ee; [|exact Htab]. destruct psrc as [|psp pseed]; [exact Htab|].
  destruct csrc as [|csp cseed]; [exact Htab|]. pose proof (source_generated _ _ _ Hps) as Sp. pose proof (source_generated _ _ _ Hcs) as Sc.
  destruct (wj_edge _ _ _ Hwj cb pb e psp csp Hcin Hpin Hpar Ee Sp Sc) as [O1 O2]. cbn [wp]. split_and!.
  - cbn. split_and!; [by eexists | by eexists | done | done].
  - intros cp cc. by eapply (ge_compatible E bs Hgeo).
  - intros cp. cbn. apply wp_bind. eapply wp_mono; [by eapply (ge_consumer E bs Hgeo)|]. done.
  - intros cc. cbn. apply wp_bind. eapply wp_mono; [by eapply (ge_parent E bs Hgeo)|]. done.
Qed.

(** [_buffer_at] lists each position with its buffer. *)
Definition places (l : list (nat * cobuffer)) (m : list (nat * nat)) : Prop :=
  forall p idx, aget m p = Some idx <-> exists b, (idx, b) ∈ l /\ op_position b = Some p.

Lemma build_positions_ok : wp E (build_positions bs) (places (enumerate bs)).
Proof.
  unfold build_positions. apply (wp_for_each E _ places).
  2: { intros p idx. split; [done | intros (b & Hin & _); by apply elem_of_nil in Hin]. }
  intros pre [i b] rest m Hl Hm. unfold place_position. cbn [fst snd]. destruct (op_position b) as [p|] eqn:Ep.
  2: { intros q idx. rewrite (Hm q idx). split; intros (b' & Hin & Hq); exists b'; (split; [|done]); [set_solver|].
    apply elem_of_app in Hin as [? | [= -> ->]%list_elem_of_singleton]; [done | congruence]. }
  assert (aget m p = None) as Hnone.
  { destruct (aget m p) as [j|] eqn:Ej; [|done]. apply Hm in Ej as (b' & Hin & Hp). exfalso.
    assert (j <> i) as Hne.
    { intros ->. assert (NoDup (enumerate bs).*1) as Hnd by (unfold enumerate; rewrite fst_zip by (rewrite length_seq; done); apply NoDup_seq).
      rewrite Hl, fmap_app, fmap_cons in Hnd. apply NoDup_app in Hnd as (_ & Hd & _). apply (Hd i); [by apply (list_elem_of_fmap_2 fst) in Hin | list_mem]. }
    assert (bs !! j = Some b') as Hj by (apply elem_of_positions; rewrite Hl; apply elem_of_app; by left).
    assert (bs !! i = Some b) as Hi by (apply elem_of_positions; rewrite Hl; list_mem).
    apply Hne. by eapply (positions_inj j i). }
  rewrite bool_decide_false by (rewrite Hnone; by intros []). cbn. intros q idx. rewrite aget_aset. case_decide as Hq.
  - subst q. split; [intros [= <-]; exists b; split; [list_mem | done]|]. intros (b' & Hin & Hp).
    apply elem_of_app in Hin as [Hin | [= -> ->]%list_elem_of_singleton]; [|done]. assert (aget m p = Some idx) by (apply Hm; eauto). congruence.
  - rewrite (Hm q idx). split; intros (b' & Hin & Hp); exists b'; (split; [|done]); [set_solver|].
    apply elem_of_app in Hin as [? | [= -> ->]%list_elem_of_singleton]; [done | congruence].
Qed.

(** What the constructed topology records of the buffers. *)
Record built (t : topology) : Prop := {
  bt_bufs : bufs t = bs;
  bt_limit : lx_limit t = limit;
  bt_alignment : lx_alignment t = alignment;
  bt_menus : menus t = menu_at <$> bs;
  bt_sources : Forall2 source_for bs (sources t);
  bt_edges : forall p c rel, (p, c, rel) ∈ edges t -> exists pb cb psrc csrc,
    bs !! p = Some pb /\ bs !! c = Some cb /\ co_name pb ∈ parents (co_buf cb) /\
    sources t !! p = Some psrc /\ sources t !! c = Some csrc /\ edge_ok (menu_at pb) psrc (menu_at cb) csrc rel;
  bt_complete : forall p c pb cb, bs !! p = Some pb -> bs !! c = Some cb -> co_name pb ∈ parents (co_buf cb) -> exists rel, (p, c, rel) ∈ edges t;
  bt_positions : places (enumerate bs) (buffer_at t);
  bt_anchors : Forall (fun i => (i < length bs)%nat) (anchor_candidates t);
  bt_flips : Forall (fun i => (i < length bs)%nat) (flippable_ops t);
  bt_spills : spill_costs t = _spill_cost <$> bs
}.

Lemma edges_built srcs : Forall2 source_for bs srcs ->
  wp E (build_edges bs (menu_at <$> bs) srcs) (fun es =>
    (forall p c rel, (p, c, rel) ∈ es -> exists pb cb psrc csrc, bs !! p = Some pb /\ bs !! c = Some cb /\ co_name pb ∈ parents (co_buf cb) /\
      srcs !! p = Some psrc /\ srcs !! c = Some csrc /\ edge_ok (menu_at pb) psrc (menu_at cb) csrc rel) /\
    (forall p c pb cb, bs !! p = Some pb -> bs !! c = Some cb -> co_name pb ∈ parents (co_buf cb) -> exists rel, (p, c, rel) ∈ es)).
Proof.
  intros Hsrcs. unfold build_edges. eapply wp_mono.
  - apply (wp_py_map E _ (fun pcn e => e.1 = pcn.1 /\ exists pb cb psrc csrc, bs !! e.1.1 = Some pb /\ bs !! e.1.2 = Some cb /\
      co_name pb ∈ parents (co_buf cb) /\ srcs !! e.1.1 = Some psrc /\ srcs !! e.1.2 = Some csrc /\ edge_ok (menu_at pb) psrc (menu_at cb) csrc e.2)).
    intros [[p c] name] (cb & pb & Hc & Hp & <- & Hin)%elem_of_parent_edges. cbn [fst snd].
    destruct (Forall2_lookup_l _ _ _ _ _ Hsrcs Hp) as (psrc & Hps & Sp). destruct (Forall2_lookup_l _ _ _ _ _ Hsrcs Hc) as (csrc & Hcs & Sc).
    apply wp_bind. eapply wp_mono; [by apply (edge_relation_ok srcs p c pb cb psrc csrc)|]. intros rel Hrel. cbn. split; [done|]. by exists pb, cb, psrc, csrc.
  - intros es Hes. split.
    + intros p c rel (i & Hi)%list_elem_of_lookup. destruct (Forall2_lookup_r _ _ _ _ _ Hes Hi) as (pcn & _ & _ & H). exact H.
    + intros p c pb cb Hp Hc Hpar. assert ((p, c, co_name pb) ∈ parent_edges bs) as (i & Hi)%list_elem_of_lookup by (apply elem_of_parent_edges; by exists cb, pb).
      destruct (Forall2_lookup_l _ _ _ _ _ Hes Hi) as ([[p' c'] rel] & He & Heq & _). cbn in Heq. injection Heq as -> ->. exists rel. by eapply list_elem_of_lookup_2.
Qed.

Lemma topology_built : wp E (_precompute_topology bs limit alignment) built.
Proof.
  unfold _precompute_topology. apply wp_bind. apply (wp_mono _ _ (fun _ => True)).
  { unfold _assert_unsized_buffers_are_pinned. rewrite (proj2 (forallb_forall _ _)); [done|]. intros b Hb%list_elem_of_In.
    destruct (wj_sized _ _ _ Hwj b Hb) as [H | H]; apply orb_true_iff; [left; by apply Z.leb_le | right; by apply bool_decide_eq_true]. }
  intros _ _. cbn zeta. fold menu_at. apply wp_bind.
  eapply wp_mono; [apply (wp_py_map E _ source_for); intros b Hb; destruct (source_built b Hb) as (src & Hs & _); unfold source_for in *; by rewrite Hs|].
  intros srcs Hsrcs. pose proof (Forall2_length _ _ _ Hsrcs) as Hlen.
  assert (forall (p : division_source -> res bool), (forall b src, b ∈ bs -> source_for b src -> wp E (p src) (fun _ => True)) ->
    wp E (indices_where p srcs) (Forall (fun i => (i < length bs)%nat))) as Hind.
  { intros p Hp. rewrite Hlen. apply indices_where_ok. intros src (i & Hi)%list_elem_of_lookup.
    destruct (Forall2_lookup_r _ _ _ _ _ Hsrcs Hi) as (b & Hb & Hs). eapply Hp; [by eapply list_elem_of_lookup_2 | exact Hs]. }
  apply wp_bind. eapply wp_mono; [by apply edges_built|]. intros es [He1 He2]. apply wp_bind.
  eapply wp_mono; [apply (Hind can_split), can_split_ok|]. intros anchors Han. apply wp_bind.
  eapply wp_mono; [apply build_positions_ok|]. intros ats Hats. apply wp_bind.
  eapply wp_mono; [apply (Hind can_move), can_move_ok|]. intros flips Hfl. by split.
Qed.

Section built.
Context (t : topology) (Ht : built t).

Lemma built_admitted i b c : bs !! i = Some b -> admitted t i c ->
  exists src, sources t !! i = Some src /\ source_for b src /\ wf_source (menu_at b) src /\ source_admits (menu_at b) src c.
Proof.
  intros Hb (m & src & Hm & Hs & Ha). rewrite (bt_menus t Ht), list_lookup_fmap, Hb in Hm. injection Hm as <-.
  destruct (Forall2_lookup_l _ _ _ _ _ (bt_sources t Ht) Hb) as (src' & Hs' & Hf). rewrite Hs in Hs'. injection Hs' as <-.
  exists src. split_and!; try done. eapply source_wf; [by eapply list_elem_of_lookup_2 | done].
Qed.

Lemma built_wf : wf_topology t.
Proof.
  pose proof (Forall2_length _ _ _ (bt_sources t Ht)) as Hls. split; rewrite ?(bt_bufs t Ht).
  - by rewrite (bt_menus t Ht), length_fmap.
  - done.
  - intros i m src Hm Hs. rewrite (bt_menus t Ht), list_lookup_fmap in Hm. destruct (bs !! i) as [b|] eqn:Hb; [|done]. injection Hm as <-.
    destruct (Forall2_lookup_l _ _ _ _ _ (bt_sources t Ht) Hb) as (src' & Hs' & Hf). rewrite Hs in Hs'. injection Hs' as <-.
    eapply source_wf; [by eapply list_elem_of_lookup_2 | done].
  - intros p c rel (pb & cb & psrc & csrc & Hp & Hc & _ & Hps & Hcs & Hok & _)%(bt_edges t Ht). split_and!; [by eapply lookup_lt_Some..|].
    rewrite (bt_menus t Ht), !list_lookup_fmap, Hp, Hc. intros pm ps cm cs [= <-] Hps' [= <-] Hcs'. congruence.
  - intros p idx (b & Hb%elem_of_positions & Hp)%(bt_positions t Ht). by exists b.
  - intros idx b p Hb Hp. apply (bt_positions t Ht). exists b. split; [by apply elem_of_positions | done].
  - apply Ht.
  - apply Ht.
  - by rewrite (bt_spills t Ht), length_fmap.
  - intros i b Hb%list_elem_of_lookup_2. by destruct (wj_fits _ _ _ Hwj b Hb) as [[? _] _].
  - intros i c Hadm. destruct (bs !! i) as [b|] eqn:Hb.
    + pose proof (list_elem_of_lookup_2 _ _ _ Hb) as Hin. destruct (built_admitted i b c Hb Hadm) as (src & Hs & Hf & Hwf & [Hm | Ha]).
      * apply elem_of_menu_of in Hm as (k & _ & Hk). destruct (wj_divisions _ _ _ Hwj b Hin) as [_ Hd]. rewrite Forall_forall in Hd.
        apply (Hd (division c)). by eapply list_elem_of_lookup_2.
      * destruct src as [|sp seed]; [done|]. destruct Ha as [_ Ha]. apply source_generated in Hf. by apply (legal_pieces b sp).
    + destruct Hadm as (m & src & Hm & _). rewrite (bt_menus t Ht), list_lookup_fmap, Hb in Hm. done.
Qed.

Lemma built_tame : tame E t.
Proof.
  assert (forall src, src ∈ sources t -> exists b, b ∈ bs /\ source_for b src) as Hsrc.
  { intros src (i & Hi)%list_elem_of_lookup. destruct (Forall2_lookup_r _ _ _ _ _ (bt_sources t Ht) Hi) as (b & Hb & Hs). exists b. split; [by eapply list_elem_of_lookup_2 | done]. }
  split.
  - intros p c rel cp cc (pb & cb & psrc & csrc & _ & _ & _ & _ & _ & _ & H & _)%(bt_edges t Ht). apply H.
  - intros p c rel cp (pb & cb & psrc & csrc & _ & _ & _ & _ & _ & _ & _ & H & _)%(bt_edges t Ht). apply H.
  - intros p c rel cc (pb & cb & psrc & csrc & _ & _ & _ & _ & _ & _ & _ & _ & H)%(bt_edges t Ht). apply H.
  - intros src c (b & Hb & Hs)%Hsrc. destruct src as [configs|sp seed]; [done|]. apply source_generated in Hs. cbn. apply wp_bind.
    eapply wp_mono; [by eapply (ge_neighbours E bs Hgeo)|]. done.
  - intros src c spec (b & Hb & Hs)%Hsrc. destruct src as [configs|sp seed]; [done|]. apply source_generated in Hs. cbn. apply wp_bind.
    eapply wp_mono; [by eapply (ge_admits E bs Hgeo)|]. done.
  - intros src c r (b & Hb & Hs)%Hsrc. destruct src as [configs|sp seed]; [|apply source_generated in Hs; by eapply (ge_anchor E bs Hgeo)].
    cbn [CoDivisions.anchor]. case_bool_decide; [done|]. apply wp_bind. destruct (choice_spec (splitting configs) r) as (x & r' & -> & _); done.
Qed.
End built.
End topology.
