(* ===== verification/CoOptimizerSeed.v ===== *)
(** * The seed of the joint search

    The seed takes every operation's first configuration, orders the buffers by a
    first-fit layout of their per-core sizes and builds the packer over them.  On a
    well-formed problem all of this succeeds and the result satisfies the search's
    invariant. *)

From S2P Require Import Prelude PyDict PlanSolver GreedySolver FitSolver PermLayout Cooling Annealing CoreMapping CoreViews Tilings SplitSpace ResidencyEdge CoDivisions CoOptimizer TilingRuns CoOptimizerInv CoOptimizerMoves CoOptimizerSearch CoOptimizerPlan.

Section seed.
Context {F : Type} `{!FloatOps F} {R : Type} `{!Random F R} `{!RandBelow R} (E : exn -> Prop).
Context (bs : list cobuffer) (limit alignment : Z) (Hwj : wf_joint bs limit alignment) (Hgeo : geometry (F:=F) (R:=R) E bs).
Context (t : topology) (Ht : built bs limit alignment E t).

#[local] Notation n := (length bs).
#[local] Notation Hwt := (built_wf bs limit alignment Hwj E t Ht).

Lemma seed_vector : wp E (py_map source_seed (sources t)) (vector_ok t).
Proof.
  pose proof (Forall2_length _ _ _ (bt_sources _ _ _ _ t Ht)) as Hls.
  eapply wp_mono; [apply (wp_py_map E _ (fun src c => source_seed src = Ok c)); intros src (i & Hi)%list_elem_of_lookup|].
  - apply wp_self. destruct src as [configs|sp seed]; [|done]. destruct (Forall2_lookup_r _ _ _ _ _ (bt_sources _ _ _ _ t Ht) Hi) as (b & Hb & Hs).
    apply source_menu in Hs as [-> _]. destruct (menu_nonempty bs limit alignment Hwj b) as (c & l & ->); [by eapply list_elem_of_lookup_2 | done].
  - intros w Hw. pose proof (Forall2_length _ _ _ Hw) as Hlw. split; [rewrite (bt_bufs _ _ _ _ t Ht); lia|]. intros i c Hc.
    destruct (Forall2_lookup_r _ _ _ _ _ Hw Hc) as (src & Hsrc & Hseed). destruct (Forall2_lookup_r _ _ _ _ _ (bt_sources _ _ _ _ t Ht) Hsrc) as (b & Hb & Hs).
    exists (menu_at b), src. split_and!; [by rewrite (bt_menus _ _ _ _ t Ht), list_lookup_fmap, Hb | done |].
    eapply seed_admitted; [|exact Hseed]. eapply source_wf; [done | by eapply list_elem_of_lookup_2 | done].
Qed.

Context (w : list DivisionConfig) (Hw : vector_ok t w).
Notation sizes := (sizes_of t w).
Notation lb := (_lifetime_buffers t sizes).

Lemma lifetime_lookup i b' : lb !! i = Some b' <->
  exists b c, bs !! i = Some b /\ w !! i = Some c /\ b' = lifetime_buffer t (core_size b c) b.
Proof.
  unfold _lifetime_buffers, sizes_of. rewrite (bt_bufs _ _ _ _ t Ht). rewrite lookup_zip_with_Some. split.
  - intros (z & b & -> & Hz & Hb). apply lookup_zip_with_Some in Hz as (b2 & c & -> & Hb2 & Hc). exists b, c. split_and!; [done | done | congruence].
  - intros (b & c & Hb & Hc & ->). exists (core_size b c), b. split_and!; [done | | done]. apply lookup_zip_with_Some. by exists b, c.
Qed.

Lemma lifetime_length : length lb = n.
Proof. unfold _lifetime_buffers. rewrite length_zip_with, (length_sizes t) by apply Hw. rewrite (bt_bufs _ _ _ _ t Ht). lia. Qed.

Lemma lifetime_at i b : bs !! i = Some b -> exists c, w !! i = Some c /\ lb !! i = Some (lifetime_buffer t (core_size b c) b).
Proof.
  intros Hb. destruct (lookup_lt_is_Some_2 w i) as [c Hc]; [rewrite (vo_length _ _ Hw), (bt_bufs _ _ _ _ t Ht); by eapply lookup_lt_Some|].
  exists c. split; [done|]. apply lifetime_lookup. by exists b, c.
Qed.

Lemma lifetime_names : buf_name <$> lb = co_name <$> bs.
Proof.
  apply list_eq. intros i. rewrite !list_lookup_fmap. destruct (bs !! i) as [b|] eqn:Hb.
  - destruct (lifetime_at i b Hb) as (c & _ & ->). done.
  - rewrite (lookup_ge_None_2 lb i); [done|]. rewrite lifetime_length. by apply lookup_ge_None.
Qed.

Lemma lifetime_elem b' : b' ∈ lb -> exists i b c, bs !! i = Some b /\ w !! i = Some c /\ b ∈ bs /\ admitted t i c /\ b' = lifetime_buffer t (core_size b c) b.
Proof.
  intros (i & (b & c & Hb & Hc & ->)%lifetime_lookup)%list_elem_of_lookup. exists i, b, c. split_and!; try done.
  - by eapply list_elem_of_lookup_2.
  - by apply (vo_admitted _ _ Hw).
Qed.

Lemma lifetime_wf : wf_input lb.
Proof.
  split.
  - intros b' (i & b & c & Hb & Hc & Hin & Hadm & ->)%lifetime_elem. destruct (wj_used _ _ _ Hwj b Hin) as (H1 & H2 & H3). split; cbn.
    + exact H1.
    + exact H2.
    + unfold core_size. lia.
    + intros Hne. apply H3. intros He. rewrite He in Hne. done.
  - rewrite lifetime_names. apply Hwj.
  - by intros b' (i & b & c & _ & _ & _ & _ & ->)%lifetime_elem.
Qed.

Lemma lifetime_live : Forall (fun b => start_time b < end_time b) lb.
Proof. apply Forall_forall. intros b Hb. by apply start_lt_end, (wf_buffers _ lifetime_wf). Qed.

(** The solver owns a name exactly if a buffer of the problem has it. *)
Lemma known_name name : is_Some (dget (name_to_index (bufs t)) name) <-> exists i b, bs !! i = Some b /\ co_name b = name.
Proof.
  rewrite (bt_bufs _ _ _ _ t Ht). split.
  - intros [i Hi%(name_to_index_spec bs limit alignment Hwj)]. eauto.
  - intros (i & b & Hb & Hn). exists i. apply (name_to_index_spec bs limit alignment Hwj). eauto.
Qed.

(** A declared pair within the solver's buffers hands over in time. *)
Lemma lifetime_pair child parent : child ∈ lb -> parent ∈ lb -> buf_name parent ∈ in_place_parents child ->
  end_time parent = start_time child + 1 /\ parent_is_read parent = true.
Proof.
  intros (i & b & c & Hb & _ & Hin & _ & ->)%lifetime_elem (j & b2 & c2 & Hb2 & _ & Hin2 & _ & ->)%lifetime_elem Hp. cbn in Hp.
  apply list_elem_of_filter in Hp as [_ Hp]. exact (wj_pairs _ _ _ Hwj b b2 Hin Hin2 Hp).
Qed.

Lemma lifetime_pairs : ref_check_pairs lb = Ok tt.
Proof.
  unfold ref_check_pairs. apply for_each_unit_Ok. intros child Hc. apply for_each_unit_Ok. intros m Hm.
  destruct (buf_by_name lb !! m) as [parent|] eqn:Eb; [|done]. apply buf_by_name_Some in Eb as [Hp <-].
  destruct (lifetime_pair child parent Hc Hp Hm) as [H1 H2]. unfold check_in_place_parent_is_read. by rewrite H2, H1, Z.eqb_refl.
Qed.

Lemma lifetime_fits : Forall fits lb.
Proof.
  apply Forall_forall. intros b' (i & b & c & Hb & _ & Hin & Hadm & ->)%lifetime_elem. destruct (wj_fits _ _ _ Hwj b Hin) as [(F1 & F2 & F3 & F4) _].
  split_and!; [|exact F2 | exact F3 | exact F4]. apply core_size_small; [by apply (wt_pieces t Hwt i) | exact F1].
Qed.

Lemma lifetime_packable : packable lb limit alignment.
Proof.
  destruct (wj_ints _ _ _ Hwj) as (I1 & I2 & I3). split; try done.
  - apply lifetime_fits.
  - apply Forall_forall. intros b Hb. by destruct (wf_buffers _ lifetime_wf b Hb).
  - apply Forall_forall. intros b' (i & b & c & _ & _ & Hin & _ & ->)%lifetime_elem. split; [by apply (wj_used _ _ _ Hwj b Hin) | by apply (wj_fits _ _ _ Hwj b Hin)].
  - apply lifetime_wf.
  - rewrite check_pairs_agree by apply lifetime_wf. apply lifetime_pairs.
Qed.

(** The first-fit instance: pairs with a larger child are dropped. *)
Notation ff := (drop_larger t sizes <$> lb).

Lemma size_by_name_spec i b c : bs !! i = Some b -> w !! i = Some c -> size_by_name t sizes (co_name b) = Some (core_size b c).
Proof.
  intros Hb Hc. unfold size_by_name. rewrite (bt_bufs _ _ _ _ t Ht).
  rewrite (proj2 (name_to_index_spec bs limit alignment Hwj (co_name b) i)) by eauto. unfold sizes_of. rewrite (bt_bufs _ _ _ _ t Ht).
  by rewrite lookup_zip_with, Hb, Hc.
Qed.

Lemma ff_elem b : b ∈ ff -> exists b', b' ∈ lb /\ b = drop_larger t sizes b'.
Proof. intros (b' & -> & Hb')%list_elem_of_fmap. eauto. Qed.

Lemma ff_wf : wf_input ff.
Proof.
  split.
  - intros b (b' & Hb' & ->)%ff_elem. destruct (wf_buffers _ lifetime_wf b' Hb') as [H1 H2 H3 H4]. split; cbn; [exact H1 | exact H2 | exact H3|].
    intros Hne. apply H4. intros He. rewrite He in Hne. done.
  - assert (buf_name <$> ff = buf_name <$> lb) as ->; [rewrite <- list_fmap_compose; by apply list_fmap_ext | apply lifetime_wf].
  - intros b (b' & Hb' & ->)%ff_elem. exact (wf_unplanned _ lifetime_wf b' Hb').
Qed.

Lemma ff_pairs : _check_in_place_relationships ff = Ok tt.
Proof.
  apply for_each_unit_Ok. intros child Hc. apply for_each_unit_Ok. intros m Hm.
  destruct (buf_by_name ff !! m) as [parent|] eqn:Eb; [|done]. apply buf_by_name_Some in Eb as [Hp <-].
  apply ff_elem in Hc as (c0 & Hc0 & ->). apply ff_elem in Hp as (p0 & Hp0 & ->). cbn in Hm. apply list_elem_of_filter in Hm as [Hlarge Hm].
  destruct (lifetime_pair c0 p0 Hc0 Hp0 Hm) as [H1 H2].
  assert (check_in_place_pair (drop_larger t sizes c0) (drop_larger t sizes p0) = check_in_place_pair c0 p0) as -> by done.
  apply lifetime_elem in Hc0 as (i & b & c & Hb & Hcc & _ & _ & ->). apply lifetime_elem in Hp0 as (j & b2 & c2 & Hb2 & Hc2 & _ & _ & ->).
  unfold check_in_place_pair, check_in_place_parent_is_read. rewrite H1, H2, Z.eqb_refl. cbn [negb raise_if mbind res_bind core_divisions lifetime_buffer].
  rewrite bool_decide_true by done. cbn [andb]. unfold parent_as_large in Hlarge. cbn [buf_name lifetime_buffer] in Hlarge.
  fold (co_name b) (co_name b2) in Hlarge. rewrite (size_by_name_spec i b c Hb Hcc), (size_by_name_spec j b2 c2 Hb2 Hc2) in Hlarge.
  cbn [buf_size lifetime_buffer]. apply Z.leb_le in Hlarge. by rewrite (proj2 (Z.ltb_ge _ _) Hlarge).
Qed.

Lemma ff_order : exists pi, permutation (FitSolver.plan_layout first_fit_pick limit alignment ff) ff = Ok pi /\ pi ≡ₚ seq 0 (length lb).
Proof.
  destruct (wj_ints _ _ _ Hwj) as (_ & _ & Hal).
  assert (Forall plain ff) as Hplain by (apply Forall_forall; by intros b (b' & (i & b0 & c & _ & _ & _ & _ & ->)%lifetime_elem & ->)%ff_elem).
  destruct (solver_total (plan := FitSolver.plan_layout first_fit_pick) limit alignment ff Hal ff_wf Hplain) as [out Hout].
  - by intros b (b' & (i & b0 & c & _ & _ & _ & _ & ->)%lifetime_elem & ->)%ff_elem.
  - apply ff_pairs.
  - rewrite Hout. pose proof (solver_frame limit alignment ff out Hal ff_wf Hplain Hout) as Hframe.
    destruct (permutation_spec ff out Hframe (wf_names _ ff_wf)) as (pi & H1 & H2 & _). exists pi. split; [done|]. by rewrite length_fmap in H2.
Qed.

Lemma seed_setting : setting (F:=F) (R:=R) E t lb.
Proof.
  split.
  - exact Hwt.
  - by eapply built_tame.
  - apply lifetime_live.
  - apply lifetime_wf.
  - rewrite (bt_alignment _ _ _ _ t Ht). by destruct (wj_ints _ _ _ Hwj) as (_ & _ & ?).
  - rewrite (bt_limit _ _ _ _ t Ht), (bt_alignment _ _ _ _ t Ht). destruct (wj_ints _ _ _ Hwj) as (H1 & H2 & _). by split; apply small_room.
  - by rewrite lifetime_length, (bt_bufs _ _ _ _ t Ht).
Qed.

Lemma seed_sizes : py_map (fun ic => _per_core_size t ic.1 ic.2) (enumerate w) = Ok sizes.
Proof.
  destruct (wp_total _ _ (wp_py_map (fun _ => False) (fun ic => _per_core_size t ic.1 ic.2)
    (fun ic z => exists b, bufs t !! ic.1 = Some b /\ z = core_size b ic.2) (enumerate w) ltac:(intros [i c] Hc%elem_of_positions;
      destruct (lookup_lt_is_Some_2 (bufs t) i) as [b Hb]; [rewrite <- (vo_length _ _ Hw); by eapply lookup_lt_Some|];
      cbn [fst snd]; rewrite (per_core_size_spec t i b c Hb); cbn; by exists b))) as (zs & -> & Hzs).
  f_equal. apply list_eq. intros i. unfold sizes_of. rewrite lookup_zip_with. destruct (zs !! i) as [z|] eqn:Ez.
  - destruct (Forall2_lookup_r _ _ _ _ _ Hzs Ez) as ([j c] & Hj & b & Hb & ->). unfold enumerate in Hj.
    apply lookup_zip_with_Some in Hj as (j' & c' & [= <- <-] & Hjs & Hc). apply lookup_seq in Hjs as [-> _]. cbn in *. by rewrite Hb, Hc.
  - apply lookup_ge_None in Ez. rewrite <- (Forall2_length _ _ _ Hzs) in Ez. unfold enumerate in Ez. rewrite length_zip, length_seq in Ez.
    rewrite (lookup_ge_None_2 w i) by lia. by destruct (bufs t !! i).
Qed.

Lemma seed_packer : wp E (_build_seed_packer t w) (fun pe => state_ok t lb (mkState w pe.1 pe.2)).
Proof.
  pose proof seed_setting as Hset. unfold _build_seed_packer. rewrite seed_sizes. cbn [mbind res_bind]. apply wp_bind.
  eapply wp_mono; [apply (wp_py_map E _ (fun i f => _eligible t w i = Ok f)); intros i [_ Hi]%elem_of_seq; by apply (eligible_returns (R:=R) t E lb)|].
  intros flags Hflags. pose proof (Forall2_length _ _ _ Hflags) as Hlf. rewrite length_seq, (bt_bufs _ _ _ _ t Ht) in Hlf. cbn zeta.
  rewrite (bt_limit _ _ _ _ t Ht), (bt_alignment _ _ _ _ t Ht). destruct ff_order as (pi & -> & Hpi). cbn [mbind res_bind].
  destruct (packable_init_flags lb pi limit alignment (Some flags) lifetime_packable Hpi) as [p Hp]; [cbn; by rewrite lifetime_length|].
  rewrite Hp. cbn. destruct (wj_ints _ _ _ Hwj) as (I1 & I2 & I3).
  pose proof (init_agrees lb pi limit alignment (Some flags) lifetime_live lifetime_fits I1 I2) as Hag. rewrite Hp in Hag.
  destruct (ref_init lb pi limit alignment (Some flags)) as [r|]; [|done]. destruct Hag as (Hrel & _ & Hsz & _).
  split; cbn; [done|]. exists flags. split_and!; [|intros i f Hf|done].
  - split; [rewrite (bt_limit _ _ _ _ t Ht), (bt_alignment _ _ _ _ t Ht); by exists r | |].
    + rewrite (rel_sizes _ _ _ _ _ Hrel), Hsz. apply list_eq. intros i. rewrite list_lookup_fmap. destruct (lb !! i) as [b'|] eqn:Eb.
      * apply lifetime_lookup in Eb as (b & c & Hb & Hc & ->). cbn. unfold sizes_of. by rewrite lookup_zip_with, (bt_bufs _ _ _ _ t Ht), Hb, Hc.
      * cbn. symmetry. apply lookup_ge_None. rewrite length_sizes by apply Hw. apply lookup_ge_None in Eb. by rewrite lifetime_length, <- (bt_bufs _ _ _ _ t Ht) in Eb.
    + unfold native_init in Hp. repeat (apply bind_Ok in Hp as (? & _ & Hp)). injection Hp as <-. by rewrite (proj2 (recompute_fields _)).
  - destruct (Forall2_lookup_r _ _ _ _ _ Hflags Hf) as (j & Hj & He). apply lookup_seq in Hj as [-> _]. exact He.
Qed.
End seed.
