(* ===== verification/CoOptimizerResult.v ===== *)
(** * What the joint search returns

    Writing a state with the search's invariant back gives a safe plan, and the entry
    point composes the topology, the seed, the annealing and the write-back. *)

From S2P Require Import Prelude PyDict PlanSolver GreedySolver FitSolver PermLayout Cooling Annealing CoreMapping CoreViews Tilings SplitSpace ResidencyEdge CoDivisions CoOptimizer TilingRuns CoOptimizerInv CoOptimizerMoves CoOptimizerSearch CoOptimizerPlan CoOptimizerSeed.

(** Divisions with the same key cut a buffer alike. *)
Lemma canonical_alike d d' : _canonical_key d = _canonical_key d' -> output_partition d = output_partition d' /\ tiling d = tiling d'.
Proof.
  intros [= Hs Hr Ht]. split; [|done]. unfold output_partition, output_splits.
  assert (splits d ≡ₚ splits d') as Hp.
  { rewrite <- (py_sorted_perm (fun a b : string * Z => String.leb a.1 b.1) (splits d)), Hs. apply py_sorted_perm. }
  assert (forall s, s ∈ reduction_syms d <-> s ∈ reduction_syms d') as Hi.
  { intros s. rewrite <- (elem_of_py_sorted String.leb s (reduction_syms d)), Hr. apply elem_of_py_sorted. }
  rewrite (list_filter_iff (fun s : string * Z => s.1 ∉ reduction_syms d) (fun s : string * Z => s.1 ∉ reduction_syms d')) by (intros s; by rewrite Hi).
  by rewrite Hp.
Qed.

(** Writing a configuration back: the position names the configuration's division, in the
    menu as it was or in the menu with the division registered at its end. *)
Lemma menu_position_spec menu_ds src c :
  wf_source (menu_of menu_ds) src -> source_admits (menu_of menu_ds) src c ->
  let '(pos, ds) := _menu_position (menu_of menu_ds) menu_ds c in
  exists d, ds !! pos = Some d /\ _canonical_key d = _canonical_key (division c) /\ (ds = menu_ds \/ ds = menu_ds ++ [division c]).
Proof.
  intros Hwf Hadm. unfold _menu_position. destruct (menu_index c) as [i|] eqn:Ei.
  - destruct Hadm as [(j & Hj & Hd)%elem_of_menu_of | Hgen]; [|destruct src; [done|]; destruct Hgen as [Hc _]; rewrite Hc in Ei; done].
    exists (division c). split_and!; [congruence | done | by left].
  - destruct (aget (by_key (menu_of menu_ds)) (key c)) as [c0|] eqn:Ek; cbn [mbind option_bind].
    + apply by_key_spec in Ek as [Hin Hkey]. destruct (elem_of_menu_of _ _ Hin) as (j & Hj & Hd). rewrite Hj. exists (division c0).
      split_and!; [done | exact (f_equal fst Hkey) | by left].
    + exists (division c). split_and!; [by rewrite lookup_app_r, Nat.sub_diag by lia | done | by right].
Qed.

(** What an eligible buffer has been checked for. *)
Lemma eligible_true t w i : _eligible t w i = Ok true ->
  exists b c, bufs t !! i = Some b /\ w !! i = Some c /\ residency_reason (co_buf b) = None /\ core_size b c <= lx_limit t /\
    forall j rel, (i, j, rel) ∈ edges t -> exists cj, w !! j = Some cj /\ relation_compatible rel c cj = Ok true /\
      (tilings_are_possible t = true -> is_untiled (cfg_tiling c) = true -> is_untiled (cfg_tiling cj) = true).
Proof.
  unfold _eligible. intros (b & Hb%py_at_Ok & H)%bind_Ok. case_bool_decide as Hr; [done|]. apply bind_Ok in H as (c & Hc%py_at_Ok & H).
  apply bind_Ok in H as (size & Hsz & H). rewrite (per_core_size_spec t i b c Hb) in Hsz. injection Hsz as <-.
  destruct (Z.ltb_spec (lx_limit t) (core_size b c)) as [|Hle]; [done|]. apply bind_Ok in H as (across & Hac & H). destruct across; [done|].
  exists b, c. split_and!; [done | done | by apply eq_None_not_Some | done |]. intros j rel He. apply elem_of_children in He.
  pose proof (proj1 (py_all_true _ _) H (j, rel) He) as Hj. cbn in Hj.
  apply bind_Ok in Hj as (cj & Hcj%py_at_Ok & Hcomp). exists cj. split_and!; [done | done |]. intros Hp Hu.
  unfold _read_across_a_tiling_boundary in Hac. rewrite Hp, Hu in Hac. cbn in Hac.
  assert (forall l, py_any (fun cr : nat * edge_relation => child ← py_at w cr.1; Ok (negb (is_untiled (cfg_tiling child)))) l = Ok false ->
    (j, rel) ∈ l -> is_untiled (cfg_tiling cj) = true) as Hany.
  { induction l as [|[j' rel'] l IH]; intros Hl Hin; [by apply elem_of_nil in Hin|]. cbn [py_any fst] in Hl. apply bind_Ok in Hl as (bb & Hbb & Hl).
    destruct bb; [done|]. apply elem_of_cons in Hin as [[= <- <-] | Hin]; [|by apply IH]. rewrite (py_at_lookup _ _ _ Hcj) in Hbb. cbn in Hbb.
    injection Hbb as Hbb. by apply negb_false_iff. }
  by apply (Hany (children t i)).
Qed.

(** What the co-optimizer promises of a plan, for the chosen vector [w]. *)
Record joint_plan (bs : list cobuffer) (t : topology) (w : list DivisionConfig) (out : list LifetimeBoundBuffer) : Prop := {
  (** a valid layout of the per-core buffers *)
  jp_valid : valid_plan (lx_limit t) (lx_alignment t) (at_core <$> out);
  (** only the plan's fields are written *)
  jp_frame : Forall2 (fun b b' => exists a r pos ds, (ds = core_divisions (co_buf b) \/ exists d, ds = core_divisions (co_buf b) ++ [d]) /\
    b' = set_spill_reason r (set_address a (set_chosen_division (Some pos) (set_divisions ds (co_buf b))))) bs out;
  (** the chosen position names the chosen division, from the menu or legal in the space *)
  jp_chosen : forall i b b', bs !! i = Some b -> out !! i = Some b' -> exists c pos d, w !! i = Some c /\ chosen_division b' = Some pos /\
    core_divisions b' !! pos = Some d /\ _canonical_key d = _canonical_key (division c) /\
    (d ∈ core_divisions (co_buf b) \/ exists sp, division_space b = Some sp /\ legal_division sp d);
  (** a resident buffer is not pinned, and each of its readers accepts its division *)
  jp_resident : forall i b b' x, bs !! i = Some b -> out !! i = Some b' -> address b' = Some x ->
    residency_reason (co_buf b) = None /\
    forall j cb, bs !! j = Some cb -> co_name b ∈ parents (co_buf cb) ->
      exists c cj rel, w !! i = Some c /\ w !! j = Some cj /\ (i, j, rel) ∈ edges t /\ relation_compatible rel c cj = Ok true /\
        (tilings_are_possible t = true -> is_untiled (cfg_tiling c) = true -> is_untiled (cfg_tiling cj) = true);
  (** a buffer says why exactly if it is not resident *)
  jp_reason : forall b', b' ∈ out -> address b' = None <-> is_Some (spill_reason b')
}.

Section result.
Context {F : Type} `{!FloatOps F} {R : Type} `{!Random F R} `{!RandBelow R} (E : exn -> Prop).
Context (bs : list cobuffer) (limit alignment : Z) (Hwj : wf_joint bs limit alignment).
Context (t : topology) (Ht : built bs limit alignment E t).
Context (w0 : list DivisionConfig) (Hw0 : vector_ok t w0).
Notation lb := (_lifetime_buffers t (sizes_of t w0)).
Context (s : cstate) (Hs : state_ok t lb s).

#[local] Notation Hwt := (built_wf bs limit alignment Hwj E t Ht).
#[local] Notation w := (chosen s).
#[local] Notation addresses := (n_addresses (packer s)).

Definition written (b : cobuffer) (c : DivisionConfig) (a : option Z) : LifetimeBoundBuffer := write_one (menu_at b) c a (co_buf b).

Lemma written_addresses : length addresses = length bs.
Proof.
  destruct Hs as [_ (flags & Hp & _)]. destruct (packs_length _ _ _ _ _ _ Hp) as (_ & _ & _ & _ & ->).
  by eapply lifetime_length.
Qed.

(** The written buffers, one per buffer of the problem. *)
Definition writes (out : list LifetimeBoundBuffer) : Prop :=
  length out = length bs /\ forall i b' , out !! i = Some b' <-> exists b c a, bs !! i = Some b /\ w !! i = Some c /\ addresses !! i = Some a /\ b' = written b c a.

Lemma written_back : exists out, _write_back t s = Ok out /\ writes out.
Proof.
  unfold _write_back. pose proof (so_vector _ _ _ Hs) as Hv.
  destruct (wp_total (py_map (fun ib => config ← py_at w ib.1; addr ← py_at addresses ib.1; menu ← py_at (menus t) ib.1;
    Ok (write_one menu config addr (co_buf ib.2))) (enumerate (bufs t)))
    (Forall2 (fun ib b' => exists c a, w !! ib.1 = Some c /\ addresses !! ib.1 = Some a /\ b' = written ib.2 c a) (enumerate (bufs t)))) as (out & Hout & Hf).
  { apply wp_py_map. intros [i b] Hb%elem_of_positions. cbn [fst snd]. pose proof (lookup_lt_Some _ _ _ Hb) as Hi.
    apply wp_bind, wp_py_at; [by rewrite (vo_length _ _ Hv)|]. intros c Hc. apply wp_bind, wp_py_at.
    { by rewrite written_addresses, <- (bt_bufs _ _ _ _ t Ht). }
    intros a Ha. rewrite (bt_bufs _ _ _ _ t Ht) in Hb.
    assert (menus t !! i = Some (menu_at b)) as Hm by (by rewrite (bt_menus _ _ _ _ t Ht), list_lookup_fmap, Hb).
    rewrite (py_at_lookup _ _ _ Hm). cbn. by exists c, a. }
  exists out. split; [done|]. rewrite (bt_bufs _ _ _ _ t Ht) in Hf. pose proof (Forall2_length _ _ _ Hf) as Hlen.
  unfold enumerate in Hlen. rewrite length_zip, length_seq in Hlen. split; [lia|]. intros i b'. split.
  - intros Hb'. destruct (Forall2_lookup_r _ _ _ _ _ Hf Hb') as ([j b] & Hj & c & a & Hc & Ha & ->). unfold enumerate in Hj.
    apply lookup_zip_with_Some in Hj as (? & ? & [= <- <-] & Hjs & Hb). apply lookup_seq in Hjs as [-> _]. cbn in *. by exists b, c, a.
  - intros (b & c & a & Hb & Hc & Ha & ->). assert (enumerate bs !! i = Some (i, b)) as He.
    { unfold enumerate. rewrite lookup_zip_with. rewrite lookup_seq_lt by (by eapply lookup_lt_Some). cbn. by rewrite Hb. }
    destruct (Forall2_lookup_l _ _ _ _ _ Hf He) as (b' & Hb' & c' & a' & Hc' & Ha' & ->). cbn in *. congruence.
Qed.

Lemma at_core_fields b : address (at_core b) = address b /\ buf_name (at_core b) = buf_name b /\ in_place_parents (at_core b) = in_place_parents b /\
  start_time (at_core b) = start_time b /\ end_time (at_core b) = end_time b.
Proof. unfold at_core. destruct (chosen_division b) as [i|]; [destruct (per_core_size b i)|]; done. Qed.

Lemma written_shape i b c a : bs !! i = Some b -> admitted t i c ->
  exists pos ds d, written b c a = set_spill_reason (match a with None => Some (spilled_reason (co_buf b)) | Some _ => None end)
      (set_address a (set_chosen_division (Some pos) (set_divisions ds (co_buf b)))) /\
    ds !! pos = Some d /\ _canonical_key d = _canonical_key (division c) /\
    (ds = core_divisions (co_buf b) \/ ds = core_divisions (co_buf b) ++ [division c]).
Proof.
  intros Hb Hadm. destruct (built_admitted bs limit alignment Hwj E t Ht i b c Hb Hadm) as (src & _ & _ & Hwf & Ha).
  unfold written, write_one. pose proof (menu_position_spec _ src c Hwf Ha) as Hpos.
  fold (menu_at b) in Hpos. destruct (_menu_position (menu_at b) (core_divisions (co_buf b)) c) as [pos ds]. destruct Hpos as (d & H1 & H2 & H3). by exists pos, ds, d.
Qed.

(** The per-core size of a written buffer is the size the packer placed. *)
Lemma written_size i b c a : bs !! i = Some b -> admitted t i c -> 0 <= buf_size (co_buf b) -> buf_size (at_core (written b c a)) = core_size b c.
Proof.
  intros Hb Hadm Hsz. destruct (written_shape i b c a Hb Hadm) as (pos & ds & d & -> & Hd & Hk & _). unfold at_core, per_core_size. cbn. rewrite Hd. cbn.
  destruct (canonical_alike _ _ Hk) as [-> ->]. unfold core_size. fold (cfg_tiling c). rewrite Z.max_r; [done|].
  pose proof (wt_pieces t Hwt i c Hadm) as Hp. unfold ceil_div. pose proof (neg_div_neg_spec (buf_size (co_buf b)) (output_partition (division c) * output_tile_count (cfg_tiling c)) ltac:(lia)). nia.
Qed.

(** A placed position: its buffer is eligible, hence sized. *)
Lemma placed_eligible i x : addresses !! i = Some (Some x) -> _eligible t w i = Ok true.
Proof.
  intros Hi. destruct (so_packed _ _ _ Hs) as (flags & Hp & Hf & _). pose proof (lookup_lt_Some _ _ _ Hi) as Hlt. rewrite written_addresses in Hlt.
  assert (length lb = length bs) as Hlb by (by eapply lifetime_length).
  destruct (packs_placed lb (lx_limit t) (lx_alignment t)) with (sizes := sizes_of t w) (flags := flags) (p := packer s) as (_ & Honly & _); [|done|].
  { rewrite (bt_alignment _ _ _ _ t Ht). by destruct (wj_ints _ _ _ Hwj) as (_ & _ & ?). }
  destruct (packs_length _ _ _ _ _ _ Hp) as (_ & Hlf & _). destruct (lookup_lt_is_Some_2 flags i ltac:(lia)) as [f Hfi].
  destruct f; [by apply Hf|]. exfalso. apply (Honly i x); [apply elem_of_seq; lia | by apply flag_lookup | unfold addr_of; by rewrite Hi].
Qed.

Lemma placed_sized i b x : bs !! i = Some b -> addresses !! i = Some (Some x) -> 0 <= buf_size (co_buf b) /\ residency_reason (co_buf b) = None.
Proof.
  intros Hb Hx. destruct (eligible_true t w i (placed_eligible i x Hx)) as (b' & c & Hb' & _ & Hr & _). rewrite (bt_bufs _ _ _ _ t Ht), Hb in Hb'.
  injection Hb' as <-. split; [|done]. destruct (wj_sized _ _ _ Hwj b) as [? | Hp]; [by eapply list_elem_of_lookup_2 | done|].
  rewrite Hr in Hp. by destruct Hp.
Qed.

Context (out : list LifetimeBoundBuffer) (Hout : writes out).

(** A placed entry of the plan, at the size the packer knows. *)
Lemma resident_entry i b' x : (at_core <$> out) !! i = Some b' -> address b' = Some x ->
  exists b c, bs !! i = Some b /\ w !! i = Some c /\ admitted t i c /\ addresses !! i = Some (Some x) /\ b' = at_core (written b c (Some x)) /\
    buf_size b' = zat (sizes_of t w) i /\ i ∈ seq 0 (length lb) /\ addr_of addresses i = Some x.
Proof.
  rewrite list_lookup_fmap. destruct (out !! i) as [b0|] eqn:Ei; [|done]. intros [= <-] Hx. apply Hout in Ei as (b & c & a & Hb & Hc & Ha & ->).
  pose proof (vo_admitted _ _ (so_vector _ _ _ Hs) i c Hc) as Hadm. destruct (at_core_fields (written b c a)) as (Hf & _). rewrite Hf in Hx.
  assert (address (written b c a) = a) as Haddr by (by destruct (written_shape i b c a Hb Hadm) as (pos & ds & d & -> & _)).
  rewrite Haddr in Hx. subst a. destruct (placed_sized i b x Hb Ha) as [Hsz _]. exists b, c. split_and!; try done.
  - rewrite (written_size i b c _ Hb Hadm Hsz). unfold zat, sizes_of. by rewrite lookup_zip_with, (bt_bufs _ _ _ _ t Ht), Hb, Hc.
  - apply elem_of_seq. assert (length lb = length bs) as -> by (by eapply lifetime_length). apply lookup_lt_Some in Hb. lia.
  - unfold addr_of. by rewrite Ha.
Qed.

(** Lifetimes and in-place pairs of the plan are those of the packer's buffers. *)
Lemma resident_lifetime i b c a : bs !! i = Some b -> admitted t i c -> exists b0, lb !! i = Some b0 /\
  start_time (at_core (written b c a)) = start_time b0 /\ end_time (at_core (written b c a)) = end_time b0 /\
  buf_name (at_core (written b c a)) = buf_name b0 /\ (forall p, p ∈ in_place_parents b0 -> p ∈ in_place_parents (at_core (written b c a))).
Proof.
  intros Hb Hadm. assert (exists c0, w0 !! i = Some c0 /\ lb !! i = Some (lifetime_buffer t (core_size b c0) b)) as (c0 & _ & Hl) by (by eapply lifetime_at).
  eexists. split; [exact Hl|]. destruct (at_core_fields (written b c a)) as (_ & -> & -> & -> & ->).
  destruct (written_shape i b c a Hb Hadm) as (pos & ds & d & -> & _). split_and!; try done. intros p Hp. cbn in *. by apply list_elem_of_filter in Hp as [_ ?].
Qed.

Lemma shared_hands_over i j bi bj ci cj x :
  bs !! i = Some bi -> bs !! j = Some bj -> admitted t i ci -> admitted t j cj ->
  buf_size (at_core (written bi ci (Some x))) = zat (sizes_of t w) i -> buf_size (at_core (written bj cj (Some x))) = zat (sizes_of t w) j ->
  declares lb j i = true -> zat (sizes_of t w) j <= zat (sizes_of t w) i ->
  hands_over (at_core (written bi ci (Some x))) (at_core (written bj cj (Some x))).
Proof.
  intros Hi Hj Ai Aj Si Sj Hd Hle. destruct (resident_lifetime i bi ci (Some x) Hi Ai) as (p0 & Hp0 & _ & Ep & Np & _).
  destruct (resident_lifetime j bj cj (Some x) Hj Aj) as (c0 & Hc0 & Sc & _ & _ & Pc).
  assert (buf_name p0 ∈ in_place_parents c0) as Hmem by (unfold declares in Hd; rewrite Hc0, Hp0 in Hd; by apply bool_decide_eq_true in Hd).
  split_and!.
  - apply Pc. by rewrite Np.
  - rewrite Ep, Sc. refine (proj1 (lifetime_pair E bs limit alignment Hwj t Ht w0 Hw0 c0 p0 _ _ Hmem)); by eapply list_elem_of_lookup_2.
  - destruct (at_core_fields (written bi ci (Some x))) as (-> & _). destruct (at_core_fields (written bj cj (Some x))) as (-> & _).
    destruct (written_shape i bi ci (Some x) Hi Ai) as (? & ? & ? & -> & _). by destruct (written_shape j bj cj (Some x) Hj Aj) as (? & ? & ? & -> & _).
  - by rewrite Si, Sj.
Qed.

Lemma result_valid : valid_plan (lx_limit t) (lx_alignment t) (at_core <$> out).
Proof.
  destruct (so_packed _ _ _ Hs) as (flags & Hp & _ & _).
  assert (0 < lx_alignment t) as Hal by (rewrite (bt_alignment _ _ _ _ t Ht); by destruct (wj_ints _ _ _ Hwj) as (_ & _ & ?)).
  destruct (packs_placed lb (lx_limit t) (lx_alignment t) Hal _ _ _ Hp) as ([Hrange Hapart] & _ & _). split.
  - intros b x (i & Hi)%list_elem_of_lookup Hx. destruct (resident_entry i b x Hi Hx) as (b0 & c & _ & _ & _ & _ & _ & Hsz & Hin & Ha).
    destruct (Hrange i x Hin Ha) as (H1 & H2 & _). by rewrite Hsz.
  - intros b x (i & Hi)%list_elem_of_lookup Hx. destruct (resident_entry i b x Hi Hx) as (b0 & c & _ & _ & _ & _ & _ & _ & Hin & Ha).
    by destruct (Hrange i x Hin Ha) as (_ & _ & H3).
  - intros i j b1 b2 Hij H1 H2 x y Hx Hy Hov.
    destruct (resident_entry i b1 x H1 Hx) as (bi & ci & Hbi & Hci & Ai & Adi & -> & Szi & Ini & Adri).
    destruct (resident_entry j b2 y H2 Hy) as (bj & cj & Hbj & Hcj & Aj & Adj & -> & Szj & Inj & Adrj).
    assert (r_overlaps lb i j = true) as Hov'.
    { destruct (resident_lifetime i bi ci (Some x) Hbi Ai) as (l1 & L1 & S1 & E1 & _). destruct (resident_lifetime j bj cj (Some y) Hbj Aj) as (l2 & L2 & S2 & E2 & _).
      unfold r_overlaps. rewrite L1, L2. unfold overlaps_in_time in *. by rewrite <- S1, <- S2, <- E1, <- E2. }
    destruct (Hapart i j x y Ini Inj ltac:(lia) Adri Adrj Hov') as [Hd | [-> Hsh]]; [left; by rewrite Szi, Szj|]. right.
    destruct Hsh as [[Hd Hle] | [Hd Hle]]; [left | right]; by eapply shared_hands_over.
Qed.

Lemma result_plan : joint_plan bs t w out.
Proof.
  pose proof (so_vector _ _ _ Hs) as Hv. destruct Hout as [Hlen Hw]. split.
  - apply result_valid.
  - apply Forall2_same_length_lookup_2; [done|]. intros i b b' Hb Hb'. apply Hw in Hb' as (b2 & c & a & Hb2 & Hc & Ha & ->).
    assert (b2 = b) as -> by congruence. destruct (written_shape i b c a Hb (vo_admitted _ _ Hv i c Hc)) as (pos & ds & d & -> & _ & _ & Hds).
    eexists a, _, pos, ds. split; [|reflexivity]. destruct Hds as [-> | ->]; [by left | right; eauto].
  - intros i b b' Hb Hb'. apply Hw in Hb' as (b2 & c & a & Hb2 & Hc & Ha & ->). assert (b2 = b) as -> by congruence.
    pose proof (vo_admitted _ _ Hv i c Hc) as Hadm. destruct (written_shape i b c a Hb Hadm) as (pos & ds & d & -> & Hd & Hk & Hds).
    exists c, pos, d. split_and!; try done. destruct Hds as [-> | ->]; [left; by eapply list_elem_of_lookup_2|].
    apply lookup_app_Some in Hd as [Hd | [_ Hd]]; [left; by eapply list_elem_of_lookup_2|]. apply list_lookup_singleton_Some in Hd as [_ <-].
    destruct (built_admitted bs limit alignment Hwj E t Ht i b c Hb Hadm) as (src & _ & Hsrc & _ & [Hm | Hg]).
    + left. apply elem_of_menu_of in Hm as (k & _ & Hk'). by eapply list_elem_of_lookup_2.
    + right. destruct src as [|sp seed]; [done|]. exists sp. split; [by eapply source_generated | by apply Hg].
  - intros i b b' x Hb Hb' Hx. apply Hw in Hb' as (b2 & c & a & Hb2 & Hc & Ha & ->). assert (b2 = b) as -> by congruence.
    assert (address (written b c a) = a) as Haddr by (by destruct (written_shape i b c a Hb (vo_admitted _ _ Hv i c Hc)) as (? & ? & ? & -> & _)).
    rewrite Haddr in Hx. subst a. split; [by apply (placed_sized i b x)|]. intros j cb Hj Hpar.
    destruct (eligible_true t w i (placed_eligible i x Ha)) as (b3 & c3 & _ & Hc3 & _ & _ & Hch). assert (c3 = c) as -> by congruence.
    destruct (bt_complete _ _ _ _ t Ht i j b cb Hb Hj Hpar) as [rel He]. destruct (Hch j rel He) as (cj & Hcj & Hcomp & Htile). by exists c, cj, rel.
  - intros b' (i & Hi)%list_elem_of_lookup. apply Hw in Hi as (b & c & a & Hb & Hc & Ha & ->).
    destruct (written_shape i b c a Hb (vo_admitted _ _ Hv i c Hc)) as (pos & ds & d & -> & _). cbn. destruct a; cbn; [split; [done | by intros []] | by split; [eexists|]].
Qed.
End result.

(** ** The entry point *)

Section run.
Context {F : Type} `{!FloatOps F} {R : Type} `{!Random F R} `{!RandBelow R} (E : exn -> Prop).
Context (bs : list cobuffer) (limit alignment : Z).
Context (cost_expr : option (list cost_symbol * (list Z -> res Z))) (fixed_us : Z -> Z).

(** What the caller provides: a well-formed problem whose geometry, floats and cost
    expression raise only [E]. *)
Record joint_input : Prop := {
  ji_problem : wf_joint bs limit alignment;
  ji_geometry : geometry (F:=F) (R:=R) E bs;
  ji_numerics : numerics (F:=F) E;
  ji_price : forall t f w resident, _precompute_topology bs limit alignment = Ok t -> _build_score_fn t cost_expr = Some f ->
    vector_ok t w -> wp E (f w resident) (fun _ => True)
}.

Context (Hin : joint_input).

(** A run: the seed, the best state and what is written of it. *)
Record run_of (t : topology) (s0 s : cstate) (out : list LifetimeBoundBuffer) (score : Z) : Prop := {
  ro_topology : _precompute_topology bs limit alignment = Ok t;
  ro_built : built bs limit alignment E t;
  ro_seed : seed_state t = Ok s0;
  ro_state : exists w0, vector_ok t w0 /\ state_ok t (_lifetime_buffers t (sizes_of t w0)) s /\ state_ok t (_lifetime_buffers t (sizes_of t w0)) s0;
  ro_score : _score t cost_expr fixed_us s = Ok score;
  ro_best : forall z0, _score t cost_expr fixed_us s0 = Ok z0 -> score <= z0;
  ro_written : _write_back t s = Ok out
}.

Lemma plan_run (r : R) : bs <> [] ->
  wp E (plan_layout_and_core_divisions cost_expr fixed_us r limit alignment bs) (fun os => exists t s0 s, run_of t s0 s os.1 os.2).
Proof.
  intros Hne. destruct Hin as [Hwj Hgeo Hnum Hprice]. unfold plan_layout_and_core_divisions. rewrite bool_decide_false by done. apply wp_bind.
  pose proof (topology_built bs limit alignment Hwj E Hgeo) as Htop. destruct (_precompute_topology bs limit alignment) as [t|e] eqn:Et; [|done].
  cbn [wp] in *. unfold seed_state. apply wp_bind.
  assert (wp E (w ← py_map source_seed (sources t); pe ← _build_seed_packer t w; Ok (mkState w pe.1 pe.2))
    (fun s0 => exists w0, vector_ok t w0 /\ state_ok t (_lifetime_buffers t (sizes_of t w0)) s0)) as Hseed.
  { apply wp_bind. eapply wp_mono; [by eapply seed_vector|]. intros w0 Hw0. apply wp_bind. eapply wp_mono; [by eapply seed_packer|].
    intros pe Hpe. cbn. by exists w0. }
  destruct (w ← py_map source_seed (sources t); pe ← _build_seed_packer t w; Ok (mkState w pe.1 pe.2)) as [s0|e] eqn:Es; [|done].
  cbn [wp] in *. destruct Hseed as (w0 & Hw0 & Hs0). pose proof (seed_setting E bs limit alignment Hwj Hgeo t Htop w0 Hw0) as Hset.
  assert (forall f w resident, _build_score_fn t cost_expr = Some f -> vector_ok t w -> wp E (f w resident) (fun _ => True)) as Hpr
    by (intros f w resident; by apply Hprice).
  pose proof (score_ok t E _ cost_expr fixed_us Hpr s0 Hs0) as Hsc.
  destruct (_score t cost_expr fixed_us s0) as [z0|e] eqn:Ez; [|apply wp_bind; unfold _anneal; rewrite Ez; done].
  apply wp_bind. eapply wp_mono; [exact (anneal_ok t E _ cost_expr fixed_us Hpr Hnum z0 s0 r Hs0 Ez)|].
  intros [s z] (Hs & Hz & Hle). cbn [fst snd] in *.
  destruct (written_back E bs limit alignment t Htop w0 Hw0 s Hs) as (out & Hout & _). rewrite Hout. cbn. exists t, s0, s. split; try done.
  - exists w0. split_and!; done.
  - intros z1 Hz1. rewrite Ez in Hz1. by injection Hz1 as <-.
Qed.
End run.

Section claims.
Context {F : Type} `{!FloatOps F} {R : Type} `{!Random F R} `{!RandBelow R}.

(** C21. The joint search returns safe plans only. On a well-formed problem (sizes, capacity and
    alignment of at most 2^61, so that no int64_t sum of the packer wraps) it either raises an
    exception the geometry, the floats or the cost expression raises, or it returns a plan that
    is valid for the scratchpad at the chosen per-core sizes (in range, aligned, no two live
    buffers overlapping outside an in-place handover), changes only the plan's fields, names for
    every buffer an offered or legal division, and keeps a buffer resident only if it is not
    pinned and every operation that reads it accepts its division. *)
Theorem joint_plan_safe (E : exn -> Prop) bs limit alignment cost_expr fixed_us (r : R) :
  joint_input (F:=F) (R:=R) E bs limit alignment cost_expr -> bs <> [] ->
  wp E (plan_layout_and_core_divisions cost_expr fixed_us r limit alignment bs)
    (fun os => exists t w, _precompute_topology bs limit alignment = Ok t /\ lx_limit t = limit /\ lx_alignment t = alignment /\
       joint_plan bs t w os.1).
Proof.
  intros Hin Hne. eapply wp_mono; [by apply plan_run|]. intros [out z] (t & s0 & s & H). pose proof (ji_problem _ _ _ _ _ Hin) as Hwj.
  destruct (ro_state _ _ _ _ _ _ _ _ _ _ _ H) as (w0 & Hw0 & Hs & _). pose proof (ro_built _ _ _ _ _ _ _ _ _ _ _ H) as Ht.
  destruct (written_back E bs limit alignment t Ht w0 Hw0 s Hs) as (out' & Hout & Hw). rewrite (ro_written _ _ _ _ _ _ _ _ _ _ _ H) in Hout.
  injection Hout as <-. exists t, (chosen s). split_and!; [apply H | apply Ht | apply Ht |]. by eapply result_plan.
Qed.

(** The joint search never returns worse than its seed: the reported score is exactly
    the score of the state that is written back, and it is at most the seed's. *)
Theorem joint_plan_improves (E : exn -> Prop) bs limit alignment cost_expr fixed_us (r : R) :
  joint_input (F:=F) (R:=R) E bs limit alignment cost_expr -> bs <> [] ->
  wp E (plan_layout_and_core_divisions cost_expr fixed_us r limit alignment bs)
    (fun os => exists t s0 s, _precompute_topology bs limit alignment = Ok t /\ seed_state t = Ok s0 /\ _write_back t s = Ok os.1 /\
       _score t cost_expr fixed_us s = Ok os.2 /\ forall z0, _score t cost_expr fixed_us s0 = Ok z0 -> os.2 <= z0).
Proof.
  intros Hin Hne. eapply wp_mono; [by apply plan_run|]. intros [out z] (t & s0 & s & []). by exists t, s0, s.
Qed.

Lemma menu_geometry (E : exn -> Prop) bs : (forall b, b ∈ bs -> division_space b = None) -> geometry (F:=F) (R:=R) E bs.
Proof. intros H. split; intros *; intros Hb Hs; rewrite (H _ Hb) in Hs; done. Qed.

(** C22. The joint search returns. On a well-formed problem (sizes, capacity and alignment of at
    most 2^61) whose divisions come from menus, without a cost expression and with floats whose
    weights and temperatures do not vanish, it raises nothing: it ends after its step budget
    with a plan. *)
Theorem joint_plan_returns bs limit alignment fixed_us (r : R) :
  wf_joint bs limit alignment -> (forall b, b ∈ bs -> division_space b = None) -> numerics (F:=F) (fun _ => False) -> bs <> [] ->
  exists out score, plan_layout_and_core_divisions None fixed_us r limit alignment bs = Ok (out, score) /\ length out = length bs.
Proof.
  intros Hwj Hmenu Hnum Hne. assert (joint_input (F:=F) (R:=R) (fun _ => False) bs limit alignment None) as Hin by (split; [done | by apply menu_geometry | done | done]).
  destruct (wp_total _ _ (plan_run (fun _ => False) bs limit alignment None fixed_us Hin r Hne)) as ([out z] & Hrun & t & s0 & s & H).
  exists out, z. split; [done|]. destruct (ro_state _ _ _ _ _ _ _ _ _ _ _ H) as (w0 & Hw0 & Hs & _). pose proof (ro_built _ _ _ _ _ _ _ _ _ _ _ H) as Ht.
  destruct (written_back (fun _ => False) bs limit alignment t Ht w0 Hw0 s Hs) as (out' & Hout & [Hlen _]).
  rewrite (ro_written _ _ _ _ _ _ _ _ _ _ _ H) in Hout. injection Hout as <-. done.
Qed.
End claims.
