(* ===== verification/CoOptimizerExamples.v ===== *)
(** * A problem for the joint search

    Three operations in a chain with menus of divisions, over micro-unit fixed-point
    floats and a linear congruential generator: the hypotheses of the search's theorems
    hold of it. *)

From S2P Require Import Prelude PyDict PlanSolver GreedySolver FitSolver PermLayout Cooling Annealing CoreMapping CoreViews Tilings SplitSpace ResidencyEdge CoDivisions CoOptimizer TilingRuns CoOptimizerInv CoOptimizerMoves CoOptimizerSearch CoOptimizerPlan CoOptimizerSeed CoOptimizerResult.

(** Floats as millionths; the power and the exponential are linear. *)
Definition micro : FloatOps Z := {|
  f_Z := fun z => 1000000 * z;
  f_add := Z.add;
  f_sub := Z.sub;
  f_mul := fun a b => a * b / 1000000;
  f_div := fun a b => a * 1000000 / b;
  f_pow := fun a b => a * b / 1000000 + 1000000 - b;
  f_min := Z.min;
  f_neg := Z.opp;
  f_log := fun a => a - 1000000;
  f_exp := fun a => 1000000 + a;
  f_sqrt := fun a => Z.sqrt (a * 1000000);
  f_ltb := Z.ltb;
  f_eqb := Z.eqb
|}.

Definition lcg (r : Z) : Z := (r * 1103515245 + 12345) mod 2147483648.

Definition lcg_random : Random Z Z := fun r => (lcg r mod 1000000, lcg r).

Lemma lcg_below_lt n (r : Z) : (0 < n)%nat -> ((Nat.modulo (Z.to_nat (lcg r / 65536)) n, lcg r).1 < n)%nat.
Proof. intros H. cbn. apply Nat.mod_upper_bound. lia. Qed.

Definition lcg_below : RandBelow Z := {|
  randbelow := fun n r => (Nat.modulo (Z.to_nat (lcg r / 65536)) n, lcg r);
  randbelow_lt := lcg_below_lt
|}.

#[local] Existing Instances micro lcg_random lcg_below.

Definition chain_division (cores : Z) : CoreDivision :=
  mkDivision (if 1 <? cores then [("d0"%string, cores)] else []) [] UNTILED [].

Definition chain_buffer (name : string) (size : Z) (us : list Z) (ps : list string) (m : gmap string (list (nat * nat)))
    (kind : BufferType) (position : nat) : cobuffer :=
  mkCo (mkBuffer name size us false None [] None None None None [] None (chain_division <$> [1; 2; 4]) ps m None)
    kind (Some position) [] None [].

Definition alike : list (nat * nat) := [(0, 0); (1, 1); (2, 2)]%nat.

Definition chain : list cobuffer :=
  [ chain_buffer "a" 512 [0; 1] [] ∅ Intermediate 0;
    chain_buffer "b" 512 [1; 2] ["a"%string] {[ "a"%string := alike ]} Intermediate 1;
    chain_buffer "c" 1024 [2; 3] ["b"%string] {[ "b"%string := alike ]} Output 2 ].

Lemma chain_elem (P : cobuffer -> Prop) : Forall P chain -> forall b, b ∈ chain -> P b.
Proof. intros H. by apply Forall_forall. Qed.

(** Prove a property of the three buffers one by one. *)
Ltac each_buffer tac := apply chain_elem; repeat (apply Forall_cons; split); try (apply Forall_nil; exact I); tac.

Lemma chain_wf : wf_joint chain 512 128.
Proof.
  split.
  - apply (bool_decide_unpack _). vm_compute. exact I.
  - each_buffer ltac:(done).
  - each_buffer ltac:(left; cbn; lia).
  - each_buffer ltac:(done).
  - done.
  - intros c p Hc Hp H. enough (in_place_parents (co_buf c) = []) as He by (rewrite He in H; by apply elem_of_nil in H).
    clear H. revert c Hc. each_buffer ltac:(done).
  - each_buffer ltac:(split; [done | apply (bool_decide_unpack _); vm_compute; exact I]).
  - apply (bool_decide_unpack _). vm_compute. exact I.
  - intros b sp Hb. enough (division_space b = None) as -> by done. revert b Hb. each_buffer ltac:(done).
  - intros c p e psp csp Hc Hp _ _ Hs. enough (division_space p = None) as He by congruence. clear Hs. revert p Hp. each_buffer ltac:(done).
  - intros c p ip ic Hc Hp _ Hin.
    assert (Forall (fun c => Forall (fun p => Forall (fun ij : nat * nat => (ij.1 < length (core_divisions (co_buf p)))%nat /\ (ij.2 < length (core_divisions (co_buf c)))%nat)
      (default [] (cd_parent_matches (co_buf c) !! co_name p))) chain) chain) as H by (apply (bool_decide_unpack _); vm_compute; exact I).
    rewrite Forall_forall in H. specialize (H c Hc). rewrite Forall_forall in H. specialize (H p Hp). rewrite Forall_forall in H. exact (H (ip, ic) Hin).
Qed.

Lemma chain_menus b : b ∈ chain -> division_space b = None.
Proof. revert b. each_buffer ltac:(done). Qed.

(** ** The floats *)

Lemma last_accumulate_pos (ws : list Z) : forall a x, Forall (fun w => 0 < w) ws -> 0 < a -> last (a :: f_accumulate a ws) = Some x -> 0 < x.
Proof.
  induction ws as [|w ws IH]; intros a x Hws Ha Hl; [injection Hl as <-; done|]. apply Forall_cons in Hws as [Hw Hws].
  apply (IH (a + w) x Hws); [lia|]. exact Hl.
Qed.

Lemma median_large l : l <> [] -> Forall (fun d => 0 < d) l -> 1000000 <= median l.
Proof.
  intros Hne Hpos. unfold median. set (data := py_sorted Z.leb l). assert (length data = length l) as Hlen by apply length_py_sorted.
  assert (0 < length l)%nat by (destruct l; [done | cbn; lia]).
  assert (forall k, (k < length data)%nat -> 1 <= zat data k) as Hat.
  { intros k Hk. destruct (lookup_lt_is_Some_2 data k Hk) as [z Hz]. unfold zat. rewrite Hz. cbn. apply list_elem_of_lookup_2 in Hz.
    unfold data in Hz. rewrite elem_of_py_sorted in Hz. rewrite Forall_forall in Hpos. specialize (Hpos z Hz). cbn in Hpos. lia. }
  pose proof (Nat.div_lt (length data) 2 ltac:(lia) ltac:(lia)) as Hd. rewrite Hlen in *. cbn [f_div f_Z micro]. case_match eqn:Ee.
  - apply Nat.even_spec in Ee as [m Hm]. assert (length l / 2 = m)%nat as Hdm by (rewrite Hm, Nat.mul_comm; apply Nat.div_mul; lia).
    pose proof (Hat (length l / 2 - 1)%nat ltac:(lia)). pose proof (Hat (length l / 2)%nat ltac:(lia)).
    set (a := zat data (length l / 2 - 1)) in *. set (b := zat data (length l / 2)) in *.
    replace (1000000 * (a + b) * 1000000) with ((a + b) * 500000 * (1000000 * 2)) by lia. rewrite Z.div_mul by lia. lia.
  - pose proof (Hat (length l / 2)%nat ltac:(lia)). lia.
Qed.

Lemma start_large t0 : start_temperature t0 -> 1000000 <= t0.
Proof. intros [-> | (l & Hne & Hpos & ->)]; [cbn; lia | by apply median_large]. Qed.

Lemma micro_numerics : numerics (fun _ => False).
Proof.
  split; right.
  - intros ms total Hne _ Hl. cbn. apply Z.ltb_lt. destruct ms as [|m ms]; [done|].
    assert (0 < total); [|lia]. eapply (last_accumulate_pos (move_weight <$> ms) (move_weight m)); [| |exact Hl].
    + apply Forall_fmap, Forall_forall. intros [| |] _; vm_compute; done.
    + destruct m; vm_compute; done.
  - intros t0 H%start_large. cbn. apply Z.eqb_neq. lia.
  - intros t0 T steps step H%start_large Hs. unfold cooled. cbn [f_eqb micro]. rewrite (proj2 (Z.eqb_neq _ _)) by (cbn; lia). cbn [raise_if mbind res_bind].
    intros [= <-]. cbn [f_mul f_pow f_div f_Z micro]. apply Z.eqb_neq. set (frac := if (1 <? steps)%nat then _ else _).
    assert (0 <= frac <= 1000000) as Hfrac.
    { unfold frac. destruct (Nat.ltb_spec 1 steps); [|cbn; lia]. set (m := Z.of_nat (steps - 1)). assert (0 < m) by (unfold m; lia).
      assert (0 <= Z.of_nat step <= m) as Hsm by (unfold m; lia). cbn. split; [apply Z.div_pos; lia|]. apply Z.div_le_upper_bound; lia. }
    set (t_end := f_max _ _). assert (0 <= t_end /\ t0 * 1000000 / (1000000 * 1000) <= t_end) as [Hend0 Hend].
    { unfold t_end, f_max. cbn. pose proof (Z.div_pos (t0 * 1000000) (1000000 * 1000) ltac:(lia) ltac:(lia)).
      change (1000000 * 1 * 1000000 / (1000000 * 10 ^ 9)) with 0. destruct (Z.ltb_spec (t0 * 1000000 / (1000000 * 1000)) 0); lia. }
    clearbody t_end frac. assert (1 <= t_end * 1000000 / t0) as Hratio.
    { apply Z.div_le_lower_bound; [lia|]. pose proof (Z.div_mod (t0 * 1000000) (1000000 * 1000) ltac:(lia)). pose proof (Z.mod_pos_bound (t0 * 1000000) (1000000 * 1000) ltac:(lia)). lia. }
    set (a := t_end * 1000000 / t0) in *. clearbody a. set (q := a * frac / 1000000). assert (0 <= q) by (apply Z.div_pos; lia).
    assert (1 <= q + 1000000 - frac) as Hpow.
    { destruct (Z.eq_dec frac 1000000) as [-> | Hne]; [|lia]. unfold q. rewrite Z.div_mul by lia. lia. }
    enough (1 <= t0 * (q + 1000000 - frac) / 1000000) by (cbn in *; lia). apply Z.div_le_lower_bound; nia.
Qed.

(** ** Witnesses *)

Lemma chain_input : joint_input (F:=Z) (R:=Z) (fun _ => False) chain 512 128 None.
Proof. split; [exact chain_wf | apply menu_geometry, chain_menus | exact micro_numerics | done]. Qed.

(** The seed of the chain, in its setting. *)
Lemma chain_seed : exists t lb s, setting (F:=Z) (R:=Z) (fun _ => False) t lb /\ state_ok t lb s /\ flippable_ops t = [0; 1; 2]%nat /\ length (bufs t) = 3%nat /\
  exists m c l, menus t !! 0%nat = Some m /\ sources t !! 0%nat = Some (MenuDivisions m) /\ m = c :: l.
Proof.
  assert ((t ← _precompute_topology chain 512 128; Ok (flippable_ops t, length (bufs t))) = Ok ([0; 1; 2]%nat, 3%nat)) as Hfl by (vm_compute; reflexivity).
  assert ((t ← _precompute_topology chain 512 128; Ok (match menus t !! 0%nat, sources t !! 0%nat with Some (c :: l), Some (MenuDivisions m) => bool_decide (length m = length (c :: l)) | _, _ => false end)) = Ok true)
    as Hm by (vm_compute; reflexivity).
  destruct (wp_total _ _ (topology_built chain 512 128 chain_wf (fun _ => False) (menu_geometry (F:=Z) (R:=Z) _ _ chain_menus))) as (t & Ht & Hb).
  rewrite Ht in Hfl, Hm. injection Hfl as Hfl Hlen. injection Hm as Hm.
  destruct (wp_total _ _ (seed_vector (fun _ => False) chain 512 128 chain_wf t Hb)) as (w & _ & Hw).
  destruct (wp_total _ _ (seed_packer (F:=Z) (R:=Z) (fun _ => False) chain 512 128 chain_wf (menu_geometry _ _ chain_menus) t Hb w Hw)) as (pe & _ & Hs).
  eexists t, _, _. split; [by apply (seed_setting (fun _ => False) chain 512 128 chain_wf (menu_geometry _ _ chain_menus) t Hb w Hw)|].
  split; [exact Hs|]. split; [exact Hfl|]. split; [exact Hlen|].
  destruct (menus t !! 0%nat) as [[|c l]|] eqn:Em; [done | | done]. destruct (sources t !! 0%nat) as [[m|]|] eqn:Es; [|done..].
  exists (c :: l), c, l. split; [done|]. split; [|done]. f_equal.
  pose proof (wt_source t (built_wf chain 512 128 chain_wf _ t Hb) 0%nat _ _ Em Es) as Hwf. cbn in Hwf. by subst.
Qed.

Lemma joint_plan_safe_witness : exists os, plan_layout_and_core_divisions None (fun b => b) 7 512 128 chain = Ok os /\ valid_plan 512 128 (at_core <$> os.1).
Proof.
  destruct (wp_total _ _ (joint_plan_safe (fun _ => False) chain 512 128 None (fun b => b) 7 chain_input ltac:(done))) as (os & Hrun & t & w & _ & Hl & Ha & Hp).
  exists os. split; [exact Hrun|]. pose proof (jp_valid _ _ _ _ Hp) as Hv. rewrite Hl, Ha in Hv. exact Hv.
Defined.

Lemma joint_plan_improves_witness : exists os t s0, plan_layout_and_core_divisions None (fun b => b) 7 512 128 chain = Ok os /\
  seed_state t = Ok s0 /\ forall z0, _score t None (fun b => b) s0 = Ok z0 -> os.2 <= z0.
Proof.
  destruct (wp_total _ _ (joint_plan_improves (fun _ => False) chain 512 128 None (fun b => b) 7 chain_input ltac:(done))) as (os & Hrun & t & s0 & s & _ & Hs & _ & _ & Hz).
  exists os, t, s0. split; [exact Hrun|]. split; [exact Hs | exact Hz].
Defined.

Lemma joint_plan_returns_witness : exists out score, plan_layout_and_core_divisions None (fun b => b) 7 512 128 chain = Ok (out, score) /\ length out = 3%nat.
Proof. exact (joint_plan_returns chain 512 128 (fun b => b) 7 chain_wf chain_menus micro_numerics ltac:(done)). Defined.

Lemma moves_keep_invariant_witness : exists t lb s s' r', state_ok t lb s /\ _execute_move t (Some Flip) s 7 = Ok (s', r') /\ state_ok t lb s'.
Proof.
  destruct chain_seed as (t & lb & s & Hset & Hs & Hfl & _).
  destruct (wp_total _ _ (moves_keep_invariant t (fun _ => False) lb Flip s 7 Hs ltac:(unfold _applicable_moves; rewrite Hfl; cbn; list_mem))) as ([s' r'] & Hrun & Hs').
  exists t, lb, s, s', r'. split; [exact Hs|]. split; [exact Hrun | exact Hs'].
Defined.

Lemma flood_colours_consistently_witness : exists t c a, _flood_region t 0 c = Ok a /\ (0%nat, c) ∈ a /\ NoDup a.*1.
Proof.
  destruct chain_seed as (t & lb & s & Hset & _ & _ & Hlen & m & c & l & Hm & Hsrc & Hc).
  destruct (wp_total _ _ (flood_colours_consistently t (fun _ => False) lb 0 c ltac:(lia)
    ltac:(exists m, (MenuDivisions m); split; [exact Hm|]; split; [exact Hsrc|]; left; subst m; list_mem))) as (a & Hrun & H1 & H2 & _).
  exists t, c, a. split; [exact Hrun|]. split; [exact H1 | exact H2].
Defined.

Lemma resident_test_exact_witness : exists t lb s, state_ok t lb s /\
  (_all_eligible_resident s = true <-> forall i, _eligible t (chosen s) i = Ok true -> exists x, n_addresses (packer s) !! i = Some (Some x)).
Proof.
  destruct chain_seed as (t & lb & s & Hset & Hs & _). exists t, lb, s. split; [exact Hs|].
  exact (resident_test_exact t (fun _ => False) lb s Hs).
Defined.

(** The search settles on four cores for every operation, and all three buffers fit. *)
Example chain_plan :
  (os ← plan_layout_and_core_divisions None (fun b => b) 7 512 128 chain;
   Ok ((fun b => (buf_name b, address b, chosen_division b)) <$> (os.1 : list LifetimeBoundBuffer), os.2))
  = Ok ([("a", Some 0, Some 2%nat); ("b", Some 128, Some 2%nat); ("c", Some 256, Some 2%nat)]%string, 0).
Proof. vm_compute. reflexivity. Qed.
