(* ===== verification/BufferFacts.v ===== *)
(** * What the allocator knows of the graph's buffers ([scratchpad/utils.py])

    The scratchpad allocator reads a lowered graph.  This file models the graph as it
    sees it -- operations with their dependencies, layouts, loop metadata and committed
    divisions -- and the functions of [utils.py] that judge a buffer: who uses it, whether
    all users own it alike ([get_ncores_for_buffers]), how many bytes a core holds
    ([mem_usage_by_buf]), which inputs a pointwise operation may overwrite, and the
    tests the residency rules are made of.

    Sizes are concrete.  What the code asks of sympy about an index is a field or an
    argument: the index expression itself stands for its equality class. *)

From S2P Require Import Prelude PyDict PlanSolver Liveness CoreMapping CoreViews.

(** ** The graph *)

(** A dependency.  [index] identifies the index expression; [numel] is [get_numel()], or
    nothing where that raises. *)
Record dep := mkDep {
  dep_name : string;
  memory_dep : bool;
  index : string;
  is_indirect : bool;
  numel : option Z
}.

#[export] Instance dep_eq_dec : EqDecision dep.
Proof. solve_decision. Defined.

(** [SpyreTensorLayout]; the byte count is what the native extension answers for it. *)
Record device_layout := mkDevice {
  device_size : list Z;
  stride_map : list Z;
  device_dtype : string;
  device_bytes : Z
}.

#[export] Instance device_layout_eq_dec : EqDecision device_layout.
Proof. solve_decision. Defined.

Inductive layout :=
  | FixedTiledLayout (size : list Z) (dev : device_layout)
  | MutationLayout (target : string) (size : list Z)
  | FixedLayout (size : list Z)
  | NoLayoutSize.

Definition tiled (l : layout) : option device_layout :=
  match l with FixedTiledLayout _ d => Some d | _ => None end.

Definition layout_size (l : layout) : option (list Z) :=
  match l with
  | FixedTiledLayout s _ => Some s
  | MutationLayout _ s => Some s
  | FixedLayout s => Some s
  | NoLayoutSize => None
  end.

(** [CoarseTileInfo]: the dimensions tiled at each level, as far as their emptiness is asked. *)
Record tile_info := mkTileInfo {
  group_id : list nat;
  output_tiled : list bool;
  squeezed_output : list bool;
  tiled_per_read : list (list bool);
  squeezed_per_read : list (list bool)
}.

(** [LoopCarryRecord] *)
Record carry_record := mkCarry {
  storage_name : string;
  update_name : string
}.

(** The data of a [ComputedBuffer]. *)
Inductive loop_body := Pointwise | Reduction | OtherBody.

#[export] Instance loop_body_eq_dec : EqDecision loop_body.
Proof. solve_decision. Defined.

Record operation := mkOperation {
  get_name : string;
  dep_reads : list dep;
  dep_writes : list dep;
  op_layout : layout;
  (** [Some data] for a [ComputedBuffer] *)
  computed : option loop_body;
  extern_kernel : bool;
  empty_fallback : bool;
  (** the number of outputs of a [FallbackKernel] *)
  fallback_outputs : option nat;
  loop_info : option tile_info;
  loop_carry_record : option carry_record;
  (** [iteration_space_ownership] *)
  ownership : option TensorWorkDivision;
  short_name : string;
  (** the origin node has a target *)
  has_target : bool;
  (** [get_mutation_names()] and [get_inputs_that_alias_output()]; nothing where they raise
      [NotImplementedError] *)
  mutation_names : option (list string);
  aliased_inputs : option (list string)
}.

Record graph := mkGraph {
  graph_operations : list operation;
  (** the inputs with the layouts of their buffers *)
  graph_inputs : dict layout;
  output_names : list string;
  (** the outputs that are a [ReinterpretView] *)
  reinterpret_outputs : list string
}.

Definition op_at (g : graph) (i : Z) : res operation := py_nth (graph_operations g) i.

Definition find_op (g : graph) (name : string) : option operation :=
  snd <$> list_find (fun o => get_name o = name) (graph_operations g).

(** [graph.try_get_buffer(name)], as the layout of the buffer *)
Definition try_get_layout (g : graph) (name : string) : option layout :=
  match find_op g name with Some o => Some (op_layout o) | None => dget (graph_inputs g) name end.

(** [rw.reads | rw.writes] *)
Definition dependencies (o : operation) : list dep :=
  dep_reads o ++ filter (fun d => d ∉ dep_reads o) (dep_writes o).

(** What [Liveness] reads of the graph. *)
Definition lower_op (o : operation) : Liveness.Operation :=
  Liveness.mkOp (get_name o) (dep_name <$> dep_reads o) (dep_name <$> dep_writes o)
    (match loop_info o with Some t => group_id t | None => [] end) (extern_kernel o)
    (match op_layout o with MutationLayout t _ => Some t | _ => None end) false.

Definition lowering (g : graph) : Liveness.GraphLowering :=
  Liveness.mkLowering (lower_op <$> graph_operations g) (dkeys (graph_inputs g)).

(** ** Users *)

(** [_get_buffer_user_deps] *)
Definition append_to {V} (k : string) (v : V) (d : dict (list V)) : dict (list V) :=
  dset k (dget_or [] d k ++ [v]) d.

Definition _get_buffer_user_deps (g : graph) : dict (list (operation * dep)) :=
  foldl (fun m o => foldl (fun m d => append_to (dep_name d) (o, d) m) m (dependencies o)) [] (graph_operations g).

(** [get_buffer_users] *)
Definition get_buffer_users (g : graph) : dict (list operation) :=
  foldl (fun m o => foldl (fun m d => append_to (dep_name d) o m) m (dependencies o)) [] (graph_operations g).

Definition _op_num_cores (o : operation) : Z :=
  match ownership o with Some w => physical_core_count w | None => 1 end.

Definition is_empty_tiled_layout (l : layout) : bool :=
  match l with
  | FixedTiledLayout size dev =>
      bool_decide (0 ∈ size) &&
      match last (device_size dev) with
      | None => false
      | Some stick =>
          (0 <? stick) && forallb (fun e => 0 <=? e) (device_size dev)
          && bool_decide (0 ∈ take (length (device_size dev) - 1) (device_size dev))
      end
  | _ => false
  end.

(** ** Judging a buffer's users *)

Section judge.
(** [_prepare_per_core_view] of an access, the symbols its operation reduces over, and
    whether a reader of a part of the buffer has a local certificate. *)
Context (prep_of : operation -> dep -> option ViewPrep).
Context (reduces : operation -> string -> bool).
Context (subrange_certificate : operation -> string -> PerCoreView -> bool).

(** [_per_core_view_on_buf]: view, partial reduction, representable. *)
Definition _per_core_view_on_buf (o : operation) (d : dep) : res (PerCoreView * bool * bool) :=
  let splits := match ownership o with Some w => work_slices w | None => [] end in
  if negb (existsb (fun n => 1 <? n) (dvalues splits))
  then Ok (no_view (_op_num_cores o), false, true)
  else
    vr ← _per_core_view_from_prep (prep_of o d) splits (ownership o);
    Ok (vr.1, vr.2 && has_partial_reduction (reduces o) splits, vr.2).

(** [is_partial_lx_read] *)
Definition is_partial_lx_read (producer : option layout) (d : dep) : bool :=
  match producer ≫= layout_size, numel d with
  | Some size, Some k => negb (k =? zprod size)
  | _, _ => true
  end.

(** The state of the loop over the users: the reference view with its operation, and the
    writer's core count. *)
Notation judging := (option (PerCoreView * string) * option Z)%type.

(** One user; a string is the [mismatch_reason] that ends the loop.  The printed views are
    left out of the texts. *)
Definition judge_user (st : judging) (user : operation * dep) : res (string + judging) :=
  let '(o, d) := user in
  v ← _per_core_view_on_buf o d;
  let '(view, flag, representable) := v in
  if negb representable then
    Ok (inl ("ownership on '" +:+ get_name o +:+ "' cannot be represented by the physical buffer layout")%string)
  else
    let ref := default (view, get_name o) st.1 in
    let same : string + judging :=
      if same_partition view ref.1 then inr (Some ref, if bool_decide (d ∈ dep_writes o) then Some (_op_num_cores o) else st.2)
      else inl ("op '" +:+ ref.2 +:+ "' ref != '" +:+ get_name o +:+ "'")%string in
    if bool_decide (d ∈ dep_writes o) then
      Ok (if (flag : bool) then inl ("K-split writer '" +:+ get_name o +:+ "'")%string else same)
    else
      let view_cores := zprod (snd <$> work_slice_dims view) in
      Ok (if negb (view_cores =? _op_num_cores o)
          then inl ("broadcast read on '" +:+ get_name o +:+ "': view covers " +:+ pretty view_cores
                      +:+ " cores but op runs " +:+ pretty (_op_num_cores o))%string
          else same).

Fixpoint judge_users (st : judging) (users : list (operation * dep)) : res (string + judging) :=
  match users with
  | [] => Ok (inr st)
  | u :: users' => r ← judge_user st u; match r with inl e => Ok (inl e) | inr st' => judge_users st' users' end
  end.

(** The second loop: partial reads need a certificate. *)
Definition uncertified (g : graph) (name : string) (ref : PerCoreView) (users : list (operation * dep)) : option string :=
  (fun iu : nat * (operation * dep) => "partial LX read on '" +:+ get_name iu.2.1 +:+ "'")%string <$>
  list_find (fun u => u.2 ∈ dep_reads u.1 /\ is_partial_lx_read (try_get_layout g name) u.2 = true
                      /\ subrange_certificate u.1 name ref = false) users.

Record verdicts := mkVerdicts {
  num_cores : dict Z;
  mismatch_reasons : dict string;
  accepted_views : dict PerCoreView
}.

Definition reject (name reason : string) (v : verdicts) : verdicts :=
  mkVerdicts (dset name (-1) (num_cores v)) (dset name reason (mismatch_reasons v)) (accepted_views v).

Definition accept (name : string) (cores : Z) (view : PerCoreView) (v : verdicts) : verdicts :=
  mkVerdicts (dset name cores (num_cores v)) (mismatch_reasons v) (dset name view (accepted_views v)).

(** One buffer of the loop of [get_ncores_for_buffers]; [drained] is the reader a drain
    plan takes away. *)
Definition judge_buffer (g : graph) (drained : dict string) (entry : string * list (operation * dep)) (v : verdicts)
    : res verdicts :=
  let '(name, all_users) := entry in
  let users := match dget drained name with
               | Some reader => filter (fun u => get_name u.1 <> reader) all_users
               | None => all_users
               end in
  if match try_get_layout g name with Some l => is_empty_tiled_layout l | None => false end
  then Ok (reject name "empty tensor" v)
  else if existsb (fun u => extern_kernel u.1) users
  then Ok (reject name "FallbackKernel/ExternKernel user" v)
  else
    r ← judge_users (None, None) users;
    match r with
    | inl reason => Ok (reject name reason v)
    | inr (Some (ref, _), writer) =>
        match uncertified g name ref users with
        | Some reason => Ok (reject name reason v)
        | None =>
            let cores := match writer with
                         | Some c => c
                         | None => list_max 0 ((fun u => _op_num_cores u.1) <$> users)
                         end in
            Ok (accept name cores ref v)
        end
    | inr (None, _) => Raise ValueError
    end.

Definition get_ncores_for_buffers (g : graph) (drained : dict string) : res verdicts :=
  for_each (judge_buffer g drained) (_get_buffer_user_deps g) (mkVerdicts [] [] []).

(** ** Memory usage *)

Record usage := mkUsage {
  usage_size : Z;
  size_per_core : Z;
  core_div_mismatch : bool;
  op_inputs : list string
}.

Definition buffer_usage (ncores : dict Z) (o : operation) : res usage :=
  let cores := dget_or (-1) ncores (get_name o) in
  let inputs := dep_name <$> dep_reads o in
  match op_layout o, computed o with
  | FixedTiledLayout _ dev, Some _ =>
      raise_if (cores =? 0) ZeroDivisionError;;
      Ok (mkUsage (device_bytes dev) (device_bytes dev / cores) (cores <? 0) inputs)
  | _, _ => Ok (mkUsage (-1) (-1) (cores <? 0) inputs)
  end.

Definition mem_usage_by_buf (g : graph) : res (dict usage) :=
  v ← get_ncores_for_buffers g [];
  for_each (fun o m => u ← buffer_usage (num_cores v) o; Ok (dset (get_name o) u m)) (graph_operations g) [].

End judge.

(** ** Tests the residency rules are made of *)

Definition buffer_not_read_in_full (g : graph) (name : string) : bool :=
  match try_get_layout g name ≫= layout_size with
  | None => true
  | Some size =>
      existsb (fun o => existsb (fun d =>
        bool_decide (dep_name d = name) && match numel d with Some k => k <? zprod size | None => true end)
        (dep_reads o)) (graph_operations g)
  end.

Definition _is_tiled_advancing (o : operation) : bool :=
  match tiled (op_layout o), loop_info o with
  | Some _, Some info => existsb id (output_tiled info) || existsb id (squeezed_output info)
  | _, _ => false
  end.

(** One user of [_is_read_advancing_anywhere]. *)
Definition read_advances (reader : operation) (d : dep) : bool :=
  match loop_info reader with
  | None => false
  | Some info =>
      match list_find (fun d' => d' = d) (filter (fun d' => memory_dep d' = true) (dep_reads reader)) with
      | None => false
      | Some (dep_idx, _) =>
          match tiled_per_read info !! dep_idx with
          | None => false
          | Some levels => existsb id levels || existsb id (default [] (squeezed_per_read info !! dep_idx))
          end
      end
  end.

Definition _is_read_advancing_anywhere (name : string) (users : dict (list (operation * dep))) : bool :=
  existsb (fun u => read_advances u.1 u.2) (dget_or [] users name).

(** One operation of [storage_has_single_writer] keeps the storage to its producer. *)
Definition writes_elsewhere (name : string) (transferred : option string) (o : operation) : bool :=
  let moved := bool_decide (transferred = Some (get_name o)) in
  match (if moved then Some [] else mutation_names o), aliased_inputs o with
  | Some ms, Some al =>
      bool_decide (name ∈ ms) || bool_decide (name ∈ al)
      || (negb (bool_decide (get_name o = name)) && negb moved && bool_decide (name ∈ (dep_name <$> dep_writes o)))
  | _, _ => true
  end.

Definition storage_has_single_writer (g : graph) (name : string) (transferred : option string) : bool :=
  negb (existsb (writes_elsewhere name transferred) (graph_operations g)).

(** [get_op_pointwise_inputs] *)
Definition get_op_pointwise_inputs (o : operation) : list string :=
  if bool_decide (computed o = Some Pointwise) then
    match filter (fun d => memory_dep d = true) (dep_writes o) with
    | [w] =>
        let invalid := dep_name <$> filter (fun d => memory_dep d = false \/ index d <> index w) (dep_reads o) in
        filter (fun n => n ∉ invalid) (fromkeys (dep_name <$> dep_reads o))
    | _ => []
    end
  else [].

(** A device coordinate of an access, as [_would_produce_lx_back_gap] asks about it: the
    extent its symbols cover, whether it is one symbol past a constant, and whether its terms
    overlap. *)
Record coordinate := mkCoordinate {
  has_symbols : bool;
  symbols_ranged : bool;
  covered_extent : Z;
  bare_symbol : bool;
  overlapping_extents : bool
}.

Definition gap_at (size : Z) (c : coordinate) : bool :=
  if negb (has_symbols c) then 1 <? size
  else if negb (symbols_ranged c) then false
  else (covered_extent c <? size) || ((size <? covered_extent c) && bare_symbol c) || overlapping_extents c.

Section back_gap.
(** [device_coordinates] of an access, where it does not raise, and whether a reader has a
    compact input shape ([local_lx_subrange_geometry]). *)
Context (coordinates : operation -> dep -> option (list coordinate)).
Context (subrange_geometry : string -> operation -> bool).

Definition access_gap (name : string) (sizes : list Z) (o : operation) (d : dep) : bool :=
  if negb (bool_decide (dep_name d = name)) then false
  else if bool_decide (d ∈ dep_reads o) && subrange_geometry name o then false
  else match coordinates o d with
       | None => false
       | Some coords => existsb (fun sc => gap_at sc.1 sc.2) (zip sizes (take (length coords - 1) coords))
       end.

Definition _would_produce_lx_back_gap (g : graph) (name : string) (us : list Z) : res bool :=
  match try_get_layout g name ≫= tiled with
  | None => Raise AttributeError
  | Some dev =>
      users ← py_map (op_at g) us;
      Ok (existsb (fun o => existsb (access_gap name (device_size dev) o) (dependencies o)) users)
  end.
End back_gap.

(** ** Users, by buffer *)

Lemma dget_append_to {V} k (v : V) d name : dget_or [] (append_to k v d) name = dget_or [] d name ++ (if decide (name = k) then [v] else []).
Proof.
  unfold append_to, dget_or. rewrite dget_dset. case_decide as H; [by subst | by rewrite app_nil_r].
Qed.

Lemma group_fold {A V} (k : A -> string) (v : A -> V) l d name :
  dget_or [] (foldl (fun m x => append_to (k x) (v x) m) d l) name = dget_or [] d name ++ (v <$> filter (fun x => k x = name) l).
Proof.
  revert d. induction l as [|x l IH]; intros d; cbn [foldl]; [by rewrite app_nil_r|].
  rewrite IH, dget_append_to, <- app_assoc, filter_cons. f_equal. repeat case_decide; subst; done.
Qed.

Lemma group_keys {A V} (k : A -> string) (v : A -> V) l d name :
  name ∈ dkeys (foldl (fun m x => append_to (k x) (v x) m) d l) <-> name ∈ dkeys d \/ name ∈ (k <$> l).
Proof.
  revert d. induction l as [|x l IH]; intros d; cbn [foldl]; [rewrite fmap_nil, elem_of_nil; tauto|].
  rewrite IH, fmap_cons, elem_of_cons. unfold append_to. rewrite elem_of_dkeys_dset. tauto.
Qed.

Lemma group_NoDup {A V} (k : A -> string) (v : A -> V) l d :
  NoDup (dkeys d) -> NoDup (dkeys (foldl (fun m x => append_to (k x) (v x) m) d l)).
Proof. revert d. induction l as [|x l IH]; intros d Hd; cbn [foldl]; [done|]. by apply IH, dkeys_dset_NoDup. Qed.

(** Every access of the graph, in order. *)
Definition all_accesses (g : graph) : list (operation * dep) :=
  o ← graph_operations g; (fun d => (o, d)) <$> dependencies o.

(** The accesses of one buffer. *)
Definition users_of (g : graph) (name : string) : list (operation * dep) :=
  filter (fun u => dep_name u.2 = name) (all_accesses g).

Lemma user_deps_flat g : _get_buffer_user_deps g = foldl (fun m u => append_to (dep_name u.2) u m) [] (all_accesses g).
Proof.
  unfold _get_buffer_user_deps, all_accesses. generalize (@nil (string * list (operation * dep))).
  induction (graph_operations g) as [|o ops IH]; intros m; cbn [foldl]; [done|].
  rewrite IH, bind_cons, foldl_app. f_equal. clear. revert m.
  induction (dependencies o) as [|d ds IH]; intros m; cbn [foldl fmap list_fmap]; [done | apply IH].
Qed.

Lemma dget_user_deps g name us : dget (_get_buffer_user_deps g) name = Some us -> us = users_of g name.
Proof.
  intros H. pose proof (group_fold (fun u : operation * dep => dep_name u.2) id (all_accesses g) [] name) as E.
  rewrite <- user_deps_flat in E. unfold dget_or in E. rewrite H in E. cbn in E. by rewrite E, list_fmap_id.
Qed.

Lemma user_deps_NoDup g : NoDup (dkeys (_get_buffer_user_deps g)).
Proof. rewrite user_deps_flat. apply group_NoDup. constructor. Qed.

Lemma elem_of_dependencies o d : d ∈ dependencies o <-> d ∈ dep_reads o \/ d ∈ dep_writes o.
Proof.
  unfold dependencies. rewrite elem_of_app, list_elem_of_filter. destruct (decide (d ∈ dep_reads o)); tauto.
Qed.

Lemma elem_of_users g name o d : (o, d) ∈ users_of g name <-> o ∈ graph_operations g /\ d ∈ dependencies o /\ dep_name d = name.
Proof.
  unfold users_of, all_accesses. rewrite list_elem_of_filter, list_elem_of_bind. cbn. split.
  - intros [Hn (o' & Hu & Ho)]. apply list_elem_of_fmap in Hu as (d' & [= -> ->] & Hd). done.
  - intros (Ho & Hd & Hn). split; [done|]. exists o. split; [|done]. by apply list_elem_of_fmap_2.
Qed.

(** ** Views that agree with a third agree *)

Lemma same_slices_sym v w : same_slices v w -> same_slices w v.
Proof.
  intros [Hc Hp Hs Hsl]. split; [done | lia | intros dim n Hn; symmetry; by apply Hs|].
  intros dim n core Hn Hdim Hcore. destruct (Hsl dim n core Hn) as (f & h & ? & ? & ?); [by apply Hs | lia|]. by exists h, f.
Qed.

Lemma same_slices_trans v w u : same_slices v w -> same_slices w u -> same_slices v u.
Proof.
  intros [Hc Hp Hs Hsl] [Hc' Hp' Hs' Hsl']. split; [lia | lia | |].
  - intros dim n Hn. etrans; [by apply Hs | by apply Hs'].
  - intros dim n core Hn Hdim Hcore. destruct (Hsl dim n core Hn Hdim Hcore) as (f & h & ? & Hh & ?).
    destruct (Hsl' dim n core Hn) as (h' & k & Hh' & ? & ?); [by apply Hs | lia|]. exists f, k. split_and!; [done | done | congruence].
Qed.

Lemma same_partition_sym v w : same_partition v w = true -> same_partition w v = true.
Proof. rewrite !same_partition_spec. apply same_slices_sym. Qed.

Lemma same_partition_trans v w u : same_partition v w = true -> same_partition w u = true -> same_partition v u = true.
Proof. rewrite !same_partition_spec. apply same_slices_trans. Qed.

(** ** What the judge accepts *)

Section accepted.
Context (prep_of : operation -> dep -> option ViewPrep) (reduces : operation -> string -> bool).
Context (subrange_certificate : operation -> string -> PerCoreView -> bool).

#[local] Notation view_of := (_per_core_view_on_buf prep_of reduces).

(** One user owns the buffer as [ref] says: its view agrees, it does not leave partial
    sums behind, and a mere reader runs on no more cores than the view covers. *)
Definition owns_alike (ref : PerCoreView) (u : operation * dep) : Prop :=
  exists view flag, view_of u.1 u.2 = Ok (view, flag, true) /\ same_partition view ref = true /\
    (u.2 ∈ dep_writes u.1 -> flag = false) /\
    (u.2 ∉ dep_writes u.1 -> zprod (snd <$> work_slice_dims view) = _op_num_cores u.1).

Lemma judge_user_Ok st u ref w :
  judge_user prep_of reduces st u = Ok (inr (ref, w)) ->
  exists r, ref = Some r /\ owns_alike r.1 u /\ (forall r0, st.1 = Some r0 -> r = r0) /\
    w = (if bool_decide (u.2 ∈ dep_writes u.1) then Some (_op_num_cores u.1) else st.2).
Proof.
  destruct u as [o d]. unfold judge_user. intros ([[view flag] rep] & Hv & H)%bind_Ok. cbn zeta in H.
  destruct rep; cbn [negb] in H; [|done]. set (r := default (view, get_name o) st.1) in *.
  assert (forall r0, st.1 = Some r0 -> r = r0) as Hr by (intros r0 E; unfold r; by rewrite E).
  case_bool_decide as Hd.
  - destruct flag; [done|]. destruct (same_partition view r.1) eqn:Es; [|done]. injection H as <- <-.
    exists r. split_and!; [done | | done | cbn; by rewrite bool_decide_eq_true_2]. exists view, false. by split_and!.
  - destruct (Z.eqb_spec (zprod (snd <$> work_slice_dims view)) (_op_num_cores o)) as [Hc|]; cbn [negb] in H; [|done].
    destruct (same_partition view r.1) eqn:Es; [|done]. injection H as <- <-.
    exists r. split_and!; [done | | done | cbn; by rewrite bool_decide_eq_false_2]. exists view, flag. by split_and!.
Qed.

Lemma judge_users_Ok us : forall st ref w,
  judge_users prep_of reduces st us = Ok (inr (ref, w)) ->
  (forall r, st.1 = Some r -> ref = Some r) /\
  (forall r u, ref = Some r -> u ∈ us -> owns_alike r.1 u) /\
  (us <> [] -> is_Some ref) /\
  (w = st.2 \/ exists u, u ∈ us /\ u.2 ∈ dep_writes u.1 /\ w = Some (_op_num_cores u.1)).
Proof.
  induction us as [|u us IH]; intros st ref w; cbn [judge_users].
  { destruct st. intros [= -> ->]. cbn. split_and!; [done | by intros r u _ ?%elem_of_nil | done | by left]. }
  intros ([e|[ref1 w1]] & Hu & H)%bind_Ok; [done|].
  destruct (judge_user_Ok _ _ _ _ Hu) as (r & -> & Ho & Hst & Hw1). destruct (IH _ _ _ H) as (H1 & H2 & _ & H4). cbn [fst snd] in *.
  specialize (H1 r eq_refl). subst ref. split_and!.
  - intros r0 E. by rewrite (Hst r0 E).
  - intros r0 u0 [= <-] [-> | Hin]%elem_of_cons; [done | by apply H2].
  - done.
  - destruct H4 as [-> | (u0 & Hin & Hd & ->)]; [|right; exists u0; split_and!; [by right | done | done]].
    subst w1. case_bool_decide; [right; exists u; split_and!; [by left | done | done] | by left].
Qed.

(** The users the judge looks at. *)
Definition judged_users (g : graph) (drained : dict string) (name : string) : list (operation * dep) :=
  match dget drained name with
  | Some reader => filter (fun u => get_name u.1 <> reader) (users_of g name)
  | None => users_of g name
  end.

(** What an accepted buffer is. *)
Record accepted_by (g : graph) (drained : dict string) (name : string) (cores : Z) (ref : PerCoreView) : Prop := {
  ab_owned : forall u, u ∈ judged_users g drained name -> owns_alike ref u;
  ab_device : forall u, u ∈ judged_users g drained name -> extern_kernel u.1 = false;
  ab_complete : forall u, u ∈ judged_users g drained name -> u.2 ∈ dep_reads u.1 ->
    is_partial_lx_read (try_get_layout g name) u.2 = true -> subrange_certificate u.1 name ref = true;
  ab_nonempty : forall l, try_get_layout g name = Some l -> is_empty_tiled_layout l = false;
  ab_cores : exists u, u ∈ judged_users g drained name /\ cores = _op_num_cores u.1
}.

(** One buffer: rejected, or accepted with what that means. *)
Lemma judge_buffer_Ok g drained name v v' :
  judge_buffer prep_of reduces subrange_certificate g drained (name, users_of g name) v = Ok v' ->
  (exists reason, v' = reject name reason v) \/
  (exists cores ref, v' = accept name cores ref v /\ accepted_by g drained name cores ref).
Proof.
  unfold judge_buffer. set (us := match dget drained name with Some _ => _ | None => _ end).
  assert (us = judged_users g drained name) as Hus by (unfold us, judged_users; by destruct (dget drained name)).
  rewrite Hus. clear us Hus. set (us := judged_users g drained name).
  destruct (match try_get_layout g name with Some l => is_empty_tiled_layout l | None => false end) eqn:El; [intros [= <-]; left; by eexists|].
  destruct (existsb (fun u => extern_kernel u.1) us) eqn:Ee; [intros [= <-]; left; by eexists|].
  intros ([reason|[[[ref nm]|] w]] & Hj & H)%bind_Ok; [injection H as <-; left; by eexists | | done].
  destruct (judge_users_Ok _ _ _ _ Hj) as (_ & Ho & _ & Hw). cbn [fst snd] in *.
  destruct (uncertified subrange_certificate g name ref us) as [reason|] eqn:Eu; injection H as <-; [left; by eexists|right].
  unfold uncertified in Eu. rewrite fmap_None in Eu. apply list_find_None in Eu. rewrite Forall_forall in Eu.
  do 2 eexists. split; [reflexivity|]. split.
  - intros u Hu. by apply (Ho (ref, nm)).
  - intros u Hu. apply not_true_iff_false in Ee. destruct (extern_kernel u.1) eqn:E; [|done]. destruct Ee.
    apply existsb_exists. exists u. by split; [apply list_elem_of_In|].
  - intros u Hu Hr Hp. specialize (Eu u Hu). cbn beta in Eu. destruct (subrange_certificate u.1 name ref) eqn:E; [done|].
    destruct Eu. by split_and!.
  - intros l Hl. by rewrite Hl in El.
  - destruct Hw as [-> | (u & Hu & _ & ->)]; [|by exists u]. cbn.
    assert (us <> []) as Hne. { intros E. rewrite E in Hj. cbn in Hj. congruence. }
    assert (list_max 0 ((fun u : operation * dep => _op_num_cores u.1) <$> us) ∈ ((fun u : operation * dep => _op_num_cores u.1) <$> us)) as Hm.
    { apply list_max_elem. intros E%fmap_nil_inv. done. }
    apply list_elem_of_fmap in Hm as (u & -> & Hu). by exists u.
Qed.

(** The table the judge returns: a buffer in it is rejected with [-1] and a reason, or
    accepted; only accepted buffers have a view. *)
Definition judged (g : graph) (drained : dict string) (v : verdicts) (name : string) : Prop :=
  (dget (num_cores v) name = Some (-1) /\ dget (accepted_views v) name = None /\ is_Some (dget (mismatch_reasons v) name)) \/
  (exists cores ref, dget (num_cores v) name = Some cores /\ dget (accepted_views v) name = Some ref /\
     dget (mismatch_reasons v) name = None /\ accepted_by g drained name cores ref).

(** Nothing is said of a buffer yet. *)
Definition unjudged (v : verdicts) (name : string) : Prop :=
  dget (num_cores v) name = None /\ dget (accepted_views v) name = None /\ dget (mismatch_reasons v) name = None.

Lemma judge_step g drained name v v' :
  judge_buffer prep_of reduces subrange_certificate g drained (name, users_of g name) v = Ok v' -> unjudged v name ->
  judged g drained v' name /\
  forall x, x <> name -> (judged g drained v x -> judged g drained v' x) /\ (unjudged v x -> unjudged v' x).
Proof.
  intros H (N1 & N2 & N3). split.
  - destruct (judge_buffer_Ok _ _ _ _ _ H) as [(reason & ->) | (cores & ref & -> & Ha)].
    + left. cbn. rewrite !dget_dset, !decide_True by done. split_and!; [done | done | by eexists].
    + right. exists cores, ref. cbn. rewrite !dget_dset, !decide_True by done. by split_and!.
  - intros x Hx. unfold judged, unjudged. destruct (judge_buffer_Ok _ _ _ _ _ H) as [(reason & ->) | (cores & ref & -> & _)];
      cbn; rewrite !dget_dset, !decide_False by done; done.
Qed.

Lemma user_deps_keys g name : name ∈ dkeys (_get_buffer_user_deps g) <-> users_of g name <> [].
Proof.
  rewrite user_deps_flat, group_keys. split.
  - intros [?%elem_of_nil | (u & -> & Hu)%list_elem_of_fmap]; [done|]. intros E.
    assert (u ∈ users_of g (dep_name u.2)) as Hin by (by apply list_elem_of_filter). rewrite E in Hin. by apply elem_of_nil in Hin.
  - intros Hne. right. destruct (users_of g name) as [|u us] eqn:E; [done|].
    assert (u ∈ users_of g name) as [Hn Hu]%list_elem_of_filter by (rewrite E; list_mem).
    apply list_elem_of_fmap. by exists u.
Qed.

Lemma ncores_spec g drained v :
  get_ncores_for_buffers prep_of reduces subrange_certificate g drained = Ok v ->
  (forall name, users_of g name <> [] -> judged g drained v name) /\
  (forall name, users_of g name = [] -> unjudged v name).
Proof.
  intros H. set (D := _get_buffer_user_deps g) in *.
  assert ((forall x, x ∈ dkeys D -> judged g drained v x) /\ (forall x, x ∉ dkeys D -> unjudged v x)) as [H1 H2].
  { refine (for_each_ind (judge_buffer prep_of reduces subrange_certificate g drained)
      (fun dn v' => (forall x, x ∈ dkeys dn -> judged g drained v' x) /\ (forall x, x ∉ dkeys dn -> unjudged v' x))
      D (mkVerdicts [] [] []) v _ _ H); [|split; [by intros x ?%elem_of_nil | done]].
    intros dn [name us] rest v1 v2 Hl [I1 I2] Hstep.
    assert (name ∉ dkeys dn) as Hn.
    { pose proof (user_deps_NoDup g) as Hnd. fold D in Hnd. rewrite Hl in Hnd. unfold dkeys in Hnd. rewrite fmap_app in Hnd.
      apply NoDup_app in Hnd as (_ & Hnew & _). intros Hin. apply (Hnew name Hin). by left. }
    assert (us = users_of g name) as ->.
    { apply dget_user_deps, dget_NoDup; [apply user_deps_NoDup|]. fold D. rewrite Hl. list_mem. }
    destruct (judge_step _ _ _ _ _ Hstep (I2 name Hn)) as [Hj Hfr].
    unfold dkeys. split; intros x; rewrite fmap_app, elem_of_app; cbn [fmap list_fmap fst]; rewrite list_elem_of_singleton.
    - intros [Hx | ->]; [|done]. apply Hfr; [|by apply I1]. by intros ->.
    - intros Hx. apply Hfr; [tauto|]. apply I2. tauto. }
  split; intros name Hu; [by apply H1, user_deps_keys|]. apply H2. unfold D. rewrite user_deps_keys. tauto.
Qed.

(** C18. The judge accepts only buffers that are read where they lie: if
    [get_ncores_for_buffers] gives a buffer a core count other than [-1], it has an
    accepted view, every user owns the buffer as that view says, none is opaque and no
    writer leaves partial sums; and between any two users the copies needed go from a core
    exactly to the cores that hold the same slice already. *)
Theorem accepted_users_agree g drained v name cores :
  get_ncores_for_buffers prep_of reduces subrange_certificate g drained = Ok v ->
  dget (num_cores v) name = Some cores -> cores <> -1 ->
  exists ref, dget (accepted_views v) name = Some ref /\
    (forall u, u ∈ judged_users g drained name -> extern_kernel u.1 = false /\ owns_alike ref u) /\
    (forall a b va fa vb fb n sa sb s d rs rd,
       a ∈ judged_users g drained name -> b ∈ judged_users g drained name ->
       view_of a.1 a.2 = Ok (va, fa, true) -> view_of b.1 b.2 = Ok (vb, fb, true) -> view_cores va = n ->
       core_slices va n = Ok sa -> core_slices vb n = Ok sb -> (s, rs) ∈ sa -> (d, rd) ∈ sa ->
       (s, d) ∈ transfer_edges (dict_of (work_slice_dims va)) (dict_of (work_slice_dims vb)) sa sb <-> rs = rd).
Proof.
  intros H Hc Hne. destruct (ncores_spec _ _ _ H) as [Hj Hu].
  destruct (decide (users_of g name = [])) as [E|E]; [destruct (Hu name E) as [E' _]; congruence|].
  destruct (Hj name E) as [(E' & _) | (c & ref & E1 & E2 & _ & [Ho Hd _ _ _])]; [congruence|].
  exists ref. split_and!; [done | by split; auto|]. intros a b va fa vb fb n sa sb s d rs rd Ha Hb Va Vb Hn Sa Sb Hs Hd'.
  apply (transfer_edges_local va vb n); try done.
  destruct (Ho a Ha) as (va' & fa' & Va' & Pa & _), (Ho b Hb) as (vb' & fb' & Vb' & Pb & _).
  rewrite Va in Va'. rewrite Vb in Vb'. injection Va' as <- <-. injection Vb' as <- <-.
  eapply same_partition_trans; [exact Pa | by apply same_partition_sym].
Qed.
End accepted.
