(* ===== verification/ResidencyRules.v ===== *)
(** * The residency rules ([scratchpad/residency_rules.py], [scratchpad/allocator.py])

    Before planning, every buffer is asked whether it may live in the scratchpad at all.
    The rules are an ordered table: the first check that fails, and that no exception of
    its row excuses, is the buffer's [residency_reason].  This file models the table, the
    adapter that answers the checks from the graph ([_BufferResidencyChecks]), the verdict
    for graph inputs and the per-solve loop [_residency_reasons].

    [graph_facts] collects what the checks ask of code that is not modelled: the per-core
    projection of an access, its device coordinates, and the certificates of the relayout
    planner. *)

From S2P Require Import Prelude PyDict PlanSolver Liveness CoreMapping CoreViews BufferFacts.

(** ** Configuration and facts *)

Record config := mkConfig {
  enable_lx_context_switching : bool;
  lx_planner_relayout : bool;
  lx_solver_relayout : bool;
  ktir_emitter : bool;
  lx_extended_ownership : bool;
  allow_all_ops_in_lx_planning : bool
}.

Record graph_facts := mkGraphFacts {
  prep_of : operation -> dep -> option ViewPrep;
  reduces : operation -> string -> bool;
  subrange_certificate : operation -> string -> PerCoreView -> bool;
  coordinates : operation -> dep -> option (list coordinate);
  subrange_geometry : string -> operation -> bool;
  (** the index tensors of a gather or scatter *)
  index_tensors : operation -> list string;
  is_restickify_op : operation -> bool;
  (** [prefix_lx_contraction_axis(producer, reader) is not None] *)
  prefix_axis : string -> operation -> bool
}.

Definition OP_OUTPUT_NOT_GOOD_FOR_LX_REUSE : list string := ["convolution"; "avg_pool2d"]%string.

Definition clone_at_graph_boundaries : bool := negb (bool_decide ("clone"%string ∈ OP_OUTPUT_NOT_GOOD_FOR_LX_REUSE)).

(** [LXRelayoutPlan]; the name of the destination is derived from the source and its first
    consumer. *)
Record LXRelayoutPlan := mkPlan {
  source_name : string;
  consumer_names : list string;
  source_view : PerCoreView;
  destination_view : PerCoreView;
  plan_cores : Z;
  source_footprint : Z;
  destination_footprint : Z;
  source_address : option Z;
  destination_address : option Z
}.

Definition _DESTINATION_PREFIX : string := "__spyre_lx_relayout__".

Definition destination_name (p : LXRelayoutPlan) : string :=
  (_DESTINATION_PREFIX +:+ ":" +:+ source_name p +:+ ":" +:+ default "" (head (consumer_names p)))%string.

(** ** Tests on the live range *)

(** [range(min(uses), max(uses) + 1)] *)
Definition live_range (us : list Z) : list Z :=
  match us with
  | [] => []
  | u :: _ =>
      let lo := list_min u us in let hi := list_max u us in
      (fun k => lo + Z.of_nat k) <$> seq 0 (Z.to_nat (hi + 1 - lo))
  end.

Definition _extern_kernel_in_live_range (g : graph) (us : list Z) : res bool :=
  ops ← py_map (op_at g) (live_range us);
  Ok (existsb (fun o => extern_kernel o && negb (empty_fallback o)) ops).

Definition _multi_output_extern_kernel_in_live_range (g : graph) (us : list Z) : res bool :=
  ops ← py_map (op_at g) (live_range us);
  Ok (existsb (fun o => match fallback_outputs o with Some k => (1 <? k)%nat | None => false end) ops).

Definition _is_loop_carry_storage (o : operation) : bool :=
  match loop_carry_record o with Some r => bool_decide (storage_name r = get_name o) | None => false end.

Section checks.
Context (C : config) (F : graph_facts).

(** ** Tests on accesses *)

Definition _op_output_good_for_lx_reuse (o : operation) (planned : list string) : bool :=
  match computed o, op_layout o with
  | Some _, FixedTiledLayout _ _ =>
      _is_loop_carry_storage o || allow_all_ops_in_lx_planning C
      || negb (bool_decide (short_name o ∈ OP_OUTPUT_NOT_GOOD_FOR_LX_REUSE))
      || bool_decide (get_name o ∈ planned)
  | _, _ => false
  end.

Definition _read_count (us : list Z) : Z := Z.max 0 (Z.of_nat (length us) - 1).

(** One consumer of [_is_index_or_indirectly_accessed]. *)
Definition indirect_consumer (name : string) (o : operation) : bool :=
  match computed o with
  | None => false
  | Some _ => bool_decide (name ∈ index_tensors F o)
              || existsb (fun d => bool_decide (dep_name d = name) && memory_dep d && is_indirect d) (dep_reads o)
  end.

Definition _is_index_or_indirectly_accessed (g : graph) (name : string) (us : list Z) (producer : option operation) : res bool :=
  let scatters := match producer with
                  | Some o => match computed o with
                              | Some _ => existsb (fun d => memory_dep d && is_indirect d) (dep_writes o)
                              | None => false
                              end
                  | None => false
                  end in
  if scatters then Ok true
  else consumers ← py_map (op_at g) us; Ok (existsb (indirect_consumer name) consumers).

(** [prefix_lx_gather_source] *)
Definition prefix_lx_gather_source (g : graph) (name : string) (us : list Z) : res bool :=
  if bool_decide (name ∈ output_names g) then Ok false
  else
    users ← py_map (op_at g) us;
    Ok match filter (fun o => get_name o <> name) users with
       | [reader] => prefix_axis F name reader && storage_has_single_writer g name None
       | _ => false
       end.

(** One read of [local_lx_subrange_source]: whether it is partial, or nothing where the
    source is refused. *)
Definition subrange_read (g : graph) (name : string) (consumer : operation) (d : dep) : option bool :=
  if negb (memory_dep d) then None
  else if is_partial_lx_read (try_get_layout g name) d
  then if subrange_geometry F name consumer then Some true else None
  else Some false.

Definition local_lx_subrange_source (g : graph) (name : string) (us : list Z) : res bool :=
  if negb (lx_extended_ownership C) then Ok false
  else
    consumers ← py_map (op_at g) us;
    Ok match mapM (fun od : operation * dep => subrange_read g name od.1 od.2)
               (o ← consumers; (fun d => (o, d)) <$> filter (fun d => dep_name d = name) (dep_reads o)) with
       | Some found => existsb id found
       | None => false
       end.

(** ** Restickify readers *)

Definition named_deps (name : string) (l : list dep) : list dep := filter (fun d => memory_dep d = true /\ dep_name d = name) l.

(** [_restickify_read_is_core_local] *)
Definition _restickify_read_is_core_local (g : graph) (name : string) (reader : operation) (plans : list LXRelayoutPlan) : res bool :=
  match named_deps name (dep_reads reader) with
  | [r] =>
      if is_indirect r then Ok false
      else
        v ← _per_core_view_on_buf (prep_of F) (reduces F) reader r;
        let '(read_view, partial, representable) := v in
        if partial || negb representable then Ok false
        else
          let planned := filter (fun p => source_name p = name /\ get_name reader ∈ consumer_names p) plans in
          if negb (bool_decide (planned = []))
          then Ok (forallb (fun p => same_partition read_view (destination_view p)) planned)
          else match find_op g name with
               | Some producer =>
                   match computed producer, named_deps name (dep_writes producer) with
                   | Some _, [w] =>
                       if is_indirect w then Ok false
                       else
                         pv ← _per_core_view_on_buf (prep_of F) (reduces F) producer w;
                         let '(write_view, write_partial, write_ok) := pv in
                         Ok (negb write_partial && write_ok && same_partition write_view read_view)
                   | _, _ => Ok false
                   end
               | None => Ok false
               end
  | _ => Ok false
  end.

(** [all(p(x) for x in l)] *)
Fixpoint py_all {A} (p : A -> res bool) (l : list A) : res bool :=
  match l with
  | [] => Ok true
  | x :: l' => b ← p x; if (b : bool) then py_all p l' else Ok false
  end.

Definition _restickify_barrier (g : graph) (name : string) (us : list Z) (plans : list LXRelayoutPlan) : res (option string) :=
  users ← py_map (op_at g) us;
  let readers := filter (fun o => get_name o <> name /\ is_restickify_op F o = true) users in
  if bool_decide (readers = []) then Ok None
  else if negb (lx_planner_relayout C) then Ok (Some "read by restickify (cross-frame barrier)"%string)
  else
    local ← py_all (fun o => _restickify_read_is_core_local g name o plans) readers;
    Ok (if local : bool then None else Some "read by restickify (local-read proof failed)"%string).

Definition _untiled_residency_bar (g : graph) (name : string) (us : list Z) : option string :=
  if bool_decide (name ∈ output_names g) && negb clone_at_graph_boundaries then Some "graph output (no clone)"%string
  else if _read_count us =? 0 then Some "no consumer reads it from LX"%string
  else None.

(** ** The table *)

(** [ResidencyChecks]: the answers for one buffer, computed as they are asked. *)
Record ResidencyChecks := mkChecks {
  op_allowed : res (option string);
  sized : res (option string);
  empty : res (option string);
  mutation : res (option string);
  advancing : res (option string);
  restickify : res (option string);
  extern : res (option string);
  multi_output_extern : res (option string);
  indirect : res (option string);
  reinterpret_output : res (option string);
  mutated_output : res (option string);
  partial_read : res (option string);
  core_division : res (option string);
  untiled : res (option string);
  back_gap : res (option string);
  loop_carry : res bool;
  drain : res bool;
  prefix_gather : res bool;
  local_subrange : res bool
}.

Record ResidencyRule := mkRule {
  rule_name : string;
  check : ResidencyChecks -> res (option string);
  exceptions : list (ResidencyChecks -> res bool)
}.

Definition BUFFER_RESIDENCY_RULES : list ResidencyRule :=
  [ mkRule "op_allowed" op_allowed [];
    mkRule "sized" sized [];
    mkRule "empty" empty [];
    mkRule "mutation" mutation [loop_carry];
    mkRule "advancing" advancing [];
    mkRule "restickify" restickify [];
    mkRule "extern" extern [];
    mkRule "multi_output_extern" multi_output_extern [];
    mkRule "indirect" indirect [];
    mkRule "reinterpret_output" reinterpret_output [];
    mkRule "mutated_output" mutated_output [drain];
    mkRule "partial_read" partial_read [prefix_gather; local_subrange];
    mkRule "core_division" core_division [];
    mkRule "untiled" untiled [];
    mkRule "back_gap" back_gap [prefix_gather] ].

(** [any(exception.proves(checks) for exception in rule.exceptions)] *)
Fixpoint excused (c : ResidencyChecks) (es : list (ResidencyChecks -> res bool)) : res bool :=
  match es with
  | [] => Ok false
  | e :: es' => b ← e c; if (b : bool) then Ok true else excused c es'
  end.

Fixpoint first_failure (c : ResidencyChecks) (rules : list ResidencyRule) : res (option string) :=
  match rules with
  | [] => Ok None
  | r :: rules' =>
      reason ← check r c;
      match reason with
      | None => first_failure c rules'
      | Some why => ok ← excused c (exceptions r); if (ok : bool) then first_failure c rules' else Ok (Some why)
      end
  end.

Definition buffer_residency_reason (c : ResidencyChecks) : res (option string) := first_failure c BUFFER_RESIDENCY_RULES.

(** ** The adapter *)

(** What is computed once per solve and passed to each check. *)
Record solve_facts := mkSolveFacts {
  mutated_buffers : list string;
  ncores : dict Z;
  ncores_reasons : dict string;
  division_is_fixed : bool;
  buf_user_deps : dict (list (operation * dep));
  planned_lx_buffers : list string;
  lx_relayout_plans : list LXRelayoutPlan;
  drain_plans : list string;
  decides_lx_relayouts : bool
}.

Definition fails (b : bool) (why : string) : option string := if b then Some why else None.

Section adapter.
Context (g : graph) (S : solve_facts) (name : string) (us : list Z) (op : option operation) (tileable : bool).

#[local] Notation when m why := (b ← m; Ok (fails (b : bool) why)).

Definition cloned_output : bool := bool_decide (name ∈ output_names g) && clone_at_graph_boundaries.

(** [_prefix_gather] *)
Definition gathers_prefix : res bool :=
  if negb (lx_planner_relayout C) || ktir_emitter C then Ok false
  else
    source ← prefix_lx_gather_source g name us;
    Ok ((source : bool) &&
        ((negb (division_is_fixed S) && decides_lx_relayouts S && lx_solver_relayout C)
         || (division_is_fixed S && existsb (fun p => bool_decide (source_name p = name)) (lx_relayout_plans S)))).

Definition op_layout_of : option layout := op_layout <$> op.

Definition checks_of : ResidencyChecks :=
  {| op_allowed := Ok (fails match op with Some o => negb (_op_output_good_for_lx_reuse o (planned_lx_buffers S)) | None => true end
                         "op not allowed");
     sized := Ok (fails match op_layout_of ≫= tiled with Some _ => false | None => true end "unsized (no device layout)");
     empty := Ok (fails match op_layout_of with Some l => is_empty_tiled_layout l | None => false end "empty tensor");
     mutation := Ok (fails (bool_decide (name ∈ mutated_buffers S)) "mutation target");
     advancing := Ok (fails (match op with Some o => _is_tiled_advancing o | None => false end
                             || _is_read_advancing_anywhere name (buf_user_deps S)) "tiled (advancing)");
     restickify := if division_is_fixed S then _restickify_barrier g name us (lx_relayout_plans S) else Ok None;
     extern := if enable_lx_context_switching C then Ok None
               else when (_extern_kernel_in_live_range g us) "extern kernel user or live across extern kernel"%string;
     multi_output_extern := if negb (enable_lx_context_switching C) then Ok None
               else when (_multi_output_extern_kernel_in_live_range g us) "live across multi-output extern kernel"%string;
     indirect := when (_is_index_or_indirectly_accessed g name us op) "index tensor or indirectly accessed"%string;
     reinterpret_output := Ok (fails (cloned_output && bool_decide (name ∈ reinterpret_outputs g)) "graph output is a ReinterpretView");
     mutated_output := Ok (fails (cloned_output && bool_decide (name ∈ mutated_buffers S)) "graph output mutated after production");
     partial_read := gathers_prefix;; Ok (fails (buffer_not_read_in_full g name) "partial/offset read");
     core_division := Ok (if division_is_fixed S && (dget_or (-1) (ncores S) name <? 0)
                          then Some ("core div mismatch: " +:+ dget_or "core div mismatch" (ncores_reasons S) name)%string else None);
     untiled := Ok (if tileable then None else _untiled_residency_bar g name us);
     back_gap := when (_would_produce_lx_back_gap (coordinates F) (subrange_geometry F) g name us) "lx back gap"%string;
     loop_carry := Ok (negb (division_is_fixed S) && match op with Some o => _is_loop_carry_storage o | None => false end);
     drain := Ok (bool_decide (name ∈ drain_plans S));
     prefix_gather := gathers_prefix;
     local_subrange := local_lx_subrange_source g name us |}.

Definition _buffer_residency_reason : res (option string) := buffer_residency_reason checks_of.
End adapter.

(** [_input_residency_reason]; the joint path passes empty core counts. *)
Definition is_rewritable_consumer (o : operation) : bool :=
  bool_decide (computed o = Some Pointwise \/ computed o = Some Reduction).

(** [if m: return why], then the rest. *)
Definition bar (m : res bool) (why : string) (rest : res (option string)) : res (option string) :=
  b ← m; if (b : bool) then Ok (Some why) else rest.

Definition _input_residency_reason (g : graph) (name : string) (us : list Z) (nc : dict Z) (nc_reasons : dict string) (fixed : bool)
    : res (option string) :=
  bar (Ok (negb clone_at_graph_boundaries)) "graph input (no clone)"
  (bar (Ok match try_get_layout g name with Some l => is_empty_tiled_layout l | None => false end) "empty tensor"
  (bar (Ok (_read_count us =? 0)) "no consumer reads it from LX"
  (bar (_is_index_or_indirectly_accessed g name us None) "index tensor or indirectly accessed"
  (bar (if enable_lx_context_switching C then Ok false else _extern_kernel_in_live_range g us)
     "extern kernel user or live across extern kernel"
  (bar (users ← py_map (op_at g) us; Ok (negb (forallb is_rewritable_consumer users))) "use is not rewritable to the clone"
  (bar (Ok (buffer_not_read_in_full g name)) "partial/offset read"
  (barrier ← (if fixed then _restickify_barrier g name us [] else Ok None);
   match barrier with
   | Some why => Ok (Some why)
   | None =>
       if fixed && (dget_or (-1) nc name <? 0)
       then Ok (Some ("core div mismatch: " +:+ dget_or "core div mismatch" nc_reasons name)%string)
       else bar (_would_produce_lx_back_gap (coordinates F) (subrange_geometry F) g name us) "lx back gap" (Ok None)
   end))))))).

(** [_residency_reasons]: [op.layout.target] of every mutation, then the verdict of each name. *)
Definition mutation_targets (g : graph) : list string :=
  omap (fun o => match op_layout o with MutationLayout t _ => Some t | _ => None end) (graph_operations g).

Definition _residency_reasons (g : graph) (names : list string) (S : solve_facts) (lifetimes : gmap string (list Z)) (tileable : list string)
    : res (dict (option string)) :=
  for_each (fun name m =>
    reason ← _buffer_residency_reason g S name (default [] (lifetimes !! name)) (find_op g name) (bool_decide (name ∈ tileable));
    Ok (dset name reason m)) names [].

End checks.

(** ** What a cleared buffer is *)

Lemma excused_true c es : excused c es = Ok true -> exists e, e ∈ es /\ e c = Ok true.
Proof.
  induction es as [|e es IH]; cbn; [done|]. intros (b & He & H)%bind_Ok. destruct b; [exists e; split; [list_mem | done]|].
  destruct (IH H) as (e' & Hin & ?). exists e'. split; [by right | done].
Qed.

(** Every rule of the table was asked, and passed or was excused. *)
Lemma first_failure_None c rules :
  first_failure c rules = Ok None ->
  forall r, r ∈ rules -> exists reason, check r c = Ok reason /\ (reason = None \/ exists e, e ∈ exceptions r /\ e c = Ok true).
Proof.
  induction rules as [|r0 rules IH]; cbn; [by intros _ r ?%elem_of_nil|].
  intros (reason & Hc & H)%bind_Ok r [-> | Hin]%elem_of_cons.
  - exists reason. split; [done|]. destruct reason as [why|]; [|by left]. right.
    apply bind_Ok in H as (b & Hb & H). destruct b; [by apply excused_true in Hb | done].
  - destruct reason as [why|]; [|by apply IH]. apply bind_Ok in H as (b & Hb & H). destruct b; [by apply IH | done].
Qed.

Lemma live_range_spec us i j k : i ∈ us -> j ∈ us -> i <= k <= j -> k ∈ live_range us.
Proof.
  intros Hi Hj Hk. unfold live_range. destruct us as [|u us]; [by apply elem_of_nil in Hi|].
  pose proof (list_min_le u (u :: us) i Hi). pose proof (list_max_ge u (u :: us) j Hj).
  apply list_elem_of_fmap. exists (Z.to_nat (k - list_min u (u :: us))). split; [lia|]. apply elem_of_seq. lia.
Qed.

Lemma py_map_op_at g us ops o i : py_map (op_at g) us = Ok ops -> i ∈ us -> op_at g i = Ok o -> o ∈ ops.
Proof.
  intros H%py_map_Ok (k & Hk)%list_elem_of_lookup Ho. destruct (Forall2_lookup_l _ _ _ _ _ H Hk) as (o' & Hk' & Ho').
  rewrite Ho in Ho'. injection Ho' as <-. by eapply list_elem_of_lookup_2.
Qed.

Lemma fails_None b why : fails b why = None -> b = false.
Proof. by destruct b. Qed.

Section cleared.
Context (C : config) (F : graph_facts) (g : graph) (S : solve_facts) (name : string) (us : list Z).

(** What the rules guarantee of a buffer without a residency reason, on the path where the
    divisions are fixed. *)
Record cleared (o : operation) : Prop := {
  cl_computed : is_Some (computed o);
  cl_tiled : is_Some (tiled (op_layout o));
  cl_nonempty : is_empty_tiled_layout (op_layout o) = false;
  cl_fixed : name ∉ mutated_buffers S;
  cl_still : _is_tiled_advancing o = false /\ _is_read_advancing_anywhere name (buf_user_deps S) = false;
  (** no kernel that may run other programs is launched while the buffer is live *)
  cl_alone : forall i j k o', i ∈ us -> j ∈ us -> i <= k <= j -> op_at g k = Ok o' ->
    if enable_lx_context_switching C then forall n, fallback_outputs o' = Some n -> (n <= 1)%nat
    else extern_kernel o' = true -> empty_fallback o' = true;
  cl_direct : forall i o', i ∈ us -> op_at g i = Ok o' -> indirect_consumer F name o' = false;
  cl_owned : 0 <= dget_or (-1) (ncores S) name;
  cl_read : (1 < length us)%nat
}.

(** Restickify readers read the slices their cores hold. *)
Definition reads_core_locally (plans : list LXRelayoutPlan) : Prop :=
  forall i reader, i ∈ us -> op_at g i = Ok reader -> get_name reader <> name -> is_restickify_op F reader = true ->
    lx_planner_relayout C = true /\ _restickify_read_is_core_local F g name reader plans = Ok true.

(** The table rule by rule: with [cleared] (sized, empty, mutation, advancing, extern,
    multi_output_extern, core_division, untiled and the readers of indirect) every rule of
    [BUFFER_RESIDENCY_RULES] is written out, with its exceptions. *)
Record obeys (o : operation) : Prop := {
  ob_cleared : cleared o;
  ob_op_allowed : _is_loop_carry_storage o = true \/ allow_all_ops_in_lx_planning C = true \/
    short_name o ∉ OP_OUTPUT_NOT_GOOD_FOR_LX_REUSE \/ get_name o ∈ planned_lx_buffers S;
  ob_restickify : reads_core_locally (lx_relayout_plans S);
  ob_indirect : forall d, d ∈ dep_writes o -> memory_dep d = true -> is_indirect d = false;
  ob_reinterpret_output : name ∈ output_names g -> name ∉ reinterpret_outputs g;
  ob_mutated_output : name ∈ output_names g -> name ∉ mutated_buffers S \/ name ∈ drain_plans S;
  ob_partial_read : buffer_not_read_in_full g name = false \/ gathers_prefix C F g S name us = Ok true \/ local_lx_subrange_source C F g name us = Ok true;
  ob_back_gap : _would_produce_lx_back_gap (coordinates F) (subrange_geometry F) g name us = Ok false \/ gathers_prefix C F g S name us = Ok true
}.

Lemma barrier_local plans : _restickify_barrier C F g name us plans = Ok None -> reads_core_locally plans.
Proof.
  intros Hb i reader Hi Hr Hn Hre. unfold _restickify_barrier in Hb. apply bind_Ok in Hb as (users & Hu & Hb).
  pose proof (py_map_op_at _ _ _ _ _ Hu Hi Hr) as Hin.
  assert (reader ∈ filter (fun o => get_name o <> name /\ is_restickify_op F o = true) users) as Hf by (by apply list_elem_of_filter).
  rewrite bool_decide_eq_false_2 in Hb by (intros E; rewrite E in Hf; by apply elem_of_nil in Hf).
  destruct (lx_planner_relayout C); [|done]. cbn [negb] in Hb. apply bind_Ok in Hb as (b & Hall & Hb). destruct b; [|done]. split; [done|].
  clear -Hall Hf. induction (filter _ users) as [|o l IH]; [by apply elem_of_nil in Hf|]. cbn in Hall. apply bind_Ok in Hall as (b & Hb & Hall).
  destruct b; [|done]. apply elem_of_cons in Hf as [-> | Hf]; [done | by apply IH].
Qed.

Context (op : option operation).
Context (H : _buffer_residency_reason C F g S name us op false = Ok None) (Hfixed : division_is_fixed S = true).

#[local] Notation c := (checks_of C F g S name us op false).

Lemma rule_passed r : r ∈ BUFFER_RESIDENCY_RULES ->
  exists reason, check r c = Ok reason /\ (reason = None \/ exists e, e ∈ exceptions r /\ e c = Ok true).
Proof. by apply first_failure_None. Qed.

Lemma plain_rule_passed n chk : mkRule n chk [] ∈ BUFFER_RESIDENCY_RULES -> chk c = Ok None.
Proof.
  intros Hin. destruct (rule_passed _ Hin) as (reason & Hc & [-> | (e & He & _)]); [done|]. by apply elem_of_nil in He.
Qed.

#[local] Ltac rule n chk :=
  let R := fresh "R" in
  assert (chk c = Ok None) as R by (apply (plain_rule_passed n chk); unfold BUFFER_RESIDENCY_RULES; list_mem);
  cbn in R.

Lemma cleared_alone i j k o' : i ∈ us -> j ∈ us -> i <= k <= j -> op_at g k = Ok o' ->
  if enable_lx_context_switching C then forall n, fallback_outputs o' = Some n -> (n <= 1)%nat
  else extern_kernel o' = true -> empty_fallback o' = true.
Proof.
  intros Hi Hj Hk Ho. pose proof (live_range_spec us i j k Hi Hj Hk) as Hin.
  rule "extern"%string extern. rule "multi_output_extern"%string multi_output_extern.
  destruct (enable_lx_context_switching C); cbn [negb] in *.
  - apply bind_Ok in R0 as (b & Hb & [= Hf%fails_None]). subst b. apply bind_Ok in Hb as (ops & Hops & [= Hb]).
    pose proof (py_map_op_at _ _ _ _ _ Hops Hin Ho) as Hm. intros n Hn. apply not_true_iff_false in Hb.
    destruct (Nat.leb_spec n 1); [done|]. destruct Hb. apply existsb_exists. exists o'. split; [by apply list_elem_of_In|].
    rewrite Hn. by apply Nat.ltb_lt.
  - apply bind_Ok in R as (b & Hb & [= Hf%fails_None]). subst b. apply bind_Ok in Hb as (ops & Hops & [= Hb]).
    pose proof (py_map_op_at _ _ _ _ _ Hops Hin Ho) as Hm. intros He. apply not_true_iff_false in Hb.
    destruct (empty_fallback o') eqn:E; [done|]. destruct Hb. apply existsb_exists. exists o'. split; [by apply list_elem_of_In|].
    by rewrite He, E.
Qed.

Lemma cleared_direct i o' : i ∈ us -> op_at g i = Ok o' -> indirect_consumer F name o' = false.
Proof.
  intros Hi Ho. rule "indirect"%string indirect. apply bind_Ok in R as (b & Hb & [= Hf%fails_None]). subst b.
  unfold _is_index_or_indirectly_accessed in Hb. case_match; [done|]. apply bind_Ok in Hb as (ops & Hops & [= Hb]).
  pose proof (py_map_op_at _ _ _ _ _ Hops Hi Ho) as Hm. destruct (indirect_consumer F name o') eqn:E; [|done].
  apply not_true_iff_false in Hb. destruct Hb. apply existsb_exists. exists o'. by split; [apply list_elem_of_In|].
Qed.

Lemma cleared_spec : exists o, op = Some o /\ cleared o.
Proof.
  rule "op_allowed"%string op_allowed. rule "sized"%string sized. rule "empty"%string empty.
  rule "advancing"%string advancing. rule "core_division"%string core_division. rule "untiled"%string untiled.
  destruct (rule_passed (mkRule "mutation" mutation [loop_carry])) as (reason & Hc & Hor); [unfold BUFFER_RESIDENCY_RULES; list_mem|].
  pose proof cleared_alone as Ha. pose proof cleared_direct as Hd. clear H. destruct op as [o|] eqn:Eo; [|done]. exists o. split; [done|].
  injection R as Ra%fails_None. apply negb_false_iff in Ra. injection R0 as Rs%fails_None. injection R1 as Re%fails_None.
  injection R2 as [Rv1 Rv2]%fails_None%orb_false_iff. rewrite Hfixed in R3. cbn in R3, Rs, Re.
  split; [| | done | | done | exact Ha | exact Hd | |].
  - unfold _op_output_good_for_lx_reuse in Ra. by destruct (computed o).
  - unfold op_layout_of in Rs. cbn in Rs. by destruct (tiled (op_layout o)).
  - cbn in Hc. injection Hc as <-. destruct Hor as [Hm%fails_None | (e & ->%list_elem_of_singleton & He)]; [exact (bool_decide_eq_false_1 _ Hm)|].
    cbn in He. by rewrite Hfixed in He.
  - destruct (Z.ltb_spec (dget_or (-1) (ncores S) name) 0); [done | lia].
  - injection R4 as R4. unfold _untiled_residency_bar in R4. destruct (_ && _); [done|].
    destruct (Z.eqb_spec (_read_count us) 0) as [|Hr]; [done|]. unfold _read_count in Hr. lia.
Qed.

Lemma obeys_spec : exists o, op = Some o /\ obeys o.
Proof.
  destruct cleared_spec as (o & Eo & Hc). exists o. split; [done|].
  rule "op_allowed"%string op_allowed. rule "restickify"%string restickify. rule "indirect"%string indirect. rule "reinterpret_output"%string reinterpret_output.
  destruct (rule_passed (mkRule "mutated_output" mutated_output [drain])) as (rm & Em & Hm); [unfold BUFFER_RESIDENCY_RULES; list_mem|].
  destruct (rule_passed (mkRule "partial_read" partial_read [prefix_gather; local_subrange])) as (rp & Ep & Hp); [unfold BUFFER_RESIDENCY_RULES; list_mem|].
  destruct (rule_passed (mkRule "back_gap" back_gap [prefix_gather])) as (rb & Eb & Hb); [unfold BUFFER_RESIDENCY_RULES; list_mem|].
  clear H. subst op. cbn [rule_name check exceptions] in *. rewrite Hfixed in *. split; [done | | by apply barrier_local | | | | |].
  - injection R as R%fails_None. apply negb_false_iff in R. unfold _op_output_good_for_lx_reuse in R. destruct (computed o); [|done]. destruct (op_layout o); try done.
    apply orb_true_iff in R as [R | R]; [|right; right; right; by apply bool_decide_eq_true in R]. apply orb_true_iff in R as [R | R]; [|right; right; left; by apply negb_true_iff, bool_decide_eq_false in R].
    apply orb_true_iff in R as [R | R]; [by left | by right; left].
  - intros d Hd Hmem. apply bind_Ok in R1 as (b & Hb1 & [= Hf%fails_None]). subst b. unfold _is_index_or_indirectly_accessed in Hb1.
    destruct (cl_computed _ Hc) as [k Ek]. rewrite Ek in Hb1. destruct (existsb _ (dep_writes o)) eqn:E; [done|]. destruct (is_indirect d) eqn:Ed; [|done].
    apply not_true_iff_false in E. destruct E. apply existsb_exists. exists d. split; [by apply list_elem_of_In | by rewrite Hmem, Ed].
  - intros Ho Hr. injection R2 as R2%fails_None. unfold cloned_output in R2. rewrite (bool_decide_eq_true_2 (name ∈ output_names g)), (bool_decide_eq_true_2 (name ∈ reinterpret_outputs g)) in R2 by done. done.
  - intros Ho. cbn in Em. injection Em as <-. destruct Hm as [Hm%fails_None | (e & ->%list_elem_of_singleton & He)].
    + unfold cloned_output in Hm. rewrite (bool_decide_eq_true_2 (name ∈ output_names g)) in Hm by done. left. by apply bool_decide_eq_false in Hm.
    + injection He as He%bool_decide_eq_true. by right.
  - cbn in Ep. apply bind_Ok in Ep as (b & Hg & [= <-]). destruct Hp as [Hp%fails_None | (e & He & Hx)]; [by left|]. right.
    apply elem_of_cons in He as [-> | ->%list_elem_of_singleton]; [by left | by right].
  - cbn in Eb. apply bind_Ok in Eb as (b & Hg & [= <-]). destruct Hb as [->%fails_None | (e & ->%list_elem_of_singleton & Hx)]; [by left | by right].
Qed.
End cleared.
