(* ===== verification/Allocator.v ===== *)
(** * The scratchpad allocator, placement path ([scratchpad/allocator.py])

    [ScratchpadAllocator.plan_allocation] turns the lowered graph into bound buffers, hands
    them to a layout solver and commits the addresses.  This file models the path on which
    the core divisions are fixed: the in-place candidates, the construction of the bound
    buffers, the pairing of relayout destinations with their sources, the solve through
    the interface [LayoutSolver], and the acceptance of relayouts.

    Buffers are those of [PlanSolver], with the fields only the allocator reads beside
    them.  [paired_with] holds references in the code; here a source names its
    destinations, and positions are computed when the solver is called. *)

From S2P Require Import Prelude PyDict PlanSolver Liveness CoreMapping CoreViews BufferFacts ResidencyRules.

(** ** Hand-over ticks *)

(** [d[k]] *)
Definition mgetitem {V} (m : gmap string V) (k : string) : res V :=
  match m !! k with Some v => Ok v | None => Raise KeyError end.

Definition _handoff_child_start (name : string) (lifetimes : gmap string (list Z)) (starts : gmap string Z) : res Z :=
  us ← mgetitem lifetimes name;
  first ← match head us with Some u => Ok u | None => Raise IndexError end;
  Ok (Z.min first (default first (starts !! name))).

Definition _handoff_parent_end (name : string) (lifetimes : gmap string (list Z)) (ends : gmap string Z) : res Z :=
  us ← mgetitem lifetimes name;
  lst ← match last us with Some u => Ok u | None => Raise IndexError end;
  Ok (Z.max lst (default (lst + 1) (ends !! name) - 1)).

Definition _op_inputs_good_for_lx_inplace (o : operation) : list string :=
  if has_target o then get_op_pointwise_inputs o else [].

Definition _inplace_edge_ok (child_pointwise_inputs : list string) (parent_name : string) (child_dev parent_dev : device_layout)
    (child_start parent_end : Z) (child_size parent_size : Z) (child_mismatch : bool) : bool :=
  bool_decide (parent_name ∈ child_pointwise_inputs) && bool_decide (child_dev = parent_dev) && (parent_end =? child_start)
  && (child_size =? parent_size) && negb child_mismatch.

(** [graph.get_buffer(name).get_layout().device_layout] *)
Definition device_layout_of (g : graph) (name : string) : res device_layout :=
  match try_get_layout g name with
  | None => Raise KeyError
  | Some l => match tiled l with Some d => Ok d | None => Raise AttributeError end
  end.

Definition barred (reasons : dict (option string)) (name : string) : bool :=
  match dget reasons name with Some (Some _) => true | _ => false end.

Section determine.
Context (g : graph) (mem_usage : dict usage) (lifetimes : gmap string (list Z)) (reasons : dict (option string)).
Context (starts ends : gmap string Z).

(** One input of the inner loop of [_determine_in_place]. *)
Definition in_place_input (pointwise : list string) (child : string) (info : usage) (out_start : Z) (out_dev : device_layout)
    (input : string) (acc : list string) : res (list string) :=
  match dget mem_usage input with
  | None => Ok acc
  | Some parent_info =>
      us ← mgetitem lifetimes input;
      if bool_decide (us = []) then Ok acc
      else if barred reasons input then Ok acc
      else
        in_dev ← device_layout_of g input;
        parent_end ← _handoff_parent_end input lifetimes ends;
        Ok (if _inplace_edge_ok pointwise input out_dev in_dev out_start parent_end (size_per_core info)
                 (size_per_core parent_info) (core_div_mismatch info)
            then acc ++ [input] else acc)
  end.

(** One buffer of the outer loop. *)
Definition in_place_buffer (entry : string * usage) (m : dict (list string)) : res (dict (list string)) :=
  let '(name, info) := entry in
  let pointwise := match find_op g name with Some o => _op_inputs_good_for_lx_inplace o | None => [] end in
  if bool_decide (pointwise = []) || barred reasons name || bool_decide (default [] (lifetimes !! name) = [])
  then Ok (dset name [] m)
  else
    out_start ← _handoff_child_start name lifetimes starts;
    out_dev ← device_layout_of g name;
    inputs ← for_each (in_place_input pointwise name info out_start out_dev) (op_inputs info) [];
    Ok (dset name inputs m).

Definition _determine_in_place : res (dict (list string)) := for_each in_place_buffer mem_usage [].
End determine.

(** ** Bound buffers *)

Record abuffer := mkABuffer {
  ab : LifetimeBoundBuffer;
  lx_view : option PerCoreView;
  relayout_plans : list LXRelayoutPlan;
  destinations : list string
}.

Definition ab_name (b : abuffer) : string := buf_name (ab b).

(** [LifetimeBoundBuffer(...)], with the assertions of its constructor. *)
Definition new_buffer (name : string) (size : Z) (us : list Z) (from_input : bool) (in_place : list string) (reason : option string)
    (start end_ : option Z) (view : option PerCoreView) : res abuffer :=
  let b := mkBuffer name size us from_input None in_place reason None start end_ [] None [] [] ∅ None in
  post_init b;;
  Ok (mkABuffer b view [] []).

Definition set_parents (l : list string) (b : LifetimeBoundBuffer) : LifetimeBoundBuffer :=
  mkBuffer (buf_name b) (buf_size b) (uses b) (first_use_is_read b) (address b) l (residency_reason b) (untiled_bar b)
    (lifetime_start_override b) (lifetime_end_override b) (paired_with b) (spill_reason b) (core_divisions b)
    (parents b) (cd_parent_matches b) (chosen_division b).

Definition on_buffer (f : LifetimeBoundBuffer -> LifetimeBoundBuffer) (b : abuffer) : abuffer :=
  mkABuffer (f (ab b)) (lx_view b) (relayout_plans b) (destinations b).

(** [consumer.in_place_parents.append(input_name)] *)
Definition add_parent (parent consumer : string) (bufs : list abuffer) : list abuffer :=
  (fun b => if bool_decide (ab_name b = consumer) then on_buffer (set_parents (in_place_parents (ab b) ++ [parent])) b else b) <$> bufs.

Definition _input_footprint (g : graph) (name : string) (nc : dict Z) : Z :=
  match try_get_layout g name ≫= tiled with
  | None => 0
  | Some dev => let cores := dget_or (-1) nc name in if cores <? 1 then 0 else device_bytes dev / cores
  end.

Section bound.
Context (C : config) (F : graph_facts) (g : graph).
Context (in_place : dict (list string)) (mem_usage : dict usage) (reasons : dict (option string)).
Context (lifetimes : gmap string (list Z)) (nc : dict Z) (nc_reasons : dict string) (lx_views : dict PerCoreView).
Context (starts ends : gmap string Z).

Definition bound_output (entry : string * usage) (bufs : list abuffer) : res (list abuffer) :=
  let '(name, info) := entry in
  let us := default [] (lifetimes !! name) in
  if bool_decide (us = []) then Ok bufs
  else
    b ← new_buffer name (Z.max 0 (size_per_core info)) us false (dget_or [] in_place name) (dget_or None reasons name)
          (starts !! name) (ends !! name) (dget lx_views name);
    Ok (bufs ++ [b]).

(** The reverse-parent edge of an input clone: its last reader may take its slot. *)
Definition reverse_parent (name : string) (us : list Z) (clone_size : Z) (outputs bufs : list abuffer) : res (list abuffer) :=
  lst ← match last us with Some u => Ok u | None => Raise IndexError end;
  consumer_op ← op_at g lst;
  match list_find (fun b => ab_name b = get_name consumer_op) outputs with
  | None => Ok bufs
  | Some (_, consumer) =>
      if bool_decide (name ∈ in_place_parents (ab consumer)) then Ok bufs
      else
        match try_get_layout g (get_name consumer_op) ≫= tiled, try_get_layout g name ≫= tiled with
        | Some consumer_dev, Some input_dev =>
            child_start ← _handoff_child_start (get_name consumer_op) lifetimes starts;
            parent_end ← _handoff_parent_end name lifetimes ends;
            info ← dgetitem mem_usage (get_name consumer_op);
            Ok (if _inplace_edge_ok (_op_inputs_good_for_lx_inplace consumer_op) name consumer_dev input_dev child_start parent_end
                     (buf_size (ab consumer)) clone_size (core_div_mismatch info)
                then add_parent name (get_name consumer_op) bufs else bufs)
        | _, _ => Ok bufs
        end
  end.

(** One input; [built_by_name] sees the outputs only, in their current state. *)
Definition bound_input (n_outputs : nat) (name : string) (bufs : list abuffer) : res (list abuffer) :=
  let us := default [] (lifetimes !! name) in
  if bool_decide (us = []) then Ok bufs
  else
    reason ← _input_residency_reason C F g name us nc nc_reasons true;
    let clone_size := _input_footprint g name nc in
    b ← new_buffer name clone_size us true [] reason (starts !! name) (ends !! name) (dget lx_views name);
    match reason with
    | Some _ => Ok (bufs ++ [b])
    | None => reverse_parent name us clone_size (take n_outputs bufs) (bufs ++ [b])
    end.

Definition _build_bound_buffers : res (list abuffer) :=
  outputs ← for_each bound_output mem_usage [];
  for_each (bound_input (length outputs)) (dkeys (graph_inputs g)) outputs.
End bound.

(** ** [_generate_buffers] *)

(** What a relayout plan says of its source replaces the judge's verdict. *)
Definition plan_source (p : LXRelayoutPlan) (st : verdicts * dict usage) : verdicts * dict usage :=
  match dget st.2 (source_name p) with
  | None => st
  | Some info =>
      (* [plan.source_view.num_cores or plan.num_cores] *)
      let cores := match view_num_cores (source_view p) with Some n => if n =? 0 then plan_cores p else n | None => plan_cores p end in
      (mkVerdicts (dset (source_name p) cores (num_cores st.1))
         (filter (fun kv => kv.1 <> source_name p) (mismatch_reasons st.1))
         (dset (source_name p) (source_view p) (accepted_views st.1)),
       dset (source_name p)
         (mkUsage (usage_size info) (Z.max (size_per_core info) (source_footprint p)) false (op_inputs info)) st.2)
  end.

(** [by_name[plan.source_name].lx_relayout_plans.append(plan)] *)
Definition attach_plan (p : LXRelayoutPlan) (bufs : list abuffer) : res (list abuffer) :=
  if existsb (fun b => bool_decide (ab_name b = source_name p)) bufs
  then Ok ((fun b => if bool_decide (ab_name b = source_name p)
                     then mkABuffer (ab b) (lx_view b) (relayout_plans b ++ [p]) (destinations b) else b) <$> bufs)
  else Raise KeyError.

Definition planned_names (plans : list LXRelayoutPlan) : list string :=
  p ← plans; [source_name p; destination_name p].

Definition fixed_facts (g : graph) (v : verdicts) (plans : list LXRelayoutPlan) : solve_facts :=
  mkSolveFacts (mutation_targets g) (num_cores v) (mismatch_reasons v) true (_get_buffer_user_deps g) (planned_names plans) plans [] false.

Definition _generate_buffers (C : config) (F : graph_facts) (g : graph) (plans : list LXRelayoutPlan) : res (list abuffer) :=
  let lifetimes := calculate_liveness (lowering g) in
  ov ← counted_loop_lifetime_overrides (lowering g);
  v0 ← get_ncores_for_buffers (prep_of F) (reduces F) (subrange_certificate F) g [];
  m0 ← mem_usage_by_buf (prep_of F) (reduces F) (subrange_certificate F) g;
  let '(v, mem_usage) := foldl (fun st p => plan_source p st) (v0, m0) plans in
  reasons ← _residency_reasons C F g (dkeys mem_usage) (fixed_facts g v plans) lifetimes [];
  in_place ← _determine_in_place g mem_usage lifetimes reasons ov.1 ov.2;
  bufs ← _build_bound_buffers C F g in_place mem_usage reasons lifetimes (num_cores v) (mismatch_reasons v) (accepted_views v) ov.1 ov.2;
  for_each attach_plan plans bufs.

(** ** Relayout destinations *)

Notation relayout_entry := (string * LXRelayoutPlan * list Z)%type.

(** [op_index[name]] *)
Definition op_index (g : graph) (name : string) : res Z :=
  match list_find (fun o => get_name o = name) (graph_operations g) with
  | Some (i, _) => Ok (Z.of_nat i)
  | None => Raise KeyError
  end.

(** One plan of one source: an entry, or the name of an invalid source. *)
Definition plan_entry (g : graph) (source : abuffer) (p : LXRelayoutPlan) (st : list relayout_entry * list string)
    : res (list relayout_entry * list string) :=
  ticks ← py_map (op_index g) (consumer_names p);
  py_assert (forallb (fun t => bool_decide (t ∈ uses (ab source))) ticks);;
  Ok match residency_reason (ab source) with
     | Some _ => (st.1, st.2 ++ [source_name p])
     | None => (st.1 ++ [(ab_name source, p, ticks)], st.2)
     end.

Definition plan_entries (g : graph) (bufs : list abuffer) : res (list relayout_entry * list string) :=
  for_each (fun source st => for_each (plan_entry g source) (relayout_plans source) st) bufs ([], []).

(** [_clear_lx_relayout_groups] *)
Definition group_names (bufs : list abuffer) (source : string) (names : list string) : res (list string) :=
  match list_find (fun b => ab_name b = source) bufs with
  | Some (_, b) => Ok (names ++ (destination_name <$> relayout_plans b))
  | None => Raise KeyError
  end.

Definition _clear_lx_relayout_groups (bufs : list abuffer) (sources : list string) : res (list abuffer) :=
  names ← for_each (group_names bufs) sources sources;
  Ok ((fun b =>
    let b' := if bool_decide (ab_name b ∈ names) then on_buffer (set_address None) b else b in
    if bool_decide (ab_name b ∈ sources) then mkABuffer (ab b') (lx_view b') [] (destinations b') else b') <$> bufs).

Definition set_lifetime (us : list Z) (start end_ : option Z) (b : LifetimeBoundBuffer) : LifetimeBoundBuffer :=
  mkBuffer (buf_name b) (buf_size b) us (first_use_is_read b) (address b) (in_place_parents b) (residency_reason b) (untiled_bar b)
    start end_ (paired_with b) (spill_reason b) (core_divisions b) (parents b) (cd_parent_matches b) (chosen_division b).

(** Half-ticks: an operation at [t] runs at [2 t + 1], a transfer before it at [2 t]. *)
Definition double_ticks (b : LifetimeBoundBuffer) : LifetimeBoundBuffer :=
  set_lifetime ((fun u => 2 * u + 1) <$> uses b) (Z.mul 2 <$> lifetime_start_override b) (Z.mul 2 <$> lifetime_end_override b) b.

Definition _LX_ALLOCATION_GRANULARITY_BYTES : Z := 128.

(** [sorted(set)] *)
Definition sorted_set (l : list Z) : list Z := py_sorted Z.leb (remove_dups l).

(** One plan of one source: the source's remaining uses, and its destination. *)
Definition make_destination (start end_ : option Z) (size : Z) (p : LXRelayoutPlan) (original_ticks : list Z) (source_uses : list Z)
    : res (list Z * Z * abuffer) :=
  let consumer_ticks := (fun t => 2 * t + 1) <$> original_ticks in
  first ← match head consumer_ticks with Some t => Ok t | None => Raise IndexError end;
  lst ← match last consumer_ticks with Some t => Ok t | None => Raise IndexError end;
  let transfer := first - 1 in
  let destination_end := match end_ with Some e => if lst + 1 <? e then Some e else None | None => None end in
  let bytes := if destination_footprint p =? 0 then size else destination_footprint p in
  d ← new_buffer (destination_name p) (round_up_to_alignment bytes _LX_ALLOCATION_GRANULARITY_BYTES) (transfer :: consumer_ticks)
        false [] None start destination_end (Some (destination_view p));
  Ok (sorted_set (filter (fun u => u ∉ consumer_ticks) source_uses ++ [transfer]), transfer, d).

(** The group of one source: its new state and its destinations, which go before it. *)
Definition relayout_source (b : abuffer) (plans : list (LXRelayoutPlan * list Z)) : res (abuffer * list abuffer) :=
  let start := lifetime_start_override (ab b) in
  let end_ := lifetime_end_override (ab b) in
  st ← for_each (fun pt (st : list Z * list Z * list abuffer) =>
         utd ← make_destination start end_ (buf_size (ab b)) pt.1 pt.2 st.1.1;
         Ok (utd.1.1, st.1.2 ++ [utd.1.2], st.2 ++ [utd.2])) plans (uses (ab b), [], []);
  let '(us, transfers, dests) := st in
  let remaining_reads := if first_use_is_read (ab b) then us else drop 1 us in
  let keeps := existsb (fun u => list_max 0 transfers <? u) remaining_reads in
  Ok (mkABuffer (set_lifetime us (if keeps then start else None) (if keeps then end_ else None) (ab b)) (lx_view b) (relayout_plans b)
        (destinations b ++ (ab_name <$> dests)), dests).

Definition place_relayouts (entries : list relayout_entry) (b : abuffer) : res (list abuffer) :=
  match filter (fun e => e.1.1 = ab_name b) entries with
  | [] => Ok [b]
  | mine => sd ← relayout_source b ((fun e => (e.1.2, e.2)) <$> mine); Ok (sd.2 ++ [sd.1])
  end.

Definition drop_planned (sources : list string) (b : abuffer) : abuffer :=
  on_buffer (set_parents (filter (fun p => p ∉ sources) (in_place_parents (ab b)))) b.

Definition _append_lx_relayout_destinations (g : graph) (bufs : list abuffer) : res (list abuffer) :=
  ei ← plan_entries g bufs;
  let '(entries0, invalid) := ei in
  let entries := filter (fun e => e.1.1 ∉ invalid) entries0 in
  kept ← (if bool_decide (invalid = []) then Ok bufs else _clear_lx_relayout_groups bufs invalid);
  let planned : list string := (fun e => e.1.1) <$> entries in
  let unparented : list abuffer := drop_planned planned <$> (kept : list abuffer) in
  if bool_decide (entries = []) then Ok unparented
  else parts ← py_map (place_relayouts entries) (on_buffer double_ticks <$> unparented); Ok (mjoin (parts : list (list abuffer))).

(** ** The solve *)

(** [paired_with] as positions of the list handed to the solver. *)
Definition position_of (bufs : list abuffer) (name : string) : option nat :=
  fst <$> list_find (fun b => ab_name b = name) bufs.

Definition set_paired (l : list nat) (b : LifetimeBoundBuffer) : LifetimeBoundBuffer :=
  mkBuffer (buf_name b) (buf_size b) (uses b) (first_use_is_read b) (address b) (in_place_parents b) (residency_reason b) (untiled_bar b)
    (lifetime_start_override b) (lifetime_end_override b) l (spill_reason b) (core_divisions b) (parents b) (cd_parent_matches b)
    (chosen_division b).

Definition solver_buffers (bufs : list abuffer) : list LifetimeBoundBuffer :=
  (fun b => set_paired (omap (position_of bufs) (destinations b)) (ab b)) <$> bufs.

(** What the solver wrote, on the allocator's buffers. *)
Definition adopt (b : abuffer) (o : LifetimeBoundBuffer) : abuffer := mkABuffer o (lx_view b) (relayout_plans b) (destinations b).

(** [_allocated_lx_relayout_sources] *)
Definition allocated_source (bufs : list abuffer) (source : abuffer) (complete : list string) : res (list string) :=
  if bool_decide (relayout_plans source = []) then Ok complete
  else
    dests ← py_map (fun p => match list_find (fun b => ab_name b = destination_name p) bufs with
                             | Some (_, d) => Ok (ab d)
                             | None => Raise KeyError
                             end) (relayout_plans source);
    let placed := (fun b => bool_decide (is_Some (address b))) <$> (ab source :: dests) in
    py_assert (forallb id placed || negb (existsb id placed));;
    match address (ab source) with
    | None => Ok complete
    | Some a =>
        py_assert (forallb (fun d => match address d with
                                     | Some x => negb ((a <? x + buf_size d) && (x <? a + buf_size (ab source)))
                                     | None => false
                                     end) dests);;
        Ok (complete ++ [ab_name source])
    end.

Definition _allocated_lx_relayout_sources (bufs : list abuffer) : res (list string) :=
  for_each (allocated_source bufs) bufs [].

(** [_accepted_plans] *)
Definition committed_plan (bufs : list abuffer) (p : LXRelayoutPlan) : res LXRelayoutPlan :=
  match list_find (fun b => ab_name b = source_name p) bufs, list_find (fun b => ab_name b = destination_name p) bufs with
  | Some (_, s), Some (_, d) =>
      Ok (mkPlan (source_name p) (consumer_names p) (source_view p) (destination_view p) (plan_cores p) (source_footprint p)
            (destination_footprint p) (address (ab s)) (address (ab d)))
  | _, _ => Raise KeyError
  end.

Definition _accepted_plans (bufs : list abuffer) : res (list LXRelayoutPlan) :=
  py_map (committed_plan bufs) (b ← bufs; relayout_plans b).

Definition _finalize_lx_relayout_allocation (bufs : list abuffer) : res (list abuffer * list LXRelayoutPlan) :=
  let plans := b ← bufs; relayout_plans b in
  if bool_decide (plans = []) then Ok (bufs, [])
  else
    complete ← _allocated_lx_relayout_sources bufs;
    let rejected := filter (fun n => n ∉ complete) (remove_dups (source_name <$> plans)) in
    bufs ← (if bool_decide (rejected = []) then Ok bufs else _clear_lx_relayout_groups bufs rejected);
    accepted ← _accepted_plans bufs;
    Ok (bufs, accepted).

(** [_get_spill_reasons]; an empty reason is read as none. *)
Definition spill_text (b : LifetimeBoundBuffer) : string :=
  match spill_reason b with
  | Some r => if bool_decide (r = ""%string) then ("no room on scratchpad (t=" +:+ pretty (start_time b) +:+ "-" +:+ pretty (end_time b)
                +:+ ", size=" +:+ pretty (buf_size b / 1024) +:+ " KB)")%string else r
  | None => ("no room on scratchpad (t=" +:+ pretty (start_time b) +:+ "-" +:+ pretty (end_time b)
               +:+ ", size=" +:+ pretty (buf_size b / 1024) +:+ " KB)")%string
  end.

Definition _get_spill_reasons (bufs : list abuffer) : dict string :=
  foldl (fun m b => match address (ab b) with None => dset (ab_name b) (spill_text (ab b)) m | Some _ => m end) [] bufs.

(** [plan_allocation] up to the graph edits: the committed buffers and the accepted relayouts.
    [plan] is [layout_planning(buffers, size).plan_layout()], which aligns to 128 bytes;
    [collect] is [collect_lx_relayout_plans], and [materialized] whether the graph has
    relayouts already. *)
Section allocate.
Context (C : config) (F : graph_facts).
Context (plan : Z -> Z -> list LifetimeBoundBuffer -> res (list LifetimeBoundBuffer)) (supports_paired : bool) (size : Z).
Context (collect : graph -> list LXRelayoutPlan) (materialized : graph -> bool).

Definition relayouts_to_plan (g : graph) (given : option (list LXRelayoutPlan)) : res (list LXRelayoutPlan) :=
  match given with
  | None => Ok (collect g)
  | Some plans =>
      if negb (lx_planner_relayout C) || ktir_emitter C then Ok []
      else raise_if (materialized g) RuntimeError;; Ok plans
  end.

Definition _prepare_buffers (g : graph) (given : option (list LXRelayoutPlan)) : res (list abuffer) :=
  if negb supports_paired then _generate_buffers C F g []
  else
    plans ← relayouts_to_plan g given;
    bufs ← _generate_buffers C F g plans;
    _append_lx_relayout_destinations g bufs.

Definition _solve (bufs : list abuffer) : res (list abuffer) :=
  out ← plan size 128 (solver_buffers bufs);
  Ok (zip_with adopt bufs out).

(** The passes run first, and then no earlier plan is reused. *)
Definition plan_allocation (pre_passes : list (graph -> graph)) (g : graph) (given : option (list LXRelayoutPlan))
    : res (list abuffer * list LXRelayoutPlan) :=
  let given' := if bool_decide (pre_passes = []) then given else None in
  let g' := foldl (fun g p => p g) g pre_passes in
  bufs ← _prepare_buffers g' given';
  allocation ← _solve bufs;
  _finalize_lx_relayout_allocation allocation.
End allocate.
