(* ===== verification/AllocatorBuffers.v ===== *)
(** * The buffers the allocator builds

    What [_generate_buffers] hands on: every buffer has the lifetime [Liveness] computes,
    the residency verdict of [ResidencyRules] and a size that is not negative; every
    in-place edge joins a pointwise operation to an input it may overwrite, of the same
    size and device layout, on the tick at which the input dies. *)

From S2P Require Import Prelude PyDict PlanSolver Liveness CoreMapping CoreViews BufferFacts ResidencyRules Allocator.

(** ** Graphs *)

(** Names are unique, and device sizes are sizes. *)
Record wf_graph (g : graph) : Prop := {
  wg_names : NoDup ((get_name <$> graph_operations g) ++ dkeys (graph_inputs g));
  wg_bytes : forall name l dev, try_get_layout g name = Some l -> tiled l = Some dev -> 0 <= device_bytes dev
}.

Lemma find_op_Some g n o : find_op g n = Some o -> o ∈ graph_operations g /\ get_name o = n.
Proof.
  unfold find_op. destruct (list_find _ _) as [[i o']|] eqn:H; [|done]. intros [= ->]. apply list_find_Some in H as (Hi & Hn & _).
  split; [by eapply list_elem_of_lookup_2 | done].
Qed.

Lemma op_at_elem g i o : op_at g i = Ok o -> o ∈ graph_operations g.
Proof.
  unfold op_at, py_nth. destruct (_ <? 0) in |- * at 1; [done|]. destruct (graph_operations g !! _) eqn:E; [|done].
  intros [= <-]. by eapply list_elem_of_lookup_2.
Qed.

Lemma op_at_lookup g k o : graph_operations g !! k = Some o -> op_at g (Z.of_nat k) = Ok o.
Proof. intros H. apply py_nth_nonneg; [lia|]. by rewrite Nat2Z.id. Qed.

Section ticks.
Context (g : GraphLowering) (ov : overrides).

Lemma liveness_uses n us : calculate_liveness g !! n = Some us -> us = access_indices g n.
Proof. rewrite calculate_liveness_lookup. case_decide; [by intros [= <-] | done]. Qed.

Lemma mgetitem_uses n us : mgetitem (calculate_liveness g) n = Ok us -> us = access_indices g n.
Proof. unfold mgetitem. destruct (calculate_liveness g !! n) eqn:E; [|done]. intros [= <-]. by apply liveness_uses. Qed.

Lemma handoff_child_start_lo n s : _handoff_child_start n (calculate_liveness g) ov.1 = Ok s -> s = lo g ov n.
Proof.
  unfold _handoff_child_start, lo. intros (us & ->%mgetitem_uses & H)%bind_Ok.
  destruct (head (access_indices g n)); [|done]. by inv_res.
Qed.

Lemma handoff_parent_end_hi n e : _handoff_parent_end n (calculate_liveness g) ov.2 = Ok e -> e = hi g ov n - 1.
Proof.
  unfold _handoff_parent_end, hi. intros (us & ->%mgetitem_uses & H)%bind_Ok.
  destruct (last (access_indices g n)); [|done]. inv_res. cbn. destruct (ov.2 !! n); cbn; lia.
Qed.
End ticks.

(** ** In-place candidates *)

Section generated.
Context (g : graph) (ov : overrides) (Hwide : widening (lowering g) ov).
Context (mem : dict usage) (reasons : dict (option string)) (Hmem : NoDup (dkeys mem)).

#[local] Notation lw := (lowering g).

(** [child]'s operation may overwrite its input [parent] while it reads it. *)
Record edge (child parent : string) : Prop := {
  edge_pointwise : exists o, find_op g child = Some o /\ parent ∈ _op_inputs_good_for_lx_inplace o;
  edge_layout : exists dev, try_get_layout g child ≫= tiled = Some dev /\ try_get_layout g parent ≫= tiled = Some dev;
  edge_ticks : hi lw ov parent = lo lw ov child + 1
}.

Lemma device_layout_of_Ok n dev : device_layout_of g n = Ok dev -> try_get_layout g n ≫= tiled = Some dev.
Proof. unfold device_layout_of. destruct (try_get_layout g n) as [l|]; [|done]. cbn. destruct (tiled l); congruence. Qed.

Lemma inplace_edge_ok_spec child parent o dc dp cs pe sc sp mismatch :
  _inplace_edge_ok (_op_inputs_good_for_lx_inplace o) parent dc dp cs pe sc sp mismatch = true ->
  find_op g child = Some o -> try_get_layout g child ≫= tiled = Some dc -> try_get_layout g parent ≫= tiled = Some dp ->
  _handoff_child_start child (calculate_liveness lw) ov.1 = Ok cs ->
  _handoff_parent_end parent (calculate_liveness lw) ov.2 = Ok pe ->
  edge child parent /\ sc = sp.
Proof.
  unfold _inplace_edge_ok. rewrite !andb_true_iff, !bool_decide_eq_true, !Z.eqb_eq. intros [[[[Hp <-] Ht] Hs] _] Ho Hc Hl Hcs Hpe.
  apply handoff_child_start_lo in Hcs. apply handoff_parent_end_hi in Hpe. split; [|done].
  split; [by exists o | by exists dc | lia].
Qed.

(** What [_determine_in_place] records. *)
Definition candidate (child parent : string) : Prop :=
  edge child parent /\ barred reasons parent = false /\
  exists ic ip, dget mem child = Some ic /\ dget mem parent = Some ip /\ size_per_core ic = size_per_core ip.

Lemma in_place_buffer_Ok name info m m' :
  in_place_buffer g mem (calculate_liveness lw) reasons ov.1 ov.2 (name, info) m = Ok m' -> dget mem name = Some info ->
  exists l, m' = dset name l m /\ forall p, p ∈ l -> candidate name p.
Proof.
  unfold in_place_buffer. intros H Hi. destruct (_ || _) eqn:E; [injection H as <-; exists []; split; [done | by intros p ?%elem_of_nil]|].
  destruct (find_op g name) as [o|] eqn:Ho; [|cbn in E; done].
  apply bind_Ok in H as (start & Hs & H). apply bind_Ok in H as (dev & Hd%device_layout_of_Ok & H).
  apply bind_Ok in H as (l & Hl & [= <-]). exists l. split; [done|].
  refine (for_each_ind _ (fun _ acc => forall p, p ∈ acc -> candidate name p) _ _ _ _ _ Hl); [|by intros p ?%elem_of_nil].
  intros dn x rest acc acc' _ IH Hx. unfold in_place_input in Hx. destruct (dget mem x) as [px|] eqn:Epx; [|by injection Hx as <-].
  apply bind_Ok in Hx as (us & _ & Hx). case_bool_decide; [by injection Hx as <-|].
  destruct (barred reasons x) eqn:Eb; [by injection Hx as <-|].
  apply bind_Ok in Hx as (ind & Hind%device_layout_of_Ok & Hx). apply bind_Ok in Hx as (pe & Hpe & [= <-]).
  destruct (_inplace_edge_ok _ _ _ _ _ _ _ _ _) eqn:Eok; [|done].
  intros p [Hp | ->%list_elem_of_singleton]%elem_of_app; [by apply IH|].
  destruct (inplace_edge_ok_spec _ _ _ _ _ _ _ _ _ _ Eok Ho Hd Hind Hs Hpe) as [He Hsz]. split_and!; [done | done |]. by exists info, px.
Qed.

Lemma determine_in_place_Ok m c p :
  _determine_in_place g mem (calculate_liveness lw) reasons ov.1 ov.2 = Ok m -> p ∈ dget_or [] m c -> candidate c p.
Proof.
  intros H. revert c p.
  refine (for_each_ind _ (fun _ m => forall c p, p ∈ dget_or [] m c -> candidate c p) _ _ _ _ _ H); [|by intros c p ?%elem_of_nil].
  intros dn [name info] rest m1 m2 Hl IH Hs c p.
  destruct (in_place_buffer_Ok _ _ _ _ Hs) as (l & -> & Hc); [apply dget_NoDup; [done | rewrite Hl; list_mem]|].
  unfold dget_or. rewrite dget_dset. case_decide as E; [by subst; apply Hc | by apply IH].
Qed.

(** ** Bound buffers *)

Section build.
Context (C : config) (F : graph_facts) (nc : dict Z) (nc_reasons : dict string) (lx_views : dict PerCoreView).
Context (Hg : wf_graph g) (Hkeys : dkeys mem = get_name <$> graph_operations g).

(** What every new buffer is, whatever it stands for. *)
Record fresh (b : abuffer) : Prop := {
  fr_times : built_from lw ov (ab_name b) (ab b);
  fr_address : address (ab b) = None;
  fr_plain : plain (ab b);
  fr_single : paired_with (ab b) = [] /\ relayout_plans b = [] /\ destinations b = [];
  fr_view : lx_view b = dget lx_views (ab_name b)
}.

Record from_output (b : abuffer) : Prop := {
  fo_size : exists info, dget mem (ab_name b) = Some info /\ buf_size (ab b) = Z.max 0 (size_per_core info);
  fo_first : first_use_is_read (ab b) = false;
  fo_reason : residency_reason (ab b) = dget_or None reasons (ab_name b)
}.

Record from_input (b : abuffer) : Prop := {
  fi_input : ab_name b ∈ dkeys (graph_inputs g);
  fi_size : buf_size (ab b) = _input_footprint g (ab_name b) nc;
  fi_first : first_use_is_read (ab b) = true;
  fi_reason : _input_residency_reason C F g (ab_name b) (uses (ab b)) nc nc_reasons true = Ok (residency_reason (ab b));
  fi_parents : in_place_parents (ab b) = []
}.

(** The slot of [p] is one [c] fits exactly. *)
Definition fits_parent (c : abuffer) (p : string) : Prop :=
  edge (ab_name c) p /\
  ((exists ip, dget mem p = Some ip /\ barred reasons p = false /\ buf_size (ab c) = Z.max 0 (size_per_core ip)) \/
   (p ∈ dkeys (graph_inputs g) /\ buf_size (ab c) = _input_footprint g p nc)).

Record built (bufs : list abuffer) : Prop := {
  bt_fresh : forall b, b ∈ bufs -> fresh b;
  bt_origin : forall b, b ∈ bufs -> from_output b \/ from_input b;
  bt_names : NoDup (ab_name <$> bufs);
  bt_edges : forall c p, c ∈ bufs -> p ∈ in_place_parents (ab c) -> fits_parent c p
}.

Lemma op_not_input o : o ∈ graph_operations g -> get_name o ∉ dkeys (graph_inputs g).
Proof.
  intros Ho Hi. destruct Hg as [Hn _]. apply NoDup_app in Hn as (_ & Hd & _). apply (Hd (get_name o)); [|done].
  by apply list_elem_of_fmap_2.
Qed.

Lemma find_op_elem o : o ∈ graph_operations g -> find_op g (get_name o) = Some o.
Proof.
  intros Ho. unfold find_op. destruct (list_find _ _) as [[i o']|] eqn:E.
  - cbn. f_equal. apply list_find_Some in E as (Hi & Hn & _). apply list_elem_of_lookup in Ho as [j Hj].
    destruct Hg as [Hd _]. apply NoDup_app in Hd as (Hd & _). 
    assert (i = j) as ->; [|congruence]. apply (NoDup_lookup _ _ _ (get_name o) Hd); rewrite list_lookup_fmap; [rewrite Hi | rewrite Hj]; cbn; congruence.
  - apply list_find_None in E. rewrite Forall_forall in E. by destruct (E o Ho).
Qed.

Lemma new_buffer_Ok name size us first ps reason s e view b :
  new_buffer name size us first ps reason s e view = Ok b ->
  b = mkABuffer (mkBuffer name size us first None ps reason None s e [] None [] [] ∅ None) view [] [] /\ post_init (ab b) = Ok tt.
Proof. unfold new_buffer. intros H. inv_res. by split. Qed.

Lemma default_uses name : default [] (calculate_liveness lw !! name) <> [] ->
  calculate_liveness lw !! name = Some (default [] (calculate_liveness lw !! name)).
Proof. by destruct (calculate_liveness lw !! name). Qed.

Lemma built_snoc bufs b :
  built bufs -> fresh b -> from_output b \/ from_input b -> ab_name b ∉ (ab_name <$> bufs) ->
  (forall p, p ∈ in_place_parents (ab b) -> fits_parent b p) -> built (bufs ++ [b]).
Proof.
  intros [B1 B2 B3 B4] Hf Ho Hn He. split.
  - intros c [Hc | ->%list_elem_of_singleton]%elem_of_app; auto.
  - intros c [Hc | ->%list_elem_of_singleton]%elem_of_app; auto.
  - rewrite fmap_app. apply NoDup_app. split_and!; [done | | apply NoDup_singleton].
    intros x Hx ->%list_elem_of_singleton. done.
  - intros c p [Hc | ->%list_elem_of_singleton]%elem_of_app; auto.
Qed.

Lemma add_parent_names parent consumer bufs : ab_name <$> add_parent parent consumer bufs = ab_name <$> bufs.
Proof. unfold add_parent. rewrite <- list_fmap_compose. apply list_fmap_ext. intros k c _. cbn. by case_bool_decide. Qed.

Lemma built_add_parent bufs parent consumer :
  built bufs -> consumer ∉ dkeys (graph_inputs g) ->
  (forall c, c ∈ bufs -> ab_name c = consumer -> fits_parent c parent) -> built (add_parent parent consumer bufs).
Proof.
  intros [B1 B2 B3 B4] Hn Hfit. set (f := fun b : abuffer => if bool_decide (ab_name b = consumer) then on_buffer (set_parents (in_place_parents (ab b) ++ [parent])) b else b).
  split.
  - intros c (b & -> & Hb)%list_elem_of_fmap. destruct (B1 b Hb) as [F1 F2 F3 F4 F5]. fold f. unfold f. by case_bool_decide; split.
  - intros c (b & -> & Hb)%list_elem_of_fmap. fold f. unfold f. case_bool_decide as E; [|by apply B2].
    destruct (B2 b Hb) as [[O1 O2 O3] | [I1 _ _ _ _]]; [left; by split | by rewrite E in I1].
  - by rewrite add_parent_names.
  - intros c p (b & -> & Hb)%list_elem_of_fmap. fold f. unfold f. case_bool_decide as E; [|by apply B4].
    cbn. intros [Hp | ->%list_elem_of_singleton]%elem_of_app; [by apply (B4 b p) | by apply (Hfit b)].
Qed.

Section loops.
Context (in_place : dict (list string)) (Hin : forall c p, p ∈ dget_or [] in_place c -> candidate c p).

#[local] Notation L := (calculate_liveness lw).

Lemma bound_outputs_Ok outputs :
  for_each (bound_output in_place reasons L lx_views ov.1 ov.2) mem [] = Ok outputs ->
  built outputs /\ (forall b, b ∈ outputs -> ab_name b ∈ dkeys mem).
Proof.
  intros H.
  refine (for_each_ind _ (fun dn bufs => built bufs /\ forall b, b ∈ bufs -> ab_name b ∈ dkeys dn) _ _ _ _ _ H).
  - intros dn [name info] rest bufs bufs' Hl [IB IN] Hb.
    assert (dget mem name = Some info) as Hi by (apply dget_NoDup; [done | rewrite Hl; list_mem]).
    assert (name ∉ dkeys dn) as Hnew.
    { intros Hd. pose proof Hmem as Hnd. rewrite Hl in Hnd. unfold dkeys in Hnd. rewrite fmap_app in Hnd.
      apply NoDup_app in Hnd as (_ & Hd' & _). apply (Hd' name Hd). by left. }
    assert (forall b, b ∈ bufs -> ab_name b ∈ dkeys (dn ++ [(name, info)])) as IN'.
    { intros b Hb'. unfold dkeys. rewrite fmap_app, elem_of_app. left. by apply IN. }
    unfold bound_output in Hb. case_bool_decide as Hu; [by injection Hb as <-|].
    apply bind_Ok in Hb as (b & Hnb & [= <-]). apply new_buffer_Ok in Hnb as [-> _]. split.
    + apply built_snoc; [done | | | |].
      * split; [|done..]. split_and!; [by apply default_uses | done..].
      * left. split; [by exists info | done..].
      * intros (b & E & Hb)%list_elem_of_fmap. apply Hnew. cbn in E. subst name. by apply IN.
      * intros p Hp. cbn in Hp. destruct (Hin name p Hp) as (He & Hbar & ic & ip & Hic & Hip & Hs).
        split; [done|]. left. exists ip. rewrite Hi in Hic. injection Hic as <-. cbn. by rewrite Hs.
    + intros b [Hb | ->%list_elem_of_singleton]%elem_of_app; [by apply IN'|].
      unfold dkeys. rewrite fmap_app, elem_of_app. right. by left.
  - split; [split|]; try (by intros ? ?%elem_of_nil); [constructor | by intros ? ? ?%elem_of_nil].
Qed.

(** The consumer that takes an input's slot exists once, and its declared size is the clone's. *)
Lemma reverse_parent_Ok bufs0 b name n bufs' :
  reverse_parent g mem L ov.1 ov.2 name (uses (ab b)) (buf_size (ab b)) (take n bufs0) (bufs0 ++ [b]) = Ok bufs' ->
  built (bufs0 ++ [b]) -> ab_name b = name -> from_input b ->
  built bufs' /\ ab_name <$> bufs' = ab_name <$> (bufs0 ++ [b]).
Proof.
  intros H HB Hn Hi. unfold reverse_parent in H. apply bind_Ok in H as (lst & _ & H). apply bind_Ok in H as (o & Ho & H).
  destruct (list_find _ _) as [[i consumer]|] eqn:Hf; [|by injection H as <-].
  case_bool_decide; [by injection H as <-|].
  destruct (try_get_layout g (get_name o) ≫= tiled) as [dc|] eqn:Hdc; [|by injection H as <-].
  destruct (try_get_layout g name ≫= tiled) as [dp|] eqn:Hdp; [|by injection H as <-].
  apply bind_Ok in H as (cs & Hcs & H). apply bind_Ok in H as (pe & Hpe & H). apply bind_Ok in H as (info & _ & [= <-]).
  destruct (_inplace_edge_ok _ _ _ _ _ _ _ _ _) eqn:Eok; [|done].
  apply op_at_elem in Ho as Hino.
  destruct (inplace_edge_ok_spec _ _ _ _ _ _ _ _ _ _ Eok (find_op_elem o Hino) Hdc Hdp Hcs Hpe) as [He Hs].
  apply list_find_Some in Hf as (Hc & Hcn & _). apply list_elem_of_lookup_2, elem_of_take in Hc as (j & Hj & _).
  split; [apply built_add_parent; [done | by apply op_not_input|]|].
  - intros c Hc En. assert (c = consumer) as ->.
    { destruct HB as [_ _ HN _]. apply list_elem_of_lookup in Hc as [k Hk].
      assert (k = j) as ->; [|rewrite (lookup_app_l_Some _ _ _ _ Hj) in Hk; congruence].
      apply (NoDup_lookup _ _ _ (get_name o) HN); rewrite list_lookup_fmap;
        [rewrite Hk | rewrite (lookup_app_l_Some _ _ _ _ Hj)]; cbn; congruence. }
    split; [by rewrite En|]. right. destruct Hi as [I1 I2 _ _ _]. rewrite Hn in I1, I2. split; [done | congruence].
  - apply add_parent_names.
Qed.

Lemma bound_inputs_Ok outputs bufs :
  built outputs -> (forall b, b ∈ outputs -> ab_name b ∈ dkeys mem) ->
  for_each (bound_input C F g mem L nc nc_reasons lx_views ov.1 ov.2 (length outputs)) (dkeys (graph_inputs g)) outputs = Ok bufs ->
  built bufs.
Proof.
  intros HB HN H.
  assert (built bufs /\ forall n, n ∈ (ab_name <$> bufs) -> n ∈ dkeys mem \/ n ∈ dkeys (graph_inputs g)) as [? _]; [|done].
  refine (for_each_ind _ (fun dn bufs => built bufs /\ forall n, n ∈ (ab_name <$> bufs) -> n ∈ dkeys mem \/ n ∈ dn) _ _ _ _ _ H);
    [|split; [done|]; intros n (b & -> & Hb)%list_elem_of_fmap; left; by apply HN].
  intros dn name rest bufs1 bufs2 Hl [IB IN] Hb. unfold bound_input in Hb.
  assert (forall n, n ∈ (ab_name <$> bufs1) -> n ∈ dkeys mem \/ n ∈ dn ++ [name]) as IN'.
  { intros n Hn. rewrite elem_of_app. destruct (IN n Hn); tauto. }
  case_bool_decide as Hu; [by injection Hb as <-|].
  apply bind_Ok in Hb as (reason & Hr & Hb). apply bind_Ok in Hb as (b & Hnb & Hb). apply new_buffer_Ok in Hnb as [Eb _].
  assert (name ∈ dkeys (graph_inputs g)) as Hinp by (rewrite Hl; list_mem).
  assert (name ∉ dn /\ name ∉ dkeys mem) as [Hd Hm].
  { destruct Hg as [Hnd _]. apply NoDup_app in Hnd as (_ & Hdis & Hnd). rewrite Hl in Hnd. apply NoDup_app in Hnd as (_ & Hnd & _). split.
    - intros Hd. apply (Hnd name Hd). by left.
    - rewrite Hkeys. intros Hm. by apply (Hdis name Hm). }
  assert (from_input b) as Hfi by (subst b; by split).
  assert (ab_name b = name) as Hbn by (by subst b).
  assert (built (bufs1 ++ [b])) as IB1.
  { apply built_snoc; [done | | by right | |].
    - subst b. split; [|done..]. split_and!; [by apply default_uses | done..].
    - rewrite Hbn. intros Hin'. destruct (IN name Hin'); done.
    - subst b. by intros p ?%elem_of_nil. }
  assert (forall n, n ∈ (ab_name <$> (bufs1 ++ [b])) -> n ∈ dkeys mem \/ n ∈ dn ++ [name]) as IN1.
  { intros n. rewrite fmap_app, elem_of_app. intros [Hn | ->%list_elem_of_singleton]; [by apply IN'|]. rewrite Hbn. right. list_mem. }
  destruct reason as [why|]; [by injection Hb as <-|].
  replace (default [] (L !! name)) with (uses (ab b)) in Hb by (by subst b).
  replace (_input_footprint g name nc) with (buf_size (ab b)) in Hb by (by subst b).
  destruct (reverse_parent_Ok _ _ _ _ _ Hb IB1 Hbn Hfi) as [? ->]. by split.
Qed.

Lemma build_bound_buffers_Ok bufs :
  _build_bound_buffers C F g in_place mem reasons L nc nc_reasons lx_views ov.1 ov.2 = Ok bufs -> built bufs.
Proof.
  unfold _build_bound_buffers. intros (outputs & Ho & H)%bind_Ok. destruct (bound_outputs_Ok _ Ho) as [HB HN].
  by apply (bound_inputs_Ok outputs).
Qed.
End loops.
End build.
End generated.

(** ** [_generate_buffers] *)

(** A buffer the relayout plans of which have been attached. *)
Definition attached (plans : list LXRelayoutPlan) (b : abuffer) : abuffer :=
  mkABuffer (ab b) (lx_view b) (relayout_plans b ++ filter (fun p => source_name p = ab_name b) plans) (destinations b).

Lemma attach_plans_Ok plans bufs out :
  for_each attach_plan plans bufs = Ok out ->
  out = attached plans <$> bufs /\ forall p, p ∈ plans -> source_name p ∈ (ab_name <$> bufs).
Proof.
  intros H. refine (for_each_ind _ (fun dn o => o = attached dn <$> bufs /\ forall p, p ∈ dn -> source_name p ∈ (ab_name <$> bufs))
    _ _ _ _ _ H).
  - intros dn p rest b1 b2 _ [-> IH] Hp. unfold attach_plan in Hp. destruct (existsb _ _) eqn:E; [|done]. injection Hp as <-. split.
    + rewrite <- list_fmap_compose. apply list_fmap_ext. intros i b _. unfold compose, attached. cbn.
      rewrite filter_app. unfold ab_name. cbn. case_bool_decide as Hn; case_decide; try congruence; cbn; [by rewrite app_assoc | by rewrite app_nil_r].
    + intros q [Hq | ->%list_elem_of_singleton]%elem_of_app; [by apply IH|]. apply existsb_exists in E as (b & Hb & Hn).
      apply list_elem_of_In, list_elem_of_fmap in Hb as (b0 & -> & Hb0). apply bool_decide_eq_true in Hn. cbn in Hn.
      apply list_elem_of_fmap. by exists b0.
  - split; [|by intros p ?%elem_of_nil]. unfold attached. rewrite <- (list_fmap_id bufs) at 1. apply list_fmap_ext.
    intros i [] _. cbn. by rewrite app_nil_r.
Qed.

(** Every usable core count comes with a view. *)
Definition viewed (v : verdicts) : Prop :=
  forall name c, dget (num_cores v) name = Some c -> 0 <= c -> is_Some (dget (accepted_views v) name).

Lemma judged_viewed F g drained v :
  get_ncores_for_buffers (prep_of F) (reduces F) (subrange_certificate F) g drained = Ok v -> viewed v.
Proof.
  intros H name c Hc Hpos. destruct (ncores_spec _ _ _ _ _ _ H) as [Hj Hu].
  destruct (decide (users_of g name = [])) as [E|E]; [destruct (Hu name E) as [E' _]; congruence|].
  destruct (Hj name E) as [(E' & _) | (c' & ref & _ & E2 & _)]; [|by eexists]. rewrite Hc in E'. injection E' as ->. lia.
Qed.

Definition plan_sources (plans : list LXRelayoutPlan) (st : verdicts * dict usage) : verdicts * dict usage :=
  foldl (fun st p => plan_source p st) st plans.

Lemma plan_sources_spec plans st :
  let st' := plan_sources plans st in
  dkeys st'.2 = dkeys st.2 /\ (viewed st.1 -> viewed st'.1) /\
  forall name, name ∉ (source_name <$> plans) ->
    dget (num_cores st'.1) name = dget (num_cores st.1) name /\
    dget (accepted_views st'.1) name = dget (accepted_views st.1) name /\ dget st'.2 name = dget st.2 name.
Proof.
  revert st. induction plans as [|p plans IH]; intros st; cbn zeta; [by split_and!|]. cbn [plan_sources foldl].
  destruct (IH (plan_source p st)) as (H1 & H2 & H3). fold (plan_sources plans (plan_source p st)). cbn zeta in *.
  assert (dkeys (plan_source p st).2 = dkeys st.2 /\ (viewed st.1 -> viewed (plan_source p st).1) /\
    forall name, name <> source_name p ->
      dget (num_cores (plan_source p st).1) name = dget (num_cores st.1) name /\
      dget (accepted_views (plan_source p st).1) name = dget (accepted_views st.1) name /\
      dget (plan_source p st).2 name = dget st.2 name) as (K1 & K2 & K3).
  { unfold plan_source. destruct (dget st.2 (source_name p)) as [info|] eqn:E; [|by split_and!]. cbn. split_and!.
    - apply dkeys_dset_mem, dget_is_Some. by rewrite E.
    - intros Hv name c. cbn. rewrite !dget_dset. case_decide; [by eexists | apply Hv].
    - intros name Hn. by rewrite !dget_dset, !decide_False by done. }
  split_and!; [congruence | auto |]. intros name. rewrite fmap_cons, not_elem_of_cons. intros [Hp Hn].
  destruct (H3 name Hn) as (-> & -> & ->). by apply K3.
Qed.

Lemma mem_usage_keys F g m :
  NoDup (get_name <$> graph_operations g) ->
  mem_usage_by_buf (prep_of F) (reduces F) (subrange_certificate F) g = Ok m ->
  dkeys m = get_name <$> graph_operations g.
Proof.
  intros Hn H. unfold mem_usage_by_buf in H. apply bind_Ok in H as (v & _ & H).
  refine (for_each_ind _ (fun dn m => dkeys m = get_name <$> dn) _ _ _ _ _ H); [|done].
  intros dn o rest m1 m2 Hl IH Hs. apply bind_Ok in Hs as (u & _ & [= <-]).
  rewrite fmap_app, <- IH. apply dkeys_dset_new. rewrite IH. intros Hin. rewrite Hl, fmap_app in Hn.
  apply NoDup_app in Hn as (_ & Hd & _). apply (Hd _ Hin). by left.
Qed.

Lemma residency_reasons_Ok C F g names S L tileable rs :
  _residency_reasons C F g names S L tileable = Ok rs ->
  forall name, name ∈ names -> exists r, dget rs name = Some r /\
    _buffer_residency_reason C F g S name (default [] (L !! name)) (find_op g name) (bool_decide (name ∈ tileable)) = Ok r.
Proof.
  intros H. refine (for_each_ind _ (fun dn m => forall name, name ∈ dn -> exists r, dget m name = Some r /\
    _buffer_residency_reason C F g S name (default [] (L !! name)) (find_op g name) (bool_decide (name ∈ tileable)) = Ok r)
    _ _ _ _ _ H); [|by intros n ?%elem_of_nil].
  intros dn x rest m1 m2 _ IH Hs n Hn. apply bind_Ok in Hs as (r & Hr & [= <-]). rewrite dget_dset. destruct (decide (n = x)) as [->|E].
  - by exists r.
  - apply elem_of_app in Hn as [Hn | ->%list_elem_of_singleton]; [by apply IH | done].
Qed.

(** The judge's verdicts, with those of the planned sources replaced. *)
Definition ownership_verdicts (F : graph_facts) (g : graph) (plans : list LXRelayoutPlan) : res verdicts :=
  v0 ← get_ncores_for_buffers (prep_of F) (reduces F) (subrange_certificate F) g [];
  m0 ← mem_usage_by_buf (prep_of F) (reduces F) (subrange_certificate F) g;
  Ok (plan_sources plans (v0, m0)).1.

(** A view is the judge's or the source view of a plan. *)
Lemma verdict_views F g plans v v0 name :
  ownership_verdicts F g plans = Ok v -> get_ncores_for_buffers (prep_of F) (reduces F) (subrange_certificate F) g [] = Ok v0 ->
  dget (accepted_views v) name = dget (accepted_views v0) name \/
  exists p, p ∈ plans /\ source_name p = name /\ dget (accepted_views v) name = Some (source_view p).
Proof.
  unfold ownership_verdicts. intros H Hj. rewrite Hj in H. cbn [mbind res_bind] in H. apply bind_Ok in H as (m0 & _ & [= <-]).
  unfold plan_sources. induction plans as [|p plans IH] using rev_ind; [by left|]. rewrite foldl_app. cbn [foldl].
  set (st := foldl (fun st p => plan_source p st) (v0, m0) plans) in *. unfold plan_source. destruct (dget st.2 (source_name p)) as [info|]; cbn [fst].
  - cbn [accepted_views]. rewrite dget_dset. case_decide as E; [right; exists p; split_and!; [apply elem_of_app; right; list_mem | done | done]|].
    destruct IH as [? | (q & Hq & ? & ?)]; [by left|]. right. exists q. split_and!; [apply elem_of_app; by left | done | done].
  - destruct IH as [? | (q & Hq & ? & ?)]; [by left|]. right. exists q. split_and!; [apply elem_of_app; by left | done | done].
Qed.

(** Everything [_generate_buffers] computes on the way. *)
Record generation (C : config) (F : graph_facts) (g : graph) (plans : list LXRelayoutPlan) (bufs : list abuffer) (ov : overrides)
    (v0 v : verdicts) (mem : dict usage) (reasons : dict (option string)) (bufs0 : list abuffer) : Prop := {
  gn_overrides : counted_loop_lifetime_overrides (lowering g) = Ok ov;
  gn_wide : widening (lowering g) ov;
  gn_judged : get_ncores_for_buffers (prep_of F) (reduces F) (subrange_certificate F) g [] = Ok v0;
  gn_viewed : viewed v;
  gn_unplanned : forall name, name ∉ (source_name <$> plans) ->
    dget (num_cores v) name = dget (num_cores v0) name /\ dget (accepted_views v) name = dget (accepted_views v0) name;
  gn_keys : dkeys mem = get_name <$> graph_operations g;
  gn_reasons : forall name, name ∈ dkeys mem -> exists r, dget reasons name = Some r /\
    _buffer_residency_reason C F g (fixed_facts g v plans) name (default [] (calculate_liveness (lowering g) !! name)) (find_op g name) false
    = Ok r;
  gn_built : built g ov mem reasons C F (num_cores v) (mismatch_reasons v) (accepted_views v) bufs0;
  gn_attached : bufs = attached plans <$> bufs0;
  gn_sources : forall p, p ∈ plans -> source_name p ∈ (ab_name <$> bufs0);
  gn_verdicts : ownership_verdicts F g plans = Ok v
}.

Lemma generate_buffers_Ok C F g plans bufs :
  wf_graph g -> _generate_buffers C F g plans = Ok bufs ->
  exists ov v0 v mem reasons bufs0, generation C F g plans bufs ov v0 v mem reasons bufs0.
Proof.
  intros Hg H. pose proof (wg_names _ Hg) as Hn. apply NoDup_app in Hn as (Hn & _). unfold _generate_buffers in H.
  apply bind_Ok in H as (ov & Hov & H). apply bind_Ok in H as (v0 & Hv & H). apply bind_Ok in H as (m0 & Hm & H).
  destruct (overrides_spec (lowering g)) as (ov' & Hov' & Hw & _). rewrite Hov in Hov'. injection Hov' as <-.
  assert (ownership_verdicts F g plans = Ok (plan_sources plans (v0, m0)).1) as Hvd by (unfold ownership_verdicts; by rewrite Hv, Hm).
  destruct (plan_sources_spec plans (v0, m0)) as (K1 & K2 & K3). unfold plan_sources in *. cbn zeta in *.
  destruct (foldl (fun st p => plan_source p st) (v0, m0) plans) as [v mem]. cbn [fst snd] in *.
  apply bind_Ok in H as (rs & Hr & H). apply bind_Ok in H as (ip & Hip & H). apply bind_Ok in H as (bufs0 & Hb & H).
  apply mem_usage_keys in Hm; [|done]. rewrite Hm in K1. destruct (attach_plans_Ok _ _ _ H) as [-> Hs].
  assert (NoDup (dkeys mem)) as Hmem by (by rewrite K1).
  exists ov, v0, v, mem, rs, bufs0. split; try done.
  - by eapply K2, judged_viewed.
  - intros name Hn'. by destruct (K3 name Hn') as (? & ? & _).
  - intros name Hin. destruct (residency_reasons_Ok _ _ _ _ _ _ _ _ Hr name Hin) as (r & E & Er). exists r. split; [done|].
    by rewrite bool_decide_eq_false_2 in Er by (by intros ?%elem_of_nil).
  - eapply build_bound_buffers_Ok; [done | done | done | | exact Hb]. intros c p. by apply determine_in_place_Ok.
Qed.

(** ** Inputs without a residency reason *)

Lemma bar_None m why rest : bar m why rest = Ok None -> m = Ok false /\ rest = Ok None.
Proof. unfold bar. intros ([] & -> & H)%bind_Ok; [done|]. by split. Qed.

(** What the checks guarantee of a graph input that may be cloned into the scratchpad. *)
Record cleared_input (C : config) (F : graph_facts) (g : graph) (name : string) (us : list Z) (nc : dict Z) : Prop := {
  ci_read : (1 < length us)%nat;
  ci_nonempty : forall l, try_get_layout g name = Some l -> is_empty_tiled_layout l = false;
  ci_direct : forall i o, i ∈ us -> op_at g i = Ok o -> indirect_consumer F name o = false;
  ci_alone : enable_lx_context_switching C = false ->
    forall i j k o, i ∈ us -> j ∈ us -> i <= k <= j -> op_at g k = Ok o -> extern_kernel o = true -> empty_fallback o = true;
  ci_rewritable : forall i o, i ∈ us -> op_at g i = Ok o -> is_rewritable_consumer o = true;
  ci_full : buffer_not_read_in_full g name = false;
  ci_owned : 0 <= dget_or (-1) nc name;
  ci_tiled : is_Some (try_get_layout g name ≫= tiled)
}.

Lemma input_cleared C F g name us nc nc_reasons :
  _input_residency_reason C F g name us nc nc_reasons true = Ok None -> cleared_input C F g name us nc.
Proof.
  unfold _input_residency_reason. intros [_ [H1 [H2 [H3 [H4 [H5 [H6 H]%bar_None]%bar_None]%bar_None]%bar_None]%bar_None]%bar_None]%bar_None.
  apply bind_Ok in H as ([why|] & _ & H); [done|]. cbn [andb] in H.
  destruct (Z.ltb_spec (dget_or (-1) nc name) 0) as [|Hnc]; [done|]. apply bar_None in H as [H7 _].
  injection H1 as H1. injection H2 as H2%Z.eqb_neq. injection H6 as H6. unfold _read_count in H2. split.
  - lia.
  - intros l Hl. by rewrite Hl in H1.
  - intros i o Hi Ho. unfold _is_index_or_indirectly_accessed in H3. apply bind_Ok in H3 as (ops & Hops & [= H3]).
    pose proof (py_map_op_at _ _ _ _ _ Hops Hi Ho) as Hm. apply not_true_iff_false. intros E. apply not_true_iff_false in H3.
    apply H3, existsb_exists. exists o. by split; [apply list_elem_of_In|].
  - intros Hc i j k o Hi Hj Hk Ho He. rewrite Hc in H4. apply bind_Ok in H4 as (ops & Hops & [= H4]).
    pose proof (py_map_op_at _ _ _ _ _ Hops (live_range_spec us i j k Hi Hj Hk) Ho) as Hm. apply not_true_iff_false in H4.
    destruct (empty_fallback o) eqn:E; [done|]. destruct H4. apply existsb_exists. exists o. split; [by apply list_elem_of_In|].
    by rewrite He, E.
  - intros i o Hi Ho. apply bind_Ok in H5 as (ops & Hops & [= H5]). apply negb_false_iff in H5.
    rewrite forallb_forall in H5. apply H5, list_elem_of_In. by eapply py_map_op_at.
  - done.
  - done.
  - unfold _would_produce_lx_back_gap in H7. destruct (try_get_layout g name ≫= tiled); [by eexists | done].
Qed.

(** [_input_residency_reason] test by test: [cleared_input] with the two others. *)
Record obeys_input (C : config) (F : graph_facts) (g : graph) (name : string) (us : list Z) (nc : dict Z) : Prop := {
  oi_cleared : cleared_input C F g name us nc;
  oi_restickify : reads_core_locally C F g name us [];
  oi_back_gap : _would_produce_lx_back_gap (coordinates F) (subrange_geometry F) g name us = Ok false
}.

Lemma input_obeys C F g name us nc nc_reasons :
  _input_residency_reason C F g name us nc nc_reasons true = Ok None -> obeys_input C F g name us nc.
Proof.
  intros H. split; [by eapply input_cleared| |]; unfold _input_residency_reason in H;
    apply bar_None in H as [_ [_ [_ [_ [_ [_ [_ H]%bar_None]%bar_None]%bar_None]%bar_None]%bar_None]%bar_None];
    apply bind_Ok in H as ([why|] & Hb & H); try done; [by apply barrier_local|].
  case_match; [done|]. by apply bar_None in H as [? _].
Qed.

(** ** The list handed on *)

Section facts.
Context (C : config) (F : graph_facts) (g : graph) (plans : list LXRelayoutPlan) (bufs : list abuffer) (ov : overrides).
Context (v0 v : verdicts) (mem : dict usage) (reasons : dict (option string)) (bufs0 : list abuffer).
Context (Hg : wf_graph g) (G : generation C F g plans bufs ov v0 v mem reasons bufs0).

#[local] Notation output b := (from_output mem reasons b).
#[local] Notation input b := (from_input g C F (num_cores v) (mismatch_reasons v) b).

Lemma generated_names : ab_name <$> bufs = ab_name <$> bufs0.
Proof. rewrite (gn_attached _ _ _ _ _ _ _ _ _ _ _ G), <- list_fmap_compose. by apply list_fmap_ext. Qed.

Lemma generated_inner : ab <$> bufs = ab <$> bufs0.
Proof. rewrite (gn_attached _ _ _ _ _ _ _ _ _ _ _ G), <- list_fmap_compose. by apply list_fmap_ext. Qed.

Lemma generated_times b : b ∈ bufs0 -> start_time (ab b) = lo (lowering g) ov (ab_name b) /\ end_time (ab b) = hi (lowering g) ov (ab_name b).
Proof.
  intros Hb. destruct G as [_ Hw _ _ _ _ _ [B1 _ _ _] _ _]. apply built_times; [done|]. by apply B1.
Qed.

Lemma footprint_nonneg name nc : 0 <= _input_footprint g name nc.
Proof.
  unfold _input_footprint. destruct (try_get_layout g name) as [l|] eqn:El; [|done]. cbn. destruct (tiled l) as [dev|] eqn:Ed; [|done].
  destruct (Z.ltb_spec (dget_or (-1) nc name) 1); [done|]. apply Z.div_pos; [|lia]. by eapply (wg_bytes _ Hg).
Qed.

Lemma generated_wf : wf_input (ab <$> bufs).
Proof.
  rewrite generated_inner. destruct G as [_ Hw _ _ _ _ _ [B1 B2 B3 B4] _ _]. split.
  - intros c (b & -> & Hb)%list_elem_of_fmap. destruct (B1 b Hb) as [F1 _ _ _ _]. split.
    + by destruct F1 as (_ & ? & _).
    + by eapply built_post_init.
    + destruct (B2 b Hb) as [[(info & _ & ->) _ _] | [_ -> _ _ _]]; [lia | apply footprint_nonneg].
    + intros Hp. destruct (B2 b Hb) as [[_ ? _] | [_ _ _ _ ?]]; done.
  - rewrite <- list_fmap_compose. exact B3.
  - intros c (b & -> & Hb)%list_elem_of_fmap. by destruct (B1 b Hb).
Qed.

Lemma generated_plain : Forall plain (ab <$> bufs).
Proof.
  rewrite generated_inner. apply Forall_forall. intros c (b & -> & Hb)%list_elem_of_fmap.
  by destruct (bt_fresh _ _ _ _ _ _ _ _ _ _ (gn_built _ _ _ _ _ _ _ _ _ _ _ G) b Hb).
Qed.

(** A buffer of an operation without a residency reason. *)
Lemma output_obeys b : b ∈ bufs0 -> output b -> residency_reason (ab b) = None ->
  exists o, find_op g (ab_name b) = Some o /\ obeys C F g (fixed_facts g v plans) (ab_name b) (uses (ab b)) o.
Proof.
  intros Hb [(info & Hi & _) _ Hr] Hn. destruct G as [_ _ _ _ _ _ Hrs [B1 _ _ _] _ _].
  destruct (Hrs (ab_name b)) as (r & E & Er); [apply dget_is_Some; by rewrite Hi|].
  unfold dget_or in Hr. rewrite E, Hn in Hr. cbn in Hr. subst r.
  destruct (fr_times _ _ _ _ (B1 b Hb)) as (Hu & _). rewrite Hu in Er. by apply obeys_spec in Er.
Qed.

Lemma output_cleared b : b ∈ bufs0 -> output b -> residency_reason (ab b) = None ->
  exists o, find_op g (ab_name b) = Some o /\ cleared C F g (fixed_facts g v plans) (ab_name b) (uses (ab b)) o.
Proof. intros Hb Ho Hr. destruct (output_obeys b Hb Ho Hr) as (o & Ef & [? _]). by exists o. Qed.

(** ... and of an input. *)
Lemma input_obeys_of b : input b -> residency_reason (ab b) = None ->
  obeys_input C F g (ab_name b) (uses (ab b)) (num_cores v).
Proof. intros [_ _ _ Hr _] Hn. rewrite Hn in Hr. by eapply input_obeys. Qed.

Lemma input_cleared_of b : input b -> residency_reason (ab b) = None ->
  cleared_input C F g (ab_name b) (uses (ab b)) (num_cores v).
Proof. intros. by apply oi_cleared, input_obeys_of. Qed.

Lemma generated_viewed b : b ∈ bufs0 -> residency_reason (ab b) = None -> is_Some (lx_view b).
Proof.
  intros Hb Hn. pose proof (output_cleared b Hb) as Ho. pose proof (input_cleared_of b) as Hi.
  destruct G as [_ _ _ Hv _ _ _ [B1 B2 _ _] _ _]. rewrite (fr_view _ _ _ _ (B1 b Hb)).
  assert (0 <= dget_or (-1) (num_cores v) (ab_name b)) as Hc.
  { destruct (B2 b Hb) as [Hout | Hin]; [|by destruct (Hi Hin Hn)]. destruct (Ho Hout Hn) as (o & _ & Hcl). by destruct Hcl. }
  unfold dget_or in Hc. destruct (dget (num_cores v) (ab_name b)) as [c|] eqn:E; [|cbn in Hc; lia]. by apply (Hv _ c).
Qed.

Lemma several_uses_read (b : LifetimeBoundBuffer) :
  strictly_increasing (uses b) = true -> (1 < length (uses b))%nat -> parent_is_read b = true.
Proof.
  unfold parent_is_read. destruct (uses b) as [|a [|a' l]] eqn:E; cbn [length]; [lia | lia|]. intros Hs _.
  apply strictly_increasing_cons in Hs as [Hs _]. cbn [head]. destruct (last (a :: a' :: l)) as [z|] eqn:Hz; [|by apply last_None in Hz].
  apply orb_true_iff. right. apply andb_true_iff. split; [apply Z.ltb_lt; lia|]. apply Z.ltb_lt, Hs.
  rewrite last_cons_cons in Hz. apply last_Some in Hz as [k ->]. list_mem.
Qed.

(** An in-place parent dies as its child is born, was read, and has the child's size. *)
Lemma parent_facts c p b : c ∈ bufs0 -> p ∈ in_place_parents (ab c) -> b ∈ bufs0 -> ab_name b = p ->
  end_time (ab b) = start_time (ab c) + 1 /\ parent_is_read (ab b) = true /\ buf_size (ab c) = buf_size (ab b).
Proof.
  intros Hc Hp Hb Hn. destruct (generated_times b Hb) as [_ ->], (generated_times c Hc) as [-> _]. subst p.
  pose proof (output_cleared b Hb) as Ho. pose proof generated_wf as [Hwf _ _]. rewrite generated_inner in Hwf.
  assert (strictly_increasing (uses (ab b)) = true) as Hinc.
  { destruct (wf_uses (ab b)) as (? & ? & _ & _ & _ & ? & _); [apply Hwf; by apply list_elem_of_fmap_2 | done]. }
  destruct G as [_ _ _ _ _ Hk _ [B1 B2 B3 B4] _ _]. destruct (B4 c _ Hc Hp) as [[_ _ He] Hsize]. split; [done|].
  destruct (B2 b Hb) as [Hout | [I1 I2 I3 _ _]].
  - pose proof Hout as [(info & Hi & Hs) _ Hr]. destruct Hsize as [(ip & Hip & Hbar & ->) | [Hin _]].
    + split; [|congruence]. apply several_uses_read; [done|]. destruct Ho as (o & _ & [_ _ _ _ _ _ _ _ ?]); [done | | done].
      rewrite Hr. unfold dget_or. unfold barred in Hbar. by destruct (dget reasons (ab_name b)) as [[?|]|].
    + assert (ab_name b ∈ dkeys mem) as Hm by (apply dget_is_Some; by rewrite Hi).
      rewrite Hk in Hm. apply list_elem_of_fmap in Hm as (o & Eo & Hino). rewrite Eo in Hin. by apply op_not_input in Hin.
  - split; [by unfold parent_is_read; rewrite I3|]. destruct Hsize as [(ip & Hip & _) | [_ ->]]; [|congruence].
    assert (ab_name b ∈ dkeys mem) as Hm by (apply dget_is_Some; by rewrite Hip).
    rewrite Hk in Hm. apply list_elem_of_fmap in Hm as (o & Eo & Hino). rewrite Eo in I1. by apply op_not_input in I1.
Qed.

Lemma generated_checked : _check_in_place_relationships (ab <$> bufs) = Ok tt.
Proof.
  rewrite generated_inner. apply check_in_place_spec. intros child p parent Hc Hp Hl.
  apply list_elem_of_fmap in Hc as (c & -> & Hc). apply buf_by_name_Some in Hl as [Hb Hn]. apply list_elem_of_fmap in Hb as (b & -> & Hb).
  apply check_in_place_pair_spec. destruct (parent_facts c p b Hc Hp Hb Hn) as (H1 & H2 & H3). split_and!; [done | done |]. intros _ _. lia.
Qed.
End facts.

(** C13. The buffers [_generate_buffers] builds have the type every layout solver expects: unique
    names, uses that increase strictly within the lifetime overrides, sizes that are not
    negative, no address yet, in-place parents on computed buffers only, and in-place
    declarations that pass the solvers' own check. *)
Theorem generated_buffers_typed C F g plans bufs :
  wf_graph g -> _generate_buffers C F g plans = Ok bufs ->
  wf_input (ab <$> bufs) /\ Forall plain (ab <$> bufs) /\ _check_in_place_relationships (ab <$> bufs) = Ok tt.
Proof.
  intros Hg H. destruct (generate_buffers_Ok _ _ _ _ _ Hg H) as (ov & v0 & v & mem & reasons & gen0 & G).
  split_and!; [by eapply generated_wf | by eapply generated_plain | by eapply generated_checked].
Qed.
