(* ===== verification/AllocatorRelayout.v ===== *)
(** * Relayout destinations ([_append_lx_relayout_destinations])

    A relayout gives some consumers of a buffer a private copy of it.  The allocator
    doubles every tick, so that the copy has a tick of its own before its first
    consumer, takes the consumers' reads away from the source and pairs the source with
    the new destinations.  The lemmas show that the list stays a well-formed input of a
    solver, that doubling keeps who is live together, and that source and destination
    are both live at the transfer. *)

From S2P Require Import Prelude PyDict PlanSolver Liveness CoreMapping CoreViews BufferFacts ResidencyRules Allocator AllocatorBuffers.

(** ** Sorted uses *)

Lemma sorted_set_increasing l : strictly_increasing (sorted_set l) = true.
Proof.
  assert (StronglySorted (fun a b => Z.leb a b = true) (sorted_set l)) as Hs.
  { apply py_sorted_sorted; intros; rewrite ?Z.leb_le in *; lia. }
  assert (NoDup (sorted_set l)) as Hn by (unfold sorted_set; rewrite py_sorted_perm; apply NoDup_remove_dups).
  apply strictly_increasing_sorted. induction Hs as [|x k Hs IH Hx]; constructor; [by apply IH; inversion Hn|].
  rewrite Forall_forall in *. intros y Hy. specialize (Hx y Hy). apply Z.leb_le in Hx. apply NoDup_cons in Hn as [Hn _].
  destruct (Z.eq_dec x y) as [->|]; [done | lia].
Qed.

Lemma elem_of_sorted_set x l : x ∈ sorted_set l <-> x ∈ l.
Proof. unfold sorted_set. by rewrite elem_of_py_sorted, elem_of_remove_dups. Qed.

Lemma increasing_sorted l : strictly_increasing l = true -> StronglySorted Z.lt l.
Proof.
  induction l as [|x l IH]; [constructor|]. intros [Hx Hs]%strictly_increasing_cons. constructor; [by apply IH|].
  by apply Forall_forall.
Qed.

(** Uses lie between the overrides. *)
Definition within (start end_ : option Z) (us : list Z) : Prop :=
  forall u, u ∈ us -> (forall s, start = Some s -> s <= u) /\ (forall e, end_ = Some e -> u + 1 <= e).

Lemma post_init_within b :
  uses b <> [] ->
  post_init b = Ok tt <-> strictly_increasing (uses b) = true /\ within (lifetime_start_override b) (lifetime_end_override b) (uses b).
Proof.
  intros Hne. destruct (head (uses b)) as [f|] eqn:Hf; [|by destruct (uses b)].
  destruct (last (uses b)) as [z|] eqn:Hz; [|by apply last_None in Hz].
  assert (f ∈ uses b) as Hfin by (destruct (uses b); [done|]; injection Hf as ->; list_mem).
  assert (z ∈ uses b) as Hzin by (apply last_Some in Hz as [k ->]; list_mem).
  unfold post_init. rewrite Hf, Hz. split.
  - intros H. inv_res. split; [done|]. intros u Hu.
    assert (f <= u) by (apply (sorted_head (uses b)); [by apply increasing_sorted | done | done]).
    assert (u <= z) by (apply (sorted_last (uses b)); [by apply increasing_sorted | done | done]).
    split; intros x Ex; rewrite Ex in *; inv_res; lia.
  - intros [-> Hw]. cbn. destruct (Hw f Hfin) as [Hs _]. destruct (Hw z Hzin) as [_ He].
    destruct (lifetime_start_override b); cbn; [rewrite (proj2 (Z.leb_le _ _) (Hs _ eq_refl)); cbn|];
      (destruct (lifetime_end_override b); cbn; [by rewrite (proj2 (Z.leb_le _ _) (He _ eq_refl)) | done]).
Qed.

(** ** Half-ticks *)

Section doubled.
Context (b : LifetimeBoundBuffer) (Hb : wf_buffer b).

Lemma double_wf : wf_buffer (double_ticks b).
Proof.
  destruct Hb as [Hu Hp Hs Hc]. apply post_init_within in Hp as [Hi Hw]; [|done].
  assert (uses (double_ticks b) <> []) as Hne by (cbn; by destruct (uses b)).
  split; [done | | done | done]. apply post_init_within; [done|]. split.
  - cbn. clear -Hi. induction (uses b) as [|x l IH]; [done|]. apply strictly_increasing_cons in Hi as [Hx Hi].
    rewrite fmap_cons. apply strictly_increasing_cons. split; [|by apply IH]. intros y (z & -> & Hz)%list_elem_of_fmap. specialize (Hx z Hz). lia.
  - intros u (t & -> & Ht)%list_elem_of_fmap. destruct (Hw t Ht) as [H1 H2]. cbn. split; intros x (y & Ey & Hy)%fmap_Some.
    + specialize (H1 _ Ey). lia.
    + specialize (H2 _ Ey). lia.
Qed.

Lemma double_times : 2 * start_time b <= start_time (double_ticks b) <= 2 * start_time b + 1 /\ end_time (double_ticks b) = 2 * end_time b.
Proof.
  destruct Hb as [Hu _ _ _]. unfold start_time, end_time. cbn. rewrite fmap_last.
  destruct (uses b) as [|f l]; [done|]. cbn [fmap list_fmap head]. destruct (last (f :: l)) as [z|] eqn:Hz; [|by apply last_None in Hz]. cbn.
  split; [destruct (lifetime_start_override b); cbn; lia|]. destruct (lifetime_end_override b) as [e|]; cbn -[Z.mul]; [|lia].
  destruct (Z.eqb_spec e 0), (Z.eqb_spec (2 * e) 0); lia.
Qed.
End doubled.

(** Doubling keeps who is live together. *)
Lemma double_overlaps b c : wf_buffer b -> wf_buffer c -> overlaps_in_time (double_ticks b) (double_ticks c) = overlaps_in_time b c.
Proof.
  intros Hb Hc. destruct (double_times b Hb) as [? ?], (double_times c Hc) as [? ?]. unfold overlaps_in_time. f_equal; apply eq_iff_eq_true; rewrite !Z.ltb_lt; lia.
Qed.

(** ** One source *)

(** A destination as the code builds it, live from its transfer tick on. *)
Record destination_of (p : LXRelayoutPlan) (transfer : Z) (d : abuffer) : Prop := {
  ds_name : ab_name d = destination_name p;
  ds_wf : wf_buffer (ab d);
  ds_address : address (ab d) = None;
  ds_plain : plain (ab d);
  ds_alone : in_place_parents (ab d) = [] /\ relayout_plans d = [] /\ destinations d = [];
  ds_view : lx_view d = Some (destination_view p);
  ds_transfer : start_time (ab d) <= transfer < end_time (ab d)
}.

Lemma use_is_live b u : wf_buffer b -> u ∈ uses b -> start_time b <= u < end_time b.
Proof.
  intros Hb Hu. destruct (wf_uses b Hb) as (f & z & Hf & Hz & _ & Hi & ? & ?). apply increasing_sorted in Hi.
  pose proof (sorted_head _ _ _ Hi Hf Hu). pose proof (sorted_last _ _ _ Hi Hz Hu). lia.
Qed.

Lemma round_up_nonneg n al : 0 < al -> 0 <= n -> 0 <= round_up_to_alignment n al.
Proof. intros Ha Hn. unfold round_up_to_alignment. pose proof (Z.div_pos (n + al - 1) al). nia. Qed.

Section source.
Context (b : abuffer) (Hb : wf_buffer (ab b)) (so eo : option Z).
Context (Hso : lifetime_start_override (ab b) = Z.mul 2 <$> so) (Heo : lifetime_end_override (ab b) = Z.mul 2 <$> eo).

(** The uses of the source while its plans are worked off. *)
Record remaining (us transfers : list Z) : Prop := {
  rm_within : within (lifetime_start_override (ab b)) (lifetime_end_override (ab b)) us;
  rm_increasing : strictly_increasing us = true;
  rm_nonempty : us <> [];
  rm_transfers : forall t, t ∈ transfers -> t ∈ us /\ Z.Even t
}.

Lemma make_destination_Ok p ticks us transfers us' transfer d :
  make_destination (lifetime_start_override (ab b)) (lifetime_end_override (ab b)) (buf_size (ab b)) p ticks us = Ok (us', transfer, d) ->
  remaining us transfers -> (forall t, t ∈ ticks -> 2 * t + 1 ∈ uses (ab b)) -> 0 <= destination_footprint p ->
  remaining us' (transfers ++ [transfer]) /\ destination_of p transfer d.
Proof.
  intros H [R1 R2 R3 R4] Hticks Hfoot. unfold make_destination in H.
  destruct ticks as [|t0 ticks]; [done|]. rewrite fmap_cons in H. cbn [head] in H. set (cts := _ :: _) in H.
  apply bind_Ok in H as (first & [= <-] & H). apply bind_Ok in H as (lst & Hl & H). apply bind_Ok in H as (d' & Hd & H).
  injection H as <- <- <-. replace (2 * t0 + 1 - 1) with (2 * t0) in * by lia.
  assert (within (lifetime_start_override (ab b)) (lifetime_end_override (ab b)) [2 * t0]) as Ht0.
  { destruct Hb as [Hu Hp _ _]. apply post_init_within in Hp as [_ Hw]; [|done].
    destruct (Hw (2 * t0 + 1)) as [H1 H2]; [apply Hticks; list_mem|]. intros u ->%list_elem_of_singleton.
    rewrite Hso, Heo in *. split; intros x (y & Ey & ->)%fmap_Some; subst; cbn in *.
    - specialize (H1 _ eq_refl). lia.
    - specialize (H2 _ eq_refl). lia. }
  split; [split|].
  - intros u [[_ Hu]%list_elem_of_filter | Hu]%elem_of_sorted_set%elem_of_app; [by apply R1 | by apply Ht0].
  - apply sorted_set_increasing.
  - intros E. assert (2 * t0 ∈ @nil Z) as ?%elem_of_nil; [|done]. rewrite <- E. apply elem_of_sorted_set. list_mem.
  - intros t [Ht | ->%list_elem_of_singleton]%elem_of_app; rewrite elem_of_sorted_set, elem_of_app, list_elem_of_filter.
    + destruct (R4 t Ht) as [Hin [k ->]]. split; [|by exists k]. left. split; [|done].
      unfold cts. intros [E | (t' & E & _)%list_elem_of_fmap]%elem_of_cons; lia.
    + split; [right; list_mem | by exists t0].
  - apply new_buffer_Ok in Hd as [-> Hp]. assert (wf_buffer (ab (mkABuffer (mkBuffer (destination_name p)
      (round_up_to_alignment (if destination_footprint p =? 0 then buf_size (ab b) else destination_footprint p) _LX_ALLOCATION_GRANULARITY_BYTES)
      (2 * t0 :: cts) false None [] None None (lifetime_start_override (ab b))
      match lifetime_end_override (ab b) with Some e => if lst + 1 <? e then Some e else None | None => None end [] None [] [] ∅ None)
      (Some (destination_view p)) [] []))) as Hwf.
    { split; [done | done | | done]. apply round_up_nonneg; [done|]. destruct (_ =? 0); [by destruct Hb | done]. }
    split; try done. apply use_is_live; [done|]. list_mem.
Qed.

(** What a source becomes: other uses, perhaps no overrides, and its destinations. *)
Record relayouted (dests : list abuffer) (src : abuffer) : Prop := {
  rl_wf : wf_buffer (ab src);
  rl_frame : exists us s e, ab src = set_lifetime us s e (ab b);
  rl_rest : lx_view src = lx_view b /\ relayout_plans src = relayout_plans b;
  rl_destinations : destinations src = destinations b ++ (ab_name <$> dests)
}.

Lemma relayout_source_Ok plans src dests :
  relayout_source b plans = Ok (src, dests) -> plans <> [] ->
  (forall pt, pt ∈ plans -> 0 <= destination_footprint pt.1 /\ forall t, t ∈ pt.2 -> 2 * t + 1 ∈ uses (ab b)) ->
  relayouted dests src /\
  Forall2 (fun pt d => exists transfer, transfer ∈ uses (ab src) /\ destination_of pt.1 transfer d) plans dests.
Proof.
  intros H Hne Hplans. unfold relayout_source in H. apply bind_Ok in H as ([[us transfers] ds] & Hrun & H). injection H as <- <-.
  assert (remaining us transfers /\ Forall2 (fun pt d => exists transfer, transfer ∈ transfers /\ destination_of pt.1 transfer d) plans ds)
    as [[R1 R2 R3 R4] Hds].
  { refine (for_each_ind _ (fun dn (st : list Z * list Z * list abuffer) => remaining st.1.1 st.1.2 /\
      Forall2 (fun pt d => exists transfer, transfer ∈ st.1.2 /\ destination_of pt.1 transfer d) dn st.2) _ _ _ _ _ Hrun).
    - intros dn [p ticks] rest [[us1 ts1] ds1] st2 Hl [IR ID] Hs. apply bind_Ok in Hs as ([[us2 t2] d2] & Hm & [= <-]).
      destruct (Hplans (p, ticks)) as [Hf Ht]; [rewrite Hl; list_mem|]. cbn [fst snd] in *.
      destruct (make_destination_Ok _ _ _ _ _ _ _ Hm IR Ht Hf) as [IR' Hd]. split; [done|]. apply Forall2_app.
      + eapply Forall2_impl; [exact ID|]. intros pt d (t & Hin & ?). exists t. split; [|done]. apply elem_of_app. by left.
      + repeat constructor. exists t2. split; [list_mem | done].
    - destruct Hb as [Hu Hp _ _]. apply post_init_within in Hp as [Hi Hw]; [|done]. split; [|constructor].
      split; [done | done | done | by intros t ?%elem_of_nil]. }
  split.
  - split; [| by eexists _, _, _ | done | done]. destruct Hb as [_ _ Hs Hc]. split; [done | | done | done].
    apply post_init_within; [done|]. cbn. split; [done|]. destruct (existsb _ _); [done|]. by intros u _.
  - eapply Forall2_impl; [exact Hds|]. intros pt d (t & Ht & Hd). exists t. split; [by apply R4 | done].
Qed.
End source.

(** ** The plans that are placed *)

Section entries.
Context (g : graph) (bufs : list abuffer).

(** The entries and the sources given up, by buffer. *)
Definition entry_pairs (b : abuffer) : list (string * LXRelayoutPlan) :=
  match residency_reason (ab b) with None => (fun p => (ab_name b, p)) <$> relayout_plans b | Some _ => [] end.

Definition given_up (b : abuffer) : list string :=
  match residency_reason (ab b) with None => [] | Some _ => source_name <$> relayout_plans b end.

Lemma plan_entries_of source ps st st' :
  for_each (plan_entry g source) ps st = Ok st' ->
  exists es inv, st' = (st.1 ++ es, st.2 ++ inv) /\ (forall e t, e ∈ es -> t ∈ e.2 -> t ∈ uses (ab source)) /\
    match residency_reason (ab source) with
    | None => es.*1 = (fun p => (ab_name source, p)) <$> ps /\ inv = []
    | Some _ => es = [] /\ inv = source_name <$> ps
    end.
Proof.
  intros H. refine (for_each_ind _ (fun dn st1 => exists es inv, st1 = (st.1 ++ es, st.2 ++ inv) /\
    (forall e t, e ∈ es -> t ∈ e.2 -> t ∈ uses (ab source)) /\
    match residency_reason (ab source) with
    | None => es.*1 = (fun p => (ab_name source, p)) <$> dn /\ inv = []
    | Some _ => es = [] /\ inv = source_name <$> dn
    end) _ _ _ _ _ H).
  - intros dn p rest st1 st2 _ (es & inv & -> & Ht & Hm) Hs. unfold plan_entry in Hs.
    apply bind_Ok in Hs as (ticks & _ & Hs). apply bind_Ok in Hs as ([] & Ha%py_assert_Ok & [= <-]).
    rewrite forallb_forall in Ha. cbn [fst snd]. destruct (residency_reason (ab source)) as [why|].
    + destruct Hm as [-> ->]. exists [], ((source_name <$> dn) ++ [source_name p]). rewrite app_assoc, fmap_app. split_and!; try done.
    + destruct Hm as [He ->]. exists (es ++ [(ab_name source, p, ticks)]), []. rewrite app_assoc, !fmap_app, He. split_and!; try done.
      intros e t [Hin | ->%list_elem_of_singleton]%elem_of_app Hte; [by eapply Ht|].
      apply list_elem_of_In in Hte. apply Ha, bool_decide_eq_true in Hte. done.
  - exists [], []. rewrite !app_nil_r. destruct st. split_and!; [done | by intros e t ?%elem_of_nil|]. by destruct (residency_reason (ab source)).
Qed.

Lemma plan_entries_Ok entries invalid :
  plan_entries g bufs = Ok (entries, invalid) ->
  entries.*1 = bufs ≫= entry_pairs /\ invalid = bufs ≫= given_up /\
  (forall e t, e ∈ entries -> t ∈ e.2 -> exists b, b ∈ bufs /\ ab_name b = e.1.1 /\ t ∈ uses (ab b)).
Proof.
  intros H.
  assert (let st := (entries, invalid) in st.1.*1 = bufs ≫= entry_pairs /\ st.2 = bufs ≫= given_up /\
    (forall e t, e ∈ st.1 -> t ∈ e.2 -> exists b, b ∈ bufs /\ ab_name b = e.1.1 /\ t ∈ uses (ab b))) as ?; [|done].
  refine (for_each_ind _ (fun dn st => st.1.*1 = dn ≫= entry_pairs /\ st.2 = dn ≫= given_up /\
    (forall e t, e ∈ st.1 -> t ∈ e.2 -> exists b, b ∈ dn /\ ab_name b = e.1.1 /\ t ∈ uses (ab b))) _ _ _ _ _ H);
    [|split_and!; [done | done | by intros e t ?%elem_of_nil]].
  intros dn b rest st1 st2 _ (IE & II & IT) Hs. apply plan_entries_of in Hs as (es & inv & -> & Ht & Hm). cbn [fst snd].
  rewrite fmap_app, !bind_app, IE, II, !bind_cons. cbn [mbind list_bind]. rewrite !app_nil_r.
  assert (entry_pairs b = es.*1 /\ given_up b = inv) as [-> ->].
  { unfold entry_pairs, given_up. destruct (residency_reason (ab b)); destruct Hm as [-> ->]; by split. }
  split_and!; [done | done|]. intros e t [He | He]%elem_of_app Hte.
  - destruct (IT e t He Hte) as (b' & ? & ?). exists b'. split; [|done]. apply elem_of_app. by left.
  - exists b. split_and!; [list_mem | | by eapply Ht]. destruct (residency_reason (ab b)); [by destruct Hm as [-> _]; apply elem_of_nil in He|].
    destruct Hm as [Hes _]. apply (list_elem_of_fmap_2 fst) in He. rewrite Hes in He.
    apply list_elem_of_fmap in He as (p & Ep & _). by rewrite Ep.
Qed.
End entries.

(** ** Clearing groups *)

(** What [_clear_lx_relayout_groups] does to one buffer. *)
Definition clear_one (names sources : list string) (b : abuffer) : abuffer :=
  let b' := if bool_decide (ab_name b ∈ names) then on_buffer (set_address None) b else b in
  if bool_decide (ab_name b ∈ sources) then mkABuffer (ab b') (lx_view b') [] (destinations b') else b'.

Lemma clear_groups_Ok bufs sources out :
  _clear_lx_relayout_groups bufs sources = Ok out ->
  exists names, out = clear_one names sources <$> bufs /\ sources ⊆ names.
Proof.
  unfold _clear_lx_relayout_groups. intros (names & Hn & [= <-])%bind_Ok. exists names. split; [done|].
  refine (for_each_ind _ (fun _ names => sources ⊆ names) _ _ _ _ _ Hn); [|done].
  intros dn n rest ns1 ns2 _ IH Hs. unfold group_names in Hs. destruct (list_find _ _) as [[i b]|]; [|done]. injection Hs as <-.
  intros x Hx. apply elem_of_app. left. by apply IH.
Qed.

Lemma clear_one_frame names sources b :
  exists a, ab (clear_one names sources b) = set_address a (ab b) /\ (a = address (ab b) \/ a = None).
Proof.
  unfold clear_one. destruct b as [[] v ps ds]. cbn. repeat case_bool_decide; cbn; eauto.
Qed.

Lemma clear_one_unplaced names sources b :
  address (ab b) = None ->
  clear_one names sources b =
  mkABuffer (ab b) (lx_view b) (if bool_decide (ab_name b ∈ sources) then [] else relayout_plans b) (destinations b).
Proof. intros H. unfold clear_one. destruct b as [[] v ps ds]. cbn in *. subst. by repeat case_bool_decide. Qed.

(** ** The list with its destinations *)

(** What one buffer becomes: its destinations, and itself with the plans that are kept. *)
Record part_of (b : abuffer) (dests : list abuffer) (src : abuffer) : Prop := {
  pt_frame : exists us s e ps, ab src = set_lifetime us s e (set_parents ps (ab b)) /\ ps ⊆ in_place_parents (ab b);
  pt_wf : wf_buffer (ab src);
  pt_view : lx_view src = lx_view b;
  pt_dests : Forall2 (fun p d => exists transfer, transfer ∈ uses (ab src) /\ destination_of p transfer d) (relayout_plans src) dests;
  pt_names : destinations src = ab_name <$> dests;
  pt_plans : relayout_plans src = match residency_reason (ab b) with None => relayout_plans b | Some _ => [] end
}.

Section append.
Context (g : graph) (plans : list LXRelayoutPlan) (bufs : list abuffer).
Context (Hwf : wf_input (ab <$> bufs)).
Context (Hfresh : forall b, b ∈ bufs -> relayout_plans b = filter (fun p => source_name p = ab_name b) plans /\ destinations b = []).
Context (Hfoot : forall p, p ∈ plans -> 0 <= destination_footprint p).
Context (entries : list (string * LXRelayoutPlan * list Z)) (invalid : list string).
Context (Hentries : plan_entries g bufs = Ok (entries, invalid)).

Lemma bufs_inj b c : b ∈ bufs -> c ∈ bufs -> ab_name b = ab_name c -> b = c.
Proof.
  intros [i Hi]%list_elem_of_lookup [j Hj]%list_elem_of_lookup He. destruct Hwf as [_ Hn _]. rewrite <- list_fmap_compose in Hn.
  assert (i = j) as ->; [|congruence].
  apply (NoDup_lookup _ _ _ (ab_name b) Hn); rewrite list_lookup_fmap; [by rewrite Hi | rewrite Hj; cbn; f_equal; symmetry; exact He].
Qed.

Lemma given_up_names n : n ∈ invalid -> exists b, b ∈ bufs /\ ab_name b = n /\ residency_reason (ab b) <> None.
Proof.
  destruct (plan_entries_Ok _ _ _ _ Hentries) as (_ & -> & _). intros (b & Hn & Hb)%list_elem_of_bind. exists b. split; [done|].
  unfold given_up in Hn. destruct (residency_reason (ab b)); [|by apply elem_of_nil in Hn].
  apply list_elem_of_fmap in Hn as (p & -> & Hp). destruct (Hfresh b Hb) as [E _]. rewrite E in Hp.
  apply list_elem_of_filter in Hp as [-> _]. done.
Qed.

Lemma barred_given_up b : b ∈ bufs -> residency_reason (ab b) <> None -> ab_name b ∉ invalid -> relayout_plans b = [].
Proof.
  intros Hb Hr Hn. destruct (relayout_plans b) as [|p ps] eqn:E; [done|]. destruct Hn.
  destruct (plan_entries_Ok _ _ _ _ Hentries) as (_ & -> & _). apply list_elem_of_bind. exists b. split; [|done].
  unfold given_up. destruct (residency_reason (ab b)); [|done]. apply list_elem_of_fmap. exists p. rewrite E. split; [|list_mem].
  destruct (Hfresh b Hb) as [E' _]. rewrite E in E'. assert (p ∈ p :: ps) as Hp by list_mem. rewrite E' in Hp.
  by apply list_elem_of_filter in Hp as [-> _].
Qed.

(** The entries of one buffer are its plans, in order. *)
Lemma pairs_of (l : list abuffer) b :
  (forall c, c ∈ l -> ab_name c = ab_name b -> c = b) -> NoDup (ab_name <$> l) -> b ∈ l ->
  filter (fun x => x.1 = ab_name b) (l ≫= entry_pairs) = entry_pairs b.
Proof.
  assert (forall c : abuffer, ab_name c <> ab_name b -> filter (fun x : string * LXRelayoutPlan => x.1 = ab_name b) (entry_pairs c) = []) as Hother.
  { intros c Hc. apply filter_none. intros x Hx. unfold entry_pairs in Hx.
    destruct (residency_reason (ab c)); [by apply elem_of_nil in Hx|]. by apply list_elem_of_fmap in Hx as (p & -> & _). }
  assert (filter (fun x : string * LXRelayoutPlan => x.1 = ab_name b) (entry_pairs b) = entry_pairs b) as Hself.
  { apply filter_all. intros x Hx. unfold entry_pairs in Hx.
    destruct (residency_reason (ab b)); [by apply elem_of_nil in Hx|]. by apply list_elem_of_fmap in Hx as (p & -> & _). }
  induction l as [|c l IH]; intros Hinj Hn Hb; [by apply elem_of_nil in Hb|]. rewrite bind_cons, filter_app.
  rewrite fmap_cons, NoDup_cons in Hn. destruct Hn as [Hc Hn]. destruct (decide (ab_name c = ab_name b)) as [E|E].
  - rewrite (Hinj c) by (done || list_mem). rewrite Hself. replace (filter _ (l ≫= entry_pairs)) with (@nil (string * LXRelayoutPlan)).
    { apply app_nil_r. }
    symmetry. apply filter_none. intros x (d & Hx & Hd)%list_elem_of_bind Ex. apply Hc.
    unfold entry_pairs in Hx. destruct (residency_reason (ab d)); [by apply elem_of_nil in Hx|].
    apply list_elem_of_fmap in Hx as (p & -> & _). cbn in Ex. rewrite E, <- Ex. by apply list_elem_of_fmap_2.
  - rewrite Hother by done. apply elem_of_cons in Hb as [-> | Hb]; [done|]. apply IH; [|done|done]. intros d Hd. apply Hinj. by right.
Qed.

(** The entries of one buffer, as [_append_lx_relayout_destinations] groups them. *)
Definition mine (b : abuffer) : list (string * LXRelayoutPlan * list Z) :=
  filter (fun e => e.1.1 = ab_name b) (filter (fun e => e.1.1 ∉ invalid) entries).

Definition kept_plans (b : abuffer) : list LXRelayoutPlan :=
  if bool_decide (ab_name b ∈ invalid) then [] else relayout_plans b.

Lemma kept_plans_spec b : b ∈ bufs -> kept_plans b = match residency_reason (ab b) with None => relayout_plans b | Some _ => [] end.
Proof.
  intros Hb. unfold kept_plans. case_bool_decide as Hinv.
  - destruct (given_up_names _ Hinv) as (c & Hc & E & Hr). rewrite (bufs_inj c b Hc Hb E) in Hr. by destruct (residency_reason (ab b)).
  - destruct (residency_reason (ab b)) eqn:Er; [|done]. apply barred_given_up; [done | by rewrite Er | done].
Qed.

Lemma mine_plans b : b ∈ bufs -> (fun e => e.1.2) <$> mine b = kept_plans b.
Proof.
  intros Hb. unfold kept_plans, mine. rewrite list_filter_filter. case_bool_decide as Hinv.
  { rewrite filter_none; [done|]. intros e _ [-> ?]. done. }
  rewrite (filter_iff_in _ (fun e => e.1.1 = ab_name b)) by (intros e _; split; [by intros [] | by intros ->]).
  destruct (plan_entries_Ok _ _ _ _ Hentries) as (He & _ & _).
  assert ((filter (fun e => e.1.1 = ab_name b) entries).*1 = entry_pairs b) as Hp.
  { etrans; [symmetry; exact (filter_fmap (fst : string * LXRelayoutPlan * list Z -> _) (fun x => x.1 = ab_name b) entries)|]. rewrite He. apply pairs_of; [|destruct Hwf as [_ Hn _]; by rewrite <- list_fmap_compose in Hn | done].
    intros c Hc Ec. by apply bufs_inj. }
  replace ((fun e => e.1.2) <$> filter (fun e => e.1.1 = ab_name b) entries) with (snd <$> entry_pairs b)
    by (by rewrite <- Hp, <- list_fmap_compose).
  unfold entry_pairs. destruct (residency_reason (ab b)) as [why|] eqn:Er.
  - assert (relayout_plans b = []) as -> by (apply barred_given_up; [done | by rewrite Er | done]). done.
  - rewrite <- list_fmap_compose. cbn. by rewrite list_fmap_id.
Qed.

Lemma mine_ticks b e t : b ∈ bufs -> e ∈ mine b -> t ∈ e.2 -> t ∈ uses (ab b).
Proof.
  intros Hb [Hn [_ He]%list_elem_of_filter]%list_elem_of_filter Ht.
  destruct (plan_entries_Ok _ _ _ _ Hentries) as (_ & _ & Hticks). destruct (Hticks e t He Ht) as (c & Hc & Ec & Hu).
  by rewrite (bufs_inj b c) by congruence.
Qed.
End append.

Lemma wf_set_parents ps b : wf_buffer b -> ps ⊆ in_place_parents b -> wf_buffer (set_parents ps b).
Proof.
  intros [H1 H2 H3 H4] Hs. split; [done | done | done|]. cbn. intros Hp. apply H4. intros E. rewrite E in Hs.
  destruct ps as [|p ps]; [done|]. assert (p ∈ @nil string) as ?%elem_of_nil; [|done]. apply Hs. list_mem.
Qed.

Section appended.
Context (g : graph) (plans : list LXRelayoutPlan) (bufs : list abuffer).
Context (Hwf : wf_input (ab <$> bufs)).
Context (Hfresh : forall b, b ∈ bufs -> relayout_plans b = filter (fun p => source_name p = ab_name b) plans /\ destinations b = []).
Context (Hfoot : forall p, p ∈ plans -> 0 <= destination_footprint p).

(** The buffer before destinations are added. *)
Definition unparented (invalid planned : list string) (b : abuffer) : abuffer :=
  drop_planned planned (mkABuffer (ab b) (lx_view b) (kept_plans invalid b) (destinations b)).

Lemma unparented_wf invalid planned b : b ∈ bufs -> wf_buffer (ab (unparented invalid planned b)).
Proof.
  intros Hb. apply wf_set_parents; [destruct Hwf as [Hw _ _]; apply (Hw (ab b)), list_elem_of_fmap_2, Hb|].
  intros p. cbn. by intros [_ ?]%list_elem_of_filter.
Qed.

Lemma kept_bufs invalid kept :
  (if bool_decide (invalid = []) then Ok bufs else _clear_lx_relayout_groups bufs invalid) = Ok kept ->
  forall planned, drop_planned planned <$> kept = unparented invalid planned <$> bufs.
Proof.
  intros H planned. case_bool_decide as E.
  - injection H as <-. apply list_fmap_ext. intros i b _. unfold unparented, kept_plans. subst invalid.
    rewrite bool_decide_eq_false_2 by (by intros ?%elem_of_nil). by destruct b.
  - destruct (clear_groups_Ok _ _ _ H) as (names & -> & _). rewrite <- list_fmap_compose. apply list_fmap_ext. intros i b Hi.
    unfold compose. rewrite clear_one_unplaced; [done|]. destruct Hwf as [_ _ Ha]. apply Ha, list_elem_of_fmap_2.
    by eapply list_elem_of_lookup_2.
Qed.

(** A buffer none of whose plans is placed stays alone. *)
Lemma part_alone entries invalid planned (f : LifetimeBoundBuffer -> LifetimeBoundBuffer) b :
  plan_entries g bufs = Ok (entries, invalid) -> b ∈ bufs -> kept_plans invalid b = [] ->
  (forall x, wf_buffer x -> wf_buffer (f x)) -> (forall x, exists us s e, f x = set_lifetime us s e x) ->
  part_of b [] (on_buffer f (unparented invalid planned b)).
Proof.
  intros He Hb Hk Hf Hl. destruct (Hl (ab (unparented invalid planned b))) as (us & s & e & E). split.
  - exists us, s, e, (filter (fun p => p ∉ planned) (in_place_parents (ab b))). split; [exact E|]. by intros p [_ ?]%list_elem_of_filter.
  - apply Hf. by apply unparented_wf.
  - done.
  - cbn. rewrite Hk. constructor.
  - cbn. by destruct (Hfresh b Hb) as [_ ->].
  - by apply (kept_plans_spec g plans bufs Hwf Hfresh entries).
Qed.

Lemma place_relayouts_Ok entries invalid planned b part :
  plan_entries g bufs = Ok (entries, invalid) -> b ∈ bufs ->
  place_relayouts (filter (fun e => e.1.1 ∉ invalid) entries) (on_buffer double_ticks (unparented invalid planned b)) = Ok part ->
  exists ds, part = ds.1 ++ [ds.2] /\ part_of b ds.1 ds.2.
Proof.
  intros He Hb H. set (b1 := on_buffer double_ticks (unparented invalid planned b)) in *.
  pose proof (mine_plans g plans bufs Hwf Hfresh entries invalid He b Hb) as Hm.
  pose proof (fun e t => mine_ticks g bufs Hwf entries invalid He b e t Hb) as Ht.
  unfold place_relayouts in H. change (ab_name b1) with (ab_name b) in H. fold (mine entries invalid b) in H.
  destruct (mine entries invalid b) as [|e0 es] eqn:Em.
  { injection H as <-. exists ([], b1). split; [done|]. eapply part_alone; [done | done | by rewrite <- Hm | apply double_wf | by eauto]. }
  rewrite <- Em in *. apply bind_Ok in H as ([src dests] & Hs & [= <-]). exists (dests, src). split; [done|].
  assert (wf_buffer (ab b1)) as Hwf1 by (apply double_wf; by apply unparented_wf).
  eapply relayout_source_Ok in Hs as [[R1 (us & s & e & R2) [R3 R4] R5] Hds]; [| done | reflexivity | reflexivity | by rewrite Em |].
  - split; [| done | done | | |].
    + cbn in R2. exists us, s, e, (filter (fun p => p ∉ planned) (in_place_parents (ab b))). split; [exact R2|]. by intros p [_ ?]%list_elem_of_filter.
    + cbn [fst snd]. rewrite R4. cbn. rewrite <- Hm. clear -Hds. apply Forall2_fmap_l. apply Forall2_fmap_l in Hds. done.
    + cbn [fst snd]. rewrite R5. cbn. by destruct (Hfresh b Hb) as [_ ->].
    + cbn [fst snd]. rewrite R4. by apply (kept_plans_spec g plans bufs Hwf Hfresh entries).
  - intros pt (e' & -> & He')%list_elem_of_fmap. cbn. split.
    + apply Hfoot. assert (e'.1.2 ∈ kept_plans invalid b) as Hk.
      { rewrite <- Hm. apply (list_elem_of_fmap_2 (fun e : string * LXRelayoutPlan * list Z => e.1.2)), He'. }
      unfold kept_plans in Hk. case_bool_decide; [by apply elem_of_nil in Hk|]. destruct (Hfresh b Hb) as [E _]. rewrite E in Hk.
      by apply list_elem_of_filter in Hk as [_ ?].
    + intros t Ht'. apply (list_elem_of_fmap_2 (fun u => 2 * u + 1)). by eapply Ht.
Qed.

Lemma append_Ok out :
  _append_lx_relayout_destinations g bufs = Ok out ->
  exists parts, out = parts ≫= (fun ds => ds.1 ++ [ds.2]) /\ Forall2 (fun b ds => part_of b ds.1 ds.2) bufs parts.
Proof.
  unfold _append_lx_relayout_destinations. intros ([entries invalid] & He & H)%bind_Ok. apply bind_Ok in H as (kept & Hk & H).
  rewrite (kept_bufs _ _ Hk) in H. set (planned := (fun e => e.1.1) <$> _) in H. case_bool_decide as E.
  - injection H as <-. exists ((fun b => ([], unparented invalid planned b)) <$> bufs). split.
    + clear. induction bufs as [|b l IH]; [done|]. rewrite !fmap_cons, bind_cons, <- IH. done.
    + apply Forall2_fmap_r, Forall_Forall2_diag, Forall_forall. intros b Hb. cbn.
      replace (unparented invalid planned b) with (on_buffer id (unparented invalid planned b)) by (by destruct b).
      eapply part_alone; [done | done | | done | intros []; by eexists _, _, _].
      rewrite <- (mine_plans g plans bufs Hwf Hfresh entries invalid He b Hb). unfold mine. by rewrite E.
  - apply bind_Ok in H as (parts & Hp%py_map_Ok & [= <-]). rewrite <- list_fmap_compose, Forall2_fmap_l in Hp.
    assert (exists pss, parts = (fun ds => ds.1 ++ [ds.2]) <$> pss /\ Forall2 (fun b ds => part_of b ds.1 ds.2) bufs pss) as (pss & -> & Hf).
    { assert (forall l ps, l ⊆ bufs -> Forall2 (fun b part => place_relayouts (filter (fun e => e.1.1 ∉ invalid) entries)
        (on_buffer double_ticks (unparented invalid planned b)) = Ok part) l ps ->
        exists pss, ps = (fun ds => ds.1 ++ [ds.2]) <$> pss /\ Forall2 (fun b ds => part_of b ds.1 ds.2) l pss) as Hgen; [|by apply Hgen].
      intros l ps Hl Hall. induction Hall as [|b part l ps Hb Hall IH]; [by exists []|].
      destruct (place_relayouts_Ok _ _ _ _ _ He (Hl b ltac:(list_mem)) Hb) as (ds & -> & Hd).
      destruct IH as (pss & -> & Hf); [intros x Hx; apply Hl; by right|]. exists (ds :: pss). split; [done | by constructor]. }
    exists pss. split; [|done]. clear. induction pss as [|ds l IH]; [done|]. rewrite fmap_cons, bind_cons. cbn. by f_equal.
Qed.

(** ** A well-formed list again *)

Definition flat (parts : list (list abuffer * abuffer)) : list abuffer := parts ≫= (fun ds => ds.1 ++ [ds.2]).

Lemma part_name b dests src : part_of b dests src -> ab_name src = ab_name b.
Proof. intros [(us & s & e & ps & E & _) _ _ _ _ _]. unfold ab_name. by rewrite E. Qed.

Lemma dest_names (ps : list LXRelayoutPlan) (dests : list abuffer) (R : Z -> Prop) :
  Forall2 (fun p d => exists t, R t /\ destination_of p t d) ps dests -> ab_name <$> dests = destination_name <$> ps.
Proof. induction 1 as [|p d ps dests (t & _ & Hd) _ IH]; [done|]. rewrite !fmap_cons, IH. f_equal. by destruct Hd. Qed.

Context (Hnames : NoDup ((ab_name <$> bufs) ++ (destination_name <$> plans))).

Lemma destination_inj p q : p ∈ plans -> q ∈ plans -> destination_name p = destination_name q -> p = q.
Proof.
  intros [i Hi]%list_elem_of_lookup [j Hj]%list_elem_of_lookup E. apply NoDup_app in Hnames as (_ & _ & Hn).
  assert (i = j) as ->; [|congruence].
  apply (NoDup_lookup _ _ _ (destination_name p) Hn); rewrite list_lookup_fmap; [by rewrite Hi | rewrite Hj; cbn; congruence].
Qed.

(** Destinations of one buffer are named apart, after that buffer. *)
Lemma part_dest_names b dests src : b ∈ bufs -> part_of b dests src ->
  NoDup (ab_name <$> dests) /\ forall x, x ∈ (ab_name <$> dests) -> exists p, p ∈ plans /\ source_name p = ab_name b /\ x = destination_name p.
Proof.
  intros Hb [_ _ _ Hd _ Hp]. rewrite (dest_names _ _ _ Hd). destruct (Hfresh b Hb) as [E _].
  assert (relayout_plans src `sublist_of` filter (fun p => source_name p = ab_name b) plans) as Hsub.
  { rewrite Hp. destruct (residency_reason (ab b)); [apply sublist_nil_l | by rewrite E]. }
  split.
  - apply NoDup_app in Hnames as (_ & _ & Hn). eapply sublist_NoDup; [exact Hn|]. apply fmap_sublist.
    etrans; [exact Hsub | apply sublist_filter].
  - intros x (p & -> & Hin)%list_elem_of_fmap. exists p. pose proof (elem_of_sublist _ _ _ Hin Hsub) as [? ?]%list_elem_of_filter. done.
Qed.

Lemma flat_names l parts : l ⊆ bufs -> NoDup (ab_name <$> l) -> Forall2 (fun b ds => part_of b ds.1 ds.2) l parts ->
  NoDup (ab_name <$> flat parts) /\
  forall x, x ∈ (ab_name <$> flat parts) -> x ∈ (ab_name <$> l) \/ exists p, p ∈ plans /\ source_name p ∈ (ab_name <$> l) /\ x = destination_name p.
Proof.
  intros Hl Hn H. induction H as [|b ds l parts Hb H IH]; [split; [constructor | by intros x ?%elem_of_nil]|].
  rewrite fmap_cons, NoDup_cons in Hn. destruct Hn as [Hnb Hn]. destruct IH as [IN IX]; [intros x Hx; apply Hl; by right | done|].
  assert (b ∈ bufs) as Hin by (apply Hl; list_mem). destruct (part_dest_names b _ _ Hin Hb) as [DN DX]. pose proof (part_name _ _ _ Hb) as Hsn.
  assert (forall p, p ∈ plans -> destination_name p ∉ (ab_name <$> bufs)) as Hfar.
  { apply NoDup_app in Hnames as (_ & Hd & _). intros p Hp Hx. apply (Hd _ Hx). by apply list_elem_of_fmap_2. }
  unfold flat. rewrite bind_cons, fmap_app, fmap_app. fold (flat parts). cbn [fmap list_fmap]. rewrite Hsn. split.
  - apply NoDup_app. split_and!; [| |done].
    + apply NoDup_app. split_and!; [done | | apply NoDup_singleton]. intros x Hx ->%list_elem_of_singleton.
      destruct (DX _ Hx) as (p & Hp & _ & E). apply (Hfar p Hp). rewrite <- E. by apply list_elem_of_fmap_2.
    + intros x [Hx | ->%list_elem_of_singleton]%elem_of_app Hx'.
      * destruct (DX _ Hx) as (p & Hp & Hs & ->). destruct (IX _ Hx') as [Hx2 | (q & Hq & Hs' & Eq)].
        -- apply (Hfar p Hp). apply list_elem_of_fmap in Hx2 as (c & -> & Hc). apply list_elem_of_fmap_2, Hl. by right.
        -- apply Hnb. rewrite (destination_inj p q Hp Hq Eq) in Hs. by rewrite <- Hs.
      * destruct (IX _ Hx') as [Hx2 | (q & Hq & _ & Eq)]; [done|]. apply (Hfar q Hq). rewrite <- Eq. by apply list_elem_of_fmap_2.
  - intros x. rewrite !elem_of_app, list_elem_of_singleton, elem_of_cons. intros [[Hx | ->] | Hx].
    + destruct (DX _ Hx) as (p & Hp & Hs & ->). right. exists p. split_and!; [done | rewrite Hs; list_mem | done].
    + left. by left.
    + destruct (IX _ Hx) as [? | (p & ? & ? & ?)]; [left; by right|]. right. exists p. split_and!; [done | by right | done].
Qed.

Lemma elem_of_flat parts x : x ∈ flat parts <-> exists ds, ds ∈ parts /\ (x ∈ ds.1 \/ x = ds.2).
Proof.
  unfold flat. rewrite list_elem_of_bind. split.
  - intros (ds & [Hx | ->%list_elem_of_singleton]%elem_of_app & Hd); eauto.
  - intros (ds & Hd & Hx). exists ds. split; [|done]. rewrite elem_of_app, list_elem_of_singleton. done.
Qed.

(** Every buffer of the new list is a destination or stands for a buffer of the old one. *)
Lemma flat_cases parts x : Forall2 (fun b ds => part_of b ds.1 ds.2) bufs parts -> x ∈ flat parts ->
  exists b dests src, b ∈ bufs /\ (dests, src) ∈ parts /\ part_of b dests src /\
    (x = src \/ (x ∈ dests /\ exists p t, p ∈ relayout_plans src /\ t ∈ uses (ab src) /\ destination_of p t x)).
Proof.
  intros H ([dests src] & Hd & Hx)%elem_of_flat. cbn in Hx. apply list_elem_of_lookup in Hd as Hi. destruct Hi as [i Hi].
  destruct (Forall2_lookup_r _ _ _ _ _ H Hi) as (b & Hb & Hp). cbn in Hp. exists b, dests, src.
  split_and!; [by eapply list_elem_of_lookup_2 | done | done |]. destruct Hx as [Hx | ->]; [right | by left]. split; [done|].
  apply list_elem_of_lookup in Hx as [j Hj]. destruct (Forall2_lookup_r _ _ _ _ _ (pt_dests _ _ _ Hp) Hj) as (p & Hpj & t & Ht & Hdo).
  exists p, t. split_and!; [by eapply list_elem_of_lookup_2 | done | done].
Qed.

Lemma flat_wf parts : Forall plain (ab <$> bufs) -> Forall2 (fun b ds => part_of b ds.1 ds.2) bufs parts ->
  wf_input (ab <$> flat parts) /\ Forall plain (ab <$> flat parts).
Proof.
  intros Hplain H.
  assert (forall x, x ∈ flat parts -> wf_buffer (ab x) /\ address (ab x) = None /\ plain (ab x)) as Hx.
  { intros x Hx. destruct (flat_cases _ _ H Hx) as (b & dests & src & Hb & _ & Hp & [-> | (_ & p & t & _ & _ & Hd)]).
    - destruct Hp as [(us & s & e & ps & E & _) ? _ _ _ _]. split; [done|]. rewrite E. destruct Hwf as [_ _ Ha]. rewrite Forall_forall in Hplain.
      specialize (Ha (ab b)). specialize (Hplain (ab b)). split; [apply Ha | apply Hplain]; by apply list_elem_of_fmap_2.
    - by destruct Hd. }
  split; [split|].
  - intros c (x & -> & Hin)%list_elem_of_fmap. by apply Hx.
  - rewrite <- list_fmap_compose. destruct Hwf as [_ Hn _]. rewrite <- list_fmap_compose in Hn. by apply (flat_names bufs parts).
  - intros c (x & -> & Hin)%list_elem_of_fmap. by apply Hx.
  - apply Forall_forall. intros c (x & -> & Hin)%list_elem_of_fmap. by apply Hx.
Qed.
End appended.
