(* ===== verification/AllocatorPlan.v ===== *)
(** * What the scratchpad allocator commits

    The composition: the buffers [_generate_buffers] builds, with their relayout
    destinations, meet the contract of a layout solver; what the solver returns, less the
    groups the allocator withdraws, is a valid plan in which every resident buffer passed
    the residency rules.  With the greedy solver the allocator's own assertions on paired
    buffers never fire. *)

From S2P Require Import Prelude PyDict PlanSolver GreedySolver Liveness CoreMapping CoreViews BufferFacts ResidencyRules Allocator AllocatorBuffers AllocatorRelayout.

(** ** Preparing the buffers *)

(** What is asked of relayout plans: footprints are sizes, and no destination has a name
    in use. *)
Record wf_plans (g : graph) (plans : list LXRelayoutPlan) : Prop := {
  wp_sizes : forall p, p ∈ plans -> 0 <= destination_footprint p;
  wp_names : NoDup ((get_name <$> graph_operations g) ++ dkeys (graph_inputs g) ++ (destination_name <$> plans))
}.

Lemma wf_plans_nil g : wf_graph g -> wf_plans g [].
Proof. intros [Hn _]. split; [by intros p ?%elem_of_nil|]. cbn. by rewrite app_nil_r. Qed.

(** The list handed to the solver, with what it was made from. *)
Record prepared (C : config) (F : graph_facts) (g : graph) (plans : list LXRelayoutPlan) (gen : list abuffer)
    (ov : overrides) (v0 v : verdicts) (mem : dict usage) (reasons : dict (option string)) (gen0 : list abuffer)
    (parts : list (list abuffer * abuffer)) : Prop := {
  pr_generation : generation C F g plans gen ov v0 v mem reasons gen0;
  pr_parts : Forall2 (fun b ds => part_of b ds.1 ds.2) gen parts;
  pr_plans : wf_plans g plans
}.

Section prepared.
Context (C : config) (F : graph_facts) (g : graph) (Hg : wf_graph g).

Lemma generated_fresh plans gen ov v0 v mem reasons gen0 b :
  generation C F g plans gen ov v0 v mem reasons gen0 -> b ∈ gen ->
  relayout_plans b = filter (fun p => source_name p = ab_name b) plans /\ destinations b = [].
Proof.
  intros [_ _ _ _ _ _ _ [B1 _ _ _] -> _] (b0 & -> & Hb)%list_elem_of_fmap. destruct (fr_single _ _ _ _ (B1 b0 Hb)) as (_ & H1 & H2).
  unfold attached. cbn. by rewrite H1, H2.
Qed.

Lemma alone_part b : wf_buffer (ab b) -> relayout_plans b = [] -> destinations b = [] -> part_of b [] b.
Proof.
  intros Hw Hp Hd. split; [| done | done | rewrite Hp; constructor | done | rewrite Hp; by destruct (residency_reason (ab b))].
  exists (uses (ab b)), (lifetime_start_override (ab b)), (lifetime_end_override (ab b)), (in_place_parents (ab b)). split; [|done].
  by destruct b as [[]].
Qed.

(** The plans an allocation prepares buffers for. *)
Definition planned_relayouts (supports : bool) (collect : graph -> list LXRelayoutPlan) (materialized : graph -> bool) (given : option (list LXRelayoutPlan))
    : res (list LXRelayoutPlan) :=
  if supports then relayouts_to_plan C collect materialized g given else Ok [].

Lemma prepare_Ok supports collect materialized given bufs :
  (forall plans, relayouts_to_plan C collect materialized g given = Ok plans -> wf_plans g plans) ->
  _prepare_buffers C F supports collect materialized g given = Ok bufs ->
  exists plans gen ov v0 v mem reasons gen0 parts, prepared C F g plans gen ov v0 v mem reasons gen0 parts /\ bufs = flat parts /\
    planned_relayouts supports collect materialized given = Ok plans.
Proof.
  intros Hwp H. unfold _prepare_buffers in H. destruct supports; cbn [negb] in H.
  - apply bind_Ok in H as (plans & Hp & H). apply bind_Ok in H as (gen & Hgen & H). specialize (Hwp _ Hp).
    destruct (generate_buffers_Ok _ _ _ _ _ Hg Hgen) as (ov & v0 & v & mem & reasons & gen0 & G).
    destruct (append_Ok g plans gen (generated_wf _ _ _ _ _ _ _ _ _ _ _ Hg G)
      (fun b => generated_fresh _ _ _ _ _ _ _ _ b G) (wp_sizes _ _ Hwp) _ H) as (parts & -> & Hparts).
    exists plans, gen, ov, v0, v, mem, reasons, gen0, parts. split_and!; [by split | done | exact Hp].
  - destruct (generate_buffers_Ok _ _ _ _ _ Hg H) as (ov & v0 & v & mem & reasons & gen0 & G).
    exists [], bufs, ov, v0, v, mem, reasons, gen0, ((fun b => ([], b)) <$> bufs). split_and!; [| |done].
    + split; [done | | by apply wf_plans_nil]. apply Forall2_fmap_r, Forall_Forall2_diag, Forall_forall. intros b Hb. cbn.
      destruct (generated_wf _ _ _ _ _ _ _ _ _ _ _ Hg G) as [Hw _ _]. destruct (generated_fresh _ _ _ _ _ _ _ _ b G Hb) as [E1 E2].
      apply alone_part; [apply Hw; by apply list_elem_of_fmap_2 | done | done].
    + clear. induction bufs as [|b l IH]; [done|]. unfold flat. rewrite fmap_cons, bind_cons. cbn. f_equal. exact IH.
Qed.
End prepared.

(** ** Solving *)

(** The solver wrote an address and a spill reason. *)
Record solved_as (b b' : abuffer) : Prop := {
  sv_frame : exists a r l, ab b' = set_spill_reason r (set_address a (set_paired l (ab b)));
  sv_rest : lx_view b' = lx_view b /\ relayout_plans b' = relayout_plans b /\ destinations b' = destinations b;
  sv_barred : residency_reason (ab b) <> None -> address (ab b') = None
}.

Section solve.
Context (plan : Z -> Z -> list LifetimeBoundBuffer -> res (list LifetimeBoundBuffer)) `{!LayoutSolver plan} (size : Z).
Context (bufs : list abuffer) (Hwf : wf_input (ab <$> bufs)) (Hplain : Forall plain (ab <$> bufs)).

Lemma elem_of_solver_buffers x : x ∈ solver_buffers bufs -> exists b l, b ∈ bufs /\ x = set_paired l (ab b).
Proof. intros (b & -> & Hb)%list_elem_of_fmap. by eexists _, _. Qed.

Lemma solver_buffers_wf : wf_input (solver_buffers bufs) /\ Forall plain (solver_buffers bufs).
Proof.
  destruct Hwf as [Hw Hn Ha]. rewrite Forall_forall in Hplain. split; [split|].
  - intros x (b & l & Hb & ->)%elem_of_solver_buffers. destruct (Hw (ab b)) as [W1 W2 W3 W4]; [by apply list_elem_of_fmap_2 | by split].
  - unfold solver_buffers. rewrite <- list_fmap_compose. rewrite <- list_fmap_compose in Hn. exact Hn.
  - intros x (b & l & Hb & ->)%elem_of_solver_buffers. apply (Ha (ab b)). by apply list_elem_of_fmap_2.
  - apply Forall_forall. intros x (b & l & Hb & ->)%elem_of_solver_buffers. apply (Hplain (ab b)). by apply list_elem_of_fmap_2.
Qed.

Lemma solve_Ok out : _solve plan size bufs = Ok out -> Forall2 solved_as bufs out /\ valid_plan size 128 (ab <$> out).
Proof.
  unfold _solve. intros (os & Hp & [= <-])%bind_Ok. destruct solver_buffers_wf as [Hw Hpl].
  pose proof (solver_frame size 128 _ _ eq_refl Hw Hpl Hp) as Hf.
  assert (length os = length bufs) as Hlen by (rewrite <- (Forall2_length _ _ _ Hf); apply length_fmap).
  assert (ab <$> zip_with adopt bufs os = os) as Hab.
  { clear -Hlen. revert os Hlen. induction bufs as [|b l IH]; intros [|o os] Hlen; try done. cbn. f_equal. apply IH. by injection Hlen. }
  split; [|rewrite Hab; by eapply solver_valid].
  apply Forall2_same_length_lookup_2; [rewrite length_zip_with; lia|]. intros i b b' Hb Hb'.
  apply lookup_zip_with_Some in Hb' as (b1 & o & -> & Hb1 & Ho). rewrite Hb in Hb1. injection Hb1 as <-.
  assert (solver_buffers bufs !! i = Some (set_paired (omap (position_of bufs) (destinations b)) (ab b))) as Hs
    by (unfold solver_buffers; by rewrite list_lookup_fmap, Hb).
  destruct (Forall2_lookup_lr _ _ _ _ _ _ Hf Hs Ho) as (a & r & E). split; [by exists a, r, (omap (position_of bufs) (destinations b)) | done |].
  intros Hr. eapply (solver_barred size 128 _ _ i _ _ eq_refl Hw Hpl Hp Hs Ho). unfold excluded. cbn. by destruct (residency_reason (ab b)).
Qed.
End solve.

(** Buffers without plans go through the pairing unchanged. *)
Lemma plan_entries_alone g bufs : (forall b, b ∈ bufs -> relayout_plans b = []) -> plan_entries g bufs = Ok ([], []).
Proof.
  intros H. unfold plan_entries. induction bufs as [|b l IH]; [done|]. cbn [for_each]. rewrite (H b) by list_mem. cbn.
  apply IH. intros c Hc. apply H. by right.
Qed.

Lemma append_alone g bufs : (forall b, b ∈ bufs -> relayout_plans b = []) -> _append_lx_relayout_destinations g bufs = Ok bufs.
Proof.
  intros H. unfold _append_lx_relayout_destinations. rewrite plan_entries_alone by done. cbn. f_equal.
  rewrite <- (list_fmap_id bufs) at 2. apply list_fmap_ext. intros i b _. unfold drop_planned, on_buffer. cbn.
  rewrite (filter_all (fun p : string => p ∉ [])) by (intros p _ ?%elem_of_nil; done). by destruct b as [[]].
Qed.

Lemma solver_buffers_alone bufs :
  (forall b, b ∈ bufs -> destinations b = [] /\ paired_with (ab b) = []) -> solver_buffers bufs = ab <$> bufs.
Proof.
  intros H. unfold solver_buffers. apply list_fmap_ext. intros i b Hi. destruct (H b) as [-> Hp]; [by eapply list_elem_of_lookup_2|].
  cbn. destruct b as [[]]. cbn in *. by subst.
Qed.

(** ** Withdrawing groups *)

(** Addresses are only taken away. *)
Definition withdrawn (b b' : LifetimeBoundBuffer) : Prop := exists a, b' = set_address a b /\ (a = address b \/ a = None).

Lemma withdrawn_refl b : withdrawn b b.
Proof. exists (address b). split; [by destruct b | by left]. Qed.

Lemma withdrawn_valid lim al l k : Forall2 withdrawn l k -> valid_plan lim al l -> valid_plan lim al k.
Proof.
  intros HF [Hr Ha Hc].
  assert (forall o x, o ∈ k -> address o = Some x -> o ∈ l) as Hsrc.
  { intros o x (i & Hi)%list_elem_of_lookup Hx. destruct (Forall2_lookup_r _ _ _ _ _ HF Hi) as (b & Hb & a & -> & [-> | ->]); [|done].
    replace (set_address (address b) b) with b by (by destruct b). by eapply list_elem_of_lookup_2. }
  split; [intros o x Ho Hx; apply Hr; eauto | intros o x Ho Hx; eapply Ha; eauto|].
  intros i j x y Hij Hi Hj u w Hu Hw.
  destruct (Forall2_lookup_r _ _ _ _ _ HF Hi) as (b & Hb & a & -> & [-> | ->]); [|done].
  destruct (Forall2_lookup_r _ _ _ _ _ HF Hj) as (c & Hcj & a' & -> & [-> | ->]); [|done].
  replace (set_address (address b) b) with b in * by (by destruct b). replace (set_address (address c) c) with c in * by (by destruct c).
  by apply (Hc i j).
Qed.

Lemma finalize_Ok bufs out accepted :
  _finalize_lx_relayout_allocation bufs = Ok (out, accepted) ->
  Forall2 (fun b b' => withdrawn (ab b) (ab b') /\ (is_Some (address (ab b')) -> b' = b)) bufs out.
Proof.
  unfold _finalize_lx_relayout_allocation. case_bool_decide.
  { intros [= <- _]. apply Forall_Forall2_diag, Forall_forall. intros b _. split; [apply withdrawn_refl | done]. }
  intros (complete & _ & Hr)%bind_Ok. apply bind_Ok in Hr as (bufs' & Hc & Hr). apply bind_Ok in Hr as (acc & _ & [= <- _]).
  case_bool_decide.
  - injection Hc as <-. apply Forall_Forall2_diag, Forall_forall. intros b _. split; [apply withdrawn_refl | done].
  - apply clear_groups_Ok in Hc as (names & -> & Hsub). apply Forall2_fmap_r, Forall_Forall2_diag, Forall_forall. intros b _. split.
    + destruct (clear_one_frame names (filter (fun n => n ∉ complete) (remove_dups (source_name <$> (b ← bufs; relayout_plans b)))) b) as (a & E & Ha).
      rewrite E. by exists a.
    + unfold clear_one. case_bool_decide as H1; case_bool_decide as H2; cbn;
        [by intros [? ?] | by destruct H2; apply Hsub | by intros [? ?] | done].
Qed.

(** ** Resident buffers *)

(** Every rule holds of [name] for the verdicts and the relayout plans of this allocation:
    the table's for the buffer of an operation, the shorter list for a graph input. *)
Definition passes_rules (C : config) (F : graph_facts) (g : graph) (plans : list LXRelayoutPlan) (v : verdicts) (name : string) : Prop :=
  (exists o, find_op g name = Some o /\ obeys C F g (fixed_facts g v plans) name (access_indices (lowering g) name) o) \/
  (name ∈ dkeys (graph_inputs g) /\ obeys_input C F g name (access_indices (lowering g) name) (num_cores v)).

Lemma generation_passes C F g plans gen ov v0 v mem reasons gen0 b0 :
  generation C F g plans gen ov v0 v mem reasons gen0 -> b0 ∈ gen0 -> residency_reason (ab b0) = None -> passes_rules C F g plans v (ab_name b0).
Proof.
  intros G Hb Hr. pose proof (output_obeys _ _ _ _ _ _ _ _ _ _ _ G b0 Hb) as Ho. pose proof (input_obeys_of C F g v b0) as Hi.
  destruct G as [_ _ _ _ _ _ _ [B1 B2 _ _] _ _].
  assert (uses (ab b0) = access_indices (lowering g) (ab_name b0)) as Hu
    by (destruct (fr_times _ _ _ _ (B1 b0 Hb)) as (Hl & _); by apply liveness_uses in Hl). rewrite Hu in Ho, Hi.
  destruct (B2 b0 Hb) as [Hout | Hin].
  - left. destruct (Ho Hout Hr) as (o & Ho' & Hc). by exists o.
  - right. split; [by destruct Hin|]. by apply Hi.
Qed.

(** What may lie in the scratchpad: the destination of one of the relayout plans, or a buffer
    of the graph that passed the rules, with the view the verdicts record.  All users own it
    alike under that view, unless the view was taken from a plan of which it is the source. *)
Inductive resident (C : config) (F : graph_facts) (g : graph) (plans : list LXRelayoutPlan) (v : verdicts) (b : abuffer) : Prop :=
  | resident_copy p : p ∈ plans -> ab_name b = destination_name p -> lx_view b = Some (destination_view p) -> resident C F g plans v b
  | resident_buffer view :
      lx_view b = Some view -> dget (accepted_views v) (ab_name b) = Some view -> passes_rules C F g plans v (ab_name b) ->
      (forall u, u ∈ users_of g (ab_name b) -> extern_kernel u.1 = false /\ owns_alike (prep_of F) (reduces F) view u) \/
      (exists p, p ∈ plans /\ source_name p = ab_name b /\ view = source_view p) ->
      resident C F g plans v b.

(** An in-place declaration: a pointwise operation and an input it may overwrite. *)
Definition overwrites (g : graph) (child parent : string) : Prop :=
  exists o dev, find_op g child = Some o /\ parent ∈ get_op_pointwise_inputs o /\
    try_get_layout g child ≫= tiled = Some dev /\ try_get_layout g parent ≫= tiled = Some dev.

Section committed.
Context (C : config) (F : graph_facts) (g : graph) (Hg : wf_graph g).
Context (plans : list LXRelayoutPlan) (gen : list abuffer) (ov : overrides) (v0 v : verdicts) (mem : dict usage).
Context (reasons : dict (option string)) (gen0 : list abuffer) (parts : list (list abuffer * abuffer)).
Context (P : prepared C F g plans gen ov v0 v mem reasons gen0 parts).

#[local] Notation G := (pr_generation _ _ _ _ _ _ _ _ _ _ _ _ P).

Lemma gen_names : NoDup ((ab_name <$> gen) ++ (destination_name <$> plans)).
Proof.
  destruct P as [[_ _ _ _ _ Hk _ [_ B2 B3 _] Hat _] _ [_ Hn]].
  assert (ab_name <$> gen = ab_name <$> gen0) as -> by (rewrite Hat, <- list_fmap_compose; by apply list_fmap_ext).
  rewrite app_assoc in Hn. apply NoDup_app in Hn as (_ & Hd & Hn). apply NoDup_app. split_and!; [done | | done].
  intros x (b & -> & Hb)%list_elem_of_fmap. apply Hd, elem_of_app. destruct (B2 b Hb) as [[(info & Hi & _) _ _] | [Hin _ _ _ _]]; [left | by right].
  rewrite <- Hk. apply dget_is_Some. by rewrite Hi.
Qed.

Lemma flat_input : wf_input (ab <$> flat parts) /\ Forall plain (ab <$> flat parts).
Proof.
  pose proof (generated_wf _ _ _ _ _ _ _ _ _ _ _ Hg G) as Hwf. pose proof (generated_plain _ _ _ _ _ _ _ _ _ _ _ G) as Hpl.
  apply (flat_wf plans gen Hwf (fun b => generated_fresh _ _ _ _ _ _ _ _ _ _ _ b G) gen_names parts Hpl). by destruct P.
Qed.

Lemma gen_lookup b : b ∈ gen -> exists b0, b0 ∈ gen0 /\ b = attached plans b0.
Proof. rewrite (gn_attached _ _ _ _ _ _ _ _ _ _ _ G). intros (b0 & -> & Hb)%list_elem_of_fmap. by exists b0. Qed.

Lemma gen_owned b0 view : b0 ∈ gen0 -> residency_reason (ab b0) = None -> lx_view b0 = Some view ->
  (forall u, u ∈ users_of g (ab_name b0) -> extern_kernel u.1 = false /\ owns_alike (prep_of F) (reduces F) view u) \/
  (exists p, p ∈ plans /\ source_name p = ab_name b0 /\ view = source_view p).
Proof.
  intros Hb Hr Hv. destruct G as [_ _ Hj _ _ _ _ [B1 _ _ _] _ _ Hvd]. rewrite (fr_view _ _ _ _ (B1 b0 Hb)) in Hv.
  destruct (verdict_views _ _ _ _ _ (ab_name b0) Hvd Hj) as [Hview | (p & Hp & Hs & E)]; [left | right; exists p; split_and!; congruence].
  intros u Hu. rewrite Hview in Hv. destruct (ncores_spec _ _ _ _ _ _ Hj) as [Hjd _].
  destruct (Hjd (ab_name b0)) as [(_ & E & _) | (c & ref & _ & E & _ & [Ho Hd _ _ _])]; [by intros E; rewrite E in Hu; apply elem_of_nil in Hu | congruence|].
  rewrite Hv in E. injection E as <-. split; [by apply Hd | by apply Ho].
Qed.

(** A buffer the solver may place. *)
Lemma placeable_resident b : b ∈ flat parts -> residency_reason (ab b) = None -> resident C F g plans v b.
Proof.
  intros Hb Hr. destruct (flat_cases gen parts b) as (b1 & dests & src & Hb1 & _ & Hp & Hx); [by destruct P | done|].
  destruct Hx as [-> | (_ & p & t & Hpl & _ & Hd)]; [|apply (resident_copy _ _ _ _ _ _ p); [|by destruct Hd..]].
  2: { rewrite (pt_plans _ _ _ Hp) in Hpl. destruct (residency_reason (ab b1)); [by apply elem_of_nil in Hpl|].
       destruct (generated_fresh _ _ _ _ _ _ _ _ _ _ _ b1 G Hb1) as [E _]. rewrite E in Hpl. by apply list_elem_of_filter in Hpl as [_ ?]. }
  destruct (gen_lookup b1 Hb1) as (b0 & Hb0 & ->). pose proof (part_name _ _ _ Hp) as Hn.
  destruct Hp as [(us & s & e & ps & E & _) _ Hv _ _ Hpl]. rewrite E in Hr. cbn in Hr, Hv, Hpl. change (ab_name (attached plans b0)) with (ab_name b0) in Hn.
  destruct (generated_viewed _ _ _ _ _ _ _ _ _ _ _ G b0 Hb0 Hr) as [view Hview].
  apply (resident_buffer _ _ _ _ _ _ view); [by rewrite Hv | | rewrite Hn; by eapply generation_passes; [exact G | |] | rewrite Hn; by apply gen_owned].
  rewrite Hn. destruct G as [_ _ _ _ _ _ _ [B1 _ _ _] _ _]. by rewrite <- (fr_view _ _ _ _ (B1 b0 Hb0)).
Qed.

Lemma flat_overwrites c p : c ∈ flat parts -> p ∈ in_place_parents (ab c) -> overwrites g (ab_name c) p.
Proof.
  intros Hc Hin. destruct (flat_cases gen parts c) as (b1 & dests & src & Hb1 & _ & Hp & Hx); [by destruct P | done|].
  destruct Hx as [-> | (_ & q & t & _ & _ & [_ _ _ _ [E _] _ _])]; [|rewrite E in Hin; by apply elem_of_nil in Hin].
  destruct (gen_lookup b1 Hb1) as (b0 & Hb0 & ->). pose proof (part_name _ _ _ Hp) as Hn.
  destruct Hp as [(us & s & e & ps & E & Hsub) _ _ _ _ _]. rewrite E in Hin. cbn in Hin. apply Hsub in Hin. cbn in Hin.
  destruct G as [_ _ _ _ _ _ _ [_ _ _ B4] _ _]. destruct (B4 b0 p Hb0 Hin) as [[(o & Ho & Hpw) (dev & H1 & H2) _] _].
  rewrite Hn. change (ab_name (attached plans b0)) with (ab_name b0). exists o, dev. split_and!; [done | | done | done].
  unfold _op_inputs_good_for_lx_inplace in Hpw. destruct (has_target o); [done | by apply elem_of_nil in Hpw].
Qed.
End committed.

(** ** The allocation *)

Section allocation.
Context (plan : Z -> Z -> list LifetimeBoundBuffer -> res (list LifetimeBoundBuffer)) `{!LayoutSolver plan}.
Context (C : config) (F : graph_facts) (supports_paired : bool) (size : Z).
Context (collect : graph -> list LXRelayoutPlan) (materialized : graph -> bool).
Context (passes : list (graph -> graph)) (g0 : graph) (given : option (list LXRelayoutPlan)).

(** The graph the buffers are built from, and the plans that may still be reused. *)
#[local] Notation g := (foldl (fun g p => p g) g0 passes).
#[local] Notation given' := (if bool_decide (passes = []) then given else None).

(** C5. For a well-formed graph, relayout plans with non-negative footprints and fresh
    destination names, and any layout solver that meets the solver contract: if the allocation
    returns, its addresses form a valid plan (in range, aligned, buffers live together share no
    byte unless one hands its slot over); every resident buffer is the destination of one of the
    planned relayouts, with that plan's view, or passed every residency rule, each written out
    with its exceptions, for this allocation's verdicts and plans, and has the view the verdicts
    record, under which all its users own it alike unless it is the source of a relayout plan
    and the view is that plan's; and slots are handed over only from an input to a pointwise
    operation that reads it where it writes, in the same device layout. *)
Theorem placement_is_safe out accepted :
  wf_graph g -> (forall plans, relayouts_to_plan C collect materialized g given' = Ok plans -> wf_plans g plans) ->
  plan_allocation C F plan supports_paired size collect materialized passes g0 given = Ok (out, accepted) ->
  valid_plan size 128 (ab <$> out) /\
  (exists plans v, planned_relayouts C g supports_paired collect materialized given' = Ok plans /\ ownership_verdicts F g plans = Ok v /\
     forall b a, b ∈ out -> address (ab b) = Some a -> resident C F g plans v b) /\
  (forall c p, c ∈ out -> p ∈ in_place_parents (ab c) -> overwrites g (ab_name c) p).
Proof.
  intros Hg Hplans H. unfold plan_allocation in H. apply bind_Ok in H as (bufs & Hb & H). apply bind_Ok in H as (mid & Hs & Hf).
  destruct (prepare_Ok _ _ _ Hg _ _ _ _ _ Hplans Hb) as (plans & gen & ov & v0 & v & mem & reasons & gen0 & parts & P & -> & Hplanned).
  destruct (flat_input _ _ _ Hg _ _ _ _ _ _ _ _ _ P) as [Hwf Hpl].
  destruct (solve_Ok plan size (flat parts) Hwf Hpl mid Hs) as [Hsolved Hvalid]. apply finalize_Ok in Hf.
  split_and!.
  - eapply withdrawn_valid; [|exact Hvalid]. apply Forall2_fmap. eapply Forall2_impl; [exact Hf|]. by intros b b' [? _].
  - exists plans, v. split_and!; [exact Hplanned | exact (gn_verdicts _ _ _ _ _ _ _ _ _ _ _ (pr_generation _ _ _ _ _ _ _ _ _ _ _ _ P)) |].
    intros b a [i Hi]%list_elem_of_lookup Ha. destruct (Forall2_lookup_r _ _ _ _ _ Hf Hi) as (m & Hm & _ & Hsame).
    rewrite Hsame in * by (by eexists). clear Hsame. destruct (Forall2_lookup_r _ _ _ _ _ Hsolved Hm) as (s & Hs' & [(x & r & l & E) (V & R & _) Hbar]).
    assert (residency_reason (ab s) = None) as Hr by (destruct (residency_reason (ab s)); [by rewrite Hbar in Ha | done]).
    assert (ab_name m = ab_name s) as Hn by (unfold ab_name; by rewrite E).
    destruct (placeable_resident _ _ _ _ _ _ _ _ _ _ _ _ P s) as [p Hpl' Hp Hv | view Hv Hacc Hrules Hown];
      [by eapply list_elem_of_lookup_2 | done | |].
    + apply (resident_copy _ _ _ _ _ _ p); [done | congruence..].
    + apply (resident_buffer _ _ _ _ _ _ view); rewrite ?Hn; [congruence | done..].
  - intros c p [i Hi]%list_elem_of_lookup Hp. destruct (Forall2_lookup_r _ _ _ _ _ Hf Hi) as (m & Hm & (a & Ea & _) & _).
    destruct (Forall2_lookup_r _ _ _ _ _ Hsolved Hm) as (s & Hs' & [(x & r & l & E) _ _]).
    replace (ab_name c) with (ab_name s) by (unfold ab_name; by rewrite Ea, E). rewrite Ea, E in Hp. cbn in Hp.
    eapply flat_overwrites; [exact P | by eapply list_elem_of_lookup_2 | done].
Qed.

(** Without relayouts to place, the allocation returns as soon as the buffers can be built:
    they meet the preconditions of every layout solver, the check of in-place declarations
    included, so nothing after that raises. *)
Theorem placement_returns bufs :
  wf_graph g -> _generate_buffers C F g [] = Ok bufs ->
  (supports_paired = true -> relayouts_to_plan C collect materialized g given' = Ok []) ->
  exists out, plan_allocation C F plan supports_paired size collect materialized passes g0 given = Ok (out, []).
Proof.
  intros Hg Hgen Hnone. destruct (generate_buffers_Ok _ _ _ _ _ Hg Hgen) as (ov & v0 & v & mem & reasons & gen0 & G).
  assert (forall b, b ∈ bufs -> relayout_plans b = [] /\ destinations b = [] /\ paired_with (ab b) = []) as Halone.
  { intros b Hb. destruct (generated_fresh _ _ _ _ _ _ _ _ _ _ _ b G Hb) as [E1 E2]. split_and!; [done | done|].
    destruct G as [_ _ _ _ _ _ _ [B1 _ _ _] -> _]. apply list_elem_of_fmap in Hb as (b0 & -> & Hb). by destruct (fr_single _ _ _ _ (B1 b0 Hb)). }
  pose proof (generated_wf _ _ _ _ _ _ _ _ _ _ _ Hg G) as Hwf. pose proof (generated_plain _ _ _ _ _ _ _ _ _ _ _ G) as Hpl.
  assert (_prepare_buffers C F supports_paired collect materialized g given' = Ok bufs) as Hprep.
  { unfold _prepare_buffers. destruct supports_paired; cbn [negb]; [|done]. rewrite Hnone by done. cbn [mbind res_bind]. rewrite Hgen.
    apply append_alone. intros b Hb. by apply Halone. }
  destruct (solver_total size 128 (ab <$> bufs) eq_refl Hwf Hpl) as [os Hos].
  { intros x (b & -> & Hb)%list_elem_of_fmap. by apply Halone. }
  { by eapply generated_checked. }
  unfold plan_allocation. rewrite Hprep. cbn [mbind res_bind]. unfold _solve. rewrite solver_buffers_alone by (intros b Hb; by apply Halone).
  rewrite Hos. cbn [mbind res_bind]. unfold _finalize_lx_relayout_allocation.
  rewrite bool_decide_eq_true_2; [by eexists|]. apply elem_of_nil_inv. intros p (b & Hp & Hb)%list_elem_of_bind.
  apply list_elem_of_lookup in Hb as [i Hi]. apply lookup_zip_with_Some in Hi as (b0 & o & -> & Hb0 & _).
  cbn in Hp. rewrite (proj1 (Halone b0 ltac:(by eapply list_elem_of_lookup_2))) in Hp. by apply elem_of_nil in Hp.
Qed.
End allocation.
