(* ===== verification/AllocatorCommit.v ===== *)
(** * Committing relayouts ([_finalize_lx_relayout_allocation])

    After the solve the allocator asserts that a source and its destinations were placed
    together or not at all, and that no destination lies over its source; groups that were
    not placed are withdrawn.  [PairedSolver] is what it relies on beside [LayoutSolver];
    with it the assertions never fire, and every plan it accepts is placed. *)

From S2P Require Import Prelude PyDict PlanSolver GreedySolver Liveness CoreMapping CoreViews BufferFacts ResidencyRules Allocator AllocatorBuffers AllocatorRelayout AllocatorPlan.

(** [supports_paired_buffers()]: a buffer is placed exactly when those it is paired with are. *)
Class PairedSolver (plan : Z -> Z -> list LifetimeBoundBuffer -> res (list LifetimeBoundBuffer)) : Prop :=
  paired_atomic : forall lim al bufs out i b j b' c,
    0 < al -> wf_input bufs -> Forall plain bufs -> plan lim al bufs = Ok out ->
    bufs !! i = Some b -> j ∈ paired_with b -> out !! i = Some b' -> out !! j = Some c ->
    (is_Some (address b') <-> is_Some (address c)).

#[export] Instance greedy_paired_solver : PairedSolver plan_layout.
Proof. intros lim al bufs out i b j b' c Hal Hwf _. by apply greedy_paired_atomic. Qed.

(** ** Buffers by name *)

Lemma find_named l j d : NoDup (ab_name <$> l) -> l !! j = Some d -> list_find (fun b => ab_name b = ab_name d) l = Some (j, d).
Proof.
  intros Hn Hj. apply list_find_Some. split_and!; [done | done|]. intros k y Hk Hlt E.
  assert (k = j); [|lia]. apply (NoDup_lookup _ _ _ (ab_name d) Hn); rewrite list_lookup_fmap; [rewrite Hk; cbn; by f_equal | by rewrite Hj].
Qed.

Section commit.
Context (C : config) (F : graph_facts) (g : graph) (Hg : wf_graph g).
Context (plans : list LXRelayoutPlan) (gen : list abuffer) (ov : overrides) (v0 v : verdicts) (mem : dict usage).
Context (reasons : dict (option string)) (gen0 : list abuffer) (parts : list (list abuffer * abuffer)).
Context (P : prepared C F g plans gen ov v0 v mem reasons gen0 parts).
Context (plan : Z -> Z -> list LifetimeBoundBuffer -> res (list LifetimeBoundBuffer)) `{!LayoutSolver plan} `{!PairedSolver plan}.
Context (size : Z) (mid : list abuffer) (Hsolve : _solve plan size (flat parts) = Ok mid).

#[local] Notation bufs := (flat parts).

Lemma mid_solved : Forall2 solved_as bufs mid /\ valid_plan size 128 (ab <$> mid).
Proof. destruct (flat_input _ _ _ Hg _ _ _ _ _ _ _ _ _ P) as [Hwf Hpl]. by apply (solve_Ok plan). Qed.

Lemma solved_name b b' : solved_as b b' -> ab_name b' = ab_name b.
Proof. intros [(a & r & l & E) _ _]. unfold ab_name. by rewrite E. Qed.

Lemma mid_names : ab_name <$> mid = ab_name <$> bufs.
Proof.
  destruct mid_solved as [H _]. clear Hsolve. induction H as [|b b' l k Hb H IH]; [done|]. rewrite !fmap_cons, IH. f_equal. by apply solved_name.
Qed.

Lemma mid_NoDup : NoDup (ab_name <$> mid).
Proof.
  rewrite mid_names. destruct (flat_input _ _ _ Hg _ _ _ _ _ _ _ _ _ P) as [[_ Hn _] _]. by rewrite <- list_fmap_compose in Hn.
Qed.

(** Addresses are paired as the destinations are named. *)
Lemma mid_atomic i j s d s0 d0 :
  bufs !! i = Some s0 -> mid !! i = Some s -> bufs !! j = Some d0 -> mid !! j = Some d -> ab_name d0 ∈ destinations s0 ->
  (is_Some (address (ab s)) <-> is_Some (address (ab d))).
Proof.
  intros Hs0 Hs Hd0 Hd Hin. pose proof mid_NoDup as Hnd. rewrite mid_names in Hnd. destruct (flat_input _ _ _ Hg _ _ _ _ _ _ _ _ _ P) as [Hwf Hpl].
  destruct (solver_buffers_wf bufs Hwf Hpl) as [Hw Hp]. unfold _solve in Hsolve. apply bind_Ok in Hsolve as (os & Hos & [= Hmid]).
  assert (forall k x, mid !! k = Some x -> exists o, os !! k = Some o /\ ab x = o) as Hlook.
  { intros k x Hk. rewrite <- Hmid in Hk. apply lookup_zip_with_Some in Hk as (b & o & -> & _ & Ho). by exists o. }
  destruct (Hlook _ _ Hs) as (os1 & Ho1 & ->), (Hlook _ _ Hd) as (os2 & Ho2 & ->).
  eapply (paired_atomic size 128 (solver_buffers bufs) os i _ j); [done | done | done | done | | | done | done].
  - unfold solver_buffers. by rewrite list_lookup_fmap, Hs0.
  - cbn. apply list_elem_of_omap. exists (ab_name d0). split; [done|]. unfold position_of.
    rewrite (find_named bufs j d0) by done. done.
Qed.

(** A source of the list with one of its destinations. *)
Record group (s d : abuffer) (p : LXRelayoutPlan) : Prop := {
  gr_source : s ∈ mid /\ ab_name s = source_name p;
  gr_destination : d ∈ mid /\ ab_name d = destination_name p;
  gr_together : is_Some (address (ab s)) <-> is_Some (address (ab d));
  gr_overlap : exists t, start_time (ab s) <= t < end_time (ab s) /\ start_time (ab d) <= t < end_time (ab d);
  gr_alone : in_place_parents (ab d) = []
}.

Lemma solved_times b b' : solved_as b b' -> start_time (ab b') = start_time (ab b) /\ end_time (ab b') = end_time (ab b) /\
  in_place_parents (ab b') = in_place_parents (ab b).
Proof. intros [(a & r & l & E) _ _]. by rewrite E. Qed.

Lemma source_group s p : s ∈ mid -> p ∈ relayout_plans s -> p ∈ plans /\ exists d, group s d p.
Proof.
  intros [i Hi]%list_elem_of_lookup Hp. destruct mid_solved as [Hsv _]. destruct (Forall2_lookup_r _ _ _ _ _ Hsv Hi) as (s0 & Hs0 & Hss).
  pose proof (solved_name _ _ Hss) as Hsn. destruct (solved_times _ _ Hss) as (T1 & T2 & _). pose proof (sv_rest _ _ Hss) as (_ & Er & _). rewrite Er in Hp.
  destruct (flat_cases gen parts s0) as (b1 & dests & src & Hb1 & Hpart & Hpt & Hx); [by destruct P | by eapply list_elem_of_lookup_2|].
  destruct Hx as [-> | (_ & q & t & _ & _ & [_ _ _ _ (_ & E & _) _ _])]; [|rewrite E in Hp; by apply elem_of_nil in Hp].
  pose proof (part_name _ _ _ Hpt) as Hn. pose proof Hpt as [_ Hwf _ Hds Hdn Hpl].
  assert (p ∈ plans /\ source_name p = ab_name b1) as [Hpp Hsrc].
  { rewrite Hpl in Hp. destruct (residency_reason (ab b1)); [by apply elem_of_nil in Hp|].
    destruct (generated_fresh _ _ _ _ _ _ _ _ _ _ _ b1 (pr_generation _ _ _ _ _ _ _ _ _ _ _ _ P) Hb1) as [E _]. rewrite E in Hp.
    by apply list_elem_of_filter in Hp as [? ?]. }
  split; [done|]. apply list_elem_of_lookup in Hp as [k Hk]. destruct (Forall2_lookup_l _ _ _ _ _ Hds Hk) as (d0 & Hd0 & t & Ht & Hdo).
  assert (d0 ∈ bufs) as [j Hj]%list_elem_of_lookup.
  { apply elem_of_flat. exists (dests, src). split; [done|]. left. by eapply list_elem_of_lookup_2. }
  destruct (Forall2_lookup_l _ _ _ _ _ Hsv Hj) as (d & Hd & Hdd). pose proof (solved_name _ _ Hdd) as Hddn.
  destruct (solved_times _ _ Hdd) as (D1 & D2 & D3). exists d. destruct Hdo as [O1 O2 O3 O4 [O5 _] O6 O7]. split.
  - split; [by eapply list_elem_of_lookup_2 | congruence].
  - split; [by eapply list_elem_of_lookup_2 | congruence].
  - eapply mid_atomic; [exact Hs0 | exact Hi | exact Hj | exact Hd|]. rewrite Hdn. apply list_elem_of_fmap_2. by eapply list_elem_of_lookup_2.
  - exists t. rewrite T1, T2, D1, D2. split; [|done]. by apply use_is_live.
  - congruence.
Qed.

(** ** The assertions *)

Lemma destination_unknown p : p ∈ plans -> try_get_layout g (destination_name p) = None.
Proof.
  intros Hp. destruct P as [_ _ [_ Hn]]. rewrite app_assoc in Hn. apply NoDup_app in Hn as (_ & Hd & _).
  assert (destination_name p ∉ (get_name <$> graph_operations g) ++ dkeys (graph_inputs g)) as Hnot.
  { intros Hin. apply (Hd _ Hin). by apply list_elem_of_fmap_2. }
  rewrite elem_of_app in Hnot. unfold try_get_layout. destruct (find_op g (destination_name p)) as [o|] eqn:Ho.
  - apply find_op_Some in Ho as [Ho En]. destruct Hnot. left. rewrite <- En. by apply list_elem_of_fmap_2.
  - apply dget_None. tauto.
Qed.

Lemma pair_disjoint s d p a x : group s d p -> p ∈ plans -> address (ab s) = Some a -> address (ab d) = Some x ->
  ranges_disjoint a (a + buf_size (ab s)) x (x + buf_size (ab d)).
Proof.
  intros [[Hs Hsn] [Hd Hdn] _ (t & Ht1 & Ht2) Halone] Hp Ha Hx. destruct mid_solved as [Hsv [_ _ Hc]].
  assert (overlaps_in_time (ab s) (ab d) = true) as Hov by (unfold overlaps_in_time; lia).
  assert (~ buf_name (ab d) ∈ in_place_parents (ab s)) as Hno.
  { intros Hin. pose proof Hs as [i Hi]%list_elem_of_lookup. destruct (Forall2_lookup_r _ _ _ _ _ Hsv Hi) as (s0 & Hs0 & Hss).
    destruct (solved_times _ _ Hss) as (_ & _ & E). rewrite E in Hin.
    destruct (flat_overwrites _ _ _ _ _ _ _ _ _ _ _ _ P s0 (buf_name (ab d))) as (o & dev & _ & _ & _ & Hl); [by eapply list_elem_of_lookup_2 | done|].
    change (buf_name (ab d)) with (ab_name d) in Hl. rewrite Hdn, destination_unknown in Hl by done. done. }
  assert (compatible (ab s) (ab d)) as Hcomp.
  { destruct (pairwise_elem _ _ (ab s) (ab d) Hc) as [E | [? | ?]]; [by apply list_elem_of_fmap_2 | by apply list_elem_of_fmap_2 | | done | by apply compatible_sym].
    exfalso. destruct P as [[_ _ _ _ _ _ _ _ _ Hsrc] _ [_ Hn]]. specialize (Hsrc p Hp).
    assert (destination_name p = source_name p) as Eq by (rewrite <- Hsn, <- Hdn; unfold ab_name; by rewrite E).
    pose proof (gen_names _ _ _ _ _ _ _ _ _ _ _ _ P) as Hgn. apply NoDup_app in Hgn as (_ & Hfar & _).
    apply (Hfar (source_name p)); [|rewrite <- Eq; by apply list_elem_of_fmap_2].
    by rewrite (generated_names _ _ _ _ _ _ _ _ _ _ _ (pr_generation _ _ _ _ _ _ _ _ _ _ _ _ P)). }
  destruct (Hcomp a x Ha Hx Hov) as [? | [[Hin _] | [Hin _]]]; [done | | done]. rewrite Halone in Hin. by apply elem_of_nil in Hin.
Qed.

(** The destination a source's plan is looked up with. *)
Definition destination_in (p : LXRelayoutPlan) : res LifetimeBoundBuffer :=
  match list_find (fun b => ab_name b = destination_name p) mid with Some (_, d) => Ok (ab d) | None => Raise KeyError end.

Lemma group_found s d p : group s d p -> destination_in p = Ok (ab d).
Proof.
  intros [_ [[j Hj]%list_elem_of_lookup Hn] _ _ _]. unfold destination_in. rewrite <- Hn. by rewrite (find_named mid j d mid_NoDup Hj).
Qed.

Lemma allocated_source_total s complete : s ∈ mid ->
  allocated_source mid s complete =
  Ok (if bool_decide (relayout_plans s <> [] /\ is_Some (address (ab s))) then complete ++ [ab_name s] else complete).
Proof.
  intros Hs. unfold allocated_source. case_bool_decide as Hnil.
  { rewrite bool_decide_eq_false_2 by (intros [? _]; done). done. }
  assert (exists ds, py_map destination_in (relayout_plans s) = Ok ds /\
    Forall2 (fun p b => p ∈ plans /\ exists d, b = ab d /\ group s d p) (relayout_plans s) ds) as (ds & Hds & Hall).
  { assert (forall l, l ⊆ relayout_plans s -> exists ds, py_map destination_in l = Ok ds /\
      Forall2 (fun p b => p ∈ plans /\ exists d, b = ab d /\ group s d p) l ds) as Hgen; [|by apply Hgen].
    induction l as [|p l IH]; intros Hl; [by exists []|]. destruct (source_group s p Hs) as (Hp & d & Hgr); [apply Hl; list_mem|].
    destruct IH as (ds & E & Hds); [intros q Hq; apply Hl; by right|]. exists (ab d :: ds). cbn. rewrite (group_found _ _ _ Hgr). cbn. rewrite E.
    split; [done|]. constructor; [|done]. split; [done|]. by exists d. }
  change (py_map _ (relayout_plans s)) with (py_map destination_in (relayout_plans s)). rewrite Hds. cbn [mbind res_bind].
  assert (forall b, b ∈ ds -> exists p d, p ∈ plans /\ b = ab d /\ group s d p) as Hmem.
  { intros b [k Hk]%list_elem_of_lookup. destruct (Forall2_lookup_r _ _ _ _ _ Hall Hk) as (p & _ & Hp & d & Hd). by exists p, d. }
  destruct (address (ab s)) as [a|] eqn:Ea.
  - rewrite bool_decide_eq_true_2 by (split; [done | by eexists]).
    assert (forall b, b ∈ ds -> exists x, address b = Some x /\ ranges_disjoint a (a + buf_size (ab s)) x (x + buf_size b)) as Hb.
    { intros b (p & d & Hp & -> & Hgr)%Hmem. destruct (proj1 (gr_together _ _ _ Hgr)) as [x Hx]; [by eexists|].
      exists x. split; [done|]. by eapply pair_disjoint. }
    cbn [fmap list_fmap]. rewrite Ea, bool_decide_eq_true_2 by (by eexists). cbn [forallb existsb id].
    rewrite (proj2 (forallb_forall id _)). { cbn. rewrite (proj2 (forallb_forall _ ds)); [done|]. intros b Hin%list_elem_of_In.
      destruct (Hb b Hin) as (x & -> & Hr). unfold ranges_disjoint in Hr. lia. }
    intros z Hz%list_elem_of_In. apply list_elem_of_fmap in Hz as (b & -> & Hin). destruct (Hb b Hin) as (x & E & _). unfold id.
    apply bool_decide_eq_true. by exists x.
  - rewrite bool_decide_eq_false_2 by (intros [_ [? ?]]; done). cbn [fmap list_fmap]. rewrite Ea.
    rewrite bool_decide_eq_false_2 by (intros [? ?]; done). cbn [forallb existsb id orb].
    replace (existsb id _) with false; [done|]. symmetry. apply not_true_iff_false. intros (z & Hz & Ez)%existsb_exists.
    apply list_elem_of_In, list_elem_of_fmap in Hz as (b & -> & Hin). unfold id in Ez. apply bool_decide_eq_true in Ez.
    destruct (Hmem b Hin) as (p & d & _ & -> & Hgr). apply (gr_together _ _ _ Hgr) in Ez. rewrite Ea in Ez. by destruct Ez.
Qed.

Lemma allocated_total : exists complete, _allocated_lx_relayout_sources mid = Ok complete /\
  forall n, n ∈ complete <-> exists s, s ∈ mid /\ ab_name s = n /\ relayout_plans s <> [] /\ is_Some (address (ab s)).
Proof.
  unfold _allocated_lx_relayout_sources.
  refine (for_each_total (allocated_source mid) (fun dn complete => forall n, n ∈ complete <-> exists s, s ∈ dn /\ ab_name s = n /\
    relayout_plans s <> [] /\ is_Some (address (ab s))) mid [] _ _); [|intros n; split; [by intros ?%elem_of_nil | by intros (s & ?%elem_of_nil & _)]].
  intros dn s rest complete Hl IH. rewrite allocated_source_total by (rewrite Hl; list_mem). eexists. split; [done|]. intros n.
  setoid_rewrite elem_of_app. setoid_rewrite list_elem_of_singleton. case_bool_decide as E.
  - rewrite elem_of_app, list_elem_of_singleton, IH. split.
    + intros [(x & Hx & ?) | ->]; [exists x | exists s]; by auto.
    + intros (x & [Hx | ->] & Hn & ?); [left; by exists x | by right].
  - rewrite IH. split; [intros (x & Hx & ?); exists x; by auto | intros (x & [Hx | ->] & Hn & H); [by exists x | done]].
Qed.

(** ** Withdrawing what was not placed *)

Lemma mid_inj b c : b ∈ mid -> c ∈ mid -> ab_name b = ab_name c -> b = c.
Proof.
  intros [i Hi]%list_elem_of_lookup [j Hj]%list_elem_of_lookup E. pose proof (find_named mid i b mid_NoDup Hi) as H1.
  pose proof (find_named mid j c mid_NoDup Hj) as H2. rewrite E in H1. congruence.
Qed.

(** The names that lose their addresses belong to rejected groups. *)
Definition group_of (sources names : list string) : Prop :=
  forall n, n ∈ names -> n ∈ sources \/ exists b p, b ∈ mid /\ ab_name b ∈ sources /\ p ∈ relayout_plans b /\ n = destination_name p.

Lemma clear_groups_total sources : (forall n, n ∈ sources -> n ∈ (ab_name <$> mid)) ->
  exists names, _clear_lx_relayout_groups mid sources = Ok (clear_one names sources <$> mid) /\ group_of sources names.
Proof.
  intros Hs. unfold _clear_lx_relayout_groups.
  destruct (for_each_total (group_names mid) (fun _ names => group_of sources names) sources sources) as (names & Hrun & Hn).
  - intros dn n rest names Hl IH. assert (n ∈ sources) as Hin by (rewrite Hl; list_mem). pose proof (Hs n Hin) as (b & -> & Hb)%list_elem_of_fmap.
    pose proof Hb as [j Hj]%list_elem_of_lookup. unfold group_names. rewrite (find_named mid j b mid_NoDup Hj). eexists. split; [done|].
    intros x [Hx | (p & -> & Hp)%list_elem_of_fmap]%elem_of_app; [by apply IH|]. right. by exists b, p.
  - intros n Hn. by left.
  - exists names. rewrite Hrun. by split.
Qed.

(** What an accepted plan records: both buffers are placed at the addresses it carries,
    apart, and are live together. *)
Definition committed (out : list abuffer) (q : LXRelayoutPlan) : Prop :=
  exists s d x y, s ∈ out /\ d ∈ out /\ ab_name s = source_name q /\ ab_name d = destination_name q /\
    address (ab s) = Some x /\ address (ab d) = Some y /\ source_address q = Some x /\ destination_address q = Some y /\
    ranges_disjoint x (x + buf_size (ab s)) y (y + buf_size (ab d)) /\
    exists t, start_time (ab s) <= t < end_time (ab s) /\ start_time (ab d) <= t < end_time (ab d).

Section cleared.
Context (names rejected : list string) (Hnames : group_of rejected names).
Context (Hrej : forall n, n ∈ rejected -> exists s, s ∈ mid /\ relayout_plans s <> [] /\ ab_name s = n).

#[local] Notation out := (clear_one names rejected <$> mid).

Lemma clear_name b : ab_name (clear_one names rejected b) = ab_name b.
Proof. unfold clear_one. by repeat case_bool_decide. Qed.

Lemma out_find b : b ∈ mid -> exists j, list_find (fun c => ab_name c = ab_name b) out = Some (j, clear_one names rejected b).
Proof.
  intros [j Hj]%list_elem_of_lookup. exists j. rewrite <- (clear_name b). apply find_named; [|by rewrite list_lookup_fmap, Hj].
  rewrite <- list_fmap_compose, (list_fmap_ext _ ab_name mid); [apply mid_NoDup|]. intros i c _. apply clear_name.
Qed.

(** Sources of live groups are not the destinations of others. *)
Lemma group_apart s d p : group s d p -> p ∈ plans -> ab_name s ∉ rejected -> ab_name s ∉ names /\ ab_name d ∉ names.
Proof.
  intros Hgr Hp Hr. pose proof Hgr as [[Hs Hsn] [Hd Hdn] _ _ _].
  assert (forall q, q ∈ plans -> forall r, r ∈ plans -> source_name r <> destination_name q) as Hfar.
  { intros q Hq r Hr' E. pose proof (gen_names _ _ _ _ _ _ _ _ _ _ _ _ P) as Hgn. apply NoDup_app in Hgn as (_ & Hfar & _).
    apply (Hfar (source_name r)); [|rewrite E; by apply list_elem_of_fmap_2].
    rewrite (generated_names _ _ _ _ _ _ _ _ _ _ _ (pr_generation _ _ _ _ _ _ _ _ _ _ _ _ P)).
    by apply (gn_sources _ _ _ _ _ _ _ _ _ _ _ (pr_generation _ _ _ _ _ _ _ _ _ _ _ _ P)). }
  split; intros [Hin | (b & q & Hb & Hbr & Hq & E)]%Hnames.
  - done.
  - destruct (source_group b q Hb Hq) as [Hqp _]. apply (Hfar q Hqp p Hp). congruence.
  - destruct (Hrej _ Hin) as (s' & Hs' & Hne & E). destruct (relayout_plans s') as [|q l] eqn:El; [done|].
    destruct (source_group s' q Hs') as (Hq & d' & [[_ Hn'] _ _ _ _]); [rewrite El; list_mem|]. apply (Hfar p Hp q Hq). congruence.
  - destruct (source_group b q Hb Hq) as [Hqp (d' & [[_ Hbn] _ _ _ _])]. apply Hr.
    assert (p = q) as -> by (apply (destination_inj plans gen (gen_names _ _ _ _ _ _ _ _ _ _ _ _ P)); congruence). congruence.
Qed.

Lemma clear_apart b : ab_name b ∉ names -> ab (clear_one names rejected b) = ab b.
Proof. intros Hn. unfold clear_one. rewrite (bool_decide_eq_false_2 (ab_name b ∈ names)) by done. by case_bool_decide. Qed.

Lemma plan_commits b p :
  b ∈ mid -> p ∈ relayout_plans b -> ab_name b ∉ rejected -> is_Some (address (ab b)) ->
  exists q, committed_plan out p = Ok q /\ committed out q.
Proof.
  intros Hb Hp Hr [x Hx]. destruct (source_group b p Hb Hp) as (Hpp & d & Hgr). pose proof Hgr as [[_ Hsn] [Hd Hdn] Ht Hov _].
  destruct (proj1 Ht) as [y Hy]; [by eexists|]. destruct (group_apart _ _ _ Hgr Hpp Hr) as [H1 H2].
  destruct (out_find b Hb) as [i Hi], (out_find d Hd) as [j Hj]. rewrite Hsn in Hi. rewrite Hdn in Hj.
  unfold committed_plan. rewrite Hi, Hj. eexists. split; [done|].
  exists (clear_one names rejected b), (clear_one names rejected d), x, y. rewrite !clear_name, !clear_apart by done.
  split_and!; try done; [by apply list_elem_of_fmap_2 | by apply list_elem_of_fmap_2 | by eapply pair_disjoint].
Qed.
End cleared.

Lemma finalize_total : exists out accepted, _finalize_lx_relayout_allocation mid = Ok (out, accepted) /\ forall q, q ∈ accepted -> committed out q.
Proof.
  unfold _finalize_lx_relayout_allocation. set (all := b ← mid; relayout_plans b). case_bool_decide as Hall.
  { eexists _, _. split; [done|]. by intros q ?%elem_of_nil. }
  destruct allocated_total as (complete & -> & Hc). cbn [mbind res_bind].
  set (rejected := filter (fun n => n ∉ complete) (remove_dups (source_name <$> all))).
  assert (forall p b, b ∈ mid -> p ∈ relayout_plans b -> ab_name b = source_name p) as Hown.
  { intros p b Hb Hp. destruct (source_group b p Hb Hp) as (_ & d & [[_ ?] _ _ _ _]). done. }
  assert (forall n, n ∈ rejected -> exists s, s ∈ mid /\ relayout_plans s <> [] /\ ab_name s = n) as Hrej.
  { intros n [_ Hn]%list_elem_of_filter. apply elem_of_remove_dups, list_elem_of_fmap in Hn as (p & -> & Hp).
    apply list_elem_of_bind in Hp as (b & Hp & Hb). exists b. split_and!; [done | | by apply Hown]. intros E. rewrite E in Hp. by apply elem_of_nil in Hp. }
  assert (exists names, (if bool_decide (rejected = []) then Ok mid else _clear_lx_relayout_groups mid rejected) =
    Ok (clear_one names rejected <$> mid) /\ group_of rejected names) as (names & -> & Hnames).
  { case_bool_decide as E.
    - exists []. split; [|by intros n ?%elem_of_nil]. f_equal. rewrite E. rewrite <- (list_fmap_id mid) at 1. by apply list_fmap_ext.
    - apply clear_groups_total. intros n Hn. destruct (Hrej n Hn) as (s & Hs & _ & <-). by apply list_elem_of_fmap_2. }
  cbn [mbind res_bind]. set (out := clear_one names rejected <$> mid).
  assert (forall p, p ∈ (b ← out; relayout_plans b) -> exists q, committed_plan out p = Ok q /\ committed out q) as Hcommit.
  { intros p (b' & Hp & (b & -> & Hb)%list_elem_of_fmap)%list_elem_of_bind. unfold clear_one in Hp.
    case_bool_decide as Hr; [by apply elem_of_nil in Hp|].
    assert (p ∈ relayout_plans b) as Hp' by (by case_bool_decide). apply plan_commits with b; try done.
    destruct (decide (ab_name b ∈ complete)) as [Hin|Hin].
    - apply Hc in Hin as (s & Hs & E & _ & Ha). by rewrite (mid_inj s b Hs Hb E) in Ha.
    - destruct Hr. apply list_elem_of_filter. split; [done|]. apply elem_of_remove_dups, list_elem_of_fmap. exists p.
      split; [by apply Hown|]. apply list_elem_of_bind. by exists b. }
  destruct (py_map_total (committed_plan out) (b ← out; relayout_plans b)) as [acc Hacc];
    [intros p Hp; destruct (Hcommit p Hp) as (q & ? & _); by exists q|].
  unfold _accepted_plans. rewrite Hacc. cbn [mbind res_bind]. exists out, acc. split; [done|].
  intros q [i Hi]%list_elem_of_lookup. apply py_map_Ok in Hacc. destruct (Forall2_lookup_r _ _ _ _ _ Hacc Hi) as (p & Hpi & Hq).
  destruct (Hcommit p) as (q' & Hq' & ?); [by eapply list_elem_of_lookup_2|]. congruence.
Qed.
End commit.

(** C10. Relayouts are committed whole: with a solver that places paired buffers together, the
    allocator's assertions on the solved groups never fire, groups that were not placed are
    withdrawn, and every accepted plan carries the addresses at which its source and its
    destination lie, apart from each other and both live when the copy runs. *)
Theorem relayouts_commit plan `{!LayoutSolver plan} `{!PairedSolver plan} C F g size collect materialized given bufs mid :
  wf_graph g -> (forall plans, relayouts_to_plan C collect materialized g given = Ok plans -> wf_plans g plans) ->
  _prepare_buffers C F true collect materialized g given = Ok bufs -> _solve plan size bufs = Ok mid ->
  exists out accepted, _finalize_lx_relayout_allocation mid = Ok (out, accepted) /\ forall q, q ∈ accepted -> committed out q.
Proof.
  intros Hg Hplans Hb Hs. destruct (prepare_Ok _ _ _ Hg _ _ _ _ _ Hplans Hb) as (plans & gen & ov & v0 & v & mem & reasons & gen0 & parts & P & -> & _).
  by eapply finalize_total.
Qed.
