(* ===== verification/AllocatorExamples.v ===== *)
(** * The allocator on a small graph

    Three pointwise operations over one input: [buf1] overwrites [buf0] where the solver
    can hand the slot over, and a relayout gives [buf2] a private copy of [buf0].  The
    theorems of the allocator are applied to it. *)

From S2P Require Import Prelude PyDict PlanSolver GreedySolver Liveness CoreMapping CoreViews BufferFacts ResidencyRules Allocator AllocatorBuffers AllocatorRelayout AllocatorPlan AllocatorCommit.

Definition sample_device : device_layout := mkDevice [2; 64; 64] [64; 128; 1] "float16" 16384.

Definition sample_layout : layout := FixedTiledLayout [64; 128] sample_device.

Definition sample_dep (name : string) : dep := mkDep name true "128*d0 + d1" false (Some 8192).

Definition sample_op (name : string) (inputs : list string) : operation :=
  mkOperation name (sample_dep <$> inputs) [sample_dep name] sample_layout (Some Pointwise) false false None None None None "add" true
    (Some []) (Some []).

Definition sample_graph : graph :=
  mkGraph [sample_op "buf0" ["arg0"]; sample_op "buf1" ["arg0"; "buf0"]; sample_op "buf2" ["buf0"; "buf1"]; sample_op "buf3" ["buf2"]]
    [("arg0"%string, sample_layout)] ["buf3"%string] [].

Definition sample_config : config := mkConfig false true false false false false.

Definition sample_facts : graph_facts :=
  mkGraphFacts (fun _ _ => None) (fun _ _ => false) (fun _ _ _ => true) (fun _ _ => None) (fun _ _ => false) (fun _ => []) (fun _ => false)
    (fun _ _ => false).

Definition sample_plan : LXRelayoutPlan := mkPlan "buf0" ["buf2"] (no_view 1) (no_view 1) 1 16384 16384 None None.

(** ** The sample is well formed *)

Lemma sample_wf : wf_graph sample_graph.
Proof.
  split; [apply (bool_decide_unpack _); vm_compute; exact I|].
  assert (forall name l, try_get_layout sample_graph name = Some l -> l = sample_layout) as Hl.
  { intros name l. unfold try_get_layout. destruct (find_op sample_graph name) as [o|] eqn:Ho.
    - apply find_op_Some in Ho as [Ho _]. intros [= <-].
      assert (Forall (fun o => op_layout o = sample_layout) (graph_operations sample_graph)) as Hf by (repeat constructor).
      rewrite Forall_forall in Hf. by apply Hf.
    - intros H%dget_Some_elem. apply list_elem_of_singleton in H. congruence. }
  intros name l dev ->%Hl [= <-]. done.
Qed.

Lemma sample_wf_plans plans :
  relayouts_to_plan sample_config (fun _ => [sample_plan]) (fun _ => false) sample_graph None = Ok plans -> wf_plans sample_graph plans.
Proof.
  intros [= <-]. split; [by intros p ->%list_elem_of_singleton|]. apply (bool_decide_unpack _). vm_compute. exact I.
Qed.

(** The value of a computation that returns. *)
Definition value_of {A} (d : A) (r : res A) : A := match r with Ok x => x | Raise _ => d end.

(** ** Witnesses *)

Notation sample_run paired :=
  (plan_allocation sample_config sample_facts plan_layout paired 65536 (fun _ => [sample_plan]) (fun _ => false) [] sample_graph None).

(** Where the buffers lie, and at which ticks they are used. *)
Definition placements (r : res (list abuffer * list LXRelayoutPlan)) : list (string * option Z * list Z) :=
  (fun b => (ab_name b, address (ab b), uses (ab b))) <$> (value_of ([], []) r).1.

(** Without relayouts [buf2] takes over [buf0]'s slot and [buf1] that of the clone of [arg0];
    [buf3] is only stored. *)
Example sample_placed : placements (sample_run false) =
  [("buf0"%string, Some 0, [0; 1; 2]); ("buf1"%string, Some 16384, [1; 2]); ("buf2"%string, Some 0, [2; 3]); ("buf3"%string, None, [3]);
   ("arg0"%string, Some 16384, [0; 1])].
Proof. vm_compute. reflexivity. Qed.

(** With the relayout every tick is doubled, and the copy runs between [buf1] and [buf2]. *)
Example sample_relayout : placements (sample_run true) =
  [("__spyre_lx_relayout__:buf0:buf2"%string, Some 16384, [4; 5]); ("buf0"%string, Some 0, [1; 3; 4]); ("buf1"%string, Some 32768, [3; 5]);
   ("buf2"%string, Some 32768, [5; 7]); ("buf3"%string, None, [7]); ("arg0"%string, Some 32768, [1; 3])].
Proof. vm_compute. reflexivity. Qed.

Lemma placement_is_safe_witness :
  exists out accepted, sample_run true = Ok (out, accepted) /\
    valid_plan 65536 128 (ab <$> out) /\
    (exists plans v, planned_relayouts sample_config sample_graph true (fun _ => [sample_plan]) (fun _ => false) None = Ok plans /\
       ownership_verdicts sample_facts sample_graph plans = Ok v /\
       forall b a, b ∈ out -> address (ab b) = Some a -> resident sample_config sample_facts sample_graph plans v b) /\
    (forall c p, c ∈ out -> p ∈ in_place_parents (ab c) -> overwrites sample_graph (ab_name c) p).
Proof.
  set (r := value_of ([], []) (sample_run true)).
  assert (sample_run true = Ok (r.1, r.2)) as E by (vm_compute; reflexivity).
  exists r.1, r.2. split; [exact E|].
  exact (placement_is_safe plan_layout sample_config sample_facts true 65536 (fun _ => [sample_plan]) (fun _ => false) [] sample_graph None
    r.1 r.2 sample_wf sample_wf_plans E).
Defined.

Lemma placement_returns_witness :
  exists out, sample_run false = Ok (out, []).
Proof.
  refine (placement_returns plan_layout sample_config sample_facts false 65536 (fun _ => [sample_plan]) (fun _ => false) [] sample_graph None
    (value_of [] (_generate_buffers sample_config sample_facts sample_graph [])) sample_wf _ _); [vm_compute; reflexivity | discriminate].
Defined.

Lemma relayouts_commit_witness :
  exists bufs mid out accepted,
    _prepare_buffers sample_config sample_facts true (fun _ => [sample_plan]) (fun _ => false) sample_graph None = Ok bufs /\
    _solve plan_layout 65536 bufs = Ok mid /\ _finalize_lx_relayout_allocation mid = Ok (out, accepted) /\
    forall q, q ∈ accepted -> committed out q.
Proof.
  set (bufs := value_of [] (_prepare_buffers sample_config sample_facts true (fun _ => [sample_plan]) (fun _ => false) sample_graph None)).
  set (mid := value_of [] (_solve plan_layout 65536 bufs)).
  assert (_prepare_buffers sample_config sample_facts true (fun _ => [sample_plan]) (fun _ => false) sample_graph None = Ok bufs) as Hb
    by (vm_compute; reflexivity).
  assert (_solve plan_layout 65536 bufs = Ok mid) as Hs by (vm_compute; reflexivity).
  destruct (relayouts_commit plan_layout sample_config sample_facts sample_graph 65536 (fun _ => [sample_plan]) (fun _ => false) None bufs mid
    sample_wf sample_wf_plans Hb Hs) as (out & accepted & Hf & Hc).
  exists bufs, mid, out, accepted. split; [exact Hb|]. split; [exact Hs|]. split; [exact Hf | exact Hc].
Defined.

Lemma generated_buffers_typed_witness :
  exists bufs, _generate_buffers sample_config sample_facts sample_graph [sample_plan] = Ok bufs /\
    wf_input (ab <$> bufs) /\ Forall plain (ab <$> bufs) /\ _check_in_place_relationships (ab <$> bufs) = Ok tt.
Proof.
  set (bufs := value_of [] (_generate_buffers sample_config sample_facts sample_graph [sample_plan])).
  assert (_generate_buffers sample_config sample_facts sample_graph [sample_plan] = Ok bufs) as E by (vm_compute; reflexivity).
  exists bufs. split; [exact E|]. exact (generated_buffers_typed sample_config sample_facts sample_graph [sample_plan] bufs sample_wf E).
Defined.

(** The judge accepts [buf0]. *)
Lemma accepted_users_agree_witness :
  exists v ref, get_ncores_for_buffers (prep_of sample_facts) (reduces sample_facts) (subrange_certificate sample_facts) sample_graph [] = Ok v /\
    dget (accepted_views v) "buf0" = Some ref.
Proof.
  set (v := value_of (mkVerdicts [] [] [])
    (get_ncores_for_buffers (prep_of sample_facts) (reduces sample_facts) (subrange_certificate sample_facts) sample_graph [])).
  assert (get_ncores_for_buffers (prep_of sample_facts) (reduces sample_facts) (subrange_certificate sample_facts) sample_graph [] = Ok v) as E
    by (vm_compute; reflexivity).
  assert (dget (num_cores v) "buf0" = Some 1) as Hc by (vm_compute; reflexivity).
  destruct (accepted_users_agree (prep_of sample_facts) (reduces sample_facts) (subrange_certificate sample_facts) sample_graph [] v "buf0" 1
    E Hc ltac:(discriminate)) as (ref & Hr & _).
  exists v, ref. split; [exact E | exact Hr].
Defined.

(** ** An input without a device layout *)

(** No check of [_input_residency_reason] looks for a device layout, so an input that two
    operations read and that has none is not barred: the last check fails instead. *)
Definition host_graph : graph :=
  mkGraph [sample_op "buf0" ["arg0"]; sample_op "buf1" ["arg0"; "buf0"]] [("arg0"%string, FixedLayout [64; 128])] ["buf1"%string] [].

Theorem unsized_input_raises : _generate_buffers sample_config sample_facts host_graph [] = Raise AttributeError.
Proof. vm_compute. reflexivity. Qed.
