(* ===== verification/ContextSwitch.v ===== *)
(** * Context switching of the scratchpad ([scratchpad/lx_context_switching.py])

    A fallback kernel may run another compiled program, which plans the scratchpad for
    itself and overwrites what this graph keeps there.  The pass brackets such a kernel:
    every resident buffer that is live across it is copied to HBM right before it and
    copied back to its address right after it.

    Beside the pass, this file has a small semantics of a list of operations over named
    storage in which an unprotected kernel may overwrite everything resident.  The theorem
    is that the edited list computes, for everything outside the scratchpad, what the
    original list computes on a machine where kernels leave the scratchpad alone. *)

From S2P Require Import Prelude PyDict PlanSolver Liveness CoreMapping CoreViews BufferFacts.

(** ** The pass *)

(** The graph with the addresses committed to [layout.allocation]. *)
Record placed_graph := mkPlaced {
  pg : graph;
  allocation : dict Z
}.

(** What the pass asks of an operation's class and of its overload: a fallback kernel; an
    [OpOverload] registered to run on the CPU; one marked with [mark_lx_safe]. *)
Record kernel_facts := mkKernels {
  is_fallback : operation -> bool;
  is_overload : operation -> bool;
  _is_cpu_only_fallback : operation -> bool;
  _spyre_lx_safe : operation -> bool
}.

Section pass.
Context (K : kernel_facts) (G : placed_graph).
(** The index expression of a clone, the names [register_buffer] gives out, and the
    operation registered under a buffer name. *)
Context (clone_index : string) (fresh : nat -> string) (operation_name : string -> string).

#[local] Notation g := (pg G).

(** [_is_lx_resident]; graph inputs are boxes, not buffers. *)
Definition _is_lx_resident (name : string) : bool :=
  match find_op g name with
  | Some o => match tiled (op_layout o) with Some _ => dmem (allocation G) name | None => false end
  | None => false
  end.

(** The keys of [calculate_liveness(graph)], in order. *)
Definition liveness_keys : list string :=
  fromkeys (dkeys (graph_inputs g) ++ (o ← graph_operations g; dep_name <$> dependencies o)).

(** [uses[0] < fk_idx < uses[-1] + 1] *)
Definition straddles (us : list Z) (fk_idx : Z) : bool :=
  match head us, last us with Some f, Some z => (f <? fk_idx) && (fk_idx <? z + 1) | _, _ => false end.

Definition _at_risk_buffers (fk_idx : Z) (liveness : gmap string (list Z)) : list string :=
  filter (fun name => _is_lx_resident name = true /\ straddles (default [] (liveness !! name)) fk_idx = true) liveness_keys.

(** Kernels that never run a competing program. *)
Definition protected (o : operation) : bool := is_overload K o && (_is_cpu_only_fallback K o || _spyre_lx_safe K o).

Definition single_output (o : operation) : bool := match fallback_outputs o with Some n => (n <=? 1)%nat | None => false end.

Definition _select_bracket_targets : list (operation * list string) :=
  let liveness := calculate_liveness (lowering g) in
  omap (fun io : nat * operation =>
    if negb (is_fallback K io.2) || negb (single_output io.2) || protected io.2 then None
    else match _at_risk_buffers (Z.of_nat io.1) liveness with [] => None | at_risk => Some (io.2, at_risk) end)
    (imap pair (graph_operations g)).

(** A clone with the metadata of [buf]: it reads [src] and is stored as its layout says. *)
Definition clone_of (buf : operation) (src name : string) (l : layout) : operation :=
  let d n := mkDep n true clone_index false (zprod <$> layout_size (op_layout buf)) in
  mkOperation name [d src] [d name] l (Some Pointwise) false false None (loop_info buf) (loop_carry_record buf) (ownership buf) "clone" true
    (Some match l with MutationLayout t _ => [t] | _ => [] end) (Some []).

Definition dump_op (buf : operation) (name : string) : operation := clone_of buf (get_name buf) name (op_layout buf).

Definition restore_op (buf : operation) (dump name : string) : operation :=
  clone_of buf dump name (MutationLayout (get_name buf) (default [] (layout_size (op_layout buf)))).

(** The graph under edit: its operations, the next name, and [additional_buffer_deps]. *)
Record edit := mkEdit {
  ed_ops : list operation;
  ed_next : nat;
  ed_deps : dict (list string)
}.

(** [operations.insert(operations.index(target), x)], and one place further. *)
Fixpoint insert_before (target : string) (x : operation) (ops : list operation) : res (list operation) :=
  match ops with
  | [] => Raise ValueError
  | o :: ops' => if bool_decide (get_name o = target) then Ok (x :: o :: ops')
                 else l ← insert_before target x ops'; Ok (o :: l)
  end.

Fixpoint insert_after (target : string) (x : operation) (ops : list operation) : res (list operation) :=
  match ops with
  | [] => Raise ValueError
  | o :: ops' => if bool_decide (get_name o = target) then Ok (o :: x :: ops')
                 else l ← insert_after target x ops'; Ok (o :: l)
  end.

(** [graph.get_buffer(name)], which the pass asserts to be a [ComputedBuffer]. *)
Definition computed_buffer (name : string) : res operation :=
  match find_op g name with
  | Some o => py_assert (bool_decide (is_Some (computed o)));; Ok o
  | None => Raise KeyError
  end.

Definition dump_buffer (target : string) (name : string) (st : edit * dict string) : res (edit * dict string) :=
  let '(e, dumped) := st in
  buf ← computed_buffer name;
  let dump := fresh (ed_next e) in
  ops ← insert_before target (dump_op buf dump) (ed_ops e);
  Ok (mkEdit ops (S (ed_next e)) (ed_deps e), dset name dump dumped).

Definition _dump_buffers (target : operation) (at_risk : list string) (e : edit) : res (edit * dict string) :=
  for_each (dump_buffer (get_name target)) at_risk (e, []).

Definition restore_buffer (target : string) (dumped : dict string) (name : string) (st : edit * list string) : res (edit * list string) :=
  let '(e, restored) := st in
  dump ← dgetitem dumped name;
  buf ← computed_buffer name;
  let restore := fresh (ed_next e) in
  ops ← insert_after target (restore_op buf dump restore) (ed_ops e);
  Ok (mkEdit ops (S (ed_next e)) (ed_deps e), restored ++ [restore]).

Definition _restore_buffers (target : operation) (at_risk : list string) (dumped : dict string) (e : edit) : res (edit * list string) :=
  for_each (restore_buffer (get_name target) dumped) at_risk (e, []).

(** [graph.additional_buffer_deps[op].add(buffer)] *)
Definition add_dep (op buffer : string) (d : dict (list string)) : dict (list string) :=
  if bool_decide (buffer ∈ dget_or [] d op) then d else append_to op buffer d.

Definition _order_around_bracket (target : operation) (dumps restores : list string) (e : edit) : edit :=
  let d1 := foldl (fun d x => add_dep (operation_name (get_name target)) x d) (ed_deps e) dumps in
  mkEdit (ed_ops e) (ed_next e) (foldl (fun d x => add_dep (operation_name x) (get_name target) d) d1 restores).

Definition bracket (target : operation * list string) (e : edit) : res edit :=
  let '(op, at_risk) := target in
  ed ← _dump_buffers op at_risk e;
  er ← _restore_buffers op at_risk ed.2 ed.1;
  Ok (_order_around_bracket op (dvalues ed.2) er.2 er.1).

(** [LxContextSwitchingPass.apply_pass] *)
Definition apply_pass (enable_lx_context_switching : bool) (next : nat) (deps : dict (list string)) : res edit :=
  let e := mkEdit (graph_operations g) next deps in
  if negb enable_lx_context_switching then Ok e
  else for_each bracket _select_bracket_targets e.
End pass.

(** ** Storage *)

(** Where an operation's result goes: a mutation writes its target. *)
Definition stored (o : operation) : list string :=
  match op_layout o with MutationLayout t _ => [t] | _ => dep_name <$> dep_writes o end.

Section semantics.
Context {V : Type} (value : operation -> string -> list V -> V).

#[local] Notation store := (string -> V).

(** An operation computes what it stores from what it reads. *)
Definition step (s : store) (o : operation) : store :=
  fun n => if bool_decide (n ∈ stored o) then value o n (s <$> (dep_name <$> dep_reads o)) else s n.

Definition exec (s : store) (ops : list operation) : store := foldl step s ops.

Context (K : kernel_facts) (resident : string -> bool).

(** A fallback kernel that is not known to be harmless may leave anything ([junk]) in the
    scratchpad. *)
Definition clobbers (o : operation) : bool := is_fallback K o && negb (protected K o).

Context (junk : operation -> store -> string -> V).

Definition risky_step (s : store) (o : operation) : store :=
  fun n => if clobbers o && resident n then junk o s n else step s o n.

Definition risky_exec (s : store) (ops : list operation) : store := foldl risky_step s ops.

Lemma risky_exec_app s l k : risky_exec s (l ++ k) = risky_exec (risky_exec s l) k.
Proof. apply foldl_app. Qed.

Lemma risky_exec_snoc s l o : risky_exec s (l ++ [o]) = risky_step (risky_exec s l) o.
Proof. by rewrite risky_exec_app. Qed.
End semantics.

(** ** Edited lists *)

(** The operations with those put before and after each. *)
Fixpoint weave (P Q : nat -> list operation) (k : nat) (ops : list operation) : list operation :=
  match ops with
  | [] => []
  | o :: ops' => P k ++ o :: Q k ++ weave P Q (S k) ops'
  end.

Definition upd {A} (f : nat -> A) (i : nat) (x : A) : nat -> A := fun j => if decide (j = i) then x else f j.

Lemma weave_ext P Q P' Q' ops : forall k, (forall j, (k <= j)%nat -> P j = P' j /\ Q j = Q' j) -> weave P Q k ops = weave P' Q' k ops.
Proof.
  induction ops as [|o ops IH]; intros k H; [done|]. cbn. destruct (H k) as [-> ->]; [lia|]. do 3 f_equal. apply IH. intros j Hj. apply H. lia.
Qed.

Lemma weave_nil ops : forall k, weave (fun _ => []) (fun _ => []) k ops = ops.
Proof. induction ops as [|o ops IH]; intros k; [done|]. cbn. by rewrite IH. Qed.

Lemma insert_before_skip target x l rest : (forall y, y ∈ l -> get_name y <> target) ->
  insert_before target x (l ++ rest) = (r ← insert_before target x rest; Ok (l ++ r)).
Proof.
  induction l as [|y l IH]; intros H; cbn; [by destruct (insert_before target x rest)|].
  rewrite bool_decide_eq_false_2 by (apply H; list_mem). rewrite IH by (intros z Hz; apply H; by right). by destruct (insert_before target x rest).
Qed.

Lemma insert_after_skip target x l rest : (forall y, y ∈ l -> get_name y <> target) ->
  insert_after target x (l ++ rest) = (r ← insert_after target x rest; Ok (l ++ r)).
Proof.
  induction l as [|y l IH]; intros H; cbn; [by destruct (insert_after target x rest)|].
  rewrite bool_decide_eq_false_2 by (apply H; list_mem). rewrite IH by (intros z Hz; apply H; by right). by destruct (insert_after target x rest).
Qed.

Section weaving.
Context (P Q : nat -> list operation) (o x : operation).
Context (HP : forall j y, y ∈ P j -> get_name y <> get_name o) (HQ : forall j y, y ∈ Q j -> get_name y <> get_name o).

Lemma insert_before_weave ops : forall k i, ops !! i = Some o -> (forall j y, ops !! j = Some y -> get_name y = get_name o -> j = i) ->
  insert_before (get_name o) x (weave P Q k ops) = Ok (weave (upd P (k + i) (P (k + i)%nat ++ [x])) Q k ops).
Proof.
  induction ops as [|y ops IH]; intros k i Hi Hu; [done|]. cbn [weave]. rewrite insert_before_skip by apply HP. destruct i as [|i].
  - injection Hi as ->. cbn. rewrite bool_decide_eq_true_2 by done. cbn. rewrite Nat.add_0_r. f_equal. unfold upd at 1. rewrite decide_True by done.
    rewrite <- app_assoc. cbn. do 4 f_equal. apply weave_ext. intros j Hj. unfold upd. by rewrite decide_False by lia.
  - cbn. rewrite bool_decide_eq_false_2 by (intros E; specialize (Hu 0%nat y eq_refl E); lia).
    rewrite insert_before_skip by apply HQ. rewrite (IH (S k) i); [| done | intros j z Hj Hz; specialize (Hu (S j) z Hj Hz); lia].
    cbn. replace (S (k + i)) with (k + S i)%nat by lia. f_equal. unfold upd at 2. by rewrite decide_False by lia.
Qed.

Lemma insert_after_weave ops : forall k i, ops !! i = Some o -> (forall j y, ops !! j = Some y -> get_name y = get_name o -> j = i) ->
  insert_after (get_name o) x (weave P Q k ops) = Ok (weave P (upd Q (k + i) (x :: Q (k + i)%nat)) k ops).
Proof.
  induction ops as [|y ops IH]; intros k i Hi Hu; [done|]. cbn [weave]. rewrite insert_after_skip by apply HP. destruct i as [|i].
  - injection Hi as ->. cbn. rewrite bool_decide_eq_true_2 by done. cbn. rewrite Nat.add_0_r. f_equal. unfold upd at 1. rewrite decide_True by done.
    cbn. do 4 f_equal. apply weave_ext. intros j Hj. unfold upd. by rewrite decide_False by lia.
  - cbn. rewrite bool_decide_eq_false_2 by (intros E; specialize (Hu 0%nat y eq_refl E); lia).
    rewrite insert_after_skip by apply HQ. rewrite (IH (S k) i); [| done | intros j z Hj Hz; specialize (Hu (S j) z Hj Hz); lia].
    cbn. replace (S (k + i)) with (k + S i)%nat by lia. f_equal. unfold upd at 2. by rewrite decide_False by lia.
Qed.
End weaving.

(** ** What the pass inserts *)

(** A saved buffer: its operation, the copy in HBM and the operation that copies it back. *)
Record saved := mkSaved {
  sv_buf : operation;
  sv_dump : string;
  sv_restore : string
}.

Section structure.
Context (K : kernel_facts) (G : placed_graph) (clone_index : string) (fresh : nat -> string) (operation_name : string -> string).

#[local] Notation g := (pg G).
#[local] Notation ops := (graph_operations g).

Context (Hnames : NoDup (get_name <$> ops)) (Hfresh : forall i, fresh i ∉ (get_name <$> ops)).
Context (Hcomputed : forall n o, _is_lx_resident G n = true -> find_op g n = Some o -> is_Some (computed o)).

Definition dump_of (s : saved) : operation := dump_op clone_index (sv_buf s) (sv_dump s).
Definition restore_of (s : saved) : operation := restore_op clone_index (sv_buf s) (sv_dump s) (sv_restore s).

(** The names a bracket takes: first the dumps, then the restores. *)
Definition saving (next : nat) (bufs : list operation) : list saved :=
  imap (fun j b => mkSaved b (fresh (next + j)) (fresh (next + length bufs + j))) bufs.

Lemma saving_bufs n bufs : (fun x => get_name (sv_buf x)) <$> saving n bufs = get_name <$> bufs.
Proof. unfold saving. rewrite fmap_imap. exact (imap_const get_name bufs). Qed.

Lemma saving_dumps n bufs : sv_dump <$> saving n bufs = (fun j => fresh (n + j)) <$> seq 0 (length bufs).
Proof. unfold saving. rewrite fmap_imap. exact (imap_seq_0 bufs (fun j => fresh (n + j)%nat)). Qed.

Lemma unique_op i j (o y : operation) : ops !! i = Some o -> ops !! j = Some y -> get_name y = get_name o -> j = i.
Proof.
  intros Hi Hj E. apply (NoDup_lookup _ _ _ (get_name o) Hnames); rewrite list_lookup_fmap; [rewrite Hj; cbn; congruence | by rewrite Hi].
Qed.

Lemma fresh_not i (o : operation) k : ops !! k = Some o -> fresh i <> get_name o.
Proof. intros Hk E. apply (Hfresh i). rewrite E. apply list_elem_of_fmap_2. by eapply list_elem_of_lookup_2. Qed.

(** Every inserted operation has a fresh name. *)
Definition fresh_named (P : nat -> list operation) : Prop := forall j y, y ∈ P j -> exists i, get_name y = fresh i.

Lemma dump_buffers_Ok P Q i (o : operation) bufs n deps :
  ops !! i = Some o -> fresh_named P -> fresh_named Q ->
  (forall b, b ∈ bufs -> computed_buffer G (get_name b) = Ok b) -> NoDup (get_name <$> bufs) ->
  _dump_buffers G clone_index fresh o (get_name <$> bufs) (mkEdit (weave P Q 0 ops) n deps) =
  Ok (mkEdit (weave (upd P i (P i ++ imap (fun j b => dump_op clone_index b (fresh (n + j))) bufs)) Q 0 ops) (n + length bufs) deps,
      imap (fun j b => (get_name b, fresh (n + j))) bufs).
Proof.
  intros Hi HP HQ Hb Hnd. unfold _dump_buffers. induction bufs as [|b bufs IH] using rev_ind.
  { cbn. rewrite app_nil_r, Nat.add_0_r. do 3 f_equal. apply weave_ext. intros j _. unfold upd. split; [|done]. case_decide; by subst. }
  rewrite fmap_app in *. apply NoDup_app in Hnd as (Hnd & Hd & _). rewrite for_each_app, IH; [|intros c Hc; apply Hb; list_mem | done].
  cbn [fmap list_fmap for_each mbind res_bind dump_buffer]. rewrite (Hb b) by list_mem. cbn [mbind res_bind ed_ops ed_next ed_deps].
  rewrite (insert_before_weave _ _ o) with (i := i); [| | |done|].
  - cbn [mbind res_bind]. rewrite !imap_app, length_app. cbn. rewrite !Nat.add_0_r. f_equal. f_equal; [f_equal|].
    + apply weave_ext. intros j _. unfold upd. cbn. split; [|done]. case_decide; [|done]. rewrite decide_True by done. by rewrite app_assoc.
    + lia.
    + apply dset_new. intros (x & E & Hx)%list_elem_of_fmap. apply elem_of_lookup_imap in Hx as (j & c & -> & Hc). cbn in E.
      apply (Hd (get_name b)); [|by left]. rewrite E. apply list_elem_of_fmap_2. by eapply list_elem_of_lookup_2.
  - intros j y. unfold upd. case_decide; [|intros (k & ->)%HP; by eapply fresh_not].
    intros [(k & ->)%HP | Hy]%elem_of_app; [by eapply fresh_not|]. apply elem_of_lookup_imap in Hy as (k & c & -> & _). by eapply fresh_not.
  - intros j y (k & ->)%HQ. by eapply fresh_not.
  - intros j y Hj E. by eapply unique_op.
Qed.

Lemma restore_buffers_Ok P Q i (o : operation) bufs n deps dumped (D : nat -> string) :
  ops !! i = Some o -> fresh_named P -> fresh_named Q ->
  (forall b, b ∈ bufs -> computed_buffer G (get_name b) = Ok b) ->
  (forall j b, bufs !! j = Some b -> dget dumped (get_name b) = Some (D j)) ->
  _restore_buffers G clone_index fresh o (get_name <$> bufs) dumped (mkEdit (weave P Q 0 ops) n deps) =
  Ok (mkEdit (weave P (upd Q i (reverse (imap (fun j b => restore_op clone_index b (D j) (fresh (n + j))) bufs) ++ Q i)) 0 ops)
        (n + length bufs) deps, imap (fun j _ => fresh (n + j)) bufs).
Proof.
  intros Hi HP HQ Hb Hd. unfold _restore_buffers. induction bufs as [|b bufs IH] using rev_ind.
  { cbn. rewrite Nat.add_0_r. do 3 f_equal. apply weave_ext. intros j _. unfold upd. split; [done|]. case_decide; by subst. }
  rewrite fmap_app, for_each_app, IH; [|intros c Hc; apply Hb; list_mem | intros j c Hj; apply Hd; by apply lookup_app_l_Some].
  cbn [fmap list_fmap for_each mbind res_bind restore_buffer]. unfold dgetitem. rewrite (Hd (length bufs) b) by (by apply list_lookup_middle).
  cbn [mbind res_bind]. rewrite (Hb b) by list_mem. cbn [mbind res_bind ed_ops ed_next ed_deps].
  rewrite (insert_after_weave _ _ o) with (i := i); [| | |done|].
  - cbn [mbind res_bind]. rewrite !imap_app, length_app. cbn. rewrite !Nat.add_0_r. rewrite Nat.add_succ_r, Nat.add_0_r.
    do 3 f_equal; [|lia]. apply weave_ext. intros j _. unfold upd. cbn. split; [done|]. case_decide; [|done]. rewrite decide_True by done.
    by rewrite reverse_app.
  - intros j y (k & ->)%HP. by eapply fresh_not.
  - intros j y. unfold upd. case_decide; [|intros (k & ->)%HQ; by eapply fresh_not].
    intros [Hy | (k & ->)%HQ]%elem_of_app; [|by eapply fresh_not]. rewrite elem_of_reverse in Hy.
    apply elem_of_lookup_imap in Hy as (k & c & -> & _). by eapply fresh_not.
  - intros j y Hj E. by eapply unique_op.
Qed.

(** One bracket around the operation at [i]. *)
Lemma bracket_Ok P Q i (o : operation) bufs n deps :
  ops !! i = Some o -> fresh_named P -> fresh_named Q -> P i = [] -> Q i = [] ->
  (forall b, b ∈ bufs -> computed_buffer G (get_name b) = Ok b) -> NoDup (get_name <$> bufs) ->
  exists deps', bracket G clone_index fresh operation_name (o, get_name <$> bufs) (mkEdit (weave P Q 0 ops) n deps) =
    Ok (mkEdit (weave (upd P i (dump_of <$> saving n bufs)) (upd Q i (reverse (restore_of <$> saving n bufs))) 0 ops)
          (n + length bufs + length bufs) deps').
Proof.
  intros Hi HP HQ Pi Qi Hb Hnd. unfold bracket. rewrite (dump_buffers_Ok P Q i) by done. cbn [mbind res_bind fst snd]. rewrite Pi. cbn [app].
  assert (fresh_named (upd P i (imap (fun j b => dump_op clone_index b (fresh (n + j))) bufs))) as HP'.
  { intros j y. unfold upd. case_decide; [|apply HP]. intros (k & c & -> & _)%elem_of_lookup_imap. by exists (n + k)%nat. }
  rewrite (restore_buffers_Ok _ Q i o bufs (n + length bufs) deps _ (fun j => fresh (n + j))); try done.
  - cbn [mbind res_bind fst snd]. rewrite Qi, app_nil_r. unfold _order_around_bracket. cbn [ed_ops ed_next ed_deps]. eexists. do 2 f_equal.
    apply weave_ext. intros j _. unfold upd, saving. rewrite !fmap_imap. by split.
  - intros j b Hj. apply dget_NoDup.
    + unfold dkeys. rewrite fmap_imap. replace (imap _ bufs) with (get_name <$> bufs); [done|]. clear.
      rewrite <- (imap_const get_name). done.
    + by apply (elem_of_lookup_imap_2 (fun j b => (get_name b, fresh (n + j)%nat)) bufs b j).
Qed.

(** ** The whole pass *)

(** The buffers to save around the operation at [k]. *)
Definition at_risk_at (k : nat) (o : operation) : list string :=
  if negb (is_fallback K o) || negb (single_output o) || protected K o then []
  else _at_risk_buffers G (Z.of_nat k) (calculate_liveness (lowering g)).

Lemma for_each_omap {A B S} (f : A -> option B) (body : B -> S -> res S) l : forall s,
  for_each body (omap f l) s = for_each (fun x s => match f x with Some y => body y s | None => Ok s end) l s.
Proof.
  induction l as [|x l IH]; intros s; [done|]. cbn. destruct (f x) as [y|]; cbn; [destruct (body y s); cbn; [apply IH | done] | apply IH].
Qed.

Lemma at_risk_bufs k (o : operation) : exists bufs, at_risk_at k o = get_name <$> bufs /\ NoDup (get_name <$> bufs) /\
  (forall b, b ∈ bufs -> computed_buffer G (get_name b) = Ok b /\ is_Some (tiled (op_layout b))).
Proof.
  assert (NoDup (at_risk_at k o)) as Hnd.
  { unfold at_risk_at. destruct (_ || _); [constructor|]. apply NoDup_filter. apply fromkeys_spec. }
  assert (forall n, n ∈ at_risk_at k o -> _is_lx_resident G n = true) as Hres.
  { unfold at_risk_at. destruct (_ || _); [by intros n ?%elem_of_nil|]. by intros n [[? _] _]%list_elem_of_filter. }
  assert (forall l : list string, (forall n, n ∈ l -> _is_lx_resident G n = true) -> exists bufs : list operation, l = get_name <$> bufs /\
    (forall b, b ∈ bufs -> computed_buffer G (get_name b) = Ok b /\ is_Some (tiled (op_layout b)))) as Hgen.
  { induction l as [|n l IH]; intros Hl; [exists []; split; [done | by intros b ?%elem_of_nil]|].
    destruct IH as (bufs & -> & Hb); [intros m Hm; apply Hl; by right|].
    assert (_is_lx_resident G n = true) as Hn by (apply Hl; list_mem). pose proof Hn as Hn'. unfold _is_lx_resident in Hn'.
    destruct (find_op g n) as [b|] eqn:Eb; [|done]. pose proof (Hcomputed n b Hn Eb) as Hc.
    assert (get_name b = n) as <-.
    { unfold find_op in Eb. destruct (list_find _ _) as [[j b']|] eqn:El; [|done]. injection Eb as ->. by apply list_find_Some in El as (_ & ? & _). }
    exists (b :: bufs). split; [done|]. intros c [-> | Hin]%elem_of_cons; [|by apply Hb]. unfold computed_buffer. rewrite Eb.
    rewrite bool_decide_eq_true_2 by done. split; [done|]. by destruct (tiled (op_layout b)). }
  destruct (Hgen _ Hres) as (bufs & E & Hb). exists bufs. by rewrite E in Hnd.
Qed.

Definition woven (B : nat -> list saved) : list operation :=
  weave (fun k => dump_of <$> B k) (fun k => reverse (restore_of <$> B k)) 0 ops.

(** What is saved around the operation at [k]: exactly the buffers at risk, under new names. *)
Definition saves (k : nat) (o : operation) (l : list saved) : Prop :=
  exists n bufs, l = saving n bufs /\ at_risk_at k o = get_name <$> bufs /\ NoDup (get_name <$> bufs) /\
    forall b, b ∈ bufs -> is_Some (tiled (op_layout b)).

Lemma saving_fresh B : (forall k, B k = [] \/ exists n bufs, B k = saving n bufs) ->
  fresh_named (fun k => dump_of <$> B k) /\ fresh_named (fun k => reverse (restore_of <$> B k)).
Proof.
  intros H. split; intros k y; [|rewrite elem_of_reverse]; intros (s & -> & Hs)%list_elem_of_fmap;
    (destruct (H k) as [E | (n & bufs & E)]; rewrite E in Hs; [by apply elem_of_nil in Hs|]);
    apply elem_of_lookup_imap in Hs as (j & b & -> & _); by eexists.
Qed.

Lemma apply_pass_Ok next deps : exists e B, apply_pass K G clone_index fresh operation_name true next deps = Ok e /\ ed_ops e = woven B /\
  forall k o, ops !! k = Some o -> saves k o (B k).
Proof.
  unfold apply_pass, _select_bracket_targets. cbn [negb]. rewrite for_each_omap.
  match goal with |- context [for_each ?b _ _] => set (body := b) end.
  destruct (for_each_total body (fun dn e => exists B, ed_ops e = woven B /\ (forall k, (length dn <= k)%nat -> B k = []) /\
    forall k o, ops !! k = Some o -> (k < length dn)%nat -> saves k o (B k)) (imap pair ops) (mkEdit ops next deps)) as (e & Hrun & B & HB & _ & HS).
  - intros dn [i o] rest [eops n d] Hl (B & HB & HN & HS).
    assert (i = length dn /\ ops !! i = Some o) as [-> Hi].
    { assert (imap pair ops !! length dn = Some (i, o)) as Hlk by (rewrite Hl; by apply list_lookup_middle).
      rewrite list_lookup_imap in Hlk. destruct (ops !! length dn) eqn:E; [|done]. injection Hlk as <- <-. done. }
    set (i := length dn) in *. destruct (at_risk_bufs i o) as (bufs & Ebufs & Hnd & Hb).
    assert (body (i, o) (mkEdit eops n d) = match at_risk_at i o with [] => Ok (mkEdit eops n d) | l => bracket G clone_index fresh operation_name (o, l) (mkEdit eops n d) end) as ->.
    { unfold body, at_risk_at. cbn [fst snd]. destruct (_ || _); [done|]. by destruct (_at_risk_buffers G (Z.of_nat i) _). }
    cbn in HB. subst eops.
    assert (forall B', (forall k, (i <= k)%nat -> k <> i -> B' k = []) -> (forall k, (k < i)%nat -> B' k = B k) -> saves i o (B' i) ->
      (forall k, (length (dn ++ [(i, o)]) <= k)%nat -> B' k = []) /\ forall k o', ops !! k = Some o' -> (k < length (dn ++ [(i, o)]))%nat -> saves k o' (B' k)) as Hext.
    { intros B' H1 H2 H3. rewrite length_app. cbn. fold i. split; [intros k Hk; apply H1; lia|]. intros k o' Hk Hlt.
      destruct (decide (k = i)) as [->|]; [by rewrite Hi in Hk; injection Hk as <-|]. rewrite H2 by lia. apply HS; [done | lia]. }
    destruct (at_risk_at i o) as [|n0 l] eqn:Er.
    + eexists. split; [done|]. exists B. cbn. split; [done|]. apply Hext; [intros k Hk _; by apply HN | done|].
      rewrite HN by done. exists 0%nat, []. rewrite Er. split_and!; [done | done | constructor | by intros b ?%elem_of_nil].
    + rewrite Ebufs. destruct (saving_fresh B) as [HP HQ].
      { intros k. destruct (decide (k < i)%nat) as [Hk|Hk]; [|left; apply HN; lia]. destruct (ops !! k) as [o'|] eqn:Ek.
        - destruct (HS k o' Ek Hk) as (m & bs & E & _). right. by exists m, bs.
        - apply lookup_ge_None in Ek. apply lookup_lt_Some in Hi. lia. }
      destruct (bracket_Ok (fun k => dump_of <$> B k) (fun k => reverse (restore_of <$> B k)) i o bufs n d) as (d' & Hbr); try done;
        [by rewrite HN by done | by rewrite HN by done | intros b Hin; by apply Hb|].
      unfold woven in Hbr |- *. rewrite Hbr. eexists. split; [done|]. exists (upd B i (saving n bufs)). cbn. split.
      * apply weave_ext. intros j _. unfold upd. by case_decide.
      * apply Hext; [intros k Hk Hne; unfold upd; rewrite decide_False by done; by apply HN | intros k Hk; unfold upd; by rewrite decide_False by lia|].
        unfold upd. rewrite decide_True by done. exists n, bufs. rewrite Er. split_and!; [done | done | done | intros b Hin; by apply Hb].
  - exists (fun _ => []). cbn. split; [|split; [done | intros; lia]]. unfold woven. cbn. symmetry. apply weave_nil.
  - exists e, B. split_and!; [done | done|]. intros k o Hk. apply HS; [done|]. rewrite length_imap. by eapply lookup_lt_Some.
Qed.
End structure.
