(* ===== verification/ContextSwitchSafe.v ===== *)
(** * Bracketed kernels do no harm

    The simulation between the original operations on a machine where kernels leave the
    scratchpad alone and the edited operations on one where they do not: before every
    operation the two stores agree on what is not resident and on what is resident and
    live there. *)

From S2P Require Import Prelude PyDict PlanSolver Liveness CoreMapping CoreViews BufferFacts AllocatorBuffers ContextSwitch.

Section safe.
Context {V : Type} (value : operation -> string -> list V -> V) (junk : operation -> (string -> V) -> string -> V).
Context (K : kernel_facts) (G : placed_graph) (clone_index : string) (fresh : nat -> string).

#[local] Notation g := (pg G).
#[local] Notation ops := (graph_operations g).
#[local] Notation lw := (lowering g).
#[local] Notation resident := (_is_lx_resident G).

Definition read_names (o : operation) : list string := dep_name <$> dep_reads o.

(** What the residency rules promise of the buffers that were placed. *)
Record protected_residents : Prop := {
  pr_computed : forall n o, resident n = true -> find_op g n = Some o -> is_Some (computed o);
  (** the first access is the producer's write *)
  pr_born : forall n k o, resident n = true -> ops !! k = Some o -> head (access_indices lw n) = Some (Z.of_nat k) ->
    n ∈ stored o /\ n ∉ read_names o;
  (** no kernel that may clobber the scratchpad touches it *)
  pr_device : forall n o, resident n = true -> o ∈ ops -> clobbers K o = true -> n ∉ accesses (lower_op o);
  (** every store to it is an access liveness sees *)
  pr_fixed : forall n o, resident n = true -> o ∈ ops -> n ∈ stored o -> n ∈ accesses (lower_op o);
  (** it is not live across a kernel the pass leaves alone *)
  pr_alone : forall n k o, resident n = true -> ops !! k = Some o -> clobbers K o = true -> single_output o = false ->
    straddles (access_indices lw n) (Z.of_nat k) = false
}.

(** Names [register_buffer] has not given out yet. *)
Record unused_names : Prop := {
  un_distinct : forall i j, fresh i = fresh j -> i = j;
  un_names : forall i, fresh i ∉ (get_name <$> ops);
  un_accesses : forall i o, o ∈ ops -> fresh i ∉ read_names o /\ fresh i ∉ stored o
}.

Context (Hres : protected_residents) (Hun : unused_names).
(** A clone copies, and a fallback kernel is an extern kernel. *)
Context (Hclone : forall o n v, short_name o = "clone"%string -> value o n [v] = v).
Context (Hextern : forall o, is_fallback K o = true -> extern_kernel o = true).

#[local] Notation run := (risky_exec value K resident junk).
#[local] Notation risky := (risky_step value K resident junk).

Lemma fresh_not_resident i : resident (fresh i) = false.
Proof.
  unfold _is_lx_resident. destruct (find_op g (fresh i)) as [o|] eqn:E; [|done]. apply find_op_Some in E as [Ho En].
  destruct (un_names Hun i). rewrite <- En. by apply list_elem_of_fmap_2.
Qed.

(** ** Saving and restoring *)

Lemma clone_step s buf src name l n :
  risky s (clone_of clone_index buf src name l) n = if bool_decide (n ∈ stored (clone_of clone_index buf src name l)) then s src else s n.
Proof.
  unfold risky_step, clobbers, step. destruct (is_fallback K _) eqn:E; [apply Hextern in E; done|]. cbn [andb].
  case_bool_decide; [|done]. by apply Hclone.
Qed.

(** Copies and the buffers they save are different names. *)
Record separate (l : list saved) : Prop := {
  se_dumps : NoDup (sv_dump <$> l);
  se_bufs : NoDup ((fun s => get_name (sv_buf s)) <$> l);
  se_apart : forall n, n ∈ (sv_dump <$> l) -> n ∉ ((fun s => get_name (sv_buf s)) <$> l);
  se_tiled : forall s, s ∈ l -> is_Some (tiled (op_layout (sv_buf s)))
}.

Lemma separate_snoc l x : separate (l ++ [x]) -> separate l /\ sv_dump x ∉ (sv_dump <$> l) /\
  get_name (sv_buf x) ∉ ((fun s => get_name (sv_buf s)) <$> l) /\ get_name (sv_buf x) ∉ (sv_dump <$> l) /\
  sv_dump x ∉ ((fun s => get_name (sv_buf s)) <$> l) /\ sv_dump x <> get_name (sv_buf x).
Proof.
  intros [S1 S2 S3 S4]. rewrite !fmap_app in *. apply NoDup_app in S1 as (S1 & N1 & _). apply NoDup_app in S2 as (S2 & N2 & _).
  setoid_rewrite elem_of_app in S3. cbn [fmap list_fmap] in *. split_and!.
  - split; [done | done | intros n Hn Hb; apply (S3 n); auto | intros s Hs; apply S4; list_mem].
  - intros Hin. apply (N1 _ Hin). by left.
  - intros Hin. apply (N2 _ Hin). by left.
  - intros Hin. apply (S3 (get_name (sv_buf x))); [by left | right; by left].
  - intros Hin. apply (S3 (sv_dump x)); [right; by left | by left].
  - intros E. apply (S3 (sv_dump x)); [right; by left|]. right. rewrite E. by left.
Qed.

Lemma separate_reverse l : separate l -> separate (reverse l).
Proof.
  intros [S1 S2 S3 S4]. split.
  - by rewrite fmap_reverse, reverse_Permutation.
  - by rewrite fmap_reverse, reverse_Permutation.
  - intros n. rewrite !fmap_reverse, !elem_of_reverse. apply S3.
  - intros s Hs. apply S4. by apply elem_of_reverse.
Qed.

Lemma stored_dump x : is_Some (tiled (op_layout (sv_buf x))) -> stored (dump_of clone_index x) = [sv_dump x].
Proof. unfold stored, dump_of, dump_op, clone_of. cbn. by destruct (op_layout (sv_buf x)) => -[? ?]. Qed.

Lemma dump_step s x n : is_Some (tiled (op_layout (sv_buf x))) ->
  risky s (dump_of clone_index x) n = if bool_decide (n = sv_dump x) then s (get_name (sv_buf x)) else s n.
Proof.
  intros Ht. pose proof (stored_dump x Ht) as E. unfold dump_of, dump_op in *. rewrite clone_step, E.
  by rewrite (bool_decide_ext _ (n = sv_dump x)) by apply list_elem_of_singleton.
Qed.

Lemma restore_step s x n :
  risky s (restore_of clone_index x) n = if bool_decide (n = get_name (sv_buf x)) then s (sv_dump x) else s n.
Proof.
  unfold restore_of, restore_op. rewrite clone_step. by rewrite (bool_decide_ext _ (n = get_name (sv_buf x))) by apply list_elem_of_singleton.
Qed.

Lemma dumps_run l s : separate l ->
  (forall n, n ∉ (sv_dump <$> l) -> run s (dump_of clone_index <$> l) n = s n) /\
  (forall x, x ∈ l -> run s (dump_of clone_index <$> l) (sv_dump x) = s (get_name (sv_buf x))).
Proof.
  induction l as [|x l IH] using rev_ind; intros Hs; [split; [done | by intros x ?%elem_of_nil]|].
  destruct (separate_snoc _ _ Hs) as (Hl & H1 & _ & H3 & _ & _). destruct (IH Hl) as [IH1 IH2].
  assert (is_Some (tiled (op_layout (sv_buf x)))) as Ht by (apply (se_tiled _ Hs); list_mem).
  assert (forall n, run s (dump_of clone_index <$> (l ++ [x])) n =
    if bool_decide (n = sv_dump x) then s (get_name (sv_buf x)) else run s (dump_of clone_index <$> l) n) as Hrun.
  { intros n. rewrite fmap_app. cbn [fmap list_fmap]. rewrite risky_exec_snoc. rewrite dump_step by done. case_bool_decide; [by apply IH1 | done]. }
  split.
  - intros n Hn. rewrite (fmap_app _ l [x]), elem_of_app in Hn. cbn [fmap list_fmap] in Hn. rewrite list_elem_of_singleton in Hn. rewrite Hrun, bool_decide_eq_false_2 by tauto. apply IH1. tauto.
  - intros y Hy. rewrite Hrun. case_bool_decide as E.
    + apply elem_of_app in Hy as [Hy | ->%list_elem_of_singleton]; [|done]. destruct H1. rewrite <- E. by apply list_elem_of_fmap_2.
    + apply elem_of_app in Hy as [Hy | ->%list_elem_of_singleton]; [by apply IH2 | done].
Qed.

Lemma restores_run l s : separate l ->
  (forall n, n ∉ ((fun x => get_name (sv_buf x)) <$> l) -> run s (restore_of clone_index <$> l) n = s n) /\
  (forall x, x ∈ l -> run s (restore_of clone_index <$> l) (get_name (sv_buf x)) = s (sv_dump x)).
Proof.
  induction l as [|x l IH] using rev_ind; intros Hs; [split; [done | by intros x ?%elem_of_nil]|].
  destruct (separate_snoc _ _ Hs) as (Hl & _ & H2 & _ & H4 & _). destruct (IH Hl) as [IH1 IH2].
  assert (forall n, run s (restore_of clone_index <$> (l ++ [x])) n =
    if bool_decide (n = get_name (sv_buf x)) then s (sv_dump x) else run s (restore_of clone_index <$> l) n) as Hrun.
  { intros n. rewrite fmap_app. cbn [fmap list_fmap]. rewrite risky_exec_snoc. rewrite restore_step. case_bool_decide; [by apply IH1 | done]. }
  split.
  - intros n Hn. rewrite (fmap_app _ l [x]), elem_of_app in Hn. cbn [fmap list_fmap] in Hn. rewrite list_elem_of_singleton in Hn. rewrite Hrun, bool_decide_eq_false_2 by tauto. apply IH1. tauto.
  - intros y Hy. rewrite Hrun. case_bool_decide as E.
    + apply elem_of_app in Hy as [Hy | ->%list_elem_of_singleton]; [|done]. destruct H2. rewrite <- E.
      by apply (list_elem_of_fmap_2 (fun x => get_name (sv_buf x))).
    + apply elem_of_app in Hy as [Hy | ->%list_elem_of_singleton]; [by apply IH2 | done].
Qed.

(** ** The simulation *)

(** Before the operation at [k] the stores agree on what is not resident or is live. *)
Definition agree (k : nat) (t s : string -> V) : Prop :=
  forall n, (forall i, n <> fresh i) -> resident n = false \/ straddles (access_indices lw n) (Z.of_nat k) = true -> t n = s n.

Lemma accessed_at k o n : ops !! k = Some o -> n ∈ accesses (lower_op o) <-> Z.of_nat k ∈ access_indices lw n.
Proof.
  intros Hk. unfold access_indices. rewrite elem_of_indices. cbn [lowering operations]. split.
  - intros Hn. exists k, (lower_op o). by rewrite list_lookup_fmap, Hk.
  - intros (k' & o' & E & Hk' & Hn). apply Nat2Z.inj in E as <-. rewrite list_lookup_fmap, Hk in Hk'. injection Hk' as <-. done.
Qed.

Lemma straddles_spec us k : straddles us k = true <-> exists f z, head us = Some f /\ last us = Some z /\ f < k <= z.
Proof.
  unfold straddles. destruct (head us) as [f|], (last us) as [z|]; split; try done; try (by intros (? & ? & ? & ? & _)).
  - intros H. exists f, z. split_and!; [done | done | lia..].
  - intros (? & ? & [= <-] & [= <-] & ?). lia.
Qed.

(** A resident that is accessed at [k], and not born there, is live there. *)
Lemma access_live n k o : resident n = true -> ops !! k = Some o -> n ∈ accesses (lower_op o) -> n ∉ stored o \/ n ∈ read_names o ->
  straddles (access_indices lw n) (Z.of_nat k) = true.
Proof.
  intros Hr Hk Ha Hnb. apply (accessed_at k o n Hk) in Ha as Hin.
  destruct (accessed_bounds (fun op => n ∈ accesses op) lw k (lower_op o)) as (f & z & Hf & Hz & ? & ?);
    [cbn; by rewrite list_lookup_fmap, Hk | done|]. fold (access_indices lw n) in Hf, Hz.
  apply straddles_spec. exists f, z. split_and!; [done | done | | lia]. destruct (Z.eq_dec f (Z.of_nat k)) as [->|]; [|lia].
  destruct (pr_born Hres n k o Hr Hk Hf) as [H1 H2]. destruct Hnb; contradiction.
Qed.

Lemma read_accessed o n : n ∈ read_names o -> n ∈ accesses (lower_op o).
Proof. intros H. unfold accesses. cbn. apply elem_of_app. by left. Qed.

(** The next tick: live after [k] without being born at [k] means live at [k]. *)
Lemma live_before n k o : resident n = true -> ops !! k = Some o -> n ∉ stored o ->
  straddles (access_indices lw n) (Z.of_nat (S k)) = true -> straddles (access_indices lw n) (Z.of_nat k) = true.
Proof.
  intros Hr Hk Hns Hl. apply straddles_spec in Hl as (f & z & Hf & Hz & Hfz). apply straddles_spec. exists f, z.
  split_and!; [done | done | | lia]. destruct (Z.eq_dec f (Z.of_nat k)) as [->|]; [|lia]. by destruct (pr_born Hres n k o Hr Hk Hf).
Qed.

Section one.
Context (k : nat) (o : operation) (l : list saved) (t s : string -> V).
Context (Hk : ops !! k = Some o) (Hsaves : saves K G fresh k o l) (Hagree : agree k t s).

Lemma op_here : o ∈ ops.
Proof. by eapply list_elem_of_lookup_2. Qed.

Lemma saved_at_risk n : n ∈ ((fun x => get_name (sv_buf x)) <$> l) <-> n ∈ at_risk_at K G k o.
Proof.
  destruct Hsaves as (m & bufs & -> & -> & _). by rewrite saving_bufs.
Qed.

Lemma at_risk_spec n : n ∈ at_risk_at K G k o -> resident n = true /\ straddles (access_indices lw n) (Z.of_nat k) = true.
Proof.
  unfold at_risk_at. destruct (_ || _); [by intros ?%elem_of_nil|]. intros [[Hr Hs] _]%list_elem_of_filter. split; [done|].
  rewrite calculate_liveness_lookup in Hs. by case_decide.
Qed.

Lemma saved_separate : separate l.
Proof.
  pose proof saved_at_risk as Hrisk. destruct Hsaves as (m & bufs & E & Hb & Hnd & Ht).
  pose proof (saving_bufs fresh m bufs) as El. pose proof (saving_dumps fresh m bufs) as Ed. rewrite <- E in El, Ed.
  split.
  - rewrite Ed. apply NoDup_fmap_2_strong; [|apply NoDup_seq]. intros i j _ _ Eij. apply (un_distinct Hun) in Eij. lia.
  - by rewrite El.
  - rewrite Ed. intros n (j & -> & _)%list_elem_of_fmap [Hr _]%Hrisk%at_risk_spec. by rewrite fresh_not_resident in Hr.
  - intros x Hx. subst l. apply elem_of_lookup_imap in Hx as (j & b & -> & Hj). apply Ht. by eapply list_elem_of_lookup_2.
Qed.

Lemma dump_fresh x : x ∈ l -> exists i, sv_dump x = fresh i.
Proof. destruct Hsaves as (m & bufs & -> & _). intros (j & b & -> & _)%elem_of_lookup_imap. by exists (m + j)%nat. Qed.

#[local] Notation t1 := (run t (dump_of clone_index <$> l)).

Lemma before_kept n : (forall i, n <> fresh i) -> t1 n = t n.
Proof.
  intros Hn. destruct (dumps_run l t saved_separate) as [H _]. apply H. intros (x & -> & Hx)%list_elem_of_fmap.
  destruct (dump_fresh x Hx) as [i Ei]. by apply (Hn i).
Qed.

(** The operation reads the same values in both runs. *)
Lemma same_reads : t1 <$> read_names o = s <$> read_names o.
Proof.
  apply list_fmap_ext. intros j n Hj%list_elem_of_lookup_2. assert (forall i, n <> fresh i) as Hn.
  { intros i ->. destruct (un_accesses Hun i o op_here). done. }
  rewrite before_kept by done. apply Hagree; [done|]. destruct (resident n) eqn:Hr; [right | by left].
  eapply access_live; [done | done | by apply read_accessed | by right].
Qed.

Lemma same_step n : (n ∈ stored o -> step value t1 o n = step value s o n) /\ (n ∉ stored o -> step value t1 o n = t1 n /\ step value s o n = s n).
Proof.
  unfold step. destruct (decide (n ∈ stored o)) as [Hn|Hn].
  - rewrite !bool_decide_eq_true_2 by done. split; [|done]. intros _. f_equal. apply same_reads.
  - rewrite !bool_decide_eq_false_2 by done. by split.
Qed.

#[local] Notation t2 := (risky t1 o).
#[local] Notation t3 := (run t2 (restore_of clone_index <$> reverse l)).

(** What is not saved comes out of the bracket as the operation left it. *)
Lemma unsaved_after n : n ∉ at_risk_at K G k o -> t3 n = t2 n.
Proof.
  intros Hn. destruct (restores_run (reverse l) t2) as [H _]; [apply separate_reverse, saved_separate|]. apply H.
  rewrite fmap_reverse, elem_of_reverse, saved_at_risk. done.
Qed.

(** What is saved comes out as it went in. *)
Lemma saved_after n : n ∈ at_risk_at K G k o -> t3 n = t n.
Proof.
  intros Hn. apply saved_at_risk in Hn as Hx. apply list_elem_of_fmap in Hx as (x & -> & Hx).
  destruct (restores_run (reverse l) t2) as [_ H]; [apply separate_reverse, saved_separate|]. rewrite H by (by apply elem_of_reverse).
  destruct (dump_fresh x Hx) as [i Ei]. unfold risky_step. rewrite Ei, fresh_not_resident, andb_false_r.
  unfold step. rewrite bool_decide_eq_false_2 by (apply (un_accesses Hun i o op_here)). rewrite <- Ei.
  by apply (dumps_run l t saved_separate).
Qed.

Lemma unrisky : clobbers K o = false -> at_risk_at K G k o = [].
Proof. unfold clobbers, at_risk_at. destruct (is_fallback K o), (single_output o), (protected K o); done. Qed.

Lemma live_key n : straddles (access_indices lw n) (Z.of_nat k) = true -> n ∈ liveness_keys G.
Proof.
  intros (f & z & Hf & _)%straddles_spec. unfold liveness_keys. apply fromkeys_spec, elem_of_app. right.
  assert (f ∈ access_indices lw n) as Hfin by (destruct (access_indices lw n); [done|]; injection Hf as ->; list_mem).
  unfold access_indices in Hfin. apply elem_of_indices in Hfin as (j & op & _ & Hj & Ha). cbn [lowering operations] in Hj.
  rewrite list_lookup_fmap in Hj. destruct (ops !! j) as [oj|] eqn:Ej; [|done]. injection Hj as <-.
  apply list_elem_of_bind. exists oj. split; [|by eapply list_elem_of_lookup_2]. unfold accesses in Ha. cbn in Ha.
  apply list_elem_of_fmap. apply elem_of_app in Ha as [(d & -> & Hd)%list_elem_of_fmap | (d & -> & Hd)%list_elem_of_fmap];
    exists d; (split; [done|]); apply elem_of_dependencies; auto.
Qed.

Lemma live_at_risk n : resident n = true -> clobbers K o = true -> straddles (access_indices lw n) (Z.of_nat k) = true -> n ∈ at_risk_at K G k o.
Proof.
  intros Hr Hc Hl. unfold at_risk_at. destruct (single_output o) eqn:Es; [|by rewrite (pr_alone Hres n k o Hr Hk Hc Es) in Hl].
  unfold clobbers in Hc. apply andb_true_iff in Hc as [-> Hp%negb_true_iff]. rewrite Hp. cbn [negb orb].
  apply list_elem_of_filter. split; [split; [done|] | by apply live_key].
  rewrite calculate_liveness_lookup. case_decide as Hd; [done|]. exfalso. apply Hd. right.
  apply straddles_spec in Hl as (f & z & Hf & _). intros E. by rewrite E in Hf.
Qed.

Lemma agree_step : agree (S k) t3 (step value s o).
Proof.
  intros n Hn Hor. destruct (same_step n) as [Hin Hout]. destruct (resident n) eqn:Hr.
  - destruct Hor as [? | Hl]; [done|]. destruct (clobbers K o) eqn:Hc.
    + assert (n ∉ accesses (lower_op o)) as Hna by (apply (pr_device Hres); [done | apply op_here | done]).
      assert (n ∉ stored o) as Hns by (intros Hs; apply Hna, (pr_fixed Hres); [done | apply op_here | done]).
      pose proof (live_before n k o Hr Hk Hns Hl) as Hlk.
      assert (n ∈ at_risk_at K G k o) as Hrisk by (by apply live_at_risk).
      rewrite saved_after by done. destruct (Hout Hns) as [_ ->]. apply Hagree; [done | by right].
    + rewrite unsaved_after by (rewrite unrisky by done; by intros ?%elem_of_nil). unfold risky_step. rewrite Hc. cbn [andb].
      destruct (decide (n ∈ stored o)) as [Hs|Hs]; [by apply Hin|]. destruct (Hout Hs) as [-> ->]. rewrite before_kept by done.
      apply Hagree; [done|]. right. by eapply live_before.
  - rewrite unsaved_after by (intros [Hr' _]%at_risk_spec; congruence). unfold risky_step. rewrite Hr, andb_false_r.
    destruct (decide (n ∈ stored o)) as [Hs|Hs]; [by apply Hin|]. destruct (Hout Hs) as [-> ->]. rewrite before_kept by done.
    apply Hagree; [done | by left].
Qed.
End one.

(** The edited list, from the operation at [k] on. *)
Lemma weave_run B : (forall k o, ops !! k = Some o -> saves K G fresh k o (B k)) -> forall rest done t s,
  ops = done ++ rest -> agree (length done) t s ->
  agree (length ops) (run t (weave (fun k => dump_of clone_index <$> B k) (fun k => reverse (restore_of clone_index <$> B k)) (length done) rest))
    (exec value s rest).
Proof.
  intros HB. induction rest as [|o rest IH]; intros dn t s E Ha.
  { rewrite app_nil_r in E. rewrite E. done. }
  cbn [weave exec foldl]. rewrite risky_exec_app. cbn [risky_exec foldl]. fold (run) in *.
  change (foldl risky ?x ?l) with (run x l). rewrite risky_exec_app.
  specialize (IH (dn ++ [o])). rewrite length_app, Nat.add_1_r in IH. apply IH; [by rewrite <- app_assoc|].
  rewrite <- fmap_reverse. apply agree_step; [|apply HB|done]; rewrite E; by apply list_lookup_middle.
Qed.
End safe.

(** C19. Context switching is transparent: on a graph whose resident buffers meet the residency
    rules the pass succeeds, and running the edited operations while every unprotected
    kernel overwrites the whole scratchpad gives each buffer outside the scratchpad the
    value it has when the original operations run and kernels leave the scratchpad
    alone. *)
Theorem context_switching_transparent {V} (value : operation -> string -> list V -> V) K G clone_index fresh operation_name next deps :
  NoDup (get_name <$> graph_operations (pg G)) -> protected_residents K G -> unused_names G fresh ->
  (forall o n v, short_name o = "clone"%string -> value o n [v] = v) ->
  (forall o, is_fallback K o = true -> extern_kernel o = true) ->
  exists e, apply_pass K G clone_index fresh operation_name true next deps = Ok e /\
    forall junk s n, _is_lx_resident G n = false -> (forall i, n <> fresh i) ->
      risky_exec value K (_is_lx_resident G) junk s (ed_ops e) n = exec value s (graph_operations (pg G)) n.
Proof.
  intros Hn Hres Hun Hclone Hext.
  destruct (apply_pass_Ok K G clone_index fresh operation_name Hn (un_names _ _ Hun) (pr_computed _ _ Hres) next deps) as (e & B & Ha & He & HB).
  exists e. split; [done|]. intros junk s n Hr Hf. rewrite He. unfold woven.
  eapply (weave_run value junk K G clone_index fresh Hres Hun Hclone Hext B HB (graph_operations (pg G)) []); [done | by intros m _ _ | done | by left].
Qed.
