(* ===== verification/ContextSwitchRules.v ===== *)
(** * Residency rules and context switching

    The rules of [ResidencyRules] are what the pass of [ContextSwitch] relies on: buffers
    of operations that passed them, and whose users the judge accepted, are the protected
    residents of its theorem.  The rule for graph inputs has a gap, shown on an example. *)

From S2P Require Import Prelude PyDict PlanSolver GreedySolver Liveness CoreMapping CoreViews BufferFacts ResidencyRules Allocator AllocatorBuffers AllocatorRelayout AllocatorPlan AllocatorExamples ContextSwitch ContextSwitchSafe.

(** Every buffer is written by its producer before anything else touches it, and fallback
    kernels know their outputs. *)
Record produced_first (K : kernel_facts) (g : graph) : Prop := {
  pf_born : forall n k o p, find_op g n = Some p -> is_Some (tiled (op_layout p)) -> graph_operations g !! k = Some o ->
    head (access_indices (lowering g) n) = Some (Z.of_nat k) -> o = p /\ n ∈ (dep_name <$> dep_writes p) /\ n ∉ read_names p;
  pf_extern : forall o, o ∈ graph_operations g -> is_fallback K o = true -> extern_kernel o = true;
  pf_outputs : forall o, o ∈ graph_operations g -> is_fallback K o = true -> is_Some (fallback_outputs o)
}.

Section rules.
Context (K : kernel_facts) (C : config) (F : graph_facts) (G : placed_graph).
Context (Hswitch : enable_lx_context_switching C = true) (Hfirst : produced_first K (pg G)).

#[local] Notation g := (pg G).
#[local] Notation us n := (access_indices (lowering g) n).

(** The buffers with an address passed the rules and have no opaque users. *)
Context (Hrules : forall n a, dget (allocation G) n = Some a ->
  exists o v plans, find_op g n = Some o /\ cleared C F g (fixed_facts g v plans) n (us n) o).
Context (Husers : forall n a u, dget (allocation G) n = Some a -> u ∈ users_of g n -> extern_kernel u.1 = false).

Lemma resident_allocated n : _is_lx_resident G n = true -> exists a, dget (allocation G) n = Some a.
Proof.
  unfold _is_lx_resident. destruct (find_op g n) as [o|]; [|done]. destruct (tiled (op_layout o)); [|done].
  intros [a ?]%bool_decide_eq_true. by exists a.
Qed.

Lemma access_user n o : o ∈ graph_operations g -> n ∈ accesses (lower_op o) -> exists d, (o, d) ∈ users_of g n.
Proof.
  intros Ho Hn. assert (exists d, d ∈ dependencies o /\ dep_name d = n) as (d & Hd & E).
  { unfold accesses in Hn. cbn in Hn. apply elem_of_app in Hn as [(d & -> & Hd)%list_elem_of_fmap | (d & -> & Hd)%list_elem_of_fmap];
      exists d; (split; [|done]); apply elem_of_dependencies; auto. }
  exists d. by apply elem_of_users.
Qed.

(** C20. The residency rules are what context switching needs: if every buffer with an address
    passed the rules with context switching on and has only users the judge accepts, the
    buffers are protected residents -- computed, written first by their producer, touched by
    no kernel that may clobber the scratchpad, not mutated behind liveness's back, and not
    live across a kernel the pass does not bracket. *)
Theorem rules_protect_residents : protected_residents K G.
Proof.
  split.
  - intros n o Hr Ho. destruct (resident_allocated n Hr) as [a Ha]. destruct (Hrules n a Ha) as (p & v & plans & Hp & [Hc _ _ _ _ _ _ _ _]).
    rewrite Ho in Hp. by injection Hp as <-.
  - intros n k o Hr Hk Hh. destruct (resident_allocated n Hr) as [a Ha]. destruct (Hrules n a Ha) as (p & v & plans & Hp & Hcl).
    destruct (pf_born _ _ Hfirst n k o p Hp (cl_tiled _ _ _ _ _ _ _ Hcl) Hk Hh) as (-> & Hw & Hnr). split; [|done].
    unfold stored. pose proof (cl_tiled _ _ _ _ _ _ _ Hcl) as [dev Hd]. by destruct (op_layout p).
  - intros n o Hr Ho Hc Hn. destruct (resident_allocated n Hr) as [a Ha]. destruct (access_user n o Ho Hn) as [d Hu].
    specialize (Husers n a _ Ha Hu). unfold clobbers in Hc. apply andb_true_iff in Hc as [Hf _]. apply (pf_extern _ _ Hfirst o Ho) in Hf. cbn in Husers. congruence.
  - intros n o Hr Ho Hs. destruct (resident_allocated n Hr) as [a Ha]. destruct (Hrules n a Ha) as (p & v & plans & Hp & [_ _ _ Hm _ _ _ _ _]).
    unfold stored in Hs. unfold accesses. cbn. destruct (op_layout o) as [| t sz | |] eqn:El; try (apply elem_of_app; by right).
    apply list_elem_of_singleton in Hs as ->. destruct Hm. cbn. apply list_elem_of_omap. exists o. by rewrite El.
  - intros n k o Hr Hk Hc Hso. destruct (resident_allocated n Hr) as [a Ha]. destruct (Hrules n a Ha) as (p & v & plans & Hp & [_ _ _ _ _ Hal _ _ _]).
    apply not_true_iff_false. intros (f & z & Hf & Hz & Hfz)%straddles_spec. rewrite Hswitch in Hal.
    unfold clobbers in Hc. apply andb_true_iff in Hc as [Hfb _]. destruct (pf_outputs _ _ Hfirst o (list_elem_of_lookup_2 _ _ _ Hk) Hfb) as [m Hm].
    assert (f ∈ us n) as Hfin by (destruct (us n); [done|]; injection Hf as ->; list_mem).
    assert (z ∈ us n) as Hzin by (apply last_Some in Hz as [l ->]; list_mem).
    specialize (Hal f z (Z.of_nat k) o Hfin Hzin ltac:(lia) (op_at_lookup _ k o Hk) m Hm).
    unfold single_output in Hso. rewrite Hm in Hso. apply Nat.leb_gt in Hso. lia.
Qed.
End rules.

(** ** Examples *)

(** [buf0] lies in the scratchpad while the kernel [buf1] runs. *)
Definition switch_kernel (outputs : nat) : operation :=
  mkOperation "buf1" [sample_dep "arg1"] [sample_dep "buf1"] NoLayoutSize None true false (Some outputs) None None None "opaque" true (Some []) (Some []).

Definition switch_graph (outputs : nat) : graph :=
  mkGraph [sample_op "buf0" ["arg0"]; switch_kernel outputs; sample_op "buf2" ["arg0"; "buf0"]; sample_op "buf3" ["buf2"]]
    [("arg0"%string, sample_layout); ("arg1"%string, sample_layout)] ["buf3"%string] [].

Definition switch_placed : placed_graph := mkPlaced (switch_graph 1) [("buf0"%string, 0)].

Definition switch_kernels : kernel_facts := mkKernels extern_kernel (fun _ => false) (fun _ => false) (fun _ => false).

Definition switch_fresh (i : nat) : string := ("tmp" +:+ pretty i)%string.

Definition switch_value (o : operation) (n : string) (vs : list Z) : Z :=
  if bool_decide (short_name o = "clone"%string) then default 0 (head vs) else zsum vs + 1.

(** The edited list: a dump before the kernel and a restore after it. *)
Example switch_edited :
  (fun e => (get_name <$> ed_ops e, ed_deps e)) <$> (match apply_pass switch_kernels switch_placed "i" switch_fresh id true 0 [] with Ok e => Some e | Raise _ => None end)
  = Some (["buf0"; "tmp0"; "buf1"; "tmp1"; "buf2"; "buf3"]%string, [("buf1"%string, ["tmp0"%string]); ("tmp1"%string, ["buf1"%string])]).
Proof. vm_compute. reflexivity. Qed.

Lemma switch_resident n : _is_lx_resident switch_placed n = true -> n = "buf0"%string.
Proof.
  intros (a & Ha)%resident_allocated. apply dget_Some_elem in Ha. apply list_elem_of_singleton in Ha. congruence.
Qed.

Lemma switch_protected : protected_residents switch_kernels switch_placed.
Proof.
  split.
  - intros n o ->%switch_resident Ho. vm_compute in Ho. injection Ho as <-. by eexists.
  - intros n k o ->%switch_resident Hk Hh. vm_compute in Hh. injection Hh as Hh. destruct k; [|lia]. vm_compute in Hk. injection Hk as <-.
    split; [list_mem|]. apply (bool_decide_unpack _). vm_compute. exact I.
  - intros n o ->%switch_resident Ho Hc. assert (Forall (fun o => clobbers switch_kernels o = true -> "buf0"%string ∉ accesses (lower_op o))
      (graph_operations (pg switch_placed))) as Hf by (apply (bool_decide_unpack _); vm_compute; exact I).
    rewrite Forall_forall in Hf. by apply Hf.
  - intros n o ->%switch_resident Ho Hs. assert (Forall (fun o => "buf0"%string ∈ stored o -> "buf0"%string ∈ accesses (lower_op o))
      (graph_operations (pg switch_placed))) as Hf by (apply (bool_decide_unpack _); vm_compute; exact I).
    rewrite Forall_forall in Hf. by apply Hf.
  - intros n k o ->%switch_resident Hk Hc Hs. apply list_elem_of_lookup_2 in Hk.
    assert (Forall (fun o => clobbers switch_kernels o = true -> single_output o = false -> False)
      (graph_operations (pg switch_placed))) as Hf by (apply (bool_decide_unpack _); vm_compute; exact I).
    rewrite Forall_forall in Hf. by destruct (Hf o Hk).
Qed.

Lemma switch_unused : unused_names switch_placed switch_fresh.
Proof.
  assert (forall i n, n ∈ ["buf0"; "buf1"; "buf2"; "buf3"; "arg0"; "arg1"]%string -> switch_fresh i <> n) as Hne.
  { intros i n Hn E. repeat (apply elem_of_cons in Hn as [-> | Hn]; [discriminate E|]). by apply elem_of_nil in Hn. }
  assert (forall (l : list string) i, Forall (fun n => n ∈ ["buf0"; "buf1"; "buf2"; "buf3"; "arg0"; "arg1"]%string) l -> switch_fresh i ∉ l) as Hout.
  { intros l i Hl Hin. rewrite Forall_forall in Hl. by apply (Hne i (switch_fresh i)); [apply Hl|]. }
  split.
  - intros i j E. unfold switch_fresh in E. injection E as E. exact (inj (R := eq) pretty i j E).
  - intros i. apply Hout. apply (bool_decide_unpack _). vm_compute. exact I.
  - intros i o Ho. assert (Forall (fun o => Forall (fun n => n ∈ ["buf0"; "buf1"; "buf2"; "buf3"; "arg0"; "arg1"]%string) (read_names o) /\
      Forall (fun n => n ∈ ["buf0"; "buf1"; "buf2"; "buf3"; "arg0"; "arg1"]%string) (stored o)) (graph_operations (pg switch_placed))) as Hf
      by (apply (bool_decide_unpack _); vm_compute; exact I).
    rewrite Forall_forall in Hf. destruct (Hf o Ho) as [H1 H2]. split; by apply Hout.
Qed.

(** Whatever the kernel leaves in the scratchpad, [buf3] ends up the same. *)
Lemma context_switching_transparent_witness :
  exists e, apply_pass switch_kernels switch_placed "i" switch_fresh id true 0 [] = Ok e /\
    forall junk, risky_exec switch_value switch_kernels (_is_lx_resident switch_placed) junk (fun _ => 0) (ed_ops e) "buf3"%string = 3.
Proof.
  destruct (context_switching_transparent switch_value switch_kernels switch_placed "i" switch_fresh id 0 []) as (e & He & Hsame).
  - apply (bool_decide_unpack _). vm_compute. exact I.
  - exact switch_protected.
  - exact switch_unused.
  - intros o n v E. unfold switch_value. rewrite bool_decide_eq_true_2 by exact E. reflexivity.
  - intros o E. exact E.
  - exists e. split; [exact He|]. intros junk. rewrite Hsame; [vm_compute; reflexivity | vm_compute; reflexivity|].
    intros i E. discriminate E.
Defined.

(** Without the pass the kernel's leavings show. *)
Example unbracketed_clobbered :
  risky_exec switch_value switch_kernels (_is_lx_resident switch_placed) (fun _ _ _ => 100) (fun _ => 0) (graph_operations (pg switch_placed)) "buf3"%string
  = 102.
Proof. vm_compute. reflexivity. Qed.

Definition switch_config : config := mkConfig true true false false false false.

Definition switch_verdicts : verdicts :=
  value_of (mkVerdicts [] [] [])
    (get_ncores_for_buffers (prep_of sample_facts) (reduces sample_facts) (subrange_certificate sample_facts) (switch_graph 1) []).

Lemma switch_first : produced_first switch_kernels (switch_graph 1).
Proof.
  split.
  - intros n k o p Hp Ht Hk Hh. apply find_op_Some in Hp as [Hp <-].
    repeat (apply elem_of_cons in Hp as [-> | Hp]; [
      try (destruct Ht as [d Ht]; discriminate Ht);
      (destruct k as [|[|[|[|k]]]]; [vm_compute in Hh | vm_compute in Hh | vm_compute in Hh | vm_compute in Hh | discriminate Hk]; try discriminate Hh; injection Hk as <-;
       split; [reflexivity | apply (bool_decide_unpack _); vm_compute; exact I])|]). by apply elem_of_nil in Hp.
  - intros o _ H. exact H.
  - intros o Ho. assert (Forall (fun o => extern_kernel o = true -> is_Some (fallback_outputs o)) (graph_operations (switch_graph 1))) as Hf
      by (apply (bool_decide_unpack _); vm_compute; exact I).
    rewrite Forall_forall in Hf. by apply Hf.
Qed.

Lemma rules_protect_residents_witness :
  _is_lx_resident switch_placed "buf0" = true /\ protected_residents switch_kernels switch_placed.
Proof.
  split; [vm_compute; reflexivity|].
  apply (rules_protect_residents switch_kernels switch_config sample_facts switch_placed eq_refl switch_first).
  - intros n a Ha. apply dget_Some_elem, list_elem_of_singleton in Ha. injection Ha as -> ->.
    destruct (cleared_spec switch_config sample_facts (switch_graph 1) (fixed_facts (switch_graph 1) switch_verdicts []) "buf0"
      (access_indices (lowering (switch_graph 1)) "buf0") (find_op (switch_graph 1) "buf0")) as (o & Ho & Hc).
    + vm_compute. reflexivity.
    + reflexivity.
    + exists o, switch_verdicts, []. split; [exact Ho | exact Hc].
  - intros n a u Ha Hu. apply dget_Some_elem, list_elem_of_singleton in Ha. injection Ha as -> ->.
    assert (Forall (fun u => extern_kernel u.1 = false) (users_of (switch_graph 1) "buf0")) as Hf by (apply (bool_decide_unpack _); vm_compute; exact I).
    rewrite Forall_forall in Hf. exact (Hf u Hu).
Defined.

(** With context switching on, a graph input may be pinned across a kernel with several
    outputs: the buffer of an operation in the same position is barred, but the checks for
    inputs do not ask, and the pass leaves such kernels unbracketed. *)
Example input_live_across_multi_output :
  (fun b => (ab_name b, uses (ab b), residency_reason (ab b))) <$>
    value_of [] (_generate_buffers switch_config sample_facts (switch_graph 2) []) =
  [ ("buf0"%string, [0; 2], Some "live across multi-output extern kernel"%string);
    ("buf1"%string, [1], Some "op not allowed"%string);
    ("buf2"%string, [2; 3], None);
    ("buf3"%string, [3], Some "no consumer reads it from LX"%string);
    ("arg0"%string, [0; 2], None);
    ("arg1"%string, [1], Some "no consumer reads it from LX"%string) ] /\
  _select_bracket_targets switch_kernels (mkPlaced (switch_graph 2) [("buf0"%string, 0)]) = [] /\
  clobbers switch_kernels (switch_kernel 2) = true.
Proof. vm_compute. split_and!; reflexivity. Qed.
