(* ===== verification/GraphEdit.v ===== *)
(** * Committing a placement to the graph ([scratchpad/graph_editor.py], [allocator.py])

    [_push_allocation] writes the addresses of a solved plan to the graph.  A resident graph
    input gets a clone in the scratchpad, which its readers are made to read; a resident
    graph output keeps its place in the scratchpad and a clone in HBM becomes the output;
    another buffer just gets its address.  Accepted relayouts are materialized as private
    clones for some of the readers.

    On the placement path there are no drain plans and no staged collectives, so
    [lower_anchor] and [after_fx] are never given.  FX nodes are left out.  Operations are
    mutable objects that keep their names, so a name stands for an object. *)

From S2P Require Import Prelude PyDict PlanSolver Liveness CoreMapping CoreViews BufferFacts ResidencyRules Allocator AllocatorBuffers ContextSwitch.

(** ** The graph under edit *)

Record edited := mkEdited {
  eg : graph;
  (** how many names [register_buffer] has given out *)
  e_next : nat;
  name_to_users : dict (list string);
  (** [layout.allocation["lx"]] and [layout.lx_view] of the buffers that have them *)
  lx_state : dict (Z * PerCoreView);
  (** the registry of materialized relayouts, by the destination's planned name *)
  e_copies : dict (string * LXRelayoutPlan)
}.

Definition with_operations (ops : list operation) (g : graph) : graph :=
  mkGraph ops (graph_inputs g) (output_names g) (reinterpret_outputs g).

Definition with_outputs (outs views : list string) (g : graph) : graph :=
  mkGraph (graph_operations g) (graph_inputs g) outs views.

(** [_NameSwapHandler.load]: a load of [old] becomes one of [new]. *)
Definition swap_name (old new : string) (d : dep) : dep :=
  if bool_decide (dep_name d = old) then mkDep new (memory_dep d) (index d) (is_indirect d) (numel d) else d.

(** [_replace_loop_input] *)
Definition _replace_loop_input (old new : string) (o : operation) : operation :=
  mkOperation (get_name o) (swap_name old new <$> dep_reads o) (dep_writes o) (op_layout o) (computed o) (extern_kernel o) (empty_fallback o)
    (fallback_outputs o) (loop_info o) (loop_carry_record o) (ownership o) (short_name o) (has_target o) (mutation_names o) (aliased_inputs o).

Definition on_operation (name : string) (f : operation -> operation) (ops : list operation) : list operation :=
  (fun o => if bool_decide (get_name o = name) then f o else o) <$> ops.

(** [operations.index(op)] *)
Definition position (ops : list operation) (name : string) : res Z :=
  match list_find (fun o => get_name o = name) ops with
  | Some (i, _) => Ok (Z.of_nat i)
  | None => Raise ValueError
  end.

(** [min(buffer_users, key=operations.index)]; the first of equal positions. *)
Fixpoint earliest (ops : list operation) (best : string * Z) (users : list string) : res string :=
  match users with
  | [] => Ok best.1
  | u :: us => i ← position ops u; earliest ops (if i <? best.2 then (u, i) else best) us
  end.

Definition first_user (ops : list operation) (users : list string) : res (option string) :=
  match users with
  | [] => Ok None
  | u :: us => i ← position ops u; f ← earliest ops (u, i) us; Ok (Some f)
  end.

Section editor.
(** The index expression of a clone, the names [register_buffer] gives out, and the division
    committed to a clone: that of the accepted view for an input, that of the metadata's
    owner otherwise. *)
Context (clone_index : string) (fresh : nat -> string).
Context (clone_ownership : bool -> operation -> layout -> option PerCoreView -> res TensorWorkDivision).

(** The clone of [src], with the loop metadata of [meta]. *)
Definition boundary_clone (meta : operation) (src name : string) (l : layout) (own : TensorWorkDivision) : operation :=
  let d n := mkDep n true clone_index false (zprod <$> layout_size l) in
  mkOperation name [d src] [d name] l (Some Pointwise) false false None (loop_info meta) (loop_carry_record meta) (Some own) "clone" true
    (Some []) (Some []).

(** The source of a clone: the box of an input, or a [ComputedBuffer]. *)
Definition clone_source (g : graph) (name : string) : res layout :=
  match find_op g name with
  | Some o => py_assert (bool_decide (is_Some (computed o)));; Ok (op_layout o)
  | None => dgetitem (graph_inputs g) name
  end.

Definition the_operation (g : graph) (name : option string) : res operation :=
  match name ≫= find_op g with
  | Some o => py_assert (bool_decide (is_Some (computed o)));; Ok o
  | None => Raise AssertionError
  end.

(** Users of the source that stay with it. *)
Definition keeps_source (name clone : string) (private : bool) (users : list string) (user : string) : bool :=
  bool_decide (user = name) || bool_decide (user = clone) || (private && negb (bool_decide (user ∈ users))).

Definition rewire (name clone : string) (private : bool) (users : list string) (d : dict (list string)) : dict (list string) :=
  let all := dget_or [] d name in
  dset clone (filter (fun u => keeps_source name clone private users u = false) all)
    (dset name (filter (fun u => keeps_source name clone private users u = true) all) d).

(** One consumer is made to read the clone. *)
Definition redirect (name clone consumer : string) (ops : list operation) : res (list operation) :=
  match list_find (fun o => get_name o = consumer) ops with
  | Some (_, o) => if is_rewritable_consumer o then Ok (on_operation consumer (_replace_loop_input name clone) ops) else Raise NotImplementedError
  | None => Raise NotImplementedError
  end.

Definition push_allocation_with_clone (name : string) (users : list string) (input private : bool) (view : option PerCoreView)
    (lower_before : option string) (st : edited) : res (edited * string) :=
  let g := eg st in
  raise_if (input && bool_decide (view = None)) ValueError;;
  l ← clone_source g name;
  py_assert (bool_decide (is_Some (tiled l)));;
  first ← first_user (graph_operations g) users;
  meta ← the_operation g (if input then first else Some name);
  let clone := fresh (e_next st) in
  own ← clone_ownership input meta l view;
  let n2u := if input then rewire name clone private users (name_to_users st) else name_to_users st in
  ops ← (if input then for_each (redirect name clone) users (graph_operations g) else Ok (graph_operations g));
  before ← match match lower_before with Some b => Some b | None => first end with Some b => Ok b | None => Raise AssertionError end;
  ops' ← insert_before before (boundary_clone meta name clone l own) ops;
  Ok (mkEdited (with_operations ops' g) (S (e_next st)) n2u (lx_state st) (e_copies st), clone).
(** [change_graph_output]: the first output with the old name; a view keeps its wrapper. *)
Fixpoint replace_first (old new : string) (outs : list string) : res (list string) :=
  match outs with
  | [] => Raise KeyError
  | o :: outs' => if bool_decide (o = old) then Ok (new :: outs') else l ← replace_first old new outs'; Ok (o :: l)
  end.

Definition change_graph_output (old new : string) (st : edited) : res edited :=
  outs ← replace_first old new (output_names (eg st));
  let views := (fun v => if bool_decide (v = old) then new else v) <$> reinterpret_outputs (eg st) in
  Ok (mkEdited (with_outputs outs views (eg st)) (e_next st) (name_to_users st) (lx_state st) (e_copies st)).

Definition _set_one_allocation (name : string) (address : Z) (view : option PerCoreView) (st : edited) : res edited :=
  match view with
  | None => Raise RuntimeError
  | Some v => Ok (mkEdited (eg st) (e_next st) (name_to_users st) (dset name (address, v) (lx_state st)) (e_copies st))
  end.

(** ** Where an input's clone runs *)

Definition group_path (o : operation) : list nat := counted_loop_group_path (lower_op o).

Definition mutates (name : string) (o : operation) : bool :=
  match mutation_names o with Some l => bool_decide (name ∈ l) | None => true end.

(** The operations of the outermost loop [outer], by index. *)
Definition loop_members (ops : list operation) (outer : list nat) : list Z :=
  omap (fun io : nat * operation => if bool_decide (take 1 (group_path io.2) = outer) then Some (Z.of_nat io.1) else None) (imap pair ops).

Definition named_op (g : graph) (name : string) : res operation :=
  match find_op g name with Some o => Ok o | None => Raise ValueError end.

Definition _hoisted_input_clone_entry (g : graph) (name : string) (users : list string) : res (option string) :=
  let ops := graph_operations g in
  match users, last users with
  | u :: _, Some z =>
      first ← named_op g u;
      match counted_loop_entry (lower_op <$> ops) (lower_op first) with
      | None => Ok None
      | Some e =>
          if existsb (mutates name) ops then Ok None
          else
            entry ← named_op g (op_name e);
            start ← position ops (get_name entry);
            first_use ← position ops u;
            extern ← _extern_kernel_in_live_range g ((fun k => start + Z.of_nat k) <$> seq 0 (Z.to_nat (first_use + 1 - start)));
            if (extern : bool) then Ok None
            else
              let end_ := list_max start (loop_members ops (take 1 (group_path entry))) in
              several ← _multi_output_extern_kernel_in_live_range g [start; end_];
              if (several : bool) then Ok None
              else
                final ← named_op g z;
                i ← position ops z;
                let last_outer := take 1 (group_path final) in
                if negb (bool_decide (last_outer = [])) &&
                   negb (existsb (fun o => bool_decide (take 1 (group_path o) = last_outer)) (drop (Z.to_nat i + 1) ops))
                then Ok None else Ok (Some (get_name entry))
      end
  | _, _ => Ok None
  end.

(** [_clear_loop_membership_metadata] *)
Definition _clear_loop_membership_metadata (o : operation) : operation :=
  mkOperation (get_name o) (dep_reads o) (dep_writes o) (op_layout o) (computed o) (extern_kernel o) (empty_fallback o)
    (fallback_outputs o) None None (ownership o) (short_name o) (has_target o) (mutation_names o) (aliased_inputs o).

Definition clear_membership (name : string) (st : edited) : edited :=
  mkEdited (with_operations (on_operation name _clear_loop_membership_metadata (graph_operations (eg st))) (eg st)) (e_next st)
    (name_to_users st) (lx_state st) (e_copies st).

(** ** Pushing the allocation *)

(** [graph.get_buffer(name)] raises for a name it does not know. *)
Definition get_buffer (g : graph) (name : string) : res unit :=
  match try_get_layout g name with Some _ => Ok tt | None => Raise RuntimeError end.

Section push.
(** The boundary and the users, read off the graph before any edit. *)
Context (inputs outputs : list string) (buffer_users : dict (list string)).

Definition push_buffer (b : abuffer) (st : edited) : res edited :=
  match address (ab b) with
  | None => Ok st
  | Some address =>
      let name := ab_name b in
      if String.prefix "__spyre_lx_relayout__:" name then Ok st
      else get_buffer (eg st) name;;
      if bool_decide (name ∈ inputs) then
        users ← dgetitem buffer_users name;
        hoist_before ← _hoisted_input_clone_entry (eg st) name users;
        sc ← push_allocation_with_clone name users true false (lx_view b) hoist_before st;
        let st' := match hoist_before with Some _ => clear_membership sc.2 sc.1 | None => sc.1 end in
        _set_one_allocation sc.2 address (lx_view b) st'
      else if bool_decide (name ∈ outputs) then
        users ← dgetitem buffer_users name;
        sc ← push_allocation_with_clone name users false false None None st;
        st' ← _set_one_allocation name address (lx_view b) sc.1;
        change_graph_output name sc.2 st'
      else _set_one_allocation name address (lx_view b) st
  end.
End push.

(** ** Relayouts *)

Definition validate_relayout_spans (p : LXRelayoutPlan) : res unit :=
  match source_address p, destination_address p with
  | Some s, Some d =>
      raise_if ((s <? 0) || (d <? 0) || (source_footprint p <=? 0) || (destination_footprint p <=? 0)) RuntimeError;;
      raise_if ((s <? d + destination_footprint p) && (d <? s + source_footprint p)) RuntimeError
  | _, _ => Raise RuntimeError
  end.

(** The planner's certificates: every partial reader of the source still has its local
    certificate, and padded gathers and cache mutations still have theirs. *)
Context (readers_certified contract_kept : graph -> LXRelayoutPlan -> bool).

Definition materialize_relayout (p : LXRelayoutPlan) (st : edited) : res edited :=
  raise_if (same_partition (source_view p) (destination_view p)) RuntimeError;;
  match dget (lx_state st) (source_name p) with
  | Some (a, v) => raise_if (negb (bool_decide (Some a = source_address p)) || negb (same_partition v (source_view p))) RuntimeError
  | None => Raise RuntimeError
  end;;
  raise_if (negb (contract_kept (eg st) p)) RuntimeError;;
  sc ← push_allocation_with_clone (source_name p) (consumer_names p) true true (Some (destination_view p)) None st;
  let st' := sc.1 in
  match destination_address p with
  | None => Raise RuntimeError
  | Some d => Ok (mkEdited (eg st') (e_next st') (name_to_users st') (dset sc.2 (d, destination_view p) (lx_state st'))
                    (dset (destination_name p) (sc.2, p) (e_copies st')))
  end.

Definition check_relayout (g : graph) (p : LXRelayoutPlan) (_ : unit) : res unit :=
  validate_relayout_spans p;; raise_if (negb (readers_certified g p)) RuntimeError.

Definition materialize_lx_relayouts (plans : list LXRelayoutPlan) (st : edited) : res edited :=
  raise_if (negb (bool_decide (e_copies st = []))) RuntimeError;;
  for_each (check_relayout (eg st)) plans tt;;
  for_each materialize_relayout plans st.

Definition _push_allocation (bufs : list abuffer) (accepted : list LXRelayoutPlan) (st : edited) : res edited :=
  let users := (fun kv : string * list operation => (kv.1, get_name <$> kv.2)) <$> get_buffer_users (eg st) in
  st' ← for_each (push_buffer (dkeys (graph_inputs (eg st))) (output_names (eg st)) users) bufs st;
  materialize_lx_relayouts accepted st'.
End editor.
