(* ===== verification/GraphEditValues.v ===== *)
(** * Committed graphs compute the same values

    A valuation gives every buffer a value; it fits a list of operations if every stored
    value is what its operation computes from the values it reads.  For graphs that write
    each buffer once this is what running them in any order of their dependencies gives.
    Committing a placement keeps the valuations of the graph and the values of its
    outputs: the clones carry the values of their sources. *)

From S2P Require Import Prelude PyDict PlanSolver Liveness CoreMapping CoreViews BufferFacts ResidencyRules Allocator AllocatorBuffers ContextSwitch ContextSwitchSafe GraphEdit.

(** ** What one clone changes *)

Definition redirected (name clone : string) (users : list string) (o : operation) : operation :=
  if bool_decide (get_name o ∈ users) then _replace_loop_input name clone o else o.

Lemma swap_name_twice old new d : swap_name old new (swap_name old new d) = swap_name old new d.
Proof. unfold swap_name. destruct (decide (dep_name d = old)) as [E | E]; [rewrite !(bool_decide_eq_true_2 (dep_name d = old)) by done; cbn; by case_bool_decide | by rewrite !(bool_decide_eq_false_2 (dep_name d = old)) by done]. Qed.

Lemma replace_twice old new o : _replace_loop_input old new (_replace_loop_input old new o) = _replace_loop_input old new o.
Proof.
  unfold _replace_loop_input. cbn. f_equal. rewrite <- list_fmap_compose. apply list_fmap_ext. intros i d _. apply swap_name_twice.
Qed.

Lemma redirected_name name clone users o : get_name (redirected name clone users o) = get_name o.
Proof. unfold redirected. by case_bool_decide. Qed.

Lemma redirected_nil name clone (ops : list operation) : redirected name clone [] <$> ops = ops.
Proof.
  rewrite <- (list_fmap_id ops) at 2. apply list_fmap_ext. intros i o _. unfold redirected. by rewrite bool_decide_eq_false_2 by apply not_elem_of_nil.
Qed.

Lemma redirected_cons name clone u users (ops : list operation) :
  redirected name clone users <$> on_operation u (_replace_loop_input name clone) ops = redirected name clone (u :: users) <$> ops.
Proof.
  unfold on_operation. rewrite <- list_fmap_compose. apply list_fmap_ext. intros i x _. unfold redirected. cbn.
  destruct (decide (get_name x = u)) as [E | E].
  - rewrite (bool_decide_eq_true_2 (get_name x = u)) by done. rewrite (bool_decide_eq_true_2 (get_name x ∈ u :: users)) by (rewrite E; list_mem).
    change (get_name (_replace_loop_input name clone x)) with (get_name x). case_bool_decide; [apply replace_twice | done].
  - rewrite (bool_decide_eq_false_2 (get_name x = u)) by done. rewrite (bool_decide_ext (get_name x ∈ u :: users) (get_name x ∈ users)); [done|].
    rewrite elem_of_cons. tauto.
Qed.

Lemma redirect_all name clone users : forall ops ops', for_each (redirect name clone) users ops = Ok ops' -> ops' = redirected name clone users <$> ops.
Proof.
  induction users as [|u users IH]; intros ops ops' H; cbn in H; [injection H as <-; symmetry; apply redirected_nil|].
  apply bind_Ok in H as (mid & Hm & H). apply IH in H as ->. unfold redirect in Hm.
  destruct (list_find _ ops) as [[j o]|]; [|done]. destruct (is_rewritable_consumer o); [|done]. injection Hm as <-. apply redirected_cons.
Qed.

Lemma insert_before_elem target x : forall ops ops', insert_before target x ops = Ok ops' -> forall y, y ∈ ops' <-> y = x \/ y ∈ ops.
Proof.
  induction ops as [|o ops IH]; intros ops' H y; cbn in H; [done|]. case_bool_decide.
  - injection H as <-. by rewrite elem_of_cons.
  - apply bind_Ok in H as (l & Hl & [= <-]). rewrite !elem_of_cons, (IH l Hl y). tauto.
Qed.

(** The graph after a clone. *)
Record cloned (fresh : nat -> string) (clone_index : string) (name : string) (users : list string) (input : bool) (st st' : edited) (c : string) : Prop := {
  cl_name : c = fresh (e_next st);
  cl_next : e_next st' = S (e_next st);
  cl_source : name ∈ (get_name <$> graph_operations (eg st)) \/ name ∈ dkeys (graph_inputs (eg st));
  cl_state : lx_state st' = lx_state st /\ e_copies st' = e_copies st /\ graph_inputs (eg st') = graph_inputs (eg st) /\
    output_names (eg st') = output_names (eg st);
  cl_ops : exists meta l own, is_Some (tiled l) /\
    forall o, o ∈ graph_operations (eg st') <->
      o = boundary_clone clone_index meta name c l own \/
      exists o0, o0 ∈ graph_operations (eg st) /\ o = if input then redirected name c users o0 else o0
}.

Lemma push_clone_Ok clone_index fresh owner name users input private view lower_before st st' c :
  push_allocation_with_clone clone_index fresh owner name users input private view lower_before st = Ok (st', c) ->
  cloned fresh clone_index name users input st st' c.
Proof.
  unfold push_allocation_with_clone. intros H. apply bind_Ok in H as (_ & _ & H). apply bind_Ok in H as (l & Hsrc & H). apply bind_Ok in H as (? & Hl & H).
  apply py_assert_Ok in Hl. apply bool_decide_eq_true in Hl. apply bind_Ok in H as (first & _ & H). apply bind_Ok in H as (meta & _ & H).
  apply bind_Ok in H as (own & _ & H). apply bind_Ok in H as (ops & Hops & H). apply bind_Ok in H as (before & _ & H). apply bind_Ok in H as (ops' & Hi & [= <- <-]).
  split; [done | done | | done|].
  { unfold clone_source in Hsrc. destruct (find_op (eg st) name) as [o|] eqn:Eo.
    - left. apply find_op_Some in Eo as [Ho <-]. by apply list_elem_of_fmap_2.
    - right. unfold dgetitem in Hsrc. apply dget_is_Some. by destruct (dget (graph_inputs (eg st)) name). }
  exists meta, l, own. split; [done|]. intros o. cbn. rewrite (insert_before_elem _ _ _ _ Hi). destruct input.
  - apply redirect_all in Hops as ->. rewrite list_elem_of_fmap. firstorder.
  - injection Hops as <-. split; [intros [? | ?]; eauto | intros [? | (? & ? & ->)]; eauto].
Qed.

(** ** Valuations *)

Section values.
Context {V : Type} (value : operation -> string -> list V -> V) (clone_index : string) (fresh : nat -> string).

(** A clone copies; an operation whose loads were renamed, or whose loop metadata was
    dropped, computes the same function of what it loads. *)
Record renaming_blind : Prop := {
  rb_clone : forall o n v, short_name o = "clone"%string -> value o n [v] = v;
  rb_swap : forall old new o n vs, value (_replace_loop_input old new o) n vs = value o n vs;
  rb_clear : forall o n vs, value (_clear_loop_membership_metadata o) n vs = value o n vs
}.

Context (Hvalue : renaming_blind) (Hinj : forall i j, fresh i = fresh j -> i = j).

Definition fits (rho : string -> V) (ops : list operation) : Prop :=
  forall o n, o ∈ ops -> n ∈ stored o -> rho n = value o n (rho <$> read_names o).

#[local] Notation ops st := (graph_operations (eg st)).
#[local] Notation outs st := (output_names (eg st)).

(** The names to come are not in use. *)
Record unused (st : edited) : Prop := {
  us_ops : forall i o, (e_next st <= i)%nat -> o ∈ ops st -> fresh i <> get_name o /\ fresh i ∉ stored o /\ fresh i ∉ read_names o;
  us_outs : forall i, (e_next st <= i)%nat -> fresh i ∉ outs st;
  us_inputs : forall i, (e_next st <= i)%nat -> fresh i ∉ dkeys (graph_inputs (eg st));
  us_lx : forall i, (e_next st <= i)%nat -> dget (lx_state st) (fresh i) = None
}.

(** The edit [st ~> st'] keeps the values. *)
Record keeps (st st' : edited) : Prop := {
  kp_next : (e_next st <= e_next st')%nat;
  kp_down : forall rho, fits rho (ops st') -> fits rho (ops st) /\ rho <$> outs st' = rho <$> outs st;
  kp_up : unused st -> forall rho, fits rho (ops st) ->
    exists rho', (forall n, (forall i, (e_next st <= i)%nat -> n <> fresh i) -> rho' n = rho n) /\ fits rho' (ops st')
}.

Lemma keeps_refl st st' : e_next st' = e_next st -> ops st' = ops st -> outs st' = outs st -> keeps st st'.
Proof. intros E1 E2 E3. split; [lia | rewrite E2, E3; done | rewrite E2; intros _ rho H; by exists rho]. Qed.

Lemma stored_redirected name c users o : stored (redirected name c users o) = stored o.
Proof. unfold redirected. by case_bool_decide. Qed.

Lemma reads_redirected (rho : string -> V) name c users o : rho c = rho name -> rho <$> read_names (redirected name c users o) = rho <$> read_names o.
Proof.
  intros E. unfold redirected. case_bool_decide; [|done]. unfold read_names. cbn. rewrite <- !list_fmap_compose. apply list_fmap_ext.
  intros i d _. cbn. unfold swap_name. case_bool_decide as Ed; [cbn; congruence | done].
Qed.

Lemma value_redirected name c users o n vs : value (redirected name c users o) n vs = value o n vs.
Proof. unfold redirected. case_bool_decide; [apply (rb_swap Hvalue) | done]. Qed.

Lemma stored_clone meta name c l own : is_Some (tiled l) -> stored (boundary_clone clone_index meta name c l own) = [c].
Proof. unfold stored, boundary_clone. cbn. by destruct l => -[? ?]. Qed.

Section clone.
Context (name : string) (users : list string) (input : bool) (st st' : edited) (c : string).
Context (Hc : cloned fresh clone_index name users input st st' c).

#[local] Notation edit o := (if input then redirected name c users o else o).

Lemma edit_facts (rho : string -> V) o : rho c = rho name ->
  stored (edit o) = stored o /\ rho <$> read_names (edit o) = rho <$> read_names o /\ forall n vs, value (edit o) n vs = value o n vs.
Proof.
  intros E. destruct input; [|done]. split_and!; [apply stored_redirected | by apply reads_redirected | intros; apply value_redirected].
Qed.

Lemma source_used : unused st -> forall i, (e_next st <= i)%nat -> fresh i <> name.
Proof.
  intros Hu i Hi E. destruct (cl_source _ _ _ _ _ _ _ _ Hc) as [(o & En & Ho)%list_elem_of_fmap | Hin].
  - destruct (us_ops _ Hu i o Hi Ho) as [? _]. congruence.
  - apply (us_inputs _ Hu i Hi). by rewrite E.
Qed.

Lemma clone_carries rho : fits rho (ops st') -> rho c = rho name.
Proof.
  intros H. destruct (cl_ops _ _ _ _ _ _ _ _ Hc) as (meta & l & own & Hl & Hops).
  rewrite (H (boundary_clone clone_index meta name c l own) c); [|apply Hops; by left | rewrite stored_clone by done; list_mem].
  by apply (rb_clone Hvalue).
Qed.

Lemma clone_down rho : fits rho (ops st') -> fits rho (ops st).
Proof.
  intros H o n Ho Hn. pose proof (clone_carries rho H) as E. destruct (edit_facts rho o E) as (E1 & E2 & E3).
  destruct (cl_ops _ _ _ _ _ _ _ _ Hc) as (meta & l & own & Hl & Hops). rewrite (H (edit o) n); [by rewrite E2, E3 | | by rewrite E1].
  apply Hops. right. by exists o.
Qed.

Lemma clone_up rho : unused st -> fits rho (ops st) ->
  exists rho', (forall n, (forall i, (e_next st <= i)%nat -> n <> fresh i) -> rho' n = rho n) /\ fits rho' (ops st').
Proof.
  intros Hu H. pose proof (cl_name _ _ _ _ _ _ _ _ Hc) as Ec.
  assert (name <> c) as Hne by (rewrite Ec; intros E; by apply (source_used Hu (e_next st))).
  pose (rho' := fun n => if bool_decide (n = c) then rho name else rho n). exists rho'. split.
  - intros n Hn. unfold rho'. rewrite bool_decide_eq_false_2; [done|]. rewrite Ec. apply Hn. lia.
  - assert (rho' c = rho' name) as E
      by (unfold rho'; rewrite bool_decide_eq_true_2 by done; by rewrite bool_decide_eq_false_2 by done).
    destruct (cl_ops _ _ _ _ _ _ _ _ Hc) as (meta & l & own & Hl & Hops). intros o n Ho Hn. apply Hops in Ho as [-> | (o0 & Ho & ->)].
    + rewrite stored_clone in Hn by done. apply list_elem_of_singleton in Hn as ->. rewrite E. symmetry. by apply (rb_clone Hvalue).
    + destruct (edit_facts rho' o0 E) as (E1 & E2 & E3). rewrite E1 in Hn. rewrite E2, E3.
      destruct (us_ops _ Hu (e_next st) o0 (le_n _) Ho) as (_ & F2 & F3). rewrite <- Ec in F2, F3.
      replace (rho' <$> read_names o0) with (rho <$> read_names o0).
      * unfold rho'. rewrite bool_decide_eq_false_2 by (intros En; by rewrite En in Hn). by apply H.
      * apply list_fmap_ext. intros i x Hx%list_elem_of_lookup_2. unfold rho'. rewrite bool_decide_eq_false_2; [done | intros En; by rewrite En in Hx].
Qed.

Lemma clone_unused : unused st -> unused st'.
Proof.
  intros Hu. pose proof (source_used Hu) as Hname. destruct Hu as [U1 U2 U3 U4]. destruct (cl_state _ _ _ _ _ _ _ _ Hc) as (L1 & _ & L3 & L4). pose proof (cl_next _ _ _ _ _ _ _ _ Hc) as En. pose proof (cl_name _ _ _ _ _ _ _ _ Hc) as Ec.
  split; rewrite En.
  - destruct (cl_ops _ _ _ _ _ _ _ _ Hc) as (meta & l & own & Hl & Hops). intros i o Hi Ho. apply Hops in Ho as [-> | (o0 & Ho & ->)].
    + rewrite stored_clone by done. cbn. assert (fresh i <> c) as Hic by (rewrite Ec; intros E%Hinj; lia).
      split_and!; [done | by intros ?%list_elem_of_singleton | unfold read_names; cbn; intros ?%list_elem_of_singleton; by apply (Hname i); [lia|]].
    + destruct (U1 i o0 ltac:(lia) Ho) as (A1 & A2 & A3). destruct input; [|done]. rewrite redirected_name, stored_redirected. split_and!; [done | done|].
      unfold redirected. case_bool_decide; [|done]. unfold read_names. cbn. rewrite <- list_fmap_compose. intros (d & E & Hd)%list_elem_of_fmap. cbn in E.
      unfold swap_name in E. case_bool_decide; cbn in E; [rewrite Ec in E; apply Hinj in E; lia|]. apply A3. rewrite E. by apply list_elem_of_fmap_2.
  - rewrite L4. intros i Hi. apply U2. lia.
  - rewrite L3. intros i Hi. apply U3. lia.
  - rewrite L1. intros i Hi. apply U4. lia.
Qed.
End clone.

(** ** What the whole push changes *)

(** Values are kept and names stay unused. *)
Definition sound (st st' : edited) : Prop := keeps st st' /\ (unused st -> unused st').

Lemma sound_trans st1 st2 st3 : sound st1 st2 -> sound st2 st3 -> sound st1 st3.
Proof.
  intros [[N1 D1 U1] V1] [[N2 D2 U2] V2]. split; [|auto]. split; [lia | |].
  - intros rho H. destruct (D2 rho H) as [H2 E2]. destruct (D1 rho H2) as [H1 E1]. split; [done | congruence].
  - intros Hu rho H. destruct (U1 Hu rho H) as (r1 & A1 & F1). destruct (U2 (V1 Hu) r1 F1) as (r2 & A2 & F2).
    exists r2. split; [|done]. intros n Hn. rewrite A2 by (intros i Hi; apply Hn; lia). by apply A1.
Qed.

Lemma clone_sound name users input st st' c : cloned fresh clone_index name users input st st' c -> sound st st'.
Proof.
  intros Hc. split; [|by eapply clone_unused]. destruct (cl_state _ _ _ _ _ _ _ _ Hc) as (_ & _ & _ & Eo). split.
  - rewrite (cl_next _ _ _ _ _ _ _ _ Hc). lia.
  - intros rho H. split; [by eapply clone_down | by rewrite Eo].
  - intros Hu rho H. by eapply clone_up.
Qed.

(** A placement is written for a name in use. *)
Lemma set_sound name address view st st' : _set_one_allocation name address view st = Ok st' ->
  (unused st -> forall i, (e_next st <= i)%nat -> fresh i <> name) -> sound st st'.
Proof.
  unfold _set_one_allocation. destruct view as [v|]; [|done]. intros [= <-] Hn. split; [by apply keeps_refl|].
  intros Hu. pose proof (Hn Hu) as Hne. destruct Hu as [U1 U2 U3 U4]. split; [done | done | done|]. cbn. intros i Hi. rewrite dget_dset.
  case_decide as E; [by destruct (Hne i Hi)|]. by apply U4.
Qed.

Lemma cleared_fits rho name l : fits rho (on_operation name _clear_loop_membership_metadata l) <-> fits rho l.
Proof.
  assert (forall o, let o' := if bool_decide (get_name o = name) then _clear_loop_membership_metadata o else o in
    stored o' = stored o /\ read_names o' = read_names o /\ forall n vs, value o' n vs = value o n vs) as He.
  { intros o. cbn. case_bool_decide; [|done]. split_and!; [done | done | apply (rb_clear Hvalue)]. }
  unfold fits, on_operation. split.
  - intros H o n Ho Hn. destruct (He o) as (E1 & E2 & E3). rewrite <- E1 in Hn. rewrite (H _ n (list_elem_of_fmap_2 _ _ _ Ho) Hn). by rewrite E2, E3.
  - intros H o' n (o & -> & Ho)%list_elem_of_fmap Hn. destruct (He o) as (E1 & E2 & E3). rewrite E1 in Hn. rewrite (H o n Ho Hn). by rewrite E2, E3.
Qed.

Lemma clear_sound name st : sound st (clear_membership name st).
Proof.
  split.
  - split; [done | cbn; intros rho H%cleared_fits; done |]. cbn. intros _ rho H. exists rho. split; [done|]. by apply cleared_fits.
  - intros [U1 U2 U3 U4]. split; [|done|done|done]. cbn. intros i o' Hi (o & -> & Ho)%list_elem_of_fmap. destruct (U1 i o Hi Ho) as (A & B & D).
    by case_bool_decide.
Qed.

Lemma replace_first_Ok old new : forall l l', replace_first old new l = Ok l' ->
  exists l1 l2, l = l1 ++ old :: l2 /\ l' = l1 ++ new :: l2 /\ old ∉ l1.
Proof.
  induction l as [|x l IH]; intros l' H; cbn in H; [done|]. case_bool_decide as E.
  - injection H as <-. subst x. exists [], l. split_and!; [done | done | apply not_elem_of_nil].
  - apply bind_Ok in H as (k & Hk & [= <-]). destruct (IH k Hk) as (l1 & l2 & -> & -> & Hn). exists (x :: l1), l2. split_and!; [done | done|].
    rewrite elem_of_cons. intros [? | ?]; [congruence | done].
Qed.

(** The clone that becomes an output carries the value. *)
Lemma output_sound name users address view st sc st1 st2 :
  cloned fresh clone_index name users false st sc.1 sc.2 ->
  _set_one_allocation name address view sc.1 = Ok st1 -> change_graph_output name sc.2 st1 = Ok st2 -> sound st st2.
Proof.
  intros Hc Hs Ho. pose proof (clone_sound _ _ _ _ _ _ Hc) as S1.
  assert (sound sc.1 st1) as S2.
  { apply (set_sound _ _ _ _ _ Hs). intros Hu i Hi E. destruct (cl_state _ _ _ _ _ _ _ _ Hc) as (_ & _ & E3 & _).
    destruct (cl_ops _ _ _ _ _ _ _ _ Hc) as (meta & l & own & Hl & Hops). destruct (cl_source _ _ _ _ _ _ _ _ Hc) as [(o & En & Hin)%list_elem_of_fmap | Hin].
    - destruct (us_ops _ Hu i o Hi) as [? _]; [apply Hops; right; by exists o | congruence].
    - apply (us_inputs _ Hu i Hi). rewrite E3. by rewrite E. }
  destruct (sound_trans _ _ _ S1 S2) as [[K1 K2 K3] K4].
  unfold change_graph_output in Ho. apply bind_Ok in Ho as (outs' & Hr & [= <-]). apply replace_first_Ok in Hr as (l1 & l2 & E1 & E2 & _).
  unfold _set_one_allocation in Hs. destruct view as [v|]; [|done]. injection Hs as <-. cbn in *. split.
  - split; [done | | done]. cbn. intros rho H. destruct (K2 rho H) as [K2' Eout]. split; [done|]. rewrite <- Eout, E1, E2, !fmap_app. cbn.
    by rewrite (clone_carries _ _ _ _ _ _ Hc rho H).
  - intros Hu. specialize (K4 Hu). destruct K4 as [U1 U2 U3 U4]. split; [done | | done | done]. cbn in *. intros i Hi. specialize (U2 i Hi). rewrite E1 in U2. rewrite E2.
    rewrite elem_of_app, elem_of_cons in U2 |- *. rewrite (cl_name _ _ _ _ _ _ _ _ Hc), (cl_next _ _ _ _ _ _ _ _ Hc) in *.
    intros [? | [E%Hinj | ?]]; [tauto | lia | tauto].
Qed.

Context (clone_ownership : bool -> operation -> layout -> option PerCoreView -> res TensorWorkDivision).

Lemma known_used name st : get_buffer (eg st) name = Ok tt -> unused st -> forall i, (e_next st <= i)%nat -> fresh i <> name.
Proof.
  unfold get_buffer, try_get_layout. intros H Hu i Hi E. destruct (find_op (eg st) name) as [o|] eqn:Eo.
  - apply find_op_Some in Eo as [Ho En]. destruct (us_ops _ Hu i o Hi Ho) as [? _]. congruence.
  - destruct (dget (graph_inputs (eg st)) name) eqn:Ed; [|done]. apply (us_inputs _ Hu i Hi). apply dget_is_Some. rewrite E, Ed. by eexists.
Qed.

Lemma push_buffer_sound inputs outputs buffer_users b st st' :
  push_buffer clone_index fresh clone_ownership inputs outputs buffer_users b st = Ok st' -> sound st st'.
Proof.
  unfold push_buffer. destruct (address (ab b)) as [a|]; [|intros [= <-]; split; [by apply keeps_refl | done]].
  destruct (String.prefix _ _); [intros [= <-]; split; [by apply keeps_refl | done]|]. intros H. apply bind_Ok in H as ([] & Hg & H). case_bool_decide; [|case_bool_decide].
  - apply bind_Ok in H as (users & _ & H). apply bind_Ok in H as (h & _ & H). apply bind_Ok in H as ([s1 c] & Hp%push_clone_Ok & H). cbn [fst snd] in *.
    pose proof (clone_sound _ _ _ _ _ _ Hp) as S1. set (s2 := match h with Some _ => _ | None => _ end) in *.
    assert (sound s1 s2 /\ e_next s2 = e_next s1) as [S2 En] by (destruct h; [split; [apply clear_sound | done] | split; [split; [by apply keeps_refl | done] | done]]).
    apply (sound_trans _ s2); [by apply (sound_trans _ s1)|]. apply (set_sound _ _ _ _ _ H). intros _ i Hi E.
    rewrite (cl_name _ _ _ _ _ _ _ _ Hp) in E. apply Hinj in E. rewrite En, (cl_next _ _ _ _ _ _ _ _ Hp) in Hi. lia.
  - apply bind_Ok in H as (users & _ & H). apply bind_Ok in H as (sc & Hp & H). apply bind_Ok in H as (s1 & Hs & H). destruct sc as [s0 c].
    apply push_clone_Ok in Hp. by eapply (output_sound _ _ _ _ _ (s0, c)).
  - apply (set_sound _ _ _ _ _ H). by apply known_used.
Qed.

Context (readers_certified contract_kept : graph -> LXRelayoutPlan -> bool).

Lemma materialize_sound p st st' : materialize_relayout clone_index fresh clone_ownership contract_kept p st = Ok st' -> sound st st'.
Proof.
  unfold materialize_relayout. intros H. do 3 (apply bind_Ok in H as (? & _ & H)). apply bind_Ok in H as ([s1 c] & Hp%push_clone_Ok & H). cbn [fst snd] in H.
  destruct (destination_address p) as [d|]; [|done]. apply (sound_trans _ s1); [by eapply clone_sound|].
  pose proof (set_sound c d (Some (destination_view p)) s1 _ eq_refl) as S. destruct S as [[K1 K2 K3] U].
  - intros _ i Hi E. rewrite (cl_name _ _ _ _ _ _ _ _ Hp) in E. apply Hinj in E. rewrite (cl_next _ _ _ _ _ _ _ _ Hp) in Hi. lia.
  - injection H as <-. split; [by split | intros Hu; destruct (U Hu); by split].
Qed.

Lemma for_each_sound {A} (f : A -> edited -> res edited) l st st' :
  (forall x s s', f x s = Ok s' -> sound s s') -> for_each f l st = Ok st' -> sound st st'.
Proof.
  intros Hf. revert st. induction l as [|x l IH]; intros st H; cbn in H; [injection H as <-; split; [by apply keeps_refl | done]|].
  apply bind_Ok in H as (s1 & H1 & H). apply (sound_trans _ s1); [by eapply Hf | by apply IH].
Qed.

Lemma push_sound bufs accepted st st' :
  _push_allocation clone_index fresh clone_ownership readers_certified contract_kept bufs accepted st = Ok st' -> sound st st'.
Proof.
  unfold _push_allocation. intros (s1 & H1 & H)%bind_Ok. apply (sound_trans _ s1).
  - eapply for_each_sound; [|exact H1]. intros x s s'. apply push_buffer_sound.
  - unfold materialize_lx_relayouts in H. apply bind_Ok in H as (_ & _ & H). apply bind_Ok in H as (_ & _ & H).
    eapply for_each_sound; [|exact H]. intros x s s'. apply materialize_sound.
Qed.

(** C8. Committing a placement keeps what the graph computes: the values that fit the edited
    operations are the values that fit the original ones, extended to the clones, and the
    outputs of the edited graph have the values of the original outputs. *)
Theorem push_keeps_values bufs accepted st st' : unused st ->
  _push_allocation clone_index fresh clone_ownership readers_certified contract_kept bufs accepted st = Ok st' ->
  (forall rho, fits rho (ops st') -> fits rho (ops st) /\ rho <$> outs st' = rho <$> outs st) /\
  (forall rho, fits rho (ops st) -> exists rho', (forall n, (forall i, (e_next st <= i)%nat -> n <> fresh i) -> rho' n = rho n) /\ fits rho' (ops st')).
Proof. intros Hu H. destruct (push_sound _ _ _ _ H) as [[_ Hd Hup] _]. split; [exact Hd | exact (Hup Hu)]. Qed.
End values.
