(* ===== verification/ConstantKey.v ===== *)
(** * The identity of a constant ([_constant_key] of [dedup_constants.py])

    A constant node carries a Python scalar, a dtype and a device; the pass groups the nodes
    by the tuple of the three, so by Python's [==] on the scalars.  Scalars are booleans,
    integers and floats; a float is written with its sign, an integer mantissa and a power of
    two, and a NaN with the identity of its object, since a tuple compares its elements by
    identity first.  [py_eq] is the comparison, [number_of] a normal form that is equal exactly
    where the comparison holds, and [materialized] what a kernel that fills a tensor with the
    scalar can see of it, the sign of a zero included.

    The second part is grouping by any key, as [groups.setdefault(key, []).append(op)] does. *)

From S2P Require Import Prelude PyDict.

(** ** Scalars *)

Inductive scalar :=
  | Bool (b : bool)
  | Int (z : Z)
  | Zero (negative : bool)
  | Finite (negative : bool) (m : positive) (e : Z)
  | Inf (negative : bool)
  | NaN (object : Z).

(** A finite number as a mantissa and a power of two. *)
Definition dyadic (s : scalar) : option (Z * Z) :=
  match s with
  | Bool b => Some (if b then 1 else 0, 0)
  | Int z => Some (z, 0)
  | Zero _ => Some (0, 0)
  | Finite negative m e => Some (if negative then Z.neg m else Z.pos m, e)
  | Inf _ | NaN _ => None
  end.

(** [a is b or a == b] *)
Definition py_eq (a b : scalar) : bool :=
  match dyadic a, dyadic b with
  | Some (m, e), Some (m', e') => m * 2 ^ (e - Z.min e e') =? m' * 2 ^ (e' - Z.min e e')
  | None, None =>
      match a, b with
      | Inf s, Inf s' => eqb s s'
      | NaN i, NaN j => i =? j
      | _, _ => false
      end
  | _, _ => false
  end.

(** The mantissa without its powers of two. *)
Fixpoint odd_part (m : positive) (e : Z) : positive * Z :=
  match m with xO m' => odd_part m' (e + 1) | _ => (m, e) end.

Inductive number :=
  | NZero
  | NFinite (negative : bool) (m : positive) (e : Z)
  | NInf (negative : bool)
  | NNaN (object : Z).

#[export] Instance number_eq_dec : EqDecision number.
Proof. solve_decision. Defined.

Definition number_of (s : scalar) : number :=
  match dyadic s with
  | Some (Z0, _) => NZero
  | Some (Z.pos m, e) => let '(m, e) := odd_part m e in NFinite false m e
  | Some (Z.neg m, e) => let '(m, e) := odd_part m e in NFinite true m e
  | None => match s with Inf negative => NInf negative | NaN object => NNaN object | _ => NZero end
  end.

(** The number, and whether it is a negative zero. *)
Definition materialized (s : scalar) : number * bool :=
  (match number_of s with NNaN _ => NNaN 0 | n => n end, match s with Zero negative => negative | _ => false end).

Lemma odd_part_spec m e : let '(m', e') := odd_part m e in
  e <= e' /\ Z.pos m = Z.pos m' * 2 ^ (e' - e) /\ Z.odd (Z.pos m') = true.
Proof.
  revert e. induction m as [m IH | m IH |]; intros e; cbn [odd_part].
  - rewrite Z.sub_diag. split_and!; [done | lia | done].
  - specialize (IH (e + 1)). destruct (odd_part m (e + 1)) as [m' e']. destruct IH as (Hle & E & Ho).
    split_and!; [lia | | done]. replace (e' - e) with (Z.succ (e' - (e + 1))) by lia. rewrite Z.pow_succ_r by lia. lia.
  - rewrite Z.sub_diag. split_and!; [done | lia | done].
Qed.

(** Odd mantissas of equal numbers are equal. *)
Lemma odd_unique m n k : 0 <= k -> Z.odd m = true -> Z.odd n = true -> m = n * 2 ^ k -> k = 0.
Proof.
  intros Hk Hm Hn ->. destruct (decide (k = 0)) as [| Hne]; [done|].
  replace k with (Z.succ (k - 1)) in Hm by lia. rewrite Z.pow_succ_r in Hm by lia.
  rewrite Z.odd_mul, Z.odd_mul in Hm. cbn in Hm. by rewrite andb_false_r in Hm.
Qed.

Lemma odd_part_eq m e n f k : k <= e -> k <= f ->
  Z.pos m * 2 ^ (e - k) = Z.pos n * 2 ^ (f - k) <-> odd_part m e = odd_part n f.
Proof.
  intros He Hf. pose proof (odd_part_spec m e) as Hm. pose proof (odd_part_spec n f) as Hn.
  destruct (odd_part m e) as [m' e'], (odd_part n f) as [n' f']. destruct Hm as (Le & -> & Om), Hn as (Lf & -> & On).
  rewrite <- !Z.mul_assoc, <- !Z.pow_add_r by lia. replace (e' - e + (e - k)) with (e' - k) by lia. replace (f' - f + (f - k)) with (f' - k) by lia.
  split; [|by intros [= -> ->]]. intros E.
  assert (forall a b x y, x <= y -> k <= x -> Z.odd a = true -> Z.odd b = true -> a * 2 ^ (x - k) = b * 2 ^ (y - k) -> x = y /\ a = b) as H.
  { intros a b x y Hxy Hx Ha Hb E'. replace (y - k) with ((y - x) + (x - k)) in E' by lia. rewrite Z.pow_add_r, Z.mul_assoc in E' by lia.
    apply Z.mul_cancel_r in E'; [|apply Z.pow_nonzero; lia]. pose proof (odd_unique a b (y - x) ltac:(lia) Ha Hb E') as Hz.
    rewrite Hz, Z.pow_0_r in E'. lia. }
  destruct (Z.le_ge_cases e' f') as [Hle | Hle].
  - destruct (H _ _ _ _ Hle ltac:(lia) Om On E) as [-> [= ->]]. done.
  - destruct (H _ _ _ _ Hle ltac:(lia) On Om (eq_sym E)) as [-> [= ->]]. done.
Qed.

(** The normal form is Python's comparison. *)
Lemma py_eq_number a b : py_eq a b = true <-> number_of a = number_of b.
Proof.
  unfold py_eq, number_of. destruct (dyadic a) as [[m e]|] eqn:Ea, (dyadic b) as [[n f]|] eqn:Eb.
  - rewrite Z.eqb_eq. set (k := Z.min e f). assert (k <= e /\ k <= f) as [He Hf] by (unfold k; lia).
    pose proof (Z.pow_pos_nonneg 2 (e - k) ltac:(lia) ltac:(lia)). pose proof (Z.pow_pos_nonneg 2 (f - k) ltac:(lia) ltac:(lia)).
    assert (forall q g, (let '(m, e) := odd_part q g in NFinite false m e) <> NZero /\ (let '(m, e) := odd_part q g in NFinite true m e) <> NZero) as Hz
      by (intros q g; by destruct (odd_part q g)).
    assert (forall q g q' g', (let '(m, e) := odd_part q g in NFinite false m e) <> (let '(m, e) := odd_part q' g' in NFinite true m e)) as Hs
      by (intros q g q' g'; by destruct (odd_part q g), (odd_part q' g')).
    destruct m as [|m|m], n as [|n|n].
    1: done.
    1,2: split; [nia | intros E; by destruct (Hz n f) as [? ?]; congruence].
    1,4: split; [nia | intros E; by destruct (Hz m e) as [? ?]; congruence].
    2,3: split; [nia | intros E; exfalso; eapply Hs; eauto].
    + rewrite (odd_part_eq m e n f k He Hf). destruct (odd_part m e), (odd_part n f). split; [by intros [= -> ->] | by intros [= -> ->]].
    + pose proof (odd_part_eq m e n f k He Hf) as E. rewrite <- !Pos2Z.opp_pos, !Z.mul_opp_l, Z.opp_inj_wd, E.
      destruct (odd_part m e), (odd_part n f). split; [by intros [= -> ->] | by intros [= -> ->]].
  - split; [done|]. destruct b; try discriminate Eb; destruct m as [|m|m]; try destruct (odd_part _ _); done.
  - split; [done|]. destruct a; try discriminate Ea; destruct n as [|n|n]; try destruct (odd_part _ _); done.
  - destruct a, b; try discriminate Ea; try discriminate Eb; try done.
    + rewrite eqb_true_iff. split; [by intros -> | by intros [= ->]].
    + rewrite Z.eqb_eq. split; [by intros -> | by intros [= ->]].
Qed.

(** Equal scalars fill a tensor alike if both are negative zeros or neither is. *)
Lemma py_eq_materialized a b : number_of a = number_of b -> (materialized a).2 = (materialized b).2 -> materialized a = materialized b.
Proof. unfold materialized. by intros -> ?%(f_equal (pair (match number_of b with NNaN _ => NNaN 0 | n => n end))). Qed.

(** ** Constants *)

(** [constant_args[0]], [layout.dtype] and [layout.device] of a [SpyreConstantFallback]. *)
Record constant_fields := mkConstant {
  constant_value : scalar;
  constant_dtype : string;
  device_type : string;
  device_index : option Z
}.

(** [torch.device(type)] or [torch.device(type, index)] *)
Definition norm_dev (f : constant_fields) : string * option Z :=
  match device_index f with Some i => (device_type f, Some i) | None => (device_type f, None) end.

Notation key := (number * string * (string * option Z))%type.

Definition _constant_key (f : constant_fields) : key := (number_of (constant_value f), constant_dtype f, norm_dev f).

(** ** Grouping by keys *)

Section grouping.
Context {K V : Type} `{EqDecision K}.

(** [m.setdefault(k, []).append(v)] *)
Definition setdefault_append (k : K) (v : V) (m : list (K * list V)) : list (K * list V) :=
  aset k (default [] (aget m k) ++ [v]) m.

Definition grouped (l : list (K * V)) : list (K * list V) := foldl (fun m kv => setdefault_append kv.1 kv.2 m) [] l.

Lemma aset_keys {W} (k : K) (v : W) m k' : k' ∈ (aset k v m).*1 <-> k' = k \/ k' ∈ m.*1.
Proof.
  induction m as [|[k1 v1] m IH]; cbn [aset].
  - cbn. rewrite list_elem_of_singleton. split; [by left | intros [? | H]; [done | by apply elem_of_nil in H]].
  - destruct (decide (k = k1)) as [-> | Hne]; cbn; rewrite !elem_of_cons; [tauto|]. rewrite IH. tauto.
Qed.

Lemma aset_NoDup {W} (k : K) (v : W) m : NoDup m.*1 -> NoDup (aset k v m).*1.
Proof.
  induction m as [|[k1 v1] m IH]; cbn [aset]; [intros _; cbn; apply NoDup_singleton|].
  destruct (decide (k = k1)) as [-> | Hne]; cbn; [done|]. intros [Hn Hm]%NoDup_cons. apply NoDup_cons. split; [|by apply IH].
  rewrite aset_keys. intros [-> | ?]; done.
Qed.

Lemma grouped_keys l : NoDup (grouped l).*1.
Proof.
  unfold grouped. assert (forall m, NoDup m.*1 -> NoDup (foldl (fun m kv => setdefault_append kv.1 kv.2 m) m l).*1) as H; [|apply H; constructor].
  induction l as [|kv l IH]; intros m Hm; cbn [foldl]; [done|]. by apply IH, aset_NoDup.
Qed.

Lemma grouped_get l k : default [] (aget (grouped l) k) = (filter (fun kv : K * V => kv.1 = k) l).*2.
Proof.
  unfold grouped. assert (forall m, default [] (aget (foldl (fun m kv => setdefault_append kv.1 kv.2 m) m l) k)
    = default [] (aget m k) ++ (filter (fun kv : K * V => kv.1 = k) l).*2) as H; [|by rewrite H].
  induction l as [|[k1 v1] l IH]; intros m; cbn [foldl]; [by rewrite app_nil_r|]. rewrite IH. unfold setdefault_append. cbn [fst snd].
  rewrite aget_aset, filter_cons. cbn [fst]. destruct (decide (k = k1)) as [<- | Hne].
  - rewrite decide_True by done. cbn. by rewrite <- app_assoc.
  - by rewrite decide_False by done.
Qed.

Lemma grouped_mem l k : k ∈ (grouped l).*1 <-> k ∈ l.*1.
Proof.
  unfold grouped. assert (forall m, k ∈ (foldl (fun m kv => setdefault_append kv.1 kv.2 m) m l).*1 <-> k ∈ m.*1 \/ k ∈ l.*1) as H.
  2: { rewrite H. split; [intros [Hn | ?]; [by apply elem_of_nil in Hn | done] | by right]. }
  induction l as [|[k1 v1] l IH]; intros m; cbn [foldl]; [cbn; rewrite elem_of_nil; tauto|].
  rewrite IH. unfold setdefault_append. rewrite aset_keys. cbn. rewrite elem_of_cons. tauto.
Qed.
End grouping.
