(* ===== verification/DedupConstants.v ===== *)
(** * Merging constants ([dedup_constants.py])

    Constants with the same value, dtype and device are merged: the readers of a duplicate
    are made to read the first one, the duplicate is dropped, and the constants that are
    left move to the head of the operation list.

    [fallback] gives the fields of the node of a name where that is a constant
    ([SpyreConstantFallback]); [ConstantKey._constant_key] makes the key.  Operations keep
    their names under edits, so a name stands for an operation.  Provenance records are left
    out. *)

From S2P Require Import Prelude PyDict PlanSolver Liveness CoreMapping CoreViews BufferFacts Allocator AllocatorExamples ContextSwitch ContextSwitchSafe GraphEdit GraphEditValues ConstantKey.

Section dedup.
Context (fallback : string -> option constant_fields).

Definition constant_key (o : operation) : option key := _constant_key <$> fallback (get_name o).

Record merging := mkMerging {
  mg_ops : list operation;
  removed_buffers : list string;
  mg_users : dict (list string)
}.

(** The constants with their keys. *)
Definition constants (ops : list operation) : list (key * string) :=
  omap (fun o => (fun k => (k, get_name o)) <$> constant_key o) ops.

Definition groups (ops : list operation) : list (key * list string) := grouped (constants ops).

(** Every duplicate with the constant that replaces it, in the order of the loop. *)
Definition group_duplicates (kg : key * list string) : list (string * string) :=
  match kg.2 with [] => [] | canonical :: dups => (fun d => (d, canonical)) <$> dups end.

Definition duplicates (ops : list operation) : list (string * string) := groups ops ≫= group_duplicates.

Definition _build_reverse_consumer_index (ops : list operation) (duplicate_names : list string) : dict (list string) :=
  foldl (fun m o => foldl (fun m name => append_to name (get_name o) m) m
    (remove_dups (filter (fun n => n ∈ duplicate_names) (read_names o)))) [] ops.

Definition redirect_consumer (dup canonical consumer : string) (ops : list operation) : res (list operation) :=
  if bool_decide (consumer = dup) || bool_decide (consumer = canonical) then Ok ops
  else match list_find (fun o => get_name o = consumer) ops with
       | Some (_, o) =>
           if bool_decide (is_Some (computed o)) then Ok (on_operation consumer (_replace_loop_input dup canonical) ops) else Raise AssertionError
       | None => Raise AssertionError
       end.

Definition _redirect_consumers (outputs consumers : list string) (dup canonical : string) (ops : list operation) : res (list operation) :=
  if bool_decide (dup ∈ outputs) then Ok ops else for_each (redirect_consumer dup canonical) consumers ops.

(** [operations.remove(dup)] *)
Definition remove_operation (dup : string) (ops : list operation) : res (list operation) :=
  if bool_decide (dup ∈ (get_name <$> ops)) then Ok (filter (fun o => get_name o <> dup) ops) else Raise ValueError.

Definition dpop (k : string) (d : dict (list string)) : dict (list string) := filter (fun kv => kv.1 <> k) d.

Definition _drop_constant (dup canonical : string) (st : merging) : res merging :=
  ops ← remove_operation dup (mg_ops st);
  let extra := dget_or [] (mg_users st) dup in
  let users := dpop dup (mg_users st) in
  Ok (mkMerging ops (removed_buffers st ++ [dup])
        (if bool_decide (extra = []) then users else dset canonical (dget_or [] users canonical ++ extra) users)).

Definition merge_duplicate (outputs : list string) (index : dict (list string)) (dc : string * string) (st : merging) : res merging :=
  ops ← _redirect_consumers outputs (dget_or [] index dc.1) dc.1 dc.2 (mg_ops st);
  _drop_constant dc.1 dc.2 (mkMerging ops (removed_buffers st) (mg_users st)).

Definition is_constant (o : operation) : bool := bool_decide (is_Some (constant_key o)).

(** Constants first. *)
Definition promote (ops : list operation) : list operation :=
  filter (fun o => is_constant o = true) ops ++ filter (fun o => is_constant o = false) ops.

Definition dedup_and_promote_constants (outputs : list string) (st : merging) : res merging :=
  let dups := duplicates (mg_ops st) in
  let index := _build_reverse_consumer_index (mg_ops st) (filter (fun d => d ∉ outputs) dups.*1) in
  st' ← for_each (merge_duplicate outputs index) dups st;
  Ok (mkMerging (promote (mg_ops st')) (removed_buffers st') (mg_users st')).

(** ** The duplicates *)

(** Names are unique. *)
Section names.
Context (ops : list operation) (Hnames : NoDup (get_name <$> ops)).

Lemma same_name (o o' : operation) : o ∈ ops -> o' ∈ ops -> get_name o = get_name o' -> o = o'.
Proof.
  intros [i Hi]%list_elem_of_lookup [j Hj]%list_elem_of_lookup E.
  assert (i = j) as ->; [|congruence]. apply (NoDup_lookup _ i j (get_name o) Hnames); rewrite list_lookup_fmap; [by rewrite Hi | rewrite Hj; cbn; congruence].
Qed.

Lemma elem_of_constants k n : (k, n) ∈ constants ops <-> exists o, o ∈ ops /\ constant_key o = Some k /\ get_name o = n.
Proof.
  unfold constants. rewrite list_elem_of_omap. split.
  - intros (o & Ho & E). destruct (constant_key o) as [k'|] eqn:Ek; [|done]. injection E as <- <-. by exists o.
  - intros (o & Ho & Ek & <-). exists o. by rewrite Ek.
Qed.

Lemma constants_names : NoDup (constants ops).*2.
Proof.
  assert (sublist (constants ops).*2 (get_name <$> ops)) as Hs.
  { clear. induction ops as [|o l IH]; [done|]. unfold constants. cbn. destruct (constant_key o); cbn; [by apply sublist_skip | by apply sublist_cons]. }
  eapply sublist_NoDup; [exact Hnames | exact Hs].
Qed.

Lemma group_of k l : (k, l) ∈ groups ops -> l = (filter (fun kn : key * string => kn.1 = k) (constants ops)).*2 /\ aget (groups ops) k = Some l.
Proof.
  intros H. assert (aget (groups ops) k = Some l) as E by (apply aget_NoDup; [apply grouped_keys | done]). split; [|done].
  pose proof (grouped_get (constants ops) k) as Hf. unfold groups in E. by rewrite E in Hf.
Qed.

Lemma group_member k l n : (k, l) ∈ groups ops -> n ∈ l -> (k, n) ∈ constants ops.
Proof. intros [-> _]%group_of ([k' n'] & -> & [E Hin]%list_elem_of_filter)%list_elem_of_fmap. cbn in E. by subst. Qed.

Lemma sublist_fmap {A B} (f : A -> B) l k : sublist l k -> sublist (f <$> l) (f <$> k).
Proof. induction 1; cbn; by constructor. Qed.

Lemma group_distinct k l : (k, l) ∈ groups ops -> NoDup l.
Proof. intros [-> _]%group_of. eapply sublist_NoDup; [apply constants_names|]. apply sublist_fmap, sublist_filter. Qed.

Lemma elem_of_rest {A} (l : list A) x : x ∈ drop 1 l -> x ∈ l.
Proof. destruct l; [done|]. cbn. rewrite drop_0. by right. Qed.

(** One group per name. *)
Lemma group_unique k l k' l' n : (k, l) ∈ groups ops -> (k', l') ∈ groups ops -> n ∈ l -> n ∈ l' -> (k, l) = (k', l').
Proof.
  intros Hg Hg' Hn Hn'. pose proof (group_member _ _ _ Hg Hn) as (o & Ho & Ek & En)%elem_of_constants.
  pose proof (group_member _ _ _ Hg' Hn') as (o' & Ho' & Ek' & En')%elem_of_constants. assert (o = o') as <- by (apply same_name; [done | done | congruence]).
  assert (k = k') as <- by congruence. destruct (group_of _ _ Hg) as [_ E], (group_of _ _ Hg') as [_ E']. congruence.
Qed.

(** A duplicate and what replaces it are two constants of one key. *)
Lemma duplicates_spec d c : (d, c) ∈ duplicates ops -> d <> c /\
  exists od oc k, od ∈ ops /\ oc ∈ ops /\ get_name od = d /\ get_name oc = c /\ constant_key od = Some k /\ constant_key oc = Some k.
Proof.
  unfold duplicates. intros ([k l] & Hd & Hg)%list_elem_of_bind. unfold group_duplicates in Hd. cbn in Hd. destruct l as [|c' ds]; [by apply elem_of_nil in Hd|].
  apply list_elem_of_fmap in Hd as (d' & [= -> ->] & Hd). pose proof (group_distinct _ _ Hg) as [Hnd _]%NoDup_cons. split; [by intros ->|].
  pose proof (proj1 (elem_of_constants _ _) (group_member _ _ d' Hg ltac:(by right))) as (od & Hod & Ek & En).
  pose proof (proj1 (elem_of_constants _ _) (group_member _ _ c' Hg ltac:(by left))) as (oc & Hoc & Ek' & En'). by exists od, oc, k.
Qed.

Lemma duplicates_once : NoDup (duplicates ops).*1 /\ forall c, c ∈ (duplicates ops).*2 -> c ∉ (duplicates ops).*1.
Proof.
  assert (forall kg, (group_duplicates kg).*1 = drop 1 kg.2) as Hg1.
  { intros [k [|c l]]; [done|]. unfold group_duplicates. cbn. rewrite <- list_fmap_compose. apply list_fmap_id. }
  assert ((duplicates ops).*1 = groups ops ≫= (fun kg => drop 1 kg.2)) as E1.
  { unfold duplicates. clear -Hg1. induction (groups ops) as [|kg l IH]; [done|]. rewrite !bind_cons, fmap_app. by rewrite Hg1, IH. } rewrite E1. split.
  - apply NoDup_bind_disjoint.
    + apply (NoDup_fmap_1 fst), grouped_keys.
    + intros [k l] Hg. cbn. eapply sublist_NoDup; [by eapply group_distinct|]. apply sublist_drop.
    + intros [k l] [k' l'] n Hg Hg' Hn Hn'. cbn in Hn, Hn'. eapply (group_unique _ _ _ _ n); [done | done | |]; by apply elem_of_rest.
  - intros c ([d c'] & -> & Hd)%list_elem_of_fmap ([k' l'] & Hc' & Hg')%list_elem_of_bind. cbn in Hc'.
    unfold duplicates in Hd. apply list_elem_of_bind in Hd as ([k l] & Hd & Hg). unfold group_duplicates in Hd. cbn in Hd.
    destruct l as [|c0 ds]; [by apply elem_of_nil in Hd|]. apply list_elem_of_fmap in Hd as (d' & [= -> ->] & Hd). cbn in Hc'.
    assert ((k, c0 :: ds) = (k', l')) as [= <- <-] by (apply (group_unique _ _ _ _ c0); [done | done | list_mem | by apply elem_of_rest]).
    cbn in Hc'. rewrite drop_0 in Hc'. by apply group_distinct, NoDup_cons in Hg as [? _].
Qed.

(** Only the head of a group is not a duplicate. *)
Lemma group_head k n n' : (k, n) ∈ constants ops -> (k, n') ∈ constants ops -> n ∉ (duplicates ops).*1 -> n' ∉ (duplicates ops).*1 -> n = n'.
Proof.
  intros H H'. destruct (aget (groups ops) k) as [l|] eqn:E.
  - apply aget_Some_elem in E as Hg. pose proof (group_of _ _ Hg) as [El _].
    assert (forall m, (k, m) ∈ constants ops -> m ∉ (duplicates ops).*1 -> head l = Some m) as Hh.
    { intros m Hm Hd. assert (m ∈ l) as Hl by (rewrite El; apply list_elem_of_fmap; exists (k, m); split; [done | by apply list_elem_of_filter]).
      destruct l as [|c ds]; [by apply elem_of_nil in Hl|]. apply elem_of_cons in Hl as [-> | Hl]; [done|]. destruct Hd. apply list_elem_of_fmap. exists (m, c). split; [done|].
      unfold duplicates. apply list_elem_of_bind. exists (k, c :: ds). split; [|done]. unfold group_duplicates. cbn. by apply (list_elem_of_fmap_2 (fun d => (d, c))). }
    intros N N'. pose proof (Hh n H N). pose proof (Hh n' H' N'). congruence.
  - destruct (proj2 (aget_is_Some (groups ops) k)) as [? ?]; [|congruence]. apply grouped_mem. by apply (list_elem_of_fmap_2 fst) in H.
Qed.

Lemma duplicates_keys : NoDup (dkeys (duplicates ops)).
Proof. apply duplicates_once. Qed.

(** The readers of a duplicate are in the index. *)
Lemma index_spec names d : d ∈ names ->
  dget_or [] (_build_reverse_consumer_index ops names) d = get_name <$> filter (fun o => d ∈ read_names o) ops.
Proof.
  intros Hd. unfold _build_reverse_consumer_index.
  assert (forall (l : list operation) m, foldl (fun m o => foldl (fun m name => append_to name (get_name o) m) m (remove_dups (filter (fun n => n ∈ names) (read_names o)))) m l
    = foldl (fun m kn => append_to kn.1 kn.2 m) m (l ≫= (fun o => (fun n => (n, get_name o)) <$> remove_dups (filter (fun n => n ∈ names) (read_names o))))) as ->.
  { intros l. induction l as [|o l IH]; intros m; [done|]. rewrite bind_cons, foldl_app. cbn [foldl]. rewrite IH. f_equal.
    generalize (remove_dups (filter (fun n => n ∈ names) (read_names o))) as k. clear. intros k. revert m. induction k as [|n k IH]; intros m; [done|]. cbn. apply IH. }
  rewrite (group_fold (fun kn : string * string => kn.1) snd). cbn [app]. unfold dget_or. cbn. clear Hnames. induction ops as [|o l IH]; [done|].
  rewrite bind_cons, filter_app, fmap_app, IH, filter_cons. set (k := remove_dups _).
  assert (NoDup k) as Hk by apply NoDup_remove_dups.
  assert (d ∈ k <-> d ∈ read_names o) as Hdk by (unfold k; rewrite elem_of_remove_dups, list_elem_of_filter; tauto).
  assert (snd <$> filter (fun kn : string * string => kn.1 = d) ((fun n => (n, get_name o)) <$> k) = if decide (d ∈ k) then [get_name o] else []) as ->.
  { clear -Hk. induction Hk as [|n k Hn Hk IH]; [done|]. rewrite fmap_cons, filter_cons. cbn [fst]. destruct (decide (n = d)) as [-> | Hne].
    - rewrite fmap_cons, IH. cbn [snd]. destruct (decide (d ∈ k)); [done|]. by rewrite decide_True by list_mem.
    - rewrite IH. apply decide_ext. rewrite elem_of_cons. intuition congruence. }
  destruct (decide (d ∈ k)), (decide (d ∈ read_names o)); [done | tauto | tauto | done].
Qed.
End names.

(** ** One duplicate at a time *)

(** An operation after some of its loads were renamed. *)
Inductive renamed_from (o : operation) : operation -> Prop :=
  | rf_refl : renamed_from o o
  | rf_step o' old new : renamed_from o o' -> renamed_from o (_replace_loop_input old new o').

Lemma renamed_facts o o' : renamed_from o o' -> get_name o' = get_name o /\ stored o' = stored o /\ computed o' = computed o.
Proof. induction 1 as [|o' old new H (E1 & E2 & E3)]; [done|]. rewrite <- E1, <- E2, <- E3. done. Qed.

Lemma renamed_redirected o o' d c us : renamed_from o o' -> renamed_from o (redirected d c us o').
Proof. intros H. unfold redirected. case_bool_decide; [by constructor | done]. Qed.

(** The name a load of [n] gets. *)
Definition new_name (done : dict string) (n : string) : string := dget_or n done n.

Lemma dget_app {V} (d1 d2 : dict V) k : dget (d1 ++ d2) k = match dget d1 k with Some v => Some v | None => dget d2 k end.
Proof. induction d1 as [|[k' v] d1 IH]; [done|]. cbn. by case_decide. Qed.

Lemma new_name_app done d c n : d ∉ done.*2 ->
  new_name (done ++ [(d, c)]) n = if decide (new_name done n = d) then c else new_name done n.
Proof.
  unfold new_name, dget_or. intros Hd. rewrite dget_app. destruct (dget done n) as [c'|] eqn:E; cbn.
  - rewrite decide_False; [done|]. intros ->. apply Hd. apply dget_Some_elem in E. by apply (list_elem_of_fmap_2 snd) in E.
  - by case_decide.
Qed.

Lemma redirected_reads d c us o : get_name o ∈ us \/ d ∉ read_names o ->
  read_names (redirected d c us o) = (fun n => if decide (n = d) then c else n) <$> read_names o.
Proof.
  intros H. unfold redirected. case_bool_decide as E.
  - unfold read_names. cbn. rewrite <- !list_fmap_compose. apply list_fmap_ext. intros i x _. cbn. unfold swap_name.
    destruct (decide (dep_name x = d)) as [Ed | Ed]; [by rewrite bool_decide_eq_true_2 | by rewrite bool_decide_eq_false_2].
  - destruct H as [? | H]; [done|]. symmetry. rewrite <- (list_fmap_id (read_names o)) at 2. apply list_fmap_ext.
    intros i x Hx%list_elem_of_lookup_2. rewrite decide_False; [done | by intros ->].
Qed.

Lemma redirect_total d c : forall cs ops,
  (forall u, u ∈ cs -> u <> d -> u <> c -> exists o, o ∈ ops /\ get_name o = u) -> (forall o, o ∈ ops -> get_name o ∈ cs -> is_Some (computed o)) ->
  for_each (redirect_consumer d c) cs ops = Ok (redirected d c (filter (fun u => u <> d /\ u <> c) cs) <$> ops).
Proof.
  induction cs as [|u cs IH]; intros ops Hf Hc; cbn [for_each]; [by rewrite redirected_nil|]. rewrite filter_cons. unfold redirect_consumer at 2.
  destruct (decide (u <> d /\ u <> c)) as [[Hd Hcc] | Hno].
  - rewrite !bool_decide_eq_false_2 by done. cbn [orb]. destruct (list_find _ ops) as [[j o]|] eqn:E.
    + apply list_find_Some in E as (Hj & En & _). rewrite bool_decide_eq_true_2 by (apply Hc; [by eapply list_elem_of_lookup_2 | rewrite En; list_mem]).
      cbn [mbind res_bind]. rewrite IH; [f_equal; apply redirected_cons | |].
      * intros u' Hu' H1 H2. destruct (Hf u') as (o' & Ho' & <-); [by right | done | done|]. eexists. split; [by apply list_elem_of_fmap_2|]. by case_bool_decide.
      * intros o' (o0 & -> & Ho0)%list_elem_of_fmap. case_bool_decide; cbn; intros ?; apply Hc; [done | by right | done | by right].
    + apply list_find_None in E. destruct (Hf u) as (o & Ho & En); [list_mem | done | done|]. rewrite Forall_forall in E. by destruct (E o Ho).
  - destruct (orb _ _) eqn:E; [|apply orb_false_iff in E as [E1%bool_decide_eq_false E2%bool_decide_eq_false]; tauto].
    cbn [mbind res_bind]. apply IH; [intros u' Hu'; apply Hf; by right | intros o Ho Hu'; apply Hc; [done | by right]].
Qed.

(** ** The whole pass *)

(** Names are unique, constants read nothing, and what reads a duplicate is computed. *)
Record mergeable (ops : list operation) : Prop := {
  mb_names : NoDup (get_name <$> ops);
  mb_constants : forall o, o ∈ ops -> is_Some (constant_key o) -> read_names o = [];
  mb_computed : forall o d, o ∈ ops -> d ∈ (duplicates ops).*1 -> d ∈ read_names o -> is_Some (computed o)
}.

(** The duplicates whose readers are redirected. *)
Definition redirects (outputs : list string) (dups : list (string * string)) : dict string := filter (fun dc => dc.1 ∉ outputs) dups.

Record merged (outputs : list string) (ops : list operation) (removed : list string) (done : list (string * string)) (st : merging) (F : operation -> operation) : Prop := {
  md_ops : mg_ops st = filter (fun o => get_name o ∉ done.*1) (F <$> ops);
  md_removed : removed_buffers st = removed ++ done.*1;
  md_from : forall o, o ∈ ops -> renamed_from o (F o);
  md_reads : forall o, o ∈ ops -> read_names (F o) = new_name (redirects outputs done) <$> read_names o
}.

Section pass.
Context (outputs : list string) (st0 : merging) (Hm : mergeable (mg_ops st0)).
#[local] Notation ops := (mg_ops st0).
#[local] Notation dups := (duplicates ops).
#[local] Notation index := (_build_reverse_consumer_index ops (filter (fun d => d ∉ outputs) dups.*1)).
#[local] Notation sofar := (merged outputs ops (removed_buffers st0)).

Lemma dup_reads_nothing o : o ∈ ops -> get_name o ∈ dups.*1 \/ get_name o ∈ dups.*2 -> read_names o = [].
Proof.
  intros Ho H. assert (exists o', o' ∈ ops /\ get_name o' = get_name o /\ is_Some (constant_key o')) as (o' & Ho' & E & Hk).
  { destruct H as [([d c] & E & H)%list_elem_of_fmap | ([d c] & E & H)%list_elem_of_fmap];
      destruct (duplicates_spec _ (mb_names _ Hm) d c H) as (_ & od & oc & k & Hd & Hc & <- & <- & Kd & Kc); [exists od | exists oc]; eauto. }
  apply (same_name _ (mb_names _ Hm)) in E as ->; [by apply (mb_constants _ Hm) | done | done].
Qed.

(** Dropping one more name. *)
Lemma drop_one (F G : operation -> operation) done d (l : list operation) : (forall o, get_name (G o) = get_name o) ->
  filter (fun o => get_name o <> d) (G <$> filter (fun o => get_name o ∉ done) (F <$> l)) = filter (fun o => get_name o ∉ done ++ [d]) ((fun o => G (F o)) <$> l).
Proof.
  intros HG. induction l as [|o l IH]; [done|]. rewrite !fmap_cons, !filter_cons. rewrite HG.
  destruct (decide (get_name (F o) ∉ done)) as [H1 | H1].
  - rewrite fmap_cons, filter_cons, HG, IH. apply decide_ext. rewrite elem_of_app, list_elem_of_singleton. tauto.
  - rewrite IH. rewrite decide_False; [done|]. rewrite elem_of_app. tauto.
Qed.

Section step.
Context (done rest : list (string * string)) (d c : string) (st : merging) (F : operation -> operation).
Context (Ed : dups = done ++ (d, c) :: rest) (Hs : sofar done st F).

Lemma step_place : d ∉ done.*1 /\ d ∉ done.*2 /\ d ∈ dups.*1 /\ c ∈ dups.*2.
Proof.
  destruct (duplicates_once ops (mb_names _ Hm)) as [Hnd Hc]. assert (d ∈ dups.*1) as Hd by (rewrite Ed, fmap_app; cbn; list_mem).
  split_and!; [| | done | rewrite Ed, fmap_app; cbn; list_mem].
  - rewrite Ed, fmap_app in Hnd. apply NoDup_app in Hnd as (_ & Hx & _). intros H. apply (Hx _ H). cbn. list_mem.
  - intros H. apply (Hc d); [|done]. rewrite Ed, fmap_app, elem_of_app. by left.
Qed.

Lemma found o : o ∈ ops -> get_name o ∉ done.*1 -> F o ∈ mg_ops st /\ get_name (F o) = get_name o.
Proof.
  intros Ho Hn. destruct (renamed_facts _ _ (md_from _ _ _ _ _ _ Hs o Ho)) as (E & _). split; [|done].
  rewrite (md_ops _ _ _ _ _ _ Hs). apply list_elem_of_filter. rewrite E. split; [done | by apply list_elem_of_fmap_2].
Qed.

Lemma was o : o ∈ mg_ops st -> exists o0, o0 ∈ ops /\ o = F o0 /\ get_name o = get_name o0 /\ computed o = computed o0 /\ get_name o0 ∉ done.*1.
Proof.
  rewrite (md_ops _ _ _ _ _ _ Hs). intros [Hn (o0 & -> & Ho)%list_elem_of_fmap]%list_elem_of_filter.
  destruct (renamed_facts _ _ (md_from _ _ _ _ _ _ Hs o0 Ho)) as (E & _ & E'). exists o0. by rewrite <- E.
Qed.

(** The names of the operations that are rewritten. *)
Definition rewritten : list string :=
  if decide (d ∈ outputs) then [] else filter (fun u => u <> d /\ u <> c) (get_name <$> filter (fun o => d ∈ read_names o) ops).

Lemma step_redirects : _redirect_consumers outputs (dget_or [] index d) d c (mg_ops st) = Ok (redirected d c rewritten <$> mg_ops st).
Proof.
  destruct step_place as (P1 & P2 & P3 & P4). unfold _redirect_consumers, rewritten. destruct (decide (d ∈ outputs)) as [Ho | Ho].
  { rewrite bool_decide_eq_true_2 by done. by rewrite redirected_nil. }
  rewrite bool_decide_eq_false_2 by done. rewrite index_spec by (apply list_elem_of_filter; done). apply redirect_total.
  - intros u (o & -> & [Hr Hin]%list_elem_of_filter)%list_elem_of_fmap _ _. exists (F o). apply found; [done|]. intros Hx.
    rewrite dup_reads_nothing in Hr; [by apply elem_of_nil in Hr | done | left; rewrite Ed, fmap_app, elem_of_app; by left].
  - intros o (o0 & Ho0 & -> & En & Ec & _)%was. rewrite En, Ec. intros (o1 & E & [Hr Hin]%list_elem_of_filter)%list_elem_of_fmap.
    apply (same_name _ (mb_names _ Hm)) in E as ->; [|done|done]. by apply (mb_computed _ Hm o1 d).
Qed.

Lemma step_reads o : o ∈ ops -> read_names (redirected d c rewritten (F o)) = new_name (redirects outputs (done ++ [(d, c)])) <$> read_names o.
Proof.
  intros Ho. destruct step_place as (P1 & P2 & P3 & P4). destruct (renamed_facts _ _ (md_from _ _ _ _ _ _ Hs o Ho)) as (E & _). unfold redirects. rewrite filter_app, filter_cons. cbn [fst].
  unfold rewritten. destruct (decide (d ∈ outputs)) as [Hd | Hd].
  { rewrite decide_False by tauto. unfold redirected. rewrite bool_decide_eq_false_2 by apply not_elem_of_nil. rewrite filter_nil, app_nil_r. by apply (md_reads _ _ _ _ _ _ Hs). }
  rewrite decide_True, filter_nil by done. rewrite redirected_reads.
  - rewrite (md_reads _ _ _ _ _ _ Hs o Ho), <- list_fmap_compose. apply list_fmap_ext. intros i n _. cbn. rewrite new_name_app; [done|].
    intros ([d' c'] & -> & [_ Hin]%list_elem_of_filter)%list_elem_of_fmap. apply P2. by apply (list_elem_of_fmap_2 snd) in Hin.
  - rewrite E, (md_reads _ _ _ _ _ _ Hs o Ho). destruct (decide (d ∈ read_names o)) as [Hr | Hr].
    + left. apply list_elem_of_filter. split; [|by apply list_elem_of_fmap_2, list_elem_of_filter].
      split; intros En; rewrite dup_reads_nothing in Hr; try (by apply elem_of_nil in Hr); try done; rewrite En; tauto.
    + right. intros (n & En & Hn)%list_elem_of_fmap. unfold new_name, dget_or in En. destruct (dget _ n) as [c'|] eqn:Eg; cbn in En; [|congruence].
      apply dget_Some_elem, list_elem_of_filter in Eg as [_ Eg]. apply P2. rewrite En. by apply (list_elem_of_fmap_2 snd) in Eg.
Qed.

Lemma step_merges : exists st', merge_duplicate outputs index (d, c) st = Ok st' /\ sofar (done ++ [(d, c)]) st' (fun o => redirected d c rewritten (F o)).
Proof.
  destruct step_place as (P1 & P2 & P3 & P4). unfold merge_duplicate. cbn [fst snd]. rewrite step_redirects. cbn [mbind res_bind]. unfold _drop_constant, remove_operation. cbn [mg_ops].
  assert (get_name <$> (redirected d c rewritten <$> mg_ops st) = get_name <$> mg_ops st) as ->.
  { rewrite <- list_fmap_compose. apply list_fmap_ext. intros i o _. apply redirected_name. }
  rewrite (bool_decide_eq_true_2 (d ∈ get_name <$> mg_ops st)).
  - cbn [mbind res_bind]. eexists. split; [reflexivity|]. split; cbn.
    + rewrite (md_ops _ _ _ _ _ _ Hs), fmap_app. apply drop_one. intros o. apply redirected_name.
    + by rewrite (md_removed _ _ _ _ _ _ Hs), fmap_app, app_assoc.
    + intros o Ho. by apply renamed_redirected, (md_from _ _ _ _ _ _ Hs).
    + apply step_reads.
  - apply list_elem_of_fmap in P3 as ([d' c'] & E & Hin). cbn in E. subst d'. destruct (duplicates_spec _ (mb_names _ Hm) _ _ Hin) as (_ & od & _ & _ & Hod & _ & En & _).
    apply list_elem_of_fmap. exists (F od). rewrite <- En. destruct (found od Hod) as [? ?]; [by rewrite En | done].
Qed.
End step.

Lemma merge_all : exists st', for_each (merge_duplicate outputs index) dups st0 = Ok st' /\ exists F, sofar dups st' F.
Proof.
  refine (for_each_total _ (fun done st => exists F, sofar done st F) _ _ _ _).
  - intros done [d c] rest st E (F & HF). destruct (step_merges done rest d c st F E HF) as (st' & ? & ?). eauto.
  - exists id. split; cbn; [|by rewrite app_nil_r | by constructor | ].
    + rewrite list_fmap_id. symmetry. apply filter_all. intros o _. apply not_elem_of_nil.
    + intros o _. symmetry. apply list_fmap_id.
Qed.

Lemma dedup_merges : exists st' mid F, dedup_and_promote_constants outputs st0 = Ok st' /\ sofar dups mid F /\
  mg_ops st' = promote (mg_ops mid) /\ removed_buffers st' = removed_buffers st0 ++ dups.*1.
Proof.
  destruct merge_all as (mid & E & F & HF). unfold dedup_and_promote_constants. rewrite E. cbn [mbind res_bind]. eexists _, mid, F.
  split_and!; [done | done | done | apply (md_removed _ _ _ _ _ _ HF)].
Qed.

Lemma elem_of_promote o l : o ∈ promote l <-> o ∈ l.
Proof. unfold promote. rewrite elem_of_app, !list_elem_of_filter. destruct (is_constant o); intuition congruence. Qed.

Lemma promote_names l : get_name <$> promote l ≡ₚ get_name <$> l.
Proof.
  apply fmap_Permutation. unfold promote. induction l as [|o l IH]; [done|]. rewrite !filter_cons. destruct (is_constant o).
  - rewrite (decide_True (P := true = true)), (decide_False (P := true = false)) by done. cbn. by rewrite IH.
  - rewrite (decide_False (P := false = true)), (decide_True (P := false = false)) by done. by rewrite <- Permutation_middle, IH.
Qed.

(** A constant is stored by itself alone. *)
Record constants_alone : Prop := {
  cv_self : forall o, o ∈ ops -> is_Some (constant_key o) -> stored o = [get_name o];
  cv_alone : forall o o', o ∈ ops -> is_Some (constant_key o) -> o' ∈ ops -> get_name o ∈ stored o' -> o' = o
}.

(** ** The values *)

Section values.
Context {V : Type} (value : operation -> string -> list V -> V).

(** Whatever else an operation loads, it computes the same function of it; a constant fills
    its buffer with the scalar, converted to the dtype, on the device; and constants of one
    key agree on whether their scalar is a negative zero. *)
Record constant_values : Prop := {
  cv_swap : forall old new o n vs, value (_replace_loop_input old new o) n vs = value o n vs;
  cv_fill : exists fill : number * bool -> string -> string * option Z -> V, forall o f, o ∈ ops -> fallback (get_name o) = Some f ->
    value o (get_name o) [] = fill (materialized (constant_value f)) (constant_dtype f) (norm_dev f);
  cv_zeros : forall o o' f f', o ∈ ops -> o' ∈ ops -> fallback (get_name o) = Some f -> fallback (get_name o') = Some f' -> _constant_key f = _constant_key f' ->
    (materialized (constant_value f)).2 = (materialized (constant_value f')).2
}.

Context (Hv : constant_values) (Hst : constants_alone) (Hout : forall d, d ∈ dups.*1 -> d ∉ outputs).

(** Constants of one key have one value. *)
Lemma cv_key o o' k : o ∈ ops -> o' ∈ ops -> constant_key o = Some k -> constant_key o' = Some k -> value o (get_name o) [] = value o' (get_name o') [].
Proof.
  unfold constant_key. intros Ho Ho' (f & Ef & Ek)%fmap_Some (f' & Ef' & Ek')%fmap_Some. pose proof (cv_zeros Hv _ _ _ _ Ho Ho' Ef Ef' ltac:(congruence)) as Hz.
  destruct (cv_fill Hv) as [fill Hf]. rewrite (Hf _ _ Ho Ef), (Hf _ _ Ho' Ef'). subst k. unfold _constant_key in Ek'. injection Ek' as En Ed Ec.
  rewrite Ed, Ec. f_equal. by apply py_eq_materialized.
Qed.

Lemma value_renamed o o' n vs : renamed_from o o' -> value o' n vs = value o n vs.
Proof. induction 1 as [|o' old new H IH]; [done|]. by rewrite (cv_swap Hv). Qed.

Lemma redirects_all : redirects outputs dups = dups.
Proof. apply filter_all. intros [d c] H. apply Hout. by apply (list_elem_of_fmap_2 fst) in H. Qed.

Lemma new_name_dup d c : (d, c) ∈ dups -> new_name dups d = c.
Proof. intros H. unfold new_name, dget_or. rewrite (dget_NoDup dups d c); [done | by apply duplicates_keys; apply Hm | done]. Qed.

Lemma new_name_other n : n ∉ dups.*1 -> new_name dups n = n.
Proof. intros H. unfold new_name, dget_or. by rewrite (proj2 (dget_None dups n)). Qed.

(** In a valuation of the graph a duplicate has the value of what replaces it. *)
Lemma new_name_value rho n : fits value rho ops -> rho (new_name dups n) = rho n.
Proof.
  intros H. destruct (decide (n ∈ dups.*1)) as [([d c] & -> & Hd)%list_elem_of_fmap | Hn]; [|by rewrite new_name_other]. cbn. rewrite (new_name_dup _ _ Hd).
  destruct (duplicates_spec _ (mb_names _ Hm) _ _ Hd) as (_ & od & oc & k & Hod & Hoc & <- & <- & Kd & Kc).
  rewrite (H od (get_name od)), (H oc (get_name oc)); [|done|rewrite (cv_self Hst); [list_mem | done | by eexists]|done|rewrite (cv_self Hst); [list_mem | done | by eexists]].
  rewrite !(mb_constants _ Hm) by (try done; by eexists). by apply (cv_key _ _ k).
Qed.

Section after.
Context (mid : merging) (F : operation -> operation) (HF : sofar dups mid F).

Lemma after_reads o : o ∈ ops -> read_names (F o) = new_name dups <$> read_names o.
Proof. intros Ho. by rewrite (md_reads _ _ _ _ _ _ HF o Ho), redirects_all. Qed.

Lemma values_forth rho : fits value rho ops -> fits value rho (mg_ops mid).
Proof.
  intros H o n Ho Hn. destruct (was dups mid F HF o Ho) as (o0 & Ho0 & -> & _). destruct (renamed_facts _ _ (md_from _ _ _ _ _ _ HF o0 Ho0)) as (_ & E & _).
  rewrite E in Hn. rewrite (value_renamed o0 (F o0)) by by apply (md_from _ _ _ _ _ _ HF). rewrite after_reads, <- list_fmap_compose by done.
  rewrite (H o0 n Ho0 Hn). f_equal. apply list_fmap_ext. intros i x _. symmetry. by apply new_name_value.
Qed.

(** What replaces a duplicate is still there. *)
Lemma canonical_kept d c : (d, c) ∈ dups -> exists oc, oc ∈ ops /\ get_name oc = c /\ is_Some (constant_key oc) /\ F oc ∈ mg_ops mid.
Proof.
  intros Hd. destruct (duplicates_spec _ (mb_names _ Hm) _ _ Hd) as (_ & od & oc & k & Hod & Hoc & _ & Ec & _ & Kc). exists oc.
  split_and!; [done | done | by eexists|]. apply (found dups mid F HF); [done|]. rewrite Ec. apply duplicates_once; [apply Hm|]. by apply (list_elem_of_fmap_2 snd) in Hd.
Qed.

Lemma values_back rho : fits value rho (mg_ops mid) -> fits value (fun n => rho (new_name dups n)) ops.
Proof.
  intros H o n Ho Hn. cbv beta.
  assert (forall o1 m, o1 ∈ ops -> m ∈ stored o1 -> get_name o1 ∉ dups.*1 -> rho m = value o1 m ((fun n => rho (new_name dups n)) <$> read_names o1)) as Hk.
  { intros o1 m Ho1 Hm1 Hn1. destruct (found dups mid F HF o1 Ho1 Hn1) as [Hf _]. pose proof (md_from _ _ _ _ _ _ HF o1 Ho1) as Hr. destruct (renamed_facts _ _ Hr) as (_ & E & _).
    rewrite (H (F o1) m Hf ltac:(by rewrite E)), (value_renamed _ _ _ _ Hr), after_reads, <- list_fmap_compose by done. done. }
  destruct (decide (n ∈ dups.*1)) as [([d c] & E & Hd)%list_elem_of_fmap | Hnd].
  - cbn in E. subst d. rewrite (new_name_dup _ _ Hd). destruct (duplicates_spec _ (mb_names _ Hm) _ _ Hd) as (_ & od & oc & k & Hod & Hoc & <- & <- & Kd & Kc).
    apply (cv_alone Hst od) in Hn as ->; [|done|by eexists|done].
    rewrite (Hk oc (get_name oc)); [|done|rewrite (cv_self Hst); [list_mem | done | by eexists] | apply duplicates_once; [apply Hm|]; by apply (list_elem_of_fmap_2 snd) in Hd].
    rewrite !(mb_constants _ Hm) by (try done; by eexists). by apply (cv_key _ _ k).
  - rewrite new_name_other by done. apply Hk; [done | done|]. intros Hx. apply list_elem_of_fmap in Hx as ([d c] & E & Hd). cbn in E.
    destruct (duplicates_spec _ (mb_names _ Hm) _ _ Hd) as (_ & od & _ & k & Hod & _ & En & _ & Kd & _). assert (o = od) as -> by (apply (same_name _ (mb_names _ Hm)); [done | done | congruence]).
    rewrite (cv_self Hst) in Hn by (try done; by eexists). apply list_elem_of_singleton in Hn as ->. apply Hnd. rewrite En. by apply (list_elem_of_fmap_2 fst) in Hd.
Qed.

(** A dropped constant is gone. *)
Lemma dropped_unused o d : o ∈ mg_ops mid -> d ∈ dups.*1 -> get_name o <> d /\ d ∉ stored o /\ d ∉ read_names o.
Proof.
  intros (o0 & Ho0 & -> & En & _ & Hn)%(was dups mid F HF) Hd. destruct (renamed_facts _ _ (md_from _ _ _ _ _ _ HF o0 Ho0)) as (_ & Es & _).
  destruct (duplicates_once ops (mb_names _ Hm)) as [_ Hdc]. apply list_elem_of_fmap in Hd as ([d' c] & -> & Hd). cbn [fst].
  pose proof (list_elem_of_fmap_2 fst _ _ Hd) as Hd1. cbn in Hd1. split_and!.
  - rewrite En. by intros <-.
  - rewrite Es. destruct (duplicates_spec _ (mb_names _ Hm) _ _ Hd) as (_ & od & _ & k & Hod & _ & <- & _ & Kd & _). intros Hs.
    apply (cv_alone Hst) in Hs as ->; [done | done | by eexists | done].
  - rewrite after_reads by done. intros (m & E & _)%list_elem_of_fmap. destruct (decide (m ∈ dups.*1)) as [([m' c'] & -> & Hm')%list_elem_of_fmap | Hmd].
    + cbn in E. rewrite (new_name_dup _ _ Hm') in E. subst c'. apply (Hdc d'); [by apply (list_elem_of_fmap_2 snd) in Hm' | done].
    + rewrite new_name_other in E by done. congruence.
Qed.

(** ** The order *)

(** Some store of what an operation reads comes before it. *)
Definition stored_before (l : list operation) : Prop := forall pre o post n, l = pre ++ o :: post ->
  n ∈ read_names o -> (exists o', o' ∈ l /\ n ∈ stored o') -> exists o', o' ∈ pre /\ n ∈ stored o'.

Lemma key_renamed o o' : renamed_from o o' -> constant_key o' = constant_key o.
Proof. intros H. unfold constant_key. by destruct (renamed_facts _ _ H) as [-> _]. Qed.

Lemma is_constant_after o : o ∈ ops -> is_constant (F o) = is_constant o.
Proof. intros Ho. unfold is_constant. by rewrite (key_renamed o (F o)) by by apply (md_from _ _ _ _ _ _ HF). Qed.

Lemma names_after : NoDup (get_name <$> promote (mg_ops mid)).
Proof.
  rewrite promote_names, (md_ops _ _ _ _ _ _ HF). eapply sublist_NoDup; [apply (mb_names _ Hm)|].
  replace (get_name <$> ops) with (get_name <$> (F <$> ops)); [apply sublist_fmap, sublist_filter|].
  rewrite <- list_fmap_compose. apply list_fmap_ext. intros i o Ho%list_elem_of_lookup_2. apply (renamed_facts o), (md_from _ _ _ _ _ _ HF o Ho).
Qed.

(** What was before stays before, unless it is a constant, and then it comes first. *)
Lemma before_after pre o post : ops = pre ++ o :: post -> get_name o ∉ dups.*1 -> is_constant o = false ->
  exists pre' post', promote (mg_ops mid) = pre' ++ F o :: post' /\
    (forall o', o' ∈ ops -> get_name o' ∉ dups.*1 -> is_constant o' = true \/ o' ∈ pre -> F o' ∈ pre').
Proof.
  intros E Hn Hc. assert (Ho : o ∈ ops) by (rewrite E; list_mem).
  set (kept := fun l : list operation => filter (fun o => get_name o ∉ dups.*1) (F <$> l)).
  exists (filter (fun o => is_constant o = true) (mg_ops mid) ++ filter (fun o => is_constant o = false) (kept pre)), (filter (fun o => is_constant o = false) (kept post)). split.
  - unfold promote. rewrite <- app_assoc. f_equal.
    assert (mg_ops mid = kept pre ++ F o :: kept post) as ->.
    { transitivity (kept (pre ++ o :: post)); [unfold kept; rewrite <- E; apply (md_ops _ _ _ _ _ _ HF)|]. unfold kept. rewrite fmap_app, fmap_cons, filter_app, filter_cons_True; [done|].
      destruct (renamed_facts _ _ (md_from _ _ _ _ _ _ HF o Ho)) as (En & _). by rewrite En. }
    rewrite filter_app, filter_cons_True by (by rewrite is_constant_after). done.
  - intros o' Ho' Hn' H. destruct (found dups mid F HF o' Ho' Hn') as [Hf En]. apply elem_of_app. rewrite !list_elem_of_filter. rewrite is_constant_after by done.
    destruct (is_constant o') eqn:Ek; [by left|]. right. destruct H as [? | Hpre]; [done|]. split; [done|].
    unfold kept. apply list_elem_of_filter. rewrite En. split; [done | by apply list_elem_of_fmap_2].
Qed.

Lemma same_place (l : list operation) pre o post pre' post' : NoDup (get_name <$> l) -> l = pre ++ o :: post -> l = pre' ++ o :: post' -> pre = pre'.
Proof.
  intros Hnd E1 E2. assert (length pre = length pre') as El.
  { apply (NoDup_lookup _ _ _ (get_name o) Hnd); rewrite list_lookup_fmap; [rewrite E1 | rewrite E2]; by rewrite list_lookup_middle. }
  rewrite E1 in E2. by apply app_inj_1 in E2 as [? _].
Qed.

Lemma order_kept : stored_before ops -> stored_before (promote (mg_ops mid)).
Proof.
  intros H pre o post n E Hn (o' & Ho' & Hs). assert (o ∈ mg_ops mid) as (o0 & Ho0 & -> & En & _ & Hnd)%(was dups mid F HF) by (apply elem_of_promote; rewrite E; list_mem).
  rewrite after_reads in Hn by done. apply list_elem_of_fmap in Hn as (m & -> & Hmr).
  assert (is_constant o0 = false) as Hc by (unfold is_constant; apply bool_decide_eq_false; intros K; rewrite (mb_constants _ Hm o0 Ho0 K) in Hmr; by apply elem_of_nil in Hmr).
  apply list_elem_of_split in Ho0 as (p0 & q0 & E0). pose proof E0 as Hin. destruct (before_after p0 o0 q0 E0 Hnd Hc) as (pre' & post' & E' & Hb).
  rewrite (same_place _ _ _ _ _ _ names_after E E'). destruct (decide (m ∈ dups.*1)) as [([d c] & -> & Hd)%list_elem_of_fmap | Hmd].
  - cbn [fst] in *. rewrite (new_name_dup _ _ Hd). destruct (canonical_kept d c Hd) as (oc & Hoc & Ec & Kc & _). exists (F oc).
    destruct (renamed_facts _ _ (md_from _ _ _ _ _ _ HF oc Hoc)) as (_ & Es & _). split; [|rewrite Es, (cv_self Hst) by done; rewrite Ec; list_mem].
    apply Hb; [done | | left; by apply bool_decide_eq_true]. rewrite Ec. apply duplicates_once; [apply Hm|]. by apply (list_elem_of_fmap_2 snd) in Hd.
  - rewrite new_name_other in * by done. apply (proj1 (elem_of_promote _ _)) in Ho'. apply (was dups mid F HF) in Ho' as (o1 & Ho1 & -> & _ & _ & Hn1).
    destruct (renamed_facts _ _ (md_from _ _ _ _ _ _ HF o1 Ho1)) as (_ & Es & _). rewrite Es in Hs.
    destruct (H p0 o0 q0 m E0 Hmr (ex_intro _ o1 (conj Ho1 Hs))) as (o2 & Ho2 & Hs2). assert (o2 ∈ ops) as Hin2 by (rewrite E0; list_mem).
    exists (F o2). destruct (renamed_facts _ _ (md_from _ _ _ _ _ _ HF o2 Hin2)) as (_ & Es2 & _). rewrite Es2. split; [|done]. apply Hb; [done | | by right].
    intros ([d c] & E3 & Hd)%list_elem_of_fmap. destruct (duplicates_spec _ (mb_names _ Hm) _ _ Hd) as (_ & od & _ & k & Hod & _ & End & _ & Kd & _).
    assert (o2 = od) as -> by (apply (same_name _ (mb_names _ Hm)); [done | done | cbn in E3; congruence]).
    rewrite (cv_self Hst) in Hs2 by (try done; by eexists). apply list_elem_of_singleton in Hs2 as ->. apply Hmd. rewrite E3. by apply (list_elem_of_fmap_2 fst) in Hd.
Qed.

(** One constant of each key is left. *)
Lemma one_per_key o o' k : o ∈ mg_ops mid -> o' ∈ mg_ops mid -> constant_key o = Some k -> constant_key o' = Some k -> o = o'.
Proof.
  intros (o1 & H1 & -> & _ & _ & N1)%(was dups mid F HF) (o2 & H2 & -> & _ & _ & N2)%(was dups mid F HF).
  rewrite (key_renamed _ _ (md_from _ _ _ _ _ _ HF o1 H1)), (key_renamed _ _ (md_from _ _ _ _ _ _ HF o2 H2)). intros K1 K2. f_equal. apply (same_name _ (mb_names _ Hm)); [done | done|].
  apply (group_head ops k); [| | done | done]; apply elem_of_constants; eauto.
Qed.
End after.

(** C14. On a graph with distinct names in which constants read nothing and are stored by
    themselves alone, what reads a duplicate constant is computed, and no duplicate is a graph
    output, the pass returns; every valuation of the graph is one of the merged graph, and a
    valuation of the merged graph, each duplicate given the value of its replacement, is one of
    the original graph with the same output values. A constant's value is what filling its
    buffer with the scalar, converted to its dtype, on its device gives; constants of one key
    must agree on whether their scalar is a negative zero. *)
Theorem dedup_keeps_values : exists st', dedup_and_promote_constants outputs st0 = Ok st' /\
  (forall rho, fits value rho ops -> fits value rho (mg_ops st')) /\
  (forall rho, fits value rho (mg_ops st') -> fits value (fun n => rho (new_name dups n)) ops /\ (fun n => rho (new_name dups n)) <$> outputs = rho <$> outputs).
Proof.
  destruct dedup_merges as (st' & mid & F & E & HF & Eo & _). exists st'. rewrite Eo. split_and!; [done | |].
  - intros rho H o n Ho%(proj1 (elem_of_promote _ _)). by apply (values_forth mid F HF).
  - intros rho H. split.
    + apply (values_back mid F HF). intros o n Ho. apply H. by apply elem_of_promote.
    + apply list_fmap_ext. intros i n Hn%list_elem_of_lookup_2. f_equal. apply new_name_other. intros Hd. by apply (Hout n).
Qed.

End values.

(** A duplicate is dropped even if it is an output of the graph: the output then names
    no operation, and its readers still read it. *)
Theorem output_constant_dropped d : d ∈ dups.*1 -> d ∈ outputs ->
  exists st', dedup_and_promote_constants outputs st0 = Ok st' /\ d ∈ removed_buffers st' /\ d ∉ (get_name <$> mg_ops st') /\
    (forall o, o ∈ ops -> d ∈ read_names o -> exists o', o' ∈ mg_ops st' /\ get_name o' = get_name o /\ d ∈ read_names o').
Proof.
  intros Hd Hout. destruct dedup_merges as (st' & mid & F & E & HF & Eo & Er). exists st'. rewrite Eo, Er. split_and!; [done | by apply elem_of_app; right | |].
  - rewrite promote_names. intros (o & -> & (o0 & _ & _ & En & _ & Hn)%(was dups mid F HF))%list_elem_of_fmap. by rewrite En in Hd.
  - intros o Ho Hr. destruct (found dups mid F HF o Ho) as [Hf En].
    { intros Hx. rewrite dup_reads_nothing in Hr; [by apply elem_of_nil in Hr | done | by left]. }
    exists (F o). split_and!; [by apply elem_of_promote | done|]. rewrite (md_reads _ _ _ _ _ _ HF o Ho). apply list_elem_of_fmap. exists d. split; [|done].
    unfold new_name, dget_or. rewrite (proj2 (dget_None (redirects outputs dups) d)); [done|].
    intros ([d' c'] & -> & [Hno _]%list_elem_of_filter)%list_elem_of_fmap. by apply Hno.
Qed.
End pass.
End dedup.

(** ** A small graph *)

Definition one (name : string) : operation :=
  mkOperation name [] [sample_dep name] sample_layout None false false None None None None "constant" true (Some []) (Some []).

Definition ones : merging := mkMerging [one "one0"; sample_op "buf0" ["one0"]; one "one1"; sample_op "buf1" ["buf0"; "one1"]] [] [("one1", ["buf1"])].

(** The integer 1 and the float 1.0. *)
Definition one_fields (name : string) : option constant_fields :=
  if bool_decide (name = "one0"%string) then Some (mkConstant (Int 1) "float16" "spyre" (Some 0))
  else if bool_decide (name = "one1"%string) then Some (mkConstant (Finite false 2 (-1)) "float16" "spyre" (Some 0)) else None.

Definition filled (x : number * bool) (dtype : string) (dev : string * option Z) : Z :=
  match x.1 with NFinite false m e => Z.pos m * 2 ^ e | NFinite true m e => - (Z.pos m * 2 ^ e) | _ => 0 end.

Definition one_value (o : operation) (n : string) (vs : list Z) : Z :=
  match one_fields (get_name o) with
  | Some f => filled (materialized (constant_value f)) (constant_dtype f) (norm_dev f)
  | None => zsum vs
  end.

Definition ones_shown (st : merging) : list (string * list string) * list string * dict (list string) :=
  ((fun o => (get_name o, read_names o)) <$> mg_ops st, removed_buffers st, mg_users st).

Example ones_merged : ones_shown (value_of ones (dedup_and_promote_constants one_fields ["buf1"%string] ones)) =
  ([("one0", []); ("buf0", ["one0"]); ("buf1", ["buf0"; "one0"])], ["one1"], [("one0", ["buf1"])])%string.
Proof. vm_compute. reflexivity. Qed.

Lemma ones_forall (P : operation -> Prop) : Forall P (mg_ops ones) -> forall o, o ∈ mg_ops ones -> P o.
Proof. by rewrite Forall_forall. Qed.

Lemma ones_mergeable : mergeable one_fields (mg_ops ones).
Proof.
  split.
  - apply (bool_decide_unpack _). vm_compute. exact I.
  - apply (ones_forall (fun o => is_Some (constant_key one_fields o) -> read_names o = [])). apply (bool_decide_unpack _). vm_compute. exact I.
  - intros o d Ho _ Hr. revert o Ho Hr. apply (ones_forall (fun o => d ∈ read_names o -> is_Some (computed o))).
    repeat constructor; cbn; try done; intros H; by apply elem_of_nil in H.
Qed.

Lemma ones_values : constant_values one_fields ones one_value.
Proof.
  split.
  - done.
  - exists filled. intros o f _ E. unfold one_value. by rewrite E.
  - intros o o' f f' _ _ E E' _. unfold one_fields in E, E'. repeat case_bool_decide; by simplify_eq.
Qed.

Lemma ones_alone : constants_alone one_fields ones.
Proof.
  split.
  - apply (ones_forall (fun o => is_Some (constant_key one_fields o) -> stored o = [get_name o])). apply (bool_decide_unpack _). vm_compute. exact I.
  - intros o o' Ho Hk Ho'. revert o Ho Hk. apply (ones_forall (fun o => is_Some (constant_key one_fields o) -> get_name o ∈ stored o' -> o' = o)). revert o' Ho'.
    apply (ones_forall (fun o' => Forall (fun o => is_Some (constant_key one_fields o) -> get_name o ∈ stored o' -> o' = o) (mg_ops ones))).
    repeat constructor; cbn; try done; intros _ H; apply (bool_decide_pack _) in H; vm_compute in H; done.
Qed.

(** The duplicates of the graph. *)
Lemma ones_outputs : forall d, d ∈ (duplicates one_fields (mg_ops ones)).*1 -> d ∉ ["buf1"%string].
Proof.
  assert ((duplicates one_fields (mg_ops ones)).*1 = ["one1"%string]) as -> by (vm_compute; reflexivity). intros d ->%list_elem_of_singleton. by intros ?%list_elem_of_singleton.
Qed.

Lemma dedup_keeps_values_witness : exists st', dedup_and_promote_constants one_fields ["buf1"%string] ones = Ok st' /\
  forall rho, fits one_value rho (mg_ops ones) -> fits one_value rho (mg_ops st').
Proof. destruct (dedup_keeps_values one_fields _ ones ones_mergeable one_value ones_values ones_alone ones_outputs) as (st' & H1 & H2 & _). by exists st'. Defined.


Lemma output_constant_dropped_witness : exists st', dedup_and_promote_constants one_fields ["buf1"; "one1"]%string ones = Ok st' /\
  "one1"%string ∈ removed_buffers st' /\ "one1"%string ∉ (get_name <$> mg_ops st').
Proof.
  destruct (output_constant_dropped one_fields ["buf1"; "one1"]%string ones ones_mergeable "one1"%string) as (st' & H1 & H2 & H3 & _).
  - apply (bool_decide_unpack _). vm_compute. exact I.
  - list_mem.
  - by exists st'.
Defined.

(** The constants 0.0 and -0.0 have one key: the second is dropped and its readers read the first. *)
Definition zero_fields (name : string) : option constant_fields :=
  if bool_decide (name = "one0"%string) then Some (mkConstant (Zero false) "float32" "spyre" None)
  else if bool_decide (name = "one1"%string) then Some (mkConstant (Zero true) "float32" "spyre" None) else None.

Example zeros_merged : ones_shown (value_of ones (dedup_and_promote_constants zero_fields ["buf1"%string] ones)) =
  ([("one0", []); ("buf0", ["one0"]); ("buf1", ["buf0"; "one0"])], ["one1"], [("one0", ["buf1"])])%string.
Proof. vm_compute. reflexivity. Qed.
