(* ===== verification/GraphEditPlaces.v ===== *)
(** * Where committed buffers lie

    After the push every placed buffer has its address: a buffer of an operation itself, a
    graph input through its clone.  Nothing the caller of the graph sees is in the
    scratchpad, if no buffer is returned twice. *)

From S2P Require Import Prelude PyDict PlanSolver Liveness CoreMapping CoreViews BufferFacts ResidencyRules Allocator AllocatorBuffers ContextSwitch ContextSwitchSafe GraphEdit GraphEditValues.

Section places.
Context (clone_index : string) (fresh : nat -> string) (Hinj : forall i j, fresh i = fresh j -> i = j).
Context (clone_ownership : bool -> operation -> layout -> option PerCoreView -> res TensorWorkDivision).
Context (readers_certified contract_kept : graph -> LXRelayoutPlan -> bool).

#[local] Notation outs st := (output_names (eg st)).
#[local] Notation ins st := (dkeys (graph_inputs (eg st))).
#[local] Notation place st n := (dget (lx_state st) n).

(** The graph before the push, and the buffers under its names. *)
Context (st0 : edited) (bufs : list abuffer).
Context (Hempty : lx_state st0 = []) (Hunused : unused fresh st0).
Context (Hknown : forall b i, b ∈ bufs -> (e_next st0 <= i)%nat -> ab_name b <> fresh i).
Context (Hdistinct : NoDup (ab_name <$> bufs)) (Houts : NoDup (outs st0)).

(** Where the buffer of the push lies. *)
Inductive lies (st : edited) (b : abuffer) (a : Z) (v : PerCoreView) : Prop :=
  | lies_itself : ab_name b ∉ ins st0 -> place st (ab_name b) = Some (a, v) -> lies st b a v
  | lies_clone i : ab_name b ∈ ins st0 -> (e_next st0 <= i < e_next st)%nat -> place st (fresh i) = Some (a, v) -> lies st b a v.

(** Copies of relayouts are placed through their plans. *)
Definition pushed (b : abuffer) : bool := negb (String.prefix "__spyre_lx_relayout__:" (ab_name b)).

Record places (done : list abuffer) (st : edited) : Prop := {
  pc_unused : unused fresh st;
  pc_next : (e_next st0 <= e_next st)%nat;
  pc_inputs : ins st = ins st0;
  pc_outs : NoDup (outs st) /\ forall n, n ∈ outs st -> n ∈ outs st0 \/ exists i, (e_next st0 <= i)%nat /\ n = fresh i;
  pc_private : forall n p, place st n = Some p -> n ∉ outs st /\ n ∉ ins st0;
  pc_names : forall n p, place st n = Some p -> n ∈ (ab_name <$> done) \/ exists i, (e_next st0 <= i)%nat /\ n = fresh i;
  pc_done : forall b a, b ∈ done -> pushed b = true -> address (ab b) = Some a -> exists v, lx_view b = Some v /\ lies st b a v
}.

Lemma places_start : places [] st0.
Proof.
  split; [done | done | done | | | |].
  - split; [done|]. by left.
  - intros n p. by rewrite Hempty.
  - intros n p. by rewrite Hempty.
  - by intros b a ?%elem_of_nil.
Qed.

(** What the push of one buffer does to the places. *)
Inductive pushed_as (b : abuffer) (st st' : edited) : Prop :=
  | pushed_not : address (ab b) = None \/ pushed b = false -> st' = st -> pushed_as b st st'
  | pushed_input a v : address (ab b) = Some a -> lx_view b = Some v -> ab_name b ∈ ins st0 ->
      e_next st' = S (e_next st) -> outs st' = outs st -> lx_state st' = dset (fresh (e_next st)) (a, v) (lx_state st) -> pushed_as b st st'
  | pushed_output a v l1 l2 : address (ab b) = Some a -> lx_view b = Some v -> ab_name b ∉ ins st0 ->
      e_next st' = S (e_next st) -> outs st = l1 ++ ab_name b :: l2 -> outs st' = l1 ++ fresh (e_next st) :: l2 ->
      lx_state st' = dset (ab_name b) (a, v) (lx_state st) -> pushed_as b st st'
  | pushed_inner a v : address (ab b) = Some a -> lx_view b = Some v -> ab_name b ∉ ins st0 -> ab_name b ∉ outs st0 ->
      e_next st' = e_next st -> outs st' = outs st -> lx_state st' = dset (ab_name b) (a, v) (lx_state st) -> pushed_as b st st'.

Lemma set_Ok name a view st st' : _set_one_allocation name a view st = Ok st' ->
  exists v, view = Some v /\ eg st' = eg st /\ e_next st' = e_next st /\ lx_state st' = dset name (a, v) (lx_state st).
Proof. unfold _set_one_allocation. destruct view as [v|]; [|done]. intros [= <-]. by exists v. Qed.

Lemma push_buffer_as buffer_users b st st' :
  push_buffer clone_index fresh clone_ownership (ins st0) (outs st0) buffer_users b st = Ok st' ->
  pushed_as b st st' /\ ins st' = ins st.
Proof.
  unfold push_buffer. destruct (address (ab b)) as [a|] eqn:Ea; [|intros [= <-]; split; [by apply pushed_not; [left|] | done]].
  destruct (String.prefix _ _) eqn:Ep; [intros [= <-]; split; [apply pushed_not; [right; unfold pushed; by rewrite Ep | done] | done]|].
  intros H. apply bind_Ok in H as ([] & Hg & H). case_bool_decide as Hi; [|case_bool_decide as Ho].
  - apply bind_Ok in H as (users & _ & H). apply bind_Ok in H as (h & _ & H). apply bind_Ok in H as ([s1 c] & Hp%push_clone_Ok & H). cbn [fst snd] in *.
    destruct (cl_state _ _ _ _ _ _ _ _ Hp) as (L1 & _ & L3 & L4). apply set_Ok in H as (v & Ev & E1 & E2 & E3).
    assert (forall x, e_next (match h with Some _ => clear_membership x s1 | None => s1 end) = e_next s1 /\
      lx_state (match h with Some _ => clear_membership x s1 | None => s1 end) = lx_state s1 /\
      outs (match h with Some _ => clear_membership x s1 | None => s1 end) = outs s1 /\
      ins (match h with Some _ => clear_membership x s1 | None => s1 end) = ins s1) as Hh by (intros x; by destruct h).
    destruct (Hh c) as (H1 & H2 & H3 & H4). split; [|rewrite E1, H4, L3; done].
    apply (pushed_input _ _ _ a v); [done | done | done | rewrite E2, H1; apply (cl_next _ _ _ _ _ _ _ _ Hp) | by rewrite E1, H3, L4|].
    rewrite E3, H2, L1. by rewrite (cl_name _ _ _ _ _ _ _ _ Hp).
  - apply bind_Ok in H as (users & _ & H). apply bind_Ok in H as ([s1 c] & Hp%push_clone_Ok & H). apply bind_Ok in H as (s2 & Hs & H). cbn [fst snd] in *.
    destruct (cl_state _ _ _ _ _ _ _ _ Hp) as (L1 & _ & L3 & L4). apply set_Ok in Hs as (v & Ev & E1 & E2 & E3).
    unfold change_graph_output in H. apply bind_Ok in H as (outs' & Hr & [= <-]). apply replace_first_Ok in Hr as (l1 & l2 & R1 & R2 & _).
    cbn. split; [|by rewrite E1, L3]. rewrite E1, L4 in R1.
    apply (pushed_output _ _ _ a v l1 l2); [done | done | done | cbn; rewrite E2; apply (cl_next _ _ _ _ _ _ _ _ Hp) | done | | cbn; by rewrite E3, L1].
    cbn. rewrite R2. by rewrite (cl_name _ _ _ _ _ _ _ _ Hp).
  - apply set_Ok in H as (v & Ev & E1 & E2 & E3). split; [|by rewrite E1]. apply (pushed_inner _ _ _ a v); try done. by rewrite E1.
Qed.

(** [unused] alone, from the theorem about values over the trivial ones. *)
Lemma push_buffer_unused inputs outputs buffer_users b st st' :
  push_buffer clone_index fresh clone_ownership inputs outputs buffer_users b st = Ok st' -> unused fresh st -> unused fresh st'.
Proof.
  intros H. apply (push_buffer_sound (fun _ _ _ => tt) clone_index fresh) in H; [by destruct H | | done]. split; [by intros ? ? [] | done | done].
Qed.

Lemma lies_kept st st' b a v k q : lies st b a v -> lx_state st' = dset k q (lx_state st) -> (e_next st <= e_next st')%nat ->
  ab_name b <> k -> (forall i, (e_next st0 <= i < e_next st)%nat -> fresh i <> k) -> lies st' b a v.
Proof.
  intros [Hn Hp | i Hn Hi Hp] El En Hk Hf.
  - apply lies_itself; [done|]. rewrite El, dget_dset. by case_decide.
  - apply (lies_clone _ _ _ _ i); [done | lia|]. rewrite El, dget_dset. case_decide as E; [|done]. by destruct (Hf i); [lia|].
Qed.

(** Setting one more place that is neither an output nor an input. *)
Lemma places_set done done' st st' k a v :
  places done st -> unused fresh st' -> (e_next st <= e_next st')%nat -> ins st' = ins st ->
  NoDup (outs st') -> (forall n, n ∈ outs st' -> n ∈ outs st \/ n = fresh (e_next st)) ->
  lx_state st' = dset k (a, v) (lx_state st) -> k ∉ outs st' -> k ∉ ins st0 -> (forall x, x ∈ done -> x ∈ done') ->
  k ∈ (ab_name <$> done') \/ (exists i, (e_next st0 <= i)%nat /\ k = fresh i) ->
  (forall x, x ∈ done -> ab_name x <> k) -> (forall i, (e_next st0 <= i < e_next st)%nat -> fresh i <> k) ->
  (forall b a', b ∈ done' -> pushed b = true -> address (ab b) = Some a' -> b ∈ done \/ exists v', lx_view b = Some v' /\ lies st' b a' v') ->
  places done' st'.
Proof.
  intros [P1 P2 P3 [P4 P4'] P5 P6 P7] Hu Hn Hin Hnd Hsub El Hko Hki Hincl Hk Hdone Hf Hb. split.
  - done.
  - lia.
  - congruence.
  - split; [done|]. intros n [Ho | ->]%Hsub; [by apply P4' | right; exists (e_next st); by split; [lia|]].
  - intros n p. rewrite El, dget_dset. case_decide as E; [by subst n|]. intros Hp. destruct (P5 n p Hp) as [Q1 Q2]. split; [|done].
    intros [? | ->]%Hsub; [done|]. by rewrite (us_lx _ _ P1) in Hp by lia.
  - intros n p. rewrite El, dget_dset. case_decide as E; [by subst n|]. intros Hp. destruct (P6 n p Hp) as [(x & -> & Hx)%list_elem_of_fmap | ?]; [left | by right].
    by apply list_elem_of_fmap_2, Hincl.
  - intros x a' Hx Hpx Ha. destruct (Hb x a' Hx Hpx Ha) as [Hd | ?]; [|done]. destruct (P7 x a' Hd Hpx Ha) as (v' & Hv & Hl). exists v'. split; [done|].
    eapply lies_kept; [exact Hl | exact El | lia | by apply Hdone | exact Hf].
Qed.

(** One more buffer is done. *)
Lemma done_snoc (Q : abuffer -> Z -> Prop) done b : (pushed b = true -> forall a, address (ab b) = Some a -> Q b a) ->
  forall x a, x ∈ done ++ [b] -> pushed x = true -> address (ab x) = Some a -> x ∈ done \/ Q x a.
Proof. intros H x a [Hx | ->%list_elem_of_singleton]%elem_of_app Hp Ha; [by left | right; by apply H]. Qed.

Lemma replaced_NoDup {A} (l1 l2 : list A) x c : NoDup (l1 ++ x :: l2) -> c ∉ l1 ++ x :: l2 ->
  NoDup (l1 ++ c :: l2) /\ x ∉ l1 ++ c :: l2.
Proof.
  intros (N1 & N2 & (N3 & N4)%NoDup_cons)%NoDup_app. rewrite !elem_of_app, !elem_of_cons. intros Hc. split.
  - apply NoDup_app. split_and!; [done | | apply NoDup_cons; split; [tauto | done]]. intros y Hy [-> | Hy2]%elem_of_cons; [tauto|].
    apply (N2 y Hy). apply elem_of_cons. by right.
  - intros [Hx | [-> | Hx]]; [by apply (N2 _ Hx); list_mem | tauto | done].
Qed.

Lemma lies_set st st' b a v : address (ab b) = Some a -> lx_view b = Some v -> ab_name b ∉ ins st0 ->
  lx_state st' = dset (ab_name b) (a, v) (lx_state st) ->
  pushed b = true -> forall a', address (ab b) = Some a' -> exists v', lx_view b = Some v' /\ lies st' b a' v'.
Proof.
  intros Ha Hv Hi El _ a' Ha'. rewrite Ha in Ha'. injection Ha' as <-. exists v. split; [done|]. apply lies_itself; [done|].
  rewrite El, dget_dset. by rewrite decide_True.
Qed.

Lemma places_step buffer_users done b rest st st' : bufs = done ++ b :: rest -> places done st ->
  push_buffer clone_index fresh clone_ownership (ins st0) (outs st0) buffer_users b st = Ok st' -> places (done ++ [b]) st'.
Proof.
  intros El HP H. pose proof (push_buffer_unused _ _ _ _ _ _ H (pc_unused _ _ HP)) as Hu. apply push_buffer_as in H as [H Hin].
  assert (b ∈ bufs) as Hb by (rewrite El; list_mem).
  assert (forall x, x ∈ done -> ab_name x <> ab_name b) as Hne.
  { intros x Hx E. rewrite El, fmap_app in Hdistinct. apply NoDup_app in Hdistinct as (_ & Hd & _). apply (Hd (ab_name x)); [by apply list_elem_of_fmap_2|].
    cbn. rewrite E. list_mem. }
  assert (forall x, x ∈ done -> ab_name x <> fresh (e_next st)) as Hnf.
  { intros x Hx. apply Hknown; [rewrite El; apply elem_of_app; by left | apply (pc_next _ _ HP)]. }
  pose proof (pc_next _ _ HP) as Hnx. pose proof (pc_unused _ _ HP) as Hu0. destruct (pc_outs _ _ HP) as [Hnd Hsub].
  destruct H as [Hno -> | a v Ha Hv Hi En Eo Elx | a v l1 l2 Ha Hv Hi En E1 E2 Elx | a v Ha Hv Hi Hno En Eo Elx].
  - destruct HP as [P1 P2 P3 P4 P5 P6 P7]. split; [done | done | done | done | done | |].
    + intros n p Hp. rewrite fmap_app, elem_of_app. destruct (P6 n p Hp); [left; by left | by right].
    + intros x a [Hx | ->%list_elem_of_singleton]%elem_of_app Hpx Ha; [by apply P7|]. destruct Hno; congruence.
  - apply (places_set done (done ++ [b]) st st' (fresh (e_next st)) a v); try done; try lia.
    + by rewrite Eo.
    + intros n. rewrite Eo. by left.
    + rewrite Eo. by apply (us_outs _ _ Hu0).
    + rewrite <- (pc_inputs _ _ HP). by apply (us_inputs _ _ Hu0).
    + intros x Hx. apply elem_of_app. by left.
    + right. by exists (e_next st).
    + intros i Hi' E%Hinj. lia.
    + apply done_snoc. intros _ a' Ha'. rewrite Ha in Ha'. injection Ha' as <-. exists v. split; [done|]. apply (lies_clone _ _ _ _ (e_next st)); [done | lia|].
      rewrite Elx, dget_dset. by rewrite decide_True.
  - destruct (replaced_NoDup l1 l2 (ab_name b) (fresh (e_next st))) as [N1 N2]; [by rewrite <- E1 | rewrite <- E1; by apply (us_outs _ _ Hu0)|].
    apply (places_set done (done ++ [b]) st st' (ab_name b) a v); try done; try lia.
    + by rewrite E2.
    + intros n. rewrite E1, E2, !elem_of_app, !elem_of_cons. tauto.
    + by rewrite E2.
    + intros x Hx. apply elem_of_app. by left.
    + left. rewrite fmap_app. apply elem_of_app. right. list_mem.
    + intros i Hi' E. by apply (Hknown b i); [| lia|].
    + by apply done_snoc, (lies_set st st' b a v).
  - apply (places_set done (done ++ [b]) st st' (ab_name b) a v); try done; try lia.
    + by rewrite Eo.
    + intros n. rewrite Eo. by left.
    + rewrite Eo. intros [? | (i & ? & E)]%Hsub; [done | by apply (Hknown b i)].
    + intros x Hx. apply elem_of_app. by left.
    + left. rewrite fmap_app. apply elem_of_app. right. list_mem.
    + intros i Hi' E. by apply (Hknown b i); [| lia|].
    + by apply done_snoc, (lies_set st st' b a v).
Qed.

Lemma places_relayout p st st' : places bufs st ->
  materialize_relayout clone_index fresh clone_ownership contract_kept p st = Ok st' -> places bufs st'.
Proof.
  intros HP H. assert (unused fresh st') as Hu.
  { apply (materialize_sound (fun _ _ _ => tt) clone_index fresh) in H; [destruct H as [_ H]; apply H, (pc_unused _ _ HP) | | done].
    split; [by intros ? ? [] | done | done]. }
  unfold materialize_relayout in H. do 3 (apply bind_Ok in H as (? & _ & H)). apply bind_Ok in H as ([s1 c] & Hp%push_clone_Ok & H). cbn [fst snd] in H.
  destruct (destination_address p) as [d|]; [|done]. injection H as <-. destruct (cl_state _ _ _ _ _ _ _ _ Hp) as (L1 & _ & L3 & L4).
  pose proof (cl_name _ _ _ _ _ _ _ _ Hp) as Ec. pose proof (cl_next _ _ _ _ _ _ _ _ Hp) as En. pose proof (pc_next _ _ HP) as Hnx.
  pose proof (pc_unused _ _ HP) as Hu0. destruct (pc_outs _ _ HP) as [Hnd Hsub].
  apply (places_set bufs bufs st _ c d (destination_view p)); cbn; try done.
  - lia.
  - by rewrite L3.
  - by rewrite L4.
  - intros n. rewrite L4. by left.
  - by rewrite L1.
  - rewrite L4, Ec. by apply (us_outs _ _ Hu0).
  - rewrite <- (pc_inputs _ _ HP), Ec. by apply (us_inputs _ _ Hu0).
  - right. by exists (e_next st).
  - intros b Hb. rewrite Ec. by apply Hknown.
  - intros i Hi E. rewrite Ec in E. apply Hinj in E. lia.
  - intros; by left.
Qed.

(** C9. After the push, what the caller of the graph sees is in HBM -- no graph input and no
    graph output has an address in the scratchpad -- and every placed buffer lies at the
    address the solver gave it, itself or, for an input, as a clone of its own. *)
Theorem pushed_places accepted st :
  _push_allocation clone_index fresh clone_ownership readers_certified contract_kept bufs accepted st0 = Ok st ->
  (forall n, n ∈ output_names (eg st) \/ n ∈ dkeys (graph_inputs (eg st)) -> dget (lx_state st) n = None) /\
  (forall b a, b ∈ bufs -> pushed b = true -> address (ab b) = Some a -> exists v, lx_view b = Some v /\ lies st b a v).
Proof.
  unfold _push_allocation. intros (s1 & H1 & H)%bind_Ok.
  assert (places bufs s1) as P1.
  { refine (for_each_ind _ places _ _ _ _ places_start H1). intros done x rest s s' El HP Hx. by eapply places_step. }
  unfold materialize_lx_relayouts in H. apply bind_Ok in H as (_ & _ & H). apply bind_Ok in H as (_ & _ & H).
  assert (places bufs st) as P2.
  { refine (for_each_ind _ (fun _ => places bufs) _ _ _ _ P1 H). intros done x rest s s' _ HP Hx. by eapply places_relayout. }
  destruct P2 as [_ _ P3 _ P5 _ P7]. split; [|exact P7]. intros n Hn. destruct (dget (lx_state st) n) as [q|] eqn:E; [|done].
  destruct (P5 n q E) as [Q1 Q2]. rewrite P3 in Hn. by destruct Hn.
Qed.
End places.
