(* ===== verification/ScratchpadRun.v ===== *)
(** * Running a placed graph

    A machine with two memories: HBM, in which every buffer has a place of its own, and the
    scratchpad, in which the resident buffers have the slots of a layout plan.  Writing a
    slot destroys whatever resident shares a byte with it, and an opaque kernel destroys
    everything.  Inputs are copied into their slots before they are needed and graph
    outputs are copied out when they are produced.

    If the plan is valid and lifetimes cover the accesses, the machine computes in HBM
    what the operations compute on storage without a scratchpad. *)

From S2P Require Import Prelude PyDict PlanSolver Liveness CoreMapping CoreViews BufferFacts AllocatorBuffers ContextSwitch ContextSwitchSafe.

(** The slot of a buffer with an address. *)
Definition slot_of (bufs : list LifetimeBoundBuffer) (n : string) : option (Z * Z) :=
  match list_find (fun b => buf_name b = n) bufs with
  | Some (_, b) => (fun a => (a, buf_size b)) <$> address b
  | None => None
  end.

Section machine.
Context {V : Type} (value : operation -> string -> list V -> V).
(** The plan, the graph's boundary, the kernels that use the scratchpad for themselves,
    and what is left in a destroyed slot. *)
Context (bufs : list LifetimeBoundBuffer) (inputs outputs : list string) (opaque : operation -> bool).
Context (birth : string -> Z) (junk : (string -> V) -> string -> V).

#[local] Notation store := (string -> V).
#[local] Notation slot := (slot_of bufs).

Record memories := mkMemories {
  hbm : store;
  lx : store
}.

(** Two residents with a byte in common. *)
Definition shares (n m : string) : bool :=
  match slot n, slot m with
  | Some (x, s), Some (y, t) => bool_decide (n <> m /\ ~ ranges_disjoint x (x + s) y (y + t))
  | _, _ => false
  end.

Definition set_at (n : string) (v : V) (h : store) : store := fun m => if bool_decide (m = n) then v else h m.

Definition put (l : store) (n : string) (v : V) : store :=
  fun m => if bool_decide (m = n) then v else if shares n m then junk l m else l m.

Definition resident_name (n : string) : bool := bool_decide (is_Some (slot n)).

(** Inputs whose copy is made before the operation at [k]. *)
Definition entering (k : nat) : list string := filter (fun n => is_Some (slot n) /\ birth n = Z.of_nat k) inputs.

Definition load (m : memories) (n : string) : V := if resident_name n then lx m n else hbm m n.

Definition store_result (o : operation) (vs : list V) (m : memories) (n : string) : memories :=
  let v := value o n vs in
  if resident_name n && negb (bool_decide (n ∈ inputs)) then
    mkMemories (if bool_decide (n ∈ outputs) then set_at n v (hbm m) else hbm m) (put (lx m) n v)
  else mkMemories (set_at n v (hbm m)) (lx m).

Definition copy_in (m : memories) (n : string) : memories := mkMemories (hbm m) (put (lx m) n (hbm m n)).

Definition placed_step (m : memories) (ko : nat * operation) : memories :=
  let m1 := foldl copy_in m (entering ko.1) in
  let m2 := if opaque ko.2 then mkMemories (hbm m1) (junk (lx m1)) else m1 in
  foldl (store_result ko.2 (load m1 <$> read_names ko.2)) m2 (stored ko.2).

Definition placed_exec (s : store) (ops : list operation) : memories :=
  foldl placed_step (mkMemories s (junk s)) (imap pair ops).

(** ** Placed graphs *)

(** What the machine needs of the plan and of the operations; [death] is the last operation
    that accesses a resident. *)
Record placed (ops : list operation) (death : string -> Z) : Prop := {
  pl_compatible : pairwise compatible bufs;
  pl_times : forall b, b ∈ bufs -> is_Some (address b) -> start_time b <= birth (buf_name b) /\ death (buf_name b) < end_time b;
  pl_lives : forall n, is_Some (slot n) -> 0 <= birth n <= death n;
  (** inputs take over nobody's slot *)
  pl_children : forall c p, c ∈ bufs -> p ∈ in_place_parents c -> buf_name c ∉ inputs;
  pl_reads : forall n k o, is_Some (slot n) -> ops !! k = Some o -> n ∈ read_names o ->
    Z.of_nat k <= death n /\ (birth n < Z.of_nat k \/ birth n = Z.of_nat k /\ n ∈ inputs);
  pl_stores : forall n k o, is_Some (slot n) -> ops !! k = Some o -> n ∈ stored o -> n ∉ inputs /\ birth n <= Z.of_nat k <= death n;
  pl_born : forall n k o, is_Some (slot n) -> n ∉ inputs -> ops !! k = Some o -> birth n = Z.of_nat k -> n ∈ stored o;
  pl_single : forall n m k o, ops !! k = Some o -> n ∈ stored o -> m ∈ stored o -> n = m;
  (** nothing resident is live while an opaque kernel runs *)
  pl_alone : forall n k o, is_Some (slot n) -> ops !! k = Some o -> opaque o = true -> ~ (birth n <= Z.of_nat k <= death n)
}.

Lemma slot_buffer n : is_Some (slot n) ->
  exists i b x, bufs !! i = Some b /\ buf_name b = n /\ address b = Some x /\ slot n = Some (x, buf_size b).
Proof.
  unfold slot_of. destruct (list_find _ bufs) as [[i b]|] eqn:E; [|by intros [? ?]]. apply list_find_Some in E as (Hi & Hn & _).
  destruct (address b) as [x|] eqn:Ex; [|by intros [? ?]]. intros _. by exists i, b, x.
Qed.

Section placed.
Context (ops : list operation) (death : string -> Z) (P : placed ops death).

(** What is written at [k] shares no byte with what is live there and later; what is
    copied in shares none with what is live there. *)
Lemma apart n m k : is_Some (slot n) -> is_Some (slot m) -> birth n <= k <= death n -> birth m <= k <= death m ->
  (n ∈ inputs \/ k < death m) -> (m ∈ inputs \/ birth m < k) -> shares n m = false.
Proof.
  intros Hn Hm Hkn Hkm Hside Hold. destruct (slot_buffer n Hn) as (i & b & x & Hb & En & Ex & Sn).
  destruct (slot_buffer m Hm) as (j & c & y & Hc & Em & Ey & Sm). unfold shares. rewrite Sn, Sm.
  apply bool_decide_eq_false. intros [Hne Hov]. apply Hov. clear Hov.
  assert (i <> j) as Hij by (intros ->; congruence).
  destruct (pl_times _ _ P b) as [B1 B2]; [by eapply list_elem_of_lookup_2 | by eexists|].
  destruct (pl_times _ _ P c) as [C1 C2]; [by eapply list_elem_of_lookup_2 | by eexists|].
  rewrite En in B1, B2. rewrite Em in C1, C2.
  assert (overlaps_in_time b c = true) as Ht by (unfold overlaps_in_time; lia).
  assert (compatible b c) as Hcomp.
  { destruct (decide (i < j)%nat); [by apply (pl_compatible _ _ P i j)|]. apply compatible_sym, (pl_compatible _ _ P j i); [lia | done | done]. }
  destruct (Hcomp x y Ex Ey Ht) as [Hd | [(Hp & He & _) | (Hp & He & _)]]; [done | |].
  - apply (pl_children _ _ P) in Hp; [|by eapply list_elem_of_lookup_2]. rewrite Em in Hp. destruct Hold; [done | lia].
  - apply (pl_children _ _ P) in Hp; [|by eapply list_elem_of_lookup_2]. rewrite En in Hp. destruct Hside; [done | lia].
Qed.

(** ** The simulation *)

(** Before the operation at [k]: HBM agrees on whatever lives there, the scratchpad on what
    is live. *)
Record agrees (k : nat) (m : memories) (s : store) : Prop := {
  ag_hbm : forall n, slot n = None \/ n ∈ inputs \/ n ∈ outputs -> hbm m n = s n;
  ag_lx : forall n, is_Some (slot n) -> birth n < Z.of_nat k <= death n -> lx m n = s n
}.

(** After the copies as well. *)
Definition ready (k : nat) (todo : list string) (m : memories) (s : store) : Prop :=
  (forall n, slot n = None \/ n ∈ inputs \/ n ∈ outputs -> hbm m n = s n) /\
  (forall n, is_Some (slot n) -> birth n <= Z.of_nat k <= death n ->
     birth n < Z.of_nat k \/ n ∈ inputs /\ n ∉ todo -> lx m n = s n).

Lemma copies_ready k s l : (forall n, n ∈ l -> is_Some (slot n) /\ n ∈ inputs /\ birth n = Z.of_nat k /\ Z.of_nat k <= death n) ->
  forall m, ready k l m s -> ready k [] (foldl copy_in m l) s.
Proof.
  induction l as [|n l IH]; intros Hl m Hr; [done|]. cbn. apply IH; [intros x Hx; apply Hl; by right|]. destruct Hr as [H1 H2].
  destruct (Hl n) as (Hs & Hi & Hb & Hd); [list_mem|]. split; [done|]. intros x Hx Hk Hc. cbn. unfold put.
  case_bool_decide as E; [subst x; apply H1; auto|]. rewrite (apart n x (Z.of_nat k)); [|done|done|lia|done|by left|].
  - apply H2; [done | done |]. destruct Hc as [? | [? Hn]]; [by left | right]. split; [done|]. intros [-> | ?]%elem_of_cons; done.
  - destruct Hc as [? | [? _]]; [by right | by left].
Qed.

Section step.
Context (k : nat) (o : operation) (m : memories) (s : store) (Hk : ops !! k = Some o) (Hag : agrees k m s).

#[local] Notation m1 := (foldl copy_in m (entering k)).
#[local] Notation vs := (s <$> read_names o).

Lemma inputs_ready : ready k [] m1 s.
Proof.
  apply copies_ready.
  - intros n ((Hs & Hb) & Hn)%list_elem_of_filter. split_and!; [done | done | done|]. pose proof (pl_lives _ _ P n Hs). lia.
  - destruct Hag as [H1 H2]. split; [done|]. intros n Hs Hl Hc. apply H2; [done|]. destruct Hc as [? | [Hi Hn]]; [lia|].
    split; [|lia]. destruct (Z.eq_dec (birth n) (Z.of_nat k)); [|lia]. destruct Hn. by apply list_elem_of_filter.
Qed.

Lemma loads_right : load m1 <$> read_names o = vs.
Proof.
  destruct inputs_ready as [H1 H2]. apply list_fmap_ext. intros i n Hn%list_elem_of_lookup_2. unfold load, resident_name. case_bool_decide as Hs.
  - destruct (pl_reads _ _ P n k o Hs Hk Hn) as [Hd Hb]. apply H2; [done | lia |]. destruct Hb as [? | [_ ?]]; [by left | right].
    split; [done | apply not_elem_of_nil].
  - apply H1. left. by apply eq_None_not_Some.
Qed.

(** The stores made so far. *)
Definition stored_so_far (done : list string) : store := fun n => if bool_decide (n ∈ done) then value o n vs else s n.

Definition storing (done : list string) (m : memories) : Prop :=
  (forall n, slot n = None \/ n ∈ inputs \/ n ∈ outputs -> hbm m n = stored_so_far done n) /\
  (forall n, is_Some (slot n) -> birth n <= Z.of_nat k < death n -> birth n < Z.of_nat k \/ n ∈ inputs \/ n ∈ done ->
     lx m n = stored_so_far done n).

Lemma store_one done n m' : n ∈ stored o -> (forall x, x ∈ done -> x ∈ stored o) -> storing done m' ->
  storing (done ++ [n]) (store_result o vs m' n).
Proof.
  intros Hn Hdone [H1 H2].
  assert (forall x, stored_so_far (done ++ [n]) x = if bool_decide (x = n) then value o n vs else stored_so_far done x) as Hsf.
  { intros x. unfold stored_so_far. case_bool_decide as E1; case_bool_decide as E2; try (subst x); try done.
    - apply elem_of_app in E1 as [E1 | ->%list_elem_of_singleton]; [by rewrite bool_decide_eq_true_2|done].
    - destruct E1. list_mem.
    - rewrite bool_decide_eq_false_2; [done|]. intros Hx. apply E1, elem_of_app. by left. }
  unfold store_result, resident_name. case_bool_decide as Hs; cbn [andb].
  - destruct (pl_stores _ _ P n k o Hs Hk Hn) as [Hni Hbn]. rewrite (bool_decide_eq_false_2 (n ∈ inputs)) by done. cbn [negb]. split; cbn.
    + intros x Hx. rewrite Hsf. case_bool_decide as Ho; unfold set_at.
      * case_bool_decide; [done | by apply H1].
      * rewrite bool_decide_eq_false_2; [by apply H1|]. intros ->. destruct Hs as [? E]. rewrite E in Hx. destruct Hx as [? | [? | ?]]; done.
    + intros x Hx Hl Hc. rewrite Hsf. unfold put. case_bool_decide as E; [done|].
      assert (birth x < Z.of_nat k \/ x ∈ inputs) as Hc'.
      { destruct Hc as [? | [? | Hin]]; [by left | by right|]. destruct E. apply elem_of_app in Hin as [Hin | ->%list_elem_of_singleton]; [|done].
        apply (pl_single _ _ P x n k o Hk); [by apply Hdone | done]. }
      rewrite (apart n x (Z.of_nat k)); [| done | done | lia | lia | right; lia | tauto]. apply H2; [done | done | tauto].
  - split; cbn.
    + intros x Hx. rewrite Hsf. unfold set_at. case_bool_decide; [done | by apply H1].
    + intros x Hx Hl Hc. rewrite Hsf. rewrite (bool_decide_eq_false_2 (x = n)) by (intros ->; contradiction). apply H2; [done | done|].
      destruct Hc as [? | [? | Hin]]; [by left | right; by left | right; right].
      apply elem_of_app in Hin as [Hin | ->%list_elem_of_singleton]; [done | contradiction].
Qed.

Lemma store_all l : forall done m', (forall x, x ∈ done ++ l -> x ∈ stored o) -> storing done m' ->
  storing (done ++ l) (foldl (store_result o vs) m' l).
Proof.
  induction l as [|n l IH]; intros done m' Hl Hm; [by rewrite app_nil_r|]. cbn.
  replace (done ++ n :: l) with ((done ++ [n]) ++ l) by (by rewrite <- app_assoc). apply IH; [by rewrite <- app_assoc|].
  apply store_one; [apply Hl; list_mem | intros x Hx; apply Hl; list_mem | done].
Qed.

Lemma placed_step_agrees : agrees (S k) (placed_step m (k, o)) (step value s o).
Proof.
  unfold placed_step. cbn [fst snd]. rewrite loads_right. destruct inputs_ready as [H1 H2].
  destruct (store_all (stored o) [] (if opaque o then mkMemories (hbm m1) (junk (lx m1)) else m1)) as [S1 S2]; [done | |].
  - split.
    + intros n Hn. unfold stored_so_far. rewrite bool_decide_eq_false_2 by apply not_elem_of_nil.
      replace (hbm (if opaque o then _ else m1) n) with (hbm m1 n) by (by destruct (opaque o)). by apply H1.
    + intros n Hs Hl Hc. unfold stored_so_far. rewrite bool_decide_eq_false_2 by apply not_elem_of_nil.
      destruct (opaque o) eqn:Eo; [by destruct (pl_alone _ _ P n k o Hs Hk Eo); lia|]. apply H2; [done | lia |].
      destruct Hc as [? | [? | ?%elem_of_nil]]; [by left | right; split; [done | apply not_elem_of_nil] | done].
  - cbn [app] in S1, S2. split; [exact S1|]. intros n Hs Hl. apply S2; [done | lia|].
    destruct (Z.eq_dec (birth n) (Z.of_nat k)) as [E|]; [|left; lia]. right. destruct (decide (n ∈ inputs)) as [|Hi]; [by left|].
    right. by apply (pl_born _ _ P n k o).
Qed.
End step.

(** The machine and the plain storage agree after every prefix. *)
Lemma placed_exec_agrees s l : l `prefix_of` ops ->
  agrees (length l) (placed_exec s l) (exec value s l).
Proof.
  induction l as [|o l IH] using rev_ind; intros Hp.
  - split; [done|]. cbn. intros n Hs Hl. pose proof (pl_lives _ _ P n Hs). lia.
  - unfold placed_exec, exec. rewrite imap_app, !foldl_app, length_app. cbn. rewrite Nat.add_0_r, Nat.add_1_r. apply placed_step_agrees.
    + destruct Hp as [r E]. rewrite E, <- app_assoc. by apply list_lookup_middle.
    + apply IH. etrans; [by eexists|exact Hp].
Qed.
End placed.
End machine.
