(* ===== verification/ScratchpadPlaced.v ===== *)
(** * Allocated graphs run as placed

    The plans [plan_allocation] commits meet what [ScratchpadRun] needs: lifetimes cover the
    accesses, residents are written by their producer before they are read, nobody changes
    them behind liveness's back and no opaque kernel runs while they are live.  So the
    scratchpad is transparent: the graph computes what it computes without one. *)

From S2P Require Import Prelude PyDict PlanSolver GreedySolver Liveness CoreMapping CoreViews BufferFacts ResidencyRules Allocator AllocatorBuffers AllocatorRelayout AllocatorPlan ContextSwitch ContextSwitchSafe GraphEdit ScratchpadRun.

(** Operations in the order a lowered graph has them: each writes its own buffer, and reads
    what earlier operations or the inputs provide. *)
Record ordered (g : graph) : Prop := {
  or_writes : forall o, o ∈ graph_operations g -> dep_name <$> dep_writes o = [get_name o];
  or_reads : forall k o n p, graph_operations g !! k = Some o -> n ∈ read_names o -> find_op g n = Some p ->
    exists j, graph_operations g !! j = Some p /\ (j < k)%nat
}.

(** A kernel that may run programs of its own on the device. *)
Definition opaque_kernel (o : operation) : bool := extern_kernel o && negb (empty_fallback o).

Definition first_access (g : graph) (n : string) : Z := default 0 (head (access_indices (lowering g) n)).
Definition last_access (g : graph) (n : string) : Z := default 0 (last (access_indices (lowering g) n)).

Section order.
Context (g : graph) (Hg : wf_graph g) (Ho : ordered g).

#[local] Notation ops := (graph_operations g).

Lemma access_bounds k o n : ops !! k = Some o -> n ∈ accesses (lower_op o) -> first_access g n <= Z.of_nat k <= last_access g n /\ 0 <= first_access g n.
Proof.
  intros Hk Ha. destruct (accessed_bounds (fun op => n ∈ accesses op) (lowering g) k (lower_op o)) as (f & z & Hf & Hz & ? & ?);
    [cbn; by rewrite list_lookup_fmap, Hk | done|]. fold (access_indices (lowering g) n) in Hf, Hz.
  unfold first_access, last_access. rewrite Hf, Hz. cbn. lia.
Qed.

Lemma op_position j k (p o : operation) : ops !! j = Some p -> ops !! k = Some o -> get_name o = get_name p -> k = j.
Proof. destruct Hg as [Hn _]. apply NoDup_app in Hn as (Hn & _). apply (unique_op (mkPlaced g []) Hn). Qed.

Lemma find_op_at j p : ops !! j = Some p -> find_op g (get_name p) = Some p.
Proof.
  intros Hj. unfold find_op. destruct (list_find _ ops) as [[i o]|] eqn:E.
  - apply list_find_Some in E as (Hi & En & _). pose proof (op_position _ _ _ _ Hj Hi En) as ->. cbn. congruence.
  - apply list_find_None in E. rewrite Forall_forall in E. by destruct (E p); [eapply list_elem_of_lookup_2|].
Qed.

(** The first access to an operation's buffer is the operation's own write. *)
Lemma producer_first j p : ops !! j = Some p -> first_access g (get_name p) = Z.of_nat j /\ get_name p ∉ read_names p.
Proof.
  intros Hj. assert (get_name p ∈ accesses (lower_op p)) as Hw.
  { unfold accesses. cbn. apply elem_of_app. right. rewrite (or_writes _ Ho) by (by eapply list_elem_of_lookup_2). list_mem. }
  assert (forall i o, ops !! i = Some o -> get_name p ∈ accesses (lower_op o) -> (j <= i)%nat) as Hlate.
  { intros i o Hi Ha. unfold accesses in Ha. cbn in Ha. apply elem_of_app in Ha as [Hr | Hwr].
    - destruct (or_reads _ Ho i o _ _ Hi Hr (find_op_at j p Hj)) as (j' & Hj' & Hlt). pose proof (op_position _ _ _ _ Hj Hj' eq_refl). lia.
    - rewrite (or_writes _ Ho) in Hwr by (by eapply list_elem_of_lookup_2). apply list_elem_of_singleton in Hwr.
      pose proof (op_position _ _ _ _ Hj Hi (eq_sym Hwr)). lia. }
  split.
  - destruct (access_bounds j p _ Hj Hw) as [[Hf _] H0].
    destruct (accessed_bounds (fun op => get_name p ∈ accesses op) (lowering g) j (lower_op p)) as (f & z & Ef & _);
      [cbn; by rewrite list_lookup_fmap, Hj | done|]. change (head (access_indices (lowering g) (get_name p)) = Some f) in Ef.
    assert (f ∈ access_indices (lowering g) (get_name p)) as Hin by (by apply head_Some_elem_of).
    unfold first_access in *. rewrite Ef in *. clear Ef. cbn in Hf, H0 |- *.
    apply elem_of_indices in Hin as (i & o' & -> & Hi & Ha). cbn in Hi. rewrite list_lookup_fmap in Hi.
    destruct (ops !! i) as [o|] eqn:Eo; [|done]. injection Hi as <-. specialize (Hlate i o Eo Ha). lia.
  - intros Hr. destruct (or_reads _ Ho j p _ _ Hj Hr (find_op_at j p Hj)) as (j' & Hj' & Hlt). pose proof (op_position _ _ _ _ Hj Hj' eq_refl). lia.
Qed.
End order.

(** ** The first user *)

Section first.
Context (g : graph).

Lemma buffer_users_of n : dget_or [] (get_buffer_users g) n = fst <$> users_of g n.
Proof.
  pose proof (group_fold (fun u : operation * dep => dep_name u.2) fst (all_accesses g) [] n) as E.
  transitivity (dget_or [] (foldl (fun m u => append_to (dep_name u.2) u.1 m) [] (all_accesses g)) n); [|rewrite E; done].
  f_equal. clear E.
  unfold get_buffer_users, all_accesses. generalize (@nil (string * list operation)).
  induction (graph_operations g) as [|o ops IH]; intros m; cbn [foldl]; [done|].
  rewrite IH, bind_cons, foldl_app. f_equal. clear. revert m.
  induction (dependencies o) as [|d ds IH]; intros m; cbn [foldl fmap list_fmap]; [done | apply IH].
Qed.

Lemma head_accesses n (ops : list operation) u :
  head (filter (fun u : operation * dep => dep_name u.2 = n) (o ← ops; (fun d => (o, d)) <$> dependencies o)) = Some u ->
  exists k, ops !! k = Some u.1 /\ u.2 ∈ dependencies u.1 /\ dep_name u.2 = n /\
    forall j o', (j < k)%nat -> ops !! j = Some o' -> forall d, d ∈ dependencies o' -> dep_name d <> n.
Proof.
  induction ops as [|o ops IH]; [done|]. rewrite bind_cons, filter_app.
  destruct (filter _ ((fun d => (o, d)) <$> dependencies o)) as [|v l] eqn:E; cbn [app].
  - intros H. destruct (IH H) as (k & Hk & Hd & Hn & Hb). exists (S k). split_and!; [done | done | done|].
    intros [|j] o' Hj Ho' d Hdd; [|apply (Hb j o'); [lia | done | done]]. injection Ho' as <-. intros En.
    apply (filter_nil_not_elem_of _ _ (o, d) E); [done | by apply list_elem_of_fmap_2].
  - intros [= <-]. assert (v ∈ filter (fun u : operation * dep => dep_name u.2 = n) ((fun d => (o, d)) <$> dependencies o)) as Hv by (rewrite E; list_mem).
    apply list_elem_of_filter in Hv as [Hn (d & -> & Hd)%list_elem_of_fmap]. exists 0%nat. split_and!; [done | done | done | intros; lia].
Qed.

Lemma first_user_at n u us : fst <$> users_of g n = u :: us ->
  exists k, graph_operations g !! k = Some u /\ n ∈ accesses (lower_op u) /\ first_access g n = Z.of_nat k.
Proof.
  intros H. destruct (users_of g n) as [|x l] eqn:E; [done|]. injection H as <- _.
  destruct (head_accesses n (graph_operations g) x) as (k & Hk & Hd & Hn & Hb); [unfold users_of, all_accesses in E; by rewrite E|].
  assert (forall o, n ∈ accesses (lower_op o) <-> exists d, d ∈ dependencies o /\ dep_name d = n) as Hacc.
  { intros o. unfold accesses. cbn. rewrite elem_of_app, !list_elem_of_fmap. setoid_rewrite elem_of_dependencies. naive_solver. }
  exists k. assert (n ∈ accesses (lower_op x.1)) as Ha by (apply Hacc; by exists x.2). split_and!; [done | done|].
  destruct (accessed_bounds (fun op => n ∈ accesses op) (lowering g) k (lower_op x.1)) as (f & z & Ef & _ & Hf & _);
    [cbn; by rewrite list_lookup_fmap, Hk | done|]. change (head (access_indices (lowering g) n) = Some f) in Ef.
  unfold first_access. rewrite Ef. cbn. apply head_Some_elem_of, elem_of_indices in Ef as (j & o' & -> & Hj & Hn').
  cbn in Hj. rewrite list_lookup_fmap in Hj. destruct (graph_operations g !! j) as [o|] eqn:Eo; [|done]. injection Hj as <-.
  apply Hacc in Hn' as (d & Hdd & Hdn). destruct (decide (j < k)%nat) as [Hlt|]; [by destruct (Hb j o Hlt Eo d Hdd)|]. lia.
Qed.
End first.

(** ** Hoisted copies *)

Section hoisted.
Context (g : graph) (Hg : wf_graph g).

#[local] Notation ops := (graph_operations g).

Lemma position_Ok name i : position ops name = Ok i -> exists k o, ops !! k = Some o /\ get_name o = name /\ i = Z.of_nat k.
Proof.
  unfold position. destruct (list_find _ ops) as [[k o]|] eqn:E; [|done]. intros [= <-]. apply list_find_Some in E as (Hk & Hn & _). by exists k, o.
Qed.

Lemma named_op_Ok name o : named_op g name = Ok o -> o ∈ ops /\ get_name o = name.
Proof. unfold named_op. destruct (find_op g name) eqn:E; [|done]. intros [= <-]. by apply find_op_Some. Qed.

Lemma loop_entry_spec l o e : counted_loop_entry l o = Some e ->
  exists j, l !! j = Some e /\ take 1 (counted_loop_group_path e) = take 1 (counted_loop_group_path o) /\ take 1 (counted_loop_group_path o) <> [] /\
    forall i x, l !! i = Some x -> take 1 (counted_loop_group_path x) = take 1 (counted_loop_group_path o) -> (j <= i)%nat.
Proof.
  unfold counted_loop_entry. case_bool_decide as E; [done|]. destruct (list_find _ l) as [[j x]|] eqn:El; [|done]. intros [= <-].
  apply list_find_Some in El as (Hj & Hp & Hb). exists j. split_and!; [done | done | done|]. intros i x' Hi Hx.
  destruct (decide (j <= i)%nat); [done|]. by destruct (Hb i x' Hi ltac:(lia)).
Qed.

(** The copy of an input is hoisted to the first operation of the outermost loop of its
    first user, across no opaque kernel, and nobody mutates the input. *)
Lemma hoisted_spec n u us e : _hoisted_input_clone_entry g n (u :: us) = Ok (Some e) ->
  exists j k p o, ops !! j = Some p /\ get_name p = e /\ ops !! k = Some o /\ get_name o = u /\ (j <= k)%nat /\
    take 1 (group_path p) = take 1 (group_path o) /\ take 1 (group_path o) <> [] /\
    (forall i x, ops !! i = Some x -> opaque_kernel x = true -> (j <= i)%nat -> (k < i)%nat) /\
    (forall x, x ∈ ops -> mutates n x = false).
Proof.
  unfold _hoisted_input_clone_entry. destruct (last (u :: us)) as [z|]; [|done]. intros H. apply bind_Ok in H as (first & Hf & H).
  destruct (counted_loop_entry _ _) as [le|] eqn:El; [|done]. destruct (existsb (mutates n) ops) eqn:Em; [done|].
  apply bind_Ok in H as (p & Hp & H). apply bind_Ok in H as (start & Hs & H). apply bind_Ok in H as (fu & Hu & H). apply bind_Ok in H as (ext & Hext & H).
  destruct ext; [done|]. apply bind_Ok in H as (sev & _ & H). destruct sev; [done|]. apply bind_Ok in H as (fin & _ & H). apply bind_Ok in H as (i & _ & H).
  destruct (_ && _); [done|]. injection H as <-.
  apply loop_entry_spec in El as (j & Hj & Hpath & Hne & Hmin). rewrite list_lookup_fmap in Hj. destruct (ops !! j) as [p'|] eqn:Ej; [|done]. injection Hj as <-.
  apply named_op_Ok in Hp as [[jp Hjp]%list_elem_of_lookup Ep]. pose proof (op_position g Hg _ _ _ _ Ej Hjp Ep) as ->. rewrite Ej in Hjp. injection Hjp as ->.
  apply position_Ok in Hs as (j' & q & Hq & Eq & ->). pose proof (op_position g Hg _ _ _ _ Ej Hq Eq) as ->.
  apply position_Ok in Hu as (k & o & Hk & Ek & ->).
  apply named_op_Ok in Hf as [[k' Hk']%list_elem_of_lookup Ef]. assert (get_name o = get_name first) as Eo by congruence.
  pose proof (op_position g Hg _ _ _ _ Hk' Hk Eo) as ->. rewrite Hk in Hk'. injection Hk' as ->.
  assert ((j <= k')%nat) as Hle by (apply (Hmin k' (lower_op first)); [by rewrite list_lookup_fmap, Hk | done]).
  exists j, k', p, first. split_and!; [done | done | done | done | done | done | done | |].
  - intros i' x Hi' Hop Hji. destruct (decide (k' < i')%nat) as [|Hge]; [done|]. exfalso. unfold _extern_kernel_in_live_range in Hext.
    apply bind_Ok in Hext as (l & Hl & [= Hex]). apply not_true_iff_false in Hex. apply Hex, existsb_exists. exists x.
    split; [|exact Hop]. apply list_elem_of_In. eapply py_map_op_at; [exact Hl | | by apply op_at_lookup].
    apply (live_range_spec _ (Z.of_nat j) (Z.of_nat k')); [| | lia]; apply list_elem_of_fmap;
      [exists 0%nat; split; [lia | apply elem_of_seq; lia] | exists (k' - j)%nat; split; [lia | apply elem_of_seq; lia]].
  - intros x Hx. apply not_true_iff_false. intros E. apply not_true_iff_false in Em. apply Em, existsb_exists. exists x. split; [by apply list_elem_of_In | done].
Qed.
End hoisted.

(** Before which operation the copy of an input runs. *)
Definition clone_entry (g : graph) (n : string) : Z :=
  match _hoisted_input_clone_entry g n (get_name <$> dget_or [] (get_buffer_users g) n) with
  | Ok (Some e) => match position (graph_operations g) e with Ok i => i | Raise _ => first_access g n end
  | _ => first_access g n
  end.

(** ** Allocations without relayouts *)

Section allocated.
Context (plan : Z -> Z -> list LifetimeBoundBuffer -> res (list LifetimeBoundBuffer)) `{!LayoutSolver plan}.
Context (C : config) (F : graph_facts) (supports_paired : bool) (size : Z).
Context (collect : graph -> list LXRelayoutPlan) (materialized : graph -> bool).
Context (passes : list (graph -> graph)) (g0 : graph) (given : option (list LXRelayoutPlan)).

#[local] Notation g := (foldl (fun g p => p g) g0 passes).
#[local] Notation given' := (if bool_decide (passes = []) then given else None).
#[local] Notation ops := (graph_operations g).

Context (Hg : wf_graph g).
Context (Hnone : supports_paired = true -> relayouts_to_plan C collect materialized g given' = Ok []).

Lemma alone_prepared bufs : _prepare_buffers C F supports_paired collect materialized g given' = Ok bufs ->
  exists ov v0 v mem reasons gen0, generation C F g [] bufs ov v0 v mem reasons gen0.
Proof.
  unfold _prepare_buffers. intros H. apply (generate_buffers_Ok _ _ _ _ _ Hg). destruct supports_paired; cbn [negb] in H; [|done].
  rewrite Hnone in H by done. cbn [mbind res_bind] in H. apply bind_Ok in H as (gen & Hgen & H). rewrite Hgen. rewrite <- H. symmetry. apply append_alone.
  destruct (generate_buffers_Ok _ _ _ _ _ Hg Hgen) as (ov & v0 & v & mem & reasons & gen0 & G).
  intros b Hb. by destruct (generated_fresh _ _ _ _ _ _ _ _ _ _ _ b G Hb) as [-> _].
Qed.

(** What is known of a committed buffer. *)
Record committed_buffer (ov : overrides) (b : LifetimeBoundBuffer) : Prop := {
  cb_times : start_time b = lo (lowering g) ov (buf_name b) /\ end_time b = hi (lowering g) ov (buf_name b);
  cb_children : in_place_parents b <> [] -> buf_name b ∉ dkeys (graph_inputs g);
  cb_rules : is_Some (address b) -> exists plans v, passes_rules C F g plans v (buf_name b)
}.

Lemma allocation_committed out accepted :
  plan_allocation C F plan supports_paired size collect materialized passes g0 given = Ok (out, accepted) ->
  valid_plan size 128 (ab <$> out) /\ exists ov, counted_loop_lifetime_overrides (lowering g) = Ok ov /\ forall b, b ∈ out -> committed_buffer ov (ab b).
Proof.
  intros H. unfold plan_allocation in H. apply bind_Ok in H as (bufs & Hb & H). apply bind_Ok in H as (mid & Hs & Hf).
  destruct (alone_prepared bufs Hb) as (ov & v0 & v & mem & reasons & gen0 & G).
  destruct (solve_Ok plan size bufs (generated_wf _ _ _ _ _ _ _ _ _ _ _ Hg G) (generated_plain _ _ _ _ _ _ _ _ _ _ _ G) mid Hs) as [Hsolved Hvalid].
  apply finalize_Ok in Hf. split.
  { eapply withdrawn_valid; [|exact Hvalid]. apply Forall2_fmap. eapply Forall2_impl; [exact Hf|]. by intros b b' [? _]. }
  exists ov. pose proof G as [Hw _ _ _ _ Hk _ [_ B2 _ _] Hat _]. split; [exact Hw|]. intros b [i Hi]%list_elem_of_lookup.
  destruct (Forall2_lookup_r _ _ _ _ _ Hf Hi) as (m & Hm & (a & Ea & Hor) & Hsame).
  destruct (Forall2_lookup_r _ _ _ _ _ Hsolved Hm) as (s & Hs' & [(x & r & l & E) _ Hbar]).
  apply list_elem_of_lookup_2 in Hs'. rewrite Hat in Hs'. apply list_elem_of_fmap in Hs' as (b0 & -> & Hb0).
  destruct (generated_times _ _ _ _ _ _ _ _ _ _ _ G b0 Hb0) as [T1 T2]. cbn in E. rewrite Ea, E. split.
  - cbn. split; [exact T1 | exact T2].
  - cbn. intros Hp. destruct (B2 b0 Hb0) as [[(info & Hin & _) _ _] | [_ _ _ _ E0]]; [|done].
    assert (ab_name b0 ∈ dkeys mem) as Hd by (apply dget_is_Some; by rewrite Hin). rewrite Hk in Hd.
    apply list_elem_of_fmap in Hd as (o & Eo & Ho). change (buf_name (ab b0)) with (ab_name b0). rewrite Eo. by apply op_not_input.
  - cbn. intros [y Hy]. exists [], v. eapply (generation_passes _ _ _ _ _ _ _ _ _ _ _ b0 G Hb0).
    destruct (residency_reason (ab b0)) eqn:Er; [|done]. cbn in Hbar. rewrite Er in Hbar. specialize (Hbar ltac:(done)). rewrite Hbar in Hor. destruct Hor; congruence.
Qed.

(** ** Its run *)

Context (Hord : ordered g) (Hsw : enable_lx_context_switching C = false).
Context (out : list abuffer) (accepted : list LXRelayoutPlan).
Context (Hrun : plan_allocation C F plan supports_paired size collect materialized passes g0 given = Ok (out, accepted)).

#[local] Notation inputs := (dkeys (graph_inputs g)).
#[local] Notation slot := (slot_of (ab <$> out)).

(** Inputs in the scratchpad are not overwritten in HBM. *)
Context (Hconst : forall n, n ∈ inputs -> is_Some (slot n) -> n ∉ mutation_targets g).

(** When the copy of an input is made: at its first reader, or earlier within the lifetime
    if no opaque kernel comes between. *)
Record copied_at (entry : string -> Z) : Prop := {
  ca_within : forall b, b ∈ out -> is_Some (address (ab b)) -> ab_name b ∈ inputs -> start_time (ab b) <= entry (ab_name b);
  ca_first : forall n, n ∈ inputs -> is_Some (slot n) -> 0 <= entry n <= first_access g n;
  ca_alone : forall n k o, n ∈ inputs -> is_Some (slot n) -> ops !! k = Some o -> opaque_kernel o = true ->
    entry n <= Z.of_nat k -> first_access g n <= Z.of_nat k
}.

Definition birth_of (entry : string -> Z) (n : string) : Z := if bool_decide (n ∈ inputs) then entry n else first_access g n.

Lemma birth_cases entry n : n ∈ inputs /\ birth_of entry n = entry n \/ n ∉ inputs /\ birth_of entry n = first_access g n.
Proof. unfold birth_of. destruct (decide (n ∈ inputs)); [left; rewrite bool_decide_eq_true_2 by done | right; rewrite bool_decide_eq_false_2 by done]; done. Qed.

Lemma slot_rules n : is_Some (slot n) ->
  (exists o v plans, find_op g n = Some o /\ cleared C F g (fixed_facts g v plans) n (access_indices (lowering g) n) o) \/
  (n ∈ inputs /\ exists nc, cleared_input C F g n (access_indices (lowering g) n) nc).
Proof.
  intros Hs. destruct (slot_buffer _ _ Hs) as (i & b & x & Hb & <- & Hx & _). destruct (allocation_committed out accepted Hrun) as (_ & ov & _ & Hc).
  apply list_elem_of_lookup_2, list_elem_of_fmap in Hb as (b' & -> & Hb).
  destruct (cb_rules _ _ (Hc b' Hb) ltac:(by eexists)) as (plans & v & [(o & Ho & [H _ _ _ _ _ _ _]) | [Hi [H _ _]]]); [left; by exists o, v, plans | right; eauto].
Qed.

(** A resident that is no input is the buffer of an operation that passed the rules. *)
Lemma slot_produced n : is_Some (slot n) -> n ∉ inputs ->
  exists j p v plans, ops !! j = Some p /\ get_name p = n /\ find_op g n = Some p /\
    cleared C F g (fixed_facts g v plans) n (access_indices (lowering g) n) p.
Proof.
  intros Hs Hn. destruct (slot_rules n Hs) as [(p & v & plans & Hp & Hc) | [Hi _]]; [|done].
  pose proof Hp as Hp'. apply find_op_Some in Hp as [[j Hj]%list_elem_of_lookup E]. by exists j, p, v, plans.
Qed.

Lemma live_alone n k o : is_Some (slot n) -> ops !! k = Some o -> opaque_kernel o = true ->
  ~ (first_access g n <= Z.of_nat k <= last_access g n).
Proof.
  intros Hs Hk Hop [Hf Hl]. apply andb_true_iff in Hop as [He Hne]. apply negb_true_iff in Hne.
  assert (exists f z, f ∈ access_indices (lowering g) n /\ z ∈ access_indices (lowering g) n /\ f <= Z.of_nat k <= z) as (f & z & Hfi & Hzi & Hfz).
  { unfold first_access, last_access in Hf, Hl. assert (access_indices (lowering g) n <> []) as Hne'.
    { intros E. destruct (slot_rules n Hs) as [(p & v & plans & _ & [_ _ _ _ _ _ _ _ Hr]) | (_ & nc & [Hr _ _ _ _ _ _ _])]; rewrite E in Hr; cbn in Hr; lia. }
    destruct (access_indices (lowering g) n) as [|f l] eqn:E; [done|]. destruct (last (f :: l)) as [z|] eqn:Ez; [|by apply last_None in Ez].
    exists f, z. split_and!; [list_mem | apply last_Some in Ez as [l' ->]; list_mem | done | done]. }
  destruct (slot_rules n Hs) as [(p & v & plans & _ & [_ _ _ _ _ Ha _ _ _]) | (_ & nc & [_ _ _ Ha _ _ _ _])].
  - specialize (Ha f z (Z.of_nat k) o Hfi Hzi Hfz (op_at_lookup g k o Hk)). rewrite Hsw in Ha. rewrite Ha in Hne; done.
  - rewrite (Ha Hsw f z (Z.of_nat k) o Hfi Hzi Hfz (op_at_lookup g k o Hk) He) in Hne. done.
Qed.

Lemma stored_slot n k o : is_Some (slot n) -> ops !! k = Some o -> n ∈ stored o -> n ∉ inputs /\ n ∈ accesses (lower_op o).
Proof.
  intros Hs Hk Hst. assert (n ∉ mutation_targets g) as Hm.
  { destruct (decide (n ∈ inputs)) as [Hi | Hi]; [by apply Hconst|]. destruct (slot_produced n Hs Hi) as (j & p & v & plans & _ & _ & _ & [_ _ _ Hfx _ _ _ _ _]). done. }
  pose proof (list_elem_of_lookup_2 _ _ _ Hk) as Hin. unfold stored in Hst.
  assert (n ∈ (dep_name <$> dep_writes o)) as Hw.
  { destruct (op_layout o) as [| t sz | |] eqn:El; try done. apply list_elem_of_singleton in Hst as ->. destruct Hm. apply list_elem_of_omap. exists o. by rewrite El. }
  split; [|unfold accesses; cbn; apply elem_of_app; by right]. rewrite (or_writes _ Hord o Hin) in Hw. apply list_elem_of_singleton in Hw as ->. by apply op_not_input.
Qed.

Lemma read_access k o n : ops !! k = Some o -> n ∈ read_names o -> first_access g n <= Z.of_nat k <= last_access g n /\ 0 <= first_access g n.
Proof. intros Hk Hn. apply (access_bounds g k o); [done|]. unfold accesses. cbn. apply elem_of_app. by left. Qed.

Lemma first_last n : is_Some (slot n) -> 0 <= first_access g n <= last_access g n.
Proof.
  intros Hs. assert (exists i, i ∈ access_indices (lowering g) n) as [i Hi].
  { destruct (slot_rules n Hs) as [(p & v & plans & _ & [_ _ _ _ _ _ _ _ Hr]) | (_ & nc & [Hr _ _ _ _ _ _ _])];
      (destruct (access_indices (lowering g) n) as [|i l]; [cbn in Hr; lia | exists i; list_mem]). }
  apply elem_of_indices in Hi as (k & o' & -> & Hk & Ha). cbn in Hk. rewrite list_lookup_fmap in Hk.
  destruct (ops !! k) as [o|] eqn:Eo; [|done]. injection Hk as <-. pose proof (access_bounds g k o n Eo Ha). lia.
Qed.

Lemma allocated_placed entry : copied_at entry ->
  placed (ab <$> out) inputs opaque_kernel (birth_of entry) ops (last_access g).
Proof.
  intros [Hwithin Hfirst Halone]. destruct (allocation_committed out accepted Hrun) as ([_ _ Hv] & ov & Hwide & Hc).
  pose proof slot_produced as Hprod. pose proof stored_slot as Hstored. pose proof read_access as Hread.
  pose proof first_last as Hfl. pose proof live_alone as Hlive. split.
  - exact Hv.
  - intros c (b & -> & Hb)%list_elem_of_fmap Ha. destruct (cb_times _ _ (Hc b Hb)) as [T1 T2]. split.
    + destruct (birth_cases entry (buf_name (ab b))) as [[Hi ->] | [_ ->]]; [by apply Hwithin|]. rewrite T1. unfold lo, first_access. lia.
    + rewrite T2. unfold hi, last_access. lia.
  - intros n Hs. specialize (Hfl n Hs). destruct (birth_cases entry n) as [[Hi ->] | [_ ->]]; [|lia]. specialize (Hfirst n Hi Hs). lia.
  - intros c p (b & -> & Hb)%list_elem_of_fmap Hp. apply (cb_children _ _ (Hc b Hb)). intros E. rewrite E in Hp. by apply elem_of_nil in Hp.
  - intros n k o Hs Hk Hn. destruct (Hread k o n Hk Hn) as [[Hf Hl] _]. split; [done|]. destruct (birth_cases entry n) as [[Hi ->] | [Hi ->]].
    + specialize (Hfirst n Hi Hs). destruct (Z.eq_dec (entry n) (Z.of_nat k)); [by right | left; lia].
    + left. destruct (Hprod n Hs Hi) as (j & p & _ & _ & Hj & E & Hp & _). destruct (or_reads _ Hord k o n p Hk Hn Hp) as (j' & Hj' & Hlt).
      destruct (producer_first g Hg Hord j' p Hj') as [Hpf _]. rewrite E in Hpf. lia.
  - intros n k o Hs Hk Hn. destruct (Hstored n k o Hs Hk Hn) as [Hi Ha]. split; [done|]. destruct (birth_cases entry n) as [[? _] | [_ ->]]; [done|].
    by destruct (access_bounds g k o n Hk Ha).
  - intros n k o Hs Hi Hk Hb. destruct (birth_cases entry n) as [[? _] | [_ Eb]]; [done|]. rewrite Eb in Hb.
    destruct (Hprod n Hs Hi) as (j & p & v & plans & Hj & E & Hp & [_ [dev Ht] _ _ _ _ _ _ _]). destruct (producer_first g Hg Hord j p Hj) as [Hpf _].
    rewrite E, Hb in Hpf. apply Nat2Z.inj in Hpf as ->. rewrite Hk in Hj. injection Hj as <-. unfold stored.
    pose proof (or_writes _ Hord o ltac:(by eapply list_elem_of_lookup_2)) as Hw. rewrite Hw, E. destruct (op_layout o); (done || list_mem).
  - intros n m k o Hk Hn Hm. unfold stored in Hn, Hm. rewrite (or_writes _ Hord o) in Hn, Hm by (by eapply list_elem_of_lookup_2).
    destruct (op_layout o); apply list_elem_of_singleton in Hn as ->; by apply list_elem_of_singleton in Hm as ->.
  - intros n k o Hs Hk Hop [Hb Hl]. apply (Hlive n k o Hs Hk Hop). split; [|done]. destruct (birth_cases entry n) as [[Hi Eb] | [_ Eb]]; rewrite Eb in Hb; [|done].
    by eapply Halone.
Qed.


Lemma input_access_reads n k o : n ∈ inputs -> ops !! k = Some o -> n ∈ accesses (lower_op o) -> n ∈ reads (lower_op o).
Proof.
  intros Hn Hk. unfold accesses. cbn. rewrite elem_of_app. intros [? | Hw]; [done|]. pose proof (list_elem_of_lookup_2 _ _ _ Hk) as Hin.
  rewrite (or_writes _ Hord o Hin) in Hw. apply list_elem_of_singleton in Hw as ->. by apply op_not_input in Hn.
Qed.

(** Where the copies run is within the lifetimes the solver reserved. *)
Lemma copied_in_time : copied_at (clone_entry g).
Proof.
  destruct (allocation_committed out accepted Hrun) as (_ & ov & Hov & Hc). pose proof first_last as Hfl. pose proof input_access_reads as Hrd.
  destruct (overrides_spec (lowering g)) as (ov' & Hov' & _ & Hcov). rewrite Hov in Hov'. injection Hov' as <-.
  assert (forall n, n ∈ inputs -> clone_entry g n = first_access g n \/
    exists j k p o, ops !! j = Some p /\ ops !! k = Some o /\ clone_entry g n = Z.of_nat j /\ first_access g n = Z.of_nat k /\ (j <= k)%nat /\
      n ∈ accesses (lower_op o) /\ take 1 (group_path p) = take 1 (group_path o) /\ take 1 (group_path o) <> [] /\
      (forall i x, ops !! i = Some x -> opaque_kernel x = true -> (j <= i)%nat -> (k < i)%nat)) as Hcases.
  { intros n Hn. unfold clone_entry. rewrite buffer_users_of. destruct (_hoisted_input_clone_entry g n _) as [[e|]|] eqn:Eh; [| by left | by left].
    destruct (fst <$> users_of g n) as [|u us] eqn:Eu; [done|]. destruct (first_user_at g n u us Eu) as (k & Hk & Ha & Ef). cbn in Eh.
    destruct (hoisted_spec g Hg n _ _ e Eh) as (j & k' & p & o & Hj & Ep & Hk' & Eo & Hle & H1 & H2 & H3 & _).
    pose proof (op_position g Hg _ _ _ _ Hk Hk' Eo) as ->. rewrite Hk in Hk'. injection Hk' as ->.
    destruct (position ops e) as [i|] eqn:Ei; [|by left]. apply position_Ok in Ei as (j' & p' & Hj' & Ep' & ->). subst e.
    pose proof (op_position g Hg _ _ _ _ Hj Hj' Ep') as ->. right. by exists j, k, p, o. }
  split.
  - intros b Hb _ Hin. destruct (cb_times _ _ (Hc b Hb)) as [T1 _]. rewrite T1. change (buf_name (ab b)) with (ab_name b).
    destruct (Hcases _ Hin) as [-> | (j & k & p & o & Hj & Hk & -> & _ & _ & Ha & E1 & E2 & _)]; [unfold lo, first_access; lia|].
    assert (operations (lowering g) !! k = Some (lower_op o)) as Hk' by (cbn; by rewrite list_lookup_fmap, Hk).
    apply (Hcov k (lower_op o) (ab_name b) Hk' (Hrd _ k o Hin Hk Ha) (take 1 (group_path o)) j (lower_op p)); [done | | | cbn; by rewrite list_lookup_fmap, Hj |].
    + eexists. symmetry. apply take_drop.
    + unfold birth_path. rewrite bool_decide_eq_true_2 by done. by intros ?%prefix_nil_inv.
    + rewrite <- E1. eexists. symmetry. apply take_drop.
  - intros n Hn Hs. specialize (Hfl n Hs). destruct (Hcases n Hn) as [-> | (j & k & p & o & _ & _ & -> & -> & ? & _)]; lia.
  - intros n k o Hn Hs Hk Hop Hle. destruct (Hcases n Hn) as [E | (j & k' & p & o' & _ & _ & E & -> & _ & _ & _ & _ & Hno)]; [lia|].
    specialize (Hno k o Hk Hop ltac:(lia)). lia.
Qed.

(** C7. On a machine where writing a slot destroys every resident that shares a byte with it and
    opaque kernels destroy them all, a successfully allocated graph leaves in every buffer of
    HBM without a slot, in the inputs and in the outputs what its operations compute without a
    scratchpad, for every solver that meets the layout-solver contract. Conditions: the
    rewritten graph is well-formed and its operations are ordered, context switching is off, no
    relayout is planned, and no graph input that got a slot is mutated. Inputs are copied in
    before their first reader, or before its outermost loop where the copy is hoisted. *)
Theorem scratchpad_transparent {V} (value : operation -> string -> list V -> V) (junk : (string -> V) -> string -> V) (s : string -> V) n :
  slot n = None \/ n ∈ inputs \/ n ∈ output_names g ->
  hbm (placed_exec value (ab <$> out) inputs (output_names g) opaque_kernel (birth_of (clone_entry g)) junk s ops) n = exec value s ops n.
Proof.
  pose proof (placed_exec_agrees value (ab <$> out) inputs (output_names g) opaque_kernel (birth_of (clone_entry g)) junk
    ops (last_access g) (allocated_placed _ copied_in_time) s ops ltac:(done)) as [H _]. exact (H n).
Qed.
End allocated.
