(* ===== verification/ScratchpadExamples.v ===== *)
(** * Committing and running small graphs

    The graph of [AllocatorExamples] is allocated, committed and run; the theorems of the
    files before are applied to it.  Three more graphs show what the theorems exclude. *)

From S2P Require Import Prelude PyDict PlanSolver GreedySolver Liveness CoreMapping CoreViews BufferFacts ResidencyRules Allocator AllocatorBuffers AllocatorRelayout AllocatorPlan AllocatorExamples ContextSwitch ContextSwitchSafe ContextSwitchRules GraphEdit GraphEditValues GraphEditPlaces ScratchpadRun ScratchpadPlaced.

Definition sample_value (o : operation) (n : string) (vs : list Z) : Z :=
  if bool_decide (short_name o = "clone"%string) then default 0 (head vs) else zsum vs + 1.

(** Allocation without relayouts. *)
Definition plain_run (g : graph) : res (list abuffer * list LXRelayoutPlan) :=
  plan_allocation sample_config sample_facts plan_layout false 65536 (fun _ => []) (fun _ => false) [] g None.

Definition plain_result (g : graph) : list abuffer := (value_of ([], []) (plain_run g)).1.

(** The machine of [ScratchpadRun] on the allocated graph. *)
Definition machine_run (g : graph) (junk : (string -> Z) -> string -> Z) : string -> Z :=
  hbm (placed_exec sample_value (ab <$> plain_result g) (dkeys (graph_inputs g)) (output_names g) opaque_kernel
    (birth_of [] g (clone_entry g)) junk (fun _ => 0) (graph_operations g)).

(** ** The sample graph *)

Lemma sample_ordered : ordered sample_graph.
Proof.
  split.
  - intros o Ho. assert (Forall (fun o => dep_name <$> dep_writes o = [get_name o]) (graph_operations sample_graph)) as Hf
      by (apply (bool_decide_unpack _); vm_compute; exact I). rewrite Forall_forall in Hf. by apply Hf.
  - intros k o n p Hk Hn Hp.
    assert (Forall (fun ko => Forall (fun n => n ∈ (get_name <$> graph_operations sample_graph) ->
      n ∈ (get_name <$> take ko.1 (graph_operations sample_graph))) (read_names ko.2)) (imap pair (graph_operations sample_graph))) as Hf
      by (apply (bool_decide_unpack _); vm_compute; exact I).
    rewrite Forall_forall in Hf. specialize (Hf (k, o) ltac:(apply elem_of_lookup_imap; by exists k, o)). cbn [fst snd] in Hf. rewrite Forall_forall in Hf.
    pose proof (find_op_Some _ _ _ Hp) as [Hin En]. specialize (Hf n Hn ltac:(rewrite <- En; by apply list_elem_of_fmap_2)).
    apply list_elem_of_fmap in Hf as (q & Eq & [j Hj]%list_elem_of_lookup). apply lookup_take_Some in Hj as [Hj Hlt].
    exists j. split; [|done]. pose proof (find_op_at _ sample_wf j q Hj) as Hq. rewrite <- Eq, Hp in Hq. injection Hq as ->. done.
Qed.

(** [buf2] takes over the slot of [buf0], and the result is right whatever a destroyed slot
    holds. *)
Lemma scratchpad_transparent_witness :
  slot_of (ab <$> plain_result sample_graph) "buf2" = slot_of (ab <$> plain_result sample_graph) "buf0" /\
  forall junk, machine_run sample_graph junk "buf3"%string = 5.
Proof.
  split; [vm_compute; reflexivity|]. intros junk. unfold machine_run.
  rewrite (scratchpad_transparent plan_layout sample_config sample_facts false 65536 (fun _ => []) (fun _ => false) [] sample_graph None
    sample_wf ltac:(discriminate) sample_ordered eq_refl (plain_result sample_graph) []).
  - vm_compute. reflexivity.
  - vm_compute. reflexivity.
  - intros n _ _. apply (bool_decide_unpack _). vm_compute. exact I.
  - right. right. apply (bool_decide_unpack _). vm_compute. exact I.
Defined.

(** ** Committing it *)

Definition sample_start (g : graph) : edited := mkEdited g 0 [] [] [].

Definition sample_ownership (input : bool) (meta : operation) (l : layout) (view : option PerCoreView) : res TensorWorkDivision :=
  Ok (mkWorkDivision [] [] None).

Notation sample_push g :=
  (_push_allocation "i" switch_fresh sample_ownership (fun _ _ => true) (fun _ _ => true) (plain_result g) [] (sample_start g)).

Definition pushed_graph (g : graph) : edited := value_of (sample_start g) (sample_push g).

(** Operations with what they read, the outputs, and the addresses. *)
Definition shown (e : edited) : list (string * list string) * list string * list (string * Z) :=
  ((fun o => (get_name o, read_names o)) <$> graph_operations (eg e), output_names (eg e), (fun kv => (kv.1, kv.2.1)) <$> lx_state e).

Example sample_pushed : shown (pushed_graph sample_graph) =
  ([("tmp0", ["arg0"]); ("buf0", ["tmp0"]); ("buf1", ["tmp0"; "buf0"]); ("buf2", ["buf0"; "buf1"]); ("buf3", ["buf2"])]%string, ["buf3"%string],
   [("buf0"%string, 0); ("buf1"%string, 16384); ("buf2"%string, 0); ("tmp0"%string, 16384)]).
Proof. vm_compute. reflexivity. Qed.

Lemma prefix_tmp i : String.prefix "tmp" (switch_fresh i) = true.
Proof. unfold switch_fresh. cbn. by destruct (pretty i). Qed.

Lemma fresh_out (l : list string) i : forallb (fun n => negb (String.prefix "tmp" n)) l = true -> switch_fresh i ∉ l.
Proof. intros Hl Hin. rewrite forallb_forall in Hl. apply list_elem_of_In, Hl in Hin. by rewrite prefix_tmp in Hin. Qed.

Lemma sample_unused : unused switch_fresh (sample_start sample_graph).
Proof.
  split.
  - intros i o _ Ho.
    assert (Forall (fun o => forallb (fun n => negb (String.prefix "tmp" n)) (get_name o :: stored o ++ read_names o) = true) (graph_operations sample_graph)) as Hf
      by (apply (bool_decide_unpack _); vm_compute; exact I).
    rewrite Forall_forall in Hf. pose proof (fresh_out _ i (Hf o Ho)) as Hn. rewrite elem_of_cons, elem_of_app in Hn. tauto.
  - intros i _. by apply fresh_out.
  - intros i _. by apply fresh_out.
  - done.
Qed.

Lemma switch_fresh_inj i j : switch_fresh i = switch_fresh j -> i = j.
Proof. intros E. unfold switch_fresh in E. injection E as E. exact (inj (R := eq) pretty i j E). Qed.

Lemma sample_blind : renaming_blind sample_value.
Proof.
  split; [|done|done]. intros o n v Ho. unfold sample_value. by rewrite bool_decide_eq_true_2.
Qed.

Lemma sample_push_Ok : sample_push sample_graph = Ok (pushed_graph sample_graph).
Proof. vm_compute. reflexivity. Qed.

Lemma push_keeps_values_witness :
  exists st, sample_push sample_graph = Ok st /\
    (forall rho, fits sample_value rho (graph_operations (eg st)) -> fits sample_value rho (graph_operations sample_graph) /\
       rho <$> output_names (eg st) = [rho "buf3"%string]).
Proof.
  pose proof sample_push_Ok as E. revert E. generalize (pushed_graph sample_graph). intros st E. exists st. split; [exact E|].
  destruct (push_keeps_values sample_value "i" switch_fresh sample_blind switch_fresh_inj sample_ownership (fun _ _ => true) (fun _ _ => true)
    (plain_result sample_graph) [] (sample_start sample_graph) st sample_unused E) as [H _].
  intros rho Hr. exact (H rho Hr).
Defined.

Lemma pushed_places_witness :
  exists st, sample_push sample_graph = Ok st /\ NoDup (output_names sample_graph) /\
    (forall n, n ∈ output_names (eg st) \/ n ∈ dkeys (graph_inputs (eg st)) -> dget (lx_state st) n = None) /\
    (forall b a, b ∈ plain_result sample_graph -> pushed b = true -> address (ab b) = Some a ->
       exists v, lx_view b = Some v /\ lies switch_fresh (sample_start sample_graph) st b a v).
Proof.
  pose proof sample_push_Ok as E. revert E. generalize (pushed_graph sample_graph). intros st E. exists st. split; [exact E|].
  assert (forall b i, b ∈ plain_result sample_graph -> (0 <= i)%nat -> ab_name b <> switch_fresh i) as Hn.
  { intros b i Hb _ En. apply (fresh_out (ab_name <$> plain_result sample_graph) i); [vm_compute; reflexivity|]. rewrite <- En. by apply list_elem_of_fmap_2. }
  assert (NoDup (ab_name <$> plain_result sample_graph)) as Hd by (apply (bool_decide_unpack _); vm_compute; exact I).
  assert (NoDup (output_names sample_graph)) as Ho by (apply (bool_decide_unpack _); vm_compute; exact I).
  destruct (pushed_places "i" switch_fresh switch_fresh_inj sample_ownership (fun _ _ => true) (fun _ _ => true)
    (sample_start sample_graph) (plain_result sample_graph) eq_refl sample_unused Hn Hd Ho [] st E) as [H1 H2].
  exact (conj Ho (conj H1 H2)).
Defined.

(** ** What the theorems exclude *)

Definition copy_back (name target : string) (inputs : list string) : operation :=
  mkOperation name (sample_dep <$> inputs) [sample_dep name] (MutationLayout target [64; 128]) (Some Pointwise) false false None None None None "add" true
    (Some [target]) (Some []).

(** [arg0] is read, overwritten through [buf1], and read again. *)
Definition mutated_graph : graph :=
  mkGraph [sample_op "buf0" ["arg0"]; copy_back "buf1" "arg0" ["buf0"]; sample_op "buf2" ["arg0"]; sample_op "buf3" ["arg0"; "buf2"]]
    [("arg0"%string, sample_layout)] ["buf3"%string] [].

(** The residency verdict for graph inputs does not ask whether the input is mutated: it is
    pinned, the clone made before the first reader is what every reader reads, and the
    readers after the mutation see the old value. *)
Example pinned_input_misses_mutation :
  slot_of (ab <$> plain_result mutated_graph) "arg0" = Some (16384, 16384) /\ mutation_targets mutated_graph = ["arg0"%string] /\
  machine_run mutated_graph (fun s => s) "buf3"%string = 2 /\
  exec sample_value (fun _ => 0) (graph_operations mutated_graph) "buf3"%string = 6.
Proof. vm_compute. split_and!; reflexivity. Qed.

(** [buf0] is returned twice. *)
Definition doubled_graph : graph :=
  mkGraph [sample_op "buf0" ["arg0"]; sample_op "buf1" ["buf0"]; sample_op "buf2" ["buf0"; "buf1"]]
    [("arg0"%string, sample_layout)] ["buf0"; "buf2"; "buf0"]%string [].

(** A buffer returned twice is copied out once: [change_graph_output] replaces the first
    occurrence, and the graph still returns the buffer in the scratchpad.  The copy stands
    before the operation that produces what it copies, since the users of a buffer include
    its producer. *)
Example returned_twice_stays_resident :
  shown (pushed_graph doubled_graph) =
  ([("tmp0", ["buf0"]); ("buf0", ["arg0"]); ("buf1", ["buf0"]); ("buf2", ["buf0"; "buf1"])]%string,
   ["tmp0"; "buf2"; "buf0"]%string, [("buf0"%string, 0); ("buf1"%string, 16384)]).
Proof. vm_compute. reflexivity. Qed.
