(* ===== verification/SdscSymbols.v ===== *)
(** * Symbols of one kernel description ([codegen/compute_ops.py])

    [generate_sdsc] describes one operation to the device compiler.  The address each core
    starts at in each tensor is not written into the description: it is registered as a
    symbol, numbered by a negative identifier, whose meaning the bundle gives later.

    This file models the registration, the lookup of the registered identifiers, and the
    part of the description the bundle reads back.  The theorems say that every lookup
    succeeds and that the symbol found stands for the address of the tensor on that core.

    Iteration symbols are strings; the tile advance of a tensor, a sympy expression, is the
    function [coeff_through_floor] of it.  The fields of the description that the bundle
    does not read are one string. *)

From S2P Require Import Prelude PyDict.

(** ** Data *)

Inductive SymbolKind :=
  | kernel (arg_index : Z)
  | kernel_slice (arg_index offset : Z)
  | kernel_derived (base_sym_idx offset arg_index : Z)
  | kernel_derived_symbolic (arg_index core_idx split_count base_sym_idx : Z) (pytorch_sym : string)
  | pool
  | dimension (granularity max_value : Z) (pytorch_sym : string).

Definition is_pool (k : SymbolKind) : bool := match k with pool => true | _ => false end.
Definition is_dimension (k : SymbolKind) : bool := match k with dimension _ _ _ => true | _ => false end.

Record SDSCArgs := mkSDSCArgs {
  in_lx : bool;
  in_hbm_pool : bool;
  start_address : Z;
  offsets : list Z;
  strides : dict Z;
  scales : dict Z;
  elems_per_stick : Z;
  arg_index : Z;
  device_tile_advance : option (string -> res Z)
}.

Record SDSCSpec := mkSDSCSpec {
  opfunc : string;
  args : list SDSCArgs;
  num_cores : nat;
  work_slices : dict Z;
  core_id_to_work_slice : dict (Z -> Z);
  symbolic_dims : dict (string * Z * Z);
  completed_producer_cores : list Z;
  other_fields : string
}.

(** The keys of [local_symbols]. *)
Inductive symbol_key :=
  | KKernel (arg_index : Z)
  | KSlice (arg_index offset : Z)
  | KAddress (addr : Z)
  | KSymbolic (arg_index core_idx : Z)
  | KPool (offset : Z).

#[export] Instance symbol_key_eq_dec : EqDecision symbol_key.
Proof. solve_decision. Defined.

#[export] Instance SymbolKind_eq_dec : EqDecision SymbolKind.
Proof. solve_decision. Defined.

(** ** Helpers *)

Definition num_bytes (elems : Z) : res Z :=
  raise_if (128 <? elems) RuntimeError;; if elems =? 0 then Raise ZeroDivisionError else Ok (128 / elems).

(** [core_id_to_wk_slice[str(c)]] *)
Definition wk_slice (spec : SDSCSpec) (c : nat) : dict Z := (fun kv => (kv.1, kv.2 (Z.of_nat c))) <$> core_id_to_work_slice spec.

Definition core_idx_to_slice_offset (t : SDSCArgs) (slice work : dict Z) : res Z :=
  for_each (fun ds offset =>
    match dget slice ds.1 with
    | None => Ok offset
    | Some w =>
        s ← dgetitem (scales t) ds.1;
        if 0 <? s then n ← dgetitem work ds.1; if n =? 0 then Raise ZeroDivisionError else Ok (offset + w * ds.2 / n) else Ok offset
    end) (strides t) (zsum (offsets t)).

(** [tensor.start_address + core_idx_to_slice_offset(...) * nb] *)
Definition core_address (spec : SDSCSpec) (t : SDSCArgs) (c : nat) : res Z :=
  raise_if (num_cores spec <=? c)%nat KeyError;;
  nb ← num_bytes (elems_per_stick t);
  o ← core_idx_to_slice_offset t (wk_slice spec c) (work_slices spec);
  Ok (start_address t + o * nb).

Definition split_dim (spec : SDSCSpec) (t : SDSCArgs) (kv : string * (string * Z * Z)) : option (string * Z * string) :=
  match dget (work_slices spec) kv.1, dget (scales t) kv.1 with
  | Some split, Some scale => if (split <=? 1) || (scale <=? 0) then None else Some (kv.1, split, kv.2.1.1)
  | _, _ => None
  end.

Definition _symbolic_split_info (spec : SDSCSpec) (t : SDSCArgs) : option (string * Z * string) :=
  if arg_index t <? 0 then None else head (omap (split_dim spec t) (symbolic_dims spec)).

Definition coeff (t : SDSCArgs) (s : string) : res Z :=
  match device_tile_advance t with Some f => f s | None => Ok 0 end.

Definition _tensor_tiled_by_symbol (t : SDSCArgs) (s : string) : res bool :=
  if dmem (strides t) s && (dget_or 1 (scales t) s <=? 0) then Ok false
  else match device_tile_advance t with
       | None => Ok false
       | Some f => c ← f s; Ok (negb (c =? 0))
       end.

(** ** Registration *)

Record registry := mkRegistry {
  r_symbols : list Z;
  local_symbols : list (symbol_key * Z);
  local_kinds : list SymbolKind
}.

Fixpoint kget (l : list (symbol_key * Z)) (k : symbol_key) : option Z :=
  match l with [] => None | (k', v) :: l => if decide (k = k') then Some v else kget l k end.

Definition kgetitem (l : list (symbol_key * Z)) (k : symbol_key) : res Z :=
  match kget l k with Some v => Ok v | None => Raise KeyError end.

Definition key_of (s : Z) (kind : SymbolKind) : symbol_key :=
  match kind with
  | pool => KPool s
  | kernel a => KKernel a
  | kernel_slice a o => KSlice a o
  | kernel_derived_symbolic a c _ _ _ => KSymbolic a c
  | _ => KAddress s
  end.

Section registration.
Context (symbol_id_offset : Z) (spec : SDSCSpec) (tiled_symbols : list (list string)).

(** The first symbol of each dynamic size. *)
Definition dimension_symbols : list (string * SymbolKind) :=
  foldl (fun l kv => if bool_decide (kv.2.1.1 ∈ l.*1) then l else l ++ [(kv.2.1.1, dimension kv.2.1.2 kv.2.2 kv.2.1.1)]) [] (symbolic_dims spec).

Definition n_dim_syms : nat := length dimension_symbols.

Definition offset_as_symbol (s : Z) (kind : SymbolKind) (r : registry) : registry :=
  match kget (local_symbols r) (key_of s kind) with
  | Some _ => r
  | None => mkRegistry (r_symbols r ++ [s])
      (local_symbols r ++ [(key_of s kind, - (symbol_id_offset + Z.of_nat n_dim_syms + Z.of_nat (length (local_symbols r)) + 1))])
      (local_kinds r ++ [kind])
  end.

(** [abs(local_symbols[key]) - 1] *)
Definition symbol_index (k : symbol_key) (r : registry) : res Z := i ← kgetitem (local_symbols r) k; Ok (Z.abs i - 1).

Definition _register_per_core_derived (t : SDSCArgs) (c : nat) (addr core0_addr base : Z) (split : option (string * Z * string)) (r : registry) : registry :=
  match split with
  | Some (_, split_count, sym) => offset_as_symbol addr (kernel_derived_symbolic (arg_index t) (Z.of_nat c) split_count base sym) r
  | None => offset_as_symbol addr (kernel_derived base (addr - core0_addr) (arg_index t)) r
  end.

Definition register_core (t : SDSCArgs) (core0_addr base : Z) (split : option (string * Z * string)) (c : nat) (r : registry) : res registry :=
  addr ← core_address spec t c;
  if arg_index t <? 0 then Ok (offset_as_symbol addr pool r)
  else if bool_decide (c = 0%nat) || (addr =? core0_addr) then Ok r
  else Ok (_register_per_core_derived t c addr core0_addr base split r).

(** [tile_offset_bytes + slice_offset_bytes] *)
Definition total_slice_offset (nb : Z) (t : SDSCArgs) : Z := start_address t - arg_index t + zsum (offsets t) * nb.

(** The raw base of a kernel tensor and its sliced base; the index of the latter. *)
Definition register_base (nb core0_addr : Z) (t : SDSCArgs) (r : registry) : res (registry * Z) :=
  if arg_index t <? 0 then Ok (r, -1)
  else
    let r := offset_as_symbol (arg_index t) (kernel (arg_index t)) r in
    k ← symbol_index (KKernel (arg_index t)) r;
    let total := total_slice_offset nb t in
    if 0 <? total then
      let r := offset_as_symbol core0_addr (kernel_slice (arg_index t) total) r in
      b ← symbol_index (KSlice (arg_index t) total) r; Ok (r, b)
    else Ok (r, k).

(** Is the dimension that is split over the cores also tiled? *)
Definition tiled_on_split_dim (t : SDSCArgs) (dim : string) : res bool :=
  let syms := concat tiled_symbols in
  let active := filter (fun d => 0 < dget_or 1 (scales t) d) (dkeys (strides t)) in
  advances ← (match device_tile_advance t with None => Ok false | Some f => py_any (fun s => c ← f s; Ok (negb (c =? 0))) syms end);
  Ok (existsb (fun s => bool_decide (s = dim)) (filter (fun s => dmem (strides t) s = true) syms)
      || (dmem (strides t) dim && (0 <? dget_or 1 (scales t) dim) && bool_decide (active = [dim]) && advances)).

Definition level_strides (t : SDSCArgs) (nb : Z) (level : list string) : res (dict Z) :=
  for_each (fun s d =>
    b ← _tensor_tiled_by_symbol t s;
    if (b : bool) then c ← coeff t s; Ok (dset s (c * nb) d) else Ok d) level [].

(** One tensor: what it registers and how it advances at every loop level. *)
Definition register_tensor (t : SDSCArgs) (st : registry * list (list (dict Z))) : res (registry * list (list (dict Z))) :=
  let '(r, affine) := st in
  if in_lx t then
    b ← py_any (_tensor_tiled_by_symbol t) (concat tiled_symbols);
    raise_if b NotImplementedError;;
    Ok (r, affine ++ [(fun _ => []) <$> tiled_symbols])
  else
    nb ← num_bytes (elems_per_stick t);
    core0_addr ← core_address spec t 0;
    let split := _symbolic_split_info spec t in
    (match split with Some (dim, _, _) => b ← tiled_on_split_dim t dim; raise_if b Unsupported | None => Ok tt end);;
    rb ← register_base nb core0_addr t r;
    per_level ← py_map (level_strides t nb) tiled_symbols;
    r ← for_each (register_core t core0_addr rb.2 split) (seq 0 (num_cores spec)) rb.1;
    Ok (r, affine ++ [if existsb (fun d => negb (bool_decide (d = []))) per_level then per_level else (fun _ => []) <$> tiled_symbols]).

(** ** The description *)

Record schedule_node := mkNode {
  component : string;
  start_data : dict Z
}.

Record op_val := mkOpVal {
  dimToSymbolMapping : dict (list Z);
  scheduleTree : list schedule_node
}.

Record top_val := mkTopVal {
  numCoresUsed : Z;
  dscs : list (dict op_val);
  other_json : string
}.

(** [f"[{c}, 0, 0]"] *)
Definition core_key (c : nat) : string := ("[" +:+ pretty c +:+ ", 0, 0]")%string.

(** The key a core's address was registered under. *)
Definition core_symbol_key (t : SDSCArgs) (nb core0_addr : Z) (c : nat) : res symbol_key :=
  addr ← core_address spec t c;
  let total := total_slice_offset nb t in
  let c0 := if 0 <? total then KSlice (arg_index t) total else KKernel (arg_index t) in
  Ok (if (arg_index t <? 0) && in_hbm_pool t then KPool addr
      else if bool_decide (c = 0%nat) || (addr =? core0_addr) then c0
      else match _symbolic_split_info spec t with Some _ => KSymbolic (arg_index t) (Z.of_nat c) | None => KAddress addr end).

Definition _start_addr_data (local : list (symbol_key * Z)) (t : SDSCArgs) : res (dict Z) :=
  if in_lx t then Ok ((fun c => (core_key c, start_address t)) <$> seq 0 (num_cores spec))
  else
    nb ← num_bytes (elems_per_stick t);
    core0_addr ← core_address spec t 0;
    py_map (fun c => k ← core_symbol_key t nb core0_addr c; i ← kgetitem local k; Ok (core_key c, i)) (seq 0 (num_cores spec)).

Definition allocate_node (local : list (symbol_key * Z)) (t : SDSCArgs) : res schedule_node :=
  d ← _start_addr_data local t; Ok (mkNode (if in_lx t then "lx" else "hbm") d).

(** Identifiers of the dynamic sizes. *)
Definition dimension_id (sym : string) : option Z :=
  (fun ix => - (symbol_id_offset + Z.of_nat ix.1 + 1)) <$> list_find (fun kv => kv.1 = sym) dimension_symbols.

Definition dim_mapping : dict (list Z) :=
  omap (fun kv => (fun i => (kv.1, [i])) <$> dimension_id kv.2.1.1) (symbolic_dims spec).

Record generated := mkGenerated {
  sdsc_json : dict top_val;
  symbol_values : list (option symbol_key);
  affine_strides : list (list (dict Z));
  symbol_kinds : list SymbolKind;
  symbols_after : list Z
}.

Definition generate_sdsc (idx : nat) (symbols : list Z) : res generated :=
  let start := mkRegistry (symbols ++ repeat 0 n_dim_syms) [] [] in
  ra ← for_each register_tensor (args spec) (start, []);
  nodes ← py_map (allocate_node (local_symbols ra.1)) (args spec);
  let used := if bool_decide (completed_producer_cores spec = []) then Z.of_nat (num_cores spec) else Z.of_nat (length (completed_producer_cores spec)) in
  Ok (mkGenerated
    [((pretty idx +:+ "_" +:+ opfunc spec)%string,
      mkTopVal used [[(opfunc spec, mkOpVal dim_mapping nodes)]] (other_fields spec))]
    (repeat None n_dim_syms ++ (Some <$> (local_symbols ra.1).*1)) ra.2
    (dimension_symbols.*2 ++ local_kinds ra.1) (r_symbols ra.1)).
End registration.

(** ** What a symbol stands for *)

(** The values a launch supplies. *)
Record runtime := mkRuntime {
  arg_base : Z -> Z;
  pool_base : Z;
  dim_value : string -> Z
}.

Section meaning.
Context (rt : runtime).

Definition base_address (kinds : list SymbolKind) (i : Z) : option Z :=
  if i <? 0 then None
  else match kinds !! Z.to_nat i with
       | Some (kernel a) => Some (arg_base rt a)
       | Some (kernel_slice a o) => Some (arg_base rt a + o)
       | _ => None
       end.

(** The address of symbol [i]; a symbolic per-core address is still the constant of the
    largest shape. *)
Definition symbol_address (symbols : list Z) (kinds : list SymbolKind) (i : nat) : option Z :=
  match kinds !! i with
  | None => None
  | Some (kernel a) => Some (arg_base rt a)
  | Some (kernel_slice a o) => Some (arg_base rt a + o)
  | Some (kernel_derived b o _) => (fun x => x + o) <$> base_address kinds b
  | Some (kernel_derived_symbolic _ _ _ _ _) => symbols !! i
  | Some pool => (fun v => pool_base rt + v) <$> symbols !! i
  | Some (dimension _ _ s) => Some (dim_value rt s)
  end.

Lemma base_address_lt kinds i a : base_address kinds i = Some a -> 0 <= i < Z.of_nat (length kinds).
Proof.
  unfold base_address. destruct (Z.ltb_spec i 0); [done|]. destruct (kinds !! Z.to_nat i) eqn:E; [|done]. apply lookup_lt_Some in E. lia.
Qed.

Lemma base_address_app kinds more i a : base_address kinds i = Some a -> base_address (kinds ++ more) i = Some a.
Proof.
  unfold base_address. destruct (i <? 0); [done|]. destruct (kinds !! Z.to_nat i) eqn:E; [|done]. by rewrite (lookup_app_l_Some _ _ _ _ E).
Qed.

Lemma symbol_address_app symbols kinds more more' i a :
  symbol_address symbols kinds i = Some a -> symbol_address (symbols ++ more) (kinds ++ more') i = Some a.
Proof.
  unfold symbol_address. destruct (kinds !! i) as [k|] eqn:E; [|done]. rewrite (lookup_app_l_Some _ _ _ _ E). destruct k; [done | done | | | | done].
  - destruct (base_address kinds _) eqn:Eb; [|done]. by rewrite (base_address_app _ _ _ _ Eb).
  - intros H. by apply lookup_app_l_Some.
  - destruct (symbols !! i) as [v|] eqn:Ev; [|done]. by rewrite (lookup_app_l_Some _ _ _ _ Ev).
Qed.

Lemma string_app_inj (s x y : string) : (x +:+ s)%string = (y +:+ s)%string -> x = y.
Proof.
  assert (forall x s : string, String.length (x +:+ s)%string = (String.length x + String.length s)%nat) as Hlen.
  { intros x0 s0. induction x0 as [|a x0 IH]; [done|]. exact (f_equal S IH). }
  intros E. assert (String.length x = String.length y) as El by (apply (f_equal String.length) in E; rewrite !Hlen in E; lia). revert y El E.
  induction x as [|a x IH]; intros [|b y] El E; [done | done | done|]. cbn in El. change (String a (x +:+ s) = String b (y +:+ s))%string in E. injection E as -> E. f_equal. by apply IH; [injection El|].
Qed.

Lemma core_key_inj c c' : core_key c = core_key c' -> c = c'.
Proof. unfold core_key. intros H. apply (inj (String.append "["%string)) in H. apply (inj pretty). by apply string_app_inj in H. Qed.

Lemma dget_cores (f : nat -> Z) c n : (c < n)%nat -> dget ((fun c => (core_key c, f c)) <$> seq 0 n) (core_key c) = Some (f c).
Proof.
  intros H. apply dget_NoDup.
  - unfold dkeys. rewrite <- list_fmap_compose. apply NoDup_fmap_2_strong; [|apply NoDup_seq]. intros x y _ _ E. by apply core_key_inj.
  - apply list_elem_of_fmap. exists c. split; [done|]. apply elem_of_seq. lia.
Qed.

(** ** Registration keeps the symbols in order *)

Section registered.
Context (offset : nat) (spec : SDSCSpec) (tiled : list (list string)) (symbols0 : list Z) (kinds0 : list SymbolKind).
Context (Hsymbols0 : length symbols0 = offset) (Hkinds0 : length kinds0 = offset).

#[local] Notation n_dim := (n_dim_syms spec).
#[local] Notation register := (offset_as_symbol (Z.of_nat offset) spec).

Definition first_index : nat := offset + n_dim.
Definition all_kinds (r : registry) : list SymbolKind := kinds0 ++ (dimension_symbols spec).*2 ++ local_kinds r.

Lemma all_kinds_at r i : all_kinds r !! (first_index + i)%nat = local_kinds r !! i.
Proof.
  unfold all_kinds, first_index, n_dim_syms. rewrite app_assoc, lookup_app_r; rewrite length_app, length_fmap, Hkinds0; [|lia]. f_equal. lia.
Qed.

(** A derived address is its tensor's base plus the distance it was registered with. *)
Definition entry_ok (kinds : list SymbolKind) (v : Z) (kind : SymbolKind) : Prop :=
  match kind with
  | kernel_derived b o a => base_address kinds b = Some (arg_base rt a + (v - o - a)) /\
      exists t c, t ∈ args spec /\ in_lx t = false /\ arg_index t = a /\ 0 <= a /\ core_address spec t c = Ok v
  | kernel_slice a _ => kernel a ∈ kinds
  | dimension _ _ _ => False
  | _ => True
  end.

Record reg_ok (r : registry) : Prop := {
  ro_kinds : length (local_kinds r) = length (local_symbols r);
  ro_symbols : length (r_symbols r) = (first_index + length (local_symbols r))%nat;
  ro_entry : forall i k id, local_symbols r !! i = Some (k, id) ->
    id = - (Z.of_nat (first_index + i) + 1) /\
    exists kind v, local_kinds r !! i = Some kind /\ r_symbols r !! (first_index + i)%nat = Some v /\ key_of v kind = k /\ entry_ok (all_kinds r) v kind /\
      (forall b o a, kind = kernel_derived b o a -> b < Z.of_nat (first_index + i))
}.

Definition extends (r r' : registry) : Prop := exists l1 l2 l3,
  r_symbols r' = r_symbols r ++ l1 /\ local_symbols r' = local_symbols r ++ l2 /\ local_kinds r' = local_kinds r ++ l3.

Lemma extends_refl r : extends r r.
Proof. exists [], [], []. by rewrite !app_nil_r. Qed.

Lemma extends_trans r1 r2 r3 : extends r1 r2 -> extends r2 r3 -> extends r1 r3.
Proof. intros (a & b & c & E1 & E2 & E3) (a' & b' & c' & F1 & F2 & F3). exists (a ++ a'), (b ++ b'), (c ++ c'). rewrite F1, F2, F3, E1, E2, E3. by rewrite !app_assoc. Qed.

Lemma all_kinds_extends r r' : extends r r' -> exists more, all_kinds r' = all_kinds r ++ more.
Proof. intros (_ & _ & l & _ & _ & E). exists l. unfold all_kinds. by rewrite E, !app_assoc. Qed.

Lemma kget_app l m k v : kget l k = Some v -> kget (l ++ m) k = Some v.
Proof. induction l as [|[k' w] l IH]; cbn; [done|]. by case_decide. Qed.

Lemma kget_extends r r' k v : extends r r' -> kget (local_symbols r) k = Some v -> kget (local_symbols r') k = Some v.
Proof. intros (_ & l & _ & _ & E & _). rewrite E. apply kget_app. Qed.

Lemma kget_lookup l k v : kget l k = Some v -> exists i, l !! i = Some (k, v).
Proof.
  induction l as [|[k' w] l IH]; cbn; [done|]. case_decide; [intros [= ->]; subst; by exists 0%nat | intros [i Hi]%IH; by exists (S i)].
Qed.

Lemma kget_last l k v : kget l k = None -> kget (l ++ [(k, v)]) k = Some v.
Proof. induction l as [|[k' w] l IH]; cbn; [by rewrite decide_True|]. by case_decide. Qed.

Lemma address_extends r r' i a : extends r r' ->
  symbol_address (r_symbols r) (all_kinds r) i = Some a -> symbol_address (r_symbols r') (all_kinds r') i = Some a.
Proof. intros He. destruct (all_kinds_extends _ _ He) as [more ->]. destruct He as (l & _ & _ & -> & _). apply symbol_address_app. Qed.

Lemma entry_ok_app kinds more v kind : entry_ok kinds v kind -> entry_ok (kinds ++ more) v kind.
Proof. destruct kind; cbn; [done | rewrite elem_of_app; by left | | done | done | done]. intros [H ?]. split; [by apply base_address_app | done]. Qed.

(** Registering under a key. *)
Lemma register_ok s kind r : reg_ok r -> entry_ok (all_kinds r) s kind ->
  reg_ok (register s kind r) /\ extends r (register s kind r) /\ is_Some (kget (local_symbols (register s kind r)) (key_of s kind)).
Proof.
  intros [H1 H2 H3] He. unfold offset_as_symbol. destruct (kget (local_symbols r) (key_of s kind)) as [id|] eqn:E.
  { split_and!; [done | apply extends_refl | by rewrite E]. }
  set (r' := mkRegistry _ _ _). assert (extends r r') as Hx by (eexists _, _, _; done). destruct (all_kinds_extends _ _ Hx) as [more Em].
  split_and!; [|done | cbn; rewrite kget_last by done; by eexists]. split; cbn.
  - rewrite !length_app. cbn. lia.
  - rewrite !length_app. cbn. lia.
  - intros i k id Hi. apply lookup_snoc_Some in Hi as [[Hlt Hi] | [-> [= <- <-]]].
    + destruct (H3 i k id Hi) as (Eid & kind' & v & K1 & K2 & K3 & K4 & K5). split; [done|]. exists kind', v.
      split_and!; [by apply lookup_app_l_Some | by apply lookup_app_l_Some | done | rewrite Em; by apply entry_ok_app | done].
    + split; [unfold first_index; lia|]. exists kind, s. split_and!; [|rewrite lookup_app_r by lia; by rewrite H2, Nat.sub_diag | done | rewrite Em; by apply entry_ok_app |].
      * rewrite lookup_app_r by lia. by rewrite H1, Nat.sub_diag.
      * intros b o a ->. destruct He as [He _]. apply base_address_lt in He as [_ He]. unfold all_kinds in He. rewrite !length_app, length_fmap, Hkinds0, H1 in He.
        unfold first_index, n_dim_syms. lia.
Qed.

(** The symbol a key was registered for. *)
Lemma kget_ok r k id : reg_ok r -> kget (local_symbols r) k = Some id ->
  exists i kind v, id = - (Z.of_nat (first_index + i) + 1) /\ local_kinds r !! i = Some kind /\ r_symbols r !! (first_index + i)%nat = Some v /\
    key_of v kind = k /\ entry_ok (all_kinds r) v kind.
Proof. intros Hr Hk. apply kget_lookup in Hk as [i Hi]. destruct (ro_entry _ Hr i k id Hi) as (E & kind & v & K1 & K2 & K3 & K4 & _). by exists i, kind, v. Qed.

(** ** Every core finds its address *)

(** There is a core, core 0 works on the first slice of every dimension, pool tensors say so, slices start
    after the tensor, and addresses of different arguments are different numbers. *)
Record spec_ok : Prop := {
  so_cores : (0 < num_cores spec)%nat;
  so_core0 : forall kv, kv ∈ core_id_to_work_slice spec -> kv.2 0 = 0;
  so_pool : forall t, t ∈ args spec -> in_lx t = false -> arg_index t < 0 -> in_hbm_pool t = true;
  so_total : forall t nb, t ∈ args spec -> in_lx t = false -> 0 <= arg_index t -> num_bytes (elems_per_stick t) = Ok nb -> 0 <= total_slice_offset nb t;
  so_apart : forall t t' c c' a, t ∈ args spec -> t' ∈ args spec -> in_lx t = false -> in_lx t' = false -> 0 <= arg_index t -> 0 <= arg_index t' ->
    core_address spec t c = Ok a -> core_address spec t' c' = Ok a -> arg_index t = arg_index t'
}.

Context (Hspec : spec_ok).

Definition expected_address (t : SDSCArgs) (a : Z) : Z := if arg_index t <? 0 then pool_base rt + a else arg_base rt (arg_index t) + (a - arg_index t).

Lemma core0_offset t work o : core_idx_to_slice_offset t (wk_slice spec 0) work = Ok o -> o = zsum (offsets t).
Proof.
  unfold core_idx_to_slice_offset. refine (for_each_ind _ (fun _ o => o = zsum (offsets t)) _ _ _ _ eq_refl). intros done [d s] rest s1 s2 _ -> H. cbn in H.
  destruct (dget (wk_slice spec 0) d) as [w|] eqn:E; [|by injection H as <-].
  assert (w = 0) as ->. { apply dget_Some_elem, list_elem_of_fmap in E as (kv & [= _ ->] & Hin). by apply (so_core0 Hspec). }
  apply bind_Ok in H as (x & _ & H). destruct (0 <? x); [|by injection H as <-]. apply bind_Ok in H as (n & _ & H). destruct (n =? 0); [done|]. injection H as <-.
  rewrite Z.mul_0_l, Zdiv_0_l. lia.
Qed.

Lemma core_address_Ok t c a : core_address spec t c = Ok a ->
  (c < num_cores spec)%nat /\ exists nb o, num_bytes (elems_per_stick t) = Ok nb /\ core_idx_to_slice_offset t (wk_slice spec c) (work_slices spec) = Ok o /\ a = start_address t + o * nb.
Proof.
  unfold core_address. intros (? & Hc%raise_if_Ok & H)%bind_Ok. apply Nat.leb_gt in Hc. apply bind_Ok in H as (nb & Hnb & H). apply bind_Ok in H as (o & Ho & [= <-]). eauto 8.
Qed.

Lemma core0_total t nb a : num_bytes (elems_per_stick t) = Ok nb -> core_address spec t 0 = Ok a -> a = arg_index t + total_slice_offset nb t.
Proof.
  intros Hnb (_ & nb' & o & Hnb' & ->%core0_offset & ->)%core_address_Ok. assert (nb = nb') as -> by congruence. unfold total_slice_offset. lia.
Qed.

Section tensor.
Context (t : SDSCArgs) (Ht : t ∈ args spec) (Hlx : in_lx t = false) (nb core0 : Z).
Context (Hnb : num_bytes (elems_per_stick t) = Ok nb) (Hcore0 : core_address spec t 0 = Ok core0).

(** The symbol under a core's key has the core's address. *)
Lemma key_meaning r c a k id : reg_ok r -> core_address spec t c = Ok a -> core_symbol_key spec t nb core0 c = Ok k -> kget (local_symbols r) k = Some id ->
  _symbolic_split_info spec t = None \/ a = core0 \/ c = 0%nat ->
  exists i, id = - (Z.of_nat (first_index + i) + 1) /\ symbol_address (r_symbols r) (all_kinds r) (first_index + i) = Some (expected_address t a).
Proof.
  intros Hr Ha Hk Hid Hsym. destruct (kget_ok r k id Hr Hid) as (i & kind & v & E & K1 & K2 & K3 & K4). exists i. split; [done|].
  unfold symbol_address, expected_address. rewrite all_kinds_at, K1. pose proof (core0_total _ _ _ Hnb Hcore0) as E0.
  unfold core_symbol_key in Hk. rewrite Ha in Hk. cbn [mbind res_bind] in Hk. injection Hk as Hk. destruct (arg_index t <? 0) eqn:Earg.
  { rewrite (so_pool Hspec t Ht Hlx) in Hk by lia. cbn in Hk. rewrite <- K3 in Hk. destruct kind; try done. injection Hk as ->. by rewrite K2. }
  cbn [andb] in Hk. assert (Hpos : 0 <= arg_index t) by lia. pose proof (so_total Hspec t nb Ht Hlx Hpos Hnb) as Htot.
  destruct (bool_decide (c = 0%nat) || (a =? core0)) eqn:Ec.
  - assert (a = core0) as ->. { apply orb_true_iff in Ec as [Ec%bool_decide_eq_true | Ec]; [|lia]. subst c. congruence. }
    destruct (0 <? total_slice_offset nb t) eqn:Et; rewrite <- K3 in Hk; destruct kind; try done.
    + injection Hk as <- <-. f_equal. lia.
    + injection Hk as <-. f_equal. lia.
  - apply orb_false_iff in Ec as [Ec%bool_decide_eq_false Ec']. assert (_symbolic_split_info spec t = None) as Es by (destruct Hsym as [? | [? | ?]]; [done | lia | done]).
    rewrite Es in Hk. rewrite <- K3 in Hk. destruct kind; try done. injection Hk as ->. destruct K4 as (Kb & t' & c' & Ht' & Hlx' & <- & Hp' & Ha').
    rewrite (so_apart Hspec t t' c c' v Ht Ht' Hlx Hlx' Hpos Hp' Ha Ha'). rewrite Kb. cbn. f_equal. lia.
Qed.

Lemma register_base_ok r r' b : reg_ok r -> register_base (Z.of_nat offset) spec nb core0 t r = Ok (r', b) ->
  reg_ok r' /\ extends r r' /\ (0 <= arg_index t ->
    is_Some (kget (local_symbols r') (if 0 <? total_slice_offset nb t then KSlice (arg_index t) (total_slice_offset nb t) else KKernel (arg_index t))) /\
    base_address (all_kinds r') b = Some (arg_base rt (arg_index t) + total_slice_offset nb t)).
Proof.
  intros Hr. unfold register_base. destruct (arg_index t <? 0) eqn:Earg; [intros [= <- <-]; split_and!; [done | apply extends_refl | lia]|].
  assert (Hpos : 0 <= arg_index t) by lia. pose proof (so_total Hspec t nb Ht Hlx Hpos Hnb) as Htot.
  set (r1 := register _ _ r). destruct (register_ok (arg_index t) (kernel (arg_index t)) r Hr I) as (Hr1 & Hx1 & Hs1). fold r1 in Hr1, Hx1, Hs1. cbn [key_of] in Hs1.
  unfold symbol_index. intros H. apply bind_Ok in H as (k & Hk & H). apply bind_Ok in Hk as (id & Hid & [= <-]).
  assert (forall r k id kind, reg_ok r -> kgetitem (local_symbols r) k = Ok id -> (forall v kd, key_of v kd = k -> kd = kind) ->
    exists i, Z.abs id - 1 = Z.of_nat i /\ all_kinds r !! i = Some kind) as Hfind.
  { intros r0 k0 id0 kind H0 Hg Hu. unfold kgetitem in Hg. destruct (kget (local_symbols r0) k0) as [id'|] eqn:Eg; [|done]. injection Hg as ->.
    destruct (kget_ok r0 k0 id0 H0 Eg) as (i & kd & v & -> & K1 & _ & K3 & _). exists (first_index + i)%nat. split; [lia|]. rewrite all_kinds_at, K1. f_equal. by eapply Hu. }
  destruct (0 <? total_slice_offset nb t) eqn:Et.
  - set (r2 := register _ _ r1) in H. destruct (register_ok core0 (kernel_slice (arg_index t) (total_slice_offset nb t)) r1 Hr1) as (Hr2 & Hx2 & Hs2).
    { destruct (Hfind r1 _ _ (kernel (arg_index t)) Hr1 Hid) as (i & _ & Hi); [intros v []; cbn; congruence|]. by eapply list_elem_of_lookup_2. }
    fold r2 in Hr2, Hx2, Hs2.
    apply bind_Ok in H as (b' & Hb & [= <- <-]). apply bind_Ok in Hb as (id2 & Hid2 & [= <-]).
    destruct (Hfind r2 _ _ (kernel_slice (arg_index t) (total_slice_offset nb t)) Hr2 Hid2) as (i & -> & Hi); [intros v []; cbn; congruence|].
    split_and!; [done | by apply (extends_trans _ r1) |]. intros _. split; [done|]. unfold base_address. rewrite Nat2Z.id, Hi. destruct (Z.ltb_spec (Z.of_nat i) 0); [lia | done].
  - injection H as <- <-. destruct (Hfind r1 _ _ (kernel (arg_index t)) Hr1 Hid) as (i & -> & Hi); [intros v []; cbn; congruence|].
    split_and!; [done | done |]. intros _. split; [done|]. unfold base_address. rewrite Nat2Z.id, Hi. destruct (Z.ltb_spec (Z.of_nat i) 0); [lia | f_equal; lia].
Qed.

Lemma register_core_ok b c r r' : reg_ok r -> (0 <= arg_index t -> base_address (all_kinds r) b = Some (arg_base rt (arg_index t) + total_slice_offset nb t)) ->
  register_core (Z.of_nat offset) spec t core0 b (_symbolic_split_info spec t) c r = Ok r' ->
  reg_ok r' /\ extends r r' /\ exists k, core_symbol_key spec t nb core0 c = Ok k /\ (k = KSlice (arg_index t) (total_slice_offset nb t) /\ 0 < total_slice_offset nb t \/ k = KKernel (arg_index t) /\ total_slice_offset nb t <= 0 \/ is_Some (kget (local_symbols r') k)).
Proof.
  intros Hr Hb. unfold register_core, core_symbol_key. intros (a & Ha & H)%bind_Ok. rewrite Ha. cbn [mbind res_bind]. destruct (arg_index t <? 0) eqn:Earg.
  { injection H as <-. destruct (register_ok a pool r Hr I) as (? & ? & ?). rewrite (so_pool Hspec t Ht Hlx) by lia. cbn [andb]. split_and!; [done | done|]. eexists. split; [done|]. by right; right. }
  assert (Hpos : 0 <= arg_index t) by lia. cbn [andb]. destruct (bool_decide (c = 0%nat) || (a =? core0)) eqn:Ec.
  { injection H as <-. split_and!; [done | apply extends_refl|]. eexists. split; [done|]. destruct (0 <? total_slice_offset nb t) eqn:?; [left | right; left]; split; [done | lia | done | lia]. }
  injection H as <-. unfold _register_per_core_derived. destruct (_symbolic_split_info spec t) as [[[dim n] sym]|].
  - destruct (register_ok a (kernel_derived_symbolic (arg_index t) (Z.of_nat c) n b sym) r Hr I) as (? & ? & ?). split_and!; [done | done|]. eexists. split; [done|]. by right; right.
  - destruct (register_ok a (kernel_derived b (a - core0) (arg_index t)) r Hr) as (? & ? & ?).
    + cbn. split; [rewrite (Hb Hpos); f_equal; rewrite (core0_total _ _ _ Hnb Hcore0); lia|]. exists t, c. by split_and!.
    + split_and!; [done | done|]. eexists. split; [done|]. by right; right.
Qed.
End tensor.

(** The key of core [c] of [t] is registered. *)
Definition found_key (t : SDSCArgs) (r : registry) (c : nat) : Prop := exists nb core0 k id,
  num_bytes (elems_per_stick t) = Ok nb /\ core_address spec t 0 = Ok core0 /\
  core_symbol_key spec t nb core0 c = Ok k /\ kget (local_symbols r) k = Some id.

Lemma found_key_extends t r r' c : extends r r' -> found_key t r c -> found_key t r' c.
Proof. intros Hx (nb & core0 & k & id & Hnb & H0 & E & Hk). exists nb, core0, k, id. split_and!; [done | done | done | by eapply kget_extends]. Qed.

Lemma register_tensor_ok t r aff r' aff' : t ∈ args spec -> reg_ok r -> register_tensor (Z.of_nat offset) spec tiled t (r, aff) = Ok (r', aff') ->
  reg_ok r' /\ extends r r' /\ (in_lx t = false -> forall c, (c < num_cores spec)%nat -> found_key t r' c).
Proof.
  intros Ht Hr H. cbn in H. destruct (in_lx t) eqn:Elx.
  { apply bind_Ok in H as (b & _ & H). apply bind_Ok in H as (_ & _ & [= <- <-]). split_and!; [done | apply extends_refl | done]. }
  apply bind_Ok in H as (nb & Hnb & H). apply bind_Ok in H as (core0 & H0 & H). apply bind_Ok in H as (_ & _ & H). apply bind_Ok in H as ([rb b] & Hb & H).
  apply bind_Ok in H as (pl & _ & H). apply bind_Ok in H as (rf & Hf & [= <- <-]). cbn [fst snd] in Hf.
  destruct (register_base_ok t Ht Elx nb core0 Hnb r rb b Hr Hb) as (Hrb & Hxb & Hbase).
  assert (reg_ok rf /\ extends rb rf /\ forall c, c ∈ seq 0 (num_cores spec) -> found_key t rf c) as (R1 & R2 & R3).
  { revert Hf. refine (for_each_ind _ (fun done r => reg_ok r /\ extends rb r /\ forall c, c ∈ done -> found_key t r c) _ _ _ _ _).
    - intros done c rest s1 s2 _ (I1 & I2 & I3) Hc.
      destruct (register_core_ok t Ht Elx nb core0 Hnb H0 b c s1 s2 I1) as (J1 & J2 & k & Ek & Hk); [|done|].
      { intros Hp. destruct (Hbase Hp) as [_ E]. destruct (all_kinds_extends _ _ I2) as [more ->]. by apply base_address_app. }
      split_and!; [done | by eapply extends_trans|]. intros c' [Hc' | ->%list_elem_of_singleton]%elem_of_app; [by apply (found_key_extends _ s1); [|apply I3]|].
      assert (is_Some (kget (local_symbols s2) k)) as [id Hid]; [|by exists nb, core0, k, id].
      destruct Hk as [[-> Ht0] | [[-> Ht0] | Hk]]; [| | done].
      + destruct (arg_index t <? 0) eqn:Ea; [exfalso; unfold core_symbol_key in Ek; apply bind_Ok in Ek as (? & _ & Ek); rewrite Ea, (so_pool Hspec t Ht Elx) in Ek by lia; done|].
        destruct Hbase as [[id Hid] _]; [lia|]. destruct (Z.ltb_spec 0 (total_slice_offset nb t)); [|lia]. exists id. by eapply kget_extends, kget_extends; [..|exact Hid].
      + destruct (arg_index t <? 0) eqn:Ea; [exfalso; unfold core_symbol_key in Ek; apply bind_Ok in Ek as (? & _ & Ek); rewrite Ea, (so_pool Hspec t Ht Elx) in Ek by lia; done|].
        destruct Hbase as [[id Hid] _]; [lia|]. destruct (Z.ltb_spec 0 (total_slice_offset nb t)); [lia|]. exists id. by eapply kget_extends, kget_extends; [..|exact Hid].
    - split_and!; [done | apply extends_refl | by intros c ?%elem_of_nil]. }
  split_and!; [done | by eapply extends_trans|]. intros _ c Hc. apply R3, elem_of_seq. lia.
Qed.

Definition start_registry : registry := mkRegistry (symbols0 ++ repeat 0 n_dim) [] [].

Lemma start_ok : reg_ok start_registry.
Proof.
  split; [done | | by intros i k id H].
  cbn. rewrite length_app, repeat_length, Hsymbols0. unfold first_index. lia.
Qed.

Lemma register_all_ok ra : for_each (register_tensor (Z.of_nat offset) spec tiled) (args spec) (start_registry, []) = Ok ra ->
  reg_ok ra.1 /\ extends start_registry ra.1 /\ forall t c, t ∈ args spec -> in_lx t = false -> (c < num_cores spec)%nat -> found_key t ra.1 c.
Proof.
  refine (for_each_ind _ (fun done ra => reg_ok ra.1 /\ extends start_registry ra.1 /\ forall t c, t ∈ done -> in_lx t = false -> (c < num_cores spec)%nat -> found_key t ra.1 c) _ _ _ _ _).
  - intros done t rest [r aff] [r' aff'] E (I1 & I2 & I3) H. destruct (register_tensor_ok t r aff r' aff') as (J1 & J2 & J3); [rewrite E; list_mem | done | done|]. cbn [fst] in *.
    split_and!; [done | by eapply extends_trans|]. intros t' c [Ht' | ->%list_elem_of_singleton]%elem_of_app Hlx Hc; [by apply (found_key_extends _ r); [|apply I3] | by apply J3].
  - split_and!; [apply start_ok | apply extends_refl | by intros t c ?%elem_of_nil].
Qed.

(** What a description that was generated from [symbols0] on satisfies: the symbols are numbered on, a derived
    address has a base, and every tensor in memory has its node, with an identifier for every core. *)
Record described (g : generated) : Prop := {
  de_symbols : exists vals, symbols_after g = symbols0 ++ vals /\ length vals = length (symbol_kinds g);
  de_values : length (symbol_values g) = length (symbol_kinds g);
  de_strides : length (affine_strides g) = length (args spec);
  de_derived : forall j b o a, symbol_kinds g !! j = Some (kernel_derived b o a) -> is_Some (base_address (kinds0 ++ symbol_kinds g) b) /\ b < Z.of_nat (offset + j);
  de_slice : forall a o, kernel_slice a o ∈ symbol_kinds g -> kernel a ∈ kinds0 ++ symbol_kinds g;
  de_node : forall i t, args spec !! i = Some t -> exists name top op d,
    sdsc_json g = [(name, top)] /\ dscs top = [[(opfunc spec, op)]] /\ scheduleTree op !! i = Some (mkNode (if in_lx t then "lx" else "hbm") d) /\
    length (scheduleTree op) = length (args spec) /\
    forall c a, (c < num_cores spec)%nat -> in_lx t = false -> core_address spec t c = Ok a ->
      exists j, dget d (core_key c) = Some (- (Z.of_nat j + 1)) /\ (offset <= j < offset + length (symbol_kinds g))%nat /\
        (_symbolic_split_info spec t = None \/ core_address spec t 0 = Ok a ->
         symbol_address (symbols_after g) (kinds0 ++ symbol_kinds g) j = Some (expected_address t a))
}.

Lemma strides_length ra : for_each (register_tensor (Z.of_nat offset) spec tiled) (args spec) (start_registry, []) = Ok ra -> length ra.2 = length (args spec).
Proof.
  refine (for_each_ind _ (fun done ra => length ra.2 = length done) _ _ _ _ _); [|done]. intros done t rest [r aff] [r' aff'] _ E H. cbn in *. rewrite length_app, <- E.
  destruct (in_lx t).
  - apply bind_Ok in H as (b & _ & H). apply bind_Ok in H as (_ & _ & [= <- <-]). by rewrite length_app.
  - do 6 (apply bind_Ok in H as (? & _ & H)). injection H as <- <-. by rewrite length_app.
Qed.

Lemma dimensions_only k : k ∈ (dimension_symbols spec).*2 -> is_dimension k = true.
Proof.
  unfold dimension_symbols. generalize (symbolic_dims spec) as l. intros l. assert (forall acc, (forall k, k ∈ acc.*2 -> is_dimension k = true) ->
    k ∈ (foldl (fun l kv => if bool_decide (kv.2.1.1 ∈ l.*1) then l else l ++ [(kv.2.1.1, dimension kv.2.1.2 kv.2.2 kv.2.1.1)]) acc l : list (string * SymbolKind)).*2 -> is_dimension k = true) as H;
    [|apply (H []); by intros ? ?%elem_of_nil].
  induction l as [|kv l IH]; intros acc Hacc; cbn; [apply Hacc|]. apply IH. case_bool_decide; [done|]. intros k'. rewrite fmap_app, elem_of_app. cbn.
  intros [? | ->%list_elem_of_singleton]; [by apply Hacc | done].
Qed.

Section generation.
Context (ra : registry * list (list (dict Z))).
Context (Hrun : for_each (register_tensor (Z.of_nat offset) spec tiled) (args spec) (start_registry, []) = Ok ra).

Lemma addr_data_ok t : t ∈ args spec -> exists d, _start_addr_data spec (local_symbols ra.1) t = Ok d /\
  forall c a, (c < num_cores spec)%nat -> in_lx t = false -> core_address spec t c = Ok a ->
    exists i, dget d (core_key c) = Some (- (Z.of_nat (first_index + i) + 1)) /\ (i < length (local_symbols ra.1))%nat /\
      (_symbolic_split_info spec t = None \/ core_address spec t 0 = Ok a ->
       symbol_address (r_symbols ra.1) (all_kinds ra.1) (first_index + i) = Some (expected_address t a)).
Proof.
  intros Ht. destruct (register_all_ok ra Hrun) as (R1 & _ & R3). unfold _start_addr_data. destruct (in_lx t) eqn:Elx; [eexists; by split|].
  destruct (R3 t 0%nat Ht Elx) as (nb & core0 & _ & _ & Hnb & H0 & _); [apply (so_cores Hspec)|]. rewrite Hnb, H0. cbn [mbind res_bind].
  pose (f := fun c => match core_symbol_key spec t nb core0 c with Ok k => default 0 (kget (local_symbols ra.1) k) | Raise _ => 0 end).
  assert (forall c, (c < num_cores spec)%nat -> exists k, core_symbol_key spec t nb core0 c = Ok k /\ kget (local_symbols ra.1) k = Some (f c)) as Hf.
  { intros c Hc. destruct (R3 t c Ht Elx Hc) as (nb' & core0' & k & id & Hnb' & H0' & Ek & Hk). assert (nb' = nb) as -> by congruence.
    assert (core0' = core0) as -> by congruence. exists k. split; [done|]. unfold f. by rewrite Ek, Hk. }
  exists ((fun c => (core_key c, f c)) <$> seq 0 (num_cores spec)). split.
  - apply py_map_Ok. apply Forall2_fmap_r, Forall_Forall2_diag, Forall_forall. intros c Hc%elem_of_seq. destruct (Hf c) as (k & Ek & Hk); [lia|].
    rewrite Ek. cbn [mbind res_bind]. unfold kgetitem. by rewrite Hk.
  - intros c a Hc _ Ha. destruct (Hf c Hc) as (k & Ek & Hk). rewrite dget_cores by done. destruct (kget_ok ra.1 k (f c) R1 Hk) as (i & kind & v & E & K1 & _).
    exists i. split_and!; [by rewrite E | apply lookup_lt_Some in K1; by rewrite (ro_kinds _ R1) in K1 |]. intros Hs.
    destruct (key_meaning t Ht Elx nb core0 Hnb H0 ra.1 c a k (f c) R1 Ha Ek Hk) as (i' & E' & Hi'); [destruct Hs as [? | Hs]; [by left | right; left; congruence]|].
    assert (i' = i) as -> by lia. done.
Qed.

Lemma generate_total idx : exists g, generate_sdsc (Z.of_nat offset) spec tiled idx symbols0 = Ok g.
Proof.
  unfold generate_sdsc. change (mkRegistry (symbols0 ++ repeat 0 n_dim) [] []) with start_registry. rewrite Hrun. cbn [mbind res_bind].
  destruct (py_map_total (allocate_node spec (local_symbols ra.1)) (args spec)) as [nodes ->]; [|eexists; done].
  intros t Ht. destruct (addr_data_ok t Ht) as (d & Hd & _). unfold allocate_node. rewrite Hd. eexists. done.
Qed.
End generation.

Lemma generate_described idx g : generate_sdsc (Z.of_nat offset) spec tiled idx symbols0 = Ok g -> described g.
Proof.
  unfold generate_sdsc. change (mkRegistry (symbols0 ++ repeat 0 n_dim) [] []) with start_registry. intros (ra & Hrun & H)%bind_Ok.
  apply bind_Ok in H as (nodes & Hnodes & [= <-]). destruct (register_all_ok ra Hrun) as (R1 & R2 & _).
  assert (length ((dimension_symbols spec).*2 ++ local_kinds ra.1) = (n_dim + length (local_symbols ra.1))%nat) as El by (rewrite length_app, length_fmap, (ro_kinds _ R1); done).
  split; cbn.
  - destruct R2 as (l & _ & _ & E & _). exists (repeat 0 n_dim ++ l). cbn in E. rewrite E, app_assoc. split; [done|]. rewrite El, length_app, repeat_length.
    pose proof (ro_symbols _ R1) as Es. rewrite E, !length_app, repeat_length, Hsymbols0 in Es. unfold first_index in Es. lia.
  - by rewrite El, length_app, repeat_length, !length_fmap.
  - by apply strides_length.
  - intros j b o a Hj. apply lookup_app_Some in Hj as [Hj | [Hj1 Hj]].
    + apply list_elem_of_lookup_2, dimensions_only in Hj. done.
    + rewrite length_fmap in Hj. pose proof (lookup_lt_Some _ _ _ Hj) as Hlt. rewrite (ro_kinds _ R1) in Hlt.
      destruct (local_symbols ra.1 !! (j - length (dimension_symbols spec))%nat) as [[k id]|] eqn:Ek; [|apply lookup_ge_None in Ek; lia].
      destruct (ro_entry _ R1 _ _ _ Ek) as (_ & kind & v & K1 & _ & _ & K4 & K5). assert (kind = kernel_derived b o a) as -> by congruence. destruct K4 as [Kb _]. split; [eexists; exact Kb|].
      specialize (K5 b o a eq_refl). rewrite length_fmap in Hj1. unfold first_index, n_dim_syms in K5. lia.
  - intros a o [Hd%dimensions_only | [j Hj]%list_elem_of_lookup]%elem_of_app; [done|]. pose proof (lookup_lt_Some _ _ _ Hj) as Hlt. rewrite (ro_kinds _ R1) in Hlt.
    destruct (local_symbols ra.1 !! j) as [[k id]|] eqn:Ek; [|apply lookup_ge_None in Ek; lia].
    destruct (ro_entry _ R1 _ _ _ Ek) as (_ & kind & v & K1 & _ & _ & K4 & _). assert (kind = kernel_slice a o) as -> by congruence. exact K4.
  - intros i t Hi. apply list_elem_of_lookup_2 in Hi as Ht. destruct (addr_data_ok ra Hrun t Ht) as (d & Hd & Hall).
    apply py_map_Ok in Hnodes. destruct (Forall2_lookup_l _ _ _ _ _ Hnodes Hi) as (node & Hn & En). unfold allocate_node in En. rewrite Hd in En. injection En as <-.
    eexists _, _, _, d. split_and!; [done | done | done | symmetry; by eapply Forall2_length|]. intros c a Hc Hlx Ha. destruct (Hall c a Hc Hlx Ha) as (j & J1 & J2 & J3).
    exists (first_index + j)%nat. split_and!; [done | unfold first_index; lia | unfold first_index; lia | done].
Qed.
End registered.

(** Every core's start address is what its symbol stands for: once the symbols of the
    tensors are registered the description is produced, and the identifier it holds for a
    tensor in memory and a core resolves to the tensor's base plus the compile-time
    distance of the core's slice (for a tensor of the pool, to the pool plus its offset);
    cores of a tensor split on a dynamic size are left out. *)
Theorem start_addresses_resolve offset spec tiled symbols0 kinds0 idx ra : length symbols0 = offset -> length kinds0 = offset -> spec_ok spec ->
  for_each (register_tensor (Z.of_nat offset) spec tiled) (args spec) (start_registry spec symbols0, []) = Ok ra ->
  exists g, generate_sdsc (Z.of_nat offset) spec tiled idx symbols0 = Ok g /\
    forall i t c a, args spec !! i = Some t -> in_lx t = false -> core_address spec t c = Ok a ->
      exists name top op d j, sdsc_json g = [(name, top)] /\ dscs top = [[(opfunc spec, op)]] /\ scheduleTree op !! i = Some (mkNode "hbm" d) /\
        dget d (core_key c) = Some (- (Z.of_nat j + 1)) /\
        (_symbolic_split_info spec t = None \/ core_address spec t 0 = Ok a ->
         symbol_address (symbols_after g) (kinds0 ++ symbol_kinds g) j = Some (expected_address t a)).
Proof.
  intros Hs Hk Hok Hrun. destruct (generate_total offset spec tiled symbols0 kinds0 Hs Hk Hok ra Hrun idx) as [g Hg]. exists g. split; [done|].
  intros i t c a Hi Hlx Ha. destruct (de_node _ _ _ _ _ (generate_described offset spec tiled symbols0 kinds0 Hs Hk Hok idx g Hg) i t Hi) as (name & top & op & d & E1 & E2 & E3 & _ & Hc).
  rewrite Hlx in E3. destruct (core_address_Ok spec t c a Ha) as [Hn _]. destruct (Hc c a Hn Hlx Ha) as (j & J1 & _ & J3). by exists name, top, op, d, j.
Qed.
End meaning.
