(* ===== verification/SdscIdents.v ===== *)
(** * The identifiers of a kernel description

    A description depends on where the numbering of symbols stands only through a shift of its identifiers,
    and an identifier is shared by cores and tensors that start at one address only. *)

From S2P Require Import Prelude PyDict SdscSymbols.

(** ** Numbering from another offset *)

Definition shift_node (off : Z) (n : schedule_node) : schedule_node :=
  if bool_decide (component n = "hbm"%string) then mkNode (component n) ((fun kv => (kv.1, kv.2 - off)) <$> start_data n) else n.

Definition shift_op (off : Z) (o : op_val) : op_val :=
  mkOpVal ((fun kv : string * list Z => (kv.1, (fun i => i - off) <$> kv.2)) <$> dimToSymbolMapping o) (shift_node off <$> scheduleTree o).

Definition shift_top (off : Z) (top : top_val) : top_val :=
  mkTopVal (numCoresUsed top) ((fun d : dict op_val => (fun kv : string * op_val => (kv.1, shift_op off kv.2)) <$> d) <$> dscs top) (other_json top).

Section shift.
Context (off : Z) (spec : SDSCSpec) (tiled : list (list string)).

Definition shifted (r r0 : registry) : Prop := local_symbols r = (fun kv => (kv.1, kv.2 - off)) <$> local_symbols r0.

Lemma kget_shift l k : kget ((fun kv => (kv.1, kv.2 - off)) <$> l) k = (fun i => i - off) <$> kget l k.
Proof. induction l as [|[k' v] l IH]; [done|]. cbn. by case_decide. Qed.

Lemma register_shift s k k0 r r0 : key_of s k = key_of s k0 -> shifted r r0 -> shifted (offset_as_symbol off spec s k r) (offset_as_symbol 0 spec s k0 r0).
Proof.
  unfold shifted, offset_as_symbol. intros -> H. rewrite H, kget_shift. destruct (kget (local_symbols r0) (key_of s k0)); cbn; [done|]. rewrite fmap_app, length_fmap. cbn. repeat f_equal. lia.
Qed.

Lemma register_base_shift nb core0 t r r0 rb rb0 : shifted r r0 -> register_base off spec nb core0 t r = Ok rb -> register_base 0 spec nb core0 t r0 = Ok rb0 -> shifted rb.1 rb0.1.
Proof.
  intros H. unfold register_base. destruct (arg_index t <? 0); [by intros [= <-] [= <-]|]. intros H1 H2. apply bind_Ok in H1 as (k & _ & H1). apply bind_Ok in H2 as (k0 & _ & H2).
  destruct (0 <? total_slice_offset nb t).
  - apply bind_Ok in H1 as (b & _ & [= <-]). apply bind_Ok in H2 as (b0 & _ & [= <-]). cbn [fst]. apply register_shift; [done|]. by apply register_shift.
  - injection H1 as <-. injection H2 as <-. by apply register_shift.
Qed.

Lemma register_core_shift t core0 b b0 split c r r0 r' r0' : shifted r r0 -> register_core off spec t core0 b split c r = Ok r' -> register_core 0 spec t core0 b0 split c r0 = Ok r0' -> shifted r' r0'.
Proof.
  intros H. unfold register_core. intros H1 H2. apply bind_Ok in H1 as (a & Ha & H1). rewrite Ha in H2. cbn [mbind res_bind] in H2.
  destruct (arg_index t <? 0); [injection H1 as <-; injection H2 as <-; by apply register_shift|]. destruct (_ || _); [by injection H1 as <-; injection H2 as <-|].
  injection H1 as <-. injection H2 as <-. unfold _register_per_core_derived. destruct split as [[[? ?] ?]|]; by apply register_shift.
Qed.

(** Two runs of a loop, step by step. *)
Lemma for_each_two {A S T} (f : A -> S -> res S) (g : A -> T -> res T) (R : S -> T -> Prop) l :
  (forall x s t s' t', R s t -> f x s = Ok s' -> g x t = Ok t' -> R s' t') -> forall s t s' t', R s t -> for_each f l s = Ok s' -> for_each g l t = Ok t' -> R s' t'.
Proof.
  intros H. induction l as [|x l IH]; intros s t s' t' HR H1 H2; [by injection H1 as <-; injection H2 as <-|]. apply bind_Ok in H1 as (s1 & E1 & H1). apply bind_Ok in H2 as (t1 & E2 & H2).
  eapply IH; [eapply H; [exact HR | exact E1 | exact E2] | exact H1 | exact H2].
Qed.

Lemma register_tensor_shift t s s0 s' s0' : shifted s.1 s0.1 /\ s.2 = s0.2 -> register_tensor off spec tiled t s = Ok s' -> register_tensor 0 spec tiled t s0 = Ok s0' -> shifted s'.1 s0'.1 /\ s'.2 = s0'.2.
Proof.
  destruct s as [r aff], s0 as [r0 aff0]. cbn. intros [H ->] H1 H2. destruct (in_lx t).
  { apply bind_Ok in H1 as (b & _ & H1). apply bind_Ok in H1 as (_ & _ & [= <-]). apply bind_Ok in H2 as (b0 & _ & H2). apply bind_Ok in H2 as (_ & _ & [= <-]). done. }
  apply bind_Ok in H1 as (nb & Hnb & H1). apply bind_Ok in H2 as (nb0 & Hnb0 & H2). assert (nb0 = nb) as -> by congruence.
  apply bind_Ok in H1 as (c0 & Hc0 & H1). apply bind_Ok in H2 as (c0' & Hc0' & H2). assert (c0' = c0) as -> by congruence.
  apply bind_Ok in H1 as (_ & _ & H1). apply bind_Ok in H2 as (_ & _ & H2). apply bind_Ok in H1 as (rb & Hb & H1). apply bind_Ok in H2 as (rb0 & Hb0 & H2).
  apply bind_Ok in H1 as (pl & Hpl & H1). apply bind_Ok in H2 as (pl0 & Hpl0 & H2). assert (pl0 = pl) as -> by congruence.
  apply bind_Ok in H1 as (rf & Hf & [= <-]). apply bind_Ok in H2 as (rf0 & Hf0 & [= <-]). cbn. split; [|done].
  eapply for_each_two; [|exact (register_base_shift _ _ _ _ _ _ _ H Hb Hb0) | exact Hf | exact Hf0]. cbn. intros c s1 t1 s2 t2. apply register_core_shift.
Qed.

Lemma node_shift r r0 t n n0 : shifted r r0 -> allocate_node spec (local_symbols r) t = Ok n -> allocate_node spec (local_symbols r0) t = Ok n0 -> n = shift_node off n0.
Proof.
  unfold shifted, allocate_node, _start_addr_data. intros -> H1 H2. apply bind_Ok in H1 as (d & H1 & [= <-]). apply bind_Ok in H2 as (d0 & H2 & [= <-]). unfold shift_node. cbn [component start_data].
  destruct (in_lx t); [by injection H1 as <-; injection H2 as <-|]. cbn. f_equal.
  apply bind_Ok in H1 as (nb & Hnb & H1). rewrite Hnb in H2. cbn [mbind res_bind] in H2. apply bind_Ok in H1 as (c0 & Hc0 & H1). rewrite Hc0 in H2. cbn [mbind res_bind] in H2.
  revert d d0 H1 H2. generalize (seq 0 (num_cores spec)) as cs. induction cs as [|c cs IH]; intros d d0 H1 H2; cbn in H1, H2; [by injection H1 as <-; injection H2 as <-|].
  apply bind_Ok in H1 as (x & Hx & H1). apply bind_Ok in H1 as (xs & Hxs & [= <-]). apply bind_Ok in H2 as (y & Hy & H2). apply bind_Ok in H2 as (ys & Hys & [= <-]).
  rewrite (IH _ _ Hxs Hys). cbn. f_equal. apply bind_Ok in Hx as (k & Hk & Hx). rewrite Hk in Hy. cbn [mbind res_bind] in Hy. unfold kgetitem in *. rewrite kget_shift in Hx.
  destruct (kget (local_symbols r0) k); [|done]. cbn in Hx, Hy. injection Hx as <-. by injection Hy as <-.
Qed.

Lemma dim_mapping_shift : dim_mapping off spec = (fun kv : string * list Z => (kv.1, (fun i => i - off) <$> kv.2)) <$> dim_mapping 0 spec.
Proof.
  unfold dim_mapping. induction (symbolic_dims spec) as [|kv l IH]; [done|]. cbn. unfold dimension_id in *. destruct (list_find _ (dimension_symbols spec)) as [[j x]|]; cbn; rewrite IH; [|done].
  repeat f_equal. lia.
Qed.
End shift.

Lemma generate_shift off spec tiled idx symbols g g0 : generate_sdsc off spec tiled idx symbols = Ok g -> generate_sdsc 0 spec tiled 0 [] = Ok g0 ->
  exists top, sdsc_json g0 = [(("0_" +:+ opfunc spec)%string, top)] /\ sdsc_json g = [((pretty idx +:+ "_" +:+ opfunc spec)%string, shift_top off top)] /\ affine_strides g = affine_strides g0.
Proof.
  unfold generate_sdsc. intros H1 H2. apply bind_Ok in H1 as (ra & Hr & H1). apply bind_Ok in H1 as (ns & Hns & [= <-]). apply bind_Ok in H2 as (ra0 & Hr0 & H2). apply bind_Ok in H2 as (ns0 & Hns0 & [= <-]).
  assert (shifted off ra.1 ra0.1 /\ ra.2 = ra0.2) as [Hsh Ha] by (eapply (for_each_two _ _ (fun s s0 => shifted off s.1 s0.1 /\ s.2 = s0.2)); [apply register_tensor_shift | | exact Hr | exact Hr0]; done).
  assert (ns = shift_node off <$> ns0) as ->; [|eexists; split_and!; [done | | done]; cbn; unfold shift_top, shift_op; cbn; by rewrite dim_mapping_shift].
  apply py_map_Ok in Hns, Hns0. clear Hr Hr0. revert ns ns0 Hns Hns0. induction (args spec) as [|t ts IH]; intros ns ns0 Hns Hns0.
  - apply Forall2_nil_inv_l in Hns as ->. by apply Forall2_nil_inv_l in Hns0 as ->.
  - apply Forall2_cons_inv_l in Hns as (n & ns' & Hn & Hns & ->). apply Forall2_cons_inv_l in Hns0 as (n0 & ns0' & Hn0 & Hns0 & ->). cbn. rewrite <- (IH _ _ Hns Hns0). f_equal. by eapply node_shift.
Qed.

Lemma Forall2_fmap_eq {A B} (P : A -> B -> Prop) (f : A -> B) l k : Forall2 P l k -> (forall x y, x ∈ l -> P x y -> y = f x) -> k = f <$> l.
Proof.
  induction 1 as [|x y l k Hxy _ IH]; intros H; [done|]. cbn. f_equal; [apply H; [list_mem | done]|]. apply IH. intros x' y' Hx. apply H. by right.
Qed.

(** ** Strides *)

Lemma all_empty (l : list (list string)) (pl : list (dict Z)) : length pl = length l -> existsb (fun d => negb (bool_decide (d = []))) pl = false -> (fun _ => []) <$> l = pl.
Proof.
  revert pl. induction l as [|x l IH]; intros [|d pl] E H; [done | done | done|]. cbn in *. apply orb_false_iff in H as [H1 H2]. apply negb_false_iff, bool_decide_eq_true in H1 as ->. f_equal.
  apply IH; [by injection E | done].
Qed.

Lemma generate_affine off spec tiled idx symbols g i t : generate_sdsc off spec tiled idx symbols = Ok g -> args spec !! i = Some t -> in_lx t = false ->
  exists nb per_level, num_bytes (elems_per_stick t) = Ok nb /\ py_map (level_strides t nb) tiled = Ok per_level /\ affine_strides g !! i = Some per_level.
Proof.
  unfold generate_sdsc. intros (ra & Hr & H)%bind_Ok. apply bind_Ok in H as (ns & _ & [= <-]). cbn. revert i t.
  assert (length ra.2 = length (args spec) /\ forall i t, args spec !! i = Some t -> in_lx t = false ->
    exists nb pl, num_bytes (elems_per_stick t) = Ok nb /\ py_map (level_strides t nb) tiled = Ok pl /\ ra.2 !! i = Some pl) as [_ H]; [|exact H].
  revert Hr. refine (for_each_ind _ (fun done ra => length ra.2 = length done /\ forall i t, done !! i = Some t -> in_lx t = false ->
    exists nb pl, num_bytes (elems_per_stick t) = Ok nb /\ py_map (level_strides t nb) tiled = Ok pl /\ ra.2 !! i = Some pl) _ _ _ _ _); [|done].
  intros done t rest [r aff] [r' aff'] _ [El IH] H. cbn in *. assert (exists x, aff' = aff ++ [x] /\ (in_lx t = false -> exists nb, num_bytes (elems_per_stick t) = Ok nb /\ py_map (level_strides t nb) tiled = Ok x)) as (x & -> & Hx).
  { destruct (in_lx t).
    - apply bind_Ok in H as (b & _ & H). apply bind_Ok in H as (_ & _ & [= <- <-]). by eexists.
    - apply bind_Ok in H as (nb & Hnb & H). apply bind_Ok in H as (c0 & _ & H). apply bind_Ok in H as (_ & _ & H). apply bind_Ok in H as (rb & _ & H). apply bind_Ok in H as (pl & Hpl & H).
      apply bind_Ok in H as (rf & _ & [= <- <-]). eexists. split; [done|]. intros _. exists nb. split; [done|]. rewrite Hpl. f_equal. destruct (existsb _ pl) eqn:E; [done|]. symmetry. apply all_empty; [|done].
      symmetry. apply py_map_Ok in Hpl. by eapply Forall2_length. }
  rewrite !length_app. cbn. split; [lia|]. intros i t' [[Hl Hi] | [-> <-]]%lookup_snoc_Some Hlx.
  - destruct (IH i t' Hi Hlx) as (nb & pl & ? & ? & Hpl). exists nb, pl. split_and!; [done | done|]. by rewrite lookup_app_l by lia.
  - destruct (Hx Hlx) as (nb & ? & ?). exists nb, x. split_and!; [done | done|]. rewrite lookup_app_r, El, Nat.sub_diag by lia. done.
Qed.

(** ** Without dynamic sizes *)

(** Two tensors with one base: of one argument, or both of the pool. *)
Definition same_base (t t' : SDSCArgs) : Prop := arg_index t = arg_index t' \/ arg_index t < 0 /\ arg_index t' < 0.

Section static.
Context (rt : runtime) (offset : nat) (spec : SDSCSpec) (tiled : list (list string)) (symbols0 : list Z) (kinds0 : list SymbolKind).
Context (Hsymbols0 : length symbols0 = offset) (Hkinds0 : length kinds0 = offset) (Hspec : spec_ok spec) (Hstatic : symbolic_dims spec = []).

Lemma no_split t : _symbolic_split_info spec t = None.
Proof. unfold _symbolic_split_info. rewrite Hstatic. by destruct (_ <? _). Qed.

(** What the key of a core says of the core's address. *)
Definition key_address (k : symbol_key) (t : SDSCArgs) (a : Z) : Prop :=
  match k with
  | KPool a' => arg_index t < 0 /\ a = a'
  | KKernel i => arg_index t = i /\ a = i
  | KSlice i o => arg_index t = i /\ a = i + o
  | KAddress a' => 0 <= arg_index t /\ a = a'
  | KSymbolic _ _ => False
  end.

Lemma core_key_address t nb core0 c a k : t ∈ args spec -> in_lx t = false -> num_bytes (elems_per_stick t) = Ok nb -> core_address spec t 0 = Ok core0 ->
  core_address spec t c = Ok a -> core_symbol_key spec t nb core0 c = Ok k -> key_address k t a.
Proof.
  intros Ht Hlx Hnb H0 Ha Hk. pose proof (core0_total _ _ _ _ Hsymbols0 Hkinds0 Hspec t nb core0 Hnb H0) as E0. unfold core_symbol_key in Hk. rewrite Ha, no_split in Hk. cbn [mbind res_bind] in Hk. injection Hk as <-.
  destruct (arg_index t <? 0) eqn:Earg; [rewrite (so_pool _ Hspec t Ht Hlx) by lia; cbn; lia|]. cbn [andb]. pose proof (so_total _ Hspec t nb Ht Hlx ltac:(lia) Hnb) as Htot.
  destruct (bool_decide (c = 0%nat) || (a =? core0)) eqn:Ec; [|cbn; lia].
  assert (a = core0) as ->. { apply orb_true_iff in Ec as [Ec%bool_decide_eq_true | Ec]; [|lia]. subst c. congruence. }
  destruct (0 <? total_slice_offset nb t) eqn:Et; cbn; lia.
Qed.

Lemma key_shared k t t' c c' a a' : t ∈ args spec -> t' ∈ args spec -> in_lx t = false -> in_lx t' = false -> core_address spec t c = Ok a -> core_address spec t' c' = Ok a' ->
  key_address k t a -> key_address k t' a' -> a = a' /\ same_base t t'.
Proof.
  intros Ht Ht' Hl Hl' Ha Ha' K K'. unfold same_base. destruct k; cbn in K, K'; [lia | lia | | done | lia]. destruct K as [Hp ->], K' as [Hp' ->]. split; [done|]. left.
  by eapply (so_apart _ Hspec t t').
Qed.

(** The number of cores the bundle advances. *)
Definition used_cores : nat := if bool_decide (completed_producer_cores spec = []) then num_cores spec else length (completed_producer_cores spec).

Definition node_with (ident : SDSCArgs -> nat -> Z) (t : SDSCArgs) : schedule_node :=
  mkNode (if in_lx t then "lx" else "hbm") ((fun c => (core_key c, if in_lx t then start_address t else ident t c)) <$> seq 0 (num_cores spec)).

Record identified (idx : nat) (g : generated) (ident : SDSCArgs -> nat -> Z) : Prop := {
  id_json : sdsc_json g = [((pretty idx +:+ "_" +:+ opfunc spec)%string, mkTopVal (Z.of_nat used_cores) [[(opfunc spec, mkOpVal [] (node_with ident <$> args spec))]] (other_fields spec))];
  id_address : forall t c, t ∈ args spec -> in_lx t = false -> (c < num_cores spec)%nat -> exists a j, core_address spec t c = Ok a /\ ident t c = - (Z.of_nat j + 1) /\
    symbol_address rt (symbols_after g) (kinds0 ++ symbol_kinds g) j = Some (expected_address rt t a);
  id_shared : forall t t' c c' a a', t ∈ args spec -> t' ∈ args spec -> in_lx t = false -> in_lx t' = false -> core_address spec t c = Ok a -> core_address spec t' c' = Ok a' ->
    ident t c = ident t' c' -> a = a' /\ same_base t t';
  id_static : forall k, k ∈ symbol_kinds g -> is_dimension k = false
}.

Lemma generate_identified idx g : generate_sdsc (Z.of_nat offset) spec tiled idx symbols0 = Ok g -> exists ident, identified idx g ident.
Proof.
  unfold generate_sdsc. change (mkRegistry (symbols0 ++ repeat 0 (n_dim_syms spec)) [] []) with (start_registry spec symbols0). intros (ra & Hrun & H)%bind_Ok. apply bind_Ok in H as (nodes & Hnodes & [= <-]).
  destruct (register_all_ok rt _ _ _ _ _ Hsymbols0 Hkinds0 Hspec ra Hrun) as (R1 & _ & R3).
  pose (ident := fun t c => match num_bytes (elems_per_stick t), core_address spec t 0 with
    | Ok nb, Ok core0 => match core_symbol_key spec t nb core0 c with Ok k => default 0 (kget (local_symbols ra.1) k) | Raise _ => 0 end | _, _ => 0 end).
  assert (forall t c, t ∈ args spec -> in_lx t = false -> (c < num_cores spec)%nat -> exists nb core0 k a, num_bytes (elems_per_stick t) = Ok nb /\ core_address spec t 0 = Ok core0 /\
    core_symbol_key spec t nb core0 c = Ok k /\ core_address spec t c = Ok a /\ kget (local_symbols ra.1) k = Some (ident t c)) as Hid.
  { intros t c Ht Hlx Hc. destruct (R3 t c Ht Hlx Hc) as (nb & core0 & k & id & Hnb & H0 & Hk & Hg). exists nb, core0, k. pose proof Hk as Hk'. apply bind_Ok in Hk' as (a & Ha & _). exists a.
    split_and!; try done. unfold ident. by rewrite Hnb, H0, Hk, Hg. }
  assert (forall t n, t ∈ args spec -> allocate_node spec (local_symbols ra.1) t = Ok n -> n = node_with ident t) as allocate_ident.
  { intros t n Ht Hn. apply bind_Ok in Hn as (d & Hd & [= <-]). unfold node_with. f_equal. unfold _start_addr_data in Hd. destruct (in_lx t) eqn:Elx; [by injection Hd|].
    apply bind_Ok in Hd as (nb & Hnb & Hd). apply bind_Ok in Hd as (core0 & H0 & Hd). apply py_map_Ok in Hd. 
    apply (Forall2_fmap_eq _ _ _ _ Hd). intros c [key id] Hc%elem_of_seq Hy. destruct (Hid t c Ht Elx ltac:(lia)) as (nb' & core0' & k & a & Hnb' & H0' & Hk & _ & Hg).
    assert (nb' = nb) as -> by congruence. assert (core0' = core0) as -> by congruence. rewrite Hk in Hy. cbn in Hy. unfold kgetitem in Hy. rewrite Hg in Hy. by injection Hy as <- <-. }
  exists ident. split; cbn.
  - assert (nodes = node_with ident <$> args spec) as ->.
    { apply py_map_Ok in Hnodes. apply (Forall2_fmap_eq _ _ _ _ Hnodes). intros t n Ht Hn. by apply allocate_ident. }
    assert (dim_mapping (Z.of_nat offset) spec = []) as -> by (unfold dim_mapping; by rewrite Hstatic). unfold used_cores. by destruct (bool_decide _).
  - intros t c Ht Hlx Hc. destruct (Hid t c Ht Hlx Hc) as (nb & core0 & k & a & Hnb & H0 & Hk & Ha & Hg). exists a.
    destruct (key_meaning rt _ _ _ _ Hsymbols0 Hkinds0 Hspec t Ht Hlx nb core0 Hnb H0 ra.1 c a k _ R1 Ha Hk Hg) as (i & E & Hi); [left; apply no_split|]. eexists. split_and!; [done | exact E | exact Hi].
  - intros t t' c c' a a' Ht Ht' Hl Hl' Ha Ha' E. destruct (core_address_Ok _ _ _ _ Ha) as [Hc _], (core_address_Ok _ _ _ _ Ha') as [Hc' _].
    destruct (Hid t c Ht Hl Hc) as (nb & core0 & k & a1 & Hnb & H0 & Hk & Ha1 & Hg). destruct (Hid t' c' Ht' Hl' Hc') as (nb' & core0' & k' & a1' & Hnb' & H0' & Hk' & Ha1' & Hg').
    assert (k' = k) as ->.
    { destruct (kget_ok rt _ _ _ _ Hsymbols0 Hkinds0 ra.1 k _ R1 Hg) as (i & kd & v & E1 & K1 & K2 & K3 & _). destruct (kget_ok rt _ _ _ _ Hsymbols0 Hkinds0 ra.1 k' _ R1 Hg') as (i' & kd' & v' & E1' & K1' & K2' & K3' & _).
      assert (i' = i) as -> by lia. congruence. }
    apply (key_shared k t t' c c'); [done | done | done | done | done | done | by eapply core_key_address | by eapply core_key_address].
  - intros k [Hk | [j Hj]%list_elem_of_lookup]%elem_of_app; [unfold dimension_symbols in Hk; rewrite Hstatic in Hk; by apply elem_of_nil in Hk|].
    pose proof (lookup_lt_Some _ _ _ Hj) as Hlt. rewrite (ro_kinds _ _ _ _ _ R1) in Hlt.
    destruct (local_symbols ra.1 !! j) as [[key id]|] eqn:Ek; [|apply lookup_ge_None in Ek; lia].
    destruct (ro_entry _ _ _ _ _ R1 _ _ _ Ek) as (_ & kind & v & K1 & _ & _ & K4 & _). assert (kind = k) as -> by congruence. by destruct k.
Qed.
End static.
