(* ===== verification/Bundle.v ===== *)
(** * Bundles of kernels ([codegen/bundle.py])

    [generate_bundle] compiles a tree of operations and loops to a function of the device
    compiler's input language: one description file per operation ([SdscSymbols]), and a
    function that binds the tensor addresses, declares an address for every symbol, and
    runs the descriptions in loops, with addresses that advance with the loop variables.

    The text that is written is kept as its statements; [render] prints them as the code
    does.  SSA names are terms of [ssa], printed by [show].  The result of [parse_op_spec] is
    part of an operation.  Validation and log lines are left out, and files are the list of
    what was written. *)

From Stdlib Require Import Ascii.
From S2P Require Import Prelude PyDict SdscSymbols.

(** ** Operations and loops *)

(** [arg_indices]: the [arg_index] of every entry of [op_spec.args]. *)
Record op_spec := mkOpSpec {
  arg_indices : list Z;
  parsed : SDSCSpec;
  tiled_symbols : list (list string);
  symbol_mapping : dict string
}.

(** A trip count that is not an integer is [None]. *)
Inductive spec_entry :=
  | LoopSpec (count : option Z) (body : list spec_entry)
  | OpSpec (op : op_spec)
  | UnimplementedOp.

Definition tiled_symbols_per_level (op : op_spec) : list (list string) :=
  (fun level : list string => omap (dget (symbol_mapping op)) level) <$> reverse (tiled_symbols op).

Definition compile_op_spec (idx : nat) (op : op_spec) (symbols : list Z) (symbol_id_offset : nat) : res generated :=
  generate_sdsc (Z.of_nat symbol_id_offset) (parsed op) (tiled_symbols_per_level op) idx symbols.

(** ** Compiling the operations *)

#[export] Instance node_eq_dec : EqDecision schedule_node.
Proof. solve_decision. Defined.

#[export] Instance op_val_eq_dec : EqDecision op_val.
Proof. solve_decision. Defined.

#[export] Instance top_val_eq_dec : EqDecision top_val.
Proof. solve_decision. Defined.

Record compiled_entry := mkCompiled {
  c_json : dict top_val;
  c_values : list (option symbol_key);
  c_strides : list (list (dict Z));
  c_kinds : list SymbolKind;
  c_cached : dict top_val
}.

Record compiling := mkCompiling {
  cs_symbols : list Z;
  cs_compiled : list compiled_entry;
  sdsc_counter : nat;
  symbol_id_offset_counter : nat;
  sdsc_cache : option (list (dict top_val * list Z * (nat * dict top_val)));
  cs_files : list (string * dict top_val)
}.

(** [sdsc_cache.get(cache_key)] *)
Definition cache_get (cache : list (dict top_val * list Z * (nat * dict top_val))) (key : dict top_val * list Z) : option (nat * dict top_val) :=
  snd <$> (snd <$> list_find (fun kv => kv.1 = key) cache).

Definition cache_key (op : op_spec) : res (dict top_val * list Z) :=
  canonical ← compile_op_spec 0 op [] 0; Ok (sdsc_json canonical, arg_indices op).

Definition sdsc_file (idx : string) : string := ("sdsc_" +:+ idx +:+ ".json")%string.

Definition compile_op (op : op_spec) (st : compiling) : res compiling :=
  key ← (match sdsc_cache st with Some _ => k ← cache_key op; Ok (Some k) | None => Ok None end);
  let cached := match sdsc_cache st, key with Some cache, Some k => cache_get cache k | _, _ => None end in
  let idx := match cached with Some c => c.1 | None => sdsc_counter st end in
  g ← compile_op_spec idx op (cs_symbols st) (symbol_id_offset_counter st);
  let cached_json := match cached with Some c => c.2 | None => sdsc_json g end in
  Ok (mkCompiling (symbols_after g)
    (cs_compiled st ++ [mkCompiled (sdsc_json g) (symbol_values g) (affine_strides g) (symbol_kinds g) cached_json])
    (match cached with Some _ => sdsc_counter st | None => S (sdsc_counter st) end)
    (symbol_id_offset_counter st + length (symbol_values g))
    (match cached, sdsc_cache st, key with None, Some cache, Some k => Some (cache ++ [(k, (idx, cached_json))]) | _, c, _ => c end)
    (match cached with Some _ => cs_files st | None => cs_files st ++ [(sdsc_file (pretty idx), sdsc_json g)] end)).

Fixpoint compile_entry (e : spec_entry) (st : compiling) : res compiling :=
  match e with
  | LoopSpec _ body => for_each compile_entry body st
  | OpSpec op => compile_op op st
  | UnimplementedOp => Ok st
  end.

Definition _compile_specs (specs : list spec_entry) (st : compiling) : res compiling := for_each compile_entry specs st.

(** ** Loop bounds and affine maps *)

Fixpoint entry_bounds (e : spec_entry) : list (option Z) :=
  match e with
  | LoopSpec count body => count :: concat (entry_bounds <$> body)
  | _ => []
  end.

Definition _collect_loop_bounds (specs : list spec_entry) : list (option Z) := concat (entry_bounds <$> specs).

(** The maps found so far, in the order of their numbers, and what was consumed and found. *)
Record collecting := mkCollecting {
  co_entries : list compiled_entry;
  affine_map_index : list (list Z);
  loop_var_indices : list (list (list nat))
}.

(** The strides of one tensor with the loops they belong to. *)
Definition stride_terms (depth : list nat) (per_level : list (dict Z)) : res (list (Z * nat)) :=
  ts ← py_map (fun il : nat * dict Z =>
    if bool_decide (il.2 = []) then Ok []
    else match depth !! il.1 with
         | None => Raise AssertionError
         | Some lv => Ok ((fun s => (s, lv)) <$> dvalues il.2)
         end) (imap pair per_level);
  Ok (concat ts).

Definition collect_tensor (depth : list nat) (per_level : list (dict Z)) (st : list (list Z) * list (list nat)) : res (list (list Z) * list (list nat)) :=
  ts ← stride_terms depth per_level;
  Ok (if bool_decide (ts = []) then (st.1, st.2 ++ [[]])
      else (if bool_decide (ts.*1 ∈ st.1) then st.1 else st.1 ++ [ts.*1], st.2 ++ [ts.*2])).

Fixpoint collect_entry (depth : list nat) (e : spec_entry) (st : collecting) : res collecting :=
  match e with
  | LoopSpec _ body => for_each (collect_entry (depth ++ [length depth])) body st
  | OpSpec _ =>
      match co_entries st with
      | [] => Raise StopIteration
      | c :: rest =>
          r ← for_each (collect_tensor depth) (c_strides c) (affine_map_index st, []);
          Ok (mkCollecting rest r.1 (loop_var_indices st ++ [r.2]))
      end
  | UnimplementedOp => Ok st
  end.

Definition _collect_affine_maps (specs : list spec_entry) (entries : list compiled_entry) : res collecting :=
  for_each (collect_entry []) specs (mkCollecting entries [] []).

(** ** Reading a description back *)

Definition op_vals (j : dict top_val) : list op_val := dvalues j ≫= (fun top => dscs top ≫= dvalues).

Definition add_id (i : Z) (ids : list Z) : list Z := if (i <? 0) && negb (bool_decide (i ∈ ids)) then ids ++ [i] else ids.

Definition op_ids (op : op_val) : list Z :=
  concat (dvalues (dimToSymbolMapping op)) ++
  (scheduleTree op ≫= (fun n => if bool_decide (component n = "hbm"%string) then dvalues (start_data n) else [])).

Definition _extract_symbol_ids (j : dict top_val) : list Z := foldl (fun ids i => add_id i ids) [] (op_vals j ≫= op_ids).

Definition _sdsc_num_cores (j : dict top_val) : nat := match j with [] => 1%nat | (_, top) :: _ => Z.to_nat (numCoresUsed top) end.

(** [None] also stands for going on to the next operation. *)
Definition node_sym_id (op : op_val) (tensor_idx core : nat) : option (option Z) :=
  match scheduleTree op !! tensor_idx with
  | None => None
  | Some n => if bool_decide (component n = "hbm"%string) then Some <$> dget (start_data n) (core_key core) else Some None
  end.

Definition _get_tensor_core_sym_id (j : dict top_val) (tensor_idx core : nat) : option Z :=
  match head (omap (fun op => node_sym_id op tensor_idx core) (op_vals j)) with Some r => r | None => None end.

(** ** The emitted function *)

Inductive ssa :=
  | PoolBase
  | Pool
  | ArgBase (arg : Z)
  | Arg (arg : Z)
  | DimBase (sdsc ordinal : nat)
  | Dim (sdsc ordinal : nat)
  | Sym (n : nat)
  | SliceOffset (arg offset : Z)
  | Slice (arg offset : Z)
  | CoreOffset (base : ssa) (offset : Z)
  | Core (base : ssa) (offset : Z)
  | PoolOffset (v : Z)
  | PoolAddr (v : Z)
  | C0
  | C1
  | LoopBound (n : nat)
  | LoopVar (n : nat)
  | Addr (n : nat).

#[export] Instance ssa_eq_dec : EqDecision ssa.
Proof. solve_decision. Defined.

Inductive stmt :=
  | Extract (x from : ssa) (type : string)
  | Allocate (x : ssa) (bytes : Z)
  | Constant (x : ssa) (v : Z)
  | Addi (x a b : ssa)
  | For (v bound : ssa) (body : list stmt)
  | Apply (x : ssa) (map_idx : nat) (vars : list ssa) (base : ssa)
  | Execute (operands : list ssa) (file : string) (symbol_ids : list Z).

Record bundle := mkBundle {
  affine_maps : list (list Z);
  params : list (ssa * string);
  statements : list stmt;
  param_symbol_kinds : list SymbolKind;
  description_files : list (string * dict top_val)
}.

Definition address_type : string := "!sdscbundle.input_arg<index>".

Definition _dim_input_arg_type (k : SymbolKind) : string :=
  match k with
  | dimension g m _ => ("!sdscbundle.input_arg<index, granularity=" +:+ pretty g +:+ ", max_value=" +:+ pretty m +:+ ">")%string
  | _ => "!sdscbundle.input_arg<index, granularity=0, max_value=0>"%string
  end.

(** ** Parameters *)

(** The index of the first symbol with the key, for every symbol that has one: the
    canonical ones in order, and the others with theirs. *)
Definition canonical {K} `{EqDecision K} (key : SymbolKind -> option K) (kinds : list SymbolKind) : list (nat * K) * list (nat * nat) :=
  foldl (fun st ik =>
    match key ik.2 with
    | None => st
    | Some k => match list_find (fun c => c.2 = k) st.1 with
                | Some (_, c) => (st.1, st.2 ++ [(ik.1, c.1)])
                | None => (st.1 ++ [(ik.1, k)], st.2)
                end
    end) ([], []) (imap pair kinds).

Definition kernel_arg (k : SymbolKind) : option Z := match k with kernel a => Some a | _ => None end.
Definition dimension_sym (k : SymbolKind) : option string := match k with dimension _ _ s => Some s | _ => None end.

(** [sym_idx_to_dim_origin]: the number of its operation and its rank there. *)
Fixpoint local_origins (sdsc pos ordinal : nat) (kinds : list SymbolKind) : list (nat * (nat * nat)) :=
  match kinds with
  | [] => []
  | k :: ks => if is_dimension k then (pos, (sdsc, S ordinal)) :: local_origins sdsc (S pos) (S ordinal) ks else local_origins sdsc (S pos) ordinal ks
  end.

Fixpoint dim_origins (sdsc pos : nat) (entries : list compiled_entry) : list (nat * (nat * nat)) :=
  match entries with
  | [] => []
  | e :: es => local_origins sdsc pos 0 (c_kinds e) ++ dim_origins (S sdsc) (pos + length (c_kinds e)) es
  end.

Definition nget {V} (l : list (nat * V)) (i : nat) : option V := snd <$> (snd <$> list_find (fun kv => kv.1 = i) l).

Definition SEGMENT_SIZE : Z := 0x400000000.
Definition MAX_POOL_SIZE_BYTES : Z := SEGMENT_SIZE - 2 * 1024 ^ 3.

Section emit.
Context (kinds : list SymbolKind) (symbols : list Z) (entries : list compiled_entry).

Definition kernel_args : list (nat * Z) := (canonical kernel_arg kinds).1.
Definition kernel_dup_canonical : list (nat * nat) := (canonical kernel_arg kinds).2.
Definition dimension_syms : list (nat * string) := (canonical dimension_sym kinds).1.
Definition dimension_dup_canonical : list (nat * nat) := (canonical dimension_sym kinds).2.

(** [kernel_arg_sym_indices], sorted by argument *)
Definition kernel_arg_sym_indices : list (nat * Z) := py_sorted (fun a b => a.2 <=? b.2) kernel_args.

Definition dim_param (i : nat) : res ssa :=
  match nget (dim_origins 0 0 entries) i with Some so => Ok (Dim so.1 so.2) | None => Raise KeyError end.

Definition dim_base (x : ssa) : ssa := match x with Dim s o => DimBase s o | _ => x end.

(** [kernel_sym_to_arg_idx] *)
Definition kernel_sym_to_arg_idx : list (nat * Z) :=
  kernel_args ++ omap (fun dc => (fun a => (dc.1, a)) <$> nget kernel_args dc.2) kernel_dup_canonical.

Definition initial_canonical : res (list (nat * ssa)) :=
  let dups := omap (fun dc : nat * nat => (fun a => (dc.1, Arg a)) <$> nget kernel_sym_to_arg_idx dc.1) kernel_dup_canonical in
  dims ← py_map (fun ik : nat * string => x ← dim_param ik.1; Ok (ik.1, x)) dimension_syms;
  dim_dups ← py_map (fun dc : nat * nat => x ← dim_param dc.2; Ok (dc.1, x)) dimension_dup_canonical;
  Ok (dups ++ dims ++ dim_dups).

(** ** Declarations *)

Record declaring := mkDeclaring {
  d_stmts : list stmt;
  sym_canonical : list (nat * ssa);
  slice_addi_emitted : list (Z * Z);
  derived_addi_emitted : list (ssa * Z);
  pool_addi_emitted : list Z
}.

Definition sliced_base (canon : list (nat * ssa)) (base_sym_idx : Z) : option ssa :=
  if base_sym_idx <? 0 then None
  else
    let b := Z.to_nat base_sym_idx in
    match nget canon b, nget kernel_args b, nget kernel_dup_canonical b with
    | Some x, _, _ => Some x
    | None, Some a, _ => Some (Arg a)
    | None, None, Some c => Some (Arg (default 0 (nget kernel_sym_to_arg_idx c)))
    | None, None, None => None
    end.

Definition declare_constant (i : nat) (value : Z) (st : declaring) : declaring :=
  mkDeclaring (d_stmts st ++ [Constant (Sym (S i)) value]) (sym_canonical st) (slice_addi_emitted st) (derived_addi_emitted st) (pool_addi_emitted st).

Definition declare (iv : nat * Z) (st : declaring) : res declaring :=
  let '(i, value) := iv in
  if bool_decide (i ∈ kernel_args.*1) || bool_decide (i ∈ kernel_dup_canonical.*1) then Ok st
  else match kinds !! i with
  | None => if bool_decide (kinds = []) then Ok (declare_constant i value st) else Raise IndexError
  | Some (kernel_slice a o) =>
      let stmts := if bool_decide ((a, o) ∈ slice_addi_emitted st) then []
                   else [Constant (SliceOffset a o) o; Addi (Slice a o) (Arg a) (SliceOffset a o)] in
      Ok (mkDeclaring (d_stmts st ++ stmts) (sym_canonical st ++ [(i, Slice a o)])
            (if bool_decide ((a, o) ∈ slice_addi_emitted st) then slice_addi_emitted st else slice_addi_emitted st ++ [(a, o)])
            (derived_addi_emitted st) (pool_addi_emitted st))
  | Some (kernel_derived b o _) =>
      match sliced_base (sym_canonical st) b with
      | Some base =>
          let seen := bool_decide ((base, o) ∈ derived_addi_emitted st) in
          let stmts := if seen then [] else [Constant (CoreOffset base o) o; Addi (Core base o) base (CoreOffset base o)] in
          Ok (mkDeclaring (d_stmts st ++ stmts) (sym_canonical st ++ [(i, Core base o)]) (slice_addi_emitted st)
                (if seen then derived_addi_emitted st else derived_addi_emitted st ++ [(base, o)]) (pool_addi_emitted st))
      | None => Ok (declare_constant i value st)
      end
  | Some pool =>
      let seen := bool_decide (value ∈ pool_addi_emitted st) in
      let stmts := if seen then [] else [Constant (PoolOffset value) value; Addi (PoolAddr value) Pool (PoolOffset value)] in
      Ok (mkDeclaring (d_stmts st ++ stmts) (sym_canonical st ++ [(i, PoolAddr value)]) (slice_addi_emitted st) (derived_addi_emitted st)
            (if seen then pool_addi_emitted st else pool_addi_emitted st ++ [value]))
  | Some (dimension _ _ _) => Ok st
  | Some _ => Ok (declare_constant i value st)
  end.

(** ** The body *)

Section body.
Context (canon : list (nat * ssa)) (maps : list (list Z)).

Definition _resolve_sym (sid : Z) : ssa :=
  let i := Z.to_nat (Z.abs sid - 1) in
  match nget kernel_sym_to_arg_idx i, nget canon i with
  | Some a, _ => Arg a
  | None, Some x => x
  | None, None => Sym (Z.to_nat (Z.abs sid))
  end.

Record emitting := mkEmitting {
  em_entries : list compiled_entry;
  em_lvs : list (list (list nat));
  loop_bound_idx : nat;
  addr_counter : nat
}.

(** What one operation has emitted: statements, upgraded symbols, the next address. *)
Record upgrading := mkUpgrading {
  up_stmts : list stmt;
  sym_id_to_operand : list (Z * ssa);
  up_addr : nat
}.

Definition zget {V} (l : list (Z * V)) (i : Z) : option V := snd <$> (snd <$> list_find (fun kv => kv.1 = i) l).

Definition flat_strides (per_level : list (dict Z)) : list Z := concat (dvalues <$> per_level).

Definition upgrade_core (loop_vars : list ssa) (j : dict top_val) (lvs : list (list nat)) (tensor_idx : nat) (strides : list Z) (c : nat) (st : upgrading) : res upgrading :=
  match _get_tensor_core_sym_id j tensor_idx c with
  | None => Ok st
  | Some sid =>
      if bool_decide (sid ∈ (sym_id_to_operand st).*1) then Ok st
      else
        map_idx ← (match list_find (fun m => m = strides) maps with Some (k, _) => Ok k | None => Raise KeyError end);
        lv ← py_at lvs tensor_idx;
        vars ← py_map (py_at loop_vars) lv;
        Ok (mkUpgrading (up_stmts st ++ [Apply (Addr (up_addr st)) map_idx vars (_resolve_sym sid)])
              (sym_id_to_operand st ++ [(sid, Addr (up_addr st))]) (S (up_addr st)))
  end.

Definition upgrade_tensor (loop_vars : list ssa) (j : dict top_val) (lvs : list (list nat)) (ts : nat * list (dict Z)) (st : upgrading) : res upgrading :=
  let strides := flat_strides ts.2 in
  if bool_decide (strides = []) then Ok st
  else for_each (upgrade_core loop_vars j lvs ts.1 strides) (seq 0 (_sdsc_num_cores j)) st.

(** [sdsc_name.split("_")[0]] *)
Fixpoint before_underscore (s : string) : string :=
  match s with
  | EmptyString => EmptyString
  | String a s => if Ascii.eqb a "_"%char then EmptyString else String a (before_underscore s)
  end.

Definition emit_op (loop_vars : list ssa) (st : emitting * list stmt) : res (emitting * list stmt) :=
  match em_entries st.1, em_lvs st.1 with
  | c :: entries, lvs :: rest =>
      name ← (match c_cached c with (name, _) :: _ => Ok name | [] => Raise StopIteration end);
      u ← for_each (upgrade_tensor loop_vars (c_json c) lvs) (imap pair (c_strides c)) (mkUpgrading [] [] (addr_counter st.1));
      let operands := (fun sid => default (_resolve_sym sid) (zget (sym_id_to_operand u) sid)) <$> _extract_symbol_ids (c_json c) in
      Ok (mkEmitting entries rest (loop_bound_idx st.1) (up_addr u),
          st.2 ++ up_stmts u ++ [Execute operands (sdsc_file (before_underscore name)) (_extract_symbol_ids (c_cached c))])
  | _, _ => Raise StopIteration
  end.

Fixpoint emit_entry (loop_vars : list ssa) (e : spec_entry) (st : emitting * list stmt) : res (emitting * list stmt) :=
  match e with
  | LoopSpec _ body =>
      let k := loop_bound_idx st.1 in
      r ← for_each (emit_entry (loop_vars ++ [LoopVar k])) body (mkEmitting (em_entries st.1) (em_lvs st.1) (S k) (addr_counter st.1), []);
      Ok (r.1, st.2 ++ [For (LoopVar k) (LoopBound k) r.2])
  | OpSpec _ => emit_op loop_vars st
  | UnimplementedOp => Ok st
  end.

Definition _emit_specs (specs : list spec_entry) (st : emitting) : res (emitting * list stmt) := for_each (emit_entry []) specs (st, []).
End body.
End emit.

(** [_mlir_count_value] *)
Definition declare_bound (ik : nat * option Z) : res stmt :=
  match ik.2 with Some n => Ok (Constant (LoopBound ik.1) n) | None => Raise NotImplementedError end.

Record bundle_config := mkBundleConfig {
  bundle_symbolic_args : bool;
  frontend_pool_allocation : bool;
  use_sdsc_cache : bool
}.

Definition generate_bundle (cfg : bundle_config) (specs : list spec_entry) (pool_size : Z) : res bundle :=
  py_assert (bundle_symbolic_args cfg);;
  st ← _compile_specs specs (mkCompiling [] [] 0 0 (if use_sdsc_cache cfg then Some [] else None) []);
  let entries := cs_compiled st in
  let bounds := _collect_loop_bounds specs in
  col ← _collect_affine_maps specs entries;
  let kinds := concat (c_kinds <$> entries) in
  let has_pool := existsb is_pool kinds in
  let args := kernel_arg_sym_indices kinds in
  dims ← py_map (fun ik : nat * string => x ← dim_param entries ik.1; k ← py_at kinds ik.1; Ok (x, k)) (dimension_syms kinds);
  py_assert (negb has_pool || ((0 <? pool_size) && (pool_size <=? MAX_POOL_SIZE_BYTES)));;
  let pool_param := has_pool && frontend_pool_allocation cfg in
  let pool_stmts := if has_pool then [if frontend_pool_allocation cfg then Extract Pool PoolBase address_type else Allocate Pool pool_size] else [] in
  let extracts := ((fun ia => Extract (Arg ia.2) (ArgBase ia.2) address_type) <$> args)
    ++ ((fun xk => Extract xk.1 (dim_base xk.1) (_dim_input_arg_type xk.2)) <$> dims) in
  decl_bounds ← py_map declare_bound (imap pair bounds);
  let loop_consts := if bool_decide (bounds = []) then [] else [Constant C0 0; Constant C1 1] ++ decl_bounds in
  canon ← initial_canonical kinds entries;
  d ← for_each (declare kinds) (imap pair (cs_symbols st)) (mkDeclaring [] canon [] [] []);
  body ← _emit_specs kinds (sym_canonical d) (affine_map_index col) specs (mkEmitting entries (loop_var_indices col) 0 0);
  Ok (mkBundle (affine_map_index col)
    ((if pool_param then [(PoolBase, address_type)] else []) ++ ((fun ia => (ArgBase ia.2, address_type)) <$> args)
      ++ ((fun xk => (dim_base xk.1, _dim_input_arg_type xk.2)) <$> dims))
    (pool_stmts ++ extracts ++ loop_consts ++ d_stmts d ++ body.2)
    ((if pool_param then [pool] else []) ++ ((fun ia => kernel ia.2) <$> args) ++ dims.*2)
    (cs_files st)).

(** ** The text *)

#[local] Open Scope string_scope.

Fixpoint show_stem (x : ssa) : string :=
  match x with
  | PoolBase => "pool_base_addr"
  | Pool => "pool"
  | ArgBase a => "arg_" +:+ pretty a +:+ "_base_addr"
  | Arg a => "arg_" +:+ pretty a
  | DimBase s o => "sym_" +:+ pretty s +:+ "_" +:+ pretty o +:+ "_base"
  | Dim s o => "sym_" +:+ pretty s +:+ "_" +:+ pretty o
  | Sym n => "sym_" +:+ pretty n
  | SliceOffset a o => "arg_" +:+ pretty a +:+ "_slice_offset_" +:+ pretty o
  | Slice a o => "arg_" +:+ pretty a +:+ "_slice_" +:+ pretty o
  | CoreOffset b o => show_stem b +:+ "_core_offset_" +:+ pretty o
  | Core b o => show_stem b +:+ "_core_" +:+ pretty o
  | PoolOffset v => "pool_offset_" +:+ pretty v
  | PoolAddr v => "pool_addr_" +:+ pretty v
  | C0 => "c0"
  | C1 => "c1"
  | LoopBound n => "loop_bound_" +:+ pretty n
  | LoopVar n => "i_" +:+ pretty n
  | Addr n => "addr_" +:+ pretty n
  end.

Definition show (x : ssa) : string := "%" +:+ show_stem x.

Fixpoint join (sep : string) (l : list string) : string :=
  match l with [] => "" | [x] => x | x :: l => x +:+ sep +:+ join sep l end.

Definition quote (s : string) : string := String "034" s +:+ String "034" "".
Definition tabs (n : nat) : string := Nat.iter n (String "009") "".

(** The lines of a statement. *)
Fixpoint render_stmt (indent : nat) (s : stmt) : list string :=
  match s with
  | Extract x from type => [tabs indent +:+ show x +:+ " = sdscbundle.input_arg_extract value from " +:+ show from +:+ " : " +:+ type +:+ " -> index"]
  | Allocate x n => [tabs indent +:+ show x +:+ " = sdscbundle.device_mem_allocate " +:+ pretty n +:+ " bytes : index"]
  | Constant x v => [tabs indent +:+ show x +:+ " = arith.constant " +:+ pretty v +:+ " : index"]
  | Addi x a b => [tabs indent +:+ show x +:+ " = arith.addi " +:+ show a +:+ ", " +:+ show b +:+ " : index"]
  | For v b body => [tabs indent +:+ "scf.for " +:+ show v +:+ " = %c0 to " +:+ show b +:+ " step %c1 {"] ++ concat (render_stmt (S indent) <$> body) ++ [tabs indent +:+ "}"]
  | Apply x m vars b => [tabs indent +:+ show x +:+ " = affine.apply #map_" +:+ pretty m +:+ "(" +:+ join ", " (show <$> vars) +:+ ")[" +:+ show b +:+ "]"]
  | Execute ops file ids => [tabs indent +:+ "sdscbundle.sdsc_execute (" +:+ join ", " (show <$> ops) +:+ ") {sdsc_filename=" +:+ quote file
      +:+ ", " +:+ quote "symbol_ids" +:+ "=[" +:+ join ", " (pretty <$> ids) +:+ "]}"]
  end.

Definition render_map (im : nat * list Z) : string :=
  "#map_" +:+ pretty im.1 +:+ " = affine_map<(" +:+ join ", " ((fun i => "d" +:+ pretty i) <$> seq 0 (length im.2)) +:+ ")[s0] -> (s0 + "
    +:+ join " + " (imap (fun i s => pretty s +:+ "*d" +:+ pretty i) im.2) +:+ ")>".

Definition render (b : bundle) : list string :=
  (render_map <$> imap pair (affine_maps b)) ++ ["module {"] ++
  [tabs 1 +:+ "func.func @sdsc_bundle(" +:+ join ", " ((fun p => show p.1 +:+ ": " +:+ p.2) <$> params b) +:+ ") {"] ++
  concat (render_stmt 2 <$> statements b) ++ [tabs 2 +:+ "return"; tabs 1 +:+ "}"; "}"].
