(* ===== verification/BundleRun.v ===== *)
(** * Running a bundle

    An interpreter for the emitted function: statements bind names, loops run their body for
    every index, and every executed description is recorded with the values bound to its
    identifiers.  The declarations bind every symbol's name to the address the symbol
    stands for, and the body executes the operations in the order of the loops with
    addresses that advance with the loop indices. *)

From S2P Require Import Prelude PyDict SdscSymbols Bundle.

(** ** The machine *)

Definition env := ssa -> option Z.

Definition bind (x : ssa) (v : Z) (e : env) : env := fun y => if decide (y = x) then Some v else e y.
Arguments bind : simpl never.

Record event := mkEvent {
  ev_file : string;
  ev_ids : list Z;
  ev_values : list Z
}.

Section machine.
Context (maps : list (list Z)) (allocated : Z).

Definition apply_map (strides vars : list Z) (base : Z) : Z := base + zsum (zip_with Z.mul strides vars).

Fixpoint exec_stmt (s : stmt) (e : env) : option (env * list event) :=
  match s with
  | Extract x from _ => v ← e from; Some (bind x v e, [])
  | Allocate x _ => Some (bind x allocated e, [])
  | Constant x v => Some (bind x v e, [])
  | Addi x a b => v ← e a; w ← e b; Some (bind x (v + w) e, [])
  | For v b body =>
      lo ← e C0; n ← e b; step ← e C1;
      if decide (lo = 0 /\ step = 1) then
        ts ← mapM (fun i => snd <$> (fix exec_list (l : list stmt) (e : env) : option (env * list event) :=
                     match l with
                     | [] => Some (e, [])
                     | s :: l => r ← exec_stmt s e; r' ← exec_list l r.1; Some (r'.1, r.2 ++ r'.2)
                     end) body (bind v (Z.of_nat i) e)) (seq 0 (Z.to_nat n));
        Some (e, concat ts)
      else None
  | Apply x m vars b =>
      strides ← maps !! m; vs ← mapM e vars; base ← e b;
      if decide (length vs = length strides) then Some (bind x (apply_map strides vs base) e, []) else None
  | Execute ops file ids => vs ← mapM e ops; Some (e, [mkEvent file ids vs])
  end.

Fixpoint exec (l : list stmt) (e : env) : option (env * list event) :=
  match l with
  | [] => Some (e, [])
  | s :: l => r ← exec_stmt s e; r' ← exec l r.1; Some (r'.1, r.2 ++ r'.2)
  end.

Lemma exec_app l k e e' t : exec l e = Some (e', t) -> exec (l ++ k) e = (fun r => (r.1, t ++ r.2)) <$> exec k e'.
Proof.
  revert e t. induction l as [|s l IH]; intros e t H; cbn in *.
  - injection H as <- <-. destruct (exec k e) as [[? ?]|]; done.
  - destruct (exec_stmt s e) as [[e1 t1]|]; [|done]. cbn in *. destruct (exec l e1) as [[e2 t2]|] eqn:E; [|done]. injection H as <- <-. rewrite (IH _ _ E).
    destruct (exec k e2) as [[? ?]|]; [|done]. cbn. by rewrite app_assoc.
Qed.

Lemma exec_app_Some l k e e1 t1 e2 t2 : exec l e = Some (e1, t1) -> exec k e1 = Some (e2, t2) -> exec (l ++ k) e = Some (e2, t1 ++ t2).
Proof. intros H1 H2. by rewrite (exec_app _ _ _ _ _ H1), H2. Qed.

Lemma exec_For v b body e n : e C0 = Some 0 -> e C1 = Some 1 -> e b = Some n ->
  exec_stmt (For v b body) e = ts ← mapM (fun i => snd <$> exec body (bind v (Z.of_nat i) e)) (seq 0 (Z.to_nat n)); Some (e, concat ts).
Proof. intros H0 H1 Hb. cbn. rewrite H0, Hb, H1. cbn. rewrite decide_True by done. done. Qed.
End machine.

Lemma bind_same x v e : bind x v e x = Some v.
Proof. unfold bind. by rewrite decide_True. Qed.

Lemma bind_other x y v e : y <> x -> bind x v e y = e y.
Proof. intros H. unfold bind. by rewrite decide_False. Qed.

(** ** Canonical symbols *)

Lemma lookup_last {A} (l : list A) x i y : (l ++ [x]) !! i = Some y -> l !! i = Some y \/ i = length l /\ x = y.
Proof. intros [[_ H] | [-> H]]%lookup_snoc_Some; auto. Qed.

Section canonical_facts.
Context {K : Type} `{EqDecision K} (key : SymbolKind -> option K).

Record canonical_ok (kinds : list SymbolKind) (st : list (nat * K) * list (nat * nat)) : Prop := {
  ca_first : forall i k, (i, k) ∈ st.1 -> exists s, kinds !! i = Some s /\ key s = Some k;
  ca_dup : forall i c, (i, c) ∈ st.2 -> exists s k, kinds !! i = Some s /\ key s = Some k /\ (c, k) ∈ st.1;
  ca_all : forall i s k, kinds !! i = Some s -> key s = Some k -> i ∈ st.1.*1 \/ i ∈ st.2.*1;
  ca_once : NoDup st.1.*2 /\ NoDup st.1.*1 /\ NoDup st.2.*1
}.

Lemma canonical_spec kinds : canonical_ok kinds (canonical key kinds).
Proof.
  unfold canonical. induction kinds as [|s kinds IH] using rev_ind; [split; cbn; try (by intros ? ? ?%elem_of_nil); [by intros i s k | split_and!; constructor]|].
  rewrite imap_app, foldl_app. cbn. rewrite Nat.add_0_r. set (st := foldl _ _ (imap pair kinds)) in *. destruct IH as [A B C D].
  assert (forall i x, kinds !! i = Some x -> (kinds ++ [s]) !! i = Some x) as Hl by (intros; by apply lookup_app_l_Some).
  assert ((kinds ++ [s]) !! length kinds = Some s) as Hlast by (rewrite lookup_app_r by lia; by rewrite Nat.sub_diag).
  assert (forall i, i ∈ st.1.*1 \/ i ∈ st.2.*1 -> (i < length kinds)%nat) as Hlt.
  { intros i [([j k] & -> & H)%list_elem_of_fmap | ([j c] & -> & H)%list_elem_of_fmap]; [destruct (A _ _ H) as (x & Hx & _) | destruct (B _ _ H) as (x & k & Hx & _)]; by apply lookup_lt_Some in Hx. }
  destruct (key s) as [k|] eqn:Ek.
  2:{ split; [intros i k' H; destruct (A i k' H) as (x & ? & ?); eauto | intros i c H; destruct (B i c H) as (x & k' & ? & ? & ?); eauto 6 | | done].
      intros i x k' [Hi | [-> <-]]%lookup_last Hk; [by eapply C | congruence]. }
  destruct (list_find (fun c => c.2 = k) st.1) as [[p [c k']]|] eqn:Ef.
  - apply list_find_Some in Ef as (Hp & E & _). cbn in E. subst k'. apply list_elem_of_lookup_2 in Hp. split; cbn.
    + intros i k' H. destruct (A i k' H) as (x & ? & ?). eauto.
    + intros i c' [H | [= -> ->]%list_elem_of_singleton]%elem_of_app; [destruct (B i c' H) as (x & k' & ? & ? & ?); eauto 6 | eauto 6].
    + intros i x k' [Hi | [-> <-]]%lookup_last Hk; rewrite fmap_app, elem_of_app; cbn; [destruct (C i x k' Hi Hk); tauto | right; right; list_mem].
    + destruct D as (D1 & D2 & D3). split_and!; [done | done|]. rewrite fmap_app. apply NoDup_app. split_and!; [done | | apply NoDup_singleton].
      cbn. intros i Hi ->%list_elem_of_singleton. specialize (Hlt _ (or_intror Hi)). lia.
  - apply list_find_None in Ef. rewrite Forall_forall in Ef. split; cbn.
    + intros i k' [H | [= -> ->]%list_elem_of_singleton]%elem_of_app; [destruct (A i k' H) as (x & ? & ?); eauto | eauto].
    + intros i c' H. destruct (B i c' H) as (x & k' & ? & ? & ?). exists x, k'. rewrite elem_of_app. auto.
    + intros i x k' [Hi | [-> <-]]%lookup_last Hk; rewrite fmap_app, elem_of_app; cbn; [destruct (C i x k' Hi Hk); tauto | left; right; list_mem].
    + destruct D as (D1 & D2 & D3). rewrite !fmap_app. split_and!; [| | done]; apply NoDup_app; split_and!; try done; try apply NoDup_singleton; cbn.
      * intros k' ([i k''] & E & H)%list_elem_of_fmap E2%list_elem_of_singleton. apply (Ef _ H). cbn in *. congruence.
      * intros i Hi ->%list_elem_of_singleton. specialize (Hlt _ (or_introl Hi)). lia.
Qed.
End canonical_facts.

Lemma nget_Some {V} (l : list (nat * V)) i v : nget l i = Some v -> (i, v) ∈ l.
Proof.
  unfold nget. destruct (list_find _ l) as [[p [i' v']]|] eqn:E; [|done]. cbn. intros [= ->]. apply list_find_Some in E as (Hp & Ei & _). cbn in Ei. subst. by eapply list_elem_of_lookup_2.
Qed.

Lemma nget_None {V} (l : list (nat * V)) i : nget l i = None <-> i ∉ l.*1.
Proof.
  unfold nget. destruct (list_find _ l) as [[p [i' v']]|] eqn:E; cbn.
  - apply list_find_Some in E as (Hp & Ei & _). cbn in Ei. subst. split; [done|]. intros []. apply list_elem_of_lookup_2 in Hp. by apply (list_elem_of_fmap_2 fst) in Hp.
  - apply list_find_None in E. rewrite Forall_forall in E. split; [|done]. intros _ ([j v] & -> & H)%list_elem_of_fmap. by apply (E _ H).
Qed.

Lemma nget_app {V} (l k : list (nat * V)) i : nget (l ++ k) i = match nget l i with Some v => Some v | None => nget k i end.
Proof.
  induction l as [|[j v] l IH]; [done|]. unfold nget in *. cbn. destruct (decide (j = i)); [done|]. 
  destruct (list_find _ (l ++ k)) as [[? ?]|], (list_find _ l) as [[? ?]|], (list_find _ k) as [[? ?]|]; done.
Qed.

Lemma nget_NoDup {V} (l : list (nat * V)) i v : NoDup l.*1 -> (i, v) ∈ l -> nget l i = Some v.
Proof.
  intros Hnd Hin. destruct (nget l i) as [w|] eqn:E.
  - apply nget_Some in E. apply list_elem_of_lookup in Hin as [p Hp], E as [q Hq]. assert (p = q) as -> by (apply (NoDup_lookup l.*1 p q i Hnd); rewrite list_lookup_fmap; [by rewrite Hp | by rewrite Hq]).
    congruence.
  - apply nget_None in E. destruct E. by apply (list_elem_of_fmap_2 fst) in Hin.
Qed.

(** ** The declarations *)

Section declarations.
Context (rt : runtime) (kinds : list SymbolKind) (symbols : list Z).

(** Symbols as the descriptions register them, without dynamic sizes. *)
Record symbols_ok : Prop := {
  sy_length : length symbols = length kinds;
  sy_static : forall k, k ∈ kinds -> is_dimension k = false;
  sy_derived : forall j b o a, kinds !! j = Some (kernel_derived b o a) -> is_Some (base_address rt kinds b) /\ b < Z.of_nat j;
  sy_slice : forall a o, kernel_slice a o ∈ kinds -> kernel a ∈ kinds
}.

Context (Hsym : symbols_ok).

Lemma symbol_arg i : nget (kernel_sym_to_arg_idx kinds) i = match kinds !! i with Some (kernel a) => Some a | _ => None end.
Proof.
  destruct (canonical_spec kernel_arg kinds) as [A B C (D1 & D2 & D3)]. fold (kernel_args kinds) (kernel_dup_canonical kinds) in *.
  assert (forall s a, kernel_arg s = Some a -> s = kernel a) as Hk by (intros []; cbn; congruence).
  assert (forall a, (i, a) ∈ kernel_sym_to_arg_idx kinds -> kinds !! i = Some (kernel a)) as Hin.
  { intros a [H | ([d c] & H & E)%list_elem_of_omap]%elem_of_app.
    - destruct (A _ _ H) as (s & Hs & ->%Hk). done.
    - cbn in E. destruct (nget (kernel_args kinds) c) as [a'|] eqn:En; [|done]. injection E as -> ->. destruct (B _ _ H) as (s & a' & Hs & ->%Hk & Hc).
      assert (nget (kernel_args kinds) c = Some a') as En' by (by apply nget_NoDup). congruence. }
  destruct (nget (kernel_sym_to_arg_idx kinds) i) as [a|] eqn:E; [apply nget_Some, Hin in E; by rewrite E|].
  destruct (kinds !! i) as [[a| | | | |]|] eqn:Ei; try done. exfalso. apply nget_None in E. apply E. unfold kernel_sym_to_arg_idx. rewrite fmap_app, elem_of_app.
  destruct (C i (kernel a) a Ei eq_refl) as [H | ([d c] & -> & H)%list_elem_of_fmap]; [by left|]. right. destruct (B _ _ H) as (s & a' & Hs & Ha & Hc).
  apply list_elem_of_fmap. exists (d, a'). split; [done|]. apply list_elem_of_omap. exists (d, c). split; [done|]. cbn. by rewrite (nget_NoDup _ _ _ D2 Hc).
Qed.

(** The name of symbol [j]. *)
Definition symbol_name (canon : list (nat * ssa)) (j : nat) : ssa := _resolve_sym kinds canon (- (Z.of_nat j + 1)).

Lemma symbol_name_eq canon j : symbol_name canon j =
  match kinds !! j with Some (kernel a) => Arg a | _ => match nget canon j with Some x => x | None => Sym (S j) end end.
Proof.
  unfold symbol_name, _resolve_sym. replace (Z.to_nat (Z.abs (- (Z.of_nat j + 1)) - 1)) with j by lia. replace (Z.to_nat (Z.abs (- (Z.of_nat j + 1)))) with (S j) by lia.
  rewrite symbol_arg. destruct (kinds !! j) as [[a| | | | |]|]; try done; by destruct (nget canon j).
Qed.

(** Names the declarations do not bind. *)
Definition kept (x : ssa) : Prop :=
  match x with SliceOffset _ _ | Slice _ _ | CoreOffset _ _ | Core _ _ | PoolOffset _ | PoolAddr _ | Sym _ => False | _ => True end.

Definition is_base (x : ssa) : Prop := match x with Arg _ | Slice _ _ => True | _ => False end.

Definition declared (m : nat) (st : declaring) (x : ssa) : Prop :=
  match x with
  | SliceOffset a o | Slice a o => (a, o) ∈ slice_addi_emitted st
  | CoreOffset b o | Core b o => (b, o) ∈ derived_addi_emitted st
  | PoolOffset v | PoolAddr v => v ∈ pool_addi_emitted st
  | Sym n => (n <= m)%nat
  | _ => False
  end.

Definition grows (e e' : env) : Prop := forall x v, e x = Some v -> e' x = Some v.

Lemma grows_bind x v e : e x = None -> grows e (bind x v e).
Proof. intros H y w E. unfold bind. case_decide; [congruence | done]. Qed.

Lemma grows_trans e1 e2 e3 : grows e1 e2 -> grows e2 e3 -> grows e1 e3.
Proof. unfold grows. auto. Qed.

Context (maps : list (list Z)) (allocated : Z) (e1 : env).

(** The arguments and the pool are bound and nothing else is. *)
Record bound : Prop := {
  bo_arg : forall a, kernel a ∈ kinds -> e1 (Arg a) = Some (arg_base rt a);
  bo_pool : pool ∈ kinds -> e1 Pool = Some (pool_base rt);
  bo_free : forall x, ~ kept x -> e1 x = None
}.

Record dec_ok (m : nat) (st : declaring) (e : env) : Prop := {
  do_exec : exec maps allocated (d_stmts st) e1 = Some (e, []);
  do_kept : forall x, kept x -> e x = e1 x;
  do_only : forall x, ~ kept x -> is_Some (e x) -> declared m st x;
  do_slice : forall a o, (a, o) ∈ slice_addi_emitted st -> e (Slice a o) = Some (arg_base rt a + o);
  do_core : forall b o, (b, o) ∈ derived_addi_emitted st -> is_base b /\ exists v, e b = Some v /\ e (Core b o) = Some (v + o);
  do_poola : forall v, v ∈ pool_addi_emitted st -> e (PoolAddr v) = Some (pool_base rt + v);
  do_sym : forall j a, (j < m)%nat -> symbol_address rt symbols kinds j = Some a -> e (symbol_name (sym_canonical st) j) = Some a;
  do_base : forall j v, (j < m)%nat -> base_address rt kinds (Z.of_nat j) = Some v ->
    exists x, sliced_base kinds (sym_canonical st) (Z.of_nat j) = Some x /\ is_base x /\ e x = Some v;
  do_kernel : forall j a, kinds !! j = Some (kernel a) -> nget (sym_canonical st) j = None \/ nget (sym_canonical st) j = Some (Arg a);
  do_later : forall j, (m <= j)%nat -> (forall a, kinds !! j <> Some (kernel a)) -> nget (sym_canonical st) j = None
}.

Lemma nget_extra canon extra m j : (extra = [] \/ exists x : ssa, extra = [(m, x)]) -> j <> m -> nget (canon ++ extra) j = nget canon j.
Proof.
  intros H Hj. rewrite nget_app. destruct (nget canon j) eqn:E; [done|]. destruct H as [-> | [x ->]]; [done|]. apply nget_None. by intros ->%list_elem_of_singleton.
Qed.

Lemma dec_next m st e st' e' extra : dec_ok m st e -> exec maps allocated (d_stmts st') e1 = Some (e', []) -> grows e e' ->
  (forall x, kept x -> e' x = e1 x) -> (forall x, ~ kept x -> is_Some (e' x) -> declared (S m) st' x) ->
  sym_canonical st' = sym_canonical st ++ extra -> (extra = [] \/ (exists x, extra = [(m, x)]) /\ forall a, kinds !! m <> Some (kernel a)) ->
  (forall a o, (a, o) ∈ slice_addi_emitted st' -> (a, o) ∈ slice_addi_emitted st \/ e' (Slice a o) = Some (arg_base rt a + o)) ->
  (forall b o, (b, o) ∈ derived_addi_emitted st' -> (b, o) ∈ derived_addi_emitted st \/ is_base b /\ exists v, e' b = Some v /\ e' (Core b o) = Some (v + o)) ->
  (forall v, v ∈ pool_addi_emitted st' -> v ∈ pool_addi_emitted st \/ e' (PoolAddr v) = Some (pool_base rt + v)) ->
  (forall a, symbol_address rt symbols kinds m = Some a -> e' (symbol_name (sym_canonical st') m) = Some a) ->
  (forall v, base_address rt kinds (Z.of_nat m) = Some v -> exists x, sliced_base kinds (sym_canonical st') (Z.of_nat m) = Some x /\ is_base x /\ e' x = Some v) ->
  dec_ok (S m) st' e'.
Proof.
  intros [D1 D2 D3 D4 D5 D6 D7 D8 D9 D10] He Hg Hk Ho Hc Hx Hs Hd Hp Hsm Hbm.
  assert (extra = [] \/ exists x, extra = [(m, x)]) as Hx' by tauto. split; [done | done | done | | | | | | |].
  - intros a o H. destruct (Hs a o H) as [H' | H']; [by apply Hg, D4 | done].
  - intros b o H. destruct (Hd b o H) as [H' | H']; [|done]. destruct (D5 b o H') as (? & v & ? & ?). split; [done|]. exists v. auto.
  - intros v H. destruct (Hp v H) as [H' | H']; [by apply Hg, D6 | done].
  - intros j a Hj Ha. destruct (decide (j = m)) as [-> | Hne]; [by apply Hsm|]. rewrite symbol_name_eq, Hc, (nget_extra _ _ m) by done. rewrite <- symbol_name_eq. apply Hg, D7; [lia | done].
  - intros j v Hj Hv. destruct (decide (j = m)) as [-> | Hne]; [by apply Hbm|]. destruct (D8 j v) as (x & H1 & H2 & H3); [lia | done|]. exists x. split_and!; [|done | by apply Hg].
    unfold sliced_base in *. rewrite Hc, Nat2Z.id, (nget_extra _ _ m) by done. by rewrite Nat2Z.id in H1.
  - intros j a Ha. destruct (decide (j = m)) as [-> | Hne]; [|rewrite Hc, (nget_extra _ _ m) by done; by apply D9].
    destruct Hx as [-> | [_ Hx]]; [rewrite Hc, app_nil_r; by apply D9 | by destruct (Hx a)].
  - intros j Hj Ha. rewrite Hc, (nget_extra _ _ m) by (done || lia). apply D10; [lia | done].
Qed.

(** Two statements that bind fresh names. *)
Lemma exec_addi (l : list stmt) e x y b v w : exec maps allocated l e1 = Some (e, []) -> e b = Some w -> b <> x ->
  exec maps allocated (l ++ [Constant x v; Addi y b x]) e1 = Some (bind y (w + v) (bind x v e), []).
Proof.
  intros H Hb Hx. rewrite (exec_app _ _ _ _ _ _ _ H). cbn. rewrite (bind_other x b) by done. rewrite Hb. cbn. by rewrite bind_same.
Qed.

Lemma bind_two e x y v w z u : bind y w (bind x v e) z = Some u -> z = y \/ z = x \/ e z = Some u.
Proof. unfold bind. repeat case_decide; auto. Qed.

Lemma core_not_base b o : is_base b -> b <> CoreOffset b o /\ b <> Core b o.
Proof. by destruct b. Qed.

Context (Hbound : bound).

Section step.
Context (m : nat) (st : declaring) (e : env) (v : Z) (Hd : dec_ok m st e) (Hv : symbols !! m = Some v).

Lemma kernel_place k : kinds !! m = Some k -> (bool_decide (m ∈ (kernel_args kinds).*1) || bool_decide (m ∈ (kernel_dup_canonical kinds).*1)) = bool_decide (is_Some (kernel_arg k)).
Proof.
  intros Hk. destruct (canonical_spec kernel_arg kinds) as [A B C _]. fold (kernel_args kinds) (kernel_dup_canonical kinds) in *. destruct (decide (is_Some (kernel_arg k))) as [H3 | H3].
  - rewrite (bool_decide_eq_true_2 (is_Some (kernel_arg k))) by done. destruct H3 as [a Ha]. apply orb_true_iff. rewrite !bool_decide_eq_true. by apply (C m k a).
  - rewrite (bool_decide_eq_false_2 (is_Some (kernel_arg k))) by done. apply orb_false_iff. rewrite !bool_decide_eq_false. split.
    + intros ([i a] & E & H)%list_elem_of_fmap. destruct (A _ _ H) as (s & Hs & Ha). cbn in E. subst i. apply H3. exists a. congruence.
    + intros ([i c] & E & H)%list_elem_of_fmap. destruct (B _ _ H) as (s & a & Hs & Ha & _). cbn in E. subst i. apply H3. exists a. congruence.
Qed.

Lemma not_kernel k : kinds !! m = Some k -> kernel_arg k = None -> (bool_decide (m ∈ (kernel_args kinds).*1) || bool_decide (m ∈ (kernel_dup_canonical kinds).*1)) = false.
Proof. intros Hk Ha. rewrite (kernel_place k Hk). apply bool_decide_eq_false. rewrite Ha. by intros []. Qed.

Lemma kernel_base a : kinds !! m = Some (kernel a) -> sliced_base kinds (sym_canonical st) (Z.of_nat m) = Some (Arg a).
Proof.
  intros Ha. unfold sliced_base. destruct (Z.ltb_spec (Z.of_nat m) 0); [lia|]. rewrite Nat2Z.id. destruct (do_kernel _ _ _ Hd m a Ha) as [-> | ->]; [|done].
  destruct (canonical_spec kernel_arg kinds) as [A B C (Q1 & Q2 & Q3)]. fold (kernel_args kinds) (kernel_dup_canonical kinds) in *.
  destruct (nget (kernel_args kinds) m) as [a'|] eqn:E1.
  - apply nget_Some in E1. destruct (A _ _ E1) as (s & Hs & Hk). rewrite Ha in Hs. injection Hs as <-. cbn in Hk. congruence.
  - destruct (nget (kernel_dup_canonical kinds) m) as [c|] eqn:E2.
    + apply nget_Some in E2. destruct (B _ _ E2) as (s & a' & Hs & Ha' & Hc). rewrite Ha in Hs. injection Hs as <-. cbn in Ha'. injection Ha' as <-.
      destruct (A _ _ Hc) as (s' & Hs' & Hk'). rewrite symbol_arg, Hs'. destruct s'; cbn in Hk' |- *; congruence.
    + apply nget_None in E1, E2. destruct (C m _ a Ha eq_refl); done.
Qed.

Lemma next_declared x : declared m st x -> declared (S m) st x.
Proof. destruct x; cbn; try done. lia. Qed.

Lemma step_kernel a st' : kinds !! m = Some (kernel a) -> declare kinds (m, v) st = Ok st' -> exists e', dec_ok (S m) st' e'.
Proof.
  intros Ek Hdec. cbn [declare] in Hdec. rewrite (kernel_place _ Ek), bool_decide_eq_true_2 in Hdec by (by eexists). injection Hdec as <-.
  exists e. pose proof Hd as [D1 D2 D3 D4 D5 D6 D7 D8 D9 D10]. apply list_elem_of_lookup_2 in Ek as Hin.
  apply (dec_next m st e st e []); [done | done | by intros ? ? | done | intros x Hx Hs; by apply next_declared, D3 | by rewrite app_nil_r | by left | auto | auto | auto | |].
  - intros b Hb. rewrite symbol_name_eq, Ek, D2, (bo_arg Hbound) by done. unfold symbol_address in Hb. by rewrite Ek in Hb.
  - intros b Hb. exists (Arg a). split_and!; [by apply kernel_base | done|]. rewrite D2, (bo_arg Hbound) by done. unfold base_address in Hb. rewrite Nat2Z.id, Ek in Hb.
    destruct (Z.ltb_spec (Z.of_nat m) 0); [done | congruence].
Qed.

Lemma new_symbol k x st' : kinds !! m = Some k -> kernel_arg k = None -> sym_canonical st' = sym_canonical st ++ [(m, x)] ->
  nget (sym_canonical st') m = Some x /\ symbol_name (sym_canonical st') m = x /\ sliced_base kinds (sym_canonical st') (Z.of_nat m) = Some x.
Proof.
  intros Ek Hk E. assert (nget (sym_canonical st') m = Some x) as Hx.
  { rewrite E, nget_app, (do_later _ _ _ Hd m) by (lia || (intros a Ha; rewrite Ek in Ha; injection Ha as ->; done)). unfold nget. cbn. by rewrite decide_True. }
  split_and!; [done | |].
  - rewrite symbol_name_eq, Ek, Hx. by destruct k.
  - unfold sliced_base. destruct (Z.ltb_spec (Z.of_nat m) 0); [lia|]. by rewrite Nat2Z.id, Hx.
Qed.

(** What the statements of one symbol give. *)
Definition stepped (st' : declaring) (y : ssa) (w : Z) : Prop := exists e', exec maps allocated (d_stmts st') e1 = Some (e', []) /\ grows e e' /\
  (forall x, kept x -> e' x = e1 x) /\ (forall x, ~ kept x -> is_Some (e' x) -> declared (S m) st' x) /\ e' y = Some w.

Lemma step_seen st' y w : d_stmts st' = d_stmts st ++ [] -> (forall z, declared (S m) st z -> declared (S m) st' z) -> e y = Some w -> stepped st' y w.
Proof.
  intros E Hd' Hy. destruct Hd as [D1 D2 D3 _ _ _ _ _ _ _]. exists e. rewrite E, app_nil_r. split_and!; [done | by intros ? ? | done | | done].
  intros x Hx Hs. by apply Hd', next_declared, D3.
Qed.

Lemma step_fresh st' x y b u w : d_stmts st' = d_stmts st ++ [Constant x u; Addi y b x] -> ~ kept x -> ~ kept y -> ~ declared m st x -> ~ declared m st y ->
  y <> x -> b <> x -> (forall z, z = x \/ z = y \/ declared (S m) st z -> declared (S m) st' z) -> e b = Some w -> stepped st' y (w + u).
Proof.
  intros E Hx Hy Nx Ny Hxy Hbx Hd' Hb. destruct Hd as [D1 D2 D3 _ _ _ _ _ _ _]. exists (bind y (w + u) (bind x u e)).
  assert (e x = None /\ e y = None) as [Q1 Q2] by (split; apply eq_None_not_Some; intros Hs; [by apply Nx, D3 | by apply Ny, D3]).
  split_and!; [rewrite E; by apply exec_addi | | | | apply bind_same].
  - apply (grows_trans _ (bind x u e)); [by apply grows_bind|]. apply grows_bind. by rewrite bind_other.
  - intros z Hz. rewrite !bind_other; [by apply D2 | by intros -> | by intros ->].
  - intros z Hz [k Hk]. apply Hd'. apply bind_two in Hk as [-> | [-> | Hk]]; [auto | auto|]. right. right. apply next_declared, D3; [done | by eexists].
Qed.

Lemma step_slice a o st' : kinds !! m = Some (kernel_slice a o) -> declare kinds (m, v) st = Ok st' -> exists e', dec_ok (S m) st' e'.
Proof.
  intros Ek Hdec. cbn [declare] in Hdec. rewrite (not_kernel _ Ek eq_refl), Ek in Hdec. injection Hdec as Est. apply list_elem_of_lookup_2 in Ek as Hin.
  destruct (new_symbol _ (Slice a o) st' Ek eq_refl) as (N1 & N2 & N3); [by rewrite <- Est|].
  assert (stepped st' (Slice a o) (arg_base rt a + o)) as (e' & F1 & F2 & F3 & F4 & F5).
  { destruct (decide ((a, o) ∈ slice_addi_emitted st)) as [Hs | Hs].
    - rewrite !(bool_decide_eq_true_2 _ Hs) in Est. apply step_seen; [by rewrite <- Est | by rewrite <- Est | by apply (do_slice _ _ _ Hd)].
    - rewrite !(bool_decide_eq_false_2 _ Hs) in Est. apply (step_fresh st' (SliceOffset a o) _ (Arg a)); rewrite <- ?Est; try done; [tauto | tauto | |].
      + intros z [-> | [-> | Hz]]; cbn; [rewrite elem_of_app; right; list_mem | rewrite elem_of_app; right; list_mem | destruct z; cbn in *; rewrite ?elem_of_app; auto].
      + rewrite (do_kept _ _ _ Hd), (bo_arg Hbound); [done | by apply (sy_slice Hsym _ o) | done]. }
  exists e'. apply (dec_next m st e st' e' [(m, Slice a o)]); [done | done | done | done | done | by rewrite <- Est | right; split; [by eexists | by rewrite Ek] | | | | |].
  - rewrite <- Est. cbn. intros a' o'. case_bool_decide; [by left|]. rewrite elem_of_app. intros [? | [= -> ->]%list_elem_of_singleton]; [by left | by right].
  - rewrite <- Est. by left.
  - rewrite <- Est. by left.
  - intros w Hw. rewrite N2, F5. unfold symbol_address in Hw. by rewrite Ek in Hw.
  - intros w Hw. exists (Slice a o). split_and!; [done | done|]. rewrite F5. unfold base_address in Hw. rewrite Nat2Z.id, Ek in Hw. destruct (Z.ltb_spec (Z.of_nat m) 0); [done | congruence].
Qed.

Lemma step_derived b o a st' : kinds !! m = Some (kernel_derived b o a) -> declare kinds (m, v) st = Ok st' -> exists e', dec_ok (S m) st' e'.
Proof.
  intros Ek Hdec. cbn [declare] in Hdec. rewrite (not_kernel _ Ek eq_refl), Ek in Hdec.
  destruct (sy_derived Hsym m b o a Ek) as [[w Hw] Hlt]. destruct (base_address_lt _ _ _ _ Hw) as [Hpos _].
  destruct (do_base _ _ _ Hd (Z.to_nat b) w) as (base & Hb & Hib & Heb); [lia | by rewrite Z2Nat.id|]. rewrite Z2Nat.id in Hb by done. rewrite Hb in Hdec. injection Hdec as Est.
  destruct (new_symbol _ (Core base o) st' Ek eq_refl) as (N1 & N2 & N3); [by rewrite <- Est|].
  assert (stepped st' (Core base o) (w + o)) as (e' & F1 & F2 & F3 & F4 & F5).
  { destruct (decide ((base, o) ∈ derived_addi_emitted st)) as [Hs | Hs].
    - rewrite !(bool_decide_eq_true_2 _ Hs) in Est. apply step_seen; [by rewrite <- Est | by rewrite <- Est |]. destruct (do_core _ _ _ Hd base o Hs) as (_ & w' & H1 & H2). congruence.
    - rewrite !(bool_decide_eq_false_2 _ Hs) in Est. apply (step_fresh st' (CoreOffset base o) _ base); rewrite <- ?Est; try done; [tauto | tauto | by apply core_not_base |].
      intros z [-> | [-> | Hz]]; cbn; [rewrite elem_of_app; right; list_mem | rewrite elem_of_app; right; list_mem | destruct z; cbn in *; rewrite ?elem_of_app; auto]. }
  exists e'. apply (dec_next m st e st' e' [(m, Core base o)]); [done | done | done | done | done | by rewrite <- Est | right; split; [by eexists | by rewrite Ek] | | | | |].
  - rewrite <- Est. by left.
  - rewrite <- Est. cbn. intros b' o'. case_bool_decide; [by left|]. rewrite elem_of_app. intros [? | [= -> ->]%list_elem_of_singleton]; [by left | right]. split; [done|]. exists w. auto.
  - rewrite <- Est. by left.
  - intros x Hx. rewrite N2, F5. unfold symbol_address in Hx. rewrite Ek, Hw in Hx. cbn in Hx. congruence.
  - intros x Hx. unfold base_address in Hx. rewrite Nat2Z.id, Ek in Hx. destruct (Z.ltb_spec (Z.of_nat m) 0); done.
Qed.

Lemma step_pool st' : kinds !! m = Some pool -> declare kinds (m, v) st = Ok st' -> exists e', dec_ok (S m) st' e'.
Proof.
  intros Ek Hdec. cbn [declare] in Hdec. rewrite (not_kernel _ Ek eq_refl), Ek in Hdec. injection Hdec as Est. apply list_elem_of_lookup_2 in Ek as Hin.
  destruct (new_symbol _ (PoolAddr v) st' Ek eq_refl) as (N1 & N2 & N3); [by rewrite <- Est|].
  assert (stepped st' (PoolAddr v) (pool_base rt + v)) as (e' & F1 & F2 & F3 & F4 & F5).
  { destruct (decide (v ∈ pool_addi_emitted st)) as [Hs | Hs].
    - rewrite !(bool_decide_eq_true_2 _ Hs) in Est. apply step_seen; [by rewrite <- Est | by rewrite <- Est | by apply (do_poola _ _ _ Hd)].
    - rewrite !(bool_decide_eq_false_2 _ Hs) in Est. apply (step_fresh st' (PoolOffset v) _ Pool); rewrite <- ?Est; try done; [tauto | tauto | |].
      + intros z [-> | [-> | Hz]]; cbn; [rewrite elem_of_app; right; list_mem | rewrite elem_of_app; right; list_mem | destruct z; cbn in *; rewrite ?elem_of_app; auto].
      + by rewrite (do_kept _ _ _ Hd), (bo_pool Hbound). }
  exists e'. apply (dec_next m st e st' e' [(m, PoolAddr v)]); [done | done | done | done | done | by rewrite <- Est | right; split; [by eexists | by rewrite Ek] | | | | |].
  - rewrite <- Est. by left.
  - rewrite <- Est. by left.
  - rewrite <- Est. cbn. intros v'. case_bool_decide; [by left|]. rewrite elem_of_app. intros [? | ->%list_elem_of_singleton]; [by left | by right].
  - intros x Hx. rewrite N2, F5. unfold symbol_address in Hx. rewrite Ek, Hv in Hx. by cbn in Hx.
  - intros x Hx. unfold base_address in Hx. rewrite Nat2Z.id, Ek in Hx. destruct (Z.ltb_spec (Z.of_nat m) 0); done.
Qed.

Lemma step_symbolic a c n b s st' : kinds !! m = Some (kernel_derived_symbolic a c n b s) -> declare kinds (m, v) st = Ok st' -> exists e', dec_ok (S m) st' e'.
Proof.
  intros Ek Hdec. cbn [declare] in Hdec. rewrite (not_kernel _ Ek eq_refl), Ek in Hdec. injection Hdec as <-. pose proof Hd as [D1 D2 D3 D4 D5 D6 D7 D8 D9 D10].
  assert (e (Sym (S m)) = None) as Q by (apply eq_None_not_Some; intros Hs; pose proof (D3 (Sym (S m)) ltac:(cbn; tauto) Hs) as H; cbn in H; lia).
  exists (bind (Sym (S m)) v e). apply (dec_next m st e _ _ []); [done | | by apply grows_bind | | | by rewrite app_nil_r | by left | auto | auto | auto | |].
  - cbn. rewrite (exec_app _ _ _ _ _ _ _ D1). done.
  - intros x Hx. rewrite bind_other; [by apply D2 | by intros ->].
  - intros x Hx Hs. destruct (decide (x = Sym (S m))) as [-> | Hne]; [cbn; lia|]. rewrite bind_other in Hs by done. by apply (next_declared x), D3.
  - intros x Hx. cbn. rewrite symbol_name_eq, Ek, (D10 m) by (lia || by rewrite Ek). rewrite bind_same. unfold symbol_address in Hx. rewrite Ek in Hx. congruence.
  - intros x Hx. unfold base_address in Hx. rewrite Nat2Z.id, Ek in Hx. destruct (Z.ltb_spec (Z.of_nat m) 0); done.
Qed.

Lemma dec_step st' : (m < length kinds)%nat -> declare kinds (m, v) st = Ok st' -> exists e', dec_ok (S m) st' e'.
Proof.
  intros Hm. destruct (kinds !! m) as [[a|a o|b o a|a c n b s| |g x s]|] eqn:Ek; [by eapply step_kernel | by eapply step_slice | by eapply step_derived | by eapply step_symbolic | by eapply step_pool | |].
  - apply list_elem_of_lookup_2, (sy_static Hsym) in Ek. done.
  - apply lookup_ge_None in Ek. lia.
Qed.
End step.

Lemma no_dimensions : dimension_syms kinds = [] /\ dimension_dup_canonical kinds = [].
Proof.
  destruct (canonical_spec dimension_sym kinds) as [A B _ _]. unfold dimension_syms, dimension_dup_canonical.
  assert (forall i s k, kinds !! i = Some s -> dimension_sym s = Some k -> False) as H by (intros i s k Hs%list_elem_of_lookup_2%(sy_static Hsym); by destruct s).
  destruct (canonical dimension_sym kinds) as [[|[i k] l1] l2]; cbn in *.
  - split; [done|]. destruct l2 as [|[i c] l2]; [done|]. destruct (B i c) as (s & k & Hs & Hk & _); [list_mem|]. by destruct (H i s k).
  - destruct (A i k) as (s & Hs & Hk); [list_mem|]. by destruct (H i s k).
Qed.

Lemma initial_ok entries canon : initial_canonical kinds entries = Ok canon -> dec_ok 0 (mkDeclaring [] canon [] [] []) e1.
Proof.
  unfold initial_canonical. destruct no_dimensions as [-> ->]. cbn [py_map mbind res_bind]. intros [= <-]. rewrite app_nil_r.
  split; cbn [d_stmts sym_canonical slice_addi_emitted derived_addi_emitted pool_addi_emitted]; [done | done | | by intros ? ? ?%elem_of_nil | by intros ? ? ?%elem_of_nil | by intros ? ?%elem_of_nil | lia | lia | |].
  - intros x Hx [w Hw]. by rewrite (bo_free Hbound x Hx) in Hw.
  - intros j a Hj. destruct (nget _ j) as [x|] eqn:E; [right | by left]. apply nget_Some, list_elem_of_omap in E as ([d c] & _ & E). cbn in E. rewrite symbol_arg in E.
    destruct (kinds !! d) as [[a'| | | | |]|] eqn:Ed; try done. injection E as -> <-. congruence.
  - intros j _ Hj. apply nget_None. intros ([d x] & -> & ([d' c] & _ & E)%list_elem_of_omap)%list_elem_of_fmap. cbn in E. rewrite symbol_arg in E.
    destruct (kinds !! d') as [[a'| | | | |]|] eqn:Ed; try done. injection E as -> <-. by destruct (Hj a').
Qed.

(** After the declarations every symbol's name holds its address. *)
Lemma declarations_bind entries canon d : initial_canonical kinds entries = Ok canon ->
  for_each (declare kinds) (imap pair symbols) (mkDeclaring [] canon [] [] []) = Ok d ->
  exists e, exec maps allocated (d_stmts d) e1 = Some (e, []) /\ (forall x, kept x -> e x = e1 x) /\
    forall j a, symbol_address rt symbols kinds j = Some a -> e (symbol_name (sym_canonical d) j) = Some a.
Proof.
  intros Hc Hd. assert (exists e, dec_ok (length (imap pair symbols)) d e) as (e & He).
  { revert Hd. refine (for_each_ind _ (fun done st => exists e, dec_ok (length done) st e) _ _ _ _ (ex_intro _ _ (initial_ok _ _ Hc))).
    intros done [m v] rest s1 s2 E (e & He) H. assert (imap pair symbols !! length done = Some (m, v)) as Hl by (rewrite E, lookup_app_r, Nat.sub_diag by lia; done).
    rewrite list_lookup_imap in Hl. destruct (symbols !! length done) as [v'|] eqn:Ev; [|done]. injection Hl as <- <-. rewrite length_app, Nat.add_1_r.
    eapply dec_step; [done | done | | done]. apply lookup_lt_Some in Ev. by rewrite <- (sy_length Hsym). }
  rewrite length_imap in He. exists e. split_and!; [apply (do_exec _ _ _ He) | apply (do_kept _ _ _ He)|].
  intros j a Ha. apply (do_sym _ _ _ He); [|done]. rewrite (sy_length Hsym). unfold symbol_address in Ha. destruct (kinds !! j) eqn:Ek; [by apply lookup_lt_Some in Ek | done].
Qed.
End declarations.
