(* ===== verification/BundleBody.v ===== *)
(** * The body of a bundle

    The operations are executed in the order of the loops; the value for an identifier is
    the address of its symbol plus, for a tiled tensor, its strides times the indices of the
    loops around it. *)

From S2P Require Import Prelude PyDict SdscSymbols Bundle BundleRun.

Lemma spec_entry_rect' (P : spec_entry -> Prop) :
  (forall c body, Forall P body -> P (LoopSpec c body)) -> (forall o, P (OpSpec o)) -> P UnimplementedOp -> forall e, P e.
Proof.
  intros H1 H2 H3. refine (fix go e := match e with LoopSpec c body => H1 c body _ | OpSpec o => H2 o | UnimplementedOp => H3 end).
  induction body as [|e0 body IH]; constructor; [apply go | apply IH].
Qed.

Lemma elem_of_concat {A} (x : A) ls : x ∈ concat ls <-> exists l, x ∈ l /\ l ∈ ls.
Proof. rewrite <- list_elem_of_join. induction ls as [|l ls IH]; [done|]. cbn. by rewrite !elem_of_app, IH. Qed.

Lemma mapM_good {A B} (f : A -> option B) (R : A -> B -> Prop) l : Forall (fun x => exists y, f x = Some y /\ R x y) l ->
  exists ys, mapM f l = Some ys /\ Forall2 R l ys.
Proof.
  intros (ys & H)%Forall_exists_Forall2_l. exists ys. rewrite mapM_Some. split; (eapply Forall2_impl; [exact H|]); by intros x y [].
Qed.

Lemma mapM_fmap {A B C} (f : B -> option C) (g : A -> B) l : mapM f (g <$> l) = mapM (fun x => f (g x)) l.
Proof. induction l as [|x l IH]; [done|]. cbn. by rewrite IH. Qed.

(** ** The order of execution *)

(** The operations of an entry. *)
Fixpoint entry_ops (e : spec_entry) : list op_spec :=
  match e with
  | LoopSpec _ body => concat (entry_ops <$> body)
  | OpSpec op => [op]
  | UnimplementedOp => []
  end.

Definition all_ops (specs : list spec_entry) : list op_spec := concat (entry_ops <$> specs).

(** Every execution: the number of the operation and the loop indices, outermost first. *)
Fixpoint entry_schedule (k : nat) (ivs : list Z) (e : spec_entry) : list (nat * list Z) :=
  match e with
  | LoopSpec count body =>
      concat ((fun i => (fix go (k : nat) (l : list spec_entry) : list (nat * list Z) :=
        match l with [] => [] | e :: l => entry_schedule k (ivs ++ [Z.of_nat i]) e ++ go (k + length (entry_ops e))%nat l end) k body)
        <$> seq 0 (Z.to_nat (default 0 count)))
  | OpSpec _ => [(k, ivs)]
  | UnimplementedOp => []
  end.

Fixpoint schedule (k : nat) (ivs : list Z) (l : list spec_entry) : list (nat * list Z) :=
  match l with [] => [] | e :: l => entry_schedule k ivs e ++ schedule (k + length (entry_ops e)) ivs l end.

(** ** Strides and loop indices *)

Definition all_terms (per_level : list (dict Z)) : list (Z * nat) := concat (imap (fun l d => (fun s => (s, l)) <$> dvalues d) per_level).

(** How far a tensor is advanced. *)
Definition tensor_advance (ivs : list Z) (per_level : list (dict Z)) : Z :=
  zsum ((fun sl => sl.1 * default 0 (ivs !! sl.2)) <$> all_terms per_level).

Lemma flat_terms per_level : (all_terms per_level).*1 = flat_strides per_level.
Proof.
  unfold all_terms, flat_strides. assert (forall n, (concat (imap (fun l d => (fun s : Z => (s, (n + l)%nat)) <$> dvalues d) per_level)).*1 = concat (dvalues <$> per_level)) as H; [|apply (H 0%nat)].
  induction per_level as [|d l IH]; intros n; [done|]. cbn. rewrite fmap_app, <- list_fmap_compose. cbn. rewrite list_fmap_id. f_equal.
  rewrite <- (IH (S n)). f_equal. f_equal. apply imap_ext. intros i x _. cbn. apply list_fmap_ext. intros j y _. f_equal. lia.
Qed.

Lemma stride_terms_Ok depth per_level ts : stride_terms (seq 0 depth) per_level = Ok ts ->
  ts = all_terms per_level /\ forall s l, (s, l) ∈ ts -> (l < depth)%nat.
Proof.
  unfold stride_terms. intros (tss & H & [= <-])%bind_Ok. apply py_map_Ok in H.
  assert (Forall2 (fun il t => t = (fun s => (s, il.1)) <$> dvalues il.2 /\ (t <> [] -> (il.1 < depth)%nat)) (imap pair per_level) tss) as H'.
  { eapply Forall2_impl; [exact H|]. intros [l d] t. cbn. case_bool_decide as E; [intros [= <-]; by subst|].
    destruct (seq 0 depth !! l) as [lv|] eqn:El; [|done]. apply lookup_seq in El as [-> El]. intros [= <-]. split; [done | done]. }
  assert (tss = imap (fun l d => (fun s => (s, l)) <$> dvalues d) per_level) as ->.
  { clear H. revert tss H'. assert (forall n tss, Forall2 (fun il t => t = (fun s => (s, il.1)) <$> dvalues il.2 /\ (t <> [] -> (il.1 < depth)%nat)) (imap (fun l d => ((n + l)%nat, d)) per_level) tss ->
      tss = imap (fun l d => (fun s : Z => (s, (n + l)%nat)) <$> dvalues d) per_level) as Hg; [|intros tss; apply (Hg 0%nat)].
    induction per_level as [|d pl IH]; intros n tss H; cbn in *; [by apply Forall2_nil_inv_l in H|].
    apply Forall2_cons_inv_l in H as (t & ts & [Ht _] & Hts & ->). cbn in Ht. f_equal; [done|].
    rewrite (IH (S n) ts).
    - apply imap_ext. intros i x _. cbn. apply list_fmap_ext. intros j y _. f_equal. lia.
    - erewrite imap_ext; [exact Hts|]. intros i x _. cbn. f_equal. lia. }
  split; [done|]. intros s l Hin. apply elem_of_concat in Hin as (t & Hin & [i Hi]%list_elem_of_lookup).
  destruct (Forall2_lookup_r _ _ _ _ _ H' Hi) as ([l' d] & Hl' & -> & Hlt). apply list_elem_of_fmap in Hin as (x & [= -> ->] & Hx). cbn in Hlt. apply Hlt.
  destruct d as [|kv d]; [by apply elem_of_nil in Hx | done].
Qed.

(** ** One operation *)

Section body.
Context (rt : runtime) (kinds : list SymbolKind) (symbols : list Z) (canon : list (nat * ssa)) (maps : list (list Z)) (allocated : Z).
Context (entries : list compiled_entry) (lvs : list (list (list nat))) (bounds : list (option Z)).

#[local] Notation address sid := (symbol_address rt symbols kinds (Z.to_nat (Z.abs sid - 1))).
#[local] Notation located sid := (sid < 0 /\ is_Some (address sid)).
#[local] Notation resolve := (_resolve_sym kinds canon).

(** The identifiers of an entry stand for addresses, and tensors that share one advance alike. *)
Record entry_ok (c : compiled_entry) : Prop := {
  eo_ids : forall sid, sid ∈ _extract_symbol_ids (c_json c) -> located sid;
  eo_cores : forall i core sid, _get_tensor_core_sym_id (c_json c) i core = Some sid -> located sid;
  eo_alike : forall i j core core' sid di dj ivs, _get_tensor_core_sym_id (c_json c) i core = Some sid -> _get_tensor_core_sym_id (c_json c) j core' = Some sid ->
    c_strides c !! i = Some di -> c_strides c !! j = Some dj -> tensor_advance ivs di = tensor_advance ivs dj
}.

(** What was collected for an entry inside [depth] loops. *)
Definition collected (depth : nat) (c : compiled_entry) (per_tensor : list (list nat)) : Prop :=
  forall i d, c_strides c !! i = Some d -> (forall s l, (s, l) ∈ all_terms d -> (l < depth)%nat) /\ per_tensor !! i = Some (all_terms d).*2 /\
    (flat_strides d <> [] -> flat_strides d ∈ maps).

(** Names the body does not bind. *)
Definition outer (x : ssa) : Prop := match x with LoopVar _ | Addr _ => False | _ => True end.

Record body_env (loop_vars : list ssa) (ivs : list Z) (next : nat) (e : env) : Prop := {
  be_vars : Forall2 (fun x i => e x = Some i /\ exists k, x = LoopVar k /\ (k < next)%nat) loop_vars ivs;
  be_step : bounds <> [] -> e C0 = Some 0 /\ e C1 = Some 1;
  be_bounds : forall k n, bounds !! k = Some (Some n) -> e (LoopBound k) = Some n;
  be_symbols : forall sid, located sid -> e (resolve sid) = address sid;
  be_outer : forall sid, located sid -> outer (resolve sid)
}.

Lemma body_env_change loop_vars ivs next next' e e' : body_env loop_vars ivs next e -> (next <= next')%nat ->
  (forall x, match x with Addr _ => False | _ => True end -> e' x = e x) -> body_env loop_vars ivs next' e'.
Proof.
  intros [B1 B2 B3 B4 B5] Hn H. split.
  - eapply Forall2_impl; [exact B1|]. intros x i (E & k & -> & Hk). split; [by rewrite H | exists k; split; [done | lia]].
  - intros Hb. rewrite !H by done. by apply B2.
  - intros k n Hk. rewrite H by done. by apply B3.
  - intros sid Hs. rewrite H; [by apply B4|]. specialize (B5 sid Hs). by destruct (resolve sid).
  - done.
Qed.

Section op.
Context (c : compiled_entry) (Hc : entry_ok c) (per_tensor : list (list nat)) (loop_vars : list ssa) (ivs : list Z) (next : nat) (e : env).
Context (Hcol : collected (length loop_vars) c per_tensor) (He : body_env loop_vars ivs next e) (addr0 : nat).

Record upgraded (cores : nat -> nat -> Prop) (u : upgrading) (eu : env) : Prop := {
  ug_exec : exec maps allocated (up_stmts u) e = Some (eu, []);
  ug_outer : forall x, match x with Addr _ => False | _ => True end -> eu x = e x;
  ug_names : forall sid x, (sid, x) ∈ sym_id_to_operand u -> exists n, x = Addr n /\ (n < up_addr u)%nat;
  ug_value : forall sid x, (sid, x) ∈ sym_id_to_operand u -> exists base i core d, address sid = Some base /\
    _get_tensor_core_sym_id (c_json c) i core = Some sid /\ c_strides c !! i = Some d /\ eu x = Some (base + tensor_advance ivs d);
  ug_done : forall i core sid, cores i core -> _get_tensor_core_sym_id (c_json c) i core = Some sid -> sid ∈ (sym_id_to_operand u).*1
}.

Lemma apply_advance d vars : py_map (py_at loop_vars) (all_terms d).*2 = Ok vars ->
  exists vs, mapM e vars = Some vs /\ length vs = length (flat_strides d) /\ zsum (zip_with Z.mul (flat_strides d) vs) = tensor_advance ivs d.
Proof.
  intros H. apply py_map_Ok in H. exists ((fun l => default 0 (ivs !! l)) <$> (all_terms d).*2). split_and!.
  - apply mapM_Some. apply Forall2_flip, Forall2_fmap_l. eapply Forall2_impl; [exact H|]. intros l x Hx. cbn. unfold py_at in Hx. destruct (loop_vars !! l) as [x'|] eqn:E; [|done]. injection Hx as <-.
    destruct (Forall2_lookup_l _ _ _ _ _ (be_vars _ _ _ _ He) E) as (i & Hi & Ei & _). by rewrite Hi.
  - by rewrite !length_fmap, <- flat_terms, length_fmap.
  - rewrite <- flat_terms. unfold tensor_advance. f_equal. clear H. induction (all_terms d) as [|[s l] ts IH]; [done|]. cbn. by rewrite IH.
Qed.

Lemma upgrade_core_ok i d core done u eu u' : c_strides c !! i = Some d -> flat_strides d <> [] -> upgraded done u eu ->
  upgrade_core kinds canon maps loop_vars (c_json c) per_tensor i (flat_strides d) core u = Ok u' ->
  exists eu', upgraded (fun i' core' => done i' core' \/ i' = i /\ core' = core) u' eu' /\ (up_addr u <= up_addr u')%nat.
Proof.
  intros Hd Hflat [U1 U2 U3 U4 U5] H. unfold upgrade_core in H. destruct (_get_tensor_core_sym_id (c_json c) i core) as [sid|] eqn:Es.
  2:{ injection H as <-. exists eu. split; [|done]. split; [done | done | done | done|]. intros i' core' sid' [Hd' | [-> ->]] Hs; [by eapply U5 | congruence]. }
  case_bool_decide as Hin.
  { injection H as <-. exists eu. split; [|done]. split; [done | done | done | done|]. intros i' core' sid' [Hd' | [-> ->]] Hs; [by eapply U5 | congruence]. }
  apply bind_Ok in H as (k & Hk & H). apply bind_Ok in H as (lv & Hlv & H). apply bind_Ok in H as (vars & Hvars & [= <-]).
  destruct (Hcol i d Hd) as (_ & Hper & _). unfold py_at in Hlv. rewrite Hper in Hlv. injection Hlv as <-.
  destruct (apply_advance d vars Hvars) as (vs & V1 & V2 & V3). pose proof (eo_cores _ Hc i core sid Es) as Hloc. pose proof Hloc as [_ [base Hbase]].
  destruct (list_find (fun m => m = flat_strides d) maps) as [[k' m]|] eqn:Ef; [|done]. injection Hk as ->. apply list_find_Some in Ef as (Hm & -> & _).
  assert (mapM eu vars = Some vs) as Hvs.
  { rewrite <- V1. apply py_map_Ok in Hvars. clear -Hvars U2 He. induction Hvars as [|l x ls xs Hx _ IH]; [done|]. cbn. rewrite IH. rewrite U2; [done|].
    unfold py_at in Hx. destruct (loop_vars !! l) as [x'|] eqn:E; [|done]. injection Hx as ->. destruct (Forall2_lookup_l _ _ _ _ _ (be_vars _ _ _ _ He) E) as (? & _ & _ & k & -> & _). done. }
  assert (eu (resolve sid) = Some base) as Hb.
  { rewrite U2; [by rewrite (be_symbols _ _ _ _ He)|]. pose proof (be_outer _ _ _ _ He sid Hloc). by destruct (resolve sid). }
  exists (bind (Addr (up_addr u)) (base + tensor_advance ivs d) eu). split; [|cbn; lia]. split; cbn [up_stmts sym_id_to_operand up_addr].
  - rewrite (exec_app _ _ _ _ _ _ _ U1). cbn. rewrite Hm. cbn. rewrite Hvs. cbn. rewrite Hb. cbn. rewrite decide_True by done. cbn. unfold apply_map. by rewrite V3.
  - intros x Hx. rewrite bind_other; [by apply U2 | by intros ->].
  - intros sid' x [Hx | [= -> ->]%list_elem_of_singleton]%elem_of_app; [|eauto]. destruct (U3 _ _ Hx) as (n & -> & Hn). exists n. split; [done | lia].
  - intros sid' x [Hx | [= -> ->]%list_elem_of_singleton]%elem_of_app.
    + destruct (U4 _ _ Hx) as (b & i' & core' & d' & ? & ? & ? & ?). exists b, i', core', d'. split_and!; [done | done | done|]. destruct (U3 _ _ Hx) as (n & -> & Hn).
      rewrite bind_other; [done | intros [= ->]; lia].
    + exists base, i, core, d. split_and!; [done | done | done | apply bind_same].
  - intros i' core' sid' Hd' Hs. rewrite fmap_app, elem_of_app. destruct Hd' as [Hd' | [-> ->]]; [left; by eapply U5 | right; assert (sid' = sid) as -> by congruence; list_mem].
Qed.

Lemma upgraded_less cores cores' u eu : (forall i core, cores' i core -> cores i core) -> upgraded cores u eu -> upgraded cores' u eu.
Proof. intros H [U1 U2 U3 U4 U5]. split; [done | done | done | done|]. intros i core sid Hc' Hs. by eapply U5; [apply H|]. Qed.

(** The cores of a tensor that is tiled. *)
Definition tiled_core (i core : nat) : Prop := exists d, c_strides c !! i = Some d /\ flat_strides d <> [] /\ (core < _sdsc_num_cores (c_json c))%nat.

Lemma upgrade_tensor_ok i d done u eu u' : c_strides c !! i = Some d -> upgraded done u eu ->
  upgrade_tensor kinds canon maps loop_vars (c_json c) per_tensor (i, d) u = Ok u' ->
  exists eu', upgraded (fun i' core' => done i' core' \/ i' = i /\ tiled_core i' core') u' eu' /\ (up_addr u <= up_addr u')%nat.
Proof.
  intros Hd Hu. unfold upgrade_tensor. cbn [fst snd]. case_bool_decide as Hflat.
  { intros [= <-]. exists eu. split; [|done]. eapply upgraded_less; [|exact Hu]. intros i' core' [? | [-> (d' & Hd' & Hf & _)]]; [done | congruence]. }
  intros H. assert (exists eu', upgraded (fun i' core' => done i' core' \/ i' = i /\ core' ∈ seq 0 (_sdsc_num_cores (c_json c))) u' eu' /\ (up_addr u <= up_addr u')%nat) as (eu' & U & Hle).
  { revert H. refine (for_each_ind _ (fun ds u1 => exists eu', upgraded (fun i' core' => done i' core' \/ i' = i /\ core' ∈ ds) u1 eu' /\ (up_addr u <= up_addr u1)%nat) _ _ _ _ _).
    - intros ds core rest u1 u2 _ (e1 & U1 & L1) H2. destruct (upgrade_core_ok i d core _ u1 e1 u2 Hd Hflat U1 H2) as (e2 & U2 & L2). exists e2. split; [|lia].
      eapply upgraded_less; [|exact U2]. cbn. intros i' core' [? | [-> Hin]]; [tauto|]. apply elem_of_app in Hin as [? | ->%list_elem_of_singleton]; tauto.
    - exists eu. split; [|done]. eapply upgraded_less; [|exact Hu]. intros i' core' [? | [_ ?%elem_of_nil]]; done. }
  exists eu'. split; [|done]. eapply upgraded_less; [|exact U]. cbn. intros i' core' [? | [-> (d' & _ & _ & Hlt)]]; [tauto|]. right. split; [done|]. apply elem_of_seq. lia.
Qed.

Lemma upgrade_all_ok u' : for_each (upgrade_tensor kinds canon maps loop_vars (c_json c) per_tensor) (imap pair (c_strides c)) (mkUpgrading [] [] addr0) = Ok u' ->
  exists eu, upgraded tiled_core u' eu /\ (addr0 <= up_addr u')%nat.
Proof.
  intros H. assert (exists eu, upgraded (fun i core => (i < length (imap pair (c_strides c)))%nat /\ tiled_core i core) u' eu /\ (addr0 <= up_addr u')%nat) as (eu & U & L).
  { revert H. refine (for_each_ind _ (fun ds u1 => exists eu, upgraded (fun i core => (i < length ds)%nat /\ tiled_core i core) u1 eu /\ (addr0 <= up_addr u1)%nat) _ _ _ _ _).
    - intros ds [i d] rest u1 u2 E (e1 & U1 & L1) H2. assert (imap pair (c_strides c) !! length ds = Some (i, d)) as Hl by (rewrite E, lookup_app_r, Nat.sub_diag by lia; done).
      rewrite list_lookup_imap in Hl. destruct (c_strides c !! length ds) as [d'|] eqn:Ed; [|done]. injection Hl as <- <-.
      destruct (upgrade_tensor_ok _ _ _ u1 e1 u2 Ed U1 H2) as (e2 & U2 & L2). exists e2. split; [|lia]. eapply upgraded_less; [|exact U2]. cbn. rewrite length_app. cbn.
      intros i core [Hi Ht]. destruct (decide (i = length ds)) as [-> | Hne]; [by right | left; split; [lia | done]].
    - exists e. split; [|done]. split; [done | done | by intros ? ? ?%elem_of_nil | by intros ? ? ?%elem_of_nil |]. cbn. intros i core sid [? _]. lia. }
  exists eu. split; [|done]. eapply upgraded_less; [|exact U]. intros i core Ht. split; [|done]. destruct Ht as (d & Hd & _). rewrite length_imap. by eapply lookup_lt_Some.
Qed.

(** The value of an identifier is right for every tensor that has it. *)
Definition value_ok (sid v : Z) : Prop := forall base i core d, address sid = Some base -> (core < _sdsc_num_cores (c_json c))%nat ->
  _get_tensor_core_sym_id (c_json c) i core = Some sid -> c_strides c !! i = Some d -> v = base + tensor_advance ivs d.

Lemma untiled_advance d : flat_strides d = [] -> tensor_advance ivs d = 0.
Proof. rewrite <- flat_terms. unfold tensor_advance. by destruct (all_terms d). Qed.

Lemma zget_Some {V} (l : list (Z * V)) i v : zget l i = Some v -> (i, v) ∈ l.
Proof.
  unfold zget. destruct (list_find _ l) as [[p [i' v']]|] eqn:E; [|done]. cbn. intros [= ->]. apply list_find_Some in E as (Hp & Ei & _). cbn in Ei. subst. by eapply list_elem_of_lookup_2.
Qed.

Lemma zget_None {V} (l : list (Z * V)) i : zget l i = None <-> i ∉ l.*1.
Proof.
  unfold zget. destruct (list_find _ l) as [[p [i' v']]|] eqn:E; cbn.
  - apply list_find_Some in E as (Hp & Ei & _). cbn in Ei. subst. split; [done|]. intros []. apply list_elem_of_lookup_2 in Hp. by apply (list_elem_of_fmap_2 fst) in Hp.
  - apply list_find_None in E. rewrite Forall_forall in E. split; [|done]. intros _ ([j v] & -> & H)%list_elem_of_fmap. by apply (E _ H).
Qed.

Lemma operand_ok u eu sid : upgraded tiled_core u eu -> located sid ->
  exists v, eu (default (resolve sid) (zget (sym_id_to_operand u) sid)) = Some v /\ value_ok sid v.
Proof.
  intros [U1 U2 U3 U4 U5] Hs. destruct (zget (sym_id_to_operand u) sid) as [x|] eqn:E; cbn.
  - apply zget_Some in E. destruct (U4 _ _ E) as (base & i & core & d & Hb & Hg & Hd & Hv). exists (base + tensor_advance ivs d). split; [done|].
    intros base' i' core' d' Hb' _ Hg' Hd'. assert (base' = base) as -> by congruence. f_equal. by eapply (eo_alike _ Hc i i' core core' sid).
  - apply zget_None in E. pose proof (be_outer _ _ _ _ He sid Hs) as Ho. exists (default 0 (address sid)). pose proof Hs as [_ [base Hb]]. split.
    + rewrite U2 by (by destruct (resolve sid)). rewrite (be_symbols _ _ _ _ He) by done. by rewrite Hb.
    + intros base' i core d Hb' Hcore Hg Hd. rewrite Hb' in Hb |- *. cbn. rewrite untiled_advance; [lia|]. destruct (flat_strides d) eqn:Ef; [done|]. exfalso. apply E.
      apply (U5 i core); [|done]. exists d. rewrite Ef. done.
Qed.
End op.

(** ** Collection *)

(** [n] more entries were consumed. *)
Record consumed (k n : nat) (cst cst' : collecting) : Prop := {
  cn_entries : co_entries cst' = drop (k + n) entries;
  cn_length : length (loop_var_indices cst') = (k + n)%nat;
  cn_lvs : loop_var_indices cst `prefix_of` loop_var_indices cst';
  cn_maps : affine_map_index cst ⊆ affine_map_index cst'
}.

Lemma collect_tensors_ok depth l : forall r r', for_each (collect_tensor (seq 0 depth)) l r = Ok r' ->
  r.1 ⊆ r'.1 /\ exists more, r'.2 = r.2 ++ more /\ Forall2 (fun d lv => (forall s n, (s, n) ∈ all_terms d -> (n < depth)%nat) /\ lv = (all_terms d).*2 /\ (flat_strides d <> [] -> flat_strides d ∈ r'.1)) l more.
Proof.
  induction l as [|d l IH]; intros r r' H; cbn in H; [injection H as <-; split; [done|]; exists []; by rewrite app_nil_r|].
  apply bind_Ok in H as (r1 & H1 & H). unfold collect_tensor in H1. apply bind_Ok in H1 as (ts & Hts & H1). apply stride_terms_Ok in Hts as [-> Hlt]. injection H1 as H1.
  destruct (IH r1 r' H) as (S2 & more & E2 & F2).
  assert (r.1 ⊆ r1.1 /\ r1.2 = r.2 ++ [(all_terms d).*2] /\ (flat_strides d <> [] -> flat_strides d ∈ r1.1)) as (S1 & E1 & M1).
  { rewrite <- H1, <- flat_terms. clear. case_bool_decide as E; cbn; [by rewrite E|]. split_and!; [case_bool_decide; set_solver | done |]. intros _. case_bool_decide; [done | set_solver]. }
  split; [set_solver|]. exists ((all_terms d).*2 :: more). split; [by rewrite E2, E1, <- app_assoc|]. constructor; [|done]. split_and!; [done | done | auto].
Qed.

Lemma consumed_trans k n m a b c : consumed k n a b -> consumed (k + n) m b c -> consumed k (n + m) a c.
Proof. intros [A1 A2 A3 A4] [B1 B2 B3 B4]. split; [by rewrite B1, Nat.add_assoc | by rewrite B2, Nat.add_assoc | by trans (loop_var_indices b) | by trans (affine_map_index b)]. Qed.

Definition collects (e : spec_entry) : Prop := forall depth k cst cst', co_entries cst = drop k entries -> length (loop_var_indices cst) = k ->
  collect_entry (seq 0 depth) e cst = Ok cst' -> consumed k (length (entry_ops e)) cst cst'.

Lemma collect_list_ok body : Forall collects body -> forall depth k cst cst', co_entries cst = drop k entries -> length (loop_var_indices cst) = k ->
  for_each (collect_entry (seq 0 depth)) body cst = Ok cst' -> consumed k (length (all_ops body)) cst cst'.
Proof.
  induction 1 as [|e body He _ IH]; intros depth k cst cst' Hk Hl H; cbn in H.
  - injection H as <-. split; [by rewrite Nat.add_0_r | by rewrite Nat.add_0_r | done | done].
  - apply bind_Ok in H as (mid & H1 & H). pose proof (He _ _ _ _ Hk Hl H1) as C1. unfold all_ops. cbn. rewrite length_app. eapply consumed_trans; [exact C1|].
    eapply IH; [apply C1 | apply C1 | exact H].
Qed.

Lemma seq_snoc n : seq 0 n ++ [length (seq 0 n)] = seq 0 (S n).
Proof. by rewrite length_seq, seq_S. Qed.

Lemma collect_ok e : collects e.
Proof.
  induction e as [c body IH | o |] using spec_entry_rect'; intros depth k cst cst' Hk Hl H; cbn [collect_entry] in H.
  - rewrite seq_snoc in H. by eapply collect_list_ok.
  - rewrite Hk in H. destruct (drop k entries) as [|c rest] eqn:E; [done|]. apply bind_Ok in H as (r & Hr & [= <-]). destruct (collect_tensors_ok _ _ _ _ Hr) as (S1 & _).
    split; cbn; [|by rewrite length_app, Hl | by apply prefix_app_r | done]. rewrite Nat.add_1_r. replace rest with (drop 1 (drop k entries)) by (by rewrite E). rewrite drop_drop. f_equal. lia.
  - injection H as <-. split; cbn; [by rewrite Nat.add_0_r | by rewrite Nat.add_0_r | done | done].
Qed.
(** ** Emission *)

(** An execution of entry [k] at the loop indices [ivs]. *)
Definition good_event (ki : nat * list Z) (ev : event) : Prop := exists c name top rest, entries !! ki.1 = Some c /\ c_cached c = (name, top) :: rest /\
  ev_file ev = sdsc_file (before_underscore name) /\ ev_ids ev = _extract_symbol_ids (c_cached c) /\ Forall2 (value_ok c ki.2) (_extract_symbol_ids (c_json c)) (ev_values ev).

Context (Hentries : forall c, c ∈ entries -> entry_ok c) (Hbounds : forall k o, bounds !! k = Some o -> is_Some o).

(** The statements of [n] entries from [k] on execute what is scheduled. *)
Definition runs (loop_vars : list ssa) (b : nat) (plan : list Z -> list (nat * list Z)) (new : list stmt) : Prop :=
  forall env ivs, body_env loop_vars ivs b env -> exists env' t, exec maps allocated new env = Some (env', t) /\
    (forall x, match x with Addr _ => False | _ => True end -> env' x = env x) /\ Forall2 good_event (plan ivs) t.

Record advanced (k n b m : nat) (est : emitting) : Prop := {
  ad_entries : em_entries est = drop (k + n) entries;
  ad_lvs : em_lvs est = drop (k + n) lvs;
  ad_bound : loop_bound_idx est = (b + m)%nat
}.

(** The entries from [k] on and the bounds from [b] on are next, for collection and for emission. *)
Record ready (k b : nat) (bs : list (option Z)) (cst cst' : collecting) (est : emitting) : Prop := {
  re_co : co_entries cst = drop k entries;
  re_length : length (loop_var_indices cst) = k;
  re_lvs : loop_var_indices cst' `prefix_of` lvs;
  re_maps : affine_map_index cst' ⊆ maps;
  re_em : advanced k 0 b 0 est;
  re_bounds : bs `prefix_of` drop b bounds
}.

Lemma ready_first e body depth k b cst mid cst' est : ready k b (_collect_loop_bounds (e :: body)) cst cst' est -> collect_entry (seq 0 depth) e cst = Ok mid ->
  for_each (collect_entry (seq 0 depth)) body mid = Ok cst' -> ready k b (entry_bounds e) cst mid est.
Proof.
  intros [R1 R2 R3 R4 R5 R6] C1 C2. destruct (collect_ok e _ _ _ _ R1 R2 C1) as [D1 D2 D3 D4]. destruct (collect_list_ok body (Forall_true _ _ collect_ok) _ _ _ _ D1 D2 C2) as [E1 E2 E3 E4].
  unfold _collect_loop_bounds in R6. cbn in R6. split; [done | done | by trans (loop_var_indices cst') | by trans (affine_map_index cst') | done | by eapply prefix_app_l].
Qed.

Lemma ready_rest e body depth k b cst mid cst' est est1 : ready k b (_collect_loop_bounds (e :: body)) cst cst' est -> collect_entry (seq 0 depth) e cst = Ok mid ->
  for_each (collect_entry (seq 0 depth)) body mid = Ok cst' -> advanced k (length (entry_ops e)) b (length (entry_bounds e)) est1 ->
  ready (k + length (entry_ops e)) (b + length (entry_bounds e)) (_collect_loop_bounds body) mid cst' est1.
Proof.
  intros [R1 R2 R3 R4 R5 R6] C1 C2 [A1 A2 A3]. destruct (collect_ok e _ _ _ _ R1 R2 C1) as [D1 D2 D3 D4]. unfold _collect_loop_bounds in R6. cbn in R6.
  split; [done | done | done | done | split; by rewrite Nat.add_0_r|]. rewrite <- drop_drop. destruct R6 as [post ->]. rewrite <- app_assoc, drop_app_length. by eexists.
Qed.

Lemma ready_body k b o bs cst cst' est : ready k b (o :: bs) cst cst' est -> loop_bound_idx est = b /\ bounds !! b = Some o /\
  ready k (S b) bs cst cst' (mkEmitting (em_entries est) (em_lvs est) (S b) (addr_counter est)).
Proof.
  intros [R1 R2 R3 R4 [R5 R6 R7] [post E]]. rewrite Nat.add_0_r in *. split_and!; [done | by rewrite <- (Nat.add_0_r b), <- lookup_drop, E|].
  split; [done | done | done | done | split; cbn; rewrite ?Nat.add_0_r; done|]. exists post. by rewrite <- (Nat.add_1_r b), <- drop_drop, E.
Qed.

Lemma ready_op o depth k b cst cst' est : ready k b [] cst cst' est -> collect_entry (seq 0 depth) (OpSpec o) cst = Ok cst' -> exists c per_tensor,
  entries !! k = Some c /\ em_entries est = c :: drop (S k) entries /\ em_lvs est = per_tensor :: drop (S k) lvs /\ collected depth c per_tensor /\ loop_bound_idx est = b.
Proof.
  intros [R1 R2 R3 R4 [R5 R6 R7] _] Hc. cbn in Hc. rewrite Nat.add_0_r in *. rewrite R1 in Hc. rewrite R5, R6.
  destruct (drop k entries) as [|c rest] eqn:Ek; [done|]. apply bind_Ok in Hc as (r0 & Hr & [= <-]). destruct (collect_tensors_ok _ _ _ _ Hr) as (_ & more & Emore & F). cbn in Emore, R3, R4.
  assert (entries !! k = Some c) as Hk by (rewrite <- (Nat.add_0_r k), <- lookup_drop, Ek; done).
  assert (lvs !! k = Some r0.2) as Hl.
  { destruct R3 as [post ->]. rewrite <- app_assoc, lookup_app_r, R2, Nat.sub_diag by lia. done. }
  exists c, r0.2. rewrite (drop_S _ _ _ Hk) in Ek. split_and!; [done | by injection Ek as <- | by apply drop_S | | done].
  intros i d Hd. rewrite Emore. destruct (Forall2_lookup_l _ _ _ _ _ F Hd) as (lv & Hlv & Hlt & -> & Hmap). split_and!; [done | done | auto].
Qed.

Definition emits (e : spec_entry) : Prop := forall loop_vars k b cst cst' est stmts r, ready k b (entry_bounds e) cst cst' est ->
  collect_entry (seq 0 (length loop_vars)) e cst = Ok cst' -> emit_entry kinds canon maps loop_vars e (est, stmts) = Ok r ->
  advanced k (length (entry_ops e)) b (length (entry_bounds e)) r.1 /\ exists new, r.2 = stmts ++ new /\ runs loop_vars b (fun ivs => entry_schedule k ivs e) new.

Definition emits_list (body : list spec_entry) : Prop := forall loop_vars k b cst cst' est stmts r, ready k b (_collect_loop_bounds body) cst cst' est ->
  for_each (collect_entry (seq 0 (length loop_vars))) body cst = Ok cst' -> for_each (emit_entry kinds canon maps loop_vars) body (est, stmts) = Ok r ->
  advanced k (length (all_ops body)) b (length (_collect_loop_bounds body)) r.1 /\ exists new, r.2 = stmts ++ new /\ runs loop_vars b (fun ivs => schedule k ivs body) new.

Lemma runs_nil loop_vars b : runs loop_vars b (fun _ => []) [].
Proof. intros env ivs _. exists env, []. by split_and!. Qed.

Lemma runs_app loop_vars b b' plan plan' new new' : (b <= b')%nat -> runs loop_vars b plan new -> runs loop_vars b' plan' new' ->
  runs loop_vars b (fun ivs => plan ivs ++ plan' ivs) (new ++ new').
Proof.
  intros Hb R R' env ivs He. destruct (R env ivs He) as (e1 & t1 & X1 & K1 & G1). destruct (R' e1 ivs (body_env_change _ _ _ _ _ _ He Hb K1)) as (e2 & t2 & X2 & K2 & G2).
  exists e2, (t1 ++ t2). split_and!; [by eapply exec_app_Some | intros x Hx; by rewrite K2, K1 | by apply Forall2_app].
Qed.

Lemma emit_list_ok body : Forall emits body -> emits_list body.
Proof.
  induction 1 as [|e body He _ IH]; intros loop_vars k b cst cst' est stmts r Hr Hc Hm; cbn in Hc, Hm.
  - injection Hc as <-. injection Hm as <-. split; [apply Hr|]. exists []. split; [by rewrite app_nil_r | apply runs_nil].
  - apply bind_Ok in Hc as (mid & C1 & C2). apply bind_Ok in Hm as ([est1 stmts1] & M1 & M2).
    destruct (He _ _ _ _ _ _ _ _ (ready_first _ _ _ _ _ _ _ _ _ Hr C1 C2) C1 M1) as (A & new1 & Es & X1). cbn in A, Es. subst stmts1.
    destruct (IH _ _ _ _ _ _ _ _ (ready_rest _ _ _ _ _ _ _ _ _ _ Hr C1 C2 A) C2 M2) as ([B1 B2 B3] & new2 & -> & X2).
    unfold all_ops, _collect_loop_bounds. cbn. rewrite !length_app. split; [split; rewrite ?Nat.add_assoc; done|]. exists (new1 ++ new2). split; [by rewrite app_assoc|].
    eapply runs_app; [|exact X1 | exact X2]. lia.
Qed.

Lemma emit_op_ok o : emits (OpSpec o).
Proof.
  intros loop_vars k b cst cst' est stmts r Hr Hc Hm. destruct (ready_op _ _ _ _ _ _ _ Hr Hc) as (c & per_tensor & Hk & Ek & Ekl & Hcol & Eb). cbn in Hm. unfold emit_op in Hm. cbn [fst snd] in Hm. rewrite Ek, Ekl in Hm.
  apply bind_Ok in Hm as (name & Hname & Hm). destruct (c_cached c) as [|[name' top] tail] eqn:Ec; [done|]. injection Hname as ->. apply bind_Ok in Hm as (u & Hu & [= <-]). cbn [fst snd].
  split; [split; cbn; rewrite ?Nat.add_1_r; done || lia|].
  eexists. split; [done|]. intros env ivs He.
  destruct (upgrade_all_ok c (Hentries c (list_elem_of_lookup_2 _ _ _ Hk)) _ _ ivs b env Hcol He _ _ Hu) as (eu & U & _).
  assert (exists vs, mapM eu ((fun sid => default (resolve sid) (zget (sym_id_to_operand u) sid)) <$> _extract_symbol_ids (c_json c)) = Some vs /\
    Forall2 (value_ok c ivs) (_extract_symbol_ids (c_json c)) vs) as (vs & Hvs & Hgood).
  { rewrite mapM_fmap. apply mapM_good, Forall_forall. intros sid Hsid. by eapply operand_ok; [apply Hentries; eapply list_elem_of_lookup_2 | | | apply (eo_ids c); [apply Hentries; eapply list_elem_of_lookup_2|]]. }
  exists eu, [mkEvent (sdsc_file (before_underscore name)) (_extract_symbol_ids (c_cached c)) vs]. split_and!.
  - rewrite (exec_app _ _ _ _ _ _ _ (ug_exec _ _ _ _ _ _ U)). cbn. rewrite Hvs. cbn. by rewrite Ec.
  - apply (ug_outer _ _ _ _ _ _ U).
  - cbn. constructor; [|constructor]. exists c, name, top, tail. cbn. split_and!; done.
Qed.

Lemma loop_schedule k ivs count body : entry_schedule k ivs (LoopSpec count body) = concat ((fun i => schedule k (ivs ++ [Z.of_nat i]) body) <$> seq 0 (Z.to_nat (default 0 count))).
Proof. cbn [entry_schedule]. f_equal. apply list_fmap_ext. intros _ i _. revert k. induction body as [|e body IH]; intros k; [done|]. cbn. by rewrite IH. Qed.

Lemma body_env_loop loop_vars ivs b e i : body_env loop_vars ivs b e -> body_env (loop_vars ++ [LoopVar b]) (ivs ++ [i]) (S b) (bind (LoopVar b) i e).
Proof.
  intros [B1 B2 B3 B4 B5]. split.
  - apply Forall2_app; [|constructor; [|constructor]].
    + eapply Forall2_impl; [exact B1|]. intros x j (E & n & -> & Hn). split; [rewrite bind_other; [done | intros [= ->]; lia] | exists n; split; [done | lia]].
    + split; [apply bind_same | exists b; split; [done | lia]].
  - intros Hb. rewrite !bind_other by done. by apply B2.
  - intros n v Hn. rewrite bind_other by done. by apply B3.
  - intros sid Hs. rewrite bind_other; [by apply B4|]. intros E. pose proof (B5 sid Hs) as Ho. by rewrite E in Ho.
  - done.
Qed.

Lemma emit_ok e : emits e.
Proof.
  induction e as [count body IH | o |] using spec_entry_rect'; [|apply emit_op_ok|].
  - intros loop_vars k b cst cst' est stmts r Hr Hc Hm. destruct (ready_body _ _ _ _ _ _ _ Hr) as (R7 & Hb & Q). cbn in Hc, Hm. rewrite seq_snoc in Hc. apply bind_Ok in Hm as (r0 & Hm & [= <-]). rewrite R7 in *.
    assert (bounds <> []) as Hne by (intros E; by rewrite E in Hb). destruct (Hbounds _ _ Hb) as [n ->]. replace (S (length loop_vars)) with (length (loop_vars ++ [LoopVar b])) in Hc by (rewrite length_app; cbn; lia).
    destruct (emit_list_ok body IH _ _ _ _ _ _ _ _ Q Hc Hm) as ([A1 A2 A3] & new & Es & X). cbn in Es. rewrite Es. cbn [fst snd].
    split; [split; cbn; [done | done | rewrite A3; unfold _collect_loop_bounds; lia]|]. eexists. split; [done|]. intros env ivs He. rewrite loop_schedule. change (default 0 (Some n)) with n.
    destruct (mapM_good (fun i => snd <$> exec maps allocated new (bind (LoopVar b) (Z.of_nat i) env)) (fun i => Forall2 good_event (schedule k (ivs ++ [Z.of_nat i]) body)) (seq 0 (Z.to_nat n))) as (ts & Hts & Hgood).
    { apply Forall_forall. intros i _. destruct (X _ _ (body_env_loop _ _ _ _ (Z.of_nat i) He)) as (e' & t & -> & _ & G). by exists t. }
    exists env, (concat ts). split_and!; [|done|].
    + cbn [exec]. rewrite (exec_For _ _ _ _ _ _ n); [|by apply (be_step _ _ _ _ He).. | by apply (be_bounds _ _ _ _ He)]. rewrite Hts. cbn. by rewrite app_nil_r.
    + clear -Hgood. induction Hgood as [|i t idxs ts H _ IH]; [constructor|]. cbn. by apply Forall2_app.
  - intros loop_vars k b cst cst' est stmts r [R1 R2 R3 R4 R5 R6] Hc Hm. cbn in Hc, Hm. injection Hm as <-. split; [done|]. exists []. split; [by rewrite app_nil_r | apply runs_nil].
Qed.

(** Everything together. *)
Lemma body_runs specs cst r env : lvs = loop_var_indices cst -> maps = affine_map_index cst -> bounds = _collect_loop_bounds specs ->
  _collect_affine_maps specs entries = Ok cst -> _emit_specs kinds canon maps specs (mkEmitting entries lvs 0 0) = Ok r -> body_env [] [] 0 env ->
  exists env' t, exec maps allocated r.2 env = Some (env', t) /\ Forall2 good_event (schedule 0 [] specs) t.
Proof.
  intros El Em Eb Hc Hm He.
  assert (ready 0 0 (_collect_loop_bounds specs) (mkCollecting entries [] []) cst (mkEmitting entries lvs 0 0)) as Q by (split; cbn; [done | done | by rewrite El | by rewrite Em | done | by rewrite Eb]).
  destruct (emit_list_ok specs (Forall_true _ _ emit_ok) [] _ _ _ _ _ _ _ Q Hc Hm) as (_ & new & -> & X).
  destruct (X env [] He) as (env' & t & H1 & _ & H2). eauto.
Qed.
End body.
