(* ===== verification/BundleNames.v ===== *)
(** * The names in a bundle

    The names of the emitted function are built from words and numbers.  Different values have different
    names, so that the text means what its statements mean. *)

From Stdlib Require Import Ascii.
From S2P Require Import Prelude PyDict SdscSymbols Bundle.

#[local] Open Scope string_scope.

(** ** Words and numbers *)

Definition digit (a : ascii) : bool := Ascii.eqb a "-" || ((N_of_ascii "0" <=? N_of_ascii a)%N && (N_of_ascii a <=? N_of_ascii "9")%N).

Fixpoint string_all (p : ascii -> bool) (s : string) : bool := match s with EmptyString => true | String a s => p a && string_all p s end.

Definition number (s : string) : bool := string_all digit s.
Definition word (s : string) : bool := string_all (fun a => negb (Ascii.eqb a "_")) s.

Lemma number_N x : number (pretty (x : N)) = true.
Proof.
  assert (forall (x : N) s, number s = true -> number (pretty_N_go x s) = true) as H.
  { intros y. induction (N.lt_wf_0 y) as [y _ IH]. intros s Hs. assert (y = 0 \/ 0 < y)%N as [-> | Hy] by lia; [done|]. rewrite pretty_N_go_step by done.
    apply IH; [by apply N.div_lt|]. cbn. fold (number s). rewrite Hs, andb_true_r. unfold pretty_N_char. by repeat case_match. }
  unfold pretty, pretty_N. case_decide; [done | by apply H].
Qed.

Lemma number_nat (n : nat) : number (pretty n) = true.
Proof. apply number_N. Qed.

Lemma number_Z (z : Z) : number (pretty z) = true.
Proof. unfold pretty, pretty_Z. destruct z; [done | apply number_N | cbn; apply number_N]. Qed.

Lemma number_word s : number s = true -> word s = true.
Proof.
  unfold number, word. induction s as [|a s IH]; [done|]. cbn. intros [H1 H2]%andb_true_iff. rewrite IH by done. rewrite andb_true_r. destruct (Ascii.eqb_spec a "_"); [by subst | done].
Qed.

Fixpoint split_words (s : string) : list string :=
  match s with
  | EmptyString => [""]
  | String a s =>
      let r := split_words s in
      if Ascii.eqb a "_" then "" :: r else match r with w :: r => String a w :: r | [] => [String a ""] end
  end.

Lemma split_word w s r ws : word w = true -> split_words s = r :: ws -> split_words (w +:+ s) = (w +:+ r) :: ws.
Proof.
  intros Hw Hs. induction w as [|a w IH]; [done|]. cbn in Hw. apply andb_true_iff in Hw as [Ha Hw]. apply negb_true_iff in Ha.
  change (String a w +:+ s) with (String a (w +:+ s)). cbn. rewrite Ha, (IH Hw). done.
Qed.

Lemma string_app_nil (w : string) : w +:+ "" = w.
Proof. induction w as [|a w IH]; [done|]. change (String a (w +:+ "") = String a w). by rewrite IH. Qed.

Lemma split_join w ws : Forall (fun w => word w = true) (w :: ws) -> split_words (join "_" (w :: ws)) = w :: ws.
Proof.
  revert w. induction ws as [|v ws IH]; intros w H; apply Forall_cons in H as [Hw Hws].
  - change (join "_" [w]) with w. rewrite <- (string_app_nil w) at 1. rewrite (split_word w "" "" []) by done. by rewrite string_app_nil.
  - change (join "_" (w :: v :: ws)) with (w +:+ "_" +:+ join "_" (v :: ws)). rewrite (split_word w _ "" (v :: ws)); [by rewrite string_app_nil | done|].
    change ("_" +:+ join "_" (v :: ws)) with (String "_" (join "_" (v :: ws))). cbn [split_words]. rewrite (IH v Hws). done.
Qed.

(** ** The parts of a name *)

Inductive part := Word (w : string) | Number (z : Z).

Definition text (p : part) : string := match p with Word w => w | Number z => pretty z end.

Definition good_part (p : part) : bool := match p with Word w => negb (number w) && word w | Number _ => true end.

#[local] Notation Nat n := (Number (Z.of_nat n)).

(** The parts from the last one on. *)
Fixpoint parts (x : ssa) : list part :=
  match x with
  | PoolBase => [Word "addr"; Word "base"; Word "pool"]
  | Pool => [Word "pool"]
  | ArgBase a => [Word "addr"; Word "base"; Number a; Word "arg"]
  | Arg a => [Number a; Word "arg"]
  | DimBase s o => [Word "base"; Nat o; Nat s; Word "sym"]
  | Dim s o => [Nat o; Nat s; Word "sym"]
  | Sym n => [Nat n; Word "sym"]
  | SliceOffset a o => [Number o; Word "offset"; Word "slice"; Number a; Word "arg"]
  | Slice a o => [Number o; Word "slice"; Number a; Word "arg"]
  | CoreOffset b o => [Number o; Word "offset"; Word "core"] ++ parts b
  | Core b o => [Number o; Word "core"] ++ parts b
  | PoolOffset v => [Number v; Word "offset"; Word "pool"]
  | PoolAddr v => [Number v; Word "addr"; Word "pool"]
  | C0 => [Word "c0"]
  | C1 => [Word "c1"]
  | LoopBound n => [Nat n; Word "bound"; Word "loop"]
  | LoopVar n => [Nat n; Word "i"]
  | Addr n => [Nat n; Word "addr"]
  end.

Lemma parts_good x : Forall (fun p => good_part p = true) (parts x).
Proof. induction x; cbn [parts app]; repeat (apply Forall_cons; split; [done|]); done || apply Forall_nil; done. Qed.

Lemma parts_inj x y : parts x = parts y -> x = y.
Proof.
  revert y. induction x; intros y H; destruct y; cbn [parts app] in H; try discriminate H; try reflexivity; injection H; intros; f_equal; auto; lia.
Qed.

Lemma text_inj p q : good_part p = true -> good_part q = true -> text p = text q -> p = q.
Proof.
  destruct p as [w | z], q as [w' | z']; cbn [text good_part].
  - by intros _ _ ->.
  - intros [Hw _]%andb_true_iff _ ->. by rewrite number_Z in Hw.
  - intros _ [Hw _]%andb_true_iff <-. by rewrite number_Z in Hw.
  - intros _ _ H%(inj pretty). by rewrite H.
Qed.

Lemma texts_inj l : forall k, Forall (fun p => good_part p = true) l -> Forall (fun p => good_part p = true) k -> text <$> l = text <$> k -> l = k.
Proof.
  induction l as [|p l IH]; intros [|q k] Hl Hk H; [done | done | done|]. apply Forall_cons in Hl as [Hp Hl], Hk as [Hq Hk]. cbn in H. injection H as H1 H2. f_equal; [by apply text_inj | by apply IH].
Qed.

Lemma text_word p : good_part p = true -> word (text p) = true.
Proof. destruct p; cbn [good_part text]; [by intros [_ ?]%andb_true_iff | intros _; apply number_word, number_Z]. Qed.

Lemma pretty_nat_Z (n : nat) : pretty (Z.of_nat n) = pretty n.
Proof. by destruct n. Qed.

Lemma string_app_assoc (x y z : string) : (x +:+ y) +:+ z = x +:+ y +:+ z.
Proof. induction x as [|a x IH]; [done|]. change (String a ((x +:+ y) +:+ z) = String a (x +:+ y +:+ z)). by rewrite IH. Qed.

Lemma join_app l w ws : l <> [] -> join "_" (l ++ w :: ws) = join "_" l +:+ "_" +:+ join "_" (w :: ws).
Proof.
  intros Hl. induction l as [|x l IH]; [done|]. destruct l as [|y l]; [done|]. change (join "_" ((x :: y :: l) ++ w :: ws)) with (x +:+ "_" +:+ join "_" ((y :: l) ++ w :: ws)). rewrite IH by done.
  change (join "_" (x :: y :: l)) with (x +:+ "_" +:+ join "_" (y :: l)). by rewrite !string_app_assoc.
Qed.

Lemma parts_nonempty x : text <$> reverse (parts x) <> [].
Proof. intros H. apply (f_equal length) in H. rewrite length_fmap, length_reverse in H. by destruct x. Qed.

Lemma show_parts x : show_stem x = join "_" (text <$> reverse (parts x)).
Proof.
  induction x; try (cbn; by rewrite ?pretty_nat_Z); cbn [show_stem parts]; rewrite reverse_app, fmap_app.
  - change (text <$> reverse [Number offset; Word "offset"; Word "core"]) with ["core"; "offset"; pretty offset]. rewrite join_app by apply parts_nonempty. by rewrite IHx.
  - change (text <$> reverse [Number offset; Word "core"]) with ["core"; pretty offset]. rewrite join_app by apply parts_nonempty. by rewrite IHx.
Qed.

(** C12. Different values have different names: the words and numbers of a printed name
    determine what it names, so no two declarations or loop variables of a bundle collide. *)
Theorem names_distinct x y : x <> y -> show x <> show y.
Proof.
  intros Hne. contradict Hne. unfold show in Hne. apply (inj (String.append "%")) in Hne. rewrite !show_parts in Hne. apply (f_equal split_words) in Hne.
  assert (forall z, Forall (fun w => word w = true) (text <$> reverse (parts z))) as Hw.
  { intros z. apply Forall_fmap, Forall_reverse. eapply Forall_impl; [apply parts_good|]. intros p. apply text_word. }
  pose proof (Hw x) as Hx. pose proof (Hw y) as Hy. pose proof (parts_nonempty x). pose proof (parts_nonempty y). apply parts_inj, (inj reverse), texts_inj; [apply Forall_reverse, parts_good..|].
  destruct (text <$> reverse (parts x)), (text <$> reverse (parts y)); try done. by rewrite !split_join in Hne.
Qed.

Lemma names_distinct_witness : SliceOffset 1 2 <> Slice 1 2 /\ show (SliceOffset 1 2) <> show (Slice 1 2) /\ show (Core (Slice 1 128) 256) = "%arg_1_slice_128_core_256".
Proof. split; [discriminate | split; [apply (names_distinct (SliceOffset 1 2) (Slice 1 2)); discriminate | vm_compute; reflexivity]]. Defined.
