(* ===== verification/BundleCompile.v ===== *)
(** * The descriptions a bundle is compiled to

    The descriptions number their symbols one after the other; an operation that reuses a description found
    in the cache has the identifiers of that description at the positions of its own. *)

From Stdlib Require Import Ascii.
From S2P Require Import Prelude PyDict SdscSymbols SdscIdents Bundle BundleRun BundleBody.

(** ** Identifiers *)

Lemma add_ids_shift off l acc : 0 <= off -> (forall i, i ∈ l -> i < 0) ->
  foldl (fun ids i => add_id i ids) ((fun i => i - off) <$> acc) ((fun i => i - off) <$> l) = (fun i => i - off) <$> foldl (fun ids i => add_id i ids) acc l.
Proof.
  intros Ho. revert acc. induction l as [|i l IH]; intros acc Hl; [done|]. cbn. rewrite <- IH by (intros j Hj; apply Hl; by right). f_equal. unfold add_id.
  assert (i < 0) as Hi by (apply Hl; list_mem). rewrite (proj2 (Z.ltb_lt i 0)), (proj2 (Z.ltb_lt (i - off) 0)) by lia. cbn.
  assert (i - off ∈ (fun i => i - off) <$> acc <-> i ∈ acc) as E.
  { rewrite list_elem_of_fmap. split; [|eauto]. intros (j & Hj & ?). by assert (i = j) as -> by lia. }
  case_bool_decide as H1; case_bool_decide as H2; cbn; [done | tauto | tauto | by rewrite fmap_app].
Qed.

Lemma add_ids_elem l : forall acc i, i ∈ foldl (fun ids i => add_id i ids) acc l <-> i ∈ acc \/ i < 0 /\ i ∈ l.
Proof.
  induction l as [|j l IH]; intros acc i; cbn; [set_solver|]. rewrite IH, elem_of_cons. assert (i ∈ add_id j acc <-> i ∈ acc \/ i = j /\ j < 0) as ->.
  { unfold add_id. destruct (Z.ltb_spec j 0); cbn; [|intuition lia]. case_bool_decide; cbn; [|rewrite elem_of_app, list_elem_of_singleton]; intuition congruence. }
  intuition (subst; auto).
Qed.

Lemma add_ids_NoDup l : forall acc, NoDup acc -> NoDup (foldl (fun ids i => add_id i ids) acc l).
Proof.
  induction l as [|j l IH]; intros acc H; cbn; [done|]. apply IH. unfold add_id. destruct (j <? 0); cbn; [|done]. case_bool_decide; cbn; [done|]. apply NoDup_app. split_and!; [done | set_solver | apply NoDup_singleton].
Qed.

(** A description of one operation. *)
Definition single (name f : string) (u : Z) (nodes : list schedule_node) (other : string) : dict top_val := [(name, mkTopVal u [[(f, mkOpVal [] nodes)]] other)].

Definition node_ids (nodes : list schedule_node) : list Z := nodes ≫= (fun n => if bool_decide (component n = "hbm"%string) then dvalues (start_data n) else []).

Lemma single_ids name f u nodes other : _extract_symbol_ids (single name f u nodes other) = foldl (fun ids i => add_id i ids) [] (node_ids nodes).
Proof. unfold _extract_symbol_ids, op_vals, single, dvalues. cbn. by rewrite !app_nil_r. Qed.

Lemma single_get name f u nodes other i c : _get_tensor_core_sym_id (single name f u nodes other) i c =
  n ← nodes !! i; if bool_decide (component n = "hbm"%string) then dget (start_data n) (core_key c) else None.
Proof.
  unfold _get_tensor_core_sym_id, op_vals, single, dvalues, node_sym_id. cbn. destruct (nodes !! i) as [n|]; [|done]. cbn. case_bool_decide; [|done]. by destruct (dget (start_data n) (core_key c)).
Qed.

Lemma node_ids_shift off nodes : node_ids (shift_node off <$> nodes) = (fun i => i - off) <$> node_ids nodes.
Proof.
  unfold node_ids. induction nodes as [|n l IH]; [done|]. cbn. rewrite IH, fmap_app. f_equal. unfold shift_node.
  destruct (decide (component n = "hbm"%string)) as [E | E]; [|by rewrite !(bool_decide_eq_false_2 _ E)]. rewrite !(bool_decide_eq_true_2 _ E). cbn.
  unfold dvalues. by rewrite <- !list_fmap_compose.
Qed.

Lemma dget_shift off (d : dict Z) k : dget ((fun kv => (kv.1, kv.2 - off)) <$> d) k = (fun i => i - off) <$> dget d k.
Proof. induction d as [|[k' v] d IH]; [done|]. cbn. by case_decide. Qed.

(** The identifiers of two numberings of one description are at the same positions. *)
Lemma ids_shift off nodes name f u other name' : 0 <= off -> (forall i, i ∈ node_ids nodes -> i < 0) ->
  _extract_symbol_ids (single name f u (shift_node off <$> nodes) other) = (fun i => i - off) <$> _extract_symbol_ids (single name' f u nodes other).
Proof. intros Ho H. rewrite !single_ids, node_ids_shift, <- add_ids_shift by done. done. Qed.

(** ** File names *)

Lemma pretty_before s r : before_underscore (pretty (s : nat) +:+ "_" +:+ r)%string = pretty s.
Proof.
  assert (forall (x : N) (s : string), before_underscore (s +:+ "_" +:+ r)%string = s -> before_underscore (pretty_N_go x s +:+ "_" +:+ r)%string = pretty_N_go x s) as H.
  { intros x. induction (N.lt_wf_0 x) as [x _ IH]. intros s0 Hs. assert (x = 0 \/ 0 < x)%N as [-> | Hx] by lia; [by rewrite pretty_N_go_0|].
    rewrite pretty_N_go_step by done. apply IH; [by apply N.div_lt|]. change (String (pretty_N_char (x `mod` 10)) s0 +:+ "_" +:+ r)%string with (String (pretty_N_char (x `mod` 10)) (s0 +:+ "_" +:+ r)%string).
    cbn. replace (Ascii.eqb (pretty_N_char (x `mod` 10)) "_"%char) with false by (unfold pretty_N_char; by repeat case_match). by f_equal. }
  unfold pretty, pretty_nat, pretty_N, pretty. case_decide; [done|]. by apply H.
Qed.

(** ** The operations in order *)

Lemma compile_entry_ops e : forall st, compile_entry e st = for_each compile_op (entry_ops e) st.
Proof.
  induction e as [c body IH | o |] using spec_entry_rect'; intros st; cbn; [|by destruct (compile_op o st) | done]. revert st. induction IH as [|e body He _ IH]; intros st; [done|]. cbn.
  rewrite He, for_each_app. destruct (for_each compile_op (entry_ops e) st); [apply IH | done].
Qed.

Lemma compile_all specs st : _compile_specs specs st = for_each compile_op (all_ops specs) st.
Proof. exact (compile_entry_ops (LoopSpec None specs) st). Qed.

(** ** The cache *)

(** An operation without dynamic sizes that can be described. *)
Definition op_ok (op : op_spec) : Prop := spec_ok (parsed op) /\ symbolic_dims (parsed op) = [].

(** Two descriptions that differ in the numbering: from [off] in [fresh], from [off'] in file [fidx]. *)
Record renumbered (fresh cached : dict top_val) (fidx : nat) : Prop := {
  rn_shape : exists name f u nodes other off off', 0 <= off /\ 0 <= off' /\ (forall i, i ∈ node_ids nodes -> i < 0) /\
    fresh = single name f u (shift_node off <$> nodes) other /\ cached = single (pretty fidx +:+ "_" +:+ f)%string f u (shift_node off' <$> nodes) other
}.

(** What the operation [op] was compiled to after symbols of the kinds [prev]. *)
Record compiled_as (prev : list SymbolKind) (symbols : list Z) (files : list (string * dict top_val)) (op : op_spec) (c : compiled_entry) : Prop := {
  ca_gen : exists idx symbols0 g, length symbols0 = length prev /\ compile_op_spec idx op symbols0 (length prev) = Ok g /\ symbols_after g `prefix_of` symbols /\
    c_json c = sdsc_json g /\ c_strides c = affine_strides g /\ c_kinds c = symbol_kinds g;
  ca_file : exists fidx, (sdsc_file (pretty fidx), c_cached c) ∈ files /\ renumbered (c_json c) (c_cached c) fidx
}.

Definition cache_ok (cache : option (list (dict top_val * list Z * (nat * dict top_val)))) (files : list (string * dict top_val)) : Prop :=
  forall l key i cached, cache = Some l -> (key, (i, cached)) ∈ l -> (sdsc_file (pretty i), cached) ∈ files /\
    exists op off symbols g, op_ok op /\ cache_key op = Ok key /\ length symbols = off /\ compile_op_spec i op symbols off = Ok g /\ cached = sdsc_json g.

Record compile_ok (done : list op_spec) (st : compiling) : Prop := {
  cm_symbols : length (cs_symbols st) = length (concat (c_kinds <$> cs_compiled st));
  cm_offset : symbol_id_offset_counter st = length (cs_symbols st);
  cm_length : length (cs_compiled st) = length done;
  cm_entries : forall k op, done !! k = Some op -> exists c, cs_compiled st !! k = Some c /\ compiled_as (concat (c_kinds <$> take k (cs_compiled st))) (cs_symbols st) (cs_files st) op c;
  cm_files : (cs_files st).*1 = (fun i : nat => sdsc_file (pretty i)) <$> seq 0 (sdsc_counter st);
  cm_cache : cache_ok (sdsc_cache st) (cs_files st)
}.

Lemma cache_get_Some cache key v : cache_get cache key = Some v -> (key, v) ∈ cache.
Proof.
  unfold cache_get. destruct (list_find _ cache) as [[p [k' v']]|] eqn:E; [|done]. cbn. intros [= ->]. apply list_find_Some in E as (Hp & Ei & _). cbn in Ei. subst. by eapply list_elem_of_lookup_2.
Qed.

Lemma single_shape op idx off symbols g : op_ok op -> length symbols = off -> compile_op_spec idx op symbols off = Ok g ->
  exists nodes u, sdsc_json g = single (pretty idx +:+ "_" +:+ opfunc (parsed op))%string (opfunc (parsed op)) u nodes (other_fields (parsed op)) /\ forall i, i ∈ node_ids nodes -> i < 0.
Proof.
  intros [Hok Hst] Hs Hg.
  destruct (generate_identified (mkRuntime (fun _ => 0) 0 (fun _ => 0)) off (parsed op) _ symbols (repeat pool off) Hs (repeat_length _ _) Hok Hst idx g Hg) as (ident & [I1 I2 _ _]).
  eexists _, _. split; [exact I1|]. intros i (n & Hi & Hn)%list_elem_of_bind. apply list_elem_of_fmap in Hn as (t & -> & Ht). cbn in Hi. destruct (in_lx t) eqn:Elx; [by apply elem_of_nil in Hi|]. cbn in Hi.
  unfold dvalues in Hi. rewrite <- list_fmap_compose in Hi. apply list_elem_of_fmap in Hi as (c & -> & Hc%elem_of_seq). cbn. destruct (I2 t c Ht Elx ltac:(lia)) as (a & j & _ & E1 & _). lia.
Qed.

(** A description in terms of the canonical one. *)
Lemma canonical_shape op idx off symbols g key : op_ok op -> length symbols = off -> compile_op_spec idx op symbols off = Ok g -> cache_key op = Ok key ->
  exists nodes f u other, key.1 = single ("0_" +:+ f)%string f u nodes other /\ (forall i, i ∈ node_ids nodes -> i < 0) /\
    sdsc_json g = single (pretty idx +:+ "_" +:+ f)%string f u (shift_node (Z.of_nat off) <$> nodes) other.
Proof.
  intros Hop Hs Hg Hk. apply bind_Ok in Hk as (g0 & Hg0 & [= <-]). destruct (generate_shift _ _ _ _ _ _ _ Hg Hg0) as (top & E0 & E & _).
  destruct (single_shape op 0 0 [] g0 Hop eq_refl Hg0) as (nodes & u & E1 & Hneg). pose proof E1 as E2. rewrite E0 in E2. injection E2 as ->. rewrite E1, E. by eexists nodes, (opfunc (parsed op)), u, _.
Qed.

Lemma compiled_as_mono prev symbols symbols' files files' op c : symbols `prefix_of` symbols' -> files ⊆ files' -> compiled_as prev symbols files op c -> compiled_as prev symbols' files' op c.
Proof.
  intros Hs Hf [(idx & s0 & g & ? & ? & Hp & ?) (fidx & Hin & ?)]. split; [exists idx, s0, g; split_and!; [done | done | by trans symbols | tauto..] | exists fidx; auto].
Qed.

(** The description of an operation against the one its executions use. *)
Lemma shift_zero (nodes : list schedule_node) : shift_node 0 <$> nodes = nodes.
Proof.
  rewrite <- (list_fmap_id nodes) at 2. apply list_fmap_ext. intros _ n _. unfold shift_node. case_bool_decide; [|done]. destruct n as [comp d]. cbn. f_equal. induction d as [|[k v] d IH]; [done|]. cbn. by rewrite IH, Z.sub_0_r.
Qed.

Lemma renumbered_self op idx off symbols g : op_ok op -> length symbols = off -> compile_op_spec idx op symbols off = Ok g -> renumbered (sdsc_json g) (sdsc_json g) idx.
Proof.
  intros Hop Hs Hg. destruct (single_shape op idx off symbols g Hop Hs Hg) as (nodes & u & E & Hneg). split. eexists _, _, u, nodes, _, 0, 0. rewrite shift_zero. split_and!; [done | done | done | exact E | exact E].
Qed.

Lemma renumbered_cached op op' idx i off off' symbols symbols' g g' key : op_ok op -> op_ok op' -> length symbols = off -> length symbols' = off' ->
  compile_op_spec idx op symbols off = Ok g -> compile_op_spec i op' symbols' off' = Ok g' -> cache_key op = Ok key -> cache_key op' = Ok key -> renumbered (sdsc_json g) (sdsc_json g') i.
Proof.
  intros H H' Hs Hs' Hg Hg' Hk Hk'. destruct (canonical_shape _ _ _ _ _ _ H Hs Hg Hk) as (nodes & f & u & other & E0 & Hneg & E). destruct (canonical_shape _ _ _ _ _ _ H' Hs' Hg' Hk') as (nodes' & f' & u' & other' & E0' & _ & E').
  rewrite E0 in E0'. injection E0' as _ <- <- <- <-. split. exists (pretty idx +:+ "_" +:+ f)%string, f, u, nodes, other, (Z.of_nat off), (Z.of_nat off'). split_and!; [lia | lia | done | done | done].
Qed.

(** One more operation, however it got its file. *)
Lemma compile_step done op st idx g fidx cached counter cache files : op_ok op -> compile_ok done st -> compile_op_spec idx op (cs_symbols st) (symbol_id_offset_counter st) = Ok g ->
  cs_files st ⊆ files -> (sdsc_file (pretty fidx), cached) ∈ files -> renumbered (sdsc_json g) cached fidx -> files.*1 = (fun i : nat => sdsc_file (pretty i)) <$> seq 0 counter -> cache_ok cache files ->
  compile_ok (done ++ [op]) (mkCompiling (symbols_after g) (cs_compiled st ++ [mkCompiled (sdsc_json g) (symbol_values g) (affine_strides g) (symbol_kinds g) cached]) counter
    (symbol_id_offset_counter st + length (symbol_values g)) cache files).
Proof.
  intros Hop [S1 S2 S3 S4 S5 S6] Hg Hfiles Hin Hrn Hnames Hcache.
  destruct (generate_described (mkRuntime (fun _ => 0) 0 (fun _ => 0)) (length (cs_symbols st)) (parsed op) (tiled_symbols_per_level op) (cs_symbols st) (concat (c_kinds <$> cs_compiled st)) eq_refl (eq_sym S1) (proj1 Hop) idx g) as [(vals & D1 & D2) D3 _ _ _ _].
  { rewrite S2 in Hg. exact Hg. }
  split; cbn; [| | | | done | done].
  - rewrite D1, fmap_app, concat_app, !length_app. cbn. rewrite app_nil_r. lia.
  - rewrite D1, length_app. lia.
  - rewrite !length_app. cbn. lia.
  - intros k op' [[Hl Hk] | [-> <-]]%lookup_snoc_Some.
    + destruct (S4 k op' Hk) as (c & Hc & Hca). exists c. rewrite lookup_app_l, take_app_le by lia. split; [done|]. eapply compiled_as_mono; [|exact Hfiles | exact Hca]. rewrite D1. by eexists.
    + eexists. rewrite <- S3, lookup_app_r, Nat.sub_diag, take_app_length by lia. split; [done|]. split; cbn.
      * exists idx, (cs_symbols st), g. rewrite <- S1. rewrite S2 in Hg. by split_and!.
      * by exists fidx.
Qed.

Lemma compile_op_ok done op st st' : op_ok op -> compile_ok done st -> compile_op op st = Ok st' -> compile_ok (done ++ [op]) st'.
Proof.
  intros Hop Hst H. unfold compile_op in H. apply bind_Ok in H as (key & Hkey & H). apply bind_Ok in H as (g & Hg & [= <-]).
  assert (forall n : nat, (sdsc_file (pretty n), sdsc_json g) ∈ cs_files st ++ [(sdsc_file (pretty n), sdsc_json g)]) as Hlast by (intros n; rewrite elem_of_app; right; list_mem).
  assert (length (cs_symbols st) = symbol_id_offset_counter st) as Hoff by (symmetry; apply (cm_offset _ _ Hst)).
  assert (forall n : nat, n = sdsc_counter st -> (cs_files st ++ [(sdsc_file (pretty n), sdsc_json g)]).*1 = (fun i : nat => sdsc_file (pretty i)) <$> seq 0 (S (sdsc_counter st))) as Hnames.
  { intros n ->. by rewrite fmap_app, (cm_files _ _ Hst), seq_S, fmap_app. }
  destruct (sdsc_cache st) as [cache|] eqn:Ec.
  - apply bind_Ok in Hkey as (k & Hk & [= <-]). destruct (cache_get cache k) as [[i cached]|] eqn:Ek; cbn [fst snd] in *.
    + apply cache_get_Some in Ek. destruct (cm_cache _ _ Hst _ _ _ _ Ec Ek) as (Hin & op' & off' & symbols' & g' & Hop' & Hk' & Hs' & Hg' & ->).
      eapply compile_step; [done | done | exact Hg | done | exact Hin | | apply Hst |].
      * exact (renumbered_cached op op' _ _ _ _ _ _ _ _ _ Hop Hop' Hoff Hs' Hg Hg' Hk Hk').
      * intros l key i' c' [= <-]. by apply (cm_cache _ _ Hst).
    + eapply compile_step; [done | done | exact Hg | set_solver | apply Hlast | exact (renumbered_self _ _ _ _ _ Hop Hoff Hg) | by apply Hnames |].
      intros l key i' c' [= <-] [Hin | [= -> -> ->]%list_elem_of_singleton]%elem_of_app.
      * destruct (cm_cache _ _ Hst _ _ _ _ Ec Hin) as (? & ?). split; [set_solver | done].
      * split; [apply Hlast|]. by exists op, (symbol_id_offset_counter st), (cs_symbols st), g.
  - injection Hkey as <-. eapply compile_step; [done | done | exact Hg | set_solver | apply Hlast | exact (renumbered_self _ _ _ _ _ Hop Hoff Hg) | by apply Hnames | done].
Qed.

Lemma compile_all_ok specs st cache : (forall op, op ∈ all_ops specs -> op_ok op) -> cache = None \/ cache = Some [] -> _compile_specs specs (mkCompiling [] [] 0 0 cache []) = Ok st -> compile_ok (all_ops specs) st.
Proof.
  intros Hops Hc. rewrite compile_all. refine (for_each_ind _ compile_ok _ _ _ _ _).
  - intros done op rest s1 s2 E H1 H2. eapply compile_op_ok; [apply Hops; rewrite E; list_mem | exact H1 | exact H2].
  - split; cbn; [done | done | done | done | done|]. intros l key i c -> Hin. destruct Hc as [? | [= ->]]; [done|]. by apply elem_of_nil in Hin.
Qed.
