(* ===== verification/BundleSafe.v ===== *)
(** * A bundle computes every address

    The emitted function runs, executes the operations in the order of the loops, and binds every identifier of
    the description it runs to the address of the tensor's slice on the core, moved by the tensor's strides
    and the loop indices. *)

From S2P Require Import Prelude PyDict SdscSymbols SdscIdents Bundle BundleRun BundleBody BundleCompile.

(** ** What is expected *)

(** The strides of a tensor for each loop. *)
Definition tile_strides (op : op_spec) (t : SDSCArgs) : res (list (dict Z)) :=
  nb ← num_bytes (elems_per_stick t); py_map (level_strides t nb) (tiled_symbols_per_level op).

(** Besides having no dynamic sizes: tensors that start at one address move together. *)
Record op_safe (op : op_spec) : Prop := {
  os_ok : op_ok op;
  os_alike : forall t t' c c' a d d' ivs, t ∈ args (parsed op) -> t' ∈ args (parsed op) -> in_lx t = false -> in_lx t' = false -> same_base t t' ->
    core_address (parsed op) t c = Ok a -> core_address (parsed op) t' c' = Ok a -> tile_strides op t = Ok d -> tile_strides op t' = Ok d' -> tensor_advance ivs d = tensor_advance ivs d'
}.

(** The values the caller passes, by the kinds [generate_bundle] returns. *)
Definition parameter_value (rt : runtime) (k : SymbolKind) : option Z :=
  match k with kernel a => Some (arg_base rt a) | pool => Some (pool_base rt) | dimension _ _ s => Some (dim_value rt s) | _ => None end.

Definition launch (rt : runtime) (b : bundle) : env :=
  fun x => p ← list_find (fun p => p.1.1 = x) (zip (params b) (param_symbol_kinds b)); parameter_value rt p.2.2.

(** [ev] executes [op] at the loop indices [ivs] with the right addresses. *)
Definition executes (rt : runtime) (files : list (string * dict top_val)) (op : op_spec) (ivs : list Z) (ev : event) : Prop := exists name top o,
  dget files (ev_file ev) = Some [(name, top)] /\ dscs top = [[(opfunc (parsed op), o)]] /\ other_json top = other_fields (parsed op) /\
  length (scheduleTree o) = length (args (parsed op)) /\
  forall i t, args (parsed op) !! i = Some t -> exists data, scheduleTree o !! i = Some (mkNode (if in_lx t then "lx" else "hbm") data) /\
    forall core, (core < num_cores (parsed op))%nat -> (core < used_cores (parsed op))%nat ->
      if in_lx t then dget data (core_key core) = Some (start_address t)
      else exists a d id, core_address (parsed op) t core = Ok a /\ tile_strides op t = Ok d /\ dget data (core_key core) = Some id /\
        zget (zip (ev_ids ev) (ev_values ev)) id = Some (expected_address rt t a + tensor_advance ivs d).

Section compiled.
Context (rt : runtime) (ops : list op_spec) (st : compiling) (Hst : compile_ok ops st) (Hgood : forall op, op ∈ ops -> op_ok op).

#[local] Notation kinds := (concat (c_kinds <$> cs_compiled st)).
#[local] Notation symbols := (cs_symbols st).
#[local] Notation address sid := (symbol_address rt symbols kinds (Z.to_nat (Z.abs sid - 1))).

(** What is known of the [k]th entry. *)
Record meaning (op : op_spec) (c : compiled_entry) (ident : SDSCArgs -> nat -> Z) : Prop := {
  me_json : exists name, c_json c = single name (opfunc (parsed op)) (Z.of_nat (used_cores (parsed op))) (node_with (parsed op) ident <$> args (parsed op)) (other_fields (parsed op));
  me_address : forall t core, t ∈ args (parsed op) -> in_lx t = false -> (core < num_cores (parsed op))%nat -> exists a, core_address (parsed op) t core = Ok a /\
    ident t core < 0 /\ address (ident t core) = Some (expected_address rt t a);
  me_shared : forall t t' core core' a a', t ∈ args (parsed op) -> t' ∈ args (parsed op) -> in_lx t = false -> in_lx t' = false ->
    core_address (parsed op) t core = Ok a -> core_address (parsed op) t' core' = Ok a' -> ident t core = ident t' core' -> a = a' /\ same_base t t';
  me_strides : forall i t, args (parsed op) !! i = Some t -> in_lx t = false -> exists d, tile_strides op t = Ok d /\ c_strides c !! i = Some d
}.

(** How the [k]th entry was generated. *)
Lemma entry_gen k op : ops !! k = Some op -> exists c idx symbols0 kinds0 g rest more, cs_compiled st !! k = Some c /\ length kinds0 = length symbols0 /\
  kinds = (kinds0 ++ symbol_kinds g) ++ rest /\ symbols = symbols_after g ++ more /\ kinds0 = concat (c_kinds <$> take k (cs_compiled st)) /\
  generate_sdsc (Z.of_nat (length symbols0)) (parsed op) (tiled_symbols_per_level op) idx symbols0 = Ok g /\
  c_json c = sdsc_json g /\ c_strides c = affine_strides g /\ c_kinds c = symbol_kinds g /\
  exists fidx, (sdsc_file (pretty fidx), c_cached c) ∈ cs_files st /\ renumbered (c_json c) (c_cached c) fidx.
Proof.
  intros Hk. destruct (cm_entries _ _ Hst k op Hk) as (c & Hc & [(idx & s0 & g & Hs0 & Hg & [more Hp] & E1 & E2 & E3) Hf]).
  unfold compile_op_spec in Hg. rewrite <- Hs0 in Hg. eexists c, idx, s0, _, g, (concat (c_kinds <$> drop (S k) (cs_compiled st))), more. split_and!; [done | by rewrite Hs0 | | done | done | done | done | done | done | done].
  rewrite <- (take_drop_middle _ _ _ Hc) at 1. rewrite fmap_app, concat_app. cbn. by rewrite E3, app_assoc.
Qed.

Lemma entry_meaning k op : ops !! k = Some op -> exists c ident, cs_compiled st !! k = Some c /\ meaning op c ident /\
  exists fidx, (sdsc_file (pretty fidx), c_cached c) ∈ cs_files st /\ renumbered (c_json c) (c_cached c) fidx.
Proof.
  intros Hk. destruct (entry_gen k op Hk) as (c & idx & s0 & k0 & g & rest & more & Hc & Hl & Ek & Es & _ & Hg & E1 & E2 & E3 & Hf).
  destruct (Hgood op (list_elem_of_lookup_2 _ _ _ Hk)) as [Hok Hstat].
  destruct (generate_identified rt _ (parsed op) _ s0 k0 eq_refl Hl Hok Hstat idx g Hg) as (ident & [I1 I2 I3 _]).
  exists c, ident. split; [done|]. split; [|done]. split.
  - eexists. rewrite E1. exact I1.
  - intros t core Ht Hlx Hcore. destruct (I2 t core Ht Hlx Hcore) as (a & j & Ha & -> & Hj). exists a. split_and!; [done | lia|]. replace (Z.to_nat (Z.abs (- (Z.of_nat j + 1)) - 1)) with j by lia.
    rewrite Es, Ek. by apply symbol_address_app.
  - exact I3.
  - intros i t Hi Hlx. destruct (generate_affine _ _ _ _ _ _ _ _ Hg Hi Hlx) as (nb & pl & Hnb & Hpl & Hd). exists pl. unfold tile_strides. rewrite Hnb, E2. done.
Qed.

Lemma lookup_concat {A} (l : list (list A)) j x : concat l !! j = Some x -> exists k y m, l !! k = Some y /\ y !! m = Some x /\ j = (length (concat (take k l)) + m)%nat.
Proof.
  revert j. induction l as [|y l IH]; intros j H; [done|]. cbn in H. apply lookup_app_Some in H as [H | [Hl H]]; [by exists 0%nat, y, j|].
  destruct (IH _ H) as (k & y' & m & H1 & H2 & H3). exists (S k), y', m. split_and!; [done | done|]. cbn. rewrite length_app. lia.
Qed.

(** Every symbol was registered for some operation. *)
Lemma symbol_origin j kd : kinds !! j = Some kd -> exists k op m, ops !! k = Some op /\ j = (length (concat (c_kinds <$> take k (cs_compiled st))) + m)%nat /\ forall c, cs_compiled st !! k = Some c -> c_kinds c !! m = Some kd.
Proof.
  intros (k & y & m & H1 & H2 & ->)%lookup_concat. rewrite list_lookup_fmap in H1. destruct (cs_compiled st !! k) as [c|] eqn:Ec; [|done]. injection H1 as <-.
  destruct (lookup_lt_is_Some_2 ops k) as [op Hop]; [rewrite <- (cm_length _ _ Hst); by eapply lookup_lt_Some|]. exists k, op, m. rewrite fmap_take. split_and!; [done | done | intros c' Hc'; by simplify_eq].
Qed.

Lemma compiled_symbols_ok : symbols_ok rt kinds symbols.
Proof.
  assert (forall j kd, kinds !! j = Some kd -> is_dimension kd = false /\ (forall b o a, kd = kernel_derived b o a -> is_Some (base_address rt kinds b) /\ b < Z.of_nat j) /\
    (forall a o, kd = kernel_slice a o -> kernel a ∈ kinds)) as H.
  { intros j kd Hj. destruct (symbol_origin j kd Hj) as (k & op & m & Hop & Ej & Hm). destruct (entry_gen k op Hop) as (c & idx & s0 & k0 & g & rest & more & Hc & Hl & Ek & Es & Ek0 & Hg & E1 & E2 & E3 & _).
    specialize (Hm c Hc). rewrite E3 in Hm. rewrite <- Ek0 in Ej. destruct (Hgood op (list_elem_of_lookup_2 _ _ _ Hop)) as [Hok Hstat].
    destruct (generate_identified rt _ (parsed op) _ s0 k0 eq_refl Hl Hok Hstat idx g Hg) as (ident & [_ _ _ I4]).
    destruct (generate_described rt _ (parsed op) _ s0 k0 eq_refl Hl Hok idx g Hg) as [_ _ _ D4 D5 _]. rewrite Ek. split_and!.
    - by eapply I4, list_elem_of_lookup_2.
    - intros b o a ->. destruct (D4 m b o a Hm) as [[v Hv] Hlt]. split; [exists v; by apply base_address_app | lia].
    - intros a o ->. apply elem_of_app. left. by eapply D5, list_elem_of_lookup_2. }
  split; [apply Hst | | |].
  - intros kd [j Hj]%list_elem_of_lookup. apply (H j kd Hj).
  - intros j b o a Hj. by apply (proj1 (proj2 (H j _ Hj)) b o a).
  - intros a o [j Hj]%list_elem_of_lookup. by apply (proj2 (proj2 (H j _ Hj)) a o).
Qed.

(** An identifier in a description is a tensor's on a core. *)
Lemma meaning_get op c ident i core sid : meaning op c ident -> _get_tensor_core_sym_id (c_json c) i core = Some sid ->
  exists t, args (parsed op) !! i = Some t /\ in_lx t = false /\ (core < num_cores (parsed op))%nat /\ sid = ident t core.
Proof.
  intros [[name ->] _ _ _]. rewrite single_get, list_lookup_fmap. destruct (args (parsed op) !! i) as [t|]; [|done]. cbn. destruct (in_lx t) eqn:Elx; [done|]. cbn. intros H. exists t.
  pose proof (dget_Some_elem _ _ _ H) as (c' & Ec & Hc'%elem_of_seq)%list_elem_of_fmap. assert (core = c') as <- by exact (core_key_inj _ _ (f_equal fst Ec)).
  split_and!; [done | done | lia | exact (f_equal snd Ec)].
Qed.

Lemma meaning_ids op c ident sid : meaning op c ident -> sid ∈ _extract_symbol_ids (c_json c) ->
  exists t core, t ∈ args (parsed op) /\ in_lx t = false /\ (core < num_cores (parsed op))%nat /\ sid = ident t core.
Proof.
  intros [[name ->] _ _ _]. rewrite single_ids, add_ids_elem. intros [H%elem_of_nil | [_ (n & Hi & Hn)%list_elem_of_bind]]; [done|]. apply list_elem_of_fmap in Hn as (t & -> & Ht). cbn in Hi.
  destruct (in_lx t) eqn:Elx; [by apply elem_of_nil in Hi|]. cbn in Hi. unfold dvalues in Hi. rewrite <- list_fmap_compose in Hi. apply list_elem_of_fmap in Hi as (core & -> & Hc%elem_of_seq).
  exists t, core. split_and!; [done | done | lia | done].
Qed.

Context (Hops : forall op, op ∈ ops -> op_safe op).

Lemma compiled_entry_ok c : c ∈ cs_compiled st -> entry_ok rt kinds symbols c.
Proof.
  intros [k Hc]%list_elem_of_lookup. destruct (lookup_lt_is_Some_2 ops k) as [op Hop]; [rewrite <- (cm_length _ _ Hst); by eapply lookup_lt_Some|].
  destruct (entry_meaning k op Hop) as (c' & ident & Hc' & M & _). assert (c' = c) as -> by congruence. split.
  - intros sid Hs. destruct (meaning_ids _ _ _ _ M Hs) as (t & core & Ht & Hlx & Hcore & ->). destruct (me_address _ _ _ M t core Ht Hlx Hcore) as (a & _ & Hneg & E). split; [done | by eexists].
  - intros i core sid Hs. destruct (meaning_get _ _ _ _ _ _ M Hs) as (t & Ht%list_elem_of_lookup_2 & Hlx & Hcore & ->). destruct (me_address _ _ _ M t core Ht Hlx Hcore) as (a & _ & Hneg & E). split; [done | by eexists].
  - intros i j core core' sid di dj ivs Hi Hj Hdi Hdj. destruct (meaning_get _ _ _ _ _ _ M Hi) as (t & Ht & Hlx & Hcore & ->). destruct (meaning_get _ _ _ _ _ _ M Hj) as (t' & Ht' & Hlx' & Hcore' & E).
    apply list_elem_of_lookup_2 in Ht as Hin, Ht' as Hin'. destruct (me_address _ _ _ M t core Hin Hlx Hcore) as (a & Ha & _). destruct (me_address _ _ _ M t' core' Hin' Hlx' Hcore') as (a' & Ha' & _).
    destruct (me_shared _ _ _ M t t' core core' a a' Hin Hin' Hlx Hlx' Ha Ha' E) as [<- Hb]. destruct (me_strides _ _ _ M i t Ht Hlx) as (d & Hd & Ed). destruct (me_strides _ _ _ M j t' Ht' Hlx') as (d' & Hd' & Ed').
    assert (di = d) as -> by congruence. assert (dj = d') as -> by congruence. by eapply (os_alike _ (Hops op (list_elem_of_lookup_2 _ _ _ Hop)) t t').
Qed.

Lemma files_get (fidx : nat) cached : (sdsc_file (pretty fidx), cached) ∈ cs_files st -> dget (cs_files st) (sdsc_file (pretty fidx)) = Some cached.
Proof.
  intros H. apply dget_NoDup; [|done]. unfold dkeys. rewrite (cm_files _ _ Hst). apply NoDup_fmap_2_strong; [|apply NoDup_seq]. intros x y _ _ E. apply (inj pretty).
  unfold sdsc_file in E. apply (inj (String.append "sdsc_"%string)) in E. by apply string_app_inj in E.
Qed.

Lemma zget_zip ids vs p i v : NoDup ids -> ids !! p = Some i -> vs !! p = Some v -> zget (zip ids vs) i = Some (v : Z).
Proof.
  revert vs p. induction ids as [|j ids IH]; intros vs p Hnd Hi Hv; [done|]. destruct vs as [|w vs]; [done|]. apply NoDup_cons in Hnd as [Hj Hnd]. unfold zget. cbn. destruct p as [|p]; cbn in Hi, Hv.
  - injection Hi as ->. injection Hv as ->. by rewrite decide_True.
  - apply list_elem_of_lookup_2 in Hi as Hin. rewrite decide_False by (intros ->; done). specialize (IH vs p Hnd Hi Hv). unfold zget in IH. by destruct (list_find _ (zip ids vs)) as [[? [? ?]]|].
Qed.

Lemma event_executes k ivs op ev : ops !! k = Some op -> good_event rt kinds symbols (cs_compiled st) (k, ivs) ev -> executes rt (cs_files st) op ivs ev.
Proof.
  intros Hop (c & name & top & tail & Hc & Ecached & Efile & Eids & Hvals). cbn [fst snd] in *. destruct (entry_meaning k op Hop) as (c' & ident & Hc' & M & fidx & Hfile & [R]).
  assert (c' = c) as -> by congruence. clear Hc'. destruct R as (name0 & f & u & nodes & other & off & off' & Ho & Ho' & Hneg & Efresh & Ecc). rewrite Ecached in Ecc. injection Ecc as -> -> ->.
  rewrite pretty_before in Efile. rewrite Ecached in Hfile. destruct (me_json _ _ _ M) as [name1 Ej]. rewrite Efresh in Ej. injection Ej as _ Ef Eu En Eo. subst f other.
  assert (NoDup (_extract_symbol_ids (c_cached c))) as Hnd by (rewrite Ecached; unfold _extract_symbol_ids; apply add_ids_NoDup, NoDup_nil_2).
  eexists _, _, _. rewrite Efile, (files_get _ _ Hfile). split; [done|]. split; [done|]. split; [done|]. cbn [scheduleTree]. split.
  { rewrite length_fmap. by rewrite <- (length_fmap (shift_node off)), En, length_fmap. }
  intros i t Ht. assert (exists n, nodes !! i = Some n /\ shift_node off n = node_with (parsed op) ident t) as (n & Hn & Esh).
  { assert ((shift_node off <$> nodes) !! i = Some (node_with (parsed op) ident t)) as H by (rewrite En, list_lookup_fmap, Ht; done).
    rewrite list_lookup_fmap in H. destruct (nodes !! i) as [n|]; [|done]. injection H as H. by exists n. }
  rewrite list_lookup_fmap, Hn. cbn [fmap option_fmap option_map]. unfold shift_node in Esh |- *. destruct (in_lx t) eqn:Elx.
  - case_bool_decide as Ecomp; [by apply (f_equal component) in Esh; cbn in Esh; rewrite Ecomp, Elx in Esh|]. rewrite Esh. unfold node_with. rewrite Elx. eexists. split; [done|]. intros core Hcore _. by rewrite dget_cores.
  - case_bool_decide as Ecomp; [|by rewrite Esh in Ecomp; cbn in Ecomp; rewrite Elx in Ecomp]. rewrite Ecomp. eexists. split; [done|]. intros core Hcore Hused.
    apply list_elem_of_lookup_2 in Ht as Hin. destruct (me_address _ _ _ M t core Hin Elx Hcore) as (a & Ha & _ & Haddr). destruct (me_strides _ _ _ M i t Ht Elx) as (d & Hd & Hcd).
    assert (exists x, dget (start_data n) (core_key core) = Some x /\ x - off = ident t core) as (x & Hx & Ex).
    { assert (dget ((fun kv => (kv.1, kv.2 - off)) <$> start_data n) (core_key core) = Some (ident t core)) as H.
      { apply (f_equal start_data) in Esh. cbn [start_data node_with] in Esh. rewrite Esh, Elx. by rewrite (dget_cores (fun c => ident t c)). }
      rewrite dget_shift in H. destruct (dget (start_data n) (core_key core)) as [x|]; [|done]. injection H as H. by exists x. }
    exists a, d, (x - off'). split_and!; [done | done | by rewrite dget_shift, Hx|].
    assert (x ∈ node_ids nodes) as Hxin.
    { apply list_elem_of_bind. exists n. rewrite (bool_decide_eq_true_2 _ Ecomp). split; [|by eapply list_elem_of_lookup_2]. apply list_elem_of_fmap. exists (core_key core, x). split; [done | by apply dget_Some_elem]. }
    assert (x ∈ _extract_symbol_ids (single "" (opfunc (parsed op)) u nodes (other_fields (parsed op)))) as [p Hp]%list_elem_of_lookup by (rewrite single_ids; apply add_ids_elem; right; auto).
    assert (_extract_symbol_ids (c_cached c) !! p = Some (x - off')) as Hp'.
    { rewrite Ecached. etrans; [exact (f_equal (fun l => l !! p) (ids_shift off' nodes _ _ _ _ ""%string Ho' Hneg))|]. by rewrite list_lookup_fmap, Hp. }
    assert (_extract_symbol_ids (c_json c) !! p = Some (ident t core)) as Hpf.
    { rewrite Efresh, (ids_shift off nodes _ _ _ _ ""%string Ho Hneg), list_lookup_fmap, Hp. cbn. by rewrite Ex. }
    destruct (Forall2_lookup_l _ _ _ _ _ Hvals Hpf) as (v & Hv & Hval). rewrite <- (Hval _ i core d Haddr); [| | | done].
    + rewrite Eids. by eapply zget_zip.
    + rewrite Efresh. cbn. rewrite Ef. lia.
    + rewrite Efresh, single_get, list_lookup_fmap, Hn. cbn. unfold shift_node. rewrite (bool_decide_eq_true_2 _ Ecomp). cbn. rewrite (bool_decide_eq_true_2 _ Ecomp), dget_shift, Hx. cbn. by rewrite Ex.
Qed.
End compiled.

(** ** What is bound before the declarations *)

(** Statements that each bind a name to a value they compute from [src]. *)
Lemma exec_binds {A} maps allocated (src : ssa -> Prop) (f : A -> stmt) (x : A -> ssa) (v : A -> Z) (e0 : env) l :
  (forall y e, y ∈ l -> (forall z, src z -> e z = e0 z) -> exec_stmt maps allocated (f y) e = Some (bind (x y) (v y) e, [])) ->
  (forall y, ~ src (x y)) -> (forall y y', y ∈ l -> y' ∈ l -> x y = x y' -> v y = v y') -> forall e, (forall z, src z -> e z = e0 z) ->
  exists e', exec maps allocated (f <$> l) e = Some (e', []) /\ (forall z, z ∉ x <$> l -> e' z = e z) /\ forall y, y ∈ l -> e' (x y) = Some (v y).
Proof.
  intros Hf Hsrc Hv. induction l as [|y l IH]; intros e He; [exists e; split_and!; [done | done | by intros ? ?%elem_of_nil]|].
  destruct IH with (e := bind (x y) (v y) e) as (e' & X & K & B).
  - intros y' e1 Hy'. apply Hf. by right.
  - intros y1 y2 H1 H2. apply Hv; by right.
  - intros z Hz. rewrite bind_other; [by apply He | intros ->; by apply (Hsrc y)].
  - exists e'. split_and!.
    + cbn. rewrite (Hf y e) by (done || list_mem). cbn. by rewrite X.
    + intros z Hz. rewrite fmap_cons, not_elem_of_cons in Hz. destruct Hz as [Hz Hz']. rewrite K by done. by apply bind_other.
    + intros y' [-> | Hy']%elem_of_cons; [|by apply B]. destruct (decide (x y ∈ x <$> l)) as [(y' & E & Hy')%list_elem_of_fmap | Hn]; [rewrite E, B by done; f_equal; symmetry; apply Hv; [list_mem | by right | done] | rewrite K by done; apply bind_same].
Qed.

(** The value of a parameter by its name. *)
Definition base_value (rt : runtime) (x : ssa) : option Z :=
  match x with PoolBase => Some (pool_base rt) | ArgBase a => Some (arg_base rt a) | _ => None end.

Lemma launch_value rt b : Forall2 (fun p k => base_value rt p.1 = parameter_value rt k) (params b) (param_symbol_kinds b) ->
  forall x, launch rt b x = if decide (x ∈ (params b).*1) then base_value rt x else None.
Proof.
  unfold launch. generalize (params b) as ps, (param_symbol_kinds b) as ks. induction 1 as [|[y ty] k ps ks H _ IH]; intros x; [done|]. specialize (IH x). cbn in *. destruct (decide (y = x)) as [-> | Hne].
  - rewrite decide_True by list_mem. done.
  - destruct (decide (x ∈ ps.*1)) as [Hin | Hn]; [rewrite decide_True by (by right) | rewrite decide_False by (rewrite elem_of_cons; naive_solver)];
      by destruct (list_find _ (zip ps ks)) as [[? ?]|].
Qed.

Lemma exec_bounds maps allocated bounds decl : py_map declare_bound (imap pair bounds) = Ok decl -> forall e, exists e',
  exec maps allocated (if bool_decide (bounds = []) then [] else [Constant C0 0; Constant C1 1] ++ decl) e = Some (e', []) /\
  (bounds <> [] -> e' C0 = Some 0 /\ e' C1 = Some 1) /\ (forall k n, bounds !! k = Some (Some n) -> e' (LoopBound k) = Some n) /\
  (forall x, match x with C0 | C1 | LoopBound _ => False | _ => True end -> e' x = e x) /\ forall k o, bounds !! k = Some o -> is_Some o.
Proof.
  intros H e. apply py_map_Ok in H. assert (forall k o, bounds !! k = Some o -> is_Some o) as Hsome.
  { intros k o Hk. destruct (Forall2_lookup_l _ _ _ k (k, o) H) as (s & _ & Hs); [by rewrite list_lookup_imap, Hk|]. unfold declare_bound in Hs. by destruct o; [eexists|]. }
  assert (decl = (fun ik : nat * option Z => Constant (LoopBound ik.1) (default 0 ik.2)) <$> imap pair bounds) as ->.
  { apply (Forall2_fmap_eq _ _ _ _ H). intros [k o] s _ Hs. unfold declare_bound in Hs. cbn in *. destruct o; [by injection Hs|done]. }
  case_bool_decide as Eb.
  { exists e. subst bounds. split_and!; [done | done | done | done | done]. }
  destruct (exec_binds maps allocated (fun _ => False) (fun ik : nat * option Z => Constant (LoopBound ik.1) (default 0 ik.2)) (fun ik => LoopBound ik.1) (fun ik => default 0 ik.2) e (imap pair bounds)
    (fun _ _ _ _ => eq_refl) (fun _ F => F)) with (e := bind C1 1 (bind C0 0 e)) as (e' & X & K & B); [| done |].
  { intros [k o] [k' o'] [i Hi]%list_elem_of_lookup [j Hj]%list_elem_of_lookup [= <-]. rewrite list_lookup_imap in Hi, Hj.
    destruct (bounds !! i) as [oi|] eqn:Ei; [|done]. destruct (bounds !! j) as [oj|] eqn:Ej; [|done]. injection Hi as <- <-. injection Hj as <- <-. cbn. congruence. }
  assert (forall x, match x with LoopBound _ => False | _ => True end -> e' x = bind C1 1 (bind C0 0 e) x) as K'.
  { intros x Hx. apply K. intros (ik & -> & _)%list_elem_of_fmap. done. }
  exists e'. split_and!.
  - cbn. by rewrite X.
  - intros _. rewrite !K' by done. by rewrite bind_same, bind_other, bind_same.
  - intros k n Hk. apply (B (k, Some n)). apply list_elem_of_lookup. exists k. by rewrite list_lookup_imap, Hk.
  - intros x Hx. rewrite K' by (by destruct x). by rewrite !bind_other by (by intros ->).
  - done.
Qed.

Lemma kernel_arg_listed kinds a : kernel a ∈ kinds -> a ∈ (kernel_arg_sym_indices kinds).*2.
Proof.
  intros [i Hi]%list_elem_of_lookup. destruct (canonical_spec kernel_arg kinds) as [A B C _]. unfold kernel_arg_sym_indices. rewrite (py_sorted_perm _ (kernel_args kinds)).
  assert (exists j, (j, a) ∈ (canonical kernel_arg kinds).1) as [j Hj]; [|apply list_elem_of_fmap; by exists (j, a)].
  destruct (C i _ a Hi eq_refl) as [([j k] & -> & Hj)%list_elem_of_fmap | ([d c] & -> & Hd)%list_elem_of_fmap].
  - destruct (A _ _ Hj) as (s & Hs & Hk). cbn in Hi. rewrite Hi in Hs. injection Hs as <-. injection Hk as <-. by exists j.
  - destruct (B _ _ Hd) as (s & k & Hs & Hk & Hc). cbn in Hi. rewrite Hi in Hs. injection Hs as <-. injection Hk as <-. by exists c.
Qed.

(** ** The whole function *)

Section whole.
Context (rt : runtime) (cfg : bundle_config) (pool_size : Z) (kinds : list SymbolKind).

#[local] Notation has_pool := (existsb is_pool kinds).
#[local] Notation pool_param := (has_pool && frontend_pool_allocation cfg).
#[local] Notation arguments := (kernel_arg_sym_indices kinds).

Lemma has_pool_true : pool ∈ kinds -> has_pool = true.
Proof. intros H. apply existsb_exists. exists pool. split; [by apply list_elem_of_In | done]. Qed.

(** The statements before the loop constants bind the pool and the arguments. *)
Lemma exec_parameters maps b : params b = (if pool_param then [(PoolBase, address_type)] else []) ++ ((fun ia => (ArgBase ia.2, address_type)) <$> arguments) ->
  param_symbol_kinds b = (if pool_param then [pool] else []) ++ ((fun ia => kernel ia.2) <$> arguments) -> exists e,
  exec maps (pool_base rt) ((if has_pool then [if frontend_pool_allocation cfg then Extract Pool PoolBase address_type else Allocate Pool pool_size] else [])
    ++ ((fun ia => Extract (Arg ia.2) (ArgBase ia.2) address_type) <$> arguments)) (launch rt b) = Some (e, []) /\
  (forall a, kernel a ∈ kinds -> e (Arg a) = Some (arg_base rt a)) /\ (pool ∈ kinds -> e Pool = Some (pool_base rt)) /\
  forall x, match x with Arg _ | Pool | ArgBase _ | PoolBase => False | _ => True end -> e x = None.
Proof.
  intros Hp Hk. assert (forall x, launch rt b x = if decide (x ∈ (params b).*1) then base_value rt x else None) as Hl.
  { apply launch_value. rewrite Hp, Hk. apply Forall2_app; [destruct pool_param; repeat constructor|]. apply Forall2_fmap, Forall_Forall2_diag, Forall_forall. done. }
  assert (exists e, exec maps (pool_base rt) (if has_pool then [if frontend_pool_allocation cfg then Extract Pool PoolBase address_type else Allocate Pool pool_size] else []) (launch rt b) = Some (e, []) /\
    (pool ∈ kinds -> e Pool = Some (pool_base rt)) /\ forall x, x <> Pool -> e x = launch rt b x) as (e & X1 & P1 & K1).
  { destruct has_pool eqn:Eh; [|exists (launch rt b); split_and!; [done | intros Hin%has_pool_true; congruence | done]]. exists (bind Pool (pool_base rt) (launch rt b)).
    split_and!; [| intros _; apply bind_same | intros x Hx; by apply bind_other]. destruct (frontend_pool_allocation cfg); [|done]. cbn. rewrite Hl, decide_True; [done|]. rewrite Hp. cbn. list_mem. }
  destruct (exec_binds maps (pool_base rt) (fun z => match z with ArgBase _ => True | _ => False end) (fun ia : nat * Z => Extract (Arg ia.2) (ArgBase ia.2) address_type) (fun ia => Arg ia.2) (fun ia => arg_base rt ia.2) e arguments)
    with (e := e) as (e' & X2 & K2 & B2); [| intros y F; exact F | by intros y y' _ _ [= ->] | done |].
  { intros y e1 Hy H1. cbn. rewrite H1, K1, Hl by done. rewrite decide_True; [done|]. rewrite Hp, fmap_app, elem_of_app. right. rewrite <- list_fmap_compose. apply list_elem_of_fmap. by exists y. }
  exists e'. split_and!.
  - exact (exec_app_Some _ _ _ _ _ _ _ _ _ X1 X2).
  - intros a ([i a'] & -> & Ha)%kernel_arg_listed%list_elem_of_fmap. by apply (B2 (i, a')).
  - intros Hin. rewrite K2; [by apply P1|]. by intros (? & ? & _)%list_elem_of_fmap.
  - intros x Hx. rewrite K2 by (by intros (? & -> & _)%list_elem_of_fmap). rewrite K1 by (by intros ->). rewrite Hl. by destruct x; case_decide.
Qed.
End whole.

(** C6. If generate_bundle succeeds, the function launched with its parameters runs to the end
    and executes the operations in loop order; every execution names a written file that
    describes its operation, fresh or from the cache, and binds the identifier the file holds
    for a tensor and a core to the address of that core's slice advanced by the tensor's strides
    times the loop indices. Conditions on every operation: no dynamic sizes; at least one core,
    core 0 on the first slice of every dimension; HBM tensors of negative argument index are in
    the pool; total slice offsets are non-negative; addresses of different arguments are
    different numbers; two HBM tensors whose slices start at one address advance alike with the
    loops. *)
Theorem bundle_computes_addresses rt cfg specs pool_size b : (forall op, op ∈ all_ops specs -> op_safe op) -> generate_bundle cfg specs pool_size = Ok b ->
  exists e t, exec (affine_maps b) (pool_base rt) (statements b) (launch rt b) = Some (e, t) /\
    Forall2 (fun ki ev => exists op, all_ops specs !! ki.1 = Some op /\ executes rt (description_files b) op ki.2 ev) (schedule 0 [] specs) t.
Proof.
  intros Hops H. unfold generate_bundle in H. apply bind_Ok in H as (_ & _ & H). apply bind_Ok in H as (st & Hst & H). apply bind_Ok in H as (col & Hcol & H). apply bind_Ok in H as (dims & Hdims & H).
  apply bind_Ok in H as (_ & _ & H). apply bind_Ok in H as (decl & Hdecl & H). apply bind_Ok in H as (canon & Hcanon & H). apply bind_Ok in H as (d & Hd & H). apply bind_Ok in H as (body & Hbody & H).
  assert (compile_ok (all_ops specs) st) as Hok.
  { eapply compile_all_ok; [|  | exact Hst]; [intros op Hop; apply (Hops op Hop) | destruct (use_sdsc_cache cfg); auto]. }
  assert (forall op, op ∈ all_ops specs -> op_ok op) as Hgood by (intros op Hop; apply (Hops op Hop)).
  set (kinds := concat (c_kinds <$> cs_compiled st)) in *. pose proof (compiled_symbols_ok rt _ _ Hok Hgood) as Hsym. fold kinds in Hsym.
  destruct (no_dimensions rt kinds _ Hsym) as [Hnd _]. rewrite Hnd in Hdims. injection Hdims as <-. cbn [fmap list_fmap] in H. rewrite !app_nil_r in H. injection H as Hb.
  destruct (exec_parameters rt cfg pool_size kinds (affine_map_index col) b) as (e1 & X1 & A1 & P1 & N1); [by rewrite <- Hb | by rewrite <- Hb |].
  destruct (exec_bounds (affine_map_index col) (pool_base rt) _ _ Hdecl e1) as (e2 & X2 & C2 & B2 & K2 & Hsome).
  assert (bound rt kinds e2) as Hbound.
  { split; [intros a Ha; rewrite K2 by done; by apply A1 | intros Hp; rewrite K2 by done; by apply P1|].
    intros x Hx. rewrite K2 by (by destruct x; try done; destruct Hx). apply N1. by destruct x; try done; destruct Hx. }
  destruct (declarations_bind rt kinds (cs_symbols st) Hsym (affine_map_index col) (pool_base rt) e2 Hbound _ _ _ Hcanon Hd) as (e3 & X3 & K3 & S3).
  assert (forall sid, sid < 0 -> sid = - (Z.of_nat (Z.to_nat (Z.abs sid - 1)) + 1)) as Hsid by (intros; lia).
  destruct (body_runs rt kinds (cs_symbols st) (sym_canonical d) (affine_map_index col) (pool_base rt) (cs_compiled st) (loop_var_indices col) (_collect_loop_bounds specs)) with (specs := specs) (cst := col) (r := body) (env := e3)
    as (e4 & t & X4 & G); [by apply (compiled_entry_ok rt _ _ Hok Hgood Hops) | exact Hsome | done | done | done | done | done | |].
  { assert (forall sid, sid < 0 -> is_Some (symbol_address rt (cs_symbols st) kinds (Z.to_nat (Z.abs sid - 1))) ->
      e3 (_resolve_sym kinds (sym_canonical d) sid) = symbol_address rt (cs_symbols st) kinds (Z.to_nat (Z.abs sid - 1))) as Hres.
    { intros sid Hneg [a Ha]. rewrite (Hsid sid Hneg) at 1. rewrite Ha. by apply S3. }
    split; [done | intros Hne; rewrite !K3 by done; by apply C2 | intros k n Hk; rewrite K3 by done; by apply B2 | intros sid [? ?]; by apply Hres |].
    intros sid [Hneg Hs]. specialize (Hres sid Hneg Hs). destruct Hs as [a Ha]. rewrite Ha in Hres.
    destruct (_resolve_sym kinds (sym_canonical d) sid) eqn:E; try exact I; rewrite K3, K2, N1 in Hres by done; done. }
  subst b. exists e4, t. split.
  - cbn [affine_maps statements]. by rewrite app_assoc, (exec_app _ _ _ _ _ _ _ X1), (exec_app _ _ _ _ _ _ _ X2), (exec_app _ _ _ _ _ _ _ X3), X4.
  - cbn [description_files]. eapply Forall2_impl; [exact G|]. intros [k ivs] ev Hev. cbn. pose proof Hev as (c & _ & _ & _ & Hc & _). cbn in Hc.
    destruct (lookup_lt_is_Some_2 (all_ops specs) k) as [op Hop]; [rewrite <- (cm_length _ _ Hok); by eapply lookup_lt_Some|]. exists op. split; [done|].
    by apply (event_executes rt _ _ Hok Hgood k).
Qed.
