(* ===== verification/BundleTotal.v ===== *)
(** * A bundle is generated

    When every operation can be described on its own, the loops around an operation are as many as its tiling
    asks for, trip counts are integers and the pool fits, the bundle is generated. *)

From S2P Require Import Prelude PyDict SdscSymbols SdscIdents Bundle BundleRun BundleBody BundleCompile BundleSafe.

(** ** Descriptions from any offset *)

Section offset.
Context (off : Z) (spec : SDSCSpec) (tiled : list (list string)).

Lemma symbol_index_shift k r r0 i0 : shifted off r r0 -> symbol_index k r0 = Ok i0 -> exists i, symbol_index k r = Ok i.
Proof.
  unfold shifted, symbol_index, kgetitem. intros ->. rewrite kget_shift. destruct (kget (local_symbols r0) k); [|done]. intros _. by eexists.
Qed.

Lemma register_base_shift_Ok nb core0 t r r0 rb0 : shifted off r r0 -> register_base 0 spec nb core0 t r0 = Ok rb0 -> exists rb, register_base off spec nb core0 t r = Ok rb.
Proof.
  intros H. unfold register_base. destruct (arg_index t <? 0); [by eexists|]. intros H2. apply bind_Ok in H2 as (k0 & Hk0 & H2).
  pose proof (register_shift off spec (arg_index t) (kernel (arg_index t)) (kernel (arg_index t)) r r0 eq_refl H) as H1.
  destruct (symbol_index_shift _ _ _ _ H1 Hk0) as [k ->]. cbn [mbind res_bind]. destruct (0 <? total_slice_offset nb t); [|by eexists].
  apply bind_Ok in H2 as (b0 & Hb0 & _). destruct (symbol_index_shift _ _ _ _ (register_shift off spec core0 _ (kernel_slice (arg_index t) (total_slice_offset nb t)) _ _ eq_refl H1) Hb0) as [b ->]. by eexists.
Qed.

Lemma register_core_shift_Ok t core0 b b0 split c r r0 r0' : register_core 0 spec t core0 b0 split c r0 = Ok r0' -> exists r', register_core off spec t core0 b split c r = Ok r'.
Proof.
  unfold register_core. intros (a & -> & H)%bind_Ok. cbn [mbind res_bind]. destruct (arg_index t <? 0); [by eexists|]. destruct (_ || _); by eexists.
Qed.

(** A loop that runs next to one that does. *)
Lemma for_each_beside {A S T} (f : A -> S -> res S) (g : A -> T -> res T) (R : S -> T -> Prop) l :
  (forall x s t t', R s t -> g x t = Ok t' -> exists s', f x s = Ok s' /\ R s' t') -> forall s t t', R s t -> for_each g l t = Ok t' -> exists s', for_each f l s = Ok s' /\ R s' t'.
Proof.
  intros H. induction l as [|x l IH]; intros s t t' HR Hg; [injection Hg as <-; by exists s|]. apply bind_Ok in Hg as (t1 & E & Hg).
  destruct (H _ _ _ _ HR E) as (s1 & E1 & HR1). cbn. rewrite E1. by apply (IH s1 t1).
Qed.

Lemma register_tensor_shift_Ok t s s0 s0' : shifted off s.1 s0.1 /\ s.2 = s0.2 -> register_tensor 0 spec tiled t s0 = Ok s0' -> exists s', register_tensor off spec tiled t s = Ok s'.
Proof.
  destruct s as [r aff], s0 as [r0 aff0]. cbn. intros [H ->] H2. destruct (in_lx t).
  { apply bind_Ok in H2 as (b0 & -> & H2). cbn [mbind res_bind]. apply bind_Ok in H2 as (? & -> & _). by eexists. }
  apply bind_Ok in H2 as (nb & -> & H2). apply bind_Ok in H2 as (c0 & -> & H2). cbn [mbind res_bind]. apply bind_Ok in H2 as (? & -> & H2). cbn [mbind res_bind].
  apply bind_Ok in H2 as (rb0 & Hb0 & H2). destruct (register_base_shift_Ok _ _ _ _ _ _ H Hb0) as [rb Hb]. rewrite Hb. cbn [mbind res_bind]. pose proof (register_base_shift _ _ _ _ _ _ _ _ _ H Hb Hb0) as Hs.
  apply bind_Ok in H2 as (pl & -> & H2). cbn [mbind res_bind]. apply bind_Ok in H2 as (rf0 & Hf0 & _).
  destruct (for_each_beside (register_core off spec t c0 rb.2 (_symbolic_split_info spec t)) (register_core 0 spec t c0 rb0.2 (_symbolic_split_info spec t)) (shifted off) (seq 0 (num_cores spec))) with (2 := Hs) (3 := Hf0) as (rf & -> & _); [|by eexists].
  intros c s1 t1 t2 H1 Ht. destruct (register_core_shift_Ok t c0 rb.2 _ _ _ s1 _ _ Ht) as [s2 Hs2]. exists s2. split; [done|]. by eapply register_core_shift.
Qed.

Lemma register_all_shift_Ok symbols ra0 : for_each (register_tensor 0 spec tiled) (args spec) (start_registry spec [], []) = Ok ra0 ->
  exists ra, for_each (register_tensor off spec tiled) (args spec) (start_registry spec symbols, []) = Ok ra.
Proof.
  intros H. destruct (for_each_beside (register_tensor off spec tiled) (register_tensor 0 spec tiled) (fun s s0 => shifted off s.1 s0.1 /\ s.2 = s0.2) (args spec)) with (3 := H) (s := (start_registry spec symbols, @nil (list (dict Z)))) as (ra & Hra & _); [| done | by exists ra].
  intros t s s0 s0' Hs H0. destruct (register_tensor_shift_Ok t s s0 s0' Hs H0) as [s' Hs']. exists s'. split; [done|]. by eapply register_tensor_shift.
Qed.
End offset.

(** ** Compilation *)

(** An operation whose tensors can be registered. *)
Record op_ready (op : op_spec) : Prop := {
  or_ok : op_ok op;
  or_run : exists ra, for_each (register_tensor 0 (parsed op) (tiled_symbols_per_level op)) (args (parsed op)) (start_registry (parsed op) [], []) = Ok ra
}.

Lemma compile_op_spec_Ok op idx symbols off : op_ready op -> length symbols = off -> exists g, compile_op_spec idx op symbols off = Ok g.
Proof.
  intros [[Hok Hst] [ra0 H0]] Hs. destruct (register_all_shift_Ok (Z.of_nat off) _ _ symbols ra0 H0) as [ra Hra].
  exact (generate_total (mkRuntime (fun _ => 0) 0 (fun _ => 0)) off (parsed op) _ symbols (repeat pool off) Hs (repeat_length _ _) Hok ra Hra idx).
Qed.

Lemma compile_op_Ok done op st : op_ready op -> compile_ok done st -> exists st', compile_op op st = Ok st'.
Proof.
  intros Hop Hst. assert (exists key, (match sdsc_cache st with Some _ => k ← cache_key op; Ok (Some k) | None => Ok None end) = Ok key) as [key Hkey].
  { destruct (sdsc_cache st); [|by eexists]. destruct (compile_op_spec_Ok op 0 [] 0 Hop eq_refl) as [g Hg]. unfold cache_key. rewrite Hg. by eexists. }
  unfold compile_op. rewrite Hkey. cbn [mbind res_bind]. match goal with |- context [compile_op_spec ?i op _ _] => destruct (compile_op_spec_Ok op i (cs_symbols st) (symbol_id_offset_counter st) Hop (eq_sym (cm_offset _ _ Hst))) as [g ->] end. by eexists.
Qed.

Lemma compile_all_Ok specs cache : (forall op, op ∈ all_ops specs -> op_ready op) -> cache = None \/ cache = Some [] ->
  exists st, _compile_specs specs (mkCompiling [] [] 0 0 cache []) = Ok st /\ compile_ok (all_ops specs) st.
Proof.
  intros Hops Hc. rewrite compile_all. apply (for_each_total _ compile_ok).
  - intros done op rest s1 E H1. assert (op_ready op) as Hop by (apply Hops; rewrite E; list_mem). destruct (compile_op_Ok done op s1 Hop H1) as [s2 H2]. exists s2. split; [done|]. by eapply compile_op_ok; [apply Hop | |].
  - split; cbn; [done | done | done | done | done|]. intros l key i c -> Hin. destruct Hc as [? | [= ->]]; [done|]. by apply elem_of_nil in Hin.
Qed.

(** The strides have a level for each level of the tiling. *)
Lemma generate_levels off spec tiled idx symbols g : generate_sdsc off spec tiled idx symbols = Ok g -> forall d, d ∈ affine_strides g -> length d = length tiled.
Proof.
  unfold generate_sdsc. intros (ra & Hr & H)%bind_Ok. apply bind_Ok in H as (ns & _ & [= <-]). cbn.
  revert Hr. refine (for_each_ind _ (fun _ ra => forall d, d ∈ ra.2 -> length d = length tiled) _ _ _ _ _); [|by intros d ?%elem_of_nil].
  intros done t rest [r aff] [r' aff'] _ IH H. cbn in *. destruct (in_lx t).
  - apply bind_Ok in H as (b & _ & H). apply bind_Ok in H as (_ & _ & [= <- <-]). intros d [Hd | ->%list_elem_of_singleton]%elem_of_app; [by apply IH | by rewrite length_fmap].
  - apply bind_Ok in H as (nb & _ & H). apply bind_Ok in H as (c0 & _ & H). apply bind_Ok in H as (_ & _ & H). apply bind_Ok in H as (rb & _ & H). apply bind_Ok in H as (pl & Hpl & H).
    apply bind_Ok in H as (rf & _ & [= <- <-]). intros d [Hd | ->%list_elem_of_singleton]%elem_of_app; [by apply IH|]. destruct (existsb _ pl); [|by rewrite length_fmap].
    apply py_map_Ok in Hpl. symmetry. by eapply Forall2_length.
Qed.

(** ** Collection and emission *)

(** Every operation has a loop for each level of its tiling. *)
Fixpoint levels_ok (depth : nat) (e : spec_entry) : Prop :=
  match e with
  | LoopSpec _ body => (fix all (l : list spec_entry) : Prop := match l with [] => True | e :: l => levels_ok (S depth) e /\ all l end) body
  | OpSpec op => (length (tiled_symbols op) <= depth)%nat
  | UnimplementedOp => True
  end.

Lemma levels_loop depth c body : levels_ok depth (LoopSpec c body) <-> forall e, e ∈ body -> levels_ok (S depth) e.
Proof.
  cbn. induction body as [|e body IH]; [split; [by intros _ ? ?%elem_of_nil | done]|]. rewrite IH. split.
  - intros [H1 H2] e' [-> | Hin]%elem_of_cons; auto.
  - intros H. split; [apply H; list_mem | intros e' He'; apply H; by right].
Qed.

Section total.
Context (kinds : list SymbolKind) (canon : list (nat * ssa)) (maps : list (list Z)).
Context (entries : list compiled_entry) (lvs : list (list (list nat))) (bounds : list (option Z)) (ops : list op_spec).

(** The entries are of the operations: named, with as many levels as the tiling. *)
Definition entries_of : Prop := Forall2 (fun op c => c_cached c <> [] /\ forall d, d ∈ c_strides c -> length d = length (tiled_symbols op)) ops entries.

Context (Hof : entries_of).

Lemma stride_terms_total depth d : (length d <= depth)%nat -> exists ts, stride_terms (seq 0 depth) d = Ok ts.
Proof.
  intros Hd. unfold stride_terms. destruct (py_map_total (fun il : nat * dict Z => if bool_decide (il.2 = []) then Ok [] else match seq 0 depth !! il.1 with None => Raise AssertionError | Some lv => Ok ((fun s => (s, lv)) <$> dvalues il.2) end) (imap pair d)) as [tss ->]; [|by eexists].
  intros [l x] [k Hk]%list_elem_of_lookup. rewrite list_lookup_imap in Hk. destruct (d !! k) eqn:E; [|done]. injection Hk as <- <-. cbn. case_bool_decide; [by eexists|]. rewrite lookup_seq_lt; [by eexists|]. apply lookup_lt_Some in E. lia.
Qed.

(** The operations of [e] are those from [k] on. *)
Record next (k : nat) (l : list op_spec) (cst : collecting) : Prop := {
  ne_entries : co_entries cst = drop k entries;
  ne_length : length (loop_var_indices cst) = k;
  ne_ops : l `prefix_of` drop k ops
}.

Lemma next_entry k op l cst : next k (op :: l) cst -> exists c, drop k entries = c :: drop (S k) entries /\ entries !! k = Some c /\ c_cached c <> [] /\ forall d, d ∈ c_strides c -> length d = length (tiled_symbols op).
Proof.
  intros [_ _ [rest E]]. assert (ops !! k = Some op) as Hop by (rewrite <- (Nat.add_0_r k), <- lookup_drop, E; done).
  destruct (Forall2_lookup_l _ _ _ _ _ Hof Hop) as (c & Hc & H1 & H2). exists c. split_and!; [by apply drop_S | done | done | done].
Qed.

Lemma next_app k l m cst cst' : next k (l ++ m) cst -> consumed entries k (length l) cst cst' -> next (k + length l) m cst'.
Proof.
  intros [E1 E2 [rest E3]] [C1 C2 _ _]. split; [done | done|]. rewrite <- drop_drop, E3, <- app_assoc, drop_app_length. by eexists.
Qed.

Lemma next_less k l m cst : next k (l ++ m) cst -> next k l cst.
Proof. intros [E1 E2 [rest E3]]. split; [done | done|]. rewrite E3, <- app_assoc. by eexists. Qed.

Definition collects_total (e : spec_entry) : Prop := forall depth k cst, next k (entry_ops e) cst -> levels_ok depth e -> exists cst', collect_entry (seq 0 depth) e cst = Ok cst'.

Lemma collect_list_total body : Forall collects_total body -> forall depth k cst, next k (all_ops body) cst -> (forall e, e ∈ body -> levels_ok depth e) ->
  exists cst', for_each (collect_entry (seq 0 depth)) body cst = Ok cst'.
Proof.
  induction 1 as [|e body He _ IH]; intros depth k cst Hn Hl; [by eexists|]. unfold all_ops in Hn. cbn in Hn |- *.
  destruct (He depth k cst (next_less _ _ _ _ Hn)) as [c1 H1]; [apply Hl; list_mem|]. rewrite H1. cbn [mbind res_bind].
  pose proof (collect_ok entries e _ _ _ _ (ne_entries _ _ _ Hn) (ne_length _ _ _ Hn) H1) as C1. apply (IH depth _ c1 (next_app _ _ _ _ _ Hn C1)). intros e' He'. apply Hl. by right.
Qed.

Lemma collect_total e : collects_total e.
Proof.
  induction e as [c body IH | o |] using spec_entry_rect'; intros depth k cst Hn Hl.
  - cbn [collect_entry]. rewrite seq_snoc. eapply collect_list_total; [exact IH | exact Hn | exact (proj1 (levels_loop depth c body) Hl)].
  - cbn. destruct (next_entry _ _ _ _ Hn) as (c & E & _ & _ & Hlev). rewrite (ne_entries _ _ _ Hn), E.
    destruct (for_each_total (collect_tensor (seq 0 depth)) (fun _ _ => True) (c_strides c) (affine_map_index cst, [])) as (r & -> & _); [| done | by eexists].
    intros dn d rest s1 Ed _. destruct (stride_terms_total depth d) as [ts Hts]; [rewrite (Hlev d) by (rewrite Ed; list_mem); exact Hl|]. unfold collect_tensor. rewrite Hts. by eexists.
  - by eexists.
Qed.

#[local] Notation ready := (ready maps entries lvs bounds).
#[local] Notation advanced := (advanced entries lvs).

Lemma vars_total (loop_vars : list ssa) (ls : list nat) : (forall l, l ∈ ls -> (l < length loop_vars)%nat) -> exists vars, py_map (py_at loop_vars) ls = Ok vars.
Proof.
  intros H. apply py_map_total. intros l Hl. unfold py_at. destruct (lookup_lt_is_Some_2 loop_vars l (H l Hl)) as [x ->]. by eexists.
Qed.

Lemma upgrade_total (loop_vars : list ssa) c per_tensor ts u : collected maps (length loop_vars) c per_tensor -> ts ∈ imap pair (c_strides c) ->
  exists u', upgrade_tensor kinds canon maps loop_vars (c_json c) per_tensor ts u = Ok u'.
Proof.
  intros Hcol [i Hi]%list_elem_of_lookup. rewrite list_lookup_imap in Hi. destruct (c_strides c !! i) as [d|] eqn:Ed; [|done]. injection Hi as <-. destruct (Hcol i d Ed) as (Hlt & Hper & Hmap).
  unfold upgrade_tensor. cbn [fst snd]. case_bool_decide as Hf; [by eexists|].
  destruct (for_each_total (upgrade_core kinds canon maps loop_vars (c_json c) per_tensor i (flat_strides d)) (fun _ _ => True) (seq 0 (_sdsc_num_cores (c_json c))) u) as (u' & Hu & _); [|done | by exists u'].
  intros dn core rest u1 _ _. unfold upgrade_core. destruct (_get_tensor_core_sym_id _ _ _); [|by eexists]. case_bool_decide; [by eexists|].
  destruct (list_find (fun m => m = flat_strides d) maps) as [[k m]|] eqn:Ef; cbn [mbind res_bind].
  - assert (py_at per_tensor i = Ok (all_terms d).*2) as -> by (unfold py_at; by rewrite Hper). cbn [mbind res_bind]. destruct (vars_total loop_vars (all_terms d).*2) as [vars ->]; [|by eexists].
    intros l ([s l'] & -> & Hl)%list_elem_of_fmap. by eapply Hlt.
  - apply list_find_None in Ef. rewrite Forall_forall in Ef. by destruct (Ef _ (Hmap Hf)).
Qed.

Definition emits_total (e : spec_entry) : Prop := forall loop_vars k b cst cst' est stmts, ready k b (entry_bounds e) cst cst' est -> next k (entry_ops e) cst ->
  collect_entry (seq 0 (length loop_vars)) e cst = Ok cst' -> exists r, emit_entry kinds canon maps loop_vars e (est, stmts) = Ok r /\ advanced k (length (entry_ops e)) b (length (entry_bounds e)) r.1.

Lemma emit_list_total body : Forall emits_total body -> forall loop_vars k b cst cst' est stmts, ready k b (_collect_loop_bounds body) cst cst' est -> next k (all_ops body) cst ->
  for_each (collect_entry (seq 0 (length loop_vars))) body cst = Ok cst' ->
  exists r, for_each (emit_entry kinds canon maps loop_vars) body (est, stmts) = Ok r /\ advanced k (length (all_ops body)) b (length (_collect_loop_bounds body)) r.1.
Proof.
  induction 1 as [|e body He _ IH]; intros loop_vars k b cst cst' est stmts Hr Hn Hc; cbn in Hc |- *.
  - injection Hc as <-. eexists. split; [done | apply Hr].
  - apply bind_Ok in Hc as (mid & C1 & C2). unfold all_ops in Hn. cbn in Hn.
    destruct (He loop_vars k b cst mid est stmts (ready_first _ _ _ _ _ _ _ _ _ _ _ _ _ Hr C1 C2) (next_less _ _ _ _ Hn) C1) as ([est1 stmts1] & -> & A). cbn [mbind res_bind fst] in A |- *.
    pose proof (collect_ok entries e _ _ _ _ (ne_entries _ _ _ Hn) (ne_length _ _ _ Hn) C1) as Co.
    destruct (IH loop_vars _ _ mid cst' est1 stmts1 (ready_rest _ _ _ _ _ _ _ _ _ _ _ _ _ _ Hr C1 C2 A) (next_app _ _ _ _ _ Hn Co) C2) as (r & Hr' & [B1 B2 B3]).
    exists r. split; [done|]. unfold all_ops, _collect_loop_bounds. cbn. rewrite !length_app. split; rewrite ?Nat.add_assoc; done.
Qed.

Lemma emit_total e : emits_total e.
Proof.
  induction e as [count body IH | o |] using spec_entry_rect'; intros loop_vars k b cst cst' est stmts Hr Hn Hc.
  - destruct (ready_body _ _ _ _ _ _ _ _ _ _ _ Hr) as (R7 & Hb & Q). cbn in Hc |- *. rewrite seq_snoc in Hc. replace (S (length loop_vars)) with (length (loop_vars ++ [LoopVar b])) in Hc by (rewrite length_app; cbn; lia).
    rewrite R7. destruct (emit_list_total body IH _ _ _ _ _ _ [] Q Hn Hc) as (r & -> & [A1 A2 A3]). cbn [mbind res_bind]. eexists. split; [done|]. split; cbn; [done | done|]. rewrite A3. unfold _collect_loop_bounds. lia.
  - destruct (ready_op _ _ _ _ _ _ _ _ _ _ _ Hr Hc) as (c & per_tensor & Hk & Ek & Ekl & Hcol & Eb). cbn. unfold emit_op. cbn [fst snd]. rewrite Ek, Ekl.
    destruct (next_entry _ _ _ _ Hn) as (c' & _ & Hk' & Hname & _). assert (c' = c) as -> by congruence. destruct (c_cached c) as [|[name top] tail] eqn:Ec; [done|]. cbn [mbind res_bind].
    destruct (for_each_total (upgrade_tensor kinds canon maps loop_vars (c_json c) per_tensor) (fun _ _ => True) (imap pair (c_strides c)) (mkUpgrading [] [] (addr_counter est))) as (u & -> & _); [|done|].
    { intros dn ts rest u1 E _. destruct (upgrade_total loop_vars c per_tensor ts u1 Hcol) as [u' Hu]; [rewrite E; list_mem | by exists u']. }
    eexists. split; [done|]. split; cbn; rewrite ?Nat.add_1_r; done || lia.
  - eexists. split; [done|]. apply Hr.
Qed.
End total.

Lemma declare_total kinds symbols st : length symbols = length kinds -> exists d, for_each (declare kinds) (imap pair symbols) st = Ok d.
Proof.
  intros Hl. destruct (for_each_total (declare kinds) (fun _ _ => True) (imap pair symbols) st) as (d & Hd & _); [|done | by exists d].
  intros done [i v] rest s1 E _. assert ((i, v) ∈ imap pair symbols) as [j Hj]%list_elem_of_lookup by (rewrite E; list_mem). rewrite list_lookup_imap in Hj. destruct (symbols !! j) eqn:Ej; [|done]. injection Hj as <- <-.
  unfold declare. destruct (_ || _); [by eexists|]. destruct (lookup_lt_is_Some_2 kinds j) as [k ->]; [rewrite <- Hl; by eapply lookup_lt_Some|]. destruct k; try by eexists. by destruct (sliced_base _ _ _); eexists.
Qed.

(** The compiled entries are of the operations. *)
Lemma compiled_entries_of ops st : compile_ok ops st -> (forall op, op ∈ ops -> op_ok op) -> entries_of (cs_compiled st) ops.
Proof.
  intros Hst Hgood. apply Forall2_same_length_lookup_2; [symmetry; apply Hst|]. intros k op c Hop Hc.
  destruct (entry_gen ops st Hst k op Hop) as (c' & idx & s0 & k0 & g & rest & more & Hc' & _ & _ & _ & _ & Hg & _ & E2 & _ & fidx & _ & [R]).
  assert (c' = c) as -> by congruence. destruct R as (? & ? & ? & ? & ? & ? & ? & _ & _ & _ & _ & ->). split; [done|]. rewrite E2. intros d Hd. rewrite (generate_levels _ _ _ _ _ _ Hg d Hd).
  unfold tiled_symbols_per_level. by rewrite length_fmap, length_reverse.
Qed.

