(* ===== verification/BundleExamples.v ===== *)
(** * A kernel and a bundle with their numbers

    Two cores share the dimension [out] of an addition.  Its tensors are an argument, a buffer of the pool and
    a slice of a second argument; the arguments advance with the loop around the operation. *)

From S2P Require Import Prelude PyDict SdscSymbols SdscIdents Bundle BundleRun BundleBody BundleCompile BundleSafe BundleTotal.

Definition tensor (in_pool : bool) (start : Z) (offs : list Z) (arg : Z) (adv : option (string -> res Z)) : SDSCArgs :=
  mkSDSCArgs false in_pool start offs [("out"%string, 256)] [("out"%string, 1)] 64 arg adv.

Definition advance (n : Z) : option (string -> res Z) := Some (fun s => Ok (if bool_decide (s = "t0"%string) then n else 0)).

(** An addition of argument 0 to a slice of another argument, into the pool. *)
Definition sample (pool_offset arg : Z) : SDSCSpec :=
  mkSDSCSpec "add" [tensor false 0 [] 0 (advance 512); tensor true pool_offset [] (-1) None; tensor false arg [64] arg (advance 1024)]
    2 [("out"%string, 2)] [("out"%string, fun c => c)] [] [] "".

Definition add_spec : SDSCSpec := sample 4096 1.

Definition sample_runtime : runtime := mkRuntime (fun a => 65536 * (a + 1)) 1048576 (fun _ => 1).

(** The addresses of the arguments, to compare them. *)
Definition argument_addresses (spec : SDSCSpec) : list (Z * Z) :=
  args spec ≫= (fun t => if in_lx t || (arg_index t <? 0) then [] else
    omap (fun c => match core_address spec t c with Ok a => Some (arg_index t, a) | Raise _ => None end) (seq 0 (num_cores spec))).

Lemma argument_addresses_elem spec t c a : t ∈ args spec -> in_lx t = false -> 0 <= arg_index t -> core_address spec t c = Ok a -> (arg_index t, a) ∈ argument_addresses spec.
Proof.
  intros Ht Hlx Ha H. destruct (core_address_Ok _ _ _ _ H) as [Hc _]. apply list_elem_of_bind. exists t. split; [|done].
  rewrite Hlx, (proj2 (Z.ltb_ge _ _) Ha). cbn. apply list_elem_of_omap. exists c. rewrite H. split; [apply elem_of_seq; lia | done].
Qed.

Lemma addresses_apart spec : bool_decide (Forall (fun x => Forall (fun y => x.2 = y.2 -> x.1 = y.1) (argument_addresses spec)) (argument_addresses spec)) = true ->
  forall t t' c c' a, t ∈ args spec -> t' ∈ args spec -> in_lx t = false -> in_lx t' = false -> 0 <= arg_index t -> 0 <= arg_index t' ->
    core_address spec t c = Ok a -> core_address spec t' c' = Ok a -> arg_index t = arg_index t'.
Proof.
  intros H%bool_decide_eq_true t t' c c' a Ht Ht' Hl Hl' Ha Ha' H1 H2. rewrite Forall_forall in H. specialize (H _ (argument_addresses_elem _ _ _ _ Ht Hl Ha H1)).
  rewrite Forall_forall in H. by apply (H _ (argument_addresses_elem _ _ _ _ Ht' Hl' Ha' H2)).
Qed.

Ltac sample_spec_ok := split; [cbn; lia | | | | apply addresses_apart; vm_compute; reflexivity];
  [ intros kv ->%list_elem_of_singleton; done
  | cbn; intros t Ht _ Ha; repeat (apply elem_of_cons in Ht as [->|Ht]; [done|]); by apply elem_of_nil in Ht
  | cbn; intros t nb Ht _ Ha; repeat (apply elem_of_cons in Ht as [->|Ht]; [vm_compute; intros [= <-]; done|]); by apply elem_of_nil in Ht ].

Lemma add_spec_ok : spec_ok add_spec.
Proof. sample_spec_ok. Qed.

Lemma start_addresses_resolve_witness :
  exists g, generate_sdsc 0 add_spec [["t0"%string]] 0 [] = Ok g /\
    forall i t c a, args add_spec !! i = Some t -> in_lx t = false -> core_address add_spec t c = Ok a ->
      exists name top op d j, sdsc_json g = [(name, top)] /\ dscs top = [[(opfunc add_spec, op)]] /\ scheduleTree op !! i = Some (mkNode "hbm" d) /\
        dget d (core_key c) = Some (- (Z.of_nat j + 1)) /\
        (_symbolic_split_info add_spec t = None \/ core_address add_spec t 0 = Ok a ->
         symbol_address sample_runtime (symbols_after g) ([] ++ symbol_kinds g) j = Some (expected_address sample_runtime t a)).
Proof.
  eapply (start_addresses_resolve sample_runtime 0 add_spec [["t0"%string]] [] [] 0); [reflexivity | reflexivity | exact add_spec_ok | vm_compute; reflexivity].
Defined.

(** A loop of four iterations over three additions, the third of which is the first again. *)
Definition sample_op (pool_offset arg : Z) : op_spec := mkOpSpec [0; -1; arg] (sample pool_offset arg) [["d0"%string]] [("d0"%string, "t0"%string)].

Definition sample_specs : list spec_entry := [LoopSpec (Some 4) [OpSpec (sample_op 4096 1); OpSpec (sample_op 8192 2); OpSpec (sample_op 4096 1)]].

Definition sample_config : bundle_config := mkBundleConfig true false true.

Lemma sample_alike pool_offset arg : 0 < arg -> forall t t' : SDSCArgs, t ∈ args (sample pool_offset arg) -> t' ∈ args (sample pool_offset arg) -> same_base t t' -> t = t'.
Proof.
  intros Ha t t' Ht Ht' [H | H]; cbn in Ht, Ht'; repeat (apply elem_of_cons in Ht as [-> | Ht]; [|]); try (by apply elem_of_nil in Ht);
    repeat (apply elem_of_cons in Ht' as [-> | Ht']; [|]); try (by apply elem_of_nil in Ht'); cbn in H; (done || lia).
Qed.

Lemma sample_op_safe pool_offset arg : 0 < arg -> spec_ok (sample pool_offset arg) -> op_safe (sample_op pool_offset arg).
Proof.
  intros Ha Hok. split; [by split|]. cbn. intros t t' c c' a d d' ivs Ht Ht' _ _ Hb _ _ Hd Hd'. rewrite (sample_alike _ _ Ha t t' Ht Ht' Hb) in Hd. congruence.
Qed.

Lemma sample_specs_safe op : op ∈ all_ops sample_specs -> op_safe op.
Proof.
  cbn. intros H. repeat (apply elem_of_cons in H as [-> | H]; [apply sample_op_safe; [done|]; sample_spec_ok|]). by apply elem_of_nil in H.
Qed.

Lemma bundle_computes_addresses_witness : exists b e t, generate_bundle sample_config sample_specs 65536 = Ok b /\ exec (affine_maps b) (pool_base sample_runtime) (statements b) (launch sample_runtime b) = Some (e, t) /\
  length t = 12%nat /\
  Forall2 (fun ki ev => exists op, all_ops sample_specs !! ki.1 = Some op /\ executes sample_runtime (description_files b) op ki.2 ev) (schedule 0 [] sample_specs) t.
Proof.
  destruct (generate_bundle sample_config sample_specs 65536) as [b|x] eqn:Eb; [|exfalso; revert Eb; vm_compute; discriminate].
  destruct (bundle_computes_addresses sample_runtime sample_config sample_specs 65536 b sample_specs_safe Eb) as (e & t & X & G).
  exists b, e, t. split_and!; [reflexivity | exact X | rewrite <- (Forall2_length _ _ _ G); vm_compute; reflexivity | exact G].
Defined.

(** ** Generation of the sample *)

Lemma sample_op_ready pool_offset arg : spec_ok (sample pool_offset arg) ->
  (exists ra, for_each (register_tensor 0 (sample pool_offset arg) [["t0"%string]]) (args (sample pool_offset arg)) (start_registry (sample pool_offset arg) [], []) = Ok ra) -> op_ready (sample_op pool_offset arg).
Proof. intros Hok Hrun. split; [by split | exact Hrun]. Qed.


(** ** Two reads of one argument *)

(** An operation that reads argument 0 tile by tile and as a whole. *)
Definition shared_op : op_spec :=
  mkOpSpec [0; 0; 1] (mkSDSCSpec "matmul" [tensor false 0 [] 0 (advance 512); tensor false 0 [] 0 None; tensor false 1 [] 1 (advance 512)] 1 [("out"%string, 1)] [("out"%string, fun _ => 0)] [] [] "")
    [["d0"%string]] [("d0"%string, "t0"%string)].

Definition shared_specs : list spec_entry := [LoopSpec (Some 2) [OpSpec shared_op]].

(** Tensors of one operation that start at one address share its identifier, and the first
    that advances decides for all: in the second iteration the argument that is read as a
    whole is bound to the address of the second tile. *)
Example shared_symbol_advances : exists b ev name top o data id, generate_bundle sample_config shared_specs 65536 = Ok b /\
  snd <$> exec (affine_maps b) (pool_base sample_runtime) (statements b) (launch sample_runtime b) = Some [mkEvent "sdsc_0.json" [-1; -2] [65536; 131072]; ev] /\
  dget (description_files b) (ev_file ev) = Some [(name, top)] /\ dscs top = [[("matmul"%string, o)]] /\ scheduleTree o !! 1%nat = Some (mkNode "hbm" data) /\ dget data (core_key 0) = Some id /\
  tile_strides shared_op (tensor false 0 [] 0 None) = Ok [[]] /\ arg_base sample_runtime 0 = 65536 /\ zget (zip (ev_ids ev) (ev_values ev)) id = Some (65536 + 1024).
Proof. do 7 eexists. split_and!; vm_compute; reflexivity. Qed.
